(* ===== verification/_CoqProject ===== *)
-Q . S2P
Prelude.v
Keys.v
Entries.v
Table.v
TableInv.v
TableBuild.v
TableCheck.v
TableOps.v
TableUpdate.v
TableFromArray.v
TableSetOps.v
TableSets.v
TableWalks.v
Collections.v
Mir.v
MirOptimize.v
MirSem.v
MirPasses.v
MirSetup.v
Registers.v
RegAlloc.v
RegAllocRanges.v
RegAllocSim.v
Jit.v
Bytecode.v
BytecodeLayout.v
SlotAlloc.v
SlotAllocSound.v
BytecodeOpt.v
BytecodeSem.v
BytecodeEdit.v
BytecodeOptSound.v
BytecodeCheck.v
FastVm.v
Tokens.v
LexScan.v
Lexer.v
LexScanFacts.v
LexStep.v
LexRun.v
LexLines.v
LexerProps.v
Cst.v
ParserState.v
CstRepr.v
ParserLook.v
ParserParts.v
ParserExpr.v
ParserDecl.v
ParserLogic.v
ParserSteps.v
ParserPartsOk.v
ParserExprOk.v
ParserDeclOk.v
ParserRun.v
ParserNodes.v
ParserProps.v
ObjHeader.v
FreeList.v
FreeListInv.v
FreeListOps.v
FreeListBulk.v
FreeListHistory.v
Growable.v
GrowableOps.v
BumpPtr.v
BumpThreads.v
GcState.v
GcPacing.v
GcMinor.v
GcMinorInv.v
GcMinorOk.v
GcSpaces.v
LargeObj.v
GcMajor.v
GcMajorOk.v
GcSound.v
GcProgram.v
MemoryProps.v
GcProps.v
