(* ===== verification/Prelude.v ===== *)
(** * Camel: a verification library for its core

    Camel is a programming language with a compiler and a run time written in C++ (src/src,
    src/include/camel). A source text is lexed and parsed into a concrete syntax tree; the tree is
    made into an AST, typed and lowered to graphs; the graphs are compiled to the bytecode of the
    FastVM, which is interpreted or, function by function, translated to machine code; the running
    program works on the values of the run time. This library models five stretches of that way,
    each the code of whole files, and shows what is right about them:

      - front: bytes to tokens to syntax tree      (src/src/parse/syntax)
      - FastVM: the bytecode and its optimizer     (src/src/passes/sched/fastvm)
      - JIT: the machine IR, its optimizer, and registers
                                                   (src/src/passes/sched/fastvm/jit/mir, .../regalloc)
      - run time: Map and Set                      (src/src/core/rtdata: collection, collection_tree, collection_ops)
      - memory: the allocators and the collector   (src/include/camel/core/mm, src/src/core/mm: gen, growable)

    The definitions follow the source function by function and keep its names. What the source
    does with assignments is state passing; a loop is a structural recursion or one with fuel, and
    the theorems show that the fuel is enough; a failure of the source (an assertion, an index out
    of range, an endless loop) is [None], and the theorems show where it does not happen.

    ** The files

    Prelude.v (this file): automation, guarded definitions, the halving search, lemmas on lists.

    Map and Set. Keys.v is [compareKeys] over the values that can be keys, and the class [KeyOrder]
    the tree is written against. Table.v is collection_tree.h and collection_tree.cpp: the tables
    (an inductive value; the source never changes a table once it is built), the widths of leaves
    and branches, search, the bottom-up builder, the cursor, [validate]. TableOps.v and
    TableSetOps.v are collection_ops.cpp: the point updates; the operations on two collections and
    the walks. Entries.v is the abstract specification, strictly sorted lists of entries; TableInv.v
    is the invariant [wf] of the header collection.h. TableBuild.v, TableCheck.v,
    TableUpdate.v, TableFromArray.v, TableSets.v, TableWalks.v prove that every function
    implements its operation on [Entries] and keeps [wf], with every guard of the source true.
    Collections.v holds the properties.

    JIT. Mir.v is mir.h, MirOptimize.v is mir_optimize.cpp, pass by pass; MirSem.v gives the IR an
    execution in which what the source only calls (arithmetic, helpers, the machine stack) is a
    parameter; MirPasses.v and MirSetup.v show that each pass and
    [runMirOptimizationPasses] preserve it. Registers.v and RegAlloc.v are the part of regalloc.cpp
    for virtual registers ([collectVRegDefUse], [linearScanVReg]); RegAllocRanges.v shows what the
    live ranges are and that the scan succeeds exactly when an allocation exists,
    RegAllocSim.v that code in registers simulates code in virtual registers: there is one file of
    registers, in which the values share rax, rcx and rdx with the operations on fixed registers
    (the result of a call, the operands of a division), and [fixedApart] decides whether a buffer
    keeps the two apart. Jit.v holds the properties.

    FastVM. Bytecode.v is bytecode.h and bytecode.cpp: 16-byte units, headers, operands, extra
    words, the packed fields. BytecodeLayout.v reads back what [appendBytecode] writes. SlotAlloc.v
    is the part of regalloc.cpp for frame slots, SlotAllocSound.v its soundness. BytecodeOpt.v is
    optimize.h and optimize.cpp; BytecodeSem.v an execution of bytecode with concrete control flow;
    BytecodeEdit.v the removal of one instruction; BytecodeOptSound.v the strategies and the driver
    loop; BytecodeCheck.v decides the conditions on concrete code. FastVm.v holds the properties.

    Lexer. Tokens.v is token.h, token_kinds.def and the members of [TokenBuffer]; LexScan.v and
    Lexer.v are lexer.cpp: character classes, the keyword table, the scanners of strings, and
    [tokenizeImpl] with a definition per case of its loop ([lexStep] is one turn). LexScanFacts.v,
    LexStep.v and LexRun.v show what a turn does and what a whole pass
    leaves ([lexed]), the passes over the interpolations of formatted strings included; LexLines.v
    is the line table, the neighbours of a token and the two readers of nested strings.
    LexerProps.v holds the properties.

    Parser. Cst.v is cst.h and node_kinds.def: the arrays of nodes and child words, errors, the
    searches. ParserState.v is [ParserImpl]: its members as a record, a production as a function
    [P A] of it; ParserLook.v its look-aheads; ParserParts.v (names, parameters, arguments, tags,
    types), ParserExpr.v and ParserDecl.v its productions, one definition for each and for the inner
    loops and cases of the long ones; the end of ParserDecl.v ties them together. The productions that can lead
    back to themselves are called through the class [Productions] ([call]), which [productionsFor]
    closes with fuel. CstRepr.v says which tree the arrays stand for. ParserLogic.v is a calculus of
    total correctness ([wp]) over the invariant [wf] of the parser; ParserSteps.v executes a
    production over it; the files ParserPartsOk.v to ParserDeclOk.v specify the productions one by one; ParserRun.v shows
    that parses end; ParserNodes.v that an expression is one node, and reads trees.
    ParserProps.v holds the properties.

    Memory. ObjHeader.v is header.h and the words of memory. FreeList.v is free_list.h, one arena;
    FreeListInv.v says what its words stand for ([tiled], a sequence of blocks), FreeListOps.v and
    FreeListBulk.v what allocation and release do to the blocks, FreeListHistory.v what holds along
    the history of a client. Growable.v is the free-list space of growable.cpp over several arenas,
    with its limit and counters; GrowableOps.v its specification ([spaceOk]). BumpPtr.v is bump_ptr.h
    operation by operation, BumpThreads.v the protocol of its threads as a step relation (one atomic
    operation of the source in a step), with and without store buffers. MemoryProps.v holds the properties of these.

    Collector. GcState.v is the state of gen.h as the record [GC], its settings and counters as the
    record [Pacing], and the interfaces to the old spaces ([OldSpace], whose instances are in
    GcSpaces.v and LargeObj.v, the model of large_obj.h) and to the classes of objects ([Layout],
    what [updateRefs], [onMoved] and [heldBlock] of an object do). GcPacing.v is allocation, the heap
    limit, the requests for a collection and the write barrier; GcMinor.v is [minorGCUnlocked], its
    phases and the functions they call; GcMajor.v the mark and sweep of [majorGCUnlocked],
    [sweepMarked] of src/src/runtime/program.cpp, and the safepoints. GcMinorInv.v is the invariant
    of a minor collection under way; GcMinorOk.v takes it through the phases, from a heap that is
    [ready] to one that is [collected] and ready again; GcMajorOk.v shows that marks are exactly
    what is reached ([traced]), what the sweeps leave ([reclaimed]), and when a request is run.
    GcSound.v is what a heap is between two steps of a program ([sound]), and that safepoints keep
    it and carry what is reached ([carried]); GcProgram.v runs programs of allocations, loads, stores
    and safepoints, and simulates them on a heap of names ([Spec], [sim]). Neither has objects in
    the permanent space, and the graphs that functions carry are roots in them.
    GcProps.v holds the properties, with a small heap they are tried on.

    ** What is shown

    C1-C10 (Collections): put, remove, lookup, fromArray, merge, intersect, difference, isSubset,
    equals, keys, values, items, clone, withSlots do on trees what they say on finite maps, and
    histories of updates refine histories on maps; [validate] decides the invariant; a cursor never
    leaves its path. [compareKeys_total] has the order of the keys.
    C11-C13 (Jit): the optimizer of the IR preserves what an activation does; live ranges are exact;
    the scan is complete; allocated code simulates the code it came from, where the fixed registers
    are used in time ([late_move_lost] has a buffer that does not).
    C14-C16 (FastVm): the bytecode optimizer ends and preserves; encoding round-trips, with the
    bounds of its fields; slots in one register are never live at once. [append_errors] has the
    errors of the encoder, [joinCleanup_loses_arm] the code that a strategy breaks.
    C17-C22 (LexerProps): tokens tile the text, and their spelling, flags, errors and
    interpolations are what the text says; the hash table of keywords is the list of keywords;
    [lines_exact] and [skipQuoted_agrees] have the lines and the two readers of strings.
    C23-C27 (ParserProps): lexing and parsing together are total and lose no token; the arrays hold
    one tree; errors and error nodes agree; [Node::text] is the text of the leaves; an expression
    that parses without errors is one node of an expression kind.
    C28-C34 (MemoryProps): bulk releases make exactly their blocks free, in any order; [validate]
    decides the invariant of an arena ([validate_wraps] has the sizes near 2^64 it is wrong about);
    histories of clients; when a growing space grants and when it
    refuses; exclusive operations of a bump space are alone under sequential consistency, and
    what goes wrong with store buffers. [alloc_first_fit] has the allocation of one block.
    C35-C40 (GcProps): a program with handles, the write barrier and safepoints does on this heap
    what it does on a heap where nothing moves and nothing is freed; a minor collection keeps what is reached and the heap's shape, and needs no
    more than the fuel it is given; marking is exact; a major collection gives back exactly what is
    not reached; a request survives inhibited safepoints and is run by the next free one; large
    objects along every history.
    [limit_counts_garbage], [graph_constant_lost] and [major_asks_again] run the collector on
    heaps where it throws, loses an object and collects again without need.

    ** Bounds and fuel

    Offsets are 32 bits wide in a token: the theorems on texts assume less than 2^32 bytes
    ([fits]). The numbers of tokens and nodes share a word with a flag in the source, which leaves
    them 31 bits, and have no bound here. The count of a table is 32 bits wide in the source and a
    number here: the two agree below 2^32 entries ([few32]), which is what the properties that make a
    larger collection ask of its entries, and they conclude that the count is one of 32 bits
    ([stored]); the properties on collections that are given have it of those. Words of bytecode and
    slots of the frame are [Z] with the width written out where it is used.
    A tree of a collection has at most [kMaxHeight] levels wherever a path of that length is used,
    and the widths are those the source selects once at the start. A pass of the lexer has one
    unit of fuel for each byte of its range, nested passes have those of the text. Loops of the
    parser have two units more than there are tokens left (a turn takes a token or is the last but
    one); productions have 7 units for each token and 7 more ([parseFuel]): between two tokens taken a
    call only goes down the six ranks of [ParserLogic.rank]. The look-aheads stop after the number of
    tokens; two of them have limits in the source (512 and 1024 tokens) and keep those. The bytecode
    optimizer has the fuel [FastVm.optimize_preserves] asks for, which grows with the square of the
    code.
    A walk over a free list has one unit for each word of its arena ([walkFuel]): a free block has
    two. The scan of a minor collection has one for each object, fresh object and graph ([scanFuel]):
    with precise types each is queued once. Marking one root has one for every word of every object
    and one more ([markFuel]): an object pushes its references when it is marked, which happens once.
    Addresses of payloads are below 2^47, as [forward] needs; block sizes are below 2^48. The sums
    of [FreeList.validate] wrap at 64 bits; arenas lie below 2^63, as those of a process do, where a
    property needs that. The counters of the collector do not wrap here. The remembered objects of a
    minor collection are gone through in the order of their addresses, where the source has that of
    a hash map, and none is left out for a header that is not valid, as the source would.

    ** What is not modelled

    Text that people read: reports, dumps, printing. The AST and its builder, the type system, the
    construction and the optimization of graphs, the compiler to bytecode: each needs the ones
    before it, and the parser was the first. The interpreters and the machine code: nearly every
    instruction calls native code. The other data of the run time: raw memory. Threads, files, dynamic libraries, the modules of the standard library and
    the tools around the language: they call what is not part of the repository.
    Of memory: the data blocks of arrays (block.cpp) but for what the collector reads of them, the queue
    of deferred releases (a parameter of the safepoints), the growing bump space of growable.cpp,
    the lists that root handles and owners are registered in, and everything of the debug settings:
    stress, poison, the verifier, statistics.
    Of the modelled files: [Collection::updateRefs], the size estimates and printing of mir.cpp, the
    printing, JIT entry and write mask words of bytecode, and [moveup], which nothing calls.

    The order of what may follow: the layouts of the classes of values, which would instantiate
    [Layout]; the words of types in the AST and its builder; type interning and
    resolution; the graphs and the passes on them that are purely structural; the encoder of
    machine code. *)

From Stdlib Require Export Lia ZArith.
From stdpp Require Export base sorting option numbers list relations.

Declare Scope camel_scope.
Delimit Scope camel_scope with camel.
Open Scope camel_scope.
Open Scope nat_scope.

#[global] Arguments Nat.div : simpl never.
#[global] Arguments Nat.modulo : simpl never.
#[global] Arguments Z.of_nat : simpl never.

(** ** Automation

    [csimp] simplifies hypotheses and goals the way most case analyses of this development
    need; [by_cases] splits on the first [decide]/[match] of the goal. *)

Create HintDb camel discriminated.

Ltac csimp := repeat first [ progress simplify_option_eq | progress (simpl in * ) | progress subst ].

Ltac split_all :=
  repeat match goal with
  | |- _ /\ _ => split
  | H : _ /\ _ |- _ => destruct H
  | H : exists _, _ |- _ => destruct H
  end.

(** Case analysis on the innermost boolean test or option of the goal. *)
Ltac case_test :=
  match goal with
  | |- context [ match ?x with _ => _ end ] =>
      lazymatch x with
      | context [ match _ with _ => _ end ] => fail
      | _ => let E := fresh "E" in destruct x eqn:E
      end
  end.

(** ** Guards

    A [GUARD] or an [ASSERT] of the source stops the process when its condition is false. A
    model of a function with such a check returns an [option]: [None] is the stopped process. *)
Definition guarded {A} (b : bool) (k : option A) : option A := if b then k else None.

Notation "'GUARD' b ';;' k" := (guarded b k)
  (at level 100, b at level 99, k at level 200, right associativity) : camel_scope.

Lemma guarded_true {A} (b : bool) (k : option A) : b = true -> guarded b k = k.
Proof. by intros ->. Qed.

Lemma guarded_Some {A} (b : bool) (k : option A) x :
  guarded b k = Some x <-> b = true /\ k = Some x.
Proof. unfold guarded. destruct b; split; try done; intros [? ?]; done. Qed.

(** ** Halving search

    The loop [while (lo < hi) { mid = lo + (hi - lo) / 2; ... }] that the searches within a
    table share. [right mid] reads the element at [mid] and says whether the search goes on to
    its right; reading outside the array gives [None]. *)
Fixpoint bisect (fuel : nat) (right : nat -> option bool) (lo hi : nat) : option nat :=
  if decide (lo < hi) then
    match fuel with
    | O => None
    | S fuel =>
        let mid := lo + (hi - lo) / 2 in
        r ← right mid;
        if (r : bool) then bisect fuel right (mid + 1) hi else bisect fuel right lo mid
    end
  else Some lo.

(** The search ends at the boundary [b] of a predicate that is true below [b] and false from
    there on. *)
Lemma bisect_boundary fuel right lo hi b :
  hi - lo <= fuel -> lo <= b <= hi ->
  (forall i, lo <= i < hi -> right i = Some (bool_decide (i < b))) ->
  bisect fuel right lo hi = Some b.
Proof.
  revert lo hi. induction fuel as [|fuel IH]; intros lo hi Hf Hb Hr; simpl.
  - destruct (decide (lo < hi)); [lia|]. f_equal. lia.
  - destruct (decide (lo < hi)) as [Hlt|]; [|f_equal; lia].
    assert (Hm : (hi - lo) / 2 < hi - lo) by (apply Nat.div_lt; lia).
    assert (Hmid : lo <= lo + (hi - lo) / 2 < hi) by lia.
    generalize dependent (lo + (hi - lo) / 2). intros mid Hmid.
    rewrite Hr by lia. simpl.
    case_bool_decide; apply IH; try lia; intros i Hi; apply Hr; lia.
Qed.

#[global] Arguments bisect : simpl never.

(** ** Sequences read by index

    [mapM f (seq b n)] is the loop that copies entries [b .. b + n) of a sequence given by an
    accessor. *)
Lemma mapM_seq_slice {A} (f : nat -> option A) (l : list A) b n :
  b + n <= length l ->
  (forall i, b <= i < b + n -> f i = l !! i) ->
  mapM f (seq b n) = Some (take n (drop b l)).
Proof.
  revert b. induction n as [|n IH]; intros b Hlen Hf; simpl; [done|].
  rewrite Hf by lia.
  destruct (l !! b) as [x|] eqn:Hx; [|apply lookup_ge_None in Hx; lia].
  simpl. rewrite (IH (S b)) by (lia || (intros; apply Hf; lia)). simpl.
  by rewrite (drop_S l x b).
Qed.

Lemma mapM_seq_ge {A} (f : nat -> option A) b n l :
  mapM f (seq b n) = Some l -> length l = n.
Proof. intros H. apply length_mapM in H. by rewrite length_seq in H. Qed.

(** ** Machine integers

    Unsigned and signed integers of a width are [Z] values; these are the conversions of C++20
    (reduction modulo [2^w], two's complement). *)
Definition wrapu (w : Z) (x : Z) : Z := (x mod 2 ^ w)%Z.
Definition wraps (w : Z) (x : Z) : Z :=
  let y := (x mod 2 ^ w)%Z in if (y <? 2 ^ (w - 1))%Z then y else (y - 2 ^ w)%Z.

Abbreviation u8 := (wrapu 8).
Abbreviation u16 := (wrapu 16).
Abbreviation u32 := (wrapu 32).
Abbreviation u64 := (wrapu 64).
Abbreviation i32 := (wraps 32).
Abbreviation i64 := (wraps 64).

Lemma wrapu_range w x : (0 <= w)%Z -> (0 <= wrapu w x < 2 ^ w)%Z.
Proof. intros. apply Z.mod_pos_bound. lia. Qed.

Lemma wrapu_small w x : (0 <= x < 2 ^ w)%Z -> wrapu w x = x.
Proof. apply Z.mod_small. Qed.

Lemma wraps_range w x : (0 < w)%Z -> (- 2 ^ (w - 1) <= wraps w x < 2 ^ (w - 1))%Z.
Proof.
  intros Hw. unfold wraps.
  assert (H2 : (2 ^ w = 2 * 2 ^ (w - 1))%Z)
    by (rewrite <- Z.pow_succ_r by lia; f_equal; lia).
  pose proof (Z.mod_pos_bound x (2 ^ w)).
  destruct (Z.ltb_spec (x mod 2 ^ w) (2 ^ (w - 1))); lia.
Qed.

Lemma wraps_small w x : (0 < w)%Z -> (- 2 ^ (w - 1) <= x < 2 ^ (w - 1))%Z -> wraps w x = x.
Proof.
  intros Hw Hx. unfold wraps.
  assert (H2 : (2 ^ w = 2 * 2 ^ (w - 1))%Z)
    by (rewrite <- Z.pow_succ_r by lia; f_equal; lia).
  destruct (Z_le_gt_dec 0 x).
  - rewrite Z.mod_small by lia. destruct (Z.ltb_spec x (2 ^ (w - 1))); lia.
  - assert (Hm : (x mod 2 ^ w = x + 2 ^ w)%Z).
    { symmetry. apply (Z.mod_unique_pos x (2 ^ w) (-1)); lia. }
    rewrite Hm. destruct (Z.ltb_spec (x + 2 ^ w) (2 ^ (w - 1))); lia.
Qed.

(** ** Sorting by a numeric key

    [std::sort] by a key. Where no two elements have one key its result is determined, and this
    is it. *)
Section sortBy.
Context {A : Type} (key : A -> nat).
Implicit Types (x y : A) (l : list A).

Fixpoint insertBy x l : list A :=
  match l with
  | [] => [x]
  | y :: l' => if decide (key y < key x) then y :: insertBy x l' else x :: l
  end.
Definition sortBy l : list A := foldr insertBy [] l.

Lemma insertBy_perm x l : insertBy x l ≡ₚ x :: l.
Proof. induction l as [|y l IH]; simpl; [done|]. case_decide; [|done]. rewrite IH. apply perm_swap. Qed.

Lemma sortBy_perm l : sortBy l ≡ₚ l.
Proof. induction l as [|x l IH]; simpl; [done|]. by rewrite insertBy_perm, IH. Qed.

#[local] Abbreviation before := (fun a b => key a < key b).

Lemma insertBy_sorted x l :
  (forall y, y ∈ l -> key y <> key x) -> StronglySorted before l -> StronglySorted before (insertBy x l).
Proof.
  intros Hne. induction 1 as [|y l Hs IH Hy]; simpl; [repeat constructor|]. case_decide as Hlt.
  - constructor; [apply IH; intros; apply Hne; by right|].
    rewrite insertBy_perm. by constructor.
  - assert (key x < key y) by (specialize (Hne y ltac:(left)); lia).
    constructor; [by constructor|]. constructor; [done|].
    eapply Forall_impl; [exact Hy|]. simpl. lia.
Qed.

Lemma sortBy_sorted l : NoDup (key <$> l) -> StronglySorted before (sortBy l).
Proof.
  induction l as [|x l IH]; [constructor|].
  rewrite fmap_cons. intros [Hx Hl]%NoDup_cons. simpl. apply insertBy_sorted; [|by apply IH].
  intros y Hy Heq. apply Hx. rewrite <- Heq. apply list_elem_of_fmap_2.
  by rewrite <- (sortBy_perm l).
Qed.
End sortBy.
