(* ===== verification/Keys.v ===== *)
(** * Keys of collections

    The order of the keys of [Map] and [Set] (src/src/core/rtdata/collection.cpp,
    [compareKeys]) over the run-time values that can be keys, and the interface [KeyOrder] that
    the tree of a collection is written against. A slot is modelled by the value it denotes
    (an integer, a boolean, the bytes of a string, the elements of a tuple, the tag and fields
    of an enum variant); the order looks at contents only, never at addresses. *)

From S2P Require Import Prelude.

(** ** Key types and slots *)

(** The types [collectionKeyProblem] admits: [int], [i32], [bool], [string], tuples and enums
    of those. An enum is given by the field types of its variants, in declaration order. *)
Inductive keyType :=
  | KInt64 | KInt32 | KBool | KString
  | KTuple (elems : list keyType)
  | KEnum (variants : list (list keyType)).

Inductive slot :=
  | SInt (z : Z)
  | SBool (b : bool)
  | SString (data : list Z)
  | STuple (elems : list slot)
  | SVariant (tag : nat) (fields : list slot).

(** [three] of compareKeys: -1, 0 or 1 from [x < y] and [y < x]. *)
Definition three (x y : Z) : Z := if (x <? y)%Z then (-1)%Z else if (y <? x)%Z then 1%Z else 0%Z.

(** [std::memcmp] over the first [n] bytes: the sign of the first difference. *)
Fixpoint memcmp (n : nat) (a b : list Z) : Z :=
  match n, a, b with
  | S n, x :: a, y :: b => if (x =? y)%Z then memcmp n a b else three x y
  | _, _, _ => 0%Z
  end.

(** [String::compare]. *)
Definition stringCompare (a b : list Z) : Z :=
  let cmp := memcmp (length a `min` length b) a b in
  if negb (cmp =? 0)%Z then cmp
  else if (length a <? length b) then (-1)%Z
  else if (length b <? length a) then 1%Z else 0%Z.

(** The loop over the elements of a tuple, or the fields of a variant: the first element that
    differs decides. *)
Fixpoint compareEach (cmps : list (slot -> slot -> Z)) (xs ys : list slot) : Z :=
  match cmps, xs, ys with
  | cmp :: cmps, x :: xs, y :: ys =>
      let order := cmp x y in
      if negb (order =? 0)%Z then order else compareEach cmps xs ys
  | _, _, _ => 0%Z
  end.

(** [compareKeys(a, b, keyType)]. Slots that are not of the type do not occur (the static type
    checks of the language), and the last case covers them. *)
Fixpoint compareKeys (keyType : keyType) (a b : slot) : Z :=
  match keyType, a, b with
  | KEnum variants, SVariant ta fa, SVariant tb fb =>
      let byTag := three (Z.of_nat ta) (Z.of_nat tb) in
      if negb (byTag =? 0)%Z then byTag
      else compareEach (nth ta (map (map compareKeys) variants) []) fa fb
  | KInt64, SInt x, SInt y | KInt32, SInt x, SInt y => three x y
  | KBool, SBool x, SBool y => three (Z.b2z x) (Z.b2z y)
  | KString, SString x, SString y =>
      let order := stringCompare x y in
      if (order <? 0)%Z then (-1)%Z else if (0 <? order)%Z then 1%Z else 0%Z
  | KTuple elems, STuple xs, STuple ys => compareEach (map compareKeys elems) xs ys
  | _, _, _ => 0%Z
  end.

(** Whether a slot holds a value of the type. *)
Fixpoint forallb2 {A B} (f : A -> B -> bool) (l : list A) (k : list B) : bool :=
  match l, k with
  | [], [] => true
  | x :: l, y :: k => f x y && forallb2 f l k
  | _, _ => false
  end.

Definition byteb (z : Z) : bool := (0 <=? z)%Z && (z <? 256)%Z.

Fixpoint typed (t : keyType) (v : slot) : bool :=
  match t, v with
  | KInt64, SInt z => (- 2 ^ 63 <=? z)%Z && (z <? 2 ^ 63)%Z
  | KInt32, SInt z => (- 2 ^ 31 <=? z)%Z && (z <? 2 ^ 31)%Z
  | KBool, SBool _ => true
  | KString, SString s => forallb byteb s
  | KTuple ts, STuple vs => forallb2 (fun f x => f x) (map typed ts) vs
  | KEnum variants, SVariant tag fields =>
      match nth_error (map (map typed) variants) tag with
      | Some fs => forallb2 (fun f x => f x) fs fields
      | None => false
      end
  | _, _ => false
  end.

(** ** The interface *)

(** What a key type promises the tree: a three-way comparison that is a total order whose
    equivalence is equality of contents. *)
Class KeyOrder (K : Type) := {
  kcmp : K -> K -> Z;
  kcmp_opp : forall a b, kcmp b a = (- kcmp a b)%Z;
  kcmp_eq : forall a b, kcmp a b = 0%Z <-> a = b;
  kcmp_trans : forall a b c, (kcmp a b < 0)%Z -> (kcmp b c < 0)%Z -> (kcmp a c < 0)%Z;
}.

(** ** The order of slots of a type *)

(** A comparison that is an order on the values that satisfy [P]. *)
Record ordersOn {A} (P : A -> Prop) (c : A -> A -> Z) : Prop := {
  oo_opp : forall a b, P a -> P b -> c b a = (- c a b)%Z;
  oo_refl : forall a, P a -> c a a = 0%Z;
  oo_eq : forall a b, P a -> P b -> c a b = 0%Z -> a = b;
  oo_trans : forall x y z, P x -> P y -> P z ->
    (c x y < 0)%Z -> (c y z < 0)%Z -> (c x z < 0)%Z;
}.
Arguments oo_opp {A P c}.
Arguments oo_refl {A P c}.
Arguments oo_eq {A P c}.
Arguments oo_trans {A P c}.

Ltac three_cases :=
  unfold three in *; repeat match goal with
  | |- context [ (?x <? ?y)%Z ] => destruct (Z.ltb_spec x y)
  | H : context [ (?x <? ?y)%Z ] |- _ => destruct (Z.ltb_spec x y)
  end.

Lemma three_orders : ordersOn (fun _ : Z => True) three.
Proof. split; intros; three_cases; lia. Qed.

(** An order transported along an injection. *)
Lemma orders_inj {A B} (f : A -> B) (P : A -> Prop) (Q : B -> Prop) c :
  (forall x y, P x -> P y -> f x = f y -> x = y) -> (forall x, P x -> Q (f x)) ->
  ordersOn Q c -> ordersOn P (fun x y => c (f x) (f y)).
Proof.
  intros Hinj HPQ [Ho Hr He Ht]. split; eauto.
Qed.

Lemma orders_ext {A} (P : A -> Prop) c c' :
  (forall x y, P x -> P y -> c x y = c' x y) -> ordersOn P c -> ordersOn P c'.
Proof.
  intros Hc [Ho Hr He Ht]. split; intros.
  - rewrite <- !Hc by done. auto.
  - rewrite <- Hc by done. auto.
  - apply He; [done..|]. by rewrite Hc.
  - rewrite <- Hc in * by done. eauto.
Qed.

(** Byte strings: [stringCompare] is the lexicographic order. *)
Fixpoint lexBytes (a b : list Z) : Z :=
  match a, b with
  | [], [] => 0%Z
  | [], _ => (-1)%Z
  | _, [] => 1%Z
  | x :: a, y :: b => if (x =? y)%Z then lexBytes a b else three x y
  end.

Lemma three_eq0 x y : three x y = 0%Z <-> x = y.
Proof. three_cases; lia. Qed.

Lemma stringCompare_lex a b : stringCompare a b = lexBytes a b.
Proof.
  unfold stringCompare. revert b.
  induction a as [|x a IH]; intros [|y b]; simpl; [done..|].
  specialize (IH b). destruct (Z.eqb_spec x y) as [->|Hne]; [exact IH|].
  destruct (Z.eqb_spec (three x y) 0) as [H0|]; [|done].
  destruct Hne. by apply three_eq0.
Qed.

Lemma lexBytes_sign a b : lexBytes a b = (-1)%Z \/ lexBytes a b = 0%Z \/ lexBytes a b = 1%Z.
Proof.
  revert b. induction a as [|x a IH]; intros [|y b]; simpl; auto.
  destruct (x =? y)%Z; [apply IH|]. three_cases; auto.
Qed.

Lemma lexBytes_orders : ordersOn (fun _ : list Z => True) lexBytes.
Proof.
  split.
  - intros a. induction a as [|x a IH]; intros [|y b] _ _; simpl; try done.
    rewrite (Z.eqb_sym y x). destruct (Z.eqb_spec x y); [by apply IH|].
    three_cases; lia.
  - intros a _. induction a as [|x a IH]; simpl; [done|]. by rewrite Z.eqb_refl.
  - intros a. induction a as [|x a IH]; intros [|y b] _ _; simpl; try done.
    destruct (Z.eqb_spec x y) as [->|]; intros H.
    + f_equal. by apply IH.
    + by apply (proj1 (three_eq0 x y)) in H.
  - intros a. induction a as [|x a IH]; intros [|y b] [|z c] _ _ _; simpl; try done.
    destruct (Z.eqb_spec x y), (Z.eqb_spec y z), (Z.eqb_spec x z); subst; try lia;
      eauto; intros; three_cases; lia.
Qed.

(** Tuples: [compareEach] over orders of the elements is an order of the lists that have one
    element per type. *)
Lemma compareEach_orders (ps : list (slot -> bool)) (cs : list (slot -> slot -> Z)) :
  Forall2 (fun p c => ordersOn (fun v => p v = true) c) ps cs ->
  ordersOn (fun vs => forallb2 (fun f x => f x) ps vs = true) (compareEach cs).
Proof.
  induction 1 as [|p c ps cs Hc Hcs IH].
  - split; simpl; try done. by intros [|? ?] [|? ?].
  - split.
    + intros [|x xs] [|y ys]; simpl; try done. rewrite !andb_true_iff. intros [? ?] [? ?].
      rewrite (oo_opp Hc x y) by done.
      destruct (Z.eqb_spec (c x y) 0) as [->|]; simpl; [by apply (oo_opp IH)|].
      destruct (Z.eqb_spec (- c x y) 0); [lia|done].
    + intros [|x xs]; simpl; [done|]. rewrite andb_true_iff. intros [? ?].
      rewrite (oo_refl Hc) by done. simpl. by apply (oo_refl IH).
    + intros [|x xs] [|y ys]; simpl; try done. rewrite !andb_true_iff. intros [? ?] [? ?].
      destruct (Z.eqb_spec (c x y) 0) as [E|E]; simpl; intros Hz; [|done].
      f_equal; [by apply (oo_eq Hc)|by apply (oo_eq IH)].
    + intros [|x xs] [|y ys] [|z zs]; simpl; try done. rewrite !andb_true_iff.
      intros [? ?] [? ?] [? ?].
      destruct (Z.eqb_spec (c x y) 0) as [E1|E1]; destruct (Z.eqb_spec (c y z) 0) as [E2|E2];
        simpl; intros L1 L2.
      * apply (oo_eq Hc) in E1; [|done..]. apply (oo_eq Hc) in E2; [|done..]. subst.
        rewrite (oo_refl Hc) by done. simpl. by eapply (oo_trans IH _ ys).
      * apply (oo_eq Hc) in E1; [|done..]. subst. by destruct (Z.eqb_spec (c y z) 0).
      * apply (oo_eq Hc) in E2; [|done..]. subst. by destruct (Z.eqb_spec (c x z) 0).
      * assert (c x z < 0)%Z by (by apply (oo_trans Hc x y z)).
        destruct (Z.eqb_spec (c x z) 0); [lia|done].
Qed.

(** Induction over key types, through the lists of a tuple and an enum. *)
Fixpoint keyType_ind' (P : keyType -> Prop)
    (H64 : P KInt64) (H32 : P KInt32) (Hb : P KBool) (Hs : P KString)
    (Ht : forall ts, Forall P ts -> P (KTuple ts))
    (He : forall vs, Forall (Forall P) vs -> P (KEnum vs)) (t : keyType) : P t :=
  let rec := keyType_ind' P H64 H32 Hb Hs Ht He in
  let recs := fix recs ts : Forall P ts :=
    match ts with
    | [] => Forall_nil_2 P
    | t :: ts => Forall_cons_2 P t ts (rec t) (recs ts)
    end in
  match t with
  | KInt64 => H64 | KInt32 => H32 | KBool => Hb | KString => Hs
  | KTuple ts => Ht ts (recs ts)
  | KEnum vs => He vs ((fix go vs : Forall (Forall P) vs :=
      match vs with
      | [] => Forall_nil_2 (Forall P)
      | fs :: vs => Forall_cons_2 (Forall P) fs vs (recs fs) (go vs)
      end) vs)
  end.

Lemma Forall_map_pairs ts :
  Forall (fun t => ordersOn (fun v => typed t v = true) (compareKeys t)) ts ->
  Forall2 (fun p c => ordersOn (fun v => p v = true) c) (map typed ts) (map compareKeys ts).
Proof. induction 1; simpl; constructor; auto. Qed.

(** The order of the values of a key type. *)
Lemma compareKeys_orders t : ordersOn (fun v => typed t v = true) (compareKeys t).
Proof.
  induction t as [| | | |ts IH|vs IH] using keyType_ind'.
  - split; intros; repeat match goal with x : slot |- _ => destruct x; try done end;
      simpl in *; f_equal; three_cases; try lia; try discriminate.
  - split; intros; repeat match goal with x : slot |- _ => destruct x; try done end;
      simpl in *; f_equal; three_cases; try lia; try discriminate.
  - split; intros; repeat match goal with x : slot |- _ => destruct x; try done end;
      repeat match goal with x : bool |- _ => destruct x end; vm_compute in *; congruence.
  - pose proof lexBytes_orders as [Ho Hr He Ht].
    apply (orders_ext _ (fun a b => match a, b with
      | SString x, SString y => lexBytes x y | _, _ => 0%Z end)).
    { intros [] [] ? ?; simpl; try done. rewrite stringCompare_lex.
      by destruct (lexBytes_sign data data0) as [->|[->| ->]]. }
    split.
    + intros [] [] ? ?; try done; auto.
    + intros [] ?; try done; auto.
    + intros [] [] ? ? ?; try done. f_equal; auto.
    + intros [] [] [] ? ? ?; try done. eauto.
  - apply Forall_map_pairs, compareEach_orders in IH as [Ho Hr He Ht]. split.
    + intros [] []; simpl; try done; auto.
    + intros []; simpl; try done; auto.
    + intros [] []; simpl; try done. intros. f_equal; auto.
    + intros [] [] []; simpl; try done; eauto.
  - assert (HV : forall tag fs, nth_error (map (map typed) vs) tag = Some fs ->
      ordersOn (fun l => forallb2 (fun f x => f x) fs l = true)
        (compareEach (nth tag (map (map compareKeys) vs) []))).
    { clear -IH. induction IH as [|fs0 vs Hf HF IHv]; intros [|tag] fs; simpl; try done.
      - intros [= <-]. by apply compareEach_orders, Forall_map_pairs.
      - apply IHv. }
    split.
    + intros [] []; simpl; try done. 
      destruct (nth_error _ tag) eqn:E1; [|done]. destruct (nth_error _ tag0) eqn:E2; [|done].
      intros. destruct (decide (tag = tag0)) as [->|Hne].
      * simplify_eq. rewrite (oo_refl three_orders) by done. simpl. by apply (oo_opp (HV _ _ E1)).
      * three_cases; simpl; lia.
    + intros []; simpl; try done. destruct (nth_error _ tag) eqn:E1; [|done]. intros.
      rewrite (oo_refl three_orders) by done. simpl. by apply (oo_refl (HV _ _ E1)).
    + intros [] []; simpl; try done.
      destruct (nth_error _ tag) eqn:E1; [|done]. destruct (nth_error _ tag0) eqn:E2; [|done].
      intros ? ?. destruct (Z.eqb_spec (three (Z.of_nat tag) (Z.of_nat tag0)) 0) as [E|E]; simpl.
      * apply (proj1 (three_eq0 _ _)) in E. assert (tag = tag0) as -> by lia. simplify_eq.
        intros. f_equal. by apply (oo_eq (HV _ _ E1)).
      * done.
    + intros [] [] []; simpl; try done.
      destruct (nth_error _ tag) eqn:E1; [|done]. destruct (nth_error _ tag0) eqn:E2; [|done].
      destruct (nth_error _ tag1) eqn:E3; [|done]. intros ? ? ?.
      destruct (decide (tag = tag0)) as [->|]; destruct (decide (tag0 = tag1)) as [->|].
      * simplify_eq. rewrite (oo_refl three_orders) by done. simpl. intros.
        by eapply (oo_trans (HV _ _ E1) _ fields0).
      * simplify_eq. three_cases; simpl; lia.
      * simplify_eq. three_cases; simpl; lia.
      * three_cases; simpl; try lia.
Qed.

(** ** The keys of a collection of a given key type *)

(** A key of type [t] is a slot that holds a value of the type. *)
Record keyOf (t : keyType) := Key { keySlot : slot; keySlot_typed : typed t keySlot = true }.
Arguments Key {t}.
Arguments keySlot {t}.
Arguments keySlot_typed {t}.

Lemma keyOf_eq t (a b : keyOf t) : keySlot a = keySlot b -> a = b.
Proof.
  destruct a as [a Ha], b as [b Hb]; simpl. intros ->. f_equal. apply proof_irrel.
Qed.

(** [compareKeys] discharges the interface at every key type. *)
#[export, refine] Instance keyOf_order t : KeyOrder (keyOf t) :=
  {| kcmp := fun a b => compareKeys t (keySlot a) (keySlot b) |}.
Proof.
  - intros [a Ha] [b Hb]. simpl. by apply (oo_opp (compareKeys_orders t)).
  - intros a b. split.
    + intros H. apply keyOf_eq. by apply (oo_eq (compareKeys_orders t)) in H; auto using keySlot_typed.
    + intros ->. apply (oo_refl (compareKeys_orders t)), keySlot_typed.
  - intros [a Ha] [b Hb] [c Hc]. simpl. by apply (oo_trans (compareKeys_orders t)).
Defined.

(** Integers, for examples and witnesses. *)
#[export, refine] Instance Z_order : KeyOrder Z := {| kcmp := three |}.
Proof.
  - intros a b. by apply (oo_opp three_orders).
  - intros a b. apply three_eq0.
  - intros a b c. by apply (oo_trans three_orders).
Defined.

(** ** Derived laws *)
Section laws.
Context `{KeyOrder K}.

Lemma kcmp_refl a : kcmp a a = 0%Z.
Proof. by apply kcmp_eq. Qed.

Lemma kcmp_eq_1 a b : kcmp a b = 0%Z -> a = b.
Proof. apply kcmp_eq. Qed.

Lemma kcmp_lt_irrefl a : ~ (kcmp a a < 0)%Z.
Proof. rewrite kcmp_refl. lia. Qed.

Lemma kcmp_gt a b : (kcmp a b > 0)%Z <-> (kcmp b a < 0)%Z.
Proof. rewrite (kcmp_opp a b). lia. Qed.

#[export] Instance klt_strict : StrictOrder (fun a b => (kcmp a b < 0)%Z).
Proof.
  split.
  - intros a. apply kcmp_lt_irrefl.
  - intros a b c. apply kcmp_trans.
Qed.

#[export] Instance key_eq_dec : EqDecision K.
Proof.
  intros a b. destruct (Z.eq_dec (kcmp a b) 0%Z) as [E|E].
  - left. by apply kcmp_eq_1.
  - right. intros ->. by rewrite kcmp_refl in E.
Defined.

Lemma kcmp_le_lt_trans a b c : (kcmp a b <= 0)%Z -> (kcmp b c < 0)%Z -> (kcmp a c < 0)%Z.
Proof.
  intros Hab Hbc. destruct (Z.eq_dec (kcmp a b) 0%Z) as [E%kcmp_eq_1|]; [by subst|].
  eapply kcmp_trans; [|done]. lia.
Qed.

Lemma kcmp_lt_le_trans a b c : (kcmp a b < 0)%Z -> (kcmp b c <= 0)%Z -> (kcmp a c < 0)%Z.
Proof.
  intros Hab Hbc. destruct (Z.eq_dec (kcmp b c) 0%Z) as [E%kcmp_eq_1|]; [by subst|].
  eapply kcmp_trans; [done|]. lia.
Qed.
End laws.
