(* ===== verification/Entries.v ===== *)
(** * Sorted entries: the specification of a collection

    What a collection is, apart from the tree that holds it: a list of entries in strictly
    ascending key order, and the finite partial map it stands for ([sfind]). The operations of
    the tree are specified by operations on such lists; two sorted lists with the same lookups
    are equal ([sorted_ext]), so an operation is determined by its lookups. *)

From S2P Require Import Prelude Keys.

Section entries.
Context {K V : Type} `{KeyOrder K}.
Implicit Types (l : list (K * V)) (k : K).

Definition elt (a b : K * V) : Prop := (kcmp a.1 b.1 < 0)%Z.
Definition before k (e : K * V) : Prop := (kcmp e.1 k < 0)%Z.
Definition after k (e : K * V) : Prop := (kcmp k e.1 < 0)%Z.
Abbreviation sortedE := (StronglySorted elt).

(** Lookup, insertion (the new entry replaces one with an equal key) and deletion. *)
Fixpoint sfind k l : option V :=
  match l with
  | [] => None
  | (k', v') :: l => if (kcmp k' k =? 0)%Z then Some v' else sfind k l
  end.

Fixpoint sins k (v : V) l : list (K * V) :=
  match l with
  | [] => [(k, v)]
  | (k', v') :: l' =>
      if (kcmp k' k <? 0)%Z then (k', v') :: sins k v l'
      else if (kcmp k' k =? 0)%Z then (k, v) :: l' else (k, v) :: l
  end.

Fixpoint sdel k l : list (K * V) :=
  match l with
  | [] => []
  | (k', v') :: l' => if (kcmp k' k =? 0)%Z then l' else (k', v') :: sdel k l'
  end.

#[local] Instance elt_trans : Transitive elt.
Proof. intros a b c. apply kcmp_trans. Qed.

(** *** Splitting at a key *)

Lemma sorted_cons e l : sortedE (e :: l) <-> Forall (elt e) l /\ sortedE l.
Proof. apply StronglySorted_cons. Qed.

Lemma sorted_app l1 l2 :
  sortedE (l1 ++ l2) <->
  (forall x y, x ∈ l1 -> y ∈ l2 -> elt x y) /\ sortedE l1 /\ sortedE l2.
Proof. rewrite StronglySorted_app. naive_solver. Qed.

(** The entries before, at and after a key. *)
Inductive splitAt k l : list (K * V) -> option V -> list (K * V) -> Prop :=
  | split_absent lo hi : l = lo ++ hi -> Forall (before k) lo -> Forall (after k) hi ->
      splitAt k l lo None hi
  | split_present lo v hi : l = lo ++ (k, v) :: hi -> Forall (before k) lo ->
      Forall (after k) hi -> splitAt k l lo (Some v) hi.

Lemma splitAt_exists k l : sortedE l -> exists lo o hi, splitAt k l lo o hi.
Proof.
  induction l as [|[k' v'] l IH]; intros Hs.
  { exists [], None, []. by constructor. }
  apply sorted_cons in Hs as [Hf Hs].
  destruct (Z.lt_trichotomy (kcmp k' k) 0) as [Hlt|[Heq|Hgt]].
  - destruct (IH Hs) as (lo & o & hi & Hsp).
    destruct Hsp as [lo hi -> ? ?|lo v hi -> ? ?].
    + exists ((k', v') :: lo), None, hi. by constructor; [|constructor|].
    + exists ((k', v') :: lo), (Some v), hi. by constructor; [|constructor|].
  - apply kcmp_eq_1 in Heq as ->. exists [], (Some v'), l.
    by constructor.
  - exists [], None, ((k', v') :: l). constructor; [done..|].
    assert (Hk : (kcmp k k' < 0)%Z) by (rewrite (kcmp_opp k' k); lia).
    constructor; [done|]. eapply Forall_impl; [exact Hf|].
    intros e He. by eapply kcmp_trans.
Qed.

Lemma sfind_app_before k lo l : Forall (before k) lo -> sfind k (lo ++ l) = sfind k l.
Proof.
  induction 1 as [|[k' v'] lo Hb _ IH]; [done|]; simpl.
  destruct (Z.eqb_spec (kcmp k' k) 0); [|done]. unfold before in Hb; simpl in *; lia.
Qed.

Lemma sfind_after k hi : Forall (after k) hi -> sfind k hi = None.
Proof.
  induction 1 as [|[k' v'] hi Ha _ IH]; [done|]; simpl.
  destruct (Z.eqb_spec (kcmp k' k) 0) as [E|]; [|done].
  unfold after in Ha; simpl in *. rewrite (kcmp_opp k' k) in Ha. lia.
Qed.

Lemma sfind_split k l lo o hi : splitAt k l lo o hi -> sfind k l = o.
Proof.
  intros [lo' hi' -> Hlo Hhi|lo' v hi' -> Hlo Hhi]; rewrite sfind_app_before by done.
  - by apply sfind_after.
  - simpl. by rewrite kcmp_refl.
Qed.

Lemma sins_app_before k v lo l : Forall (before k) lo -> sins k v (lo ++ l) = lo ++ sins k v l.
Proof.
  induction 1 as [|[k' v'] lo Hb _ IH]; [done|]; simpl.
  unfold before in Hb; simpl in Hb. rewrite (proj2 (Z.ltb_lt _ _)) by done. by rewrite IH.
Qed.

Lemma sins_after k v hi : Forall (after k) hi -> sins k v hi = (k, v) :: hi.
Proof.
  destruct 1 as [|[k' v'] hi Ha _]; [done|]; simpl. unfold after in Ha; simpl in Ha.
  assert (0 < kcmp k' k)%Z by (rewrite (kcmp_opp k k'); lia).
  destruct (Z.ltb_spec (kcmp k' k) 0); [lia|].
  by destruct (Z.eqb_spec (kcmp k' k) 0); [lia|].
Qed.

Lemma sins_split k v l lo o hi : splitAt k l lo o hi -> sins k v l = lo ++ (k, v) :: hi.
Proof.
  intros [lo' hi' -> Hlo Hhi|lo' v' hi' -> Hlo Hhi]; rewrite sins_app_before by done.
  - by rewrite sins_after.
  - simpl. by rewrite kcmp_refl.
Qed.

Lemma sdel_app_before k lo l : Forall (before k) lo -> sdel k (lo ++ l) = lo ++ sdel k l.
Proof.
  induction 1 as [|[k' v'] lo Hb _ IH]; [done|]; simpl. unfold before in Hb; simpl in Hb.
  destruct (Z.eqb_spec (kcmp k' k) 0); [lia|]. by rewrite IH.
Qed.

Lemma sdel_after k hi : Forall (after k) hi -> sdel k hi = hi.
Proof.
  induction 1 as [|[k' v'] hi Ha _ IH]; [done|]; simpl. unfold after in Ha; simpl in Ha.
  destruct (Z.eqb_spec (kcmp k' k) 0); [rewrite (kcmp_opp k' k) in Ha; lia|]. by rewrite IH.
Qed.

Lemma sdel_split k l lo o hi : splitAt k l lo o hi -> sdel k l = lo ++ hi.
Proof.
  intros [lo' hi' -> Hlo Hhi|lo' v' hi' -> Hlo Hhi]; rewrite sdel_app_before by done.
  - by rewrite sdel_after.
  - simpl. by rewrite kcmp_refl.
Qed.

(** An operation at [k] on a list whose ends are before and after [k] acts on the middle. *)
Lemma splitAt_app k a l b lo o hi :
  Forall (before k) a -> Forall (after k) b -> splitAt k l lo o hi ->
  splitAt k (a ++ l ++ b) (a ++ lo) o (hi ++ b).
Proof.
  intros Ha Hb [lo' hi' -> Hlo Hhi|lo' v' hi' -> Hlo Hhi]; constructor;
    try (by apply Forall_app_2); by rewrite <- !app_assoc.
Qed.

Lemma sfind_app k a l b :
  sortedE l -> Forall (before k) a -> Forall (after k) b -> sfind k (a ++ l ++ b) = sfind k l.
Proof.
  intros Hs Ha Hb. destruct (splitAt_exists k l Hs) as (lo & o & hi & Hsp).
  rewrite (sfind_split _ _ _ _ _ Hsp).
  by eapply sfind_split, splitAt_app.
Qed.

Lemma sins_app k v a l b :
  sortedE l -> Forall (before k) a -> Forall (after k) b ->
  sins k v (a ++ l ++ b) = a ++ sins k v l ++ b.
Proof.
  intros Hs Ha Hb. destruct (splitAt_exists k l Hs) as (lo & o & hi & Hsp).
  rewrite (sins_split _ _ _ _ _ _ Hsp), (sins_split k v _ (a ++ lo) o (hi ++ b)) by
    (by apply splitAt_app).
  by rewrite <- !app_assoc.
Qed.

Lemma sdel_app k a l b :
  sortedE l -> Forall (before k) a -> Forall (after k) b ->
  sdel k (a ++ l ++ b) = a ++ sdel k l ++ b.
Proof.
  intros Hs Ha Hb. destruct (splitAt_exists k l Hs) as (lo & o & hi & Hsp).
  rewrite (sdel_split _ _ _ _ _ Hsp), (sdel_split k _ (a ++ lo) o (hi ++ b)) by
    (by apply splitAt_app).
  by rewrite <- !app_assoc.
Qed.

(** *** Order is kept *)

Lemma before_after_elt k x y : before k x -> after k y -> elt x y.
Proof. unfold before, after, elt. apply kcmp_trans. Qed.

Lemma splitAt_sorted k l lo o hi : splitAt k l lo o hi -> sortedE l ->
  Forall (before k) lo /\ Forall (after k) hi /\ sortedE lo /\ sortedE hi.
Proof.
  intros [lo' hi' -> Hlo Hhi|lo' v' hi' -> Hlo Hhi] Hs; apply sorted_app in Hs as (_ & ? & Hs);
    [|apply sorted_cons in Hs as [_ Hs]]; done.
Qed.

Lemma sorted_around k lo hi :
  Forall (before k) lo -> Forall (after k) hi -> sortedE lo -> sortedE hi ->
  sortedE (lo ++ hi) /\ forall v, sortedE (lo ++ (k, v) :: hi).
Proof.
  intros Hlo Hhi Sl Sh. rewrite !Forall_forall in *. split.
  - apply sorted_app. split_and!; eauto using before_after_elt.
  - intros v. apply sorted_app. split_and!; [|done|].
    + intros x y Hx [->|Hy]%elem_of_cons; [by apply Hlo|]. eauto using before_after_elt.
    + apply sorted_cons. split; [|done]. by apply Forall_forall.
Qed.

Lemma sins_sorted k v l : sortedE l -> sortedE (sins k v l).
Proof.
  intros Hs. destruct (splitAt_exists k l Hs) as (lo & o & hi & Hsp).
  rewrite (sins_split _ _ _ _ _ _ Hsp).
  destruct (splitAt_sorted _ _ _ _ _ Hsp Hs) as (? & ? & ? & ?). by apply sorted_around.
Qed.

Lemma sdel_sorted k l : sortedE l -> sortedE (sdel k l).
Proof.
  intros Hs. destruct (splitAt_exists k l Hs) as (lo & o & hi & Hsp).
  rewrite (sdel_split _ _ _ _ _ Hsp).
  destruct (splitAt_sorted _ _ _ _ _ Hsp Hs) as (? & ? & ? & ?).
  by apply (sorted_around k).
Qed.

(** *** Lookups of the results *)

Lemma sfind_elem k v l : sortedE l -> sfind k l = Some v <-> (k, v) ∈ l.
Proof.
  induction l as [|[k' v'] l IH]; simpl; intros Hs.
  { split; [done|]. by intros ?%elem_of_nil. }
  apply sorted_cons in Hs as [Hf Hs]. rewrite elem_of_cons.
  destruct (Z.eqb_spec (kcmp k' k) 0) as [E|E].
  - apply kcmp_eq_1 in E as ->. split; [intros [= ->]; by left|].
    intros [[= ->]|Hin]; [done|]. rewrite Forall_forall in Hf. apply Hf in Hin.
    by apply kcmp_lt_irrefl in Hin.
  - rewrite IH by done. split; [auto|]. intros [[= -> ->]|]; [|done].
    by rewrite kcmp_refl in E.
Qed.

Lemma sfind_sins k k' v l : sortedE l ->
  sfind k' (sins k v l) = if decide (k = k') then Some v else sfind k' l.
Proof.
  intros Hs. assert (Hs' : sortedE (sins k v l)) by (by apply sins_sorted).
  destruct (splitAt_exists k l Hs) as (lo & o & hi & Hsp).
  case_decide as Hd.
  - subst. apply sfind_elem; [done|]. rewrite (sins_split _ _ _ _ _ _ Hsp).
    apply elem_of_app. right. by left.
  - apply option_eq. intros w. rewrite !sfind_elem by done.
    rewrite (sins_split _ _ _ _ _ _ Hsp).
    destruct Hsp as [lo hi -> ? ?|lo v' hi -> ? ?]; rewrite !elem_of_app, !elem_of_cons;
      naive_solver.
Qed.

Lemma sfind_sdel k k' l : sortedE l ->
  sfind k' (sdel k l) = if decide (k = k') then None else sfind k' l.
Proof.
  intros Hs. assert (Hs' : sortedE (sdel k l)) by (by apply sdel_sorted).
  destruct (splitAt_exists k l Hs) as (lo & o & hi & Hsp).
  apply option_eq. intros w. rewrite sfind_elem by done.
  rewrite (sdel_split _ _ _ _ _ Hsp). case_decide as Hd.
  - subst. split; [|done]. destruct (splitAt_sorted _ _ _ _ _ Hsp Hs) as (Hlo & Hhi & _).
    rewrite !Forall_forall in *. intros [Hin|Hin]%elem_of_app;
      [apply Hlo in Hin|apply Hhi in Hin]; by apply kcmp_lt_irrefl in Hin.
  - rewrite sfind_elem by done.
    destruct Hsp as [lo hi -> ? ?|lo v' hi -> ? ?]; rewrite !elem_of_app, ?elem_of_cons;
      naive_solver.
Qed.

(** A collection is determined by its lookups. *)
Lemma sorted_ext l1 l2 :
  sortedE l1 -> sortedE l2 -> (forall k, sfind k l1 = sfind k l2) -> l1 = l2.
Proof.
  intros S1 S2 Hf. apply (StronglySorted_unique_strong elt); [|done|done|].
  - intros x y _ _ Hxy Hyx. exfalso. unfold elt in *.
    rewrite (kcmp_opp x.1 y.1) in Hyx. lia.
  - apply NoDup_Permutation.
    + clear -S1. induction l1 as [|e l IH]; [constructor|]. apply sorted_cons in S1 as [Hf S1].
      constructor; [|by apply IH]. rewrite Forall_forall in Hf. intros Hin%Hf.
      by apply kcmp_lt_irrefl in Hin.
    + clear -S2. induction l2 as [|e l IH]; [constructor|]. apply sorted_cons in S2 as [Hf S1].
      constructor; [|by apply IH]. rewrite Forall_forall in Hf. intros Hin%Hf.
      by apply kcmp_lt_irrefl in Hin.
    + intros [k v]. rewrite <- !sfind_elem by done. by rewrite Hf.
Qed.
End entries.

Abbreviation sortedE := (StronglySorted elt).
