(* ===== verification/Table.v ===== *)
(** * The tables of Map and Set

    The persistent B+ tree behind [Map<K, V>] and [Set<T>]: one table, search within a table,
    the bottom-up builder, the cursor and the check of the invariants
    (src/src/core/rtdata/collection_tree.h and collection_tree.cpp, the constructors of
    collection.cpp). A table is never changed once its operation has returned, so a table is an
    inductive value; the slots it is allocated with (its size in the heap) are kept in it. *)

From S2P Require Import Prelude Keys.

(** ** Widths *)

(** [table::Shape], as the command line chose it. *)
Record Shape := mkShape {
  leafCapacity_ : nat; fanout : nat; padded : bool; validate_ : bool }.

(** [table::ShapeRequest]. *)
Record ShapeRequest := mkRequest {
  rLeafCapacity : option nat; rFanout : option nat;
  rPadded : option bool; rValidate : option bool }.

Definition SIZE_MAX : N := 2 ^ 64 - 1.
Definition kDefaultLeafCapacity : nat := 64.
Definition kDefaultFanout : nat := 64.
Definition kMaxFanout : nat := 256.
Definition kMaxHeight : nat := 40.
Definition kPointwiseRatio : nat := 32.

Definition collNumber (fromOption : option nat) (fallback : nat) : nat :=
  match fromOption with Some n => n | None => fallback end.

Definition collFlag (fromOption : option bool) (fallback : bool) : bool :=
  match fromOption with Some b => b | None => fallback end.

(** [std::clamp]. *)
Definition clamp (x lo hi : nat) : nat := if decide (x < lo) then lo else if decide (hi < x) then hi else x.

(** The body of the initializer of [shape()]. *)
Definition configure (r : ShapeRequest) : Shape :=
  let leaf := collNumber (rLeafCapacity r) kDefaultLeafCapacity in
  {| leafCapacity_ := if decide (leaf = 0) then N.to_nat SIZE_MAX else leaf `max` 2;
     fanout := clamp (collNumber (rFanout r) kDefaultFanout) 4 kMaxFanout;
     padded := collFlag (rPadded r) true;
     validate_ := collFlag (rValidate r) false |}.

(** The process-wide state of the shape: what was asked for, and the shape once it is read
    (the function-local static of [shape()]). *)
Record ShapeState := mkShapeState { requestedShape : ShapeRequest; configured : option Shape }.

Definition initialShapeState : ShapeState :=
  {| requestedShape := mkRequest None None None None; configured := None |}.

(** [selectShape]: refused once the shape has been read. *)
Definition selectShape (request : ShapeRequest) (st : ShapeState) : bool * ShapeState :=
  match configured st with
  | Some _ => (false, st)
  | None => (true, {| requestedShape := request; configured := None |})
  end.

(** [shape()]: configured at the first call, the same from then on. *)
Definition shape (st : ShapeState) : Shape * ShapeState :=
  match configured st with
  | Some s => (s, st)
  | None =>
      let s := configure (requestedShape st) in
      (s, {| requestedShape := requestedShape st; configured := Some s |})
  end.

(** The shapes [configure] can produce. *)
Definition shapeOk (s : Shape) : Prop := 2 <= leafCapacity_ s /\ 4 <= fanout s <= kMaxFanout.

(** ** Tables *)

(** [Table]: a leaf of [keys] (and, in a map, [values]) allocated with [slotCount] slots, or a
    branch of [children] with their separators, allocated for [width] children. *)
Inductive Table {K V : Type} :=
  | Leaf (slotCount : nat) (keys_ : list K) (values_ : list V)
  | Branch (width height_ size_ : nat) (seps : list K) (children_ : list Table).
Arguments Table : clear implicits.

Section accessors.
Context {K V : Type}.
Implicit Types t : Table K V.

Definition isLeaf t : bool := match t with Leaf _ _ _ => true | Branch _ _ _ _ _ => false end.
(** The source keeps [size_] in 32 bits ([static_cast<uint32_t>] in [Table::create] and
    [Table::createBranch]); here it is the count itself. The two agree for tables of fewer than
    2^32 entries, [fits32], and the properties that make a table have that as a bound on its
    entries and as a part of what they conclude ([stored]). *)
Definition size t : nat :=
  match t with Leaf _ ks _ => length ks | Branch _ _ sz _ _ => sz end.
Definition height t : nat := match t with Leaf _ _ _ => 0 | Branch _ h _ _ _ => h end.
Definition keys t : list K := match t with Leaf _ ks _ => ks | Branch _ _ _ ss _ => ss end.
Definition values t : list V := match t with Leaf _ _ vs => vs | Branch _ _ _ _ _ => [] end.
Definition children t : list (Table K V) :=
  match t with Leaf _ _ _ => [] | Branch _ _ _ _ cs => cs end.
Definition count t : nat := length (children t).
End accessors.

Section tree.
Context {K V : Type} `{KeyOrder K}.
(** The shape, whether the type is a map (else a set), and the null slot. *)
Context (s : Shape) (map : bool) (NullSlot : V).
Implicit Types (t : Table K V) (key : K).

(** *** One table *)

Definition leafCapacity : nat :=
  let capacity := leafCapacity_ s in
  if map || (SIZE_MAX / 2 <? N.of_nat capacity)%N then capacity else 2 * capacity.

(** The slots [size] entries take. *)
Definition used (size : nat) : nat := if map then 2 * size else size.

Definition leafSlots (size : nat) (inTree : bool) : nat :=
  if inTree && padded s then used size `max` (2 * leafCapacity_ s) else used size.

(** [Table::create], with the slots its caller fills in; its cast of the size to 32 bits
    changes nothing below 2^32 entries. *)
Definition create (slotCount : nat) (ks : list K) (vs : list V) : option (Table K V) :=
  GUARD bool_decide (length ks <= slotCount) ;; Some (Leaf slotCount ks vs).

(** [newLeaf], filled. *)
Definition newLeaf (ks : list K) (vs : list V) (inTree : bool) : option (Table K V) :=
  create (leafSlots (length ks) inTree) ks vs.

(** [leafOf]: entries [first .. last) of the sequence given by the accessors. *)
Definition leafOf (first last : nat) (inTree : bool)
    (keyAt : nat -> option K) (valueAt : nat -> option V) : option (Table K V) :=
  let size := last - first in
  ks ← mapM keyAt (seq first size);
  vs ← (if map then mapM valueAt (seq first size) else Some []);
  create (leafSlots size inTree) ks vs.

(** [Table::createBranch], with the slots its caller fills in; the cast as in [create]. *)
Definition createBranch (height size width : nat) (ss : list K) (cs : list (Table K V))
    : option (Table K V) :=
  GUARD bool_decide (0 < height /\ 0 < length cs /\ length cs <= width) ;;
  Some (Branch width height size ss cs).

Definition makeBranch (cs : list (Table K V)) : option (Table K V) :=
  GUARD forallb (fun c => bool_decide (0 < size c)) cs ;;
  let sz := sum_list (size <$> cs) in
  let width := if padded s then length cs `max` fanout s else length cs in
  first ← cs !! 0;
  ss ← mapM (fun c => keys c !! 0) cs;
  createBranch (height first + 1) sz width ss cs.

(** The first index of leaf [t] whose key is not before [key]. *)
Definition lowerBound t key : option nat :=
  bisect (size t) (fun mid => k ← keys t !! mid; Some (kcmp k key <? 0)%Z) 0 (size t).

(** The index of [key] in leaf [t]; the inner [None] is the source's -1. *)
Definition findInLeaf t key : option (option nat) :=
  pos ← lowerBound t key;
  if decide (pos < size t) then
    k ← keys t !! pos;
    Some (if (kcmp k key =? 0)%Z then Some pos else None)
  else Some None.

Definition childIndex t key : option nat :=
  lo ← bisect (count t) (fun mid => k ← keys t !! mid; Some (kcmp k key <=? 0)%Z) 1 (count t);
  Some (lo - 1).

(** [leafFor]: one level per unit of fuel; the height of the table is enough. *)
Fixpoint leafFor (fuel : nat) t key : option (Table K V) :=
  match t, fuel with
  | Leaf _ _ _, _ => Some t
  | Branch _ _ _ _ cs, S fuel =>
      i ← childIndex t key;
      c ← cs !! i;
      leafFor fuel c key
  | _, O => None
  end.

(** The leaves from left to right ([forEachLeaf] calls its argument on each in turn). *)
Fixpoint leaves t : list (Table K V) :=
  match t with
  | Leaf _ _ _ => [t]
  | Branch _ _ _ _ cs => concat (List.map leaves cs)
  end.

(** *** Building a tree bottom-up *)

(** [Shares]: [n] items cut into the fewest groups of at most [capacity]. *)
Definition groups (n capacity : nat) : nat :=
  if decide (n <= capacity) then 1
  else n / capacity + (if decide (n `mod` capacity = 0) then 0 else 1).

Definition bound (n gs g : nat) : nat := g * n / gs.

(** Group [g] of a list cut into [gs] groups. *)
Definition share {A} (l : list A) (gs g : nat) : list A :=
  take (bound (length l) gs (g + 1) - bound (length l) gs g)
    (drop (bound (length l) gs g) l).

(** One level of branches above [level]. *)
Definition branchesAbove (level : list (Table K V)) : option (list (Table K V)) :=
  let gs := groups (length level) (fanout s) in
  mapM (fun g => makeBranch (share level gs g)) (seq 0 gs).

(** [buildBranches]: levels are put on top until one table is left; every level is shorter
    than the one below, so the length of the first is enough fuel. *)
Fixpoint buildBranches (fuel : nat) (level : list (Table K V)) : option (Table K V) :=
  if decide (1 < length level) then
    match fuel with
    | O => None
    | S fuel => above ← branchesAbove level; buildBranches fuel above
    end
  else level !! 0.

Definition buildTree (n : nat) (keyAt : nat -> option K) (valueAt : nat -> option V)
    : option (Table K V) :=
  if decide (n <= leafCapacity) then leafOf 0 n false keyAt valueAt
  else
    let gs := groups n leafCapacity in
    ls ← mapM (fun g => leafOf (bound n gs g) (bound n gs (g + 1)) true keyAt valueAt)
           (seq 0 gs);
    buildBranches gs ls.

(** [Entries]: keys and, in a map, values gathered in key order. *)
Definition Entries : Type := list K * list V.
Definition push (out : Entries) (key : K) (value : V) : Entries :=
  (out.1 ++ [key], if map then out.2 ++ [value] else out.2).
Definition build (out : Entries) : option (Table K V) :=
  buildTree (length out.1) (fun i => out.1 !! i) (fun i => out.2 !! i).

Definition normalized (leaf : Table K V) : option (Table K V) :=
  if decide (size leaf <= leafCapacity) then Some leaf
  else buildTree (size leaf) (fun i => keys leaf !! i) (fun i => values leaf !! i).

Definition muchSmaller (small large : Table K V) : bool :=
  bool_decide (size small <= size large / kPointwiseRatio).

(** *** The cursor *)

(** [Cursor]: the current leaf, the position in it, and the path from the root: a branch and
    the index of the child taken, deepest first. *)
Record Cursor := mkCursor {
  cLeaf : option (Table K V); cPos : nat; cPath : list (Table K V * nat) }.

(** [leftmostLeaf]: the leaf below [t] on the left, and the path extended to it. *)
Fixpoint leftmostLeaf (fuel : nat) t (path : list (Table K V * nat))
    : option (Table K V * list (Table K V * nat)) :=
  match t, fuel with
  | Leaf _ _ _, _ => Some (t, path)
  | Branch _ _ _ _ cs, S fuel =>
      GUARD bool_decide (length path < kMaxHeight) ;;
      c ← cs !! 0;
      leftmostLeaf fuel c ((t, 0) :: path)
  | _, O => None
  end.

Definition cursor (root : Table K V) : option Cursor :=
  '(leaf, path) ← leftmostLeaf (height root) root [];
  Some {| cLeaf := if decide (size leaf = 0) then None else Some leaf;
          cPos := 0; cPath := path |}.

Definition done (c : Cursor) : bool := match cLeaf c with None => true | Some _ => false end.
Definition cKey (c : Cursor) : option K := leaf ← cLeaf c; keys leaf !! cPos c.
Definition cValue (c : Cursor) : option V :=
  leaf ← cLeaf c; if map then values leaf !! cPos c else Some NullSlot.

(** Up to the nearest table that has a further child. *)
Fixpoint popFull (path : list (Table K V * nat)) : list (Table K V * nat) :=
  match path with
  | (node, i) :: rest => if decide (i + 1 = count node) then popFull rest else path
  | [] => []
  end.

Definition next (c : Cursor) : option Cursor :=
  leaf ← cLeaf c;
  if decide (cPos c + 1 < size leaf) then
    Some {| cLeaf := Some leaf; cPos := cPos c + 1; cPath := cPath c |}
  else
    match popFull (cPath c) with
    | [] => Some {| cLeaf := None; cPos := 0; cPath := [] |}
    | (node, i) :: rest =>
        c' ← children node !! (i + 1);
        '(leaf', path) ← leftmostLeaf (height node) c' ((node, i + 1) :: rest);
        Some {| cLeaf := Some leaf'; cPos := 0; cPath := path |}
    end.

(** *** The check of the invariants *)

(** What [Validation::fail] reports. *)
Inductive violation :=
  | MoreThanCapacity | FewerThanMinimum | KeyNotAfter (i : nat)
  | ChildrenCount (n : nat) | NotOneLevelBelow (i : nat) | SeparatorNotSmallest (i : nat)
  | ChildrenHold (n : nat).

(** The keys of a leaf from index [i] on, after [last]. *)
Fixpoint checkKeys (i : nat) (ks : list K) (last : option K) : violation + option K :=
  match ks with
  | [] => inr last
  | k :: ks =>
      match last with
      | Some l => if (0 <=? kcmp l k)%Z then inl (KeyNotAfter i) else checkKeys (S i) ks (Some k)
      | None => checkKeys (S i) ks (Some k)
      end
  end.

(** The loop of [Validation::check] over the children of a branch at height [h] that says it
    holds [sz] entries; [chk] checks one child. *)
Definition checkChildren (chk : Table K V -> option K -> violation + option K) (h sz : nat) :=
  fix walk (i : nat) (ss : list K) (cs : list (Table K V)) (acc : nat) (last : option K)
      {struct cs} : violation + option K :=
    match cs, ss with
    | [], _ => if decide (acc = sz) then inr last else inl (ChildrenHold acc)
    | _ :: _, [] => inl (SeparatorNotSmallest i)
    | c :: cs, sep :: ss =>
        if negb (bool_decide (height c + 1 = h)) then inl (NotOneLevelBelow i)
        else
          match keys c with
          | k0 :: _ =>
              if bool_decide (size c = 0) || negb (kcmp sep k0 =? 0)%Z
              then inl (SeparatorNotSmallest i)
              else
                match chk c last with
                | inl v => inl v
                | inr last => walk (S i) ss cs (acc + size c) last
                end
          | [] => inl (SeparatorNotSmallest i)
          end
    end.

(** [Validation::check]: a violation, or the last key seen. *)
Fixpoint check (root : bool) t (last : option K) : violation + option K :=
  match t with
  | Leaf _ ks _ =>
      if decide (leafCapacity < length ks) then inl MoreThanCapacity
      else if negb root && bool_decide (length ks = 0 \/ length ks < leafCapacity / 2)
      then inl FewerThanMinimum
      else checkKeys 0 ks last
  | Branch _ h sz ss cs =>
      if bool_decide (fanout s < length cs \/
                      length cs < (if root then 2 else fanout s / 2))
      then inl (ChildrenCount (length cs))
      else checkChildren (check false) h sz 0 ss cs 0 last
  end.

(** [table::validate]: [None] when the invariants hold (the empty string of the source). *)
Definition validate t : option violation :=
  match check true t None with inl v => Some v | inr _ => None end.

(** [checked]: stops the process at a violation when validation is on. *)
Definition checked t : option (Table K V) :=
  GUARD negb (validate_ s) || bool_decide (validate t = None) ;; Some t.
End tree.

Arguments Cursor : clear implicits.
