(* ===== verification/TableInv.v ===== *)
(** * Invariants of the tables, and what search and construction give

    The invariants listed in include/camel/core/rtdata/collection.h, as [wf]: the widths of
    leaves and branches, equal depth, separators, entry counts, the size a table is allocated
    with, and keys in strictly ascending order. Then the meaning of the functions of Table.v on
    tables that satisfy them: searches end at the right place, a branch built over tables of one
    height is such a table, the builder gives a well-formed tree over the entries it is given. *)

From S2P Require Import Prelude Keys Entries Table.

Section inv.
Context {K V : Type} `{KeyOrder K}.
Context (s : Shape) (map : bool) (NullSlot : V).
Implicit Types (t : Table K V) (k : K).

#[local] Abbreviation leafCapacity := (leafCapacity s map).
#[local] Abbreviation leafSlots := (leafSlots s map).

(** The entries of a table, in order; the value of an entry of a set is the null slot. *)
Definition leafEntries (ks : list K) (vs : list V) : list (K * V) :=
  if map then zip ks vs else (fun k => (k, NullSlot)) <$> ks.

Fixpoint entries t : list (K * V) :=
  match t with
  | Leaf _ ks vs => leafEntries ks vs
  | Branch _ _ _ _ cs => concat (List.map entries cs)
  end.

(** Where a table stands: below a branch, at the root, or on its way there with no minimum
    (a table an operation is still to combine with a neighbour). *)
Inductive role := Sub | Root | Loose (inTree : bool).

Definition leafOk (r : role) (n sc : nat) : Prop :=
  n <= leafCapacity /\
  match r with
  | Sub => leafCapacity / 2 <= n /\ sc = leafSlots n true
  | Root => used map n <= sc
  | Loose inTree => sc = leafSlots n inTree
  end.

Definition branchMin (r : role) : nat :=
  match r with Sub => fanout s / 2 | Root => 2 | Loose _ => 1 end.

Definition branchOk (r : role) (c w : nat) : Prop :=
  branchMin r <= c <= fanout s /\ w = if padded s then fanout s else c.

(** [shaped r h t]: [t] is a table of height [h] that may stand at [r]. *)
Fixpoint shaped (r : role) (h : nat) t : Prop :=
  match h, t with
  | O, Leaf sc ks vs =>
      leafOk r (length ks) sc /\ length vs = (if map then length ks else 0)
  | S h', Branch w ht sz ss cs =>
      branchOk r (length cs) w /\ ht = h /\ Forall (shaped Sub h') cs /\
      sz = length (concat (List.map entries cs)) /\
      Forall2 (fun sep c => keys c !! 0 = Some sep) ss cs
  | _, _ => False
  end.

(** A well-formed collection. *)
Definition wf t : Prop := (exists h, shaped Root h t) /\ sortedE (entries t).

Context (Hs : shapeOk s).

Lemma leafCapacity_ge : 2 <= leafCapacity.
Proof. destruct Hs. unfold Table.leafCapacity. destruct (map || _); lia. Qed.

Lemma fanout_range : 4 <= fanout s <= 256.
Proof. by destruct Hs. Qed.

Lemma half_fanout : 2 <= fanout s / 2.
Proof. pose proof fanout_range. apply Nat.div_le_lower_bound; lia. Qed.

Lemma half_capacity : 1 <= leafCapacity / 2.
Proof. pose proof leafCapacity_ge. apply Nat.div_le_lower_bound; lia. Qed.

(** *** Leaves as lists of entries *)

Definition vlen (ks : list K) : nat := if map then length ks else 0.

Lemma length_leafEntries ks vs : length vs = vlen ks -> length (leafEntries ks vs) = length ks.
Proof.
  unfold vlen, leafEntries. destruct map; intros Hv.
  - rewrite length_zip_with. lia.
  - by rewrite length_fmap.
Qed.

Lemma leafEntries_keys ks vs : length vs = vlen ks -> (leafEntries ks vs).*1 = ks.
Proof.
  unfold vlen, leafEntries. destruct map; intros Hv.
  - apply fst_zip. lia.
  - rewrite <- list_fmap_compose. apply list_fmap_id.
Qed.

(** Every list of entries is a leaf's, and its keys and values split the same way. *)
Definition kvs (es : list (K * V)) : list K * list V := (es.*1, if map then es.*2 else []).

Definition canonical (es : list (K * V)) : Prop :=
  map = true \/ Forall (fun e => e.2 = NullSlot) es.

Lemma leafEntries_canonical ks vs : canonical (leafEntries ks vs).
Proof.
  unfold canonical, leafEntries. destruct map; [by left|right].
  apply Forall_fmap, Forall_true. done.
Qed.

Lemma leafEntries_kvs es : canonical es -> leafEntries (kvs es).1 (kvs es).2 = es.
Proof.
  unfold canonical, leafEntries, kvs. destruct map; simpl.
  - intros _. apply zip_fst_snd.
  - intros [?|Hf]; [done|]. rewrite <- list_fmap_compose.
    rewrite <- (list_fmap_id es) at 2. apply list_fmap_ext.
    intros i [k v] Hi. pose proof (Forall_lookup_1 _ _ _ _ Hf Hi) as Hv. simpl in *. by subst.
Qed.

Lemma kvs_leafEntries ks vs : length vs = vlen ks -> kvs (leafEntries ks vs) = (ks, vs).
Proof.
  unfold kvs, vlen, leafEntries. destruct map; intros Hv.
  - by rewrite fst_zip, snd_zip by lia.
  - rewrite <- list_fmap_compose, list_fmap_id. by destruct vs.
Qed.

Lemma kvs_vlen es : length (kvs es).2 = vlen (kvs es).1.
Proof. unfold kvs, vlen. destruct map; simpl; by rewrite ?length_fmap. Qed.

Lemma kvs_length es : length (kvs es).1 = length es.
Proof. unfold kvs; simpl. by rewrite length_fmap. Qed.

(** *** Sizes *)

Lemma shaped_size r h t : shaped r h t -> size t = length (entries t).
Proof.
  destruct h, t; simpl; try done.
  - intros [_ Hv]. by rewrite length_leafEntries.
  - by intros (_ & _ & _ & -> & _).
Qed.

Lemma shaped_height r h t : shaped r h t -> height t = h.
Proof. destruct h, t; simpl; try done. by intros (_ & -> & _). Qed.

Lemma shaped_weaken h t :
  shaped Sub h t -> shaped Root h t /\ shaped (Loose true) h t.
Proof.
  pose proof half_fanout.
  destruct h, t; simpl; try done; unfold leafOk, branchOk, branchMin.
  - intros [[? [? ->]] ?]. split_and!; try done; try lia.
    unfold Table.leafSlots. simpl. destruct (padded s); lia.
  - intros [[? ?] (? & ? & ? & ?)]. split_and!; try done; lia.
Qed.

Lemma shaped_sub_pos h t : shaped Sub h t -> 0 < size t.
Proof.
  pose proof half_capacity. pose proof half_fanout. revert t. induction h as [|h IH]; intros t.
  - destruct t; simpl; [|done]. intros [[_ [? _]] _]. lia.
  - intros Ht. rewrite (shaped_size _ _ _ Ht). destruct t as [|w ht sz ss cs]; simpl; [done|].
    destruct Ht as ([[Hc _] _] & _ & Hcs & _). simpl in Hc.
    destruct cs as [|c cs]; simpl in *; [lia|]. rewrite length_app.
    apply Forall_cons in Hcs as [Hc' _]. specialize (IH _ Hc').
    rewrite (shaped_size _ _ _ Hc') in IH. lia.
Qed.

Lemma shaped_sub_ne h t : shaped Sub h t -> entries t <> [].
Proof.
  intros Ht Hn. pose proof (shaped_sub_pos _ _ Ht) as Hp.
  rewrite (shaped_size _ _ _ Ht), Hn in Hp. simpl in Hp. lia.
Qed.

(** The first key of a table, as its parent reads it, is the key of its first entry. *)
Lemma shaped_first r h t :
  shaped r h t -> (keys t !! 0 : option K) = fst <$> entries t !! 0.
Proof.
  revert r t. induction h as [|h IH]; intros r t; destruct t as [sc ks vs|w ht sz ss cs];
    simpl; try done.
  - intros [_ Hv]. rewrite <- (leafEntries_keys ks vs) at 1 by done. by rewrite list_lookup_fmap.
  - intros (_ & _ & Hcs & _ & Hss). destruct Hss as [|sep c ss cs Hsep _]; [done|].
    apply Forall_cons in Hcs as [Hc _]. simpl.
    pose proof (shaped_sub_ne _ _ Hc) as Hne. rewrite (IH _ _ Hc) in Hsep.
    destruct (entries c); [done|]. simpl in *. done.
Qed.

Lemma concat_app_list {A} (l1 l2 : list (list A)) : concat (l1 ++ l2) = concat l1 ++ concat l2.
Proof. apply concat_app. Qed.

Abbreviation flat cs := (concat (List.map entries cs)).

Lemma flat_app cs1 cs2 : flat (cs1 ++ cs2) = flat cs1 ++ flat cs2.
Proof. by rewrite List.map_app, concat_app. Qed.

Lemma flat_middle cs1 c cs2 : flat (cs1 ++ c :: cs2) = flat cs1 ++ entries c ++ flat cs2.
Proof. by rewrite flat_app. Qed.

(** *** A new branch *)

Lemma sum_sizes h cs :
  Forall (shaped Sub h) cs -> sum_list (size <$> cs) = length (flat cs).
Proof.
  induction 1 as [|c cs Hc _ IH]; [done|].
  rewrite fmap_cons. change (size c + sum_list (size <$> cs) = length (flat (c :: cs))).
  simpl. by rewrite length_app, IH, (shaped_size _ _ _ Hc).
Qed.

Lemma firsts h cs :
  Forall (shaped Sub h) cs ->
  exists ss, mapM (fun c => (keys c !! 0 : option K)) cs = Some ss /\
    Forall2 (fun sep c => keys c !! 0 = Some sep) ss cs.
Proof.
  induction 1 as [|c cs Hc _ (ss & Hm & Hf)]; [by exists []|].
  pose proof (shaped_first _ _ _ Hc) as Hfst. pose proof (shaped_sub_ne _ _ Hc) as Hne.
  destruct (entries c) as [|[k v] es]; [done|]. simpl in Hfst.
  exists (k :: ss). split; [|by constructor]. simpl. by rewrite Hfst, Hm.
Qed.

Lemma makeBranch_spec h cs r :
  Forall (shaped Sub h) cs -> 1 <= branchMin r <= length cs -> length cs <= fanout s ->
  exists t, makeBranch s cs = Some t /\ shaped r (S h) t /\ entries t = flat cs.
Proof.
  intros Hcs Hr Hf. unfold makeBranch.
  rewrite guarded_true.
  2:{ apply forallb_forall. intros c Hc. apply bool_decide_eq_true, (shaped_sub_pos h).
      rewrite Forall_forall in Hcs. apply Hcs. by apply list_elem_of_In. }
  destruct cs as [|c0 cs'] eqn:Hcs0; simpl in Hr; [lia|]. rewrite <- Hcs0 in *.
  assert (H0 : cs !! 0 = Some c0) by (by subst). rewrite H0. simpl.
  destruct (firsts h cs Hcs) as (ss & Hm & Hss). rewrite Hm. simpl.
  assert (Hh : height c0 = h).
  { rewrite Forall_forall in Hcs. eapply shaped_height, Hcs, list_elem_of_lookup; eauto. }
  assert (Hlen : 0 < length cs) by (subst; simpl; lia).
  unfold createBranch. rewrite guarded_true.
  2:{ apply bool_decide_eq_true. split_and!; [lia|done|]. destruct (padded s); lia. }
  eexists. split; [done|]. split; [|done]. simpl. split_and!.
  - unfold branchOk. rewrite Hcs0 at 1. simpl length. split; [rewrite Hcs0 in *; simpl in *; lia|].
    destruct (padded s); lia.
  - lia.
  - done.
  - by apply (sum_sizes h).
  - done.
Qed.

(** *** Search within a table *)

Lemma lowerBound_split t sc ks vs k lo o hi :
  t = Leaf sc ks vs -> length vs = vlen ks ->
  splitAt k (leafEntries ks vs) lo o hi -> lowerBound t k = Some (length lo).
Proof.
  intros -> Hv Hsp. unfold lowerBound. simpl.
  pose proof (leafEntries_keys ks vs Hv) as Hks.
  pose proof (length_leafEntries ks vs Hv) as Hlen.
  assert (Hle : length lo <= length ks).
  { rewrite <- Hlen. destruct Hsp as [? ? -> _ _|? ? ? -> _ _];
      rewrite length_app; simpl; lia. }
  apply bisect_boundary; [lia|lia|]. intros i Hi.
  rewrite <- Hks, list_lookup_fmap.
  destruct (lookup_lt_is_Some_2 (leafEntries ks vs) i) as [[k' v'] Hk']; [lia|].
  rewrite Hk'. simpl. f_equal.
  assert (Hb : forall l : list (K * V), Forall (before k) l -> forall j e, l !! j = Some e -> (kcmp e.1 k < 0)%Z).
  { intros l Hl j e He. by apply (Forall_lookup_1 _ _ _ _ Hl He). }
  assert (Ha : forall l : list (K * V), Forall (after k) l -> forall j e, l !! j = Some e -> (0 < kcmp e.1 k)%Z).
  { intros l Hl j e He. rewrite (kcmp_opp k).
    pose proof (Forall_lookup_1 _ _ _ _ Hl He) as Hae. unfold after in Hae. lia. }
  destruct (decide (i < length lo)) as [Hil|Hil].
  - rewrite bool_decide_true by done. apply Z.ltb_lt.
    destruct Hsp as [lo hi E Hlo Hhi|lo v hi E Hlo Hhi]; rewrite E in Hk';
      rewrite lookup_app_l in Hk' by done; by apply (Hb lo Hlo _ _ Hk').
  - rewrite bool_decide_false by done. apply Z.ltb_ge.
    destruct Hsp as [lo hi E Hlo Hhi|lo v hi E Hlo Hhi]; rewrite E in Hk';
      rewrite lookup_app_r in Hk' by lia.
    + pose proof (Ha hi Hhi _ _ Hk') as Hx. simpl in Hx. lia.
    + apply lookup_cons_Some in Hk' as [[_ [= <- <-]]|[_ Hk']].
      * rewrite kcmp_refl. lia.
      * pose proof (Ha hi Hhi _ _ Hk') as Hx. simpl in Hx. lia.
Qed.

Lemma findInLeaf_split t sc ks vs k lo o hi :
  t = Leaf sc ks vs -> length vs = vlen ks ->
  splitAt k (leafEntries ks vs) lo o hi ->
  findInLeaf t k = Some (match o with Some _ => Some (length lo) | None => None end).
Proof.
  intros Ht Hv Hsp. unfold findInLeaf.
  rewrite (lowerBound_split _ _ _ _ _ _ _ _ Ht Hv Hsp). subst t. simpl.
  pose proof (leafEntries_keys ks vs Hv) as Hks.
  rewrite <- (length_leafEntries ks vs) by done.
  destruct Hsp as [lo hi E Hlo Hhi|lo v hi E Hlo Hhi]; rewrite E, length_app.
  - case_decide as Hd; [|done]. destruct hi as [|[k' v'] hi]; simpl in Hd; [lia|].
    rewrite <- Hks, E, list_lookup_fmap, lookup_app_r, Nat.sub_diag by lia. simpl.
    apply Forall_cons in Hhi as [Ha _]. unfold after in Ha; simpl in Ha.
    destruct (Z.eqb_spec (kcmp k' k) 0) as [E0|]; [|done].
    apply kcmp_eq_1 in E0 as ->. by apply kcmp_lt_irrefl in Ha.
  - simpl. rewrite decide_True by lia.
    rewrite <- Hks, E, list_lookup_fmap, lookup_app_r, Nat.sub_diag by lia. simpl.
    by rewrite kcmp_refl.
Qed.

(** The children of a branch, cut at the last whose first key is not after [k]. *)
Lemma split_prefix {A} (P : A -> Prop) `{!forall x, Decision (P x)} (l : list A) :
  exists m b, l = m ++ b /\ Forall P m /\ (forall x, b !! 0 = Some x -> ~ P x).
Proof.
  induction l as [|x l (m & b & -> & Hm & Hb)]; [by exists [], []|].
  destruct (decide (P x)) as [Hx|Hx].
  - exists (x :: m), b. split_and!; [done|by constructor|done].
  - exists [], (x :: m ++ b). split_and!; [done|constructor|]. by intros y [= <-].
Qed.

Lemma flat_elem e cs : e ∈ flat cs <-> exists c, c ∈ cs /\ e ∈ entries c.
Proof.
  rewrite list_elem_of_In, in_concat. split.
  - intros (l & Hl & He). apply in_map_iff in Hl as (c & <- & Hc).
    exists c. by rewrite !list_elem_of_In.
  - intros (c & Hc & He). exists (entries c). apply list_elem_of_In in Hc, He.
    split; [|done]. by apply in_map.
Qed.

Definition firstLe k (c : Table K V) : Prop :=
  match keys c with k0 :: _ => (kcmp k0 k <= 0)%Z | [] => False end.
#[local] Instance firstLe_dec k c : Decision (firstLe k c).
Proof. unfold firstLe. destruct (keys c); apply _. Defined.

Lemma first_entry h c :
  shaped Sub h c -> exists k0 v es, (keys c !! 0 : option K) = Some k0 /\ entries c = (k0, v) :: es.
Proof.
  intros Hc. pose proof (shaped_sub_ne _ _ Hc) as Hne.
  rewrite (shaped_first _ _ _ Hc). destruct (entries c) as [|[k0 v] es]; [done|].
  by exists k0, v, es.
Qed.

Lemma not_firstLe_after h k c cs :
  Forall (shaped Sub h) (c :: cs) -> sortedE (flat (c :: cs)) -> ~ firstLe k c ->
  Forall (after k) (flat (c :: cs)).
Proof.
  intros [Hc _]%Forall_cons Hsrt Hn.
  destruct (first_entry _ _ Hc) as (k0 & v & es & Hk & He).
  simpl in *. rewrite He in *. simpl in *. unfold firstLe in Hn.
  destruct (keys c) as [|k1 ks]; simpl in Hk; [done|]. injection Hk as ->.
  assert (Hka : (kcmp k k0 < 0)%Z) by (rewrite (kcmp_opp k0 k); lia).
  apply sorted_cons in Hsrt as [Hf _]. constructor; [done|].
  eapply Forall_impl; [exact Hf|]. intros e Hle. unfold after.
  by eapply kcmp_trans.
Qed.

Lemma firstLe_before h k cs c :
  shaped Sub h c -> sortedE (flat cs ++ entries c) -> firstLe k c -> Forall (before k) (flat cs).
Proof.
  intros Hc Hsrt Hle. destruct (first_entry _ _ Hc) as (k0 & v & es & Hk & He).
  unfold firstLe in Hle. destruct (keys c) as [|k1 ks]; simpl in Hk; [done|].
  injection Hk as ->. rewrite He in Hsrt. apply sorted_app in Hsrt as (Hx & _).
  apply Forall_forall. intros e Hin. unfold before.
  eapply kcmp_lt_le_trans; [|exact Hle]. by apply (Hx e (k0, v) Hin), list_elem_of_here.
Qed.

Lemma childIndex_spec r h w ht sz ss cs k :
  shaped r (S h) (Branch w ht sz ss cs) -> branchMin r >= 1 -> sortedE (flat cs) ->
  exists a c b, cs = a ++ c :: b /\ childIndex (Branch w ht sz ss cs) k = Some (length a) /\
    Forall (before k) (flat a) /\ Forall (after k) (flat b).
Proof.
  intros ([[Hc1 Hc2] _] & _ & Hcs & _ & Hss) Hr Hsrt.
  destruct cs as [|c0 cs]; [simpl in Hc1; lia|].
  destruct (split_prefix (firstLe k) cs) as (m & b & -> & Hm & Hb).
  assert (Hidx : childIndex (Branch w ht sz ss (c0 :: m ++ b)) k = Some (length m)).
  { unfold childIndex. simpl.
    erewrite (bisect_boundary _ _ _ _ (1 + length m)); [simpl; f_equal; lia| | |].
    1,2: unfold count; simpl; rewrite length_app; lia.
    intros i Hi. unfold count in Hi; simpl in Hi. rewrite length_app in Hi.
    destruct (lookup_lt_is_Some_2 (c0 :: m ++ b) i) as [c Hci].
    { simpl. rewrite length_app. lia. }
    destruct (Forall2_lookup_r _ _ _ i c Hss Hci) as (sep & Hsep & Hfc).
    rewrite Hsep. simpl. f_equal.
    destruct i as [|i]; [lia|]. simpl in Hci.
    destruct (decide (i < length m)) as [Hlt|Hge].
    - rewrite bool_decide_true by lia. apply Z.leb_le.
      rewrite lookup_app_l in Hci by lia. rename Hci into Hcl.
      pose proof (Forall_lookup_1 _ _ _ _ Hm Hcl) as Hle. unfold firstLe in Hle.
      destruct (keys c); simpl in Hfc; [done|]. by injection Hfc as ->.
    - rewrite bool_decide_false by lia. apply Z.leb_gt.
      destruct b as [|cb b]; [simpl in Hi; lia|].
      assert (Hac : Forall (after k) (flat (cb :: b))).
      { rewrite app_comm_cons, flat_app in Hsrt. apply sorted_app in Hsrt as (_ & _ & Hsb).
        eapply (not_firstLe_after h); [|done|by apply Hb].
        rewrite app_comm_cons in Hcs. by apply Forall_app in Hcs as [_ ?]. }
      rewrite lookup_app_r in Hci by lia.
      assert (Hcin : c ∈ cb :: b) by (by eapply list_elem_of_lookup_2).
      assert (Hsc : shaped Sub h c).
      { rewrite Forall_forall in Hcs. apply Hcs. right. apply elem_of_app. by right. }
      destruct (first_entry _ _ Hsc) as (k0 & v & es & Hk0 & He).
      rewrite Hfc in Hk0. injection Hk0 as ->.
      rewrite Forall_forall in Hac.
      assert (Hin : (k0, v) ∈ flat (cb :: b)).
      { apply flat_elem. exists c. split; [done|]. rewrite He. by left. }
      apply Hac in Hin. unfold after in Hin; simpl in Hin. rewrite (kcmp_opp k k0). lia. }
  assert (Hafter : Forall (after k) (flat b)).
  { destruct b as [|cb b]; [constructor|]. eapply (not_firstLe_after h).
    - rewrite app_comm_cons in Hcs. by apply Forall_app in Hcs as [_ ?].
    - rewrite app_comm_cons, flat_app in Hsrt. by apply sorted_app in Hsrt as (_ & _ & ?).
    - by apply Hb. }
  destruct (decide (m = [])) as [->|Hmn].
  - exists [], c0, b. by split_and!; [..|constructor|].
  - destruct (exists_last Hmn) as (m' & c & ->).
    exists (c0 :: m'), c, b. rewrite <- app_assoc in *. split_and!; [done| | |done].
    + rewrite Hidx, length_app. simpl. f_equal. lia.
    + apply Forall_app in Hm as [_ [Hle _]%Forall_cons].
      rewrite Forall_forall in Hcs.
      eapply (firstLe_before h); [| |exact Hle].
      * apply Hcs. rewrite app_comm_cons. apply elem_of_app. right. by left.
      * rewrite app_comm_cons in Hsrt. simpl app in Hsrt at 2. rewrite flat_middle in Hsrt.
        rewrite app_assoc in Hsrt. by apply sorted_app in Hsrt as (_ & ? & _).
Qed.
End inv.
