(* ===== verification/TableBuild.v ===== *)
(** * Building and searching a tree

    The bottom-up builder gives a well-formed tree over the entries it reads (every share it
    cuts is within the widths), and the descent to a leaf ends at the entries around a key. *)

From S2P Require Import Prelude Keys Entries Table TableInv.

(** ** Shares *)

Lemma share_step n gs g lo hi :
  0 < gs -> lo * gs <= n <= hi * gs ->
  bound n gs g + lo <= bound n gs (g + 1) <= bound n gs g + hi.
Proof.
  intros Hgs [Hlo Hhi]. unfold bound. rewrite Nat.mul_add_distr_r, Nat.mul_1_l. split.
  - rewrite <- Nat.div_add by lia. apply Nat.Div0.div_le_mono. lia.
  - rewrite <- Nat.div_add by lia. apply Nat.Div0.div_le_mono. lia.
Qed.

Lemma groups_bounds n cap :
  2 <= cap < n ->
  2 <= groups n cap /\ cap / 2 * groups n cap <= n <= cap * groups n cap /\
  groups n cap <= n / cap + 1.
Proof.
  intros [Hc Hn]. unfold groups. rewrite decide_False by lia.
  pose proof (Nat.div_mod_eq n cap) as Hd. pose proof (Nat.mod_upper_bound n cap).
  pose proof (Nat.Div0.mul_div_le cap 2).
  assert (1 <= n / cap) by (apply Nat.div_le_lower_bound; lia).
  case_decide; split_and!; try nia.
Qed.

Lemma bound_0 n gs : bound n gs 0 = 0.
Proof. unfold bound. simpl. apply Nat.Div0.div_0_l. Qed.

Lemma bound_all n gs : 0 < gs -> bound n gs gs = n.
Proof. intros. unfold bound. rewrite Nat.mul_comm. apply Nat.div_mul. lia. Qed.

Lemma bound_le n gs g : g <= gs -> 0 < gs -> bound n gs g <= n.
Proof.
  intros. unfold bound. apply Nat.Div0.div_le_upper_bound. nia.
Qed.

(** The shares of a list, one after the other, are the list. *)
Lemma concat_shares_upto {A} (l : list A) gs m :
  0 < gs -> m <= gs ->
  concat (map (share l gs) (seq 0 m)) = take (bound (length l) gs m) l.
Proof.
  intros Hgs. induction m as [|m IH]; intros Hm; [by rewrite bound_0|].
  rewrite seq_S, List.map_app, concat_app, IH by lia. simpl. rewrite app_nil_r.
  unfold share. rewrite Nat.add_1_r.
  assert (Hle : bound (length l) gs m <= bound (length l) gs (S m)).
  { unfold bound. apply Nat.Div0.div_le_mono. lia. }
  rewrite <- (take_drop (bound (length l) gs m) (take (bound (length l) gs (S m)) l)).
  rewrite take_take. f_equal; [f_equal; lia|].
  by rewrite skipn_firstn_comm.
Qed.

Lemma concat_shares {A} (l : list A) gs :
  0 < gs -> concat (map (share l gs) (seq 0 gs)) = l.
Proof.
  intros. rewrite concat_shares_upto by lia. rewrite bound_all by done. apply firstn_all.
Qed.

Lemma length_share {A} (l : list A) gs g :
  0 < gs -> g < gs ->
  length (share l gs g) = bound (length l) gs (g + 1) - bound (length l) gs g.
Proof.
  intros. unfold share. rewrite length_take, length_drop.
  pose proof (bound_le (length l) gs (g + 1)). lia.
Qed.

Lemma share_length_bounds {A} (l : list A) cap g :
  2 <= cap < length l -> g < groups (length l) cap ->
  cap / 2 <= length (share l (groups (length l) cap) g) <= cap.
Proof.
  intros Hc Hg. destruct (groups_bounds _ _ Hc) as (H2 & Hb & _).
  rewrite length_share by lia.
  pose proof (share_step (length l) (groups (length l) cap) g (cap / 2) cap) as Hs. lia.
Qed.

Lemma Forall_share {A} (P : A -> Prop) (l : list A) gs g : Forall P l -> Forall P (share l gs g).
Proof. intros. unfold share. by apply Forall_take, Forall_drop. Qed.

(** A pass that succeeds at every index. *)
Lemma mapM_seq_Forall2 {B} (f : nat -> option B) (P : nat -> B -> Prop) b n :
  (forall g, b <= g < b + n -> exists y, f g = Some y /\ P g y) ->
  exists ys, mapM f (seq b n) = Some ys /\ Forall2 P (seq b n) ys.
Proof.
  revert b. induction n as [|n IH]; intros b Hf; simpl; [by exists []|].
  destruct (Hf b) as (y & Hy & HP); [lia|]. destruct (IH (S b)) as (ys & Hys & HF).
  { intros. apply Hf. lia. }
  exists (y :: ys). rewrite Hy; simpl. rewrite Hys. simpl. split; [done|by constructor].
Qed.

Section build.
Context {K V : Type} `{KeyOrder K}.
Context (s : Shape) (map : bool) (NullSlot : V).
Context (Hs : shapeOk s).
Implicit Types (t : Table K V) (k : K) (es : list (K * V)) (level : list (Table K V)).

#[local] Abbreviation leafCapacity := (leafCapacity s map).
#[local] Abbreviation shaped := (shaped s map NullSlot).
#[local] Abbreviation entries := (entries map NullSlot).
#[local] Abbreviation canonical := (canonical map NullSlot).
#[local] Abbreviation kvs := (kvs map).
#[local] Abbreviation flat cs := (concat (List.map entries cs)).

(** ** Leaves *)

(** The leaf of a list of entries, as [leafOf] and [newLeaf] allocate it. *)
Definition leafFrom (inTree : bool) (es : list (K * V)) : Table K V :=
  Leaf (leafSlots s map (length es) inTree) (kvs es).1 (kvs es).2.

Lemma leafFrom_entries b es : canonical es -> entries (leafFrom b es) = es.
Proof. intros. simpl. by apply leafEntries_kvs. Qed.

Lemma used_le_slots n b : used map n <= leafSlots s map n b.
Proof. unfold leafSlots. destruct (b && _); lia. Qed.

Lemma leafFrom_shaped b es r :
  length es <= leafCapacity ->
  match r with Sub => b = true /\ leafCapacity / 2 <= length es
    | Root => True | Loose b' => b = b' end ->
  shaped r 0 (leafFrom b es).
Proof.
  intros Hlen Hr. unfold leafFrom. cbn [TableInv.shaped].
  rewrite (kvs_vlen map es). unfold vlen. rewrite (kvs_length map es).
  split; [|done]. split; [done|]. destruct r; [|apply used_le_slots|by subst].
  destruct Hr as [-> ?]. done.
Qed.

Lemma create_leafFrom b es :
  create (leafSlots s map (length es) b) (kvs es).1 (kvs es).2 = Some (leafFrom b es).
Proof.
  unfold create. rewrite guarded_true; [done|]. apply bool_decide_eq_true.
  rewrite (kvs_length map es). pose proof (used_le_slots (length es) b).
  unfold used in *. destruct map; lia.
Qed.

(** What the accessors of a sequence of entries give. *)
Definition reads (keyAt : nat -> option K) (valueAt : nat -> option V) (es : list (K * V)) : Prop :=
  forall i, i < length es -> keyAt i = fst <$> es !! i /\ (map = true -> valueAt i = snd <$> es !! i).

Lemma reads_kvs es : reads (fun i => (kvs es).1 !! i) (fun i => (kvs es).2 !! i) es.
Proof.
  intros i Hi. unfold TableInv.kvs. simpl. rewrite list_lookup_fmap. split; [done|].
  intros ->. by rewrite list_lookup_fmap.
Qed.

Lemma leafOf_spec first last b keyAt valueAt es :
  reads keyAt valueAt es -> first <= last <= length es ->
  leafOf s map first last b keyAt valueAt =
    Some (leafFrom b (take (last - first) (drop first es))).
Proof.
  intros Hr Hfl. unfold leafOf.
  set (sub := take (last - first) (drop first es)).
  assert (Hlen : length sub = last - first).
  { unfold sub. rewrite length_take, length_drop. lia. }
  rewrite (mapM_seq_slice keyAt (es.*1)).
  2:{ rewrite length_fmap. lia. }
  2:{ intros i Hi. rewrite list_lookup_fmap. apply Hr. lia. }
  simpl. rewrite <- fmap_drop, <- fmap_take. fold sub.
  transitivity (create (leafSlots s map (length sub) b) (kvs sub).1 (kvs sub).2);
    [|apply create_leafFrom].
  rewrite Hlen. unfold TableInv.kvs. unfold reads in Hr. destruct map; [|done].
  rewrite (mapM_seq_slice valueAt (es.*2)).
  2:{ rewrite length_fmap. lia. }
  2:{ intros i Hi. rewrite list_lookup_fmap. apply Hr; [lia|done]. }
  simpl. by rewrite <- fmap_drop, <- fmap_take.
Qed.

(** ** Levels of branches *)

Lemma Forall2_flat ys (ls : list (list (K * V))) :
  Forall2 (fun l y => entries y = l) ls ys -> flat ys = concat ls.
Proof. induction 1; simpl; congruence. Qed.

Lemma flat_shares (l : list (Table K V)) gs ys :
  0 < gs -> Forall2 (fun g y => entries y = flat (share l gs g)) (seq 0 gs) ys ->
  flat ys = flat l.
Proof.
  intros Hgs Hf. transitivity (concat (List.map (fun g => flat (share l gs g)) (seq 0 gs))).
  - clear -Hf. induction Hf as [|g y gs' ys Hy _ IH]; simpl; [done|]. by rewrite Hy, IH.
  - transitivity (flat (concat (List.map (share l gs) (seq 0 gs))));
      [|by rewrite concat_shares].
    generalize (seq 0 gs). intros idx. induction idx as [|g idx IH]; simpl; [done|].
    by rewrite IH, List.map_app, concat_app.
Qed.

Lemma branchesAbove_spec h level :
  Forall (shaped Sub h) level -> fanout s < length level ->
  exists above, branchesAbove s level = Some above /\ Forall (shaped Sub (S h)) above /\
    flat above = flat level /\ 2 <= length above < length level.
Proof.
  intros Hl Hlen. unfold branchesAbove. pose proof (fanout_range s Hs) as Hf.
  destruct (groups_bounds (length level) (fanout s)) as (Hg2 & _ & Hgn); [lia|].
  pose proof (half_fanout s Hs) as Hhf.
  destruct (mapM_seq_Forall2 (fun g => makeBranch s (share level (groups (length level) (fanout s)) g))
    (fun g y => shaped Sub (S h) y /\ entries y = flat (share level (groups (length level) (fanout s)) g))
    0 (groups (length level) (fanout s))) as (above & Ha & HF).
  { intros g Hg. destruct (share_length_bounds level (fanout s) g) as [Hlo Hhi]; [lia..|].
    destruct (makeBranch_spec s map NullSlot Hs h
      (share level (groups (length level) (fanout s)) g) Sub) as (y & Hy & Hsh & He).
    - by apply Forall_share.
    - simpl. lia.
    - done.
    - eauto. }
  exists above. rewrite Ha. split_and!; [done| | | |].
  - clear -HF. induction HF as [|? ? ? ? [? _] _ IH]; by constructor.
  - eapply flat_shares; [|eapply Forall2_impl; [exact HF|]]; [lia|]. by intros ? ? [_ ?].
  - apply Forall2_length in HF. rewrite length_seq in HF. lia.
  - apply Forall2_length in HF. rewrite length_seq in HF. rewrite <- HF.
    assert (length level / fanout s <= length level / 4); [|].
    { apply Nat.div_le_compat_l. lia. }
    pose proof (Nat.div_mod_eq (length level) 4). lia.
Qed.

Lemma buildBranches_spec fuel h level :
  Forall (shaped Sub h) level -> 2 <= length level <= fuel ->
  exists t h', buildBranches s fuel level = Some t /\ shaped Root h' t /\ entries t = flat level.
Proof.
  revert h level. induction fuel as [|fuel IH]; intros h level Hl Hlen; [lia|].
  simpl. rewrite decide_True by lia.
  pose proof (fanout_range s Hs) as Hf.
  destruct (decide (length level <= fanout s)) as [Hle|Hgt].
  - unfold branchesAbove, groups. rewrite decide_True by done. simpl.
    assert (Hsh : share level 1 0 = level).
    { unfold share, bound. simpl. rewrite Nat.add_0_r, !Nat.div_1_r, Nat.sub_0_r.
      apply firstn_all. }
    rewrite Hsh.
    destruct (makeBranch_spec s map NullSlot Hs h level Root) as (t & Ht & Hsht & He);
      [done|simpl; lia|done|].
    rewrite Ht. simpl. exists t, (S h).
    destruct fuel; (split; [done|]); done.
  - destruct (branchesAbove_spec h level) as (above & Ha & HF & He & Hla); [done|lia|].
    rewrite Ha. simpl. destruct (IH (S h) above HF) as (t & h' & Ht & Hsh & Het); [lia|].
    exists t, h'. rewrite Ht. by rewrite Het, He.
Qed.

(** The builder: a well-formed tree of the entries, in O(n) and with no comparison. *)
Lemma buildTree_shaped n keyAt valueAt es :
  reads keyAt valueAt es -> n = length es -> canonical es ->
  exists t h, buildTree s map n keyAt valueAt = Some t /\ shaped Root h t /\ entries t = es.
Proof.
  intros Hr -> Hcan. unfold buildTree.
  pose proof (leafCapacity_ge s map Hs) as Hc2.
  destruct (decide (length es <= leafCapacity)) as [Hle|Hgt].
  - rewrite (leafOf_spec _ _ _ _ _ es) by (done || lia).
    rewrite Nat.sub_0_r. rewrite drop_0, firstn_all.
    exists (leafFrom false es), 0. split_and!; [done| |by apply leafFrom_entries].
    by apply leafFrom_shaped.
  - set (gs := groups (length es) leafCapacity).
    destruct (groups_bounds (length es) leafCapacity) as (Hg2 & _ & _); [lia|]. fold gs in Hg2.
    assert (Hsub : forall g, g < gs -> canonical (share es gs g)).
    { intros g Hg. destruct Hcan as [?|Hall]; [by left|right]. by apply Forall_share. }
    destruct (mapM_seq_Forall2
      (fun g => leafOf s map (bound (length es) gs g) (bound (length es) gs (g + 1)) true keyAt valueAt)
      (fun g y => shaped Sub 0 y /\ entries y = share es gs g) 0 gs) as (ls & Hls & HF).
    { intros g Hg. exists (leafFrom true (share es gs g)).
      pose proof (bound_le (length es) gs (g + 1)).
      assert (bound (length es) gs g <= bound (length es) gs (g + 1)).
      { unfold bound. apply Nat.Div0.div_le_mono. lia. }
      rewrite (leafOf_spec _ _ _ _ _ es) by (done || lia).
      destruct (share_length_bounds es leafCapacity g) as [Hlo Hhi]; [lia| |].
      { fold gs. lia. }
      split; [done|]. split.
      - by apply leafFrom_shaped.
      - apply leafFrom_entries, Hsub. lia. }
    rewrite Hls. simpl.
    assert (Hshl : Forall (shaped Sub 0) ls).
    { clear -HF. induction HF as [|? ? ? ? [? _] _ IH]; by constructor. }
    assert (Hll : length ls = gs).
    { apply Forall2_length in HF. by rewrite length_seq in HF. }
    destruct (buildBranches_spec gs 0 ls) as (t & h & Ht & Hsh & He); [done|lia|].
    exists t, h. split_and!; [done|done|]. rewrite He.
    rewrite <- (concat_shares es gs) by lia.
    clear -HF. induction HF as [|g y idx ys [_ Hy] _ IH]; simpl; [done|]. by rewrite Hy, IH.
Qed.

(** ** The descent to a leaf *)

Lemma leafFor_spec r h t k :
  shaped r h t -> branchMin s r >= 1 -> sortedE (entries t) ->
  exists sc ks vs a b, leafFor h t k = Some (Leaf sc ks vs) /\ length vs = vlen map ks /\
    entries t = a ++ leafEntries map NullSlot ks vs ++ b /\
    Forall (before k) a /\ Forall (after k) b.
Proof.
  revert r t. induction h as [|h IH]; intros r t; destruct t as [sc ks vs|w ht sz ss cs]; try done.
  - intros [_ Hv] _ _. exists sc, ks, vs, [], []. split_and!; try done. by rewrite app_nil_r.
  - intros Ht Hr Hsrt. pose proof Ht as Hch.
    simpl in Hsrt.
    destruct (childIndex_spec s map NullSlot Hs r h w ht sz ss cs k Ht Hr Hsrt)
      as (a & c & b & -> & Hi & Ha & Hb).
    simpl. rewrite Hi. simpl. rewrite list_lookup_middle by done. simpl.
    rewrite flat_middle in Hsrt. pose proof Hsrt as (_ & _ & (_ & Hc & _)%sorted_app)%sorted_app.
    destruct Hch as (_ & _ & Hcs & _). rewrite Forall_app, Forall_cons in Hcs.
    destruct Hcs as (_ & Hshc & _). pose proof (half_fanout s Hs).
    destruct (IH Sub c Hshc) as (sc & ks & vs & a' & b' & Hl & Hv & He & Ha' & Hb');
      [simpl; lia|done|].
    exists sc, ks, vs, (flat a ++ a'), (b' ++ flat b). rewrite Hl.
    split_and!; [done|done| |by apply Forall_app_2|by apply Forall_app_2].
    rewrite flat_middle, He. by rewrite <- !app_assoc.
Qed.

(** The leaves of a table hold its entries. *)
Lemma leaves_entries t :
  concat (List.map entries (leaves t)) = entries t.
Proof.
  revert t. fix IH 1. intros [sc ks vs|w ht sz ss cs]; simpl; [by rewrite app_nil_r|].
  induction cs as [|c cs IHcs]; simpl; [done|].
  rewrite List.map_app, concat_app, IH. by rewrite IHcs.
Qed.
End build.
