(* ===== verification/TableCheck.v ===== *)
(** * The check of the invariants

    [table::validate] reports nothing exactly on the well-formed collections: for a table laid
    out as the allocator lays it out, [validate t = None] is [wf t]. *)


From S2P Require Import Prelude Keys Entries Table TableInv TableBuild.
Section check.
Context {K V : Type} `{KeyOrder K}.
Context (s : Shape) (map : bool) (NullSlot : V).
Context (Hs : shapeOk s).
Implicit Types (t c : Table K V) (k : K) (es : list (K * V)) (cs : list (Table K V)).

#[local] Abbreviation leafCapacity := (leafCapacity s map).
#[local] Abbreviation shaped := (shaped s map NullSlot).
#[local] Abbreviation entries := (entries map NullSlot).
#[local] Abbreviation flat cs := (concat (List.map entries cs)).
#[local] Abbreviation check := (check s map).

(** [Forall], as a function, for recursion through the children. *)
Definition all (P : Table K V -> Prop) := fix go cs : Prop :=
  match cs with [] => True | c :: cs => P c /\ go cs end.

Lemma all_Forall P cs : all P cs <-> Forall P cs.
Proof. induction cs as [|c cs IH]; simpl; [done|]. by rewrite Forall_cons, IH. Qed.

(** The layout of a table in memory, which the check takes for granted: one separator per
    child, one value per key in a map, and the slots it was allocated with. *)
Fixpoint layout (root : bool) t : Prop :=
  match t with
  | Leaf sc ks vs =>
      length vs = vlen map ks /\
      (if root then used map (length ks) <= sc else sc = leafSlots s map (length ks) true)
  | Branch w h sz ss cs =>
      length ss = length cs /\
      w = (if padded s then length cs `max` fanout s else length cs) /\
      all (layout false) cs
  end.

(** The last key seen after the entries [es], when [last] was the one before. *)
Fixpoint lastKey (last : option K) es : option K :=
  match es with [] => last | e :: es => lastKey (Some e.1) es end.

Definition ltLast (last : option K) es : Prop :=
  match last with None => True | Some l => Forall (after l) es end.

Lemma lastKey_app last es1 es2 : lastKey last (es1 ++ es2) = lastKey (lastKey last es1) es2.
Proof. revert last. induction es1 as [|e es1 IH]; intros last; simpl; auto. Qed.

Lemma ltLast_cons last e es :
  sortedE (e :: es) -> ltLast last (e :: es) <-> match last with None => True | Some l => after l e end.
Proof.
  intros [Hf _]%sorted_cons. destruct last as [l|]; simpl; [|done].
  rewrite Forall_cons. split; [by intros []|]. intros Ha. split; [done|].
  eapply Forall_impl; [exact Hf|]. intros x Hx. by eapply kcmp_trans.
Qed.

Lemma ltLast_app last es1 es2 :
  es1 <> [] -> sortedE (es1 ++ es2) -> (ltLast last (es1 ++ es2) <-> ltLast last es1).
Proof.
  destruct es1 as [|e es1]; [done|]. intros _ Hsrt. simpl in *.
  assert (sortedE (e :: es1)).
  { rewrite app_comm_cons in Hsrt. by apply sorted_app in Hsrt as (_ & ? & _). }
  by rewrite !ltLast_cons.
Qed.

(** The keys seen are ascending exactly when each part is and the parts follow each other. *)
Lemma sorted_app_last es1 es2 last :
  sortedE (es1 ++ es2) /\ ltLast last (es1 ++ es2) <->
  (sortedE es1 /\ ltLast last es1) /\ (sortedE es2 /\ ltLast (lastKey last es1) es2).
Proof.
  revert last. induction es1 as [|e es1 IH]; intros last; simpl.
  { split; [intros []|intros [_ []]]; split_and!; try done; [constructor|].
    destruct last; simpl; constructor. }
  specialize (IH (Some e.1)). rewrite !sorted_cons. split.
  - intros [[Hf Hsrt] Hlt]. apply proj1 in IH. destruct IH as [[? Hl1] [? ?]]; [done|].
    split_and!; try done. destruct last; simpl in *; [|done].
    apply Forall_cons in Hlt as [? [? _]%Forall_app]. by constructor.
  - intros [[[Hf S1] Hlt] [S2 Hl2]].
    destruct (proj2 IH) as [Hsrt Hall]; [done|]. split_and!; [done|done|].
    destruct last as [l|]; simpl in *; [|done].
    apply Forall_cons in Hlt as [Ha _]. constructor; [done|].
    eapply Forall_impl; [exact Hall|]. intros x Hx. unfold after in *. by eapply kcmp_trans.
Qed.

Lemma checkKeys_spec i ks es last last' :
  es.*1 = ks ->
  checkKeys i ks last = inr last' <->
  sortedE es /\ ltLast last es /\ last' = lastKey last es.
Proof.
  revert i ks last. induction es as [|[k v] es IH]; intros i ks last <-; simpl.
  { split; [intros [= ->]|intros (_ & _ & ->)]; [|done].
    split_and!; [constructor| |done]. by destruct last'; simpl. }
  specialize (IH (S i) _ (Some k) eq_refl). rewrite sorted_cons.
  assert (Hrest : sortedE es -> ltLast (Some k) es <-> Forall (elt (k, v)) es) by done.
  destruct last as [l|]; simpl.
  - destruct (Z.leb_spec 0 (kcmp l k)) as [Hle|Hlt].
    + split; [done|]. rewrite Forall_cons. unfold after. simpl. intros (_ & [? _] & _). lia.
    + rewrite IH. split.
      * intros (? & Hf & ->). split_and!; try done. constructor; [done|].
        eapply Forall_impl; [exact Hf|]. intros x Hx. by eapply kcmp_trans.
      * intros ([? ?] & _ & ->). done.
  - rewrite IH. split; [intros (? & ? & ->)|intros ([? ?] & _ & ->)]; done.
Qed.

(** Induction over tables, through the children of a branch. *)
Fixpoint Table_ind' (P : Table K V -> Prop)
    (Hl : forall sc ks vs, P (Leaf sc ks vs))
    (Hb : forall w h sz ss cs, Forall P cs -> P (Branch w h sz ss cs)) t : P t :=
  match t with
  | Leaf sc ks vs => Hl sc ks vs
  | Branch w h sz ss cs => Hb w h sz ss cs
      ((fix go cs : Forall P cs :=
          match cs with
          | [] => Forall_nil_2 P
          | c :: cs => Forall_cons_2 P c cs (Table_ind' P Hl Hb c) (go cs)
          end) cs)
  end.

Definition roleOf (root : bool) : role := if root then Root else Sub.

(** What the check of a table establishes. *)
Definition passes (root : bool) t (last last' : option K) : Prop :=
  (exists h, shaped (roleOf root) h t) /\
  sortedE (entries t) /\ ltLast last (entries t) /\ last' = lastKey last (entries t).

Lemma checkChildren_spec h sz i ss cs acc last last' :
  Forall (fun c => forall last last', check false c last = inr last' <-> passes false c last last') cs ->
  length ss = length cs ->
  checkChildren (check false) h sz i ss cs acc last = inr last' <->
  Forall (fun c => height c + 1 = h /\ exists h', shaped Sub h' c) cs /\
  Forall2 (fun sep c => (keys c !! 0 : option K) = Some sep) ss cs /\
  acc + length (flat cs) = sz /\
  sortedE (flat cs) /\ ltLast last (flat cs) /\ last' = lastKey last (flat cs).
Proof.
  intros Hcs. revert i ss acc last. induction Hcs as [|c cs Hc Hcs IH]; intros i ss acc last Hlen.
  { destruct ss; [|done]. simpl. case_decide.
    - split; [intros [= <-]|by intros (_ & _ & _ & _ & _ & ->)].
      split_and!; [by apply Forall_nil_2|by apply Forall2_nil_2|lia|apply SSorted_nil|destruct last; simpl; [by apply Forall_nil_2|done]|done].
    - split; [done|]. intros (_ & _ & ? & _). lia. }
  destruct ss as [|sep ss]; [done|]. simpl in Hlen. simpl.
  rewrite Forall_cons. case_bool_decide as Hh; simpl; [|split; [done|]; by intros [[[? _] _] _]].
  destruct (keys c) as [|k0 ks] eqn:Hk.
  { split; [done|]. intros (_ & Hss & _). apply Forall2_cons in Hss as [Hss _]. by rewrite Hk in Hss. }
  assert (Hsz : forall h', shaped Sub h' c -> 0 < size c) by (intros h' ?; by eapply (shaped_sub_pos s map NullSlot Hs)).
  destruct (bool_decide (size c = 0) || negb (kcmp sep k0 =? 0)%Z) eqn:Hbad.
  { split; [done|]. intros ([[_ (h' & Hsh)] _] & Hss & _).
    apply Forall2_cons in Hss as [Hss _]. rewrite Hk in Hss. injection Hss as ->.
    apply orb_true_iff in Hbad as [Hz%bool_decide_eq_true|Hne].
    - specialize (Hsz _ Hsh). lia.
    - rewrite kcmp_refl in Hne. done. }
  apply orb_false_iff in Hbad as [Hz%bool_decide_eq_false Hne].
  apply negb_false_iff, Z.eqb_eq, kcmp_eq_1 in Hne as <-.
  destruct (check false c last) as [v|last1] eqn:Hck.
  - split; [done|]. intros ([[_ Hsh] _] & _ & _ & Hsrt & Hlt & Hl').
    assert (passes false c last (lastKey last (entries c))) as Hp%Hc; [|congruence].
    destruct (proj1 (sorted_app_last _ _ _) (conj Hsrt Hlt)) as [[? ?] _]. done.
  - apply Hc in Hck as (Hsh & S1 & L1 & ->). rewrite (IH (S i) ss) by lia.
    destruct Hsh as (h' & Hsh). pose proof (shaped_size _ _ _ _ _ _ Hsh) as Hsize.
    rewrite Forall2_cons, Hk, length_app, lastKey_app, Hsize. simpl.
    pose proof (sorted_app_last (entries c) (flat cs) last) as Happ.
    split; [intros (?&?&?&?&?&->)|intros ([? ?]&[? ?]&?&?&?&->)]; split_and!; try done; try lia;
      try (by eauto); try (by apply Happ).
Qed.

Lemma check_spec root t last last' :
  layout root t -> check root t last = inr last' <-> passes root t last last'.
Proof.
  revert root last last'. induction t as [sc ks vs|w h sz ss cs IH] using Table_ind';
    intros root last last' Hlay; unfold passes.
  - destruct Hlay as [Hv Hsc]. simpl.
    assert (Hsh : (exists h, shaped (roleOf root) h (Leaf sc ks vs)) <->
      length ks <= leafCapacity /\ (root = false -> leafCapacity / 2 <= length ks)).
    { split.
      - intros ([|h] & Hsh); [|done]. destruct Hsh as [[Hcap Hr] _].
        split; [done|]. intros ->. by destruct Hr.
      - intros [Hcap Hmin]. exists 0. split; [|by rewrite Hv]. split; [done|].
        destruct root; simpl; [done|]. split; [by apply Hmin|done]. }
    pose proof (half_capacity s map Hs). rewrite Hsh.
    case_decide as Hgt; [split; [done|]; intros ([? _] & _); lia|].
    destruct (negb root && _) eqn:Hmin.
    + split; [done|]. intros ([_ Hm] & _). apply andb_true_iff in Hmin as [Hr Hb%bool_decide_eq_true].
      apply negb_true_iff in Hr. specialize (Hm Hr). lia.
    + rewrite (checkKeys_spec 0 ks (leafEntries map NullSlot ks vs)) by (by apply leafEntries_keys).
      apply andb_false_iff in Hmin. split; [intros (?&?&?)|by intros (_&?&?&?)].
      split_and!; try done; [lia|]. intros ->. destruct Hmin as [?|Hm%bool_decide_eq_false]; [done|].
      lia.
  - destruct Hlay as (Hss & -> & Hlay%all_Forall). simpl.
    case_bool_decide as Hcnt.
    { split; [done|]. intros (([|h'] & Hsh) & _); [done|]. destruct Hsh as ([[? ?] _] & _).
      destruct root; simpl in *; lia. }
    rewrite checkChildren_spec; [| |done].
    2:{ apply Forall_forall. intros x Hx ? ?. rewrite Forall_forall in IH, Hlay. auto. }
    pose proof (half_fanout s Hs). split.
    + intros (Hch & Hsep & Hsz & Hsrt & Hlt & ->). split_and!; try done.
      assert (Hpos : 0 < length cs) by (destruct root; lia).
      assert (Hh : exists h0, h = S h0).
      { clear -Hpos Hch. destruct cs as [|c0 cs0]; [simpl in Hpos; lia|]. apply Forall_cons in Hch as [[<- _] _]. eexists. by rewrite Nat.add_1_r. }
      destruct Hh as [h0 ->]. exists (S h0). split_and!; try done.
      * split; [unfold roleOf; destruct root; simpl; lia|]. destruct (padded s); lia.
      * eapply Forall_impl; [exact Hch|]. intros x [Hh (h' & Hx)].
        rewrite (shaped_height _ _ _ _ _ _ Hx) in Hh. by replace h0 with h' by lia.
    + intros (([|h'] & Hsh) & Hsrt & Hlt & ->); [done|].
      destruct Hsh as (_ & -> & Hch & -> & Hsep). split_and!; try done.
      eapply Forall_impl; [exact Hch|]. intros x Hx.
      rewrite (shaped_height _ _ _ _ _ _ Hx). split; [lia|]. by exists h'.
Qed.

Lemma validate_wf t : layout true t -> validate s map t = None <-> wf s map NullSlot t.
Proof.
  intros Hlay. unfold validate. destruct (check true t None) as [v|l] eqn:Hck.
  - split; [done|]. intros [Hsh Hsrt].
    assert (passes true t None (lastKey None (entries t))) as Hp by (by split_and!).
    apply (check_spec _ _ _ _ Hlay) in Hp. congruence.
  - split; [|done]. intros _. apply (check_spec _ _ _ _ Hlay) in Hck as (? & ? & _). done.
Qed.

(** Well-formed tables are laid out as the check expects. *)
Lemma shaped_layout r root h t :
  shaped r h t -> (r = Sub /\ root = false \/ r = Root /\ root = true) -> layout root t.
Proof.
  revert r root t. induction h as [|h IH]; intros r root t; destruct t as [sc ks vs|w ht sz ss cs];
    simpl; try done.
  - intros [[_ Hr] Hv] [[-> ->]|[-> ->]]; split; try done. by destruct Hr.
  - intros ([[? ?] Hw] & -> & Hch & _ & Hsep) _. split_and!.
    + by eapply Forall2_length.
    + subst w. destruct (padded s); lia.
    + apply all_Forall. eapply Forall_impl; [exact Hch|]. intros x Hx.
      eapply IH; [done|]. by left.
Qed.

Lemma wf_validate t : wf s map NullSlot t -> validate s map t = None.
Proof.
  intros Hwf. apply validate_wf; [|done]. destruct Hwf as [[h Hsh] _].
  eapply shaped_layout; [done|]. by right.
Qed.

(** A checked operation never stops the process on a well-formed result. *)
Lemma checked_wf t : wf s map NullSlot t -> checked s map t = Some t.
Proof.
  intros Hwf. unfold checked. rewrite guarded_true; [done|].
  rewrite (bool_decide_true _ (wf_validate _ Hwf)). by destruct (validate_ s).
Qed.
End check.

(** * Walking a collection in key order

    The interface [Iterator] that the operations on two collections are written against, and
    its two implementations: an index into a leaf, and the [Cursor] that walks a tree. A cursor
    over a well-formed collection of at most [kMaxHeight] levels visits its entries in order,
    and never writes past its path. *)

(** ** The interface *)

(** A position in a sequence of entries: what the loops over entries use of it. *)
Class Iter (K V C : Type) := {
  itDone : C -> bool;
  itKey : C -> option K;
  itValue : C -> option V;
  itNext : C -> option C;
}.

(** Its laws. [itRep c es] says that [es] are the entries from the position on. *)
Class Iterator (K V C : Type) `{Iter K V C} := {
  itRep : C -> list (K * V) -> Prop;
  it_done : forall c, itRep c [] -> itDone c = true;
  it_cons : forall c e es, itRep c (e :: es) ->
    itDone c = false /\ itKey c = Some e.1 /\ itValue c = Some e.2 /\
    exists c', itNext c = Some c' /\ itRep c' es;
}.

(** ** An index into a leaf *)

Section leaf_index.
Context {K V : Type} `{KeyOrder K}.
Context (map : bool) (NullSlot : V).

(** The loops over two leaves advance an index into each. *)
Record LeafIndex := At { liLeaf : Table K V; liPos : nat }.

Instance leafIndex_iter : Iter K V LeafIndex := {|
  itDone p := negb (bool_decide (liPos p < size (liLeaf p)));
  itKey p := keys (liLeaf p) !! liPos p;
  itValue p := if map then values (liLeaf p) !! liPos p else Some NullSlot;
  itNext p := Some (At (liLeaf p) (liPos p + 1)) |}.

#[refine] Instance leafIndex_iterator : Iterator K V LeafIndex := {|
  itRep p es := exists sc ks vs, liLeaf p = Leaf sc ks vs /\ length vs = vlen map ks /\
    es = drop (liPos p) (leafEntries map NullSlot ks vs) |}.
Proof.
  - intros [leaf i]; simpl; intros (sc & ks & vs & -> & Hv & He). simpl. symmetry in He.
    apply length_zero_iff_nil in He. rewrite length_drop, length_leafEntries in He by done.
    simpl in He. rewrite bool_decide_false by lia. done.
  - intros [leaf i] e es; simpl; intros (sc & ks & vs & -> & Hv & He). simpl in *.
    assert (Hl : leafEntries map NullSlot ks vs !! i = Some e).
    { rewrite <- (Nat.add_0_r i), <- lookup_drop, <- He. done. }
    pose proof (lookup_lt_Some _ _ _ Hl) as Hlt. rewrite length_leafEntries in Hlt by done.
    split_and!.
    + by rewrite bool_decide_true.
    + rewrite <- (leafEntries_keys map NullSlot ks vs Hv) at 1. by rewrite list_lookup_fmap, Hl.
    + unfold leafEntries, vlen in *. destruct map.
      * apply lookup_zip_with_Some in Hl as (k & v & -> & _ & Hv'). done.
      * rewrite list_lookup_fmap in Hl. destruct (ks !! i); simpl in Hl; [|done].
        by injection Hl as <-.
    + eexists. split; [done|]. exists sc, ks, vs. split_and!; [done..|]. simpl.
      rewrite <- drop_drop, <- He. done.
Defined.
End leaf_index.
Arguments LeafIndex : clear implicits.

(** ** The cursor *)

Section cursor.
Context {K V : Type} `{KeyOrder K}.
Context (s : Shape) (map : bool) (NullSlot : V).
Context (Hs : shapeOk s).
Implicit Types (t : Table K V) (k : K) (es : list (K * V)) (path : list (Table K V * nat)).

#[local] Abbreviation shaped := (shaped s map NullSlot).
#[local] Abbreviation entries := (entries map NullSlot).
#[local] Abbreviation flat cs := (concat (List.map entries cs)).

(** The entries to the right of a path. *)
Fixpoint pathRest path : list (K * V) :=
  match path with
  | [] => []
  | (node, i) :: rest => flat (drop (i + 1) (children node)) ++ pathRest rest
  end.

(** [pathOk h path]: the deepest table of the path is a branch over tables of height [h], the
    one before it over tables of height [S h], and so on to the root. *)
Fixpoint pathOk (h : nat) path : Prop :=
  match path with
  | [] => True
  | (node, i) :: rest =>
      (exists r, shaped r (S h) node) /\ i < count node /\ pathOk (S h) rest
  end.

Lemma shaped_children r h t :
  shaped r (S h) t -> Forall (shaped Sub h) (children t) /\ entries t = flat (children t).
Proof. destruct t; [done|]. by intros (_ & _ & ? & _). Qed.

Lemma leftmostLeaf_spec fuel r h t path :
  shaped r h t -> h <= fuel -> branchMin s r >= 1 ->
  pathOk h path -> h + length path <= kMaxHeight ->
  exists sc ks vs path', leftmostLeaf fuel t path = Some (Leaf sc ks vs, path') /\
    length vs = vlen map ks /\ (h = 0 \/ 0 < length ks) /\ (r = Sub -> 0 < length ks) /\
    pathOk 0 path' /\ length path' = h + length path /\
    entries t ++ pathRest path = leafEntries map NullSlot ks vs ++ pathRest path'.
Proof.
  revert r h t path. induction fuel as [|fuel IH]; intros r h t path Hsh Hf Hr Hp Hlen.
  - destruct h; [|lia]. destruct t as [sc ks vs|]; [|done].
    exists sc, ks, vs, path. pose proof Hsh as [_ Hv].
    split_and!; try done; [by left|]. intros ->. by apply (shaped_sub_pos s map NullSlot Hs 0) in Hsh.
  - destruct h as [|h]; destruct t as [sc ks vs|w ht sz ss cs]; try done.
    + exists sc, ks, vs, path. pose proof Hsh as [_ Hv].
      split_and!; try done; [by left|]. intros ->. by apply (shaped_sub_pos s map NullSlot Hs 0) in Hsh.
    + simpl. rewrite guarded_true by (apply bool_decide_eq_true; lia).
      pose proof Hsh as ([[Hc _] _] & _ & Hch & _).
      destruct cs as [|c cs]; [simpl in Hc; lia|]. simpl.
      apply Forall_cons in Hch as [Hc0 _].
      destruct (IH Sub h c ((Branch w ht sz ss (c :: cs), 0) :: path)) as
        (sc & ks & vs & path' & Hl & Hv & Hh & Hpos & Hp' & Hlen' & He).
      * done.
      * lia.
      * pose proof (half_fanout s Hs). simpl. lia.
      * split_and!; [by exists r| |done]. unfold count. simpl. lia.
      * simpl. lia.
      * exists sc, ks, vs, path'. rewrite Hl. split_and!; try done; [right; auto|auto|..].
        -- rewrite Hlen'. simpl. lia.
        -- rewrite <- He. simpl. by rewrite drop_0, <- app_assoc.
Qed.

Lemma popFull_spec h path :
  pathOk h path ->
  (popFull path = [] /\ pathRest path = []) \/
  exists node i rest h', popFull path = (node, i) :: rest /\ pathOk h' (popFull path) /\
    i + 1 < count node /\ pathRest path = pathRest (popFull path) /\
    h' + length (popFull path) = h + length path.
Proof.
  revert h. induction path as [|[node i] rest IH]; intros h Hp; [by left|].
  simpl. destruct Hp as (Hn & Hi & Hp). case_decide as Hd.
  - assert (Hdrop : drop (i + 1) (children node) = []).
    { apply drop_ge. unfold count in *. lia. }
    rewrite Hdrop. simpl.
    destruct (IH _ Hp) as [[-> ->]|(node' & i' & rest' & h' & Hpf & Hp' & Hi' & Hr & Hlen)];
      [by left|right].
    exists node', i', rest', h'. split_and!; try done. simpl. lia.
  - right. exists node, i, rest, h. split_and!; try done. lia.
Qed.

(** [represents c es]: the cursor stands at the first of [es], or at the end. *)
Definition represents (c : Cursor K V) es : Prop :=
  match cLeaf c with
  | None => es = []
  | Some leaf => exists sc ks vs, leaf = Leaf sc ks vs /\ length vs = vlen map ks /\
      cPos c < length ks /\ pathOk 0 (cPath c) /\ length (cPath c) <= kMaxHeight /\
      es = drop (cPos c) (leafEntries map NullSlot ks vs) ++ pathRest (cPath c)
  end.

Lemma cursor_spec h t :
  shaped Root h t -> h <= kMaxHeight ->
  exists c, cursor t = Some c /\ represents c (entries t).
Proof.
  intros Hsh Hh. unfold cursor. rewrite (shaped_height _ _ _ _ _ _ Hsh).
  destruct (leftmostLeaf_spec h Root h t [] Hsh) as
    (sc & ks & vs & path & Hl & Hv & Hh0 & _ & Hp & Hlen & He); [done|simpl; lia|done|simpl; lia|].
  rewrite Hl. simpl. eexists. split; [done|]. unfold represents. simpl in *.
  rewrite app_nil_r in He. case_decide as Hz; simpl.
  - rewrite He. destruct Hh0 as [->|]; [|lia].
    destruct path; [|simpl in Hlen; lia]. simpl.
    apply length_zero_iff_nil in Hz as ->. rewrite app_nil_r.
    unfold leafEntries. by destruct map.
  - exists sc, ks, vs. split_and!; try done; lia.
Qed.

Lemma represents_next c e es :
  represents c (e :: es) ->
  done c = false /\ cKey c = Some e.1 /\ cValue map NullSlot c = Some e.2 /\
  exists c', next c = Some c' /\ represents c' es.
Proof.
  destruct c as [[leaf|] pos path]; unfold represents, done, cKey, cValue, next; simpl; [|done].
  intros (sc & ks & vs & -> & Hv & Hpos & Hp & Hlen & He).
  pose proof (length_leafEntries map NullSlot ks vs Hv) as Hll.
  destruct (lookup_lt_is_Some_2 (leafEntries map NullSlot ks vs) pos) as [e' He']; [lia|].
  rewrite (drop_S _ _ _ He') in He. simpl in He. injection He as <- He.
  split_and!; [done| | |].
  - simpl. rewrite <- (leafEntries_keys map NullSlot ks vs Hv) at 1.
    by rewrite list_lookup_fmap, He'.
  - simpl. unfold leafEntries, vlen in *. destruct map.
    + apply lookup_zip_with_Some in He' as (k & v & -> & _ & Hv'). done.
    + rewrite list_lookup_fmap in He'. destruct (ks !! pos); simpl in He'; [|done].
      by injection He' as <-.
  - simpl. case_decide as Hd.
    + eexists. split; [done|]. simpl. exists sc, ks, vs. split_and!; try done.
      by rewrite Nat.add_1_r.
    + assert (Hdrop : drop (S pos) (leafEntries map NullSlot ks vs) = []) by (apply drop_ge; lia).
      rewrite Hdrop in He. simpl in He. subst es.
      destruct (popFull_spec 0 path Hp) as
        [[-> ->]|(node & i & rest & h' & Hpf & Hp' & Hi & Hr & Hlen')].
      { eexists. split; [done|]. done. }
      rewrite Hpf in *. destruct Hp' as ((r & Hn) & _ & Hrest).
      destruct (shaped_children _ _ _ Hn) as [Hch _].
      destruct (lookup_lt_is_Some_2 (children node) (i + 1)) as [c' Hc']; [done|].
      rewrite Hc'. simpl.
      assert (Hshc : shaped Sub h' c') by (by eapply Forall_lookup_1 in Hc').
      rewrite (shaped_height _ _ _ _ _ _ Hn).
      destruct (leftmostLeaf_spec (S h') Sub h' c' ((node, i + 1) :: rest) Hshc) as
        (sc' & ks' & vs' & path' & Hl & Hv' & _ & Hpos' & Hp' & Hlen2 & He2).
      * lia.
      * pose proof (half_fanout s Hs). simpl. lia.
      * split_and!; [by exists r|done|done].
      * simpl in *. lia.
      * rewrite Hl. simpl. eexists. split; [done|]. simpl.
        exists sc', ks', vs'. split_and!; try done; [auto|simpl in *; lia|].
        rewrite drop_0, <- He2, Hr. simpl.
        rewrite (drop_S _ _ _ Hc'). simpl. rewrite <- app_assoc.
        by replace (S (i + 1)) with (i + 1 + 1) by lia.
Qed.

(** The cursor discharges the interface. *)
Instance cursor_iter : Iter K V (Cursor K V) := {|
  itDone := done;
  itKey := cKey;
  itValue := cValue map NullSlot;
  itNext := next |}.

#[refine] Instance cursor_iterator : Iterator K V (Cursor K V) := {| itRep := represents |}.
Proof.
  - intros [[leaf|] pos path]; unfold represents, done; simpl; [|done].
    intros (sc & ks & vs & -> & Hv & Hpos & _ & _ & He).
    symmetry in He. apply app_nil in He as [He _].
    apply length_zero_iff_nil in He. rewrite length_drop, length_leafEntries in He by done. lia.
  - apply represents_next.
Defined.

(** *** Height *)

Lemma shaped_sub_size h t : shaped Sub h t -> 2 ^ h <= length (entries t).
Proof.
  revert t. induction h as [|h IH]; intros t Ht.
  - pose proof (shaped_sub_pos _ _ _ Hs _ _ Ht) as Hp.
    rewrite (shaped_size _ _ _ _ _ _ Ht) in Hp. simpl. lia.
  - destruct t as [|w ht sz ss cs]; [done|]. destruct Ht as ([[Hc _] _] & _ & Hch & _).
    pose proof (half_fanout s Hs). simpl in Hc.
    assert (H2 : 2 <= length cs) by lia. clear Hc.
    destruct cs as [|c1 [|c2 cs]]; simpl in H2; [lia|lia|].
    rewrite !Forall_cons in Hch. destruct Hch as (H3%IH & H4%IH & _).
    cbn [TableInv.entries List.map concat]. rewrite !length_app, Nat.pow_succ_r'. lia.
Qed.

Lemma wf_height_pow h t : shaped Root h t -> h = 0 \/ 2 ^ h <= size t.
Proof.
  destruct h as [|h]; [by left|]. intros Ht. right. rewrite (shaped_size _ _ _ _ _ _ Ht).
  destruct t as [|w ht sz ss cs]; [done|]. destruct Ht as ([[Hc _] _] & _ & Hch & _).
  simpl in Hc. destruct cs as [|c1 [|c2 cs]]; simpl in Hc; [lia|lia|].
  rewrite !Forall_cons in Hch.
  destruct Hch as (H3%shaped_sub_size & H4%shaped_sub_size & _).
  cbn [TableInv.entries List.map concat]. rewrite !length_app, Nat.pow_succ_r'. lia.
Qed.

(** The entry count of a table is 32 bits wide: [fits32 t]. *)
Definition fits32 t : Prop := (Z.of_nat (size t) < 2 ^ 32)%Z.

Lemma wf_height h t : shaped Root h t -> fits32 t -> h < 32.
Proof.
  intros Ht Hf. destruct (wf_height_pow _ _ Ht) as [->|Hp]; [lia|].
  unfold fits32 in Hf. destruct (decide (h < 32)); [done|].
  assert (Hz : (Z.of_nat (2 ^ h) <= Z.of_nat (size t))%Z) by lia.
  assert (Hz2 : (Z.of_nat (2 ^ h) = 2 ^ Z.of_nat h)%Z) by (rewrite Nat2Z.inj_pow; done).
  assert ((2 ^ 32 <= 2 ^ Z.of_nat h)%Z) by (apply Z.pow_le_mono_r; lia). lia.
Qed.
End cursor.

#[export] Existing Instance leafIndex_iter.
#[export] Existing Instance leafIndex_iterator.
#[export] Existing Instance cursor_iter.
#[export] Existing Instance cursor_iterator.
