(* ===== verification/TableOps.v ===== *)
(** * Lookup and the point updates

    [has], [lookup], [fromArray], [put], [add] and [remove] of src/src/core/rtdata/
    collection_ops.cpp. An update copies the path to the key and shares the rest; where the
    source compares addresses to see that nothing changed, the model says so in the result
    ([Same], [Kept]: the argument itself). *)

From S2P Require Import Prelude Keys Entries Table TableInv TableBuild TableCheck.

(** [std::stable_sort] on positions, given the strict order of what they stand for. *)
Fixpoint sortInsert (before : nat -> nat -> bool) (x : nat) (l : list nat) : list nat :=
  match l with
  | [] => [x]
  | y :: l' => if before y x then y :: sortInsert before x l' else x :: l
  end.
Definition stableSort (before : nat -> nat -> bool) (l : list nat) : list nat :=
  foldr (sortInsert before) [] l.

Section ops.
Context {K V : Type} `{KeyOrder K}.
Context (s : Shape) (map : bool) (NullSlot : V).
Implicit Types (t : Table K V) (key : K) (value : V).

#[local] Abbreviation leafCapacity := (leafCapacity s map).

(** ** Lookup *)

Definition has t key : option bool :=
  leaf ← leafFor (height t) t key;
  pos ← findInLeaf leaf key;
  Some (match pos with Some _ => true | None => false end).

(** The value of [key]; the inner [None] is the source's [false]. *)
Definition lookup t key : option (option V) :=
  leaf ← leafFor (height t) t key;
  pos ← findInLeaf leaf key;
  match pos with
  | None => Some None
  | Some i => v ← values leaf !! i; Some (Some v)
  end.

Definition empty : option (Table K V) := newLeaf s map [] [] false.

(** ** From an array *)

(** Whether the keys are in strictly ascending order already. *)
Fixpoint ascending (source : list (K * V)) : bool :=
  match source with
  | a :: rest =>
      match rest with
      | b :: _ => (kcmp a.1 b.1 <? 0)%Z && ascending rest
      | [] => true
      end
  | [] => true
  end.

(** Of a run of equal keys the last position is kept. *)
Fixpoint lastOfRuns (source : list (K * V)) (order : list nat) : option (list nat) :=
  match order with
  | [] => Some []
  | i :: rest =>
      lastOfRun ← match rest with
                  | [] => Some true
                  | j :: _ => a ← source !! i; b ← source !! j;
                              Some (negb (kcmp a.1 b.1 =? 0)%Z)
                  end;
      more ← lastOfRuns source rest;
      Some (if (lastOfRun : bool) then i :: more else more)
  end.

Definition positionBefore (source : list (K * V)) (a b : nat) : bool :=
  match source !! a, source !! b with
  | Some x, Some y => (kcmp x.1 y.1 <? 0)%Z
  | _, _ => false
  end.

(** [fromArray]; the source array is given by its keys and values. The positions of the source
    are [uint32_t]: they are those written here for arrays of fewer than 2^32 entries, which is
    what the property asks of the array. *)
Definition fromArray (source : list (K * V)) : option (Table K V) :=
  let n := length source in
  if decide (n = 0) then newLeaf s map [] [] false
  else
    order ← (if ascending source then Some (seq 0 n)
             else lastOfRuns source (stableSort (positionBefore source) (seq 0 n)));
    t ← buildTree s map (length order)
          (fun i => p ← order !! i; fst <$> source !! p)
          (fun i => p ← order !! i; snd <$> source !! p);
    checked s map t.

(** ** Insertion *)

(** [Grown]: the table itself, one new table, or two. *)
Inductive Grown := Same | One (t : Table K V) | Two (first second : Table K V).

Definition insertIntoLeaf t key value (inTree : bool) : option Grown :=
  let n := size t in
  pos ← lowerBound t key;
  present ← (if decide (pos < n) then k ← keys t !! pos; Some (kcmp k key =? 0)%Z
             else Some false);
  if (present : bool) && negb map then Some Same
  else if negb present && bool_decide (leafCapacity < n + 1) then
    let keyAt i := if decide (i < pos) then keys t !! i
                   else if decide (i = pos) then Some key else keys t !! (i - 1) in
    let valueAt i := if decide (i < pos) then values t !! i
                     else if decide (i = pos) then Some value else values t !! (i - 1) in
    let half := (n + 1) / 2 in
    a ← leafOf s map 0 half true keyAt valueAt;
    b ← leafOf s map half (n + 1) true keyAt valueAt;
    Some (Two a b)
  else
    let from := pos + (if present then 1 else 0) in
    k ← (if present then keys t !! pos else Some key);
    leaf ← newLeaf s map
      (take pos (keys t) ++ k :: drop from (keys t))
      (if map then take pos (values t) ++ value :: drop from (values t) else [])
      inTree;
    Some (One leaf).

(** [childrenWith]: the child at [i] replaced by [a] and, when there is one, [b] after it. *)
Definition childrenWith (cs : list (Table K V)) (i : nat) (a : Table K V) (b : option (Table K V))
    : list (Table K V) :=
  take i cs ++ a :: (match b with Some b => [b] | None => [] end) ++ drop (i + 1) cs.

(** A local array of [n] tables that [cs] is written to: a write past its end is [None]. *)
Definition inArray (n : nat) (cs : list (Table K V)) : option (list (Table K V)) :=
  GUARD bool_decide (length cs <= n) ;; Some cs.

(** The children after an insertion below child [i] are put under one branch, or two. *)
Definition regrow (cs : list (Table K V)) : option Grown :=
  if decide (length cs <= fanout s) then t ← makeBranch s cs; Some (One t)
  else
    let half := length cs / 2 in
    a ← makeBranch s (take half cs);
    b ← makeBranch s (drop half cs);
    Some (Two a b).

Fixpoint insertInto (fuel : nat) t key value (inTree : bool) : option Grown :=
  match t, fuel with
  | Leaf _ _ _, _ => insertIntoLeaf t key value inTree
  | Branch _ _ _ _ cs, S fuel =>
      i ← childIndex t key;
      child ← cs !! i;
      grown ← insertInto fuel child key value true;
      match grown with
      | Same => Some Same
      | One a => cs ← inArray (kMaxFanout + 1) (childrenWith cs i a None); regrow cs
      | Two a b => cs ← inArray (kMaxFanout + 1) (childrenWith cs i a (Some b)); regrow cs
      end
  | _, O => None
  end.

Definition insert t key value : option (Table K V) :=
  grown ← insertInto (height t) t key value false;
  match grown with
  | Same => Some t
  | One t' => Some t'
  | Two a b => makeBranch s [a; b]
  end.

(** ** Removal *)

(** The table itself, or a new one. *)
Inductive Shrunk := Kept | Made (t : Table K V).

Definition removeFromLeaf t key (inTree : bool) : option Shrunk :=
  found ← findInLeaf t key;
  match found with
  | None => Some Kept
  | Some i =>
      leaf ← newLeaf s map
        (take i (keys t) ++ drop (i + 1) (keys t))
        (if map then take i (values t) ++ drop (i + 1) (values t) else [])
        inTree;
      Some (Made leaf)
  end.

Definition underfull t : bool :=
  if isLeaf t then bool_decide (size t < leafCapacity / 2)
  else bool_decide (count t < fanout s / 2).

(** [combine]: one table, or two of equal share. *)
Definition combine (a b : Table K V) : option (list (Table K V)) :=
  if isLeaf a then
    let split := size a in
    let total := split + size b in
    let keyAt i := if decide (i < split) then keys a !! i else keys b !! (i - split) in
    let valueAt i := if decide (i < split) then values a !! i else values b !! (i - split) in
    if decide (total <= leafCapacity) then
      t ← leafOf s map 0 total true keyAt valueAt; Some [t]
    else
      t1 ← leafOf s map 0 (total / 2) true keyAt valueAt;
      t2 ← leafOf s map (total / 2) total true keyAt valueAt;
      Some [t1; t2]
  else
    cs ← inArray (2 * kMaxFanout) (children a ++ children b);
    let total := length cs in
    if decide (total <= fanout s) then t ← makeBranch s cs; Some [t]
    else
      t1 ← makeBranch s (take (total / 2) cs);
      t2 ← makeBranch s (drop (total / 2) cs);
      Some [t1; t2].

(** The part of [removeFrom] after the child at [i] became [shrunk]. *)
Definition rebalance (cs : list (Table K V)) (i : nat) (shrunk : Table K V)
    : option (Table K V) :=
  cs ← inArray (kMaxFanout + 1) (childrenWith cs i shrunk None);
  cs ← (if underfull shrunk then
          GUARD bool_decide (1 < length cs) ;;
          let left := if decide (0 < i) then i - 1 else i in
          a ← cs !! left;
          b ← cs !! (left + 1);
          made ← combine a b;
          Some (take left cs ++ made ++ drop (left + 2) cs)
        else Some cs);
  makeBranch s cs.

Fixpoint removeFrom (fuel : nat) t key (inTree : bool) : option Shrunk :=
  match t, fuel with
  | Leaf _ _ _, _ => removeFromLeaf t key inTree
  | Branch _ _ _ _ cs, S fuel =>
      i ← childIndex t key;
      child ← cs !! i;
      shrunk ← removeFrom fuel child key true;
      match shrunk with
      | Kept => Some Kept
      | Made c => t' ← rebalance cs i c; Some (Made t')
      end
  | _, O => None
  end.

(** A root with a single child is that child. *)
Fixpoint onlyChild (fuel : nat) t : option (Table K V) :=
  match t with
  | Branch _ _ _ _ [c] => match fuel with S fuel => onlyChild fuel c | O => None end
  | _ => Some t
  end.

Definition removeKey t key : option (Table K V) :=
  shrunk ← removeFrom (height t) t key false;
  let result := match shrunk with Kept => t | Made t' => t' end in
  onlyChild (height result) result.

(** ** The operations *)

Definition put t key value : option (Table K V) := t' ← insert t key value; checked s map t'.
Definition add t key : option (Table K V) := t' ← insert t key NullSlot; checked s map t'.
Definition remove t key : option (Table K V) := t' ← removeKey t key; checked s map t'.
End ops.
