(* ===== verification/TableUpdate.v ===== *)
(** * What lookup and the point updates do

    On a well-formed tree, [has] and [lookup] answer for its entries, [put] and [add] give a
    well-formed tree of the entries with one put in, [remove] one of the entries without the
    key: the rebalancing, splitting and copying of TableOps.v refine the operations of
    Entries.v, and none of their guards, array bounds or index reads fails. *)

From S2P Require Import Prelude Keys Entries Table TableInv TableBuild TableCheck TableOps.

Section update.
Context {K V : Type} `{KeyOrder K}.
Context (s : Shape) (map : bool) (NullSlot : V).
Context (Hs : shapeOk s).
Implicit Types (t : Table K V) (k : K) (v : V) (es lo hi : list (K * V)) (ks : list K) (vs : list V).

#[local] Abbreviation leafCapacity := (leafCapacity s map).
#[local] Abbreviation shaped := (shaped s map NullSlot).
#[local] Abbreviation entries := (entries map NullSlot).
#[local] Abbreviation leafEntries := (leafEntries map NullSlot).
#[local] Abbreviation canonical := (canonical map NullSlot).
#[local] Abbreviation kvs := (kvs map).
#[local] Abbreviation leafFrom := (leafFrom s map).
#[local] Abbreviation wf := (wf s map NullSlot).
#[local] Abbreviation flat cs := (concat (List.map entries cs)).

(** The value an entry of the collection has: a set keeps none. *)
Definition slotOf v : V := if map then v else NullSlot.

(** ** Lookup *)

Lemma leaf_lookup t k :
  wf t -> exists sc ks vs lo o hi, leafFor (height t) t k = Some (Leaf sc ks vs) /\
    length vs = vlen map ks /\ splitAt k (leafEntries ks vs) lo o hi /\ sfind k (entries t) = o.
Proof.
  intros [[h Hsh] Hsrt]. rewrite (shaped_height _ _ _ _ _ _ Hsh).
  destruct (leafFor_spec s map NullSlot Hs Root h t k Hsh) as
    (sc & ks & vs & a & b & Hl & Hv & He & Ha & Hb); [simpl; lia|done|].
  assert (Hsl : sortedE (leafEntries ks vs)).
  { rewrite He in Hsrt. by apply sorted_app in Hsrt as (_ & _ & (_ & ? & _)%sorted_app). }
  destruct (splitAt_exists k _ Hsl) as (lo & o & hi & Hsp).
  exists sc, ks, vs, lo, o, hi. split_and!; [done..|].
  rewrite He, sfind_app by done. by eapply sfind_split.
Qed.

Lemma has_sfind t k :
  wf t -> has t k = Some (match sfind k (entries t) with Some _ => true | None => false end).
Proof.
  intros Hwf. destruct (leaf_lookup t k Hwf) as (sc & ks & vs & lo & o & hi & Hl & Hv & Hsp & ->).
  unfold has. rewrite Hl. simpl.
  rewrite (findInLeaf_split map NullSlot _ _ _ _ _ _ _ _ eq_refl Hv Hsp). by destruct o.
Qed.

Lemma lookup_sfind t k :
  map = true -> wf t -> lookup t k = Some (sfind k (entries t)).
Proof.
  intros Hm Hwf. destruct (leaf_lookup t k Hwf) as (sc & ks & vs & lo & o & hi & Hl & Hv & Hsp & ->).
  unfold lookup. rewrite Hl. simpl.
  rewrite (findInLeaf_split map NullSlot _ _ _ _ _ _ _ _ eq_refl Hv Hsp). simpl.
  destruct Hsp as [lo hi He _ _|lo v hi He _ _]; simpl; [done|].
  assert (Hvs : vs = (leafEntries ks vs).*2).
  { unfold TableInv.leafEntries, vlen in *. rewrite Hm in *. rewrite snd_zip; [done|lia]. }
  rewrite Hvs, He, fmap_app. rewrite lookup_app_r by (rewrite length_fmap; lia).
  rewrite length_fmap, Nat.sub_diag. done.
Qed.

(** ** Leaves *)

Lemma canonical_cons e es : canonical (e :: es) <-> (map = true \/ e.2 = NullSlot) /\ canonical es.
Proof. unfold TableInv.canonical. rewrite Forall_cons. destruct map; naive_solver. Qed.

Lemma canonical_app es1 es2 : canonical (es1 ++ es2) <-> canonical es1 /\ canonical es2.
Proof. unfold TableInv.canonical. rewrite Forall_app. destruct map; naive_solver. Qed.

Lemma canonical_slotOf k v : map = true \/ (k, slotOf v).2 = NullSlot.
Proof. unfold slotOf. destruct map; auto. Qed.

Lemma canonical_nil : canonical ([] : list (K * V)).
Proof. right. constructor. Qed.

Lemma canonical_ins lo k v hi :
  canonical lo -> canonical hi -> canonical (lo ++ (k, slotOf v) :: hi).
Proof.
  intros Hlo Hhi. apply canonical_app. split; [done|]. apply canonical_cons.
  split; [apply canonical_slotOf|done].
Qed.

Lemma newLeaf_kvs es b : newLeaf s map (kvs es).1 (kvs es).2 b = Some (leafFrom b es).
Proof. unfold newLeaf. rewrite (kvs_length map es). apply create_leafFrom. Qed.

(** A leaf is the leaf of its entries. *)
Lemma leaf_kvs sc ks vs :
  length vs = vlen map ks -> Leaf sc ks vs = Leaf sc (kvs (leafEntries ks vs)).1 (kvs (leafEntries ks vs)).2.
Proof. intros Hv. by rewrite kvs_leafEntries. Qed.

Lemma kvs_app es1 es2 : kvs (es1 ++ es2) = ((kvs es1).1 ++ (kvs es2).1, (kvs es1).2 ++ (kvs es2).2).
Proof. unfold TableInv.kvs. destruct map; by rewrite !fmap_app. Qed.

(** ** Insertion *)

(** What an insertion into a table of height [h] that stands at [r] left, in terms of the
    entries [es'] there should be. *)
Definition grownOk (r : role) (h : nat) t es' (g : @Grown K V) : Prop :=
  match g with
  | Same => entries t = es'
  | One t' => shaped r h t' /\ entries t' = es'
  | Two a b => shaped Sub h a /\ shaped Sub h b /\ entries a ++ entries b = es'
  end.

Definition roleFor (inTree : bool) (r : role) : Prop :=
  match r with Sub => inTree = true | Root => True | Loose b => inTree = b end.

Lemma slotOf_present k v l lo v' hi :
  splitAt k l lo (Some v') hi -> canonical l -> map = false -> (k, slotOf v) = (k, v').
Proof.
  intros Hsp Hc Hm. inversion Hsp as [|? ? ? -> _ _]; subst.
  unfold slotOf. rewrite Hm. f_equal.
  apply canonical_app in Hc as [_ Hc]. apply canonical_cons in Hc as [[?|?] _]; simpl in *; congruence.
Qed.

(** The entries [i .. n] of the leaf with one put in at [pos], by the accessors of the source. *)
Lemma reads_inserted lo hi k v :
  reads map
    (fun i => if decide (i < length lo) then (kvs (lo ++ hi)).1 !! i
              else if decide (i = length lo) then Some k else (kvs (lo ++ hi)).1 !! (i - 1))
    (fun i => if decide (i < length lo) then (kvs (lo ++ hi)).2 !! i
              else if decide (i = length lo) then Some v else (kvs (lo ++ hi)).2 !! (i - 1))
    (lo ++ (k, slotOf v) :: hi).
Proof.
  intros i Hi. unfold TableInv.kvs, slotOf. simpl.
  assert (Hcase : forall {B} (f : K * V -> B) x,
    (if decide (i < length lo) then (f <$> (lo ++ hi)) !! i
     else if decide (i = length lo) then Some (f x) else (f <$> (lo ++ hi)) !! (i - 1)) =
    f <$> (lo ++ x :: hi) !! i).
  { intros B f x. rewrite !list_lookup_fmap. case_decide as Hlt.
    - by rewrite !lookup_app_l.
    - case_decide as Heq.
      + subst i. by rewrite list_lookup_middle.
      + rewrite !lookup_app_r by lia. destruct (i - length lo) as [|j] eqn:Ej; [lia|].
        simpl. do 2 f_equal. lia. }
  split; [apply (Hcase K fst (k, _))|]. intros ->. apply (Hcase V snd (k, v)).
Qed.

Lemma sins_length k v es lo o hi :
  splitAt k es lo o hi ->
  length (sins k v es) = length es + (match o with Some _ => 0 | None => 1 end).
Proof.
  intros Hsp. rewrite (sins_split _ _ _ _ _ _ Hsp).
  destruct Hsp as [? ? -> _ _|? ? ? -> _ _]; rewrite !length_app; simpl; lia.
Qed.

(** A new leaf with the entries [mid] of a leaf replaced by [new]. *)
Lemma newLeaf_spliced lo mid hi new pos from b :
  pos = length lo -> from = length lo + length mid ->
  newLeaf s map
    (take pos (kvs (lo ++ mid ++ hi)).1 ++ new.*1 ++ drop from (kvs (lo ++ mid ++ hi)).1)
    (if map then take pos (kvs (lo ++ mid ++ hi)).2 ++ new.*2 ++ drop from (kvs (lo ++ mid ++ hi)).2
     else []) b = Some (leafFrom b (lo ++ new ++ hi)).
Proof.
  intros -> ->. rewrite <- newLeaf_kvs. unfold TableInv.kvs. simpl. 
  assert (Hsp : forall {B} (f : K * V -> B),
    take (length lo) (f <$> lo ++ mid ++ hi) ++ (f <$> new) ++
      drop (length lo + length mid) (f <$> lo ++ mid ++ hi) = f <$> lo ++ new ++ hi).
  { intros B f. rewrite <- fmap_take, <- fmap_drop, <- !fmap_app, take_app_length.
    by rewrite (app_assoc lo mid), <- length_app, drop_app_length. }
destruct map; rewrite ?(Hsp K fst); [|done]. f_equal. apply (Hsp V snd).
Qed.

Lemma leafFrom_slotOf b lo k v hi :
  leafFrom b (lo ++ (k, v) :: hi) = leafFrom b (lo ++ (k, slotOf v) :: hi).
Proof.
  unfold TableBuild.leafFrom, TableInv.kvs, slotOf. simpl. rewrite !length_app. simpl.
  destruct map; [done|]. by rewrite !fmap_app.
Qed.

Lemma present_at sc ks vs k lo o hi :
  length vs = vlen map ks -> splitAt k (leafEntries ks vs) lo o hi ->
  lowerBound (Leaf sc ks vs) k = Some (length lo) /\
  (if decide (length lo < length ks) then k0 ← ks !! length lo; Some (kcmp k0 k =? 0)%Z
   else Some false) = Some (match o with Some _ => true | None => false end).
Proof.
  intros Hv Hsp.
  pose proof (lowerBound_split map NullSlot (Leaf sc ks vs) _ _ _ _ _ _ _ eq_refl Hv Hsp) as Hlb.
  pose proof (findInLeaf_split map NullSlot (Leaf sc ks vs) _ _ _ _ _ _ _ eq_refl Hv Hsp) as Hf.
  split; [done|]. unfold findInLeaf in Hf. rewrite Hlb in Hf. simpl in Hf.
  destruct (decide _); [|by destruct o].
  destruct (ks !! length lo) as [k0|]; simpl in *; [|done].
  destruct (kcmp k0 k =? 0)%Z, o; done.
Qed.

Lemma insertIntoLeaf_spec sc ks vs k v inTree r :
  shaped r 0 (Leaf sc ks vs) -> roleFor inTree r -> sortedE (leafEntries ks vs) ->
  exists g, insertIntoLeaf s map (Leaf sc ks vs) k v inTree = Some g /\
    grownOk r 0 (Leaf sc ks vs) (sins k (slotOf v) (leafEntries ks vs)) g.
Proof.
  intros [[Hcap Hrole] Hv] Hin Hsrt. pose proof (leafCapacity_ge s map Hs) as Hc2.
  destruct (splitAt_exists k _ Hsrt) as (lo & o & hi & Hsp).
  assert (Hlen := sins_length k (slotOf v) _ _ _ _ Hsp).
  rewrite (length_leafEntries map NullSlot ks vs Hv) in Hlen.
  assert (Hcan : canonical (leafEntries ks vs)) by apply leafEntries_canonical.
  destruct (present_at sc ks vs k lo o hi Hv Hsp) as [Hlb Hpr].
  assert (Hkv := kvs_leafEntries map NullSlot ks vs Hv).
  rewrite (sins_split _ _ _ _ _ _ Hsp) in *.
  assert (Hone : length (lo ++ (k, slotOf v) :: hi) <= leafCapacity ->
    canonical lo -> canonical hi ->
    grownOk r 0 (Leaf sc ks vs) (lo ++ (k, slotOf v) :: hi) (One (leafFrom inTree (lo ++ (k, v) :: hi)))).
  { intros Hl Hcl Hch. rewrite leafFrom_slotOf. split.
    - apply leafFrom_shaped; [done|]. unfold roleFor in Hin. destruct r; [|done|done].
      split; [done|]. lia.
    - by apply leafFrom_entries, canonical_ins. }
  unfold insertIntoLeaf. rewrite Hlb. simpl. rewrite Hpr. simpl.
  inversion Hsp as [lo' hi' He|lo' v' hi' He]; subst lo' hi' o; simpl in Hlen |- *.
  - (* absent *)
    rewrite He in *. apply canonical_app in Hcan as [Hcl Hch].
    assert (Hk1 : ks = (kvs (lo ++ hi)).1) by (by rewrite Hkv).
    assert (Hv1 : vs = (kvs (lo ++ hi)).2) by (by rewrite Hkv).
    case_bool_decide as Hfull.
    + pose proof (reads_inserted lo hi k v) as Hreads. rewrite <- Hk1, <- Hv1 in Hreads.
      assert (Hhalf : 2 * ((length ks + 1) / 2) <= length ks + 1 < 2 * ((length ks + 1) / 2) + 2).
      { pose proof (Nat.div_mod_eq (length ks + 1) 2). pose proof (Nat.mod_upper_bound (length ks + 1) 2). lia. }
      assert (Hcapq : 2 * (leafCapacity / 2) <= leafCapacity).
      { pose proof (Nat.div_mod_eq leafCapacity 2). lia. }
      rewrite (leafOf_spec s map 0 _ _ _ _ _ Hreads) by (rewrite ?Hlen; lia). simpl.
      rewrite (leafOf_spec s map _ (length ks + 1) _ _ _ _ Hreads) by (rewrite ?Hlen; lia). simpl.
      eexists. split; [done|]. rewrite drop_0, Nat.sub_0_r.
      set (es := lo ++ (k, slotOf v) :: hi) in *. set (half := (length ks + 1) / 2) in *.
      assert (Hces : canonical es) by (by apply canonical_ins).
      rewrite (take_ge (drop half es)) by (rewrite length_drop; lia).
      rewrite <- (take_drop half es) in Hces. apply canonical_app in Hces as [Hc1 Hc3].
      split_and!.
      * apply leafFrom_shaped; rewrite length_take; [lia|]. split; [done|]. lia.
      * apply leafFrom_shaped; rewrite length_drop; [lia|]. split; [done|]. lia.
      * rewrite !(leafFrom_entries s map NullSlot) by done. apply take_drop.
    + eexists. rewrite Nat.add_0_r, Hk1, Hv1.
      pose proof (newLeaf_spliced lo [] hi [(k, v)] (length lo) (length lo) inTree) as Hnl.
      simpl in Hnl |- *. rewrite Hnl by lia. split; [done|].
      apply Hone; [lia|done|done].
  - (* present *)
    rewrite He in *. destruct (negb map) eqn:Hm; simpl.
    + eexists. split; [done|]. simpl. rewrite He. apply negb_true_iff in Hm.
      by rewrite (slotOf_present k v _ _ _ _ Hsp Hcan Hm).
    + apply canonical_app in Hcan as [Hcl Hch]. apply canonical_cons in Hch as [_ Hch].
      assert (Hk1 : ks = (kvs (lo ++ [(k, v')] ++ hi)).1) by (by simpl app; rewrite Hkv).
      assert (Hv1 : vs = (kvs (lo ++ [(k, v')] ++ hi)).2) by (by simpl app; rewrite Hkv).
      assert (Hkk : ks !! length lo = Some k).
      { rewrite Hk1. simpl. rewrite list_lookup_fmap. by rewrite list_lookup_middle. }
      rewrite Hkk. simpl. rewrite Hk1, Hv1.
      pose proof (newLeaf_spliced lo [(k, v')] hi [(k, v)] (length lo) (length lo + 1) inTree) as Hnl.
      simpl in Hnl |- *. rewrite Hnl by lia. simpl. eexists. split; [done|].
      apply Hone; [lia|done|done].
Qed.

(** *** The path to the key *)

Lemma childrenWith_at (a : list (Table K V)) c b x (y : option (Table K V)) :
  childrenWith (a ++ c :: b) (length a) x y = a ++ x :: match y with Some y => [y] | None => [] end ++ b.
Proof.
  unfold childrenWith. rewrite take_app_length.
  replace (a ++ c :: b) with ((a ++ [c]) ++ b) by (by rewrite <- app_assoc).
  rewrite drop_app_length' by (rewrite length_app; simpl; lia). done.
Qed.

Lemma inArray_Some n (cs : list (Table K V)) : length cs <= n -> inArray n cs = Some cs.
Proof. intros. apply guarded_true. by apply bool_decide_eq_true. Qed.

Lemma half_bounds n : 2 * (n / 2) <= n < 2 * (n / 2) + 2.
Proof. pose proof (Nat.div_mod_eq n 2). pose proof (Nat.mod_upper_bound n 2). lia. Qed.

Lemma regrow_spec r h t cs es' :
  Forall (shaped Sub h) cs -> 1 <= branchMin s r <= length cs -> length cs <= fanout s + 1 ->
  flat cs = es' ->
  exists g, regrow s cs = Some g /\ grownOk r (S h) t es' g.
Proof.
  intros Hcs Hr Hlen <-. unfold regrow. case_decide as Hd.
  - destruct (makeBranch_spec s map NullSlot Hs h cs r) as (t' & -> & Hsh & He); [done|lia|done|].
    simpl. by eexists.
  - pose proof (half_bounds (length cs)). pose proof (half_bounds (fanout s)).
    pose proof (fanout_range s Hs). rewrite <- (take_drop (length cs / 2) cs) in Hcs.
    apply Forall_app in Hcs as [Hl1 Hl2].
    destruct (makeBranch_spec s map NullSlot Hs h _ Sub Hl1) as (a & -> & Ha & Hea);
      [rewrite length_take; simpl; lia|rewrite length_take; lia|].
    destruct (makeBranch_spec s map NullSlot Hs h _ Sub Hl2) as (b & Hb1 & Hb & Heb);
      [rewrite length_drop; simpl; lia|rewrite length_drop; lia|].
    simpl. rewrite Hb1. simpl. eexists. split; [done|]. split_and!; [done..|].
    by rewrite Hea, Heb, <- flat_app, take_drop.
Qed.

Lemma insertInto_spec r h t k v inTree :
  shaped r h t -> 1 <= branchMin s r -> roleFor inTree r -> sortedE (entries t) ->
  exists g, insertInto s map h t k v inTree = Some g /\
    grownOk r h t (sins k (slotOf v) (entries t)) g.
Proof.
  revert r t inTree. induction h as [|h IH]; intros r t inTree;
    destruct t as [sc ks vs|w ht sz ss cs]; try done.
  - intros Hsh _ Hin Hsrt. by apply insertIntoLeaf_spec.
  - intros Ht Hr Hin Hsrt. pose proof Ht as ([Hc _] & _ & Hcs & _). simpl in Hsrt.
    destruct (childIndex_spec s map NullSlot Hs r h w ht sz ss cs k Ht Hr Hsrt)
      as (a & c & b & -> & Hi & Ha & Hb).
    simpl insertInto. rewrite Hi. simpl. rewrite list_lookup_middle by done. simpl.
    rewrite flat_middle in Hsrt. pose proof Hsrt as (_ & _ & (_ & Hsc & _)%sorted_app)%sorted_app.
    rewrite Forall_app, Forall_cons in Hcs. destruct Hcs as (Hca & Hcc & Hcb).
    pose proof (half_fanout s Hs). pose proof (fanout_range s Hs).
    destruct (IH Sub c true Hcc) as (g & -> & Hg); [simpl; lia|done|done|]. simpl.
    rewrite flat_middle, sins_app by done. rewrite length_app in Hc; simpl in Hc.
    destruct g as [|x|x y]; simpl in Hg.
    + eexists. split; [done|]. simpl. by rewrite flat_middle, <- Hg.
    + destruct Hg as [Hx Hex]. rewrite childrenWith_at, inArray_Some
        by (simpl; rewrite length_app; simpl; unfold kMaxFanout; lia).
      apply (regrow_spec r h).
      * apply Forall_app. split; [done|]. by constructor.
      * simpl. rewrite length_app. simpl. lia.
      * simpl. rewrite length_app. simpl. lia.
      * simpl. by rewrite flat_middle, Hex.
    + destruct Hg as (Hx & Hy & Hex). rewrite childrenWith_at, inArray_Some
        by (simpl; rewrite length_app; simpl; unfold kMaxFanout; lia).
      apply (regrow_spec r h).
      * apply Forall_app. split; [done|]. by repeat constructor.
      * simpl. rewrite length_app. simpl. lia.
      * simpl. rewrite length_app. simpl. lia.
      * simpl. rewrite flat_middle. simpl. by rewrite <- Hex, !app_assoc.
Qed.

(** The entries of the result of an insertion, and its shape. *)
Lemma insert_spec t k v :
  wf t -> exists t', insert s map t k v = Some t' /\ wf t' /\
    entries t' = sins k (slotOf v) (entries t).
Proof.
  intros [[h Hsh] Hsrt]. unfold insert. rewrite (shaped_height _ _ _ _ _ _ Hsh).
  destruct (insertInto_spec Root h t k v false) as (g & -> & Hg); [done|simpl; lia|done|done|].
  pose proof (sins_sorted k (slotOf v) _ Hsrt) as Hsrt'. simpl.
  destruct g as [|x|x y]; simpl in Hg.
  - exists t. split_and!; [done|split; [by exists h|done]|done].
  - destruct Hg as [Hx He]. exists x. split_and!; [done|split; [by exists h|by rewrite He]|done].
  - destruct Hg as (Hx & Hy & He). pose proof (fanout_range s Hs).
    destruct (makeBranch_spec s map NullSlot Hs h [x; y] Root) as (t' & -> & Hsh' & He');
      [by repeat constructor|simpl; lia|simpl; lia|].
    simpl in He'. rewrite app_nil_r, He in He'. exists t'.
    split_and!; [done|split; [by exists (S h)|by rewrite He']|done].
Qed.

(** ** Removal *)

(** What a removal from a table that is to stand in a tree ([inTree]) left. *)
Definition shrunkOk (inTree : bool) (h : nat) t es' (r : @Shrunk K V) : Prop :=
  match r with
  | Kept => entries t = es'
  | Made t' => shaped (Loose inTree) h t' /\ entries t' = es'
  end.

Lemma removeFromLeaf_spec sc ks vs k inTree r :
  shaped r 0 (Leaf sc ks vs) -> sortedE (leafEntries ks vs) ->
  exists g, removeFromLeaf s map (Leaf sc ks vs) k inTree = Some g /\
    shrunkOk inTree 0 (Leaf sc ks vs) (sdel k (leafEntries ks vs)) g.
Proof.
  intros [[Hcap _] Hv] Hsrt.
  destruct (splitAt_exists k _ Hsrt) as (lo & o & hi & Hsp).
  assert (Hcan : canonical (leafEntries ks vs)) by apply leafEntries_canonical.
  pose proof (length_leafEntries map NullSlot ks vs Hv) as Hlen.
  assert (Hkv := kvs_leafEntries map NullSlot ks vs Hv).
  unfold removeFromLeaf.
  rewrite (findInLeaf_split map NullSlot _ _ _ _ _ _ _ _ eq_refl Hv Hsp). simpl.
  rewrite (sdel_split _ _ _ _ _ Hsp).
  inversion Hsp as [lo' hi' He|lo' v' hi' He]; subst lo' hi' o; simpl.
  - by eexists.
  - rewrite He in Hcan, Hlen, Hkv.
    apply canonical_app in Hcan as [Hcl Hch]. apply canonical_cons in Hch as [_ Hch].
    assert (Hk1 : ks = (kvs (lo ++ (k, v') :: hi)).1) by (by rewrite Hkv).
    assert (Hv1 : vs = (kvs (lo ++ (k, v') :: hi)).2) by (by rewrite Hkv).
    pose proof (newLeaf_spliced lo [(k, v')] hi [] (length lo) (length lo + 1) inTree) as Hnl.
    rewrite length_app in Hlen. rewrite Hk1, Hv1. simpl in Hnl, Hlen |- *. rewrite Hnl by lia.
    simpl. eexists. split; [done|]. split; [|by apply leafFrom_entries, canonical_app].
    apply leafFrom_shaped; [|done]. rewrite length_app. lia.
Qed.

Lemma underfull_false h t : shaped (Loose true) h t -> underfull s map t = false -> shaped Sub h t.
Proof.
  destruct h, t; simpl; try done; unfold underfull; simpl; rewrite bool_decide_eq_false;
    unfold leafOk, branchOk, branchMin, count; simpl.
  - intros ([? ->] & ?) ?. split_and!; try done; lia.
  - intros (([? ?] & ?) & ? & ? & ? & ?) ?. split_and!; try done; lia.
Qed.

(** The number of entries of a leaf, or of children of a branch. *)
Definition held t : nat := if isLeaf t then size t else count t.
Definition heldMax (h : nat) : nat := match h with O => leafCapacity | S _ => fanout s end.

Lemma held_max r h t : shaped r h t -> held t <= heldMax h.
Proof. destruct h, t; simpl; try done; [by intros [[? _] _]|by intros [[[_ ?] _] _]]. Qed.

Lemma held_sub h t : shaped Sub h t -> heldMax h / 2 <= held t.
Proof. destruct h, t; simpl; try done; [by intros [[_ [? _]] _]|by intros [[[? _] _] _]]. Qed.

Lemma held_underfull r h t : shaped r h t -> underfull s map t = true -> held t < heldMax h / 2.
Proof. destruct h, t; simpl; try done; unfold underfull; simpl; intros _ Hu; by apply bool_decide_eq_true in Hu. Qed.

Lemma reads_app (ks1 ks2 : list K) (vs1 vs2 : list V) :
  length vs1 = vlen map ks1 -> length vs2 = vlen map ks2 ->
  reads map
    (fun i => if decide (i < length ks1) then ks1 !! i else ks2 !! (i - length ks1))
    (fun i => if decide (i < length ks1) then vs1 !! i else vs2 !! (i - length ks1))
    (leafEntries ks1 vs1 ++ leafEntries ks2 vs2).
Proof.
  intros Hv1 Hv2 i Hi. rewrite <- list_lookup_fmap, fmap_app.
  rewrite !leafEntries_keys by done. split.
  - case_decide; [by rewrite lookup_app_l|by rewrite lookup_app_r by lia].
  - intros Hm. unfold TableInv.leafEntries, vlen in *. rewrite Hm in *.
    rewrite <- list_lookup_fmap, fmap_app, !snd_zip by lia.
    case_decide; [by rewrite lookup_app_l by lia|]. rewrite lookup_app_r by lia. by rewrite Hv1.
Qed.

Lemma leafFrom_sub es :
  leafCapacity / 2 <= length es <= leafCapacity -> canonical es ->
  shaped Sub 0 (leafFrom true es) /\ entries (leafFrom true es) = es.
Proof. intros [? ?] ?. split; [by apply leafFrom_shaped|by apply leafFrom_entries]. Qed.

(** Two neighbours of which one is underfull make one table, or two, that may stand there. *)
Lemma combine_spec h a b :
  shaped (Loose true) h a -> shaped (Loose true) h b ->
  heldMax h / 2 <= held a + held b <= heldMax h + heldMax h / 2 ->
  exists l, combine s map a b = Some l /\ Forall (shaped Sub h) l /\
    flat l = entries a ++ entries b /\ 1 <= length l <= 2.
Proof.
  intros Ha Hb Hheld. pose proof (half_bounds (heldMax h)) as Hhm.
  pose proof (half_bounds (held a + held b)) as Hhs.
  destruct h as [|h]; destruct a as [sa ka va|wa ha za xa ca], b as [sb kb vb|wb hb zb xb cb];
    try done; unfold held, combine in *; simpl in *.
  - destruct Ha as [_ Hva], Hb as [_ Hvb].
    pose proof (reads_app ka kb va vb Hva Hvb) as Hr.
    set (es := leafEntries ka va ++ leafEntries kb vb) in *.
    assert (Hlen : length es = length ka + length kb).
    { unfold es. by rewrite length_app, !length_leafEntries. }
    assert (Hcan : canonical es) by (apply canonical_app; split; apply leafEntries_canonical).
    case_decide as Hfit.
    + rewrite (leafOf_spec s map 0 _ _ _ _ _ Hr) by lia.
      rewrite Nat.sub_0_r, drop_0, take_ge by lia. simpl.
      destruct (leafFrom_sub es) as [Hsh Hes]; [lia|done|].
      eexists. split; [done|]. simpl. rewrite app_nil_r. split_and!; try (simpl; lia); [|done].
      rewrite !Forall_cons. split_and!; auto using Forall_nil_2.
    + rewrite !(leafOf_spec s map _ _ _ _ _ _ Hr) by lia. simpl.
      rewrite drop_0, Nat.sub_0_r. set (half := (length ka + length kb) / 2) in *.
      rewrite (take_ge (drop half es)) by (rewrite length_drop; lia).
      rewrite <- (take_drop half es) in Hcan. apply canonical_app in Hcan as [Hc1 Hc3].
      destruct (leafFrom_sub (take half es)) as [Hs1 He1]; [rewrite length_take; lia|done|].
      destruct (leafFrom_sub (drop half es)) as [Hs2 He2]; [rewrite length_drop; lia|done|].
      eexists. split; [done|]. simpl in *. rewrite He1, He2, app_nil_r, take_drop.
      split_and!; try (simpl; lia); [|done].
      rewrite !Forall_cons. split_and!; auto using Forall_nil_2.
  - destruct Ha as ([Hca _] & _ & Hfa & _), Hb as ([Hcb _] & _ & Hfb & _).
    unfold count in *. simpl in *. pose proof (fanout_range s Hs). pose proof (half_fanout s Hs).
    rewrite inArray_Some by (rewrite length_app; unfold kMaxFanout; lia). simpl.
    assert (Hf : Forall (shaped Sub h) (ca ++ cb)) by (by apply Forall_app).
    rewrite <- flat_app. rewrite <- length_app in *. case_decide as Hfit.
    + destruct (makeBranch_spec s map NullSlot Hs h (ca ++ cb) Sub) as (t' & -> & Hsh & He);
        [done|simpl; lia|done|].
      simpl. eexists. split; [done|]. simpl. rewrite He, app_nil_r. split_and!; try (simpl; lia); [|done].
      rewrite !Forall_cons. split_and!; auto using Forall_nil_2.
    + set (half := length (ca ++ cb) / 2) in *.
      rewrite <- (take_drop half (ca ++ cb)) in Hf. apply Forall_app in Hf as [Hl1 Hl2].
      destruct (makeBranch_spec s map NullSlot Hs h _ Sub Hl1) as (a & -> & Ha & Hea);
        [rewrite length_take; simpl; lia|rewrite length_take; lia|].
      destruct (makeBranch_spec s map NullSlot Hs h _ Sub Hl2) as (b & Hb1 & Hb & Heb);
        [rewrite length_drop; simpl; lia|rewrite length_drop; lia|].
      simpl. rewrite Hb1. simpl. eexists. split; [done|]. simpl.
      rewrite Hea, Heb, app_nil_r, <- flat_app, take_drop. split_and!; try (simpl; lia); [|done].
      rewrite !Forall_cons. split_and!; auto using Forall_nil_2.
Qed.

(** Two neighbours of a row of tables combined. *)
Lemma combine_at (p : list (Table K V)) y z q left :
  left = length p ->
  (a ← (p ++ y :: z :: q) !! left; b ← (p ++ y :: z :: q) !! (left + 1);
   made ← combine s map a b;
   Some (take left (p ++ y :: z :: q) ++ made ++ drop (left + 2) (p ++ y :: z :: q))) =
  (made ← combine s map y z; Some (p ++ made ++ q)).
Proof.
  intros ->. rewrite (list_lookup_middle p (z :: q) y (length p)) by done.
  assert (Hz : (p ++ y :: z :: q) !! (length p + 1) = Some z).
  { rewrite lookup_app_r by lia. by replace (length p + 1 - length p) with 1 by lia. }
  assert (Hd : drop (length p + 2) (p ++ y :: z :: q) = q).
  { rewrite drop_app_ge by lia. by replace (length p + 2 - length p) with 2 by lia. }
  rewrite Hz, Hd, take_app_length. done.
Qed.

Lemma combined_row h (p : list (Table K V)) y z q :
  Forall (shaped Sub h) p -> Forall (shaped Sub h) q ->
  shaped (Loose true) h y -> shaped (Loose true) h z ->
  heldMax h / 2 <= held y + held z <= heldMax h + heldMax h / 2 ->
  length p + length q + 2 <= fanout s ->
  exists cs, (made ← combine s map y z; Some (p ++ made ++ q)) = Some cs /\
    Forall (shaped Sub h) cs /\ 1 <= length cs <= fanout s /\
    flat cs = flat p ++ entries y ++ entries z ++ flat q.
Proof.
  intros Hp Hq Hy Hz Hheld Hlen.
  destruct (combine_spec h y z Hy Hz Hheld) as (l & -> & Hl & He & Hll). simpl.
  eexists. split; [done|]. split_and!.
  - by repeat apply Forall_app_2.
  - rewrite !length_app. lia.
  - rewrite !length_app. lia.
  - by rewrite !flat_app, He, <- app_assoc.
Qed.

Lemma shaped_sub_held h y :
  shaped Sub h y -> heldMax h / 2 <= held y <= heldMax h /\ shaped (Loose true) h y.
Proof.
  intros Hy. split; [split|].
  - by apply held_sub.
  - by eapply held_max.
  - by apply (shaped_weaken s map NullSlot Hs).
Qed.

Lemma rebalance_spec h a c b x inTree :
  Forall (shaped Sub h) (a ++ c :: b) -> shaped (Loose true) h x ->
  2 <= length (a ++ c :: b) <= fanout s ->
  exists t, rebalance s map (a ++ c :: b) (length a) x = Some t /\
    shaped (Loose inTree) (S h) t /\ entries t = flat a ++ entries x ++ flat b.
Proof.
  intros Hcs Hx Hlen. pose proof (fanout_range s Hs).
  rewrite Forall_app, Forall_cons in Hcs. destruct Hcs as (Hca & _ & Hcb).
  rewrite length_app in Hlen. simpl in Hlen.
  assert (Hend : forall cs, Forall (shaped Sub h) cs -> 1 <= length cs <= fanout s ->
    flat cs = flat a ++ entries x ++ flat b ->
    exists t, makeBranch s cs = Some t /\ shaped (Loose inTree) (S h) t /\
      entries t = flat a ++ entries x ++ flat b).
  { intros cs Hf Hl <-. apply (makeBranch_spec s map NullSlot Hs h cs (Loose inTree) Hf);
      simpl; lia. }
  unfold rebalance.
  rewrite childrenWith_at, inArray_Some by (simpl; rewrite length_app; simpl; unfold kMaxFanout; lia).
  simpl. destruct (underfull s map x) eqn:Hu; simpl.
  2:{ apply Hend; [|rewrite length_app; simpl; lia|by rewrite flat_middle].
      apply Forall_app. split; [done|]. constructor; [by apply underfull_false|done]. }
  rewrite guarded_true by (apply bool_decide_eq_true; rewrite length_app; simpl; lia).
  assert (Hux := held_underfull _ _ _ Hx Hu).
  case_decide as Ha0.
  - destruct (exists_last (l := a)) as (a' & y & ->); [intros ->; simpl in Ha0; lia|].
    apply Forall_app in Hca as [Hca [Hy _]%Forall_cons].
    destruct (shaped_sub_held h y Hy) as [? Hyl].
    rewrite length_app in *. simpl in *. rewrite <- app_assoc. simpl.
    rewrite (combine_at a' y x b) by lia.
    destruct (combined_row h a' y x b Hca Hcb Hyl Hx) as (cs & -> & Hf & Hl & He); [lia..|].
    simpl. apply Hend; [done|done|]. rewrite He, flat_app. simpl.
    by rewrite app_nil_r, <- !app_assoc.
  - destruct a as [|? ?]; [|simpl in Ha0; lia]. destruct b as [|y b]; [simpl in Hlen; lia|].
    apply Forall_cons in Hcb as [Hy Hcb]. destruct (shaped_sub_held h y Hy) as [? Hyl].
    rewrite (combine_at [] x y b) by done. simpl in Hlen.
    destruct (combined_row h [] x y b Hca Hcb Hx Hyl) as (cs & -> & Hf & Hl & He);
      [lia|simpl; lia|].
    simpl. apply Hend; [done|done|]. by rewrite He.
Qed.

Lemma removeFrom_spec r h t k inTree :
  shaped r h t -> 2 <= branchMin s r -> sortedE (entries t) ->
  exists g, removeFrom s map h t k inTree = Some g /\
    shrunkOk inTree h t (sdel k (entries t)) g.
Proof.
  revert r t inTree. induction h as [|h IH]; intros r t inTree;
    destruct t as [sc ks vs|w ht sz ss cs]; try done.
  - intros Hsh _ Hsrt. by eapply removeFromLeaf_spec.
  - intros Ht Hr Hsrt. pose proof Ht as ([Hc _] & _ & Hcs & _). simpl in Hsrt.
    destruct (childIndex_spec s map NullSlot Hs r h w ht sz ss cs k Ht) as
      (a & c & b & -> & Hi & Ha & Hb); [lia|done|].
    simpl removeFrom. rewrite Hi. simpl. rewrite list_lookup_middle by done. simpl.
    rewrite flat_middle in Hsrt. pose proof Hsrt as (_ & _ & (_ & Hsc & _)%sorted_app)%sorted_app.
    pose proof (half_fanout s Hs).
    assert (Hcc : shaped Sub h c) by (rewrite Forall_app, Forall_cons in Hcs; tauto).
    destruct (IH Sub c true Hcc) as (g & -> & Hg); [simpl; lia|done|]. simpl.
    rewrite flat_middle, sdel_app by done.
    destruct g as [|x]; simpl in Hg.
    + eexists. split; [done|]. simpl. by rewrite flat_middle, <- Hg.
    + destruct Hg as [Hx Hex].
      destruct (rebalance_spec h a c b x inTree Hcs Hx) as (t' & -> & Hsh & He); [lia|].
      simpl. eexists. split; [done|]. simpl. by rewrite He, Hex.
Qed.

Lemma onlyChild_spec h t :
  shaped (Loose false) h t \/ shaped Root h t ->
  exists t' h', onlyChild h t = Some t' /\ shaped Root h' t' /\ entries t' = entries t.
Proof.
  intros Hsh. destruct h as [|h]; destruct t as [sc ks vs|w ht sz ss cs]; try by destruct Hsh.
  - exists (Leaf sc ks vs), 0. split_and!; [done| |done]. destruct Hsh as [[[? ->] ?]|?]; [|done].
    split; [|done]. by split.
  - assert (Hsh' : 1 <= length cs /\ Forall (shaped Sub h) cs /\
      (2 <= length cs -> shaped Root (S h) (Branch w ht sz ss cs))).
    { destruct Hsh as [Hsh|Hsh]; pose proof Hsh as ([[? ?] ?] & ? & ? & ? & ?);
        simpl in *; split_and!; try done; try lia; unfold branchOk; simpl; intros; split_and!; done. }
    destruct Hsh' as (Hl & Hf & Hr).
    destruct cs as [|c [|d cs]]; simpl in Hl; [lia| |].
    + apply Forall_cons in Hf as [Hc _].
      exists c, h. simpl. rewrite app_nil_r. pose proof Hc as Hc'.
      apply (shaped_weaken s map NullSlot Hs) in Hc as [Hroot _].
      split_and!; [|done|done].
      destruct h as [|h]; destruct c as [|? ? ? ? [|? [|? ?]]]; try done.
      destruct Hroot as ([[Hx _] _] & _). simpl in Hx. lia.
    + exists (Branch w ht sz ss (c :: d :: cs)), (S h). split_and!; [done| |done].
      apply Hr. simpl. lia.
Qed.

Lemma removeKey_spec t k :
  wf t -> exists t', removeKey s map t k = Some t' /\ wf t' /\ entries t' = sdel k (entries t).
Proof.
  intros [[h Hsh] Hsrt]. unfold removeKey. rewrite (shaped_height _ _ _ _ _ _ Hsh).
  destruct (removeFrom_spec Root h t k false Hsh) as (g & -> & Hg); [simpl; lia|done|].
  pose proof (sdel_sorted k _ Hsrt) as Hsrt'. simpl.
  assert (Hg' : exists u, (match g with Kept => t | Made t' => t' end) = u /\
    (shaped (Loose false) h u \/ shaped Root h u) /\ entries u = sdel k (entries t)).
  { destruct g as [|u]; [exists t|exists u; destruct Hg]; auto. }
  destruct Hg' as (u & -> & Hu & He).
  assert (Hh : height u = h) by (destruct Hu as [Hu|Hu]; by apply shaped_height in Hu).
  rewrite Hh. destruct (onlyChild_spec h u Hu) as (t' & h' & -> & Hsh' & He').
  exists t'. rewrite He', He. split_and!; [done| |done]. split; [by exists h'|].
  by rewrite He', He.
Qed.

(** ** The operations, with the check of the invariants *)

Lemma checked_spec t' es :
  wf t' -> entries t' = es -> exists u, checked s map t' = Some u /\ wf u /\ entries u = es.
Proof. intros Hwf <-. exists t'. split; [by apply (checked_wf s map NullSlot Hs)|done]. Qed.
End update.
