(* ===== verification/TableFromArray.v ===== *)
(** * A collection from an array

    [fromArray] sorts positions of the source (stably), keeps the last of each run of equal keys
    and builds the tree bottom-up. Its specification is the simple way to do it: the entries of
    the array put into an empty collection one after the other. *)

From S2P Require Import Prelude Keys Entries Table TableInv TableBuild TableCheck TableOps TableUpdate.

Section fromArray.
Context {K V : Type} `{KeyOrder K}.
Context (s : Shape) (map : bool) (NullSlot : V).
Context (Hs : shapeOk s).
Implicit Types (k : K) (v : V) (es ps source : list (K * V)) (order : list nat).

#[local] Abbreviation slotOf := (slotOf map NullSlot).

(** The entries put in one after the other. *)
Definition putAll es source : list (K * V) :=
  foldl (fun es e => sins e.1 (slotOf e.2) es) es source.

Lemma sins_le k v es : length (sins k v es) <= S (length es).
Proof. induction es as [|e es IH]; simpl; [lia|]. repeat case_match; simpl; lia. Qed.

Lemma putAll_length es source : length (putAll es source) <= length es + length source.
Proof.
  revert es. induction source as [|e source IH]; intros es; [simpl; lia|].
  specialize (IH (sins e.1 (slotOf e.2) es)). pose proof (sins_le e.1 (slotOf e.2) es).
  unfold putAll in *. simpl in *. lia.
Qed.

(** The value the last entry of [source] with key [k] has. *)
Fixpoint lastValue k source : option V :=
  match source with
  | [] => None
  | e :: rest =>
      match lastValue k rest with
      | Some v => Some v
      | None => if (kcmp e.1 k =? 0)%Z then Some e.2 else None
      end
  end.

(** The sort and the choice of the last of a run, on entries instead of positions. *)
Fixpoint insertEntry (x : K * V) ps : list (K * V) :=
  match ps with
  | [] => [x]
  | y :: rest => if (kcmp y.1 x.1 <? 0)%Z then y :: insertEntry x rest else x :: ps
  end.
Definition sortEntries ps : list (K * V) := foldr insertEntry [] ps.

Fixpoint lastEntries ps : list (K * V) :=
  match ps with
  | [] => []
  | x :: rest =>
      let keep := match rest with [] => true | y :: _ => negb (kcmp x.1 y.1 =? 0)%Z end in
      if keep then x :: lastEntries rest else lastEntries rest
  end.

Definition ele (a b : K * V) : Prop := (kcmp a.1 b.1 <= 0)%Z.

Lemma ele_trans x y z : ele x y -> ele y z -> ele x z.
Proof.
  unfold ele. intros Hxy Hyz. destruct (Z.eq_dec (kcmp y.1 z.1) 0%Z) as [E%kcmp_eq_1|];
    [by rewrite <- E|].
  assert (kcmp x.1 z.1 < 0)%Z; [|lia]. eapply kcmp_le_lt_trans; [exact Hxy|]. lia.
Qed.

Lemma putAll_sorted es source : sortedE es -> sortedE (putAll es source).
Proof. revert es. induction source as [|e l IH]; intros es Hes; simpl; [done|]. by apply IH, sins_sorted. Qed.

Lemma sfind_putAll k es source :
  sortedE es ->
  sfind k (putAll es source) =
    match lastValue k source with Some v => Some (slotOf v) | None => sfind k es end.
Proof.
  revert es. induction source as [|e l IH]; intros es Hes; simpl; [done|].
  rewrite IH by (by apply sins_sorted). destruct (lastValue k l); [done|].
  rewrite sfind_sins by done. destruct (Z.eqb_spec (kcmp e.1 k) 0) as [E|E].
  - apply kcmp_eq_1 in E. by rewrite decide_True.
  - rewrite decide_False; [done|]. intros <-. by rewrite kcmp_refl in E.
Qed.

(** The sort keeps the last value of every key: it is stable. *)
Lemma lastValue_insertEntry k x ps : lastValue k (insertEntry x ps) = lastValue k (x :: ps).
Proof.
  induction ps as [|y ps IH]; [done|]. simpl. destruct (Z.ltb_spec (kcmp y.1 x.1) 0) as [Hlt|]; [|done].
  simpl. rewrite IH. simpl. destruct (lastValue k ps); [done|].
  destruct (Z.eqb_spec (kcmp x.1 k) 0) as [E1|], (Z.eqb_spec (kcmp y.1 k) 0) as [E2|]; try done.
  apply kcmp_eq_1 in E1, E2. rewrite E1, E2, kcmp_refl in Hlt. lia.
Qed.

Lemma lastValue_sortEntries k ps : lastValue k (sortEntries ps) = lastValue k ps.
Proof.
  induction ps as [|x ps IH]; simpl; [done|].
  rewrite lastValue_insertEntry. simpl. by rewrite IH.
Qed.

Lemma insertEntry_elem e x ps : e ∈ insertEntry x ps -> e = x \/ e ∈ ps.
Proof.
  induction ps as [|y ps IH]; simpl; [rewrite list_elem_of_singleton; auto|].
  destruct (_ <? _)%Z; rewrite ?elem_of_cons; naive_solver.
Qed.

Lemma insertEntry_sorted x ps : StronglySorted ele ps -> StronglySorted ele (insertEntry x ps).
Proof.
  induction ps as [|y ps IH]; simpl; intros Hps; [repeat constructor|].
  apply StronglySorted_cons in Hps as [Hf Hps].
  destruct (Z.ltb_spec (kcmp y.1 x.1) 0); apply StronglySorted_cons.
  - split; [|auto]. rewrite Forall_forall in *. intros e [->|He]%insertEntry_elem; [|auto].
    unfold ele. lia.
  - assert (Hxy : ele x y) by (unfold ele; rewrite (kcmp_opp y.1 x.1); lia).
    split; [|by apply StronglySorted_cons]. constructor; [done|].
    eapply Forall_impl; [exact Hf|]. intros e. by apply ele_trans.
Qed.

Lemma sortEntries_sorted ps : StronglySorted ele (sortEntries ps).
Proof. induction ps; simpl; [constructor|by apply insertEntry_sorted]. Qed.

(** The last of every run: strictly ascending, with the last values. *)
Lemma lastEntries_elem e ps : e ∈ lastEntries ps -> e ∈ ps.
Proof.
  induction ps as [|x ps IH]; simpl; [done|].
  destruct (match ps with [] => true | y :: _ => _ end); rewrite ?elem_of_cons; naive_solver.
Qed.

Lemma lastEntries_spec ps :
  StronglySorted ele ps ->
  sortedE (lastEntries ps) /\ forall k, lastValue k (lastEntries ps) = lastValue k ps.
Proof.
  induction ps as [|x ps IH]; simpl; intros Hps; [split; [constructor|done]|].
  apply StronglySorted_cons in Hps as [Hf Hps]. destruct (IH Hps) as [IHs IHv].
  destruct ps as [|y ps]; [split; [repeat constructor|done]|].
  destruct (Z.eqb_spec (kcmp x.1 y.1) 0) as [E|E]; simpl negb; cbv iota.
  - split; [done|]. intros k. rewrite IHv. apply kcmp_eq_1 in E. rewrite E. simpl.
    destruct (lastValue k ps); [done|]. by destruct (kcmp y.1 k =? 0)%Z.
  - split.
    + apply sorted_cons. split; [|done]. apply Forall_forall. intros e He%lastEntries_elem.
      apply Forall_cons in Hf as [Hxy Hf]. apply StronglySorted_cons in Hps as [Hy _].
      unfold elt, ele in *. apply elem_of_cons in He as [->|He]; [lia|].
      rewrite Forall_forall in Hy. specialize (Hy e He). unfold ele in Hy.
      eapply kcmp_lt_le_trans; [|exact Hy]. lia.
    + intros k. simpl. specialize (IHv k). simpl in IHv. rewrite IHv. done.
Qed.

Lemma sorted_lastValue k es : sortedE es -> sfind k es = lastValue k es.
Proof.
  induction es as [|[k' v'] es IH]; intros Hes; simpl; [done|].
  apply sorted_cons in Hes as [Hf Hes]. rewrite <- IH by done.
  destruct (Z.eqb_spec (kcmp k' k) 0) as [E|E].
  - apply kcmp_eq_1 in E as ->. rewrite (sfind_after k); [done|]. exact Hf.
  - by destruct (sfind k es).
Qed.

(** *** Positions *)

Definition at_ source order : option (list (K * V)) := mapM (fun i => source !! i) order.

Ltac mret_eq := unfold mret, option_ret in *; simplify_eq.

Lemma at_sortInsert source i x order ps :
  source !! i = Some x -> at_ source order = Some ps ->
  at_ source (sortInsert (positionBefore source) i order) = Some (insertEntry x ps).
Proof.
  unfold at_. intros Hx. revert ps. induction order as [|j order IH]; simpl; intros ps Hps.
  - mret_eq. simpl. by rewrite Hx.
  - destruct (source !! j) as [y|] eqn:Hy; simpl in Hps; [|done].
    destruct (mapM _ order) as [qs|] eqn:Hq; simpl in Hps; [|done]. mret_eq.
    simpl. unfold positionBefore at 1. rewrite Hx, Hy. destruct (_ <? _)%Z; simpl.
    + rewrite Hy. simpl. by rewrite (IH qs).
    + by rewrite Hx, Hy, Hq.
Qed.

Lemma at_stableSort source order ps :
  at_ source order = Some ps ->
  at_ source (stableSort (positionBefore source) order) = Some (sortEntries ps).
Proof.
  revert ps. induction order as [|i order IH]; intros ps Hps; unfold at_ in *; simpl in *.
  - by mret_eq.
  - destruct (source !! i) as [x|] eqn:Hx; simpl in Hps; [|done].
    destruct (mapM _ order) as [qs|] eqn:Hq; simpl in Hps; [|done]. mret_eq.
    simpl. apply at_sortInsert; [done|]. by apply IH.
Qed.

Lemma at_lastOfRuns source order ps :
  at_ source order = Some ps ->
  exists order', lastOfRuns source order = Some order' /\ at_ source order' = Some (lastEntries ps).
Proof.
  unfold at_. revert ps. induction order as [|i order IH]; intros ps Hps; simpl in *.
  - mret_eq. by exists [].
  - destruct (source !! i) as [x|] eqn:Hx; simpl in Hps; [|done].
    destruct (mapM _ order) as [qs|] eqn:Hq; simpl in Hps; [|done]. mret_eq.
    destruct (IH qs eq_refl) as (order' & Ho & Ha). rewrite Ho.
    assert (Hkeep : match order with [] => Some true
        | j :: _ => a ← Some x; b ← source !! j; Some (negb (kcmp a.1 b.1 =? 0)%Z) end =
      Some (match qs with [] => true | y :: _ => negb (kcmp x.1 y.1 =? 0)%Z end)).
    { destruct order as [|j order]; simpl in Hq; [by mret_eq|].
      destruct (source !! j) as [y|]; simpl in *; [|done].
      destruct (mapM _ order); simpl in Hq; [|done]. by mret_eq. }
    rewrite Hkeep. simpl. eexists. split; [done|].
    destruct (match qs with [] => true | y :: _ => _ end); [|done].
    simpl. by rewrite Hx, Ha.
Qed.

Lemma ascending_sorted source : ascending source = true -> sortedE source.
Proof.
  intros Ha. apply Sorted_StronglySorted; [intros x y z; apply kcmp_trans|].
  induction source as [|a [|b l] IH]; [constructor|repeat constructor|].
  simpl in Ha. apply andb_true_iff in Ha as [Hab Ha]. constructor; [by apply IH|].
  constructor. by apply Z.ltb_lt in Hab.
Qed.

(** The order [fromArray] builds from, whichever way it came about. *)
Lemma order_spec source :
  exists order ps,
    (if ascending source then Some (seq 0 (length source))
     else lastOfRuns source (stableSort (positionBefore source) (seq 0 (length source)))) =
      Some order /\
    at_ source order = Some ps /\ sortedE ps /\ forall k, lastValue k ps = lastValue k source.
Proof.
  assert (Hat : at_ source (seq 0 (length source)) = Some source).
  { unfold at_. rewrite (mapM_seq_slice _ source) by done. by rewrite drop_0, firstn_all. }
  destruct (ascending source) eqn:Ha.
  - exists (seq 0 (length source)), source. split_and!; [done|done|by apply ascending_sorted|done].
  - apply at_stableSort in Hat.
    destruct (at_lastOfRuns _ _ _ Hat) as (order & Ho & Hat').
    destruct (lastEntries_spec _ (sortEntries_sorted source)) as [Hsrt Hlv].
    exists order, (lastEntries (sortEntries source)). split_and!; [done|done|done|].
    intros k. by rewrite Hlv, lastValue_sortEntries.
Qed.

Definition slotted (e : K * V) : K * V := (e.1, slotOf e.2).

Lemma reads_at source order ps :
  at_ source order = Some ps ->
  reads map (fun i => p ← order !! i; fst <$> source !! p)
    (fun i => p ← order !! i; snd <$> source !! p) (slotted <$> ps).
Proof.
  intros Hat i Hi. rewrite length_fmap in Hi.
  apply mapM_Some in Hat. destruct (lookup_lt_is_Some_2 ps i Hi) as [x Hx].
  destruct (Forall2_lookup_r _ _ _ _ _ Hat Hx) as (p & Hp & Hsp).
  rewrite list_lookup_fmap, Hp, Hx. simpl. rewrite Hsp. simpl. split; [done|].
  intros Hm. unfold slotted, TableUpdate.slotOf. simpl. by rewrite Hm.
Qed.

Lemma slotted_sorted ps : sortedE ps -> sortedE (slotted <$> ps).
Proof.
  induction ps as [|x ps IH]; simpl; [done|]. rewrite !sorted_cons. intros [Hf Hps].
  split; [|auto]. apply Forall_fmap. eapply Forall_impl; [exact Hf|]. done.
Qed.

Lemma lastValue_slotted k ps : lastValue k (slotted <$> ps) = slotOf <$> lastValue k ps.
Proof.
  induction ps as [|x ps IH]; [done|]. cbn. rewrite IH.
  destruct (lastValue k ps); simpl; [done|]. by destruct (_ =? _)%Z.
Qed.

Lemma fromArray_spec source :
  exists t, fromArray s map source = Some t /\ wf s map NullSlot t /\
    entries map NullSlot t = putAll [] source.
Proof.
  unfold fromArray. case_decide as Hz.
  - apply length_zero_iff_nil in Hz as ->. simpl.
    exists (leafFrom s map false ([] : list (K * V))).
    assert (He : entries map NullSlot (leafFrom s map false ([] : list (K * V))) = []).
    { apply leafFrom_entries, canonical_nil. }
    split_and!; [|split|done].
    + rewrite <- (newLeaf_kvs s map ([] : list (K * V))). unfold kvs. by destruct map.
    + exists 0. apply leafFrom_shaped; [simpl; lia|done].
    + rewrite He. constructor.
  - destruct (order_spec source) as (order & ps & -> & Hat & Hsrt & Hlv). simpl.
    assert (Hlen : length order = length (slotted <$> ps)).
    { unfold at_ in Hat. apply length_mapM in Hat. by rewrite length_fmap. }
    destruct (buildTree_shaped s map NullSlot Hs (length order) _ _ _ (reads_at _ _ _ Hat) Hlen)
      as (t & h & Ht & Hsh & He).
    { unfold canonical. destruct map eqn:Hm; [by left|right]. apply Forall_fmap, Forall_true.
      intros e. unfold compose, slotted, TableUpdate.slotOf. simpl. by rewrite Hm. }
    rewrite Ht. simpl. apply checked_spec; [done| |].
    + split; [by exists h|]. rewrite He. by apply slotted_sorted.
    + rewrite He. apply sorted_ext; [by apply slotted_sorted|apply putAll_sorted; constructor|].
      intros k. rewrite sfind_putAll by constructor. rewrite sorted_lastValue by (by apply slotted_sorted).
      rewrite lastValue_slotted, Hlv. by destruct (lastValue k source).
Qed.
End fromArray.
