(* ===== verification/TableSetOps.v ===== *)
(** * The operations on two collections, and the walks over one

    [merge], [intersect], [difference] and [isSubset], each with the code for two leaves, for
    two collections of very different sizes, and for two trees; [keys], [values],
    [items], [forEachEntry], [forEachSlot] and [withSlots] of src/src/core/rtdata/
    collection_ops.cpp; [equals], [clone] and [print] of collection.cpp. The loops over two
    leaves and over two trees differ in how they step and in where they write, so each is
    written once over the interface [Iterator] and a sink. *)

From Stdlib Require Import String.
From S2P Require Import Prelude Keys Entries Table TableInv TableCheck TableOps.

(** ** The loops over two collections *)

Section loops.
Context {K V C : Type} `{KeyOrder K} `{Iter K V C}.
(** Where an entry of the result goes; a write that does not fit is [None]. *)
Context (emit : @Entries K V -> K -> V -> option (@Entries K V)).
Implicit Types (x y : C) (out : @Entries K V).

Fixpoint drain (fuel : nat) x out : option Entries :=
  if itDone x then Some out
  else
    match fuel with
    | O => None
    | S fuel =>
        k ← itKey x; v ← itValue x;
        out ← emit out k v;
        x ← itNext x;
        drain fuel x out
    end.

Fixpoint mergeLoop (fuel : nat) x y out : option Entries :=
  if negb (itDone x) && negb (itDone y) then
    match fuel with
    | O => None
    | S fuel =>
        kx ← itKey x; ky ← itKey y;
        let order := kcmp kx ky in
        if (order <? 0)%Z then
          vx ← itValue x;
          out ← emit out kx vx;
          x ← itNext x;
          mergeLoop fuel x y out
        else
          vy ← itValue y;
          out ← emit out ky vy;
          y ← itNext y;
          x ← (if (order =? 0)%Z then itNext x else Some x);
          mergeLoop fuel x y out
    end
  else out ← drain fuel x out; drain fuel y out.

(** The loops of a set write no value: [null] is the null slot. *)
Context (null : V).

Fixpoint intersectLoop (fuel : nat) x y out : option Entries :=
  if negb (itDone x) && negb (itDone y) then
    match fuel with
    | O => None
    | S fuel =>
        kx ← itKey x; ky ← itKey y;
        let order := kcmp kx ky in
        if (order <? 0)%Z then x ← itNext x; intersectLoop fuel x y out
        else if (0 <? order)%Z then y ← itNext y; intersectLoop fuel x y out
        else
          out ← emit out kx null;
          x ← itNext x;
          y ← itNext y;
          intersectLoop fuel x y out
    end
  else Some out.

Fixpoint differenceLoop (fuel : nat) x y out : option Entries :=
  if negb (itDone x) then
    match fuel with
    | O => None
    | S fuel =>
        kx ← itKey x;
        order ← (if itDone y then Some (-1)%Z else ky ← itKey y; Some (kcmp kx ky));
        if (order <? 0)%Z then
          out ← emit out kx null;
          x ← itNext x;
          differenceLoop fuel x y out
        else if (0 <? order)%Z then y ← itNext y; differenceLoop fuel x y out
        else x ← itNext x; y ← itNext y; differenceLoop fuel x y out
    end
  else Some out.

(** Up to the first key that is not before [k]. *)
Fixpoint skipBefore (fuel : nat) y (k : K) : option C :=
  if itDone y then Some y
  else
    ky ← itKey y;
    if (kcmp ky k <? 0)%Z then
      match fuel with
      | O => None
      | S fuel => y ← itNext y; skipBefore fuel y k
      end
    else Some y.

Fixpoint subsetLoop (fuel : nat) x y : option bool :=
  if itDone x then Some true
  else
    match fuel with
    | O => None
    | S fuel' =>
        kx ← itKey x;
        y ← skipBefore fuel y kx;
        if itDone y then Some false
        else
          ky ← itKey y;
          if negb (kcmp ky kx =? 0)%Z then Some false
          else y ← itNext y; x ← itNext x; subsetLoop fuel' x y
    end.

(** A step of the loop of one collection over the entries of another. *)
Fixpoint forEach {A} (fuel : nat) (f : A -> K -> V -> option A) x (acc : A) : option A :=
  if itDone x then Some acc
  else
    match fuel with
    | O => None
    | S fuel =>
        k ← itKey x; v ← itValue x;
        acc ← f acc k v;
        x ← itNext x;
        forEach fuel f x acc
    end.
End loops.

Section setops.
Context {K V : Type} `{KeyOrder K}.
Context (s : Shape) (map : bool) (NullSlot : V).
Implicit Types (a b t : Table K V).

#[local] Instance : Iter K V (LeafIndex K V) := leafIndex_iter map NullSlot.
#[local] Instance : Iter K V (Cursor K V) := cursor_iter map NullSlot.

(** ** Two leaves *)

(** [copyEntry] into a scratch leaf allocated for [cap] entries. *)
Definition copyEntry (cap : nat) (out : Entries) (k : K) (v : V) : option Entries :=
  GUARD bool_decide (length out.1 < cap) ;; Some (push map out k v).

(** [finished]: the scratch leaf itself when it is full, else a leaf of the exact size. *)
Definition finished (cap : nat) (out : Entries) : option (Table K V) :=
  if decide (length out.1 = cap) then create (leafSlots s map cap false) out.1 out.2
  else newLeaf s map out.1 out.2 false.

Definition emptyEntries : @Entries K V := ([], []).

Definition mergeLeaves a b : option (Table K V) :=
  let cap := size a + size b in
  out ← mergeLoop (copyEntry cap) cap (At a 0) (At b 0) emptyEntries;
  finished cap out.

Definition intersectLeaves a b : option (Table K V) :=
  let cap := size a `min` size b in
  out ← intersectLoop (copyEntry cap) NullSlot (size a + size b) (At a 0) (At b 0) emptyEntries;
  finished cap out.

Definition differenceLeaves a b : option (Table K V) :=
  let cap := size a in
  out ← differenceLoop (copyEntry cap) NullSlot (size a + size b) (At a 0) (At b 0) emptyEntries;
  finished cap out.

Definition isSubsetOfLeaf a b : option bool :=
  subsetLoop (size a + size b) (At a 0) (At b 0).

(** ** Two collections *)

Definition merge a b : option (Table K V) :=
  if decide (size b = 0) then Some a
  else if decide (size a = 0) then Some b
  else if isLeaf a && isLeaf b then
    leaf ← mergeLeaves a b;
    t ← normalized s map leaf;
    checked s map t
  else if muchSmaller b a then
    from ← cursor b;
    result ← forEach (size b) (fun t k v => insert s map t k v) from a;
    checked s map result
  else if muchSmaller a b then
    from ← cursor a;
    result ← forEach (size a)
               (fun t k v => there ← has b k; if (there : bool) then Some t else insert s map t k v)
               from b;
    checked s map result
  else
    x ← cursor a; y ← cursor b;
    out ← mergeLoop (fun out k v => Some (push map out k v)) (size a + size b) x y emptyEntries;
    t ← build s map out;
    checked s map t.

(** The elements of [small] that [keep] answers true for, pushed in order. *)
Definition selected (small : Table K V) (keep : K -> option bool) : option Entries :=
  from ← cursor small;
  forEach (size small)
    (fun out k _ => ok ← keep k; Some (if (ok : bool) then push map out k NullSlot else out))
    from emptyEntries.

Definition intersect a b : option (Table K V) :=
  if isLeaf a && isLeaf b then intersectLeaves a b
  else if muchSmaller a b || muchSmaller b a then
    let (small, large) := if decide (size a <= size b) then (a, b) else (b, a) in
    out ← selected small (has large);
    t ← build s map out;
    checked s map t
  else
    x ← cursor a; y ← cursor b;
    out ← intersectLoop (fun out k v => Some (push map out k v)) NullSlot (size a + size b) x y
            emptyEntries;
    t ← build s map out;
    checked s map t.

Definition difference a b : option (Table K V) :=
  if decide (size b = 0 \/ size a = 0) then Some a
  else if isLeaf a && isLeaf b then differenceLeaves a b
  else if muchSmaller b a then
    from ← cursor b;
    result ← forEach (size b) (fun t k _ => removeKey s map t k) from a;
    checked s map result
  else if muchSmaller a b then
    out ← selected a (fun k => there ← has b k; Some (negb there));
    t ← build s map out;
    checked s map t
  else
    x ← cursor a; y ← cursor b;
    out ← differenceLoop (fun out k v => Some (push map out k v)) NullSlot (size a + size b) x y
            emptyEntries;
    t ← build s map out;
    checked s map t.

Definition isSubset a b : option bool :=
  if decide (size b < size a) then Some false
  else if isLeaf a && isLeaf b then isSubsetOfLeaf a b
  else if muchSmaller a b then
    from ← cursor a;
    forEach (size a)
      (fun ok k _ => if (ok : bool) then has b k else Some false) from true
  else
    y ← cursor b; x ← cursor a;
    subsetLoop (size a + size b) x y.
End setops.

(** ** Walks over one collection *)

Section walks.
Context {K V : Type} `{KeyOrder K}.
Context (s : Shape) (map : bool) (NullSlot : V).
Implicit Types (a b t : Table K V).

#[local] Instance : Iter K V (Cursor K V) := cursor_iter map NullSlot.
#[local] Instance : Iter K V (LeafIndex K V) := leafIndex_iter map NullSlot.

(** The writes [array[at + i] = slots[i]]; a slot of a new array is [None] until it is written,
    and a write outside the array is [None]. *)
Fixpoint writeFrom {A} (array : list (option A)) (at_ : nat) (slots : list A)
    : option (list (option A)) :=
  match slots with
  | [] => Some array
  | x :: slots =>
      GUARD bool_decide (at_ < length array) ;;
      writeFrom (<[at_ := Some x]> array) (S at_) slots
  end.

(** [arrayOf]: the slots of the leaves, one leaf after the other. *)
Fixpoint writeLeaves {A} (slots : Table K V -> list A) (ls : list (Table K V)) (at_ : nat)
    (array : list (option A)) : option (list (option A)) :=
  match ls with
  | [] => Some array
  | leaf :: ls =>
      array ← writeFrom array at_ (slots leaf);
      writeLeaves slots ls (at_ + size leaf) array
  end.

Definition arrayOf {A} (t : Table K V) (slots : Table K V -> list A) : option (list (option A)) :=
  let result := replicate (size t) None in
  if decide (size t = 0) then Some result else writeLeaves slots (leaves t) 0 result.

Definition keysArray t : option (list (option K)) := arrayOf t keys.
Definition valuesArray t : option (list (option V)) := arrayOf t values.
Definition items t : option (list (option (K * V))) :=
  writeLeaves (fun leaf => zip (keys leaf) (values leaf)) (leaves t) 0 (replicate (size t) None).

(** The calls of [visit], in order. *)
Definition forEachEntry t : list (K * V) :=
  concat (List.map (fun leaf => if map then zip (keys leaf) (values leaf)
                                else (fun k => (k, NullSlot)) <$> keys leaf) (leaves t)).

Definition forEachSlot t : list (K + V) :=
  concat (List.map (fun leaf => (inl <$> keys leaf) ++ (if map then inr <$> values leaf else []))
            (leaves t)).

(** [withSlots]. [sameKey] and [sameValue] compare slots (so, of a reference, the address). *)
Section withSlots.
Context (rewriteKey : K -> K) (rewriteValue : V -> V).
Context (sameKey : K -> K -> bool) (sameValue : V -> V -> bool).

Definition rewritten (ls : list (Table K V)) : @Entries K V * bool :=
  foldl (fun '(out, changed) leaf =>
           let ks := rewriteKey <$> keys leaf in
           let vs := if map then rewriteValue <$> values leaf else [] in
           ((out.1 ++ ks, out.2 ++ vs),
            changed || negb (forallb (fun p => sameKey p.1 p.2) (zip ks (keys leaf)))
              || negb (forallb (fun p => sameValue p.1 p.2) (zip vs (values leaf)))))
    (([], []), false) ls.

Definition withSlots t : option (Table K V) :=
  let (out, changed) := rewritten (leaves t) in
  if negb changed then Some t else t ← build s map out; checked s map t.
End withSlots.

(** [Table::equals], for tables whose addresses differ. [veq] is [valuesEqual] at the value
    type, [same] the comparison of slots of the shallow equality. *)
Section equals.
Context (veq same : V -> V -> bool) (deep : bool).
Let eqv : V -> V -> bool := if deep then veq else same.

Fixpoint equalLoop (fuel : nat) (x y : Cursor K V) : option bool :=
  if itDone x then Some true
  else
    match fuel with
    | O => None
    | S fuel =>
        kx ← itKey x; ky ← itKey y;
        if negb (kcmp kx ky =? 0)%Z then Some false
        else
          ok ← (if map then vx ← itValue x; vy ← itValue y; Some (eqv vx vy) else Some true);
          if negb ok then Some false
          else x ← itNext x; y ← itNext y; equalLoop fuel x y
    end.

Definition equals a b : option bool :=
  if negb (bool_decide (size a = size b)) then Some false
  else if negb (isLeaf a) || negb (isLeaf b) then
    x ← cursor a; y ← cursor b;
    equalLoop (size a) x y
  else if negb (forallb (fun p => (kcmp p.1 p.2 =? 0)%Z) (zip (keys a) (keys b))) then Some false
  else if negb map then Some true
  else Some (forallb (fun p => eqv p.1 p.2) (zip (values a) (values b))).
End equals.

(** [Table::clone]: [copyKey] and [copyValue] copy one slot. No check of the invariants. *)
Definition clone (copyKey : K -> K) (copyValue : V -> V) t : option (Table K V) :=
  build s map (fst (rewritten copyKey copyValue (fun _ _ => true) (fun _ _ => true) (leaves t))).

(** [Table::print]: what it writes between the braces, [printKey] and [printValue] for
    [printSlot]. *)
Definition print (printKey : K -> string) (printValue : V -> string) t : string :=
  let one (acc : string * bool) (e : K * option V) : string * bool :=
    ((acc.1 ++ (if acc.2 then "" else ", ") ++ printKey e.1 ++
      match e.2 with Some v => ": " ++ printValue v | None => "" end)%string, false) in
  (fst (foldl one ("{"%string, true)
     (concat (List.map (fun leaf => if map then zip (keys leaf) (Some <$> values leaf)
                                    else (fun k => (k, None)) <$> keys leaf) (leaves t)))) ++ "}")%string.
End walks.
