(* ===== verification/TableSets.v ===== *)
(** * What the operations on two collections do

    The loops of TableSetOps.v compute functions of the lists of entries they walk over, and on
    sorted lists these functions are the union, the intersection, the difference and the
    inclusion of the collections. Every branch of [merge], [intersect], [difference] and
    [isSubset] gives the same entries. *)

From S2P Require Import Prelude Keys Entries Table TableInv TableBuild TableCheck TableOps TableUpdate TableFromArray TableSetOps.

(** ** Union, intersection, difference and inclusion of sorted entries *)

Section lists.
Context {K V : Type} `{KeyOrder K}.
Implicit Types (xs ys es : list (K * V)) (k : K).

(** The union: an entry of [ys] replaces one of [xs] with its key. *)
Fixpoint lmerge xs : list (K * V) -> list (K * V) :=
  fix inner ys :=
    match xs, ys with
    | [], _ => ys
    | _, [] => xs
    | x :: xs', y :: ys' =>
        if (kcmp x.1 y.1 <? 0)%Z then x :: lmerge xs' ys
        else if (kcmp x.1 y.1 =? 0)%Z then y :: lmerge xs' ys'
        else y :: inner ys'
    end.

Definition hasKey ys k : bool := match sfind k ys with Some _ => true | None => false end.
Definition member ys (e : K * V) : bool := hasKey ys e.1.
Definition sinter xs ys : list (K * V) := List.filter (member ys) xs.
Definition sdiff xs ys : list (K * V) := List.filter (fun e => negb (member ys e)) xs.
Definition ssubset xs ys : bool := forallb (member ys) xs.

Lemma lmerge_nil_r xs : lmerge xs [] = xs.
Proof. by destruct xs. Qed.

Lemma lmerge_cons x xs y ys :
  lmerge (x :: xs) (y :: ys) =
    if (kcmp x.1 y.1 <? 0)%Z then x :: lmerge xs (y :: ys)
    else if (kcmp x.1 y.1 =? 0)%Z then y :: lmerge xs ys else y :: lmerge (x :: xs) ys.
Proof. done. Qed.

Lemma lmerge_length xs ys : length (lmerge xs ys) <= length xs + length ys.
Proof.
  revert ys. induction xs as [|x xs IH]; intros ys; [by destruct ys|].
  induction ys as [|y ys IHy]; [simpl; lia|]. rewrite lmerge_cons.
  destruct (_ <? _)%Z; [specialize (IH (y :: ys)); simpl in *; lia|].
  destruct (_ =? _)%Z; [specialize (IH ys); simpl in *; lia|].
  simpl length in *. lia.
Qed.

Lemma lmerge_elem e xs ys : e ∈ lmerge xs ys -> e ∈ xs \/ e ∈ ys.
Proof.
  revert ys. induction xs as [|x xs IH]; intros ys; [destruct ys; auto|].
  induction ys as [|y ys IHy]; [auto|]. rewrite lmerge_cons.
  destruct (_ <? _)%Z; [intros [->|He%IH]%elem_of_cons; rewrite !elem_of_cons in *; tauto|].
  destruct (_ =? _)%Z; [intros [->|He%IH]%elem_of_cons; rewrite !elem_of_cons in *; tauto|].
  intros [->|He%IHy]%elem_of_cons; rewrite !elem_of_cons in *; tauto.
Qed.

Lemma elt_all x y ys : elt x y -> Forall (elt y) ys -> Forall (elt x) (y :: ys).
Proof.
  intros Hxy Hf. constructor; [done|]. eapply Forall_impl; [exact Hf|].
  intros e He. by eapply kcmp_trans.
Qed.

Lemma lmerge_below x xs ys : Forall (elt x) xs -> Forall (elt x) ys -> Forall (elt x) (lmerge xs ys).
Proof.
  rewrite !Forall_forall. intros Hx Hy e [He|He]%lmerge_elem; auto.
Qed.

Lemma key_after x y : (0 < kcmp x.1 y.1)%Z -> elt (V := V) y x.
Proof. unfold elt. rewrite (kcmp_opp y.1 x.1). lia. Qed.

Lemma key_same (x y : K * V) es : kcmp x.1 y.1 = 0%Z -> Forall (elt x) es -> Forall (elt y) es.
Proof. intros E%kcmp_eq_1. unfold elt. by rewrite E. Qed.

Lemma lmerge_sorted xs ys : sortedE xs -> sortedE ys -> sortedE (lmerge xs ys).
Proof.
  revert ys. induction xs as [|x xs IH]; intros ys Hx Hy; [by destruct ys|].
  induction ys as [|y ys IHy]; [done|]. rewrite lmerge_cons.
  pose proof Hx as [Hfx Hx']%sorted_cons. pose proof Hy as [Hfy Hy']%sorted_cons.
  destruct (Z.ltb_spec (kcmp x.1 y.1) 0) as [Hlt|Hge];
    [|destruct (Z.eqb_spec (kcmp x.1 y.1) 0) as [E|E]]; apply sorted_cons; split; auto.
  - by apply lmerge_below, elt_all.
  - apply lmerge_below; [|done]. by apply (key_same x y).
  - apply lmerge_below; [|done]. apply elt_all; [|done]. apply key_after. lia.
Qed.

Lemma sfind_lmerge k xs ys :
  sortedE xs -> sortedE ys ->
  sfind k (lmerge xs ys) = match sfind k ys with Some v => Some v | None => sfind k xs end.
Proof.
  revert ys. induction xs as [|[kx vx] xs IH]; intros ys Hx Hy.
  { destruct ys; simpl; [done|]. destruct p. by destruct (_ =? _)%Z, (sfind k ys). }
  induction ys as [|[ky vy] ys IHy]; [done|]. rewrite lmerge_cons. cbn [fst snd].
  pose proof Hx as [Hfx Hx']%sorted_cons. pose proof Hy as [Hfy Hy']%sorted_cons.
  destruct (Z.ltb_spec (kcmp kx ky) 0) as [Hlt|Hge];
    [|destruct (Z.eqb_spec (kcmp kx ky) 0) as [E|E]]; cbn [sfind].
  - rewrite IH by done. destruct (Z.eqb_spec (kcmp kx k) 0) as [E1|]; [|done].
    apply kcmp_eq_1 in E1 as ->. pose proof (sfind_after k ((ky, vy) :: ys)) as Hn.
    cbn [sfind] in Hn. rewrite Hn; [done|]. by apply (elt_all (k, vx)).
  - apply kcmp_eq_1 in E as ->. rewrite IH by done. by destruct (kcmp ky k =? 0)%Z.
  - rewrite IHy by done. by destruct (kcmp ky k =? 0)%Z.
Qed.

(** *** The members of another collection *)

Lemma member_cons_lt e y ys : elt y e -> member (y :: ys) e = member ys e.
Proof.
  unfold member, hasKey. destruct y as [ky vy]. simpl. unfold elt; simpl. intros Hlt.
  by destruct (Z.eqb_spec (kcmp ky e.1) 0); [lia|].
Qed.

Lemma member_before e ys : Forall (elt e) ys -> member ys e = false.
Proof. intros Hf. unfold member, hasKey. by rewrite (sfind_after e.1). Qed.

Lemma member_here e y ys : kcmp y.1 e.1 = 0%Z -> member (y :: ys) e = true.
Proof. unfold member, hasKey. destruct y. simpl. by intros ->. Qed.

Lemma filter_members_lt xs y ys (f : bool -> bool) :
  Forall (elt y) xs ->
  List.filter (fun e => f (member (y :: ys) e)) xs = List.filter (fun e => f (member ys e)) xs.
Proof. induction 1 as [|e xs He _ IH]; simpl; [done|]. by rewrite (member_cons_lt e y ys), IH. Qed.

Lemma filter_sorted (f : K * V -> bool) xs : sortedE xs -> sortedE (List.filter f xs).
Proof.
  induction xs as [|x xs IH]; simpl; [done|]. intros [Hf Hx]%sorted_cons.
  destruct (f x); [|by apply IH]. apply sorted_cons. split; [|by apply IH].
  rewrite Forall_forall in *. intros e He. apply Hf. 
  apply list_elem_of_In in He. apply filter_In in He as [He _]. by apply list_elem_of_In.
Qed.

Lemma sfind_filter k (f : K -> bool) xs :
  sfind k (List.filter (fun e => f e.1) xs) = if f k then sfind k xs else None.
Proof.
  induction xs as [|[k' v'] xs IH]; simpl; [by destruct (f k)|].
  destruct (Z.eqb_spec (kcmp k' k) 0) as [E|E].
  - apply kcmp_eq_1 in E as ->. destruct (f k); simpl; [by rewrite kcmp_refl|].
    by rewrite IH.
  - destruct (f k'); simpl; [|done]. by destruct (Z.eqb_spec (kcmp k' k) 0).
Qed.

Lemma sfind_sinter k xs ys : sfind k (sinter xs ys) = if hasKey ys k then sfind k xs else None.
Proof. exact (sfind_filter k (hasKey ys) xs). Qed.

Lemma sfind_sdiff k xs ys : sfind k (sdiff xs ys) = if hasKey ys k then None else sfind k xs.
Proof.
  transitivity (if negb (hasKey ys k) then sfind k xs else None); [|by destruct (hasKey ys k)].
  exact (sfind_filter k (fun k => negb (hasKey ys k)) xs).
Qed.
End lists.

(** ** The loops *)

Section pushes.
Context {K V : Type} (map : bool).
Implicit Types (k : K) (v : V) (out : @Entries K V) (es : list (K * V)).

(** A list of entries pushed. *)
Definition pushAll out es : Entries :=
  (out.1 ++ es.*1, if map then out.2 ++ es.*2 else out.2).

Lemma pushAll_nil out : pushAll out [] = out.
Proof. destruct out. unfold pushAll. simpl. rewrite !app_nil_r. by destruct map. Qed.

Lemma pushAll_cons out k v es : pushAll (push map out k v) es = pushAll out ((k, v) :: es).
Proof. unfold pushAll, push. simpl. destruct map; by rewrite <- !app_assoc. Qed.

Lemma push_length out k v : length (push map out k v).1 = S (length out.1).
Proof. unfold push. simpl. rewrite length_app. simpl. lia. Qed.

(** The loops of a set write keys only. *)
Lemma pushAll_key out k null v es :
  map = false -> pushAll (push map out k null) es = pushAll out ((k, v) :: es).
Proof. intros Hm. unfold pushAll, push. simpl. rewrite Hm. by rewrite <- app_assoc. Qed.
End pushes.

Section loops.
Context {K V C : Type} `{KeyOrder K} `{Iterator K V C}.
Context (map : bool) (emit : @Entries K V -> K -> V -> option (@Entries K V)) (cap : nat).
(** A sink takes [cap] entries. *)
Context (emit_ok : forall out k v, length out.1 < cap -> emit out k v = Some (push map out k v)).
Implicit Types (x y : C) (out : @Entries K V) (xs ys es : list (K * V)).

#[local] Abbreviation pushAll := (pushAll map).

(** The first entry of a position, or its end. *)
Ltac at_end Hx := rewrite (it_done _ Hx) in *.
Ltac at_entry Hx x' Hx' :=
  let Hd := fresh "Hd" in let Hk := fresh "Hk" in let Hv := fresh "Hv" in let Hn := fresh "Hn" in
  destruct (it_cons _ _ _ Hx) as (Hd & Hk & Hv & x' & Hn & Hx'); rewrite ?Hd, ?Hk, ?Hv, ?Hn in *.

Lemma drain_spec fuel x es out :
  itRep x es -> length es <= fuel -> length out.1 + length es <= cap ->
  drain emit fuel x out = Some (pushAll out es).
Proof.
  revert x es out. induction fuel as [|fuel IH]; intros x es out Hx Hf Hc;
    (destruct es as [|[k v] es]; simpl in *; [at_end Hx; by rewrite pushAll_nil|]); [lia|].
  at_entry Hx x' Hx'. simpl. rewrite emit_ok by lia. simpl.
  rewrite (IH x' es) by (try done; try rewrite push_length; lia). by rewrite pushAll_cons.
Qed.

Lemma mergeLoop_spec fuel x y xs ys out :
  itRep x xs -> itRep y ys -> length xs + length ys <= fuel ->
  length out.1 + length xs + length ys <= cap ->
  mergeLoop emit fuel x y out = Some (pushAll out (lmerge xs ys)).
Proof.
  assert (Hend : forall fuel x y xs ys out, itRep x xs -> itRep y ys -> xs = [] \/ ys = [] ->
    length xs + length ys <= fuel -> length out.1 + length xs + length ys <= cap ->
    (out ← drain emit fuel x out; drain emit fuel y out) = Some (pushAll out (lmerge xs ys))).
  { clear fuel x y xs ys out. intros fuel x y xs ys out Hx Hy Hnil Hf Hc.
    rewrite (drain_spec fuel x xs) by (done || lia). simpl.
    rewrite (drain_spec fuel y ys); [|done|lia|].
    - destruct Hnil as [-> | ->]; [by rewrite pushAll_nil; destruct ys|].
      by rewrite pushAll_nil, lmerge_nil_r.
    - unfold pushAll. simpl. rewrite length_app, length_fmap. lia. }
  assert (Hexit : forall fuel x y out, negb (itDone x) && negb (itDone y) = false ->
    mergeLoop emit fuel x y out = (out ← drain emit fuel x out; drain emit fuel y out)).
  { clear. intros [|fuel] x y out Hd; simpl; by rewrite Hd. }
  revert x y xs ys out. induction fuel as [|fuel IH]; intros x y xs ys out Hx Hy Hf Hc;
    (destruct xs as [|[kx vx] xs];
      [rewrite Hexit by (at_end Hx; done); by apply Hend; auto|]);
    (destruct ys as [|[ky vy] ys];
      [rewrite Hexit by (at_end Hy; by rewrite andb_false_r); by apply Hend; auto|]);
    [simpl in Hf; lia|].
  rewrite lmerge_cons. simpl. simpl in Hf, Hc. at_entry Hx x' Hx'. at_entry Hy y' Hy'. simpl.
  destruct (_ <? _)%Z; simpl.
  - rewrite emit_ok by lia. simpl. 
    rewrite (IH x' y xs ((ky, vy) :: ys)) by (try done; rewrite ?push_length; simpl; lia).
    by rewrite pushAll_cons.
  - rewrite emit_ok by lia. simpl. destruct (_ =? _)%Z; simpl.
    + rewrite (IH x' y' xs ys) by (try done; rewrite ?push_length; lia). by rewrite pushAll_cons.
    + rewrite (IH x y' ((kx, vx) :: xs) ys) by (try done; rewrite ?push_length; simpl; lia).
      by rewrite pushAll_cons.
Qed.

Lemma intersectLoop_spec null fuel x y xs ys out :
  map = false -> itRep x xs -> itRep y ys -> sortedE xs -> sortedE ys ->
  length xs + length ys <= fuel -> length out.1 + (length xs `min` length ys) <= cap ->
  intersectLoop emit null fuel x y out = Some (pushAll out (sinter xs ys)).
Proof.
  intros Hm. revert x y xs ys out.
  assert (Hexit : forall fuel x y out, negb (itDone x) && negb (itDone y) = false ->
    intersectLoop emit null fuel x y out = Some out).
  { clear. intros [|fuel] x y out Hd; simpl; by rewrite Hd. }
  assert (Hnil : forall xs, sinter xs ([] : list (K * V)) = []).
  { intros xs. induction xs; [done|]. exact IHxs. }
  induction fuel as [|fuel IH]; intros x y xs ys out Hx Hy Sx Sy Hf Hc;
    (destruct xs as [|ex xs];
      [rewrite Hexit by (at_end Hx; done); simpl; by rewrite pushAll_nil|]);
    (destruct ys as [|ey ys];
      [rewrite Hexit by (at_end Hy; by rewrite andb_false_r); by rewrite Hnil, pushAll_nil|]);
    [simpl in Hf; lia|].
  pose proof Sx as [Fx Sx']%sorted_cons. pose proof Sy as [Fy Sy']%sorted_cons.
  simpl in Hf, Hc |- *. at_entry Hx x' Hx'. at_entry Hy y' Hy'. simpl.
  unfold sinter. destruct (Z.ltb_spec (kcmp ex.1 ey.1) 0) as [Hlt|Hge]; simpl.
  - rewrite (member_before ex (ey :: ys)) by (by apply elt_all).
    rewrite (IH x' y xs (ey :: ys)) by (cbn [length]; try done; lia). done.
  - destruct (Z.ltb_spec 0 (kcmp ex.1 ey.1)) as [Hgt|Hle]; simpl.
    + rewrite (IH x y' (ex :: xs) ys) by (cbn [length]; try done; lia).
      assert (Hfx : Forall (elt ey) (ex :: xs)) by (apply elt_all; [by apply key_after|done]).
      do 2 f_equal. exact (eq_sym (filter_members_lt _ ey ys (fun b => b) Hfx)).
    + assert (E : kcmp ex.1 ey.1 = 0%Z) by lia.
      rewrite (member_here ex ey ys) by (by rewrite (kcmp_opp ex.1 ey.1), E).
      rewrite emit_ok by lia. simpl.
      rewrite (IH x' y' xs ys) by (try done; rewrite ?push_length; lia).
      rewrite (pushAll_key _ _ _ _ ex.2) by done. unfold sinter.
      assert (Hfx : Forall (elt ey) xs) by (by apply (key_same ex ey)).
      pose proof (filter_members_lt xs ey ys (fun b => b) Hfx) as Hm'. cbv beta in Hm'.
      destruct ex. do 3 f_equal. exact (eq_sym Hm').
Qed.

Lemma differenceLoop_spec null fuel x y xs ys out :
  map = false -> itRep x xs -> itRep y ys -> sortedE xs -> sortedE ys ->
  length xs + length ys <= fuel -> length out.1 + length xs <= cap ->
  differenceLoop emit null fuel x y out = Some (pushAll out (sdiff xs ys)).
Proof.
  intros Hm. revert x y xs ys out. induction fuel as [|fuel IH]; intros x y xs ys out Hx Hy Sx Sy Hf Hc;
    (destruct xs as [|ex xs]; simpl; [at_end Hx; simpl; by rewrite pushAll_nil|]);
    [simpl in Hf; lia|].
  pose proof Sx as [Fx Sx']%sorted_cons.
  simpl in Hf, Hc |- *. at_entry Hx x' Hx'. simpl. unfold sdiff.
  destruct ys as [|ey ys].
  { at_end Hy. simpl. rewrite emit_ok by lia. simpl.
    rewrite (IH x' y xs []) by (try done; rewrite ?push_length; simpl in *; lia).
    rewrite (pushAll_key _ _ _ _ ex.2) by done. by destruct ex. }
  pose proof Sy as [Fy Sy']%sorted_cons. simpl in Hf. at_entry Hy y' Hy'. simpl.
  destruct (Z.ltb_spec (kcmp ex.1 ey.1) 0) as [Hlt|Hge]; simpl.
  - rewrite (member_before ex (ey :: ys)) by (by apply elt_all). simpl.
    rewrite emit_ok by lia. simpl.
    rewrite (IH x' y xs (ey :: ys)) by (cbn [length]; try done; rewrite ?push_length; lia).
    rewrite (pushAll_key _ _ _ _ ex.2) by done. by destruct ex.
  - destruct (Z.ltb_spec 0 (kcmp ex.1 ey.1)) as [Hgt|Hle]; simpl.
    + rewrite (IH x y' (ex :: xs) ys) by (cbn [length]; try done; lia).
      assert (Hfx : Forall (elt ey) (ex :: xs)) by (apply elt_all; [by apply key_after|done]).
      do 2 f_equal. exact (eq_sym (filter_members_lt _ ey ys negb Hfx)).
    + assert (E : kcmp ex.1 ey.1 = 0%Z) by lia.
      rewrite (member_here ex ey ys) by (by rewrite (kcmp_opp ex.1 ey.1), E). simpl.
      rewrite (IH x' y' xs ys) by (try done; lia). 
      assert (Hfx : Forall (elt ey) xs) by (by apply (key_same ex ey)).
      do 2 f_equal. exact (eq_sym (filter_members_lt xs ey ys negb Hfx)).
Qed.
End loops.

(** The loops that build nothing. *)
Section scans.
Context {K V C : Type} `{KeyOrder K} `{Iterator K V C}.
Implicit Types (x y : C) (xs ys es : list (K * V)).

Lemma skipBefore_spec fuel y ys k :
  itRep y ys -> sortedE ys -> length ys <= fuel ->
  exists y' a b, skipBefore fuel y k = Some y' /\ itRep y' b /\ ys = a ++ b /\
    Forall (before k) a /\ (b = [] \/ exists e b', b = e :: b' /\ (0 <= kcmp e.1 k)%Z).
Proof.
  revert y ys. induction fuel as [|fuel IH]; intros y ys Hy Sy Hf;
    (destruct ys as [|e ys]; simpl;
      [rewrite (it_done _ Hy); exists y, [], []; split_and!; auto using Forall_nil_2|]); [simpl in Hf; lia|].
  destruct (it_cons _ _ _ Hy) as (-> & -> & _ & y' & Hn & Hy'). simpl.
  destruct (Z.ltb_spec (kcmp e.1 k) 0) as [Hlt|Hge].
  - rewrite Hn. simpl. apply sorted_cons in Sy as [_ Sy]. simpl in Hf.
    destruct (IH y' ys Hy' Sy) as (z & a & b & Hz & Hzb & -> & Ha & Hb); [lia|].
    exists z, (e :: a), b. split_and!; try done. by constructor.
  - exists y, [], (e :: ys). split_and!; auto using Forall_nil_2. right. by exists e, ys.
Qed.

Lemma member_app_before (e : K * V) a b : Forall (before e.1) a -> member (a ++ b) e = member b e.
Proof. intros Ha. unfold member, hasKey. by rewrite sfind_app_before. Qed.

Lemma forallb_ext_in {A} (f g : A -> bool) l : (forall e, e ∈ l -> f e = g e) -> forallb f l = forallb g l.
Proof.
  induction l as [|e l IH]; simpl; intros Hfg; [done|].
  rewrite (Hfg e), IH; [done| |by left]. intros x Hx. apply Hfg. by right.
Qed.

Lemma subsetLoop_spec fuel x y xs ys :
  itRep x xs -> itRep y ys -> sortedE xs -> sortedE ys -> length xs + length ys <= fuel ->
  subsetLoop fuel x y = Some (ssubset xs ys).
Proof.
  revert x y xs ys. induction fuel as [|fuel IH]; intros x y xs ys Hx Hy Sx Sy Hf;
    (destruct xs as [|e xs]; simpl; [by rewrite (it_done _ Hx)|]); [simpl in Hf; lia|].
  apply sorted_cons in Sx as [Fx Sx].
  destruct (it_cons _ _ _ Hx) as (-> & -> & _ & x' & Hn & Hx'). simpl.
  destruct (skipBefore_spec (S fuel) y ys e.1 Hy Sy) as (z & a & b & Hz & Hzb & -> & Ha & Hb);
    [simpl in Hf; lia|].
  simpl in Hz. rewrite Hz. simpl. rewrite (member_app_before e a b Ha).
  apply sorted_app in Sy as (_ & _ & Sb).
  destruct Hb as [-> | (f & b' & -> & Hge)]; [by rewrite (it_done _ Hzb)|].
  apply sorted_cons in Sb as [Fb Sb].
  destruct (it_cons _ _ _ Hzb) as (-> & -> & _ & z' & Hn' & Hz'). simpl.
  destruct (Z.eqb_spec (kcmp f.1 e.1) 0) as [E|E]; simpl.
  - rewrite Hn', Hn. simpl. rewrite (IH x' z' xs b') by (try done; rewrite length_app in Hf; simpl in Hf; lia).
    rewrite (member_here e f b' E). simpl. f_equal. unfold ssubset.
    apply forallb_ext_in. intros g Hg. rewrite Forall_forall in Fx. specialize (Fx g Hg).
    rewrite member_app_before.
    + symmetry. apply member_cons_lt. unfold elt. apply kcmp_eq_1 in E. by rewrite E.
    + eapply Forall_impl; [exact Ha|]. intros h Hh. by eapply kcmp_trans.
  - rewrite (member_before e (f :: b')); [done|]. apply elt_all; [|done].
    unfold elt. rewrite (kcmp_opp f.1 e.1). lia.
Qed.

(** A loop over one collection is a fold over its entries. *)
Fixpoint foldM {A} (f : A -> K -> V -> option A) (acc : A) es : option A :=
  match es with
  | [] => Some acc
  | e :: es => acc ← f acc e.1 e.2; foldM f acc es
  end.

Lemma forEach_spec {A} (f : A -> K -> V -> option A) fuel x es acc :
  itRep x es -> length es <= fuel -> forEach fuel f x acc = foldM f acc es.
Proof.
  revert x es acc. induction fuel as [|fuel IH]; intros x es acc Hx Hf;
    (destruct es as [|e es]; simpl; [by rewrite (it_done _ Hx)|]); [simpl in Hf; lia|].
  destruct (it_cons _ _ _ Hx) as (-> & -> & -> & x' & -> & Hx'). simpl.
  destruct (f acc e.1 e.2); simpl; [|done]. apply IH; [done|]. simpl in Hf. lia.
Qed.
End scans.

(** ** The operations *)

Section setops.
Context {K V : Type} `{KeyOrder K}.
Context (s : Shape) (map : bool) (NullSlot : V).
Context (Hs : shapeOk s).
Implicit Types (a b t : Table K V) (es : list (K * V)) (k : K) (v : V).

#[local] Abbreviation wf := (wf s map NullSlot).
#[local] Abbreviation entries := (entries map NullSlot).
#[local] Abbreviation canonical := (canonical map NullSlot).
#[local] Abbreviation leafFrom := (leafFrom s map).
#[local] Abbreviation putAll := (putAll map NullSlot).
#[local] Abbreviation slotOf := (slotOf map NullSlot).

#[local] Instance : Iter K V (Cursor K V) := cursor_iter map NullSlot.
#[local] Instance : Iter K V (LeafIndex K V) := leafIndex_iter map NullSlot.
#[local] Instance : Iterator K V (Cursor K V) := cursor_iterator s map NullSlot Hs.
#[local] Instance : Iterator K V (LeafIndex K V) := leafIndex_iterator map NullSlot.

(** A table in memory: a well-formed one whose size is a 32-bit number. *)
Definition stored t : Prop := wf t /\ fits32 t.

Lemma entries_canonical t : canonical (entries t).
Proof.
  revert t. fix IH 1. intros [sc ks vs|w ht sz ss cs]; [apply leafEntries_canonical|].
  simpl. induction cs as [|c cs IHcs]; simpl; [apply canonical_nil|].
  apply canonical_app. split; [apply IH|exact IHcs].
Qed.

Lemma slotOf_canonical es e : canonical es -> e ∈ es -> slotOf e.2 = e.2.
Proof.
  unfold TableUpdate.slotOf, TableInv.canonical. intros [->|Hf] Hin; [done|].
  rewrite Forall_forall in Hf. rewrite (Hf e Hin). by destruct map.
Qed.

Lemma stored_cursor t : stored t -> exists c, cursor t = Some c /\ itRep c (entries t).
Proof.
  intros [[[h Hsh] _] Hf]. pose proof (wf_height _ _ _ Hs _ _ Hsh Hf).
  destruct (cursor_spec s map NullSlot Hs h t Hsh) as (c & Hc & Hr); [unfold kMaxHeight; lia|].
  by exists c.
Qed.

Lemma wf_leaf t :
  wf t -> isLeaf t = true ->
  itRep (At t 0) (entries t) /\ size t = length (entries t) /\ size t <= leafCapacity s map.
Proof.
  intros [[h Hsh] _] Hl. destruct t as [sc ks vs|]; [|done].
  destruct h; [|done]. destruct Hsh as [[Hcap _] Hv]. simpl. rewrite length_leafEntries by done.
  split_and!; [|done|done]. exists sc, ks, vs. by rewrite drop_0.
Qed.

Lemma wf_size t : wf t -> size t = length (entries t).
Proof. intros [[h Hsh] _]. by eapply shaped_size. Qed.

(** As many entries as the 32-bit count of a table can say. *)
Definition few32 (es : list (K * V)) : Prop := (Z.of_nat (length es) < 2 ^ 32)%Z.

Lemma few32_stored t es : wf t -> entries t = es -> few32 es -> stored t.
Proof. intros Hwf <- Hf. split; [done|]. unfold fits32. by rewrite (wf_size t Hwf). Qed.

Lemma stored_few32 t : stored t -> few32 (entries t).
Proof. intros [Hwf Hf]. unfold few32. by rewrite <- (wf_size t Hwf). Qed.

Lemma pushAll_empty es : pushAll map emptyEntries es = kvs map es.
Proof. unfold pushAll, kvs, emptyEntries. simpl. by destruct map. Qed.

(** A tree of gathered entries, and a leaf of them. *)
Lemma build_spec es :
  sortedE es -> canonical es ->
  exists t, build s map (pushAll map emptyEntries es) = Some t /\ wf t /\ entries t = es.
Proof.
  intros Hsrt Hc. rewrite pushAll_empty. unfold build. rewrite (kvs_length map es).
  destruct (buildTree_shaped s map NullSlot Hs (length es) _ _ es (reads_kvs map es) eq_refl Hc)
    as (t & h & -> & Hsh & He).
  exists t. split_and!; [done| |done]. split; [by exists h|by rewrite He].
Qed.

Lemma finished_spec cap es :
  length es <= cap -> finished s map cap (pushAll map emptyEntries es) = Some (leafFrom false es).
Proof.
  intros Hcap. rewrite pushAll_empty. unfold finished. rewrite (kvs_length map es).
  case_decide as Hd; [|apply newLeaf_kvs]. subst cap. apply create_leafFrom.
Qed.

Lemma leafFrom_wf es :
  sortedE es -> canonical es -> length es <= leafCapacity s map ->
  wf (leafFrom false es) /\ entries (leafFrom false es) = es.
Proof.
  intros Hsrt Hc Hl. assert (He : entries (leafFrom false es) = es) by (by apply leafFrom_entries).
  split; [|done]. split; [|by rewrite He]. exists 0. by apply leafFrom_shaped.
Qed.

Lemma normalized_spec es :
  sortedE es -> canonical es ->
  exists t, normalized s map (leafFrom false es) = Some t /\ wf t /\ entries t = es.
Proof.
  intros Hsrt Hc. unfold normalized. simpl.
  assert (Hlen : length es.*1 = length es) by apply length_fmap. rewrite Hlen.
  case_decide as Hd.
  - exists (leafFrom false es). split; [done|]. by apply leafFrom_wf.
  - destruct (buildTree_shaped s map NullSlot Hs (length es) _ _ es (reads_kvs map es) eq_refl Hc)
      as (t & h & Ht & Hsh & He).
    exists t. split_and!; [exact Ht| |done]. split; [by exists h|by rewrite He].
Qed.

Lemma build_checked es :
  sortedE es -> canonical es ->
  exists t, (t ← build s map (pushAll map emptyEntries es); checked s map t) = Some t /\
    wf t /\ entries t = es.
Proof.
  intros Hsrt Hc. destruct (build_spec es Hsrt Hc) as (t & -> & Hwf & He). simpl.
  by apply checked_spec.
Qed.

Lemma push_ok cap (out : @Entries K V) k v :
  length out.1 < cap -> (fun out k v => Some (push map out k v)) out k v = Some (push map out k v).
Proof. done. Qed.

Lemma copyEntry_ok cap (out : @Entries K V) k v :
  length out.1 < cap -> copyEntry map cap out k v = Some (push map out k v).
Proof. intros Hl. unfold copyEntry. rewrite guarded_true; [done|]. by apply bool_decide_eq_true. Qed.

Lemma canonical_lmerge xs ys : canonical xs -> canonical ys -> canonical (lmerge xs ys).
Proof.
  unfold TableInv.canonical. intros [?|Hx] [?|Hy]; auto. right.
  rewrite Forall_forall in *. intros e [He|He]%lmerge_elem; auto.
Qed.

Lemma canonical_filter (f : K * V -> bool) xs : canonical xs -> canonical (List.filter f xs).
Proof.
  unfold TableInv.canonical. intros [?|Hx]; auto. right. rewrite Forall_forall in *.
  intros e He. apply Hx. apply list_elem_of_In in He. apply filter_In in He as [He _].
  by apply list_elem_of_In.
Qed.

(** *** Entry by entry *)

Lemma foldM_putAll es t :
  wf t -> exists t', foldM (fun t k v => insert s map t k v) t es = Some t' /\ wf t' /\
    entries t' = putAll (entries t) es.
Proof.
  revert t. induction es as [|[k v] es IH]; intros t Ht; simpl; [by exists t|].
  destruct (insert_spec s map NullSlot Hs t k v Ht) as (t1 & -> & Ht1 & He1). simpl.
  destruct (IH t1 Ht1) as (t' & -> & Ht' & He'). exists t'. by rewrite He', He1.
Qed.

Lemma foldM_missing b es t :
  wf b -> wf t ->
  exists t', foldM (fun t k v => there ← has b k;
      if (there : bool) then Some t else insert s map t k v) t es = Some t' /\
    wf t' /\ entries t' = putAll (entries t) (sdiff es (entries b)).
Proof.
  intros Hb. revert t. induction es as [|[k v] es IH]; intros t Ht; simpl; [by exists t|].
  rewrite (has_sfind s map NullSlot Hs b k Hb). simpl. unfold member, hasKey. simpl.
  destruct (sfind k (entries b)); simpl; [by apply IH|].
  destruct (insert_spec s map NullSlot Hs t k v Ht) as (t1 & -> & Ht1 & He1). simpl.
  destruct (IH t1 Ht1) as (t' & -> & Ht' & He'). exists t'. by rewrite He', He1.
Qed.

(** Deletion of the keys of a list. *)
Definition sdelAll es ds : list (K * V) := foldl (fun es (d : K * V) => sdel d.1 es) es ds.

Lemma sdelAll_sorted es ds : sortedE es -> sortedE (sdelAll es ds).
Proof. revert es. induction ds; intros; simpl; [done|]. by apply IHds, sdel_sorted. Qed.

Lemma sfind_sdelAll k es ds :
  sortedE es ->
  sfind k (sdelAll es ds) = match sfind k ds with Some _ => None | None => sfind k es end.
Proof.
  revert es. induction ds as [|[kd vd] ds IH]; intros es Hes; simpl; [done|].
  rewrite IH by (by apply sdel_sorted). rewrite sfind_sdel by done.
  destruct (Z.eqb_spec (kcmp kd k) 0) as [E|E].
  - apply kcmp_eq_1 in E as ->. rewrite decide_True by done. by destruct (sfind k ds).
  - rewrite decide_False; [done|]. intros ->. by rewrite kcmp_refl in E.
Qed.

Lemma foldM_removeAll es t :
  wf t -> exists t', foldM (fun t k _ => removeKey s map t k) t es = Some t' /\ wf t' /\
    entries t' = sdelAll (entries t) es.
Proof.
  revert t. induction es as [|[k v] es IH]; intros t Ht; simpl; [by exists t|].
  destruct (removeKey_spec s map NullSlot Hs t k Ht) as (t1 & -> & Ht1 & He1). simpl.
  destruct (IH t1 Ht1) as (t' & -> & Ht' & He'). exists t'. by rewrite He', He1.
Qed.

Lemma foldM_selected es (keep : K -> option bool) (f : K -> bool) out :
  map = false -> (forall k, keep k = Some (f k)) ->
  foldM (fun out k _ => ok ← keep k; Some (if (ok : bool) then push map out k NullSlot else out)) out es
  = Some (pushAll map out (List.filter (fun e => f e.1) es)).
Proof.
  intros Hm Hk. revert out. induction es as [|[k v] es IH]; intros out; simpl.
  - by rewrite pushAll_nil.
  - rewrite Hk. simpl. destruct (f k); [|apply IH]. rewrite IH. by rewrite (pushAll_key _ _ _ _ v).
Qed.

Lemma foldM_allIn b es ok :
  wf b -> foldM (fun ok k _ => if (ok : bool) then has b k else Some false) ok es
    = Some (ok && ssubset es (entries b)).
Proof.
  intros Hb. revert ok. induction es as [|[k v] es IH]; intros ok; simpl; [by rewrite andb_true_r|].
  destruct ok; simpl; [|by rewrite IH]. rewrite (has_sfind s map NullSlot Hs b k Hb). simpl.
  by rewrite IH.
Qed.

(** *** The four operations *)

Lemma stored_sorted t : stored t -> sortedE (entries t).
Proof. by intros [[_ ?] _]. Qed.

Lemma putAll_lmerge a b :
  stored a -> stored b -> putAll (entries a) (entries b) = lmerge (entries a) (entries b).
Proof.
  intros Ha%stored_sorted Hb%stored_sorted.
  apply sorted_ext; [by apply putAll_sorted|by apply lmerge_sorted|]. intros k.
  rewrite sfind_putAll, sfind_lmerge, <- sorted_lastValue by done.
  destruct (sfind k (entries b)) as [v|] eqn:E; [|done]. apply sfind_elem in E; [|done].
  f_equal. apply (slotOf_canonical _ _ (entries_canonical b) E).
Qed.

Lemma putMissing_lmerge a b :
  stored a -> stored b ->
  putAll (entries b) (sdiff (entries a) (entries b)) = lmerge (entries a) (entries b).
Proof.
  intros Ha%stored_sorted Hb%stored_sorted.
  assert (Sd : sortedE (sdiff (entries a) (entries b))) by (by apply filter_sorted).
  apply sorted_ext; [by apply putAll_sorted|by apply lmerge_sorted|]. intros k.
  rewrite sfind_putAll, sfind_lmerge, <- sorted_lastValue by done.
  rewrite sfind_sdiff. unfold hasKey. simpl. destruct (sfind k (entries b)) eqn:Eb; simpl; [done|].
  destruct (sfind k (entries a)) as [v|] eqn:Ea; [|done]. apply sfind_elem in Ea; [|done].
  f_equal. apply (slotOf_canonical _ _ (entries_canonical a) Ea).
Qed.

Lemma merge_lmerge a b :
  stored a -> stored b ->
  exists t, merge s map NullSlot a b = Some t /\ wf t /\ entries t = lmerge (entries a) (entries b).
Proof.
  intros Ha Hb. pose proof (proj1 Ha) as Wa. pose proof (proj1 Hb) as Wb.
  pose proof (stored_sorted a Ha) as Sa. pose proof (stored_sorted b Hb) as Sb.
  pose proof (lmerge_sorted _ _ Sa Sb) as Sm.
  pose proof (canonical_lmerge _ _ (entries_canonical a) (entries_canonical b)) as Cm.
  pose proof (lmerge_length (entries a) (entries b)) as Lm.
  unfold merge. rewrite (wf_size a Wa), (wf_size b Wb).
  case_decide as Eb; [apply length_zero_iff_nil in Eb as ->; exists a; by rewrite lmerge_nil_r|].
  case_decide as Ea; [apply length_zero_iff_nil in Ea as ->; exists b; by destruct (entries b)|].
  destruct (isLeaf a && isLeaf b) eqn:Hl.
  { apply andb_true_iff in Hl as [La Lb].
    destruct (wf_leaf a Wa La) as (Ra & Za & _). destruct (wf_leaf b Wb Lb) as (Rb & Zb & _).
    unfold mergeLeaves. rewrite Za, Zb.
    rewrite (mergeLoop_spec map _ _ (copyEntry_ok _) _ _ _ _ _ emptyEntries Ra Rb) by (simpl; lia).
    simpl. rewrite finished_spec by done. simpl.
    destruct (normalized_spec _ Sm Cm) as (t & -> & Wt & Et). simpl. by apply checked_spec. }
  destruct (stored_cursor a Ha) as (ca & Hca & Rca), (stored_cursor b Hb) as (cb & Hcb & Rcb).
  case_test; [|case_test].
  - rewrite Hcb. simpl. rewrite (forEach_spec _ _ _ _ _ Rcb) by done.
    destruct (foldM_putAll (entries b) a Wa) as (t & -> & Wt & Et). simpl.
    apply checked_spec; [done|done|]. by rewrite Et, putAll_lmerge.
  - rewrite Hca. simpl. rewrite (forEach_spec _ _ _ _ _ Rca) by done.
    destruct (foldM_missing b (entries a) b Wb Wb) as (t & -> & Wt & Et). simpl.
    apply checked_spec; [done|done|]. by rewrite Et, putMissing_lmerge.
  - rewrite Hca, Hcb. simpl.
    rewrite (mergeLoop_spec map _ _ (push_ok (length (entries a) + length (entries b)))
               _ _ _ _ _ emptyEntries Rca Rcb) by (simpl; lia).
    simpl. by apply build_checked.
Qed.

Section sets.
Context (Hset : map = false).

Lemma sinter_sym a b :
  stored a -> stored b -> sinter (entries b) (entries a) = sinter (entries a) (entries b).
Proof.
  intros Ha%stored_sorted Hb%stored_sorted.
  apply sorted_ext; [by apply filter_sorted|by apply filter_sorted|]. intros k.
  rewrite !sfind_sinter. unfold hasKey. simpl.
  destruct (sfind k (entries a)) as [va|] eqn:Ea, (sfind k (entries b)) as [vb|] eqn:Eb; try done.
  apply sfind_elem in Ea, Eb; [|done..].
  apply (slotOf_canonical _ _ (entries_canonical a)) in Ea.
  apply (slotOf_canonical _ _ (entries_canonical b)) in Eb.
  unfold TableUpdate.slotOf in *. rewrite Hset in *. simpl in *. congruence.
Qed.

Lemma selected_spec small (keep : K -> option bool) (f : K -> bool) :
  stored small -> (forall k, keep k = Some (f k)) ->
  selected map NullSlot small keep =
    Some (pushAll map emptyEntries (List.filter (fun e => f e.1) (entries small))).
Proof.
  intros Hst Hk. destruct (stored_cursor small Hst) as (c & Hc & Rc).
  unfold selected. rewrite Hc. simpl. rewrite (wf_size small (proj1 Hst)).
  rewrite (forEach_spec _ _ _ _ _ Rc) by done. by apply foldM_selected.
Qed.

Lemma intersect_sinter a b :
  stored a -> stored b ->
  exists t, intersect s map NullSlot a b = Some t /\ wf t /\
    entries t = sinter (entries a) (entries b).
Proof.
  intros Ha Hb. pose proof (proj1 Ha) as Wa. pose proof (proj1 Hb) as Wb.
  pose proof (stored_sorted a Ha) as Sa. pose proof (stored_sorted b Hb) as Sb.
  assert (Si : sortedE (sinter (entries a) (entries b))) by (by apply filter_sorted).
  assert (Ci : canonical (sinter (entries a) (entries b)))
    by (apply canonical_filter, entries_canonical).
  assert (Li : length (sinter (entries a) (entries b)) <= length (entries a))
    by apply filter_length_le.
  unfold intersect. destruct (isLeaf a && isLeaf b) eqn:Hl.
  { apply andb_true_iff in Hl as [La Lb].
    destruct (wf_leaf a Wa La) as (Ra & Za & Ma). destruct (wf_leaf b Wb Lb) as (Rb & Zb & _).
    assert (Li' : length (sinter (entries a) (entries b)) <= length (entries b)).
    { rewrite <- sinter_sym by done. apply filter_length_le. }
    unfold intersectLeaves. rewrite Za, Zb in *.
    rewrite (intersectLoop_spec map _ _ (copyEntry_ok _) _ _ _ _ _ _ emptyEntries Hset Ra Rb)
      by (simpl; (done || lia)).
    simpl. rewrite finished_spec by lia. eexists. split; [done|].
    apply leafFrom_wf; [done|done|lia]. }
  destruct (muchSmaller a b || muchSmaller b a); [case_decide|].
  - rewrite (selected_spec a _ (hasKey (entries b)) Ha)
      by (intros; by rewrite (has_sfind s map NullSlot Hs)).
    simpl. by apply build_checked.
  - rewrite (selected_spec b _ (hasKey (entries a)) Hb)
      by (intros; by rewrite (has_sfind s map NullSlot Hs)).
    simpl. rewrite <- sinter_sym in Si, Ci |- * by done. by apply build_checked.
  - destruct (stored_cursor a Ha) as (ca & Hca & Rca), (stored_cursor b Hb) as (cb & Hcb & Rcb).
    rewrite Hca, Hcb. simpl. rewrite (wf_size a Wa), (wf_size b Wb).
    rewrite (intersectLoop_spec map _ _ (push_ok (length (entries a)))
               _ _ _ _ _ _ emptyEntries Hset Rca Rcb) by (simpl; (done || lia)).
    simpl. by apply build_checked.
Qed.

Lemma sdelAll_sdiff a b :
  stored a -> stored b -> sdelAll (entries a) (entries b) = sdiff (entries a) (entries b).
Proof.
  intros Ha%stored_sorted Hb%stored_sorted.
  apply sorted_ext; [by apply sdelAll_sorted|by apply filter_sorted|]. intros k.
  rewrite sfind_sdelAll, sfind_sdiff by done. unfold hasKey. simpl. by destruct (sfind k (entries b)).
Qed.

Lemma sdiff_nil_r es : sdiff es ([] : list (K * V)) = es.
Proof. unfold sdiff. induction es as [|e es IH]; simpl; [done|]. by f_equal. Qed.

Lemma difference_sdiff a b :
  stored a -> stored b ->
  exists t, difference s map NullSlot a b = Some t /\ wf t /\
    entries t = sdiff (entries a) (entries b).
Proof.
  intros Ha Hb. pose proof (proj1 Ha) as Wa. pose proof (proj1 Hb) as Wb.
  pose proof (stored_sorted a Ha) as Sa. pose proof (stored_sorted b Hb) as Sb.
  assert (Si : sortedE (sdiff (entries a) (entries b))) by (by apply filter_sorted).
  assert (Ci : canonical (sdiff (entries a) (entries b)))
    by (apply canonical_filter, entries_canonical).
  assert (Li : length (sdiff (entries a) (entries b)) <= length (entries a))
    by apply filter_length_le.
  unfold difference. rewrite (wf_size a Wa), (wf_size b Wb).
  case_decide as Hz.
  { exists a. split_and!; [done|done|]. destruct Hz as [Hz|Hz]; apply length_zero_iff_nil in Hz;
      rewrite Hz; [by rewrite sdiff_nil_r|done]. }
  destruct (isLeaf a && isLeaf b) eqn:Hl.
  { apply andb_true_iff in Hl as [La Lb].
    destruct (wf_leaf a Wa La) as (Ra & Za & Ma). destruct (wf_leaf b Wb Lb) as (Rb & Zb & _).
    unfold differenceLeaves. rewrite Za, Zb in *.
    rewrite (differenceLoop_spec map _ _ (copyEntry_ok _) _ _ _ _ _ _ emptyEntries Hset Ra Rb)
      by (simpl; (done || lia)).
    simpl. rewrite finished_spec by lia. eexists. split; [done|].
    apply leafFrom_wf; [done|done|lia]. }
  destruct (stored_cursor a Ha) as (ca & Hca & Rca), (stored_cursor b Hb) as (cb & Hcb & Rcb).
  case_test; [|case_test].
  - rewrite Hcb. simpl. rewrite (forEach_spec _ _ _ _ _ Rcb) by done.
    destruct (foldM_removeAll (entries b) a Wa) as (t & -> & Wt & Et). simpl.
    apply checked_spec; [done|done|]. by rewrite Et, sdelAll_sdiff.
  - rewrite (selected_spec a _ (fun k => negb (hasKey (entries b) k)) Ha)
      by (intros; by rewrite (has_sfind s map NullSlot Hs)).
    simpl. by apply build_checked.
  - rewrite Hca, Hcb. simpl.
    rewrite (differenceLoop_spec map _ _ (push_ok (length (entries a)))
               _ _ _ _ _ _ emptyEntries Hset Rca Rcb) by (simpl; (done || lia)).
    simpl. by apply build_checked.
Qed.
End sets.

(** A collection with more elements is not a subset. *)
Lemma ssubset_length (xs ys : list (K * V)) :
  sortedE xs -> sortedE ys -> length ys < length xs -> ssubset xs ys = false.
Proof.
  intros Sx Sy Hlen. apply not_true_iff_false. unfold ssubset. rewrite forallb_forall. intros Hall.
  assert (Hnd : forall l : list (K * V), sortedE l -> NoDup l.*1).
  { clear. induction l as [|e l IH]; simpl; [constructor|]. intros [Hf Hl]%sorted_cons.
    constructor; [|by apply IH]. intros (e' & Heq & He')%list_elem_of_fmap.
    rewrite Forall_forall in Hf. apply Hf in He'. unfold elt in He'. rewrite Heq in He'.
    by apply kcmp_lt_irrefl in He'. }
  pose proof (NoDup_submseteq xs.*1 ys.*1 (Hnd xs Sx)) as Hsub.
  assert (Hle : length xs.*1 <= length ys.*1).
  { apply submseteq_length, Hsub. intros k (e & -> & He)%list_elem_of_fmap.
    apply list_elem_of_In in He. specialize (Hall e He). unfold member, hasKey in Hall.
    destruct (sfind e.1 ys) as [v|] eqn:E; [|done]. apply sfind_elem in E; [|done].
    apply list_elem_of_fmap. by exists (e.1, v). }
  rewrite !length_fmap in Hle. lia.
Qed.

Lemma isSubset_ssubset a b :
  stored a -> stored b -> isSubset map NullSlot a b = Some (ssubset (entries a) (entries b)).
Proof.
  intros Ha Hb. pose proof (proj1 Ha) as Wa. pose proof (proj1 Hb) as Wb.
  pose proof (stored_sorted a Ha) as Sa. pose proof (stored_sorted b Hb) as Sb.
  unfold isSubset. rewrite (wf_size a Wa), (wf_size b Wb).
  case_decide as Hsz; [by rewrite ssubset_length|].
  destruct (isLeaf a && isLeaf b) eqn:Hl.
  { apply andb_true_iff in Hl as [La Lb].
    destruct (wf_leaf a Wa La) as (Ra & Za & Ma). destruct (wf_leaf b Wb Lb) as (Rb & Zb & _).
    unfold isSubsetOfLeaf. rewrite Za, Zb. by apply (subsetLoop_spec _ _ _ _ _ Ra Rb). }
  destruct (stored_cursor a Ha) as (ca & Hca & Rca), (stored_cursor b Hb) as (cb & Hcb & Rcb).
  case_test.
  - rewrite Hca. simpl. rewrite (forEach_spec _ _ _ _ _ Rca) by done. by rewrite foldM_allIn.
  - rewrite Hcb, Hca. simpl. by apply (subsetLoop_spec _ _ _ _ _ Rca Rcb).
Qed.
End setops.
