(* ===== verification/TableWalks.v ===== *)
(** * What the walks over a collection show

    [keys], [values] and [items] give the entries in key order, so do the visits of
    [forEachEntry] and [forEachSlot]; [equals] decides equality of entries whatever the shapes
    of the two trees, [clone] and [withSlots] give well-formed trees of the rewritten entries. *)

From Stdlib Require Import String.
From S2P Require Import Prelude Keys Entries Table TableInv TableBuild TableCheck TableOps TableUpdate TableSetOps TableSets.

Section walks.
Context {K V : Type} `{KeyOrder K}.
Context (s : Shape) (map : bool) (NullSlot : V).
Context (Hs : shapeOk s).
Implicit Types (a b t : Table K V) (es : list (K * V)) (k : K) (v : V) (ks : list K) (vs : list V).

#[local] Abbreviation wf := (wf s map NullSlot).
#[local] Abbreviation entries := (entries map NullSlot).
#[local] Abbreviation leafEntries := (leafEntries map NullSlot).
#[local] Abbreviation kvs := (kvs map).
#[local] Instance : Iter K V (Cursor K V) := cursor_iter map NullSlot.
#[local] Instance : Iterator K V (Cursor K V) := cursor_iterator s map NullSlot Hs.

(** ** Writes to a new array *)

Lemma writeFrom_spec {A} (array : list (option A)) at_ slots :
  at_ + length slots <= length array ->
  writeFrom array at_ slots = Some (take at_ array ++ (Some <$> slots) ++ drop (at_ + length slots) array).
Proof.
  revert array at_. induction slots as [|x slots IH]; intros array at_ Hl; simpl.
  - by rewrite Nat.add_0_r, take_drop.
  - simpl in Hl. rewrite guarded_true by (apply bool_decide_eq_true; lia).
    rewrite IH by (rewrite length_insert; lia). f_equal.
    rewrite (take_S_r _ _ (Some x)) by (apply list_lookup_insert_eq; lia).
    rewrite take_insert_ge, drop_insert_lt, <- app_assoc by lia. simpl.
    by rewrite Nat.add_succ_r.
Qed.

Lemma writeLeaves_spec {A} (slots : Table K V -> list A) ls at_ pre rest :
  Forall (fun l => length (slots l) = size l) ls -> length pre = at_ ->
  length rest = length (concat (List.map slots ls)) ->
  writeLeaves slots ls at_ (pre ++ rest) = Some (pre ++ (Some <$> concat (List.map slots ls))).
Proof.
  intros Hf. revert at_ pre rest. induction Hf as [|l ls Hl Hf IH]; intros at_ pre rest Hp Hr; simpl in *.
  - apply length_zero_iff_nil in Hr as ->. by rewrite app_nil_r.
  - rewrite length_app in Hr.
    rewrite writeFrom_spec by (rewrite length_app; lia). simpl. rewrite <- Hp, take_app_length.
    rewrite drop_app_ge by lia. replace (length pre + _ - _) with (length (slots l)) by lia.
    rewrite app_assoc. rewrite IH; [|rewrite length_app, length_fmap; lia|rewrite length_drop; lia].
    by rewrite fmap_app, <- app_assoc.
Qed.

(** ** The leaves *)

Definition goodLeaf (l : Table K V) : Prop :=
  exists sc ks vs, l = Leaf sc ks vs /\ length vs = vlen map ks.

Lemma leaves_good r h t : shaped s map NullSlot r h t -> Forall goodLeaf (leaves t).
Proof.
  revert r t. induction h as [|h IH]; intros r t Hsh; destruct t as [sc ks vs|w ht sz ss cs]; try done.
  - destruct Hsh as [_ Hv]. constructor; [|constructor]. by exists sc, ks, vs.
  - destruct Hsh as (_ & _ & Hcs & _). simpl. induction Hcs as [|c cs Hc _ IHcs]; simpl; [constructor|].
    apply Forall_app. split; [by eapply IH|done].
Qed.

Lemma wf_leaves t : wf t -> Forall goodLeaf (leaves t) /\ concat (List.map entries (leaves t)) = entries t.
Proof. intros [[h Hsh] _]. split; [by eapply leaves_good|apply leaves_entries]. Qed.

(** A projection of the entries, read leaf by leaf. *)
Lemma concat_leaves {A} (slots : Table K V -> list A) (f : list (K * V) -> list A) ls :
  f [] = [] -> (forall x y, f (x ++ y) = f x ++ f y) ->
  (forall sc ks vs, length vs = vlen map ks -> slots (Leaf sc ks vs) = f (leafEntries ks vs)) ->
  Forall goodLeaf ls ->
  concat (List.map slots ls) = f (concat (List.map entries ls)).
Proof.
  intros Hnil Happ Hleaf Hf. induction Hf as [|l ls (sc & ks & vs & -> & Hv) _ IH]; simpl; [done|].
  by rewrite (Hleaf sc ks vs Hv), IH, Happ.
Qed.

Lemma leaves_slots {A} (slots : Table K V -> list A) (f : K * V -> A) t :
  wf t ->
  (forall sc ks vs, length vs = vlen map ks -> slots (Leaf sc ks vs) = f <$> leafEntries ks vs) ->
  concat (List.map slots (leaves t)) = f <$> entries t /\
  Forall (fun l => length (slots l) = size l) (leaves t).
Proof.
  intros Hwf Hsl. destruct (wf_leaves t Hwf) as [Hf He]. split.
  - rewrite <- He. apply (concat_leaves slots (fmap f)); [done|apply fmap_app|done|done].
  - eapply Forall_impl; [exact Hf|]. intros l (sc & ks & vs & -> & Hv).
    rewrite Hsl by done. rewrite length_fmap. by apply length_leafEntries.
Qed.

Lemma written_spec {A} (slots : Table K V -> list A) (f : K * V -> A) t :
  wf t ->
  (forall sc ks vs, length vs = vlen map ks -> slots (Leaf sc ks vs) = f <$> leafEntries ks vs) ->
  writeLeaves slots (leaves t) 0 (replicate (size t) None) = Some (Some <$> (f <$> entries t)).
Proof.
  intros Hwf Hsl. destruct (leaves_slots slots f t Hwf Hsl) as [Hc Hf].
  rewrite <- Hc. apply (writeLeaves_spec slots _ 0 [] _ Hf); [done|].
  rewrite length_replicate, Hc, length_fmap. by apply (wf_size s map NullSlot).
Qed.

Lemma arrayOf_spec {A} (slots : Table K V -> list A) (f : K * V -> A) t :
  wf t ->
  (forall sc ks vs, length vs = vlen map ks -> slots (Leaf sc ks vs) = f <$> leafEntries ks vs) ->
  arrayOf t slots = Some (Some <$> (f <$> entries t)).
Proof.
  intros Hwf Hsl. unfold arrayOf. case_decide as Hz; [|by apply written_spec].
  rewrite (wf_size s map NullSlot t Hwf) in *. apply length_zero_iff_nil in Hz. by rewrite Hz.
Qed.

Lemma slots_keys sc (ks : list K) (vs : list V) : length vs = vlen map ks -> keys (Leaf sc ks vs) = fst <$> leafEntries ks vs.
Proof. intros. symmetry. by apply leafEntries_keys. Qed.

Lemma slots_values sc (ks : list K) (vs : list V) :
  map = true -> length vs = vlen map ks -> values (Leaf sc ks vs) = snd <$> leafEntries ks vs.
Proof.
  unfold TableInv.leafEntries, vlen. intros ->. simpl. intros Hv. by rewrite snd_zip by lia.
Qed.

Lemma keysArray_spec t : wf t -> keysArray t = Some (Some <$> (entries t).*1).
Proof. intros Hwf. by apply arrayOf_spec, slots_keys. Qed.

Lemma valuesArray_spec t : map = true -> wf t -> valuesArray t = Some (Some <$> (entries t).*2).
Proof. intros Hm Hwf. apply arrayOf_spec; [done|]. intros. by apply slots_values. Qed.

Lemma leafEntries_zip ks vs : map = true -> leafEntries ks vs = zip ks vs.
Proof. unfold TableInv.leafEntries. by intros ->. Qed.

Lemma items_spec t : map = true -> wf t -> items t = Some (Some <$> entries t).
Proof.
  intros Hm Hwf. unfold items. rewrite (written_spec _ id t Hwf); [by rewrite list_fmap_id|].
  intros sc ks vs Hv. rewrite list_fmap_id. simpl. by rewrite leafEntries_zip.
Qed.

Lemma forEachEntry_spec t : wf t -> forEachEntry map NullSlot t = entries t.
Proof.
  intros Hwf. unfold forEachEntry.
  destruct (leaves_slots (fun leaf => if map then zip (keys leaf) (values leaf)
      else (fun k => (k, NullSlot)) <$> keys leaf) id t Hwf) as [-> _]; [|apply list_fmap_id].
  intros sc ks vs Hv. by rewrite list_fmap_id.
Qed.

(** ** Equality *)

(** Entries with the same keys in the same order, the values related by [eqv]. *)
Fixpoint sameEntries (eqv : V -> V -> bool) es es' : bool :=
  match es, es' with
  | [], [] => true
  | e :: es, e' :: es' => (kcmp e.1 e'.1 =? 0)%Z && (negb map || eqv e.2 e'.2) && sameEntries eqv es es'
  | _, _ => false
  end.

Lemma equalLoop_spec veq same deep fuel x y es es' :
  itRep x es -> itRep y es' -> length es = length es' -> length es <= fuel ->
  equalLoop map NullSlot veq same deep fuel x y
    = Some (sameEntries (if deep then veq else same) es es').
Proof.
  set (eqv := if deep then veq else same).
  revert x y es es'. induction fuel as [|fuel IH]; intros x y es es' Hx Hy Hl Hf;
    (destruct es as [|e es], es' as [|e' es']; try done;
      [pose proof (it_done _ Hx) as Hd; simpl in *; by rewrite Hd|]).
  { simpl in Hf. lia. }
  destruct (it_cons _ _ _ Hx) as (Hd & Hk & Hv & x' & Hn & Hx').
  destruct (it_cons _ _ _ Hy) as (_ & Hk' & Hv' & y' & Hn' & Hy'). simpl in *.
  rewrite Hd, Hk, Hk', Hv, Hv', Hn, Hn'. simpl.
  destruct (kcmp e.1 e'.1 =? 0)%Z; simpl; [|done].
  fold eqv. destruct map; simpl; [destruct (eqv e.2 e'.2); simpl; [|done]|];
    by rewrite (IH x' y' es es') by (done || lia).
Qed.

Lemma sameEntries_leaf eqv ks vs ks' vs' :
  length vs = vlen map ks -> length vs' = vlen map ks' -> length ks = length ks' ->
  sameEntries eqv (leafEntries ks vs) (leafEntries ks' vs') =
    forallb (fun p => (kcmp p.1 p.2 =? 0)%Z) (zip ks ks') &&
    (negb map || forallb (fun p => eqv p.1 p.2) (zip vs vs')).
Proof.
  unfold sameEntries, TableInv.leafEntries, vlen. destruct map; simpl.
  - revert vs ks' vs'. induction ks as [|k ks IH]; intros [|v vs] [|k' ks'] [|v' vs'] Hv Hv' Hl;
      try done. simpl in *. rewrite IH by lia.
    destruct (_ =? _)%Z, (eqv v v'); simpl; try done; by rewrite ?andb_false_r.
  - intros _ _. revert ks'. induction ks as [|k ks IH]; intros [|k' ks'] Hl; try done. simpl in *.
    rewrite andb_true_r, IH by lia. by rewrite !andb_true_r.
Qed.

Lemma sameEntries_length eqv es es' : length es <> length es' -> sameEntries eqv es es' = false.
Proof.
  revert es'. induction es as [|e es IH]; intros [|e' es'] Hl; simpl in *; try done.
  rewrite IH by lia. by rewrite andb_false_r.
Qed.

Lemma equals_sameEntries veq same deep a b :
  stored s map NullSlot a -> stored s map NullSlot b ->
  equals map NullSlot veq same deep a b =
    Some (sameEntries (if deep then veq else same) (entries a) (entries b)).
Proof.
  intros Ha Hb. pose proof (proj1 Ha) as Wa. pose proof (proj1 Hb) as Wb.
  unfold equals. rewrite (wf_size _ _ _ a Wa), (wf_size _ _ _ b Wb).
  case_bool_decide as Hsz; simpl; [|by rewrite sameEntries_length].
  destruct (isLeaf a) eqn:La; [destruct (isLeaf b) eqn:Lb|]; simpl.
  - clear Ha Hb. destruct Wa as [[ha Ha] _], Wb as [[hb Hb] _].
    destruct a as [sa ka va|], b as [sb kb vb|]; try done.
    destruct ha, hb; try done. destruct Ha as [_ Hva], Hb as [_ Hvb]. simpl in *.
    rewrite !length_leafEntries in Hsz by done. rewrite sameEntries_leaf by done.
    destruct (forallb _ (zip ka kb)); simpl; [|done]. by destruct map.
  - destruct (stored_cursor _ _ _ Hs a Ha) as (ca & -> & Ra), (stored_cursor _ _ _ Hs b Hb) as (cb & -> & Rb).
    simpl. by apply equalLoop_spec.
  - destruct (stored_cursor _ _ _ Hs a Ha) as (ca & -> & Ra), (stored_cursor _ _ _ Hs b Hb) as (cb & -> & Rb).
    simpl. by apply equalLoop_spec.
Qed.

(** When the equality of values is equality, [equals] is equality of entries. *)
Lemma sameEntries_eq eqv es es' :
  canonical map NullSlot es -> canonical map NullSlot es' ->
  (forall v v', eqv v v' = true <-> v = v') -> sameEntries eqv es es' = true <-> es = es'.
Proof.
  intros Hc Hc' Heq. revert es' Hc'. induction es as [|e es IH]; intros [|e' es'] Hc'; simpl; try done.
  apply canonical_cons in Hc as [Hce Hc], Hc' as [Hce' Hc'].
  rewrite !andb_true_iff, IH, Z.eqb_eq, kcmp_eq, orb_true_iff, negb_true_iff, Heq by done.
  destruct e as [k v], e' as [k' v']; simpl in *. destruct map; naive_solver.
Qed.

(** ** Copies *)

Section rewriting.
Context (rk : K -> K) (rv : V -> V).

Definition rewriteEntry (e : K * V) : K * V := (rk e.1, if map then rv e.2 else NullSlot).

Lemma rewritten_fst (sk : K -> K -> bool) (sv : V -> V -> bool) ls out c :
  Forall goodLeaf ls ->
  fst (foldl (fun '(out, changed) leaf =>
           let ks := rk <$> keys leaf in
           let vs := if map then rv <$> values leaf else [] in
           ((out.1 ++ ks, out.2 ++ vs),
            changed || negb (forallb (fun p => sk p.1 p.2) (zip ks (keys leaf)))
              || negb (forallb (fun p => sv p.1 p.2) (zip vs (values leaf)))))
    (out, c) ls) =
  (out.1 ++ (kvs (rewriteEntry <$> concat (List.map entries ls))).1,
   out.2 ++ (kvs (rewriteEntry <$> concat (List.map entries ls))).2).
Proof.
  intros Hf. revert out c. induction Hf as [|l ls (sc & ks & vs & -> & Hv) _ IH]; intros out c.
  - unfold TableInv.kvs. simpl. destruct map; by rewrite !app_nil_r; destruct out.
  - simpl foldl. rewrite IH. cbn [fst snd List.map concat keys values TableInv.entries]. rewrite fmap_app.
    assert (Hkv : kvs (rewriteEntry <$> leafEntries ks vs) = (rk <$> ks, if map then rv <$> vs else [])).
    { unfold TableInv.kvs, TableInv.leafEntries, rewriteEntry, vlen in *. destruct map; f_equal.
      - rewrite <- list_fmap_compose. rewrite <- (fst_zip ks vs) at 2 by lia.
        by rewrite <- list_fmap_compose.
      - rewrite <- list_fmap_compose. rewrite <- (snd_zip ks vs) at 2 by lia.
        by rewrite <- list_fmap_compose.
      - by rewrite <- !list_fmap_compose. }
    rewrite (kvs_app map). rewrite Hkv. cbn [fst snd]. by rewrite <- !app_assoc.
Qed.

Lemma rewritten_spec (sk : K -> K -> bool) (sv : V -> V -> bool) t :
  wf t -> fst (rewritten map rk rv sk sv (leaves t)) = kvs (rewriteEntry <$> entries t).
Proof.
  intros Hwf. destruct (wf_leaves t Hwf) as [Hf He]. unfold rewritten.
  rewrite rewritten_fst by done. rewrite He. cbn [fst snd app]. by rewrite <- surjective_pairing.
Qed.

Context (rk_mono : forall k k', (kcmp k k' < 0)%Z -> (kcmp (rk k) (rk k') < 0)%Z).

Lemma rewrite_sorted es : sortedE es -> sortedE (rewriteEntry <$> es).
Proof.
  induction es as [|e es IH]; simpl; [done|]. rewrite !sorted_cons. intros [Hf Hes].
  split; [|auto]. apply Forall_fmap. eapply Forall_impl; [exact Hf|].
  intros e' He'. apply rk_mono, He'.
Qed.

Lemma rewrite_canonical es : canonical map NullSlot (rewriteEntry <$> es).
Proof.
  unfold canonical, rewriteEntry. destruct map; [by left|right].
  apply Forall_fmap, Forall_true. done.
Qed.

Lemma build_kvs es : build s map (kvs es) = build s map (pushAll map emptyEntries es).
Proof. by rewrite (pushAll_empty map). Qed.

Lemma clone_spec t :
  wf t -> exists t', clone s map rk rv t = Some t' /\ wf t' /\ entries t' = rewriteEntry <$> entries t.
Proof.
  intros Hwf. pose proof Hwf as [_ Hsrt].
  destruct (build_spec s map NullSlot Hs (rewriteEntry <$> entries t)) as (t' & Hb & Hw & He).
  { by apply rewrite_sorted. }
  { apply rewrite_canonical. }
  exists t'. split_and!; [|done|done]. unfold clone. by rewrite rewritten_spec, build_kvs.
Qed.

(** *** A rewriting that changes no slot gives the table itself *)

Context (sk : K -> K -> bool) (sv : V -> V -> bool).
Context (sk_eq : forall k, sk (rk k) k = true -> rk k = k) (sv_eq : forall v, sv (rv v) v = true -> rv v = v).

Lemma forallb_same {A} (f : A -> A) (eqb : A -> A -> bool) l :
  (forall x, eqb (f x) x = true -> f x = x) ->
  forallb (fun p => eqb p.1 p.2) (zip (f <$> l) l) = true -> f <$> l = l.
Proof.
  intros Heq. induction l as [|x l IH]; simpl; [done|].
  intros [Hx Hl]%andb_true_iff. f_equal; auto.
Qed.

Lemma leafEntries_rewritten ks vs :
  length vs = vlen map ks ->
  rewriteEntry <$> leafEntries ks vs = leafEntries (rk <$> ks) (if map then rv <$> vs else []).
Proof.
  unfold TableInv.leafEntries, rewriteEntry, vlen. destruct map; intros Hv.
  - revert vs Hv. induction ks as [|k ks IH]; intros [|v vs] Hv; try done. simpl in *.
    f_equal. apply IH. lia.
  - by rewrite <- !list_fmap_compose.
Qed.

Lemma rewritten_unchanged ls out c out' :
  Forall goodLeaf ls ->
  foldl (fun '(out, changed) leaf =>
           let ks := rk <$> keys leaf in
           let vs := if map then rv <$> values leaf else [] in
           ((out.1 ++ ks, out.2 ++ vs),
            changed || negb (forallb (fun p => sk p.1 p.2) (zip ks (keys leaf)))
              || negb (forallb (fun p => sv p.1 p.2) (zip vs (values leaf)))))
    (out, c) ls = (out', false) ->
  c = false /\ rewriteEntry <$> concat (List.map entries ls) = concat (List.map entries ls).
Proof.
  intros Hf. revert out c. induction Hf as [|l ls (sc & ks & vs & -> & Hv) _ IH]; intros out c; simpl.
  - intros [= _ ->]. done.
  - intros Hfold. apply IH in Hfold as [Hc Hrest]. rewrite fmap_app, Hrest.
    apply orb_false_iff in Hc as [[-> Hk]%orb_false_iff Hvv]. split; [done|]. f_equal.
    apply negb_false_iff, (forallb_same rk sk ks sk_eq) in Hk. apply negb_false_iff in Hvv.
    rewrite leafEntries_rewritten, Hk by done.
    unfold TableInv.leafEntries. destruct map; [|done]. by rewrite (forallb_same rv sv vs sv_eq).
Qed.

Lemma withSlots_spec t :
  wf t -> exists t', withSlots s map rk rv sk sv t = Some t' /\ wf t' /\
    entries t' = rewriteEntry <$> entries t.
Proof.
  intros Hwf. pose proof Hwf as [_ Hsrt]. unfold withSlots.
  destruct (rewritten _ _ _ _ _ _) as [out changed] eqn:Hr.
  assert (Hout : out = kvs (rewriteEntry <$> entries t)).
  { rewrite <- (rewritten_spec sk sv t Hwf). by rewrite Hr. }
  destruct changed; simpl.
  - rewrite Hout, build_kvs.
    destruct (build_checked s map NullSlot Hs (rewriteEntry <$> entries t)) as (t' & -> & Hw & He);
      [by apply rewrite_sorted|apply rewrite_canonical|]. by exists t'.
  - exists t. split_and!; [done|done|]. destruct (wf_leaves t Hwf) as [Hf He].
    apply rewritten_unchanged in Hr as [_ Hr]; [|done]. by rewrite He in Hr.
Qed.
End rewriting.
End walks.
