(* ===== verification/Collections.v ===== *)
(** * The contract of Map and Set

    The properties of the collections, stated over [wf] tables (every table an operation
    returns is one) and their [entries]; each with an instance at a concrete tree of several
    levels. *)

From Stdlib Require Import String.
From S2P Require Import Prelude Keys Entries Table TableInv TableBuild TableCheck TableOps TableUpdate TableFromArray TableSetOps TableSets TableWalks.

(** ** A small shape and collections of it *)

Definition smallShape : Shape := mkShape 2 4 true true.

Lemma smallShape_ok : shapeOk smallShape.
Proof. unfold shapeOk, smallShape, kMaxFanout; simpl; lia. Qed.

Definition sampleArray (n : nat) : list (Z * Z) :=
  (fun i => (Z.of_nat i * 7 mod 101, Z.of_nat i))%Z <$> seq 0 n.

Definition orEmpty (o : option (Table Z Z)) : Table Z Z := default (Leaf 0 [] []) o.

Definition sampleMap (n : nat) : Table Z Z := orEmpty (fromArray smallShape true (sampleArray n)).
Definition sampleSet (n : nat) : Table Z Z := orEmpty (fromArray smallShape false (sampleArray n)).

Lemma sample_wf map n : wf smallShape map 0%Z (orEmpty (fromArray smallShape map (sampleArray n))).
Proof.
  destruct (fromArray_spec smallShape map 0%Z smallShape_ok (sampleArray n)) as (t & -> & Hwf & _).
  exact Hwf.
Qed.

Lemma configure_shapeOk r : shapeOk (configure r).
Proof.
  unfold configure, shapeOk. simpl. split.
  - case_decide; [unfold SIZE_MAX; lia|lia].
  - unfold clamp, kMaxFanout. repeat case_decide; lia.
Qed.

(** *** Histories of a map *)

Inductive change (K V : Type) := Put (k : K) (v : V) | Remove (k : K).
Arguments Put {K V}.
Arguments Remove {K V}.

Section history.
Context {K V : Type} `{KeyOrder K}.

Definition apply (s : Shape) (map : bool) (t : Table K V) (c : change K V) : option (Table K V) :=
  match c with Put k v => put s map t k v | Remove k => remove s map t k end.

Fixpoint run (s : Shape) (map : bool) (t : Table K V) (cs : list (change K V)) : option (Table K V) :=
  match cs with [] => Some t | c :: cs => t ← apply s map t c; run s map t cs end.

(** The entries after a change, as a list in key order. *)
Definition changed (es : list (K * V)) (c : change K V) : list (K * V) :=
  match c with Put k v => sins k v es | Remove k => sdel k es end.

(** The same on partial functions. *)
Definition effect (f : K -> option V) (c : change K V) : K -> option V :=
  match c with
  | Put k v => fun k' => if decide (k = k') then Some v else f k'
  | Remove k => fun k' => if decide (k = k') then None else f k'
  end.

Lemma apply_spec (s : Shape) (map : bool) (NullSlot : V) t c :
  shapeOk s -> map = true -> wf s map NullSlot t ->
  few32 (changed (entries map NullSlot t) c) ->
  exists t', apply s map t c = Some t' /\ stored s map NullSlot t' /\
    entries map NullSlot t' = changed (entries map NullSlot t) c.
Proof.
  intros Hs Hm Hwf Hfew.
  cut (exists t', apply s map t c = Some t' /\ wf s map NullSlot t' /\
    entries map NullSlot t' = changed (entries map NullSlot t) c).
  { intros (t' & Ht & Hw & He). exists t'. split_and!; [done| |done]. by eapply few32_stored. }
  destruct c as [k v|k]; simpl.
  - unfold put. destruct (insert_spec s map NullSlot Hs t k v Hwf) as (t1 & -> & Hw & He). simpl.
    apply checked_spec; [done|done|]. rewrite He. unfold slotOf. by rewrite Hm.
  - unfold remove. destruct (removeKey_spec s map NullSlot Hs t k Hwf) as (t1 & -> & Hw & He). simpl.
    by apply checked_spec.
Qed.

Lemma run_spec (s : Shape) (map : bool) (NullSlot : V) t cs :
  shapeOk s -> map = true -> stored s map NullSlot t ->
  (forall n, few32 (foldl changed (entries map NullSlot t) (take n cs))) ->
  exists t', run s map t cs = Some t' /\ stored s map NullSlot t' /\
    entries map NullSlot t' = foldl changed (entries map NullSlot t) cs.
Proof.
  intros Hs Hm. revert t. induction cs as [|c cs IH]; intros t Hst Hfew; simpl; [by exists t|].
  destruct (apply_spec s map NullSlot t c Hs Hm (proj1 Hst) (Hfew 1)) as (t1 & -> & Hst1 & He). simpl.
  rewrite <- He. apply IH; [done|]. intros n. rewrite He. apply (Hfew (S n)).
Qed.

Lemma changed_effect (es : list (K * V)) (f : K -> option V) cs :
  sortedE es -> (forall k, sfind k es = f k) ->
  forall k, sfind k (foldl changed es cs) = foldl effect f cs k.
Proof.
  revert es f. induction cs as [|c cs IH]; intros es f Hsrt Hf; simpl; [done|]. apply IH.
  - destruct c; simpl; [by apply sins_sorted|by apply sdel_sorted].
  - intros k'. destruct c as [k v|k]; simpl; [by rewrite sfind_sins, Hf|by rewrite sfind_sdel, Hf].
Qed.
End history.

Lemma foldM_append {K V : Type} (es acc : list (K * V)) :
  foldM (fun es k v => Some (es ++ [(k, v)])) acc es = Some (acc ++ es).
Proof.
  revert acc. induction es as [|[k v] es IH]; intros acc; simpl; [by rewrite app_nil_r|].
  by rewrite IH, <- app_assoc.
Qed.

(** *** Histories of the shape *)

(** What happens to the widths in a process: the command line asks for some, the first
    collection reads them. *)
Inductive shapeStep : ShapeState -> ShapeState -> Prop :=
  | step_select r st : shapeStep st (selectShape r st).2
  | step_read st : shapeStep st (shape st).2.

Lemma shape_steps st st' c :
  rtc shapeStep st st' -> configured st = Some c -> configured st' = Some c.
Proof.
  induction 1 as [|st1 st2 st3 Hstep _ IH]; [done|]. intros Hc. apply IH.
  destruct Hstep as [r st|st]; unfold selectShape, shape; by rewrite Hc.
Qed.

Section contract.
Context {K V : Type} `{KeyOrder K}.
Context (s : Shape) (map : bool) (NullSlot : V).
Implicit Types (a b t : Table K V) (k : K) (v : V).

#[local] Abbreviation wf := (wf s map NullSlot).
#[local] Abbreviation entries := (entries map NullSlot).
#[local] Abbreviation stored := (stored s map NullSlot).

(** C1. C1 [put] on a well-formed map, when the entries it is to have can be counted in 32 bits, never
    fails (no guard, array bound or read out of range stops it), gives a well-formed map again
    whose count has not wrapped, and its entries are those of the argument with the new one put
    at its place in the order. *)
Theorem put_refines t k v :
  shapeOk s -> map = true -> wf t -> few32 (sins k v (entries t)) ->
  exists t', put s map t k v = Some t' /\ stored t' /\ entries t' = sins k v (entries t).
Proof. intros Hs Hm Hwf. by apply (apply_spec s map NullSlot t (Put k v)). Qed.

(** C2. C2 [remove] on a well-formed collection never fails, gives a well-formed collection (tables
    below half full are combined with a neighbour, a root of one child is replaced by it), and
    its entries are those of the argument without the key. *)
Theorem remove_refines t k :
  shapeOk s -> wf t ->
  exists t', remove s map t k = Some t' /\ wf t' /\ entries t' = sdel k (entries t).
Proof.
  intros Hs Hwf. unfold remove.
  destruct (removeKey_spec s map NullSlot Hs t k Hwf) as (t' & -> & Hwf' & He). simpl.
  by apply checked_spec.
Qed.

(** C3. C3 [lookup] finds the value of a key in a well-formed map exactly when the map has an entry
    with it, and [has] answers whether it does. *)
Theorem lookup_refines t k :
  shapeOk s -> map = true -> wf t ->
  lookup t k = Some (sfind k (entries t)) /\
  has t k = Some (bool_decide (is_Some (sfind k (entries t)))).
Proof.
  intros Hs Hm Hwf. split; [by apply (lookup_sfind s map NullSlot Hs)|].
  rewrite (has_sfind s map NullSlot Hs t k Hwf). f_equal.
  destruct (sfind k (entries t)); [by rewrite bool_decide_true|].
  rewrite bool_decide_false; [done|]. by intros [? ?].
Qed.

(** C4. C4 [fromArray], of an array whose positions are 32-bit numbers, never fails and gives a
    well-formed collection whose count has not wrapped: the same as putting the entries of the
    array in one after the other, so of equal keys the last one counts. *)
Theorem fromArray_refines source :
  shapeOk s -> few32 source ->
  exists t, fromArray s map source = Some t /\ stored t /\
    entries t = foldl (fun es e => sins e.1 (slotOf map NullSlot e.2) es) [] source.
Proof.
  intros Hs Hfew. destruct (fromArray_spec s map NullSlot Hs source) as (t & Ht & Hwf & He).
  exists t. split_and!; [done| |done]. eapply few32_stored; [done|done|].
  pose proof (putAll_length map NullSlot [] source). unfold few32, putAll in *. simpl in *. lia.
Qed.


(** C6. C6 [intersect], [difference] and [isSubset] of two well-formed sets never fail, give
    well-formed sets, and decide each element by membership in the two arguments, whichever of
    their algorithms (two leaves, entry by entry, two cursors) they take. *)
Theorem sets_refine a b :
  shapeOk s -> map = false -> stored a -> stored b ->
  (exists t, intersect s map NullSlot a b = Some t /\ wf t /\
     entries t = List.filter (fun e => bool_decide (is_Some (sfind e.1 (entries b)))) (entries a)) /\
  (exists t, difference s map NullSlot a b = Some t /\ wf t /\
     entries t = List.filter (fun e => bool_decide (sfind e.1 (entries b) = None)) (entries a)) /\
  isSubset map NullSlot a b =
    Some (forallb (fun e => bool_decide (is_Some (sfind e.1 (entries b)))) (entries a)).
Proof.
  intros Hs Hm Ha Hb.
  assert (Hmem : forall e, member (entries b) e = bool_decide (is_Some (sfind e.1 (entries b)))).
  { intros e. unfold member, hasKey. destruct (sfind e.1 (entries b));
      [by rewrite bool_decide_true|rewrite bool_decide_false; [done|by intros [? ?]]]. }
  assert (Hneg : forall e, negb (member (entries b) e) = bool_decide (sfind e.1 (entries b) = None)).
  { intros e. unfold member, hasKey. destruct (sfind e.1 (entries b));
      [by rewrite bool_decide_false|by rewrite bool_decide_true]. }
  split_and!.
  - destruct (intersect_sinter s map NullSlot Hs Hm a b Ha Hb) as (t & Ht & Hwf & He).
    exists t. split_and!; [done|done|]. rewrite He. by apply filter_ext.
  - destruct (difference_sdiff s map NullSlot Hs Hm a b Ha Hb) as (t & Ht & Hwf & He).
    exists t. split_and!; [done|done|]. rewrite He. by apply filter_ext.
  - rewrite (isSubset_ssubset s map NullSlot Hs a b Ha Hb). f_equal. unfold ssubset.
    apply forallb_ext_in. intros e _. apply Hmem.
Qed.

(** C7. C7 The check of the invariants that validation runs is exact: on a table laid out in memory
    as tables are, it reports no violation if and only if the table is well-formed. *)
Theorem validate_exact t :
  shapeOk s -> layout s map true t -> validate s map t = None <-> wf t.
Proof. intros Hs. by apply validate_wf. Qed.

(** C8. C8 A cursor over a well-formed collection never writes past its path (the height is below
    32, the path has [kMaxHeight] steps) and visits the entries, each once, in key order. *)
Theorem cursor_visits t :
  shapeOk s -> stored t ->
  height t < 32 /\ 32 <= kMaxHeight /\
  exists c, cursor t = Some c /\
    forEach (H0 := cursor_iter map NullSlot) (size t) (fun es k v => Some (es ++ [(k, v)])) c []
      = Some (entries t).
Proof.
  intros Hs Ht. destruct (stored_cursor s map NullSlot Hs t Ht) as (c & Hc & Hr).
  destruct Ht as [Hwf Hf]. pose proof Hwf as [[h Hsh] _]. split_and!.
  - rewrite (shaped_height _ _ _ _ _ _ Hsh). by eapply wf_height.
  - unfold kMaxHeight. lia.
  - exists c. split; [done|]. rewrite (wf_size s map NullSlot t Hwf).
    rewrite (forEach_spec (H1 := cursor_iterator s map NullSlot Hs) _ _ _ _ _ Hr) by done.
    apply (foldM_append (entries t) []).
Qed.

(** C9. C9 Two well-formed maps are equal exactly when they have the same entries, whatever the
    shapes of their trees, when the equality of values is equality. *)
Theorem equals_exact (veq same : V -> V -> bool) (deep : bool) a b :
  shapeOk s -> stored a -> stored b ->
  (forall v v', (if deep then veq else same) v v' = true <-> v = v') ->
  exists r, equals map NullSlot veq same deep a b = Some r /\ (r = true <-> entries a = entries b).
Proof.
  intros Hs Ha Hb Heq. rewrite (equals_sameEntries s map NullSlot Hs) by done.
  eexists. split; [done|]. apply (sameEntries_eq map NullSlot); [apply entries_canonical..|done].
Qed.

(** C10 [keys], [values] and [items] of a well-formed map fill an array of its size with the
    keys, the values and the entries in key order; [forEachEntry] visits the entries. *)
Theorem arrays_in_order t :
  map = true -> wf t ->
  keysArray t = Some (Some <$> (entries t).*1) /\
  valuesArray t = Some (Some <$> (entries t).*2) /\
  items t = Some (Some <$> entries t) /\
  forEachEntry map NullSlot t = entries t.
Proof.
  intros Hm Hwf. split_and!.
  - by apply (keysArray_spec s map NullSlot).
  - by apply (valuesArray_spec s map NullSlot).
  - by apply (items_spec s map NullSlot).
  - by apply (forEachEntry_spec s map NullSlot).
Qed.

(** C11 [clone] and [withSlots] give a well-formed collection of the rewritten entries, when
    the rewriting of keys keeps their order and the comparison of slots ([sk], [sv]) only
    answers true for equal ones; in particular [withSlots] that rewrites nothing is right to
    return its argument. *)
Theorem copies_rewrite (rk : K -> K) (rv : V -> V) sk sv t :
  shapeOk s -> wf t ->
  (forall k k', (kcmp k k' < 0)%Z -> (kcmp (rk k) (rk k') < 0)%Z) ->
  (forall k, sk (rk k) k = true -> rk k = k) -> (forall v, sv (rv v) v = true -> rv v = v) ->
  let image := (fun e => (rk e.1, if map then rv e.2 else NullSlot)) <$> entries t in
  (exists t', clone s map rk rv t = Some t' /\ wf t' /\ entries t' = image) /\
  (exists t', withSlots s map rk rv sk sv t = Some t' /\ wf t' /\ entries t' = image).
Proof.
  intros Hs Hwf Hmono Hsk Hsv. split.
  - by apply (clone_spec s map NullSlot Hs rk rv).
  - by apply (withSlots_spec s map NullSlot Hs rk rv).
Qed.

(** C10. C12 Any history of puts and removals, from the empty map, in which the entries can be counted
    in 32 bits after every change, never fails and gives a map whose count has not wrapped and
    whose lookups are those of the history applied to a partial function. *)
Theorem history_refines cs :
  shapeOk s -> map = true -> (forall n, few32 (foldl (changed (V:=V)) [] (take n cs))) ->
  exists t0 t, empty s map = Some t0 /\ run s map t0 cs = Some t /\ stored t /\
    forall k, lookup t k = Some (foldl effect (fun _ => None) cs k).
Proof.
  intros Hs Hm Hfew.
  destruct (fromArray_spec s map NullSlot Hs []) as (t0 & Ht0 & Hwf0 & He0). simpl in He0.
  destruct (run_spec s map NullSlot t0 cs Hs Hm) as (t & Hr & Hst & He).
  { by eapply few32_stored. }
  { by rewrite He0. }
  exists t0, t. split_and!; [done|done|done|]. intros k.
  rewrite (lookup_sfind s map NullSlot Hs t k Hm (proj1 Hst)), He, He0. f_equal.
  apply changed_effect; [constructor|done].
Qed.
End contract.

(** C13 The order of keys is a total order on the values of every key type (integers, booleans,
    strings by bytes, tuples and enums of those), and its equivalence is equality. *)
Theorem compareKeys_total t a b c :
  typed t a = true -> typed t b = true -> typed t c = true ->
  compareKeys t b a = (- compareKeys t a b)%Z /\
  (compareKeys t a b = 0%Z <-> a = b) /\
  ((compareKeys t a b < 0)%Z -> (compareKeys t b c < 0)%Z -> (compareKeys t a c < 0)%Z).
Proof.
  intros Ha Hb Hc. pose proof (compareKeys_orders t) as Ho. split_and!.
  - by apply (oo_opp Ho).
  - split; [by apply (oo_eq Ho)|]. intros ->. by apply (oo_refl Ho).
  - by apply (oo_trans Ho).
Qed.

(** C14 The widths every collection of a process is made with satisfy the bounds the tree needs,
    and once one collection has read them no later request changes them. *)
Theorem shape_frozen st st' c :
  rtc shapeStep initialShapeState st -> configured st = Some c -> rtc shapeStep st st' ->
  shapeOk c /\ configured st' = Some c /\ (shape st').1 = c.
Proof.
  intros Hinit Hc Hst. pose proof (shape_steps _ _ _ Hst Hc) as Hc'. split_and!; [|done|].
  - assert (Hinv : forall x y, rtc shapeStep x y ->
      (forall d, configured x = Some d -> shapeOk d) -> forall d, configured y = Some d -> shapeOk d).
    { induction 1 as [|x y z Hxy _ IH]; [done|]. intros Hx. apply IH.
      destruct Hxy as [r x|x]; unfold selectShape, shape; destruct (configured x) eqn:E; simpl;
        intros d; rewrite ?E; auto; try done. intros [= <-]. apply configure_shapeOk. }
    eapply Hinv; [exact Hinit| |exact Hc]. done.
  - unfold shape. by rewrite Hc'.
Qed.

(** ** Instances *)

Lemma sample_stored map n :
  (Z.of_nat (size (orEmpty (fromArray smallShape map (sampleArray n)))) <? 2 ^ 32)%Z = true ->
  stored smallShape map 0%Z (orEmpty (fromArray smallShape map (sampleArray n))).
Proof. intros Hf. split; [apply sample_wf|]. by apply Z.ltb_lt. Qed.

(** A tree of four levels, in which the first leaf is full. *)
Lemma put_refines_witness :
  height (sampleMap 40) = 3 /\
  few32 (sins 8%Z 5%Z (entries true 0%Z (sampleMap 40))) /\
  exists t', put smallShape true (sampleMap 40) 8%Z 5%Z = Some t' /\ stored smallShape true 0%Z t' /\
    entries true 0%Z t' = sins 8%Z 5%Z (entries true 0%Z (sampleMap 40)).
Proof.
  assert (Hfew : few32 (sins 8%Z 5%Z (entries true 0%Z (sampleMap 40)))) by (vm_compute; reflexivity).
  split; [vm_compute; reflexivity|]. split; [exact Hfew|].
  apply (put_refines smallShape true 0%Z);
    [apply smallShape_ok|reflexivity|apply sample_wf|exact Hfew].
Defined.

Lemma remove_refines_witness :
  height (sampleSet 40) = 2 /\
  exists t', remove smallShape false (sampleSet 40) 14%Z = Some t' /\ wf smallShape false 0%Z t' /\
    entries false 0%Z t' = sdel 14%Z (entries false 0%Z (sampleSet 40)).
Proof.
  split; [vm_compute; reflexivity|].
  apply (remove_refines smallShape false 0%Z); [apply smallShape_ok|apply sample_wf].
Defined.

Lemma lookup_refines_witness :
  sfind 14%Z (entries true 0%Z (sampleMap 40)) = Some 2%Z /\
  lookup (sampleMap 40) 14%Z = Some (sfind 14%Z (entries true 0%Z (sampleMap 40))) /\
  has (sampleMap 40) 14%Z = Some (bool_decide (is_Some (sfind 14%Z (entries true 0%Z (sampleMap 40))))).
Proof.
  split; [vm_compute; reflexivity|].
  apply (lookup_refines smallShape true 0%Z); [apply smallShape_ok|reflexivity|apply sample_wf].
Defined.

Lemma fromArray_refines_witness :
  exists t, fromArray smallShape true (sampleArray 30 ++ sampleArray 10) = Some t /\
    stored smallShape true 0%Z t /\
    entries true 0%Z t = foldl (fun es e => sins e.1 (slotOf true 0%Z e.2) es) []
      (sampleArray 30 ++ sampleArray 10).
Proof.
  apply (fromArray_refines smallShape true 0%Z); [apply smallShape_ok|vm_compute; reflexivity].
Defined.


(** A large set and a much smaller one, so that the small one is gone through. *)
Lemma sets_refine_witness :
  muchSmaller (sampleSet 3) (sampleSet 99) = true /\
  (exists t, intersect smallShape false 0%Z (sampleSet 99) (sampleSet 3) = Some t /\
     wf smallShape false 0%Z t /\
     entries false 0%Z t = List.filter
       (fun e => bool_decide (is_Some (sfind e.1 (entries false 0%Z (sampleSet 3)))))
       (entries false 0%Z (sampleSet 99))) /\
  (exists t, difference smallShape false 0%Z (sampleSet 99) (sampleSet 3) = Some t /\
     wf smallShape false 0%Z t /\
     entries false 0%Z t = List.filter
       (fun e => bool_decide (sfind e.1 (entries false 0%Z (sampleSet 3)) = None))
       (entries false 0%Z (sampleSet 99))) /\
  isSubset false 0%Z (sampleSet 99) (sampleSet 3) =
    Some (forallb (fun e => bool_decide (is_Some (sfind e.1 (entries false 0%Z (sampleSet 3)))))
            (entries false 0%Z (sampleSet 99))).
Proof.
  split; [vm_compute; reflexivity|].
  apply (sets_refine smallShape false 0%Z);
    [apply smallShape_ok|reflexivity|apply sample_stored; vm_compute; reflexivity..].
Defined.

(** A branch over one leaf is not a collection, and the check says so. *)
Lemma validate_exact_witness :
  let t : Table Z Z := Branch 4 1 2 [1%Z] [Leaf 4 [1; 2]%Z [7; 8]%Z] in
  validate smallShape true t = Some (ChildrenCount 1) /\
  (validate smallShape true t = None <-> wf smallShape true 0%Z t).
Proof.
  split; [vm_compute; reflexivity|].
  apply (validate_exact smallShape true 0%Z); [apply smallShape_ok|]. vm_compute. repeat split.
Defined.

Lemma cursor_visits_witness :
  height (sampleMap 40) < 32 /\ 32 <= kMaxHeight /\
  exists c, cursor (sampleMap 40) = Some c /\
    forEach (H0 := cursor_iter true 0%Z) (size (sampleMap 40)) (fun es k v => Some (es ++ [(k, v)])) c []
      = Some (entries true 0%Z (sampleMap 40)).
Proof.
  apply (cursor_visits smallShape true 0%Z);
    [apply smallShape_ok|apply sample_stored; vm_compute; reflexivity].
Defined.

Lemma equals_exact_witness :
  exists r, equals true 0%Z Z.eqb Z.eqb true (sampleMap 12) (sampleMap 40) = Some r /\
    (r = true <-> entries true 0%Z (sampleMap 12) = entries true 0%Z (sampleMap 40)).
Proof.
  apply (equals_exact smallShape true 0%Z);
    [apply smallShape_ok|apply sample_stored; vm_compute; reflexivity..|].
  intros v v'. apply Z.eqb_eq.
Defined.

Lemma arrays_in_order_witness :
  keysArray (sampleMap 9) = Some (Some <$> (entries true 0%Z (sampleMap 9)).*1) /\
  valuesArray (sampleMap 9) = Some (Some <$> (entries true 0%Z (sampleMap 9)).*2) /\
  items (sampleMap 9) = Some (Some <$> entries true 0%Z (sampleMap 9)) /\
  forEachEntry true 0%Z (sampleMap 9) = entries true 0%Z (sampleMap 9).
Proof. apply (arrays_in_order smallShape true 0%Z); [reflexivity|apply sample_wf]. Defined.

Lemma copies_rewrite_witness :
  let image := (fun e => ((e.1 + 1)%Z, if true then (2 * e.2)%Z else 0%Z)) <$> entries true 0%Z (sampleMap 9) in
  (exists t', clone smallShape true (fun k => k + 1)%Z (fun v => 2 * v)%Z (sampleMap 9) = Some t' /\
     wf smallShape true 0%Z t' /\ entries true 0%Z t' = image) /\
  (exists t', withSlots smallShape true (fun k => k + 1)%Z (fun v => 2 * v)%Z Z.eqb Z.eqb (sampleMap 9) = Some t' /\
     wf smallShape true 0%Z t' /\ entries true 0%Z t' = image).
Proof.
  apply (copies_rewrite smallShape true 0%Z (fun k => k + 1)%Z (fun v => 2 * v)%Z);
    [apply smallShape_ok|apply sample_wf| |intros k; apply Z.eqb_eq|intros v; apply Z.eqb_eq].
  intros k k'. simpl. three_cases; lia.
Defined.

Lemma history_refines_witness :
  let cs := [Put 3 30; Put 1 10; Put 2 20; Remove 3; Put 1 11]%Z in
  exists t0 t, empty smallShape true = Some t0 /\ run smallShape true t0 cs = Some t /\
    stored smallShape true 0%Z t /\
    forall k, lookup t k = Some (foldl effect (fun _ => None) cs k).
Proof.
  apply (history_refines smallShape true 0%Z); [apply smallShape_ok|reflexivity|].
  intros n. do 5 (destruct n as [|n]; [vm_compute; reflexivity|]).
  rewrite take_ge by (simpl; lia). vm_compute. reflexivity.
Defined.

Lemma compareKeys_total_witness :
  let t := KTuple [KString; KEnum [[]; [KInt32]]] in
  let a := STuple [SString [97; 98]; SVariant 1 [SInt 5]]%Z in
  let b := STuple [SString [97; 98]; SVariant 0 []]%Z in
  let c := STuple [SString [98]; SVariant 0 []]%Z in
  compareKeys t b a = (- compareKeys t a b)%Z /\
  (compareKeys t a b = 0%Z <-> a = b) /\
  ((compareKeys t a b < 0)%Z -> (compareKeys t b c < 0)%Z -> (compareKeys t a c < 0)%Z).
Proof. apply compareKeys_total; vm_compute; reflexivity. Defined.

Lemma shape_frozen_witness :
  let st := (shape (selectShape (mkRequest (Some 1) None None None) initialShapeState).2).2 in
  let st' := (selectShape (mkRequest (Some 9) None None None) st).2 in
  let c := mkShape 2 64 true false in
  shapeOk c /\ configured st' = Some c /\ (shape st').1 = c.
Proof.
  apply (shape_frozen (shape (selectShape (mkRequest (Some 1) None None None) initialShapeState).2).2).
  - eapply rtc_l; [apply (step_select (mkRequest (Some 1) None None None))|].
    eapply rtc_l; [apply step_read|apply rtc_refl].
  - vm_compute. reflexivity.
  - eapply rtc_l; [apply (step_select (mkRequest (Some 9) None None None))|apply rtc_refl].
Defined.

(** The comment on [leafSlots] says that a leaf that is a whole collection has exactly the
    slots of its entries. The leaf a tree collapses to keeps the slots it had in the tree. *)
Example collapsed_root_padded :
  exists t, (t ← remove smallShape true (sampleMap 3) 14%Z; remove smallShape true t 0%Z) = Some t /\
    t = Leaf 4 [7]%Z [1]%Z /\ used true (size t) = 2.
Proof. eexists. split; [vm_compute; reflexivity|split; reflexivity]. Qed.
