(* ===== verification/Mir.v ===== *)
(** * Machine IR of the JIT

    The linear instruction sequence between the bytecode and the machine code
    (src/src/passes/sched/fastvm/jit/mir/mir.h), with the classes of operations its optimizer
    and its register allocator ask for. Virtual registers, displacements and immediates are
    integers; the parameters a native self call points to are a field of the instruction. *)

From stdpp Require Import gmap.
From S2P Require Import Prelude.

Definition kMirInvalidPc : Z := 0xFFFFFFFF.
Definition kInvalidVReg : Z := 0xFFFFFFFF.

Definition kRegRax : Z := 0.
Definition kRegRcx : Z := 1.
Definition kRegRdx : Z := 2.
Definition kRegRbx : Z := 3.
Definition kRegR8 : Z := 4.
Definition kRegR9 : Z := 5.
Definition kRegR10 : Z := 6.
Definition kRegR11 : Z := 7.
Definition kRegRdi : Z := 8.
Definition kRegRsi : Z := 9.

Inductive MirOp :=
  | MovRegReg | MovRegImm32 | MovRegImm64 | PushRdi | PopRdi | PushRsi | PopRsi | PushRbx |
  PopRbx | SubRsp8 | AddRsp8 | CallRax | CallRel32 | JzRel32 | JmpRel32 | JleRel32 | JlRel32 |
  JgRel32 | JgeRel32 | JeRel32 | JneRel32 | VCmpRegImm | JmpRel8 | JleRel8 | Ret | JmpRax |
  VLoadFromFrame | VStoreToFrame | VLoadFromMemAt | VLoadImm32 | VLoadImm64 | VCopy | VTest |
  VCmove | VCmovnz | VMovFromRax | VMovToRax | VRet | VAdd | VSub | VMul | VIdiv | VCmpSetL |
  VCmpSetLE | VCmpSetG | VCmpSetGE | VCmpSetE | VCmpSetNE | VAddImm | VSubImm | VCmpSetLImm |
  VCmpSetLEImm | VCmpSetGImm | VCmpSetGEImm | VCmpSetEImm | VCmpSetNEImm | VXmmLoadFromFrame |
  VXmmStoreToFrame | VXmmLoadFromMemAt | VXmmAdd | VXmmSub | VXmmMul | VXmmDiv | VXmmCmpSetB |
  VXmmCmpSetBE | VXmmCmpSetE | VXmmCmpSetA | VXmmCmpSetAE | VXmmCmpSetNZ | VAdd32 | VSub32 |
  VMul32 | VIdiv32 | VCmpSetL32 | VCmpSetLE32 | VCmpSetG32 | VCmpSetGE32 | VCmpSetE32 |
  VCmpSetNE32 | VXmm32LoadFromFrame | VXmm32StoreToFrame | VXmm32LoadFromMemAt | VXmm32Add |
  VXmm32Sub | VXmm32Mul | VXmm32Div | VXmm32CmpSetB | VXmm32CmpSetBE | VXmm32CmpSetE |
  VXmm32CmpSetA | VXmm32CmpSetAE | VXmm32CmpSetNZ | DebugTrace | NativeJitFuncCall |
  PushFrameSlot | PushImm64 | PopFrameSlot | MovRsiR13 | CallHelper | ExitToDriver |
  SafepointPoll | Nop.

(** [NativeJitCallParams::Arg]. *)
Record CallArg := mkArg { dstDisp : Z; argVreg : Z; srcDisp : Z; isImm : bool; argImm : Z }.

(** [NativeJitCallParams]. *)
Record NativeJitCallParams := mkParams {
  args : list CallArg; resultDisp : Z; resultVReg : Z; calleeSlotBytes : Z; callPc : Z }.

(** [Mir]. [params] is what [imm64] of a [NativeJitFuncCall] points to, [None] for a null
    pointer. *)
Record Mir := mkMir {
  op : MirOp; r0 : Z; r1 : Z; disp : Z; imm32 : Z; imm64 : Z; pc : Z;
  params : option NativeJitCallParams }.

Definition setOp (o : MirOp) (m : Mir) : Mir :=
  mkMir o (r0 m) (r1 m) (disp m) (imm32 m) (imm64 m) (pc m) (params m).

Definition hasPc (m : Mir) : bool := negb (pc m =? kMirInvalidPc)%Z.

(** ** Classes of operations *)

Definition isJumpOp (o : MirOp) : bool :=
  match o with
  | JzRel32 | JmpRel32 | JleRel32 | JlRel32 | JgRel32 | JgeRel32 | JeRel32 | JneRel32
  | JmpRel8 | JleRel8 => true
  | _ => false
  end.

Definition isBarrierOp (o : MirOp) : bool :=
  match o with
  | Ret | JmpRax | NativeJitFuncCall | CallRax | CallRel32 | CallHelper | ExitToDriver
  | SafepointPoll | PushRdi | PopRdi | PushFrameSlot | PushImm64 | PopFrameSlot => true
  | _ => isJumpOp o
  end.

Definition readsFrameSlot (o : MirOp) : bool :=
  match o with
  | VLoadFromFrame | VXmmLoadFromFrame | VXmm32LoadFromFrame => true
  | _ => false
  end.

Definition writesFrameSlot (o : MirOp) : bool :=
  match o with
  | VStoreToFrame | VXmmStoreToFrame | VXmm32StoreToFrame => true
  | _ => false
  end.

Definition isVRegOp (o : MirOp) : bool :=
  match o with
  | VCmpRegImm | VLoadFromFrame | VStoreToFrame | VLoadFromMemAt | VLoadImm32 | VLoadImm64
    | VCopy | VTest | VCmove | VCmovnz | VMovFromRax | VMovToRax | VRet | VAdd | VSub |
    VMul | VIdiv | VCmpSetL | VCmpSetLE | VCmpSetG | VCmpSetGE | VCmpSetE | VCmpSetNE |
    VAddImm | VSubImm | VCmpSetLImm | VCmpSetLEImm | VCmpSetGImm | VCmpSetGEImm |
    VCmpSetEImm | VCmpSetNEImm | VXmmLoadFromFrame | VXmmStoreToFrame | VXmmLoadFromMemAt
    | VXmmAdd | VXmmSub | VXmmMul | VXmmDiv | VXmmCmpSetB | VXmmCmpSetBE | VXmmCmpSetE |
    VXmmCmpSetA | VXmmCmpSetAE | VXmmCmpSetNZ | VAdd32 | VSub32 | VMul32 | VIdiv32 |
    VCmpSetL32 | VCmpSetLE32 | VCmpSetG32 | VCmpSetGE32 | VCmpSetE32 | VCmpSetNE32 |
    VXmm32LoadFromFrame | VXmm32StoreToFrame | VXmm32LoadFromMemAt | VXmm32Add | VXmm32Sub
    | VXmm32Mul | VXmm32Div | VXmm32CmpSetB | VXmm32CmpSetBE | VXmm32CmpSetE |
    VXmm32CmpSetA | VXmm32CmpSetAE | VXmm32CmpSetNZ
      => true
  | _ => false
  end.

(** Which of [r0], [r1] and [imm32] an operation on virtual registers defines and uses: the
    switch of [collectVRegDefUse]. *)
Inductive VShape := DefR0 | UseR0 | DefR0UseR1 | SelectR0R1 | DefR0UseBoth.

Definition vshape (o : MirOp) : option VShape :=
  match o with
  | VLoadFromFrame | VLoadFromMemAt | VMovFromRax | VLoadImm32 | VLoadImm64 |
    VXmmLoadFromFrame | VXmmLoadFromMemAt | VXmm32LoadFromFrame | VXmm32LoadFromMemAt
      => Some DefR0
  | VStoreToFrame | VMovToRax | VXmmStoreToFrame | VXmm32StoreToFrame | VTest | VRet |
    VCmpRegImm
      => Some UseR0
  | VCopy | VAddImm | VSubImm | VCmpSetLImm | VCmpSetLEImm | VCmpSetGImm | VCmpSetGEImm |
    VCmpSetEImm | VCmpSetNEImm
      => Some DefR0UseR1
  | VCmove | VCmovnz
      => Some SelectR0R1
  | VAdd | VSub | VMul | VIdiv | VCmpSetL | VCmpSetLE | VCmpSetG | VCmpSetGE | VCmpSetE |
    VCmpSetNE | VXmmAdd | VXmmSub | VXmmMul | VXmmDiv | VXmmCmpSetB | VXmmCmpSetBE |
    VXmmCmpSetE | VXmmCmpSetA | VXmmCmpSetAE | VXmmCmpSetNZ | VAdd32 | VSub32 | VMul32 |
    VIdiv32 | VCmpSetL32 | VCmpSetLE32 | VCmpSetG32 | VCmpSetGE32 | VCmpSetE32 |
    VCmpSetNE32 | VXmm32Add | VXmm32Sub | VXmm32Mul | VXmm32Div | VXmm32CmpSetB |
    VXmm32CmpSetBE | VXmm32CmpSetE | VXmm32CmpSetA | VXmm32CmpSetAE | VXmm32CmpSetNZ
      => Some DefR0UseBoth
  | _ => None
  end.

Definition isDivision (o : MirOp) : bool :=
  match o with VIdiv | VIdiv32 | VXmmDiv | VXmm32Div => true | _ => false end.

(** The virtual register an instruction writes. *)
Definition defines (m : Mir) : option Z :=
  match op m with
  | NativeJitFuncCall =>
      p ← params m;
      if (resultVReg p =? kInvalidVReg)%Z then None else Some (resultVReg p)
  | o =>
      match vshape o with
      | Some UseR0 | None => None
      | Some _ => if (r0 m =? kInvalidVReg)%Z then None else Some (r0 m)
      end
  end.

Lemma vshape_isVRegOp o : isVRegOp o = bool_decide (is_Some (vshape o)).
Proof. by destruct o. Qed.

Lemma division_vshape o : isDivision o = true -> vshape o = Some DefR0UseBoth.
Proof. by destruct o. Qed.

(** ** Kinds

    The operations the optimizer tells apart, one by one or by class. *)
Inductive Kind :=
  | KSkip | KReturn | KVRet | KJump (conditional : bool) | KPush | KPop | KNative | KOpaque
  | KIntLoad | KFloatLoad | KIntStore | KFloatStore | KCopy | KStack | KPlain.

#[export] Instance kind_eq_dec : EqDecision Kind.
Proof. solve_decision. Defined.

Definition kind (o : MirOp) : Kind :=
  match o with
  | Nop | DebugTrace => KSkip
  | Ret | JmpRax => KReturn
  | VRet => KVRet
  | JmpRel32 | JmpRel8 => KJump false
  | JzRel32 | JleRel32 | JlRel32 | JgRel32 | JgeRel32 | JeRel32 | JneRel32 | JleRel8 => KJump true
  | PushFrameSlot => KPush
  | PopFrameSlot => KPop
  | NativeJitFuncCall => KNative
  | CallRax | CallRel32 | CallHelper | ExitToDriver | SafepointPoll => KOpaque
  | VLoadFromFrame => KIntLoad
  | VXmmLoadFromFrame | VXmm32LoadFromFrame => KFloatLoad
  | VStoreToFrame => KIntStore
  | VXmmStoreToFrame | VXmm32StoreToFrame => KFloatStore
  | VCopy => KCopy
  | PushRdi | PopRdi | PushImm64 => KStack
  | _ => KPlain
  end.

Lemma isJumpOp_kind o : isJumpOp o = match kind o with KJump _ => true | _ => false end.
Proof. by destruct o. Qed.

Lemma isBarrierOp_kind o :
  isBarrierOp o = match kind o with
                  | KReturn | KJump _ | KPush | KPop | KNative | KOpaque | KStack => true
                  | _ => false end.
Proof. by destruct o. Qed.

Lemma readsFrameSlot_kind o :
  readsFrameSlot o = match kind o with KIntLoad | KFloatLoad => true | _ => false end.
Proof. by destruct o. Qed.

Lemma writesFrameSlot_kind o :
  writesFrameSlot o = match kind o with KIntStore | KFloatStore => true | _ => false end.
Proof. by destruct o. Qed.
