(* ===== verification/MirOptimize.v ===== *)
(** * The optimizer of the machine IR

    The passes of src/src/passes/sched/fastvm/jit/mir/mir_optimize.cpp: the Win64 argument
    set-up, forwarding of frame stores with removal of overwritten ones, and removal of stores
    to slots that are not live. A removed instruction becomes a [Nop]. *)

From stdpp Require Import gmap.
From S2P Require Import Prelude Mir.

(** The pcs jumps go to. *)
Definition jumpTargets (buf : list Mir) : gset Z :=
  list_to_set (imm32 <$> filter (fun m => isJumpOp (op m) = true) buf).

(** [m.hasPc() && jumpTargets.count(m.pc)]. *)
Definition isTarget (targets : gset Z) (m : Mir) : bool := hasPc m && bool_decide (pc m ∈ targets).

(** ** Redundant argument set-up *)

Definition isMov (m : Mir) (dst src : Z) : bool :=
  match op m with MovRegReg => (r0 m =? dst)%Z && (r1 m =? src)%Z | _ => false end.

Fixpoint optimizeWin64RedundantArgSetup (buf : list Mir) : list Mir :=
  match buf with
  | a :: after =>
      match after with
      | b :: c :: d :: rest =>
          if isMov a kRegRdi kRegRcx && isMov b kRegRsi kRegRdx &&
             isMov c kRegRcx kRegRdi && isMov d kRegRdx kRegRsi
          then a :: b :: rest
          else a :: optimizeWin64RedundantArgSetup after
      | _ => buf
      end
  | [] => buf
  end.

Definition optimizeRemoveNoopMovRaxRax (buf : list Mir) : list Mir := buf.

(** ** Forwarding of stores *)

Record StoreInfo := mkStore { sVreg : Z; sIndex : nat; sRead : bool }.

(** One iteration of the loop of [optimizePeephole]: the pending stores after instruction [m]
    at [i], the instruction it becomes, and the index of an earlier store it makes dead. *)
Definition peepholeStep (targets : gset Z) (forwardStores : bool) (i : nat) (m : Mir)
    (pending : gmap Z StoreInfo) : gmap Z StoreInfo * Mir * option nat :=
  let pending := if isTarget targets m then ∅ else pending in
  match kind (op m) with
  | KSkip => (pending, m, None)
  | k =>
      if isBarrierOp (op m) then (∅, m, None)
      else if writesFrameSlot (op m) then
        match k with
        | KIntStore =>
            (<[disp m := mkStore (r0 m) i false]> pending, m,
             match pending !! disp m with
             | Some it => if negb (sRead it) then Some (sIndex it) else None
             | None => None
             end)
        | _ => (delete (disp m) pending, m, None)
        end
      else if readsFrameSlot (op m) then
        match pending !! disp m with
        | Some it =>
            (<[disp m := mkStore (sVreg it) (sIndex it) true]> pending,
             match k, forwardStores with
             | KIntLoad, true => mkMir VCopy (r0 m) (sVreg it) 0 (imm32 m) (imm64 m) (pc m) (params m)
             | _, _ => m
             end, None)
        | None => (pending, m, None)
        end
      else (pending, m, None)
  end.

Definition peepholeAt (targets : gset Z) (forwardStores : bool)
    (st : list Mir * gmap Z StoreInfo) (i : nat) : list Mir * gmap Z StoreInfo :=
  let (buf, pending) := st in
  match buf !! i with
  | None => st
  | Some m =>
      let '(pending, m', dead) := peepholeStep targets forwardStores i m pending in
      let buf := <[i := m']> buf in
      (match dead with Some j => alter (setOp Nop) j buf | None => buf end, pending)
  end.

Definition optimizePeephole (buf : list Mir) (forwardStores : bool) : list Mir :=
  (foldl (peepholeAt (jumpTargets buf) forwardStores) (buf, ∅) (seq 0 (length buf))).1.

(** ** Dead frame stores *)

Definition kAllSlotsLive : Z := (- 2 ^ 31)%Z.

(** [transfer]: the slots live before [m], from those live after it and those live at the jump
    targets behind it, and whether [m] is a dead store. *)
Definition transfer (targetLiveness : gmap Z (gset Z)) (m : Mir) (live : gset Z) : gset Z * bool :=
  match kind (op m) with
  | KSkip => (live, false)
  | KReturn | KVRet => (∅, false)
  | KJump _ =>
      (live ∪ match targetLiveness !! imm32 m with
              | Some l => l
              | None => {[ kAllSlotsLive ]}
              end, false)
  | KPush => ({[ disp m ]} ∪ live, false)
  | KPop => (live ∖ {[ disp m ]}, false)
  | KNative =>
      (match params m with
       | Some p =>
           let live := (if (resultVReg p =? kInvalidVReg)%Z then live ∖ {[ resultDisp p ]} else live) in
           foldl (fun live a =>
                    if (argVreg a =? kInvalidVReg)%Z && negb (isImm a)
                    then {[ srcDisp a ]} ∪ live else live) live (args p)
       | None => live
       end, false)
  | KOpaque => ({[ kAllSlotsLive ]} ∪ live, false)
  | _ =>
      if readsFrameSlot (op m) then ({[ disp m ]} ∪ live, false)
      else if writesFrameSlot (op m) then
        if bool_decide (disp m ∉ live /\ kAllSlotsLive ∉ live) then (live, true)
        else (live ∖ {[ disp m ]}, false)
      else (live, false)
  end.

(** The state of the backward loop. *)
Record Liveness := mkLiveness { liveSlots : gset Z; targetLiveness : gmap Z (gset Z) }.

(** From the last instruction to the first: the liveness before the buffer, and the buffer with
    its dead stores removed. *)
Fixpoint eliminateFrom (targets : gset Z) (buf : list Mir) : Liveness * list Mir :=
  match buf with
  | [] => (mkLiveness ∅ ∅, [])
  | m :: rest =>
      let '(l, rest) := eliminateFrom targets rest in
      let '(live, dead) := transfer (targetLiveness l) m (liveSlots l) in
      let m := if dead then setOp Nop m else m in
      (mkLiveness live
         (if isTarget targets m then <[pc m := live]> (targetLiveness l) else targetLiveness l),
       m :: rest)
  end.

Definition eliminateDeadFrameStores (buf : list Mir) : list Mir :=
  (eliminateFrom (jumpTargets buf) buf).2.

Definition runMirOptimizationPasses (buf : list Mir) (keepValuesInRegisters : bool) : list Mir :=
  eliminateDeadFrameStores
    (optimizePeephole
       (optimizeRemoveNoopMovRaxRax (optimizeWin64RedundantArgSetup buf)) keepValuesInRegisters).
