(* ===== verification/MirSem.v ===== *)
(** * Execution of the machine IR

    An abstract machine for the instruction sequences of Mir.v, at the level of virtual
    registers and frame slots: what the passes of the optimizer have to preserve. Loads, stores
    and copies are concrete; what an arithmetic instruction computes, what a helper or the
    driver does with the activation and what the machine stack holds are parameters, so every
    statement about this machine holds for all of them. *)

From stdpp Require Import gmap.
From S2P Require Import Prelude Mir MirOptimize.

Section machine.
(** The rest of the machine: flags, rax, the machine stack, memory that is not the frame. *)
Context {E : Type}.

(** [vr]: the virtual registers, [fr]: the frame slots by displacement (0 before they are
    written). *)
Record State := mkState { vr : gmap Z Z; fr : gmap Z Z; ext : E }.

Record Hardware := {
  (** An instruction that touches no frame slot: the value it defines and the rest of the
      machine, or [None] when it faults (a division by zero). *)
  exec : Mir -> gmap Z Z -> E -> option (Z * E);
  (** Whether a conditional jump is taken. *)
  taken : MirOp -> E -> bool;
  (** A call that is given the frame, an exit to the driver, a safepoint poll: [None] when the
      activation does not come back. *)
  opaque : Mir -> State -> option State;
  (** A native self call, which is given the values of its arguments. *)
  native : Mir -> list Z -> E -> option (Z * E);
  push : Z -> E -> E;
  pop : E -> Z * E;
}.
Context (hw : Hardware).

(** How an execution ends. After a return or a fault the frame is dead and is not seen; an
    activation that is left at an opaque instruction is seen as it is. *)
Inductive outcome :=
  | Returned (o : MirOp) (value : Z) (e : E)
  | Faulted (m : Mir) (e : E)
  | LeftAt (m : Mir) (s : State)
  | RanOff (s : State).

Inductive effect := Next (s : State) | Jump (target : Z) (s : State) | Stop (o : outcome).

Definition slot (s : State) (d : Z) : Z := default 0%Z (fr s !! d).
Definition vreg (s : State) (v : Z) : Z := default 0%Z (vr s !! v).
Definition setVreg (v x : Z) (s : State) : State := mkState (<[v := x]> (vr s)) (fr s) (ext s).
Definition setSlot (d x : Z) (s : State) : State := mkState (vr s) (<[d := x]> (fr s)) (ext s).
(** The value an instruction computes goes to the virtual register it defines. *)
Definition setDefined (m : Mir) (x : Z) (s : State) : State :=
  match defines m with Some v => setVreg v x s | None => s end.
Definition setExt (e : E) (s : State) : State := mkState (vr s) (fr s) e.

(** The value of an argument of a native call. *)
Definition argument (s : State) (a : CallArg) : Z :=
  if negb (argVreg a =? kInvalidVReg)%Z then vreg s (argVreg a)
  else if isImm a then argImm a else slot s (srcDisp a).

(** Operations that load, store and copy as they are encoded: 64 bits, except that a float
    load of a 32-bit slot is zero-extended. *)
Definition loaded (o : MirOp) (x : Z) : Z :=
  match o with VXmm32LoadFromFrame => (x mod 2 ^ 32)%Z | _ => x end.

Definition step (m : Mir) (s : State) : effect :=
  match kind (op m) with
  | KSkip => Next s
  | KReturn => Stop (Returned (op m) 0 (ext s))
  | KVRet => Stop (Returned VRet (vreg s (r0 m)) (ext s))
  | KCopy => Next (setDefined m (vreg s (r1 m)) s)
  | KPush => Next (setExt (push hw (slot s (disp m)) (ext s)) s)
  | KPop => let (x, e) := pop hw (ext s) in Next (setExt e (setSlot (disp m) x s))
  | KNative =>
      match params m with
      | None => Next s
      | Some p =>
          match native hw m (argument s <$> args p) (ext s) with
          | None => Stop (Faulted m (ext s))
          | Some (x, e) =>
              Next (setExt e (if (resultVReg p =? kInvalidVReg)%Z then setSlot (resultDisp p) x s
                              else setDefined m x s))
          end
      end
  | KOpaque => match opaque hw m s with Some s => Next s | None => Stop (LeftAt m s) end
  | KJump conditional =>
      if negb conditional || taken hw (op m) (ext s) then Jump (imm32 m) s else Next s
  | KIntLoad | KFloatLoad => Next (setDefined m (loaded (op m) (slot s (disp m))) s)
  | KIntStore | KFloatStore => Next (setSlot (disp m) (vreg s (r0 m)) s)
  | KStack | KPlain =>
      match exec hw m (vr s) (ext s) with
      | None => Stop (Faulted m (ext s))
      | Some (x, e) =>
          Next (setExt e (setDefined m x s))
      end
  end.

(** A jump lands at the first instruction of its target bytecode. *)
Definition landing (buf : list Mir) (target : Z) : option nat :=
  fst <$> list_find (fun m => hasPc m = true /\ pc m = target) buf.

(** [None]: the fuel ran out, or a jump has no target. *)
Fixpoint run (fuel : nat) (buf : list Mir) (i : nat) (s : State) : option outcome :=
  match fuel with
  | O => None
  | S fuel =>
      match buf !! i with
      | None => Some (RanOff s)
      | Some m =>
          match step m s with
          | Next s => run fuel buf (S i) s
          | Jump target s => j ← landing buf target; run fuel buf j s
          | Stop o => Some o
          end
      end
  end.

(** ** Related executions *)

(** What is seen of two executions; control does not run off the end of compiled code. *)
Definition sameOutcome (a b : option outcome) : Prop :=
  match a, b with Some (RanOff _), Some (RanOff _) => True | _, _ => a = b end.

(** Two effects that go the same way, to states related by [Q] (behind the instruction) or
    [J] (at the target of a jump). *)
Inductive sameEffect (Q : State -> State -> Prop) (J : Z -> State -> State -> Prop) :
    effect -> effect -> Prop :=
  | same_next s s' : Q s s' -> sameEffect Q J (Next s) (Next s')
  | same_jump t s s' : J t s s' -> sameEffect Q J (Jump t s) (Jump t s')
  | same_stop o : sameEffect Q J (Stop o) (Stop o).

(** Lockstep simulation: instruction by instruction, the second buffer does what the first
    does. *)
Lemma lockstep (buf buf' : list Mir) (inv : nat -> State -> State -> Prop) :
  (forall t, landing buf t = landing buf' t) -> length buf = length buf' ->
  (forall i m m' s s', buf !! i = Some m -> buf' !! i = Some m' -> inv i s s' ->
     sameEffect (inv (S i)) (fun t s s' => forall j, landing buf t = Some j -> inv j s s')
       (step m s) (step m' s')) ->
  forall fuel i s s', inv i s s' -> sameOutcome (run fuel buf i s) (run fuel buf' i s').
Proof.
  intros Hland Hlen Hstep. induction fuel as [|fuel IH]; intros i s s' Hinv; simpl; [done|].
  destruct (buf !! i) as [m|] eqn:Hm.
  - destruct (lookup_lt_is_Some_2 buf' i) as [m' Hm'].
    { rewrite <- Hlen. by eapply lookup_lt_Some. }
    rewrite Hm'. destruct (Hstep i m m' s s' Hm Hm' Hinv) as [s1 s1' Hq|t s1 s1' Hj|o]; [by apply IH| |].
    + rewrite <- Hland. destruct (landing buf t) as [j|] eqn:Hl; simpl; [|done].
      apply IH. by apply Hj.
    + by destruct o.
  - rewrite (lookup_ge_None_2 buf' i); [done|]. rewrite <- Hlen. by apply lookup_ge_None.
Qed.

(** Instructions may change, but not where the bytecodes begin. *)
Lemma landing_ext (buf buf' : list Mir) t :
  pc <$> buf = pc <$> buf' -> landing buf t = landing buf' t.
Proof.
  unfold landing. revert buf'. induction buf as [|m buf IH]; intros [|m' buf'] Hpc; try done.
  simpl in Hpc. injection Hpc as Hm Hpc. simpl. unfold hasPc in *. rewrite <- Hm.
  destruct (decide _); [done|]. specialize (IH buf' Hpc).
  destruct (list_find _ buf) as [[j x]|], (list_find _ buf') as [[j' x']|]; simpl in *; congruence.
Qed.

Lemma landing_Some (buf : list Mir) t j :
  landing buf t = Some j -> exists m, buf !! j = Some m /\ hasPc m = true /\ pc m = t.
Proof.
  unfold landing. destruct (list_find _ buf) as [[k m]|] eqn:Hf; simpl; [|done].
  intros [= <-]. apply list_find_Some in Hf as (Hk & [? ?] & _). by exists m.
Qed.

End machine.
