(* ===== verification/MirPasses.v ===== *)
(** * Dead frame store elimination is sound

    The liveness the backward pass computes is what an execution needs: two executions, of the
    buffer and of the buffer without its dead stores, agree on the slots that are live and on
    everything that is not the frame. *)

From stdpp Require Import gmap.
From S2P Require Import Prelude Mir MirOptimize MirSem.
Section deadStores.
Context {E : Type} (hw : @Hardware E).
Context (buf : list Mir).
Implicit Types (s : @State E) (m : Mir) (d t : Z).

(** The bytecodes begin at different pcs, as the builder numbers them; and no slot of the frame
    is at the displacement the pass uses for "every slot". *)
Definition distinctPcs : Prop := forall i j m m',
  buf !! i = Some m -> buf !! j = Some m' -> hasPc m = true -> pc m = pc m' -> i = j.
Definition realSlots : Prop := forall i m,
  buf !! i = Some m -> disp m <> kAllSlotsLive /\
  forall p, params m = Some p -> resultDisp p <> kAllSlotsLive.

Context (Hpcs : distinctPcs) (Hslots : realSlots).

#[local] Abbreviation targets := (jumpTargets buf).
Definition livenessAt (i : nat) : Liveness := (eliminateFrom targets (drop i buf)).1.
#[local] Abbreviation liveAt i := (liveSlots (livenessAt i)).

Lemma livenessAt_step i m :
  buf !! i = Some m ->
  let l := livenessAt (S i) in
  let live := (transfer (targetLiveness l) m (liveSlots l)).1 in
  livenessAt i = mkLiveness live
    (if isTarget targets m then <[pc m := live]> (targetLiveness l) else targetLiveness l).
Proof.
  intros Hm. unfold livenessAt. rewrite (drop_S _ _ _ Hm). simpl.
  destruct (eliminateFrom _ (drop (S i) buf)) as [l rest]. simpl.
  destruct (transfer (targetLiveness l) m (liveSlots l)) as [live dead]. by destruct dead.
Qed.

Lemma eliminated_at l i m :
  l !! i = Some m ->
  (eliminateFrom targets l).2 !! i =
    Some (let r := (eliminateFrom targets (drop (S i) l)).1 in
          if (transfer (targetLiveness r) m (liveSlots r)).2 then setOp Nop m else m).
Proof.
  revert i. induction l as [|m0 l IH]; intros i Hm; [done|]. simpl.
  destruct (eliminateFrom targets l) as [r rest] eqn:Er.
  destruct (transfer _ m0 _) as [live dead] eqn:Et.
  destruct i as [|i]; simpl in *.
  - injection Hm as ->. rewrite drop_0, Er. simpl. by rewrite Et.
  - by rewrite (IH i Hm).
Qed.

Lemma eliminated_pcs l : pc <$> (eliminateFrom targets l).2 = pc <$> l.
Proof.
  induction l as [|m l IH]; [done|]. revert IH. simpl.
  destruct (eliminateFrom targets l) as [r rest]. intros IH.
  destruct (transfer _ m _) as [live dead]. cbn [snd] in *. rewrite !fmap_cons, IH. by destruct dead.
Qed.

(** What is known of a jump target is the liveness where the jump lands. *)
Lemma targetLiveness_at i t l :
  targetLiveness (livenessAt i) !! t = Some l ->
  exists j m, buf !! j = Some m /\ hasPc m = true /\ pc m = t /\ l = liveAt j.
Proof.
  remember (length buf - i) as n eqn:Hn. revert i Hn. induction n as [|n IH]; intros i Hn Hl.
  - unfold livenessAt in Hl. rewrite drop_ge in Hl by lia. done.
  - destruct (lookup_lt_is_Some_2 buf i) as [m Hm]; [lia|].
    rewrite (livenessAt_step i m Hm) in Hl. simpl in Hl.
    destruct (isTarget targets m) eqn:Ht; [|apply (IH (S i)); [lia|done]].
    rewrite lookup_insert in Hl. destruct (decide (pc m = t)) as [<-|Hne].
    + injection Hl as <-. exists i, m. unfold isTarget in Ht. apply andb_true_iff in Ht as [? _].
      split_and!; [done..|]. by rewrite (livenessAt_step i m Hm).
    + apply (IH (S i)); [lia|done].
Qed.

Definition covered (live : gset Z) d : Prop := d ∈ live \/ kAllSlotsLive ∈ live.

(** Two states that agree on the slots in [live]. *)
Definition agree (live : gset Z) s s' : Prop :=
  vr s = vr s' /\ ext s = ext s' /\ forall d, covered live d -> fr s !! d = fr s' !! d.

Lemma agree_weaken live live' s s' :
  (forall d, covered live' d -> covered live d) -> agree live s s' -> agree live' s s'.
Proof. intros Hc (? & ? & Hd). split_and!; auto. Qed.

Lemma agree_all live s s' : kAllSlotsLive ∈ live -> agree live s s' -> s = s'.
Proof.
  intros Hall (Hv & He & Hf). destruct s as [v f e], s' as [v' f' e']; simpl in *; subst.
  f_equal. apply map_eq. intros d. apply Hf. by right.
Qed.

Lemma agree_slot live s s' d : agree live s s' -> d ∈ live -> slot s d = slot s' d.
Proof. intros (_ & _ & Hf) Hd. unfold slot. rewrite Hf; [done|by left]. Qed.

Lemma agree_vreg live s s' v : agree live s s' -> vreg s v = vreg s' v.
Proof. intros (Hv & _ & _). unfold vreg. by rewrite Hv. Qed.

Lemma agree_setVreg live s s' v x : agree live s s' -> agree live (setVreg v x s) (setVreg v x s').
Proof. intros (Hv & He & Hf). unfold setVreg. split_and!; simpl; [by rewrite Hv|done|done]. Qed.

Lemma agree_setDefined live s s' m x :
  agree live s s' -> agree live (setDefined m x s) (setDefined m x s').
Proof. intros Ha. unfold setDefined. destruct (defines m); [by apply agree_setVreg|done]. Qed.

Lemma agree_setExt live s s' e : agree live s s' -> agree live (setExt e s) (setExt e s').
Proof. intros (Hv & He & Hf). split_and!; done. Qed.

Lemma agree_setSlot live s s' d x :
  d <> kAllSlotsLive -> agree (live ∖ {[d]}) s s' -> agree live (setSlot d x s) (setSlot d x s').
Proof.
  intros Hd (Hv & He & Hf). split_and!; [done|done|]. intros d' Hc. simpl.
  rewrite !lookup_insert. case_decide; [done|]. apply Hf.
  destruct Hc; [left|right]; set_solver.
Qed.

(** A store that is dead after it may be left out. *)
Lemma agree_dead live s s' d x :
  ~ covered live d -> agree live s s' -> agree live (setSlot d x s) s'.
Proof.
  intros Hd (Hv & He & Hf). split_and!; [done|done|]. intros d' Hc. simpl.
  rewrite lookup_insert_ne; [by apply Hf|]. by intros ->.
Qed.

Lemma covered_union (live l : gset Z) d : covered live d -> covered (live ∪ l) d.
Proof. intros [?|?]; [left|right]; set_solver. Qed.

(** The slots a native call reads are live before it. *)
Lemma native_args (ps : list CallArg) (live : gset Z) :
  let live' := foldl (fun live a => if (argVreg a =? kInvalidVReg)%Z && negb (isImm a)
                 then {[ srcDisp a ]} ∪ live else live) live ps in
  (forall d, d ∈ live -> d ∈ live') /\
  (forall a, a ∈ ps -> argVreg a = kInvalidVReg -> isImm a = false -> srcDisp a ∈ live').
Proof.
  revert live. induction ps as [|a ps IH]; intros live; simpl; [split; [done|by intros ? ?%elem_of_nil]|].
  destruct (IH (if (argVreg a =? kInvalidVReg)%Z && negb (isImm a) then {[ srcDisp a ]} ∪ live else live))
    as [Hsub Harg]. split.
  - intros d Hd. apply Hsub. case_match; set_solver.
  - intros b [->|Hb]%elem_of_cons Hv Hi; [|by apply Harg].
    apply Hsub. rewrite Hv, Hi, Z.eqb_refl. simpl. set_solver.
Qed.

Lemma agree_arguments live s s' (ps : list CallArg) :
  agree live s s' ->
  (forall a, a ∈ ps -> argVreg a = kInvalidVReg -> isImm a = false -> srcDisp a ∈ live) ->
  argument s <$> ps = argument s' <$> ps.
Proof.
  intros Ha Hps. induction ps as [|a ps IH]; [done|]. simpl. f_equal; [|apply IH; intros; apply Hps; set_solver].
  unfold argument. destruct (Z.eqb_spec (argVreg a) kInvalidVReg) as [Ev|Ev]; simpl; [|by eapply agree_vreg].
  destruct (isImm a) eqn:Ei; [done|]. eapply agree_slot; [done|]. apply Hps; [left|..]; done.
Qed.

(** One instruction. *)
Lemma transfer_sound i m s s' :
  buf !! i = Some m -> agree (liveAt i) s s' ->
  sameEffect (agree (liveAt (S i)))
    (fun t s s' => forall j, landing buf t = Some j -> agree (liveAt j) s s')
    (step hw m s)
    (step hw (if (transfer (targetLiveness (livenessAt (S i))) m (liveAt (S i))).2
              then setOp Nop m else m) s').
Proof.
  intros Hm Ha. destruct (Hslots i m Hm) as [Hd Hp].
  pose proof (livenessAt_step i m Hm) as Hli. simpl in Hli. rewrite Hli in Ha. simpl in Ha. clear Hli.
  set (live := liveAt (S i)) in *. set (tl := targetLiveness (livenessAt (S i))) in *.
  pose proof Ha as (Hv & He & _).
  unfold transfer in *. unfold step at 1.
  rewrite ?readsFrameSlot_kind, ?writesFrameSlot_kind in *.
  destruct (kind (op m)) eqn:Ek; simpl in *; unfold step; rewrite ?Ek; simpl.
  - by constructor.
  - rewrite He. constructor.
  - rewrite He, (agree_vreg _ _ _ _ Ha). constructor.
  - rewrite <- He. destruct (negb conditional || taken hw (op m) (ext s)); constructor.
    + intros j Hj. apply landing_Some in Hj as (mj & Hmj & Hpc & Ht).
      destruct (tl !! imm32 m) as [l|] eqn:Htl.
      * apply targetLiveness_at in Htl as (k & mk & Hk & Hpk & Hpcm & ->).
        rewrite (Hpcs j k mj mk Hmj Hk Hpc) by congruence.
        eapply agree_weaken; [|exact Ha]. intros d [?|?]; [left|right]; set_solver.
      * eapply agree_weaken; [|exact Ha]. intros d _. right. set_solver.
    + eapply agree_weaken; [|exact Ha]. intros d. apply covered_union.
  - rewrite <- He, (agree_slot _ _ _ (disp m) Ha) by set_solver. constructor.
    apply agree_setExt. eapply agree_weaken; [|exact Ha]. intros d [?|?]; [left|right]; set_solver.
  - rewrite <- He. destruct (pop hw (ext s)) as [x e]. constructor.
    by apply agree_setExt, agree_setSlot.
  - destruct (params m) as [p|] eqn:Ep; [|by constructor].
    specialize (Hp p eq_refl).
    destruct (native_args (args p) (if (resultVReg p =? kInvalidVReg)%Z then live ∖ {[resultDisp p]} else live))
      as [Hsub Harg].
    rewrite <- (agree_arguments _ s s' (args p) Ha Harg), <- He.
    destruct (native hw m _ (ext s)) as [[x e]|]; [|constructor].
    constructor. apply agree_setExt.
    assert (Hw : agree (if (resultVReg p =? kInvalidVReg)%Z then live ∖ {[resultDisp p]} else live) s s').
    { eapply agree_weaken; [|exact Ha]. intros d [?|?]; [left|right]; auto. }
    destruct (resultVReg p =? kInvalidVReg)%Z; [by apply agree_setSlot|by apply agree_setDefined].
  - apply agree_all in Ha as ->; [|set_solver].
    destruct (opaque hw m s') as [s1|]; constructor. by split_and!.
  - rewrite (agree_slot _ _ _ (disp m) Ha) by set_solver. constructor. apply agree_setDefined.
    eapply agree_weaken; [|exact Ha]. intros d [?|?]; [left|right]; set_solver.
  - rewrite (agree_slot _ _ _ (disp m) Ha) by set_solver. constructor. apply agree_setDefined.
    eapply agree_weaken; [|exact Ha]. intros d [?|?]; [left|right]; set_solver.
  - case_bool_decide as Hdead; simpl in *.
    + constructor. apply agree_dead; [unfold covered; tauto|done].
    + rewrite Ek, (agree_vreg _ _ _ _ Ha). constructor. by apply agree_setSlot.
  - case_bool_decide as Hdead; simpl in *.
    + constructor. apply agree_dead; [unfold covered; tauto|done].
    + rewrite Ek, (agree_vreg _ _ _ _ Ha). constructor. by apply agree_setSlot.
  - rewrite (agree_vreg _ _ _ _ Ha). constructor. by apply agree_setDefined.
  - rewrite <- Hv, <- He. destruct (exec hw m (vr s) (ext s)) as [[x e]|]; constructor.
    by apply agree_setExt, agree_setDefined.
  - rewrite <- Hv, <- He. destruct (exec hw m (vr s) (ext s)) as [[x e]|]; constructor.
    by apply agree_setExt, agree_setDefined.
Qed.

Lemma eliminate_sound fuel i s s' :
  agree (liveAt i) s s' ->
  sameOutcome (run hw fuel buf i s) (run hw fuel (eliminateDeadFrameStores buf) i s').
Proof.
  apply (lockstep hw buf _ (fun i => agree (liveAt i))).
  - intros t. apply landing_ext. symmetry. apply eliminated_pcs.
  - rewrite <- !(length_fmap pc). unfold eliminateDeadFrameStores. by rewrite eliminated_pcs.
  - intros j m m' s1 s1' Hm Hm' Ha. unfold eliminateDeadFrameStores in Hm'.
    rewrite (eliminated_at buf j m Hm) in Hm'. injection Hm' as <-. by apply transfer_sound.
Qed.

Lemma agree_refl live s : agree live s s.
Proof. by split_and!. Qed.
End deadStores.

(** * Forwarding of frame stores is sound

    The peephole pass turns the reload of a slot that was just stored into a copy, and removes a
    store that is overwritten before anything can read it. Between a removed store and the one
    that overwrites it two executions may differ in that slot; at every other point they
    agree. *)

Section peephole.
Context {E : Type} (hw : @Hardware E).
Context (buf : list Mir) (forwardStores : bool).
Implicit Types (s : @State E) (m : Mir) (d v t : Z) (i j k : nat) (P : gmap Z StoreInfo).

#[local] Abbreviation targets := (jumpTargets buf).
#[local] Abbreviation stepAt := (peepholeStep targets forwardStores).

(** ** What the pass knows before an instruction *)

Fixpoint pendingAt i : gmap Z StoreInfo :=
  match i with
  | O => ∅
  | S i => match buf !! i with
           | Some m => (stepAt i m (pendingAt i)).1.1
           | None => pendingAt i
           end
  end.

(** The stores it still knows of at the instruction itself: none at a jump target. *)
Definition knownAt i m : gmap Z StoreInfo := if isTarget targets m then ∅ else pendingAt i.

(** The store that instruction [i] makes dead. *)
Definition deadAt i : option nat :=
  match buf !! i with Some m => (stepAt i m (pendingAt i)).2 | None => None end.

(** What instruction [i] becomes when it is not removed. *)
Definition newAt i m : Mir := (stepAt i m (pendingAt i)).1.2.

Definition isStore k d v : Prop :=
  exists m, buf !! k = Some m /\ kind (op m) = KIntStore /\ disp m = d /\ r0 m = v.

(** The cases of a step. *)
Lemma step_cases i m P :
  let Q := if isTarget targets m then ∅ else P in
  let '(P', m', dead) := stepAt i m P in
  (kind (op m) = KIntStore /\ P' = <[disp m := mkStore (r0 m) i false]> Q /\ m' = m /\
     dead = match Q !! disp m with Some it => if negb (sRead it) then Some (sIndex it) else None | None => None end) \/
  (kind (op m) = KFloatStore /\ P' = delete (disp m) Q /\ m' = m /\ dead = None) \/
  (readsFrameSlot (op m) = true /\ (exists it, Q !! disp m = Some it /\
     P' = <[disp m := mkStore (sVreg it) (sIndex it) true]> Q /\ dead = None /\
     m' = if forwardStores && match kind (op m) with KIntLoad => true | _ => false end
          then mkMir VCopy (r0 m) (sVreg it) 0 (imm32 m) (imm64 m) (pc m) (params m) else m)) \/
  (isBarrierOp (op m) = true /\ P' = ∅ /\ m' = m /\ dead = None) \/
  (isBarrierOp (op m) = false /\ writesFrameSlot (op m) = false /\
     (readsFrameSlot (op m) = true -> Q !! disp m = None) /\ P' = Q /\ m' = m /\ dead = None).
Proof.
  unfold peepholeStep. rewrite isBarrierOp_kind, readsFrameSlot_kind, writesFrameSlot_kind.
  destruct (kind (op m)) eqn:Ek; simpl; try (by naive_solver);
    destruct ((if isTarget targets m then ∅ else P) !! disp m) as [it|] eqn:EQ;
    destruct forwardStores; naive_solver.
Qed.

(** A pending store is an integer store before it. *)
Lemma pending_store i d it :
  pendingAt i !! d = Some it -> sIndex it < i /\ isStore (sIndex it) d (sVreg it).
Proof.
  revert d it. induction i as [|i IH]; intros d it; simpl; [done|].
  destruct (buf !! i) as [m|] eqn:Hm.
  2:{ intros Hit. destruct (IH d it Hit). split; [lia|done]. }
  assert (HQ : forall d it, (if isTarget targets m then ∅ else pendingAt i) !! d = Some it ->
    sIndex it < S i /\ isStore (sIndex it) d (sVreg it)).
  { intros d' it' Hit. destruct (isTarget targets m); [done|].
    destruct (IH d' it' Hit). split; [lia|done]. }
  pose proof (step_cases i m (pendingAt i)) as Hc.
  destruct (stepAt i m (pendingAt i)) as [[P' m'] dead]. simpl in *.
  destruct Hc as [(Hk & -> & _ & _)|[(_ & -> & _ & _)|[(_ & it' & Hit' & -> & _ & _)|
    [(_ & -> & _ & _)|(_ & _ & _ & -> & _ & _)]]]].
  - rewrite lookup_insert. case_decide; [|apply HQ]. intros [= <-]. simpl. split; [lia|].
    exists m. by subst.
  - rewrite lookup_delete. case_decide; [done|apply HQ].
  - rewrite lookup_insert. case_decide; [|apply HQ]. intros [= <-]. subst. by apply HQ in Hit'.
  - done.
  - apply HQ.
Qed.

Lemma known_pending i m d it : knownAt i m !! d = Some it -> pendingAt i !! d = Some it.
Proof. unfold knownAt. by destruct (isTarget targets m). Qed.

(** *** A store that will be removed stays known until it is overwritten *)

Lemma step_back i m d v k :
  buf !! i = Some m -> k <> i -> pendingAt (S i) !! d = Some (mkStore v k false) ->
  knownAt i m !! d = Some (mkStore v k false) /\ isBarrierOp (op m) = false /\
  ((readsFrameSlot (op m) = true \/ writesFrameSlot (op m) = true) -> disp m <> d).
Proof.
  intros Hm Hk. simpl. rewrite Hm. pose proof (step_cases i m (pendingAt i)) as Hc.
  fold (knownAt i m) in Hc.
  destruct (stepAt i m (pendingAt i)) as [[P' m'] dead]. simpl in *.
  rewrite isBarrierOp_kind, readsFrameSlot_kind, writesFrameSlot_kind in *.
  destruct Hc as [(Ek & -> & _ & _)|[(Ek & -> & _ & _)|[(Er & it' & Hit' & -> & _ & _)|
    [(_ & -> & _ & _)|(Eb & Ew & Er & -> & _ & _)]]]].
  - rewrite lookup_insert. case_decide; [by intros [= ? ? ]|]. rewrite Ek. naive_solver.
  - rewrite lookup_delete. case_decide; [done|]. rewrite Ek. naive_solver.
  - rewrite lookup_insert. case_decide; [by intros [= ?]|].
    destruct (kind (op m)); try done; naive_solver.
  - done.
  - intros Hd. split_and!; [done|done|]. intros [Hr|Hw]; [|by rewrite Hw in Ew].
    intros <-. rewrite (Er Hr) in Hd. done.
Qed.

Lemma dead_known i k :
  deadAt i = Some k ->
  exists m v, buf !! i = Some m /\ kind (op m) = KIntStore /\
    knownAt i m !! disp m = Some (mkStore v k false).
Proof.
  unfold deadAt. destruct (buf !! i) as [m|] eqn:Hm; [|done].
  pose proof (step_cases i m (pendingAt i)) as Hc. fold (knownAt i m) in Hc.
  destruct (stepAt i m (pendingAt i)) as [[P' m'] dead]. simpl in *.
  destruct Hc as [(Ek & _ & _ & ->)|[(_ & _ & _ & ->)|[(_ & it' & _ & _ & -> & _)|
    [(_ & _ & _ & ->)|(_ & _ & _ & _ & _ & ->)]]]]; try done.
  intros Hd. exists m. destruct (knownAt i m !! disp m) as [[v k' r]|] eqn:EQ; [|done].
  destruct r; simpl in Hd; [done|]. injection Hd as ->. by exists v.
Qed.

Lemma dead_before i k : deadAt i = Some k -> k < i.
Proof.
  intros Hd. apply dead_known in Hd as (m & v & _ & _ & Hd).
  by apply known_pending, pending_store in Hd as [? _].
Qed.

Lemma dead_future i j k m :
  k < i <= j -> deadAt j = Some k -> buf !! i = Some m ->
  exists d v, knownAt i m !! d = Some (mkStore v k false).
Proof.
  intros Hkij Hd Hm. remember (j - i) as n eqn:Hn. revert i m Hm Hkij Hn.
  induction n as [|n IH]; intros i m Hm Hkij Hn.
  - assert (i = j) as -> by lia. apply dead_known in Hd as (m' & v & Hm' & _ & Hd).
    simplify_eq. by eauto.
  - assert (Hj : j < length buf).
    { apply dead_known in Hd as (m' & v & Hm' & _). by eapply lookup_lt_Some. }
    destruct (lookup_lt_is_Some_2 buf (S i)) as [m' Hm']; [lia|].
    destruct (IH (S i) m' Hm') as (d & v & Hk); [lia..|].
    apply known_pending in Hk. exists d, v. destruct (step_back i m d v k Hm) as [? _]; [lia|exact Hk|done].
Qed.

(** Before instruction [i], the stores that are still to be removed. *)
Definition doomed i k : Prop := k < i /\ exists j, i <= j /\ deadAt j = Some k.

(** At instruction [i], a store to [d] that is still to be removed is removed now, by a store
    to [d], or later, and [i] has nothing to do with [d]. *)
Lemma doomed_step i m k d v :
  doomed i k -> isStore k d v -> buf !! i = Some m ->
  isTarget targets m = false /\ isBarrierOp (op m) = false /\
  ((kind (op m) = KIntStore /\ disp m = d) \/
   (doomed (S i) k /\ ((readsFrameSlot (op m) = true \/ writesFrameSlot (op m) = true) -> disp m <> d))).
Proof.
  intros (Hk & j & Hij & Hj) (mk & Hmk & _ & Hdk & _) Hm.
  destruct (dead_future i j k m) as (d' & v' & Hkn); [lia|done|done|].
  split.
  { unfold knownAt in Hkn. by destruct (isTarget targets m). }
  destruct (decide (i = j)) as [->|Hne].
  - apply dead_known in Hj as (m' & w & Hm' & Ek & Hd). simplify_eq.
    rewrite isBarrierOp_kind, Ek. split; [done|left]. split; [done|].
    apply known_pending, pending_store in Hd as [_ (m'' & Hm'' & _ & Hd & _)].
    simpl in *. simplify_eq. done.
  - assert (Hjl : j < length buf).
    { apply dead_known in Hj as (m' & w & Hm' & _). by eapply lookup_lt_Some. }
    destruct (lookup_lt_is_Some_2 buf (S i)) as [m' Hm']; [lia|].
    destruct (dead_future (S i) j k m') as (d2 & v2 & Hkn2); [lia|done|done|].
    apply known_pending in Hkn2. pose proof Hkn2 as Hst.
    apply pending_store in Hst as [_ (m'' & Hm'' & _ & Hd & _)]. simpl in Hm''. simplify_eq.
    apply (step_back i m _ v2 k) in Hkn2 as (_ & Hb & Hrw); [|done|lia].
    split; [done|right]. split; [|done]. split; [lia|]. exists j. split; [lia|done].
Qed.

(** ** The buffer the pass leaves *)

Definition removedBy n : list nat := omap deadAt (seq 0 n).

Lemma removedBy_S n : removedBy (S n) = removedBy n ++ match deadAt n with Some k => [k] | None => [] end.
Proof. unfold removedBy. rewrite seq_S, omap_app. simpl. by destruct (deadAt n). Qed.

Lemma removedBy_elem n k : k ∈ removedBy n <-> exists j, j < n /\ deadAt j = Some k.
Proof.
  unfold removedBy. rewrite list_elem_of_omap. split.
  - intros (j & Hj%elem_of_seq & Hd). exists j. split; [lia|done].
  - intros (j & Hj & Hd). exists j. split; [apply elem_of_seq; lia|done].
Qed.

Definition finalAt n i m : Mir :=
  let m' := if decide (i < n) then newAt i m else m in
  if decide (i ∈ removedBy n) then setOp Nop m' else m'.

Lemma peephole_prefix n :
  n <= length buf ->
  foldl (peepholeAt targets forwardStores) (buf, ∅) (seq 0 n) =
    (imap (finalAt n) buf, pendingAt n).
Proof.
  induction n as [|n IH]; intros Hn.
  - simpl. f_equal. apply list_eq. intros i. rewrite list_lookup_imap.
    unfold finalAt. by destruct (buf !! i).
  - rewrite seq_S, foldl_app, IH by lia. simpl.
    destruct (lookup_lt_is_Some_2 buf n) as [m Hm]; [lia|].
    assert (Hnr : n ∉ removedBy n).
    { rewrite removedBy_elem. intros (j & Hj & Hd%dead_before). lia. }
    assert (Hcur : imap (finalAt n) buf !! n = Some m).
    { rewrite list_lookup_imap, Hm. simpl. f_equal. unfold finalAt.
      rewrite (decide_False (P := n ∈ _)) by done. by rewrite decide_False by lia. }
    rewrite Hcur, Hm.
    pose proof (removedBy_S n) as Hrem. unfold deadAt in Hrem. rewrite Hm in Hrem.
    assert (Hnew : newAt n m = (stepAt n m (pendingAt n)).1.2) by done.
    assert (Hdb : forall k, (stepAt n m (pendingAt n)).2 = Some k -> k < n).
    { intros k Hk. apply dead_before. unfold deadAt. by rewrite Hm. }
    destruct (stepAt n m (pendingAt n)) as [[P' m'] dead]. simpl in *. f_equal.
    apply list_eq. intros i. rewrite list_lookup_imap.
    assert (Hins : (<[n := m']> (imap (finalAt n) buf)) !! i =
      (fun x => if decide (i = n) then m' else finalAt n i x) <$> buf !! i).
    { rewrite list_lookup_insert. rewrite length_imap. rewrite list_lookup_imap.
      destruct (decide (i = n)) as [->|Hne].
      - rewrite decide_True by (split; [done|lia]). by rewrite Hm.
      - rewrite decide_False by (by intros [-> _]). done. }
    assert (Hbase : forall x, buf !! i = Some x ->
      (if decide (i = n) then m' else finalAt n i x) =
      (let b := if decide (i < S n) then newAt i x else x in
       if decide (i ∈ removedBy n) then setOp Nop b else b)).
    { intros x Hx. destruct (decide (i = n)) as [->|Hne].
      - rewrite (decide_False (P := n ∈ _)), (decide_True (P := n < S n)) by (done || lia). simplify_eq. done.
      - unfold finalAt. destruct (decide (i < n)), (decide (i < S n)); try lia; done. }
    destruct (buf !! i) as [x|] eqn:Hx; simpl in Hins |- *.
    2:{ destruct dead as [k|]; rewrite ?list_lookup_alter; [|done].
        destruct (decide (k = i)) as [->|]; by rewrite Hins. }
    rewrite (Hbase x eq_refl) in Hins.
    assert (Hfin : finalAt (S n) i x = let b := if decide (i < S n) then newAt i x else x in
      if decide (i ∈ removedBy (S n)) then setOp Nop b else b) by done.
    rewrite Hfin, Hrem. clear Hfin.
    destruct dead as [k|]; [rewrite list_lookup_alter|by rewrite app_nil_r].
    destruct (decide (k = i)) as [->|Hki]; rewrite Hins; simpl; f_equal.
    + rewrite (decide_True (P := i ∈ removedBy n ++ [i])) by set_solver.
      by destruct (decide (i ∈ removedBy n)).
    + destruct (decide (i ∈ removedBy n)) as [Hi|Hi].
      * by rewrite (decide_True (P := i ∈ removedBy n ++ [k])) by set_solver.
      * by rewrite (decide_False (P := i ∈ removedBy n ++ [k])) by set_solver.
Qed.

Lemma newAt_cases i m :
  newAt i m = m \/
  (forwardStores = true /\ kind (op m) = KIntLoad /\ exists it, knownAt i m !! disp m = Some it /\
    newAt i m = mkMir VCopy (r0 m) (sVreg it) 0 (imm32 m) (imm64 m) (pc m) (params m)).
Proof.
  unfold newAt. pose proof (step_cases i m (pendingAt i)) as Hc. fold (knownAt i m) in Hc.
  destruct (stepAt i m (pendingAt i)) as [[P' m'] dead]. simpl in *.
  destruct Hc as [(_ & _ & -> & _)|[(_ & _ & -> & _)|[(_ & it & Hit & _ & _ & ->)|
    [(_ & _ & -> & _)|(_ & _ & _ & _ & -> & _)]]]]; auto.
  destruct forwardStores; simpl; [|by left].
  destruct (kind (op m)) eqn:Ek; try (by left). right. by eauto.
Qed.

Lemma removed_store k m : k ∈ removedBy (length buf) -> buf !! k = Some m -> kind (op m) = KIntStore.
Proof.
  intros (j & _ & Hd)%removedBy_elem Hm. apply dead_known in Hd as (mj & v & _ & _ & Hk).
  apply known_pending, pending_store in Hk as [_ (m' & Hm' & Hk & _)]. simpl in *. by simplify_eq.
Qed.

Lemma newAt_pc i m : pc (newAt i m) = pc m.
Proof. by destruct (newAt_cases i m) as [->|(_ & _ & it & _ & ->)]. Qed.

Lemma optimizePeephole_at i m :
  buf !! i = Some m ->
  optimizePeephole buf forwardStores !! i =
    Some (if decide (i ∈ removedBy (length buf)) then setOp Nop m else newAt i m).
Proof.
  intros Hm. unfold optimizePeephole. rewrite peephole_prefix by done. simpl.
  rewrite list_lookup_imap, Hm. simpl. f_equal. unfold finalAt.
  rewrite (decide_True (P := i < length buf)) by (by eapply lookup_lt_Some). destruct (decide _) as [Hr|]; [|done].
  destruct (newAt_cases i m) as [->|(_ & Hk & _)]; [done|].
  rewrite (removed_store _ _ Hr Hm) in Hk. done.
Qed.

Lemma optimizePeephole_pcs : pc <$> optimizePeephole buf forwardStores = pc <$> buf.
Proof.
  apply list_eq. intros i. rewrite !list_lookup_fmap.
  destruct (buf !! i) as [m|] eqn:Hm.
  - rewrite (optimizePeephole_at i m Hm). simpl. f_equal. case_decide; [done|apply newAt_pc].
  - unfold optimizePeephole. rewrite peephole_prefix by done. simpl.
    by rewrite list_lookup_imap, Hm.
Qed.

(** ** Simulation *)

(** A virtual register that was stored is not defined again: the builder gives every value a
    virtual register of its own. The pass needs it to forward stores. *)
Definition storedOnce : Prop := forall k i m d v,
  k < i -> isStore k d v -> buf !! i = Some m -> defines m <> Some v.

Context (Hssa : forwardStores = true -> storedOnce).

(** What the pass knows is true. *)
Definition knows i s : Prop := forwardStores = true -> forall m d it,
  buf !! i = Some m -> knownAt i m !! d = Some it -> slot s d = vreg s (sVreg it).

(** The frames differ only in slots whose store is still to be overwritten. *)
Definition framesAt i s s' : Prop := forall d,
  fr s !! d = fr s' !! d \/ exists k v, isStore k d v /\ doomed i k.

Definition related i s s' : Prop := vr s = vr s' /\ ext s = ext s' /\ knows i s /\ framesAt i s s'.

Lemma slot_setSlot s d x d' : slot (setSlot d x s) d' = if decide (d = d') then x else slot s d'.
Proof. unfold slot, setSlot. simpl. rewrite lookup_insert. by case_decide. Qed.

Lemma knows_next i m s s1 :
  buf !! i = Some m -> knows i s ->
  isBarrierOp (op m) = true \/
  (writesFrameSlot (op m) = true /\ s1 = setSlot (disp m) (vreg s (r0 m)) s) \/
  (writesFrameSlot (op m) = false /\ fr s1 = fr s /\
     forall v, defines m <> Some v -> vreg s1 v = vreg s v) ->
  knows (S i) s1.
Proof.
  intros Hm Hk Hs1 Hfw m1 d it Hm1 Hit. specialize (Hk Hfw). apply known_pending in Hit. simpl in Hit.
  rewrite Hm in Hit. pose proof (step_cases i m (pendingAt i)) as Hc. fold (knownAt i m) in Hc.
  destruct (stepAt i m (pendingAt i)) as [[P' m'] dead]. simpl in *.
  assert (Hkeep : forall it', knownAt i m !! d = Some it' -> fr s1 !! d = fr s !! d ->
    (forall v, defines m <> Some v -> vreg s1 v = vreg s v) -> slot s1 d = vreg s1 (sVreg it')).
  { intros it' Hit' Hf Hv. rewrite Hv.
    - rewrite <- (Hk m d it' Hm Hit'). unfold slot. by rewrite Hf.
    - apply known_pending, pending_store in Hit' as [Hlt Hst]. by eapply (Hssa Hfw). }
  rewrite isBarrierOp_kind, readsFrameSlot_kind, writesFrameSlot_kind in *.
  destruct Hc as [(Ek & -> & _ & _)|[(Ek & -> & _ & _)|[(Er & it' & Hit' & -> & _ & _)|
    [(_ & -> & _ & _)|(Eb & Ew & Er & -> & _ & _)]]]].
  - rewrite Ek in Hs1. destruct Hs1 as [?|[[_ ->]|[? _]]]; try done. rewrite slot_setSlot.
    rewrite lookup_insert in Hit. case_decide as Hd; [by injection Hit as <-|by apply (Hk m)].
  - rewrite Ek in Hs1. destruct Hs1 as [?|[[_ ->]|[? _]]]; try done. rewrite slot_setSlot.
    rewrite lookup_delete in Hit. case_decide as Hd; [done|]. by apply (Hk m).
  - destruct Hs1 as [Hb|[[Hw _]|(_ & Hf & Hv)]]; try (by destruct (kind (op m))).
    rewrite lookup_insert in Hit. case_decide as Hd; [|by apply Hkeep; [|rewrite Hf|]].
    subst d. injection Hit as <-. simpl. by apply (Hkeep it'); [|rewrite Hf|].
  - done.
  - destruct Hs1 as [Hb|[[Hw _]|(_ & Hf & Hv)]]; try (by rewrite ?Hb, ?Hw in *).
    by apply Hkeep; [|rewrite Hf|].
Qed.

(** The frames agree where control may go elsewhere, or anything may be read. *)
Lemma related_same i m s s' :
  buf !! i = Some m -> related i s s' -> isBarrierOp (op m) = true \/ isTarget targets m = true -> s = s'.
Proof.
  intros Hm (Hv & He & _ & Hf) Hbt. destruct s as [v f e], s' as [v' f' e']; simpl in *; subst.
  f_equal. apply map_eq. intros d. destruct (Hf d) as [?|(k & v & Hst & Hd)]; [done|].
  destruct (doomed_step i m k d v Hd Hst Hm) as (Ht & Hb & _). rewrite Ht, Hb in Hbt. by destruct Hbt.
Qed.

Lemma related_refl i m s : buf !! i = Some m -> isTarget targets m = true -> related i s s.
Proof.
  intros Hm Ht. split_and!; [done|done| |by left].
  intros _ m' d it Hm' Hit. simplify_eq. unfold knownAt in Hit. by rewrite Ht in Hit.
Qed.

(** After a barrier nothing is pending. *)
Lemma related_barrier i m s : buf !! i = Some m -> isBarrierOp (op m) = true -> related (S i) s s.
Proof.
  intros Hm Hb. split_and!; [done|done| |by left].
  intros _ m' d it Hm' Hit. apply known_pending in Hit. simpl in Hit. rewrite Hm in Hit.
  unfold peepholeStep in Hit. rewrite Hb in Hit.
  rewrite isBarrierOp_kind in Hb. by destruct (kind (op m)).
Qed.

(** An instruction that does not write the frame. *)
Lemma frames_keep i m s s' s1 s1' :
  buf !! i = Some m -> framesAt i s s' -> writesFrameSlot (op m) = false ->
  fr s1 = fr s -> fr s1' = fr s' -> framesAt (S i) s1 s1'.
Proof.
  intros Hm Hf Hw E1 E2 d. rewrite E1, E2. destruct (Hf d) as [?|(k & v & Hst & Hd)]; [by left|right].
  exists k, v. split; [done|].
  destruct (doomed_step i m k d v Hd Hst Hm) as (_ & _ & [[Hk _]|[? _]]); [|done].
  rewrite writesFrameSlot_kind, Hk in Hw. done.
Qed.

Lemma frames_store i m s s' x :
  buf !! i = Some m -> framesAt i s s' -> writesFrameSlot (op m) = true ->
  framesAt (S i) (setSlot (disp m) x s) (setSlot (disp m) x s') /\
  (i ∈ removedBy (length buf) -> framesAt (S i) (setSlot (disp m) x s) s').
Proof.
  intros Hm Hf Hw.
  assert (Hother : forall d, disp m <> d -> fr s !! d = fr s' !! d \/ exists k v, isStore k d v /\ doomed (S i) k).
  { intros d Hd. destruct (Hf d) as [?|(k & v & Hst & Hdm)]; [by left|right]. exists k, v. split; [done|].
    by destruct (doomed_step i m k d v Hdm Hst Hm) as (_ & _ & [[_ ?]|[? _]]). }
  split; [|intros Hr]; intros d; simpl; rewrite !lookup_insert;
    destruct (decide (disp m = d)) as [Hd|Hd]; auto.
  right. exists i, (r0 m). split.
  - exists m. split_and!; [done|by eapply removed_store|done|done].
  - apply removedBy_elem in Hr as (j & _ & Hj). split; [lia|]. exists j. split; [|done].
    apply dead_before in Hj. lia.
Qed.

Lemma related_slot i m s s' :
  buf !! i = Some m -> related i s s' -> readsFrameSlot (op m) = true -> slot s (disp m) = slot s' (disp m).
Proof.
  intros Hm (_ & _ & _ & Hf) Hr. unfold slot. destruct (Hf (disp m)) as [->|(k & v & Hst & Hd)]; [done|].
  destruct (doomed_step i m k _ v Hd Hst Hm) as (_ & _ & [[Hk _]|[_ Hne]]).
  - rewrite readsFrameSlot_kind, Hk in Hr. done.
  - destruct Hne; auto.
Qed.

Lemma setDefined_fr m x s : fr (setDefined m x s) = fr s.
Proof. unfold setDefined. by destruct (defines m). Qed.

Lemma setDefined_vreg m x s v : defines m <> Some v -> vreg (setDefined m x s) v = vreg s v.
Proof.
  unfold setDefined. destruct (defines m) as [w|]; [|done]. intros Hne. unfold vreg. simpl.
  rewrite lookup_insert_ne; [done|congruence].
Qed.

Lemma related_setExt i s s' e : related i s s' -> related i (setExt e s) (setExt e s').
Proof. intros (Hv & _ & Hk & Hf). by split_and!. Qed.

Lemma setDefined_ext m x s : ext (setDefined m x s) = ext s.
Proof. unfold setDefined. by destruct (defines m). Qed.

Lemma related_define i m s s' x :
  buf !! i = Some m -> related i s s' -> isBarrierOp (op m) = false -> writesFrameSlot (op m) = false ->
  related (S i) (setDefined m x s) (setDefined m x s').
Proof.
  intros Hm (Hv & He & Hk & Hf) Hb Hw. split_and!.
  - unfold setDefined. destruct (defines m); simpl; [by rewrite Hv|done].
  - by rewrite !setDefined_ext.
  - eapply knows_next; [done|exact Hk|]. right. right. split_and!; [done|apply setDefined_fr|].
    intros v Hd. exact (setDefined_vreg m x s v Hd).
  - eapply frames_keep; [done|exact Hf|done|apply setDefined_fr..].
Qed.

Lemma related_next i m s s' :
  buf !! i = Some m -> related i s s' -> isBarrierOp (op m) = false -> writesFrameSlot (op m) = false ->
  related (S i) s s'.
Proof.
  intros Hm (Hv & He & Hk & Hf) Hb Hw. split_and!; [done|done| |by eapply frames_keep].
  eapply knows_next; [done|exact Hk|]. right. right. split_and!; done.
Qed.

Lemma setDefined_copy m x s v :
  kind (op m) = KIntLoad ->
  setDefined (mkMir VCopy (r0 m) v 0 (imm32 m) (imm64 m) (pc m) (params m)) x s = setDefined m x s.
Proof. unfold setDefined, defines. simpl. destruct (op m); done. Qed.

Lemma peephole_step i m s s' :
  buf !! i = Some m -> related i s s' ->
  sameEffect (related (S i)) (fun t s s' => forall j, landing buf t = Some j -> related j s s')
    (step hw m s)
    (step hw (if decide (i ∈ removedBy (length buf)) then setOp Nop m else newAt i m) s').
Proof.
  intros Hm Hrel. pose proof Hrel as (Hv & He & Hk & Hf).
  assert (Hvreg : forall v, vreg s v = vreg s' v) by (intros v; unfold vreg; by rewrite Hv).
  case_decide as Hrm.
  { pose proof (removed_store _ _ Hrm Hm) as Ek.
    assert (Hw : writesFrameSlot (op m) = true) by (by rewrite writesFrameSlot_kind, Ek).
    unfold step. rewrite Ek. simpl. constructor. split_and!; [done|done| |].
    - eapply knows_next; [done|exact Hk|]. right. by left.
    - by apply (frames_store i m). }
  destruct (newAt_cases i m) as [->|(Hfw & Ek & it & Hit & ->)].
  2:{ assert (Hr : readsFrameSlot (op m) = true) by (by rewrite readsFrameSlot_kind, Ek).
      unfold step at 1. rewrite Ek.
      assert (Ho : op m = VLoadFromFrame) by (by destruct (op m)). rewrite Ho. simpl loaded.
      unfold step. simpl kind. cbv iota. rewrite setDefined_copy by done. simpl r1.
      rewrite (Hk Hfw m _ it Hm Hit), Hvreg. constructor.
      by apply related_define; rewrite ?isBarrierOp_kind, ?writesFrameSlot_kind, ?Ek. }
  destruct (isBarrierOp (op m)) eqn:Hb.
  { pose proof (related_same i m s s' Hm Hrel (or_introl Hb)) as ->.
    destruct (step hw m s') as [s1|t s1|o] eqn:Hst; constructor; [by eapply related_barrier|].
    intros j Hj. apply landing_Some in Hj as (mj & Hmj & Hpc & Ht).
    apply (related_refl j mj); [done|]. unfold isTarget. rewrite Hpc. simpl.
    apply bool_decide_eq_true. unfold jumpTargets. apply elem_of_list_to_set, list_elem_of_fmap.
    exists m. assert (isJumpOp (op m) = true /\ imm32 m = t) as [Hjmp Hi].
    { unfold step in Hst. rewrite isJumpOp_kind.
      destruct (kind (op m)); repeat case_match; by simplify_eq. }
    split; [by subst|]. apply list_elem_of_filter. split; [done|by eapply list_elem_of_lookup_2]. }
  destruct (writesFrameSlot (op m)) eqn:Hw.
  { assert (Hst : forall s, step hw m s = Next (setSlot (disp m) (vreg s (r0 m)) s)).
    { intros s0. rewrite writesFrameSlot_kind in Hw. unfold step. by destruct (kind (op m)). }
    rewrite !Hst, <- Hvreg. constructor. split_and!; [done|done| |].
    - eapply knows_next; [done|exact Hk|]. right. by left.
    - apply (proj1 (frames_store i m s s' _ Hm Hf Hw)). }
  destruct (readsFrameSlot (op m)) eqn:Hr.
  { pose proof (related_slot i m s s' Hm Hrel Hr) as Hsl.
    assert (Hst : forall s, step hw m s = Next (setDefined m (loaded (op m) (slot s (disp m))) s)).
    { intros s0. rewrite readsFrameSlot_kind in Hr. unfold step. by destruct (kind (op m)). }
    rewrite !Hst, <- Hsl. constructor.
    by apply related_define. }
  pose proof Hb as Hb'. pose proof Hw as Hw'.
  rewrite isBarrierOp_kind in Hb'. rewrite writesFrameSlot_kind in Hw'. rewrite readsFrameSlot_kind in Hr.
  unfold step. destruct (kind (op m)) eqn:Ek; try done.
  - constructor. by eapply related_next.
  - rewrite Hvreg, He. constructor.
  - rewrite Hvreg. constructor. by apply related_define.
  - rewrite Hv, He. destruct (exec hw m (vr s') (ext s')) as [[x e]|]; constructor.
    by apply related_setExt, related_define.
Qed.

Lemma peephole_sound fuel i s s' :
  related i s s' ->
  sameOutcome (run hw fuel buf i s) (run hw fuel (optimizePeephole buf forwardStores) i s').
Proof.
  apply (lockstep hw buf _ related).
  - intros t. apply landing_ext. symmetry. apply optimizePeephole_pcs.
  - rewrite <- !(length_fmap pc). by rewrite optimizePeephole_pcs.
  - intros j m m' s1 s1' Hm Hm' Hrel. rewrite (optimizePeephole_at j m Hm) in Hm'.
    injection Hm' as <-. by apply peephole_step.
Qed.

Lemma related_start s : related 0 s s.
Proof.
  split_and!; [done|done| |by left]. intros _ m d it _ Hit. apply known_pending in Hit. done.
Qed.
End peephole.
