(* ===== verification/MirSetup.v ===== *)
(** * The Win64 argument set-up, and the pipeline of the optimizer

    Moving the arguments from rcx, rdx to rdi, rsi and back: the two moves back are redundant.
    Then [runMirOptimizationPasses] as a whole. *)

From stdpp Require Import gmap.
From S2P Require Import Prelude Mir MirOptimize MirSem MirPasses.

Section setup.
Context {E : Type} (hw : @Hardware E).
Implicit Types (s : @State E) (m a b c d : Mir) (buf pre post : list Mir).

Definition isArgumentReg (r : Z) : bool :=
  (r =? kRegRdi)%Z || (r =? kRegRsi)%Z || (r =? kRegRcx)%Z || (r =? kRegRdx)%Z.

(** A move reads and writes the registers of the rest of the machine. *)
Record movesRegisters (get : Z -> E -> Z) (set : Z -> Z -> E -> E) : Prop := {
  mov_exec m vs e : op m = MovRegReg ->
    exists x, exec hw m vs e = Some (x, set (r0 m) (get (r1 m) e) e);
  mov_same r e : isArgumentReg r = true -> set r (get r e) e = e;
  mov_get r x e : isArgumentReg r = true -> get r (set r x e) = x;
  mov_other r r' x e : isArgumentReg r = true -> r <> r' -> get r (set r' x e) = get r e;
}.

(** The builder emits its moves before the first bytecode. *)
Definition movesUnlabelled buf : Prop := forall i m,
  buf !! i = Some m -> op m = MovRegReg -> hasPc m = false.

Definition setUp a b c d : Prop :=
  isMov a kRegRdi kRegRcx = true /\ isMov b kRegRsi kRegRdx = true /\
  isMov c kRegRcx kRegRdi = true /\ isMov d kRegRdx kRegRsi = true.

Lemma isMov_spec m dst src : isMov m dst src = true <-> op m = MovRegReg /\ r0 m = dst /\ r1 m = src.
Proof.
  unfold isMov. destruct (op m); try (split; [done|by intros [? _]]).
  rewrite andb_true_iff, !Z.eqb_eq. tauto.
Qed.

Lemma setup_split buf : optimizeWin64RedundantArgSetup buf = buf \/
  exists pre a b c d post, buf = pre ++ a :: b :: c :: d :: post /\ setUp a b c d /\
    optimizeWin64RedundantArgSetup buf = pre ++ a :: b :: post.
Proof.
  induction buf as [|a buf IH]; [by left|]. destruct buf as [|b [|c [|d post]]]; [by left..|].
  cbn [optimizeWin64RedundantArgSetup] in *.
  destruct (isMov a kRegRdi kRegRcx && isMov b kRegRsi kRegRdx &&
            isMov c kRegRcx kRegRdi && isMov d kRegRdx kRegRsi) eqn:Hm.
  - right. exists [], a, b, c, d, post. rewrite !andb_true_iff in Hm. unfold setUp. tauto.
  - destruct IH as [->|(pre & a' & b' & c' & d' & post' & E' & Hs & ->)]; [by left|right].
    exists (a :: pre), a', b', c', d', post'. by rewrite E'.
Qed.

Lemma run_mono fuel fuel' buf i s o :
  run hw fuel buf i s = Some o -> fuel <= fuel' -> run hw fuel' buf i s = Some o.
Proof.
  revert fuel' i s. induction fuel as [|fuel IH]; intros fuel' i s Hr Hle; [done|].
  destruct fuel' as [|fuel']; [lia|]. simpl in *. destruct (buf !! i) as [m|]; [|done].
  destruct (step hw m s) as [s1|t s1|o1]; [apply IH; [done|lia]| |done].
  destruct (landing buf t) as [j|]; [|done]. simpl in *. apply IH; [done|lia].
Qed.

(** Jumps land outside of the moves. *)
Lemma landing_app buf buf' t : (forall m, m ∈ buf -> hasPc m = true -> pc m <> t) ->
  landing (buf ++ buf') t = (fun j => length buf + j) <$> landing buf' t.
Proof.
  intros Hno. unfold landing. rewrite list_find_app_r.
  - destruct (list_find _ buf') as [[j x]|]; simpl; [f_equal; lia|done].
  - apply list_find_None, Forall_forall. intros m Hm [Hp Ht]. by eapply Hno.
Qed.

Context (get : Z -> E -> Z) (set : Z -> Z -> E -> E) (Hmov : movesRegisters get set).
Context (pre post : list Mir) (a b c d : Mir) (Hset : setUp a b c d).
#[local] Abbreviation before := (pre ++ a :: b :: c :: d :: post).
#[local] Abbreviation shorter := (pre ++ a :: b :: post).
Context (Hlab : movesUnlabelled before).

Lemma step_mov m dst src s : isMov m dst src = true ->
  step hw m s = Next (setExt (set dst (get src (ext s)) (ext s)) s).
Proof.
  intros (Ho & <- & <-)%isMov_spec. unfold step. rewrite Ho. simpl.
  destruct (mov_exec _ _ Hmov m (vr s) (ext s) Ho) as [x ->].
  unfold setDefined, defines. by rewrite Ho.
Qed.

Lemma setExt_setExt e e' s : setExt e (setExt e' s) = setExt e s.
Proof. done. Qed.

(** The moves back change nothing. *)
Definition setUpDone s : State :=
  setExt (set kRegRsi (get kRegRdx (ext s)) (set kRegRdi (get kRegRcx (ext s)) (ext s))) s.

Lemma moves_back s : let e := ext (setUpDone s) in
  set kRegRcx (get kRegRdi e) e = e /\ set kRegRdx (get kRegRsi e) e = e.
Proof.
  destruct Hmov as [_ Hsame Hget Hoth]. simpl.
  set (e := set kRegRsi _ _).
  assert (Hrdi : get kRegRdi e = get kRegRcx e) by (unfold e; by rewrite Hoth, Hget, !Hoth).
  assert (Hrsi : get kRegRsi e = get kRegRdx e) by (unfold e; by rewrite Hget, !Hoth).
  rewrite Hrdi, Hrsi. by split; apply Hsame.
Qed.

Lemma before_at k m : [a; b; c; d] !! k = Some m -> before !! (length pre + k) = Some m.
Proof.
  intros Hk. rewrite lookup_app_r by lia. replace (length pre + k - length pre) with k by lia.
  by do 4 (destruct k as [|k]; [done|]).
Qed.

Lemma run_before fuel s : run hw (4 + fuel) before (length pre) s = run hw fuel before (length pre + 4) (setUpDone s).
Proof.
  destruct Hset as (Ha & Hb & Hc & Hd). destruct (moves_back s) as [Hrcx Hrdx].
  rewrite <- (Nat.add_0_r (length pre)) at 1. cbn [Nat.add run].
  rewrite (before_at 0 a), (step_mov _ _ _ _ Ha) by done.
  replace (S (length pre + 0)) with (length pre + 1) by lia.
  rewrite (before_at 1 b), (step_mov _ _ _ _ Hb) by done.
  replace (S (length pre + 1)) with (length pre + 2) by lia.
  assert (Hmid : setExt (set kRegRsi
      (get kRegRdx (ext (setExt (set kRegRdi (get kRegRcx (ext s)) (ext s)) s)))
      (ext (setExt (set kRegRdi (get kRegRcx (ext s)) (ext s)) s)))
      (setExt (set kRegRdi (get kRegRcx (ext s)) (ext s)) s) = setUpDone s).
  { unfold setUpDone. simpl. rewrite (mov_other _ _ Hmov kRegRdx) by done. done. }
  rewrite Hmid, (before_at 2 c), (step_mov _ _ _ _ Hc), Hrcx by done.
  replace (S (length pre + 2)) with (length pre + 3) by lia.
  change (setExt (ext (setUpDone s)) (setUpDone s)) with (setUpDone s).
  rewrite (before_at 3 d), (step_mov _ _ _ _ Hd), Hrdx by done.
  change (setExt (ext (setUpDone s)) (setUpDone s)) with (setUpDone s).
  by replace (S (length pre + 3)) with (length pre + 4) by lia.
Qed.

Lemma run_shorter fuel s : run hw (2 + fuel) shorter (length pre) s = run hw fuel shorter (length pre + 2) (setUpDone s).
Proof.
  destruct Hset as (Ha & Hb & _ & _). cbn [Nat.add run].
  rewrite list_lookup_middle by done. rewrite (step_mov _ _ _ _ Ha).
  rewrite lookup_app_r by lia. replace (S (length pre) - length pre) with 1 by lia.
  cbn [lookup list_lookup]. rewrite (step_mov _ _ _ _ Hb).
  replace (S (S (length pre))) with (length pre + 2) by lia. f_equal.
  unfold setUpDone. simpl. by rewrite (mov_other _ _ Hmov kRegRdx).
Qed.

(** Where an instruction outside of the moves goes. *)
Definition index i : nat := if decide (i <= length pre) then i else i - 2.
Definition outside i : Prop := i <= length pre \/ length pre + 4 <= i.

Lemma index_at i : i < length pre \/ length pre + 4 <= i -> shorter !! index i = before !! i.
Proof.
  unfold index. intros [Hi|Hi].
  - rewrite decide_True by lia. by rewrite !lookup_app_l.
  - rewrite decide_False by lia. rewrite !lookup_app_r by lia.
    replace (i - length pre) with (4 + (i - length pre - 4)) by lia.
    by replace (i - 2 - length pre) with (2 + (i - length pre - 4)) by lia.
Qed.

Lemma index_next i : i < length pre \/ length pre + 4 <= i -> index (S i) = S (index i) /\ outside (S i).
Proof. unfold index, outside. intros Hi. repeat case_decide; lia. Qed.

Lemma index_landing t : landing shorter t = index <$> landing before t /\
  forall j, landing before t = Some j -> outside j.
Proof.
  unfold landing. destruct Hset as ([Ha _]%isMov_spec & [Hb _]%isMov_spec & [Hc _]%isMov_spec & [Hd _]%isMov_spec).
  assert (Hno : forall k m, [a; b; c; d] !! k = Some m -> ~ (hasPc m = true /\ pc m = t)).
  { intros k m Hk [Hp _]. rewrite (Hlab (length pre + k) m) in Hp; [done|by apply before_at|].
    do 4 (destruct k as [|k]; [by injection Hk as <-|]). done. }
  destruct (list_find (fun m => hasPc m = true /\ pc m = t) pre) as [[j x]|] eqn:Hf.
  - rewrite !(list_find_app_l _ _ _ _ _ Hf). simpl. apply list_find_Some in Hf as (Hj & _ & _).
    apply lookup_lt_Some in Hj. unfold index, outside. rewrite decide_True by lia.
    split; [done|]. intros j' [= <-]. lia.
  - rewrite !list_find_app_r by done. simpl.
    rewrite !(decide_False _ _ (Hno 0 a eq_refl)), !(decide_False _ _ (Hno 1 b eq_refl)),
      !(decide_False _ _ (Hno 2 c eq_refl)), !(decide_False _ _ (Hno 3 d eq_refl)).
    destruct (list_find _ post) as [[j x]|]; simpl; [|by split; [|intros]]. unfold index, outside.
    rewrite decide_False by lia. split; [f_equal; lia|]. intros j' [= <-]. lia.
Qed.

Lemma setup_forward fuel i s o :
  outside i -> run hw fuel before i s = Some o -> run hw fuel shorter (index i) s = Some o.
Proof.
  revert i s. induction fuel as [fuel IH] using lt_wf_ind. intros i s Hi Hr.
  destruct (decide (i = length pre)) as [->|Hne].
  - destruct (decide (4 <= fuel)) as [Hf|Hf].
    + replace fuel with (4 + (fuel - 4)) in Hr by lia. rewrite run_before in Hr.
      apply IH in Hr; [|lia|unfold outside; lia]. unfold index in *. rewrite decide_True by lia.
      rewrite decide_False in Hr by lia. replace (length pre + 4 - 2) with (length pre + 2) in Hr by lia.
      rewrite <- run_shorter in Hr. eapply run_mono; [done|lia].
    + apply (run_mono _ 4) in Hr; [|lia]. by rewrite (run_before 0) in Hr.
  - destruct fuel as [|fuel]; [done|]. simpl in *.
    assert (Hi' : i < length pre \/ length pre + 4 <= i) by (unfold outside in Hi; lia).
    rewrite index_at by done. destruct (before !! i) as [m|]; [|done].
    destruct (step hw m s) as [s1|t s1|o1]; [| |done].
    + destruct (index_next i Hi') as [<- ?]. apply IH; [lia|done|done].
    + destruct (index_landing t) as [-> Hout]. destruct (landing before t) as [j|]; [|done].
      simpl in *. apply IH; [lia|by apply Hout|done].
Qed.

Lemma setup_backward fuel i s o :
  outside i -> run hw fuel shorter (index i) s = Some o -> run hw (3 * fuel) before i s = Some o.
Proof.
  revert i s. induction fuel as [fuel IH] using lt_wf_ind. intros i s Hi Hr.
  destruct (decide (i = length pre)) as [->|Hne].
  - unfold index in Hr. rewrite decide_True in Hr by lia.
    destruct (decide (2 <= fuel)) as [Hf|Hf].
    + replace fuel with (2 + (fuel - 2)) in Hr by lia. rewrite run_shorter in Hr.
      assert (Hr' : run hw (3 * (fuel - 2)) before (length pre + 4) (setUpDone s) = Some o).
      { apply IH; [lia|unfold outside; lia|]. unfold index. rewrite decide_False by lia.
        by replace (length pre + 4 - 2) with (length pre + 2) by lia. }
      rewrite <- run_before in Hr'. eapply run_mono; [done|lia].
    + apply (run_mono _ 2) in Hr; [|lia]. by rewrite (run_shorter 0) in Hr.
  - destruct fuel as [|fuel]; [done|]. cbn [run] in Hr.
    assert (Hi' : i < length pre \/ length pre + 4 <= i) by (unfold outside in Hi; lia).
    rewrite index_at in Hr by done. apply (run_mono (S (3 * fuel))); [|lia]. cbn [run].
    destruct (before !! i) as [m|]; [|done]. destruct (step hw m s) as [s1|t s1|o1]; [| |done].
    + destruct (index_next i Hi') as [Hn ?]. apply IH; [lia|done|]. by rewrite Hn.
    + destruct (index_landing t) as [Hland Hout]. rewrite Hland in Hr.
      destruct (landing before t) as [j|]; [|done]. simpl in *. apply IH; [lia|by apply Hout|done].
Qed.
End setup.

Section pipeline.
Context {E : Type} (hw : @Hardware E).
Implicit Types (s : @State E) (buf : list Mir).

(** An execution from the first instruction on ends in [o]. *)
Definition reaches buf s (o : outcome) : Prop := exists fuel, run hw fuel buf 0 s = Some o.

Lemma setup_reaches buf s o get set :
  movesRegisters hw get set -> movesUnlabelled buf ->
  reaches buf s o <-> reaches (optimizeWin64RedundantArgSetup buf) s o.
Proof.
  intros Hmov Hlab. destruct (setup_split buf) as [->|(pre & a & b & c & d & post & -> & Hset & ->)]; [done|].
  assert (Hout : outside pre 0) by (left; lia).
  split; intros [fuel Hr]; [exists fuel|exists (3 * fuel)].
  - by apply (setup_forward hw get set Hmov pre post a b c d Hset Hlab fuel 0) in Hr.
  - by apply (setup_backward hw get set Hmov pre post a b c d Hset Hlab fuel 0).
Qed.

(** ** The passes keep what they ask of a buffer *)

Lemma setup_lookup buf : exists back, (forall i j, i < j -> back i < back j) /\
  forall i m, optimizeWin64RedundantArgSetup buf !! i = Some m -> buf !! back i = Some m.
Proof.
  destruct (setup_split buf) as [->|(pre & a & b & c & d & post & -> & _ & ->)]; [by exists id|].
  exists (fun i => if decide (i < length pre + 2) then i else i + 2). split.
  - intros i j Hij. repeat case_decide; lia.
  - intros i m. case_decide as Hi.
    + destruct (decide (i < length pre)).
      * by rewrite !lookup_app_l.
      * rewrite !lookup_app_r by lia.
        by destruct (i - length pre) as [|[|k]] eqn:Ek; [..|lia].
    + rewrite !lookup_app_r by lia.
      replace (i - length pre) with (2 + (i - length pre - 2)) by lia.
      by replace (i + 2 - length pre) with (4 + (i - length pre - 2)) by lia.
Qed.

Lemma setup_distinctPcs buf : distinctPcs buf -> distinctPcs (optimizeWin64RedundantArgSetup buf).
Proof.
  destruct (setup_lookup buf) as (back & Hlt & Hb). intros Hd i j m m' Hi Hj Hp Hpc.
  pose proof (Hd _ _ _ _ (Hb _ _ Hi) (Hb _ _ Hj) Hp Hpc).
  destruct (lt_eq_lt_dec i j) as [[Hij| ]|Hij]; [|done|]; apply Hlt in Hij; lia.
Qed.

Lemma setup_realSlots buf : realSlots buf -> realSlots (optimizeWin64RedundantArgSetup buf).
Proof.
  destruct (setup_lookup buf) as (back & _ & Hb). intros Hr i m Hi. eapply Hr. by apply Hb.
Qed.

Lemma setup_storedOnce buf : storedOnce buf -> storedOnce (optimizeWin64RedundantArgSetup buf).
Proof.
  destruct (setup_lookup buf) as (back & Hlt & Hb). intros Hs k i m d v Hki (ms & Hms & Hk) Hm.
  apply (Hs (back k) (back i) m d v); [by apply Hlt| |by apply Hb].
  exists ms. split; [by apply Hb|done].
Qed.

Lemma peephole_lookup buf keep i m' : optimizePeephole buf keep !! i = Some m' ->
  exists m, buf !! i = Some m /\ pc m' = pc m /\ params m' = params m /\ (disp m' = disp m \/ disp m' = 0%Z).
Proof.
  intros Hm'. destruct (lookup_lt_is_Some_2 buf i) as [m Hm].
  { apply lookup_lt_Some in Hm'. pose proof (optimizePeephole_pcs buf keep) as Hp.
    apply (f_equal length) in Hp. rewrite !length_fmap in Hp. lia. }
  exists m. split; [done|]. rewrite (optimizePeephole_at buf keep i m Hm) in Hm'.
  injection Hm' as <-. unfold finalAt.
  destruct (newAt_cases buf keep i m) as [->|(_ & _ & it & _ & ->)]; case_match; simpl; auto.
Qed.

Lemma peephole_distinctPcs buf keep : distinctPcs buf -> distinctPcs (optimizePeephole buf keep).
Proof.
  intros Hd i j m m' (x & Hx & Hpx & _)%peephole_lookup (y & Hy & Hpy & _)%peephole_lookup Hp Hpc.
  unfold hasPc in *. rewrite Hpx in *. rewrite Hpy in *. by apply (Hd i j x y).
Qed.

Lemma peephole_realSlots buf keep : realSlots buf -> realSlots (optimizePeephole buf keep).
Proof.
  intros Hr i m (x & Hx & _ & Hpar & Hdisp)%peephole_lookup. rewrite Hpar.
  destruct (Hr i x Hx) as [Hd Hp]. split; [|done]. by destruct Hdisp as [->| ->].
Qed.

(** The passes together. *)
Lemma passes_outcome buf keep fuel s :
  distinctPcs buf -> realSlots buf -> (keep = true -> storedOnce buf) ->
  sameOutcome (run hw fuel buf 0 s)
    (run hw fuel (eliminateDeadFrameStores (optimizePeephole buf keep)) 0 s).
Proof.
  intros Hd Hr Hs.
  pose proof (peephole_sound hw buf keep Hs fuel 0 s s (related_start buf keep s)) as H1.
  pose proof (eliminate_sound hw (optimizePeephole buf keep) (peephole_distinctPcs _ _ Hd)
    (peephole_realSlots _ _ Hr) fuel 0 s s (agree_refl _ _)) as H2.
  unfold sameOutcome in *. repeat case_match; simplify_eq; done.
Qed.

Lemma passes_reach buf keep s get set :
  movesRegisters hw get set -> movesUnlabelled buf ->
  distinctPcs buf -> realSlots buf -> (keep = true -> storedOnce buf) ->
  (forall o, reaches buf s o ->
     exists o', reaches (runMirOptimizationPasses buf keep) s o' /\ sameOutcome (Some o) (Some o')) /\
  (forall o', reaches (runMirOptimizationPasses buf keep) s o' ->
     exists o, reaches buf s o /\ sameOutcome (Some o) (Some o')).
Proof.
  intros Hmov Hlab Hd Hr Hs.
  pose proof (fun o => setup_reaches buf s o get set Hmov Hlab) as Hset.
  pose proof (fun fuel => passes_outcome (optimizeWin64RedundantArgSetup buf) keep fuel s
    (setup_distinctPcs _ Hd) (setup_realSlots _ Hr) (fun Hk => setup_storedOnce _ (Hs Hk))) as Hout.
  unfold runMirOptimizationPasses, optimizeRemoveNoopMovRaxRax. split.
  - intros o Ho. apply Hset in Ho as [fuel Hf]. specialize (Hout fuel). rewrite Hf in Hout.
    destruct (run hw fuel (eliminateDeadFrameStores _) 0 s) as [o'|] eqn:Ho'; [|by destruct o].
    exists o'. split; [by exists fuel|done].
  - intros o' [fuel Hf]. specialize (Hout fuel). rewrite Hf in Hout.
    destruct (run hw fuel (optimizeWin64RedundantArgSetup buf) 0 s) as [o|] eqn:Ho; [|done].
    exists o. split; [apply Hset; by exists fuel|done].
Qed.
End pipeline.
