(* ===== verification/Registers.v ===== *)
(** * Registers held by ranges

    What the two linear scans of src/src/passes/sched/fastvm/jit/regalloc/regalloc.cpp share: a
    table of free registers and a list of ranges with the registers they hold. *)

From S2P Require Import Prelude.

Section held.
Context {A : Type} (ended : A -> Prop) `{forall a, Decision (ended a)}.
Implicit Types (act : list (A * nat)) (free : list bool).

(** Ranges that have ended give their registers back. *)
Definition release act free : list bool :=
  foldl (fun free p => if decide (ended p.1) then <[p.2 := true]> free else free) free act.

Lemma release_lookup act free r :
  (forall p, p ∈ act -> p.2 < length free) ->
  release act free !! r = Some true <->
    free !! r = Some true \/ exists p, p ∈ act /\ p.2 = r /\ ended p.1.
Proof.
  unfold release. revert free. induction act as [|p act IH]; intros free Hlen; simpl.
  - split; [tauto|]. intros [?|(? & ?%elem_of_nil & _)]; done.
  - rewrite IH.
    2: { intros q Hq. case_decide; rewrite ?length_insert; apply Hlen; by right. }
    setoid_rewrite elem_of_cons. case_decide as Hd.
    + rewrite list_lookup_insert. specialize (Hlen p ltac:(left)).
      destruct (decide (p.2 = r)) as [<-|Hne].
      * rewrite decide_True by done. split; [|by left]. intros _. right. exists p. auto.
      * rewrite decide_False by tauto. split; [naive_solver|]. intros [?|(q & [->|?] & ? & ?)]; naive_solver.
    + split; [naive_solver|]. intros [?|(q & [->|?] & ? & ?)]; naive_solver.
Qed.

Lemma release_length act free : length (release act free) = length free.
Proof.
  unfold release. revert free. induction act as [|p act IH]; intros free; simpl; [done|].
  rewrite IH. case_decide; [apply length_insert|done].
Qed.
End held.

(** A register is held once. *)
Lemma snd_unique {A B} (l : list (A * B)) a a' b :
  NoDup l.*2 -> (a, b) ∈ l -> (a', b) ∈ l -> a = a'.
Proof.
  induction l as [|[x y] l IH]; [by intros _ ?%elem_of_nil|].
  rewrite fmap_cons. intros [Hy Hn]%NoDup_cons [E|H]%elem_of_cons [E'|H']%elem_of_cons; simplify_eq/=; auto.
  - destruct Hy. by apply (list_elem_of_fmap_2 snd) in H'.
  - destruct Hy. by apply (list_elem_of_fmap_2 snd) in H.
Qed.

(** The first free register. *)
Definition firstFree (free : list bool) : option nat :=
  fst <$> list_find (fun b : bool => b = true) free.

Lemma firstFree_spec free : match firstFree free with
  | Some r => free !! r = Some true
  | None => forall r, free !! r <> Some true
  end.
Proof.
  unfold firstFree. destruct (list_find _ free) as [[r b]|] eqn:Hf; simpl.
  - apply list_find_Some in Hf as (Hr & -> & _). done.
  - intros r Hr. apply list_find_None in Hf. rewrite Forall_lookup in Hf. by apply Hf in Hr.
Qed.
