(* ===== verification/RegAlloc.v ===== *)
(** * Allocation of registers to virtual registers

    [collectVRegDefUse] and [linearScanVReg] of src/src/passes/sched/fastvm/jit/regalloc/
    regalloc.cpp: live ranges of virtual registers as intervals of the linear machine IR, and
    the linear scan that gives each a register. [None] stands for the source's
    [static_cast<size_t>(-1)] (an index) and for [kSpilled] (a register). *)

From stdpp Require Import gmap.
From S2P Require Import Prelude Registers Mir.

Definition kNumAllocatableRegs : nat := 8.
Definition kReservedRegRbx : nat := 3.
Definition kReservedRegScratch : nat := 7.

(** ** Live ranges *)

(** [firstDef] and [lastUse]: vectors over the virtual registers. *)
Record DefUse := mkDefUse { firstDef : list (option nat); lastUse : list (option nat) }.

(** [vector::resize] that only grows. *)
Definition grow (n : nat) (l : list (option nat)) : list (option nat) :=
  l ++ replicate (n - length l) None.

Definition ensureSize (v : Z) (du : DefUse) : DefUse :=
  if (v =? kInvalidVReg)%Z then du
  else mkDefUse (grow (S (Z.to_nat v)) (firstDef du)) (grow (S (Z.to_nat v)) (lastUse du)).

Definition useVReg (idx : nat) (v : Z) (du : DefUse) : DefUse :=
  if (v =? kInvalidVReg)%Z then du
  else
    let du := ensureSize v du in
    mkDefUse (firstDef du) (<[Z.to_nat v := Some idx]> (lastUse du)).

Definition at_ (l : list (option nat)) (v : nat) : option nat := default None (l !! v).

Definition defVReg (idx : nat) (v : Z) (du : DefUse) : DefUse :=
  if (v =? kInvalidVReg)%Z then du
  else
    let du := ensureSize v du in
    match at_ (firstDef du) (Z.to_nat v) with
    | None => mkDefUse (<[Z.to_nat v := Some idx]> (firstDef du)) (lastUse du)
    | Some _ => du
    end.

(** One iteration of the loop of [collectVRegDefUse]. *)
Definition collectAt (i : nat) (m : Mir) (du : DefUse) : DefUse :=
  if isDivision (op m) then
    let du := useVReg i (imm32 m) (useVReg i (r1 m) (defVReg i (r0 m) du)) in
    match at_ (lastUse du) (Z.to_nat (r0 m)) with
    | Some j => if decide (j < i) then useVReg i (r0 m) du else du
    | None => useVReg i (r0 m) du
    end
  else
    match kind (op m) with
    | KNative =>
        match params m with
        | Some p =>
            defVReg i (resultVReg p) (foldl (fun du a => useVReg i (argVreg a) du) du (args p))
        | None => du
        end
    | _ =>
        match vshape (op m) with
        | Some DefR0 => defVReg i (r0 m) du
        | Some UseR0 => useVReg i (r0 m) du
        | Some DefR0UseR1 => useVReg i (r1 m) (defVReg i (r0 m) du)
        | Some SelectR0R1 => useVReg i (r1 m) (useVReg i (r0 m) (defVReg i (r0 m) du))
        | Some DefR0UseBoth => useVReg i (imm32 m) (useVReg i (r1 m) (defVReg i (r0 m) du))
        | None => du
        end
    end.

Fixpoint collectFrom (i : nat) (buf : list Mir) (du : DefUse) : DefUse :=
  match buf with
  | [] => du
  | m :: buf => collectFrom (S i) buf (collectAt i m du)
  end.

Definition collectVRegDefUse (buf : list Mir) : DefUse := collectFrom 0 buf (mkDefUse [] []).

(** ** The linear scan *)

Record VLiveInterval := mkInterval { ivreg : nat; istart : nat; iend : nat }.

(** Why an allocation fails. *)
Inductive AllocFailure :=
  | UsedBeforeDefined (v use : nat)
  | LiveAcrossCall (v start last call : nat)
  | TooManyLive (n at_ : nat).

Definition isClobber (o : MirOp) : bool :=
  match kind o with KOpaque | KNative => true | _ => false end.

(** The calls: every one clobbers the allocatable registers. *)
Definition callsOf (buf : list Mir) : list nat :=
  fst <$> filter (fun p => isClobber (op p.2) = true) (zip (seq 0 (length buf)) buf).

(** [std::upper_bound] in a sorted range, where it is not the end. *)
Definition upperBound (l : list nat) (x : nat) : option nat := List.find (fun y => x <? y) l.

Fixpoint intervalsFrom (du : DefUse) (calls : list nat) (vs : list nat)
    : AllocFailure + list VLiveInterval :=
  match vs with
  | [] => inr []
  | v :: vs =>
      match at_ (lastUse du) v with
      | None => intervalsFrom du calls vs
      | Some last =>
          match at_ (firstDef du) v with
          | None => inl (UsedBeforeDefined v last)
          | Some start =>
              if decide (last < start) then inl (UsedBeforeDefined v last)
              else
                match upperBound calls start with
                | Some call =>
                    if decide (call < last) then inl (LiveAcrossCall v start last call)
                    else
                      match intervalsFrom du calls vs with
                      | inl f => inl f
                      | inr ivs => inr (mkInterval v start last :: ivs)
                      end
                | None =>
                    match intervalsFrom du calls vs with
                    | inl f => inl f
                    | inr ivs => inr (mkInterval v start last :: ivs)
                    end
                end
          end
      end
  end.

(** [std::sort] by start. No two intervals start at one instruction ([starts_distinct] in
    RegAllocRanges.v), so the order is determined. *)
Definition sortIntervals (l : list VLiveInterval) : list VLiveInterval := sortBy istart l.

(** The state of the scan: the live intervals with their registers, the free registers, and the
    registers given so far. *)
Record Scan := mkScan {
  active : list (VLiveInterval * nat); freeRegs : list bool; vregToPreg : list (option nat) }.

Definition initialFree : list bool :=
  <[kReservedRegScratch := false]> (<[kReservedRegRbx := false]> (replicate kNumAllocatableRegs true)).

(** Intervals that have ended give their registers back. *)
Definition expire (start : nat) (st : Scan) : Scan :=
  mkScan (filter (fun p => ~ iend p.1 <= start) (active st))
    (release (fun iv => iend iv <= start) (active st) (freeRegs st))
    (vregToPreg st).

Definition assign (cur : VLiveInterval) (st : Scan) : AllocFailure + Scan :=
  let st := expire (istart cur) st in
  match firstFree (freeRegs st) with
  | None => inl (TooManyLive (length (active st)) (istart cur))
  | Some r =>
      inr (mkScan (active st ++ [(cur, r)]) (<[r := false]> (freeRegs st))
             (<[ivreg cur := Some r]> (vregToPreg st)))
  end.

Fixpoint scan (ivs : list VLiveInterval) (st : Scan) : AllocFailure + Scan :=
  match ivs with
  | [] => inr st
  | cur :: ivs => match assign cur st with inl f => inl f | inr st => scan ivs st end
  end.

(** The registers given to the virtual registers, or the reason of the failure. *)
Definition linearScanVReg (buf : list Mir) : AllocFailure + list (option nat) :=
  let du := collectVRegDefUse buf in
  if decide (firstDef du = []) then inr []
  else
    match intervalsFrom du (callsOf buf) (seq 0 (length (firstDef du))) with
    | inl f => inl f
    | inr ivs =>
        match scan (sortIntervals ivs)
                (mkScan [] initialFree (replicate (length (firstDef du)) None)) with
        | inl f => inl f
        | inr st => inr (vregToPreg st)
        end
    end.

(** [VRegAllocation::pregForVReg]. *)
Definition pregForVReg (alloc : list (option nat)) (v : nat) : option nat := default None (alloc !! v).
