(* ===== verification/RegAllocRanges.v ===== *)
(** * What the live ranges of virtual registers are

    [collectVRegDefUse] finds the first definition and the last use of every virtual register:
    stated with [definesV] and [usesV], what one instruction defines and reads. *)

From stdpp Require Import gmap.
From stdpp Require Import gmap sorting.
From S2P Require Import Prelude Mir RegAlloc Registers.
(** The virtual registers an instruction reads, and the one it writes. *)
Definition usedBy (m : Mir) : list Z :=
  match kind (op m) with
  | KNative => match params m with Some p => argVreg <$> args p | None => [] end
  | _ =>
      match vshape (op m) with
      | Some UseR0 => [r0 m]
      | Some DefR0UseR1 => [r1 m]
      | Some SelectR0R1 => [r0 m; r1 m]
      | Some DefR0UseBoth => [r1 m; imm32 m]
      | Some DefR0 | None => []
      end
  end.

Definition regsOf (l : list Z) : list nat := Z.to_nat <$> filter (fun v => v <> kInvalidVReg) l.
Definition usesV (m : Mir) : list nat := regsOf (usedBy m).

Definition definesV (m : Mir) : option nat := Z.to_nat <$> defines m.

(** A division keeps its quotient in a register even when nothing reads it. *)
Definition touches (m : Mir) (v : nat) : Prop :=
  v ∈ usesV m \/ (isDivision (op m) = true /\ definesV m = Some v).
#[export] Instance touches_dec m v : Decision (touches m v).
Proof. unfold touches. apply _. Defined.

(** ** The vectors, through [at_] *)

Lemma at_grow n l v : at_ (grow n l) v = at_ l v.
Proof.
  unfold at_, grow. destruct (decide (v < length l)).
  - by rewrite lookup_app_l.
  - rewrite lookup_app_r, (lookup_ge_None_2 l) by lia.
    destruct (replicate _ _ !! _) as [x|] eqn:Hx; [|done].
    by apply lookup_replicate in Hx as [-> _].
Qed.

Lemma at_insert_grow v i l w :
  at_ (<[v := Some i]> (grow (S v) l)) w = if decide (v = w) then Some i else at_ l w.
Proof.
  unfold at_ at 1. rewrite list_lookup_insert.
  assert (v < length (grow (S v) l)) by (unfold grow; rewrite length_app, length_replicate; lia).
  destruct (decide (v = w)) as [->|Hne].
  - by rewrite decide_True.
  - rewrite decide_False by (by intros [? _]). apply at_grow.
Qed.

Definition isReg (v : Z) (w : nat) : Prop := v <> kInvalidVReg /\ Z.to_nat v = w.
#[export] Instance isReg_dec v w : Decision (isReg v w).
Proof. unfold isReg. apply _. Defined.

Lemma useVReg_last i v du w :
  at_ (lastUse (useVReg i v du)) w = if decide (isReg v w) then Some i else at_ (lastUse du) w.
Proof.
  unfold useVReg, ensureSize. destruct (Z.eqb_spec v kInvalidVReg) as [E|E]; simpl.
  - by rewrite decide_False by (by intros [? _]).
  - rewrite at_insert_grow. unfold isReg. repeat case_decide; naive_solver.
Qed.

Lemma useVReg_first i v du w : at_ (firstDef (useVReg i v du)) w = at_ (firstDef du) w.
Proof.
  unfold useVReg, ensureSize. destruct (Z.eqb_spec v kInvalidVReg); simpl; [done|]. apply at_grow.
Qed.

Lemma defVReg_last i v du w : at_ (lastUse (defVReg i v du)) w = at_ (lastUse du) w.
Proof.
  unfold defVReg, ensureSize. destruct (Z.eqb_spec v kInvalidVReg); simpl; [done|].
  case_match; simpl; apply at_grow.
Qed.

Lemma defVReg_first i v du w :
  at_ (firstDef (defVReg i v du)) w =
    match at_ (firstDef du) w with
    | Some s => Some s
    | None => if decide (isReg v w) then Some i else None
    end.
Proof.
  unfold defVReg, ensureSize. destruct (Z.eqb_spec v kInvalidVReg) as [E|E]; simpl.
  - rewrite decide_False by (by intros [? _]). by destruct (at_ _ w).
  - rewrite at_grow. destruct (at_ (firstDef du) (Z.to_nat v)) eqn:Ea; simpl.
    + rewrite at_grow. destruct (at_ (firstDef du) w) eqn:Ew; [done|].
      rewrite decide_False; [done|]. intros [_ <-]. congruence.
    + rewrite at_insert_grow. unfold isReg. repeat case_decide; subst; try naive_solver.
      * by rewrite Ea.
      * by destruct (at_ (firstDef du) w).
Qed.

(** ** One instruction *)

Lemma regsOf_cons v l w : w ∈ regsOf (v :: l) <-> isReg v w \/ w ∈ regsOf l.
Proof.
  unfold regsOf, isReg. rewrite filter_cons. case_decide; simpl; rewrite ?elem_of_cons; naive_solver.
Qed.

Lemma regsOf_nil w : w ∈ regsOf [] <-> False.
Proof. unfold regsOf. simpl. by rewrite elem_of_nil. Qed.

Lemma definesV_isReg m w v : defines m = (if (v =? kInvalidVReg)%Z then None else Some v) ->
  definesV m = Some w <-> isReg v w.
Proof.
  unfold definesV, isReg. intros ->. destruct (Z.eqb_spec v kInvalidVReg); simpl; naive_solver.
Qed.

Lemma useAll_last i (l : list CallArg) du w :
  at_ (lastUse (foldl (fun du a => useVReg i (argVreg a) du) du l)) w =
    if decide (w ∈ regsOf (argVreg <$> l)) then Some i else at_ (lastUse du) w.
Proof.
  revert du. induction l as [|a l IH]; intros du; simpl.
  - done.
  - rewrite IH, useVReg_last. pose proof (regsOf_cons (argVreg a) (argVreg <$> l) w).
    repeat case_decide; tauto.
Qed.

Lemma useAll_first i (l : list CallArg) du w :
  at_ (firstDef (foldl (fun du a => useVReg i (argVreg a) du) du l)) w = at_ (firstDef du) w.
Proof. revert du. induction l as [|a l IH]; intros du; simpl; [done|]. by rewrite IH, useVReg_first. Qed.

(** The definition of an instruction that is not a native call goes to [r0]. *)
Lemma definesV_r0 m w :
  kind (op m) <> KNative -> (exists sh, vshape (op m) = Some sh /\ sh <> UseR0) ->
  definesV m = Some w <-> isReg (r0 m) w.
Proof.
  intros Hk (sh & Hs & Hu). apply definesV_isReg. unfold defines.
  destruct (op m); simpl in *; try done; try (by simplify_eq).
Qed.

Lemma definesV_none m : kind (op m) <> KNative -> (vshape (op m) = None \/ vshape (op m) = Some UseR0) ->
  definesV m = None.
Proof. intros Hk Hs. unfold definesV, defines. destruct (op m); simpl in *; try done; by destruct Hs. Qed.

Lemma not_native (k : Kind) A (a b : A) :
  k <> KNative -> match k with KNative => a | _ => b end = b.
Proof. by destruct k. Qed.

Lemma collectAt_first i m du w :
  at_ (firstDef (collectAt i m du)) w =
    match at_ (firstDef du) w with
    | Some s => Some s
    | None => if decide (definesV m = Some w) then Some i else None
    end.
Proof.
  assert (Hdef : forall P : Prop, forall (dP : Decision P), (P <-> definesV m = Some w) ->
    (if decide P then Some i else None) = (if decide (definesV m = Some w) then Some i else None)).
  { intros P dP Hiff. repeat case_decide; tauto. }
  unfold collectAt. destruct (isDivision (op m)) eqn:Ed.
  - pose proof (division_vshape _ Ed) as Hs.
    assert (Hk : kind (op m) <> KNative) by (by destruct (op m)).
    assert (Hiff : isReg (r0 m) w <-> definesV m = Some w) by (symmetry; apply definesV_r0; eauto).
    repeat (case_match; try case_decide); rewrite ?useVReg_first, ?defVReg_first; 
      destruct (at_ (firstDef du) w); try congruence; try done;
      by apply Hdef.
  - destruct (decide (kind (op m) = KNative)) as [Ek|Ek].
    + rewrite Ek. assert (op m = NativeJitFuncCall) as Eo by (by destruct (op m)).
      unfold definesV, defines. rewrite Eo. destruct (params m) as [p|]; simpl.
      * rewrite defVReg_first, useAll_first. destruct (at_ (firstDef du) w); [done|].
        unfold isReg. destruct (Z.eqb_spec (resultVReg p) kInvalidVReg); simpl; repeat case_decide; naive_solver.
      * by destruct (at_ (firstDef du) w).
    + rewrite not_native by done.
      destruct (vshape (op m)) as [[]|] eqn:Es; rewrite ?useVReg_first, ?defVReg_first;
        destruct (at_ (firstDef du) w); try done;
        first [ apply Hdef; symmetry; apply definesV_r0; eauto; fail
              | rewrite decide_False; [done|]; rewrite definesV_none; auto ].
Qed.

Lemma collectAt_last i m du w :
  (forall e, at_ (lastUse du) w = Some e -> e < i) ->
  at_ (lastUse (collectAt i m du)) w = if decide (touches m w) then Some i else at_ (lastUse du) w.
Proof.
  intros Hlt.
  assert (Hd : forall P : Prop, forall (dP : Decision P) (a b : option nat), (P <-> touches m w) ->
    (if decide P then a else b) = (if decide (touches m w) then a else b)).
  { intros P dP a b Hiff. repeat case_decide; tauto. }
  unfold collectAt. destruct (isDivision (op m)) eqn:Ed.
  - pose proof (division_vshape _ Ed) as Hs.
    assert (Hk : kind (op m) <> KNative) by (by destruct (op m)).
    assert (Hiff : isReg (r0 m) w <-> definesV m = Some w) by (symmetry; apply definesV_r0; eauto).
    assert (Hu : w ∈ usesV m <-> isReg (r1 m) w \/ isReg (imm32 m) w).
    { unfold usesV, usedBy. rewrite Hs.
      rewrite not_native by done.
      rewrite !regsOf_cons, regsOf_nil. tauto. }
    set (du1 := useVReg i (imm32 m) (useVReg i (r1 m) (defVReg i (r0 m) du))).
    assert (H1 : at_ (lastUse du1) w = if decide (w ∈ usesV m) then Some i else at_ (lastUse du) w).
    { unfold du1. rewrite !useVReg_last, defVReg_last. repeat case_decide; tauto. }
    assert (H2 : at_ (lastUse (useVReg i (r0 m) du1)) w =
      if decide (touches m w) then Some i else at_ (lastUse du) w).
    { rewrite useVReg_last, H1. unfold touches. repeat case_decide; tauto. }
    destruct (at_ (lastUse du1) (Z.to_nat (r0 m))) as [j|] eqn:Ej; [|exact H2].
    destruct (decide (j < i)) as [Hj|Hj]; [exact H2|].
    rewrite H1. destruct (decide (w ∈ usesV m)) as [Hw|Hw].
    + rewrite decide_True; [done|by left].
    + rewrite decide_False; [done|]. intros [?|[_ Hdw]]; [done|].
      apply Hiff in Hdw as [_ Hr]. rewrite Hr, H1 in Ej. destruct (decide (w ∈ usesV m)); [done|]. apply Hlt in Ej. lia.
  - apply eq_trans with (if decide (w ∈ usesV m) then Some i else at_ (lastUse du) w).
    2: { unfold touches. destruct (decide (w ∈ usesV m)).
         - rewrite decide_True; [done|by left].
         - rewrite decide_False; [done|]. intros [?|[? _]]; congruence. }
    unfold usesV, usedBy. destruct (decide (kind (op m) = KNative)) as [Ek|Ek].
    + rewrite Ek. destruct (params m) as [p|]; simpl; [|done].
      by rewrite defVReg_last, useAll_last.
    + rewrite !not_native by done.
      destruct (vshape (op m)) as [[]|] eqn:Es; rewrite ?useVReg_last, ?defVReg_last;
        repeat case_decide; try done; exfalso; rewrite ?regsOf_cons, ?regsOf_nil in *; tauto.
Qed.

(** ** The whole buffer *)

(** [d] is the first index from [i] on at which [P] holds of the instruction. *)
Definition firstAt (P : Mir -> Prop) (buf : list Mir) (i : nat) (d : option nat) : Prop :=
  match d with
  | Some s => exists m, i <= s /\ buf !! (s - i) = Some m /\ P m /\
      forall j m', i <= j < s -> buf !! (j - i) = Some m' -> ~ P m'
  | None => forall j m', buf !! j = Some m' -> ~ P m'
  end.

Definition lastAt (P : Mir -> Prop) (buf : list Mir) (i : nat) (d : option nat) : Prop :=
  match d with
  | Some s => exists m, i <= s /\ buf !! (s - i) = Some m /\ P m /\
      forall j m', s < j -> buf !! (j - i) = Some m' -> ~ P m'
  | None => forall j m', buf !! j = Some m' -> ~ P m'
  end.

Lemma collectFrom_first i buf du w :
  match at_ (firstDef du) w with
  | Some s => at_ (firstDef (collectFrom i buf du)) w = Some s
  | None => firstAt (fun m => definesV m = Some w) buf i (at_ (firstDef (collectFrom i buf du)) w)
  end.
Proof.
  revert i du. induction buf as [|m buf IH]; intros i du; simpl.
  - destruct (at_ (firstDef du) w); [done|]. simpl. intros j m'. by rewrite lookup_nil.
  - specialize (IH (S i) (collectAt i m du)). rewrite collectAt_first in IH.
    destruct (at_ (firstDef du) w) as [s|]; [done|]. case_decide as Hd.
    + rewrite IH. simpl. exists m. rewrite Nat.sub_diag. split_and!; [done|done|done|]. intros; lia.
    + destruct (at_ _ w) as [s|]; simpl in *.
      * destruct IH as (ms & Hs & Hm & Hp & Hno). exists ms.
        replace (s - i) with (S (s - S i)) by lia. split_and!; [lia|done|done|].
        intros j m' Hj. destruct (decide (j = i)) as [->|Hne].
        -- rewrite Nat.sub_diag. by intros [= <-].
        -- replace (j - i) with (S (j - S i)) by lia. apply Hno. lia.
      * intros [|j] m'; simpl; [by intros [= <-]|]. apply IH.
Qed.

Lemma collectFrom_last i buf du w :
  (forall e, at_ (lastUse du) w = Some e -> e < i) ->
  (at_ (lastUse (collectFrom i buf du)) w = at_ (lastUse du) w /\
     forall j m', buf !! j = Some m' -> ~ touches m' w) \/
  (exists e, at_ (lastUse (collectFrom i buf du)) w = Some e /\
     lastAt (fun m => touches m w) buf i (Some e)).
Proof.
  revert i du. induction buf as [|m buf IH]; intros i du Hlt; simpl.
  - left. split; [done|]. intros j m'. by rewrite lookup_nil.
  - pose proof (collectAt_last i m du w Hlt) as Hc.
    destruct (IH (S i) (collectAt i m du)) as [[Heq Hno]|(e & He & me & Hie & Hm & Hp & Hno)].
    + intros e. rewrite Hc. case_decide; [intros [= <-]; lia|]. intros He. apply Hlt in He. lia.
    + rewrite Heq, Hc. case_decide as Ht.
      * right. exists i. split; [done|]. exists m. rewrite Nat.sub_diag. split_and!; [done..|].
        intros j m' Hj. replace (j - i) with (S (j - S i)) by lia. apply Hno.
      * left. split; [done|]. intros [|j] m'; simpl; [by intros [= <-]|apply Hno].
    + right. exists e. split; [done|]. exists me. replace (e - i) with (S (e - S i)) by lia.
      split_and!; [lia|done|done|]. intros j m' Hj.
      replace (j - i) with (S (j - S i)) by lia. by apply Hno.
Qed.

(** The live ranges. *)
Definition startOf (buf : list Mir) (v : nat) : option nat := at_ (firstDef (collectVRegDefUse buf)) v.
Definition endOf (buf : list Mir) (v : nat) : option nat := at_ (lastUse (collectVRegDefUse buf)) v.

Lemma startOf_spec buf v : firstAt (fun m => definesV m = Some v) buf 0 (startOf buf v).
Proof. pose proof (collectFrom_first 0 buf (mkDefUse [] []) v) as Hc. exact Hc. Qed.

Lemma endOf_spec buf v : lastAt (fun m => touches m v) buf 0 (endOf buf v).
Proof.
  destruct (collectFrom_last 0 buf (mkDefUse [] []) v) as [[Heq Hno]|(e & He & Hl)]; [done| |].
  - unfold endOf, collectVRegDefUse. rewrite Heq. exact Hno.
  - unfold endOf, collectVRegDefUse. by rewrite He.
Qed.

Lemma startOf_defines buf v s : startOf buf v = Some s ->
  exists m, buf !! s = Some m /\ definesV m = Some v.
Proof.
  intros Hs. pose proof (startOf_spec buf v) as Hf. rewrite Hs in Hf.
  destruct Hf as (m & _ & Hm & Hd & _). rewrite Nat.sub_0_r in Hm. by exists m.
Qed.

Lemma startOf_le buf v i m : buf !! i = Some m -> definesV m = Some v ->
  exists s, startOf buf v = Some s /\ s <= i.
Proof.
  intros Hm Hd. pose proof (startOf_spec buf v) as Hf. destruct (startOf buf v) as [s|]; simpl in Hf.
  - exists s. split; [done|]. destruct Hf as (ms & _ & _ & _ & Hno). destruct (decide (s <= i)); [done|].
    destruct (Hno i m); [lia|by rewrite Nat.sub_0_r|done].
  - by destruct (Hf i m).
Qed.

Lemma endOf_touches buf v e : endOf buf v = Some e -> exists m, buf !! e = Some m /\ touches m v.
Proof.
  intros He. pose proof (endOf_spec buf v) as Hf. rewrite He in Hf.
  destruct Hf as (m & _ & Hm & Hd & _). rewrite Nat.sub_0_r in Hm. by exists m.
Qed.

Lemma endOf_ge buf v i m : buf !! i = Some m -> touches m v -> exists e, endOf buf v = Some e /\ i <= e.
Proof.
  intros Hm Hd. pose proof (endOf_spec buf v) as Hf. destruct (endOf buf v) as [e|]; simpl in Hf.
  - exists e. split; [done|]. destruct Hf as (ms & _ & _ & _ & Hno). destruct (decide (i <= e)); [done|].
    destruct (Hno i m); [lia|by rewrite Nat.sub_0_r|done].
  - by destruct (Hf i m).
Qed.

(** No two virtual registers are first defined by one instruction. *)
Lemma starts_distinct buf v w s : startOf buf v = Some s -> startOf buf w = Some s -> v = w.
Proof.
  intros (m & Hm & Hd)%startOf_defines (m' & Hm' & Hd')%startOf_defines. congruence.
Qed.

(** * The linear scan separates what interferes

    [linearScanVReg] against its specification [valid]: every virtual register that is read has
    a register of its own among the allocatable ones for as long as it is live, and no call
    comes between its definition and its last use. It finds such an allocation exactly when
    there is one. *)

Definition allocatable (r : nat) : Prop :=
  r < kNumAllocatableRegs /\ r <> kReservedRegRbx /\ r <> kReservedRegScratch.

Definition callBetween (buf : list Mir) (s e : nat) : Prop :=
  exists c m, buf !! c = Some m /\ isClobber (op m) = true /\ s < c < e.

(** The definition of one falls strictly inside the live range of the other. *)
Definition interferes (buf : list Mir) (v w : nat) : Prop :=
  exists s e s' e', startOf buf v = Some s /\ endOf buf v = Some e /\
    startOf buf w = Some s' /\ endOf buf w = Some e' /\ (s < s' < e \/ s' < s < e').

Record valid (buf : list Mir) (alloc : nat -> option nat) : Prop := {
  valid_range v e : endOf buf v = Some e ->
    exists s, startOf buf v = Some s /\ s <= e /\ ~ callBetween buf s e;
  valid_reg v e : endOf buf v = Some e -> exists r, alloc v = Some r /\ allocatable r;
  valid_none v : endOf buf v = None -> alloc v = None;
  valid_apart v w : v <> w -> interferes buf v w -> alloc v <> alloc w;
}.

(** ** The calls *)

Lemma callsOf_sorted buf : StronglySorted lt (callsOf buf).
Proof.
  unfold callsOf. generalize 0. induction buf as [|m buf IH]; intros i; simpl; [constructor|].
  rewrite filter_cons. case_decide; simpl; [|apply IH]. constructor; [apply IH|].
  apply Forall_forall. intros c ([j x] & -> & [_ Hj]%list_elem_of_filter)%list_elem_of_fmap.
  apply elem_of_zip_l, elem_of_seq in Hj. simpl. lia.
Qed.

Lemma callsOf_elem buf c :
  c ∈ callsOf buf <-> exists m, buf !! c = Some m /\ isClobber (op m) = true.
Proof.
  assert (Hg : forall i, c ∈ fst <$> filter (fun p => isClobber (op p.2) = true) (zip (seq i (length buf)) buf)
    <-> exists m, i <= c /\ buf !! (c - i) = Some m /\ isClobber (op m) = true).
  { induction buf as [|m buf IH]; intros i; simpl.
    - rewrite elem_of_nil. setoid_rewrite lookup_nil. naive_solver.
    - rewrite filter_cons. specialize (IH (S i)).
      assert (Hs : c <> i -> (exists m', i <= c /\ (m :: buf) !! (c - i) = Some m' /\ isClobber (op m') = true)
        <-> exists m', S i <= c /\ buf !! (c - S i) = Some m' /\ isClobber (op m') = true).
      { intros Hne. split; intros (m' & Hle & Hm' & Hc); exists m'.
        - replace (c - i) with (S (c - S i)) in Hm' by lia. split_and!; [lia|done..].
        - replace (c - i) with (S (c - S i)) by lia. split_and!; [lia|done..]. }
      destruct (decide (c = i)) as [->|Hne].
      + rewrite Nat.sub_diag. simpl. case_decide as Hc; simpl in *.
        * split; [eauto|]. intros _. by left.
        * rewrite IH. split; [intros (? & ? & _); lia|]. intros (? & _ & [= <-] & ?). done.
      + rewrite Hs by done. rewrite <- IH. case_decide; simpl; [|done]. rewrite elem_of_cons. tauto. }
  unfold callsOf. rewrite Hg. rewrite Nat.sub_0_r. split; [naive_solver|].
  intros (m & ? & ?). exists m. split_and!; [lia|done..].
Qed.

Lemma upperBound_spec l x : StronglySorted lt l ->
  match upperBound l x with
  | Some c => c ∈ l /\ x < c /\ forall c', c' ∈ l -> x < c' -> c <= c'
  | None => forall c', c' ∈ l -> c' <= x
  end.
Proof.
  unfold upperBound. induction 1 as [|y l Hs IH Hy]; simpl; [by intros c' ?%elem_of_nil|].
  rewrite Forall_forall in Hy. destruct (Nat.ltb_spec x y) as [Hlt|Hge].
  - split_and!; [left|done|]. intros c' [->|Hc]%elem_of_cons _; [lia|]. apply Hy in Hc. lia.
  - destruct (List.find _ l) as [c|].
    + destruct IH as (Hc & Hx & Hm). split_and!; [by right|done|].
      intros c' [->|Hc']%elem_of_cons ?; [lia|auto].
    + intros c' [->|Hc']%elem_of_cons; [lia|auto].
Qed.

(** ** The intervals *)

Lemma collectAt_lengths i m du :
  length (firstDef du) = length (lastUse du) ->
  length (firstDef (collectAt i m du)) = length (lastUse (collectAt i m du)).
Proof.
  assert (Hu : forall v du, length (firstDef du) = length (lastUse du) ->
    length (firstDef (useVReg i v du)) = length (lastUse (useVReg i v du))).
  { intros v d Hd. unfold useVReg, ensureSize. case_match; simpl; [done|].
    unfold grow. rewrite length_insert, !length_app, !length_replicate. lia. }
  assert (Hf : forall v du, length (firstDef du) = length (lastUse du) ->
    length (firstDef (defVReg i v du)) = length (lastUse (defVReg i v du))).
  { intros v d Hd. unfold defVReg, ensureSize. case_match; simpl; [done|].
    case_match; simpl; unfold grow; rewrite ?length_insert, !length_app, !length_replicate; lia. }
  intros Hd. unfold collectAt. destruct (isDivision (op m)).
  - repeat (case_match; try case_decide); auto 10.
  - destruct (decide (kind (op m) = KNative)) as [->|Hn].
    + destruct (params m) as [p|]; [|done]. apply Hf. generalize du Hd.
      induction (args p) as [|a l IH]; intros d Hd'; simpl; auto.
    + rewrite not_native by done. destruct (vshape _) as [[]|]; auto.
Qed.

Lemma endOf_bound buf v e : endOf buf v = Some e -> v < length (firstDef (collectVRegDefUse buf)).
Proof.
  assert (Hl : forall i du, length (firstDef du) = length (lastUse du) ->
    length (firstDef (collectFrom i buf du)) = length (lastUse (collectFrom i buf du))).
  { induction buf as [|m buf IH]; intros i du Hd; simpl; [done|]. by apply IH, collectAt_lengths. }
  unfold endOf, at_, collectVRegDefUse. rewrite Hl by done. intros He.
  destruct (_ !! v) eqn:Hv; [by eapply lookup_lt_Some|done].
Qed.

(** What makes a virtual register that is read fit for the scan. *)
Definition fits (buf : list Mir) (iv : VLiveInterval) : Prop :=
  startOf buf (ivreg iv) = Some (istart iv) /\ endOf buf (ivreg iv) = Some (iend iv) /\
  istart iv <= iend iv /\ ~ callBetween buf (istart iv) (iend iv).

(** The reason of a failure is what it says. *)
Definition justified (buf : list Mir) (f : AllocFailure) : Prop :=
  match f with
  | UsedBeforeDefined v use =>
      endOf buf v = Some use /\ forall s, startOf buf v = Some s -> use < s
  | LiveAcrossCall v s e c =>
      startOf buf v = Some s /\ endOf buf v = Some e /\ s < c < e /\
      exists m, buf !! c = Some m /\ isClobber (op m) = true
  | TooManyLive n s =>
      exists ivs, length ivs = S n /\ NoDup (ivreg <$> ivs) /\
        forall a, a ∈ ivs -> fits buf a /\ istart a <= s /\ (s < iend a \/ istart a = s)
  end.

Lemma intervalsFrom_spec buf vs : NoDup vs ->
  match intervalsFrom (collectVRegDefUse buf) (callsOf buf) vs with
  | inr ivs => NoDup (ivreg <$> ivs) /\ (forall iv, iv ∈ ivs -> ivreg iv ∈ vs /\ fits buf iv) /\
      forall v e, v ∈ vs -> endOf buf v = Some e -> exists iv, iv ∈ ivs /\ ivreg iv = v
  | inl f => justified buf f /\ ~ exists alloc, valid buf alloc
  end.
Proof.
  induction 1 as [|v vs Hv _ IH]; simpl.
  { split_and!; [apply NoDup_nil_2|by intros ? ?%elem_of_nil|by intros ? ? ?%elem_of_nil]. }
  fold (endOf buf v) (startOf buf v).
  destruct (endOf buf v) as [e|] eqn:He.
  2: { destruct (intervalsFrom _ _ vs) as [f|ivs]; [done|]. destruct IH as (Hn & Hf & Hu).
       split_and!; [done| |].
       - intros iv Hiv. destruct (Hf iv Hiv). split; [by right|done].
       - intros w e [->|Hw]%elem_of_cons Hwe; [congruence|eauto]. }
  destruct (startOf buf v) as [s|] eqn:Hs.
  2: { split; [split; [done|by rewrite Hs]|]. intros [alloc [Hr _ _ _]].
       destruct (Hr v e He) as (s & Hs' & _). congruence. }
  case_decide as Hlt.
  { split; [split; [done|]; intros s'; rewrite Hs; intros [= <-]; done|]. intros [alloc [Hr _ _ _]].
    destruct (Hr v e He) as (s' & Hs' & ? & _). simplify_eq. lia. }
  pose proof (upperBound_spec _ s (callsOf_sorted buf)) as Hub.
  assert (Hkeep : ~ callBetween buf s e ->
    match match intervalsFrom (collectVRegDefUse buf) (callsOf buf) vs with
          | inl f => inl f | inr ivs => inr (mkInterval v s e :: ivs) end with
    | inr ivs => NoDup (ivreg <$> ivs) /\ (forall iv, iv ∈ ivs -> ivreg iv ∈ v :: vs /\ fits buf iv) /\
        forall w e, w ∈ v :: vs -> endOf buf w = Some e -> exists iv, iv ∈ ivs /\ ivreg iv = w
    | inl f => justified buf f /\ ~ exists alloc, valid buf alloc
    end).
  { intros Hnc. destruct (intervalsFrom _ _ vs) as [f|ivs]; [done|]. destruct IH as (Hn & Hf & Hu).
    split_and!.
    - rewrite fmap_cons. constructor; [|done]. intros (iv & Hveq & Hiv)%list_elem_of_fmap.
      simpl in Hveq. apply Hf in Hiv as [Hin _]. by rewrite <- Hveq in Hin.
    - intros iv [->|Hiv]%elem_of_cons; [split; [by left|split_and!; done || (simpl; lia)]|].
      destruct (Hf iv Hiv). split; [by right|done].
    - intros w e' [->|Hw]%elem_of_cons Hwe; [exists (mkInterval v s e); split; [left|]; done|].
      destruct (Hu w e' Hw Hwe) as (iv & ? & ?). exists iv. split; [by right|done]. }
  destruct (upperBound _ s) as [c|].
  - destruct Hub as (Hc & Hsc & Hmin). case_decide as Hce.
    + apply callsOf_elem in Hc as (m & Hm & Hcl). split; [by split_and!; [..|exists m]|].
      intros [alloc [Hr _ _ _]]. destruct (Hr v e He) as (s' & Hs' & _ & Hno). simplify_eq.
      apply Hno. exists c, m. split_and!; done.
    + apply Hkeep. intros (c' & m & Hm & Hcl & ? & ?).
      assert (c <= c') by (apply Hmin; [apply callsOf_elem; eauto|done]). lia.
  - apply Hkeep. intros (c' & m & Hm & Hcl & ? & ?).
    assert (c' <= s) by (apply Hub, callsOf_elem; eauto). lia.
Qed.

(** ** The scan *)

(** [dn]: the intervals that have their registers; [now]: the start the scan has come to. *)
Record scanned (now : nat) (dn : list VLiveInterval) (st : Scan) : Prop := {
  sc_reg iv : iv ∈ dn -> exists r, vregToPreg st !! ivreg iv = Some (Some r) /\ allocatable r;
  sc_none v : v ∉ ivreg <$> dn -> at_ (vregToPreg st) v = None;
  sc_active iv r : (iv, r) ∈ active st -> iv ∈ dn /\ vregToPreg st !! ivreg iv = Some (Some r);
  sc_length : length (freeRegs st) = kNumAllocatableRegs;
  sc_free r : freeRegs st !! r = Some true <-> allocatable r /\ r ∉ (active st).*2;
  sc_nodup : NoDup (active st).*2;
  sc_gone iv : iv ∈ dn -> iv ∈ (active st).*1 \/ iend iv <= now;
  sc_apart a b : a ∈ dn -> b ∈ dn -> istart a < istart b < iend a ->
    at_ (vregToPreg st) (ivreg a) <> at_ (vregToPreg st) (ivreg b);
}.

Lemma active_small now dn st p : scanned now dn st -> p ∈ active st -> allocatable p.2.
Proof.
  intros Hsc Hp. destruct p as [iv r]. destruct (sc_active _ _ _ Hsc _ _ Hp) as [Hiv Hr].
  destruct (sc_reg _ _ _ Hsc iv Hiv) as (r' & Hr' & Ha). by simplify_eq.
Qed.

Lemma expire_scanned now start dn st :
  now <= start -> scanned now dn st -> scanned start dn (expire start st).
Proof.
  intros Hle Hsc. assert (Hsm : forall p, p ∈ active st -> allocatable p.2) by (intros p; by eapply active_small).
  destruct Hsc as [Hreg Hnone Hact Hlen Hfree Hnd Hgone Hap].
  assert (Hsm' : forall p, p ∈ active st -> p.2 < length (freeRegs st)).
  { intros p Hp. rewrite Hlen. by eapply Hsm. }
  split; simpl; try done.
  - intros iv r [_ Hp]%list_elem_of_filter. by apply Hact.
  - by rewrite release_length.
  - intros r. rewrite release_lookup, Hfree by done. split.
    + intros [[Ha Hr]|([iv r'] & Hp & <- & He)]; simpl in *.
      * split; [done|]. intros Hin. apply Hr. apply list_elem_of_fmap in Hin as (p & -> & [_ Hp]%list_elem_of_filter).
        by apply list_elem_of_fmap_2.
      * split; [by apply (Hsm _ Hp)|].
        intros ([iv' r''] & Heq & [Hn Hp']%list_elem_of_filter)%list_elem_of_fmap. simpl in *. subst r''.
        by rewrite (snd_unique _ _ _ _ Hnd Hp' Hp) in Hn.
    + intros [Ha Hr]. destruct (decide (r ∈ (active st).*2)) as [Hin|]; [right|by left].
      apply list_elem_of_fmap in Hin as (p & -> & Hp). exists p. split_and!; [done..|].
      destruct (decide (iend p.1 <= start)); [done|]. destruct Hr. apply list_elem_of_fmap_2.
      by apply list_elem_of_filter.
  - eapply sublist_NoDup; [exact Hnd|]. apply fmap_sublist, sublist_filter.
  - intros iv Hiv. destruct (Hgone iv Hiv) as [Hin|]; [|right; lia].
    destruct (decide (iend iv <= start)); [by right|left].
    apply list_elem_of_fmap in Hin as (p & -> & Hp). apply list_elem_of_fmap_2. by apply list_elem_of_filter.
Qed.

(** Every register is taken by an interval that is still live. *)
Lemma all_taken now dn st :
  scanned now dn st -> firstFree (freeRegs st) = None ->
  forall r, allocatable r -> r ∈ (active st).*2.
Proof.
  intros Hsc Hnone r Hr. destruct (decide (r ∈ (active st).*2)) as [|Hni]; [done|].
  pose proof (firstFree_spec (freeRegs st)) as Hf. rewrite Hnone in Hf. destruct (Hf r).
  by apply (sc_free _ _ _ Hsc).
Qed.

(** Giving [cur] a free register keeps the scan's invariant. *)
Lemma assign_scanned now dn st cur :
  now <= istart cur -> scanned now dn st -> ivreg cur ∉ ivreg <$> dn ->
  ivreg cur < length (vregToPreg st) -> (forall iv, iv ∈ dn -> istart iv < istart cur) ->
  match assign cur st with
  | inr st' => scanned (istart cur) (cur :: dn) st' /\ length (vregToPreg st') = length (vregToPreg st)
  | inl f => f = TooManyLive (length (active (expire (istart cur) st))) (istart cur) /\
             firstFree (freeRegs (expire (istart cur) st)) = None
  end.
Proof.
  intros Hle Hsc Hnew Hlen Hst. apply (expire_scanned _ (istart cur)) in Hsc; [|done].
  assert (Hl : length (vregToPreg (expire (istart cur) st)) = length (vregToPreg st)) by done.
  assert (Hends : forall iv, iv ∈ (active (expire (istart cur) st)).*1 -> istart cur < iend iv).
  { intros iv (p & -> & [Hn _]%list_elem_of_filter)%list_elem_of_fmap. lia. }
  unfold assign. revert Hsc Hl Hends. generalize (expire (istart cur) st). intros st1 Hsc Hl Hends.
  pose proof (firstFree_spec (freeRegs st1)) as Hff.
  destruct (firstFree (freeRegs st1)) as [r|]; [|done].
  destruct Hsc as [Hreg Hnone Hact Hfl Hfree Hnd Hgone Hap].
  pose proof Hff as Hr. apply Hfree in Hr as [Har Hrn].
  split; [|simpl; by rewrite length_insert].
  assert (Hsame : forall iv, iv ∈ dn -> <[ivreg cur := Some r]> (vregToPreg st1) !! ivreg iv = vregToPreg st1 !! ivreg iv).
  { intros iv Hiv. apply list_lookup_insert_ne. intros E. apply Hnew. rewrite E. by apply list_elem_of_fmap_2. }
  assert (Hcur : <[ivreg cur := Some r]> (vregToPreg st1) !! ivreg cur = Some (Some r)).
  { rewrite list_lookup_insert, decide_True; [done|]. split; [done|lia]. }
  split; simpl.
  - intros iv [->|Hiv]%elem_of_cons; [eauto|]. rewrite Hsame by done. by apply Hreg.
  - intros v [Hne Hv]%not_elem_of_cons.
    unfold at_. rewrite list_lookup_insert_ne by done. by apply Hnone.
  - intros iv r'. rewrite elem_of_app, list_elem_of_singleton. intros [Hin|[= -> ->]].
    + apply Hact in Hin as [Hin Heq]. split; [by right|]. by rewrite Hsame.
    + split; [left|done].
  - by rewrite length_insert.
  - intros r'. rewrite fmap_app, elem_of_app. simpl. rewrite list_elem_of_singleton, list_lookup_insert.
    destruct (decide (r = r')) as [<-|Hne].
    + rewrite decide_True; [naive_solver|]. split; [done|]. by eapply lookup_lt_Some.
    + rewrite decide_False by tauto. rewrite Hfree. naive_solver.
  - rewrite fmap_app. apply NoDup_app. split_and!; [done| |apply NoDup_singleton].
    simpl. intros x Hx ->%list_elem_of_singleton. done.
  - intros iv Hiv. rewrite fmap_app, elem_of_app. simpl. rewrite list_elem_of_singleton.
    apply elem_of_cons in Hiv as [->|Hiv]; [auto|]. destruct (Hgone iv Hiv); auto.
  - intros a b Ha Hb Hab. unfold at_.
    apply elem_of_cons in Ha as [->|Ha].
    { apply elem_of_cons in Hb as [->|Hb]; [lia|]. specialize (Hst b Hb). lia. }
    apply elem_of_cons in Hb as [->|Hb].
    + rewrite Hcur, Hsame by done. destruct (Hgone a Ha) as [Hin|]; [|lia].
      apply list_elem_of_fmap in Hin as ([a' ra] & -> & Hin). simpl in *.
      destruct (Hact _ _ Hin) as [_ ->]. simpl. intros [= ->]. apply Hrn.
      apply (list_elem_of_fmap_2 snd _ _ Hin).
    + rewrite !Hsame by done. by apply Hap.
Qed.

(** ** Success and failure *)

Definition allocatableRegs : list nat := [0; 1; 2; 4; 5; 6].

Lemma allocatableRegs_spec r : r ∈ allocatableRegs <-> allocatable r.
Proof.
  unfold allocatable, allocatableRegs, kNumAllocatableRegs, kReservedRegRbx, kReservedRegScratch.
  rewrite !elem_of_cons, elem_of_nil. lia.
Qed.

(** Seven values that are live at one instruction do not fit in six registers. *)
Lemma crowded buf n s : justified buf (TooManyLive n s) -> length allocatableRegs <= n ->
  ~ exists alloc, valid buf alloc.
Proof.
  intros (ivs & Hlen & Hnd & Hivs) Hn [alloc [Hr Hreg _ Hap]].
  set (f := fun v => default 0 (alloc v)).
  assert (Hinj : forall v w, v ∈ ivreg <$> ivs -> w ∈ ivreg <$> ivs -> f v = f w -> v = w).
  { intros v w (a & -> & Ha)%list_elem_of_fmap (b & -> & Hb)%list_elem_of_fmap Hf.
    destruct (decide (ivreg a = ivreg b)) as [|Hne]; [done|]. exfalso.
    destruct (Hivs a Ha) as ((Hsa & Hea & _) & Ha1 & Ha2), (Hivs b Hb) as ((Hsb & Heb & _) & Hb1 & Hb2).
    destruct (Hreg _ _ Hea) as (ra & Hra & _), (Hreg _ _ Heb) as (rb & Hrb & _).
    unfold f in Hf. rewrite Hra, Hrb in Hf. simpl in Hf. subst rb.
    apply (Hap _ _ Hne); [|by rewrite Hra]. exists (istart a), (iend a), (istart b), (iend b).
    assert (istart a <> istart b).
    { intros E. apply Hne. apply (starts_distinct buf _ _ (istart a)); [done|]. by rewrite E. }
    split_and!; [done..|lia]. }
  pose proof (NoDup_fmap_2_strong f _ Hinj Hnd) as Hnd'.
  assert (Hsub : f <$> (ivreg <$> ivs) ⊆+ allocatableRegs).
  { apply NoDup_submseteq; [done|]. intros r (v & -> & (a & -> & Ha)%list_elem_of_fmap)%list_elem_of_fmap.
    destruct (Hivs a Ha) as ((_ & Hea & _) & _). destruct (Hreg _ _ Hea) as (ra & Hra & Hal).
    apply allocatableRegs_spec. unfold f. by rewrite Hra. }
  apply submseteq_length in Hsub. rewrite !length_fmap in Hsub. lia.
Qed.

Lemma active_vregs_nodup now dn st : scanned now dn st -> NoDup (ivreg <$> (active st).*1).
Proof.
  intros Hsc. apply (NoDup_fmap_1 (fun v => at_ (vregToPreg st) v)).
  replace ((fun v => at_ (vregToPreg st) v) <$> (ivreg <$> (active st).*1)) with (Some <$> (active st).*2).
  - apply NoDup_fmap_2; [apply _|]. apply (sc_nodup _ _ _ Hsc).
  - rewrite <- !list_fmap_compose. apply list_fmap_ext. intros i [iv r] Hi. simpl.
    apply list_elem_of_lookup_2 in Hi. destruct (sc_active _ _ _ Hsc _ _ Hi) as [_ Hr].
    unfold at_. by rewrite Hr.
Qed.

(** The scan fails only when seven values are live at the start of [cur]. *)
Lemma assign_fails buf now dn st cur :
  scanned now dn st -> now <= istart cur -> ivreg cur ∉ ivreg <$> dn ->
  (forall iv, iv ∈ dn -> istart iv < istart cur /\ fits buf iv) -> fits buf cur ->
  firstFree (freeRegs (expire (istart cur) st)) = None ->
  let f := TooManyLive (length (active (expire (istart cur) st))) (istart cur) in
  justified buf f /\ ~ exists alloc, valid buf alloc.
Proof.
  intros Hsc Hle Hnew Hdn Hcur Hnone.
  apply (expire_scanned _ (istart cur)) in Hsc; [|done].
  set (st1 := expire (istart cur) st) in *.
  assert (Hends : forall iv, iv ∈ (active st1).*1 -> istart cur < iend iv).
  { intros iv (p & -> & [Hn _]%list_elem_of_filter)%list_elem_of_fmap. lia. }
  assert (Hact : forall iv, iv ∈ (active st1).*1 -> iv ∈ dn).
  { intros iv ([iv' r] & -> & Hp)%list_elem_of_fmap. by apply (sc_active _ _ _ Hsc) in Hp as [? _]. }
  assert (Hj : justified buf (TooManyLive (length (active st1)) (istart cur))).
  { exists (cur :: (active st1).*1). split_and!.
    - simpl. by rewrite length_fmap.
    - rewrite fmap_cons. constructor; [|by eapply active_vregs_nodup].
      intros (iv & E & Hiv)%list_elem_of_fmap. apply Hnew. rewrite E. by apply list_elem_of_fmap_2, Hact.
    - intros a [->|Ha]%elem_of_cons; [auto|]. destruct (Hdn a (Hact a Ha)). specialize (Hends a Ha).
      split_and!; [done|lia|by left]. }
  split; [exact Hj|]. apply (crowded _ _ _ Hj).
  rewrite <- (length_fmap snd (active st1)). apply submseteq_length, NoDup_submseteq.
  - by vm_compute; repeat (constructor; [set_solver|]); constructor.
  - intros r Hr. apply (all_taken _ _ _ Hsc Hnone). by apply allocatableRegs_spec.
Qed.

Lemma scan_spec buf ivs now dn st :
  scanned now dn st -> StronglySorted (fun a b => istart a < istart b) ivs -> NoDup (ivreg <$> ivs ++ dn) ->
  (forall iv, iv ∈ ivs -> now <= istart iv /\ ivreg iv < length (vregToPreg st)) ->
  (forall a b, a ∈ dn -> b ∈ ivs -> istart a < istart b) ->
  (forall iv, iv ∈ ivs ++ dn -> fits buf iv) ->
  match scan ivs st with
  | inr st' => exists now' dn', dn' ≡ₚ ivs ++ dn /\ scanned now' dn' st'
  | inl f => justified buf f /\ ~ exists alloc, valid buf alloc
  end.
Proof.
  revert now dn st. induction ivs as [|cur ivs IH]; intros now dn st Hsc Hsort Hnd Hiv Hord Hfit; simpl; [eauto|].
  destruct (Hiv cur ltac:(left)) as [Hnow Hlen].
  apply StronglySorted_inv in Hsort as [Hsort Hcur]. rewrite Forall_forall in Hcur.
  cbn [app] in *. rewrite fmap_cons in Hnd. apply NoDup_cons in Hnd as [Hfresh Hnd].
  assert (Hnew : ivreg cur ∉ ivreg <$> dn) by (rewrite fmap_app in Hfresh; set_solver).
  pose proof (assign_scanned now dn st cur Hnow Hsc Hnew Hlen) as Has.
  destruct (assign cur st) as [f|st'].
  - destruct Has as [-> Hnone]; [intros; apply Hord; [done|left]|].
    apply (assign_fails buf now dn st cur); try done.
    + intros iv Hd. split; [apply Hord; [done|left]|]. apply Hfit. set_solver.
    + apply Hfit. left.
  - destruct Has as [Hsc' Hl]; [intros; apply Hord; [done|left]|].
    specialize (IH (istart cur) (cur :: dn) st' Hsc' Hsort).
    assert (Hp : ivs ++ cur :: dn ≡ₚ cur :: ivs ++ dn) by (symmetry; apply Permutation_middle).
    destruct (scan ivs st') as [f|st2].
    + apply IH.
      * rewrite Hp, fmap_cons. by constructor.
      * intros iv Hin. split; [apply Nat.lt_le_incl; by apply Hcur|]. rewrite Hl. apply Hiv. by right.
      * intros a b [->|Ha]%elem_of_cons Hb; [by apply Hcur|]. apply Hord; [done|by right].
      * intros iv. rewrite Hp. apply Hfit.
    + destruct IH as (now' & dn' & Hdn' & Hsc2).
      * rewrite Hp, fmap_cons. by constructor.
      * intros iv Hin. split; [apply Nat.lt_le_incl; by apply Hcur|]. rewrite Hl. apply Hiv. by right.
      * intros a b [->|Ha]%elem_of_cons Hb; [by apply Hcur|]. apply Hord; [done|by right].
      * intros iv. rewrite Hp. apply Hfit.
      * exists now', dn'. split; [by rewrite Hdn'|done].
Qed.

Lemma initial_scanned n : scanned 0 [] (mkScan [] initialFree (replicate n None)).
Proof.
  split; simpl; try (by intros ? ?%elem_of_nil); try (by intros ? ? ?%elem_of_nil); try done.
  - intros v _. unfold at_. destruct (_ !! v) as [x|] eqn:E; [|done]. by apply lookup_replicate in E as [-> _].
  - intros r. rewrite <- allocatableRegs_spec. unfold initialFree, allocatableRegs.
    rewrite !elem_of_cons, elem_of_nil. split.
    + do 9 (destruct r as [|r]; simpl; [first [done | intros _; split; [lia|by intros []]]|]). done.
    + intros [Hr _]. repeat destruct Hr as [->|Hr]; done.
  - apply NoDup_nil_2.
Qed.

(** The result of [linearScanVReg]. *)
Lemma linearScanVReg_spec buf :
  match linearScanVReg buf with
  | inr alloc => valid buf (pregForVReg alloc)
  | inl f => justified buf f /\ ~ exists alloc, valid buf alloc
  end.
Proof.
  unfold linearScanVReg. case_decide as Hempty.
  { assert (Hn : forall v, endOf buf v = None).
    { intros v. destruct (endOf buf v) as [e|] eqn:He; [|done]. apply endOf_bound in He.
      rewrite Hempty in He. simpl in He. lia. }
    split; try (intros v ?; by rewrite ?Hn); intros v ? _ (s & e & s' & e' & _ & He & _).
    by rewrite Hn in He. }
  pose proof (intervalsFrom_spec buf (seq 0 (length (firstDef (collectVRegDefUse buf)))) (NoDup_seq _ _)) as Hi.
  destruct (intervalsFrom _ _ _) as [f|ivs]; [done|]. destruct Hi as (Hnd & Hfit & Hall).
  pose proof (sortBy_perm istart ivs : sortIntervals ivs ≡ₚ ivs) as Hp.
  pose proof (scan_spec buf (sortIntervals ivs) 0 []
    (mkScan [] initialFree (replicate (length (firstDef (collectVRegDefUse buf))) None))) as Hs.
  assert (Hstarts : NoDup (istart <$> ivs)).
  { apply NoDup_alt. intros i j x (a & Ha & Hi)%list_lookup_fmap_Some_1 (b & Hb & Hj)%list_lookup_fmap_Some_1.
    subst x. apply (NoDup_lookup (ivreg <$> ivs) i j (ivreg a) Hnd); [by rewrite list_lookup_fmap, Hi|].
    rewrite list_lookup_fmap, Hj. simpl. f_equal.
    destruct (Hfit a) as (_ & Hsa & _); [by eapply list_elem_of_lookup_2|].
    destruct (Hfit b) as (_ & Hsb & _); [by eapply list_elem_of_lookup_2|].
    apply (starts_distinct buf _ _ (istart b)); congruence. }
  specialize (Hs (initial_scanned _) (sortBy_sorted istart _ Hstarts)).
  destruct (scan _ _) as [f|st].
  { apply Hs; rewrite ?app_nil_r; [by rewrite Hp|..].
    - intros iv. rewrite Hp. intros (Hin & _)%Hfit. simpl. rewrite length_replicate.
      apply elem_of_seq in Hin. lia.
    - by intros ? ? ?%elem_of_nil.
    - intros iv. rewrite Hp. by intros [_ ?]%Hfit. }
  destruct Hs as (now & dn & Hdn & Hsc); rewrite ?app_nil_r in *; [by rewrite Hp|..].
  { intros iv. rewrite Hp. intros (Hin & _)%Hfit. simpl. rewrite length_replicate.
    apply elem_of_seq in Hin. lia. }
  { by intros ? ? ?%elem_of_nil. }
  { intros iv. rewrite Hp. by intros [_ ?]%Hfit. }
  rewrite Hp in Hdn.
  assert (Hused : forall v e, endOf buf v = Some e -> exists iv, iv ∈ dn /\ ivreg iv = v /\ fits buf iv).
  { intros v e He. destruct (Hall v e) as (iv & Hin & Hv); [|done|].
    - apply elem_of_seq. apply endOf_bound in He. lia.
    - exists iv. rewrite Hdn. split_and!; [done|done|]. by apply Hfit. }
  split.
  - intros v e He. destruct (Hused v e He) as (iv & _ & <- & Hsv & Hev & Hle & Hc).
    exists (istart iv). rewrite He in Hev. injection Hev as ->. done.
  - intros v e He. destruct (Hused v e He) as (iv & Hin & <- & _).
    destruct (sc_reg _ _ _ Hsc iv Hin) as (r & Hr & Ha). exists r. unfold pregForVReg. by rewrite Hr.
  - intros v Hv. apply (sc_none _ _ _ Hsc). intros (iv & -> & Hin)%list_elem_of_fmap.
    rewrite Hdn in Hin. apply Hfit in Hin as (_ & _ & He & _). congruence.
  - intros v w Hne (s & e & s' & e' & Hs1 & He1 & Hs2 & He2 & Hover).
    destruct (Hused v e He1) as (a & Ha & <- & Hsa & Hea & _), (Hused w e' He2) as (b & Hb & <- & Hsb & Heb & _).
    simplify_eq. change (at_ (vregToPreg st) (ivreg a) <> at_ (vregToPreg st) (ivreg b)).
    destruct Hover.
    + apply (sc_apart _ _ _ Hsc); try done; lia.
    + intros E. symmetry in E. revert E. apply (sc_apart _ _ _ Hsc); try done; lia.
Qed.
