(* ===== verification/RegAllocSim.v ===== *)
(** * Code in allocated registers does what code in virtual registers does

    The machine of MirSem.v with the virtual registers replaced by the registers
    [linearScanVReg] gives them: an instruction finds its operands in the registers of its
    virtual registers and leaves its result in the register of the one it defines (nowhere if
    that one is never read). There is one file of registers: what the operations on fixed registers
    read and write (the result of a call in rax, say) is in the same eight registers as the values,
    and a call leaves what it likes in all of them. *)

From stdpp Require Import gmap.
From S2P Require Import Prelude Mir MirOptimize MirSem RegAlloc RegAllocRanges.

(** ** Buffers the builder makes *)

(** Operands are numbers of virtual registers. *)
Definition numberedAt (m : Mir) : Prop :=
  Forall (fun v => (0 <= v)%Z /\ (kind (op m) <> KNative -> v <> kInvalidVReg)) (usedBy m) /\
  match defines m with Some v => (0 <= v)%Z | None => True end.

(** Instruction [m] at [i] reads what is defined before it, defines nothing behind the last
    use, and does not jump into a live range from outside of it. *)
Definition orderlyAt (buf : list Mir) (i : nat) (m : Mir) : Prop :=
  Forall (fun v => match startOf buf v with Some s => s < i | None => False end) (usesV m) /\
  match definesV m with
  | Some v => match endOf buf v with Some e => i <= e | None => True end
  | None => True
  end /\
  match kind (op m), landing buf (imm32 m) with
  | KJump _, Some j =>
      Forall (fun v => match startOf buf v, endOf buf v with
                       | Some s, Some e => s < j <= e -> s < i <= e
                       | _, _ => True
                       end) (seq 0 (length (firstDef (collectVRegDefUse buf))))
  | _, _ => True
  end.

#[export] Instance numberedAt_dec m : Decision (numberedAt m).
Proof. unfold numberedAt. destruct (defines m); apply _. Defined.
#[export] Instance orderlyAt_dec buf i m : Decision (orderlyAt buf i m).
Proof.
  unfold orderlyAt. apply and_dec; [|apply and_dec].
  - apply Forall_dec. intros v. destruct (startOf buf v); apply _.
  - destruct (definesV m); [destruct (endOf buf _)|]; apply _.
  - destruct (kind (op m)); try apply _. destruct (landing buf (imm32 m)); [|apply _].
    apply Forall_dec. intros v. destruct (startOf buf v); [destruct (endOf buf v)|]; apply _.
Defined.

Definition orderly (buf : list Mir) : Prop :=
  Forall numberedAt buf /\ Forall (fun p => orderlyAt buf p.1 p.2) (zip (seq 0 (length buf)) buf).
#[export] Instance orderly_dec buf : Decision (orderly buf).
Proof. unfold orderly. apply _. Defined.

Lemma orderly_at buf i m : orderly buf -> buf !! i = Some m -> numberedAt m /\ orderlyAt buf i m.
Proof.
  intros [Hn Ho] Hm. rewrite Forall_lookup in Hn. rewrite Forall_lookup in Ho.
  split; [by eapply Hn|]. apply (Ho i (i, m)). apply lookup_zip_Some. split; [|done].
  apply lookup_seq. split; [done|]. by eapply lookup_lt_Some.
Qed.

(** ** Liveness along the control flow *)

Definition flows (buf : list Mir) (i j : nat) : Prop :=
  exists m, buf !! i = Some m /\
    match kind (op m) with
    | KReturn | KVRet => False
    | KJump conditional => landing buf (imm32 m) = Some j \/ (conditional = true /\ j = S i)
    | _ => j = S i
    end.

Inductive liveIn (buf : list Mir) (v : nat) : nat -> Prop :=
  | live_use i m : buf !! i = Some m -> v ∈ usesV m -> liveIn buf v i
  | live_over i j m : buf !! i = Some m -> definesV m <> Some v -> flows buf i j ->
      liveIn buf v j -> liveIn buf v i.

Lemma startOf_bound buf v s : startOf buf v = Some s -> v < length (firstDef (collectVRegDefUse buf)).
Proof.
  unfold startOf, at_. destruct (_ !! v) eqn:Hv; [|done]. intros _. by eapply lookup_lt_Some.
Qed.

(** Control is in the live range wherever the value is live. *)
Lemma live_covered buf v i : orderly buf -> liveIn buf v i ->
  exists s e, startOf buf v = Some s /\ endOf buf v = Some e /\ s < i <= e.
Proof.
  intros Hord. induction 1 as [i m Hm Hu|i j m Hm Hd (m' & Hm' & Hf) Hl IH].
  - destruct (orderly_at _ _ _ Hord Hm) as [_ (Hs & _)]. rewrite Forall_forall in Hs.
    specialize (Hs v Hu). destruct (startOf buf v) as [s|]; [|done].
    destruct (endOf_ge buf v i m Hm) as (e & He & ?); [by left|]. by exists s, e.
  - rewrite Hm in Hm'. injection Hm' as <-. destruct IH as (s & e & Hs & He & Hj).
    exists s, e. split; [done|split; [done|]].
    assert (Hfall : j = S i -> s < i <= e).
    { intros ->. destruct (decide (i = s)) as [->|]; [|lia].
      apply startOf_defines in Hs as (m' & Hm' & Hd'). congruence. }
    destruct (kind (op m)) eqn:Ek; try (exact (Hfall Hf)); try done.
    destruct Hf as [Hland|[_ ?]]; [|by apply Hfall].
    destruct (orderly_at _ _ _ Hord Hm) as [_ (_ & _ & Hjump)]. rewrite Ek, Hland in Hjump.
    rewrite Forall_forall in Hjump. specialize (Hjump v). rewrite Hs, He in Hjump.
    apply Hjump; [|done]. apply elem_of_seq. apply startOf_bound in Hs. lia.
Qed.

(** ** Fixed registers

    The registers an operation names itself, or uses by the convention of calls (mir.h). r11 is the
    scratch register of the encoder, which every instruction may write. *)
Definition argumentRegs : list Z := [kRegRcx; kRegRdx; kRegR8; kRegR9; kRegRdi; kRegRsi].

Definition fixedReads (m : Mir) : list Z :=
  match op m with
  | MovRegReg => [r1 m]
  | VMovFromRax | Ret => [kRegRax]
  | CallRax | JmpRax => kRegRax :: argumentRegs
  | CallRel32 => argumentRegs
  | PushRdi => [kRegRdi]
  | PushRsi => [kRegRsi]
  | PushRbx => [kRegRbx]
  | _ => []
  end.

Definition fixedWrites (m : Mir) : list Z :=
  match op m with
  | MovRegReg | MovRegImm32 | MovRegImm64 => [r0 m]
  | VMovToRax | CallRax | CallRel32 | CallHelper => [kRegRax]
  | PopRdi => [kRegRdi]
  | PopRsi | MovRsiR13 => [kRegRsi]
  | PopRbx => [kRegRbx]
  | _ => []
  end.

Definition landed (buf : list Mir) (j : nat) : Prop :=
  Exists (fun m => isJumpOp (op m) = true /\ landing buf (imm32 m) = Some j) buf.
#[export] Instance landed_dec buf j : Decision (landed buf j).
Proof. unfold landed. apply _. Defined.

(** The register an instruction leaves its result in. *)
Definition resultReg (alloc : nat -> option nat) (m : Mir) : list Z :=
  match defines m with
  | Some x => match alloc (Z.to_nat x) with Some r => [Z.of_nat r] | None => [] end
  | None => []
  end.

(** The registers that hold in front of [i] what the fixed operations in front of it left there, along
    straight lines of code: no value was put over it, no call was made since. *)
Definition cleanAfter (alloc : nat -> option nat) (m : Mir) (clean : list Z) : list Z :=
  filter (fun r => r ∉ resultReg alloc m)
    (fixedWrites m ++ (if isClobber (op m) then [] else filter (fun r => r <> kRegR11) clean)).

Fixpoint cleanAt (buf : list Mir) (alloc : nat -> option nat) (i : nat) : list Z :=
  if decide (landed buf i) then []
  else match i with
       | O => [0; 1; 2; 3; 4; 5; 6; 7; 8; 9]%Z
       | S j => match buf !! j with Some m => cleanAfter alloc m (cleanAt buf alloc j) | None => [] end
       end.

(** A fixed operation reads what a fixed operation has left, and writes over no value that is read
    behind it. *)
Definition fixedApartAt (buf : list Mir) (alloc : nat -> option nat) (i : nat) (m : Mir) : Prop :=
  Forall (fun r => r ∈ cleanAt buf alloc i) (fixedReads m) /\
  (isClobber (op m) = false ->
    Forall (fun v => match startOf buf v, endOf buf v, alloc v with
                     | Some s, Some e, Some r => Z.of_nat r ∈ fixedWrites m -> ~ (s < i < e)
                     | _, _, _ => True
                     end) (seq 0 (length (firstDef (collectVRegDefUse buf))))).

#[export] Instance fixedApartAt_dec buf alloc i m : Decision (fixedApartAt buf alloc i m).
Proof.
  unfold fixedApartAt. apply and_dec; [apply _|]. apply impl_dec; [apply _|]. apply Forall_dec. intros v.
  destruct (startOf buf v), (endOf buf v), (alloc v); apply _.
Defined.

Definition fixedApart (buf : list Mir) (alloc : nat -> option nat) : Prop :=
  Forall (fun p => fixedApartAt buf alloc p.1 p.2) (zip (seq 0 (length buf)) buf).
#[export] Instance fixedApart_dec buf alloc : Decision (fixedApart buf alloc).
Proof. unfold fixedApart. apply _. Defined.

Lemma fixedApart_at buf alloc i m : fixedApart buf alloc -> buf !! i = Some m -> fixedApartAt buf alloc i m.
Proof.
  unfold fixedApart. rewrite Forall_lookup. intros Ha Hm. apply (Ha i (i, m)). apply lookup_zip_Some. split; [|done].
  apply lookup_seq. split; [done|]. by eapply lookup_lt_Some.
Qed.

Section simulation.
(** The rest of the machine: the physical registers by their numbers, and what is not a register. *)
Context {X : Type} (hw : @Hardware (gmap Z Z * X)).
Context (buf : list Mir) (alloc : nat -> option nat).
Implicit Types (s : @State (gmap Z Z * X)) (m : Mir) (v : nat) (p q : gmap Z Z).

(** ** The machine with registers

    Its values are in the physical registers; [vr] is empty. *)
Definition regValue p (v : nat) : Z :=
  match alloc v with Some r => default 0%Z (p !! Z.of_nat r) | None => 0%Z end.

(** The operands of an instruction, by the virtual registers that name them. *)
Definition viewed m s : State :=
  mkState (list_to_map ((fun x => (x, regValue (ext s).1 (Z.to_nat x))) <$> usedBy m)) (fr s) (ext s).

Definition writeBack m (result p : gmap Z Z) : gmap Z Z :=
  match defines m with
  | Some x =>
      match alloc (Z.to_nat x) with
      | Some r => <[Z.of_nat r := default 0%Z (result !! x)]> p
      | None => p
      end
  | None => p
  end.

Definition after m s1 : State := mkState ∅ (fr s1) (writeBack m (vr s1) (ext s1).1, (ext s1).2).

Definition regStep m s : effect :=
  match step hw m (viewed m s) with
  | Next s1 => Next (after m s1)
  | Jump t s1 => Jump t (after m s1)
  | Stop o => Stop o
  end.

Fixpoint regRun (fuel : nat) (i : nat) s : option outcome :=
  match fuel with
  | O => None
  | S fuel =>
      match buf !! i with
      | None => Some (RanOff s)
      | Some m =>
          match regStep m s with
          | Next s => regRun fuel (S i) s
          | Jump target s => j ← landing buf target; regRun fuel j s
          | Stop o => Some o
          end
      end
  end.

(** Where an activation ends, its registers are not seen, but for those the code behind a return or
    a jump gets. *)
Definition returnRegs (o : MirOp) : list Z :=
  match o with Ret => [kRegRax] | JmpRax => kRegRax :: argumentRegs | _ => [] end.
Definition only (rs : list Z) p : gmap Z Z := filter (fun kv => kv.1 ∈ rs) p.
Definition observe (o : @outcome (gmap Z Z * X)) : @outcome (gmap Z Z * X) :=
  match o with
  | LeftAt m s => LeftAt m (mkState ∅ (fr s) (∅, (ext s).2))
  | RanOff s => RanOff (mkState ∅ (fr s) (∅, (ext s).2))
  | Returned o v e => Returned o v (only (returnRegs o) e.1, e.2)
  | Faulted m e => Faulted m (∅, e.2)
  end.

(** ** The simulation *)

(** An instruction depends on the registers it reads, and the outside on none but the fixed ones it
    reads; two runs leave the same in the fixed registers it writes, and an instruction that is no
    call leaves the others alone. *)
Definition agreeOn (rs : list Z) p p' : Prop := forall r, r ∈ rs -> p !! r = p' !! r.
Definition moved m p p' q q' : Prop := agreeOn (fixedWrites m) q q' /\
  (isClobber (op m) = false -> forall r, r ∉ fixedWrites m -> r <> kRegR11 -> q !! r = p !! r /\ q' !! r = p' !! r).

Record respects : Prop := {
  re_exec m vs vs' p p' x : (forall z, z ∈ usedBy m -> default 0%Z (vs !! z) = default 0%Z (vs' !! z)) ->
    agreeOn (fixedReads m) p p' ->
    match exec hw m vs (p, x), exec hw m vs' (p', x) with
    | Some (y, e), Some (y', e') => y = y' /\ e.2 = e'.2 /\ moved m p p' e.1 e'.1
    | None, None => True
    | _, _ => False
    end;
  re_taken o p p' x : taken hw o (p, x) = taken hw o (p', x);
  re_opaque m s s' : kind (op m) = KOpaque -> fr s = fr s' -> (ext s).2 = (ext s').2 -> agreeOn (fixedReads m) (ext s).1 (ext s').1 ->
    match opaque hw m s, opaque hw m s' with
    | Some a, Some b => fr a = fr b /\ (ext a).2 = (ext b).2 /\ moved m (ext s).1 (ext s').1 (ext a).1 (ext b).1
    | None, None => True
    | _, _ => False
    end;
  re_native m xs p p' x :
    match native hw m xs (p, x), native hw m xs (p', x) with
    | Some (y, e), Some (y', e') => y = y' /\ e.2 = e'.2
    | None, None => True
    | _, _ => False
    end;
  re_push y p p' x : (push hw y (p, x)).1 = p /\ (push hw y (p, x)).2 = (push hw y (p', x)).2;
  re_pop p p' x : (pop hw (p, x)).1 = (pop hw (p', x)).1 /\ (pop hw (p, x)).2.1 = p /\ (pop hw (p, x)).2.2 = (pop hw (p', x)).2.2;
}.
Context (Hre : respects) (Hfixed : fixedApart buf alloc).
Context (Hord : orderly buf) (Hvalid : valid buf alloc).

Definition inRegisters (i : nat) s s' : Prop :=
  fr s = fr s' /\ (ext s).2 = (ext s').2 /\ agreeOn (cleanAt buf alloc i) (ext s).1 (ext s').1 /\
  forall v, liveIn buf v i -> vreg s (Z.of_nat v) = regValue (ext s').1 v.

Lemma viewed_vreg i m s s' x :
  buf !! i = Some m -> inRegisters i s s' -> x ∈ usedBy m -> x <> kInvalidVReg ->
  default 0%Z (vr (viewed m s') !! x) = vreg s x.
Proof.
  intros Hm (_ & _ & _ & Hr) Hx Hne. destruct (orderly_at _ _ _ Hord Hm) as [[Hn _] _].
  rewrite Forall_forall in Hn. destruct (Hn x Hx) as [Hpos _].
  rewrite <- (Z2Nat.id x) at 2 by done. rewrite Hr.
  - simpl. destruct (_ !! x) as [y|] eqn:Hy.
    + apply elem_of_list_to_map_2, list_elem_of_fmap in Hy as (z & [= -> ->] & _). done.
    + apply not_elem_of_list_to_map_2 in Hy. destruct Hy.
      rewrite <- list_fmap_compose. simpl. by rewrite list_fmap_id.
  - apply (live_use _ _ _ m Hm). unfold usesV, regsOf. apply list_elem_of_fmap_2.
    by apply list_elem_of_filter.
Qed.

Lemma reads_clean i m s s' : buf !! i = Some m -> inRegisters i s s' -> agreeOn (fixedReads m) (ext s).1 (ext s').1.
Proof.
  intros Hm (_ & _ & Hc & _) r Hr. apply Hc. destruct (fixedApart_at _ _ _ _ Hfixed Hm) as [Hall _].
  rewrite Forall_forall in Hall. by apply Hall.
Qed.

Lemma defines_kind m (x : Z) : defines m = Some x ->
  match kind (op m) with KNative | KIntLoad | KFloatLoad | KCopy | KPlain => True | _ => False end.
Proof. unfold defines. by destruct (op m). Qed.

(** A definition of another virtual register leaves a live register alone. *)
Lemma register_kept i j m v w r :
  buf !! i = Some m -> flows buf i j -> liveIn buf v i -> liveIn buf v j ->
  definesV m = Some w -> v <> w -> alloc v = Some r -> alloc w <> Some r.
Proof.
  intros Hm (m' & Hm' & Hf) Hi Hj Hd Hne Hv Hw. rewrite Hm in Hm'. injection Hm' as <-.
  assert (j = S i) as ->.
  { unfold definesV in Hd. destruct (defines m) as [x|] eqn:Hdm; [|done].
    apply defines_kind in Hdm. by destruct (kind (op m)). }
  destruct (live_covered _ _ _ Hord Hi) as (s & e & Hs & He & Hsi).
  destruct (live_covered _ _ _ Hord Hj) as (s' & e' & Hs' & He' & Hsj). simplify_eq.
  destruct (endOf buf w) as [ew|] eqn:Hew.
  2: { by rewrite (valid_none _ _ Hvalid w Hew) in Hw. }
  destruct (startOf_le buf w i m Hm Hd) as (sw & Hsw & Hle).
  destruct (orderly_at _ _ _ Hord Hm) as [_ (_ & Hlate & _)]. rewrite Hd, Hew in Hlate.
  apply (valid_apart _ _ Hvalid v w Hne); [|by rewrite Hv].
  exists s, e, sw, ew. split_and!; [done..|].
  assert (s <> sw) by (intros ->; by destruct (Hne (starts_distinct _ _ _ _ Hs Hsw))). lia.
Qed.

Lemma clobber_not_crossed i j m v :
  buf !! i = Some m -> flows buf i j -> liveIn buf v i -> liveIn buf v j ->
  isClobber (op m) = false.
Proof.
  intros Hm (m' & Hm' & Hf) Hi Hj. rewrite Hm in Hm'. injection Hm' as <-.
  destruct (isClobber (op m)) eqn:Hc; [exfalso|done].
  destruct (live_covered _ _ _ Hord Hi) as (s & e & Hs & He & Hsi).
  destruct (live_covered _ _ _ Hord Hj) as (s' & e' & Hs' & He' & Hsj). simplify_eq.
  assert (j = S i) as -> by (unfold isClobber in Hc; by destruct (kind (op m))).
  destruct (valid_range _ _ Hvalid v e He) as (s' & Hs' & _ & Hno). simplify_eq.
  apply Hno. exists i, m. split_and!; [done..|lia|lia].
Qed.

(** The fixed registers behind an instruction. *)
Lemma clean_after i j m p p' q q' y :
  buf !! i = Some m -> flows buf i j -> agreeOn (cleanAt buf alloc i) p p' -> moved m p p' q q' ->
  agreeOn (cleanAt buf alloc j) q (writeBack m y q').
Proof.
  intros Hm (m' & Hm' & Hf) Hc [Hw Hk]. rewrite Hm in Hm'. injection Hm' as <-. intros r Hr.
  destruct (decide (landed buf j)) as [Hl|Hl]; [destruct j; cbn [cleanAt] in Hr; rewrite decide_True in Hr by done; by apply elem_of_nil in Hr|].
  assert (j = S i) as ->.
  { destruct (kind (op m)) eqn:Ek; try done. destruct Hf as [Hla|[_ ?]]; [exfalso|done]. apply Hl, Exists_exists. exists m.
    split; [by eapply list_elem_of_lookup_2|]. by rewrite isJumpOp_kind, Ek. }
  cbn [cleanAt] in Hr. rewrite decide_False, Hm in Hr by done. apply list_elem_of_filter in Hr as [Hne Hr].
  assert (Hb : writeBack m y q' !! r = q' !! r).
  { unfold writeBack, resultReg in *. destruct (defines m) as [z|]; [|done]. destruct (alloc (Z.to_nat z)) as [rz|]; [|done].
    rewrite lookup_insert_ne; [done|]. intros <-. apply Hne. by left. }
  rewrite Hb. apply elem_of_app in Hr as [Hr|Hr]; [by apply Hw|]. destruct (isClobber (op m)) eqn:Ec; [by apply elem_of_nil in Hr|].
  apply list_elem_of_filter in Hr as [H11 Hr]. destruct (decide (r ∈ fixedWrites m)) as [?|Hnw]; [by apply Hw|].
  destruct (Hk eq_refl r Hnw H11) as [-> ->]. by apply Hc.
Qed.

(** The register of a live value is left alone by what is not its definition. *)
Lemma value_kept i j m v p p' q q' :
  buf !! i = Some m -> flows buf i j -> liveIn buf v i -> liveIn buf v j -> moved m p p' q q' -> regValue q' v = regValue p' v.
Proof.
  intros Hm Hf Hi Hj [_ Hk]. specialize (Hk (clobber_not_crossed i j m v Hm Hf Hi Hj)).
  destruct (live_covered _ _ _ Hord Hi) as (s & e & Hs & He & Hsi).
  destruct (live_covered _ _ _ Hord Hj) as (s' & e' & Hs' & He' & Hsj). simplify_eq.
  destruct (valid_reg _ _ Hvalid _ _ He) as (r & Hal & Hr & Hn3 & Hn7). unfold regValue. rewrite Hal. f_equal. apply Hk.
  2: { unfold kRegR11. unfold kReservedRegScratch in Hn7. lia. }
  intros Hw. destruct (fixedApart_at _ _ _ _ Hfixed Hm) as [_ Hall]. specialize (Hall (clobber_not_crossed i j m v Hm Hf Hi Hj)).
  rewrite Forall_forall in Hall. specialize (Hall v). rewrite Hs, He, Hal in Hall.
  assert (j = S i) as ->.
  { destruct Hf as (m' & Hm' & Hf). rewrite Hm in Hm'. injection Hm' as <-. destruct (kind (op m)) eqn:Ek; try done.
    unfold fixedWrites in Hw. destruct (op m); try done; by apply elem_of_nil in Hw. }
  apply Hall; [|done|lia]. apply elem_of_seq. apply startOf_bound in Hs. lia.
Qed.

(** Behind an instruction whose result is [x] on both machines. *)
Lemma inRegisters_after i j m s s' x f q q' e :
  buf !! i = Some m -> flows buf i j -> kind (op m) <> KOpaque -> inRegisters i s s' -> moved m (ext s).1 (ext s').1 q q' ->
  inRegisters j (mkState (vr (setDefined m x s)) f (q, e))
    (after m (mkState (vr (setDefined m x (viewed m s'))) f (q', e))).
Proof.
  intros Hm Hf Hk (Hfr & He & Hc & Hr) Hmv. split_and!; [done..|by eapply clean_after|]. intros v Hv. simpl.
  destruct (orderly_at _ _ _ Hord Hm) as [[_ Hpos] _].
  destruct (decide (definesV m = Some v)) as [Hd|Hd].
  - unfold definesV in Hd. unfold setDefined, writeBack, vreg. destruct (defines m) as [z|] eqn:Hdm; [|done].
    injection Hd as <-. rewrite Z2Nat.id by done. simpl. rewrite !lookup_insert, !decide_True by done. simpl.
    destruct (live_covered _ _ _ Hord Hv) as (s0 & e0 & _ & He0 & _).
    destruct (valid_reg _ _ Hvalid _ _ He0) as (r & Hal & _).
    unfold regValue. by rewrite Hal, lookup_insert, decide_True.
  - assert (Hi : liveIn buf v i) by (by eapply live_over).
    assert (Hl : vreg (mkState (vr (setDefined m x s)) f (q, e)) (Z.of_nat v) = vreg s (Z.of_nat v)).
    { unfold setDefined, vreg. destruct (defines m) as [z|] eqn:Hdm; simpl; [|done].
      rewrite lookup_insert_ne; [done|]. intros ->. apply Hd. unfold definesV. rewrite Hdm. simpl.
      by rewrite Nat2Z.id. }
    rewrite Hl, (Hr v Hi), <- (value_kept i j m v _ _ q q') by done. unfold writeBack. destruct (defines m) as [z|] eqn:Hdm; [|done].
    destruct (alloc (Z.to_nat z)) as [r|] eqn:Hal; [|done]. unfold regValue.
    destruct (alloc v) as [rv|] eqn:Hav; [|done]. rewrite lookup_insert_ne; [done|].
    intros ->%Nat2Z.inj.
    assert (Hdz : definesV m = Some (Z.to_nat z)) by (unfold definesV; by rewrite Hdm).
    eapply (register_kept i j m v (Z.to_nat z)); try done. intros ->. congruence.
Qed.

(** An instruction that defines nothing. *)
Lemma inRegisters_pass i j m s s' f q q' e :
  buf !! i = Some m -> flows buf i j -> kind (op m) <> KOpaque -> defines m = None -> inRegisters i s s' ->
  moved m (ext s).1 (ext s').1 q q' ->
  inRegisters j (mkState (vr s) f (q, e)) (after m (mkState (vr (viewed m s')) f (q', e))).
Proof.
  intros Hm Hf Hk Hd Hin Hmv.
  pose proof (inRegisters_after i j m s s' 0 f q q' e Hm Hf Hk Hin Hmv) as Ha. unfold setDefined in Ha.
  by rewrite Hd in Ha.
Qed.

(** Nothing is done to the registers. *)
Lemma moved_same m p p' : fixedWrites m = [] -> moved m p p' p p'.
Proof. intros Hw. split; [|done]. intros r Hr. rewrite Hw in Hr. by apply elem_of_nil in Hr. Qed.

Lemma viewed_arguments i m (ps : NativeJitCallParams) s s' :
  buf !! i = Some m -> inRegisters i s s' -> kind (op m) = KNative -> params m = Some ps ->
  argument (viewed m s') <$> args ps = argument s <$> args ps.
Proof.
  intros Hm Hin Hk Hp. apply list_fmap_ext. intros k a Ha. unfold argument.
  destruct (Z.eqb_spec (argVreg a) kInvalidVReg) as [Hi|Hi]; simpl.
  - unfold slot. destruct Hin as (Hfr & _). by rewrite Hfr.
  - apply (viewed_vreg i); try done. unfold usedBy. rewrite Hk, Hp.
    apply list_elem_of_fmap_2. by eapply list_elem_of_lookup_2.
Qed.

(** What two instructions do, seen from outside. *)
Inductive sameSteps i m s s' : effect -> effect -> Prop :=
  | steps_next s1 s1' : (flows buf i (S i) -> inRegisters (S i) s1 s1') ->
      flows buf i (S i) -> sameSteps i m s s' (Next s1) (Next s1')
  | steps_jump t s1 s1' : (forall j, landing buf t = Some j -> inRegisters j s1 s1') ->
      sameSteps i m s s' (Jump t s1) (Jump t s1')
  | steps_stop o o' : observe o = observe o' -> sameSteps i m s s' (Stop o) (Stop o').

Lemma regStep_sound i m s s' :
  buf !! i = Some m -> inRegisters i s s' -> sameSteps i m s s' (step hw m s) (regStep m s').
Proof.
  intros Hm Hin. pose proof Hin as (Hfr & He & Hc & _). pose proof (reads_clean i m s s' Hm Hin) as Hrd.
  assert (Hflow : (match kind (op m) with KReturn | KVRet => False | KJump c => c = true | _ => True end) ->
    flows buf i (S i)).
  { intros Hk. exists m. split; [done|]. destruct (kind (op m)); auto. }
  assert (Hnone : (match kind (op m) with KNative | KIntLoad | KFloatLoad | KCopy | KPlain => False | _ => True end) ->
    defines m = None).
  { intros Hk. destruct (defines m) as [x|] eqn:Hd; [|done]. apply defines_kind in Hd. by destruct (kind (op m)). }
  assert (Hv : forall x, usedBy m = [x] -> kind (op m) <> KNative -> vreg (viewed m s') x = vreg s x).
  { intros x Hu Hk. apply (viewed_vreg i); [done|done|rewrite Hu; left|].
    destruct (orderly_at _ _ _ Hord Hm) as [[Hn _] _]. rewrite Hu in Hn.
    apply Forall_inv in Hn as [_ Hn]. by apply Hn. }
  assert (Huse : (match kind (op m) with KVRet | KIntStore | KFloatStore => True | _ => False end) ->
    usedBy m = [r0 m]) by (unfold usedBy; by destruct (op m)).
  assert (Hcopy : kind (op m) = KCopy -> usedBy m = [r1 m]) by (unfold usedBy; by destruct (op m)).
  assert (Hw : (match kind (op m) with KStack | KPlain | KOpaque => False | _ => True end) -> fixedWrites m = []).
  { unfold fixedWrites. by destruct (op m). }
  destruct s as [v0 f0 [p x]], s' as [v1 f1 [p' x']]. cbn [fr ext vr fst snd] in *. subst f1 x'.
  set (s := mkState v0 f0 (p, x)) in *. set (s' := mkState v1 f0 (p', x)) in *. unfold regStep, step.
  assert (Hpass : forall f e q q', kind (op m) <> KOpaque -> defines m = None -> flows buf i (S i) -> moved m p p' q q' ->
    sameSteps i m s s' (Next (mkState v0 f (q, e))) (Next (after m (mkState (vr (viewed m s')) f (q', e))))).
  { intros f e q q' Hk Hd Hf Hmv. apply steps_next; [|done]. intros _. by apply (inRegisters_pass i _ _ s s'). }
  assert (Hdef : forall y e q q', kind (op m) <> KOpaque -> flows buf i (S i) -> moved m p p' q q' ->
    sameSteps i m s s' (Next (setExt (q, e) (setDefined m y s)))
      (Next (after m (setExt (q', e) (setDefined m y (viewed m s')))))).
  { intros y e q q' Hk Hf Hmv. apply steps_next; [|done]. intros _.
    pose proof (inRegisters_after i (S i) m s s' y f0 q q' e Hm Hf Hk Hin Hmv) as Ha.
    unfold setExt, setDefined in *. by destruct (defines m). }
  assert (Hdef' : forall y, kind (op m) <> KOpaque -> fixedWrites m = [] -> flows buf i (S i) ->
    sameSteps i m s s' (Next (setDefined m y s)) (Next (after m (setDefined m y (viewed m s'))))).
  { intros y Hk Hnw Hf. pose proof (Hdef y x p p' Hk Hf (moved_same _ _ _ Hnw)) as Ha.
    unfold setExt, setDefined in *. by destruct (defines m). }
  assert (Hcase : kind (op m) = KStack \/ kind (op m) = KPlain -> exists y y' e e', (exec hw m v0 (p, x) = None /\ exec hw m (vr (viewed m s')) (p', x) = None) \/
    (exec hw m v0 (p, x) = Some (y, e) /\ exec hw m (vr (viewed m s')) (p', x) = Some (y', e') /\ y = y' /\ e.2 = e'.2 /\ moved m p p' e.1 e'.1)).
  { intros Hk. pose proof (re_exec Hre m v0 (vr (viewed m s')) p p' x) as Hx. cbn in Hx.
    assert (Hops : forall z, z ∈ usedBy m -> default 0%Z (v0 !! z) = default 0%Z (vr (viewed m s') !! z)).
    { intros z Hu. symmetry. apply (viewed_vreg i m s s'); try done. destruct (orderly_at _ _ _ Hord Hm) as [[Hn _] _].
      rewrite Forall_forall in Hn. apply Hn; [done|]. by destruct Hk as [-> | ->]. }
    specialize (Hx Hops Hrd). destruct (exec hw m v0 (p, x)) as [[y e]|], (exec hw m _ (p', x)) as [[y' e']|]; try done.
    - exists y, y', e, e'. right. by destruct Hx as (? & ? & ?).
    - exists 0%Z, 0%Z, (p, x), (p, x). by left. }
  destruct (kind (op m)) eqn:Ek; cbn [viewed vr fr ext fst snd] in *; change (ext s) with (p, x) in *; change (ext s') with (p', x) in *;
    change (fr s) with f0 in *; change (fr s') with f0 in *; change (vr s) with v0 in *; cbn [fst snd] in *.
  - apply Hpass; auto. by apply moved_same, Hw.
  - constructor. cbn. f_equal. f_equal. apply map_eq. intros r. apply option_eq. intros y. unfold only. rewrite !map_lookup_filter_Some. cbn.
    assert (Hrr : r ∈ returnRegs (op m) -> p !! r = p' !! r).
    { intros Hr. apply Hrd. unfold fixedReads. destruct (op m); try done; cbn in Hr; by apply elem_of_nil in Hr. }
    naive_solver congruence.
  - rewrite <- (Hv (r0 m)) by auto. constructor. cbn. f_equal. f_equal. unfold only. cbn. apply map_eq. intros r. apply option_eq. intros y.
    rewrite !map_lookup_filter_Some. split; by intros [_ ?%elem_of_nil].
  - rewrite (re_taken Hre (op m) p p' x). destruct (negb conditional || taken hw (op m) (p', x)) eqn:Ht.
    + apply steps_jump. intros j Hj.
      apply (inRegisters_pass i j m s s'); try done; [|by rewrite Ek|by apply Hnone|by apply moved_same, Hw].
      exists m. split; [done|]. rewrite Ek. by left.
    + destruct conditional; [|done]. apply Hpass; auto. by apply moved_same, Hw.
  - destruct (re_push Hre (slot s (disp m)) p p' x) as [Hp1 Hp2]. destruct (re_push Hre (slot s (disp m)) p' p' x) as [Hp3 _].
    unfold setExt, slot in *. cbn [fr s s'] in *. destruct (push hw _ (p, x)) as [q e], (push hw _ (p', x)) as [q' e']. cbn in *. subst.
    apply Hpass; auto. by apply moved_same, Hw.
  - destruct (re_pop Hre p p' x) as (Hp1 & Hp2 & Hp3). destruct (re_pop Hre p' p' x) as (_ & Hp4 & _).
    destruct (pop hw (p, x)) as [y [q e]], (pop hw (p', x)) as [y' [q' e']]. cbn in *. subst. apply Hpass; auto. by apply moved_same, Hw.
  - destruct (params m) as [a|] eqn:Ep.
    2: { assert (defines m = None) by (unfold defines; rewrite Ep; by destruct (op m)). apply Hpass; auto. by apply moved_same, Hw. }
    rewrite (viewed_arguments i m a s s') by done. pose proof (re_native Hre m (argument s <$> args a) p p' x) as Hn.
    assert (Hmv : forall q q', moved m p p' q q').
    { intros q q'. split; [intros r Hr; rewrite Hw in Hr by done; by apply elem_of_nil in Hr|]. unfold isClobber. by rewrite Ek. }
    destruct (native hw m _ (p, x)) as [[y [q e]]|], (native hw m _ (p', x)) as [[y' [q' e']]|]; try done; [|by constructor].
    cbn in Hn. destruct Hn as [<- <-]. destruct (Z.eqb_spec (resultVReg a) kInvalidVReg) as [Er|Er].
    + assert (defines m = None). { unfold defines. rewrite Ep. simpl. rewrite Er. by destruct (op m). }
      apply Hpass; auto.
    + by apply Hdef; auto.
  - pose proof (re_opaque Hre m s (viewed m s') Ek eq_refl eq_refl Hrd) as Ho.
    destruct (opaque hw m s) as [[va fa [qa xa]]|], (opaque hw m _) as [[vb fb [qb xb]]|]; try done; [|by constructor].
    cbn in Ho. destruct Ho as (<- & <- & Hmv). apply steps_next; [|by apply Hflow]. intros Hf. split_and!; [done..|by eapply clean_after|].
    intros v Hv'. exfalso.
    assert (Hi : liveIn buf v i).
    { eapply live_over; [done| |done|done]. unfold definesV. by rewrite Hnone. }
    pose proof (clobber_not_crossed i (S i) m v Hm Hf Hi Hv') as Hcl. unfold isClobber in Hcl. by rewrite Ek in Hcl.
  - apply Hdef'; auto.
  - apply Hdef'; auto.
  - rewrite (Hv (r0 m)) by auto. apply Hpass; auto. by apply moved_same, Hw.
  - rewrite (Hv (r0 m)) by auto. apply Hpass; auto. by apply moved_same, Hw.
  - rewrite (Hv (r1 m)) by auto. apply Hdef'; auto.
  - destruct Hcase as (y & y' & [q e] & [q' e'] & [[-> ->]|(-> & -> & <- & He' & Hmv)]); [by left|by constructor|]. cbn in He', Hmv. subst e'. apply Hdef; auto.
  - destruct Hcase as (y & y' & [q e] & [q' e'] & [[-> ->]|(-> & -> & <- & He' & Hmv)]); [by right|by constructor|]. cbn in He', Hmv. subst e'. apply Hdef; auto.
Qed.

(** As long as they run, the two machines do the same. *)
Lemma registers_simulate fuel i s s' :
  inRegisters i s s' -> observe <$> run hw fuel buf i s = observe <$> regRun fuel i s'.
Proof.
  revert i s s'. induction fuel as [|fuel IH]; intros i s s' Hin; simpl; [done|].
  destruct (buf !! i) as [m|] eqn:Hm.
  - destruct (regStep_sound i m s s' Hm Hin) as [s1 s1' Hn Hf|t s1 s1' Hj|o o' Ho].
    + by apply IH, Hn.
    + destruct (landing buf t) as [j|]; simpl; [|done]. by apply IH, Hj.
    + simpl. by rewrite Ho.
  - destruct Hin as (Hfr & He & _). simpl. by rewrite Hfr, He.
Qed.

(** At the entry no virtual register is live. *)
Lemma entry_inRegisters p f x : inRegisters 0 (mkState ∅ f (p, x)) (mkState ∅ f (p, x)).
Proof.
  split_and!; [done..|]. intros v (s0 & e0 & _ & _ & ?)%live_covered; [lia|done].
Qed.
End simulation.
