(* ===== verification/Jit.v ===== *)
(** * What the JIT's optimizer and register allocator guarantee

    The theorems about the machine IR: each pass of the optimizer and their sequence preserve
    what a compiled activation does; live ranges are what the instructions say; the linear scan
    finds registers exactly when there are enough; and the code in registers does what the code
    in virtual registers does. *)

From stdpp Require Import gmap.
From S2P Require Import Prelude Mir MirOptimize MirSem MirPasses MirSetup.
From S2P Require Import RegAlloc RegAllocRanges RegAllocSim.

(** ** A small machine and a small buffer, for the examples *)

Definition plain (o : MirOp) (d a b x : Z) (p : Z) : Mir := mkMir o d a x b 0 p None.

(** The rest of the machine: four registers and a flag. *)
Record Regs := mkRegs { rcx : Z; rdx : Z; rdi : Z; rsi : Z; zero : bool }.

Definition getReg (r : Z) (e : Regs) : Z :=
  if (r =? kRegRcx)%Z then rcx e else if (r =? kRegRdx)%Z then rdx e
  else if (r =? kRegRdi)%Z then rdi e else if (r =? kRegRsi)%Z then rsi e else 0%Z.
Definition setReg (r x : Z) (e : Regs) : Regs :=
  if (r =? kRegRcx)%Z then mkRegs x (rdx e) (rdi e) (rsi e) (zero e)
  else if (r =? kRegRdx)%Z then mkRegs (rcx e) x (rdi e) (rsi e) (zero e)
  else if (r =? kRegRdi)%Z then mkRegs (rcx e) (rdx e) x (rsi e) (zero e)
  else if (r =? kRegRsi)%Z then mkRegs (rcx e) (rdx e) (rdi e) x (zero e) else e.

Definition toy : @Hardware Regs := {|
  exec m vs e :=
    match op m with
    | MovRegReg => Some (0%Z, setReg (r0 m) (getReg (r1 m) e) e)
    | VLoadImm32 => Some (imm32 m, e)
    | VAdd => Some ((default 0 (vs !! r1 m) + default 0 (vs !! imm32 m))%Z, e)
    | VIdiv =>
        let y := default 0%Z (vs !! imm32 m) in
        if (y =? 0)%Z then None else Some ((default 0 (vs !! r1 m) ÷ y)%Z, e)
    | VTest => Some (0%Z, mkRegs (rcx e) (rdx e) (rdi e) (rsi e) (default 0 (vs !! r0 m) =? 0)%Z)
    | _ => Some (0%Z, e)
    end;
  taken o e := zero e;
  opaque m s := if (imm32 m =? 0)%Z then None else Some s;
  native m xs e := Some (foldr Z.add 0%Z xs, e);
  push x e := e;
  pop e := (0%Z, e);
|}.

(** Slot 8 := 5; slot 16 := 1 (dead, overwritten); slot 16 := slot 8 + 5; skip the rest if zero;
    return the sum. *)
Definition sample : list Mir :=
  [ plain MovRegReg kRegRdi kRegRcx 0 0 kMirInvalidPc;
    plain MovRegReg kRegRsi kRegRdx 0 0 kMirInvalidPc;
    plain MovRegReg kRegRcx kRegRdi 0 0 kMirInvalidPc;
    plain MovRegReg kRegRdx kRegRsi 0 0 kMirInvalidPc;
    plain VLoadImm32 1 0 5 0 0;
    plain VStoreToFrame 1 0 0 8 kMirInvalidPc;
    plain VStoreToFrame 1 0 0 16 kMirInvalidPc;
    plain VLoadFromFrame 2 0 0 8 1;
    plain VAdd 3 2 1 0 kMirInvalidPc;
    plain VStoreToFrame 3 0 0 16 kMirInvalidPc;
    plain VTest 3 0 0 0 kMirInvalidPc;
    plain JzRel32 0 0 3 0 kMirInvalidPc;
    plain VStoreToFrame 3 0 0 24 2;
    plain VRet 3 0 0 0 3 ].

Definition start : @State Regs := mkState ∅ ∅ (mkRegs 11 12 0 0 false).

(** Conditions on the instructions of a buffer, and on pairs of them, by computation. *)
Definition indexed (buf : list Mir) : list (nat * Mir) := zip (seq 0 (length buf)) buf.

Lemma indexed_lookup buf i m : buf !! i = Some m -> (i, m) ∈ indexed buf.
Proof.
  intros Hm. apply (list_elem_of_lookup_2 _ i), lookup_zip_Some. split; [|done].
  apply lookup_seq. split; [done|]. by eapply lookup_lt_Some.
Qed.

Lemma distinctPcs_by_computation buf :
  forallb (fun p => forallb (fun q => negb (hasPc p.2) || negb (pc p.2 =? pc q.2)%Z || (p.1 =? q.1))
    (indexed buf)) (indexed buf) = true -> distinctPcs buf.
Proof.
  rewrite forallb_forall. intros Hall i j m m' Hi Hj Hp Hpc.
  apply indexed_lookup, list_elem_of_In in Hi, Hj. specialize (Hall _ Hi). simpl in Hall.
  rewrite forallb_forall in Hall. specialize (Hall _ Hj). simpl in Hall.
  rewrite Hp, Hpc, Z.eqb_refl in Hall. by apply Nat.eqb_eq.
Qed.

Lemma realSlots_by_computation buf :
  forallb (fun m => negb (disp m =? kAllSlotsLive)%Z &&
    match params m with Some p => negb (resultDisp p =? kAllSlotsLive)%Z | None => true end) buf = true ->
  realSlots buf.
Proof.
  rewrite forallb_forall. intros Hall i m Hm. apply list_elem_of_lookup_2, list_elem_of_In, Hall in Hm.
  apply andb_true_iff in Hm as [Hd%negb_true_iff%Z.eqb_neq Hp]. split; [done|].
  intros p Ep. rewrite Ep in Hp. by apply negb_true_iff, Z.eqb_neq in Hp.
Qed.

Lemma storedOnce_by_computation buf :
  forallb (fun p => forallb (fun q =>
      match kind (op p.2), defines q.2 with
      | KIntStore, Some v => (q.1 <=? p.1) || negb (v =? r0 p.2)%Z
      | _, _ => true
      end) (indexed buf)) (indexed buf) = true -> storedOnce buf.
Proof.
  rewrite forallb_forall. intros Hall k i m d v Hki (ms & Hms & Hk & _ & Hr) Hm Hd.
  apply indexed_lookup, list_elem_of_In in Hms, Hm. specialize (Hall _ Hms). simpl in Hall.
  rewrite forallb_forall in Hall. specialize (Hall _ Hm). simpl in Hall. rewrite Hk, Hd, Hr in Hall.
  rewrite Z.eqb_refl in Hall. simpl in Hall. rewrite orb_false_r in Hall. apply Nat.leb_le in Hall. lia.
Qed.

Lemma toy_moves : movesRegisters toy getReg setReg.
Proof.
  split; unfold isArgumentReg, getReg, setReg, kRegRcx, kRegRdx, kRegRdi, kRegRsi.
  - intros m vs e Ho. exists 0%Z. simpl. by rewrite Ho.
  - intros r [] H. repeat case_match; done.
  - intros r x e H. repeat case_match; simpl in *; try done; lia.
  - intros r r' x e H Hne. repeat case_match; simpl in *; try done; lia.
Qed.

(** ** The optimizer *)

(** C11. The optimizer as a whole: an activation that runs the instructions [runMirOptimizationPasses]
    makes ends the way one that runs the original instructions does (it returns the same value,
    faults at the same instruction, or leaves with the same frame at the same instruction), and the
    other way round; in particular it ends exactly when the original ends. *)
Theorem passes_preserve {E} (hw : @Hardware E) get set buf keep s :
  movesRegisters hw get set -> movesUnlabelled buf ->
  distinctPcs buf -> realSlots buf -> (keep = true -> storedOnce buf) ->
  (forall o, reaches hw buf s o -> exists o',
     reaches hw (runMirOptimizationPasses buf keep) s o' /\ sameOutcome (Some o) (Some o')) /\
  (forall o', reaches hw (runMirOptimizationPasses buf keep) s o' -> exists o,
     reaches hw buf s o /\ sameOutcome (Some o) (Some o')).
Proof. intros. by eapply passes_reach. Qed.

Lemma sample_unlabelled : movesUnlabelled sample.
Proof. intros i m Hm Ho. by do 14 (destruct i as [|i]; [simplify_eq/=; done|]). Qed.

Lemma passes_preserve_witness :
  runMirOptimizationPasses sample true =
    [ plain MovRegReg kRegRdi kRegRcx 0 0 kMirInvalidPc;
      plain MovRegReg kRegRsi kRegRdx 0 0 kMirInvalidPc;
      plain VLoadImm32 1 0 5 0 0;
      plain Nop 1 0 0 8 kMirInvalidPc;
      plain Nop 1 0 0 16 kMirInvalidPc;
      plain VCopy 2 1 0 0 1;
      plain VAdd 3 2 1 0 kMirInvalidPc;
      plain Nop 3 0 0 16 kMirInvalidPc;
      plain VTest 3 0 0 0 kMirInvalidPc;
      plain JzRel32 0 0 3 0 kMirInvalidPc;
      plain Nop 3 0 0 24 2;
      plain VRet 3 0 0 0 3 ] /\
  exists o', reaches toy (runMirOptimizationPasses sample true) start o' /\
    sameOutcome (Some (Returned VRet 10 (mkRegs 11 12 11 12 false))) (Some o').
Proof.
  split; [vm_compute; reflexivity|].
  apply (passes_preserve toy getReg setReg sample true start toy_moves sample_unlabelled).
  - apply distinctPcs_by_computation. vm_compute. reflexivity.
  - apply realSlots_by_computation. vm_compute. reflexivity.
  - intros _. apply storedOnce_by_computation. vm_compute. reflexivity.
  - exists 20. vm_compute. reflexivity.
Defined.

(** Elimination of dead frame stores, at any instruction of the buffer: executions that start
    from states agreeing on the live slots (and on all registers) end the same way, whatever the
    other slots hold, when the stores to slots that are not live are left out. *)
Theorem deadStores_preserve {E} (hw : @Hardware E) buf fuel i s s' :
  distinctPcs buf -> realSlots buf ->
  agree (liveSlots (livenessAt buf i)) s s' ->
  sameOutcome (run hw fuel buf i s) (run hw fuel (eliminateDeadFrameStores buf) i s').
Proof. intros Hp Hr. by apply eliminate_sound. Qed.

(** At instruction 6 (the store that is overwritten) slot 16 and slot 24 are dead. *)
Lemma deadStores_preserve_witness :
  liveSlots (livenessAt sample 6) = {[ 8%Z ]} /\
  sameOutcome (run toy 10 sample 6 (mkState (<[1%Z := 5%Z]> ∅) (<[8%Z := 5%Z]> ∅) (ext start)))
    (run toy 10 (eliminateDeadFrameStores sample) 6
       (mkState (<[1%Z := 5%Z]> ∅) (<[16%Z := 77%Z]> (<[8%Z := 5%Z]> ∅)) (ext start))).
Proof.
  split; [vm_compute; reflexivity|]. apply deadStores_preserve.
  - apply distinctPcs_by_computation. vm_compute. reflexivity.
  - apply realSlots_by_computation. vm_compute. reflexivity.
  - split; [reflexivity|split; [reflexivity|]]. intros d Hd.
    assert (H8 : liveSlots (livenessAt sample 6) = {[ 8%Z ]}) by (vm_compute; reflexivity).
    unfold covered in Hd. rewrite H8 in Hd. assert (d = 8%Z) as -> by set_solver. reflexivity.
Defined.

(** Forwarding of frame stores: turning the reload of a slot that was just stored into a copy,
    and removing a store that is overwritten before it is read, does not change how an activation
    ends. Without [forwardStores] nothing is asked of the buffer. *)
Theorem peephole_preserves {E} (hw : @Hardware E) buf forwardStores fuel s :
  (forwardStores = true -> storedOnce buf) ->
  sameOutcome (run hw fuel buf 0 s) (run hw fuel (optimizePeephole buf forwardStores) 0 s).
Proof. intros Hs. apply peephole_sound; [done|]. apply related_start. Qed.

Lemma peephole_preserves_witness :
  optimizePeephole sample true !! 7 = Some (plain VCopy 2 1 0 0 1) /\
  sameOutcome (run toy 20 sample 0 start) (run toy 20 (optimizePeephole sample true) 0 start).
Proof.
  split; [vm_compute; reflexivity|]. apply peephole_preserves.
  intros _. apply storedOnce_by_computation. vm_compute. reflexivity.
Defined.

(** ** The register allocator *)

(** The live range of a virtual register: [collectVRegDefUse] gives the first instruction that
    defines it and the last one that reads it or keeps a quotient in it, and nothing for a register
    that is never defined, or never read. *)
Theorem ranges_exact buf v :
  firstAt (fun m => definesV m = Some v) buf 0 (at_ (firstDef (collectVRegDefUse buf)) v) /\
  lastAt (fun m => touches m v) buf 0 (at_ (lastUse (collectVRegDefUse buf)) v).
Proof. split; [apply startOf_spec|apply endOf_spec]. Qed.

(** C12. The linear scan is exact: it succeeds if and only if some assignment of registers is valid
    (values that are read have an allocatable register, values live at once have different ones, no
    value is live across a call), what it returns is valid, and the reason it gives for a failure is
    true of the buffer. *)
Theorem linearScan_exact buf :
  match linearScanVReg buf with
  | inr alloc => valid buf (pregForVReg alloc)
  | inl reason => justified buf reason /\ ~ exists alloc, valid buf alloc
  end.
Proof. apply linearScanVReg_spec. Qed.

(** C13. Code in registers: when the linear scan succeeds on a buffer the builder makes, an activation
    that keeps every value in the register the scan gave it does exactly what one with as many registers
    as values does, although calls leave what they like in all registers and the operations on fixed
    registers use the same ones. The buffer has to use a fixed register in time ([fixedApart]): what is
    read there (the result of a helper in rax) is what a fixed operation left, with no value put over
    it in between, and no fixed operation writes over a value that is still read. *)
Theorem registers_preserve {X} (hw : @Hardware (gmap Z Z * X)) buf alloc fuel p f x :
  respects hw -> orderly buf -> linearScanVReg buf = inr alloc -> fixedApart buf (pregForVReg alloc) ->
  observe <$> run hw fuel buf 0 (mkState ∅ f (p, x)) =
  observe <$> regRun hw buf (pregForVReg alloc) fuel 0 (mkState ∅ f (p, x)).
Proof.
  intros Hr Ho Ha Hf. pose proof (linearScanVReg_spec buf) as Hv. rewrite Ha in Hv.
  by apply registers_simulate, entry_inRegisters.
Qed.

(** A machine whose registers are one file, with a flag besides. Its helpers return 42 and leave 7 in
    rcx. *)
Definition fixedResult (m : Mir) (p : gmap Z Z) : gmap Z Z :=
  let w := match op m with MovRegReg => default 0%Z (p !! r1 m) | MovRegImm32 => imm32 m | _ => 0%Z end in
  foldr (fun r => <[r := w]>) p (fixedWrites m).

Definition oneFile : @Hardware (gmap Z Z * bool) := {|
  exec m vs e :=
    match op m with
    | VLoadImm32 => Some (imm32 m, e)
    | VAdd => Some ((default 0 (vs !! r1 m) + default 0 (vs !! imm32 m))%Z, e)
    | VMovFromRax => Some (default 0%Z (e.1 !! kRegRax), e)
    | VTest => Some (0%Z, (e.1, (default 0 (vs !! r0 m) =? 0)%Z))
    | _ => Some (0%Z, (fixedResult m e.1, e.2))
    end;
  taken o e := e.2;
  opaque m s := if (imm32 m =? 0)%Z then None else Some (mkState (vr s) (fr s) (<[kRegRax := 42%Z]> {[kRegRcx := 7%Z]}, (ext s).2));
  native m xs e := Some (foldr Z.add 0%Z xs, (∅, e.2));
  push x e := e;
  pop e := (0%Z, e);
|}.

Lemma fixedResult_moved m p p' : agreeOn (fixedReads m) p p' -> moved m p p' (fixedResult m p) (fixedResult m p').
Proof.
  intros Hr. unfold fixedResult. set (w := match op m with MovRegReg => _ | _ => _ end).
  assert (Ew : match op m with MovRegReg => default 0%Z (p' !! r1 m) | MovRegImm32 => imm32 m | _ => 0%Z end = w).
  { unfold w, fixedReads in *. destruct (op m); try done. rewrite (Hr (r1 m)); [done|left]. }
  rewrite Ew. clear Ew. clearbody w. split.
  - intros r Hin. clear Hr. induction (fixedWrites m) as [|z l IH]; [by apply elem_of_nil in Hin|]. cbn [foldr]. destruct (decide (z = r)) as [->|Hne].
    + by rewrite !lookup_insert_eq.
    + rewrite !lookup_insert_ne by done. apply IH. by apply elem_of_cons in Hin as [?|?].
  - intros _ r Hin _. induction (fixedWrites m) as [|z l IH]; [done|]. cbn [foldr]. apply not_elem_of_cons in Hin as [Hne Hin].
    rewrite !lookup_insert_ne by done. by apply IH.
Qed.

Lemma oneFile_respects : respects oneFile.
Proof.
  split; try done.
  - intros m vs vs' p p' x Hv Hr. pose proof (fixedResult_moved m p p' Hr) as Hm. cbn.
    assert (Hsame : fixedWrites m = [] -> moved m p p' p p') by apply moved_same.
    unfold usedBy in Hv. destruct (op m) eqn:Eo; cbn in *; try (split_and!; [done..|exact Hm]);
      (split; [|split; [|apply Hsame; unfold fixedWrites; by rewrite Eo]]); try done.
    + by rewrite Hv by set_solver.
    + unfold fixedReads in Hr. rewrite Eo in Hr. by rewrite (Hr kRegRax) by left.
    + by rewrite !Hv by set_solver.
  - intros m s s' Hk Hf He Hr. cbn. destruct (imm32 m =? 0)%Z; [done|]. split_and!; [done..|].
    split; [done|]. unfold isClobber. by rewrite Hk.
Qed.

(** Call a helper, add 5 to what it returns, store the sum and return it. *)
Definition helped : list Mir :=
  [ plain MovRegReg kRegRdi kRegRcx 0 0 kMirInvalidPc;
    plain CallHelper 0 0 1 0 0;
    plain VMovFromRax 1 0 0 0 kMirInvalidPc;
    plain VLoadImm32 2 0 5 0 kMirInvalidPc;
    plain VAdd 3 1 2 0 kMirInvalidPc;
    plain VStoreToFrame 3 0 0 8 kMirInvalidPc;
    plain VRet 3 0 0 0 1 ].
Definition helpedRegs : list (option nat) := [None; Some 0; Some 1; Some 0].

Lemma registers_preserve_witness :
  linearScanVReg helped = inr helpedRegs /\
  observe <$> run oneFile 20 helped 0 (mkState ∅ ∅ (<[kRegRcx := 3%Z]> ∅, false)) =
  observe <$> regRun oneFile helped (pregForVReg helpedRegs) 20 0 (mkState ∅ ∅ (<[kRegRcx := 3%Z]> ∅, false)) /\
  observe <$> regRun oneFile helped (pregForVReg helpedRegs) 20 0 (mkState ∅ ∅ (<[kRegRcx := 3%Z]> ∅, false)) = Some (Returned VRet 47 (∅, false)).
Proof.
  split; [vm_compute; reflexivity|]. split; [|vm_compute; reflexivity].
  apply (registers_preserve oneFile helped helpedRegs 20 _ ∅ false oneFile_respects).
  - apply (bool_decide_unpack _). vm_compute. exact I.
  - vm_compute. reflexivity.
  - apply (bool_decide_unpack _). vm_compute. exact I.
Defined.

(** With the load in front of the move the scan gives rax to the constant, and the result of the helper
    is lost: [fixedApart] refuses it. *)
Definition late : list Mir :=
  [ plain CallHelper 0 0 1 0 0;
    plain VLoadImm32 1 0 5 0 kMirInvalidPc;
    plain VMovFromRax 2 0 0 0 kMirInvalidPc;
    plain VAdd 3 1 2 0 kMirInvalidPc;
    plain VRet 3 0 0 0 1 ].

Example late_move_lost : exists alloc, linearScanVReg late = inr alloc /\ orderly late /\ ~ fixedApart late (pregForVReg alloc) /\
  observe <$> run oneFile 20 late 0 (mkState ∅ ∅ (∅, false)) = Some (Returned VRet 47 (∅, false)) /\
  observe <$> regRun oneFile late (pregForVReg alloc) 20 0 (mkState ∅ ∅ (∅, false)) = Some (Returned VRet 10 (∅, false)).
Proof.
  eexists. split; [vm_compute; reflexivity|]. split; [apply (bool_decide_unpack _); vm_compute; exact I|].
  split; [apply (bool_decide_eq_false_1 _); vm_compute; reflexivity|]. split; vm_compute; reflexivity.
Qed.
