(* ===== verification/Bytecode.v ===== *)
(** * Bytecode of the FastVM

    The instruction stream of src/src/passes/sched/fastvm/bytecode.h and bytecode.cpp: a vector of
    16-byte units, an instruction being a header unit, units of 32-bit operands and units of
    64-bit extra words. A unit is a [Bytecode] record; its four 32-bit words, which is how operands
    and extra words lie in it, are read and written with [getWord] and [setWord]. *)

From S2P Require Import Prelude.

Inductive OpCode :=
  | RETN | CAST | COPY | ACCS | JUMP | BRCH | JOIN | FILL | CALL | FUNC | TAIL | OPER | SCHD
  | LBEG | LTST | LEND
  | IADD | LADD | FADD | DADD | ISUB | LSUB | FSUB | DSUB | IMUL | LMUL | FMUL | DMUL
  | IDIV | LDIV | FDIV | DDIV | IMOD | LMOD
  | ILT | LLT | FLT | DLT | IGT | LGT | FGT | DGT | IEQ | LEQ | FEQ | DEQ
  | INE | LNE | FNE | DNE | ILE | LLE | FLE | DLE | IGE | LGE | FGE | DGE.

#[export] Instance OpCode_eq_dec : EqDecision OpCode.
Proof. solve_decision. Defined.

(** The opcodes in the order of the enumeration: an opcode is its position as a byte. *)
Definition allOpCodes : list OpCode :=
  [ RETN; CAST; COPY; ACCS; JUMP; BRCH; JOIN; FILL; CALL; FUNC; TAIL; OPER; SCHD;
    LBEG; LTST; LEND;
    IADD; LADD; FADD; DADD; ISUB; LSUB; FSUB; DSUB; IMUL; LMUL; FMUL; DMUL;
    IDIV; LDIV; FDIV; DDIV; IMOD; LMOD;
    ILT; LLT; FLT; DLT; IGT; LGT; FGT; DGT; IEQ; LEQ; FEQ; DEQ;
    INE; LNE; FNE; DNE; ILE; LLE; FLE; DLE; IGE; LGE; FGE; DGE ].

Definition opByte (o : OpCode) : Z :=
  match list_find (fun o' => o' = o) allOpCodes with Some (i, _) => Z.of_nat i | None => 0%Z end.
Definition opOf (b : Z) : option OpCode := if (b <? 0)%Z then None else allOpCodes !! Z.to_nat b.

Lemma opOf_opByte o : opOf (opByte o) = Some o.
Proof. by destruct o. Qed.

Lemma opByte_range o : (0 <= opByte o < 256)%Z.
Proof. destruct o; vm_compute; by split. Qed.

Definition hasJumpTarget (o : OpCode) : bool :=
  match o with JUMP | LTST | LEND => true | _ => false end.

Definition hasDynamicOperands (o : OpCode) : bool :=
  match o with BRCH | JOIN | FILL | CALL | FUNC | TAIL | OPER | SCHD => true | _ => false end.

Definition isDirectCallOpcode (o : OpCode) : bool := match o with FUNC | TAIL => true | _ => false end.

Definition extraWordCount (o : OpCode) : nat :=
  match o with
  | CAST | JOIN | LBEG | LTST | LEND | SCHD => 1
  | OPER => 3
  | FILL => 2
  | FUNC | TAIL => 4
  | _ => 0
  end.

(** ** A unit and its words *)

(** [BytecodeHeader]: [result] and the two [fastop] are signed 32-bit integers. *)
Record Bytecode := mkBytecode {
  opcode : Z; reserved0 : Z; opsize : Z; result : Z; fastop0 : Z; fastop1 : Z }.

Definition zeroUnit : Bytecode := mkBytecode 0 0 0 0 0 0.

(** The 32-bit word [j] of a unit, as an unsigned number. *)
Definition getWord (j : nat) (u : Bytecode) : Z :=
  match j with
  | 0%nat => opcode u + 2 ^ 8 * reserved0 u + 2 ^ 16 * opsize u
  | 1%nat => u32 (result u)
  | 2%nat => u32 (fastop0 u)
  | _ => u32 (fastop1 u)
  end%Z.

Definition setWord (j : nat) (x : Z) (u : Bytecode) : Bytecode :=
  match j with
  | 0%nat => mkBytecode (x mod 2 ^ 8) (x / 2 ^ 8 mod 2 ^ 8) (x / 2 ^ 16) (result u) (fastop0 u) (fastop1 u)
  | 1%nat => mkBytecode (opcode u) (reserved0 u) (opsize u) (i32 x) (fastop0 u) (fastop1 u)
  | 2%nat => mkBytecode (opcode u) (reserved0 u) (opsize u) (result u) (i32 x) (fastop1 u)
  | _ => mkBytecode (opcode u) (reserved0 u) (opsize u) (result u) (fastop0 u) (i32 x)
  end%Z.

(** A vector of units seen as an array of 32-bit words. *)
Definition readWord (vec : list Bytecode) (k : nat) : option Z := getWord (k mod 4) <$> vec !! (k / 4).
Definition writeWord (k : nat) (x : Z) (vec : list Bytecode) : list Bytecode :=
  alter (setWord (k mod 4) x) (k / 4) vec.

(** A 64-bit word takes two of them, the low half first. *)
Definition readWord64 (vec : list Bytecode) (k : nat) : option Z :=
  lo ← readWord vec k; hi ← readWord vec (S k); Some (lo + 2 ^ 32 * hi)%Z.
Definition writeWord64 (k : nat) (x : Z) (vec : list Bytecode) : list Bytecode :=
  writeWord (S k) (x / 2 ^ 32)%Z (writeWord k (x mod 2 ^ 32)%Z vec).

(** ** Operands and extra words of the instruction at a pc *)

Definition operandsAt (pc : nat) : nat := 4 * (pc + 1).

Definition readOperands (vec : list Bytecode) (k n : nat) : option (list Z) :=
  mapM (fun i => i32 <$> readWord vec i) (seq k n).

Definition normCnt (u : Bytecode) : nat := Z.to_nat (fastop0 u).
Definition withCnt (u : Bytecode) : nat := Z.to_nat (fastop1 u).

Definition nargs (vec : list Bytecode) (pc : nat) : option (list Z) :=
  u ← vec !! pc; readOperands vec (operandsAt pc) (normCnt u).
Definition wargs (vec : list Bytecode) (pc : nat) : option (list Z) :=
  u ← vec !! pc; readOperands vec (operandsAt pc + normCnt u) (withCnt u).

(** [extra()], as the index of the first extra word; [None] is the failed guard. *)
Definition extraAt (vec : list Bytecode) (pc : nat) : option nat :=
  u ← vec !! pc;
  o ← opOf (opcode u);
  GUARD negb (extraWordCount o =? 0);;
  Some (4 * (pc + Z.to_nat (opsize u)) - 2 * extraWordCount o).

(** The extra words, the first one being [*extra()] and the second [*extra2()]. *)
Definition extraWord (vec : list Bytecode) (pc i : nat) : option Z :=
  k ← extraAt vec pc; readWord64 vec (k + 2 * i).

(** ** Appending an instruction *)

Inductive AppendError := IndexTooLarge (n : nat) | TooManyUnits (n : nat).

(** [as_index]. *)
Definition as_index (n : nat) : AppendError + Z :=
  if (Z.of_nat n <=? 2 ^ 31 - 1)%Z then inr (Z.of_nat n) else inl (IndexTooLarge n).

Definition roundUp16 (n : nat) : nat := (n + 15) / 16 * 16.

Definition totalUnits (fastops : list Z) (operandCount : nat) (hasExtra : bool) (extraWords : nat) : nat :=
  let operandUnits := (match fastops with [] => roundUp16 (operandCount * 4) / 16 | _ => 0 end) in
  let extraUnits := (if hasExtra then (extraWords * 8 + 16 - 1) / 16 else 0) in
  1 + operandUnits + extraUnits.

(** Consecutive 32-bit words. *)
Fixpoint writeWords (k : nat) (xs : list Z) (vec : list Bytecode) : list Bytecode :=
  match xs with
  | [] => vec
  | x :: xs => writeWords (S k) xs (writeWord k (u32 x) vec)
  end.

Definition setHeader (o : OpCode) (units : nat) (res f0 f1 : Z) (u : Bytecode) : Bytecode :=
  mkBytecode (opByte o) (reserved0 u) (Z.of_nat units) res f0 f1.

(** The vector with the instruction at its end, and the instruction's pc. [None]: a failed guard
    of [extra()]. *)
Definition appendBytecode (vec : list Bytecode) (o : OpCode) (res : Z) (fastops : list Z)
    (normOperands withOperands : list Z) (hasExtra : bool) (extra : Z) (extraWords : nat)
    : option (AppendError + (list Bytecode * nat)) :=
  match as_index (length normOperands), as_index (length withOperands) with
  | inl e, _ => Some (inl e)
  | _, inl e => Some (inl e)
  | inr normCnt, inr withCnt =>
      let total := totalUnits fastops (length normOperands + length withOperands) hasExtra extraWords in
      if (2 ^ 16 - 1 <? Z.of_nat total)%Z then Some (inl (TooManyUnits total))
      else
        let offset := length vec in
        let vec := vec ++ replicate total zeroUnit in
        let vec := (match fastops with
                    | [] =>
                        writeWords (operandsAt offset) (normOperands ++ withOperands)
                          (alter (setHeader o total res normCnt withCnt) offset vec)
                    | f0 :: fs => alter (setHeader o total res f0 (default 0%Z (head fs))) offset vec
                    end) in
        if hasExtra then
          k ← extraAt vec offset;
          Some (inr (foldl (fun vec i => writeWord64 (k + 2 * i) 0 vec)
                       (writeWord64 k extra vec) (seq 1 (extraWords - 1)), offset))
        else Some (inr (vec, offset))
  end.

(** ** Targets and counts packed in operands *)

(** The linked target of a JUMP, spread over both operands. *)
Definition getJumpTargetPc (u : Bytecode) : Z := Z.lor (u32 (fastop0 u)) (Z.shiftl (u32 (fastop1 u)) 32).
Definition setJumpTargetPc (targetPc : Z) (u : Bytecode) : Bytecode :=
  mkBytecode (opcode u) (reserved0 u) (opsize u) (result u)
    (i32 (u32 (Z.land targetPc 0xFFFFFFFF))) (i32 (u32 (Z.shiftr targetPc 32))).

Definition kFuncExtraCountMask : Z := 0xFFFFFFFF.
Definition kFuncExtraTargetPcMask : Z := 0xFFFFFFFF.

(** The second extra word of a call: [targetPc : 32 | count : 32]. *)
Definition getFuncExtraCount (w : Z) : Z :=
  let count := Z.land w kFuncExtraCountMask in
  if (2 ^ 32 - 1 <=? count)%Z then (2 ^ 32 - 1)%Z else u32 count.
Definition getFuncExtraTargetPc (w : Z) : Z := Z.land (Z.shiftr w 32) kFuncExtraTargetPcMask.
Definition setFuncExtraTargetPc (targetPc w : Z) : option Z :=
  if (kFuncExtraTargetPcMask <? targetPc)%Z then None
  else Some (Z.lor (u64 (Z.shiftl targetPc 32)) (Z.land w kFuncExtraCountMask)).
(** The word and the count after counting a call. *)
Definition incFuncExtraCount (w : Z) : Z * Z :=
  let targetPc := Z.land w (Z.lxor kFuncExtraCountMask 0xFFFFFFFFFFFFFFFF) in
  let count := Z.land w kFuncExtraCountMask in
  let count := (if (count <? 2 ^ 32 - 1)%Z then count + 1 else count)%Z in
  (Z.lor targetPc count, u32 count).
