(* ===== verification/BytecodeLayout.v ===== *)
(** * What [appendBytecode] writes can be read back

    Reading and writing words of a vector of units, and the layout of an appended instruction:
    header, operands and extra words do not overlap, and nothing before the instruction changes. *)

From S2P Require Import Prelude Bytecode.

Definition word32 (x : Z) : Prop := (0 <= x < 2 ^ 32)%Z.
Definition int32 (x : Z) : Prop := (- 2 ^ 31 <= x < 2 ^ 31)%Z.

Lemma u32_word x : word32 (u32 x).
Proof. apply wrapu_range. lia. Qed.

Lemma u32_i32 x : word32 x -> u32 (i32 x) = x.
Proof.
  unfold word32, wrapu, wraps. intros Hx. rewrite (Z.mod_small x) by lia.
  destruct (Z.ltb_spec x (2 ^ (32 - 1))).
  - apply Z.mod_small. lia.
  - symmetry. apply (Z.mod_unique_pos _ _ (-1)); lia.
Qed.

Lemma i32_u32 x : int32 x -> i32 (u32 x) = x.
Proof.
  intros Hx. unfold wraps, wrapu. rewrite Z.mod_mod by lia. apply (wraps_small 32 x); [lia|exact Hx].
Qed.

(** ** Words of a unit *)

Lemma getWord_setWord j j' x u : j < 4 -> j' < 4 -> word32 x ->
  getWord j (setWord j' x u) = if decide (j' = j) then x else getWord j u.
Proof.
  intros Hj Hj' Hx. pose proof (u32_i32 x Hx) as Hi. unfold word32 in Hx.
  assert (H0 : (x mod 2 ^ 8 + 2 ^ 8 * (x / 2 ^ 8 mod 2 ^ 8) + 2 ^ 16 * (x / 2 ^ 16) = x)%Z).
  { change (2 ^ 16)%Z with (2 ^ 8 * 2 ^ 8)%Z. rewrite <- Z.div_div by lia.
    pose proof (Z.div_mod x (2 ^ 8)). pose proof (Z.div_mod (x / 2 ^ 8) (2 ^ 8)). lia. }
  destruct j as [|[|[|[|j]]]], j' as [|[|[|[|j']]]]; simpl; done || lia.
Qed.

Lemma readWord_writeWord vec k k' x : word32 x ->
  readWord (writeWord k x vec) k' =
    if decide (k = k') then if decide (k < 4 * length vec) then Some x else None else readWord vec k'.
Proof.
  intros Hx. unfold readWord, writeWord.
  pose proof (Nat.mod_upper_bound k 4). pose proof (Nat.mod_upper_bound k' 4).
  pose proof (Nat.div_mod_eq k 4). pose proof (Nat.div_mod_eq k' 4).
  destruct (decide (k / 4 = k' / 4)) as [E|E].
  - rewrite <- E, list_lookup_alter, decide_True by done. destruct (vec !! (k / 4)) as [u|] eqn:Hu; simpl.
    + apply lookup_lt_Some in Hu. rewrite getWord_setWord by (done || lia).
      repeat case_decide; try done; lia.
    + apply lookup_ge_None in Hu. repeat case_decide; try done; lia.
  - rewrite list_lookup_alter_ne by done. rewrite decide_False; [done|]. by intros ->.
Qed.

Lemma length_writeWord k x vec : length (writeWord k x vec) = length vec.
Proof. apply length_alter. Qed.

Lemma unit_writeWord vec k x i : i <> k / 4 -> writeWord k x vec !! i = vec !! i.
Proof. intros Hi. unfold writeWord. by rewrite list_lookup_alter_ne. Qed.

Lemma length_writeWords k xs vec : length (writeWords k xs vec) = length vec.
Proof. revert k vec. induction xs as [|x xs IH]; intros k vec; simpl; [done|]. by rewrite IH, length_writeWord. Qed.

Lemma readWord_writeWords vec k xs k' : k + length xs <= 4 * length vec ->
  readWord (writeWords k xs vec) k' =
    if decide (k <= k' < k + length xs) then u32 <$> xs !! (k' - k) else readWord vec k'.
Proof.
  revert k vec. induction xs as [|x xs IH]; intros k vec Hlen; simpl in *.
  - rewrite decide_False by lia. done.
  - rewrite IH by (rewrite length_writeWord; lia). rewrite readWord_writeWord by apply u32_word.
    destruct (decide (k = k')) as [<-|Hne].
    + rewrite decide_False by lia. rewrite !decide_True by lia. by rewrite Nat.sub_diag.
    + destruct (decide (S k <= k' < S k + length xs)) as [Hin|Hin].
      * rewrite decide_True by lia. by replace (k' - k) with (S (k' - S k)) by lia.
      * by rewrite decide_False by lia.
Qed.

Lemma unit_writeWords vec k xs i : (i < k / 4) -> writeWords k xs vec !! i = vec !! i.
Proof.
  revert k vec. induction xs as [|x xs IH]; intros k vec Hi; simpl; [done|].
  rewrite IH, unit_writeWord; [done|lia|]. eapply Nat.lt_le_trans; [exact Hi|]. apply Nat.Div0.div_le_mono. lia.
Qed.

(** ** 64-bit words *)

Definition word64 (x : Z) : Prop := (0 <= x < 2 ^ 64)%Z.

Lemma word64_halves x : word64 x -> word32 (x mod 2 ^ 32) /\ word32 (x / 2 ^ 32).
Proof.
  unfold word64, word32. intros Hx. split; [apply Z.mod_pos_bound; lia|].
  split; [apply Z.div_pos; lia|]. apply Z.div_lt_upper_bound; lia.
Qed.

Lemma readWord_writeWord64 vec k k' x : word64 x -> k' <> k -> k' <> S k ->
  readWord (writeWord64 k x vec) k' = readWord vec k'.
Proof.
  intros [Hlo Hhi]%word64_halves H1 H2. unfold writeWord64.
  rewrite !readWord_writeWord by done. by rewrite !decide_False by done.
Qed.

Lemma readWord64_writeWord64 vec k x : word64 x -> S k < 4 * length vec ->
  readWord64 (writeWord64 k x vec) k = Some x.
Proof.
  intros Hx Hk. pose proof (word64_halves x Hx) as [Hlo Hhi]. unfold readWord64, writeWord64.
  rewrite !readWord_writeWord by done. rewrite length_writeWord.
  rewrite (decide_False (P := S k = k)), !decide_True by lia. simpl. f_equal.
  pose proof (Z.div_mod x (2 ^ 32)). lia.
Qed.

Lemma readWord64_ne vec k k' x : word64 x -> k' + 2 <= k \/ k + 2 <= k' ->
  readWord64 (writeWord64 k x vec) k' = readWord64 vec k'.
Proof. intros Hx Hk. unfold readWord64. by rewrite !readWord_writeWord64 by (done || lia). Qed.

Lemma length_writeWord64 k x vec : length (writeWord64 k x vec) = length vec.
Proof. unfold writeWord64. by rewrite !length_writeWord. Qed.

Lemma unit_writeWord64 vec k x i : i < k / 4 -> writeWord64 k x vec !! i = vec !! i.
Proof.
  intros Hi. assert (k / 4 <= S k / 4) by (apply Nat.Div0.div_le_mono; lia).
  unfold writeWord64. by rewrite !unit_writeWord by lia.
Qed.

(** The extra words of an instruction: the first one and zeros. *)
Definition writeExtra (k : nat) (extra : Z) (n : nat) (vec : list Bytecode) : list Bytecode :=
  foldl (fun vec i => writeWord64 (k + 2 * i) 0 vec) (writeWord64 k extra vec) (seq 1 (n - 1)).

Lemma writeExtra_S k extra n vec : 0 < n ->
  writeExtra k extra (S n) vec = writeWord64 (k + 2 * n) 0 (writeExtra k extra n vec).
Proof.
  intros Hn. unfold writeExtra. replace (S n - 1) with (n - 1 + 1) by lia.
  rewrite seq_app, foldl_app. cbn [foldl seq]. by replace (1 + (n - 1)) with n by lia.
Qed.

Lemma word64_zero : word64 0.
Proof. by split. Qed.

Lemma writeExtra_spec k extra n vec : word64 extra -> 0 < n -> k + 2 * n <= 4 * length vec ->
  let vec' := writeExtra k extra n vec in
  length vec' = length vec /\
  (forall i, i < k / 4 -> vec' !! i = vec !! i) /\
  (forall k', k' < k -> readWord vec' k' = readWord vec k') /\
  (forall i, i < n -> readWord64 vec' (k + 2 * i) = Some (if decide (i = 0) then extra else 0%Z)).
Proof.
  intros He Hn Hlen. simpl. revert Hlen. destruct n as [|n]; [lia|]. clear Hn.
  induction n as [|n IH]; intros Hlen.
  - unfold writeExtra. simpl. split_and!.
    + apply length_writeWord64.
    + intros i Hi. by apply unit_writeWord64.
    + intros k' Hk. apply readWord_writeWord64; [done|lia..].
    + intros i Hi. replace i with 0 by lia. rewrite Nat.add_0_r. apply readWord64_writeWord64; [done|lia].
  - rewrite writeExtra_S by lia. destruct IH as (Hl & Hu & Hw & Hx); [lia|].
    assert (Hdiv : k / 4 <= (k + 2 * S n) / 4) by (apply Nat.Div0.div_le_mono; lia).
    split_and!.
    + by rewrite length_writeWord64.
    + intros i Hi. rewrite unit_writeWord64 by lia. by apply Hu.
    + intros k' Hk. rewrite readWord_writeWord64; [by apply Hw|apply word64_zero|lia..].
    + intros i Hi. destruct (decide (i = S n)) as [->|Hne].
      * rewrite readWord64_writeWord64; [by rewrite decide_False by lia|apply word64_zero|]. rewrite Hl. lia.
      * rewrite readWord64_ne; [apply Hx; lia|apply word64_zero|lia].
Qed.

(** ** The appended instruction *)

Lemma units_bounds fastops count hasExtra n :
  let total := totalUnits fastops count hasExtra n in
  (fastops = [] -> 4 + count <= 4 * total - (if hasExtra then 2 * n else 0)) /\
  4 <= 4 * total - (if hasExtra then 2 * n else 0) /\ 1 <= total.
Proof.
  unfold totalUnits, roundUp16. cbn zeta.
  set (ops := match fastops with [] => _ | _ => _ end).
  set (ex := if hasExtra then (n * 8 + 16 - 1) / 16 else 0).
  assert (Hex : (if hasExtra then 2 * n else 0) <= 4 * ex).
  { unfold ex. destruct hasExtra; [|lia]. pose proof (Nat.div_mod_eq (n * 8 + 16 - 1) 16).
    pose proof (Nat.mod_upper_bound (n * 8 + 16 - 1) 16). lia. }
  assert (Hops : fastops = [] -> count <= 4 * ops).
  { intros ->. unfold ops. rewrite Nat.div_mul by done.
    pose proof (Nat.div_mod_eq (count * 4 + 15) 16). pose proof (Nat.mod_upper_bound (count * 4 + 15) 16). lia. }
  split_and!; [|lia|lia]. intros ->. specialize (Hops eq_refl). lia.
Qed.

Lemma setHeader_at vec units o res f0 f1 n :
  0 < n -> alter (setHeader o units res f0 f1) (length vec) (vec ++ replicate n zeroUnit) !! length vec =
    Some (mkBytecode (opByte o) 0 (Z.of_nat units) res f0 f1).
Proof.
  intros Hn. rewrite list_lookup_alter, decide_True by done.
  rewrite lookup_app_r, Nat.sub_diag by lia. destruct n; [lia|done].
Qed.

Lemma readOperands_words (vec : list Bytecode) k xs :
  Forall int32 xs -> (forall i x, xs !! i = Some x -> readWord vec (k + i) = Some (u32 x)) ->
  readOperands vec k (length xs) = Some xs.
Proof.
  unfold readOperands. revert k. induction xs as [|x xs IH]; intros k Hin Hr; simpl; [done|].
  apply Forall_cons in Hin as [Hx Hin]. pose proof (Hr 0 x eq_refl) as H0. rewrite Nat.add_0_r in H0.
  rewrite H0. simpl. rewrite (i32_u32 x Hx), (IH (S k)); [done|done|].
  intros i y Hy. replace (S k + i) with (k + S i) by lia. by apply Hr.
Qed.

(** An instruction as it is read back. *)
Record appended (vec vec' : list Bytecode) (pc total : nat) (o : OpCode) (res : Z)
    (fastops normOperands withOperands : list Z) (hasExtra : bool) (extra : Z) : Prop := {
  app_pc : pc = length vec;
  app_length : length vec' = pc + total;
  app_before i : i < pc -> vec' !! i = vec !! i;
  app_header : exists f0 f1, vec' !! pc = Some (mkBytecode (opByte o) 0 (Z.of_nat total) res f0 f1) /\
    (forall f fs, fastops = f :: fs -> f0 = f /\ f1 = default 0%Z (head fs));
  app_operands : fastops = [] -> nargs vec' pc = Some normOperands /\ wargs vec' pc = Some withOperands;
  app_extra : hasExtra = true -> forall i, i < extraWordCount o ->
    extraWord vec' pc i = Some (if decide (i = 0) then extra else 0%Z);
}.

Lemma as_index_spec n : match as_index n with
  | inr z => z = Z.of_nat n | inl e => e = IndexTooLarge n /\ (2 ^ 31 - 1 < Z.of_nat n)%Z end.
Proof. unfold as_index. destruct (Z.leb_spec (Z.of_nat n) (2 ^ 31 - 1)); [done|]. split; [done|lia]. Qed.

(** The vector before the extra words are written. *)
Definition withHeader (vec : list Bytecode) (o : OpCode) (total : nat) (res : Z)
    (fastops normOperands withOperands : list Z) : list Bytecode :=
  match fastops with
  | [] => writeWords (operandsAt (length vec)) (normOperands ++ withOperands)
            (alter (setHeader o total res (Z.of_nat (length normOperands)) (Z.of_nat (length withOperands)))
               (length vec) (vec ++ replicate total zeroUnit))
  | f0 :: fs => alter (setHeader o total res f0 (default 0%Z (head fs))) (length vec)
                  (vec ++ replicate total zeroUnit)
  end.

Lemma withHeader_spec vec o total res fastops norm withs :
  (fastops = [] -> 4 + length (norm ++ withs) <= 4 * total) -> 1 <= total ->
  let vec1 := withHeader vec o total res fastops norm withs in
  length vec1 = length vec + total /\
  (forall i, i < length vec -> vec1 !! i = vec !! i) /\
  (exists f0 f1, vec1 !! length vec = Some (mkBytecode (opByte o) 0 (Z.of_nat total) res f0 f1) /\
    (forall f fs, fastops = f :: fs -> f0 = f /\ f1 = default 0%Z (head fs)) /\
    (fastops = [] -> f0 = Z.of_nat (length norm) /\ f1 = Z.of_nat (length withs))) /\
  (fastops = [] -> forall i x, (norm ++ withs) !! i = Some x ->
     readWord vec1 (operandsAt (length vec) + i) = Some (u32 x)).
Proof.
  intros Hops Htot. simpl.
  assert (Halt : forall f0 f1 i, i < length vec ->
    alter (setHeader o total res f0 f1) (length vec) (vec ++ replicate total zeroUnit) !! i = vec !! i).
  { intros f0 f1 i Hi. rewrite list_lookup_alter_ne by lia. by rewrite lookup_app_l. }
  unfold withHeader. destruct fastops as [|f0 fs].
  - specialize (Hops eq_refl).
    assert (Hdiv : operandsAt (length vec) / 4 = length vec + 1).
    { unfold operandsAt. rewrite Nat.mul_comm. by apply Nat.div_mul. }
    split_and!.
    + rewrite length_writeWords, length_alter, length_app, length_replicate. lia.
    + intros i Hi. rewrite unit_writeWords by lia. by apply Halt.
    + eexists _, _. split_and!; [|done|done]. rewrite unit_writeWords by lia. apply setHeader_at. lia.
    + intros _ i x Hx. rewrite readWord_writeWords.
      2: { rewrite length_alter, (length_app vec), length_replicate. unfold operandsAt. lia. }
      rewrite decide_True by (apply lookup_lt_Some in Hx; lia).
      replace (_ + i - _) with i by lia. by rewrite Hx.
  - split_and!; [|by apply Halt| |done].
    + rewrite length_alter, length_app, length_replicate. lia.
    + eexists _, _. split_and!; [apply setHeader_at; lia| |done]. by intros f fs' [= -> ->].
Qed.

Lemma append_unfold vec o res fastops norm withs hasExtra extra n :
  appendBytecode vec o res fastops norm withs hasExtra extra n =
    let total := totalUnits fastops (length norm + length withs) hasExtra n in
    if (2 ^ 31 - 1 <? Z.of_nat (length norm))%Z then Some (inl (IndexTooLarge (length norm)))
    else if (2 ^ 31 - 1 <? Z.of_nat (length withs))%Z then Some (inl (IndexTooLarge (length withs)))
    else if (2 ^ 16 - 1 <? Z.of_nat total)%Z then Some (inl (TooManyUnits total))
    else
      let vec1 := withHeader vec o total res fastops norm withs in
      if hasExtra then
        k ← extraAt vec1 (length vec); Some (inr (writeExtra k extra n vec1, length vec))
      else Some (inr (vec1, length vec)).
Proof.
  unfold appendBytecode, as_index. cbn zeta.
  destruct (Z.leb_spec (Z.of_nat (length norm)) (2 ^ 31 - 1)), (Z.ltb_spec (2 ^ 31 - 1) (Z.of_nat (length norm)));
    try lia; [|done].
  destruct (Z.leb_spec (Z.of_nat (length withs)) (2 ^ 31 - 1)), (Z.ltb_spec (2 ^ 31 - 1) (Z.of_nat (length withs)));
    try lia; [|done].
  destruct (_ <? _)%Z; [done|]. unfold withHeader. by destruct fastops.
Qed.

Lemma extraAt_header vec pc o total res f0 f1 :
  vec !! pc = Some (mkBytecode (opByte o) 0 (Z.of_nat total) res f0 f1) -> 0 < extraWordCount o ->
  extraAt vec pc = Some (4 * (pc + total) - 2 * extraWordCount o).
Proof.
  intros Hu Hx. unfold extraAt. rewrite Hu. simpl. rewrite opOf_opByte. simpl.
  destruct (Nat.eqb_spec (extraWordCount o) 0); [lia|]. simpl. by rewrite Nat2Z.id.
Qed.

Lemma appendBytecode_spec vec o res fastops norm withs hasExtra extra n vec' pc :
  Forall int32 (norm ++ withs) -> word64 extra -> (hasExtra = true -> n = extraWordCount o) ->
  appendBytecode vec o res fastops norm withs hasExtra extra n = Some (inr (vec', pc)) ->
  appended vec vec' pc (totalUnits fastops (length norm + length withs) hasExtra n)
    o res fastops norm withs hasExtra extra.
Proof.
  intros Hin Hex Hn. rewrite append_unfold. cbn zeta.
  destruct (_ <? _)%Z; [done|]. destruct (_ <? _)%Z; [done|]. destruct (_ <? _)%Z; [done|].
  set (total := totalUnits _ _ _ _).
  pose proof (units_bounds fastops (length norm + length withs) hasExtra n) as (Hops & Hroom & Htot).
  cbn zeta in *. fold total in Hops, Hroom, Htot.
  set (vec1 := withHeader _ _ _ _ _ _ _).
  destruct (withHeader_spec vec o total res fastops norm withs) as (Hl & Hb & (f0 & f1 & Hh & Hf & Hc) & Hr).
  { intros E. specialize (Hops E). rewrite length_app. lia. } { done. }
  fold vec1 in Hl, Hb, Hh, Hr.
  (* what a later vector that keeps the header and the operands reads *)
  assert (Hargs : forall vec2, vec2 !! length vec = vec1 !! length vec ->
    (fastops = [] -> forall k, k < operandsAt (length vec) + length (norm ++ withs) -> readWord vec2 k = readWord vec1 k) ->
    fastops = [] -> nargs vec2 (length vec) = Some norm /\ wargs vec2 (length vec) = Some withs).
  { intros vec2 Hu Hk E. destruct (Hc E) as [-> ->]. specialize (Hk E). specialize (Hr E).
    apply Forall_app in Hin as [Hin1 Hin2]. unfold nargs, wargs. rewrite Hu, Hh. simpl.
    unfold normCnt, withCnt. simpl. rewrite !Nat2Z.id. rewrite length_app in Hk. split.
    - apply readOperands_words; [done|]. intros i x Hx. rewrite Hk.
      + apply Hr. by apply lookup_app_l_Some.
      + apply lookup_lt_Some in Hx. lia.
    - apply readOperands_words; [done|]. intros i x Hx. rewrite Hk.
      + rewrite <- Nat.add_assoc. apply Hr. rewrite lookup_app_r by lia.
        by replace (length norm + i - length norm) with i by lia.
      + apply lookup_lt_Some in Hx. lia. }
  destruct hasExtra.
  - specialize (Hn eq_refl). destruct (decide (extraWordCount o = 0)) as [E0|E0].
    { unfold extraAt. rewrite Hh. simpl. rewrite opOf_opByte. simpl. by rewrite E0. }
    rewrite (extraAt_header _ _ _ _ _ _ _ Hh) by lia. cbn [mbind option_bind]. rewrite <- Hn.
    set (k := 4 * (length vec + total) - 2 * n). intros [= <- <-].
    destruct (writeExtra_spec k extra n vec1) as (Hl' & Hu' & Hw' & Hx'); [done|lia| |].
    { unfold k. rewrite Hl. lia. }
    assert (Hk4 : length vec + 1 <= k / 4).
    { apply Nat.div_le_lower_bound; [done|]. unfold k. lia. }
    split.
    + done.
    + by rewrite Hl', Hl.
    + intros i Hi. rewrite Hu' by lia. by apply Hb.
    + exists f0, f1. split; [|done]. by rewrite Hu' by lia.
    + apply Hargs; [apply Hu'; lia|]. intros E j Hj. apply Hw'. specialize (Hops E).
      rewrite length_app in Hj. unfold operandsAt in Hj. unfold k. lia.
    + intros _ i Hi. unfold extraWord. rewrite (extraAt_header _ _ o total res f0 f1); [|by rewrite Hu' by lia|lia].
      cbn [mbind option_bind]. rewrite <- Hn. apply Hx'. by rewrite Hn.
  - intros [= <- <-]. split; try done; [by exists f0, f1|]. by apply Hargs.
Qed.

(** ** Packed fields *)

Lemma lor_shifted hi lo : (0 <= lo < 2 ^ 32)%Z -> Z.lor (Z.shiftl hi 32) lo = (hi * 2 ^ 32 + lo)%Z.
Proof.
  intros Hlo. rewrite Z.lor_comm, <- (Z.shiftl_mul_pow2 hi 32) by lia.
  assert (Hd : Z.land (Z.shiftl hi 32) lo = 0%Z).
  { apply Z.bits_inj'. intros n Hn. rewrite Z.land_spec, Z.bits_0. destruct (Z.ltb_spec n 32).
    - by rewrite Z.shiftl_spec_low.
    - rewrite <- (Z.mod_small lo (2 ^ 32)), Z.mod_pow2_bits_high by lia. apply andb_false_r. }
  rewrite Z.lor_comm. pose proof (Z.add_lor_land (Z.shiftl hi 32) lo). lia.
Qed.

Lemma land_low w : Z.land w 0xFFFFFFFF = (w mod 2 ^ 32)%Z.
Proof. change 0xFFFFFFFF%Z with (Z.ones 32). by rewrite Z.land_ones. Qed.

Lemma low_high hi lo : (0 <= lo < 2 ^ 32)%Z ->
  ((hi * 2 ^ 32 + lo) mod 2 ^ 32 = lo /\ (hi * 2 ^ 32 + lo) / 2 ^ 32 = hi)%Z.
Proof.
  intros Hlo. split.
  - rewrite Z.add_comm, Z.mod_add by lia. by apply Z.mod_small.
  - rewrite Z.add_comm, Z.div_add by lia. rewrite Z.div_small by done. lia.
Qed.

Lemma getJumpTargetPc_set t u : word64 t -> getJumpTargetPc (setJumpTargetPc t u) = t.
Proof.
  intros Ht. pose proof (word64_halves t Ht) as [Hlo Hhi]. unfold getJumpTargetPc, setJumpTargetPc. simpl.
  rewrite !u32_i32 by apply u32_word. rewrite land_low, Z.shiftr_div_pow2 by lia.
  rewrite Z.lor_comm, lor_shifted by apply u32_word. unfold wrapu.
  rewrite Z.mod_mod by lia. rewrite (Z.mod_small (t / 2 ^ 32)) by done. pose proof (Z.div_mod t (2 ^ 32)). lia.
Qed.

(** The halves of the second extra word of a call. *)
Lemma funcExtra_fields w : word64 w ->
  getFuncExtraCount w = (w mod 2 ^ 32)%Z /\ getFuncExtraTargetPc w = (w / 2 ^ 32)%Z.
Proof.
  intros Hw. pose proof (word64_halves w Hw) as [Hlo Hhi].
  unfold getFuncExtraCount, getFuncExtraTargetPc, kFuncExtraCountMask, kFuncExtraTargetPcMask.
  rewrite !land_low, Z.shiftr_div_pow2 by lia. rewrite (Z.mod_small (w / 2 ^ 32)) by done. split; [|done].
  unfold word32 in Hlo. destruct (Z.leb_spec (2 ^ 32 - 1) (w mod 2 ^ 32)); [lia|].
  unfold wrapu. by rewrite Z.mod_mod.
Qed.

Lemma word64_join hi lo : word32 hi -> word32 lo -> word64 (hi * 2 ^ 32 + lo).
Proof. unfold word32, word64. lia. Qed.

Lemma setFuncExtraTargetPc_spec t w : (0 <= t)%Z -> word64 w ->
  match setFuncExtraTargetPc t w with
  | None => (2 ^ 32 <= t)%Z
  | Some w' => word64 w' /\ getFuncExtraTargetPc w' = t /\ getFuncExtraCount w' = getFuncExtraCount w
  end.
Proof.
  intros Ht Hw. pose proof (word64_halves w Hw) as [Hlo _].
  unfold setFuncExtraTargetPc, kFuncExtraTargetPcMask, kFuncExtraCountMask.
  destruct (Z.ltb_spec 0xFFFFFFFF t); [lia|].
  assert (Ht32 : word32 t) by (unfold word32; lia).
  rewrite land_low. unfold wrapu. rewrite Z.mod_small.
  2: { rewrite Z.shiftl_mul_pow2 by lia. unfold word32 in Ht32. lia. }
  rewrite lor_shifted by done. pose proof (word64_join _ _ Ht32 Hlo) as Hw'.
  destruct (funcExtra_fields _ Hw') as [-> ->]. destruct (funcExtra_fields _ Hw) as [-> _].
  destruct (low_high t (w mod 2 ^ 32) Hlo) as [-> ->]. done.
Qed.

Lemma incFuncExtraCount_spec w : word64 w ->
  let (w', n) := incFuncExtraCount w in
  word64 w' /\ getFuncExtraTargetPc w' = getFuncExtraTargetPc w /\ n = getFuncExtraCount w' /\
  n = Z.min (getFuncExtraCount w + 1) (2 ^ 32 - 1).
Proof.
  intros Hw. pose proof (word64_halves w Hw) as [Hlo Hhi].
  destruct (funcExtra_fields _ Hw) as [Hc Ht]. rewrite Hc, Ht.
  unfold incFuncExtraCount, kFuncExtraCountMask. rewrite land_low.
  set (c := (if (w mod 2 ^ 32 <? 2 ^ 32 - 1)%Z then w mod 2 ^ 32 + 1 else w mod 2 ^ 32)%Z).
  assert (Hcw : word32 c /\ c = Z.min (w mod 2 ^ 32 + 1) (2 ^ 32 - 1)).
  { unfold c, word32 in *. destruct (Z.ltb_spec (w mod 2 ^ 32) (2 ^ 32 - 1)); lia. }
  destruct Hcw as [Hcw Hmin].
  assert (Hmask : Z.land w (Z.lxor 0xFFFFFFFF 0xFFFFFFFFFFFFFFFF) = Z.shiftl (w / 2 ^ 32) 32).
  { change (Z.lxor 0xFFFFFFFF 0xFFFFFFFFFFFFFFFF) with (Z.shiftl (Z.ones 32) 32).
    apply Z.bits_inj'. intros i Hi. rewrite Z.land_spec, !Z.shiftl_spec by lia.
    destruct (Z.ltb_spec i 32).
    - rewrite (Z.testbit_neg_r (Z.ones 32)), (Z.testbit_neg_r (w / 2 ^ 32)) by lia. apply andb_false_r.
    - rewrite Z.div_pow2_bits by lia. replace (i - 32 + 32)%Z with i by lia.
      destruct (Z.ltb_spec i 64).
      + rewrite Z.ones_spec_low by lia. apply andb_true_r.
      + unfold word64 in Hw. rewrite <- (Z.mod_small w (2 ^ 64)), Z.mod_pow2_bits_high by lia. done. }
  rewrite Hmask, lor_shifted by done.
  pose proof (word64_join _ _ Hhi Hcw) as Hw'. destruct (funcExtra_fields _ Hw') as [-> ->].
  destruct (low_high (w / 2 ^ 32) c Hcw) as [-> ->].
  unfold wrapu. rewrite (Z.mod_small c) by done. done.
Qed.
