(* ===== verification/SlotAlloc.v ===== *)
(** * Allocation of registers to frame slots

    [collectDefUse] and [linearScanAllocate] of src/src/passes/sched/fastvm/jit/regalloc/
    regalloc.cpp: live ranges of frame slots over a stretch of bytecode, and the linear scan that
    gives some of them a register. [None] stands for [static_cast<size_t>(-1)] and [kSpilled]. *)

From S2P Require Import Prelude Registers Bytecode.

Definition kNumRegs : nat := 8.
Definition kReservedRbx : nat := 3.

(** ** What an instruction does with slots *)

(** The cases of the switch of [collectDefUse]. *)
Inductive SlotShape :=
  | UsesFast0 | UsesFast0Defs | UsesFastDefs | UsesNorm | UsesNormDefs | UsesArgsDefs | UsesNothing.

Definition slotShape (o : OpCode) : SlotShape :=
  match o with
  | RETN => UsesFast0
  | CAST | COPY => UsesFast0Defs
  | ACCS
  | IADD | LADD | FADD | DADD | ISUB | LSUB | FSUB | DSUB | IMUL | LMUL | FMUL | DMUL
  | IDIV | LDIV | FDIV | DDIV | IMOD | LMOD
  | ILT | LLT | FLT | DLT | IGT | LGT | FGT | DGT | IEQ | LEQ | FEQ | DEQ
  | INE | LNE | FNE | DNE | ILE | LLE | FLE | DLE | IGE | LGE | FGE | DGE => UsesFastDefs
  | BRCH => UsesNorm
  | JOIN | FILL | CALL | OPER | SCHD => UsesArgsDefs
  | FUNC | TAIL => UsesNormDefs
  | JUMP | LBEG | LTST | LEND => UsesNothing
  end.

(** The operands the instruction at [pc] reads, and the slot it writes. *)
Definition usedSlots (vec : list Bytecode) (pc : nat) (o : OpCode) (bc : Bytecode) : option (list Z) :=
  match slotShape o with
  | UsesFast0 | UsesFast0Defs => Some [fastop0 bc]
  | UsesFastDefs => Some [fastop0 bc; fastop1 bc]
  | UsesNorm | UsesNormDefs => readOperands vec (operandsAt pc) (normCnt bc)
  | UsesArgsDefs => readOperands vec (operandsAt pc) (normCnt bc + withCnt bc)
  | UsesNothing => Some []
  end.

Definition definedSlot (o : OpCode) (bc : Bytecode) : option Z :=
  match slotShape o with
  | UsesFast0Defs | UsesFastDefs | UsesNormDefs | UsesArgsDefs => Some (result bc)
  | UsesFast0 | UsesNorm | UsesNothing => None
  end.

(** ** Live ranges *)

Record SlotRanges := mkRanges { slotDef : list (option nat); slotUse : list nat }.

Definition resizeTo {A} (n : nat) (x : A) (l : list A) : list A := l ++ replicate (n - length l) x.

Definition ensureSlot (idx : Z) (r : SlotRanges) : SlotRanges :=
  if (0 <? idx)%Z
  then mkRanges (resizeTo (S (Z.to_nat idx)) None (slotDef r)) (resizeTo (S (Z.to_nat idx)) 0 (slotUse r))
  else r.

Definition useSlot (pc : nat) (r : SlotRanges) (idx : Z) : SlotRanges :=
  if (0 <? idx)%Z then
    let r := ensureSlot idx r in mkRanges (slotDef r) (<[Z.to_nat idx := pc]> (slotUse r))
  else r.

Definition defSlot (pc : nat) (r : SlotRanges) (idx : Z) : SlotRanges :=
  if (0 <? idx)%Z then
    let r := ensureSlot idx r in
    match slotDef r !! Z.to_nat idx with
    | Some None => mkRanges (<[Z.to_nat idx := Some pc]> (slotDef r)) (slotUse r)
    | _ => r
    end
  else r.

(** [None]: the operands lie outside of the bytecode, or the opcode is none. *)
Definition collectDefUse (vec : list Bytecode) (pc : nat) (bc : Bytecode) (r : SlotRanges) : option SlotRanges :=
  o ← opOf (opcode bc);
  used ← usedSlots vec pc o bc;
  let r := foldl (useSlot pc) r used in
  Some (match definedSlot o bc with Some d => defSlot pc r d | None => r end).

Definition isCallOpcode (o : OpCode) : bool :=
  match o with FUNC | TAIL | CALL | OPER => true | _ => false end.

(** The walk over the bytecode: the ranges, and the pcs of the calls. [None]: it leaves the
    vector, or does not end (an instruction of size 0). Every instruction has a size, so
    [pcEnd - entryPc] steps are enough. *)
Fixpoint walk (fuel : nat) (vec : list Bytecode) (pc pcEnd : nat) (r : SlotRanges) (callPcs : list nat)
    : option (SlotRanges * list nat) :=
  if decide (pc < pcEnd) then
    match fuel with
    | O => None
    | S fuel =>
        bc ← vec !! pc;
        o ← opOf (opcode bc);
        r ← collectDefUse vec pc bc r;
        walk fuel vec (pc + Z.to_nat (opsize bc)) pcEnd r
          (if isCallOpcode o then callPcs ++ [pc] else callPcs)
    end
  else Some (r, callPcs).

(** ** The scan *)

Record LiveInterval := mkLive { lslot : nat; lstart : nat; lend : nat; spansCall : bool }.

Definition intervalSpansCall (callPcs : list nat) (start end_ : nat) : bool :=
  existsb (fun cp => (start <? cp) && (cp <? end_)) callPcs.
Definition defAtCall (callPcs : list nat) (defPc : nat) : bool := existsb (fun cp => defPc =? cp) callPcs.

Definition intervalOf (r : SlotRanges) (callPcs : list nat) (i : nat) : option LiveInterval :=
  match slotDef r !! i, slotUse r !! i with
  | Some (Some d), Some u =>
      if d <=? u
      then Some (mkLive i d u (intervalSpansCall callPcs d u || defAtCall callPcs d)) else None
  | _, _ => None
  end.

Definition liveIntervals (r : SlotRanges) (callPcs : list nat) : list LiveInterval :=
  sortBy lstart (omap (intervalOf r callPcs) (seq 1 (length (slotDef r) - 1))).

Record SlotScan := mkSlotScan {
  sActive : list (LiveInterval * nat); sFree : list bool; slotToReg : list (option nat) }.

Definition initialFreeRegs : list bool := <[kReservedRbx := false]> (replicate kNumRegs true).

Definition expireSlots (start : nat) (st : SlotScan) : SlotScan :=
  mkSlotScan (filter (fun p => ~ lend p.1 <= start) (sActive st))
    (release (fun iv => lend iv <= start) (sActive st) (sFree st))
    (slotToReg st).

(** [std::max_element] by the end of the range: the first of the largest, by its position. *)
Fixpoint furthest (l : list (LiveInterval * nat)) : option nat :=
  match l with
  | [] => None
  | p :: l' =>
      match furthest l' with
      | None => Some 0
      | Some i =>
          match l' !! i with
          | Some q => if decide (lend p.1 < lend q.1) then Some (S i) else Some 0
          | None => Some 0
          end
      end
  end.

(** A register for [cur], if it does not span a call; else the register of the range that ends
    furthest in the future, when that ends after [cur]. *)
Definition takeRegister (cur : LiveInterval) (st : SlotScan) : option (nat * SlotScan) :=
  match (if spansCall cur then None else firstFree (sFree st)) with
  | Some r => Some (r, mkSlotScan (sActive st) (<[r := false]> (sFree st)) (slotToReg st))
  | None =>
      i ← furthest (sActive st);
      spill ← sActive st !! i;
      if decide (lend cur < lend spill.1)
      then Some (spill.2, mkSlotScan (delete i (sActive st)) (sFree st) (<[lslot spill.1 := None]> (slotToReg st)))
      else None
  end.

Definition assignSlot (st : SlotScan) (cur : LiveInterval) : SlotScan :=
  let st := expireSlots (lstart cur) st in
  match takeRegister cur st with
  | Some (r, st) =>
      mkSlotScan (sActive st ++ [(cur, r)]) (sFree st) (<[lslot cur := Some r]> (slotToReg st))
  | None => mkSlotScan (sActive st) (sFree st) (<[lslot cur := None]> (slotToReg st))
  end.

Definition linearScanAllocate (vec : list Bytecode) (entryPc pcEnd : nat) : option (list (option nat)) :=
  p ← walk (pcEnd - entryPc) vec entryPc pcEnd (mkRanges [] []) [];
  let (r, callPcs) := (p : SlotRanges * list nat) in
  Some (slotToReg
          (foldl assignSlot (mkSlotScan [] initialFreeRegs (replicate (length (slotDef r)) None))
             (liveIntervals r callPcs))).

(** [AllocationResult::regForSlot]. *)
Definition regForSlot (alloc : list (option nat)) (slot : Z) : option nat :=
  if (slot <? 0)%Z then None else default None (alloc !! Z.to_nat slot).

Definition makeAllSpilledAlloc (vec : list Bytecode) (entryPc pcEnd : nat) : option (list (option nat)) :=
  p ← walk (pcEnd - entryPc) vec entryPc pcEnd (mkRanges [] []) [];
  Some (replicate (length (slotDef p.1)) None).
