(* ===== verification/SlotAllocSound.v ===== *)
(** * The slot allocator keeps slots apart

    Slots that [linearScanAllocate] puts in one register are not live at once, and a slot in a
    register is neither live across a call nor the result of one: also when the register was
    taken from a range that ends later. *)

From S2P Require Import Prelude Registers Bytecode SlotAlloc.

Definition usable (r : nat) : Prop := r < kNumRegs /\ r <> kReservedRbx.

Lemma slot_unique (dn : list LiveInterval) a b :
  NoDup (lslot <$> dn) -> a ∈ dn -> b ∈ dn -> lslot a = lslot b -> a = b.
Proof.
  intros Hn [i Hi]%list_elem_of_lookup [j Hj]%list_elem_of_lookup E.
  assert (i = j) as <-; [|congruence].
  apply (NoDup_lookup _ _ _ (lslot a) Hn); rewrite list_lookup_fmap; [by rewrite Hi|]. rewrite Hj. simpl. by rewrite E.
Qed.

Section scan.
Context (callPcs : list nat).

(** A range with the mark its place among the calls gives it. *)
Definition marked (iv : LiveInterval) : Prop :=
  lstart iv <= lend iv /\
  spansCall iv = intervalSpansCall callPcs (lstart iv) (lend iv) || defAtCall callPcs (lstart iv).

Lemma spans_spec iv : marked iv ->
  spansCall iv = true <-> exists cp, cp ∈ callPcs /\ (cp = lstart iv \/ lstart iv < cp < lend iv).
Proof.
  intros [_ ->]. rewrite orb_true_iff. unfold intervalSpansCall, defAtCall. rewrite !existsb_exists.
  setoid_rewrite <- list_elem_of_In. setoid_rewrite andb_true_iff. setoid_rewrite Nat.ltb_lt.
  setoid_rewrite Nat.eqb_eq. naive_solver.
Qed.

(** A range within a range that spans no call spans none. *)
Lemma spans_within a b : marked a -> marked b -> lstart a < lstart b -> lend b < lend a ->
  spansCall a = false -> spansCall b = false.
Proof.
  intros Ha Hb Hs He Hf. destruct (spansCall b) eqn:Hsb; [|done]. exfalso.
  apply (spans_spec b Hb) in Hsb as (cp & Hcp & Hat).
  assert (spansCall a = true); [|congruence]. apply (spans_spec a Ha). exists cp. split; [done|].
  destruct Hb as [Hb _]. lia.
Qed.

(** The state of the scan: [dn] are the ranges it has seen, [now] the start it has come to. *)
Record slotsScanned (now : nat) (dn : list LiveInterval) (st : SlotScan) : Prop := {
  ss_reg v r : slotToReg st !! v = Some (Some r) ->
    usable r /\ exists iv, iv ∈ dn /\ lslot iv = v /\ spansCall iv = false /\
      ((iv, r) ∈ sActive st \/ lend iv <= now);
  ss_active iv r : (iv, r) ∈ sActive st -> iv ∈ dn /\ slotToReg st !! lslot iv = Some (Some r);
  ss_length : length (sFree st) = kNumRegs;
  ss_free r : sFree st !! r = Some true <-> usable r /\ r ∉ (sActive st).*2;
  ss_nodup : NoDup (sActive st).*2;
  ss_slots : NoDup (lslot <$> dn);
  ss_apart a b r : a ∈ dn -> b ∈ dn -> lstart a < lstart b < lend a ->
    slotToReg st !! lslot a = Some (Some r) -> slotToReg st !! lslot b <> Some (Some r);
}.

Lemma active_usable now dn st p : slotsScanned now dn st -> p ∈ sActive st -> usable p.2.
Proof.
  intros Hs Hp. destruct p as [iv r]. apply (ss_active _ _ _ Hs) in Hp as [_ Hr].
  by apply (ss_reg _ _ _ Hs) in Hr as [? _].
Qed.

Lemma expire_slots now start dn st :
  now <= start -> slotsScanned now dn st -> slotsScanned start dn (expireSlots start st).
Proof.
  intros Hle Hs. assert (Hus : forall p, p ∈ sActive st -> usable p.2) by (intros p; by eapply active_usable).
  destruct Hs as [Hreg Hact Hlen Hfree Hnd Hsl Hap]. split; simpl; try done.
  - intros v r Hv. apply Hreg in Hv as (? & iv & Hin & Hslot & Hsp & Hor). split; [done|]. exists iv.
    split_and!; [done..|]. destruct Hor as [Ha|]; [|right; lia].
    destruct (decide (lend iv <= start)); [by right|left]. by apply list_elem_of_filter.
  - intros iv r [_ Hp]%list_elem_of_filter. by apply Hact.
  - by rewrite release_length.
  - intros r. rewrite release_lookup, Hfree.
    2: { intros p Hp. rewrite Hlen. by apply Hus. }
    split.
    + intros [[Ha Hr]|([iv r'] & Hp & <- & He)]; simpl in *.
      * split; [done|]. intros Hin. apply Hr. apply list_elem_of_fmap in Hin as (p & -> & [_ Hp]%list_elem_of_filter).
        by apply list_elem_of_fmap_2.
      * split; [by apply (Hus _ Hp)|].
        intros ([iv' r''] & Heq & [Hn Hp']%list_elem_of_filter)%list_elem_of_fmap. simpl in *. subst r''.
        by rewrite (snd_unique _ _ _ _ Hnd Hp' Hp) in Hn.
    + intros [Ha Hr]. destruct (decide (r ∈ (sActive st).*2)) as [Hin|]; [right|by left].
      apply list_elem_of_fmap in Hin as (p & -> & Hp). exists p. split_and!; [done..|].
      destruct (decide (lend p.1 <= start)); [done|]. destruct Hr. apply list_elem_of_fmap_2.
      by apply list_elem_of_filter.
  - eapply sublist_NoDup; [exact Hnd|]. apply fmap_sublist, sublist_filter.
Qed.

(** A range that stays without a register. *)
Lemma spill_current now dn st cur :
  slotsScanned now dn st -> lslot cur ∉ lslot <$> dn ->
  slotsScanned now (cur :: dn) (mkSlotScan (sActive st) (sFree st) (<[lslot cur := None]> (slotToReg st))).
Proof.
  intros [Hreg Hact Hlen Hfree Hnd Hsl Hap] Hnew.
  assert (Hne : forall iv, iv ∈ dn -> lslot cur <> lslot iv).
  { intros iv Hiv E. apply Hnew. rewrite E. by apply list_elem_of_fmap_2. }
  assert (Hold : forall v r, <[lslot cur := None]> (slotToReg st) !! v = Some (Some r) ->
    slotToReg st !! v = Some (Some r) /\ v <> lslot cur).
  { intros v r. rewrite list_lookup_insert. case_decide as Hd; [done|]. intros Hv. split; [done|].
    intros ->. apply Hd. split; [done|]. by eapply lookup_lt_Some. }
  split; simpl; try done.
  - intros v r [Hv Hvc]%Hold. apply Hreg in Hv as (? & iv & ? & ? & ? & ?). split; [done|].
    exists iv. split_and!; try done. by right.
  - intros iv r Hp. apply Hact in Hp as [Hin Hr]. split; [by right|]. by rewrite list_lookup_insert_ne by auto.
  - by constructor.
  - intros a b r Ha Hb Hab [Hra Hac]%Hold Hrb. apply Hold in Hrb as [Hrb Hbc].
    apply elem_of_cons in Ha as [->|Ha]; [done|]. apply elem_of_cons in Hb as [->|Hb]; [done|].
    by apply (Hap a b r Ha Hb Hab Hra).
Qed.

(** A range that gets a register no live range holds. *)
Lemma give_register start dn st cur r :
  slotsScanned start dn st -> lslot cur ∉ lslot <$> dn -> lslot cur < length (slotToReg st) ->
  start = lstart cur -> (forall iv, iv ∈ dn -> lstart iv < lstart cur) ->
  spansCall cur = false -> sFree st !! r = Some true ->
  slotsScanned start (cur :: dn)
    (mkSlotScan (sActive st ++ [(cur, r)]) (<[r := false]> (sFree st)) (<[lslot cur := Some r]> (slotToReg st))).
Proof.
  intros [Hreg Hact Hlen Hfree Hnd Hsl Hap] Hnew Hl -> Hst Hsp Hr.
  pose proof Hr as [Hu Hrn]%Hfree.
  assert (Hne : forall iv, iv ∈ dn -> lslot cur <> lslot iv).
  { intros iv Hiv E. apply Hnew. rewrite E. by apply list_elem_of_fmap_2. }
  assert (Hcur : <[lslot cur := Some r]> (slotToReg st) !! lslot cur = Some (Some r)).
  { by rewrite list_lookup_insert, decide_True. }
  assert (Hsame : forall iv, iv ∈ dn -> <[lslot cur := Some r]> (slotToReg st) !! lslot iv = slotToReg st !! lslot iv).
  { intros iv Hiv. by rewrite list_lookup_insert_ne by auto. }
  (* a range that held [r] before has ended *)
  assert (Hgone : forall iv, iv ∈ dn -> slotToReg st !! lslot iv = Some (Some r) -> lend iv <= lstart cur).
  { intros iv Hiv Hv. apply Hreg in Hv as (_ & iv' & Hin & Hslot & _ & [Ha|He]).
    - destruct Hrn. apply (list_elem_of_fmap_2 snd _ _ Ha).
    - by rewrite (slot_unique dn iv iv'). }
  split; simpl.
  - intros v r'. rewrite list_lookup_insert. case_decide as Hd.
    + destruct Hd as [<- _]. intros [= <-]. split; [done|]. exists cur. split_and!; [left|done..|].
      left. apply elem_of_app. right. by apply list_elem_of_singleton.
    + intros Hv. apply Hreg in Hv as (? & iv & ? & ? & ? & Hor). split; [done|]. exists iv.
      split_and!; [by right|done..|]. destruct Hor; [left|by right]. apply elem_of_app. by left.
  - intros iv r'. rewrite elem_of_app, list_elem_of_singleton. intros [Hin|[= -> ->]].
    + apply Hact in Hin as [Hin Heq]. split; [by right|]. by rewrite Hsame.
    + split; [left|done].
  - by rewrite length_insert.
  - intros r'. rewrite fmap_app, elem_of_app. simpl. rewrite list_elem_of_singleton, list_lookup_insert.
    destruct (decide (r = r')) as [<-|Hner].
    + rewrite decide_True; [naive_solver|]. split; [done|]. by eapply lookup_lt_Some.
    + rewrite decide_False by tauto. rewrite Hfree. naive_solver.
  - rewrite fmap_app. apply NoDup_app. split_and!; [done| |apply NoDup_singleton].
    simpl. intros x Hx ->%list_elem_of_singleton. done.
  - by constructor.
  - intros a b r' Ha Hb Hab.
    apply elem_of_cons in Ha as [->|Ha].
    { apply elem_of_cons in Hb as [->|Hb]; [lia|]. specialize (Hst b Hb). lia. }
    apply elem_of_cons in Hb as [->|Hb].
    + rewrite Hcur, Hsame by done. intros Hra [= <-]. specialize (Hgone a Ha Hra). lia.
    + rewrite !Hsame by done. by apply Hap.
Qed.

(** Taking a register away from an active range. *)
Lemma steal_register now dn st i spill r :
  slotsScanned now dn st -> sActive st !! i = Some (spill, r) ->
  slotsScanned now dn
    (mkSlotScan (delete i (sActive st)) (<[r := true]> (sFree st)) (<[lslot spill := None]> (slotToReg st))).
Proof.
  intros Hs Hi. pose proof (active_usable _ _ _ _ Hs (list_elem_of_lookup_2 _ _ _ Hi)) as Hus.
  pose proof (delete_Permutation _ _ _ Hi) as Hp. destruct Hs as [Hreg Hact Hlen Hfree Hnd Hsl Hap].
  destruct (Hact spill r) as [Hin Hr]; [by eapply list_elem_of_lookup_2|].
  assert (Hp2 : (sActive st).*2 ≡ₚ r :: (delete i (sActive st)).*2) by apply (fmap_Permutation snd _ _ Hp).
  assert (Hrn : (r ∉ (delete i (sActive st)).*2) /\ NoDup (delete i (sActive st)).*2).
  { rewrite Hp2 in Hnd. by apply NoDup_cons in Hnd. }
  destruct Hrn as [Hrn Hnd'].
  assert (Hold : forall v r', <[lslot spill := None]> (slotToReg st) !! v = Some (Some r') ->
    slotToReg st !! v = Some (Some r') /\ v <> lslot spill).
  { intros v r'. rewrite list_lookup_insert. case_decide as Hd; [done|]. intros Hv. split; [done|].
    intros ->. apply Hd. split; [done|]. by eapply lookup_lt_Some. }
  assert (Hkept : forall iv r', (iv, r') ∈ delete i (sActive st) -> (iv, r') ∈ sActive st /\ lslot iv <> lslot spill).
  { intros iv r' Hd. assert (Hin' : (iv, r') ∈ sActive st) by (rewrite Hp; by right). split; [done|].
    intros E. apply Hact in Hin' as [_ Hr']. rewrite E, Hr in Hr'. injection Hr' as <-.
    destruct Hrn. apply (list_elem_of_fmap_2 snd _ _ Hd). }
  split; simpl; try done.
  - intros v r' [Hv Hne]%Hold. apply Hreg in Hv as (? & iv & ? & Hslot & ? & Hor). split; [done|]. exists iv.
    split_and!; [done..|]. destruct Hor as [Ha|]; [left|by right]. rewrite Hp in Ha.
    apply elem_of_cons in Ha as [[= -> ->]|]; done.
  - intros iv r' [Hd Hne]%Hkept. apply Hact in Hd as [? ?]. split; [done|]. by rewrite list_lookup_insert_ne.
  - by rewrite length_insert.
  - intros r'. rewrite list_lookup_insert. destruct Hus as [Hlt Hrb]. simpl in Hlt, Hrb.
    destruct (decide (r = r')) as [<-|Hne].
    + rewrite decide_True by (split; [done|lia]). done.
    + rewrite decide_False by tauto. rewrite Hfree, Hp2, elem_of_cons. naive_solver.
  - intros a b r' Ha Hb Hab [Hra _]%Hold Hrb. apply Hold in Hrb as [Hrb _]. by apply (Hap a b r').
Qed.

Lemma furthest_bound l i : furthest l = Some i -> i < length l.
Proof.
  revert i. induction l as [|p l IH]; intros i; simpl; [done|].
  destruct (furthest l) as [j|]; [|intros [= <-]; lia]. specialize (IH j eq_refl).
  destruct (l !! j); [case_decide|]; intros [= <-]; lia.
Qed.

Lemma assign_slot now dn st cur :
  slotsScanned now dn st -> now <= lstart cur -> lslot cur ∉ lslot <$> dn -> lslot cur < length (slotToReg st) ->
  (forall iv, iv ∈ dn -> lstart iv < lstart cur /\ marked iv) -> marked cur ->
  slotsScanned (lstart cur) (cur :: dn) (assignSlot st cur) /\
  length (slotToReg (assignSlot st cur)) = length (slotToReg st).
Proof.
  intros Hs Hle Hnew Hlen Hdn Hcur. apply (expire_slots _ (lstart cur)) in Hs; [|done].
  unfold assignSlot.
  assert (Hl : length (slotToReg (expireSlots (lstart cur) st)) = length (slotToReg st)) by done.
  revert Hs Hl. generalize (expireSlots (lstart cur) st). intros st1 Hs Hl.
  unfold takeRegister.
  destruct (if spansCall cur then None else firstFree (sFree st1)) as [r|] eqn:Hfree; simpl.
  - destruct (spansCall cur) eqn:Hsp; [done|]. pose proof (firstFree_spec (sFree st1)) as Hff.
    rewrite Hfree in Hff. split; [|by rewrite length_insert].
    apply give_register; try done; [by rewrite Hl|]. intros iv Hiv. by apply Hdn.
  - destruct (furthest (sActive st1)) as [i|] eqn:Hi; simpl.
    2: { split; [by apply spill_current|by rewrite length_insert]. }
    destruct (lookup_lt_is_Some_2 (sActive st1) i) as [[spill r] Hspill]; [by apply furthest_bound|].
    rewrite Hspill. simpl. case_decide as Hend; simpl.
    2: { split; [by apply spill_current|by rewrite length_insert]. }
    split; [|by rewrite !length_insert].
    pose proof (list_elem_of_lookup_2 _ _ _ Hspill) as Hina.
    destruct (ss_active _ _ _ Hs _ _ Hina) as [Hind Hreg].
    destruct (ss_reg _ _ _ Hs _ _ Hreg) as (Hus & iv & Hiv & Hslot & Hisp & _).
    rewrite (slot_unique dn iv spill (ss_slots _ _ _ Hs)) in Hisp by done.
    destruct (Hdn spill Hind) as [Hst Hmk].
    pose proof (spans_within spill cur Hmk Hcur Hst Hend Hisp) as Hcsp.
    pose proof (steal_register _ _ _ _ _ _ Hs Hspill) as Hs'.
    pose proof (ss_length _ _ _ Hs) as Hfl.
    assert (Hr : <[r := true]> (sFree st1) !! r = Some true).
    { rewrite list_lookup_insert, decide_True; [done|]. destruct Hus. split; [done|lia]. }
    pose proof (give_register (lstart cur) dn _ cur r Hs' Hnew) as Hg. simpl in Hg.
    rewrite length_insert in Hg.
    assert (Hsame : <[r := false]> (<[r := true]> (sFree st1)) = sFree st1).
    { rewrite list_insert_insert_eq. apply list_insert_id.
      destruct (lookup_lt_is_Some_2 (sFree st1) r) as [[|] Hb]; [destruct Hus; lia| |done].
      apply (ss_free _ _ _ Hs) in Hb as [_ Hn]. destruct Hn.
      apply (list_elem_of_fmap_2 snd _ _ Hina). }
    rewrite Hsame in Hg. apply Hg; try done; [by rewrite Hl|]. intros iv' Hiv'. by apply Hdn.
Qed.
End scan.

(** ** The ranges *)

Definition sdef (r : SlotRanges) (v : nat) : option nat := mjoin (slotDef r !! v).
Definition suse (r : SlotRanges) (v : nat) : nat := default 0 (slotUse r !! v).

(** Operand [z] names slot [v]: frame slots are the positive operands. *)
Definition names (z : Z) (v : nat) : Prop := (0 < z)%Z /\ Z.to_nat z = v.
#[export] Instance names_dec z v : Decision (names z v).
Proof. unfold names. apply _. Defined.

Lemma lookup_resizeTo {A} n (x : A) l i :
  resizeTo n x l !! i = match l !! i with Some y => Some y | None => if decide (i < n) then Some x else None end.
Proof.
  unfold resizeTo. destruct (l !! i) as [y|] eqn:Hy; [by apply lookup_app_l_Some|].
  apply lookup_ge_None in Hy. rewrite lookup_app_r by done. case_decide.
  - apply lookup_replicate_2. lia.
  - apply lookup_ge_None. rewrite length_replicate. lia.
Qed.

Lemma suse_useSlot pc r z v : suse (useSlot pc r z) v = if decide (names z v) then pc else suse r v.
Proof.
  unfold useSlot, ensureSlot, names, suse. destruct (Z.ltb_spec 0 z) as [Hz|Hz]; simpl.
  - rewrite list_lookup_insert, lookup_resizeTo. destruct (decide (Z.to_nat z = v)) as [<-|Hne].
    + rewrite decide_True; [by rewrite decide_True|]. split; [done|].
      unfold resizeTo. rewrite length_app, length_replicate. lia.
    + rewrite (decide_False (P := Z.to_nat z = v /\ _)), (decide_False (P := (0 < z)%Z /\ _)) by tauto. destruct (slotUse r !! v); [done|]. by case_decide.
  - by rewrite decide_False by lia.
Qed.

Lemma sdef_useSlot pc r z v : sdef (useSlot pc r z) v = sdef r v.
Proof.
  unfold useSlot, ensureSlot, sdef. destruct (Z.ltb_spec 0 z); simpl; [|done].
  rewrite lookup_resizeTo. destruct (slotDef r !! v); [done|]. by case_decide.
Qed.

Lemma sdef_defSlot pc r z v : sdef (defSlot pc r z) v =
  match sdef r v with Some d => Some d | None => if decide (names z v) then Some pc else None end.
Proof.
  unfold defSlot, ensureSlot, names, sdef. destruct (Z.ltb_spec 0 z) as [Hz|Hz]; simpl.
  2: { rewrite decide_False by lia. by destruct (slotDef r !! v) as [[d|]|]. }
  set (l := resizeTo _ _ _).
  assert (Hl : forall w, mjoin (l !! w) = mjoin (slotDef r !! w)).
  { intros w. unfold l. rewrite lookup_resizeTo. destruct (slotDef r !! w); [done|]. by case_decide. }
  assert (Hin : Z.to_nat z < length l).
  { unfold l, resizeTo. rewrite length_app, length_replicate. lia. }
  destruct (lookup_lt_is_Some_2 l (Z.to_nat z) Hin) as [x Hx]. rewrite Hx.
  destruct (decide (Z.to_nat z = v)) as [<-|Hne].
  - pose proof (Hl (Z.to_nat z)) as Hlz. rewrite Hx in Hlz. simpl in Hlz. rewrite <- Hlz.
    destruct x as [d|]; simpl; [by rewrite Hx|]. rewrite list_lookup_insert, !decide_True by done. done.
  - rewrite decide_False by tauto. destruct x; simpl; rewrite ?list_lookup_insert_ne by done; rewrite Hl;
      by destruct (mjoin (slotDef r !! v)).
Qed.

Lemma suse_defSlot pc r z v : suse (defSlot pc r z) v = suse r v.
Proof.
  unfold defSlot, ensureSlot, suse. destruct (Z.ltb_spec 0 z); simpl; [|done].
  assert (Hs : default 0 (resizeTo (S (Z.to_nat z)) 0 (slotUse r) !! v) = default 0 (slotUse r !! v)).
  { rewrite lookup_resizeTo. destruct (slotUse r !! v); [done|]. by case_decide. }
  by destruct (_ !! Z.to_nat z) as [[?|]|].
Qed.

Lemma foldl_useSlot pc used r v :
  suse (foldl (useSlot pc) r used) v =
    (if decide (Exists (fun z => names z v) used) then pc else suse r v) /\
  sdef (foldl (useSlot pc) r used) v = sdef r v.
Proof.
  revert r. induction used as [|z used IH]; intros r; cbn [foldl].
  - done.
  - destruct (IH (useSlot pc r z)) as [-> ->]. rewrite sdef_useSlot, suse_useSlot. split; [|done].
    pose proof (Exists_cons (fun z => names z v) z used).
    repeat case_decide; try done; tauto.
Qed.

Section walk.
Context (vec : list Bytecode).

Definition usesAt (pc v : nat) : Prop := exists bc o used,
  vec !! pc = Some bc /\ opOf (opcode bc) = Some o /\ usedSlots vec pc o bc = Some used /\
  Exists (fun z => names z v) used.
Definition definesAt (pc v : nat) : Prop := exists bc o z,
  vec !! pc = Some bc /\ opOf (opcode bc) = Some o /\ definedSlot o bc = Some z /\ names z v.
Definition callAt (pc : nat) : Prop := exists bc o,
  vec !! pc = Some bc /\ opOf (opcode bc) = Some o /\ isCallOpcode o = true.

Lemma definesAt_one pc v w : definesAt pc v -> definesAt pc w -> v = w.
Proof. unfold definesAt, names. naive_solver. Qed.

Lemma collect_step pc bc r r' v :
  vec !! pc = Some bc -> collectDefUse vec pc bc r = Some r' ->
  ((usesAt pc v /\ suse r' v = pc) \/ (~ usesAt pc v /\ suse r' v = suse r v)) /\
  ((exists d, sdef r v = Some d /\ sdef r' v = Some d) \/
   (sdef r v = None /\ definesAt pc v /\ sdef r' v = Some pc) \/
   (sdef r v = None /\ ~ definesAt pc v /\ sdef r' v = None)).
Proof.
  intros Hbc. unfold collectDefUse. destruct (opOf (opcode bc)) as [o|] eqn:Ho; simpl; [|done].
  destruct (usedSlots vec pc o bc) as [used|] eqn:Hu; simpl; [|done]. intros [= <-].
  destruct (foldl_useSlot pc used r v) as [Hus Hds].
  assert (Huses : usesAt pc v <-> Exists (fun z => names z v) used).
  { split; [|intros; by exists bc, o, used]. intros (bc' & o' & used' & ? & ? & ? & ?). by simplify_eq. }
  assert (Hdefs : definesAt pc v <-> exists z, definedSlot o bc = Some z /\ names z v).
  { split; [|intros (z & ? & ?); by exists bc, o, z]. intros (bc' & o' & z & ? & ? & ? & ?). simplify_eq. eauto. }
  split.
  - assert (Hd : suse (match definedSlot o bc with Some d => defSlot pc (foldl (useSlot pc) r used) d
                       | None => foldl (useSlot pc) r used end) v = suse (foldl (useSlot pc) r used) v).
    { destruct (definedSlot o bc); [apply suse_defSlot|done]. }
    rewrite Hd, Hus, Huses. case_decide; tauto.
  - rewrite Hdefs. destruct (definedSlot o bc) as [z|]; rewrite ?sdef_defSlot, Hds;
      destruct (sdef r v) as [d|]; [left; eauto| |left; eauto|right; right; split_and!; naive_solver].
    right. destruct (decide (names z v)) as [Hz|Hz]; [left|right]; (split; [done|split; [|done]]); [by exists z|by intros (? & [= <-] & ?)].
Qed.

(** What the ranges say of the instructions at [pcs]. *)
Record rangesOf (pcs : list nat) (r : SlotRanges) (callPcs : list nat) : Prop := {
  ro_def v d : sdef r v = Some d -> d ∈ pcs /\ definesAt d v;
  ro_first v j : j ∈ pcs -> definesAt j v -> exists d, sdef r v = Some d /\ d <= j;
  ro_use v j : j ∈ pcs -> usesAt j v -> j <= suse r v;
  ro_call c : c ∈ callPcs <-> c ∈ pcs /\ callAt c;
}.

Lemma rangesOf_step pcs r callPcs pc bc o r' :
  rangesOf pcs r callPcs -> (forall j, j ∈ pcs -> j < pc) -> vec !! pc = Some bc -> opOf (opcode bc) = Some o ->
  collectDefUse vec pc bc r = Some r' ->
  rangesOf (pcs ++ [pc]) r' (if isCallOpcode o then callPcs ++ [pc] else callPcs).
Proof.
  intros [Hdef Hfirst Huse Hcall] Hlt Hbc Ho Hc.
  pose proof (fun v => collect_step pc bc r r' v Hbc Hc) as Hstep. split.
  - intros v d Hd. rewrite elem_of_app, list_elem_of_singleton.
    destruct (Hstep v) as [_ [(d' & Hr & Hr')|[(_ & Hdv & Hr')|(_ & _ & Hr')]]]; simplify_eq.
    + destruct (Hdef v d Hr). auto.
    + auto.
  - intros v j. rewrite elem_of_app, list_elem_of_singleton. intros Hj Hjv.
    destruct (Hstep v) as [_ [(d' & Hr & ->)|[(Hr & Hdv & ->)|(Hr & Hndv & ->)]]].
    + exists d'. split; [done|]. destruct (Hdef v d' Hr) as [Hin _]. destruct Hj as [Hj| ->].
      * destruct (Hfirst v j Hj Hjv) as (d & Hd & ?). by simplify_eq.
      * apply Hlt in Hin. lia.
    + exists pc. split; [done|]. destruct Hj as [Hj| ->]; [|done].
      destruct (Hfirst v j Hj Hjv) as (d & Hd & ?). congruence.
    + destruct Hj as [Hj| ->]; [|done]. destruct (Hfirst v j Hj Hjv) as (d & Hd & _). congruence.
  - intros v j. rewrite elem_of_app, list_elem_of_singleton. intros Hj Hjv.
    destruct (Hstep v) as [[[_ ->]|[Hn ->]] _].
    + destruct Hj as [Hj| ->]; [|done]. apply Hlt in Hj. lia.
    + destruct Hj as [Hj| ->]; [by apply Huse|done].
  - intros c. assert (Hca : callAt pc <-> isCallOpcode o = true).
    { split; [|intros; by exists bc, o]. intros (bc' & o' & ? & ? & ?). by simplify_eq. }
    rewrite elem_of_app, list_elem_of_singleton. destruct (isCallOpcode o);
      rewrite ?elem_of_app, ?list_elem_of_singleton, Hcall; naive_solver.
Qed.

(** The pcs of the instructions from [pc] on. *)
Fixpoint pcsFrom (fuel pc pcEnd : nat) : list nat :=
  match fuel with
  | O => []
  | S fuel =>
      if decide (pc < pcEnd) then
        match vec !! pc with
        | Some bc => pc :: pcsFrom fuel (pc + Z.to_nat (opsize bc)) pcEnd
        | None => []
        end
      else []
  end.

Lemma walk_stuck fuel pc pcEnd r callPcs bc :
  vec !! pc = Some bc -> Z.to_nat (opsize bc) = 0 -> pc < pcEnd -> walk fuel vec pc pcEnd r callPcs = None.
Proof.
  intros Hbc Hz Hlt. revert r callPcs. induction fuel as [|fuel IH]; intros r callPcs; simpl; rewrite decide_True by done.
  - done.
  - rewrite Hbc. simpl. destruct (opOf (opcode bc)) as [o|]; simpl; [|done].
    destruct (collectDefUse vec pc bc r) as [r'|]; simpl; [|done]. rewrite Hz, Nat.add_0_r. apply IH.
Qed.

Lemma walk_ranges fuel pc pcEnd pre r callPcs r' callPcs' :
  rangesOf pre r callPcs -> (forall j, j ∈ pre -> j < pc) ->
  walk fuel vec pc pcEnd r callPcs = Some (r', callPcs') ->
  rangesOf (pre ++ pcsFrom fuel pc pcEnd) r' callPcs'.
Proof.
  revert pc pre r callPcs. induction fuel as [|fuel IH]; intros pc pre r callPcs Hr Hlt; simpl.
  - case_decide; [done|]. intros [= <- <-]. by rewrite app_nil_r.
  - case_decide as Hpc; [|intros [= <- <-]; by rewrite app_nil_r].
    destruct (vec !! pc) as [bc|] eqn:Hbc; simpl; [|done].
    destruct (opOf (opcode bc)) as [o|] eqn:Ho; simpl; [|done].
    destruct (collectDefUse vec pc bc r) as [r1|] eqn:Hc; simpl; [|done]. intros Hw.
    assert (Hpos : 0 < Z.to_nat (opsize bc)).
    { destruct (decide (Z.to_nat (opsize bc) = 0)) as [Hz|]; [|lia].
      rewrite Hz, Nat.add_0_r, (walk_stuck _ _ _ _ _ bc) in Hw by done. done. }
    change (pc :: pcsFrom fuel (pc + Z.to_nat (opsize bc)) pcEnd) with
      ([pc] ++ pcsFrom fuel (pc + Z.to_nat (opsize bc)) pcEnd). rewrite app_assoc.
    apply (IH _ _ r1 (if isCallOpcode o then callPcs ++ [pc] else callPcs)); [|intros j|done].
    + by eapply rangesOf_step.
    + rewrite elem_of_app, list_elem_of_singleton. intros [Hj| ->]; [apply Hlt in Hj|]; lia.
Qed.

(** ** The allocation *)

Lemma intervalOf_spec r callPcs i iv : intervalOf r callPcs i = Some iv ->
  lslot iv = i /\ sdef r i = Some (lstart iv) /\ suse r i = lend iv /\ marked callPcs iv.
Proof.
  unfold intervalOf, sdef, suse, marked. destruct (slotDef r !! i) as [[d|]|]; [|done..].
  destruct (slotUse r !! i) as [u|]; [|done]. destruct (Nat.leb_spec d u); [|done]. by intros [= <-].
Qed.

Lemma omap_slots r callPcs l : NoDup l -> NoDup (lslot <$> omap (intervalOf r callPcs) l).
Proof.
  induction 1 as [|i l Hi _ IH]; simpl; [apply NoDup_nil_2|].
  destruct (intervalOf r callPcs i) as [iv|] eqn:Hiv; [|done]. constructor; [|done].
  apply intervalOf_spec in Hiv as [Hs _]. intros (iv' & E & (j & Hj & Hjv)%list_elem_of_omap)%list_elem_of_fmap.
  apply intervalOf_spec in Hjv as [Hs' _]. congruence.
Qed.

Lemma scan_slots callPcs ivs now dn st :
  slotsScanned now dn st -> StronglySorted (fun a b => lstart a < lstart b) ivs ->
  NoDup (lslot <$> ivs ++ dn) ->
  (forall iv, iv ∈ ivs -> now <= lstart iv /\ lslot iv < length (slotToReg st)) ->
  (forall a b, a ∈ dn -> b ∈ ivs -> lstart a < lstart b) ->
  (forall iv, iv ∈ ivs ++ dn -> marked callPcs iv) ->
  exists now' dn', dn' ≡ₚ ivs ++ dn /\ slotsScanned now' dn' (foldl assignSlot st ivs).
Proof.
  revert now dn st. induction ivs as [|cur ivs IH]; intros now dn st Hs Hsort Hnd Hiv Hord Hmk; simpl; [eauto|].
  destruct (Hiv cur ltac:(left)) as [Hnow Hlen].
  apply StronglySorted_inv in Hsort as [Hsort Hcur]. rewrite Forall_forall in Hcur.
  cbn [app] in *. rewrite fmap_cons in Hnd. apply NoDup_cons in Hnd as [Hfresh Hnd].
  assert (Hnew : lslot cur ∉ lslot <$> dn) by (rewrite fmap_app, elem_of_app in Hfresh; tauto).
  assert (Hp : ivs ++ cur :: dn ≡ₚ cur :: ivs ++ dn) by (symmetry; apply Permutation_middle).
  destruct (assign_slot callPcs now dn st cur Hs Hnow Hnew Hlen) as [Hs' Hl].
  { intros iv Hd. split; [apply Hord; [done|left]|]. apply Hmk. right. apply elem_of_app. by right. }
  { apply Hmk. left. }
  destruct (IH (lstart cur) (cur :: dn) (assignSlot st cur) Hs' Hsort) as (now' & dn' & Hdn & Hs2).
  - rewrite Hp, fmap_cons. by constructor.
  - intros iv Hin. split; [apply Nat.lt_le_incl; by apply Hcur|]. rewrite Hl. apply Hiv. by right.
  - intros a b [->|Ha]%elem_of_cons Hb; [by apply Hcur|]. apply Hord; [done|by right].
  - intros iv. rewrite Hp. apply Hmk.
  - exists now', dn'. split; [by rewrite Hdn|done].
Qed.

Lemma initial_slots n : slotsScanned 0 [] (mkSlotScan [] initialFreeRegs (replicate n None)).
Proof.
  split; simpl; try done; try (by intros ? ? ?%elem_of_nil); try (by intros ? ? ? ?%elem_of_nil);
    try apply NoDup_nil_2.
  - intros v r Hv. by apply lookup_replicate in Hv as [? _].
  - intros r. unfold usable, initialFreeRegs, kNumRegs, kReservedRbx. rewrite elem_of_nil.
    do 9 (destruct r as [|r]; simpl;
      [split; [first [done | intros _; split; [lia|by intros []]] | first [done | intros [[? ?] _]; lia]]|]).
    split; [done|lia].
Qed.

Lemma liveIntervals_spec pcs r callPcs : rangesOf pcs r callPcs ->
  let ivs := liveIntervals r callPcs in
  StronglySorted (fun a b => lstart a < lstart b) ivs /\ NoDup (lslot <$> ivs) /\
  forall iv, iv ∈ ivs -> lslot iv < length (slotDef r) /\ marked callPcs iv /\
    sdef r (lslot iv) = Some (lstart iv) /\ suse r (lslot iv) = lend iv.
Proof.
  intros Hr. simpl. unfold liveIntervals. set (l := omap _ _).
  assert (Hl : forall iv, iv ∈ l -> lslot iv < length (slotDef r) /\ marked callPcs iv /\
    sdef r (lslot iv) = Some (lstart iv) /\ suse r (lslot iv) = lend iv).
  { intros iv (i & Hi & Hiv)%list_elem_of_omap. apply elem_of_seq in Hi.
    apply intervalOf_spec in Hiv as (<- & Hd & Hu & Hm). split_and!; [lia|done..]. }
  assert (Hslots : NoDup (lslot <$> l)) by (apply omap_slots, NoDup_seq).
  split_and!.
  - apply sortBy_sorted. apply NoDup_alt.
    intros i j x (a & Ha & Hi)%list_lookup_fmap_Some_1 (b & Hb & Hj)%list_lookup_fmap_Some_1. subst x.
    apply (NoDup_lookup (lslot <$> l) i j (lslot a) Hslots); [by rewrite list_lookup_fmap, Hi|].
    rewrite list_lookup_fmap, Hj. simpl. f_equal.
    destruct (Hl a) as (_ & _ & Hda & _); [by eapply list_elem_of_lookup_2|].
    destruct (Hl b) as (_ & _ & Hdb & _); [by eapply list_elem_of_lookup_2|].
    apply (ro_def _ _ _ Hr) in Hda as [_ Hda]. apply (ro_def _ _ _ Hr) in Hdb as [_ Hdb].
    rewrite <- Hb in Hdb. by eapply definesAt_one.
  - by rewrite sortBy_perm.
  - intros iv. rewrite sortBy_perm. apply Hl.
Qed.

(** The first instruction of [pcs] that writes slot [v]. *)
Definition firstDefAt (pcs : list nat) (v d : nat) : Prop :=
  d ∈ pcs /\ definesAt d v /\ forall j, j ∈ pcs -> definesAt j v -> d <= j.

(** What an allocation promises for slot [v] in register [reg]. *)
Record slotSound (pcs : list nat) (alloc : list (option nat)) (v reg d : nat) : Prop := {
  so_usable : usable reg;
  so_first : firstDefAt pcs v d;
  so_calls j c : j ∈ pcs -> usesAt j v -> c ∈ pcs -> callAt c -> c <> d /\ ~ d < c < j;
  so_apart w d' j : w <> v -> alloc !! w = Some (Some reg) -> firstDefAt pcs w d' ->
    j ∈ pcs -> usesAt j v -> ~ d < d' < j;
}.

Lemma linearScanAllocate_spec entryPc pcEnd alloc :
  linearScanAllocate vec entryPc pcEnd = Some alloc ->
  forall v reg, alloc !! v = Some (Some reg) ->
  exists d, slotSound (pcsFrom (pcEnd - entryPc) entryPc pcEnd) alloc v reg d.
Proof.
  unfold linearScanAllocate. destruct (walk _ _ _ _ _ _) as [[r callPcs]|] eqn:Hw; simpl; [|done].
  intros [= Halloc] v reg Hv.
  assert (Hr : rangesOf (pcsFrom (pcEnd - entryPc) entryPc pcEnd) r callPcs).
  { eapply (walk_ranges _ _ _ []) in Hw; [exact Hw| |by intros ? ?%elem_of_nil].
    split; try (by intros ? ? ?%elem_of_nil); [by intros w d|]. intros c. rewrite elem_of_nil. naive_solver. }
  destruct (liveIntervals_spec _ _ _ Hr) as (Hsort & Hslots & Hivs). cbn zeta in *.
  destruct (scan_slots callPcs (liveIntervals r callPcs) 0 [] _ (initial_slots (length (slotDef r))) Hsort)
    as (now & dn & Hdn & Hs).
  { by rewrite app_nil_r. }
  { intros iv Hiv. simpl. rewrite length_replicate. split; [lia|]. by apply Hivs. }
  { by intros ? ? ?%elem_of_nil. }
  { intros iv. rewrite app_nil_r. intros Hiv. by apply Hivs. }
  rewrite app_nil_r in Hdn. rewrite <- Halloc in Hv |- *.
  set (st := foldl assignSlot _ _) in *.
  assert (Hof : forall w reg', slotToReg st !! w = Some (Some reg') -> usable reg' /\ exists iv, iv ∈ dn /\
    lslot iv = w /\ spansCall iv = false /\ marked callPcs iv /\ sdef r w = Some (lstart iv) /\ suse r w = lend iv).
  { intros w reg' Hw'. apply (ss_reg _ _ _ Hs) in Hw' as (Hus & iv & Hiv & Hsl & Hsp & _). split; [done|].
    exists iv. rewrite Hdn in Hiv. destruct (Hivs iv Hiv) as (_ & ? & ? & ?). rewrite Hdn.
    subst w. by split_and!. }
  assert (Hfd : forall w d, sdef r w = Some d -> firstDefAt (pcsFrom (pcEnd - entryPc) entryPc pcEnd) w d).
  { intros w d Hd. destruct (ro_def _ _ _ Hr w d Hd) as [Hin Hda]. split_and!; [done..|].
    intros j Hj Hjw. destruct (ro_first _ _ _ Hr w j Hj Hjw) as (d2 & Hd2 & ?). by simplify_eq. }
  destruct (Hof v reg Hv) as (Hus & iv & Hiv & Hsl & Hsp & Hmk & Hd & Hu).
  exists (lstart iv). split; [done|by apply Hfd| |].
  - intros j c Hj Huse Hc Hcall. apply (ro_use _ _ _ Hr) in Huse; [|done].
    assert (Hcc : c ∈ callPcs) by (by apply (ro_call _ _ _ Hr)).
    assert (Hns : ~ spansCall iv = true) by (by rewrite Hsp).
    rewrite (spans_spec callPcs iv Hmk) in Hns. split.
    + intros ->. apply Hns. exists (lstart iv). auto.
    + intros Hb. apply Hns. exists c. split; [done|]. right. lia.
  - intros w d' j Hne Hw' (Hin' & Hdw & Hmin) Hj Huse Hb. apply (ro_use _ _ _ Hr) in Huse; [|done].
    destruct (Hof w reg Hw') as (_ & iw & Hiw & Hslw & _ & _ & Hdw' & _).
    destruct (Hfd w _ Hdw') as (Hinw & Hdefw & Hminw).
    assert (d' = lstart iw) as -> by (specialize (Hmin _ Hinw Hdefw); specialize (Hminw _ Hin' Hdw); lia).
    apply (ss_apart _ _ _ Hs iv iw reg Hiv Hiw); rewrite ?Hsl, ?Hslw; [lia|done|done].
Qed.
End walk.
