(* ===== verification/BytecodeOpt.v ===== *)
(** * The bytecode optimizer

    The peephole strategies of src/src/passes/sched/fastvm/optimize.h and the edits of optimize.cpp
    they are made of, over the bytecode of one graph: targets are pcs of the graph, in [fastop[0]].
    A definition gives [None] where the source indexes outside of the vector or does not end.
    The origins of pcs, which the edits keep in step, are a map beside the code. *)

From stdpp Require Import gmap.
From S2P Require Import Prelude Bytecode.

Definition opIs (o : OpCode) (u : Bytecode) : bool := bool_decide (opOf (opcode u) = Some o).
Definition unitHasTarget (u : Bytecode) : bool :=
  match opOf (opcode u) with Some o => hasJumpTarget o | None => false end.
Definition sizeOf (u : Bytecode) : nat := Z.to_nat (opsize u).

(** [static_cast<size_t>(fastop[0])] as an index. *)
Definition targetOf (u : Bytecode) : Z := u64 (fastop0 u).
Definition targets (u : Bytecode) (pc : nat) : bool := (targetOf u =? Z.of_nat pc)%Z.
Definition setFast0 (x : Z) (u : Bytecode) : Bytecode :=
  mkBytecode (opcode u) (reserved0 u) (opsize u) (result u) x (fastop1 u).

(** ** Edits *)

Abbreviation Origins := (gmap nat Z).

(** The entries of a map under new pcs. *)
Definition moveOrigins (f : nat -> nat) (origins : Origins) : Origins :=
  list_to_map ((fun p => (f p.1, p.2)) <$> map_to_list origins).

(** [step] units back for what lies behind [start]. *)
Definition shiftPcOrigins (start step : nat) (origins : Origins) : Origins :=
  if step =? 0 then origins else moveOrigins (fun pc => if start <? pc then pc - step else pc) origins.

Definition erasePcOrigins (start len : nat) (origins : Origins) : Origins :=
  if len =? 0 then origins else filter (fun p => p.1 < start \/ start + len <= p.1) origins.

(** The change [redirect] makes to one instruction. *)
Definition redirectUnit (start step : nat) (u : Bytecode) : Bytecode :=
  if unitHasTarget u && (Z.of_nat start <? targetOf u)%Z
  then setFast0 (i32 (fastop0 u - Z.of_nat step)) u else u.

(** The loop of [redirect] over the instructions, one unit of fuel an instruction. *)
Fixpoint redirectFrom (fuel start step i : nat) (codes : list Bytecode) : option (list Bytecode) :=
  if decide (i < length codes) then
    match fuel with
    | O => None
    | S fuel =>
        u ← codes !! i;
        redirectFrom fuel start step (i + sizeOf u) (<[i := redirectUnit start step u]> codes)
    end
  else Some codes.

(** [redirect(codes, start, -step, pcOrigins)]. *)
Definition redirect (start step : nat) (c : list Bytecode * Origins) : option (list Bytecode * Origins) :=
  codes ← redirectFrom (length c.1) start step 0 c.1; Some (codes, shiftPcOrigins start step c.2).

Definition removeop (index : nat) (c : list Bytecode * Origins) : option (list Bytecode * Origins) :=
  u ← c.1 !! index;
  Some (take index c.1 ++ drop (index + sizeOf u) c.1, erasePcOrigins index (sizeOf u) c.2).

Fixpoint findPrevFrom (fuel i index : nat) (codes : list Bytecode) : option nat :=
  if decide (i < index) then
    match fuel with
    | O => None
    | S fuel =>
        u ← codes !! i;
        if i + sizeOf u =? index then Some i else findPrevFrom fuel (i + sizeOf u) index codes
    end
  else Some index.

(** The instruction before [index], or [index] for the first one. *)
Definition findPrev (codes : list Bytecode) (index : nat) : option nat := findPrevFrom index 0 index codes.

Definition findNext (codes : list Bytecode) (index : nat) : option nat :=
  u ← codes !! index; Some (index + sizeOf u).

(** ** Dispatch tables *)

Definition brchArmDispatchCount (u : Bytecode) : nat := if withCnt u =? 0 then 2 else withCnt u + 1.

Fixpoint dispatchFrom (fuel pc index : nat) (codes : list Bytecode) : option bool :=
  if decide (pc < length codes) then
    match fuel with
    | O => None
    | S fuel =>
        bc ← codes !! pc;
        if opIs BRCH bc then
          let begin := pc + sizeOf bc in
          if (begin <=? index) && (index <? begin + brchArmDispatchCount bc) then Some true
          else if index <=? pc then Some false
          else dispatchFrom fuel (pc + sizeOf bc) index codes
        else dispatchFrom fuel (pc + sizeOf bc) index codes
    end
  else Some false.

Definition isBrchDispatchJump (codes : list Bytecode) (index : nat) : option bool :=
  match codes !! index with
  | Some u => if opIs JUMP u then dispatchFrom (length codes) 0 index codes else Some false
  | None => Some false
  end.

(** ** Strategies *)

(** The code and the origins after a change, and where the scan goes on; [Some None]: nothing to
    do here. *)
Abbreviation Applied := (option (option (list Bytecode * Origins * nat))).

Definition restart (c : list Bytecode * Origins) (pc : nat) : Applied := Some (Some (c.1, c.2, pc)).

(** Whether a JUMP targets [pc]. *)
Fixpoint jumpedFrom (fuel j pc : nat) (codes : list Bytecode) : option bool :=
  if decide (j < length codes) then
    match fuel with
    | O => None
    | S fuel =>
        u ← codes !! j;
        if opIs JUMP u && targets u pc then Some true else jumpedFrom fuel (j + sizeOf u) pc codes
    end
  else Some false.

(** An instruction that does not go on to the next one. *)
Definition leaves (u : Bytecode) : bool := opIs JUMP u || opIs TAIL u || opIs RETN u.

Definition lookupTarget (codes : list Bytecode) (u : Bytecode) : option Bytecode :=
  codes !! Z.to_nat (targetOf u).

Definition JumpToJump (codes : list Bytecode) (origins : Origins) (curr : nat) : Applied :=
  dispatch ← isBrchDispatchJump codes curr;
  if (dispatch : bool) then Some None
  else
    bc ← codes !! curr;
    tbc ← lookupTarget codes bc;
    let next := Z.to_nat (targetOf bc) in
    if opIs JUMP tbc && negb (next =? curr) && negb (targets tbc next) then
      let codes := <[curr := setFast0 (fastop0 tbc) bc]> codes in
      dispatch ← isBrchDispatchJump codes next;
      if (dispatch : bool) then restart (codes, origins) curr
      else
        jumped ← jumpedFrom (length codes) 0 next codes;
        if (jumped : bool) then restart (codes, origins) curr
        else
          prev ← findPrev codes next;
          pu ← codes !! prev;
          if negb (prev =? next) && negb (leaves pu) then restart (codes, origins) curr
          else
            c ← removeop next (codes, origins);
            c ← redirect next 1 c;
            restart c (if next <? curr then curr - 1 else curr)
    else Some None.

Definition JumpToNext (codes : list Bytecode) (origins : Origins) (curr : nat) : Applied :=
  dispatch ← isBrchDispatchJump codes curr;
  if (dispatch : bool) then Some None
  else
    bc ← codes !! curr;
    if targets bc (curr + 1) then
      c ← removeop curr (codes, origins);
      c ← redirect curr 1 c;
      restart c curr
    else Some None.

Definition JumpToRetn (codes : list Bytecode) (origins : Origins) (curr : nat) : Applied :=
  dispatch ← isBrchDispatchJump codes curr;
  if (dispatch : bool) then Some None
  else
    bc ← codes !! curr;
    match lookupTarget codes bc with
    | None => Some None
    | Some tbc =>
        if opIs RETN tbc then restart (<[curr := tbc]> codes, origins) (curr + 1) else Some None
    end.

(** The scan of [JoinCleanup] for JUMPs to the JOIN at [curr]: one that is unreachable, or
    whether there is another. *)
Fixpoint joinJumps (fuel j curr : nat) (codes : list Bytecode) (found : bool) : option (nat + bool) :=
  if decide (j < length codes) then
    match fuel with
    | O => None
    | S fuel =>
        u ← codes !! j;
        if opIs JUMP u && targets u curr then
          prev ← findPrev codes j;
          pu ← codes !! prev;
          if opIs TAIL pu || opIs RETN pu then Some (inl j)
          else joinJumps fuel (j + sizeOf u) curr codes true
        else joinJumps fuel (j + sizeOf u) curr codes found
    end
  else Some (inr found).

Definition JoinCleanup (codes : list Bytecode) (origins : Origins) (curr : nat) : Applied :=
  bc ← codes !! curr;
  if negb (opIs JOIN bc) then Some None
  else
    jumps ← joinJumps (length codes) 0 curr codes false;
    match (jumps : nat + bool) with
    | inl j =>
        c ← removeop j (codes, origins);
        c ← redirect j 1 c;
        restart c (curr - 1)
    | inr hasJumpToSelf =>
        prev ← findPrev codes curr;
        pu ← codes !! prev;
        let fallsThrough := (prev =? curr) || negb (leaves pu) in
        if negb hasJumpToSelf && negb fallsThrough then
          c ← removeop curr (codes, origins);
          c ← redirect curr (sizeOf bc) c;
          restart c curr
        else Some None
    end.

Inductive Strategy := SJumpToJump | SJumpToNext | SJumpToRetn | SJoinCleanup.

Definition triggerOp (s : Strategy) : OpCode := match s with SJoinCleanup => JOIN | _ => JUMP end.

Definition apply (s : Strategy) : list Bytecode -> Origins -> nat -> Applied :=
  match s with
  | SJumpToJump => JumpToJump
  | SJumpToNext => JumpToNext
  | SJumpToRetn => JumpToRetn
  | SJoinCleanup => JoinCleanup
  end.

(** The first strategy that has something to do at [curr]. *)
Fixpoint applyFirst (strategies : list Strategy) (codes : list Bytecode) (origins : Origins) (curr : nat) : Applied :=
  match strategies with
  | [] => Some None
  | s :: rest =>
      bc ← codes !! curr;
      if negb (opIs (triggerOp s) bc) then applyFirst rest codes origins curr
      else
        res ← apply s codes origins curr;
        match res with
        | Some r => Some (Some r)
        | None => applyFirst rest codes origins curr
        end
  end.

(** [BytecodeOptimizer::optimize]. The order of the strategies is that of an unordered map. *)
Fixpoint optimize (fuel : nat) (strategies : list Strategy) (codes : list Bytecode) (origins : Origins)
    (curr : nat) : option (list Bytecode * Origins) :=
  if decide (curr < length codes) then
    match fuel with
    | O => None
    | S fuel =>
        res ← applyFirst strategies codes origins curr;
        match res with
        | Some (codes, origins, pos) => optimize fuel strategies codes origins pos
        | None => bc ← codes !! curr; optimize fuel strategies codes origins (curr + sizeOf bc)
        end
    end
  else Some (codes, origins).
