(* ===== verification/BytecodeSem.v ===== *)
(** * Execution of bytecode, for its optimizer

    Which instruction runs after which: jumps, dispatch tables, loop tests and the ends of a graph
    are concrete, everything else an instruction does is a parameter. An instruction is seen
    without the target in its operand, which the optimizer changes. *)

From S2P Require Import Prelude Bytecode BytecodeOpt.

(** ** Well-formed code *)

(** The pcs of the instructions, and the pc behind the last one. *)
Inductive isStart (codes : list Bytecode) : nat -> Prop :=
  | start_first : isStart codes 0
  | start_next pc u : isStart codes pc -> codes !! pc = Some u -> isStart codes (pc + sizeOf u).

Record wf (codes : list Bytecode) : Prop := {
  wf_fits : (Z.of_nat (length codes) < 2 ^ 31)%Z;
  wf_instr pc : isStart codes pc -> pc < length codes ->
    exists u, codes !! pc = Some u /\ is_Some (opOf (opcode u)) /\ 1 <= sizeOf u /\ pc + sizeOf u <= length codes;
  wf_target pc u : isStart codes pc -> codes !! pc = Some u -> unitHasTarget u = true ->
    exists t, fastop0 u = Z.of_nat t /\ isStart codes t /\ t < length codes;
  wf_short pc u : isStart codes pc -> codes !! pc = Some u -> opIs JUMP u || opIs RETN u = true -> sizeOf u = 1;
  wf_dispatch pc u k : isStart codes pc -> codes !! pc = Some u -> opIs BRCH u = true ->
    k < brchArmDispatchCount u -> exists j, codes !! (pc + sizeOf u + k) = Some j /\ opIs JUMP j = true;
  wf_falls pc u : isStart codes pc -> codes !! pc = Some u -> leaves u = false -> pc + sizeOf u < length codes;
}.

Lemma opIs_spec o u : opIs o u = true <-> opOf (opcode u) = Some o.
Proof. unfold opIs. apply bool_decide_eq_true. Qed.

Lemma opIs_ne o o' u : opIs o u = true -> o <> o' -> opIs o' u = false.
Proof. intros Ho%opIs_spec Hne. apply bool_decide_eq_false. congruence. Qed.

Lemma jump_hasTarget u : opIs JUMP u = true -> unitHasTarget u = true.
Proof. intros Ho%opIs_spec. unfold unitHasTarget. by rewrite Ho. Qed.

Section starts.
Context (codes : list Bytecode).
Context (Hpos : forall pc u, isStart codes pc -> codes !! pc = Some u -> 1 <= sizeOf u).

(** Instructions do not overlap. *)
Lemma start_after p q u : isStart codes p -> isStart codes q -> codes !! p = Some u -> p < q -> p + sizeOf u <= q.
Proof.
  revert p u. induction q as [q IH] using lt_wf_ind. intros p u Hp Hq Hu Hlt.
  inversion Hq as [|q0 v Hq0 Hv Eq]; [lia|]. subst q. pose proof (Hpos q0 v Hq0 Hv).
  destruct (lt_eq_lt_dec p q0) as [[Hpq| ->]|Hpq].
  - specialize (IH q0 ltac:(lia) p u Hp Hq0 Hu Hpq). lia.
  - replace v with u by congruence. lia.
  - specialize (IH p ltac:(lia) q0 v Hq0 Hp Hv Hpq). lia.
Qed.
End starts.

Lemma wf_pos codes : wf codes -> forall pc u, isStart codes pc -> codes !! pc = Some u -> 1 <= sizeOf u.
Proof.
  intros Hw pc u Hs Hu. destruct (wf_instr _ Hw pc Hs) as (u' & Hu' & _ & Hsz & _); [by eapply lookup_lt_Some|].
  by simplify_eq.
Qed.

Lemma wf_start_after codes p q u :
  wf codes -> isStart codes p -> isStart codes q -> codes !! p = Some u -> p < q -> p + sizeOf u <= q.
Proof. intros Hw. apply start_after. by apply wf_pos. Qed.

Lemma start_bound codes pc : wf codes -> isStart codes pc -> pc <= length codes.
Proof.
  intros Hw Hs. inversion Hs as [|p u Hp Hu E]; [lia|].
  destruct (wf_instr _ Hw p Hp) as (u' & Hu' & _ & _ & Hle); [by eapply lookup_lt_Some|]. simplify_eq. lia.
Qed.

Lemma targetOf_nat codes u t : wf codes -> t < length codes -> fastop0 u = Z.of_nat t -> targetOf u = Z.of_nat t.
Proof.
  intros Hw Ht Hf. pose proof (wf_fits _ Hw). unfold targetOf. rewrite Hf. apply wrapu_small. lia.
Qed.

Lemma wf_targetOf codes pc u : wf codes -> isStart codes pc -> codes !! pc = Some u -> unitHasTarget u = true ->
  exists t, fastop0 u = Z.of_nat t /\ targetOf u = Z.of_nat t /\ isStart codes t /\ t < length codes.
Proof.
  intros Hw Hs Hu Ht. destruct (wf_target _ Hw pc u Hs Hu Ht) as (t & Hf & Hst & Hlt).
  exists t. split_and!; try done. by eapply targetOf_nat.
Qed.

Lemma targets_spec codes pc u t : wf codes -> isStart codes pc -> codes !! pc = Some u -> unitHasTarget u = true ->
  targets u t = true <-> fastop0 u = Z.of_nat t.
Proof.
  intros Hw Hs Hu Ht. destruct (wf_targetOf codes pc u Hw Hs Hu Ht) as (t' & Hf & Hto & _).
  unfold targets. rewrite Hto, Hf, Z.eqb_eq. done.
Qed.

(** Entries of a dispatch table are instructions. *)
Lemma dispatch_start codes pc u k : wf codes -> isStart codes pc -> codes !! pc = Some u -> opIs BRCH u = true ->
  k <= brchArmDispatchCount u -> isStart codes (pc + sizeOf u + k).
Proof.
  intros Hw Hs Hu Hb. induction k as [|k IH]; intros Hk.
  - rewrite Nat.add_0_r. by eapply start_next.
  - destruct (wf_dispatch _ Hw pc u k Hs Hu Hb) as (j & Hj & Hjmp); [lia|].
    specialize (IH ltac:(lia)). pose proof (start_next _ _ _ IH Hj) as Hn.
    rewrite (wf_short _ Hw _ _ IH Hj) in Hn by (by rewrite Hjmp).
    by replace (pc + sizeOf u + S k) with (pc + sizeOf u + k + 1) by lia.
Qed.

(** ** What the searches of the optimizer find *)

Lemma dispatchFrom_false codes fuel pc index :
  wf codes -> isStart codes pc -> dispatchFrom fuel pc index codes = Some false ->
  forall p u k, isStart codes p -> codes !! p = Some u -> opIs BRCH u = true -> pc <= p ->
    k < brchArmDispatchCount u -> p + sizeOf u + k <> index.
Proof.
  intros Hw. revert pc. induction fuel as [|fuel IH]; intros pc Hs; simpl.
  - case_decide; [done|]. intros _ p u k _ Hu _ Hle. apply lookup_lt_Some in Hu. lia.
  - case_decide as Hpc.
    2: { intros _ p u k _ Hu _ Hle. apply lookup_lt_Some in Hu. lia. }
    destruct (wf_instr _ Hw pc Hs Hpc) as (bc & Hbc & _ & Hsz & _). rewrite Hbc. simpl.
    pose proof (start_next _ _ _ Hs Hbc) as Hn.
    assert (Hgo : dispatchFrom fuel (pc + sizeOf bc) index codes = Some false ->
      (forall k, opIs BRCH bc = true -> k < brchArmDispatchCount bc -> pc + sizeOf bc + k <> index) ->
      forall p u k, isStart codes p -> codes !! p = Some u -> opIs BRCH u = true -> pc <= p ->
        k < brchArmDispatchCount u -> p + sizeOf u + k <> index).
    { intros Hd Hhere p u k Hp Hu Hb Hle Hk. destruct (decide (p = pc)) as [->|Hne].
      - replace u with bc in * by congruence. by apply Hhere.
      - eapply (IH (pc + sizeOf bc)); try done. apply (wf_start_after codes pc p bc); try done. lia. }
    destruct (opIs BRCH bc) eqn:Hb; [|by intros Hd; apply Hgo].
    destruct ((pc + sizeOf bc <=? index) && (index <? pc + sizeOf bc + brchArmDispatchCount bc)) eqn:Hin; [done|].
    rewrite andb_false_iff, Nat.leb_gt, Nat.ltb_ge in Hin.
    destruct (Nat.leb_spec index pc) as [Hip|Hip].
    + intros _ p u k Hp Hu _ Hle _. pose proof (wf_pos _ Hw p u Hp Hu). lia.
    + intros Hd. apply Hgo; [exact Hd|]. intros k _ Hk. lia.
Qed.

Lemma isBrchDispatchJump_false codes index p u k :
  wf codes -> isBrchDispatchJump codes index = Some false ->
  (exists ui, codes !! index = Some ui /\ opIs JUMP ui = true) ->
  isStart codes p -> codes !! p = Some u -> opIs BRCH u = true -> k < brchArmDispatchCount u ->
  p + sizeOf u + k <> index.
Proof.
  intros Hw Hd (ui & Hui & Hj) Hp Hu Hb Hk. unfold isBrchDispatchJump in Hd. rewrite Hui, Hj in Hd.
  eapply dispatchFrom_false; [exact Hw|apply start_first|exact Hd|..]; try done. lia.
Qed.

Lemma jumpedFrom_false codes fuel j pc :
  wf codes -> isStart codes j -> jumpedFrom fuel j pc codes = Some false ->
  forall p u, isStart codes p -> codes !! p = Some u -> opIs JUMP u = true -> j <= p -> targets u pc = false.
Proof.
  intros Hw. revert j. induction fuel as [|fuel IH]; intros j Hs; simpl.
  - case_decide; [done|]. intros _ p u _ Hu _ Hle. apply lookup_lt_Some in Hu. lia.
  - case_decide as Hj; [|intros _ p u _ Hu _ Hle; apply lookup_lt_Some in Hu; lia].
    destruct (wf_instr _ Hw j Hs Hj) as (uj & Huj & _ & Hsz & _). rewrite Huj. simpl.
    destruct (opIs JUMP uj && targets uj pc) eqn:Ht; [done|]. intros Hd p u Hp Hu Hjmp Hle.
    destruct (decide (p = j)) as [->|Hne].
    + replace u with uj by congruence. apply andb_false_iff in Ht as [Ht|]; [|done].
      replace u with uj in Hjmp by congruence. congruence.
    + eapply (IH (j + sizeOf uj)); try done; [by eapply start_next|].
      apply (wf_start_after codes j p uj); try done. lia.
Qed.

Lemma findPrevFrom_spec codes fuel i index prev :
  wf codes -> isStart codes i -> i <= index -> index <= length codes -> findPrevFrom fuel i index codes = Some prev ->
  (prev = index /\ i = index) \/
  (isStart codes prev /\ exists u, codes !! prev = Some u /\ prev + sizeOf u = index) \/
  (prev = index /\ ~ isStart codes index).
Proof.
  intros Hw. revert i. induction fuel as [|fuel IH]; intros i Hs Hle Hlen; simpl.
  - case_decide; [done|]. intros [= <-]. left. lia.
  - case_decide as Hi; [|intros [= <-]; left; lia].
    destruct (wf_instr _ Hw i Hs) as (u & Hu & _ & Hsz & _); [lia|]. rewrite Hu. simpl.
    destruct (Nat.eqb_spec (i + sizeOf u) index) as [E|E].
    + intros [= <-]. right. left. eauto.
    + pose proof (start_next _ _ _ Hs Hu) as Hn. intros Hf.
      destruct (decide (i + sizeOf u <= index)) as [Hin|Hin].
      * destruct (IH _ Hn Hin Hlen Hf) as [[-> ?]|[?|[-> ?]]]; [lia|by right; left|by right; right].
      * right. right. assert (Hst : ~ isStart codes index).
        { intros Hx. apply Hin. apply (wf_start_after codes i index u); done. }
        destruct fuel; simpl in Hf; rewrite decide_False in Hf by lia; by simplify_eq.
Qed.

(** The instruction before another one. *)
Lemma findPrev_spec codes index prev :
  wf codes -> isStart codes index -> findPrev codes index = Some prev ->
  (prev = index /\ index = 0) \/
  (prev < index /\ isStart codes prev /\ exists u, codes !! prev = Some u /\ prev + sizeOf u = index).
Proof.
  intros Hw Hi Hf. pose proof (start_bound _ _ Hw Hi).
  destruct (findPrevFrom_spec codes index 0 index prev Hw (start_first _)) as [[-> <-]|[(Hs & u & Hu & E)|[_ ?]]];
    try done; [lia|by left|].
  right. pose proof (wf_pos _ Hw _ _ Hs Hu). split; [lia|]. eauto.
Qed.

Lemma joinJumps_spec codes fuel j curr found r :
  wf codes -> isStart codes j -> joinJumps fuel j curr codes found = Some r ->
  match r with
  | inl i => isStart codes i /\ exists u prev pu, codes !! i = Some u /\ opIs JUMP u = true /\ targets u curr = true /\
      findPrev codes i = Some prev /\ codes !! prev = Some pu /\ opIs TAIL pu || opIs RETN pu = true
  | inr false => found = false /\ forall p u, isStart codes p -> codes !! p = Some u -> opIs JUMP u = true ->
      j <= p -> targets u curr = false
  | inr true => True
  end.
Proof.
  intros Hw. revert j found. induction fuel as [|fuel IH]; intros j found Hs; simpl.
  - case_decide; [done|]. intros [= <-]. destruct found; [done|]. split; [done|].
    intros p u _ Hu _ Hle. apply lookup_lt_Some in Hu. lia.
  - case_decide as Hj.
    2: { intros [= <-]. destruct found; [done|]. split; [done|].
         intros p u _ Hu _ Hle. apply lookup_lt_Some in Hu. lia. }
    destruct (wf_instr _ Hw j Hs Hj) as (u & Hu & _ & Hsz & _). rewrite Hu. simpl.
    pose proof (start_next _ _ _ Hs Hu) as Hn.
    destruct (opIs JUMP u && targets u curr) eqn:Ht.
    + apply andb_true_iff in Ht as [Hjmp Ht].
      destruct (findPrev codes j) as [prev|] eqn:Hf; simpl; [|done].
      destruct (codes !! prev) as [pu|] eqn:Hpu; simpl; [|done].
      destruct (opIs TAIL pu || opIs RETN pu) eqn:Hl.
      * intros [= <-]. split; [done|]. by exists u, prev, pu.
      * intros Hr. specialize (IH _ _ Hn Hr). destruct r as [i|[|]]; [done|done|]. by destruct IH.
    + intros Hr. specialize (IH _ _ Hn Hr). destruct r as [i|[|]]; [done|done|].
      destruct IH as [-> IH]. split; [done|]. intros p v Hp Hv Hjmp Hle.
      destruct (decide (p = j)) as [->|Hne].
      * replace v with u in * by congruence. rewrite Hjmp in Ht. done.
      * apply (IH p v); try done. apply (wf_start_after codes j p u); try done. lia.
Qed.

(** ** Execution *)

(** An instruction without its jump target: the header unit and the units behind it. *)
Abbreviation Instr := (Bytecode * list Bytecode)%type.
Definition masked (u : Bytecode) : Bytecode := if unitHasTarget u then setFast0 0 u else u.
Definition instrOf (codes : list Bytecode) (pc : nat) (u : Bytecode) : Instr :=
  (masked u, take (sizeOf u - 1) (drop (S pc) codes)).

Section machine.
Context {S : Type}.

Record Vm := {
  (** An instruction that goes on to the next one; [None] is a fault. *)
  plain : Instr -> S -> option S;
  (** The arm a BRCH takes, below the size of its dispatch table. *)
  arm : Instr -> S -> nat * S;
  (** Whether an LTST or an LEND jumps. *)
  loop : Instr -> S -> bool * S;
  arm_bound u body s : (arm (u, body) s).1 < brchArmDispatchCount u;
}.
Context (vm : Vm).

(** How the graph ends: at a RETN or TAIL, or at a fault. *)
Inductive end_ := Ended (i : Instr) (s : S) | Fault (i : Instr) (s : S).
Inductive vmEffect := Goes (pc : nat) (s : S) | Stops (e : end_).

(** [None]: there is no instruction. *)
Definition vmStep (codes : list Bytecode) (pc : nat) (s : S) : option vmEffect :=
  u ← codes !! pc;
  o ← opOf (opcode u);
  let i := instrOf codes pc u in
  let next := pc + sizeOf u in
  let target := Z.to_nat (targetOf u) in
  Some (match o with
        | RETN | TAIL => Stops (Ended i s)
        | JUMP => Goes target s
        | LTST | LEND => let (b, s) := loop vm i s in Goes (if b : bool then target else next) s
        | BRCH => let (k, s) := arm vm i s in Goes (next + k) s
        | _ => match plain vm i s with Some s => Goes next s | None => Stops (Fault i s) end
        end).

Fixpoint vmRun (fuel : nat) (codes : list Bytecode) (pc : nat) (s : S) : option end_ :=
  match fuel with
  | O => None
  | Datatypes.S fuel =>
      match vmStep codes pc s with
      | Some (Goes pc s) => vmRun fuel codes pc s
      | Some (Stops e) => Some e
      | None => None
      end
  end.

(** An execution from the first instruction on ends in [e]. *)
Definition ends (codes : list Bytecode) (s : S) (e : end_) : Prop := exists fuel, vmRun fuel codes 0 s = Some e.

(** Two programs that do the same, from every state. *)
Definition sameRuns (codes codes' : list Bytecode) : Prop := forall s e, ends codes s e <-> ends codes' s e.

#[export] Instance sameRuns_equivalence : Equivalence sameRuns.
Proof.
  split; [by intros ? ?|intros ? ? H s e; by rewrite (H s e)|intros ? ? ? H1 H2 s e; by rewrite (H1 s e)].
Qed.

(** Simulation in which the first program may take one step more, a jump, before the two do the
    same. *)
Definition matched (R : nat -> nat -> Prop) (a b : option vmEffect) : Prop :=
  match a, b with
  | Some (Goes p s), Some (Goes q s') => R p q /\ s = s'
  | Some (Stops e), Some (Stops e') => e = e'
  | None, None => True
  | _, _ => False
  end.

Lemma stutter codes codes' (R : nat -> nat -> Prop) :
  R 0 0 ->
  (forall p q s, R p q -> exists p', (p' = p \/ vmStep codes p s = Some (Goes p' s)) /\
     matched R (vmStep codes p' s) (vmStep codes' q s)) ->
  sameRuns codes codes'.
Proof.
  intros H0 HR s e.
  assert (Hfw : forall fuel p q s, R p q -> vmRun fuel codes p s = Some e -> exists f', vmRun f' codes' q s = Some e).
  { intros fuel. induction fuel as [fuel IH] using lt_wf_ind. intros p q s1 Hr Hrun.
    destruct (HR p q s1 Hr) as (p' & Hp' & Hm).
    assert (Hp'run : exists f, f <= fuel /\ vmRun f codes p' s1 = Some e).
    { destruct Hp' as [->|Hst]; [by exists fuel|]. destruct fuel as [|f]; [done|]. simpl in Hrun.
      rewrite Hst in Hrun. exists f. split; [lia|done]. }
    destruct Hp'run as (f & Hf & Hrun'). destruct f as [|f]; [done|]. simpl in Hrun'.
    destruct (vmStep codes p' s1) as [[p1 s2|e1]|], (vmStep codes' q s1) as [[q1 s2'|e2]|] eqn:Hq; simpl in Hm; try done.
    - destruct Hm as [Hr1 <-]. destruct (IH f ltac:(lia) p1 q1 s2 Hr1 Hrun') as [f' Hf'].
      exists (Datatypes.S f'). simpl. by rewrite Hq.
    - subst e2. exists 1. simpl. by rewrite Hq. }
  assert (Hbw : forall fuel p q s, R p q -> vmRun fuel codes' q s = Some e -> exists f', vmRun f' codes p s = Some e).
  { intros fuel. induction fuel as [|fuel IH]; intros p q s1 Hr Hrun; [done|].
    destruct (HR p q s1 Hr) as (p' & Hp' & Hm). simpl in Hrun.
    assert (Hdone : exists f, vmRun f codes p' s1 = Some e).
    { destruct (vmStep codes p' s1) as [[p1 s2|e1]|] eqn:Hp1, (vmStep codes' q s1) as [[q1 s2'|e2]|]; simpl in Hm; try done.
      - destruct Hm as [Hr1 <-]. destruct (IH p1 q1 s2 Hr1 Hrun) as [f' Hf'].
        exists (Datatypes.S f'). simpl. by rewrite Hp1.
      - subst e2. exists 1. simpl. by rewrite Hp1. }
    destruct Hdone as [f Hf]. destruct Hp' as [->|Hst]; [eauto|]. exists (Datatypes.S f). simpl. by rewrite Hst. }
  split; intros [fuel Hrun]; [exact (Hfw fuel 0 0 s H0 Hrun)|exact (Hbw fuel 0 0 s H0 Hrun)].
Qed.
End machine.
