(* ===== verification/BytecodeEdit.v ===== *)
(** * Removing an instruction

    What [removeop] followed by [redirect] makes of well-formed code: where every instruction
    goes, that the result is well-formed, and that it does what the code did, when the instruction
    is a JUMP to the next one or is never reached. *)

From S2P Require Import Prelude Bytecode BytecodeOpt BytecodeSem.

Lemma redirect_op start step u : opcode (redirectUnit start step u) = opcode u.
Proof. unfold redirectUnit. by destruct (_ && _). Qed.
Lemma redirect_size start step u : sizeOf (redirectUnit start step u) = sizeOf u.
Proof. unfold redirectUnit. by destruct (_ && _). Qed.
Lemma redirect_opIs o start step u : opIs o (redirectUnit start step u) = opIs o u.
Proof. unfold opIs. by rewrite redirect_op. Qed.
Lemma redirect_hasTarget start step u : unitHasTarget (redirectUnit start step u) = unitHasTarget u.
Proof. unfold unitHasTarget. by rewrite redirect_op. Qed.
Lemma redirect_count start step u : brchArmDispatchCount (redirectUnit start step u) = brchArmDispatchCount u.
Proof. unfold redirectUnit. by destruct (_ && _). Qed.
Lemma redirect_leaves start step u : leaves (redirectUnit start step u) = leaves u.
Proof. unfold leaves. by rewrite !redirect_opIs. Qed.
Lemma redirect_masked start step u : masked (redirectUnit start step u) = masked u.
Proof.
  unfold masked. rewrite redirect_hasTarget. unfold redirectUnit. destruct (unitHasTarget u); [|done].
  by destruct (true && _).
Qed.

Lemma redirectFrom_opcodes fuel start step i c c' :
  redirectFrom fuel start step i c = Some c' -> opcode <$> c' = opcode <$> c.
Proof.
  revert i c. induction fuel as [|fuel IH]; intros i c; simpl; case_decide; try done; try (by intros [= <-]).
  destruct (c !! i) as [u|] eqn:Hu; simpl; [|done]. intros ->%IH.
  rewrite list_fmap_insert, redirect_op. apply list_insert_id. by rewrite list_lookup_fmap, Hu.
Qed.

Section redirect.
Context (codes : list Bytecode) (start step : nat).
Context (Hin : forall pc, isStart codes pc -> pc < length codes ->
  exists u, codes !! pc = Some u /\ 1 <= sizeOf u /\ pc + sizeOf u <= length codes).

Lemma redirect_pos pc u : isStart codes pc -> codes !! pc = Some u -> 1 <= sizeOf u.
Proof.
  intros Hs Hu. destruct (Hin pc Hs) as (u' & ? & ? & ?); [by eapply lookup_lt_Some|]. by simplify_eq.
Qed.

Definition redirectedUpTo (i : nat) (c : list Bytecode) : Prop :=
  length c = length codes /\ forall j u, codes !! j = Some u ->
    (isStart codes j -> j < i -> c !! j = Some (redirectUnit start step u)) /\
    ((~ isStart codes j \/ i <= j) -> c !! j = Some u).

Lemma redirectFrom_spec fuel i c :
  isStart codes i -> redirectedUpTo i c -> length codes <= i + fuel ->
  exists c', redirectFrom fuel start step i c = Some c' /\ redirectedUpTo (length codes) c'.
Proof.
  revert i c. induction fuel as [|fuel IH]; intros i c Hs Hr Hf; simpl.
  - rewrite decide_False by (destruct Hr as [-> _]; lia). exists c. split; [done|].
    destruct Hr as [Hl Hr]. split; [done|]. intros j u Hu. destruct (Hr j u Hu) as [H1 H2].
    apply lookup_lt_Some in Hu. split; [|intros [?|?]; [apply H2; by left|lia]]. intros. apply H1; [done|lia].
  - pose proof Hr as [Hl Hr']. case_decide as Hi.
    + destruct (Hin i Hs) as (u & Hu & Hsz & Hle); [lia|].
      destruct (Hr' i u Hu) as [_ Hui]. rewrite Hui by (right; lia). simpl.
      apply IH; [by eapply start_next| |lia]. split; [by rewrite length_insert|].
      intros j v Hv. destruct (Hr' j v Hv) as [H1 H2]. destruct (decide (i = j)) as [<-|Hne].
      * replace v with u by congruence. split.
        -- intros _ _. apply list_lookup_insert_eq. lia.
        -- intros [?|?]; [done|lia].
      * rewrite list_lookup_insert_ne by done. split.
        -- intros Hj Hlt. apply H1; [done|]. destruct (decide (j < i)); [done|].
           pose proof (start_after codes redirect_pos i j u Hs Hj Hu). lia.
        -- intros Ho. apply H2. destruct Ho; [by left|right; lia].
    + exists c. split; [done|]. split; [done|]. intros j u Hu. destruct (Hr' j u Hu) as [H1 H2].
      apply lookup_lt_Some in Hu. split; [|intros [?|?]; [apply H2; by left|lia]]. intros. apply H1; [done|lia].
Qed.

Lemma redirect_spec : exists c', redirectFrom (length codes) start step 0 codes = Some c' /\
  redirectedUpTo (length codes) c'.
Proof.
  apply redirectFrom_spec; [apply start_first| |lia]. split; [done|]. intros j u Hu. split; [intros; lia|done].
Qed.

Lemma redirected_start c' : redirectedUpTo (length codes) c' -> forall q, isStart c' q <-> isStart codes q.
Proof.
  intros [Hl Hr]. split.
  - induction 1 as [|q v _ IH Hv]; [apply start_first|].
    destruct (lookup_lt_is_Some_2 codes q) as [u Hu]; [rewrite <- Hl; by eapply lookup_lt_Some|].
    destruct (Hr q u Hu) as [H1 _]. rewrite H1 in Hv by (done || by eapply lookup_lt_Some).
    injection Hv as <-. rewrite redirect_size. by eapply start_next.
  - induction 1 as [|q u Hq IH Hu]; [apply start_first|].
    destruct (Hr q u Hu) as [H1 _]. rewrite <- (redirect_size start step u).
    eapply start_next; [done|]. apply H1; [done|by eapply lookup_lt_Some].
Qed.
End redirect.

Section removal.
Context (codes : list Bytecode) (Hw : wf codes) (k n : nat) (uk : Bytecode).
Context (Hk : isStart codes k) (Huk : codes !! k = Some uk) (Hn : sizeOf uk = n).

Definition cut : list Bytecode := take k codes ++ drop (k + n) codes.
(** Where a pc goes, and where one came from. *)
Definition to (p : nat) : nat := if decide (p <= k) then p else p - n.
Definition from (q : nat) : nat := if decide (q < k) then q else q + n.

Lemma k_fits : 1 <= n /\ k + n <= length codes.
Proof.
  destruct (wf_instr _ Hw k Hk) as (u & Hu & _ & ? & ?); [by eapply lookup_lt_Some|]. simplify_eq. lia.
Qed.

Lemma cut_length : length cut = length codes - n.
Proof. pose proof k_fits. unfold cut. rewrite length_app, length_take, length_drop. lia. Qed.

Lemma cut_lookup q : cut !! q = codes !! from q.
Proof.
  pose proof k_fits. unfold cut, from. case_decide.
  - rewrite lookup_app_l by (rewrite length_take; lia). by rewrite lookup_take_lt.
  - rewrite lookup_app_r by (rewrite length_take; lia). rewrite length_take, lookup_drop. f_equal. lia.
Qed.

Lemma start_outside p : isStart codes p -> p <= k \/ k + n <= p.
Proof.
  intros Hp. destruct (decide (p <= k)); [by left|right].
  rewrite <- Hn. apply (wf_start_after codes k p uk); try done. lia.
Qed.

Lemma from_to p : isStart codes p -> p <> k -> from (to p) = p.
Proof. intros Hp Hne. pose proof (start_outside p Hp). pose proof k_fits. unfold from, to. repeat case_decide; lia. Qed.

Lemma to_from q : to (from q) = q.
Proof. pose proof k_fits. unfold from, to. repeat case_decide; lia. Qed.

Lemma to_next p u : isStart codes p -> p <> k -> codes !! p = Some u -> to (p + sizeOf u) = to p + sizeOf u.
Proof.
  intros Hp Hne Hu. pose proof (start_outside p Hp). pose proof k_fits. unfold to.
  destruct (decide (p < k)).
  - pose proof (wf_start_after codes p k u Hw Hp Hk Hu). repeat case_decide; lia.
  - repeat case_decide; lia.
Qed.

Lemma cut_start p : isStart codes p -> isStart cut (to p).
Proof.
  induction 1 as [|p u Hp IH Hu].
  - unfold to. rewrite decide_True by lia. apply start_first.
  - destruct (decide (p = k)) as [->|Hne].
    + rewrite Huk in Hu. injection Hu as <-. rewrite Hn. pose proof k_fits. revert IH. unfold to.
      rewrite decide_True, decide_False by lia. by replace (k + n - n) with k by lia.
    + rewrite (to_next p u) by done. eapply start_next; [done|]. rewrite cut_lookup, from_to by done. done.
Qed.

Lemma cut_start_inv q : isStart cut q -> isStart codes (from q).
Proof.
  pose proof k_fits. induction 1 as [|q u Hq IH Hu].
  - unfold from. case_decide; [apply start_first|]. replace k with 0 in * by lia.
    simpl. rewrite <- Hn. by apply (start_next _ 0).
  - rewrite cut_lookup in Hu. pose proof (start_next _ _ _ IH Hu) as Hs.
    assert (Hfk : from q <> k) by (unfold from; case_decide; lia).
    destruct (decide (from q + sizeOf u = k)) as [E|E].
    + rewrite E in Hs. unfold from in *. case_decide; [|lia]. rewrite decide_False by lia.
      rewrite E, <- Hn. by eapply start_next.
    + replace (from (q + sizeOf u)) with (from q + sizeOf u); [done|].
      pose proof (wf_pos _ Hw _ _ IH Hu).
      pose proof (fun Hlt => wf_start_after codes (from q) k u Hw IH Hk Hu Hlt) as Hbefore.
      revert E Hfk Hbefore. unfold from. repeat case_decide; lia.
Qed.

Lemma cut_instr q : isStart cut q -> q < length cut ->
  exists u, cut !! q = Some u /\ 1 <= sizeOf u /\ q + sizeOf u <= length cut.
Proof.
  intros Hq Hlt. pose proof k_fits. pose proof (cut_start_inv q Hq) as Hf. rewrite cut_length in *.
  destruct (wf_instr _ Hw (from q) Hf) as (u & Hu & _ & Hsz & Hle).
  { unfold from. case_decide; lia. }
  exists u. rewrite cut_lookup. split_and!; [done|done|].
  revert Hle. unfold from in *. case_decide; [|lia]. intros _.
  pose proof (wf_start_after codes q k u Hw Hf Hk Hu). lia.
Qed.

(** [edited] is the code without the instruction. *)
Context (edited : list Bytecode) (Hed : redirectedUpTo cut k n (length cut) edited).

Lemma edited_length : length edited = length codes - n.
Proof. destruct Hed as [-> _]. apply cut_length. Qed.

Lemma edited_start q : isStart edited q <-> isStart cut q.
Proof. by apply (redirected_start cut k n). Qed.

Lemma edited_to p : isStart codes p -> isStart edited (to p).
Proof. intros Hp. by apply edited_start, cut_start. Qed.

Lemma edited_from q : isStart edited q -> isStart codes (from q) /\ from q <> k.
Proof.
  intros Hq%edited_start. split; [by apply cut_start_inv|]. pose proof k_fits. unfold from. case_decide; lia.
Qed.

Lemma edited_unit q : isStart edited q -> edited !! q = redirectUnit k n <$> codes !! from q.
Proof.
  intros Hq. rewrite <- cut_lookup. destruct Hed as [Hl Hr]. destruct (cut !! q) as [u|] eqn:Hu; simpl.
  - destruct (Hr q u Hu) as [H1 _]. apply H1; [by apply edited_start|by eapply lookup_lt_Some].
  - apply lookup_ge_None. rewrite Hl. by apply lookup_ge_None.
Qed.

Lemma edited_at p : isStart codes p -> p <> k -> edited !! to p = redirectUnit k n <$> codes !! p.
Proof. intros Hp Hne. rewrite edited_unit by by apply edited_to. by rewrite from_to. Qed.

(** An instruction is what it was, but for its target. *)
Lemma edited_instrOf p u : isStart codes p -> p <> k -> codes !! p = Some u ->
  instrOf edited (to p) (redirectUnit k n u) = instrOf codes p u.
Proof.
  intros Hp Hne Hu. unfold instrOf. rewrite redirect_masked, redirect_size. f_equal.
  pose proof k_fits. pose proof (start_outside p Hp).
  assert (Hsz : 1 <= sizeOf u) by by eapply wf_pos.
  apply list_eq. intros i. destruct (decide (i < sizeOf u - 1)).
  2: { rewrite !lookup_take_ge by lia. done. }
  rewrite !lookup_take_lt, !lookup_drop by lia.
  assert (Hbody : forall x, isStart codes x -> x <> p + S i).
  { intros x Hx ->. pose proof (wf_start_after codes p (p + S i) u Hw Hp Hx Hu). lia. }
  assert (Hto : from (to p + S i) = p + S i).
  { unfold from, to. destruct (decide (p < k)).
    - pose proof (wf_start_after codes p k u Hw Hp Hk Hu). repeat case_decide; lia.
    - repeat case_decide; lia. }
  replace (S (to p) + i) with (to p + S i) by lia. replace (S p + i) with (p + S i) by lia.
  rewrite <- Hto, <- cut_lookup. destruct Hed as [Hl Hr].
  destruct (cut !! (to p + S i)) as [v|] eqn:Hv.
  - destruct (Hr _ v Hv) as [_ H2]. apply H2. left. intros Hx%edited_start.
    apply edited_from in Hx as [Hx _]. rewrite Hto in Hx. by apply (Hbody _ Hx).
  - apply lookup_ge_None. rewrite Hl. by apply lookup_ge_None.
Qed.

Lemma redirected_target u t : isStart codes t -> t <= length codes -> unitHasTarget u = true -> fastop0 u = Z.of_nat t ->
  fastop0 (redirectUnit k n u) = Z.of_nat (to t).
Proof.
  intros Ht Hlt Hj Hf. pose proof (start_outside t Ht). pose proof k_fits. pose proof (wf_fits _ Hw).
  assert (Hto : targetOf u = Z.of_nat t) by (unfold targetOf; rewrite Hf; apply wrapu_small; lia).
  unfold redirectUnit. rewrite Hj, Hto, Hf. simpl. unfold to.
  destruct (Z.ltb_spec (Z.of_nat k) (Z.of_nat t)); case_decide; try lia; simpl.
  rewrite wraps_small; lia.
Qed.

(** ** Why the instruction may go *)

(** Nothing reaches it: it is not the first, no instruction goes on to it and none jumps to it. *)
Definition dead : Prop := k <> 0 /\ forall p u, isStart codes p -> p <> k -> codes !! p = Some u ->
  (leaves u = false -> p + sizeOf u <> k) /\ (unitHasTarget u = true -> fastop0 u <> Z.of_nat k).
(** It is a JUMP to the next instruction. *)
Definition skips : Prop := opIs JUMP uk = true /\ fastop0 uk = Z.of_nat (k + n).

Context (Hdisp : forall p u j, isStart codes p -> codes !! p = Some u -> opIs BRCH u = true ->
  j < brchArmDispatchCount u -> p + sizeOf u + j <> k).
Context (Hwhy : dead \/ skips).

Lemma skips_fits : skips -> k + n < length codes.
Proof.
  intros [Hj Hf]. destruct (wf_target _ Hw k uk Hk Huk (jump_hasTarget _ Hj)) as (t & Ht & _ & Hlt). lia.
Qed.

(** A pc that control comes to. *)
Definition visited (p : nat) : Prop := isStart codes p /\ p < length codes /\ (dead -> p <> k).

Lemma visited_to p : visited p -> to p < length edited.
Proof.
  intros (Hp & Hlt & Hne). rewrite edited_length. pose proof (start_outside p Hp). pose proof k_fits.
  unfold to. destruct Hwhy as [Hd|Hs].
  - specialize (Hne Hd). case_decide; lia.
  - pose proof (skips_fits Hs). case_decide; lia.
Qed.

Lemma visited_next p u : isStart codes p -> p <> k -> codes !! p = Some u -> leaves u = false -> visited (p + sizeOf u).
Proof.
  intros Hp Hne Hu Hl. split_and!.
  - by eapply start_next.
  - by apply (wf_falls _ Hw p u).
  - intros [_ Hd]. by apply (Hd p u).
Qed.

Lemma visited_target p u t : isStart codes p -> p <> k -> codes !! p = Some u -> unitHasTarget u = true ->
  fastop0 u = Z.of_nat t -> visited t.
Proof.
  intros Hp Hne Hu Hj Hf. destruct (wf_target _ Hw p u Hp Hu Hj) as (t' & Hf' & Ht & Hlt).
  assert (t' = t) as -> by lia. split_and!; [done|done|]. intros [_ Hd] ->. by apply (Hd p u Hp Hne Hu).
Qed.

Lemma to_dispatch p u j : isStart codes p -> p <> k -> codes !! p = Some u -> opIs BRCH u = true ->
  j < brchArmDispatchCount u ->
  visited (p + sizeOf u + j) /\ p + sizeOf u + j <> k /\ to (p + sizeOf u + j) = to p + sizeOf u + j.
Proof.
  intros Hp Hne Hu Hb Hj. pose proof (Hdisp p u j Hp Hu Hb Hj) as Hnk.
  assert (Hs : isStart codes (p + sizeOf u + j)) by (apply dispatch_start; try done; lia).
  destruct (wf_dispatch _ Hw p u j Hp Hu Hb Hj) as (uj & Huj & _).
  split_and!; [split_and!; [done|by eapply lookup_lt_Some|done]|done|].
  clear Hs Huj Hnk. induction j as [|j IH].
  - rewrite !Nat.add_0_r. by apply to_next.
  - destruct (wf_dispatch _ Hw p u j Hp Hu Hb) as (v & Hv & Hjmp); [lia|].
    assert (Hs : isStart codes (p + sizeOf u + j)) by (apply dispatch_start; try done; lia).
    pose proof (to_next _ v Hs (Hdisp p u j Hp Hu Hb ltac:(lia)) Hv) as Hto.
    rewrite (wf_short _ Hw _ _ Hs Hv) in Hto by (by rewrite Hjmp).
    replace (p + sizeOf u + S j) with (p + sizeOf u + j + 1) by lia. rewrite Hto, IH by lia. lia.
Qed.

Lemma edited_wf : wf edited.
Proof.
  assert (Hq : forall q v, isStart edited q -> edited !! q = Some v ->
    exists p u, isStart codes p /\ p <> k /\ codes !! p = Some u /\ q = to p /\ v = redirectUnit k n u).
  { intros q v Hq Hv. rewrite edited_unit in Hv by done. destruct (edited_from q Hq) as [Hp Hne].
    apply fmap_Some in Hv as (u & Hu & ->). exists (from q), u. split_and!; try done. by rewrite to_from. }
  split.
  - rewrite edited_length. pose proof (wf_fits _ Hw). lia.
  - intros q Hs Hlt. destruct (lookup_lt_is_Some_2 edited q Hlt) as [v Hv].
    destruct (Hq q v Hs Hv) as (p & u & Hp & Hne & Hu & -> & ->). exists (redirectUnit k n u).
    destruct (wf_instr _ Hw p Hp) as (u' & Hu' & Ho & Hsz & Hle); [by eapply lookup_lt_Some|].
    replace u' with u in * by congruence. rewrite redirect_op, redirect_size.
    split_and!; [done|done|done|]. rewrite <- (to_next p u) by done. rewrite edited_length.
    pose proof (start_next _ _ _ Hp Hu) as Hnx. pose proof (start_outside _ Hnx). pose proof k_fits.
    unfold to. case_decide; lia.
  - intros q v Hs Hv Hj. destruct (Hq q v Hs Hv) as (p & u & Hp & Hne & Hu & -> & ->).
    rewrite redirect_hasTarget in Hj. destruct (wf_target _ Hw p u Hp Hu Hj) as (t & Hf & Ht & Hlt).
    exists (to t). split_and!.
    + apply redirected_target; try done. lia.
    + by apply edited_to.
    + apply visited_to. by apply (visited_target p u t).
  - intros q v Hs Hv Ho. destruct (Hq q v Hs Hv) as (p & u & Hp & Hne & Hu & -> & ->).
    rewrite !redirect_opIs in Ho. rewrite redirect_size. by apply (wf_short _ Hw p).
  - intros q v j Hs Hv Hb Hj. destruct (Hq q v Hs Hv) as (p & u & Hp & Hne & Hu & -> & ->).
    rewrite redirect_opIs in Hb. rewrite redirect_count in Hj. rewrite redirect_size.
    destruct (to_dispatch p u j Hp Hne Hu Hb Hj) as ((Hst & _ & _) & Hnk & <-).
    destruct (wf_dispatch _ Hw p u j Hp Hu Hb Hj) as (uj & Huj & Hjmp).
    exists (redirectUnit k n uj). rewrite edited_at, Huj by done. by rewrite redirect_opIs.
  - intros q v Hs Hv Hl. destruct (Hq q v Hs Hv) as (p & u & Hp & Hne & Hu & -> & ->).
    rewrite redirect_leaves in Hl. rewrite redirect_size, <- (to_next p u) by done.
    apply visited_to. by apply visited_next.
Qed.

Lemma masked_same u : unitHasTarget u = false -> masked u = u.
Proof. unfold masked. by intros ->. Qed.

Lemma edited_step {S} (vm : @Vm S) p s : visited p -> p <> k ->
  matched (fun p q => visited p /\ q = to p) (vmStep vm codes p s) (vmStep vm edited (to p) s).
Proof.
  intros (Hp & Hlt & _) Hne. destruct (wf_instr _ Hw p Hp Hlt) as (u & Hu & [o Ho] & _ & _).
  unfold vmStep. rewrite edited_at, Hu by done. simpl. rewrite redirect_op, Ho. simpl.
  rewrite (edited_instrOf p u Hp Hne Hu), redirect_size.
  assert (Hlv : forall o', o = o' -> match o' with JUMP | TAIL | RETN => False | _ => True end -> leaves u = false).
  { intros o' <- Hn'. unfold leaves, opIs. rewrite Ho. rewrite !bool_decide_eq_false_2; [done|..];
      intros E; injection E as E; by rewrite E in Hn'. }
  assert (Hnext : leaves u = false -> visited (p + sizeOf u) /\ to p + sizeOf u = to (p + sizeOf u)).
  { intros Hl. split; [by apply visited_next|]. by rewrite (to_next p u). }
  assert (Htarget : unitHasTarget u = true ->
    visited (Z.to_nat (targetOf u)) /\ Z.to_nat (targetOf (redirectUnit k n u)) = to (Z.to_nat (targetOf u))).
  { intros Hj. destruct (wf_targetOf codes p u Hw Hp Hu Hj) as (t & Hf & Hto & Hst & Htl).
    rewrite Hto, Nat2Z.id. assert (Hv : visited t) by by apply (visited_target p u t). split; [done|].
    rewrite (targetOf_nat edited _ (to t)); [by rewrite Nat2Z.id|apply edited_wf|by apply visited_to|].
    apply redirected_target; try done. lia. }
  assert (Hht : unitHasTarget u = hasJumpTarget o) by (unfold unitHasTarget; by rewrite Ho).
  destruct o; simpl in Hht;
    try (destruct (plain vm (instrOf codes p u) s) as [s1|]; simpl; [|done];
         split; [apply Hnext; by eapply Hlv|done]).
  - done.
  - simpl. destruct (Htarget Hht). done.
  - pose proof (arm_bound vm (masked u) (take (sizeOf u - 1) (drop (Datatypes.S p) codes)) s) as Hab.
    fold (instrOf codes p u) in Hab. rewrite masked_same in Hab by done.
    destruct (arm vm (instrOf codes p u) s) as [j s1]. simpl in *.
    destruct (to_dispatch p u j Hp Hne Hu) as (Hv & _ & Hto); [|done|by rewrite Hto].
    apply opIs_spec. done.
  - done.
  - destruct (loop vm (instrOf codes p u) s) as [[|] s1]; simpl.
    + destruct (Htarget Hht). done.
    + split; [apply Hnext; by eapply Hlv|done].
  - destruct (loop vm (instrOf codes p u) s) as [[|] s1]; simpl.
    + destruct (Htarget Hht). done.
    + split; [apply Hnext; by eapply Hlv|done].
Qed.

(** The code does what it did. *)
Lemma edited_runs {S} (vm : @Vm S) : sameRuns vm codes edited.
Proof.
  apply (stutter vm codes edited (fun p q => visited p /\ q = to p)).
  - split; [|unfold to; by rewrite decide_True by lia]. pose proof k_fits. split_and!; [apply start_first|lia|].
    intros [Hd _]. auto.
  - intros p q s [Hv ->]. destruct (decide (p = k)) as [->|Hne].
    + destruct Hwhy as [Hd|Hs]; [by destruct Hv as (_ & _ & Hnk); destruct (Hnk Hd)|].
      pose proof (skips_fits Hs) as Hfit. destruct Hs as [Hj Hf]. pose proof k_fits.
      assert (Hnx : isStart codes (k + n)) by (rewrite <- Hn; by eapply start_next).
      exists (k + n). split.
      * right. unfold vmStep. rewrite Huk. simpl. apply opIs_spec in Hj. rewrite Hj. simpl.
        rewrite (targetOf_nat codes uk (k + n)) by done. by rewrite Nat2Z.id.
      * replace (to k) with (to (k + n)) by (unfold to; repeat case_decide; lia).
        apply edited_step; [|lia]. split_and!; [done|lia|]. lia.
    + exists p. split; [by left|]. by apply edited_step.
Qed.
End removal.
