(* ===== verification/BytecodeOptSound.v ===== *)
(** * The bytecode optimizer preserves what code does

    Every strategy and the whole of [BytecodeOptimizer::optimize], for code laid out as the
    compiler lays it out ([layout]); [JumpToJump], which has nothing to do on such code, is shown
    sound for any well-formed code beside it. *)

From stdpp Require Import gmap.
From S2P Require Import Prelude Bytecode BytecodeOpt BytecodeSem BytecodeEdit.

(** ** The searches end *)

Section total.
Context (codes : list Bytecode) (Hw : wf codes).

Lemma dispatchFrom_total fuel pc index : isStart codes pc -> length codes <= pc + fuel ->
  is_Some (dispatchFrom fuel pc index codes).
Proof.
  revert pc. induction fuel as [|fuel IH]; intros pc Hs Hf; simpl; case_decide; try (eauto; lia).
  destruct (wf_instr _ Hw pc Hs) as (u & Hu & _ & Hsz & _); [done|]. rewrite Hu. simpl.
  pose proof (IH (pc + sizeOf u) (start_next _ _ _ Hs Hu) ltac:(lia)).
  repeat case_match; eauto.
Qed.

Lemma isBrchDispatchJump_total index : is_Some (isBrchDispatchJump codes index).
Proof.
  unfold isBrchDispatchJump. repeat case_match; eauto. apply dispatchFrom_total; [apply start_first|lia].
Qed.

Lemma findPrevFrom_total fuel i index : isStart codes i -> index <= length codes -> index <= i + fuel ->
  is_Some (findPrevFrom fuel i index codes).
Proof.
  revert i. induction fuel as [|fuel IH]; intros i Hs Hle Hf; simpl; case_decide; try (eauto; lia).
  destruct (wf_instr _ Hw i Hs) as (u & Hu & _ & Hsz & _); [lia|]. rewrite Hu. simpl.
  case_match; [eauto|]. apply IH; [by eapply start_next|done|lia].
Qed.

Lemma findPrev_total index : isStart codes index -> index < length codes ->
  exists prev pu, findPrev codes index = Some prev /\ codes !! prev = Some pu.
Proof.
  intros Hi Hlt. destruct (findPrevFrom_total index 0 index (start_first _)) as [prev Hp]; [lia..|].
  exists prev. destruct (findPrev_spec codes index prev Hw Hi Hp) as [[-> _]|(_ & _ & u & Hu & _)].
  - destruct (lookup_lt_is_Some_2 codes index Hlt) as [u Hu]. by exists u.
  - by exists u.
Qed.

Lemma joinJumps_total fuel j curr found : isStart codes j -> length codes <= j + fuel ->
  is_Some (joinJumps fuel j curr codes found).
Proof.
  revert j found. induction fuel as [|fuel IH]; intros j found Hs Hf; simpl; case_decide; try (eauto; lia).
  destruct (wf_instr _ Hw j Hs) as (u & Hu & _ & Hsz & _); [done|]. rewrite Hu. simpl.
  pose proof (fun b => IH (j + sizeOf u) b (start_next _ _ _ Hs Hu) ltac:(lia)).
  destruct (opIs JUMP u && targets u curr); [|done].
  destruct (findPrev_total j Hs) as (prev & pu & -> & Hpu); [done|]. simpl. rewrite Hpu. simpl.
  case_match; eauto.
Qed.

(** Only one instruction is before another one. *)
Lemma before_unique p q u v : isStart codes p -> isStart codes q -> codes !! p = Some u -> codes !! q = Some v ->
  p + sizeOf u = q + sizeOf v -> p = q.
Proof.
  intros Hp Hq Hu Hv E. pose proof (wf_pos _ Hw _ _ Hp Hu). pose proof (wf_pos _ Hw _ _ Hq Hv).
  destruct (lt_eq_lt_dec p q) as [[Hlt|]|Hlt]; [|done|].
  - pose proof (wf_start_after codes p q u Hw Hp Hq Hu Hlt). lia.
  - pose proof (wf_start_after codes q p v Hw Hq Hp Hv Hlt). lia.
Qed.
End total.

(** ** Replacing a JUMP *)

Section replace.
Context (codes : list Bytecode) (Hw : wf codes) (curr : nat) (bc v : Bytecode).
Context (Hcurr : isStart codes curr) (Hbc : codes !! curr = Some bc) (Hjmp : opIs JUMP bc = true).
Context (Hv : sizeOf v = 1).
#[local] Abbreviation replaced := (<[curr := v]> codes).

Lemma jump_size : sizeOf bc = 1.
Proof. apply (wf_short _ Hw curr); [done..|]. by rewrite Hjmp. Qed.

Lemma replaced_at : replaced !! curr = Some v.
Proof. apply list_lookup_insert_eq. by eapply lookup_lt_Some. Qed.

Lemma replaced_start p : isStart replaced p <-> isStart codes p.
Proof.
  split; induction 1 as [|p u Hp IH Hu]; try apply start_first.
  - destruct (decide (p = curr)) as [->|Hne].
    + rewrite replaced_at in Hu. injection Hu as <-. rewrite Hv, <- jump_size. by eapply start_next.
    + rewrite list_lookup_insert_ne in Hu by done. by eapply start_next.
  - destruct (decide (p = curr)) as [->|Hne].
    + replace u with bc by congruence. rewrite jump_size, <- Hv. eapply start_next; [done|apply replaced_at].
    + eapply start_next; [done|]. by rewrite list_lookup_insert_ne.
Qed.

Lemma replaced_instrOf p u : isStart codes p -> codes !! p = Some u -> instrOf replaced p u = instrOf codes p u.
Proof.
  intros Hp Hu. unfold instrOf. f_equal. apply list_eq. intros i.
  destruct (decide (i < sizeOf u - 1)); [|by rewrite !lookup_take_ge by lia].
  rewrite !lookup_take_lt, !lookup_drop by lia. rewrite list_lookup_insert_ne; [done|].
  intros E. pose proof (wf_start_after codes p curr u Hw Hp Hcurr Hu). lia.
Qed.

Lemma replaced_step {S} (vm : @Vm S) p s : isStart codes p -> p <> curr ->
  vmStep vm replaced p s = vmStep vm codes p s.
Proof.
  intros Hp Hne. unfold vmStep. rewrite list_lookup_insert_ne by done.
  destruct (codes !! p) as [u|] eqn:Hu; simpl; [|done]. by rewrite replaced_instrOf.
Qed.

(** The replacement is well-formed where [v] is. *)
Lemma replaced_wf :
  is_Some (opOf (opcode v)) -> (unitHasTarget v = true -> exists t, fastop0 v = Z.of_nat t /\ isStart codes t /\ t < length codes) ->
  opIs BRCH v = false -> leaves v = true ->
  (opIs JUMP v = true \/ forall p u j, isStart codes p -> codes !! p = Some u -> opIs BRCH u = true ->
     j < brchArmDispatchCount u -> p + sizeOf u + j <> curr) ->
  wf replaced.
Proof.
  intros Hop Htgt Hnb Hlv Hdisp.
  assert (Hq : forall p w, isStart replaced p -> replaced !! p = Some w ->
    isStart codes p /\ ((p = curr /\ w = v) \/ (p <> curr /\ codes !! p = Some w))).
  { intros p w Hp%replaced_start Hwp. split; [done|]. destruct (decide (p = curr)) as [->|Hne].
    - rewrite replaced_at in Hwp. injection Hwp as <-. by left.
    - rewrite list_lookup_insert_ne in Hwp by done. by right. }
  pose proof (lookup_lt_Some _ _ _ Hbc) as Hlen.
  split; rewrite ?length_insert.
  - apply (wf_fits _ Hw).
  - intros p Hp%replaced_start Hlt. destruct (wf_instr _ Hw p Hp Hlt) as (u & Hu & Ho & Hsz & Hle).
    destruct (decide (p = curr)) as [->|Hne].
    + exists v. rewrite replaced_at, Hv. split_and!; [done..|lia].
    + exists u. by rewrite list_lookup_insert_ne.
  - intros p u Hp Hu Hj. destruct (Hq p u Hp Hu) as (Hpc & [[-> ->]|[Hne Hu']]).
    + destruct (Htgt Hj) as (t & ? & ? & ?). exists t. by rewrite replaced_start.
    + destruct (wf_target _ Hw p u Hpc Hu' Hj) as (t & ? & ? & ?). exists t. by rewrite replaced_start.
  - intros p u Hp Hu Ho. destruct (Hq p u Hp Hu) as (Hpc & [[-> ->]|[Hne Hu']]); [done|]. by apply (wf_short _ Hw p).
  - intros p u j Hp Hu Hb Hj. destruct (Hq p u Hp Hu) as (Hpc & [[-> ->]|[Hne Hu']]); [congruence|].
    destruct (wf_dispatch _ Hw p u j Hpc Hu' Hb Hj) as (uj & Huj & Hjj).
    destruct (decide (p + sizeOf u + j = curr)) as [E|E].
    + rewrite E, replaced_at. exists v. split; [done|]. destruct Hdisp as [|Hd]; [done|]. by destruct (Hd p u j Hpc Hu' Hb Hj).
    + exists uj. by rewrite list_lookup_insert_ne.
  - intros p u Hp Hu Hl. destruct (Hq p u Hp Hu) as (Hpc & [[-> ->]|[Hne Hu']]); [congruence|]. by apply (wf_falls _ Hw p).
Qed.

(** A JUMP takes the effect of its target, when [v] has the effect of the target at once. *)
Lemma replaced_runs {S} (vm : @Vm S) t :
  fastop0 bc = Z.of_nat t -> t <> curr -> isStart codes t -> t < length codes ->
  wf replaced -> (forall s, vmStep vm replaced curr s = vmStep vm codes t s) ->
  sameRuns vm codes replaced.
Proof.
  intros Hf Htc Ht Htl Hwr Hst. apply (stutter vm codes replaced (fun p q => p = q /\ isStart codes p /\ p < length codes)).
  - split_and!; [done|apply start_first|]. apply lookup_lt_Some in Hbc. lia.
  - intros p q s (<- & Hp & Hlt).
    assert (Hgood : forall p, isStart codes p -> p < length codes ->
      matched (fun p q => p = q /\ isStart codes p /\ p < length codes) (vmStep vm codes p s) (vmStep vm codes p s)).
    { clear p Hp Hlt. intros p Hp Hlt. destruct (wf_instr _ Hw p Hp Hlt) as (u & Hu & [o Ho] & _ & _).
      unfold vmStep. rewrite Hu. simpl. rewrite Ho. simpl.
      assert (Hnx : leaves u = false -> isStart codes (p + sizeOf u) /\ p + sizeOf u < length codes).
      { intros Hl. split; [by eapply start_next|by apply (wf_falls _ Hw p u)]. }
      assert (Htg : unitHasTarget u = true ->
        isStart codes (Z.to_nat (targetOf u)) /\ Z.to_nat (targetOf u) < length codes).
      { intros Hj. destruct (wf_targetOf codes p u Hw Hp Hu Hj) as (t' & _ & -> & ? & ?). by rewrite Nat2Z.id. }
      assert (Hht : unitHasTarget u = hasJumpTarget o) by (unfold unitHasTarget; by rewrite Ho).
      assert (Hlv : match o with JUMP | TAIL | RETN => True | _ => leaves u = false end).
      { unfold leaves, opIs. rewrite Ho. by destruct o. }
      destruct o; simpl in Hht; simpl;
        try (destruct (plain vm (instrOf codes p u) s); simpl; auto; done); auto.
      - pose proof (arm_bound vm (masked u) (take (sizeOf u - 1) (drop (Datatypes.S p) codes)) s) as Hab.
        fold (instrOf codes p u) in Hab. rewrite masked_same in Hab by done.
        destruct (arm vm (instrOf codes p u) s) as [j s1]. simpl in *.
        assert (Hb : opIs BRCH u = true) by by apply opIs_spec.
        destruct (wf_dispatch _ Hw p u j Hp Hu Hb Hab) as (uj & Huj & _).
        split_and!; [done|apply dispatch_start; try done; lia|by eapply lookup_lt_Some|done].
      - destruct (loop vm (instrOf codes p u) s) as [[|] s1]; simpl; auto.
      - destruct (loop vm (instrOf codes p u) s) as [[|] s1]; simpl; auto. }
    destruct (decide (p = curr)) as [->|Hne].
    + exists t. split.
      * right. unfold vmStep. rewrite Hbc. simpl. pose proof Hjmp as Hj. apply opIs_spec in Hj. rewrite Hj. simpl.
        rewrite (targetOf_nat codes bc t) by done. by rewrite Nat2Z.id.
      * rewrite Hst. by apply Hgood.
    + exists p. split; [by left|]. rewrite replaced_step by done. by apply Hgood.
Qed.
End replace.

(** ** The edits as the strategies make them *)

Lemma remove_redirect codes origins k u : wf codes -> isStart codes k -> codes !! k = Some u ->
  exists edited origins',
    (c ← removeop k (codes, origins); redirect k (sizeOf u) c) = Some (edited, origins') /\
    redirectedUpTo (cut codes k (sizeOf u)) k (sizeOf u) (length (cut codes k (sizeOf u))) edited /\
    opcode <$> edited = opcode <$> cut codes k (sizeOf u).
Proof.
  intros Hw Hk Hu. unfold removeop. simpl. rewrite Hu. simpl. unfold redirect. simpl.
  fold (cut codes k (sizeOf u)).
  destruct (redirect_spec (cut codes k (sizeOf u)) k (sizeOf u)) as (c' & Hc' & Hr).
  { intros q. by apply (cut_instr codes Hw k (sizeOf u) u). }
  rewrite Hc'. simpl. apply redirectFrom_opcodes in Hc'. eauto.
Qed.

Lemma lookupTarget_spec codes pc u : wf codes -> isStart codes pc -> codes !! pc = Some u -> unitHasTarget u = true ->
  exists t v, fastop0 u = Z.of_nat t /\ Z.to_nat (targetOf u) = t /\ isStart codes t /\ t < length codes /\
    codes !! t = Some v /\ lookupTarget codes u = Some v.
Proof.
  intros Hw Hs Hu Hj. destruct (wf_targetOf codes pc u Hw Hs Hu Hj) as (t & Hf & Hto & Ht & Hlt).
  destruct (lookup_lt_is_Some_2 codes t Hlt) as [v Hv]. exists t, v. unfold lookupTarget.
  by rewrite Hto, Nat2Z.id.
Qed.

Lemma leaves_jump u : opIs JUMP u = true -> leaves u = true.
Proof. unfold leaves. by intros ->. Qed.

(** ** JumpToJump *)

(** Folding a JUMP to a JUMP, and removing the second one when only the first came to it. No loop
    may go back to a JUMP that is removed, and the first instruction stays. *)
Lemma jumpToJump_sound {S} (vm : @Vm S) codes origins curr bc next codes' origins' pos :
  wf codes -> isStart codes curr -> codes !! curr = Some bc -> opIs JUMP bc = true ->
  fastop0 bc = Z.of_nat next -> next <> 0 ->
  (forall p u, isStart codes p -> codes !! p = Some u -> opIs LTST u || opIs LEND u = true ->
     fastop0 u <> Z.of_nat next) ->
  JumpToJump codes origins curr = Some (Some (codes', origins', pos)) ->
  wf codes' /\ sameRuns vm codes codes'.
Proof.
  intros Hw Hc Hbc Hj Hf Hn0 Hloops. unfold JumpToJump.
  destruct (isBrchDispatchJump codes curr) as [[|]|]; simpl; [done| |done]. rewrite Hbc. simpl.
  destruct (lookupTarget_spec codes curr bc Hw Hc Hbc (jump_hasTarget _ Hj)) as (t & tbc & Hf' & Hto & Ht & Htl & Htb & Hlk).
  assert (t = next) as -> by lia. rewrite Hlk, Hto. simpl.
  destruct (opIs JUMP tbc) eqn:Hjt; simpl; [|done].
  destruct (Nat.eqb_spec next curr) as [|Hnc]; simpl; [done|].
  destruct (targets tbc next) eqn:Hself; simpl; [done|].
  destruct (wf_target _ Hw next tbc Ht Htb (jump_hasTarget _ Hjt)) as (t2 & Hf2 & Ht2 & Ht2l).
  assert (Ht2n : t2 <> next).
  { intros ->. rewrite (proj2 (targets_spec codes next tbc next Hw Ht Htb (jump_hasTarget _ Hjt))) in Hself; done. }
  set (v := setFast0 (fastop0 tbc) bc). set (codes1 := <[curr := v]> codes).
  assert (Hsz : sizeOf v = 1) by apply (jump_size codes Hw curr bc Hc Hbc Hj).
  assert (Hjv : opIs JUMP v = true) by done.
  assert (Hw1 : wf codes1).
  { apply (replaced_wf codes Hw curr bc v Hc Hbc Hj Hsz); [|by exists t2| |by apply leaves_jump|by left].
    - apply opIs_spec in Hjv. by rewrite Hjv.
    - by apply (opIs_ne JUMP). }
  assert (Hs1 : forall p, isStart codes1 p <-> isStart codes p) by (intros; by apply (replaced_start codes Hw curr bc v)).
  assert (Hat : codes1 !! curr = Some v) by (apply (replaced_at codes curr bc v Hbc)).
  assert (Hoth : forall p, p <> curr -> codes1 !! p = codes !! p) by (intros; by apply list_lookup_insert_ne).
  assert (Hl1 : length codes1 = length codes) by apply length_insert.
  assert (Hr1 : sameRuns vm codes codes1).
  { apply (replaced_runs codes Hw curr bc v Hc Hbc Hj Hsz vm next); try done.
    intros s. fold codes1. unfold vmStep. rewrite Hat, Htb. cbn [mbind option_bind]. apply opIs_spec in Hjv, Hjt. rewrite Hjt.
    change (opOf (opcode v)) with (opOf (opcode bc)). apply opIs_spec in Hj. rewrite Hj. simpl.
    rewrite (targetOf_nat codes tbc t2), (targetOf_nat codes v t2) by done. done. }
  assert (Hstay : Some (Some (codes1, origins, curr)) = Some (Some (codes', origins', pos)) ->
    wf codes' /\ sameRuns vm codes codes') by (by intros [= <- _ _]).
  destruct (isBrchDispatchJump codes1 next) as [[|]|] eqn:Hdisp; simpl; [exact Hstay| |done].
  destruct (jumpedFrom (length codes1) 0 next codes1) as [[|]|] eqn:Hjumped; simpl; [exact Hstay| |done].
  destruct (findPrev codes1 next) as [prev|] eqn:Hprev; simpl; [|done].
  destruct (codes1 !! prev) as [pu|] eqn:Hpu; simpl; [|done].
  destruct (negb (prev =? next) && negb (leaves pu)) eqn:Hfall; [exact Hstay|].
  assert (Hnext1 : isStart codes1 next) by by apply Hs1.
  assert (Htb1 : codes1 !! next = Some tbc) by (by rewrite Hoth).
  pose proof (wf_short _ Hw1 next tbc Hnext1 Htb1 ltac:(by rewrite Hjt)) as Hsz1.
  destruct (remove_redirect codes1 origins next tbc Hw1 Hnext1 Htb1) as (edited & org & Hrem & Hed & _).
  rewrite Hsz1 in Hrem, Hed. destruct (removeop next (codes1, origins)) as [c|]; simpl in *; [|done].
  rewrite Hrem. simpl. intros [= <- _ _].
  assert (Hwhy : dead codes1 next \/ skips next 1 tbc).
  { left. split; [done|]. intros p u Hp Hne Hu. split.
    - intros Hl E. destruct (findPrev_spec codes1 next prev Hw1 Hnext1 Hprev) as [[_ ?]|(Hlt & Hps & pu' & Hpu' & Epu)]; [done|].
      assert (p = prev) as -> by (eapply (before_unique codes1 Hw1); try done; congruence).
      rewrite Hu in Hpu. injection Hpu as ->. rewrite Hl in Hfall. simpl in Hfall. rewrite andb_true_r in Hfall.
      apply negb_false_iff, Nat.eqb_eq in Hfall. lia.
    - intros Hht E. destruct (opIs JUMP u) eqn:Hju.
      + assert (targets u next = false) as Htf.
        { apply (jumpedFrom_false codes1 (length codes1) 0 next Hw1 (start_first _) Hjumped p u); try done. lia. }
        rewrite (proj2 (targets_spec codes1 p u next Hw1 Hp Hu Hht)) in Htf; done.
      + destruct (decide (p = curr)) as [->|Hpc].
        { rewrite Hat in Hu. injection Hu as <-. congruence. }
        apply (Hloops p u); [by apply Hs1|by rewrite <- Hoth| |done].
        unfold unitHasTarget in Hht. unfold opIs in *. destruct (opOf (opcode u)) as [[]|]; done. }
  assert (Hd : forall p u j, isStart codes1 p -> codes1 !! p = Some u -> opIs BRCH u = true ->
    j < brchArmDispatchCount u -> p + sizeOf u + j <> next).
  { intros p u j Hp Hu Hb Hjj. eapply (isBrchDispatchJump_false codes1 next p u j); try done. by exists tbc. }
  split; [by apply (edited_wf codes1 Hw1 next 1 tbc Hnext1 Htb1 Hsz1 edited Hed)|].
  rewrite Hr1. by apply (edited_runs codes1 Hw1 next 1 tbc Hnext1 Htb1 Hsz1 edited Hed).
Qed.

(** ** Code as the compiler lays it out *)

(** An entry of a dispatch table. *)
Definition dispatched (codes : list Bytecode) (p : nat) : Prop :=
  exists q u j, isStart codes q /\ codes !! q = Some u /\ opIs BRCH u = true /\
    j < brchArmDispatchCount u /\ p = q + sizeOf u + j.

(** JUMPs go forward. They do not go to another JUMP, but for the entry of an arm that has no
    instruction of its own, which is the last one before the JOIN. The round of a loop lies
    between its LBEG and its LEND: the LTST jumps to the LEND and the LEND to behind the LBEG. *)
Record layout (codes : list Bytecode) : Prop := {
  lay_wf : wf codes;
  lay_forward p u t : isStart codes p -> codes !! p = Some u -> opIs JUMP u = true -> fastop0 u = Z.of_nat t -> p < t;
  lay_jump p u t v : isStart codes p -> codes !! p = Some u -> opIs JUMP u = true -> fastop0 u = Z.of_nat t ->
    codes !! t = Some v -> opIs JUMP v = false \/ dispatched codes p /\ fastop0 v = Z.of_nat (t + 1);
  lay_test p u t : isStart codes p -> codes !! p = Some u -> opIs LTST u = true -> fastop0 u = Z.of_nat t ->
    exists v, codes !! t = Some v /\ opIs LEND v = true;
  lay_end p u t : isStart codes p -> codes !! p = Some u -> opIs LEND u = true -> fastop0 u = Z.of_nat t ->
    exists b ub, isStart codes b /\ codes !! b = Some ub /\ opIs LBEG ub = true /\ b + sizeOf ub = t;
}.

Lemma hasTarget_cases u : unitHasTarget u = true -> opIs JUMP u = true \/ opIs LTST u = true \/ opIs LEND u = true.
Proof. unfold unitHasTarget, opIs. destruct (opOf (opcode u)) as [[]|]; auto; done. Qed.

Lemma opIs_both o o' u : opIs o u = true -> opIs o' u = true -> o = o'.
Proof. intros H%opIs_spec H'%opIs_spec. congruence. Qed.

(** How many changes are left to make: every removal and every JUMP that becomes a RETN takes
    something away. *)
Definition work (l : list Bytecode) : nat :=
  length l + length (filter (fun b => opOf b = Some JUMP) (opcode <$> l)).

Section removal.
Context (codes : list Bytecode) (Hlay : layout codes) (k : nat) (uk : Bytecode).
Context (Hk : isStart codes k) (Huk : codes !! k = Some uk).
#[local] Abbreviation n := (sizeOf uk).
#[local] Abbreviation Hw := (lay_wf codes Hlay).
Context (Hop : opIs JUMP uk = true \/ opIs JOIN uk = true).
Context (edited : list Bytecode) (Hed : redirectedUpTo (cut codes k n) k n (length (cut codes k n)) edited).
Context (Hdisp : forall p u j, isStart codes p -> codes !! p = Some u -> opIs BRCH u = true ->
  j < brchArmDispatchCount u -> p + sizeOf u + j <> k).
Context (Hwhy : dead codes k \/ skips k n uk).

Lemma removal_dispatched p : dispatched codes p -> dispatched edited (to k n p).
Proof.
  intros (q & u & j & Hq & Hu & Hb & Hj & ->).
  assert (Hne : q <> k).
  { intros ->. rewrite Huk in Hu. injection Hu as <-. destruct Hop as [H|H]; by rewrite (opIs_ne _ BRCH _ H) in Hb. }
  destruct (to_dispatch codes Hw k n uk Hk Huk eq_refl Hdisp q u j Hq Hne Hu Hb Hj) as (_ & _ & ->).
  exists (to k n q), (redirectUnit k n u), j. rewrite redirect_opIs, redirect_count, redirect_size. split_and!; try done.
  - by apply (edited_to codes Hw k n uk Hk Huk eq_refl edited Hed).
  - rewrite (edited_at codes Hw k n uk Hk Huk eq_refl edited Hed) by done. by rewrite Hu.
Qed.

Lemma removal_layout : layout edited.
Proof.
  pose proof (k_fits codes Hw k n uk Hk Huk eq_refl) as Hfit.
  assert (Hq : forall q v, isStart edited q -> edited !! q = Some v ->
    exists p u, isStart codes p /\ p <> k /\ codes !! p = Some u /\ q = to k n p /\ v = redirectUnit k n u).
  { intros q v Hq Hv. rewrite (edited_unit codes Hw k n uk Hk Huk eq_refl edited Hed) in Hv by done.
    destruct (edited_from codes Hw k n uk Hk Huk eq_refl edited Hed q Hq) as [Hp Hne].
    apply fmap_Some in Hv as (u & Hu & ->). exists (from k n q), u. split_and!; try done.
    by rewrite (to_from codes Hw k n uk Hk Huk eq_refl). }
  assert (Htgt : forall p u t', isStart codes p -> codes !! p = Some u -> unitHasTarget u = true ->
    fastop0 (redirectUnit k n u) = Z.of_nat t' ->
    exists t, fastop0 u = Z.of_nat t /\ isStart codes t /\ t < length codes /\ t' = to k n t).
  { intros p u t' Hp Hu Hj Hf. destruct (wf_target _ Hw p u Hp Hu Hj) as (t & Hft & Ht & Htl).
    exists t. split_and!; try done.
    rewrite (redirected_target codes Hw k n uk Hk Huk eq_refl u t Ht) in Hf; [lia|lia|done|done]. }
  assert (Hat : forall p u, isStart codes p -> p <> k -> codes !! p = Some u ->
    edited !! to k n p = Some (redirectUnit k n u)).
  { intros p u Hp Hne Hu. rewrite (edited_at codes Hw k n uk Hk Huk eq_refl edited Hed) by done. by rewrite Hu. }
  assert (Hout : forall p, isStart codes p -> p <= k \/ k + n <= p).
  { intros p Hp. by apply (start_outside codes Hw k n uk). }
  assert (Hnk : forall o p u, (o = JUMP \/ o = JOIN -> False) -> codes !! p = Some u -> opIs o u = true -> p <> k).
  { intros o p u Ho Hu Hopu ->. rewrite Huk in Hu. injection Hu as <-. apply Ho.
    destruct Hop as [H|H]; [left|right]; eapply opIs_both; done. }
  split.
  - by apply (edited_wf codes Hw k n uk Hk Huk eq_refl edited Hed Hdisp Hwhy).
  - intros q v t' Hqs Hv Hj Hf. destruct (Hq q v Hqs Hv) as (p & u & Hp & Hne & Hu & -> & ->).
    rewrite redirect_opIs in Hj. destruct (Htgt p u t' Hp Hu (jump_hasTarget _ Hj) Hf) as (t & Hft & Ht & Htl & ->).
    pose proof (lay_forward _ Hlay p u t Hp Hu Hj Hft). pose proof (Hout p Hp). pose proof (Hout t Ht).
    unfold to. repeat case_decide; lia.
  - intros q v t' w Hqs Hv Hj Hf Hw'. destruct (Hq q v Hqs Hv) as (p & u & Hp & Hne & Hu & -> & ->).
    rewrite redirect_opIs in Hj. destruct (Htgt p u t' Hp Hu (jump_hasTarget _ Hj) Hf) as (t & Hft & Ht & Htl & ->).
    destruct (lookup_lt_is_Some_2 codes t Htl) as [wt Hwt].
    pose proof (lay_jump _ Hlay p u t wt Hp Hu Hj Hft Hwt) as Hjump.
    destruct (decide (t = k)) as [E|Htk].
    + left. rewrite E in *. clear E. destruct Hwhy as [[_ Hd]|[Hjk Hfk]].
      { by destruct (Hd p u Hp Hne Hu) as [_ []]; [apply jump_hasTarget|]. }
      pose proof (start_next _ _ _ Hk Huk) as Hnx.
      pose proof (skips_fits codes Hw k n uk Hk Huk eq_refl (conj Hjk Hfk)) as Hlt.
      destruct (lookup_lt_is_Some_2 codes (k + n) Hlt) as [x Hx].
      assert (Hto : to k n k = to k n (k + n)) by (unfold to; repeat case_decide; lia).
      rewrite Hto, (Hat (k + n) x Hnx ltac:(lia) Hx) in Hw'. injection Hw' as <-. rewrite redirect_opIs.
      destruct (lay_jump _ Hlay k uk (k + n) x Hk Huk Hjk Hfk Hx) as [|[(q0 & b & j & Hq0 & Hb & Hbr & Hj0 & E) _]]; [done|].
      destruct (Hdisp q0 b j Hq0 Hb Hbr Hj0). by symmetry.
    + rewrite (Hat t wt Ht Htk Hwt) in Hw'. injection Hw' as <-. rewrite redirect_opIs.
      destruct Hjump as [|[Hdp Hfw]]; [by left|]. destruct (opIs JUMP wt) eqn:Hjw; [right|by left]. split.
      * by apply removal_dispatched.
      * pose proof (start_next _ _ _ Ht Hwt) as Hnx. pose proof (wf_short _ Hw t wt Ht Hwt ltac:(by rewrite Hjw)) as Hsz.
        pose proof (to_next codes Hw k n uk Hk Huk eq_refl t wt Ht Htk Hwt) as Htn. rewrite Hsz in *.
        rewrite (redirected_target codes Hw k n uk Hk Huk eq_refl wt (t + 1)); try done; [by rewrite Htn|by apply (start_bound codes _ Hw)|by apply jump_hasTarget].
  - intros q v t' Hqs Hv Hj Hf. destruct (Hq q v Hqs Hv) as (p & u & Hp & Hne & Hu & -> & ->).
    rewrite redirect_opIs in Hj.
    assert (Hjt : unitHasTarget u = true) by (apply opIs_spec in Hj; unfold unitHasTarget; by rewrite Hj).
    destruct (Htgt p u t' Hp Hu Hjt Hf) as (t & Hft & Ht & Htl & ->).
    destruct (lay_test _ Hlay p u t Hp Hu Hj Hft) as (v & Hv' & Hle).
    exists (redirectUnit k n v). rewrite redirect_opIs. split; [|done]. apply Hat; try done.
    eapply (Hnk LEND); try done. by intros [?|?].
  - intros q v t' Hqs Hv Hj Hf. destruct (Hq q v Hqs Hv) as (p & u & Hp & Hne & Hu & -> & ->).
    rewrite redirect_opIs in Hj.
    assert (Hjt : unitHasTarget u = true) by (apply opIs_spec in Hj; unfold unitHasTarget; by rewrite Hj).
    destruct (Htgt p u t' Hp Hu Hjt Hf) as (t & Hft & Ht & Htl & ->).
    destruct (lay_end _ Hlay p u t Hp Hu Hj Hft) as (b & ub & Hb & Hub & Hlb & <-).
    assert (Hbk : b <> k) by (eapply (Hnk LBEG); try done; by intros [?|?]).
    exists (to k n b), (redirectUnit k n ub). split_and!.
    + by apply (edited_to codes Hw k n uk Hk Huk eq_refl edited Hed).
    + by apply Hat.
    + by rewrite redirect_opIs.
    + rewrite redirect_size. symmetry. by apply (to_next codes Hw k n uk Hk Huk eq_refl).
Qed.

Context (Hcodes : opcode <$> edited = opcode <$> cut codes k n).

Lemma removal_work : work edited < work codes.
Proof.
  pose proof (k_fits codes Hw k n uk Hk Huk eq_refl) as Hfit.
  assert (Hl : length edited = length codes - n) by by apply (edited_length codes Hw k n uk Hk Huk eq_refl).
  unfold work. rewrite Hl, Hcodes. unfold cut.
  assert (Hsplit : codes = take k codes ++ take n (drop k codes) ++ drop (k + n) codes).
  { by rewrite <- drop_drop, take_drop, take_drop. }
  rewrite Hsplit at 5. rewrite !fmap_app, !filter_app, !length_app. lia.
Qed.
End removal.

(** What a change makes of laid out code. *)
Record improved (codes codes' : list Bytecode) (pos : nat) : Prop := {
  im_layout : layout codes';
  im_runs (S : Type) (vm : @Vm S) : sameRuns vm codes codes';
  im_pos : isStart codes' pos;
  im_length : length codes' <= length codes;
  im_work : work codes' < work codes;
}.

(** A strategy returns, and what it changes it improves. *)
Definition improves (codes : list Bytecode) (res : Applied) : Prop :=
  exists r, res = Some r /\ match r with Some (codes', _, pos) => improved codes codes' pos | None => True end.

Section strategies.
Context (codes : list Bytecode) (origins : Origins) (Hlay : layout codes).
#[local] Abbreviation Hw := (lay_wf codes Hlay).

(** Removing an instruction for one of the two reasons. *)
Lemma remove_improves k u pos :
  isStart codes k -> codes !! k = Some u -> opIs JUMP u = true \/ opIs JOIN u = true ->
  (forall p v j, isStart codes p -> codes !! p = Some v -> opIs BRCH v = true ->
     j < brchArmDispatchCount v -> p + sizeOf v + j <> k) ->
  dead codes k \/ skips k (sizeOf u) u ->
  (exists p, isStart codes p /\ to k (sizeOf u) p = pos) ->
  improves codes (c ← removeop k (codes, origins); c ← redirect k (sizeOf u) c; restart c pos).
Proof.
  intros Hk Hu Hop Hdisp Hwhy (p & Hp & <-).
  destruct (remove_redirect codes origins k u Hw Hk Hu) as (edited & org & Hrem & Hed & Hops).
  destruct (removeop k (codes, origins)) as [c|]; simpl in *; [|done]. rewrite Hrem. simpl.
  eexists. split; [done|]. split.
  - by apply (removal_layout codes Hlay k u).
  - intros S vm. by apply (edited_runs codes Hw k (sizeOf u) u Hk Hu eq_refl edited Hed).
  - by apply (edited_to codes Hw k (sizeOf u) u Hk Hu eq_refl edited Hed).
  - simpl. rewrite (edited_length codes Hw k (sizeOf u) u Hk Hu eq_refl edited Hed). lia.
  - by apply (removal_work codes Hlay k u).
Qed.

Lemma not_dispatched curr u : codes !! curr = Some u -> opIs JUMP u = true ->
  isBrchDispatchJump codes curr = Some false -> ~ dispatched codes curr.
Proof.
  intros Hu Hj Hd (q & b & j & Hq & Hb & Hbr & Hlt & E).
  eapply (isBrchDispatchJump_false codes curr q b j Hw Hd); try done. by exists u.
Qed.

Lemma JumpToJump_improves curr u : isStart codes curr -> codes !! curr = Some u -> opIs JUMP u = true ->
  improves codes (JumpToJump codes origins curr).
Proof.
  intros Hc Hu Hj. unfold JumpToJump.
  destruct (isBrchDispatchJump_total codes Hw curr) as [[|] Hd]; rewrite Hd; simpl; [by eexists|]. rewrite Hu. simpl.
  destruct (lookupTarget_spec codes curr u Hw Hc Hu (jump_hasTarget _ Hj)) as (t & v & Hf & _ & _ & _ & Hv & ->).
  simpl. destruct (lay_jump _ Hlay curr u t v Hc Hu Hj Hf Hv) as [->|[Hdp _]]; [by eexists|].
  by destruct (not_dispatched curr u).
Qed.

Lemma JumpToNext_improves curr u : isStart codes curr -> codes !! curr = Some u -> opIs JUMP u = true ->
  improves codes (JumpToNext codes origins curr).
Proof.
  intros Hc Hu Hj. unfold JumpToNext.
  destruct (isBrchDispatchJump_total codes Hw curr) as [[|] Hd]; rewrite Hd; simpl; [by eexists|]. rewrite Hu. simpl.
  destruct (targets u (curr + 1)) eqn:Ht; [|by eexists].
  pose proof (wf_short _ Hw curr u Hc Hu ltac:(by rewrite Hj)) as Hsz.
  pose proof (remove_improves curr u curr Hc Hu (or_introl Hj)) as Hr. rewrite Hsz in Hr. apply Hr.
  - intros p v j Hp Hv Hb Hjj. eapply (isBrchDispatchJump_false codes curr p v j Hw Hd); try done. by exists u.
  - right. split; [done|]. by apply (targets_spec codes curr u (curr + 1) Hw Hc Hu (jump_hasTarget _ Hj)).
  - exists (curr + 1). split; [rewrite <- Hsz; by eapply start_next|]. unfold to. rewrite decide_False; lia.
Qed.

Lemma JumpToRetn_improves curr u : isStart codes curr -> codes !! curr = Some u -> opIs JUMP u = true ->
  improves codes (JumpToRetn codes origins curr).
Proof.
  intros Hc Hu Hj. unfold JumpToRetn.
  destruct (isBrchDispatchJump_total codes Hw curr) as [[|] Hd]; rewrite Hd; simpl; [by eexists|]. rewrite Hu. simpl.
  destruct (lookupTarget_spec codes curr u Hw Hc Hu (jump_hasTarget _ Hj)) as (t & v & Hf & _ & Ht & Htl & Hv & ->).
  destruct (opIs RETN v) eqn:Hr; [|by eexists]. eexists. split; [done|].
  pose proof (wf_short _ Hw t v Ht Hv ltac:(rewrite Hr; apply orb_true_r)) as Hsz.
  pose proof (wf_short _ Hw curr u Hc Hu ltac:(by rewrite Hj)) as Hszu.
  pose proof (lay_forward _ Hlay curr u t Hc Hu Hj Hf) as Htc.
  assert (Hnt : unitHasTarget v = false) by (pose proof Hr as Ho; apply opIs_spec in Ho; unfold unitHasTarget; by rewrite Ho).
  assert (Hnj : opIs JUMP v = false) by by apply (opIs_ne RETN).
  assert (Hw1 : wf (<[curr := v]> codes)).
  { apply (replaced_wf codes Hw curr u v Hc Hu Hj Hsz).
    - apply opIs_spec in Hr. by rewrite Hr.
    - by rewrite Hnt.
    - by apply (opIs_ne RETN).
    - unfold leaves. rewrite Hr. by rewrite !orb_true_r.
    - right. intros p w j Hp Hwp Hb Hjj. eapply (isBrchDispatchJump_false codes curr p w j Hw Hd); try done. by exists u. }
  assert (Hst : forall p, isStart (<[curr := v]> codes) p <-> isStart codes p).
  { intros p. by apply (replaced_start codes Hw curr u v). }
  assert (Hat : <[curr := v]> codes !! curr = Some v) by by apply (replaced_at codes curr u v).
  assert (Hother : forall p w o, <[curr := v]> codes !! p = Some w -> opIs o w = true -> o <> RETN -> codes !! p = Some w).
  { intros p w o Hp Ho Hne. destruct (decide (p = curr)) as [->|Hpc]; [|by rewrite list_lookup_insert_ne in Hp].
    rewrite Hat in Hp. injection Hp as <-. by rewrite (opIs_ne RETN o v Hr ltac:(done)) in Ho. }
  assert (Hkeep : forall p w o, codes !! p = Some w -> opIs o w = true -> o <> JUMP -> <[curr := v]> codes !! p = Some w).
  { intros p w o Hp Ho Hne. rewrite list_lookup_insert_ne; [done|]. intros <-. replace w with u in Ho by congruence.
    by rewrite (opIs_ne JUMP o u Hj ltac:(done)) in Ho. }
  cbn [fst]. split.
  - split; [done|..].
    + intros p w t' Hp%Hst Hwp Hjw Hfw. apply (lay_forward _ Hlay p w); try done. by apply (Hother p w JUMP).
    + intros p w t' x Hp%Hst Hwp Hjw Hfw Hx. destruct (decide (t' = curr)) as [E|Hne].
      * left. rewrite E, Hat in Hx. by injection Hx as <-.
      * rewrite list_lookup_insert_ne in Hx by done.
        destruct (lay_jump _ Hlay p w t' x) as [|[(q & b & j & Hq & Hb & Hbr & Hlt & ->) ?]]; try done;
          [by apply (Hother p w JUMP)|by left|].
        right. split; [|done]. exists q, b, j. split_and!; try done; [by apply Hst|by apply (Hkeep q b BRCH)].
    + intros p w t' Hp%Hst Hwp Hjw Hfw.
      destruct (lay_test _ Hlay p w t' Hp) as (x & Hx & He); try done; [by apply (Hother p w LTST)|].
      exists x. split; [|done]. by apply (Hkeep t' x LEND).
    + intros p w t' Hp%Hst Hwp Hjw Hfw.
      destruct (lay_end _ Hlay p w t' Hp) as (b & ub & Hb & Hub & Hlb & E); try done; [by apply (Hother p w LEND)|].
      exists b, ub. rewrite Hst. split_and!; try done. by apply (Hkeep b ub LBEG).
  - intros S vm. apply (replaced_runs codes Hw curr u v Hc Hu Hj Hsz vm t); try done; [lia|].
    intros s. unfold vmStep. rewrite Hat, Hv. simpl. apply opIs_spec in Hr. rewrite Hr. simpl.
    unfold instrOf. by rewrite Hsz.
  - rewrite <- Hsz. eapply start_next; [by apply Hst|done].
  - by rewrite length_insert.
  - unfold work. rewrite length_insert, list_fmap_insert.
    assert (Hop : (opcode <$> codes) !! curr = Some (opcode u)) by by rewrite list_lookup_fmap, Hu.
    pose proof (lookup_lt_Some _ _ _ Hop) as Hlt. rewrite (insert_take_drop _ _ _ Hlt).
    rewrite <- (take_drop_middle _ _ _ Hop) at 3. rewrite !filter_app, !length_app, !filter_cons.
    apply opIs_spec in Hj. rewrite (decide_True (P := opOf (opcode u) = Some JUMP)) by done.
    rewrite decide_False; [simpl; lia|]. apply opIs_spec in Hr. by rewrite Hr.
Qed.

(** Control does not come to an instruction behind one that leaves, unless a JUMP goes there. *)
Lemma behind_leaving k prev pu : isStart codes k -> isStart codes prev -> codes !! prev = Some pu ->
  prev + sizeOf pu = k -> leaves pu = true ->
  (forall p u, isStart codes p -> codes !! p = Some u -> opIs JUMP u = true -> fastop0 u <> Z.of_nat k) ->
  (exists u, codes !! k = Some u /\ opIs LEND u = false) ->
  dead codes k.
Proof.
  intros Hk Hp Hpu E Hl Hjumps (uk & Huk & Hnl). pose proof (wf_pos _ Hw _ _ Hp Hpu). split; [lia|].
  intros p u Hps Hne Hu. split.
  - intros Hlu E'. assert (p = prev) as -> by (eapply (before_unique codes Hw); try done; congruence). congruence.
  - intros Hht Hf. destruct (hasTarget_cases u Hht) as [Hj|[Ht|He]].
    + by apply (Hjumps p u).
    + destruct (lay_test _ Hlay p u k Hps Hu Ht Hf) as (v & Hv & Hve). congruence.
    + destruct (lay_end _ Hlay p u k Hps Hu He Hf) as (b & ub & Hb & Hub & Hlb & Eb).
      assert (b = prev) as -> by (eapply (before_unique codes Hw); try done; congruence).
      replace ub with pu in Hlb by congruence. unfold leaves in Hl.
      rewrite !(opIs_ne LBEG _ pu Hlb) in Hl by done. done.
Qed.

Lemma JoinCleanup_improves curr u : isStart codes curr -> codes !! curr = Some u -> opIs JOIN u = true ->
  improves codes (JoinCleanup codes origins curr).
Proof.
  intros Hc Hu Hj. unfold JoinCleanup. rewrite Hu. simpl. rewrite Hj. simpl.
  destruct (joinJumps_total codes Hw (length codes) 0 curr false (start_first _)) as [r Hr]; [lia|]. rewrite Hr. simpl.
  apply (joinJumps_spec codes _ 0 curr false r Hw (start_first _)) in Hr.
  pose proof (lookup_lt_Some _ _ _ Hu) as Hcl.
  destruct r as [j|found].
  - destruct Hr as (Hjs & v & prev & pu & Hv & Hjv & Htv & Hprev & Hpu & Hl).
    pose proof (wf_short _ Hw j v Hjs Hv ltac:(by rewrite Hjv)) as Hsz.
    apply (targets_spec codes j v curr Hw Hjs Hv (jump_hasTarget _ Hjv)) in Htv.
    pose proof (lay_forward _ Hlay j v curr Hjs Hv Hjv Htv) as Hfw.
    destruct (findPrev_spec codes j prev Hw Hjs Hprev) as [[-> _]|(Hlt & Hps & pu' & Hpu' & Epu)].
    { replace pu with v in Hl by congruence. rewrite !(opIs_ne JUMP _ v Hjv) in Hl by done. done. }
    replace pu' with pu in * by congruence.
    assert (Hlv : leaves pu = true) by (unfold leaves; apply orb_true_iff in Hl as [-> | ->]; by rewrite ?orb_true_r).
    pose proof (remove_improves j v (curr - 1) Hjs Hv (or_introl Hjv)) as Hrem. rewrite Hsz in Hrem. apply Hrem.
    + intros p w i Hp Hwp Hb Hi E.
      assert (Hbefore : exists q x, isStart codes q /\ codes !! q = Some x /\ q + sizeOf x = j /\
        opIs TAIL x = false /\ opIs RETN x = false).
      { destruct i as [|i].
        - exists p, w. split_and!; [done..|lia|by apply (opIs_ne BRCH)|by apply (opIs_ne BRCH)].
        - destruct (wf_dispatch _ Hw p w i Hp Hwp Hb) as (x & Hx & Hjx); [lia|].
          assert (Hs : isStart codes (p + sizeOf w + i)) by (apply (dispatch_start codes p w i Hw); [done..|lia]).
          exists (p + sizeOf w + i), x. rewrite (wf_short _ Hw _ x Hs Hx) by (by rewrite Hjx).
          split_and!; [done..|lia|by apply (opIs_ne JUMP)|by apply (opIs_ne JUMP)]. }
      destruct Hbefore as (q & x & Hq & Hx & Eq & Hnt & Hnr).
      assert (q = prev) as -> by (eapply (before_unique codes Hw); try done; congruence).
      replace x with pu in * by congruence. rewrite Hnt, Hnr in Hl. done.
    + destruct (decide (curr = j + 1)) as [->|Hcj]; [by right|].
      left. apply (behind_leaving j prev pu); try done.
      * intros p w Hp Hwp Hjw Hfw'. destruct (lay_jump _ Hlay p w j v Hp Hwp Hjw Hfw' Hv) as [?|[_ ?]]; [congruence|lia].
      * exists v. split; [done|]. by apply (opIs_ne JUMP).
    + exists curr. split; [done|]. unfold to. rewrite decide_False; lia.
  - destruct (findPrev_total codes Hw curr Hc Hcl) as (prev & pu & Hprev & Hpu). rewrite Hprev. simpl. rewrite Hpu. simpl.
    destruct (negb found && negb ((prev =? curr) || negb (leaves pu))) eqn:Hgo; [|by eexists].
    rewrite andb_true_iff, !negb_true_iff, orb_false_iff, negb_false_iff in Hgo.
    destruct Hgo as (-> & Hne & Hl). apply Nat.eqb_neq in Hne. destruct Hr as [_ Hnone].
    destruct (findPrev_spec codes curr prev Hw Hc Hprev) as [[-> _]|(Hlt & Hps & pu' & Hpu' & Epu)]; [done|].
    replace pu' with pu in * by congruence. apply remove_improves; try done; [by right|..].
    + intros p w i Hp Hwp Hb Hi E. destruct (wf_dispatch _ Hw p w i Hp Hwp Hb Hi) as (x & Hx & Hjx).
      rewrite E in Hx. replace x with u in Hjx by congruence. by rewrite (opIs_ne JOIN JUMP u Hj) in Hjx.
    + left. apply (behind_leaving curr prev pu); try done.
      * intros p w Hp Hwp Hjw Hf. pose proof (Hnone p w Hp Hwp Hjw ltac:(lia)) as Hnt.
        rewrite (proj2 (targets_spec codes p w curr Hw Hp Hwp (jump_hasTarget _ Hjw)) Hf) in Hnt. done.
      * exists u. split; [done|]. by apply (opIs_ne JOIN).
    + exists (curr + sizeOf u). split; [by eapply start_next|].
      pose proof (wf_pos _ Hw _ _ Hc Hu). unfold to. rewrite decide_False; lia.
Qed.

Lemma apply_improves s curr u : isStart codes curr -> codes !! curr = Some u -> opIs (triggerOp s) u = true ->
  improves codes (apply s codes origins curr).
Proof.
  intros Hc Hu Ho. destruct s; simpl in *.
  - by eapply JumpToJump_improves.
  - by eapply JumpToNext_improves.
  - by eapply JumpToRetn_improves.
  - by eapply JoinCleanup_improves.
Qed.

Lemma applyFirst_improves strategies curr : isStart codes curr -> curr < length codes ->
  improves codes (applyFirst strategies codes origins curr).
Proof.
  intros Hc Hlt. destruct (lookup_lt_is_Some_2 codes curr Hlt) as [u Hu].
  induction strategies as [|s rest IH]; simpl; [by eexists|]. rewrite Hu. simpl.
  destruct (opIs (triggerOp s) u) eqn:Ho; simpl; [|exact IH].
  destruct (apply_improves s curr u Hc Hu Ho) as (r & -> & Hr). simpl.
  destruct r as [[[codes' org'] pos]|]; [|exact IH]. eexists. split; [done|done].
Qed.
End strategies.

(** ** The whole optimizer *)

(** Enough fuel for any code of a length: every change takes something of [work] away, and
    between two changes the scan goes forward. *)
Definition optimizeFuel (codes : list Bytecode) : nat := (work codes + 1) * (length codes + 1).

Lemma optimize_spec fuel bound strategies codes origins curr :
  layout codes -> isStart codes curr -> length codes <= bound ->
  work codes * (bound + 1) + (length codes - curr) <= fuel ->
  exists codes' origins', optimize fuel strategies codes origins curr = Some (codes', origins') /\
    layout codes' /\ length codes' <= length codes /\ forall (S : Type) (vm : @Vm S), sameRuns vm codes codes'.
Proof.
  revert codes origins curr. induction fuel as [|fuel IH]; intros codes origins curr Hlay Hc Hb Hf; simpl; case_decide as Hlt.
  - exfalso. lia.
  - exists codes, origins. split_and!; [done..|]. by intros.
  - destruct (applyFirst_improves codes origins Hlay strategies curr Hc Hlt) as (r & -> & Hr). simpl.
    destruct r as [[[codes1 org1] pos]|].
    + destruct Hr as [Hlay1 Hruns Hpos Hle Hwork].
      destruct (IH codes1 org1 pos Hlay1 Hpos) as (codes' & org' & Ho & Hl' & Hlen & Hr'); [lia| |].
      { assert (work codes1 * (bound + 1) + (bound + 1) <= work codes * (bound + 1)) by nia. lia. }
      exists codes', org'. split_and!; [done|done|lia|]. intros S vm. by rewrite (Hruns S vm).
    + destruct (wf_instr _ (lay_wf _ Hlay) curr Hc Hlt) as (u & Hu & _ & Hsz & _). rewrite Hu. simpl.
      apply IH; [done|by eapply start_next|done|lia].
  - exists codes, origins. split_and!; [done..|]. by intros.
Qed.
