(* ===== verification/BytecodeCheck.v ===== *)
(** * A checker for bytecode

    [wfb] and [layoutb] decide, for concrete code, the conditions of [wf] and [layout]: they list
    the pcs of the instructions and check every one of them. *)

From stdpp Require Import gmap.
From S2P Require Import Prelude Bytecode BytecodeOpt BytecodeSem BytecodeEdit BytecodeOptSound.

(** The pcs of the instructions from [pc] on; [None] when they do not end at the end of the code. *)
Fixpoint pcsOf (fuel pc : nat) (codes : list Bytecode) : option (list nat) :=
  if decide (pc = length codes) then Some []
  else
    match fuel with
    | O => None
    | S fuel =>
        u ← codes !! pc;
        if decide (1 <= sizeOf u /\ pc + sizeOf u <= length codes)
        then cons pc <$> pcsOf fuel (pc + sizeOf u) codes else None
    end.

Section check.
Context (codes : list Bytecode) (pcs : list nat).

(** The target of an instruction, when it is one of [pcs]. *)
Definition targetIn (u : Bytecode) : option nat :=
  if decide (0 <= fastop0 u)%Z then
    if decide (Z.to_nat (fastop0 u) ∈ pcs) then Some (Z.to_nat (fastop0 u)) else None
  else None.

Definition opAt (o : OpCode) (pc : nat) : bool :=
  match codes !! pc with Some u => opIs o u | None => false end.

Definition entriesOf (q : nat) : list nat :=
  match codes !! q with
  | Some u => if opIs BRCH u then seq (q + sizeOf u) (brchArmDispatchCount u) else []
  | None => []
  end.

Definition dispatchedb (p : nat) : bool := existsb (fun q => bool_decide (p ∈ entriesOf q)) pcs.

(** The targets of a JUMP, an LTST and an LEND; for [wf] alone, any instruction will do. *)
Context (strict : bool).

Definition jumpOk (p : nat) (u : Bytecode) : bool :=
  match targetIn u with
  | Some t =>
      negb strict || (p <? t) &&
      match codes !! t with
      | Some v => negb (opIs JUMP v) || dispatchedb p && bool_decide (fastop0 v = Z.of_nat (t + 1))
      | None => false
      end
  | None => false
  end.

Definition testOk (u : Bytecode) : bool :=
  match targetIn u with Some t => negb strict || opAt LEND t | None => false end.

Definition endOk (u : Bytecode) : bool :=
  match targetIn u with
  | Some t => negb strict || existsb (fun b => match codes !! b with
      Some ub => opIs LBEG ub && (b + sizeOf ub =? t) | None => false end) pcs
  | None => false
  end.

Definition instrOk (p : nat) : bool :=
  match codes !! p with
  | Some u =>
      match opOf (opcode u) with
      | None => false
      | Some JUMP => (sizeOf u =? 1) && jumpOk p u
      | Some RETN => sizeOf u =? 1
      | Some TAIL => true
      | Some LTST => testOk u && (p + sizeOf u <? length codes)
      | Some LEND => endOk u && (p + sizeOf u <? length codes)
      | Some BRCH => forallb (opAt JUMP) (entriesOf p) && (p + sizeOf u <? length codes)
      | Some _ => p + sizeOf u <? length codes
      end
  | None => false
  end.
End check.

Definition checkb (strict : bool) (codes : list Bytecode) : bool :=
  (Z.of_nat (length codes) <? 2 ^ 31)%Z &&
  match pcsOf (length codes) 0 codes with Some pcs => forallb (instrOk codes pcs strict) pcs | None => false end.

Definition wfb : list Bytecode -> bool := checkb false.
Definition layoutb : list Bytecode -> bool := checkb true.

(** ** Its soundness *)

Lemma pcsOf_spec fuel pc codes pcs : isStart codes pc -> pcsOf fuel pc codes = Some pcs ->
  (pc ∈ pcs \/ pc = length codes) /\
  forall p, p ∈ pcs -> isStart codes p /\ exists u, codes !! p = Some u /\ 1 <= sizeOf u /\
    p + sizeOf u <= length codes /\ (p + sizeOf u ∈ pcs \/ p + sizeOf u = length codes).
Proof.
  revert pc pcs. induction fuel as [|fuel IH]; intros pc pcs Hs; simpl; case_decide as Hpc.
  - intros [= <-]. split; [by right|by intros p ?%elem_of_nil].
  - done.
  - intros [= <-]. split; [by right|by intros p ?%elem_of_nil].
  - destruct (codes !! pc) as [u|] eqn:Hu; simpl; [|done]. case_decide as Hsz; [|done].
    destruct (pcsOf fuel (pc + sizeOf u) codes) as [rest|] eqn:Hr; simpl; [|done]. intros [= <-].
    destruct (IH _ _ (start_next _ _ _ Hs Hu) Hr) as [Hhd Hin]. split; [left; apply elem_of_cons; by left|].
    intros p [->|Hp]%elem_of_cons.
    + split; [done|]. exists u. split_and!; try done; try lia. destruct Hhd; [left; apply elem_of_cons|]; auto.
    + destruct (Hin p Hp) as (? & v & ? & ? & ? & Hv). split; [done|]. exists v. split_and!; try done.
      destruct Hv; [left; apply elem_of_cons|]; auto.
Qed.

Section sound.
Context (codes : list Bytecode) (pcs : list nat) (Hpcs : pcsOf (length codes) 0 codes = Some pcs).

Lemma pcs_start p : isStart codes p -> p < length codes -> p ∈ pcs.
Proof.
  destruct (pcsOf_spec _ _ _ _ (start_first _) Hpcs) as [H0 Hin]. intros Hp.
  assert (Ho : p ∈ pcs \/ p = length codes); [|destruct Ho; [done|lia]].
  induction Hp as [|p u Hp IH Hu]; [done|]. destruct IH as [IH| ->].
  - destruct (Hin p IH) as (_ & v & Hv & _ & _ & Hn). by replace u with v by congruence.
  - apply lookup_lt_Some in Hu. lia.
Qed.

Lemma pcs_instr p : p ∈ pcs ->
  isStart codes p /\ exists u, codes !! p = Some u /\ 1 <= sizeOf u /\ p + sizeOf u <= length codes.
Proof.
  destruct (pcsOf_spec _ _ _ _ (start_first _) Hpcs) as [_ Hin]. intros Hp.
  destruct (Hin p Hp) as (? & u & ? & ? & ? & _). eauto.
Qed.

Lemma targetIn_spec u t : targetIn pcs u = Some t ->
  fastop0 u = Z.of_nat t /\ isStart codes t /\ t < length codes.
Proof.
  unfold targetIn. case_decide as H0; [|done]. case_decide as Hin; [|done]. intros [= <-].
  destruct (pcs_instr _ Hin) as (? & v & Hv & _). apply lookup_lt_Some in Hv. split_and!; [lia|done..].
Qed.

Lemma dispatchedb_spec p : dispatchedb codes pcs p = true -> dispatched codes p.
Proof.
  unfold dispatchedb. rewrite existsb_exists. intros (q & Hq & Hp%bool_decide_eq_true).
  apply list_elem_of_In in Hq. destruct (pcs_instr _ Hq) as (Hs & u & Hu & _).
  unfold entriesOf in Hp. rewrite Hu in Hp. destruct (opIs BRCH u) eqn:Hb; [|by apply elem_of_nil in Hp].
  apply elem_of_seq in Hp. exists q, u, (p - (q + sizeOf u)). split_and!; try done; lia.
Qed.

Context (strict : bool) (Hok : forallb (instrOk codes pcs strict) pcs = true).

Lemma checked p u : isStart codes p -> codes !! p = Some u -> instrOk codes pcs strict p = true.
Proof.
  intros Hp Hu. rewrite forallb_forall in Hok. apply Hok, list_elem_of_In, pcs_start; [done|by eapply lookup_lt_Some].
Qed.

(** What the check says of an instruction with the opcode [o]. *)
Lemma checked_op p u o : isStart codes p -> codes !! p = Some u -> opIs o u = true ->
  instrOk codes pcs strict p = true /\ opOf (opcode u) = Some o.
Proof. intros Hp Hu Ho. split; [by eapply checked|by apply opIs_spec]. Qed.

Ltac look Hp Hu Ho :=
  destruct (checked_op _ _ _ Hp Hu Ho) as [Hc Hop]; unfold instrOk in Hc; rewrite Hu, Hop in Hc;
  rewrite ?andb_true_iff in Hc.

Lemma checked_target p u : isStart codes p -> codes !! p = Some u -> unitHasTarget u = true ->
  exists t, targetIn pcs u = Some t.
Proof.
  intros Hp Hu Hj. destruct (hasTarget_cases u Hj) as [Ho|[Ho|Ho]]; look Hp Hu Ho; destruct Hc as [Hc Hc'].
  - unfold jumpOk in Hc'. destruct (targetIn pcs u); [eauto|done].
  - unfold testOk in Hc. destruct (targetIn pcs u); [eauto|done].
  - unfold endOk in Hc. destruct (targetIn pcs u); [eauto|done].
Qed.

Lemma checked_at p u t : isStart codes p -> codes !! p = Some u -> unitHasTarget u = true ->
  fastop0 u = Z.of_nat t -> targetIn pcs u = Some t.
Proof.
  intros Hp Hu Hj Hf. destruct (checked_target p u Hp Hu Hj) as [t' E]. rewrite E.
  destruct (targetIn_spec u t' E) as [Hf' _]. f_equal. lia.
Qed.

Lemma wf_checked : (Z.of_nat (length codes) < 2 ^ 31)%Z -> wf codes.
Proof.
  intros Hlen. split.
  - done.
  - intros p Hp Hlt. destruct (pcs_instr p (pcs_start p Hp Hlt)) as (_ & u & Hu & ? & ?). exists u.
    split_and!; try done. pose proof (checked p u Hp Hu) as Hc. unfold instrOk in Hc. rewrite Hu in Hc.
    by destruct (opOf (opcode u)).
  - intros p u Hp Hu Hj. destruct (checked_target p u Hp Hu Hj) as [t E]. exists t. by apply targetIn_spec.
  - intros p u Hp Hu [Ho|Ho]%orb_true_iff; look Hp Hu Ho; [destruct Hc as [Hc _]|]; by apply Nat.eqb_eq in Hc.
  - intros p u k Hp Hu Ho Hk. look Hp Hu Ho. destruct Hc as [Hc _].
    rewrite forallb_forall in Hc. specialize (Hc (p + sizeOf u + k)). unfold opAt in Hc.
    assert (Hin : In (p + sizeOf u + k) (entriesOf codes p)).
    { apply list_elem_of_In. unfold entriesOf. rewrite Hu, Ho. apply elem_of_seq. lia. }
    specialize (Hc Hin). destruct (codes !! (p + sizeOf u + k)) as [j|]; [by exists j|done].
  - intros p u Hp Hu Hl. pose proof (checked p u Hp Hu) as Hc. unfold instrOk in Hc. rewrite Hu in Hc.
    unfold leaves, opIs in Hl.
    destruct (opOf (opcode u)) as [[]|]; try done; try (by apply Nat.ltb_lt in Hc);
      by apply andb_true_iff in Hc as [_ Hc%Nat.ltb_lt].
Qed.
End sound.

Lemma layout_checked codes pcs : pcsOf (length codes) 0 codes = Some pcs ->
  forallb (instrOk codes pcs true) pcs = true -> (Z.of_nat (length codes) < 2 ^ 31)%Z -> layout codes.
Proof.
  intros Hpcs Hok Hlen. pose proof (wf_checked codes pcs Hpcs true Hok Hlen) as Hw.
  assert (Hat : forall p u t o, isStart codes p -> codes !! p = Some u -> opIs o u = true -> hasJumpTarget o = true ->
    fastop0 u = Z.of_nat t ->
    instrOk codes pcs true p = true /\ opOf (opcode u) = Some o /\ targetIn pcs u = Some t).
  { intros p u t o Hp Hu Ho Hj Hf. pose proof (proj1 (opIs_spec o u) Ho) as Hop.
    split_and!; [by apply (checked codes pcs Hpcs true Hok p u)|done|].
    apply (checked_at codes pcs Hpcs true Hok p u t Hp Hu); [|done]. unfold unitHasTarget. by rewrite Hop. }
  assert (Hjump : forall p u t, isStart codes p -> codes !! p = Some u -> opIs JUMP u = true ->
    fastop0 u = Z.of_nat t -> p < t /\ exists v, codes !! t = Some v /\
      (opIs JUMP v = false \/ dispatched codes p /\ fastop0 v = Z.of_nat (t + 1))).
  { intros p u t Hp Hu Ho Hf. destruct (Hat p u t JUMP Hp Hu Ho eq_refl Hf) as (Hc & Hop & Ht).
    unfold instrOk in Hc. rewrite Hu, Hop in Hc. apply andb_true_iff in Hc as [_ Hc].
    unfold jumpOk in Hc. rewrite Ht in Hc. apply andb_true_iff in Hc as [Hlt%Nat.ltb_lt Hv]. split; [done|].
    destruct (codes !! t) as [v|]; [|done]. exists v. split; [done|].
    apply orb_true_iff in Hv as [Hv%negb_true_iff|[Hd%(dispatchedb_spec codes pcs Hpcs) Hf'%bool_decide_eq_true]%andb_true_iff];
      auto. }
  split; [done|..].
  - intros p u t Hp Hu Ho Hf. by destruct (Hjump p u t Hp Hu Ho Hf).
  - intros p u t v Hp Hu Ho Hf Hv. destruct (Hjump p u t Hp Hu Ho Hf) as (_ & v' & Hv' & ?). by simplify_eq.
  - intros p u t Hp Hu Ho Hf. destruct (Hat p u t LTST Hp Hu Ho eq_refl Hf) as (Hc & Hop & Ht).
    unfold instrOk in Hc. rewrite Hu, Hop in Hc. apply andb_true_iff in Hc as [Hc _].
    unfold testOk, opAt in Hc. rewrite Ht in Hc. simpl in Hc. destruct (codes !! t) as [v|]; [eauto|done].
  - intros p u t Hp Hu Ho Hf. destruct (Hat p u t LEND Hp Hu Ho eq_refl Hf) as (Hc & Hop & Ht).
    unfold instrOk in Hc. rewrite Hu, Hop in Hc. apply andb_true_iff in Hc as [Hc _].
    unfold endOk in Hc. rewrite Ht in Hc. simpl in Hc.
    apply existsb_exists in Hc as (b & Hb & Hc). apply list_elem_of_In in Hb.
    destruct (pcs_instr codes pcs Hpcs b Hb) as (Hs & ub & Hub & _). rewrite Hub in Hc.
    apply andb_true_iff in Hc as [? E%Nat.eqb_eq]. exists b, ub. by split_and!.
Qed.

Lemma wfb_sound codes : wfb codes = true -> wf codes.
Proof.
  unfold wfb, checkb. rewrite andb_true_iff, Z.ltb_lt. intros [Hlen Hok].
  destruct (pcsOf _ _ _) as [pcs|] eqn:Hp; [|done]. by apply (wf_checked codes pcs Hp false).
Qed.

Lemma layoutb_sound codes : layoutb codes = true -> layout codes.
Proof.
  unfold layoutb, checkb. rewrite andb_true_iff, Z.ltb_lt. intros [Hlen Hok].
  destruct (pcsOf _ _ _) as [pcs|] eqn:Hp; [|done]. by apply (layout_checked codes pcs).
Qed.
