(* ===== verification/FastVm.v ===== *)
(** * What the bytecode compiler promises

    The properties of the FastVM's bytecode: the encoding of instructions, the registers given to
    frame slots, and the optimizer. *)

From stdpp Require Import gmap.
From S2P Require Import Prelude Registers Bytecode BytecodeLayout SlotAlloc SlotAllocSound BytecodeOpt BytecodeSem BytecodeEdit BytecodeOptSound BytecodeCheck.

(** ** Optimizer *)

(** C14. The optimizer ends, whatever the order of its strategies, and the code it leaves does in
    every machine what the code did: every execution that ended still ends in the same state, and
    no other ends. The code does not grow and stays laid out the way the compiler lays it out. *)
Theorem optimize_preserves strategies codes origins fuel :
  layout codes -> optimizeFuel codes <= fuel ->
  exists codes' origins', optimize fuel strategies codes origins 0 = Some (codes', origins') /\
    layout codes' /\ length codes' <= length codes /\ forall (S : Type) (vm : @Vm S), sameRuns vm codes codes'.
Proof.
  intros Hl Hf. apply (optimize_spec fuel (length codes)); [done|apply start_first|done|].
  unfold optimizeFuel in Hf. nia.
Qed.

Definition unit1 (o : OpCode) (target : nat) : Bytecode := mkBytecode (opByte o) 0 1 0 (Z.of_nat target) 0.

(** A branch of two arms, of which the second one has no instruction of its own. *)
Definition twoArms : list Bytecode :=
  [unit1 BRCH 0; unit1 JUMP 3; unit1 JUMP 5; unit1 IADD 1; unit1 JUMP 6; unit1 JUMP 6; unit1 JOIN 0; unit1 RETN 0].

Definition allStrategies : list Strategy := [SJumpToJump; SJumpToNext; SJumpToRetn; SJoinCleanup].

Example twoArms_optimized : optimize 200 allStrategies twoArms ∅ 0 =
  Some ([unit1 BRCH 0; unit1 JUMP 3; unit1 JUMP 5; unit1 IADD 1; unit1 JUMP 5; unit1 JOIN 0; unit1 RETN 0], ∅).
Proof. vm_compute. reflexivity. Qed.

Lemma twoArms_layout : layout twoArms.
Proof. apply layoutb_sound. vm_compute. reflexivity. Qed.

Lemma optimize_preserves_witness :
  optimizeFuel twoArms = 117 /\
  exists codes' origins', optimize 117 allStrategies twoArms ∅ 0 = Some (codes', origins') /\
    layout codes' /\ length codes' <= length twoArms /\ forall (S : Type) (vm : @Vm S), sameRuns vm twoArms codes'.
Proof.
  split; [vm_compute; reflexivity|]. apply (optimize_preserves allStrategies twoArms ∅ 117 twoArms_layout).
  apply (bool_decide_unpack _). vm_compute. exact I.
Defined.

(** Folding a JUMP that goes to a JUMP, and removing the second JUMP when no other one goes
    to it, is sound on any well-formed code: it stays well-formed and does what it did. (The
    second JUMP is not the first instruction, and no loop goes back to it.) *)
Theorem jumpToJump_preserves {S} (vm : @Vm S) codes origins curr bc next codes' origins' pos :
  wf codes -> isStart codes curr -> codes !! curr = Some bc -> opIs JUMP bc = true ->
  fastop0 bc = Z.of_nat next -> next <> 0 ->
  (forall p u, isStart codes p -> codes !! p = Some u -> opIs LTST u || opIs LEND u = true ->
     fastop0 u <> Z.of_nat next) ->
  JumpToJump codes origins curr = Some (Some (codes', origins', pos)) ->
  wf codes' /\ sameRuns vm codes codes'.
Proof. apply jumpToJump_sound. Qed.

(** A chain of JUMPs. *)
Definition chain : list Bytecode := [unit1 JUMP 2; unit1 RETN 0; unit1 JUMP 1].

Lemma chain_wf : wf chain.
Proof. apply wfb_sound. vm_compute. reflexivity. Qed.

Lemma jumpToJump_preserves_witness :
  let codes' := [unit1 JUMP 1; unit1 RETN 0] in
  JumpToJump chain ∅ 0 = Some (Some (codes', ∅, 0)) /\
  wf codes' /\ forall (S : Type) (vm : @Vm S), sameRuns vm chain codes'.
Proof.
  assert (Hj : JumpToJump chain ∅ 0 = Some (Some ([unit1 JUMP 1; unit1 RETN 0], ∅, 0))) by (vm_compute; reflexivity).
  assert (Hloops : forall p u, isStart chain p -> chain !! p = Some u -> opIs LTST u || opIs LEND u = true ->
    fastop0 u <> Z.of_nat 2).
  { intros p u _ Hu. destruct p as [|[|[|p]]]; [..|by destruct p]; by injection Hu as <-. }
  assert (Hp : forall (S : Type) (vm : @Vm S), wf [unit1 JUMP 1; unit1 RETN 0] /\ sameRuns vm chain [unit1 JUMP 1; unit1 RETN 0]).
  { intros S vm. by apply (jumpToJump_preserves vm chain ∅ 0 (unit1 JUMP 2) 2 _ ∅ 0 chain_wf (start_first _)). }
  split; [exact Hj|]. split; [|intros S vm; apply Hp].
  unshelve eapply (proj1 (Hp nat _)).
  refine {| plain := fun _ s => Some s; arm := fun _ s => (0, s); loop := fun _ s => (false, s) |}.
  intros u body s. unfold brchArmDispatchCount. simpl. destruct (withCnt u =? 0); lia.
Defined.

(** ** Encoding *)

(** C15. An appended instruction reads back as it was given: the header with its size, the
    operands, and the first extra word (the others are 0); nothing before it changes. *)
Theorem append_reads_back vec o res fastops norm withs hasExtra extra vec' pc :
  Forall int32 (norm ++ withs) -> word64 extra ->
  appendBytecode vec o res fastops norm withs hasExtra extra (extraWordCount o) = Some (inr (vec', pc)) ->
  appended vec vec' pc (totalUnits fastops (length norm + length withs) hasExtra (extraWordCount o))
    o res fastops norm withs hasExtra extra.
Proof. intros Hin Hex. by apply appendBytecode_spec. Qed.

Definition called : list Bytecode :=
  [mkBytecode (opByte FUNC) 0 4 5 3 0; mkBytecode 7 0 0 (-1) 9 0; mkBytecode 239 190 57005 0 0 0; zeroUnit].

Lemma append_reads_back_witness :
  appendBytecode [zeroUnit] FUNC 5 [] [7; -1; 9]%Z [] true 0xdeadbeef%Z 4 = Some (inr (zeroUnit :: called, 1)) /\
  appended [zeroUnit] (zeroUnit :: called) 1 4 FUNC 5 [] [7; -1; 9]%Z [] true 0xdeadbeef.
Proof.
  assert (Ha : appendBytecode [zeroUnit] FUNC 5 [] [7; -1; 9]%Z [] true 0xdeadbeef%Z 4 =
    Some (inr (zeroUnit :: called, 1))) by (vm_compute; reflexivity).
  split; [exact Ha|].
  refine (append_reads_back [zeroUnit] FUNC 5 [] [7; -1; 9]%Z [] true 0xdeadbeef _ _ _ _ Ha); [|by split].
  by repeat constructor.
Defined.

(** [appendBytecode] refuses exactly the operand counts that do not fit a signed 32-bit
    integer and the sizes that do not fit a 16-bit one, before it changes anything; it fails on an
    extra word for an opcode that has none, and appends in every other case. *)
Theorem append_errors vec o res fastops norm withs hasExtra extra n :
  let total := totalUnits fastops (length norm + length withs) hasExtra n in
  match appendBytecode vec o res fastops norm withs hasExtra extra n with
  | Some (inl (IndexTooLarge k)) => (2 ^ 31 <= Z.of_nat k)%Z /\ (k = length norm \/ k = length withs)
  | Some (inl (TooManyUnits k)) => (2 ^ 16 <= Z.of_nat k)%Z /\ k = total
  | Some (inr (vec', pc)) => (Z.of_nat (length norm) < 2 ^ 31)%Z /\ (Z.of_nat (length withs) < 2 ^ 31)%Z /\
      (Z.of_nat total < 2 ^ 16)%Z /\ pc = length vec
  | None => hasExtra = true /\ extraWordCount o = 0
  end.
Proof.
  cbn zeta. rewrite append_unfold. cbn zeta.
  destruct (Z.ltb_spec (2 ^ 31 - 1) (Z.of_nat (length norm))); [split; [lia|by left]|].
  destruct (Z.ltb_spec (2 ^ 31 - 1) (Z.of_nat (length withs))); [split; [lia|by right]|].
  destruct (Z.ltb_spec (2 ^ 16 - 1) (Z.of_nat (totalUnits fastops (length norm + length withs) hasExtra n)));
    [split; [lia|done]|].
  destruct hasExtra; [|split_and!; [lia..|done]].
  destruct (withHeader_spec vec o (totalUnits fastops (length norm + length withs) true n) res fastops norm withs)
    as (_ & _ & (f0 & f1 & Hh & _ & _) & _).
  - destruct (units_bounds fastops (length norm + length withs) true n) as (Hops & ? & ?).
    intros E. specialize (Hops E). rewrite length_app. lia.
  - by destruct (units_bounds fastops (length norm + length withs) true n) as (? & ? & ?).
  - destruct (decide (extraWordCount o = 0)) as [E|E].
    + unfold extraAt. rewrite Hh. simpl. rewrite opOf_opByte. simpl. rewrite E. done.
    + rewrite (extraAt_header _ _ _ _ _ _ _ Hh) by lia. simpl. split_and!; [lia..|done].
Qed.

(** The linked target of a JUMP reads back for every 64-bit pc. Counting a call increases the
    count of its extra word up to 2^32 - 1 and stays there, and keeps the target; setting the
    target keeps the count and fails on a target of more than 32 bits. *)
Theorem packed_fields u t w : word64 t -> word64 w ->
  getJumpTargetPc (setJumpTargetPc t u) = t /\
  (let (w', n) := incFuncExtraCount w in
   word64 w' /\ getFuncExtraTargetPc w' = getFuncExtraTargetPc w /\ n = getFuncExtraCount w' /\
   n = Z.min (getFuncExtraCount w + 1) (2 ^ 32 - 1)) /\
  match setFuncExtraTargetPc t w with
  | None => (2 ^ 32 <= t)%Z
  | Some w' => word64 w' /\ getFuncExtraTargetPc w' = t /\ getFuncExtraCount w' = getFuncExtraCount w
  end.
Proof.
  intros Ht Hw. split_and!.
  - by apply getJumpTargetPc_set.
  - by apply incFuncExtraCount_spec.
  - apply setFuncExtraTargetPc_spec; [unfold word64 in Ht; lia|done].
Qed.

Lemma packed_fields_witness :
  incFuncExtraCount 0x7ffffffff = (0x7ffffffff, 0xffffffff)%Z /\
  getJumpTargetPc (setJumpTargetPc 0x500000003 zeroUnit) = 0x500000003%Z /\
  (0xffffffff = Z.min (getFuncExtraCount 0x7ffffffff + 1) (2 ^ 32 - 1))%Z /\
  (2 ^ 32 <= 0x500000003)%Z.
Proof.
  assert (Ht : word64 0x500000003) by by split. assert (Hw : word64 0x7ffffffff) by by split.
  destruct (packed_fields zeroUnit _ _ Ht Hw) as (Hj & (_ & _ & _ & Hn) & Hs).
  split; [vm_compute; reflexivity|]. split; [exact Hj|]. split; [exact Hn|exact Hs].
Defined.

(** ** Registers of frame slots *)

(** C16. A slot of the frame that the linear scan puts in a register is in a usable one, no call
    lies between its first write and any read of it (so no call clobbers it, and it is not the
    result of a call), and no other slot in the same register is first written in between. *)
Theorem slot_registers_sound vec entryPc pcEnd alloc v reg :
  linearScanAllocate vec entryPc pcEnd = Some alloc -> alloc !! v = Some (Some reg) ->
  exists d, slotSound vec (pcsFrom vec (pcEnd - entryPc) entryPc pcEnd) alloc v reg d.
Proof. intros Ha Hv. by eapply linearScanAllocate_spec. Qed.

(** Slots 3 and 4 are results, slot 3 lives over a call. *)
Definition slotCode : list Bytecode :=
  [mkBytecode (opByte LADD) 0 1 3 1 2; mkBytecode (opByte LADD) 0 1 4 1 2; mkBytecode (opByte LSUB) 0 1 5 4 2;
   mkBytecode (opByte CALL) 0 1 6 0 0; mkBytecode (opByte LMUL) 0 1 7 3 6; mkBytecode (opByte RETN) 0 1 0 7 0].

Lemma slot_registers_sound_witness :
  linearScanAllocate slotCode 0 6 = Some [None; None; None; None; Some 0; None; None; Some 0] /\
  exists d, slotSound slotCode [0; 1; 2; 3; 4; 5] [None; None; None; None; Some 0; None; None; Some 0] 4 0 d.
Proof.
  assert (Ha : linearScanAllocate slotCode 0 6 = Some [None; None; None; None; Some 0; None; None; Some 0])
    by (vm_compute; reflexivity).
  split; [exact Ha|]. exact (slot_registers_sound slotCode 0 6 _ 4 0 Ha eq_refl).
Defined.

(** ** An arm that is lost

    [layout] asks that an arm without an instruction of its own is the last one. Where such an arm
    stands behind a tail call, [JoinCleanup] takes its JUMP for an unreachable one, and the entry
    of the arm then leads into the arm behind it. *)

Definition threeArms : list Bytecode :=
  [mkBytecode (opByte BRCH) 0 1 0 0 2; unit1 JUMP 4; unit1 JUMP 6; unit1 JUMP 7;
   unit1 TAIL 0; unit1 JUMP 9; unit1 JUMP 9; unit1 IADD 1; unit1 JUMP 9; unit1 JOIN 0; unit1 RETN 0].

(** A machine that takes the second arm and counts what it executes. *)
Definition counting : @Vm nat.
Proof.
  refine {| plain := fun _ n => Some (S n); arm := fun _ n => (1, n); loop := fun _ n => (false, n) |}.
  intros u body s. unfold brchArmDispatchCount. simpl. destruct (withCnt u =? 0) eqn:E; [lia|].
  apply Nat.eqb_neq in E. lia.
Defined.

(** On well-formed code with an empty arm behind an arm that ends in a tail call, the
    optimizer changes what the code does: the machine that takes the second arm executes one
    instruction, the one of the JOIN, in the original code, and that of the third arm as well in the
    optimized one. So the condition on empty arms in [layout] cannot be left out. *)
Theorem joinCleanup_loses_arm : exists codes' origins',
  wf threeArms /\ optimize 200 allStrategies threeArms ∅ 0 = Some (codes', origins') /\
  ends counting threeArms 0 (Ended (unit1 RETN 0, []) 1) /\ ends counting codes' 0 (Ended (unit1 RETN 0, []) 2).
Proof.
  eexists _, _. split_and!; [|vm_compute; reflexivity|exists 10; vm_compute; reflexivity|exists 10; vm_compute; reflexivity].
  apply wfb_sound. vm_compute. reflexivity.
Qed.
