(* ===== verification/Tokens.v ===== *)
(** * Tokens of Camel

    The tokens of src/include/camel/parse/syntax/token.h and token_kinds.def, and the buffer that
    holds them with their source text: its line table and the searches over it (the members of
    [TokenBuffer] in src/src/parse/syntax/lexer.cpp). A text is a list of bytes, a byte an
    [ascii]; an offset is a [nat], and [off] is the cast of one to 32 bits. *)

From Stdlib Require Import Ascii String.
From stdpp Require Import strings.
From S2P Require Import Prelude.
#[local] Open Scope nat_scope.

Abbreviation Text := (list ascii).
Definition T : string -> Text := list_ascii_of_string.

(** [static_cast<uint32_t>] of an offset. *)
Definition off (n : nat) : nat := Z.to_nat (u32 (Z.of_nat n)).

Inductive TokenKind :=
  | Eof | Error | Command | LineComment | DocComment | BlockComment | Identifier | Integer | Real
  | Imaginary | String | RawString | MultiStr | FString | KwAs | KwLet | KwVar | KwFrom | KwFunc
  | KwType | KwEnum | KwWith | KwConst | KwConstas | KwReturn | KwImport | KwExport | KwTypeof
  | KwUsing | KwNamespace | KwIf | KwThen | KwElse | KwMatch | KwCase | KwFor | KwIn | KwYield
  | KwLoop | KwWhile | KwDo | KwSync | KwStatic | KwNull | KwTrue | KwFalse | Semi | Comma | Colon
  | ColonColon | Dot | DotDot | Ellipsis | LParen | RParen | LBracket | RBracket | LBrace | RBrace
  | LAngle | Lt | Gt | LtEq | Equiv | GtEq | EqEq | NotEq | EqEqEq | NotEqEq | Assign | PlusAssign
  | MinusAssign | StarAssign | SlashAssign | PercentAssign | CaretAssign | AtAssign | AmpAssign
  | PipeAssign | Plus | Minus | Star | Slash | Percent | Caret | At | Hash | Amp | Pipe | AmpAmp
  | PipePipe | Bang | BangBang | Tilde | Question | QuestionQuestion | Arrow | FatArrow
  | Underscore.

(** The three rows of the table of kinds: a name, a keyword's or an operator's spelling (a
    description for the other kinds), and what kind of row it is. *)
Inductive Row := CAMEL_TOKEN (display : string) | CAMEL_KEYWORD (text : string) (group : string) | CAMEL_PUNCT (text : string).

Definition kindRow (k : TokenKind) : string * Row :=
  match k with
  | Eof => ("Eof", CAMEL_TOKEN "<EOF>")
  | Error => ("Error", CAMEL_TOKEN "<error>")
  | Command => ("Command", CAMEL_TOKEN "<command>")
  | LineComment => ("LineComment", CAMEL_TOKEN "<comment>")
  | DocComment => ("DocComment", CAMEL_TOKEN "<comment>")
  | BlockComment => ("BlockComment", CAMEL_TOKEN "<comment>")
  | Identifier => ("Identifier", CAMEL_TOKEN "a name")
  | Integer => ("Integer", CAMEL_TOKEN "a number")
  | Real => ("Real", CAMEL_TOKEN "a number")
  | Imaginary => ("Imaginary", CAMEL_TOKEN "a number")
  | String => ("String", CAMEL_TOKEN "a string")
  | RawString => ("RawString", CAMEL_TOKEN "a string")
  | MultiStr => ("MultiStr", CAMEL_TOKEN "a string")
  | FString => ("FString", CAMEL_TOKEN "a string")
  | KwAs => ("KwAs", CAMEL_KEYWORD "as" "Type")
  | KwLet => ("KwLet", CAMEL_KEYWORD "let" "Declaration")
  | KwVar => ("KwVar", CAMEL_KEYWORD "var" "Declaration")
  | KwFrom => ("KwFrom", CAMEL_KEYWORD "from" "Declaration")
  | KwFunc => ("KwFunc", CAMEL_KEYWORD "func" "Declaration")
  | KwType => ("KwType", CAMEL_KEYWORD "type" "Declaration")
  | KwEnum => ("KwEnum", CAMEL_KEYWORD "enum" "Type")
  | KwWith => ("KwWith", CAMEL_KEYWORD "with" "Declaration")
  | KwConst => ("KwConst", CAMEL_KEYWORD "const" "Type")
  | KwConstas => ("KwConstas", CAMEL_KEYWORD "constas" "Type")
  | KwReturn => ("KwReturn", CAMEL_KEYWORD "return" "Control")
  | KwImport => ("KwImport", CAMEL_KEYWORD "import" "Declaration")
  | KwExport => ("KwExport", CAMEL_KEYWORD "export" "Declaration")
  | KwTypeof => ("KwTypeof", CAMEL_KEYWORD "typeof" "Type")
  | KwUsing => ("KwUsing", CAMEL_KEYWORD "using" "Declaration")
  | KwNamespace => ("KwNamespace", CAMEL_KEYWORD "namespace" "Declaration")
  | KwIf => ("KwIf", CAMEL_KEYWORD "if" "Control")
  | KwThen => ("KwThen", CAMEL_KEYWORD "then" "Control")
  | KwElse => ("KwElse", CAMEL_KEYWORD "else" "Control")
  | KwMatch => ("KwMatch", CAMEL_KEYWORD "match" "Control")
  | KwCase => ("KwCase", CAMEL_KEYWORD "case" "Control")
  | KwFor => ("KwFor", CAMEL_KEYWORD "for" "Control")
  | KwIn => ("KwIn", CAMEL_KEYWORD "in" "Control")
  | KwYield => ("KwYield", CAMEL_KEYWORD "yield" "Control")
  | KwLoop => ("KwLoop", CAMEL_KEYWORD "loop" "Control")
  | KwWhile => ("KwWhile", CAMEL_KEYWORD "while" "Control")
  | KwDo => ("KwDo", CAMEL_KEYWORD "do" "Control")
  | KwSync => ("KwSync", CAMEL_KEYWORD "sync" "Control")
  | KwStatic => ("KwStatic", CAMEL_KEYWORD "static" "Control")
  | KwNull => ("KwNull", CAMEL_KEYWORD "null" "Literal")
  | KwTrue => ("KwTrue", CAMEL_KEYWORD "true" "Literal")
  | KwFalse => ("KwFalse", CAMEL_KEYWORD "false" "Literal")
  | Semi => ("Semi", CAMEL_PUNCT ";")
  | Comma => ("Comma", CAMEL_PUNCT ",")
  | Colon => ("Colon", CAMEL_PUNCT ":")
  | ColonColon => ("ColonColon", CAMEL_PUNCT "::")
  | Dot => ("Dot", CAMEL_PUNCT ".")
  | DotDot => ("DotDot", CAMEL_PUNCT "..")
  | Ellipsis => ("Ellipsis", CAMEL_PUNCT "...")
  | LParen => ("LParen", CAMEL_PUNCT "(")
  | RParen => ("RParen", CAMEL_PUNCT ")")
  | LBracket => ("LBracket", CAMEL_PUNCT "[")
  | RBracket => ("RBracket", CAMEL_PUNCT "]")
  | LBrace => ("LBrace", CAMEL_PUNCT "{")
  | RBrace => ("RBrace", CAMEL_PUNCT "}")
  | LAngle => ("LAngle", CAMEL_PUNCT "<")
  | Lt => ("Lt", CAMEL_PUNCT "<")
  | Gt => ("Gt", CAMEL_PUNCT ">")
  | LtEq => ("LtEq", CAMEL_PUNCT "<=")
  | Equiv => ("Equiv", CAMEL_PUNCT "<=>")
  | GtEq => ("GtEq", CAMEL_PUNCT ">=")
  | EqEq => ("EqEq", CAMEL_PUNCT "==")
  | NotEq => ("NotEq", CAMEL_PUNCT "!=")
  | EqEqEq => ("EqEqEq", CAMEL_PUNCT "===")
  | NotEqEq => ("NotEqEq", CAMEL_PUNCT "!==")
  | Assign => ("Assign", CAMEL_PUNCT "=")
  | PlusAssign => ("PlusAssign", CAMEL_PUNCT "+=")
  | MinusAssign => ("MinusAssign", CAMEL_PUNCT "-=")
  | StarAssign => ("StarAssign", CAMEL_PUNCT "*=")
  | SlashAssign => ("SlashAssign", CAMEL_PUNCT "/=")
  | PercentAssign => ("PercentAssign", CAMEL_PUNCT "%=")
  | CaretAssign => ("CaretAssign", CAMEL_PUNCT "^=")
  | AtAssign => ("AtAssign", CAMEL_PUNCT "@=")
  | AmpAssign => ("AmpAssign", CAMEL_PUNCT "&=")
  | PipeAssign => ("PipeAssign", CAMEL_PUNCT "|=")
  | Plus => ("Plus", CAMEL_PUNCT "+")
  | Minus => ("Minus", CAMEL_PUNCT "-")
  | Star => ("Star", CAMEL_PUNCT "*")
  | Slash => ("Slash", CAMEL_PUNCT "/")
  | Percent => ("Percent", CAMEL_PUNCT "%")
  | Caret => ("Caret", CAMEL_PUNCT "^")
  | At => ("At", CAMEL_PUNCT "@")
  | Hash => ("Hash", CAMEL_PUNCT "#")
  | Amp => ("Amp", CAMEL_PUNCT "&")
  | Pipe => ("Pipe", CAMEL_PUNCT "|")
  | AmpAmp => ("AmpAmp", CAMEL_PUNCT "&&")
  | PipePipe => ("PipePipe", CAMEL_PUNCT "||")
  | Bang => ("Bang", CAMEL_PUNCT "!")
  | BangBang => ("BangBang", CAMEL_PUNCT "!!")
  | Tilde => ("Tilde", CAMEL_PUNCT "~")
  | Question => ("Question", CAMEL_PUNCT "?")
  | QuestionQuestion => ("QuestionQuestion", CAMEL_PUNCT "??")
  | Arrow => ("Arrow", CAMEL_PUNCT "->")
  | FatArrow => ("FatArrow", CAMEL_PUNCT "=>")
  | Underscore => ("Underscore", CAMEL_PUNCT "_")
  end%string.

(** The kinds in the order of the enumeration. *)
Definition allKinds : list TokenKind := [
  Eof; Error; Command; LineComment; DocComment; BlockComment; Identifier; Integer; Real; Imaginary;
  String; RawString; MultiStr; FString; KwAs; KwLet; KwVar; KwFrom; KwFunc; KwType; KwEnum; KwWith;
  KwConst; KwConstas; KwReturn; KwImport; KwExport; KwTypeof; KwUsing; KwNamespace; KwIf; KwThen;
  KwElse; KwMatch; KwCase; KwFor; KwIn; KwYield; KwLoop; KwWhile; KwDo; KwSync; KwStatic; KwNull;
  KwTrue; KwFalse; Semi; Comma; Colon; ColonColon; Dot; DotDot; Ellipsis; LParen; RParen; LBracket;
  RBracket; LBrace; RBrace; LAngle; Lt; Gt; LtEq; Equiv; GtEq; EqEq; NotEq; EqEqEq; NotEqEq;
  Assign; PlusAssign; MinusAssign; StarAssign; SlashAssign; PercentAssign; CaretAssign; AtAssign;
  AmpAssign; PipeAssign; Plus; Minus; Star; Slash; Percent; Caret; At; Hash; Amp; Pipe; AmpAmp;
  PipePipe; Bang; BangBang; Tilde; Question; QuestionQuestion; Arrow; FatArrow; Underscore ].

Definition kindIndex (k : TokenKind) : nat :=
  match list_find (fun r => r.1 = (kindRow k).1) (kindRow <$> allKinds) with Some (i, _) => i | None => 0 end.

Lemma allKinds_index k : allKinds !! kindIndex k = Some k.
Proof. destruct k; vm_compute; reflexivity. Qed.

#[export] Instance TokenKind_eq_dec : EqDecision TokenKind.
Proof.
  intros a b. destruct (decide (kindIndex a = kindIndex b)) as [E|E].
  - left. pose proof (allKinds_index a) as Ha. rewrite E, allKinds_index in Ha. by injection Ha.
  - right. by intros ->.
Defined.

Definition tokenKindText (k : TokenKind) : Text :=
  match (kindRow k).2 with CAMEL_TOKEN t | CAMEL_KEYWORD t _ | CAMEL_PUNCT t => T t end.
Definition tokenKindName (k : TokenKind) : Text := T (kindRow k).1.

Definition isKeyword (k : TokenKind) : bool := (kindIndex KwAs <=? kindIndex k) && (kindIndex k <=? kindIndex KwFalse).
Definition isPunctuation (k : TokenKind) : bool := kindIndex Semi <=? kindIndex k.
(** Comments and the text of a lexical error. *)
Definition isTrivia (k : TokenKind) : bool := (kindIndex Error <=? kindIndex k) && (kindIndex k <=? kindIndex BlockComment).

Record KeywordInfo := mkKeyword { kwText : Text; kwKind : TokenKind; kwGroup : Text }.

Definition keywordTable : list KeywordInfo :=
  omap (fun k => match (kindRow k).2 with CAMEL_KEYWORD t g => Some (mkKeyword (T t) k (T g)) | _ => None end) allKinds.

(** ** Tokens, errors, interpolations *)

Definition SpaceBefore : Z := 1.
Definition NewlineBefore : Z := 2.

Record Token := mkToken { begin : nat; end_ : nat; kind : TokenKind; flags : Z }.

Definition spaceBefore (t : Token) : bool := negb (Z.land (flags t) SpaceBefore =? 0)%Z.
Definition newlineBefore (t : Token) : bool := negb (Z.land (flags t) NewlineBefore =? 0)%Z.

Inductive LexErrorKind := IllegalCharacter | InvalidNumber | UnclosedString | UnterminatedComment.
Record LexError := mkError { errKind : LexErrorKind; errBegin : nat; errEnd : nat }.

(** One [${...}] of a formatted string. [open_] is the '$', [exprBegin .. exprEnd) the expression,
    [specBegin .. specEnd) the format specification, [close] the closing brace. *)
Record FStringInterpolation := mkPart {
  token : nat; open_ : nat; exprBegin : nat; exprEnd : nat; specBegin : nat; specEnd : nat; close : nat;
  hasSpec : bool }.

Record TokenBuffer := mkBuffer {
  source_ : Text; tokens_ : list Token; errors_ : list LexError;
  interpolations_ : list FStringInterpolation; lineStarts_ : list nat }.

(** [s[b .. e)]. *)
Definition slice (s : Text) (b e : nat) : Text := take (e - b) (drop b s).
Definition text (buf : TokenBuffer) (t : Token) : Text := slice (source_ buf) (begin t) (end_ t).

(** ** Searches over a buffer *)

(** [std::upper_bound] in the line table, less one. *)
Fixpoint upperBound (offset : nat) (l : list nat) : nat :=
  match l with
  | [] => 0
  | x :: l => if offset <? x then 0 else S (upperBound offset l)
  end.
Definition lineOf (buf : TokenBuffer) (offset : nat) : nat := upperBound offset (lineStarts_ buf) - 1.

(** A byte that does not continue a code point. *)
Definition startsCodePoint (c : ascii) : bool := negb (Z.land (Z.of_N (N_of_ascii c)) 0xC0 =? 0x80)%Z.

Definition columnOf (buf : TokenBuffer) (offset : nat) : nat :=
  length (filter (fun c => startsCodePoint c = true)
    (slice (source_ buf) (default 0 (lineStarts_ buf !! lineOf buf offset)) offset)).

Definition triviaAt (toks : list Token) (i : nat) : bool :=
  match toks !! i with Some t => isTrivia (kind t) | None => false end.

Fixpoint nextFrom (fuel : nat) (toks : list Token) (index : nat) : nat :=
  match fuel with
  | O => index
  | S fuel => if triviaAt toks index then nextFrom fuel toks (index + 1) else index
  end.
Definition nextSignificant (buf : TokenBuffer) (index : nat) : nat :=
  nextFrom (length (tokens_ buf) - index) (tokens_ buf) index.

(** [None] is [SIZE_MAX]. *)
Fixpoint previousSignificant (toks : list Token) (index : nat) : option nat :=
  if triviaAt toks index then
    match index with O => None | S index => previousSignificant toks index end
  else Some index.

Definition interpolationsOf (buf : TokenBuffer) (tok : nat) : list FStringInterpolation :=
  filter (fun p => token p = tok) (interpolations_ buf).

(** ** The documentation above a declaration *)

(** Where the run of trivia before [i] starts. *)
Fixpoint runStart (toks : list Token) (i : nat) : nat :=
  match i with
  | O => O
  | S j => if triviaAt toks j then runStart toks j else S j
  end.

Definition kindAt (toks : list Token) (i : nat) (k : TokenKind) : bool :=
  match toks !! i with Some t => bool_decide (kind t = k) | None => false end.

Fixpoint firstDoc (fuel : nat) (toks : list Token) (i : nat) : nat :=
  match fuel with
  | O => i
  | S fuel => if kindAt toks i DocComment then i else firstDoc fuel toks (i + 1)
  end.

(** The text of a documentation comment without its marker, one space after it, and the blanks at
    its end. *)
Definition isBlankEnd (c : ascii) : bool := bool_decide (c = "013"%char) || bool_decide (c = " "%char).
Fixpoint dropEnd (l : Text) : Text :=
  match l with
  | [] => []
  | c :: l => match dropEnd l with [] => if isBlankEnd c then [] else [c] | l' => c :: l' end
  end.
Definition docBody (t : Text) : Text :=
  let body := drop 3 t in
  dropEnd (match body with c :: rest => if decide (c = " "%char) then rest else body | [] => [] end).

Definition docStart (buf : TokenBuffer) (index : nat) : nat :=
  let toks := tokens_ buf in
  let lineAt i := match toks !! i with Some t => lineOf buf (begin t) | None => 0 end in
  let i := runStart toks index in
  let i := (if (i <? index) && (0 <? i) && (lineAt (i - 1) + 1 <? lineAt i)
            then firstDoc (index - i) toks i else i) in
  if (i <? index) && kindAt toks i LineComment then index else i.

Definition docAbove (buf : TokenBuffer) (index : nat) : Text :=
  if length (tokens_ buf) <=? index then []
  else
    foldl (fun doc t => (match doc with [] => [] | _ => doc ++ ["010"%char] end) ++ docBody (text buf t)) []
      (filter (fun t => kind t = DocComment)
        (take (index - docStart buf index) (drop (docStart buf index) (tokens_ buf)))).
