(* ===== verification/LexScan.v ===== *)
(** * Character classes, keywords and the scanners of the lexer

    The first part of src/src/parse/syntax/lexer.cpp: what a byte can start, the open-addressing
    table of keywords, and the scanners that skip strings and the [${...}] of formatted strings.
    A text is read through [at_ s n], the byte at an index below the bound [n] of the range that
    is lexed, and 0 from there on. A loop that only moves a position is [skipWhile]. *)

From Stdlib Require Import Ascii String.
From stdpp Require Import strings.
From S2P Require Import Prelude Tokens.
#[local] Open Scope nat_scope.

Definition chr (c d : ascii) : bool := bool_decide (c = d).
Definition NUL : ascii := "000"%char.
Definition LF : ascii := "010"%char.
Definition CR : ascii := "013"%char.
Definition FF : ascii := "012"%char.
Definition TAB : ascii := "009"%char.
Definition QUOTE : ascii := "034"%char.
Definition APOS : ascii := "'"%char.
Definition TICK : ascii := "`"%char.
Definition BSLASH : ascii := "\"%char.

(** ** Character classes *)

Inductive CharClass := kIllegal | kBlank | kNewline | kIdentStart | kDigit | kQuote | kPunct | kHash.

#[export] Instance CharClass_eq_dec : EqDecision CharClass.
Proof. solve_decision. Defined.

Definition code (c : ascii) : nat := nat_of_ascii c.
Definition between (a b c : ascii) : bool := (code a <=? code c) && (code c <=? code b).

Definition punctChars : Text := T ";,:.()[]{}<>=+-*/%^@&|!~?".

(** The table of [makeCharClasses], read at a byte. *)
Definition kCharClass (c : ascii) : CharClass :=
  if chr c "#" then kHash
  else if existsb (chr c) punctChars then kPunct
  else if chr c APOS || chr c QUOTE || chr c TICK then kQuote
  else if between "0" "9" c then kDigit
  else if chr c "_" || between "A" "Z" c || between "a" "z" c then kIdentStart
  else if chr c LF then kNewline
  else if chr c " " || chr c TAB || chr c CR || chr c FF then kBlank
  else kIllegal.

Definition isClass (k : CharClass) (c : ascii) : bool := bool_decide (kCharClass c = k).
Definition isIdentPart (c : ascii) : bool := isClass kIdentStart c || isClass kDigit c.
Definition isDigit (c : ascii) : bool := between "0" "9" c.
Definition isHexDigit (c : ascii) : bool := isDigit c || between "a" "f" c || between "A" "F" c.

(** ** Reading a range *)

Definition at_ (s : Text) (n i : nat) : ascii := if i <? n then default NUL (s !! i) else NUL.

(** [while (j < n && p(s[j])) ++j]. *)
Fixpoint skipFor (fuel : nat) (p : ascii -> bool) (s : Text) (n j : nat) : nat :=
  match fuel with
  | O => j
  | S fuel => if (j <? n) && p (at_ s n j) then skipFor fuel p s n (j + 1) else j
  end.
Definition skipWhile (p : ascii -> bool) (s : Text) (n j : nat) : nat := skipFor (n - j) p s n j.

(** [std::memchr] for a line feed; the bound when there is none. *)
Definition lineEnd (s : Text) (n i : nat) : nat := skipWhile (fun c => negb (chr c LF)) s n i.

(** Whether [pat] is at [j]. *)
Fixpoint isAt (pat : Text) (s : Text) (n j : nat) : bool :=
  match pat with
  | [] => true
  | c :: pat => (j <? n) && chr (at_ s n j) c && isAt pat s n (j + 1)
  end.

(** [std::string_view::find] of a pattern from [j] on. *)
Fixpoint findFor (fuel : nat) (pat : Text) (s : Text) (n j : nat) : option nat :=
  if isAt pat s n j then Some j
  else match fuel with O => None | S fuel => findFor fuel pat s n (j + 1) end.
Definition find (pat : Text) (s : Text) (n j : nat) : option nat := findFor (n - j) pat s n j.

(** ** Keywords *)

Definition kKeywordSlots : nat := 256.

Definition charCode (t : Text) (i : nat) : Z := Z.of_nat (code (default NUL (t !! i))).

(** The hash of a word of at least one byte. *)
Definition keywordHash (t : Text) : nat :=
  let n := length t in
  Z.to_nat (Z.land (u32 (Z.of_nat n * 131 + charCode t 0 * 31 + charCode t (n - 1) * 7 + charCode t (n / 2) * 3)) 255).

Abbreviation Slots := (list (option (Text * TokenKind))).

Definition nextSlot (h : nat) : nat := (h + 1) mod kKeywordSlots.

(** The first free slot from [h] on. [None]: there is none, and the loop does not end. *)
Fixpoint freeSlot (fuel : nat) (table : Slots) (h : nat) : option nat :=
  match fuel with
  | O => None
  | S fuel =>
      match table !! h with
      | Some None => Some h
      | Some (Some _) => freeSlot fuel table (nextSlot h)
      | None => None
      end
  end.

Definition addKeyword (table : Slots) (info : KeywordInfo) : option Slots :=
  h ← freeSlot kKeywordSlots table (keywordHash (kwText info));
  Some (<[h := Some (kwText info, kwKind info)]> table).

Fixpoint addKeywords (table : Slots) (infos : list KeywordInfo) : option Slots :=
  match infos with
  | [] => Some table
  | info :: infos => table ← addKeyword table info; addKeywords table infos
  end.

Definition keywordSlots : option Slots := addKeywords (replicate kKeywordSlots None) keywordTable.

Fixpoint probe (fuel : nat) (table : Slots) (t : Text) (h : nat) : option TokenKind :=
  match fuel with
  | O => None
  | S fuel =>
      match table !! h with
      | Some None => Some Identifier
      | Some (Some (t', k)) => if decide (t' = t) then Some k else probe fuel table t (nextSlot h)
      | None => None
      end
  end.

(** [None]: the probing does not end. *)
Definition classifyWord (t : Text) : option TokenKind :=
  if (length t <? 2) || (9 <? length t) then
    Some (if decide (t = ["_"%char]) then Underscore else Identifier)
  else table ← keywordSlots; probe kKeywordSlots table t (keywordHash t).

(** ** Angle brackets *)

Definition endsAngleHost (k : TokenKind) : bool :=
  match k with
  | Identifier | Integer | Real | String | RawString | MultiStr | FString
  | KwTrue | KwFalse | KwNull | RParen | RBracket | RBrace | Gt | Bang => true
  | _ => false
  end.

(** ** Strings inside of an interpolation *)

(** The body of a string from [j] on, up to the quote [c]. The result is the end behind it. *)
Fixpoint skipBody (fuel : nat) (s : Text) (n : nat) (c : ascii) (j : nat) : option nat :=
  match fuel with
  | O => None
  | S fuel =>
      if j <? n then
        if chr (at_ s n j) c then Some (j + 1)
        else if chr (at_ s n j) BSLASH && (j + 1 <? n) && (chr (at_ s n (j + 1)) c || chr (at_ s n (j + 1)) BSLASH)
        then skipBody fuel s n c (j + 2)
        else skipBody fuel s n c (j + 1)
      else None
  end.

Definition quoted (s : Text) (n i : nat) : option nat :=
  let c := at_ s n i in
  if (i + 2 <? n) && chr (at_ s n (i + 1)) c && chr (at_ s n (i + 2)) c then
    Some (match find [c; c; c] s n (i + 3) with Some k => k + 3 | None => i + 2 end)
  else skipBody (n - i) s n c (i + 1).

(** [skipFString] from the byte behind the backtick on, and [scanInterpolation] from the byte
    behind the brace on at a depth of braces. The outer [None] is a lack of fuel, [Some None]
    the [npos] and the [false] of the source; every call takes a unit of fuel and goes on at a
    later byte. *)
Fixpoint skipFString (fuel : nat) (s : Text) (n j : nat) : option (option nat) :=
  match fuel with
  | O => None
  | S fuel =>
      if j <? n then
        let c := at_ s n j in
        let d := at_ s n (j + 1) in
        if chr c TICK then Some (Some (j + 1))
        else if chr c BSLASH && (j + 1 <? n) then
          if (j + 2 <? n) && chr d "$" && chr (at_ s n (j + 2)) "{" then skipFString fuel s n (j + 3)
          else if chr d TICK || chr d BSLASH then skipFString fuel s n (j + 2)
          else skipFString fuel s n (j + 1)
        else if chr c "$" && (j + 1 <? n) && chr d "{" then
          close ← scanInterpolation fuel s n (j + 2) 0;
          match close with
          | None => Some None
          | Some close => skipFString fuel s n (close + 1)
          end
        else skipFString fuel s n (j + 1)
      else Some None
  end
with scanInterpolation (fuel : nat) (s : Text) (n j depth : nat) : option (option nat) :=
  match fuel with
  | O => None
  | S fuel =>
      if j <? n then
        let c := at_ s n j in
        let d := at_ s n (j + 1) in
        if chr c APOS || chr c QUOTE || chr c TICK then
          e ← (if chr c TICK then skipFString fuel s n (j + 1) else Some (quoted s n j));
          match e with
          | None => Some None
          | Some e => scanInterpolation fuel s n e depth
          end
        else if chr c "/" && (j + 1 <? n) && chr d "/" then
          scanInterpolation fuel s n (skipWhile (fun c => negb (chr c LF) && negb (chr c CR)) s n j) depth
        else if chr c "/" && (j + 1 <? n) && chr d "*" then
          match find (T "*/") s n (j + 2) with
          | None => Some None
          | Some k => scanInterpolation fuel s n (k + 2) depth
          end
        else if chr c "{" then scanInterpolation fuel s n (j + 1) (depth + 1)
        else if chr c "}" then
          match depth with
          | O => Some (Some j)
          | S depth => scanInterpolation fuel s n (j + 1) depth
          end
        else scanInterpolation fuel s n (j + 1) depth
      else Some None
  end.

(** [skipQuoted]. *)
Definition skipQuoted (s : Text) (n i : nat) : option (option nat) :=
  if chr (at_ s n i) TICK then skipFString (S n - i) s n (i + 1) else Some (quoted s n i).
