(* ===== verification/Lexer.v ===== *)
(** * The lexer

    [Lexer::tokenizeImpl] of src/src/parse/syntax/lexer.cpp: one pass over a range of a text, a
    case per class of the byte in hand. [Lex] is the state the pass threads: the buffer it fills
    (tokens, errors, interpolations, line table), what separates the next token from the last one
    ([pending]), and the kind of the last token that is not trivia ([previous]). *)

From Stdlib Require Import Ascii String.
From stdpp Require Import strings.
From S2P Require Import Prelude Tokens LexScan.
#[local] Open Scope nat_scope.

Record Lex := mkLex {
  toks : list Token; errs : list LexError; parts : list FStringInterpolation; lines : list nat;
  pending : Z; previous : TokenKind }.

(** ** What the cases do to the state *)

Definition emit (k : TokenKind) (b e : nat) (l : Lex) : Lex :=
  mkLex (toks l ++ [mkToken (off b) (off e) k (pending l)]) (errs l) (parts l) (lines l) 0 k.

Definition emitTrivia (k : TokenKind) (b e : nat) (spansLines : bool) (l : Lex) : Lex :=
  let p := Z.lor (pending l) SpaceBefore in
  mkLex (toks l ++ [mkToken (off b) (off e) k (pending l)]) (errs l) (parts l) (lines l)
    (if spansLines then Z.lor p NewlineBefore else p) (previous l).

Definition addError (k : LexErrorKind) (b e : nat) (l : Lex) : Lex :=
  mkLex (toks l) (errs l ++ [mkError k (off b) (off e)]) (parts l) (lines l) (pending l) (previous l).

Definition setLines (ls : list nat) (l : Lex) : Lex :=
  mkLex (toks l) (errs l) (parts l) ls (pending l) (previous l).

Definition separate (flag : Z) (l : Lex) : Lex :=
  mkLex (toks l) (errs l) (parts l) (lines l) (Z.lor (pending l) flag) (previous l).

(** The lines that start behind a line feed in a range. *)
Definition lineStartsIn (s : Text) (b e : nat) : list nat :=
  (fun k => off (k + 1)) <$> filter (fun k => s !! k = Some LF) (seq b (e - b)).

Definition noteLines (s : Text) (b e : nat) (l : Lex) : Lex := setLines (lines l ++ lineStartsIn s b e) l.
Definition spansLines (s : Text) (b e : nat) : bool := match lineStartsIn s b e with [] => false | _ => true end.

(** ** Numbers *)

Definition skipDigits (s : Text) (n j : nat) : nat := skipWhile isDigit s n j.

Definition isExponent (c : ascii) : bool := chr c "e" || chr c "E".
Definition isSign (c : ascii) : bool := chr c "+" || chr c "-".

(** [[eE][+-]?[0-9]+] at [j], or nothing. *)
Definition exponentEnd (s : Text) (n j : nat) : nat :=
  if isExponent (at_ s n j) then
    let k := (if isSign (at_ s n (j + 1)) then j + 2 else j + 1) in
    if isDigit (at_ s n k) then skipDigits s n k else j
  else j.

(** The suffix of an imaginary literal. *)
Definition isImaginary (s : Text) (n k : nat) : bool := chr (at_ s n k) "i" && negb (isIdentPart (at_ s n (k + 1))).

(** The digits of an integer: their end, and whether they are none. *)
Definition integerDigits (s : Text) (n i : nat) : nat * bool :=
  let c := at_ s n i in
  let d := at_ s n (i + 1) in
  let j := skipDigits s n (i + 1) in
  if chr c "0" then
    if chr d "x" then
      let e := skipWhile isHexDigit s n (i + 2) in
      if e =? i + 2 then (e, true)
      else if isExponent (at_ s n (e - 1)) && (i + 2 <? e - 1) && isSign (at_ s n e) && isDigit (at_ s n (e + 1))
      then (e - 1, false) else (e, false)
    else if chr d "b" then
      let e := skipWhile (between "0" "1") s n (i + 2) in
      if (e =? i + 2) || isDigit (at_ s n e) then (skipDigits s n e, true) else (e, false)
    else if chr d "o" then
      let e := skipWhile (between "0" "7") s n (i + 2) in
      if (e =? i + 2) || chr (at_ s n e) "8" || chr (at_ s n e) "9" then (skipDigits s n e, true) else (e, false)
    else if isDigit d then
      let e := exponentEnd s n j in
      (if isImaginary s n e then e + 1 else e, true)
    else (i + 1, false)
  else (j, false).

Inductive Number := NumToken (k : TokenKind) (e : nat) | NumRefused (e : nat).

Definition lexNumber (s : Text) (n i : nat) : Number :=
  let c := at_ s n i in
  let j := skipDigits s n (i + 1) in
  if chr (at_ s n j) "." && isDigit (at_ s n (j + 1)) then
    let k := exponentEnd s n (skipDigits s n (j + 2)) in
    if chr c "0" && isDigit (at_ s n (i + 1)) then NumRefused (if isImaginary s n k then k + 1 else k)
    else if isImaginary s n k then NumToken Imaginary (k + 1) else NumToken Real k
  else
    let (digitsEnd, invalid) := integerDigits s n i in
    if invalid then
      NumRefused (if digitsEnd =? i + 2 then skipWhile isIdentPart s n digitsEnd else digitsEnd)
    else
      let e := exponentEnd s n digitsEnd in
      let decimal := negb (chr c "0") || (digitsEnd =? i + 1) in
      if decimal && isImaginary s n e then NumToken Imaginary (e + 1)
      else NumToken (if (digitsEnd <? e) && decimal then Real else Integer) e.

(** ** Punctuation *)

(** The kind and the length of the operator or separator that starts with [c], [c1], [c2]; [host]
    says that a lone [<] opens an argument list. Comments are not among them. *)
Definition punct (c c1 c2 : ascii) (host : bool) : TokenKind * nat :=
  let two d k k1 := if chr c1 d then (k, 2) else k1 in
  if chr c ";" then (Semi, 1)
  else if chr c "," then (Comma, 1)
  else if chr c "(" then (LParen, 1)
  else if chr c ")" then (RParen, 1)
  else if chr c "[" then (LBracket, 1)
  else if chr c "]" then (RBracket, 1)
  else if chr c "{" then (LBrace, 1)
  else if chr c "}" then (RBrace, 1)
  else if chr c "~" then (Tilde, 1)
  else if chr c ":" then two ":"%char ColonColon (Colon, 1)
  else if chr c "." then
    if chr c1 "." && chr c2 "." then (Ellipsis, 3) else two "."%char DotDot (Dot, 1)
  else if chr c "=" then
    if chr c1 "=" && chr c2 "=" then (EqEqEq, 3) else two "="%char EqEq (two ">"%char FatArrow (Assign, 1))
  else if chr c "<" then
    if chr c1 "=" && chr c2 ">" then (Equiv, 3) else two "="%char LtEq (if host then LAngle else Lt, 1)
  else if chr c ">" then two "="%char GtEq (Gt, 1)
  else if chr c "+" then two "="%char PlusAssign (Plus, 1)
  else if chr c "-" then two "="%char MinusAssign (two ">"%char Arrow (Minus, 1))
  else if chr c "*" then two "="%char StarAssign (Star, 1)
  else if chr c "/" then two "="%char SlashAssign (Slash, 1)
  else if chr c "%" then two "="%char PercentAssign (Percent, 1)
  else if chr c "^" then two "="%char CaretAssign (Caret, 1)
  else if chr c "@" then two "="%char AtAssign (At, 1)
  else if chr c "&" then two "&"%char AmpAmp (two "="%char AmpAssign (Amp, 1))
  else if chr c "|" then two "|"%char PipePipe (two "="%char PipeAssign (Pipe, 1))
  else if chr c "!" then
    if chr c1 "=" && chr c2 "=" then (NotEqEq, 3) else two "="%char NotEq (two "!"%char BangBang (Bang, 1))
  else if chr c "?" then two "?"%char QuestionQuestion (Question, 1)
  else (Error, 1).

(** ** Strings *)

(** The body of a string from [j] on: whether it is closed, where the scan stopped, and the lines
    it passed. *)
Fixpoint lexBody (fuel : nat) (s : Text) (n : nat) (c : ascii) (j : nat) (ls : list nat) : bool * nat * list nat :=
  match fuel with
  | O => (false, j, ls)
  | S fuel =>
      if j <? n then
        let d := at_ s n j in
        let e := at_ s n (j + 1) in
        if chr d c then (true, j + 1, ls)
        else if chr d BSLASH && (j + 1 <? n) && (chr e c || chr e BSLASH) then lexBody fuel s n c (j + 2) ls
        else lexBody fuel s n c (j + 1) (if chr d LF then ls ++ [off (j + 1)] else ls)
      else (false, j, ls)
  end.

(** The number of [#] at [k], at most [hashes]. *)
Fixpoint countHashes (hashes : nat) (s : Text) (n k : nat) : nat :=
  match hashes with
  | O => 0
  | S hashes => if (k <? n) && chr (at_ s n k) "#" then S (countHashes hashes s n (k + 1)) else 0
  end.

(** The same for a raw string, which ends at a quote with [hashes] times [#]. *)
Fixpoint lexRaw (fuel : nat) (s : Text) (n hashes j : nat) (ls : list nat) : bool * nat * list nat :=
  match fuel with
  | O => (false, j, ls)
  | S fuel =>
      if j <? n then
        let ls := (if chr (at_ s n j) LF then ls ++ [off (j + 1)] else ls) in
        if chr (at_ s n j) QUOTE && (countHashes hashes s n (j + 1) =? hashes) then (true, j + 1 + hashes, ls)
        else lexRaw fuel s n hashes (j + 1) ls
      else (false, j, ls)
  end.

(** The body of a formatted string from [j] on, with the interpolations found. [None]: a lack of
    fuel. *)
Fixpoint lexFString (fuel : nat) (s : Text) (n j : nat) (ps : list FStringInterpolation)
    : option (bool * nat * list FStringInterpolation) :=
  match fuel with
  | O => None
  | S fuel =>
      if j <? n then
        let c := at_ s n j in
        let d := at_ s n (j + 1) in
        if chr c TICK then Some (true, j + 1, ps)
        else if chr c BSLASH && (j + 1 <? n) then
          if (j + 2 <? n) && chr d "$" && chr (at_ s n (j + 2)) "{" then lexFString fuel s n (j + 3) ps
          else if chr d TICK then lexFString fuel s n (j + 2) ps
          else if chr d BSLASH then lexFString fuel s n (j + 2) ps
          else lexFString fuel s n (j + 1) ps
        else if chr c "$" && (j + 1 <? n) && chr d "{" then
          close ← scanInterpolation (S n - j) s n (j + 2) 0;
          match close with
          | None => Some (false, j, ps)
          | Some close =>
              lexFString fuel s n (close + 1) (ps ++ [mkPart 0 (off j) (off (j + 2)) 0 0 0 (off close) false])
          end
        else lexFString fuel s n (j + 1) ps
      else Some (false, j, ps)
  end.

(** ** Splitting an interpolation *)

Definition pops (k : TokenKind) (open : list TokenKind) : list TokenKind :=
  match k with
  | RParen | RBracket | RBrace => tail open
  | Gt => match open with LAngle :: open => open | _ => open end
  | LParen | LBracket | LBrace | LAngle => k :: open
  | _ => open
  end.

(** The first [:] outside of every bracket; [open] is the stack of brackets, its top first. *)
Fixpoint splitColon (ts : list Token) (open : list TokenKind) : option Token :=
  match ts with
  | [] => None
  | t :: ts =>
      if decide (kind t = Eof) then None
      else if decide (kind t = Colon) then match open with [] => Some t | _ => splitColon ts open end
      else splitColon ts (pops (kind t) open)
  end.

Definition splitInterpolation (sub : list Token) (p : FStringInterpolation) : FStringInterpolation :=
  match splitColon sub [] with
  | Some t => mkPart (token p) (open_ p) (exprBegin p) (begin t) (end_ t) (close p) (close p) true
  | None => mkPart (token p) (open_ p) (exprBegin p) (close p) (close p) (close p) (close p) (hasSpec p)
  end.

(** ** The pass *)

Section pass.
(** The tokens of a part of the text, for the interpolations in it. *)
Context (sub : nat -> nat -> option (list Token)) (s : Text) (n : nat).
#[local] Abbreviation at_ := (at_ s n).

Definition splitPart (tok : nat) (p : FStringInterpolation) : option FStringInterpolation :=
  ts ← sub (exprBegin p) (close p);
  Some (splitInterpolation ts (mkPart tok (open_ p) (exprBegin p) 0 0 0 (close p) false)).

(** A string no quote closes: an error up to the end of its line. [b] is where it begins, [q] where
    the error begins. *)
Definition unclosed (b q : nat) (l : Lex) : Lex * nat :=
  let e := lineEnd s n b in (emitTrivia Error b e false (addError UnclosedString q e l), e).

Definition lexIdent (l : Lex) (i : nat) : option (Lex * nat) :=
  let c := at_ i in
  let hashes := skipWhile (fun d => chr d "#") s n (i + 1) - (i + 1) in
  if chr c "r" && chr (at_ (i + 1 + hashes)) QUOTE then
    let open := i + 1 + hashes in
    match lexRaw (n - open) s n hashes (open + 1) (lines l) with
    | (true, j, ls) => Some (emit RawString i j (setLines ls l), j)
    | (false, _, _) => Some (unclosed i open l)
    end
  else
    let j := skipWhile isIdentPart s n (i + 1) in
    k ← classifyWord (slice s i j);
    Some (emit k i j l, j).

Definition lexDigit (l : Lex) (i : nat) : Lex * nat :=
  match lexNumber s n i with
  | NumToken k e => (emit k i e l, e)
  | NumRefused e => (emitTrivia Error i e false (addError InvalidNumber i e l), e)
  end.

Definition lexQuote (l : Lex) (i : nat) : option (Lex * nat) :=
  let c := at_ i in
  let triple := negb (chr c TICK) && chr (at_ (i + 1)) c && chr (at_ (i + 2)) c in
  match (if triple then find [c; c; c] s n (i + 3) else None) with
  | Some k => Some (emit MultiStr i (k + 3) (noteLines s i (k + 3) l), k + 3)
  | None =>
      if chr c TICK then
        r ← lexFString (n - i) s n (i + 1) [];
        match r with
        | (true, j, ps) =>
            ps ← mapM (splitPart (off (length (toks l)))) ps;
            let l := noteLines s i j l in
            Some (emit FString i j (mkLex (toks l) (errs l) (parts l ++ ps) (lines l) (pending l) (previous l)), j)
        | (false, _, _) => Some (unclosed i i l)
        end
      else
        match lexBody (n - i) s n c (i + 1) (lines l) with
        | (true, j, ls) => Some (emit String i j (setLines ls l), j)
        | (false, _, _) => Some (unclosed i i l)
        end
  end.

Definition lexHash (l : Lex) (i : nat) : Lex * nat :=
  if (i =? 0) && chr (at_ 1) "!" then
    let j := skipWhile (fun c => negb (chr c LF) && negb (chr c CR) && negb (chr c FF)) s n (i + 1) in
    (emitTrivia Command i j false l, j)
  else (emit Hash i (i + 1) l, i + 1).

Definition lexPunct (l : Lex) (i : nat) : Lex * nat :=
  let c := at_ i in let c1 := at_ (i + 1) in let c2 := at_ (i + 2) in
  if chr c "/" && chr c1 "/" then
    let j := skipWhile (fun c => negb (chr c LF) && negb (chr c CR)) s n (i + 2) in
    let doc := chr (at_ (i + 2)) "/" && negb (chr (at_ (i + 3)) "/") in
    (emitTrivia (if doc then DocComment else LineComment) i j false l, j)
  else if chr c "/" && chr c1 "*" then
    match find (T "*/") s n (i + 2) with
    | None =>
        (emitTrivia Error i n (spansLines s i n) (noteLines s i n (addError UnterminatedComment i n l)), n)
    | Some k => (emitTrivia BlockComment i (k + 2) (spansLines s i (k + 2)) (noteLines s i (k + 2) l), k + 2)
    end
  else
    let (k, len) := punct c c1 c2 ((pending l =? 0)%Z && endsAngleHost (previous l)) in
    (emit k i (i + len) l, i + len).

Definition lexIllegal (l : Lex) (i : nat) : Lex * nat :=
  let j := skipWhile (isClass kIllegal) s n i in
  (emitTrivia Error i j false (addError IllegalCharacter i j l), j).

(** A turn of the loop at [i]. *)
Definition lexStep (l : Lex) (i : nat) : option (Lex * nat) :=
  match kCharClass (at_ i) with
  | kBlank => Some (separate SpaceBefore l, i + 1)
  | kNewline => Some (separate (Z.lor SpaceBefore NewlineBefore) (setLines (lines l ++ [off (i + 1)]) l), i + 1)
  | kIdentStart => lexIdent l i
  | kDigit => Some (lexDigit l i)
  | kQuote => lexQuote l i
  | kHash => Some (lexHash l i)
  | kPunct => Some (lexPunct l i)
  | kIllegal => Some (lexIllegal l i)
  end.

Fixpoint lexLoop (fuel : nat) (l : Lex) (i : nat) : option Lex :=
  if i <? n then
    match fuel with
    | O => None
    | S fuel => r ← lexStep l i; lexLoop fuel (r : Lex * nat).1 r.2
    end
  else Some l.
End pass.

(** The tokens of [source[from .. to)], in a buffer of the whole source. [depth] bounds the nesting
    of formatted strings. *)
Fixpoint tokenizeImpl (depth : nat) (source : Text) (from to : nat) : option TokenBuffer :=
  match depth with
  | O => None
  | S depth =>
      let full := length source in
      let sub b e := tokens_ <$> tokenizeImpl depth source (min b full) (min e full) in
      l ← lexLoop sub source to (to - from) (mkLex [] [] [] (0 :: lineStartsIn source 0 from) 0 Eof) from;
      Some (mkBuffer source (toks l ++ [mkToken (off to) (off to) Eof (pending l)]) (errs l) (parts l)
              (lines l ++ lineStartsIn source to full))
  end.

Definition tokenize (source : Text) : option TokenBuffer :=
  tokenizeImpl (S (length source)) source 0 (length source).

Definition tokenizeRange (source : Text) (b e : nat) : option TokenBuffer :=
  tokenizeImpl (S (length source)) source (min b (length source)) (min e (length source)).
