(* ===== verification/LexScanFacts.v ===== *)
(** * What the scanners of the lexer find

    Bounds and results of the scanners of LexScan.v and Lexer.v: how far a loop moves, that a
    number or a name holds no line feed, and that the scanners of strings end. *)

From Stdlib Require Import Ascii String.
From stdpp Require Import strings.
From S2P Require Import Prelude Tokens LexScan Lexer.
#[local] Open Scope nat_scope.

Lemma chr_true c d : chr c d = true <-> c = d.
Proof. apply bool_decide_eq_true. Qed.

Lemma chr_refl c : chr c c = true.
Proof. by apply chr_true. Qed.

(** Turns equations on [chr] into equations, and splits conjunctions of tests. *)
Ltac chars := repeat match goal with
  | H : chr _ _ = true |- _ => apply chr_true in H
  | H : _ && _ = true |- _ => apply andb_true_iff in H; destruct H
  | H : (_ <? _) = true |- _ => apply Nat.ltb_lt in H
  | H : (_ <? _) = false |- _ => apply Nat.ltb_ge in H
  | H : (_ =? _) = true |- _ => apply Nat.eqb_eq in H
  | H : (_ =? _) = false |- _ => apply Nat.eqb_neq in H
  end.

Section range.
Context (s : Text) (n : nat).
#[local] Abbreviation at_ := (at_ s n).

Lemma at_lt i : at_ i <> NUL -> i < n.
Proof. unfold LexScan.at_. destruct (Nat.ltb_spec i n); done. Qed.

Lemma at_eq i c : at_ i = c -> c <> NUL -> i < n.
Proof. intros <-. apply at_lt. Qed.

Lemma at_class i p : p (at_ i) = true -> p NUL = false -> i < n.
Proof. intros Hp H0. apply at_lt. intros E. congruence. Qed.

Lemma at_lookup i c : n <= length s -> i < n -> s !! i = Some c <-> at_ i = c.
Proof.
  intros Hn Hi. unfold LexScan.at_. destruct (Nat.ltb_spec i n); [|lia].
  destruct (lookup_lt_is_Some_2 s i) as [d ->]; [lia|]. simpl. naive_solver.
Qed.

(** ** Loops that move a position *)

Lemma skipFor_spec fuel p j : j <= n -> n - j <= fuel ->
  let r := skipFor fuel p s n j in
  j <= r <= n /\ (forall k, j <= k < r -> p (at_ k) = true) /\ (r < n -> p (at_ r) = false).
Proof.
  revert j. induction fuel as [|fuel IH]; intros j Hj Hf; simpl; [split_and!; lia|].
  destruct (Nat.ltb_spec j n); simpl; [|split_and!; lia].
  destruct (p (at_ j)) eqn:Hp; [|split_and!; [lia..|done]].
  destruct (IH (j + 1)) as (Hb & Hall & He); [lia..|]. split_and!; [lia..| |done].
  intros k Hk. destruct (decide (k = j)) as [->|]; [done|]. apply Hall. lia.
Qed.

Lemma skipWhile_spec p j : j <= n ->
  j <= skipWhile p s n j <= n /\ (forall k, j <= k < skipWhile p s n j -> p (at_ k) = true) /\
  (skipWhile p s n j < n -> p (at_ (skipWhile p s n j)) = false).
Proof. intros Hj. by apply skipFor_spec. Qed.

Lemma isAt_spec pat j : isAt pat s n j = true <-> forall k c, pat !! k = Some c -> j + k < n /\ at_ (j + k) = c.
Proof.
  revert j. induction pat as [|c pat IH]; intros j; simpl.
  - split; [|done]. by intros _ k c.
  - rewrite !andb_true_iff, Nat.ltb_lt, chr_true, IH. split.
    + intros [[Hj Hc] Hr] [|k] d; simpl; [intros [= <-]; by rewrite Nat.add_0_r|].
      intros Hk. replace (j + S k) with (j + 1 + k) by lia. by apply Hr.
    + intros Hall. destruct (Hall 0 c eq_refl) as [H0 Hc]. rewrite Nat.add_0_r in *. split_and!; [done..|].
      intros k d Hk. replace (j + 1 + k) with (j + S k) by lia. by apply Hall.
Qed.

Lemma isAt_fits pat j : isAt pat s n j = true -> pat <> [] -> j + length pat <= n.
Proof.
  intros Ha Hne. destruct (lookup_lt_is_Some_2 pat (length pat - 1)) as [c Hc].
  { destruct pat; [done|]. simpl. lia. }
  pose proof (proj1 (isAt_spec pat j) Ha _ _ Hc). destruct pat; [done|]. simpl in *. lia.
Qed.

Lemma findFor_Some fuel pat j k : findFor fuel pat s n j = Some k ->
  j <= k /\ isAt pat s n k = true /\ forall m, j <= m < k -> isAt pat s n m = false.
Proof.
  revert j. induction fuel as [|fuel IH]; intros j; simpl.
  - destruct (isAt pat s n j) eqn:E; [|done]. intros [= <-]. split_and!; [lia|done|lia].
  - destruct (isAt pat s n j) eqn:E; [intros [= <-]; split_and!; [lia|done|lia]|].
    intros H. destruct (IH _ H) as (Hj & Hk & Hm). split_and!; [lia|done|].
    intros m Hmk. destruct (decide (m = j)) as [->|]; [done|]. apply Hm. lia.
Qed.

Lemma find_Some pat j k : find pat s n j = Some k -> pat <> [] ->
  j <= k /\ k + length pat <= n /\ isAt pat s n k = true.
Proof.
  intros Hf Hne. destruct (findFor_Some _ _ _ _ Hf) as (Hj & Hk & _). split_and!; [done| |done].
  by apply isAt_fits.
Qed.

(** ** Strings *)

Lemma skipBody_Some fuel c j e : skipBody fuel s n c j = Some e -> j < e <= n.
Proof.
  revert j. induction fuel as [|fuel IH]; intros j; simpl; [done|].
  destruct (Nat.ltb_spec j n); [|done]. destruct (chr (at_ j) c); [intros [= <-]; lia|].
  destruct (_ && _ && _) eqn:E; intros Hs; apply IH in Hs; lia.
Qed.

Lemma quoted_Some i e : quoted s n i = Some e -> i < e <= n.
Proof.
  unfold quoted. destruct (_ && _ && _) eqn:E.
  - chars. intros [= <-]. destruct (find _ s n (i + 3)) as [k|] eqn:Hf; [|lia].
    apply find_Some in Hf as (? & ? & _); [|done]. simpl in *. lia.
  - intros Hs. apply skipBody_Some in Hs. lia.
Qed.

(** Enough fuel, and where the scanners of formatted strings and interpolations stop. *)
Lemma skip_spec fuel :
  (forall j, j <= n < j + fuel -> exists r, skipFString fuel s n j = Some r /\
     forall e, r = Some e -> j < e <= n) /\
  (forall j depth, j <= n < j + fuel -> exists r, scanInterpolation fuel s n j depth = Some r /\
     forall e, r = Some e -> j <= e < n /\ at_ e = "}"%char).
Proof.
  induction fuel as [|fuel [IHs IHi]]; [split; lia|]. split.
  - intros j Hj. simpl. destruct (Nat.ltb_spec j n); [|by exists None].
    assert (Hgo : forall j', j < j' <= n -> exists r, skipFString fuel s n j' = Some r /\ forall e, r = Some e -> j < e <= n).
    { intros j' Hj'. destruct (IHs j') as (r & Hr & He); [lia|]. exists r. split; [done|].
      intros e Ee. specialize (He e Ee). lia. }
    destruct (chr (at_ j) TICK); [eexists; split; [done|intros e [= <-]; lia]|].
    destruct (chr (at_ j) BSLASH && (j + 1 <? n)) eqn:E1; chars.
    { destruct ((j + 2 <? n) && _ && _) eqn:E2; chars; [apply Hgo; lia|].
      destruct (_ || _); apply Hgo; lia. }
    destruct (chr (at_ j) "$" && (j + 1 <? n) && _) eqn:E2; chars; [|apply Hgo; lia].
    destruct (IHi (j + 2) 0) as (r & -> & Hr); [lia|]. simpl.
    destruct r as [close|]; [|by exists None]. destruct (Hr close eq_refl). apply Hgo. lia.
  - intros j depth Hj. simpl. destruct (Nat.ltb_spec j n); [|by exists None].
    assert (Hgo : forall j' d, j < j' <= n -> exists r, scanInterpolation fuel s n j' d = Some r /\
      forall e, r = Some e -> j <= e < n /\ at_ e = "}"%char).
    { intros j' d Hj'. destruct (IHi j' d) as (r & Hr & He); [lia|]. exists r. split; [done|].
      intros e Ee. destruct (He e Ee). split; [lia|done]. }
    destruct (_ || _ || _) eqn:Eq.
    { assert (Hq : exists r, (if chr (at_ j) TICK then skipFString fuel s n (j + 1) else Some (quoted s n j)) = Some r /\
        forall e, r = Some e -> j < e <= n).
      { destruct (chr (at_ j) TICK).
        - destruct (IHs (j + 1)) as (r & Hr & He); [lia|]. exists r. split; [done|].
          intros e Ee. specialize (He e Ee). lia.
        - eexists. split; [done|]. intros e Ee. by apply quoted_Some. }
      destruct Hq as (r & -> & Hr). simpl. destruct r as [e|]; [|by exists None]. by apply Hgo, Hr. }
    destruct (chr (at_ j) "/" && (j + 1 <? n) && chr (at_ (j + 1)) "/") eqn:E1; chars.
    { destruct (skipWhile_spec (fun c => negb (chr c LF) && negb (chr c CR)) j) as (Hb & _ & Hstop); [lia|].
      apply Hgo. split; [|lia]. destruct (decide (skipWhile (fun c => negb (chr c LF) && negb (chr c CR)) s n j = j)) as [E0|]; [|lia].
      rewrite E0 in Hstop. specialize (Hstop ltac:(lia)).
      match goal with H : at_ j = _ |- _ => rewrite H in Hstop end. done. }
    destruct (chr (at_ j) "/" && (j + 1 <? n) && chr (at_ (j + 1)) "*") eqn:E2; chars.
    { destruct (find _ s n (j + 2)) as [k|] eqn:Hf; [|by exists None].
      apply find_Some in Hf as (? & Hk & _); [|done]. simpl in Hk. apply Hgo. lia. }
    destruct (chr (at_ j) "{"); [apply Hgo; lia|].
    destruct (chr (at_ j) "}") eqn:E3; chars; [|apply Hgo; lia].
    destruct depth as [|depth]; [|apply Hgo; lia]. eexists. split; [done|]. intros e [= <-]. split; [lia|done].
Qed.

Lemma scanInterpolation_spec j : j + 2 <= n -> exists r, scanInterpolation (S n - j) s n (j + 2) 0 = Some r /\
  forall e, r = Some e -> j + 2 <= e < n /\ at_ e = "}"%char.
Proof. intros Hj. apply skip_spec. lia. Qed.
End range.

(** * The keyword table

    Probing the open-addressing table of [classifyWord] ends and finds what a search of the list
    of keywords finds. *)

(** The kind of a word by the list of keywords. *)
Definition wordKind (t : Text) : TokenKind :=
  if decide (t = ["_"%char]) then Underscore
  else match list_find (fun i => kwText i = t) keywordTable with Some (_, i) => kwKind i | None => Identifier end.

(** The table the program builds, computed once. *)
Definition slots : Slots := Eval vm_compute in default [] keywordSlots.

Lemma keywordSlots_built : keywordSlots = Some slots.
Proof. vm_compute. reflexivity. Qed.

(** The distance from [h] to the next free slot is below [fuel]. *)
Fixpoint freeWithin (fuel : nat) (table : Slots) (h : nat) : bool :=
  match fuel with
  | O => false
  | S fuel => match table !! h with Some None => true | Some (Some _) => freeWithin fuel table (nextSlot h) | None => false end
  end.

Lemma slots_free h : h < kKeywordSlots -> freeWithin kKeywordSlots slots h = true.
Proof.
  intros Hh. assert (Hall : forallb (freeWithin kKeywordSlots slots) (seq 0 kKeywordSlots) = true) by (vm_compute; reflexivity).
  rewrite forallb_forall in Hall. apply Hall, list_elem_of_In, elem_of_seq. lia.
Qed.

(** Every word of the table is a keyword. *)
Lemma slots_keywords h t k : slots !! h = Some (Some (t, k)) -> t ∈ kwText <$> keywordTable.
Proof.
  intros Hh.
  assert (Hall : forallb (fun e => match e with Some (t, _) => bool_decide (t ∈ kwText <$> keywordTable) | None => true end) slots = true)
    by (vm_compute; reflexivity).
  rewrite forallb_forall in Hall.
  specialize (Hall (Some (t, k))). apply bool_decide_eq_true in Hall; [done|].
  apply list_elem_of_In. by eapply list_elem_of_lookup_2.
Qed.

Lemma probe_other fuel t h : t ∉ kwText <$> keywordTable -> freeWithin fuel slots h = true ->
  probe fuel slots t h = Some Identifier.
Proof.
  intros Ht. revert h. induction fuel as [|fuel IH]; intros h; simpl; [done|].
  destruct (slots !! h) as [[[t' k]|]|] eqn:Hh; try done. intros Hf.
  rewrite decide_False; [by apply IH|]. intros ->. by eapply Ht, slots_keywords.
Qed.

(** Each keyword is found at its own place. *)
Lemma probe_keyword t : t ∈ kwText <$> keywordTable -> 2 <= length t <= 9 /\
  probe kKeywordSlots slots t (keywordHash t) = Some (wordKind t).
Proof.
  intros Ht.
  assert (Hall : forallb (fun t => (2 <=? length t) && (length t <=? 9) &&
      bool_decide (probe kKeywordSlots slots t (keywordHash t) = Some (wordKind t)))
    (kwText <$> keywordTable) = true) by (vm_compute; reflexivity).
  rewrite forallb_forall in Hall. specialize (Hall t (proj1 (list_elem_of_In _ _) Ht)).
  apply andb_true_iff in Hall as [[H2%Nat.leb_le H9%Nat.leb_le]%andb_true_iff Hp%bool_decide_eq_true]. done.
Qed.

Lemma keywordHash_bound t : keywordHash t < kKeywordSlots.
Proof.
  unfold keywordHash, kKeywordSlots. change 255%Z with (Z.ones 8). rewrite Z.land_ones by lia.
  pose proof (Z.mod_pos_bound (u32 (Z.of_nat (length t) * 131 + charCode t 0 * 31 +
    charCode t (length t - 1) * 7 + charCode t (length t / 2) * 3)) (2 ^ 8)). lia.
Qed.

Lemma wordKind_other t : t ∉ kwText <$> keywordTable -> t <> ["_"%char] -> wordKind t = Identifier.
Proof.
  intros Ht Hu. unfold wordKind. rewrite decide_False by done.
  destruct (list_find _ _) as [[i w]|] eqn:E; [|done]. apply list_find_Some in E as (Hw & <- & _).
  destruct Ht. apply list_elem_of_fmap_2. by eapply list_elem_of_lookup_2.
Qed.

Lemma classifyWord_spec t : classifyWord t = Some (wordKind t).
Proof.
  unfold classifyWord. rewrite keywordSlots_built. cbn [mbind option_bind].
  destruct (decide (t ∈ kwText <$> keywordTable)) as [Ht|Ht].
  - destruct (probe_keyword t Ht) as [[H2 H9] Hp]. rewrite Hp.
    destruct (Nat.ltb_spec (length t) 2); [lia|]. by destruct (Nat.ltb_spec 9 (length t)); [lia|].
  - destruct (decide (t = ["_"%char])) as [->|Hu]; [done|]. rewrite (wordKind_other t) by done.
    destruct (_ || _); [done|]. apply probe_other; [done|]. apply slots_free, keywordHash_bound.
Qed.
