(* ===== verification/LexStep.v ===== *)
(** * A turn of the lexer

    What a turn of the loop does, case by case: it passes a byte of white space, or appends a
    token that starts where it is, and notes the lines of the bytes it passes. [turn] is this
    specification; every turn meets it. *)

From Stdlib Require Import Ascii String.
From stdpp Require Import strings.
From S2P Require Import Prelude Tokens LexScan Lexer LexScanFacts.
#[local] Open Scope nat_scope.

(** An offset within a text of less than 4 GiB fits 32 bits. *)
Lemma off_id (s : Text) k : (Z.of_nat (length s) < 2 ^ 32)%Z -> k <= length s -> off k = k.
Proof. intros Hfit Hk. unfold off. rewrite wrapu_small by lia. apply Nat2Z.id. Qed.

(** ** Lines *)

Lemma lineStartsIn_app s a b c : a <= b -> b <= c -> lineStartsIn s a c = lineStartsIn s a b ++ lineStartsIn s b c.
Proof.
  intros Hab Hbc. unfold lineStartsIn. replace (c - a) with ((b - a) + (c - b)) by lia.
  rewrite seq_app, filter_app, fmap_app. by replace (a + (b - a)) with b by lia.
Qed.

Lemma lineStartsIn_one s a : lineStartsIn s a (a + 1) = if decide (s !! a = Some LF) then [off (a + 1)] else [].
Proof. unfold lineStartsIn. replace (a + 1 - a) with 1 by lia. simpl. rewrite filter_cons. by case_decide. Qed.

Lemma lineStartsIn_nil s a b : (forall k, a <= k < b -> s !! k <> Some LF) -> lineStartsIn s a b = [].
Proof.
  intros Hn. unfold lineStartsIn. destruct (filter _ _) as [|x l] eqn:E; [done|]. exfalso.
  assert (Hx : x ∈ x :: l) by left. rewrite <- E, list_elem_of_filter, elem_of_seq in Hx.
  destruct Hx as [Hx Hb]. apply (Hn x); [lia|done].
Qed.

Lemma spansLines_spec s a b : spansLines s a b = true <-> exists k, a <= k < b /\ s !! k = Some LF.
Proof.
  unfold spansLines. split.
  - unfold lineStartsIn. destruct (filter _ _) as [|x l] eqn:E; [done|]. intros _. exists x.
    assert (Hx : x ∈ x :: l) by left. rewrite <- E, list_elem_of_filter, elem_of_seq in Hx.
    destruct Hx. split; [lia|done].
  - intros (k & Hk & Hlf). rewrite (lineStartsIn_app s a k b), (lineStartsIn_app s k (k + 1) b), lineStartsIn_one by lia.
    rewrite decide_True by done. by destruct (lineStartsIn s a k).
Qed.

Section turns.
Context (s : Text) (n : nat).
#[local] Abbreviation at_ := (at_ s n).

(** ** Ranges without a line feed *)

Definition plain (a b : nat) : Prop := a <= b <= n /\ forall k, a <= k < b -> at_ k <> LF.

Lemma plain_nil a : a <= n -> plain a a.
Proof. intros. split; lia. Qed.

Lemma plain_app a b c : plain a b -> plain b c -> plain a c.
Proof.
  intros [Hab Ha] [Hbc Hb]. split; [lia|]. intros k Hk. destruct (decide (k < b)); [apply Ha|apply Hb]; lia.
Qed.

Lemma plain_one a : a < n -> at_ a <> LF -> plain a (a + 1).
Proof. intros Ha Hl. split; [lia|]. intros k Hk. by replace k with a by lia. Qed.

Lemma plain_char a c : at_ a = c -> c <> NUL -> c <> LF -> plain a (a + 1).
Proof. intros E H0 Hl. apply plain_one; [by eapply at_eq|congruence]. Qed.

Lemma plain_class p a : p (at_ a) = true -> p NUL = false -> p LF = false -> plain a (a + 1).
Proof. intros Hp H0 Hl. apply plain_one; [by eapply at_class|]. intros E. congruence. Qed.

Lemma plain_skip p a : a <= n -> p LF = false -> plain a (skipWhile p s n a).
Proof.
  intros Ha Hp. destruct (skipWhile_spec s n p a Ha) as (Hb & Hall & _). split; [done|].
  intros k Hk E. specialize (Hall k Hk). rewrite E in Hall. congruence.
Qed.

Lemma plain_sub a b c : plain a c -> a <= b -> b <= c -> plain a b.
Proof. intros [Hac Ha] Hab Hbc. split; [lia|]. intros k Hk. apply Ha. lia. Qed.

Lemma plain_lineEnd i : i <= n -> plain i (lineEnd s n i).
Proof. intros Hi. by apply plain_skip. Qed.

(** ** Numbers *)

Lemma plain_exponent j : j <= n -> plain j (exponentEnd s n j).
Proof.
  intros Hj. unfold exponentEnd. destruct (isExponent (at_ j)) eqn:He; [|by apply plain_nil].
  assert (Hp : plain j (j + 1)) by by apply (plain_class isExponent).
  assert (Hq : plain j (if isSign (at_ (j + 1)) then j + 2 else j + 1)).
  { destruct (isSign (at_ (j + 1))) eqn:Hs; [|done]. apply (plain_app j (j + 1)); [done|].
    replace (j + 2) with (j + 1 + 1) by lia. by apply (plain_class isSign). }
  destruct (isDigit (at_ (if isSign (at_ (j + 1)) then j + 2 else j + 1))) eqn:Hd; [|by apply plain_nil].
  eapply plain_app; [exact Hq|]. apply plain_skip; [|done]. apply Hq.
Qed.

Lemma plain_imaginary a k : plain a k -> isImaginary s n k = true -> plain a (k + 1).
Proof.
  intros Hp. unfold isImaginary. intros [Hi _]%andb_true_iff. apply chr_true in Hi.
  eapply plain_app; [exact Hp|]. by eapply plain_char.
Qed.

Lemma plain_digits i : isDigit (at_ i) = true -> plain i (skipDigits s n (i + 1)).
Proof.
  intros Hd. assert (Hp : plain i (i + 1)) by by apply (plain_class isDigit).
  eapply plain_app; [exact Hp|]. apply plain_skip; [apply Hp|done].
Qed.

Lemma plain_integerDigits i : isDigit (at_ i) = true -> let (e, _) := integerDigits s n i in plain i e /\ i < e.
Proof.
  intros Hd. pose proof (plain_digits i Hd) as Hp. unfold integerDigits.
  assert (H1 : plain i (i + 1)) by by apply (plain_class isDigit).
  assert (Hj : i < skipDigits s n (i + 1)).
  { destruct (skipWhile_spec s n isDigit (i + 1)) as (? & _); [apply H1|]. unfold skipDigits. lia. }
  assert (Hbase : forall c p, at_ (i + 1) = c -> c <> NUL -> c <> LF -> p LF = false ->
    plain i (skipWhile p s n (i + 2)) /\ i + 2 <= skipWhile p s n (i + 2)).
  { intros c p Hc H0 Hl Hpl. assert (H2 : plain i (i + 2)).
    { apply (plain_app i (i + 1)); [done|]. replace (i + 2) with (i + 1 + 1) by lia. by eapply plain_char. }
    split; [eapply plain_app; [exact H2|]; apply plain_skip; [apply H2|done]|].
    apply skipWhile_spec. apply H2. }
  assert (Hmore : forall e, plain i e /\ i + 2 <= e -> plain i (skipDigits s n e) /\ i < skipDigits s n e).
  { intros e [He Hle]. split; [eapply plain_app; [exact He|]; apply plain_skip; [apply He|done]|].
    destruct (skipWhile_spec s n isDigit e) as (? & _); [apply He|]. unfold skipDigits. lia. }
  destruct (chr (at_ i) "0"); [|done].
  destruct (chr (at_ (i + 1)) "x") eqn:Ex.
  { apply chr_true in Ex. destruct (Hbase _ isHexDigit Ex) as [Hpx Hlx]; [done..|].
    destruct (Nat.eqb_spec (skipWhile isHexDigit s n (i + 2)) (i + 2)) as [E|E]; [split; [done|lia]|].
    destruct (_ && _ && _ && _) eqn:Eb; chars; split; try done; try lia.
    eapply plain_sub; [exact Hpx|lia..]. }
  destruct (chr (at_ (i + 1)) "b") eqn:Eb.
  { apply chr_true in Eb. pose proof (Hbase _ (between "0" "1") Eb) as Hb.
    destruct (_ || _); [apply Hmore, Hb; done|]. destruct Hb; [done..|]. split; [done|lia]. }
  destruct (chr (at_ (i + 1)) "o") eqn:Eo.
  { apply chr_true in Eo. pose proof (Hbase _ (between "0" "7") Eo) as Hb.
    destruct (_ || _ || _); [apply Hmore, Hb; done|]. destruct Hb; [done..|]. split; [done|lia]. }
  destruct (isDigit (at_ (i + 1))); [|split; [done|lia]].
  pose proof (plain_exponent _ (proj2 (proj1 Hp))) as He. pose proof (plain_app _ _ _ Hp He) as Hpe.
  destruct (isImaginary s n (exponentEnd s n (skipDigits s n (i + 1)))) eqn:Ei.
  - split; [by apply plain_imaginary|]. destruct He. lia.
  - split; [done|]. destruct He. lia.
Qed.

(** A number token holds no line feed, and its kind is one of three. *)
Lemma lexNumber_plain i : isDigit (at_ i) = true ->
  match lexNumber s n i with
  | NumToken k e => plain i e /\ i < e /\ (k = Integer \/ k = Real \/ k = Imaginary)
  | NumRefused e => plain i e /\ i < e
  end.
Proof.
  intros Hd. pose proof (plain_digits i Hd) as Hp. unfold lexNumber.
  assert (Hj : i < skipDigits s n (i + 1)).
  { assert (H1 : plain i (i + 1)) by by apply (plain_class isDigit).
    destruct (skipWhile_spec s n isDigit (i + 1)) as (? & _); [apply H1|]. unfold skipDigits. lia. }
  destruct (chr _ "." && _) eqn:Edot.
  - chars. assert (Hk : plain i (exponentEnd s n (skipDigits s n (skipDigits s n (i + 1) + 2))) /\
      i < exponentEnd s n (skipDigits s n (skipDigits s n (i + 1) + 2))).
    { set (j := skipDigits s n (i + 1)) in *.
      assert (H2 : plain i (j + 2)).
      { apply (plain_app i j); [done|]. apply (plain_app j (j + 1)); [by eapply plain_char|].
        replace (j + 2) with (j + 1 + 1) by lia. by apply (plain_class isDigit). }
      assert (H3 : plain (j + 2) (skipDigits s n (j + 2))) by (apply plain_skip; [apply H2|done]).
      assert (H4 : plain (skipDigits s n (j + 2)) (exponentEnd s n (skipDigits s n (j + 2)))) by (apply plain_exponent, H3).
      split; [by eapply plain_app; [|eapply plain_app]|]. destruct H2, H3, H4. lia. }
    destruct Hk as [Hk Hlt]. destruct (_ && _); [|]; destruct (isImaginary _ _ _) eqn:Ei;
      (split_and!; [try done; by apply plain_imaginary|lia|auto..]).
    all: split; [try done; by apply plain_imaginary|lia].
  - pose proof (plain_integerDigits i Hd) as Hi. destruct (integerDigits s n i) as [de invalid]. destruct Hi as [Hi Hlt].
    destruct invalid.
    + destruct (de =? i + 2); [|done].
      assert (H3 : plain de (skipWhile isIdentPart s n de)) by (apply plain_skip; [apply Hi|done]).
      split; [by eapply plain_app|]. destruct H3. lia.
    + assert (H3 : plain de (exponentEnd s n de)) by (apply plain_exponent, Hi).
      pose proof (plain_app _ _ _ Hi H3) as H4. destruct (_ && isImaginary _ _ _) eqn:Ei.
      * apply andb_true_iff in Ei as [_ Ei]. split_and!; [by apply plain_imaginary|destruct H3; lia|auto].
      * split_and!; [done|destruct H3; lia|].
        destruct (de <? exponentEnd s n de); [|by left].
        destruct (negb (chr (at_ i) "0") || (de =? i + 1)); simpl; auto.
Qed.
(** ** Lines of such a range *)

Context (Hn : n <= length s).

Lemma plain_lines a b : plain a b -> lineStartsIn s a b = [].
Proof.
  intros [Hb Ha]. apply lineStartsIn_nil. intros k Hk E. apply (Ha k Hk). by apply at_lookup; [|lia|].
Qed.

Lemma plain_spans a b : plain a b -> spansLines s a b = false.
Proof. intros Hp. unfold spansLines. by rewrite plain_lines. Qed.
End turns.

(** * Every turn of the lexer meets its specification

    [turn] says what a turn may do to the state: pass a byte of white space, append a token, or
    append a comment or the text of an error. [lexStep_turn] shows that a turn always ends and
    does one of these. *)

(** A keyword, an operator or a separator is spelled as the table of kinds says; a name is no
    keyword and not the wildcard. *)
Definition spelled (k : TokenKind) (t : Text) : Prop :=
  (isKeyword k || isPunctuation k = true -> t = tokenKindText k) /\
  (k = Identifier -> (t ∉ kwText <$> keywordTable) /\ t <> tokenKindText Underscore).

(** A name, a keyword or the wildcard. *)
Definition isWord (k : TokenKind) : bool := isKeyword k || bool_decide (k = Identifier) || bool_decide (k = Underscore).

Definition significant (k : TokenKind) : Prop := isTrivia k = false /\ k <> Eof.

(** A chain of interpolations, each one behind the one before. *)
Fixpoint chain (P : nat -> FStringInterpolation -> Prop) (lo : nat) (ps : list FStringInterpolation) : Prop :=
  match ps with
  | [] => True
  | p :: ps => P lo p /\ chain P (close p + 1) ps
  end.

Section step.
Context (sub : nat -> nat -> option (list Token)) (s : Text) (n from : nat).
Context (Hn : n <= length s) (Hfit : (Z.of_nat (length s) < 2 ^ 32)%Z).
#[local] Abbreviation at_ := (at_ s n).

(** An interpolation between [lo] and [hi], and what splitting it must give. *)
Definition partAt (lo hi : nat) (p : FStringInterpolation) : Prop :=
  lo <= open_ p /\ at_ (open_ p) = "$"%char /\ at_ (open_ p + 1) = "{"%char /\
  exprBegin p = open_ p + 2 /\ exprBegin p <= close p /\ close p + 1 < hi /\ at_ (close p) = "}"%char.

Definition partSplit (p : FStringInterpolation) : Prop :=
  specEnd p = close p /\
  if hasSpec p
  then exprBegin p <= exprEnd p /\ exprEnd p < close p /\ at_ (exprEnd p) = ":"%char /\ specBegin p = exprEnd p + 1
  else exprEnd p = close p /\ specBegin p = close p.

Definition partOf (tok hi lo : nat) (p : FStringInterpolation) : Prop :=
  token p = tok /\ partAt lo hi p /\ partSplit p.

(** The tokens of a part of the text: its colons are in it. *)
Definition colonsIn (b e : nat) (ts : list Token) : Prop :=
  forall t, t ∈ ts -> kind t = Colon -> b <= begin t /\ begin t < e /\ end_ t = begin t + 1 /\ s !! begin t = Some ":"%char.

Context (Hsub : forall b e, from < b -> b <= e < n -> exists ts, sub b e = Some ts /\ colonsIn b e ts).

(** The errors that go with a token of trivia: one that ends with an error token, of the kind that
    the first byte of the token asks for. *)
Definition errorKindAt (c : ascii) : LexErrorKind :=
  match kCharClass c with
  | kDigit => InvalidNumber
  | kPunct => UnterminatedComment
  | kIllegal => IllegalCharacter
  | _ => UnclosedString
  end.

Definition errorsOf (k : TokenKind) (i e : nat) (es : list LexError) : Prop :=
  if decide (k = Error) then exists b, es = [mkError (errorKindAt (at_ i)) b e] /\ i <= b < e else es = [].

Definition blankFlags (c : ascii) : Z := if decide (c = LF) then 3 else 1.
Definition isWhite (c : ascii) : bool := isClass kBlank c || isClass kNewline c.

(** A lone [<] opens an argument list when it touches a token an operand can end with. *)
Definition opensAngle (l : Lex) : bool := (pending l =? 0)%Z && endsAngleHost (previous l).
Definition angle (l : Lex) (k : TokenKind) : Prop :=
  (k = LAngle -> opensAngle l = true) /\ (k = Lt -> opensAngle l = false).

(** No longer operator or separator fits where one was read, and no name goes on. *)
Definition longest (k : TokenKind) (i e : nat) : Prop :=
  (isPunctuation k = true -> forall k', isPunctuation k' = true -> isAt (tokenKindText k') s n i = true ->
     length (tokenKindText k') <= e - i) /\
  (isWord k = true -> e < n -> isIdentPart (at_ e) = false).

Inductive turn (l : Lex) (i : nat) : Lex -> nat -> Prop :=
  | turn_space : i < n -> isWhite (at_ i) = true ->
      turn l i (mkLex (toks l) (errs l) (parts l) (lines l ++ lineStartsIn s i (i + 1))
                  (Z.lor (pending l) (blankFlags (at_ i))) (previous l)) (i + 1)
  | turn_token k e ps : i < e <= n -> significant k -> spelled k (slice s i e) -> longest k i e -> angle l k ->
      chain (partOf (length (toks l)) e) (i + 1) ps -> (k = FString \/ ps = []) ->
      turn l i (mkLex (toks l ++ [mkToken i e k (pending l)]) (errs l) (parts l ++ ps)
                  (lines l ++ lineStartsIn s i e) 0 k) e
  | turn_trivia k e es : i < e <= n -> isTrivia k = true -> errorsOf k i e es ->
      turn l i (mkLex (toks l ++ [mkToken i e k (pending l)]) (errs l ++ es) (parts l)
                  (lines l ++ lineStartsIn s i e)
                  (Z.lor (pending l) (if spansLines s i e then 3 else 1)) (previous l)) e.

#[local] Abbreviation plain := (plain s n).

(** ** Ways to make a turn *)

Lemma emit_turn k i e l : i < e <= n -> significant k -> spelled k (slice s i e) ->
  longest k i e -> angle l k -> plain i e ->
  turn l i (emit k i e l) e.
Proof.
  intros Hb Hk Hs Hm Ha Hp. unfold emit. rewrite !(off_id s) by (done || lia).
  pose proof (turn_token l i k e [] Hb Hk Hs Hm Ha I (or_intror eq_refl)) as Ht.
  rewrite (plain_lines s n Hn i e Hp), !app_nil_r in Ht. done.
Qed.

Lemma emitTrivia_turn k i e l : i < e <= n -> isTrivia k = true -> k <> Error -> plain i e ->
  turn l i (emitTrivia k i e false l) e.
Proof.
  intros Hb Hk He Hp. unfold emitTrivia. rewrite !(off_id s) by (done || lia).
  pose proof (turn_trivia l i k e [] Hb Hk) as Ht. unfold errorsOf in Ht. rewrite decide_False in Ht by done.
  specialize (Ht eq_refl). rewrite (plain_lines s n Hn i e Hp), (plain_spans s n Hn i e Hp), !app_nil_r in Ht. done.
Qed.

Lemma error_turn ek b i e l : ek = errorKindAt (at_ i) -> i < e <= n -> i <= b < e -> plain i e ->
  turn l i (emitTrivia Error i e false (addError ek b e l)) e.
Proof.
  intros -> Hb Hbe Hp. unfold emitTrivia, addError. simpl. rewrite !(off_id s) by (done || lia).
  pose proof (turn_trivia l i Error e [mkError (errorKindAt (at_ i)) b e] Hb eq_refl) as Ht. unfold errorsOf in Ht.
  rewrite decide_True in Ht by done. specialize (Ht ltac:(by exists b)).
  rewrite (plain_lines s n Hn i e Hp), (plain_spans s n Hn i e Hp), app_nil_r in Ht. done.
Qed.

Lemma unclosed_turn i b l : UnclosedString = errorKindAt (at_ i) -> i < n -> at_ i <> LF -> i <= b -> (forall k, i <= k <= b -> at_ k <> LF) -> b < n ->
  exists l' e, unclosed s n i b l = (l', e) /\ turn l i l' e.
Proof.
  intros Hu Hi Hl Hib Hnl Hb. unfold unclosed. eexists _, _. split; [done|].
  pose proof (plain_lineEnd s n i) as Hp. specialize (Hp ltac:(lia)). pose proof Hp as [[H1 H2] _].
  destruct (skipWhile_spec s n (fun c => negb (chr c LF)) i) as (_ & _ & Hstop); [lia|].
  fold (lineEnd s n i) in Hstop.
  assert (Hbe : b < lineEnd s n i).
  { destruct (decide (b < lineEnd s n i)); [done|]. specialize (Hstop ltac:(lia)).
    apply negb_false_iff, chr_true in Hstop. destruct (Hnl (lineEnd s n i)); [lia|done]. }
  apply error_turn; [done|lia|lia|done].
Qed.

(** ** Operators and separators *)

(** Decides tests of known characters. *)
Ltac known_chars := repeat match goal with
  | |- context [ chr (Ascii ?a1 ?a2 ?a3 ?a4 ?a5 ?a6 ?a7 ?a8) (Ascii ?b1 ?b2 ?b3 ?b4 ?b5 ?b6 ?b7 ?b8) ] =>
      let x := constr:(chr (Ascii a1 a2 a3 a4 a5 a6 a7 a8) (Ascii b1 b2 b3 b4 b5 b6 b7 b8)) in
      let v := eval vm_compute in x in change x with v
  end.

(** No operator or separator that fits is longer than the one [punct] chooses. *)
Lemma punct_longest k c c1 c2 host : isPunctuation k = true -> k <> Underscore -> k <> Hash ->
  tokenKindText k = take (length (tokenKindText k)) [c; c1; c2] -> length (tokenKindText k) <= (punct c c1 c2 host).2.
Proof.
  intros Hp Hu Hh. destruct k; try (vm_compute in Hp; discriminate Hp); try done; cbn; intros E; injection E; intros; subst;
    unfold punct; cbv zeta beta; known_chars; cbn; repeat case_match; cbn; lia.
Qed.

Lemma punct_spec c c1 c2 host k len : kCharClass c = kPunct -> punct c c1 c2 host = (k, len) ->
  isPunctuation k = true /\ tokenKindText k = take len [c; c1; c2] /\ 1 <= len <= 3.
Proof.
  intros Hc. unfold punct. cbv zeta beta.
  repeat match goal with
  | |- (if chr ?a ?b then _ else _) = _ -> _ =>
      let E := fresh in destruct (chr a b) eqn:E; [apply chr_true in E; rewrite E in *|]
  | |- (if chr ?a ?b && chr ?d ?e then _ else _) = _ -> _ =>
      let E := fresh in let F := fresh in
      destruct (chr a b && chr d e) eqn:E;
        [apply andb_true_iff in E; destruct E as [E F]; apply chr_true in E; apply chr_true in F; rewrite E, F|]
  end;
  try (intros [= <- <-]; try destruct host; split_and!; first [lia|vm_compute; reflexivity]).
  exfalso. unfold kCharClass in Hc. repeat case_match; try done.
  match goal with H : existsb (chr c) punctChars = true |- _ => apply existsb_exists in H as (d & Hd & ->%chr_true) end.
  unfold punctChars, T in Hd. simpl in Hd.
  repeat (destruct Hd as [<-|Hd]; [by rewrite chr_refl in *|]). done.
Qed.

Lemma slice_isAt pat i : isAt pat s n i = true -> slice s i (i + length pat) = pat.
Proof.
  intros Ha. rewrite isAt_spec in Ha. unfold slice. apply list_eq. intros k.
  destruct (decide (k < length pat)) as [Hk|Hk].
  - rewrite lookup_take_lt, lookup_drop by lia. destruct (lookup_lt_is_Some_2 pat k Hk) as [c Hc].
    destruct (Ha k c Hc) as [Hlt E]. rewrite Hc. by apply (at_lookup s n).
  - rewrite lookup_take_ge by lia. by rewrite lookup_ge_None_2 by lia.
Qed.

(** No spelling holds a line feed or a zero byte. *)
Lemma kindText_plain k m c : tokenKindText k !! m = Some c -> c <> LF /\ c <> NUL.
Proof.
  intros Hm.
  assert (Hall : forallb (fun k => forallb (fun c => negb (chr c LF) && negb (chr c NUL)) (tokenKindText k)) allKinds = true)
    by (vm_compute; reflexivity).
  rewrite forallb_forall in Hall. specialize (Hall k).
  rewrite forallb_forall in Hall. assert (Hk : In k allKinds).
  { apply list_elem_of_In. eapply list_elem_of_lookup_2, allKinds_index. }
  specialize (Hall Hk c). rewrite <- list_elem_of_In in Hall.
  specialize (Hall (list_elem_of_lookup_2 _ _ _ Hm)). apply andb_true_iff in Hall as [H1 H2].
  split; intros ->; done.
Qed.

Lemma kindText_short k : isPunctuation k = true -> length (tokenKindText k) <= 3.
Proof. destruct k; vm_compute; intros; first [lia|discriminate]. Qed.

Lemma kindText_at k i : (forall m c, tokenKindText k !! m = Some c -> at_ (i + m) = c) ->
  isAt (tokenKindText k) s n i = true.
Proof.
  intros Hat. apply isAt_spec. intros m c Hm. split; [|by apply Hat].
  eapply at_eq; [by apply Hat|]. by eapply kindText_plain.
Qed.

Lemma punctuation_significant k : isPunctuation k = true -> significant k.
Proof. destruct k; vm_compute; intros; by split. Qed.

Lemma punct_angle c c1 c2 host : ((punct c c1 c2 host).1 = LAngle -> host = true) /\ ((punct c c1 c2 host).1 = Lt -> host = false).
Proof. unfold punct. cbv zeta beta. split; repeat case_match; done. Qed.

(** Whatever starts with a byte of punctuation is no word. *)
Lemma punct_word c c1 c2 host : isWord (punct c c1 c2 host).1 = false.
Proof. unfold punct. cbv zeta beta. repeat case_match; vm_compute; done. Qed.

Lemma punct_longest_at i k len : i < n -> kCharClass (at_ i) = kPunct ->
  forall host, punct (at_ i) (at_ (i + 1)) (at_ (i + 2)) host = (k, len) -> longest k i (i + len).
Proof.
  intros Hi Hc host Hp. split.
  - intros _ k' Hk' Ha. pose proof (punct_longest k' (at_ i) (at_ (i + 1)) (at_ (i + 2)) host Hk') as Hl.
    rewrite Hp in Hl. simpl in Hl. replace (i + len - i) with len by lia. rewrite isAt_spec in Ha.
    apply Hl; clear Hl.
    + intros ->. destruct (Ha 0 "_"%char eq_refl) as [_ E]. rewrite Nat.add_0_r in E. by rewrite E in Hc.
    + intros ->. destruct (Ha 0 "#"%char eq_refl) as [_ E]. rewrite Nat.add_0_r in E. by rewrite E in Hc.
    + pose proof (kindText_short k' Hk') as Hs. apply list_eq. intros m.
      destruct (decide (m < length (tokenKindText k'))) as [Hm|Hm].
      * destruct (lookup_lt_is_Some_2 _ _ Hm) as [c E]. rewrite E, lookup_take_lt by done.
        destruct (Ha m c E) as [_ <-]. destruct m as [|[|[|m]]]; simpl; [by rewrite Nat.add_0_r|done..|lia].
      * by rewrite lookup_take_ge, lookup_ge_None_2 by lia.
  - intros Hw. pose proof (punct_word (at_ i) (at_ (i + 1)) (at_ (i + 2)) host) as Hn'. rewrite Hp in Hn'. simpl in Hn'. congruence.
Qed.

Lemma punct_turn l i k len : i < n -> kCharClass (at_ i) = kPunct ->
  punct (at_ i) (at_ (i + 1)) (at_ (i + 2)) (opensAngle l) = (k, len) ->
  turn l i (emit k i (i + len) l) (i + len).
Proof.
  intros Hi Hc Hp. destruct (punct_spec _ _ _ _ _ _ Hc Hp) as (Hk & Ht & Hlen).
  assert (Hl : length (tokenKindText k) = len) by (rewrite Ht, length_take; simpl; lia).
  assert (Ha : isAt (tokenKindText k) s n i = true).
  { apply kindText_at. intros m c Hm. pose proof (lookup_lt_Some _ _ _ Hm) as Hml. rewrite Ht in Hm.
    rewrite lookup_take_lt in Hm by lia.
    destruct m as [|[|[|m]]]; simpl in Hm; [..|done]; injection Hm as <-; f_equal; lia. }
  assert (Hfits : i + len <= n).
  { rewrite <- Hl. apply (isAt_fits s n); [done|]. intros E. rewrite E in Hl. simpl in Hl. lia. }
  apply emit_turn; [lia|by apply punctuation_significant| |by eapply punct_longest_at| |].
  - split; [|intros ->; done]. intros _. rewrite <- Hl. by apply slice_isAt.
  - destruct (punct_angle (at_ i) (at_ (i + 1)) (at_ (i + 2)) (opensAngle l)) as [Ha1 Ha2].
    rewrite Hp in Ha1, Ha2. by split.
  - split; [lia|]. intros m Hm E. rewrite isAt_spec in Ha.
    destruct (lookup_lt_is_Some_2 (tokenKindText k) (m - i)) as [c Hcm]; [lia|].
    destruct (Ha _ _ Hcm) as [_ Hat]. replace (i + (m - i)) with m in Hat by lia.
    destruct (kindText_plain _ _ _ Hcm). congruence.
Qed.

(** ** Names *)

Lemma wordKind_cases t : (wordKind t = Identifier /\ (t ∉ kwText <$> keywordTable) /\ t <> tokenKindText Underscore) \/
  (isKeyword (wordKind t) || isPunctuation (wordKind t) = true /\ t = tokenKindText (wordKind t)).
Proof.
  destruct (decide (t = ["_"%char])) as [->|Hu]; [by right|].
  destruct (decide (t ∈ kwText <$> keywordTable)) as [Ht|Ht].
  - right.
    assert (Hall : forallb (fun t => (isKeyword (wordKind t) || isPunctuation (wordKind t)) &&
        bool_decide (t = tokenKindText (wordKind t))) (kwText <$> keywordTable) = true) by (vm_compute; reflexivity).
    rewrite forallb_forall in Hall. specialize (Hall t (proj1 (list_elem_of_In _ _) Ht)).
    apply andb_true_iff in Hall as [Hk Ht'%bool_decide_eq_true]. done.
  - left. split; [by apply wordKind_other|]. split; [exact Ht|exact Hu].
Qed.

Lemma wordKind_plain t : significant (wordKind t) /\ wordKind t <> LAngle /\ wordKind t <> Lt.
Proof.
  unfold wordKind. case_decide; [by split_and!|].
  destruct (list_find _ _) as [[j w]|] eqn:E; [|by split_and!]. apply list_find_Some in E as (Hw & _ & _).
  assert (Hall : forallb (fun w => negb (isTrivia (kwKind w)) && negb (bool_decide (kwKind w ∈ [Eof; LAngle; Lt]))) keywordTable = true)
    by (vm_compute; reflexivity).
  rewrite forallb_forall in Hall. specialize (Hall w (proj1 (list_elem_of_In _ _) (list_elem_of_lookup_2 _ _ _ Hw))).
  apply andb_true_iff in Hall as [Ht%negb_true_iff Hn'%negb_true_iff%bool_decide_eq_false].
  rewrite !not_elem_of_cons in Hn'. destruct Hn' as (? & ? & ? & _). by split_and!.
Qed.

Lemma word_significant t l : significant (wordKind t) /\ spelled (wordKind t) t /\ angle l (wordKind t).
Proof.
  destruct (wordKind_plain t) as (Hk & Ha & Hl). split_and!; [done| |by split].
  destruct (wordKind_cases t) as [(-> & Ht & Hu)|[Hw Ht]]; [by split|].
  split; [done|]. intros E. by rewrite E in Hw.
Qed.

Lemma class_ident c : kCharClass c = kIdentStart -> isIdentPart c = true.
Proof. intros Hc. unfold isIdentPart, isClass. by rewrite Hc. Qed.

(** ** Bodies of strings *)

Lemma lexBody_closed fuel c j ls j' ls' : c <> LF -> lexBody fuel s n c j ls = (true, j', ls') ->
  j < j' <= n /\ ls' = ls ++ lineStartsIn s j j'.
Proof.
  intros Hc. revert j ls. induction fuel as [|fuel IH]; intros j ls; simpl; [done|].
  destruct (Nat.ltb_spec j n); [|done].
  destruct (chr (at_ j) c) eqn:E1; chars.
  { intros [= <- <-]. split; [lia|]. rewrite (plain_lines s n Hn j (j + 1)); [by rewrite app_nil_r|].
    apply plain_one; [done|congruence]. }
  destruct (chr (at_ j) BSLASH && (j + 1 <? n) && _) eqn:E2; chars.
  { intros Hl. apply IH in Hl as [Hb ->]. split; [lia|]. f_equal.
    rewrite (lineStartsIn_app s j (j + 2) j') by lia.
    rewrite (plain_lines s n Hn j (j + 2)); [done|]. split; [lia|]. intros k Hk.
    match goal with H : _ || _ = true |- _ => apply orb_true_iff in H; rewrite !chr_true in H; rename H into He end.
    destruct (decide (k = j)) as [->|];
      [by match goal with H : at_ j = BSLASH |- _ => rewrite H end|]. replace k with (j + 1) by lia. destruct He as [-> | ->]; done. }
  intros Hl. apply IH in Hl as [Hb ->]. split; [lia|].
  rewrite (lineStartsIn_app s j (j + 1) j'), lineStartsIn_one by lia.
  destruct (chr (at_ j) LF) eqn:E3; chars.
  - rewrite decide_True by (by apply (at_lookup s n)). by rewrite <- app_assoc.
  - rewrite decide_False; [done|]. intros E. apply (at_lookup s n) in E; [|done|done]. rewrite E in E3. done.
Qed.

Lemma countHashes_plain hashes k : k <= n -> countHashes hashes s n k = hashes -> plain k (k + hashes).
Proof.
  revert k. induction hashes as [|h IH]; intros k Hk; simpl.
  - intros _. rewrite Nat.add_0_r. by apply plain_nil.
  - destruct (Nat.ltb_spec k n); simpl; [|done]. destruct (chr (at_ k) "#") eqn:E; [|done]. chars. intros [= Hc].
    eapply plain_app; [by eapply plain_char|]. replace (k + S h) with (k + 1 + h) by lia. apply IH; [lia|done].
Qed.

Lemma lexRaw_closed fuel hashes j ls j' ls' : lexRaw fuel s n hashes j ls = (true, j', ls') ->
  j < j' <= n /\ ls' = ls ++ lineStartsIn s j j'.
Proof.
  revert j ls. induction fuel as [|fuel IH]; intros j ls; simpl; [done|].
  destruct (Nat.ltb_spec j n); [|done].
  assert (H1 : (if chr (at_ j) LF then ls ++ [off (j + 1)] else ls) = ls ++ lineStartsIn s j (j + 1)).
  { rewrite lineStartsIn_one. destruct (chr (at_ j) LF) eqn:E; chars.
    - by rewrite decide_True by (by apply (at_lookup s n)).
    - rewrite decide_False, app_nil_r; [done|]. intros E'. apply (at_lookup s n) in E'; [|done|done].
      rewrite E' in E. done. }
  rewrite H1. destruct (chr (at_ j) QUOTE && _) eqn:E; chars.
  - intros [= <- <-]. match goal with H : countHashes _ _ _ _ = _ |- _ => apply countHashes_plain in H; [|lia]; rename H into Hp end.
    pose proof Hp as [[? ?] _]. split; [lia|]. f_equal.
    rewrite (lineStartsIn_app s j (j + 1) (j + 1 + hashes)), (plain_lines s n Hn _ _ Hp), app_nil_r by lia. done.
  - intros Hl. apply IH in Hl as [Hb ->]. split; [lia|]. rewrite <- app_assoc. f_equal.
    symmetry. apply lineStartsIn_app; lia.
Qed.

(** ** Formatted strings *)

(** A part the scan found. *)
Definition rawPart (hi lo : nat) (p : FStringInterpolation) : Prop :=
  partAt lo hi p /\ p = mkPart 0 (open_ p) (exprBegin p) 0 0 0 (close p) false.

Lemma chain_weaken (P Q : nat -> FStringInterpolation -> Prop) lo lo' ps : lo' <= lo ->
  (forall lo lo' p, lo' <= lo -> P lo p -> Q lo' p) -> chain P lo ps -> chain Q lo' ps.
Proof.
  intros Hlo HPQ. revert lo lo' Hlo. induction ps as [|p ps IH]; intros lo lo' Hlo; simpl; [done|].
  intros [Hp Hps]. split; [by eapply HPQ|]. by eapply IH.
Qed.

Lemma rawPart_weaken hi lo lo' p : lo' <= lo -> rawPart hi lo p -> rawPart hi lo' p.
Proof. intros Hle [(? & ?) ?]. split; [|done]. split; [lia|done]. Qed.

Lemma lexFString_spec fuel j ps : j <= n < j + fuel ->
  exists closed j' new, lexFString fuel s n j ps = Some (closed, j', ps ++ new) /\
    (closed = true -> j < j' <= n /\ chain (rawPart j') j new).
Proof.
  revert j ps. induction fuel as [|fuel IH]; intros j ps Hj; [lia|]. simpl.
  destruct (Nat.ltb_spec j n); [|exists false, j, []; by rewrite app_nil_r].
  destruct (chr (at_ j) TICK) eqn:Et.
  { exists true, (j + 1), []. rewrite app_nil_r. split; [done|]. intros _. split; [lia|done]. }
  assert (Hgo : forall j', j < j' <= n -> exists closed j2 new,
    lexFString fuel s n j' ps = Some (closed, j2, ps ++ new) /\ (closed = true -> j < j2 <= n /\ chain (rawPart j2) j new)).
  { intros j' Hj'. destruct (IH j' ps) as (cl & j2 & new & Hl & Hc); [lia|]. exists cl, j2, new. split; [done|].
    intros Ec. destruct (Hc Ec) as [Hb Hch]. split; [lia|].
    eapply chain_weaken; [|intros; by eapply rawPart_weaken|exact Hch]. lia. }
  destruct (chr (at_ j) BSLASH && (j + 1 <? n)) eqn:Eb; chars.
  { destruct ((j + 2 <? n) && _ && _) eqn:E2; chars; [apply Hgo; lia|].
    destruct (chr (at_ (j + 1)) TICK); [apply Hgo; lia|]. destruct (chr (at_ (j + 1)) BSLASH); apply Hgo; lia. }
  destruct (chr (at_ j) "$" && (j + 1 <? n) && _) eqn:E2; chars; [|apply Hgo; lia].
  destruct (scanInterpolation_spec s n j) as (r & Hr & Hclose); [lia|]. rewrite Hr. simpl.
  destruct r as [c|]; [|exists false, j, []; by rewrite app_nil_r].
  destruct (Hclose c eq_refl) as [Hcb Hcc].
  rewrite !(off_id s) by (done || lia).
  destruct (IH (c + 1) (ps ++ [mkPart 0 j (j + 2) 0 0 0 c false])) as (cl & j2 & new & Hl & Hch); [lia|].
  rewrite Hl. eexists cl, j2, (_ :: new). split; [by rewrite <- app_assoc|]. intros Ec.
  destruct (Hch Ec) as [Hb Hchain]. split; [lia|]. simpl. split; [|exact Hchain].
  split; [|done]. unfold partAt. simpl. split_and!; try done; lia.
Qed.

Lemma splitColon_Some ts open t : splitColon ts open = Some t -> t ∈ ts /\ kind t = Colon.
Proof.
  revert open. induction ts as [|u ts IH]; intros open; simpl; [done|].
  case_decide as He; [done|]. case_decide as Hc.
  - destruct open; [intros [= <-]; split; [by left|done]|]. intros Hs. apply IH in Hs as [? ?]. split; [by right|done].
  - intros Hs. apply IH in Hs as [? ?]. split; [by right|done].
Qed.

Lemma splitPart_spec tok hi lo p : from < lo + 2 -> hi <= n -> rawPart hi lo p ->
  exists p', splitPart sub tok p = Some p' /\ partOf tok hi lo p' /\ close p' = close p.
Proof.
  intros Hf Hhi [(Hlo & Hd & Hb & He & Hec & Hc & Hcc) Ep]. unfold splitPart.
  destruct (Hsub (exprBegin p) (close p)) as (ts & -> & Hts); [lia..|]. cbn [mbind option_bind].
  eexists. split; [done|]. unfold splitInterpolation.
  destruct (splitColon ts []) as [t|] eqn:Hs; simpl.
  - apply splitColon_Some in Hs as [Hin Hk]. destruct (Hts t Hin Hk) as (H1 & H2 & H3 & H4).
    split; [|done]. split_and!; [done|by unfold partAt|]. split; [done|]. simpl. split_and!; try done.
    apply (at_lookup s n); [done|lia|done].
  - split; [|done]. split_and!; [done|by unfold partAt|]. by split.
Qed.

Lemma splitParts_spec tok hi lo ps : from < lo + 2 -> hi <= n -> chain (rawPart hi) lo ps ->
  exists ps', mapM (splitPart sub tok) ps = Some ps' /\ chain (partOf tok hi) lo ps'.
Proof.
  intros Hf Hhi. revert lo Hf. induction ps as [|p ps IH]; intros lo Hf; simpl; [by exists []|].
  intros [Hp Hps]. destruct (splitPart_spec tok hi lo p Hf Hhi Hp) as (p' & -> & Hp' & Hc).
  destruct (IH (close p + 1)) as (ps' & -> & Hps'); [|done|].
  { destruct Hp as [(? & _ & _ & ? & ? & _) _]. lia. }
  exists (p' :: ps'). split; [done|]. simpl. by rewrite Hc.
Qed.

(** ** The cases of a turn *)

Definition makesTurn (l : Lex) (i : nat) (r : option (Lex * nat)) : Prop :=
  exists l' e, r = Some (l', e) /\ turn l i l' e.

Lemma makes l i l' e : turn l i l' e -> makesTurn l i (Some (l', e)).
Proof. intros Ht. by exists l', e. Qed.

Lemma unclosed_makes i b l : UnclosedString = errorKindAt (at_ i) -> i < n -> at_ i <> LF -> i <= b -> (forall k, i <= k <= b -> at_ k <> LF) -> b < n ->
  makesTurn l i (Some (unclosed s n i b l)).
Proof. intros Hu Hi Hl Hb Hnl Hbn. destruct (unclosed_turn i b l) as (l' & e & -> & Ht); [done..|]. by apply makes. Qed.

Lemma token_turn k i e l ls : i < e <= n -> significant k -> spelled k (slice s i e) ->
  longest k i e -> angle l k -> ls = lines l ++ lineStartsIn s i e -> turn l i (emit k i e (setLines ls l)) e.
Proof.
  intros Hb Hk Hs Hm Ha ->. unfold emit, setLines. simpl. rewrite !(off_id s) by (done || lia).
  pose proof (turn_token l i k e [] Hb Hk Hs Hm Ha I (or_intror eq_refl)) as Ht. by rewrite app_nil_r in Ht.
Qed.

(** The only operator that starts like a name is the wildcard. *)
Lemma word_longest k' i e : kCharClass (at_ i) = kIdentStart -> isPunctuation k' = true ->
  isAt (tokenKindText k') s n i = true -> i < e -> length (tokenKindText k') <= e - i.
Proof.
  intros Hc Hk Ha He. rewrite isAt_spec in Ha. destruct (decide (k' = Underscore)) as [->|Hu]; [simpl; lia|]. exfalso.
  assert (Hall : forallb (fun k => negb (isPunctuation k) || bool_decide (k = Underscore) ||
      match tokenKindText k with c :: _ => negb (isClass kIdentStart c) | [] => false end) allKinds = true)
    by (vm_compute; reflexivity).
  rewrite forallb_forall in Hall. specialize (Hall k').
  specialize (Hall (proj1 (list_elem_of_In _ _) (list_elem_of_lookup_2 _ _ _ (allKinds_index k')))).
  rewrite Hk, bool_decide_eq_false_2 in Hall by done. simpl in Hall.
  destruct (tokenKindText k') as [|c t]; [done|]. destruct (Ha 0 c eq_refl) as [_ E]. rewrite Nat.add_0_r in E.
  subst c. unfold isClass in Hall. by rewrite Hc in Hall.
Qed.

Lemma lexIdent_makes l i : i < n -> kCharClass (at_ i) = kIdentStart -> makesTurn l i (lexIdent s n l i).
Proof.
  intros Hi Hc. unfold lexIdent.
  set (hashes := skipWhile (fun d => chr d "#") s n (i + 1) - (i + 1)).
  assert (Hl : at_ i <> LF) by (intros E; by rewrite E in Hc).
  destruct (chr (at_ i) "r" && chr (at_ (i + 1 + hashes)) QUOTE) eqn:Er; chars.
  - match goal with H : at_ (i + 1 + hashes) = QUOTE |- _ => rename H into Hq end.
    assert (Hqn : i + 1 + hashes < n) by by eapply at_eq.
    assert (Hp : plain i (i + 1 + hashes)).
    { apply (plain_app s n i (i + 1)); [by apply plain_one|].
      pose proof (plain_skip s n (fun d => chr d "#") (i + 1) ltac:(lia) eq_refl) as Hp.
      unfold hashes. pose proof Hp as [[? ?] _].
      by replace (i + 1 + (skipWhile (fun d => chr d "#") s n (i + 1) - (i + 1)))
        with (skipWhile (fun d => chr d "#") s n (i + 1)) by lia. }
    destruct (lexRaw _ _ _ _ _ _) as [[[|] j] ls] eqn:Hraw.
    + apply lexRaw_closed in Hraw as [Hb ->]. apply makes, token_turn; [lia|by split..|].
      f_equal. rewrite (lineStartsIn_app s i (i + 1 + hashes + 1) j) by lia.
      rewrite (plain_lines s n Hn i (i + 1 + hashes + 1)); [done|].
      eapply plain_app; [exact Hp|]. apply plain_one; [done|]. by rewrite Hq.
    + apply unclosed_makes; try done; [by unfold errorKindAt; rewrite Hc|lia|]. intros k Hk. destruct (decide (k = i + 1 + hashes)) as [->|].
      * by rewrite Hq.
      * apply Hp. lia.
  - rewrite classifyWord_spec. cbn [mbind option_bind].
    destruct (word_significant (slice s i (skipWhile isIdentPart s n (i + 1))) l) as (Hk & Hs & Ha).
    assert (Hp : plain i (skipWhile isIdentPart s n (i + 1))).
    { apply (plain_app s n i (i + 1)); [by apply plain_one|]. apply plain_skip; [lia|done]. }
    destruct (skipWhile_spec s n isIdentPart (i + 1)) as (? & _ & Hstop); [lia|].
    apply makes, emit_turn; try done; [lia|]. split; [|by intros _].
    intros Hw k' Hk' Hat. apply (word_longest k' i); [done..|lia].
Qed.

Lemma lexDigit_makes l i : kCharClass (at_ i) = kDigit -> makesTurn l i (Some (lexDigit s n l i)).
Proof.
  intros Hc. assert (Hd : isDigit (at_ i) = true).
  { unfold isDigit. unfold kCharClass in Hc. repeat case_match; done. }
  unfold lexDigit. pose proof (lexNumber_plain s n i Hd) as Hnum. destruct (lexNumber s n i) as [k e|e].
  - destruct Hnum as (Hp & Hlt & Hk). pose proof Hp as [[_ ?] _].
    apply makes, emit_turn; [lia|destruct Hk as [-> |[-> | ->]]; by split..|done].
  - destruct Hnum as (Hp & Hlt). pose proof Hp as [[_ ?] _]. apply makes, error_turn; [by unfold errorKindAt; rewrite Hc|lia..|done].
Qed.

Lemma quote_class c : kCharClass c = kQuote -> c <> LF /\ (c = APOS \/ c = QUOTE \/ c = TICK).
Proof.
  intros Hc. split; [by intros ->|]. unfold kCharClass in Hc.
  destruct (chr c "#"); [done|]. destruct (existsb (chr c) punctChars); [done|].
  destruct (chr c APOS) eqn:E1; [chars; auto|]. destruct (chr c QUOTE) eqn:E2; [chars; auto|].
  destruct (chr c TICK) eqn:E3; [chars; auto|]. simpl in Hc. repeat case_match; done.
Qed.

Lemma lexQuote_makes l i : from <= i -> length (toks l) <= length s -> i < n -> kCharClass (at_ i) = kQuote ->
  makesTurn l i (lexQuote sub s n l i).
Proof.
  intros Hfr Hlen Hi Hc. destruct (quote_class _ Hc) as [Hl _]. unfold lexQuote. set (c := at_ i) in *.
  assert (Hun : makesTurn l i (Some (unclosed s n i i l))).
  { apply unclosed_makes; try done; [by unfold errorKindAt; fold c; rewrite Hc|]. intros k Hk. by replace k with i by lia. }
  destruct (if negb (chr c TICK) && _ && _ then _ else None) as [k|] eqn:Htr.
  - destruct (negb (chr c TICK) && _ && _); [|done]. apply find_Some in Htr as (H1 & H2 & _); [|done]. simpl in H2.
    apply makes, token_turn; [lia|by split..|done].
  - destruct (chr c TICK) eqn:Et.
    + destruct (lexFString_spec (n - i) (i + 1) []) as (closed & j & new & -> & Hcl); [lia|]. cbn [mbind option_bind].
      destruct closed; [|done]. destruct (Hcl eq_refl) as [Hb Hch].
      destruct (splitParts_spec (off (length (toks l))) j (i + 1) new) as (ps & Hps & Hch'); [lia..|done|].
      rewrite app_nil_l, Hps. cbn [mbind option_bind]. rewrite (off_id s) in Hch' by done.
      unfold emit, noteLines, setLines. simpl. rewrite !(off_id s) by (done || lia).
      apply makes, turn_token; [lia|by split..|done|by left].
    + destruct (lexBody _ _ _ _ _ _) as [[[|] j] ls] eqn:Hbody; [|done].
      apply lexBody_closed in Hbody as [Hb ->]; [|done]. apply makes, token_turn; [lia|by split..|].
      f_equal. rewrite (lineStartsIn_app s i (i + 1) j) by lia. rewrite (plain_lines s n Hn i (i + 1)); [done|].
      by apply plain_one.
Qed.

Lemma hash_longest k : isPunctuation k = true -> (forall c, tokenKindText k !! 0 = Some c -> c = "#"%char) ->
  length (tokenKindText k) <= 1.
Proof. destruct k; vm_compute; intros Hk Hc; first [discriminate|lia|specialize (Hc _ eq_refl); discriminate]. Qed.

Lemma lexHash_makes l i : i < n -> kCharClass (at_ i) = kHash -> makesTurn l i (Some (lexHash s n l i)).
Proof.
  intros Hi Hc. assert (Hl : at_ i = "#"%char).
  { unfold kCharClass in Hc. destruct (chr (at_ i) "#") eqn:E; [by chars|]. repeat case_match; done. }
  assert (H1 : plain i (i + 1)) by by eapply plain_char.
  unfold lexHash. destruct (_ && _) eqn:E; chars.
  - set (p := fun c => _). assert (Hp : plain i (skipWhile p s n (i + 1))).
    { apply (plain_app s n i (i + 1)); [done|]. apply plain_skip; [lia|done]. }
    destruct (skipWhile_spec s n p (i + 1)) as (? & _); [lia|]. apply makes, emitTrivia_turn; [lia|done..].
  - apply makes, emit_turn; [lia|by split| | |by split|done].
    2: { split; [|done]. intros _ k' Hk' Ha. rewrite isAt_spec in Ha. replace (i + 1 - i) with 1 by lia.
      apply hash_longest; [done|]. intros c Hc0. destruct (Ha 0 c Hc0) as [_ E']. rewrite Nat.add_0_r in E'. congruence. }
    split; [|done]. intros _.
    apply (slice_isAt (tokenKindText Hash) i). apply kindText_at. intros [|m] c; simpl; [|done].
    intros [= <-]. by rewrite Nat.add_0_r.
Qed.

Lemma lexPunct_makes l i : i < n -> kCharClass (at_ i) = kPunct -> makesTurn l i (Some (lexPunct s n l i)).
Proof.
  intros Hi Hc. assert (Hl : at_ i <> LF) by (intros E; by rewrite E in Hc).
  unfold lexPunct. destruct (chr (at_ i) "/" && chr (at_ (i + 1)) "/") eqn:E1; chars.
  - match goal with H : at_ (i + 1) = _ |- _ => rename H into Hs end.
    assert (H2 : plain i (i + 2)).
    { apply (plain_app s n i (i + 1)); [by apply plain_one|]. replace (i + 2) with (i + 1 + 1) by lia. by eapply plain_char. }
    set (p := fun c => _). assert (Hp : plain i (skipWhile p s n (i + 2))).
    { apply (plain_app s n i (i + 2)); [done|]. apply plain_skip; [apply H2|done]. }
    destruct (skipWhile_spec s n p (i + 2)) as (? & _); [apply H2|].
    apply makes, emitTrivia_turn; [lia|by destruct (_ && _)..|done].
  - destruct (chr (at_ i) "/" && chr (at_ (i + 1)) "*") eqn:E2; chars.
    + unfold emitTrivia, noteLines, setLines, addError.
      destruct (find (T "*/") s n (i + 2)) as [k|] eqn:Hf.
      * apply find_Some in Hf as (? & Hk & _); [|done]. simpl in Hk. simpl. rewrite !(off_id s) by (done || lia).
        pose proof (turn_trivia l i BlockComment (k + 2) [] ltac:(lia) eq_refl eq_refl) as Ht.
        rewrite app_nil_r in Ht. apply makes. rewrite <- Z.lor_assoc in *. by destruct (spansLines s i (k + 2)).
      * simpl. rewrite !(off_id s) by (done || lia).
        pose proof (turn_trivia l i Error n [mkError UnterminatedComment i n] ltac:(lia) eq_refl) as Ht.
        unfold errorsOf, errorKindAt in Ht. rewrite decide_True, Hc in Ht by done. specialize (Ht ltac:(by exists i)).
        apply makes. rewrite <- Z.lor_assoc. by destruct (spansLines s i n).
    + fold (opensAngle l). destruct (punct _ _ _ _) as [k len] eqn:Hp. by apply makes, (punct_turn l i k len Hi Hc Hp).
Qed.

Lemma lexIllegal_makes l i : i < n -> kCharClass (at_ i) = kIllegal -> makesTurn l i (Some (lexIllegal s n l i)).
Proof.
  intros Hi Hc. unfold lexIllegal. pose proof (plain_skip s n (isClass kIllegal) i ltac:(lia) eq_refl) as Hp.
  destruct (skipWhile_spec s n (isClass kIllegal) i) as (Hb & _ & Hstop); [lia|].
  assert (i < skipWhile (isClass kIllegal) s n i).
  { destruct (decide (skipWhile (isClass kIllegal) s n i = i)) as [E|]; [|lia].
    rewrite E in Hstop. specialize (Hstop Hi). apply bool_decide_eq_false in Hstop. done. }
  apply makes, error_turn; [by unfold errorKindAt; rewrite Hc|lia..|done].
Qed.

(** Every turn ends, and does what [turn] says. *)
Lemma lexStep_turn l i : from <= i -> length (toks l) <= length s -> i < n -> makesTurn l i (lexStep sub s n l i).
Proof.
  intros Hfr Hlen Hi. unfold lexStep. destruct (kCharClass (at_ i)) eqn:Hc.
  - by apply lexIllegal_makes.
  - assert (Hl : at_ i <> LF) by (intros E; by rewrite E in Hc).
    pose proof (turn_space l i Hi) as Ht. unfold isWhite, isClass, blankFlags in Ht. rewrite Hc, decide_False in Ht by done.
    rewrite (plain_lines s n Hn i (i + 1)), app_nil_r in Ht by by apply plain_one. by apply makes, Ht.
  - assert (Hl : at_ i = LF).
    { unfold kCharClass in Hc. destruct (chr (at_ i) LF) eqn:E; [by chars|]. repeat case_match; done. }
    pose proof (turn_space l i Hi) as Ht. unfold isWhite, isClass, blankFlags in Ht. rewrite Hc, decide_True in Ht by done.
    rewrite lineStartsIn_one, decide_True in Ht by (by apply (at_lookup s n)). by apply makes, Ht.
  - by apply lexIdent_makes.
  - by apply lexDigit_makes.
  - by apply lexQuote_makes.
  - by apply lexPunct_makes.
  - by apply lexHash_makes.
Qed.
End step.
