(* ===== verification/LexRun.v ===== *)
(** * The whole pass

    What holds of the state of the lexer at every position ([good]), that a turn keeps it, and
    what follows for the buffer a pass leaves ([lexed]). The pass over a range and the passes over
    the interpolations in it are one induction on the length of the range. *)

From Stdlib Require Import Ascii String.
From stdpp Require Import strings.
From S2P Require Import Prelude Tokens LexScan Lexer LexScanFacts LexStep.
#[local] Open Scope nat_scope.

(** ** The last token that is not trivia *)

Definition lastSig (ts : list Token) : option Token := last (filter (fun t => isTrivia (kind t) = false) ts).
Definition lastEnd (from : nat) (ts : list Token) : nat := match lastSig ts with Some t => end_ t | None => from end.
Definition lastKind (ts : list Token) : TokenKind := match lastSig ts with Some t => kind t | None => Eof end.

Lemma lastSig_snoc ts t : lastSig (ts ++ [t]) = if isTrivia (kind t) then lastSig ts else Some t.
Proof.
  unfold lastSig. rewrite filter_app, filter_cons, filter_nil.
  destruct (isTrivia (kind t)); [rewrite decide_False by done; by rewrite app_nil_r|].
  rewrite decide_True by done. apply last_snoc.
Qed.

Lemma trivia_plain k : isTrivia k = true -> isKeyword k || isPunctuation k = false.
Proof.
  assert (Hall : forallb (fun k => negb (isTrivia k) || negb (isKeyword k || isPunctuation k)) allKinds = true)
    by (vm_compute; reflexivity).
  rewrite forallb_forall in Hall. specialize (Hall k (proj1 (list_elem_of_In _ _) (list_elem_of_lookup_2 _ _ _ (allKinds_index k)))).
  intros Hk. rewrite Hk in Hall. by apply negb_true_iff in Hall.
Qed.

(** ** Flags *)

Definition bit (m f : Z) : bool := negb (Z.land f m =? 0)%Z.

Lemma bit_lor m f g : bit m (Z.lor f g) = bit m f || bit m g.
Proof.
  unfold bit. rewrite Z.land_lor_distr_l. rewrite <- negb_andb. f_equal. apply eq_true_iff_eq.
  rewrite andb_true_iff, !Z.eqb_eq. apply Z.lor_eq_0_iff.
Qed.

Section run.
Context (s : Text) (n from : nat).
#[local] Abbreviation at_ := (at_ s n).

(** ** Tokens tile the range *)

Definition whiteRange (a b : nat) : Prop := a <= b /\ forall k, a <= k < b -> isWhite (at_ k) = true.

(** Tokens in their order from [lo] to [hi], with white space between them. *)
Fixpoint tiled (lo hi : nat) (ts : list Token) : Prop :=
  match ts with
  | [] => whiteRange lo hi
  | t :: ts => whiteRange lo (begin t) /\ begin t < end_ t /\ tiled (end_ t) hi ts
  end.

Lemma tiled_snoc lo mid t ts : tiled lo mid ts -> begin t = mid -> mid < end_ t -> tiled lo (end_ t) (ts ++ [t]).
Proof.
  intros Ht Hb He. revert lo Ht. induction ts as [|u ts IH]; intros lo; simpl.
  - intros Hw. rewrite Hb. split_and!; [done|lia|]. split; lia.
  - intros (Hw & Hlt & Ht). split_and!; [done..|by apply IH].
Qed.

Lemma tiled_white lo i ts : tiled lo i ts -> isWhite (at_ i) = true -> tiled lo (i + 1) ts.
Proof.
  intros Ht Hw. revert lo Ht. induction ts as [|u ts IH]; intros lo; simpl.
  - intros [Hle Hall]. split; [lia|]. intros k Hk. destruct (decide (k = i)) as [->|]; [done|]. apply Hall. lia.
  - intros (? & ? & Ht). split_and!; [done..|by apply IH].
Qed.

Lemma tiled_le lo hi ts : tiled lo hi ts -> lo <= hi.
Proof.
  revert lo. induction ts as [|t ts IH]; intros lo; simpl; [by intros [? _]|].
  intros ([? _] & ? & Ht). specialize (IH _ Ht). lia.
Qed.

Lemma tiled_in lo hi ts t : tiled lo hi ts -> t ∈ ts -> lo <= begin t /\ begin t < end_ t /\ end_ t <= hi.
Proof.
  revert lo. induction ts as [|u ts IH]; intros lo; simpl; [by intros _ ?%elem_of_nil|].
  intros ([? _] & ? & Ht) [->|Hin]%elem_of_cons; [apply tiled_le in Ht; lia|].
  destruct (IH _ Ht Hin). lia.
Qed.

(** There are not more tokens than bytes. *)
Lemma tiled_count lo hi ts : tiled lo hi ts -> lo + length ts <= hi.
Proof.
  revert lo. induction ts as [|t ts IH]; intros lo; simpl; [intros [? _]; lia|].
  intros ([? _] & ? & Ht). specialize (IH _ Ht). lia.
Qed.

(** ** What the buffer remembers of the text *)

(** The flags of a token say what separates it from the last token that is not trivia, and a lone
    [<] is an opening bracket when it touches such a token that an operand can end with. *)
Definition flagsOf (before : list Token) (t : Token) : Prop :=
  bit 1 (flags t) = (lastEnd from before <? begin t) /\
  bit 2 (flags t) = spansLines s (lastEnd from before) (begin t) /\
  (kind t = LAngle -> lastEnd from before = begin t /\ endsAngleHost (lastKind before) = true) /\
  (kind t = Lt -> ~ (lastEnd from before = begin t /\ endsAngleHost (lastKind before) = true)).

Definition flagsExact (ts : list Token) : Prop :=
  forall before t after, ts = before ++ t :: after -> flagsOf before t.

Lemma flagsExact_snoc ts t : flagsExact ts -> flagsOf ts t -> flagsExact (ts ++ [t]).
Proof.
  intros Hts Ht before u after E.
  destruct after as [|v after] using rev_ind.
  - apply app_inj_tail in E as [-> ->]. done.
  - rewrite app_comm_cons, app_assoc in E. apply app_inj_tail in E as [E _]. by eapply Hts.
Qed.

Definition errorOf (e : LexError) (t : Token) : Prop :=
  errKind e = errorKindAt (at_ (begin t)) /\ begin t <= errBegin e < errEnd e /\ errEnd e = end_ t.

(** An interpolation lies in the formatted string it names. *)
Definition partIn (ts : list Token) (lo : nat) (p : FStringInterpolation) : Prop :=
  lo <= open_ p /\ exists t, ts !! token p = Some t /\ kind t = FString /\
    partAt s n (begin t + 1) (end_ t) p /\ partSplit s n p.

Record good (l : Lex) (i : nat) : Prop := {
  g_pos : from <= i <= n;
  g_tiled : tiled from i (toks l);
  g_spelled t : t ∈ toks l -> kind t <> Eof /\ spelled (kind t) (slice s (begin t) (end_ t)) /\
    longest s n (kind t) (begin t) (end_ t);
  g_lines : lines l = 0 :: lineStartsIn s 0 i;
  g_space : bit 1 (pending l) = (lastEnd from (toks l) <? i);
  g_newline : bit 2 (pending l) = spansLines s (lastEnd from (toks l)) i;
  g_zero : (pending l =? 0)%Z = negb (bit 1 (pending l));
  g_previous : previous l = lastKind (toks l);
  g_last : from <= lastEnd from (toks l) <= i;
  g_flags : flagsExact (toks l);
  g_errors : Forall2 errorOf (errs l) (filter (fun t => kind t = Error) (toks l));
  g_parts : chain (partIn (toks l)) 0 (parts l) /\ Forall (fun p => close p < i) (parts l);
}.

(** ** A turn keeps it *)

Context (Hn : n <= length s) (Hfit : (Z.of_nat (length s) < 2 ^ 32)%Z).

Lemma pending_flags l i k : good l i -> angle l k ->
  flagsOf (toks l) (mkToken i (i + 1) k (pending l)).
Proof.
  intros Hg [Ha1 Ha2]. unfold flagsOf. simpl. unfold opensAngle in *.
  rewrite (g_zero _ _ Hg), (g_space _ _ Hg), (g_previous _ _ Hg) in *. pose proof (g_last _ _ Hg).
  split_and!; [done|apply Hg|..].
  - intros ->. specialize (Ha1 eq_refl). apply andb_true_iff in Ha1 as [H1%negb_true_iff H2].
    apply Nat.ltb_ge in H1. split; [lia|done].
  - intros -> [E Hk]. specialize (Ha2 eq_refl). rewrite Hk, E, Nat.ltb_irrefl in Ha2. done.
Qed.

Lemma flagsOf_end before b e e' k f : flagsOf before (mkToken b e k f) -> flagsOf before (mkToken b e' k f).
Proof. done. Qed.

Lemma spansLines_app a b c : a <= b -> b <= c -> spansLines s a c = spansLines s a b || spansLines s b c.
Proof.
  intros Hab Hbc. unfold spansLines. rewrite (lineStartsIn_app s a b c) by lia.
  by destruct (lineStartsIn s a b).
Qed.

Lemma partIn_more ts us lo lo' p : lo' <= lo -> partIn ts lo p -> partIn (ts ++ us) lo' p.
Proof.
  intros Hlo (Hp & t & Ht & Hr). split; [lia|]. exists t. split; [|done]. by apply lookup_app_l_Some.
Qed.

Lemma chain_app (P : nat -> FStringInterpolation -> Prop) lo m ps qs :
  (forall lo lo' p, lo' <= lo -> P lo p -> P lo' p) -> lo <= m ->
  chain P lo ps -> Forall (fun p => close p < m) ps -> chain P m qs -> chain P lo (ps ++ qs).
Proof.
  intros HP. revert lo. induction ps as [|p ps IH]; intros lo Hlo; simpl.
  - intros _ _ Hq. eapply chain_weaken; [exact Hlo|exact HP|done].
  - intros [Hp Hps] [Hc Hall]%Forall_cons Hq. split; [done|]. by apply IH; [lia|..].
Qed.

Lemma white_lines i : i < n -> spansLines s i (i + 1) = bool_decide (at_ i = LF).
Proof.
  intros Hi. unfold spansLines. rewrite lineStartsIn_one. pose proof (at_lookup s n i LF Hn Hi) as Ha.
  case_decide as Hd; case_bool_decide; naive_solver.
Qed.

Lemma parts_named ts t tok ps lo :
  ts !! tok = Some t -> kind t = FString -> begin t + 1 <= lo -> chain (partOf s n tok (end_ t)) lo ps ->
  chain (partIn ts) lo ps /\ Forall (fun p => close p < end_ t) ps.
Proof.
  intros Ht Hk. revert lo. induction ps as [|p ps IH]; intros lo Hlo; simpl; [by split|].
  intros [(Htok & Hat & Hsp) Hps]. pose proof Hat as (? & ? & ? & ? & ? & ? & ?).
  destruct (IH (close p + 1)) as [Hc Hall]; [lia|done|]. split; [|constructor; [lia|done]]. split; [|done].
  split; [done|]. exists t. rewrite Htok. split_and!; try done. unfold partAt. split_and!; try done. lia.
Qed.

(** What a token appended at [i] leaves of the invariant. *)
Lemma good_token l i k e ls es ps pend prev :
  good l i -> i < e <= n -> k <> Eof -> spelled k (slice s i e) -> longest s n k i e -> angle l k ->
  ls = lines l ++ lineStartsIn s i e ->
  (if isTrivia k
   then pend = Z.lor (pending l) (if spansLines s i e then 3 else 1) /\ prev = previous l
   else pend = 0%Z /\ prev = k) ->
  errorsOf s n k i e es ->
  chain (partOf s n (length (toks l)) e) (i + 1) ps -> (k = FString \/ ps = []) ->
  good (mkLex (toks l ++ [mkToken i e k (pending l)]) (errs l ++ es) (parts l ++ ps) ls pend prev) e.
Proof.
  intros Hg Hb Hk Hs Hm Ha -> Hpend Hes Hps Hfs. pose proof (g_last _ _ Hg) as Hlast. pose proof (g_pos _ _ Hg) as Hpos.
  assert (Hlk : lastSig (toks l ++ [mkToken i e k (pending l)]) =
    if isTrivia k then lastSig (toks l) else Some (mkToken i e k (pending l))) by apply lastSig_snoc.
  assert (Hle : lastEnd from (toks l ++ [mkToken i e k (pending l)]) = if isTrivia k then lastEnd from (toks l) else e).
  { unfold lastEnd. rewrite Hlk. by destruct (isTrivia k). }
  assert (Hbits : bit 1 pend = negb (negb (isTrivia k)) /\
    bit 2 pend = (if isTrivia k then spansLines s (lastEnd from (toks l)) e else false) /\
    (pend =? 0)%Z = negb (isTrivia k) /\ prev = if isTrivia k then lastKind (toks l) else k).
  { destruct (isTrivia k); destruct Hpend as [-> ->]; [|done]. rewrite !bit_lor, (g_newline _ _ Hg), (g_previous _ _ Hg).
    rewrite (spansLines_app (lastEnd from (toks l)) i e) by lia. split_and!; [| | |done].
    - destruct (spansLines s i e); by apply orb_true_intro; right.
    - by destruct (spansLines s i e).
    - apply Z.eqb_neq. intros E. apply Z.lor_eq_0_iff in E as [_ E]. by destruct (spansLines s i e). }
  destruct Hbits as (H1 & H2 & H3 & H4). split; simpl.
  - lia.
  - apply (tiled_snoc from i (mkToken i e k (pending l))); [apply Hg|done|simpl; lia].
  - intros t [Ht|Ht]%elem_of_app; [by apply (g_spelled _ _ Hg)|]. apply list_elem_of_singleton in Ht as ->. done.
  - rewrite (g_lines _ _ Hg). simpl. f_equal. symmetry. apply lineStartsIn_app; lia.
  - rewrite H1, Hle. destruct (isTrivia k); simpl; symmetry; [apply Nat.ltb_lt; lia|apply Nat.ltb_irrefl].
  - rewrite H2, Hle. destruct (isTrivia k); [done|]. unfold spansLines. by rewrite lineStartsIn_nil by lia.
  - by rewrite H3, H1, !negb_involutive.
  - unfold lastKind. rewrite Hlk. rewrite H4. by destruct (isTrivia k).
  - rewrite Hle. destruct (isTrivia k); lia.
  - apply flagsExact_snoc; [apply Hg|]. eapply flagsOf_end. by apply pending_flags.
  - rewrite filter_app, filter_cons, filter_nil. simpl. unfold errorsOf in Hes. case_decide as Ek.
    + destruct Hes as (b & -> & Hbe). apply Forall2_app; [apply Hg|]. constructor; [|done]. split; [done|]. simpl. lia.
    + subst es. rewrite !app_nil_r. apply Hg.
  - destruct (g_parts _ _ Hg) as [Hch Hcl].
    set (t := mkToken i e k (pending l)).
    assert (Hnew : chain (partIn (toks l ++ [t])) (i + 1) ps /\ Forall (fun p => close p < e) ps).
    { destruct Hfs as [->| ->]; [|done]. apply (parts_named _ t (length (toks l))); try done.
      by apply list_lookup_middle. }
    destruct Hnew as [Hnew Hlt]. split.
    + apply (chain_app _ 0 (i + 1)); [intros lo lo' p Hlo [? ?]; split; [lia|done]|lia| | |done].
      * eapply chain_weaken; [|intros lo lo' p Hlo; by apply partIn_more|exact Hch]. lia.
      * eapply Forall_impl; [exact Hcl|]. simpl. lia.
    + apply Forall_app. split; [|done]. eapply Forall_impl; [exact Hcl|]. simpl. lia.
Qed.

Lemma good_space l i : good l i -> i < n -> isWhite (at_ i) = true ->
  good (mkLex (toks l) (errs l) (parts l) (lines l ++ lineStartsIn s i (i + 1))
          (Z.lor (pending l) (blankFlags (at_ i))) (previous l)) (i + 1).
Proof.
  intros Hg Hi Hw. pose proof (g_last _ _ Hg) as Hlast. pose proof (g_pos _ _ Hg) as Hpos.
  assert (Hb : bit 1 (blankFlags (at_ i)) = true /\ bit 2 (blankFlags (at_ i)) = spansLines s i (i + 1)).
  { rewrite white_lines by done. unfold blankFlags. case_decide as Hl; case_bool_decide; done. }
  destruct Hb as [Hb1 Hb2].
  assert (H1 : bit 1 (Z.lor (pending l) (blankFlags (at_ i))) = true) by (rewrite bit_lor, Hb1; apply orb_true_r).
  split; simpl; try apply Hg.
  - lia.
  - apply tiled_white; [apply Hg|done].
  - rewrite (g_lines _ _ Hg). simpl. f_equal. symmetry. apply lineStartsIn_app; lia.
  - rewrite H1. symmetry. apply Nat.ltb_lt. lia.
  - rewrite bit_lor, Hb2, (g_newline _ _ Hg). symmetry. apply spansLines_app; lia.
  - rewrite H1. apply Z.eqb_neq. intros E. rewrite E in H1. done.
  - lia.
  - destruct (g_parts _ _ Hg) as [Hch Hcl]. split; [done|]. eapply Forall_impl; [exact Hcl|]. simpl. lia.
Qed.

Lemma good_turn l i l' e : good l i -> turn s n l i l' e -> good l' e /\ i < e.
Proof.
  intros Hg Ht. destruct Ht as [Hi Hw|k e ps Hb [Hk Hne] Hs Hm Ha Hps Hfs|k e es Hb Hk Hes].
  - split; [by apply good_space|lia].
  - split; [|lia]. rewrite <- (app_nil_r (errs l)). apply (good_token l i k e); try done.
    + by rewrite Hk.
    + unfold errorsOf. rewrite decide_False; [done|]. by intros ->.
  - split; [|lia]. rewrite <- (app_nil_r (parts l)). apply (good_token l i k e); try done; [by intros ->| | |by split; intros ->| |by right].
    + split; [by rewrite trivia_plain|by intros ->].
    + pose proof (trivia_plain k Hk) as [H1 H2]%orb_false_iff. split; [by rewrite H2|].
      unfold isWord. rewrite H1, !bool_decide_eq_false_2; [done|by intros ->..].
    + by rewrite Hk.
Qed.

(** ** The loop *)

Context (sub : nat -> nat -> option (list Token)).
Context (Hsub : forall b e, from < b -> b <= e < n -> exists ts, sub b e = Some ts /\ colonsIn s b e ts).

Lemma lexLoop_good fuel l i : good l i -> n <= i + fuel -> exists l', lexLoop sub s n fuel l i = Some l' /\ good l' n.
Proof.
  revert l i. induction fuel as [|fuel IH]; intros l i Hg Hf; simpl; pose proof (g_pos _ _ Hg) as Hpos.
  - destruct (Nat.ltb_spec i n); [lia|]. exists l. split; [done|]. by replace n with i by lia.
  - destruct (Nat.ltb_spec i n) as [Hi|Hi].
    2: { exists l. split; [done|]. by replace n with i by lia. }
    pose proof (tiled_count _ _ _ (g_tiled _ _ Hg)) as Hcount.
    destruct (lexStep_turn sub s n from Hn Hfit Hsub l i) as (l' & e & -> & Ht); [lia..|]. simpl.
    destruct (good_turn _ _ _ _ Hg Ht) as [Hg' Hlt]. apply IH; [done|lia].
Qed.

Lemma good_start : from <= n -> good (mkLex [] [] [] (0 :: lineStartsIn s 0 from) 0 Eof) from.
Proof.
  intros Hfn. split; simpl; try done; try lia.
  - split; lia.
  - by intros t ?%elem_of_nil.
  - unfold lastEnd. simpl. by rewrite Nat.ltb_irrefl.
  - unfold lastEnd, spansLines. simpl. by rewrite lineStartsIn_nil by lia.
  - intros [|? ?] ? ?; done.
Qed.
End run.

(** ** The buffer *)

(** The buffer of a pass over [from .. to). *)
Record lexed (s : Text) (from to : nat) (buf : TokenBuffer) (body : list Token) : Prop := {
  lx_source : source_ buf = s;
  lx_tokens : exists f, tokens_ buf = body ++ [mkToken to to Eof f];
  lx_tiled : tiled s to from to body;
  lx_spelled t : t ∈ body -> kind t <> Eof /\ spelled (kind t) (slice s (begin t) (end_ t)) /\
    longest s to (kind t) (begin t) (end_ t);
  lx_flags : flagsExact s from (tokens_ buf);
  lx_errors : Forall2 (errorOf s to) (errors_ buf) (filter (fun t => kind t = Error) body);
  lx_parts : chain (partIn s to body) 0 (interpolations_ buf);
  lx_lines : lineStarts_ buf = 0 :: lineStartsIn s 0 (length s);
}.

(** The colons of a buffer are where its tokens are. *)
Lemma lexed_colons s from to buf body : to <= length s -> lexed s from to buf body -> colonsIn s from to (tokens_ buf).
Proof.
  intros Hto Hl t Ht Hk. destruct (lx_tokens _ _ _ _ _ Hl) as [f E]. rewrite E in Ht.
  apply elem_of_app in Ht as [Ht|Ht]; [|apply list_elem_of_singleton in Ht as ->; done].
  destruct (tiled_in s to from to body t (lx_tiled _ _ _ _ _ Hl) Ht) as (H1 & H2 & H3).
  destruct (lx_spelled _ _ _ _ _ Hl t Ht) as (_ & [Hs _] & _). rewrite Hk in Hs. specialize (Hs eq_refl).
  assert (Hlen : length (slice s (begin t) (end_ t)) = end_ t - begin t).
  { unfold slice. rewrite length_take, length_drop. lia. }
  assert (He : end_ t = begin t + 1) by (rewrite Hs in Hlen; simpl in Hlen; lia).
  assert (H0 : slice s (begin t) (end_ t) !! 0 = Some ":"%char) by by rewrite Hs.
  unfold slice in H0. rewrite lookup_take_lt, lookup_drop, Nat.add_0_r in H0 by lia. split_and!; [lia|lia|done|done].
Qed.

Lemma tokenizeImpl_lexed depth s from to : (Z.of_nat (length s) < 2 ^ 32)%Z ->
  from <= to <= length s -> to - from < depth ->
  exists buf body, tokenizeImpl depth s from to = Some buf /\ lexed s from to buf body.
Proof.
  intros Hfit. revert from to. induction depth as [|depth IH]; intros from to Hb Hd; [lia|].
  assert (Hsub : forall b e, from < b -> b <= e < to -> exists ts,
    (tokens_ <$> tokenizeImpl depth s (b `min` length s) (e `min` length s)) = Some ts /\ colonsIn s b e ts).
  { intros b e Hfb Hbe. rewrite !Nat.min_l by lia. destruct (IH b e) as (buf & body & -> & Hl); [lia..|].
    eexists. split; [done|]. eapply lexed_colons; [|exact Hl]. lia. }
  cbn [tokenizeImpl].
  assert (Hto : to <= length s) by lia. assert (Hft : from <= to) by lia.
  destruct (lexLoop_good s to from Hto Hfit _ Hsub (to - from) _ from (good_start s to from Hto Hft)) as (l & -> & Hg);
    [lia|]. cbn [mbind option_bind].
  eexists _, (toks l). split; [done|]. split; simpl; try apply Hg.
  - done.
  - exists (pending l). by rewrite !(off_id s) by (done || lia).
  - apply flagsExact_snoc; [apply Hg|]. rewrite !(off_id s) by (done || lia).
    apply (pending_flags s to from Hto l to Eof Hg). by split.
  - rewrite (g_lines _ _ _ _ _ Hg). simpl. f_equal. symmetry. apply lineStartsIn_app; lia.
Qed.
