(* ===== verification/LexLines.v ===== *)
(** * Lines and neighbours

    The line table of a buffer against the line feeds of its text, and the searches for the next
    and the previous token that is not trivia. *)

From Stdlib Require Import Ascii String.
From stdpp Require Import strings.
From S2P Require Import Prelude Tokens LexScan Lexer LexScanFacts LexStep LexRun.
#[local] Open Scope nat_scope.

(** ** Lines *)

(** The line feeds in front of an offset. *)
Definition lineFeeds (s : Text) (offset : nat) : nat := length (filter (fun c => c = LF) (take offset s)).

Lemma upperBound_app offset l1 l2 : Forall (fun x => x <= offset) l1 ->
  upperBound offset (l1 ++ l2) = length l1 + upperBound offset l2.
Proof.
  induction 1 as [|x l1 Hx _ IH]; simpl; [done|]. destruct (Nat.ltb_spec offset x); [lia|]. by rewrite IH.
Qed.

Lemma upperBound_above offset l : Forall (fun x => offset < x) l -> upperBound offset l = 0.
Proof. destruct 1 as [|x l Hx _]; simpl; [done|]. by destruct (Nat.ltb_spec offset x); [|lia]. Qed.

Lemma lineStartsIn_bound s a b : (Z.of_nat (length s) < 2 ^ 32)%Z -> b <= length s ->
  Forall (fun x => a < x <= b) (lineStartsIn s a b).
Proof.
  intros Hfit Hb. apply Forall_forall. intros x. unfold lineStartsIn. rewrite list_elem_of_fmap.
  intros (k & -> & Hk). apply list_elem_of_filter in Hk as [_ Hk%elem_of_seq]. rewrite (off_id s) by (done || lia). lia.
Qed.

Lemma lineStartsIn_length s offset : offset <= length s -> length (lineStartsIn s 0 offset) = lineFeeds s offset.
Proof.
  intros Ho. unfold lineFeeds. induction offset as [|o IH]; [done|].
  rewrite (lineStartsIn_app s 0 o (S o)) by lia. replace (S o) with (o + 1) at 1 by lia.
  rewrite length_app, lineStartsIn_one, IH by lia.
  destruct (lookup_lt_is_Some_2 s o) as [c Hc]; [lia|]. rewrite (take_S_r s o c Hc), filter_app, length_app.
  f_equal. rewrite filter_cons, filter_nil, Hc. destruct (decide (c = LF)) as [->|Hne]; simpl; [done|].
  rewrite decide_False; [done|]. congruence.
Qed.

Lemma lineOf_spec s buf offset : (Z.of_nat (length s) < 2 ^ 32)%Z -> offset <= length s ->
  lineStarts_ buf = 0 :: lineStartsIn s 0 (length s) -> lineOf buf offset = lineFeeds s offset.
Proof.
  intros Hfit Ho Hl. unfold lineOf. rewrite Hl. simpl.
  rewrite (lineStartsIn_app s 0 offset) by lia. rewrite upperBound_app, upperBound_above, Nat.add_0_r, Nat.sub_0_r.
  - by apply lineStartsIn_length.
  - eapply Forall_impl; [by apply (lineStartsIn_bound s offset)|]. simpl. lia.
  - eapply Forall_impl; [by apply (lineStartsIn_bound s 0)|]. simpl. lia.
Qed.

(** The start of the line an offset is in: behind the last line feed in front of it. *)
Lemma lineStart_spec s buf offset : (Z.of_nat (length s) < 2 ^ 32)%Z -> offset <= length s ->
  lineStarts_ buf = 0 :: lineStartsIn s 0 (length s) ->
  exists b, lineStarts_ buf !! lineOf buf offset = Some b /\ b <= offset /\
    (b = 0 \/ 0 < b /\ s !! (b - 1) = Some LF) /\ forall k, b <= k < offset -> s !! k <> Some LF.
Proof.
  intros Hfit Ho Hl. rewrite (lineOf_spec s) by done. rewrite <- lineStartsIn_length by done. rewrite Hl.
  rewrite (lineStartsIn_app s 0 offset (length s)) by lia.
  pose proof (lineStartsIn_bound s 0 offset Hfit Ho) as Hb. clear Hl.
  destruct (lineStartsIn s 0 offset) as [|x l] eqn:E using rev_ind.
  - exists 0. simpl. split_and!; [done|lia|by left|]. intros k Hk Hlf.
    assert (Hs : spansLines s 0 offset = true) by (apply spansLines_spec; eauto). unfold spansLines in Hs. by rewrite E in Hs.
  - clear IHl. exists x. rewrite length_app. simpl.
    rewrite Nat.add_1_r. simpl. rewrite <- app_assoc. simpl.
    rewrite list_lookup_middle by done. apply Forall_app in Hb as [Hb Hx]. apply Forall_singleton in Hx.
    assert (Hin : x ∈ lineStartsIn s 0 offset) by (rewrite E; apply elem_of_app; right; by left).
    unfold lineStartsIn in Hin. apply list_elem_of_fmap in Hin as (m & -> & Hm).
    apply list_elem_of_filter in Hm as [Hlf Hm%elem_of_seq]. rewrite (off_id s) in * by (done || lia).
    split_and!; [done|lia|right; split; [lia|by replace (m + 1 - 1) with m by lia]|].
    intros k Hk Hk'. rewrite (lineStartsIn_app s 0 (m + 1) offset) in E by lia.
    pose proof (lineStartsIn_bound s (m + 1) offset Hfit Ho) as Hbo.
    assert (Hs : spansLines s (m + 1) offset = true) by (apply spansLines_spec; eauto). unfold spansLines in Hs.
    destruct (lineStartsIn s (m + 1) offset) as [|y l' _] using rev_ind; [done|].
    rewrite app_assoc in E. apply app_inj_tail in E as [_ Ey]. apply Forall_app in Hbo as [_ Hy].
    apply Forall_cons in Hy as [Hy _]. lia.
Qed.

(** ** Neighbours *)

Lemma nextFrom_spec fuel toks i : length toks <= i + fuel -> let j := nextFrom fuel toks i in
  i <= j /\ (forall k, i <= k < j -> triviaAt toks k = true) /\ triviaAt toks j = false.
Proof.
  revert i. induction fuel as [|fuel IH]; intros i Hf; simpl.
  - split_and!; [done|lia|]. unfold triviaAt. by rewrite lookup_ge_None_2 by lia.
  - destruct (triviaAt toks i) eqn:Et; [|split_and!; [done|lia|done]].
    destruct (IH (i + 1)) as (H1 & H2 & H3); [lia|]. split_and!; [lia| |done].
    intros k Hk. destruct (decide (k = i)) as [->|]; [done|]. apply H2. lia.
Qed.

Lemma previousSignificant_spec toks i :
  match previousSignificant toks i with
  | Some j => j <= i /\ triviaAt toks j = false /\ forall k, j < k <= i -> triviaAt toks k = true
  | None => forall k, k <= i -> triviaAt toks k = true
  end.
Proof.
  induction i as [|i IH]; simpl.
  - destruct (triviaAt toks 0) eqn:E; [|split_and!; [done|done|lia]]. intros k Hk. by replace k with 0 by lia.
  - destruct (triviaAt toks (S i)) eqn:E; [|split_and!; [done|done|lia]].
    assert (Hx : forall (P : nat -> Prop) k, (k <= i -> P k) -> P (S i) -> k <= S i -> P k).
    { intros P k H1 H2 Hk. destruct (decide (k = S i)) as [->|]; [done|apply H1; lia]. }
    destruct (previousSignificant toks i) as [j|].
    + destruct IH as (H1 & H2 & H3). split_and!; [lia|done|]. intros k Hk.
      destruct (decide (k = S i)) as [->|]; [done|apply H3; lia].
    + intros k Hk. destruct (decide (k = S i)) as [->|]; [done|apply IH; lia].
Qed.

(** * Two readers of strings

    The strings inside of a [${...}] are skipped by [skipQuoted], and read again by the lexer when
    it comes to them. The two agree on where a string ends. *)

Section quoted.
Context (s : Text) (n : nat).
#[local] Abbreviation at_ := (at_ s n).

Lemma lexBody_skip fuel c j ls :
  match skipBody fuel s n c j with
  | Some e => exists ls', lexBody fuel s n c j ls = (true, e, ls')
  | None => exists e ls', lexBody fuel s n c j ls = (false, e, ls')
  end.
Proof.
  revert j ls. induction fuel as [|fuel IH]; intros j ls; simpl; [eauto|].
  destruct (j <? n); [|eauto]. destruct (chr (at_ j) c); [eauto|]. destruct (_ && _ && _); apply IH.
Qed.

(** More fuel does not change a result. *)
Lemma skip_more fuel :
  (forall j r, skipFString fuel s n j = Some r -> forall more, skipFString (fuel + more) s n j = Some r) /\
  (forall j depth r, scanInterpolation fuel s n j depth = Some r ->
     forall more, scanInterpolation (fuel + more) s n j depth = Some r).
Proof.
  induction fuel as [|fuel [IHs IHi]]; [done|]. split.
  - intros j r. simpl. destruct (j <? n); [|done]. destruct (chr (at_ j) TICK); [done|].
    destruct (chr (at_ j) BSLASH && _).
    { destruct (_ && _ && _); [apply IHs|]. destruct (_ || _); apply IHs. }
    destruct (_ && _ && _); [|apply IHs].
    destruct (scanInterpolation fuel s n (j + 2) 0) as [[e|]|] eqn:Ei; cbn [mbind option_bind]; [..|done];
      intros Hr more; rewrite (IHi _ _ _ Ei more); cbn [mbind option_bind]; [by apply IHs|done].
  - intros j depth r. simpl. destruct (j <? n); [|done].
    destruct (_ || _ || _).
    { destruct (chr (at_ j) TICK).
      - destruct (skipFString fuel s n (j + 1)) as [[e|]|] eqn:Es; cbn [mbind option_bind]; [..|done];
          intros Hr more; rewrite (IHs _ _ Es more); cbn [mbind option_bind]; [by apply IHi|done].
      - cbn [mbind option_bind]. destruct (quoted s n j); [apply IHi|done]. }
    destruct (_ && _ && _); [apply IHi|]. destruct (_ && _ && _).
    { destruct (find _ s n (j + 2)); [apply IHi|done]. }
    destruct (chr (at_ j) "{"); [apply IHi|]. destruct (chr (at_ j) "}"); [|apply IHi].
    destruct depth; [done|apply IHi].
Qed.

Lemma scan_same f g j depth r r' : scanInterpolation f s n j depth = Some r ->
  scanInterpolation g s n j depth = Some r' -> r = r'.
Proof.
  intros Hf Hg. apply (proj2 (skip_more _)) with (more := g) in Hf. apply (proj2 (skip_more _)) with (more := f) in Hg.
  rewrite Nat.add_comm in Hg. congruence.
Qed.

Context (Hfit : (Z.of_nat (length s) < 2 ^ 32)%Z) (Hn : n <= length s).

Lemma lexFString_skip f g j ps : j <= n < j + f -> n < j + g ->
  exists r closed j' new, skipFString g s n j = Some r /\ lexFString f s n j ps = Some (closed, j', ps ++ new) /\
    match r with Some e => closed = true /\ j' = e | None => closed = false end.
Proof.
  revert g j ps. induction f as [|f IH]; intros g j ps Hj Hg; [lia|]. destruct g as [|g]; [lia|]. simpl.
  destruct (Nat.ltb_spec j n); [|exists None, false, j, []; by rewrite app_nil_r].
  destruct (chr (at_ j) TICK); [exists (Some (j + 1)), true, (j + 1), []; by rewrite app_nil_r|].
  destruct (chr (at_ j) BSLASH && (j + 1 <? n)) eqn:Eb; chars.
  { destruct ((j + 2 <? n) && _ && _) eqn:E2; chars; [apply IH; lia|].
    destruct (chr (at_ (j + 1)) TICK); simpl; [apply IH; lia|].
    destruct (chr (at_ (j + 1)) BSLASH); apply IH; lia. }
  destruct (chr (at_ j) "$" && (j + 1 <? n) && _) eqn:E2; chars; [|apply IH; lia].
  destruct (scanInterpolation_spec s n j) as (r & Hr & Hclose); [lia|].
  destruct (proj2 (skip_spec s n g) (j + 2) 0) as (r' & Hr' & _); [lia|].
  pose proof (scan_same _ _ _ _ _ _ Hr Hr') as <-. rewrite Hr, Hr'. cbn [mbind option_bind].
  destruct r as [c|]; [|exists None, false, j, []; by rewrite app_nil_r].
  destruct (Hclose c eq_refl) as [Hcb _].
  destruct (IH g (c + 1) (ps ++ [mkPart 0 (off j) (off (j + 2)) 0 0 0 (off c) false])) as (r & cl & j' & new & Hs & Hl & Hm);
    [lia..|].
  exists r, cl, j', (mkPart 0 (off j) (off (j + 2)) 0 0 0 (off c) false :: new). rewrite Hs, Hl. split_and!; try done.
  by rewrite <- app_assoc.
Qed.

(** The outcome of reading a string at [i]: a token that ends where the skipper says, or the error
    of an unclosed string where it finds no end. *)
Definition readsAs (l : Lex) (i : nat) (skipped : option nat) (r : Lex * nat) : Prop :=
  match skipped with
  | Some e => r.2 = e /\ errs r.1 = errs l /\ exists k, k ∈ [String; MultiStr; FString] /\
      toks r.1 = toks l ++ [mkToken i e k (pending l)]
  | None => exists e, errs r.1 = errs l ++ [mkError UnclosedString i e] /\
      toks r.1 = toks l ++ [mkToken i e Error (pending l)] /\ r.2 = e
  end.

Context (sub : nat -> nat -> option (list Token)) (from : nat).
Context (Hsub : forall b e, from < b -> b <= e < n -> exists ts, sub b e = Some ts /\ colonsIn s b e ts).

Lemma unclosed_reads l i : i < n -> readsAs l i None (unclosed s n i i l).
Proof.
  intros Hi. exists (lineEnd s n i). destruct (skipWhile_spec s n (fun c => negb (chr c LF)) i) as ([_ He] & _); [lia|].
  fold (lineEnd s n i) in He. unfold unclosed, emitTrivia, addError. simpl. by rewrite !(off_id s) by (done || lia).
Qed.

Lemma lexQuote_skip l i : from <= i < n -> length (toks l) <= length s -> kCharClass (at_ i) = kQuote ->
  exists skipped r, skipQuoted s n i = Some skipped /\ lexQuote sub s n l i = Some r /\ readsAs l i skipped r.
Proof.
  intros Hi Hlen Hc. destruct (quote_class _ Hc) as [Hl _]. unfold lexQuote, skipQuoted. set (c := at_ i) in *.
  destruct (chr c TICK) eqn:Et; simpl.
  - destruct (lexFString_skip (n - i) (S n - i) (i + 1) []) as (r & cl & j & new & Hs & Hlx & Hm); [lia..|].
    exists r. rewrite Hs, Hlx. cbn [mbind option_bind]. simpl app. destruct r as [e|].
    + destruct Hm as [-> ->]. destruct (lexFString_spec s n Hn Hfit (n - i) (i + 1) []) as (cl & j & new' & Hlx' & Hch); [lia|].
      rewrite Hlx in Hlx'. injection Hlx' as <- <- <-. destruct (Hch eq_refl) as [Hb Hc'].
      destruct (splitParts_spec sub s n from Hn Hsub (off (length (toks l))) e (i + 1) new) as (ps & -> & _); [lia..|done|].
      cbn [mbind option_bind]. eexists. split; [done|]. split; [done|]. simpl. split_and!; [done..|].
      exists FString. rewrite !(off_id s) by (done || lia). split; [|done]. by repeat constructor.
    + subst cl. eexists. split; [done|]. split; [done|]. apply unclosed_reads. lia.
  - unfold quoted. fold c.
    destruct ((i + 2 <? n) && chr (at_ (i + 1)) c && chr (at_ (i + 2)) c) eqn:Etr; chars.
    + match goal with H1 : at_ (i + 1) = c, H2 : at_ (i + 2) = c |- _ => rewrite H1, H2 end.
      rewrite chr_refl. simpl. destruct (find [c; c; c] s n (i + 3)) as [k|] eqn:Hf.
      * apply find_Some in Hf as (? & Hk & _); [|done]. simpl in Hk.
        eexists _, _. split; [done|]. split; [done|]. simpl. split_and!; [done..|]. exists MultiStr.
        rewrite !(off_id s) by (done || lia). split; [|done]. by repeat constructor.
      * destruct (n - i) as [|f] eqn:Ef; [lia|]. simpl. destruct (Nat.ltb_spec (i + 1) n); [|lia].
        match goal with H1 : at_ (i + 1) = c |- _ => rewrite H1 end. rewrite chr_refl.
        eexists _, _. split; [done|]. split; [done|]. simpl. replace (i + 1 + 1) with (i + 2) by lia.
        split_and!; [done..|]. exists String. rewrite !(off_id s) by (done || lia). split; [|done]. by repeat constructor.
    + assert (Hno : chr (at_ (i + 1)) c && chr (at_ (i + 2)) c = false).
      { apply not_true_iff_false. intros E. apply andb_true_iff in E as [E1 E2]. rewrite E1, E2, !andb_true_r in Etr.
        apply Nat.ltb_ge in Etr. chars. assert (c <> NUL) by (intros E; by rewrite E in Hc).
        pose proof (at_eq s n (i + 2) c E2 ltac:(done)). lia. }
      rewrite Hno. pose proof (lexBody_skip (n - i) c (i + 1) (lines l)) as Hb.
      destruct (skipBody (n - i) s n c (i + 1)) as [e|] eqn:Hs.
      * destruct Hb as [ls ->]. apply skipBody_Some in Hs.
        eexists _, _. split; [done|]. split; [done|]. simpl. split_and!; [done..|]. exists String.
        rewrite !(off_id s) by (done || lia). split; [|done]. by repeat constructor.
      * destruct Hb as (e & ls & ->). eexists _, _. split; [done|]. split; [done|]. apply unclosed_reads. lia.
Qed.
End quoted.
