(* ===== verification/LexerProps.v ===== *)
(** * What the lexer promises

    The properties of the lexer (Tokens, LexScan, Lexer) and of the buffer it fills. They hold for
    texts of less than 2^32 bytes, the texts whose offsets fit the fields of a token. *)

From Stdlib Require Import Ascii String.
From stdpp Require Import strings.
From S2P Require Import Prelude Tokens LexScan Lexer LexScanFacts LexStep LexRun LexLines.
#[local] Open Scope nat_scope.

(** Texts whose offsets fit 32 bits. *)
Definition fits (s : Text) : Prop := (Z.of_nat (length s) < 2 ^ 32)%Z.

Lemma tokenizeRange_lexed s b e : fits s -> b <= e <= length s ->
  exists buf body, tokenizeRange s b e = Some buf /\ lexed s b e buf body.
Proof.
  intros Hs Hb. unfold tokenizeRange. rewrite !Nat.min_l by lia. by apply tokenizeImpl_lexed; [..|lia].
Qed.

Lemma lexed_of s b e buf : fits s -> b <= e <= length s -> tokenizeRange s b e = Some buf ->
  exists body, lexed s b e buf body.
Proof. intros Hs Hb E. destruct (tokenizeRange_lexed s b e Hs Hb) as (buf' & body & E' & Hl). simplify_eq. eauto. Qed.

(** Every token but the last one, which is the end of the text. *)
Definition bodyOf (buf : TokenBuffer) : list Token := take (length (tokens_ buf) - 1) (tokens_ buf).

Lemma lexed_body s b e buf body : lexed s b e buf body -> bodyOf buf = body.
Proof.
  intros Hl. destruct (lx_tokens _ _ _ _ _ Hl) as [f E]. unfold bodyOf. rewrite E, length_app. simpl.
  replace (length body + 1 - 1) with (length body) by lia. apply take_app_length.
Qed.

Definition isFormatted (t : Token) : Prop := kind t = FString.

(** A text with every class of byte: a comment, names, numbers, an argument list, a comparison, a
    formatted string with a specification, an unclosed string. *)
Definition sample : Text :=
  T "let f<int> = a < 0x1F; // one" ++ [LF] ++ T "`sum ${m[1:2]: .3f}`==='x y" ++ [LF] ++ T "0b9 ...".
Lemma sample_fits : fits sample.
Proof. vm_compute. reflexivity. Qed.
Lemma sample_range : 0 <= length sample <= length sample.
Proof. vm_compute. lia. Qed.

(** What [tokenizeRange] gives for the sample. *)
Definition sampleBuf : TokenBuffer :=
  match tokenizeRange sample 0 (length sample) with Some buf => buf | None => mkBuffer [] [] [] [] [] end.
Lemma sample_buf : tokenizeRange sample 0 (length sample) = Some sampleBuf.
Proof. vm_compute. reflexivity. Qed.

(** C17. The lexer ends on every range of a text, whatever bytes it holds, and loses nothing: the
    tokens lie one behind the other from the start of the range to its end, none is empty, what is
    between them is white space, and the one that closes the buffer marks the end. *)
Theorem tokens_tile s b e : fits s -> b <= e <= length s ->
  exists buf f, tokenizeRange s b e = Some buf /\ source_ buf = s /\
    tokens_ buf = bodyOf buf ++ [mkToken e e Eof f] /\ tiled s e b e (bodyOf buf) /\
    forall t, t ∈ bodyOf buf -> kind t <> Eof.
Proof.
  intros Hs Hb. destruct (tokenizeRange_lexed s b e Hs Hb) as (buf & body & E & Hl).
  destruct (lx_tokens _ _ _ _ _ Hl) as [f Ht]. exists buf, f. rewrite (lexed_body s b e buf body Hl).
  split_and!; try done; apply Hl.
Qed.

Lemma tokens_tile_witness : exists buf f, tokenizeRange sample 0 (length sample) = Some buf /\ source_ buf = sample /\
  tokens_ buf = bodyOf buf ++ [mkToken (length sample) (length sample) Eof f] /\
  tiled sample (length sample) 0 (length sample) (bodyOf buf) /\ forall t, t ∈ bodyOf buf -> kind t <> Eof.
Proof. exact (tokens_tile sample 0 (length sample) sample_fits sample_range). Defined.

(** C18. A keyword, an operator or a separator is spelled as the table of kinds says, and no longer
    operator fits where one was read. A name is none of the keywords, and neither a name nor a
    keyword goes on behind its end. *)
Theorem tokens_spelled s b e buf t : fits s -> b <= e <= length s -> tokenizeRange s b e = Some buf -> t ∈ bodyOf buf ->
  (isKeyword (kind t) || isPunctuation (kind t) = true -> text buf t = tokenKindText (kind t)) /\
  (kind t = Identifier -> (text buf t ∉ kwText <$> keywordTable) /\ text buf t <> tokenKindText Underscore) /\
  (isPunctuation (kind t) = true -> forall k, isPunctuation k = true -> isAt (tokenKindText k) s e (begin t) = true ->
     length (tokenKindText k) <= end_ t - begin t) /\
  (isWord (kind t) = true -> end_ t < e -> isIdentPart (at_ s e (end_ t)) = false).
Proof.
  intros Hs Hb Hr Ht. destruct (lexed_of s b e buf Hs Hb Hr) as [body Hl]. rewrite (lexed_body s b e buf body Hl) in Ht.
  destruct (lx_spelled _ _ _ _ _ Hl t Ht) as (_ & [H1 H2] & [H3 H4]). unfold text. rewrite (lx_source _ _ _ _ _ Hl). done.
Qed.

(** The operator [===] of the sample. *)
Lemma tokens_spelled_witness : let t := mkToken 50 53 EqEqEq 0 in t ∈ bodyOf sampleBuf /\
  (isKeyword (kind t) || isPunctuation (kind t) = true -> text sampleBuf t = tokenKindText (kind t)) /\
  (kind t = Identifier -> (text sampleBuf t ∉ kwText <$> keywordTable) /\ text sampleBuf t <> tokenKindText Underscore) /\
  (isPunctuation (kind t) = true -> forall k, isPunctuation k = true ->
     isAt (tokenKindText k) sample (length sample) (begin t) = true -> length (tokenKindText k) <= end_ t - begin t) /\
  (isWord (kind t) = true -> end_ t < length sample -> isIdentPart (at_ sample (length sample) (end_ t)) = false).
Proof.
  assert (Ht : mkToken 50 53 EqEqEq 0 ∈ bodyOf sampleBuf).
  { apply list_elem_of_lookup_2 with (i := 12). vm_compute. reflexivity. }
  split; [exact Ht|]. exact (tokens_spelled sample 0 (length sample) sampleBuf _ sample_fits sample_range sample_buf Ht).
Defined.

(** C19. The flags of a token say exactly whether anything separates it from the last token that
    is not a comment or an error, and whether a line feed is there. A lone [<] is an opening
    bracket exactly when it touches such a token that a type or a call can end with; all the
    others are comparisons. *)
Theorem flags_exact s b e buf before t after :
  fits s -> b <= e <= length s -> tokenizeRange s b e = Some buf -> tokens_ buf = before ++ t :: after ->
  spaceBefore t = (lastEnd b before <? begin t) /\
  newlineBefore t = spansLines s (lastEnd b before) (begin t) /\
  (kind t = LAngle -> lastEnd b before = begin t /\ endsAngleHost (lastKind before) = true) /\
  (kind t = Lt -> ~ (lastEnd b before = begin t /\ endsAngleHost (lastKind before) = true)).
Proof.
  intros Hs Hb Hr Ht. destruct (lexed_of s b e buf Hs Hb Hr) as [body Hl].
  exact (lx_flags _ _ _ _ _ Hl before t after Ht).
Qed.

(** The formatted string of the sample, behind a comment and a line feed. *)
Lemma flags_exact_witness : let t := mkToken 30 50 FString 3 in let before := take 11 (tokens_ sampleBuf) in
  spaceBefore t = (lastEnd 0 before <? begin t) /\
  newlineBefore t = spansLines sample (lastEnd 0 before) (begin t) /\
  (kind t = LAngle -> lastEnd 0 before = begin t /\ endsAngleHost (lastKind before) = true) /\
  (kind t = Lt -> ~ (lastEnd 0 before = begin t /\ endsAngleHost (lastKind before) = true)).
Proof.
  refine (flags_exact sample 0 (length sample) sampleBuf _ (mkToken 30 50 FString 3) (drop 12 (tokens_ sampleBuf))
    sample_fits sample_range sample_buf _).
  vm_compute. reflexivity.
Defined.

(** The line table of a buffer, even of a range, is the table of the whole text: the line of
    an offset is the number of line feeds in front of it, and its column counts the code points
    between the last of them and the offset. *)
Theorem lines_exact s b e buf offset : fits s -> b <= e <= length s -> tokenizeRange s b e = Some buf ->
  offset <= length s ->
  lineOf buf offset = lineFeeds s offset /\
  exists start, start <= offset /\ (start = 0 \/ 0 < start /\ s !! (start - 1) = Some LF) /\
    (forall k, start <= k < offset -> s !! k <> Some LF) /\
    columnOf buf offset = length (filter (fun c => startsCodePoint c = true) (slice s start offset)).
Proof.
  intros Hs Hb Hr Ho. destruct (lexed_of s b e buf Hs Hb Hr) as [body Hl].
  pose proof (lx_lines _ _ _ _ _ Hl) as Hlines. split; [by apply lineOf_spec|].
  destruct (lineStart_spec s buf offset Hs Ho Hlines) as (start & Hst & H1 & H2 & H3). exists start.
  split_and!; try done. unfold columnOf. by rewrite Hst, (lx_source _ _ _ _ _ Hl).
Qed.

Lemma lines_exact_witness : lineOf sampleBuf 53 = lineFeeds sample 53 /\
  exists start, start <= 53 /\ (start = 0 \/ 0 < start /\ sample !! (start - 1) = Some LF) /\
    (forall k, start <= k < 53 -> sample !! k <> Some LF) /\
    columnOf sampleBuf 53 = length (filter (fun c => startsCodePoint c = true) (slice sample start 53)).
Proof.
  refine (lines_exact sample 0 (length sample) sampleBuf 53 sample_fits sample_range sample_buf _).
  vm_compute. lia.
Defined.

(** C20. The perfect hash of the keywords is right: building its table from the list of keywords
    succeeds, and looking a word up in it gives for every text what a search of the list gives, the
    wildcard and the names that are in no list included. *)
Theorem keywords_exact (t : Text) : classifyWord t = Some
  (if decide (t = tokenKindText Underscore) then Underscore
   else match list_find (fun w => kwText w = t) keywordTable with Some (_, w) => kwKind w | None => Identifier end).
Proof. apply classifyWord_spec. Qed.

(** C21. Every lexical error leaves one token of text that is skipped, in its place, and every such
    token has its error, in the same order. The kind of an error is told by the byte its token
    starts with, and the error ends where its token ends. *)
Theorem errors_exact s b e buf : fits s -> b <= e <= length s -> tokenizeRange s b e = Some buf ->
  Forall2 (fun er t => errKind er = errorKindAt (at_ s e (begin t)) /\ begin t <= errBegin er < errEnd er /\ errEnd er = end_ t)
    (errors_ buf) (filter (fun t => kind t = Error) (bodyOf buf)).
Proof.
  intros Hs Hb Hr. destruct (lexed_of s b e buf Hs Hb Hr) as [body Hl]. rewrite (lexed_body s b e buf body Hl).
  exact (lx_errors _ _ _ _ _ Hl).
Qed.

Lemma errors_exact_witness : length (errors_ sampleBuf) = 2 /\
  Forall2 (fun er t => errKind er = errorKindAt (at_ sample (length sample) (begin t)) /\
      begin t <= errBegin er < errEnd er /\ errEnd er = end_ t)
    (errors_ sampleBuf) (filter (fun t => kind t = Error) (bodyOf sampleBuf)).
Proof.
  split; [vm_compute; reflexivity|]. exact (errors_exact sample 0 (length sample) sampleBuf sample_fits sample_range sample_buf).
Defined.

(** C22. The interpolations of a buffer come in the order of the text, none inside of another one.
    Each lies inside the formatted string it names, starts with a dollar and a brace, ends with a
    brace, and is split at a colon of it into an expression and a format, or not at all. *)
Theorem interpolations_exact s b e buf : fits s -> b <= e <= length s -> tokenizeRange s b e = Some buf ->
  chain (fun lo p => lo <= open_ p /\ exists t, bodyOf buf !! token p = Some t /\ kind t = FString /\
      partAt s e (begin t + 1) (end_ t) p /\ partSplit s e p) 0 (interpolations_ buf).
Proof.
  intros Hs Hb Hr. destruct (lexed_of s b e buf Hs Hb Hr) as [body Hl]. rewrite (lexed_body s b e buf body Hl).
  exact (lx_parts _ _ _ _ _ Hl).
Qed.

Lemma interpolations_exact_witness : length (interpolations_ sampleBuf) = 1 /\
  chain (fun lo p => lo <= open_ p /\ exists t, bodyOf sampleBuf !! token p = Some t /\ kind t = FString /\
      partAt sample (length sample) (begin t + 1) (end_ t) p /\ partSplit sample (length sample) p)
    0 (interpolations_ sampleBuf).
Proof.
  split; [vm_compute; reflexivity|].
  exact (interpolations_exact sample 0 (length sample) sampleBuf sample_fits sample_range sample_buf).
Defined.

(** The tokens of a part of a text, as the lexer asks for them. *)
Definition subTokens (s : Text) (b e : nat) : option (list Token) :=
  tokens_ <$> tokenizeImpl (length s) s (b `min` length s) (e `min` length s).

Lemma subTokens_colons s n b e : fits s -> n <= length s -> 0 < b -> b <= e < n ->
  exists ts, subTokens s b e = Some ts /\ colonsIn s b e ts.
Proof.
  intros Hs Hn Hb0 Hb. unfold subTokens. rewrite !Nat.min_l by lia.
  destruct (tokenizeImpl_lexed (length s) s b e Hs) as (buf & body & -> & Hl); [lia..|].
  eexists. split; [done|]. eapply lexed_colons; [|exact Hl]. lia.
Qed.

(** The scan that skips the strings inside of a [${...}] and the lexer that reads them later
    agree: at every quote both end, and either the lexer reads one string that ends where the scan
    says, without an error, or the scan finds no end and the lexer reports a string that is not
    closed. *)
Theorem skipQuoted_agrees s n l i : fits s -> i < n <= length s -> length (toks l) <= length s ->
  kCharClass (at_ s n i) = kQuote ->
  exists skipped r, skipQuoted s n i = Some skipped /\ lexStep (subTokens s) s n l i = Some r /\ readsAs l i skipped r.
Proof.
  intros Hs Hi Hl Hc. unfold lexStep. rewrite Hc.
  apply (lexQuote_skip s n Hs ltac:(lia) (subTokens s) 0); [|lia|done..]. intros b e. apply subTokens_colons; [done|lia].
Qed.

Lemma skipQuoted_agrees_witness : let l := mkLex [] [] [] [0] 0 Eof in
  exists skipped r, skipQuoted sample (length sample) 30 = Some skipped /\
    lexStep (subTokens sample) sample (length sample) l 30 = Some r /\ readsAs l 30 skipped r.
Proof. apply (skipQuoted_agrees sample (length sample) _ 30 sample_fits); vm_compute; first [lia|reflexivity]. Defined.
