(* ===== verification/Cst.v ===== *)
(** * The concrete syntax tree

    src/include/camel/parse/syntax/cst.h and node_kinds.def: the kinds of nodes, the arrays of a
    tree, the errors of the parser, and the searches over the children of a node. A child word is
    a token index or a node number; the bit that tells them apart in the source is a constructor
    here, so there are fewer than 2^31 tokens and nodes. *)

From Stdlib Require Import Ascii String.
From stdpp Require Import strings.
From S2P Require Import Prelude Tokens.
#[local] Open Scope nat_scope.

(** ** Kinds *)

Module NK.
(** One kind per production of the grammar. *)
Inductive NodeKind :=
    | Error | Program | StmtList | ModuleName | ImportDecl | BracedImports | ImportItem
    | ExportDecl | ResourceDecl | UsingNamespaceDecl | NamespaceDecl | BlockStmt | StmtBlock
    | FuncAnno | TagDecl | TagPositions | TagReaders | TagUse | TagRef | FuncDecl | ResourceClause
    | WhenClause | OperatorName | RuleDecl | RuleBody | FactDecl | FactBody | FactCase
    | FactPattern | FactClause | DataDecl | TypeDecl | RetStmt | Modifiers | ParentIdents
    | BracedIdents | BracketIdents | KeyTypePair | KeyValuePair | KeyParamPair | DataList
    | IdentList | IndexValues | PairedValues | StrayPositional | PairedParams | ArgumentList
    | Indices | SliceIndices | ParentParams | ParentArgues | AngledParams | AngledValues
    | TypeArguments | TypeParams | NamedTypeArgument | Pattern | EnumTuplePattern
    | EnumStructPattern | MatchCase | TypeCasePattern | TypeCase | TypeArm | MemberAccess
    | TypeList | IdentDef | IdentRef | RestValue | IfExpr | MatchExpr | MatchTypeExpr
    | StaticForExpr | StaticLoopExpr | LoopExpr | LoopState | LoopFor | LoopWhile | AssignExpr
    | LogicalOrExpr | LogicalAndExpr | OrExpr | AndExpr | EqualityExpr | RelationalExpr
    | AdditiveExpr | MultiplicativeExpr | PowerExpr | NullableExpr | CastExpr | UnaryExpr
    | LinkExpr | RangeExpr | AnnoExpr | AccessExpr | RefData | ConstasData | Literal | ArrayData
    | StructData | TupleData | ShapeComp | FuncData | TypeExpr | ArrayType | ArrayDim | SpecType
    | ConstData | StructType | RefType | PackType | ParenType | TupleType | FuncType | TypeOfType
    | MatchTypeType | EnumType | EnumVariant | EnumField | TupleParam.

(** The kinds in the order of the table. *)
Definition allNodeKinds : list NodeKind := [
  Error; Program; StmtList; ModuleName; ImportDecl; BracedImports; ImportItem; ExportDecl;
  ResourceDecl; UsingNamespaceDecl; NamespaceDecl; BlockStmt; StmtBlock; FuncAnno; TagDecl;
  TagPositions; TagReaders; TagUse; TagRef; FuncDecl; ResourceClause; WhenClause; OperatorName;
  RuleDecl; RuleBody; FactDecl; FactBody; FactCase; FactPattern; FactClause; DataDecl; TypeDecl;
  RetStmt; Modifiers; ParentIdents; BracedIdents; BracketIdents; KeyTypePair; KeyValuePair;
  KeyParamPair; DataList; IdentList; IndexValues; PairedValues; StrayPositional; PairedParams;
  ArgumentList; Indices; SliceIndices; ParentParams; ParentArgues; AngledParams; AngledValues;
  TypeArguments; TypeParams; NamedTypeArgument; Pattern; EnumTuplePattern; EnumStructPattern;
  MatchCase; TypeCasePattern; TypeCase; TypeArm; MemberAccess; TypeList; IdentDef; IdentRef;
  RestValue; IfExpr; MatchExpr; MatchTypeExpr; StaticForExpr; StaticLoopExpr; LoopExpr; LoopState;
  LoopFor; LoopWhile; AssignExpr; LogicalOrExpr; LogicalAndExpr; OrExpr; AndExpr; EqualityExpr;
  RelationalExpr; AdditiveExpr; MultiplicativeExpr; PowerExpr; NullableExpr; CastExpr; UnaryExpr;
  LinkExpr; RangeExpr; AnnoExpr; AccessExpr; RefData; ConstasData; Literal; ArrayData; StructData;
  TupleData; ShapeComp; FuncData; TypeExpr; ArrayType; ArrayDim; SpecType; ConstData; StructType;
  RefType; PackType; ParenType; TupleType; FuncType; TypeOfType; MatchTypeType; EnumType;
  EnumVariant; EnumField; TupleParam ].

(** The kinds an expression, and a type, can have. *)
Definition exprKinds : list NodeKind := [
  RestValue; IfExpr; MatchExpr; MatchTypeExpr; StaticForExpr; StaticLoopExpr; LoopExpr; AssignExpr;
  LogicalOrExpr; LogicalAndExpr; OrExpr; AndExpr; EqualityExpr; RelationalExpr; AdditiveExpr;
  MultiplicativeExpr; PowerExpr; NullableExpr; CastExpr; UnaryExpr; LinkExpr; RangeExpr; AnnoExpr;
  AccessExpr; RefData; ConstasData; Literal; ArrayData; StructData; TupleData; ShapeComp; FuncData ].
Definition typeKinds : list NodeKind := [
  TypeExpr; ArrayType; ArrayDim; SpecType; ConstData; StructType; RefType; PackType; ParenType;
  TupleType; FuncType; TypeOfType; MatchTypeType; EnumType ].

(** The place of a kind in the table. *)
Definition nodeIndex (k : NodeKind) : nat :=
  match k with
  | Error => 0 | Program => 1 | StmtList => 2 | ModuleName => 3 | ImportDecl => 4
  | BracedImports => 5 | ImportItem => 6 | ExportDecl => 7 | ResourceDecl => 8
  | UsingNamespaceDecl => 9 | NamespaceDecl => 10 | BlockStmt => 11 | StmtBlock => 12
  | FuncAnno => 13 | TagDecl => 14 | TagPositions => 15 | TagReaders => 16 | TagUse => 17
  | TagRef => 18 | FuncDecl => 19 | ResourceClause => 20 | WhenClause => 21 | OperatorName => 22
  | RuleDecl => 23 | RuleBody => 24 | FactDecl => 25 | FactBody => 26 | FactCase => 27
  | FactPattern => 28 | FactClause => 29 | DataDecl => 30 | TypeDecl => 31 | RetStmt => 32
  | Modifiers => 33 | ParentIdents => 34 | BracedIdents => 35 | BracketIdents => 36
  | KeyTypePair => 37 | KeyValuePair => 38 | KeyParamPair => 39 | DataList => 40 | IdentList => 41
  | IndexValues => 42 | PairedValues => 43 | StrayPositional => 44 | PairedParams => 45
  | ArgumentList => 46 | Indices => 47 | SliceIndices => 48 | ParentParams => 49
  | ParentArgues => 50 | AngledParams => 51 | AngledValues => 52 | TypeArguments => 53
  | TypeParams => 54 | NamedTypeArgument => 55 | Pattern => 56 | EnumTuplePattern => 57
  | EnumStructPattern => 58 | MatchCase => 59 | TypeCasePattern => 60 | TypeCase => 61
  | TypeArm => 62 | MemberAccess => 63 | TypeList => 64 | IdentDef => 65 | IdentRef => 66
  | RestValue => 67 | IfExpr => 68 | MatchExpr => 69 | MatchTypeExpr => 70 | StaticForExpr => 71
  | StaticLoopExpr => 72 | LoopExpr => 73 | LoopState => 74 | LoopFor => 75 | LoopWhile => 76
  | AssignExpr => 77 | LogicalOrExpr => 78 | LogicalAndExpr => 79 | OrExpr => 80 | AndExpr => 81
  | EqualityExpr => 82 | RelationalExpr => 83 | AdditiveExpr => 84 | MultiplicativeExpr => 85
  | PowerExpr => 86 | NullableExpr => 87 | CastExpr => 88 | UnaryExpr => 89 | LinkExpr => 90
  | RangeExpr => 91 | AnnoExpr => 92 | AccessExpr => 93 | RefData => 94 | ConstasData => 95
  | Literal => 96 | ArrayData => 97 | StructData => 98 | TupleData => 99 | ShapeComp => 100
  | FuncData => 101 | TypeExpr => 102 | ArrayType => 103 | ArrayDim => 104 | SpecType => 105
  | ConstData => 106 | StructType => 107 | RefType => 108 | PackType => 109 | ParenType => 110
  | TupleType => 111 | FuncType => 112 | TypeOfType => 113 | MatchTypeType => 114 | EnumType => 115
  | EnumVariant => 116 | EnumField => 117 | TupleParam => 118
  end.

Lemma allNodeKinds_index k : allNodeKinds !! nodeIndex k = Some k.
Proof. by destruct k. Qed.

#[export] Instance NodeKind_eq_dec : EqDecision NodeKind.
Proof.
  intros a b. destruct (decide (nodeIndex a = nodeIndex b)) as [E|E].
  - left. pose proof (allNodeKinds_index a) as Ha. rewrite E, allNodeKinds_index in Ha. by injection Ha.
  - right. by intros ->.
Defined.
End NK.
Export (hints) NK.
Abbreviation NodeKind := NK.NodeKind.

Inductive NodeCategory := Other | Expr | Type_.
Definition nodeCategory (k : NodeKind) : NodeCategory :=
  if decide (k ∈ NK.exprKinds) then Expr else if decide (k ∈ NK.typeKinds) then Type_ else Other.
Definition isExprKind (k : NodeKind) : bool := bool_decide (k ∈ NK.exprKinds).
Definition isTypeKind (k : NodeKind) : bool := bool_decide (k ∈ NK.typeKinds).

(** ** Errors *)

Inductive SyntaxErrorKind :=
  | Unexpected | Missing | AssignmentInCondition | MissingThen | MissingInitializer | KeywordAsName
  | ExtraSemicolon | ComparisonNeedsSpace | AngleCloseAfterSpace | LineStartsWithSign | WhenAfterBody
  | AsRightSideIsType | FuncTypeNeedsNames.

(** A member of [expected]: the kind of a token, or one of the [Pseudo] values. *)
Inductive Expected :=
  | Tok (k : TokenKind) | Expression | Declaration | Statement | TypeExpression | PatternItem.

Record SyntaxError := mkSyntaxError {
  seKind : SyntaxErrorKind; seToken : nat; seAux : nat; seExpected : list Expected }.

(** ** Trees *)

Inductive Word := TokenWord (i : nat) | NodeWord (id : nat).
#[export] Instance Word_eq_dec : EqDecision Word.
Proof. solve_decision. Defined.

(** [parent] is [None] for [UINT32_MAX]. *)
Record NodeData := mkNode {
  firstChild : nat; childCount : nat; firstToken : nat; lastToken : nat; parent : option nat;
  nkind : NodeKind; nflags : Z }.

Definition kEmptyNode : Z := 1.
Definition kPackName : Z := 2.
Definition emptyNode (d : NodeData) : bool := negb (Z.land (nflags d) kEmptyNode =? 0)%Z.
Definition writtenAsPack (d : NodeData) : bool := negb (Z.land (nflags d) kPackName =? 0)%Z.

Record Tree := mkTree {
  tokenBuffer : TokenBuffer; nodes_ : list NodeData; children_ : list Word;
  treeErrors : list SyntaxError; root_ : option nat }.

Definition hasErrors (t : Tree) : bool :=
  match treeErrors t, errors_ (tokenBuffer t) with [], [] => false | _, _ => true end.

(** The words of a node's children. *)
Definition childWords (children : list Word) (d : NodeData) : list Word :=
  take (childCount d) (drop (firstChild d) children).

(** ** Searches over the children of a node *)

Inductive Filter := OfKind (k : NodeKind) | kAnyExpr | kAnyType | kAnyNode.
Definition passes (k : NodeKind) (f : Filter) : bool :=
  match f with
  | OfKind k' => bool_decide (k = k')
  | kAnyExpr => isExprKind k
  | kAnyType => isTypeKind k
  | kAnyNode => true
  end.

Section access.
Context (t : Tree).

Definition wordPasses (f : Filter) (w : Word) : bool :=
  match w with
  | TokenWord _ => false
  | NodeWord id => match nodes_ t !! id with Some d => passes (nkind d) f | None => false end
  end.
Definition wordIsToken (k : TokenKind) (w : Word) : bool :=
  match w with TokenWord i => kindAt (tokens_ (tokenBuffer t)) i k | NodeWord _ => false end.

Definition wordsOf (id : nat) : list Word :=
  match nodes_ t !! id with Some d => childWords (children_ t) d | None => [] end.

(** [Node::nodeBy], [Node::tok]: the [nth] child that passes. *)
Definition nodeBy (id : nat) (f : Filter) (nth : nat) : option Word :=
  filter (fun w => wordPasses f w = true) (wordsOf id) !! nth.
Definition countBy (id : nat) (f : Filter) : nat := length (filter (fun w => wordPasses f w = true) (wordsOf id)).
Definition tok (id : nat) (k : TokenKind) (nth : nat) : option Word :=
  filter (fun w => wordIsToken k w = true) (wordsOf id) !! nth.
Definition tokCount (id : nat) (k : TokenKind) : nat :=
  length (filter (fun w => wordIsToken k w = true) (wordsOf id)).

(** [Node::text]: the tokens of a node run together. *)
Definition nodeText (id : nat) : Text :=
  match nodes_ t !! id with
  | None => []
  | Some d =>
      if emptyNode d then []
      else
        concat ((fun tk => text (tokenBuffer t) tk) <$>
          filter (fun tk => isTrivia (kind tk) = false)
            (take (lastToken d + 1 - firstToken d) (drop (firstToken d) (tokens_ (tokenBuffer t)))))
  end.
End access.
