(* ===== verification/ParserState.v ===== *)
(** * The state of the parser and its helpers

    The class [ParserImpl] of src/src/parse/syntax/parser_impl.h with the infrastructure of
    parser.cpp: the state, the look-aheads, the building of nodes, errors and recovery. A
    production is a [P unit]: a function of the state that gives a state, or [None] when a loop or
    the nesting of productions runs out of fuel. The stack has its top first. *)

From Stdlib Require Import Ascii String.
From stdpp Require Import strings.
From S2P Require Import Prelude Tokens Cst.
#[local] Open Scope nat_scope.

Record Parser := mkParser {
  tree_ : Tree; pos_ : nat; prev_ : nat; stack_ : list Word;
  nl_ : bool; angle_ : option nat; constData_ : bool; spacedGt_ : option nat; lambdaParams_ : bool;
  panic_ : bool; depth_ : nat; typeHead_ : bool }.

Definition kMaxDepth : nat := 400.

Definition setTree (t : Tree) (s : Parser) : Parser :=
  mkParser t (pos_ s) (prev_ s) (stack_ s) (nl_ s) (angle_ s) (constData_ s) (spacedGt_ s) (lambdaParams_ s)
    (panic_ s) (depth_ s) (typeHead_ s).
Definition setPos (p prev : nat) (s : Parser) : Parser :=
  mkParser (tree_ s) p prev (stack_ s) (nl_ s) (angle_ s) (constData_ s) (spacedGt_ s) (lambdaParams_ s)
    (panic_ s) (depth_ s) (typeHead_ s).
Definition setStack (st : list Word) (s : Parser) : Parser :=
  mkParser (tree_ s) (pos_ s) (prev_ s) st (nl_ s) (angle_ s) (constData_ s) (spacedGt_ s) (lambdaParams_ s)
    (panic_ s) (depth_ s) (typeHead_ s).
Definition setPanic (b : bool) (s : Parser) : Parser :=
  mkParser (tree_ s) (pos_ s) (prev_ s) (stack_ s) (nl_ s) (angle_ s) (constData_ s) (spacedGt_ s) (lambdaParams_ s)
    b (depth_ s) (typeHead_ s).
Definition setLayout (nl : bool) (angle spacedGt : option nat) (s : Parser) : Parser :=
  mkParser (tree_ s) (pos_ s) (prev_ s) (stack_ s) nl angle (constData_ s) spacedGt (lambdaParams_ s)
    (panic_ s) (depth_ s) (typeHead_ s).
Definition setConstData (b : bool) (s : Parser) : Parser :=
  mkParser (tree_ s) (pos_ s) (prev_ s) (stack_ s) (nl_ s) (angle_ s) b (spacedGt_ s) (lambdaParams_ s)
    (panic_ s) (depth_ s) (typeHead_ s).
Definition setLambdaParams (b : bool) (s : Parser) : Parser :=
  mkParser (tree_ s) (pos_ s) (prev_ s) (stack_ s) (nl_ s) (angle_ s) (constData_ s) (spacedGt_ s) b
    (panic_ s) (depth_ s) (typeHead_ s).
Definition setDepth (d : nat) (s : Parser) : Parser :=
  mkParser (tree_ s) (pos_ s) (prev_ s) (stack_ s) (nl_ s) (angle_ s) (constData_ s) (spacedGt_ s) (lambdaParams_ s)
    (panic_ s) d (typeHead_ s).
Definition setTypeHead (b : bool) (s : Parser) : Parser :=
  mkParser (tree_ s) (pos_ s) (prev_ s) (stack_ s) (nl_ s) (angle_ s) (constData_ s) (spacedGt_ s) (lambdaParams_ s)
    (panic_ s) (depth_ s) b.

Definition buffer (s : Parser) : TokenBuffer := tokenBuffer (tree_ s).
Definition toks_ (s : Parser) : list Token := tokens_ (buffer s).

(** ** Productions *)

Definition P (A : Type) : Type := Parser -> option (A * Parser).

#[export] Instance P_ret : MRet P := fun A a s => Some (a, s).
#[export] Instance P_bind : MBind P := fun A B f m s =>
  match m s with Some (a, s') => f a s' | None => None end.

Definition skip : P unit := mret ().
Definition modify (f : Parser -> Parser) : P unit := fun s => Some ((), f s).
Definition gets {A} (f : Parser -> A) : P A := fun s => Some (f s, s).

(** Conditions read the state. *)
Definition Cond : Type := Parser -> bool.
Definition no (a : Cond) : Cond := fun s => negb (a s).
Notation "a &&& b" := (fun s : Parser => andb (a s) (b s)) (at level 40, left associativity) : camel_scope.
Notation "a ||| b" := (fun s : Parser => orb (a s) (b s)) (at level 50, left associativity) : camel_scope.

Definition if_ {A} (c : Cond) (a b : P A) : P A := fun s => if c s then a s else b s.
Definition when_ (c : Cond) (a : P unit) : P unit := if_ c a skip.

Fixpoint whileFor (fuel : nat) (c : Cond) (body : P unit) : P unit := fun s =>
  if c s then
    match fuel with
    | O => None
    | S fuel => (body ≫= fun _ => whileFor fuel c body) s
    end
  else Some ((), s).

(** The loop [while (c) body]. Every turn takes a token, which bounds the turns. *)
Definition while_ (c : Cond) (body : P unit) : P unit := fun s =>
  whileFor (S (length (toks_ s) - pos_ s)) c body s.

(** A loop with a [break]: [body] says whether the loop goes on. *)
Fixpoint loopFor (fuel : nat) (body : P bool) : P unit := fun s =>
  match fuel with
  | O => None
  | S fuel => (body ≫= fun more => if (more : bool) then loopFor fuel body else skip) s
  end.
Definition loop_ (body : P bool) : P unit := fun s => loopFor (S (S (length (toks_ s) - pos_ s))) body s.

(** ** Tokens *)

Definition kindOf (ts : list Token) (i : nat) : TokenKind :=
  match ts !! i with Some t => kind t | None => Eof end.
Definition isK (k k' : TokenKind) : bool := bool_decide (k = k').
Definition isOneOf (k : TokenKind) (ks : list TokenKind) : bool := existsb (isK k) ks.

(** The next token that is not trivia. *)
Definition after (ts : list Token) (i : nat) : nat := nextFrom (length ts - (i + 1)) ts (i + 1).

(** [cur_] *)
Definition cur (s : Parser) : TokenKind := kindOf (toks_ s) (pos_ s).
Definition at_ (k : TokenKind) : Cond := fun s => isK (cur s) k.
Definition atAny (ks : list TokenKind) : Cond := fun s => isOneOf (cur s) ks.

(** [offsetOf]: the index of the [n]-th token after the current one. *)
Fixpoint offsetFrom (n : nat) (ts : list Token) (i : nat) : nat :=
  match n with
  | O => i
  | S n => if isK (kindOf ts i) Eof then i else offsetFrom n ts (after ts i)
  end.
Definition offsetOf (n : nat) (s : Parser) : nat := offsetFrom n (toks_ s) (pos_ s).
Definition peek (n : nat) (s : Parser) : TokenKind := kindOf (toks_ s) (offsetOf n s).
Definition next (n : nat) (k : TokenKind) : Cond := fun s => isK (peek n s) k.
Definition nextAny (n : nat) (ks : list TokenKind) : Cond := fun s => isOneOf (peek n s) ks.

Definition textAt (s : Parser) (i : nat) : Text :=
  match toks_ s !! i with Some t => text (buffer s) t | None => [] end.

Definition advance : P unit := modify (fun s =>
  if isK (cur s) Eof then s else setPos (after (toks_ s) (pos_ s)) (pos_ s) s).

Definition push (w : Word) : P unit := modify (fun s => setStack (w :: stack_ s) s).
Definition pushCurrent : P unit := p ← gets pos_; push (TokenWord p).

Definition bump : P unit := pushCurrent;; modify (setPanic false);; advance.

Definition eat (k : TokenKind) : P bool := if_ (at_ k) (bump;; mret true) (mret false).
Definition eat' (k : TokenKind) : P unit := eat k;; skip.

Definition flagOf (f : Token -> bool) : Cond := fun s =>
  match toks_ s !! pos_ s with Some t => f t | None => false end.
Definition lineBreak : Cond := fun s => nl_ s && flagOf newlineBefore s.
Definition adjacent : Cond := fun s => negb (flagOf spaceBefore s).

(** ** Nodes *)

Definition mark : P nat := gets (fun s => length (stack_ s)).

(** The first and the last token of a word, or [None] for a node without tokens. *)
Definition wordSpan (nodes : list NodeData) (w : Word) : option (nat * nat) :=
  match w with
  | TokenWord i => Some (i, i)
  | NodeWord id =>
      match nodes !! id with
      | Some d => if emptyNode d then None else Some (firstToken d, lastToken d)
      | None => None
      end
  end.

(** The span of words in their order. *)
Definition spanOf (nodes : list NodeData) (ws : list Word) : option (nat * nat) :=
  foldl (fun span w =>
    match wordSpan nodes w, span with
    | None, _ => span
    | Some (f, l), None => Some (f, l)
    | Some (_, l), Some (f, _) => Some (f, l)
    end) None ws.

Definition setParent (p : nat) (d : NodeData) : NodeData :=
  mkNode (firstChild d) (childCount d) (firstToken d) (lastToken d) (Some p) (nkind d) (nflags d).

Definition setParents (id : nat) (ws : list Word) (nodes : list NodeData) : list NodeData :=
  foldl (fun nodes w => match w with NodeWord c => alter (setParent id) c nodes | TokenWord _ => nodes end) nodes ws.

(** The words above the mark become the children of a new node. *)
Definition close (m : nat) (k : NodeKind) : P unit := modify (fun s =>
  let t := tree_ s in
  let count := length (stack_ s) - m in
  let ws := rev (take count (stack_ s)) in
  let id := length (nodes_ t) in
  let node :=
    match spanOf (nodes_ t) ws with
    | Some (f, l) => mkNode (length (children_ t)) count f l None k 0
    | None => mkNode (length (children_ t)) count (pos_ s) (pos_ s) None k kEmptyNode
    end in
  let nodes := setParents id ws (nodes_ t) ++ [node] in
  setStack (NodeWord id :: drop count (stack_ s))
    (setTree (mkTree (tokenBuffer t) nodes (children_ t ++ ws) (treeErrors t) (root_ t)) s)).

(** ** Errors *)

Definition pushError (e : SyntaxError) (s : Parser) : Parser :=
  let t := tree_ s in
  setTree (mkTree (tokenBuffer t) (nodes_ t) (children_ t) (treeErrors t ++ [e]) (root_ t)) s.

(** The error [error] records, with what it says of an angle bracket the parser is in. *)
Definition makeError (k : SyntaxErrorKind) (expected : list Expected) (at' aux : nat) (s : Parser) : SyntaxError :=
  match k, angle_ s with
  | (Unexpected | Missing), Some a =>
      match spacedGt_ s with
      | Some g => mkSyntaxError AngleCloseAfterSpace at' g expected
      | None =>
          if isK (kindOf (toks_ s) a) LAngle then mkSyntaxError ComparisonNeedsSpace at' a expected
          else mkSyntaxError k at' aux expected
      end
  | _, _ => mkSyntaxError k at' aux expected
  end.

Definition errorAt (k : SyntaxErrorKind) (expected : list Expected) (at' : nat) : P unit := modify (fun s =>
  if panic_ s then s else pushError (makeError k expected at' 0 s) (setPanic true s)).

Definition setLastAux (aux : nat) (es : list SyntaxError) : list SyntaxError :=
  alter (fun e => mkSyntaxError (seKind e) (seToken e) aux (seExpected e)) (length es - 1) es.

(** The same with a second token, for the error this call records. *)
Definition errorAux (k : SyntaxErrorKind) (expected : list Expected) (at' aux : nat) : P unit :=
  before ← gets (fun s => length (treeErrors (tree_ s)));
  errorAt k expected at';;
  when_ (fun s => before <? length (treeErrors (tree_ s)))
    (modify (fun s =>
       let t := tree_ s in
       setTree (mkTree (tokenBuffer t) (nodes_ t) (children_ t) (setLastAux aux (treeErrors t)) (root_ t)) s)).

(** An error at the current token. *)
Definition error (k : SyntaxErrorKind) (expected : list Expected) : P unit :=
  p ← gets pos_; errorAt k expected p.
Definition unexpected (expected : list Expected) : P unit := error Unexpected expected.

Definition expect (k : TokenKind) : P bool :=
  if_ (at_ k) (bump;; mret true) (error Missing [Tok k];; mret false).
Definition expect' (k : TokenKind) : P unit := expect k;; skip.
Definition expectListEnd (closer : TokenKind) : P unit :=
  if_ (at_ closer) bump (unexpected [Tok Comma; Tok closer]).

(** A required name is not there. *)
Definition nameError : P unit :=
  if_ (fun s => isKeyword (cur s)) (error KeywordAsName [Tok Identifier]) (unexpected [Tok Identifier]).
Definition expectName (wrapAs : NodeKind) : P unit :=
  if_ (at_ Identifier) (m ← mark; bump;; close m wrapAs) nameError.

(** ** Scopes *)

Definition withScope {A} (nl : bool) (angle : option nat) (body : P A) : P A := fun s =>
  match body (setLayout nl angle None s) with
  | Some (a, s') => Some (a, setLayout (nl_ s) (angle_ s) (spacedGt_ s) s')
  | None => None
  end.
Definition withConstData {A} (inside : bool) (body : P A) : P A := fun s =>
  match body (setConstData inside s) with
  | Some (a, s') => Some (a, setConstData (constData_ s) s')
  | None => None
  end.
Definition withTypeHead {A} (body : P A) : P A := fun s =>
  match body (setTypeHead true s) with
  | Some (a, s') => Some (a, setTypeHead (typeHead_ s) s')
  | None => None
  end.
Definition withDepth {A} (body : P A) : P A := fun s =>
  match body (setDepth (S (depth_ s)) s) with
  | Some (a, s') => Some (a, setDepth (depth_ s' - 1) s')
  | None => None
  end.
Definition tooDeep : Cond := fun s => kMaxDepth <? depth_ s.
