(* ===== verification/CstRepr.v ===== *)
(** * The tree a parse leaves in its arrays

    The arrays of nodes and of children words stand for a tree of the mathematical kind
    ([Syntax]): [repr] says which, [syntaxOf] reads it off. What closing a node does to the arrays
    keeps every tree they hold ([treeOk_close]). *)

From Stdlib Require Import Ascii String.
From stdpp Require Import strings.
From S2P Require Import Prelude Tokens Cst ParserState.
#[local] Open Scope nat_scope.

(** ** The tree as a value *)

(** A tree without its arrays. *)
Inductive Syntax := Leaf (i : nat) | Inner (k : NodeKind) (children : list Syntax).

(** The syntax of a word; [fuel] bounds the height. *)
Fixpoint syntaxOf (fuel : nat) (t : Tree) (w : Word) : option Syntax :=
  match w, fuel with
  | TokenWord i, _ => Some (Leaf i)
  | NodeWord id, O => None
  | NodeWord id, S fuel =>
      d ← nodes_ t !! id;
      cs ← mapM (syntaxOf fuel t) (childWords (children_ t) d);
      Some (Inner (nkind d) cs)
  end.

(** The tokens of a syntax from left to right. *)
Fixpoint frontier (x : Syntax) : list nat :=
  match x with Leaf i => [i] | Inner _ cs => concat (frontier <$> cs) end.

Definition rootSyntax (t : Tree) : option Syntax :=
  r ← root_ t; syntaxOf (length (nodes_ t)) t (NodeWord r).

(** Induction over syntax with the hypothesis for every child. *)
Lemma Syntax_rect' (Q : Syntax -> Prop) :
  (forall i, Q (Leaf i)) -> (forall k cs, Forall Q cs -> Q (Inner k cs)) -> forall x, Q x.
Proof.
  intros HL HI. fix IH 1. intros [i|k cs]; [apply HL|]. apply HI.
  induction cs as [|c cs IHcs]; constructor; [apply IH|exact IHcs].
Qed.

(** ** What the arrays stand for *)

(** The span a node records, against the tokens below it. *)
Definition spanIs (d : NodeData) (front : list nat) : Prop :=
  match front with
  | [] => emptyNode d = true
  | f :: _ => emptyNode d = false /\ firstToken d = f /\ last front = Some (lastToken d)
  end.

(** [w] is a child of node [id]: a node that knows its parent, and was closed before it. *)
Definition childOf (nodes : list NodeData) (id : nat) (w : Word) : Prop :=
  match w with
  | TokenWord _ => True
  | NodeWord c => c < id /\ exists d, nodes !! c = Some d /\ parent d = Some id
  end.

Fixpoint repr (nodes : list NodeData) (children : list Word) (x : Syntax) (w : Word) : Prop :=
  match x with
  | Leaf i => w = TokenWord i
  | Inner k cs =>
      exists id d, w = NodeWord id /\ nodes !! id = Some d /\ nkind d = k /\
        firstChild d + childCount d <= length children /\
        spanIs d (concat (frontier <$> cs)) /\
        Forall (childOf nodes id) (childWords children d) /\
        (fix all cs ws := match cs, ws with
         | [], [] => True
         | c :: cs, w :: ws => repr nodes children c w /\ all cs ws
         | _, _ => False
         end) cs (childWords children d)
  end.

Lemma repr_inner nodes children k cs w : repr nodes children (Inner k cs) w <->
  exists id d, w = NodeWord id /\ nodes !! id = Some d /\ nkind d = k /\
    firstChild d + childCount d <= length children /\ spanIs d (concat (frontier <$> cs)) /\
    Forall (childOf nodes id) (childWords children d) /\
    Forall2 (repr nodes children) cs (childWords children d).
Proof.
  simpl. split; intros (id & d & H1 & H2 & H3 & H4 & H5 & H6 & H7); exists id, d; split_and!; try done; clear - H7.
  - revert H7. generalize (childWords children d). induction cs as [|c cs IH]; intros [|w ws]; try done.
    intros [Hc Hcs]. constructor; [done|by apply IH].
  - induction H7; by split.
Qed.

(** A later state of the arrays: nodes keep all but their flags, and a parent once they have it. *)
Definition sameNode (d d' : NodeData) : Prop :=
  firstChild d' = firstChild d /\ childCount d' = childCount d /\ firstToken d' = firstToken d /\
  lastToken d' = lastToken d /\ nkind d' = nkind d /\ emptyNode d' = emptyNode d /\
  forall p, parent d = Some p -> parent d' = Some p.
Definition later (nodes nodes' : list NodeData) : Prop :=
  forall id d, nodes !! id = Some d -> exists d', nodes' !! id = Some d' /\ sameNode d d'.

Lemma sameNode_refl d : sameNode d d.
Proof. by unfold sameNode. Qed.

Lemma sameNode_words d d' children : sameNode d d' -> childWords children d' = childWords children d.
Proof. intros (H1 & H2 & _). unfold childWords. by rewrite H1, H2. Qed.

Lemma childWords_app children more d : firstChild d + childCount d <= length children ->
  childWords (children ++ more) d = childWords children d.
Proof.
  intros Hl. unfold childWords. rewrite drop_app, take_app. rewrite length_drop.
  replace (childCount d - (length children - firstChild d)) with 0 by lia. by rewrite take_0, app_nil_r.
Qed.

Lemma childOf_later nodes nodes' id w : later nodes nodes' -> childOf nodes id w -> childOf nodes' id w.
Proof.
  intros Hl. destruct w as [i|c]; [done|]. intros (Hc & d & Hd & Hp). split; [done|].
  destruct (Hl c d Hd) as (d' & Hd' & (_ & _ & _ & _ & _ & _ & Hp')). exists d'. split; [done|]. by apply Hp'.
Qed.

Lemma repr_later nodes nodes' children more x w : later nodes nodes' ->
  repr nodes children x w -> repr nodes' (children ++ more) x w.
Proof.
  intros Hl. revert w. induction x as [i|k cs IH] using Syntax_rect'; intros w; [done|].
  rewrite !repr_inner. intros (id & d & -> & Hd & Hk & Hlen & Hs & Hc & Hcs).
  destruct (Hl id d Hd) as (d' & Hd' & Hsame). pose proof Hsame as (E1 & E2 & E3 & E4 & E5 & E6 & _).
  exists id, d'. rewrite (childWords_app children more d'), (sameNode_words d d') by (rewrite ?E1, ?E2; done).
  split_and!; try done.
  - by rewrite E5.
  - rewrite E1, E2, length_app. lia.
  - unfold spanIs in *. by rewrite E3, E4, E6.
  - eapply Forall_impl; [exact Hc|]. intros w. by apply childOf_later.
  - clear - IH Hcs. induction Hcs as [|c w cs ws Hw Hcs IHcs]; [constructor|]. inv IH.
    constructor; [auto|by apply IHcs].
Qed.

(** ** Spans *)

Definition frontSpan (front : list nat) : option (nat * nat) :=
  match front, last front with f :: _, Some l => Some (f, l) | _, _ => None end.

Lemma wordSpan_repr nodes children x w : repr nodes children x w -> wordSpan nodes w = frontSpan (frontier x).
Proof.
  destruct x as [i|k cs]; [by intros ->|]. rewrite repr_inner. intros (id & d & -> & Hd & _ & _ & Hs & _).
  simpl. rewrite Hd. unfold spanIs in Hs. destruct (concat (frontier <$> cs)) as [|f l] eqn:E; unfold frontSpan.
  - by rewrite Hs.
  - destruct Hs as (-> & -> & Hl). by rewrite Hl.
Qed.

Lemma frontSpan_app a b : frontSpan (a ++ b) =
  match frontSpan b, frontSpan a with
  | None, sp => sp
  | Some (f, l), None => Some (f, l)
  | Some (_, l), Some (f, _) => Some (f, l)
  end.
Proof.
  destruct b as [|y b]; [by rewrite app_nil_r|].
  destruct (last (y :: b)) as [l|] eqn:El; [|by rewrite last_cons in El; destruct (last b)].
  assert (Eb : frontSpan (y :: b) = Some (y, l)) by (unfold frontSpan; by rewrite El). rewrite Eb.
  destruct a as [|x a]; [done|].
  assert (Eab : last (x :: a ++ y :: b) = Some l) by (rewrite app_comm_cons, last_app, El; done).
  unfold frontSpan. change ((x :: a) ++ y :: b) with (x :: a ++ y :: b). cbv iota. rewrite Eab.
  destruct (last (x :: a)) eqn:Ea; [done|]. by rewrite last_cons in Ea; destruct (last a).
Qed.

Lemma spanOf_repr nodes children xs ws : Forall2 (repr nodes children) xs ws ->
  spanOf nodes ws = frontSpan (concat (frontier <$> xs)).
Proof.
  intros Hr. unfold spanOf.
  assert (Hgen : forall front, foldl (fun span w =>
    match wordSpan nodes w, span with
    | None, _ => span
    | Some (f, l), None => Some (f, l)
    | Some (_, l), Some (f, _) => Some (f, l)
    end) (frontSpan front) ws = frontSpan (front ++ concat (frontier <$> xs))); [|apply (Hgen [])].
  induction Hr as [|x w xs ws Hx Hr IH]; intros front; simpl; [by rewrite app_nil_r|].
  rewrite (wordSpan_repr _ _ _ _ Hx), app_assoc, <- IH. f_equal. rewrite frontSpan_app.
  by destruct (frontSpan (frontier x)) as [[? ?]|], (frontSpan front) as [[? ?]|].
Qed.

(** ** Closing a node *)

Definition nodeIds (ws : list Word) : list nat :=
  omap (fun w => match w with NodeWord id => Some id | TokenWord _ => None end) ws.

Lemma nodeIds_elem ws id : id ∈ nodeIds ws <-> NodeWord id ∈ ws.
Proof.
  unfold nodeIds. rewrite list_elem_of_omap. split.
  - intros ([i|c] & Hw & E); simplify_eq; done.
  - intros Hw. by exists (NodeWord id).
Qed.

Lemma setParents_lookup id ws nodes c : setParents id ws nodes !! c =
  (if decide (NodeWord c ∈ ws) then setParent id <$> nodes !! c else nodes !! c).
Proof.
  unfold setParents. revert nodes. induction ws as [|w ws IH]; intros nodes; simpl.
  - done.
  - rewrite IH. destruct (decide (NodeWord c ∈ w :: ws)) as [Hin|Hout].
    + apply elem_of_cons in Hin. destruct w as [i|c'].
      * destruct Hin as [?|Hin]; [done|]. by rewrite decide_True.
      * destruct (decide (c' = c)) as [->|Hne].
        -- rewrite list_lookup_alter_eq. destruct (decide (NodeWord c ∈ ws)); [|done]. by destruct (nodes !! c).
        -- rewrite list_lookup_alter_ne by done. destruct Hin as [[= ?]|Hin]; [done|]. by rewrite decide_True.
    + apply not_elem_of_cons in Hout as [Hne Hout]. rewrite decide_False by done. destruct w as [i|c']; [done|].
      apply list_lookup_alter_ne. congruence.
Qed.

Lemma setParents_length id ws nodes : length (setParents id ws nodes) = length nodes.
Proof.
  unfold setParents. revert nodes. induction ws as [|w ws IH]; intros nodes; simpl; [done|].
  rewrite IH. destruct w; [done|]. apply length_alter.
Qed.

(** The arrays with the words on the stack, whose tokens are [front]: every node stands for a
    tree, the nodes on the stack are those without a parent, and a parent has its child. *)
Record treeOk (nodes : list NodeData) (children : list Word) (stack : list Word) (front : list nat) : Prop := {
  ok_stack : exists xs, Forall2 (repr nodes children) xs (rev stack) /\ concat (frontier <$> xs) = front;
  ok_nodup : NoDup (nodeIds stack);
  ok_roots id : NodeWord id ∈ stack <-> exists d, nodes !! id = Some d /\ parent d = None;
  ok_nodes id d : nodes !! id = Some d -> exists x, repr nodes children x (NodeWord id);
  ok_parents id d p : nodes !! id = Some d -> parent d = Some p ->
    exists dp, nodes !! p = Some dp /\ NodeWord id ∈ childWords children dp;
}.

Lemma treeOk_push nodes children stack front i : treeOk nodes children stack front ->
  treeOk nodes children (TokenWord i :: stack) (front ++ [i]).
Proof.
  intros [(xs & Hxs & Hf) Hn Hr Ho Hp]. split; try done.
  - exists (xs ++ [Leaf i]). simpl. rewrite fmap_app, concat_app, Hf. split; [|done].
    apply Forall2_app; [done|]. by repeat constructor.
  - intros id. rewrite elem_of_cons, Hr. naive_solver.
Qed.

Definition closedNode (children ws : list Word) (span : option (nat * nat)) (pos : nat) (k : NodeKind) : NodeData :=
  match span with
  | Some (f, l) => mkNode (length children) (length ws) f l None k 0
  | None => mkNode (length children) (length ws) pos pos None k kEmptyNode
  end.

Lemma closed_later nodes ws id node : (forall c, NodeWord c ∈ ws -> exists d, nodes !! c = Some d /\ parent d = None) ->
  later nodes (setParents id ws nodes ++ [node]).
Proof.
  intros Hroots c d Hd. assert (Hc : c < length nodes) by by eapply lookup_lt_Some.
  rewrite lookup_app_l, setParents_lookup by by rewrite setParents_length.
  destruct (decide (NodeWord c ∈ ws)) as [Hw|Hw]; [|exists d; split; [done|apply sameNode_refl]].
  rewrite Hd. exists (setParent id d). split; [done|]. destruct (Hroots c Hw) as (d' & Hd' & Hp).
  split_and!; try done. intros p E. congruence.
Qed.

Lemma treeOk_close nodes children new old front pos k : treeOk nodes children (new ++ old) front ->
  let ws := rev new in
  treeOk (setParents (length nodes) ws nodes ++ [closedNode children ws (spanOf nodes ws) pos k])
    (children ++ ws) (NodeWord (length nodes) :: old) front.
Proof.
  intros [(xs & Hxs & Hf) Hn Hr Ho Hp] ws. set (id := length nodes).
  set (node := closedNode children ws (spanOf nodes ws) pos k). set (nodes' := setParents id ws nodes ++ [node]).
  assert (Hin : forall c, NodeWord c ∈ ws <-> NodeWord c ∈ new) by (intros c; unfold ws; rewrite !list_elem_of_In; symmetry; apply in_rev).
  assert (Hroots : forall c, NodeWord c ∈ ws -> exists d, nodes !! c = Some d /\ parent d = None).
  { intros c Hc. apply Hr, elem_of_app. left. by apply Hin. }
  assert (Hl : later nodes nodes') by by apply closed_later.
  assert (Hid : nodes' !! id = Some node).
  { unfold nodes'. rewrite lookup_app_r by by rewrite setParents_length. by rewrite setParents_length, Nat.sub_diag. }
  rewrite rev_app_distr in Hxs. fold ws in Hxs.
  apply Forall2_app_inv_r in Hxs as (xo & xn & Hxo & Hxn & ->).
  assert (Hw : childWords (children ++ ws) node = ws).
  { unfold node, closedNode, childWords.
    destruct (spanOf nodes ws) as [[f l]|]; cbn [firstChild childCount]; rewrite drop_app_length; apply take_ge; done. }
  assert (Hnode : repr nodes' (children ++ ws) (Inner k xn) (NodeWord id)).
  { apply repr_inner. exists id, node. rewrite Hw. split_and!; try done.
    - unfold node, closedNode. by destruct (spanOf nodes ws) as [[f l]|].
    - unfold node, closedNode. rewrite length_app. destruct (spanOf nodes ws) as [[f l]|]; simpl; lia.
    - unfold node, closedNode. rewrite (spanOf_repr _ _ _ _ Hxn). unfold frontSpan, spanIs.
      destruct (concat (frontier <$> xn)) as [|f l] eqn:E; [done|].
      destruct (last (f :: l)) as [e|] eqn:El; [done|]. by rewrite last_cons in El; destruct (last l).
    - apply Forall_forall. intros [i|c] Hc; [done|]. destruct (Hroots c Hc) as (d & Hd & _). split.
      + by eapply lookup_lt_Some.
      + exists (setParent id d). split; [|done]. unfold nodes'.
        rewrite lookup_app_l, setParents_lookup by (rewrite setParents_length; by eapply lookup_lt_Some).
        by rewrite decide_True, Hd by done.
    - eapply Forall2_impl; [exact Hxn|]. intros x w. by apply repr_later. }
  split.
  - exists (xo ++ [Inner k xn]). simpl. split.
    + apply Forall2_app; [|by repeat constructor]. eapply Forall2_impl; [exact Hxo|]. intros x w. by apply repr_later.
    + rewrite <- Hf, !fmap_app, !concat_app. simpl. by rewrite app_nil_r.
  - unfold nodeIds in *. rewrite omap_app in Hn. simpl. apply NoDup_app in Hn as (_ & _ & Hold).
    apply NoDup_cons. split; [|done]. rewrite nodeIds_elem. intros Hc.
    destruct (proj1 (Hr id)) as (d & Hd & _); [apply elem_of_app; by right|]. apply lookup_lt_Some in Hd. unfold id in Hd. lia.
  - intros c. rewrite elem_of_cons. split.
    + intros [[= ->]|Hc].
      * exists node. split; [done|]. unfold node, closedNode. by destruct (spanOf nodes ws) as [[f l]|].
      * destruct (proj1 (Hr c)) as (d & Hd & Hpar); [apply elem_of_app; by right|]. exists d. split; [|done].
        unfold nodes'. rewrite lookup_app_l, setParents_lookup by (rewrite setParents_length; by eapply lookup_lt_Some).
        rewrite decide_False; [done|]. rewrite Hin. intros Hc'. unfold nodeIds in Hn. rewrite omap_app in Hn.
        apply NoDup_app in Hn as (_ & Hd' & _). by apply (Hd' c); apply nodeIds_elem.
    + intros (d & Hd & Hpar). destruct (decide (c = id)) as [->|Hne]; [by left|right].
      assert (Hc : c < length nodes).
      { apply lookup_lt_Some in Hd. unfold nodes' in Hd. rewrite length_app, setParents_length in Hd. simpl in Hd.
        unfold id in Hne. lia. }
      unfold nodes' in Hd. rewrite lookup_app_l, setParents_lookup in Hd by by rewrite setParents_length.
      destruct (decide (NodeWord c ∈ ws)) as [Hc'|Hc'].
      * destruct (nodes !! c); simplify_eq/=.
      * assert (Hs : NodeWord c ∈ new ++ old) by (apply Hr; eauto). apply elem_of_app in Hs as [Hs|Hs]; [|done].
        by rewrite <- Hin in Hs.
  - intros c d Hd. destruct (decide (c = id)) as [->|Hne]; [eauto|].
    assert (Hc : c < length nodes).
    { apply lookup_lt_Some in Hd. unfold nodes' in Hd. rewrite length_app, setParents_length in Hd. simpl in Hd.
      unfold id in Hne. lia. }
    destruct (lookup_lt_is_Some_2 nodes c Hc) as [d' Hd']. destruct (Ho c d' Hd') as [x Hx]. exists x. by eapply repr_later.
  - intros c d p Hd Hpar. destruct (decide (c = id)) as [->|Hne].
    { rewrite Hid in Hd. injection Hd as <-. unfold node, closedNode in Hpar. by destruct (spanOf nodes ws) as [[f l]|]. }
    assert (Hc : c < length nodes).
    { apply lookup_lt_Some in Hd. unfold nodes' in Hd. rewrite length_app, setParents_length in Hd. simpl in Hd.
      unfold id in Hne. lia. }
    unfold nodes' in Hd. rewrite lookup_app_l, setParents_lookup in Hd by by rewrite setParents_length.
    destruct (decide (NodeWord c ∈ ws)) as [Hc'|Hc'].
    + destruct (nodes !! c) as [d'|]; simplify_eq/=. exists node. rewrite Hw. split; [exact Hid|done].
    + destruct (Hp c d p Hd Hpar) as (dp & Hdp & Hw'). destruct (Hl p dp Hdp) as (dp' & Hdp' & Hs). exists dp'.
      split; [done|]. rewrite (sameNode_words dp dp') by done. rewrite childWords_app; [done|].
      destruct (Ho p dp Hdp) as [x Hx]. destruct x as [i|kk cs]; [done|]. apply repr_inner in Hx.
      destruct Hx as (id' & d' & [= <-] & Hd' & _ & Hlen & _). congruence.
Qed.

(** Setting a flag changes no tree. *)
Lemma treeOk_flag nodes children stack front id d d' : treeOk nodes children stack front ->
  nodes !! id = Some d -> sameNode d d' -> parent d' = parent d ->
  treeOk (<[id := d']> nodes) children stack front.
Proof.
  intros [(xs & Hxs & Hf) Hn Hr Ho Hp] Hd Hs Hpar. assert (Hl : later nodes (<[id := d']> nodes)).
  { intros c dc Hc. destruct (decide (c = id)) as [->|Hne].
    - simplify_eq. exists d'. rewrite list_lookup_insert_eq by by eapply lookup_lt_Some. done.
    - exists dc. rewrite list_lookup_insert_ne by done. split; [done|apply sameNode_refl]. }
  assert (Hrep : forall x w, repr nodes children x w -> repr (<[id := d']> nodes) children x w).
  { intros x w Hx. rewrite <- (app_nil_r children). by eapply repr_later. }
  assert (Hback : forall c dc', <[id := d']> nodes !! c = Some dc' -> exists dc, nodes !! c = Some dc /\
    parent dc' = parent dc /\ childWords children dc' = childWords children dc).
  { intros c dc' Hc. destruct (decide (id = c)) as [->|Hne].
    - rewrite list_lookup_insert_eq in Hc by by eapply lookup_lt_Some. injection Hc as <-. exists d.
      split_and!; [done..|]. by apply sameNode_words.
    - rewrite list_lookup_insert_ne in Hc by done. by exists dc'. }
  split; try done.
  - exists xs. split; [|done]. eapply Forall2_impl; [exact Hxs|]. intros. by apply Hrep.
  - intros c. rewrite Hr. split.
    + intros (dc & Hc & Hpc). destruct (Hl c dc Hc) as (dc' & Hc' & _). exists dc'. split; [done|].
      destruct (Hback c dc' Hc') as (dc2 & Hc2 & -> & _). congruence.
    + intros (dc' & Hc & Hpc). destruct (Hback c dc' Hc) as (dc & Hc2 & E & _). exists dc. split; [done|congruence].
  - intros c dc' Hc. destruct (Hback c dc' Hc) as (dc & Hc2 & _). destruct (Ho c dc Hc2) as [x Hx]. eauto.
  - intros c dc' p Hc Hpc. destruct (Hback c dc' Hc) as (dc & Hc2 & E & _).
    destruct (Hp c dc p Hc2) as (dp & Hdp & Hw); [congruence|]. destruct (Hl p dp Hdp) as (dp' & Hdp' & Hsp).
    exists dp'. split; [done|]. by rewrite (sameNode_words dp dp').
Qed.
