(* ===== verification/ParserLook.v ===== *)
(** * What the parser looks at before it decides

    The tests of src/src/parse/syntax/parser_impl.h, parser.cpp, parser_rule.cpp, parser_type.cpp and
    parser_expr.cpp that read tokens and consume none. Each bound on a walk over the tokens is the
    number of tokens, which a walk that goes on to the end does not exceed. *)

From Stdlib Require Import Ascii String.
From stdpp Require Import strings.
From S2P Require Import Prelude Tokens Cst ParserState.
#[local] Open Scope nat_scope.

(** ** Words that are not reserved *)

Definition atWord (n : nat) (word : string) : Cond := fun s =>
  isK (kindOf (toks_ s) (offsetOf n s)) Identifier && bool_decide (textAt s (offsetOf n s) = T word).

(** The current token has this text (it may be a keyword). *)
Definition textIs (word : string) : Cond := fun s => bool_decide (textAt s (pos_ s) = T word).

Definition isModifier (k : TokenKind) : bool := isK k KwSync.
Fixpoint afterModifiersFrom (fuel n : nat) (s : Parser) : nat :=
  match fuel with
  | O => n
  | S fuel => if isModifier (peek n s) then afterModifiersFrom fuel (n + 1) s else n
  end.
Definition afterModifiers (s : Parser) : nat := afterModifiersFrom (length (toks_ s)) 0 s.

Definition braceIsStruct (n : nat) : Cond :=
  (next (n + 1) Identifier &&& next (n + 2) Colon) ||| (next (n + 1) KwStatic &&& next (n + 2) KwFor).

Definition literalSignAhead : Cond := atAny [Minus; Plus] &&& nextAny 1 [Integer; Real; Imaginary].
Definition pairStartsAt (n : nat) : Cond := next n Identifier &&& next (n + 1) Colon.
Definition genericAhead : Cond := at_ ColonColon &&& nextAny 1 [Lt; LAngle].

(** The last closed node is a name with a [::]. *)
Definition lastRefIsPath : Cond := fun s =>
  match stack_ s with
  | NodeWord id :: _ =>
      match nodes_ (tree_ s) !! id with
      | Some d =>
          bool_decide (nkind d = NK.RefData) &&
          existsb (fun i => isK (kindOf (toks_ s) i) ColonColon) (seq (firstToken d) (lastToken d + 1 - firstToken d))
      | None => false
      end
  | _ => false
  end.

(** ** Declarations *)

Definition atTagDecl (n : nat) : Cond :=
  atWord n "tag" &&& next (n + 1) Identifier &&&
  (nextAny (n + 2) [ColonColon; LParen; Assign] ||| atWord (n + 2) "on").
Definition atResourceDecl (n : nat) : Cond := atWord n "resource" &&& next (n + 1) Identifier.
Definition atOperatorName : Cond := fun s =>
  isK (cur s) Identifier && bool_decide (textAt s (pos_ s) = T "operator") &&
  isPunctuation (peek 1 s) && negb (isK (peek 1 s) LParen).

(** [tokenIndexAt]: unlike [offsetOf] it does not stop at the end. *)
Fixpoint tokenIndexFrom (n : nat) (ts : list Token) (i : nat) : nat :=
  match n with O => i | S n => tokenIndexFrom n ts (after ts i) end.
Definition tokenIndexAt (n : nat) (s : Parser) : nat := tokenIndexFrom n (toks_ s) (pos_ s).

Definition atRuleDecl (n : nat) : Cond :=
  next n Identifier &&& next (n + 1) Identifier &&& nextAny (n + 2) [LParen; ColonColon; Lt; LAngle] &&&
  (fun s => bool_decide (textAt s (tokenIndexAt n s) = T "rule")).

(** The index of the [>] that closes the [<] at [i]. *)
Fixpoint angleCloser (fuel : nat) (ts : list Token) (i depth : nat) : option nat :=
  match fuel with
  | O => None
  | S fuel =>
      let k := kindOf ts i in
      if isK k Eof then None
      else if isOneOf k [Lt; LAngle] then angleCloser fuel ts (after ts i) (depth + 1)
      else if isK k Gt && (depth - 1 =? 0) then Some i
      else angleCloser fuel ts (after ts i) (if isK k Gt then depth - 1 else depth)
  end.

(** The number of tokens from [j] up to [i]. *)
Fixpoint countTo (fuel : nat) (ts : list Token) (j i : nat) : nat :=
  match fuel with
  | O => 0
  | S fuel => if j <? i then S (countTo fuel ts (after ts j) i) else 0
  end.

Definition afterAngledParams (angle : nat) (s : Parser) : option nat :=
  if negb (isOneOf (peek angle s) [Lt; LAngle]) then None
  else
    match angleCloser (length (toks_ s)) (toks_ s) (tokenIndexAt angle s) 0 with
    | None => None
    | Some i => Some (countTo (length (toks_ s)) (toks_ s) (pos_ s) i + 1)
    end.

Definition atFactDecl (n : nat) : Cond := fun s =>
  match (if isK (peek n s) KwWith then afterAngledParams (n + 1) s else Some n) with
  | None => false
  | Some at' =>
      let at' := if isK (peek at' s) KwExport then at' + 1 else at' in
      isK (peek at' s) Identifier && isK (peek (at' + 1) s) Identifier &&
      isOneOf (peek (at' + 2) s) [LParen; Colon; ColonColon] &&
      bool_decide (textAt s (tokenIndexAt at' s) = T "fact")
  end.

(** ** Types *)

Definition typeStartsAt (n : nat) : Cond := nextAny n [Identifier; LParen; LBrace; Lt; KwTypeof; KwEnum].

(** The [)] that closes the [(] in hand is followed by [=>]. *)
Fixpoint parenClosesFrom (fuel n depth : nat) (s : Parser) : bool :=
  match fuel with
  | O => false
  | S fuel =>
      let k := peek n s in
      if isK k Eof then false
      else if isK k LParen then parenClosesFrom fuel (n + 1) (depth + 1) s
      else if isK k RParen && (depth - 1 =? 0) then isK (peek (n + 1) s) FatArrow
      else parenClosesFrom fuel (n + 1) (if isK k RParen then depth - 1 else depth) s
  end.
Definition parenClosesBeforeArrow : Cond := parenClosesFrom 512 0 0.

(** ** Lambdas *)

(** Behind the [)] that brings [depth] to zero stands [=>] or [:]. *)
Fixpoint lambdaCloses (fuel i depth : nat) (s : Parser) : bool :=
  match fuel with
  | O => false
  | S fuel =>
      let k := peek i s in
      if isK k Eof then false
      else if isK k LParen then lambdaCloses fuel (i + 1) (depth + 1) s
      else if isK k RParen && (depth =? 1) then isOneOf (peek (i + 1) s) [FatArrow; Colon]
      else lambdaCloses fuel (i + 1) (if isK k RParen then depth - 1 else depth) s
  end.

(** Names separated by commas from [i] on: the offset behind the last of them. *)
Fixpoint nameList (fuel i : nat) (s : Parser) : option nat :=
  match fuel with
  | O => None
  | S fuel =>
      if negb (isK (peek i s) Identifier) then None
      else if isK (peek (i + 1) s) Comma then nameList fuel (i + 2) s
      else Some (i + 1)
  end.

Definition lambdaAhead : Cond := fun s =>
  let n := length (toks_ s) in
  let t1 := peek 1 s in
  if isK t1 KwVar then true
  else if isOneOf t1 [DotDot; Ellipsis] then lambdaCloses n 0 0 s
  else if isK t1 Identifier then
    if isK (peek 2 s) Colon then true
    else if negb (isOneOf (peek 2 s) [Comma; RParen]) then false
    else lambdaCloses n 0 0 s
  else if isK t1 RParen then isOneOf (peek 2 s) [FatArrow; Colon]
  else if isK t1 LParen then
    match nameList n 2 s with
    | None => false
    | Some i =>
        if negb (isK (peek i s) RParen) then false
        else if isK (peek (i + 1) s) RParen then isOneOf (peek (i + 2) s) [FatArrow; Colon]
        else if negb (isK (peek (i + 1) s) Comma) then false
        else lambdaCloses n (i + 1) 1 s
    end
  else if isK t1 Comma && isK (peek 2 s) RParen then isOneOf (peek 3 s) [FatArrow; Colon]
  else false.

(** ** Shape comprehensions *)

Definition bracketCloser (open : TokenKind) : option TokenKind :=
  match open with
  | LParen => Some RParen | LBracket => Some RBracket | LBrace => Some RBrace | LAngle => Some Gt
  | _ => None
  end.

Definition prevIs (previous : option TokenKind) (ks : list TokenKind) : bool :=
  match previous with Some k => isOneOf k ks | None => false end.

(** A name, a mark or a path separator of a type that is outside every bracket. *)
Definition typeWord (k : TokenKind) (previous : option TokenKind) : bool :=
  (isK k Identifier && match previous with None => true | Some p => isOneOf p [ColonColon; KwTypeof] end) ||
  isOneOf k [ColonColon; Question; Bang; DotDot; Ellipsis].

Fixpoint shapeScan (steps : nat) (ts : list Token) (at' : nat) (closers : list TokenKind)
    (previous : option TokenKind) : bool :=
  match steps with
  | O => false
  | S steps =>
      let k := kindOf ts at' in
      let go := shapeScan steps ts (after ts at') in
      if isOneOf k [Eof; Semi] then false
      else
        match closers with
        | c :: rest =>
            if isK k c then go rest (Some k)
            else
              match bracketCloser k with
              | Some c' => go (c' :: closers) previous
              | None => go closers previous
              end
        | [] =>
            if isK k LBrace then
              let j := after ts at' in
              if isK (kindOf ts j) KwStatic && isK (kindOf ts (after ts j)) KwFor then true
              else go [RBrace] (Some k)
            else
              match bracketCloser k with
              | Some c' =>
                  if isK k LParen && prevIs previous [Identifier; RParen; RBracket; Gt] then false
                  else if isK k LAngle && negb (prevIs previous [Identifier]) then false
                  else go [c'] (Some k)
              | None => if typeWord k previous then go [] (Some k) else false
              end
        end
  end.

Definition shapeCompAhead : Cond := fun s =>
  if negb (typeStartsAt 0 s) then false
  else if isK (cur s) LBrace && isK (peek 1 s) KwStatic && isK (peek 2 s) KwFor then false
  else shapeScan 1024 (toks_ s) (pos_ s) [] None.

(** ** What can start *)

Definition startsExpr : Cond := atAny [
  Identifier; Integer; Real; Imaginary; String; RawString; MultiStr; FString; KwTrue; KwFalse; KwNull;
  LParen; LBracket; LBrace; Lt; LAngle; Minus; Plus; Bang; Tilde; KwIf; KwMatch; KwLoop; KwSync ].

Definition startsDecl : Cond :=
  atAny [KwImport; KwExport; KwNamespace; KwUsing; KwLet; KwVar; KwFunc; KwType; KwWith; At; Hash] |||
  (at_ Identifier &&& (atTagDecl 0 ||| atResourceDecl 0)).

Definition startsStmt : Cond :=
  atAny [KwLet; KwVar; KwFunc; KwType; KwUsing; KwWith; KwExport; KwReturn; KwYield; At; Hash; KwStatic] |||
  startsExpr.

Definition startsTopDecl : Cond := startsDecl ||| atRuleDecl 0 ||| atFactDecl 0.
