(* ===== verification/ParserParts.v ===== *)
(** * Names, parameters, arguments and types

    The productions of src/src/parse/syntax/parser.cpp and parser_expr.cpp that expressions, types
    and declarations share, and the types of parser_type.cpp. A production that can lead back to
    itself reaches the nested one through [call]. *)

From Stdlib Require Import Ascii String.
From stdpp Require Import strings.
From S2P Require Import Prelude Tokens Cst ParserState ParserLook.
#[local] Open Scope nat_scope.

(** The productions that are called through [call]: every cycle of productions goes through one
    of them. *)
Inductive Prod := PExpr | PLogicalOr | PPower | PNeg (underMinus : bool) | PType | PStmtBlock | PDecl.
Class Productions := call : Prod -> P unit.

Definition unlessPanic (a : P unit) : P unit := when_ (no panic_) a.

(** More items behind commas, up to a comma before [closer]. *)
Definition moreItems (closer : TokenKind) (item : P unit) : P unit :=
  while_ (at_ Comma &&& no (next 1 closer) &&& no panic_) (bump;; item).

(** ** Names *)

Definition parseIdentDef : P unit := expectName NK.IdentDef.

Definition parseIdentRef (k : NodeKind) : P unit :=
  if_ (no (at_ Identifier)) nameError
    (m ← mark;
     bump;;
     loop_
       (if_ (at_ ColonColon &&& no (nextAny 1 [Lt; LAngle]))
          (bump;; if_ (no (at_ Identifier)) (nameError;; mret false) (bump;; mret true))
          (mret false));;
     close m k).

Definition parseIdentList : P unit :=
  m ← mark;
  parseIdentDef;;
  while_ (at_ Comma &&& no panic_) (bump;; parseIdentDef);;
  close m NK.IdentList.

Definition openOf (closer : TokenKind) : TokenKind :=
  if isK closer RParen then LParen else if isK closer RBracket then LBracket else LBrace.

Definition wildcardItem (wildcards : bool) : P unit :=
  if_ (fun s => negb wildcards || negb (isK (cur s) Underscore)) parseIdentDef
    (wm ← mark; bump;; close wm NK.IdentDef).

Definition parseBracketedIdents (closer : TokenKind) (k : NodeKind) (wildcards : bool) : P unit :=
  m ← mark;
  opened ← expect (openOf closer);
  if negb opened then close m k
  else
    withScope false None
      (when_ (no (at_ closer) &&& no (at_ Comma))
         (lm ← mark;
          wildcardItem wildcards;;
          moreItems closer (wildcardItem wildcards);;
          close lm NK.IdentList);;
       eat' Comma);;
    expectListEnd closer;;
    close m k.

Definition parseModuleName : P unit :=
  m ← mark;
  when_ (atAny [Dot; DotDot; Ellipsis]) bump;;
  if_ (at_ Identifier)
    (bump;;
     while_ (at_ Dot &&& next 1 Identifier) (bump;; bump);;
     while_ (at_ ColonColon &&& next 1 Identifier) (bump;; bump))
    nameError;;
  close m NK.ModuleName.

Definition markNameAsPack (m : nat) : P unit := modify (fun s =>
  match stack_ s with
  | NodeWord id :: rest =>
      let t := tree_ s in
      match nodes_ t !! id with
      | Some d =>
          if (length rest =? m) && bool_decide (nkind d = NK.IdentDef) then
            setTree (mkTree (tokenBuffer t)
              (<[id := mkNode (firstChild d) (childCount d) (firstToken d) (lastToken d) (parent d) (nkind d)
                         (Z.lor (nflags d) kPackName)]> (nodes_ t))
              (children_ t) (treeErrors t) (root_ t)) s
          else s
      | None => s
      end
  | _ => s
  end).

(** [..] where [...] is the spelling: an error, and read on. *)
Definition packDots : P unit := when_ (at_ DotDot) (unexpected [Tok Ellipsis]);; bump.

Definition typeParam (pack : bool) : P unit :=
  nm ← mark;
  parseIdentDef;;
  if pack then markNameAsPack nm else skip.

Definition parseTypeParams : P unit :=
  m ← mark;
  bump;;
  if_ (no panic_ &&& no (atAny [Lt; LAngle])) (unexpected [Tok Lt];; close m NK.TypeParams)
    (bump;;
     withScope false None
       (pack ← gets (atAny [DotDot; Ellipsis]);
        (if (pack : bool) then packDots else skip);;
        typeParam pack;;
        loop_
          (if_ panic_ (mret false)
             (comma ← eat Comma;
              if negb comma then mret false
              else
                if_ (no (atAny [Identifier; DotDot; Ellipsis])) (mret false)
                  (packAgain ← gets (atAny [DotDot; Ellipsis]);
                   (if (packAgain : bool) then packDots else skip);;
                   typeParam packAgain;;
                   mret true))));;
     unlessPanic (closed ← eat Gt; if negb closed then unexpected [Tok Comma; Tok Gt] else skip);;
     close m NK.TypeParams).

Definition parseModifiers : P unit :=
  m ← mark;
  while_ (fun s => isModifier (cur s)) bump;;
  close m NK.Modifiers.

Section parts.
Context {productions : Productions}.
#[local] Abbreviation parseExpr := (call PExpr).
#[local] Abbreviation parseLogicalOr := (call PLogicalOr).
#[local] Abbreviation parseType := (call PType).

(** ** Parameters *)

Definition tupleParam : P unit :=
  bump;;
  parseIdentDef;;
  moreItems RParen parseIdentDef;;
  eat' Comma;;
  unlessPanic (expect' RParen).

Definition restParam : P unit :=
  packDots;;
  if_ (at_ Identifier &&& nextAny 1 [Colon; Comma; RParen; Gt])
    (parseIdentDef;; typed ← eat Colon; if (typed : bool) then parseType else skip)
    parseType.

Definition constasParam (angled : bool) : P unit :=
  bump;;
  parseIdentDef;;
  typed ← eat Colon;
  if (typed : bool) then
    parseType;;
    if angled then dflt ← eat Assign; if (dflt : bool) then parseExpr else skip else skip
  else skip.

Definition plainParam : P unit :=
  var ← eat KwVar;
  (if negb var then eat' KwConst else skip);;
  parseIdentDef;;
  unlessPanic
    (typed ← if_ lambdaParams_ (eat Colon) (expect Colon);
     if (typed : bool) then
       parseType;; dflt ← eat Assign; if (dflt : bool) then parseExpr else skip
     else skip).

Definition parseKeyParamPair (allowRest allowConstas angled : bool) : P unit :=
  m ← mark;
  if_ (lambdaParams_ &&& at_ LParen) (tupleParam;; close m NK.TupleParam)
    (if_ (fun s => allowRest && isOneOf (cur s) [DotDot; Ellipsis]) (restParam;; close m NK.KeyParamPair)
       (if_ (fun s => allowConstas && isK (cur s) KwConstas) (constasParam angled;; close m NK.KeyParamPair)
          (plainParam;; close m NK.KeyParamPair))).

Definition parsePairedParams (closer : TokenKind) (allowRest allowConstas : bool) : P unit :=
  m ← mark;
  parseKeyParamPair allowRest allowConstas (isK closer Gt);;
  moreItems closer (parseKeyParamPair allowRest allowConstas (isK closer Gt));;
  close m NK.PairedParams.

Definition parseParentParams (allowRest allowConstas : bool) : P unit :=
  m ← mark;
  opened ← expect LParen;
  if negb opened then skip
  else
    withScope false None
      (if_ (atAny [Identifier; KwVar; KwConst] ||| (lambdaParams_ &&& at_ LParen) |||
            (fun s => allowRest && isOneOf (cur s) [DotDot; Ellipsis]) |||
            (fun s => allowConstas && isK (cur s) KwConstas))
         (parsePairedParams RParen allowRest allowConstas)
         (when_ (no (atAny [RParen; Comma]))
            (unexpected [Tok Comma; Tok RParen; Tok KwVar; Tok KwConstas; Tok Identifier]));;
       eat' Comma);;
    unlessPanic (expectListEnd RParen);;
    close m NK.ParentParams.

Definition parseAngledParams (allowRest allowConstas : bool) : P unit :=
  if_ (no (atAny [Lt; LAngle])) (unexpected [Tok Lt])
    (m ← mark;
     open ← gets pos_;
     bump;;
     withScope false (Some open)
       (when_ (no (atAny [Gt; Comma])) (parsePairedParams Gt allowRest allowConstas);;
        eat' Comma;;
        when_ (no panic_ &&& no (at_ Gt)) (unexpected [Tok Comma; Tok Gt]));;
     eat' Gt;;
     close m NK.AngledParams).

(** ** Arguments *)

Definition parseIndexValue : P unit :=
  if_ (atAny [DotDot; Ellipsis])
    (when_ (at_ DotDot) (unexpected [Tok Ellipsis]);;
     m ← mark;
     bump;;
     parseExpr;;
     close m NK.RestValue)
    parseExpr.

Definition parseKeyValuePair : P unit :=
  m ← mark;
  parseIdentDef;;
  unlessPanic (colon ← expect Colon; if (colon : bool) then parseExpr else skip);;
  close m NK.KeyValuePair.

Definition parsePairedValues (closer : TokenKind) : P unit :=
  m ← mark;
  parseKeyValuePair;;
  moreItems closer parseKeyValuePair;;
  close m NK.PairedValues.

Definition argumentValue : P unit :=
  if_ (pairStartsAt 0) parseKeyValuePair
    (im ← mark; parseIndexValue;; close im NK.StrayPositional).

Definition parseArgumentValues (closer : TokenKind) : P unit :=
  m ← mark;
  argumentValue;;
  moreItems closer argumentValue;;
  close m NK.PairedValues.

Definition parseDataList (closer : TokenKind) : P unit :=
  m ← mark;
  parseExpr;;
  moreItems closer parseExpr;;
  close m NK.DataList.

(** The positional arguments; whether named ones follow. *)
Definition positionalArguments (closer : TokenKind) : P bool :=
  im ← mark;
  parseIndexValue;;
  while_ (at_ Comma &&& no (next 1 closer) &&& no (pairStartsAt 1) &&& no panic_) (bump;; parseIndexValue);;
  close im NK.IndexValues;;
  if_ (at_ Comma &&& pairStartsAt 1 &&& no panic_) (bump;; mret true) (mret false).

Definition parseArguments (closer : TokenKind) : P unit :=
  if_ (at_ closer) skip
    (if_ (at_ Comma &&& next 1 closer) bump
       (m ← mark;
        named ← if_ (pairStartsAt 0) (mret true) (positionalArguments closer);
        (if (named : bool) then
           if isK closer RParen then parseArgumentValues closer else parsePairedValues closer
         else skip);;
        close m NK.ArgumentList;;
        eat' Comma)).

Definition parseParentArgues : P unit :=
  m ← mark;
  bump;;
  withScope false None (parseArguments RParen);;
  unlessPanic (expectListEnd RParen);;
  close m NK.ParentArgues.

Definition parseAngledValues : P unit :=
  m ← mark;
  open ← gets pos_;
  bump;;
  withScope false (Some open)
    (parseArguments Gt;; when_ (no panic_ &&& no (at_ Gt)) (unexpected [Tok Comma; Tok Gt]));;
  eat' Gt;;
  close m NK.AngledValues.

(** ** Tags and clauses *)

Definition parseTagRef : P unit :=
  m ← mark;
  parseIdentRef NK.IdentRef;;
  when_ (at_ LParen) parseParentArgues;;
  close m NK.TagRef.

Definition parseTagUse : P unit :=
  m ← mark;
  bump;;
  if_ (at_ LBracket)
    (bump;;
     withScope false None
       (when_ (no (at_ RBracket) &&& no panic_) (parseTagRef;; moreItems RBracket parseTagRef);;
        eat' Comma);;
     unlessPanic (expect' RBracket))
    (unlessPanic parseTagRef);;
  close m NK.TagUse.

Definition parseResourceClause : P unit :=
  m ← mark;
  while_ (no panic_ &&& (atWord 0 "pure" ||| atWord 0 "uses"))
    (if_ (atWord 0 "pure") bump
       (bump;;
        parseIdentRef NK.IdentRef;;
        while_ (at_ Comma &&& next 1 Identifier &&& no panic_) (bump;; parseIdentRef NK.IdentRef)));;
  close m NK.ResourceClause.

Definition parseWhenClause : P unit :=
  m ← mark;
  bump;;
  if_ (atAny [DotDot; Ellipsis])
    (when_ (at_ DotDot) (unexpected [Tok Ellipsis]);;
     cm ← mark;
     bump;;
     unlessPanic parseExpr;;
     close cm NK.RestValue)
    parseExpr;;
  close m NK.WhenClause.

(** ** Types *)

Definition dimItem : P unit :=
  if_ (at_ Question) bump
    (if_ (atAny [DotDot; Ellipsis]) (packDots;; when_ (at_ Identifier) parseIdentDef) parseExpr).

Definition parseArrayDim : P unit :=
  m ← mark;
  bump;;
  withScope false None
    (when_ (no (at_ RBracket) &&& no panic_)
       (loop_
          (if_ panic_ (mret false)
             (dimItem;;
              comma ← eat Comma;
              if negb comma then mret false else if_ (at_ RBracket) (mret false) (mret true))));;
     when_ (no panic_ &&& no (at_ RBracket)) (unexpected [Tok Comma; Tok RBracket]));;
  eat' RBracket;;
  close m NK.ArrayDim.

Definition specArgument : P unit :=
  if_ (at_ KwConst)
    (cm ← mark; bump;; withConstData true parseExpr;; close cm NK.ConstData)
    (if_ (at_ LBracket) parseArrayDim parseType).

Definition parseTypeList (closer : TokenKind) : P unit :=
  m ← mark;
  parseType;;
  moreItems closer parseType;;
  close m NK.TypeList.

Definition isTypeCaseWord (s : Parser) : bool :=
  existsb (fun w => bool_decide (textAt s (pos_ s) = T w))
    ["struct"; "tuple"; "array"; "func"; "nullable"; "fallible"; "map"; "set"; "#leaf"; "_"]%string.

Definition parseTypeCasePattern : P unit :=
  m ← mark;
  if_ (at_ Identifier)
    (if_ isTypeCaseWord bump
       (if_ (no (typeStartsAt 0)) (unexpected [Tok Identifier]) (withTypeHead parseType)))
    (if_ (at_ Hash)
       (bump;; if_ (fun s => isK (cur s) Identifier && textIs "leaf" s) bump (unexpected [Tok Identifier]))
       (if_ (atAny [Underscore; KwFunc]) bump
          (if_ (typeStartsAt 0) (withTypeHead parseType)
             (unexpected [Tok Identifier; Tok Hash; Tok Underscore]))));;
  close m NK.TypeCasePattern.

Definition parseTypeArm : P unit :=
  m ← mark;
  bump;;
  parseTypeCasePattern;;
  while_ (at_ Pipe &&& no panic_) (bump;; parseTypeCasePattern);;
  unlessPanic (arrow ← expect FatArrow; if (arrow : bool) then parseType else skip);;
  close m NK.TypeArm.

(** The cases of a [match] in its braces. *)
Definition caseList (item : P unit) : P unit :=
  while_ (at_ KwCase &&& no panic_) item;;
  when_ (no panic_ &&& no (at_ RBrace)) (unexpected [Tok KwCase; Tok RBrace]).

Definition parseMatchTypeType : P unit :=
  m ← mark;
  bump;;
  ty ← expect KwType;
  if negb ty then close m NK.MatchTypeType
  else
    withTypeHead parseType;;
    brace ← if_ panic_ (mret false) (expect LBrace);
    if negb brace then close m NK.MatchTypeType
    else
      withScope true None (caseList parseTypeArm);;
      eat' RBrace;;
      close m NK.MatchTypeType.

Definition keyTypePair : P bool :=
  pm ← mark;
  while_ (at_ Hash) parseTagUse;;
  parseIdentDef;;
  colon ← expect Colon;
  (if (colon : bool) then parseType else skip);;
  close pm NK.KeyTypePair;;
  if_ (no (at_ Comma) ||| no (nextAny 1 [Identifier; Hash])) (mret false) (bump;; mret true).

Definition parseStructType : P unit :=
  m ← mark;
  bump;;
  withScope false None
    (loop_ (if_ (atAny [Identifier; Hash] &&& no panic_) keyTypePair (mret false));; eat' Comma);;
  unlessPanic (expectListEnd RBrace);;
  close m NK.StructType.

Definition parseFuncType : P unit :=
  m ← mark;
  when_ (atAny [Lt; LAngle]) (parseAngledParams true false);;
  if_ (no (at_ LParen)) (unexpected [Tok LParen];; close m NK.FuncType)
    (parseParentParams true false;;
     unlessPanic (arrow ← expect FatArrow; if (arrow : bool) then parseType else skip);;
     when_ (atWord 0 "uses" ||| atWord 0 "pure") parseResourceClause;;
     close m NK.FuncType).

Definition parseEnumField : P unit :=
  m ← mark;
  parseIdentDef;;
  unlessPanic (colon ← expect Colon; if (colon : bool) then parseType else skip);;
  close m NK.EnumField.

(** Names behind commas, each followed by what [item] reads. *)
Definition namedItems (item : P unit) : P unit :=
  when_ (at_ Identifier) (item;; while_ (at_ Comma &&& next 1 Identifier &&& no panic_) (bump;; item));;
  eat' Comma.

Definition parseEnumVariant : P unit :=
  m ← mark;
  parseIdentDef;;
  if_ (no panic_ &&& at_ LParen)
    (bump;;
     withScope false None (when_ (no (atAny [RParen; Comma])) (parseTypeList RParen);; eat' Comma);;
     unlessPanic (expectListEnd RParen))
    (when_ (no panic_ &&& at_ LBrace)
       (bump;;
        withScope false None (namedItems parseEnumField);;
        unlessPanic (expectListEnd RBrace)));;
  close m NK.EnumVariant.

Definition parseEnumType : P unit :=
  m ← mark;
  bump;;
  brace ← expect LBrace;
  if negb brace then skip
  else
    withScope false None (namedItems parseEnumVariant);;
    unlessPanic (expectListEnd RBrace);;
    close m NK.EnumType.

(** A [(] that opens the parameters of a function type. *)
Definition funcTypeAhead : Cond :=
  next 1 KwVar ||| (next 1 Identifier &&& next 2 Colon) ||| (next 1 RParen &&& next 2 FatArrow) |||
  (nextAny 1 [DotDot; Ellipsis] &&& next 2 Identifier &&& next 3 RParen &&& next 4 FatArrow) |||
  (nextAny 1 [DotDot; Ellipsis] &&& parenClosesBeforeArrow) |||
  (next 1 Comma &&& next 2 RParen &&& next 3 FatArrow).

(** A parenthesised type or a tuple of types: whether it is the former. *)
Definition parenTypes : P bool :=
  parenthesized ←
    if_ (no (atAny [RParen; Comma]))
      (lm ← mark;
       pack ← gets (atAny [DotDot; Ellipsis]);
       parseType;;
       if_ (fun s => isK (cur s) RParen && negb pack) (mret true)
         (moreItems RParen parseType;; close lm NK.TypeList;; mret false))
      (mret false);
  eat' Comma;;
  mret (parenthesized : bool).

Definition parenType : P unit :=
  m ← mark;
  bump;;
  parenthesized ← withScope false None parenTypes;
  unlessPanic (expectListEnd RParen);;
  close m (if (parenthesized : bool) then NK.ParenType else NK.TupleType).

Definition typeOfType : P unit :=
  m ← mark;
  bump;;
  if_ (atAny [KwIf; KwMatch]) parseExpr parseLogicalOr;;
  close m NK.TypeOfType.

Definition parsePrimaryType : P unit :=
  typeHead ← gets typeHead_;
  modify (setTypeHead false);;
  k ← gets cur;
  match k with
  | Identifier => parseIdentRef NK.RefType
  | KwMatch => parseMatchTypeType
  | LBrace => parseStructType
  | KwEnum => parseEnumType
  | Lt => parseFuncType
  | KwSync => unexpected [TypeExpression]
  | KwTypeof => typeOfType
  | LParen => if_ (fun s => negb typeHead && funcTypeAhead s) parseFuncType parenType
  | _ =>
      if_ (fun s => isKeyword (cur s) && negb (isK (cur s) KwConst)) (error KeywordAsName [TypeExpression])
        (unexpected [TypeExpression])
  end.

Definition parseSpecType : P unit :=
  m ← mark;
  parsePrimaryType;;
  when_ (at_ LAngle &&& no panic_)
    (open ← gets pos_;
     bump;;
     withScope false (Some open)
       (loop_ (specArgument;; if_ panic_ (mret false) (eat Comma));;
        when_ (no panic_ &&& no (at_ Gt)) (unexpected [Tok Comma; Tok Gt]));;
     eat' Gt;;
     close m NK.SpecType).

(** The dimensions written behind a type; whether there are any. *)
Definition arrayDims : P bool :=
  any ← gets (fun s => at_ LBracket s && negb (lineBreak s) && negb (panic_ s));
  while_ (at_ LBracket &&& no lineBreak &&& no panic_) parseArrayDim;;
  mret (any : bool).

Definition parseArrayType : P unit :=
  m ← mark;
  parseSpecType;;
  any ← arrayDims;
  if (any : bool) then close m NK.ArrayType else skip.

(** The marks behind a type. [any] and [stream] are the variables of the loop. *)
Fixpoint typeMarks (fuel m : nat) (any stream : bool) : P unit := fun s =>
  match fuel with
  | O => None
  | S fuel =>
      if_ (no lineBreak &&& no panic_)
        (if_ (atAny [Question; Bang]) (bump;; typeMarks fuel m true stream)
           (if_ (at_ DotDot) (bump;; typeMarks fuel m true true)
              (if_ (fun s => stream && isK (cur s) LBracket)
                 ((if any then close m NK.TypeExpr else skip);;
                  anyDim ← arrayDims;
                  (if (anyDim : bool) then close m NK.ArrayType else skip);;
                  typeMarks fuel m false false)
                 (if any then close m NK.TypeExpr else skip))))
        (if any then close m NK.TypeExpr else skip) s
  end.

Definition bodyType : P unit :=
  withDepth
    (if_ tooDeep (unexpected [])
       (m ← mark;
        if_ (atAny [DotDot; Ellipsis]) (packDots;; parseType;; close m NK.PackType)
          (parseArrayType;;
           fuel ← gets (fun s => S (S (length (toks_ s) - pos_ s)));
           typeMarks fuel m false false))).

(** ** Heads of a static loop *)

Definition parseStaticForName : P unit :=
  if_ (at_ Underscore &&& no panic_) (m ← mark; bump;; close m NK.IdentDef) parseIdentDef.

Definition parseStaticForNameList : P unit :=
  unlessPanic (parseStaticForName;; while_ (at_ Comma &&& no panic_) (bump;; parseStaticForName)).

(** [fields] and the type behind it. *)
Definition fieldsSubject : P unit := bump;; withTypeHead parseType.

Definition parseStaticForHeader : P unit :=
  unlessPanic
    (for_ ← expect KwFor;
     if negb for_ then skip
     else
       parseStaticForNameList;;
       unlessPanic
         (in_ ← expect KwIn;
          if negb in_ then skip
          else
            if_ (atWord 0 "fields") fieldsSubject
              (if_ (atWord 0 "indices") (bump;; parseExpr) (unlessPanic (unexpected [Tok Identifier]))))).

Definition parseStaticLoopHeader : P unit :=
  unlessPanic
    (for_ ← expect KwFor;
     if negb for_ then skip
     else
       parseStaticForNameList;;
       unlessPanic
         (in_ ← expect KwIn;
          if negb in_ then skip
          else
            if_ (atWord 0 "fields") fieldsSubject
              (when_ (atWord 0 "indices") bump;; unlessPanic parseExpr))).
End parts.
