(* ===== verification/ParserExpr.v ===== *)
(** * Expressions

    The productions of src/src/parse/syntax/parser_expr.cpp, tightest first. [bodyNeg], [bodyPower],
    [bodyLogicalOr] and [bodyExpr] are parseNeg, parsePower, parseLogicalOr and parseExpr. *)

From Stdlib Require Import Ascii String.
From stdpp Require Import strings.
From S2P Require Import Prelude Tokens Cst ParserState ParserLook ParserParts.
#[local] Open Scope nat_scope.

Section expr.
Context {productions : Productions}.
#[local] Abbreviation parseExpr := (call PExpr).
#[local] Abbreviation parseLogicalOr := (call PLogicalOr).
#[local] Abbreviation parsePower := (call PPower).
#[local] Abbreviation parseNeg b := (call (PNeg b)).
#[local] Abbreviation parseType := (call PType).
#[local] Abbreviation parseStmtBlock := (call PStmtBlock).

(** ** Blocks and comprehensions *)

Definition parseBlockExpr : P unit :=
  if_ ((at_ KwSync &&& next 1 LBrace) ||| (at_ LBrace &&& no (braceIsStruct 0))) parseStmtBlock parseExpr.

(** [=>] or another word, and the block behind it. *)
Definition thenBlock (k : TokenKind) : P unit :=
  unlessPanic (found ← expect k; if (found : bool) then parseBlockExpr else skip).

Definition parseStaticFor : P unit :=
  m ← mark;
  bump;;
  parseStaticForHeader;;
  thenBlock FatArrow;;
  close m NK.StaticForExpr.

Definition parseShapeComp : P unit :=
  m ← mark;
  withTypeHead parseType;;
  brace ← if_ panic_ (mret false) (expect LBrace);
  if negb brace then close m NK.ShapeComp
  else
    parseStaticFor;;
    unlessPanic (expectListEnd RBrace);;
    close m NK.ShapeComp.

(** ** Operands *)

Definition parseLiteral : P unit :=
  m ← mark;
  when_ (atAny [Plus; Minus]) bump;;
  bump;;
  close m NK.Literal.

Definition parseConstasData : P unit :=
  m ← mark;
  bump;;
  parseIdentDef;;
  close m NK.ConstasData.

(** [for x in xs if c] of an array comprehension. *)
Definition arrayFor : P unit :=
  bump;;
  parseIdentRef NK.IdentRef;;
  unlessPanic
    (in_ ← expect KwIn;
     if negb in_ then skip
     else parseExpr;; cond ← eat KwIf; if (cond : bool) then parseExpr else skip).

Definition parseArrayData : P unit :=
  m ← mark;
  bump;;
  withScope false None
    (when_ (no (at_ RBracket))
       (when_ (at_ Ellipsis) (unexpected []);;
        im ← mark;
        parseIndexValue;;
        if_ (at_ KwFor &&& no panic_) arrayFor
          (moreItems RBracket parseIndexValue;; close im NK.IndexValues;; eat' Comma)));;
  unlessPanic (expectListEnd RBracket);;
  close m NK.ArrayData.

Definition parseStructData : P unit :=
  m ← mark;
  bump;;
  if_ (at_ KwStatic &&& next 1 KwFor) parseStaticFor
    (withScope false None (when_ (no (at_ RBrace)) (parsePairedValues RBrace;; eat' Comma)));;
  unlessPanic (expectListEnd RBrace);;
  close m NK.StructData.

Definition parseTupleData : P unit :=
  m ← mark;
  bump;;
  if_ (at_ KwStatic &&& next 1 KwFor) parseStaticFor
    (withScope false None (when_ (no (atAny [RParen; Comma])) (parseDataList RParen);; eat' Comma));;
  unlessPanic (expectListEnd RParen);;
  close m NK.TupleData.

Definition parseFuncData : P unit :=
  m ← mark;
  outerLambdaParams ← gets lambdaParams_;
  modify (setLambdaParams true);;
  when_ (atAny [Lt; LAngle]) (parseAngledParams true false);;
  if_ (no (at_ LParen))
    (modify (setLambdaParams outerLambdaParams);; unexpected [Tok LParen];; close m NK.FuncData)
    (parseParentParams true false;;
     modify (setLambdaParams outerLambdaParams);;
     typed ← eat Colon;
     (if (typed : bool) then parseType else skip);;
     thenBlock FatArrow;;
     close m NK.FuncData).

Definition parsePrimary : P unit :=
  k ← gets cur;
  match k with
  | Identifier => parseIdentRef NK.RefData
  | KwConstas => if_ constData_ parseConstasData (unexpected [Expression])
  | Integer | Real | Imaginary | String | RawString | MultiStr | FString | KwTrue | KwFalse | KwNull => parseLiteral
  | Plus =>
      if_ literalSignAhead parseLiteral
        (if_ lineBreak (error LineStartsWithSign [Expression]) (unexpected [Expression]))
  | LBracket => parseArrayData
  | LBrace => parseStructData
  | LParen => if_ lambdaAhead parseFuncData parseTupleData
  | Lt | LAngle => parseFuncData
  | _ => unexpected [Expression]
  end.

(** ** Postfix forms *)

Definition memberKinds : list TokenKind := [Identifier; Integer; Real].

(** [.[e]] *)
Definition bracketMember : P unit := bump;; bump;; parseExpr;; unlessPanic (expectListEnd RBracket).

(** A [.] and what it selects; whether more may follow. *)
Definition accessMember : P bool :=
  if_ (next 1 LBracket) (bracketMember;; mret true)
    (if_ (no (nextAny 1 memberKinds))
       (bump;;
        if_ (fun s => isKeyword (cur s)) (error KeywordAsName [Tok Identifier])
          (unexpected [Tok Identifier; Tok Integer]);;
        mret false)
       (bump;; bump;; mret true)).

Definition parseAccess : P unit :=
  m ← mark;
  parsePrimary;;
  any ← gets (at_ Dot &&& no panic_);
  loop_ (if_ (at_ Dot &&& no panic_) accessMember (mret false));;
  if (any : bool) then close m NK.AccessExpr else skip.

Definition parseSlicePart : P unit :=
  if_ (atAny [Colon; ColonColon; Comma; RBracket]) skip parseExpr.

Definition sliceParts (m : nat) : P unit :=
  if_ (at_ ColonColon) (bump;; parseSlicePart;; close m NK.SliceIndices)
    (bump;;
     parseSlicePart;;
     if_ (at_ ColonColon) (bump;; parseSlicePart)
       (colon ← eat Colon; if (colon : bool) then parseSlicePart else skip);;
     close m NK.SliceIndices).

Definition parseSliceIndices : P unit :=
  m ← mark;
  if_ (no (atAny [Colon; ColonColon])) (parseExpr;; when_ (atAny [Colon; ColonColon]) (sliceParts m))
    (sliceParts m).

Definition parseIndices : P unit :=
  m ← mark;
  bump;;
  withScope false None
    (parseSliceIndices;;
     loop_
       (comma ← eat Comma;
        if negb comma then mret false else if_ (at_ RBracket) (mret false) (parseSliceIndices;; mret true)));;
  unlessPanic (expect' RBracket);;
  close m NK.Indices.

Definition namedTypeArgument : P bool :=
  named ← mark;
  if_ (no (at_ Identifier)) (nameError;; mret false)
    (bump;;
     eat' Assign;;
     parseType;;
     close named NK.NamedTypeArgument;;
     if_ (no (at_ Comma) ||| next 1 Gt) (mret false) (bump;; mret true)).

Definition parseTypeArguments : P unit :=
  m ← mark;
  bump;;
  open ← gets pos_;
  bump;;
  withScope false (Some open)
    (if_ (at_ Identifier &&& next 1 Assign)
       (loop_ (if_ panic_ (mret false) namedTypeArgument))
       (parseTypeList Gt);;
     eat' Comma;;
     expect' Gt);;
  close m NK.TypeArguments.

(** One postfix form; [false] when there is none. *)
Definition annoSuffix : P bool :=
  if_ (adjacent &&& genericAhead) (parseTypeArguments;; mret true)
    (if_ (adjacent &&& at_ LBracket &&& no (next 1 RBracket)) (parseIndices;; mret true)
       (if_ (adjacent &&& at_ LParen) (parseParentArgues;; mret true)
          (if_ (adjacent &&& at_ LAngle) (parseAngledValues;; mret true)
             (if_ (at_ LBrace &&& braceIsStruct 0 &&& lastRefIsPath) (parseStructData;; mret true)
                (if_ (at_ Dot &&& next 1 LBracket)
                   (mm ← mark; bracketMember;; close mm NK.MemberAccess;; mret true)
                   (if_ (at_ Dot &&& nextAny 1 memberKinds)
                      (mm ← mark; bump;; bump;; close mm NK.MemberAccess;; mret true)
                      (mret false))))))).

(** The postfix forms. [any] is the variable of the loop. *)
Fixpoint annoSuffixes (fuel : nat) (any : bool) : P bool := fun s =>
  match fuel with
  | O => None
  | S fuel =>
      if_ panic_ (mret any)
        (more ← annoSuffix; if (more : bool) then annoSuffixes fuel true else mret any) s
  end.

Definition parseAnno : P unit :=
  m ← mark;
  comp ← gets shapeCompAhead;
  (if (comp : bool) then parseShapeComp else parseAccess);;
  fuel ← gets (fun s => S (S (length (toks_ s) - pos_ s)));
  any ← annoSuffixes fuel comp;
  if (any : bool) then close m NK.AnnoExpr else skip.

(** ** Operators *)

(** A level of left-associative operators: [operator] says that one is in hand. *)
Definition leftAssoc (operator : Cond) (operand : P unit) (k : NodeKind) : P unit :=
  m ← mark;
  operand;;
  any ← gets (operator &&& no panic_);
  while_ (operator &&& no panic_) (bump;; operand);;
  if (any : bool) then close m k else skip.

Definition parseLink : P unit := leftAssoc (at_ Arrow) parseAnno NK.LinkExpr.

Definition bodyNeg (underMinus : bool) : P unit :=
  m ← mark;
  if_ (atAny [Minus; Bang; Tilde]) (withDepth (bump;; parseNeg true;; close m NK.UnaryExpr))
    (parseLink;;
     when_ (fun s => underMinus && isK (cur s) Caret && negb (panic_ s))
       (bump;; parseNeg true;; close m NK.PowerExpr)).

Definition parseUnary : P unit :=
  m ← mark;
  parseNeg false;;
  when_ (at_ KwAs &&& no panic_)
    (bump;;
     opToken ← gets prev_;
     parseType;;
     when_ (fun s => negb (prev_ s =? opToken) && isK (kindOf (toks_ s) (prev_ s)) DotDot && adjacent s &&
              negb (panic_ s) && isOneOf (cur s) [Integer; Real; Identifier; String])
       (p ← gets prev_; errorAux AsRightSideIsType [] p opToken);;
     close m NK.CastExpr).

Definition parseNullable : P unit :=
  m ← mark;
  parseUnary;;
  when_ (atAny [QuestionQuestion; BangBang] &&& no panic_) (bump;; parseExpr;; close m NK.NullableExpr).

Definition bodyPower : P unit :=
  m ← mark;
  parseNullable;;
  when_ (at_ Caret &&& no panic_) (bump;; parsePower;; close m NK.PowerExpr).

Definition parseMultiplicative : P unit :=
  leftAssoc ((at_ At &&& no lineBreak) ||| atAny [Star; Slash; Percent]) parsePower NK.MultiplicativeExpr.
Definition parseAdditive : P unit :=
  leftAssoc (atAny [Plus; Minus] &&& no lineBreak) parseMultiplicative NK.AdditiveExpr.
Definition parseRange : P unit := leftAssoc (at_ DotDot) parseAdditive NK.RangeExpr.

(** A comparison: a [>] that closes an angle-bracket list is none. *)
Definition comparison : P bool :=
  if_ panic_ (mret false)
    (if_ (at_ Gt)
       (if_ (fun s => match angle_ s with None => false | Some _ => true end)
          (if_ (no (flagOf spaceBefore) ||| flagOf newlineBefore) (mret false)
             (modify (fun s => setLayout (nl_ s) (angle_ s) (Some (pos_ s)) s);; mret true))
          (mret true))
       (if_ (no (atAny [Lt; LtEq; GtEq])) (mret false) (mret true))).

(** The comparisons of a level. [any] is the variable of the loop. *)
Fixpoint comparisons (fuel : nat) (any : bool) : P bool := fun s =>
  match fuel with
  | O => None
  | S fuel =>
      (more ← comparison;
       if (more : bool) then bump;; parseRange;; comparisons fuel true else mret any) s
  end.

Definition parseRelational : P unit :=
  m ← mark;
  parseRange;;
  fuel ← gets (fun s => S (S (length (toks_ s) - pos_ s)));
  any ← comparisons fuel false;
  if (any : bool) then close m NK.RelationalExpr else skip.

Definition parseEquality : P unit :=
  leftAssoc (atAny [EqEq; NotEq; EqEqEq; NotEqEq]) parseRelational NK.EqualityExpr.

(** A level that closes a node whenever its operator is in hand behind the first operand. *)
Definition closingLevel (operator : TokenKind) (operand : P unit) (k : NodeKind) : P unit :=
  m ← mark;
  operand;;
  if_ (no (at_ operator)) skip
    (while_ (at_ operator &&& no panic_) (bump;; operand);; close m k).

Definition parseAnd : P unit := closingLevel Amp parseEquality NK.AndExpr.
Definition parseOr : P unit := closingLevel Pipe parseAnd NK.OrExpr.
Definition parseLogicalAnd : P unit := closingLevel AmpAmp parseOr NK.LogicalAndExpr.
Definition bodyLogicalOr : P unit := closingLevel PipePipe parseLogicalAnd NK.LogicalOrExpr.

Definition assignOperators : list TokenKind :=
  [Assign; PlusAssign; MinusAssign; StarAssign; SlashAssign; PercentAssign; CaretAssign; AtAssign; AmpAssign; PipeAssign].

Definition parseAssign : P unit :=
  m ← mark;
  parseLogicalOr;;
  when_ (atAny assignOperators &&& no panic_) (bump;; parseLogicalOr;; close m NK.AssignExpr).

(** ** Control *)

Definition parseIf : P unit :=
  m ← mark;
  bump;;
  parseLogicalOr;;
  then_ ← eat KwThen;
  if negb then_ then
    if_ (at_ Assign) (error AssignmentInCondition [Tok KwThen]) (error MissingThen [Tok KwThen]);;
    close m NK.IfExpr
  else
    parseBlockExpr;;
    when_ (at_ KwElse &&& no panic_) (bump;; parseBlockExpr);;
    close m NK.IfExpr.

Definition fieldPattern : P unit :=
  m ← mark;
  if_ (at_ Underscore) bump (if_ (at_ Identifier) (parseIdentRef NK.IdentRef) (unexpected [PatternItem]));;
  close m NK.Pattern.

Definition parseEnumTuplePattern : P unit :=
  m ← mark;
  bump;;
  withScope false None
    (when_ (no (atAny [RParen; Comma])) (fieldPattern;; moreItems RParen fieldPattern);; eat' Comma);;
  unlessPanic (expectListEnd RParen);;
  close m NK.EnumTuplePattern.

Definition structPatternField : P bool :=
  bump;;
  colon ← eat Colon;
  (if (colon : bool) then fieldPattern else skip);;
  if_ (no (at_ Comma)) (mret false) (bump;; mret true).

Definition parseEnumStructPattern : P unit :=
  m ← mark;
  bump;;
  withScope false None (loop_ (if_ (at_ Identifier &&& no panic_) structPatternField (mret false)));;
  unlessPanic (expectListEnd RBrace);;
  close m NK.EnumStructPattern.

Definition patternLiteral : Cond :=
  atAny [Integer; Real; String; RawString; MultiStr; KwTrue; KwFalse; KwNull] ||| literalSignAhead.

Definition namePattern : P unit :=
  isError ← gets (atWord 0 "error");
  parseIdentRef NK.IdentRef;;
  if_ (at_ LParen) parseEnumTuplePattern
    (if_ (at_ LBrace) parseEnumStructPattern
       (when_ (fun s => isError && isK (cur s) Identifier && negb (atWord 0 "when" s)) parseIdentDef)).

Definition parsePattern (fieldPosition : bool) : P unit :=
  if fieldPosition then fieldPattern
  else
    m ← mark;
    if_ (at_ Identifier) (namePattern;; close m NK.Pattern)
      (if_ (at_ Underscore) (bump;; close m NK.Pattern)
         (if_ patternLiteral (parseLiteral;; close m NK.Pattern) (unexpected [PatternItem]))).

(** [when] behind a body. *)
Definition strayWhen : P unit :=
  when_ (fun s => negb (panic_ s) && isK (cur s) Identifier && textIs "when" s)
    (error WhenAfterBody [];; bump;; parseExpr).

Definition parseMatchCase : P unit :=
  m ← mark;
  bump;;
  parsePattern false;;
  while_ (at_ Pipe &&& no panic_) (bump;; parsePattern false);;
  when_ (no panic_ &&& atWord 0 "when") parseWhenClause;;
  thenBlock FatArrow;;
  strayWhen;;
  close m NK.MatchCase.

Definition parseTypeCase : P unit :=
  m ← mark;
  bump;;
  parseTypeCasePattern;;
  while_ (at_ Pipe &&& no panic_) (bump;; parseTypeCasePattern);;
  thenBlock FatArrow;;
  close m NK.TypeCase.

Definition parseMatchType : P unit :=
  m ← mark;
  bump;;
  bump;;
  withTypeHead parseType;;
  brace ← if_ panic_ (mret false) (expect LBrace);
  if negb brace then close m NK.MatchTypeExpr
  else
    withScope true None (caseList parseTypeCase);;
    eat' RBrace;;
    close m NK.MatchTypeExpr.

Definition parseMatch : P unit :=
  if_ (next 1 KwType) parseMatchType
    (m ← mark;
     bump;;
     parseLogicalOr;;
     brace ← if_ panic_ (mret false) (expect LBrace);
     if negb brace then close m NK.MatchExpr
     else
       withScope true None (when_ (no (at_ KwCase)) (unexpected [Tok KwCase]);; caseList parseMatchCase);;
       eat' RBrace;;
       close m NK.MatchExpr).

(** The states of a loop: whether they could be read. *)
Definition loopState : P (option bool) :=
  sm ← mark;
  parseIdentDef;;
  assign ← if_ panic_ (mret false) (expect Assign);
  if negb assign then close sm NK.LoopState;; mret None
  else
    parseLogicalOr;;
    close sm NK.LoopState;;
    if_ (at_ Comma &&& next 1 Identifier &&& next 2 Assign &&& no panic_) (bump;; mret (Some true)) (mret (Some false)).

Fixpoint loopStates (fuel : nat) : P bool := fun s =>
  match fuel with
  | O => None
  | S fuel =>
      (r ← loopState;
       match r with
       | None => mret false
       | Some true => loopStates fuel
       | Some false => mret true
       end) s
  end.

Definition readStates : P bool :=
  fuel ← gets (fun s => S (S (length (toks_ s) - pos_ s)));
  loopStates fuel.

Definition loopFor' : P unit :=
  fm ← mark;
  bump;;
  parseIdentDef;;
  unlessPanic (in_ ← expect KwIn; if (in_ : bool) then parseLogicalOr else skip);;
  close fm NK.LoopFor.

Definition loopWhile : P unit :=
  wm ← mark;
  bump;;
  parseLogicalOr;;
  close wm NK.LoopWhile.

Definition parseLoop : P unit :=
  m ← mark;
  bump;;
  states ← readStates;
  if negb states then close m NK.LoopExpr
  else
    hasFor ← gets (at_ KwFor &&& no panic_);
    (if (hasFor : bool) then loopFor' else skip);;
    hasWhile ← gets (at_ KwWhile &&& no panic_);
    (if (hasWhile : bool) then loopWhile else skip);;
    when_ (fun s => negb (hasFor || hasWhile) && negb (panic_ s)) (unexpected [Tok KwFor; Tok KwWhile]);;
    thenBlock KwDo;;
    close m NK.LoopExpr.

Definition parseStaticLoop : P unit :=
  m ← mark;
  bump;;
  bump;;
  states ← readStates;
  if negb states then close m NK.StaticLoopExpr
  else
    parseStaticLoopHeader;;
    thenBlock KwDo;;
    close m NK.StaticLoopExpr.

Definition bodyExpr : P unit :=
  withDepth
    (if_ tooDeep (unexpected [])
       (if_ (at_ KwIf) parseIf
          (if_ (at_ KwMatch) parseMatch
             (if_ (at_ KwLoop) parseLoop
                (if_ (at_ KwStatic &&& next 1 KwLoop) parseStaticLoop parseAssign))))).
End expr.
