(* ===== verification/ParserDecl.v ===== *)
(** * Declarations, rules, facts and statements

    The productions of src/src/parse/syntax/parser.cpp and parser_rule.cpp. [bodyStmtBlock] and
    [bodyDecl] are parseStmtBlock and parseDecl. *)

From Stdlib Require Import Ascii String.
From stdpp Require Import strings.
From S2P Require Import Prelude Tokens Cst ParserState ParserLook ParserParts ParserExpr Lexer.
#[local] Open Scope nat_scope.

(** ** Recovery *)

Definition recoverStops (start : nat) (inBlock topLevel : bool) : Cond := fun s =>
  isK (cur s) Semi || (isK (cur s) RBrace && inBlock) ||
  (negb (pos_ s =? start) && flagOf newlineBefore s && (if topLevel then startsTopDecl s else startsStmt s)) ||
  (negb (pos_ s =? start) && isOneOf (cur s) [KwFunc; KwLet; KwVar; KwImport; KwNamespace]).

(** [nesting] is the variable of the loop. *)
Fixpoint recoverFrom (fuel start nesting : nat) (inBlock topLevel : bool) : P unit := fun s =>
  if isK (cur s) Eof then Some ((), s)
  else if (nesting =? 0) && recoverStops start inBlock topLevel s then Some ((), s)
  else
    match fuel with
    | O => None
    | S fuel =>
        let nesting :=
          if isOneOf (cur s) [LParen; LBracket; LBrace] then S nesting
          else if isOneOf (cur s) [RParen; RBracket; RBrace] then nesting - 1 else nesting in
        (pushCurrent;; advance;; recoverFrom fuel start nesting inBlock topLevel) s
    end.

Definition recover (inBlock topLevel : bool) : P unit :=
  m ← mark;
  start ← gets pos_;
  fuel ← gets (fun s => length (toks_ s) - pos_ s);
  recoverFrom fuel start 0 inBlock topLevel;;
  when_ (fun s => m <? length (stack_ s)) (close m NK.Error);;
  modify (setPanic false).

(** One token that fits nothing, stepped over. *)
Definition stepOver : P unit := em ← mark; pushCurrent;; advance;; close em NK.Error.

Section decl.
Context {productions : Productions}.
#[local] Abbreviation parseExpr := (call PExpr).
#[local] Abbreviation parseLogicalOr := (call PLogicalOr).
#[local] Abbreviation parseType := (call PType).
#[local] Abbreviation parseStmtBlock := (call PStmtBlock).
#[local] Abbreviation parseDecl := (call PDecl).

(** ** Annotations *)

Definition parseFuncAnno : P unit :=
  m ← mark;
  bump;;
  parseIdentRef NK.IdentRef;;
  if_ (at_ LAngle) parseAngledValues
    (when_ (at_ LParen) (parseBracketedIdents RParen NK.ParentIdents false));;
  close m NK.FuncAnno.

Definition parseFrontMatter : P unit :=
  while_ (atAny [At; Hash]) (if_ (at_ At) parseFuncAnno parseTagUse).

(** ** Imports, exports, namespaces *)

Definition parseImportItem : P unit :=
  m ← mark;
  parseIdentDef;;
  when_ (at_ KwAs &&& no panic_) (bump;; parseIdentDef);;
  close m NK.ImportItem.

Definition parseBracedImports : P unit :=
  m ← mark;
  bump;;
  withScope false None
    (when_ (no (atAny [RBrace; Comma])) (parseImportItem;; moreItems RBrace parseImportItem);; eat' Comma);;
  unlessPanic (expectListEnd RBrace);;
  close m NK.BracedImports.

Definition parseImportDecl : P unit :=
  m ← mark;
  bump;;
  if_ (at_ LBrace) (parseBracedImports;; expect' KwFrom;; parseModuleName)
    (if_ (at_ Identifier &&& nextAny 1 [KwFrom; KwAs] &&& (next 1 KwFrom ||| next 3 KwFrom))
       (parseImportItem;; expect' KwFrom;; parseModuleName)
       (parseModuleName;; when_ (at_ KwAs &&& no panic_) (bump;; parseIdentDef)));;
  close m NK.ImportDecl.

Definition parseUsingNamespaceDecl : P unit :=
  m ← mark;
  bump;;
  expect' KwNamespace;;
  parseIdentRef NK.IdentRef;;
  close m NK.UsingNamespaceDecl.

(** What follows a declaration in a list of them, or a token that starts none. [inBlock] and
    [topLevel] are for [recover], [ends] are the kinds that end the list. *)
Definition declItem (starts : Cond) (ends : TokenKind) (inBlock : bool) : P unit :=
  before ← gets pos_;
  done ←
    if_ (at_ Semi) (error ExtraSemicolon [];; mret false)
      (if_ starts
         (parseDecl;; if_ (no panic_) (eat' Semi;; mret true) (mret false))
         (unexpected [Declaration; Tok ends];; mret false));
  if (done : bool) then skip
  else
    recover inBlock true;;
    when_ (fun s => (pos_ s =? before) && negb (isK (cur s) Eof) && negb (inBlock && isK (cur s) RBrace)) stepOver;;
    eat' Semi.

Definition parseNamespaceDecl : P unit :=
  withDepth
    (m ← mark;
     bump;;
     parseIdentRef NK.IdentRef;;
     brace ← expect LBrace;
     if_ (fun s => negb brace || tooDeep s) (close m NK.NamespaceDecl)
       (withScope true None
          (eat' Semi;; while_ (no (atAny [RBrace; Eof])) (declItem startsDecl RBrace true));;
        expect' RBrace;;
        close m NK.NamespaceDecl)).

(** ** Tags and resources *)

Definition isTagPosition : Cond := fun s =>
  (isK (cur s) Identifier || isKeyword (cur s)) &&
  existsb (fun w => textIs w s) ["func"; "type"; "field"; "nodes"; "param"]%string.

Definition parseTagPositionName : P unit :=
  if_ (no isTagPosition) (unexpected [Tok Identifier]) (m ← mark; bump;; close m NK.IdentDef).

Definition parseTagPositions : P unit :=
  m ← mark;
  parseTagPositionName;;
  while_ (at_ Comma &&& no (atWord 1 "read_by") &&& (fun s => isK (peek 1 s) Identifier || isKeyword (peek 1 s)) &&&
          no panic_) (bump;; parseTagPositionName);;
  eat' Comma;;
  close m NK.TagPositions.

Definition parseTagReaders : P unit :=
  m ← mark;
  parseIdentRef NK.IdentRef;;
  while_ (at_ Comma &&& next 1 Identifier &&& no panic_) (bump;; parseIdentRef NK.IdentRef);;
  eat' Comma;;
  close m NK.TagReaders.

Definition parseTagDecl : P unit :=
  m ← mark;
  eat' KwExport;;
  bump;;
  expectName NK.IdentDef;;
  group ← eat Assign;
  if (group : bool) then parseBracketedIdents RBracket NK.BracketIdents false;; close m NK.TagDecl
  else
    when_ genericAhead parseTypeParams;;
    when_ (at_ LParen) (parseParentParams false false);;
    if_ (no (atWord 0 "on")) (unexpected [Tok Identifier];; close m NK.TagDecl)
      (bump;;
       parseTagPositions;;
       when_ (atWord 0 "read_by") (bump;; parseTagReaders);;
       when_ (atWord 0 "when") parseWhenClause;;
       close m NK.TagDecl).

Definition parseResourceDecl : P unit :=
  m ← mark;
  eat' KwExport;;
  bump;;
  expectName NK.IdentDef;;
  group ← eat Assign;
  (if (group : bool) then parseBracketedIdents RBracket NK.BracketIdents false
   else when_ (atWord 0 "unordered") bump);;
  close m NK.ResourceDecl.

(** ** Rules *)

Definition parseRuleBody : P unit :=
  m ← mark;
  parseExpr;;
  unlessPanic (if_ (atAny [FatArrow; Equiv]) bump (unexpected [Tok FatArrow; Tok Equiv]));;
  unlessPanic parseExpr;;
  close m NK.RuleBody.

Definition parseRuleDeclRest (m : nat) : P unit :=
  with_ ← eat KwWith;
  (if (with_ : bool) then parseAngledParams false false else skip);;
  eat' KwExport;;
  bump;;
  parseIdentDef;;
  when_ genericAhead parseTypeParams;;
  parseParentParams false false;;
  when_ (atWord 0 "when") parseWhenClause;;
  unlessPanic
    (brace ← expect LBrace;
     if (brace : bool) then withScope false None parseRuleBody;; expect' RBrace else skip);;
  strayWhen;;
  close m NK.RuleDecl.

Definition parseRuleDecl : P unit := m ← mark; parseFrontMatter;; parseRuleDeclRest m.

(** ** Facts *)

Definition parseFactPattern : P unit :=
  m ← mark;
  if_ (at_ KwConst)
    (bump;;
     parseIdentDef;;
     unlessPanic (typed ← eat Colon; if (typed : bool) then parseType else skip))
    (if_ (at_ Underscore) bump parseExpr);;
  close m NK.FactPattern.

Definition parseFactCase : P unit :=
  m ← mark;
  bump;;
  parseFactPattern;;
  unlessPanic (arrow ← expect FatArrow; if (arrow : bool) then parseExpr else skip);;
  close m NK.FactCase.

Definition parseFactBody : P unit :=
  m ← mark;
  if_ (no (at_ KwMatch)) (unexpected [Tok KwMatch];; close m NK.FactBody)
    (bump;;
     parseLogicalOr;;
     brace ← if_ panic_ (mret false) (expect LBrace);
     if negb brace then close m NK.FactBody
     else
       withScope true None (when_ (no (at_ KwCase)) (unexpected [Tok KwCase]);; caseList parseFactCase);;
       eat' RBrace;;
       close m NK.FactBody).

Definition parseFactClause : P unit := m ← mark; bump;; parseExpr;; close m NK.FactClause.

Definition kClauses : list string := ["join"; "meet"; "widen"; "narrow"]%string.

(** The clauses; [unread] are the words not read yet. *)
Fixpoint factClauses (fuel : nat) (unread : list string) : P unit := fun s =>
  match fuel with
  | O => None
  | S fuel =>
      if negb (panic_ s) && isK (cur s) Identifier then
        match list_find (fun w => textIs w s = true) unread with
        | Some (i, _) => (parseFactClause;; factClauses fuel (delete i unread)) s
        | None => Some ((), s)
        end
      else Some ((), s)
  end.

Definition parseFactDeclRest (m : nat) : P unit :=
  with_ ← eat KwWith;
  (if (with_ : bool) then parseAngledParams false false else skip);;
  eat' KwExport;;
  bump;;
  parseIdentDef;;
  when_ genericAhead parseTypeParams;;
  when_ (at_ LParen) (parseParentParams false false);;
  unlessPanic (colon ← expect Colon; if (colon : bool) then parseType else skip);;
  unlessPanic parseFactBody;;
  factClauses (S (length kClauses)) kClauses;;
  close m NK.FactDecl.

Definition parseFactDecl : P unit := m ← mark; parseFrontMatter;; parseFactDeclRest m.

(** ** Functions *)

Definition parseOperatorName : P unit :=
  m ← mark;
  bump;;
  if_ (at_ LBracket) (bump;; expect' RBracket) bump;;
  close m NK.OperatorName.

Definition blockAhead : Cond := at_ LBrace ||| (at_ KwSync &&& next 1 LBrace).

Definition parseFuncDeclRest (m : nat) : P unit :=
  with_ ← eat KwWith;
  (if (with_ : bool) then parseAngledParams true true else skip);;
  eat' KwExport;;
  if_ (atRuleDecl 0) (parseRuleDeclRest m)
    (func ← eat KwFunc;
     if negb func then unexpected [Tok KwFunc];; close m NK.FuncDecl
     else
       if_ atOperatorName parseOperatorName (parseIdentRef NK.IdentRef);;
       when_ genericAhead parseTypeParams;;
       parseParentParams true true;;
       typed ← eat Colon;
       (if (typed : bool) then parseType else skip);;
       when_ (atWord 0 "uses" ||| atWord 0 "pure") parseResourceClause;;
       when_ (atWord 0 "when") parseWhenClause;;
       when_ (no panic_ &&& blockAhead) parseStmtBlock;;
       close m NK.FuncDecl).

Definition parseFuncDecl : P unit := m ← mark; parseFrontMatter;; parseFuncDeclRest m.

(** ** Data and types *)

Definition wildcardCarrier : P unit :=
  list ← mark;
  name ← mark;
  bump;;
  close name NK.IdentDef;;
  close list NK.IdentList.

(** The names a declaration binds: whether they could be read. *)
Definition carrier (isLet : bool) : P bool :=
  if_ (at_ Underscore)
    (if negb isLet then unexpected [Tok Identifier];; mret false else wildcardCarrier;; mret true)
    (if_ (at_ LParen) (parseBracketedIdents RParen NK.ParentIdents true;; mret true)
       (if_ (at_ Identifier) (parseIdentList;; mret true) (nameError;; mret false))).

Definition parseDataDecl (exported : bool) : P unit :=
  m ← mark;
  isLet ← gets (at_ KwLet);
  bump;;
  bound ← carrier isLet;
  if negb bound then close m NK.DataDecl
  else
    typed ← eat Colon;
    (if (typed : bool) then parseTypeList Eof else skip);;
    assigned ← eat Assign;
    if (assigned : bool) then parseDataList Eof;; close m NK.DataDecl
    else
      if_ (fun s => exported && isLet && typed && negb (panic_ s)) (close m NK.DataDecl)
        (if_ (fun s => negb typed && negb (panic_ s))
           (p ← gets prev_; errorAt MissingInitializer [Tok Colon; Tok Assign] p)
           (unexpected [Tok Assign]);;
         close m NK.DataDecl).

(** The parameters of a type; whether the right side follows. *)
Definition typeDeclParams : P bool :=
  bump;;
  withScope false None
    (parseIdentDef;;
     while_ (at_ Comma &&& no (nextAny 1 [Gt; GtEq])) (bump;; parseIdentDef);;
     eat' Comma;;
     geq ← eat GtEq;
     if (geq : bool) then mret true
     else if_ (at_ Gt) (bump;; eat Assign) (unexpected [Tok Comma; Tok Gt];; mret false)).

Definition parseTypeDeclRest (m : nat) : P unit :=
  ty ← expect KwType;
  if negb ty then close m NK.TypeDecl
  else
    parseIdentRef NK.IdentRef;;
    rightSide ← if_ (atAny [LAngle; Lt]) typeDeclParams (eat Assign);
    if_ panic_ (close m NK.TypeDecl)
      ((if (rightSide : bool) then parseType else skip);; close m NK.TypeDecl).

Definition parseTypeDecl : P unit := m ← mark; parseFrontMatter;; parseTypeDeclRest m.

Definition parseExportDecl : P unit :=
  m ← mark;
  bump;;
  if_ (at_ LBrace) (parseBracketedIdents RBrace NK.BracedIdents false)
    (if_ (atAny [KwLet; KwVar]) (parseDataDecl true) parseTypeDecl);;
  close m NK.ExportDecl.

Definition parseAnnotatedStmt : P unit :=
  m ← mark;
  parseFrontMatter;;
  if_ (at_ KwExport &&& atRuleDecl 1) (parseRuleDeclRest m)
    (if_ (atRuleDecl 0) (parseRuleDeclRest m)
       (if_ (atFactDecl 0) (parseFactDeclRest m)
          (if_ blockAhead (parseStmtBlock;; close m NK.BlockStmt)
             (if_ (at_ KwType) (parseTypeDeclRest m) (parseFuncDeclRest m))))).

(** ** Declarations *)

Definition exportedDecl : P unit :=
  if_ (atFactDecl 1) parseFactDecl
    (if_ (atRuleDecl 1) parseRuleDecl
       (if_ (atTagDecl 1) parseTagDecl
          (if_ (atResourceDecl 1) parseResourceDecl
             (if_ (nextAny 1 [KwLet; KwVar; KwType; LBrace]) parseExportDecl parseFuncDecl)))).

Definition bodyDecl : P unit :=
  k ← gets cur;
  match k with
  | KwImport => parseImportDecl
  | KwNamespace => parseNamespaceDecl
  | KwUsing => parseUsingNamespaceDecl
  | KwLet | KwVar => parseDataDecl false
  | KwType => parseTypeDecl
  | Hash => parseAnnotatedStmt
  | KwExport => exportedDecl
  | _ =>
      if_ (atTagDecl 0) parseTagDecl
        (if_ (atResourceDecl 0) parseResourceDecl
           (if_ (atFactDecl 0) parseFactDecl (if_ (atRuleDecl 0) parseRuleDecl parseFuncDecl)))
  end.

(** ** Statements *)

Definition parseRetStmt : P unit :=
  m ← mark;
  bump;;
  parseDataList Eof;;
  close m NK.RetStmt.

Definition parseStmt : P unit :=
  withDepth
    (if_ tooDeep (unexpected [])
       (k ← gets cur;
        match k with
        | KwLet | KwVar => parseDataDecl false
        | KwType => parseTypeDecl
        | KwUsing => parseUsingNamespaceDecl
        | KwReturn | KwYield => parseRetStmt
        | KwFunc | KwWith | KwExport => parseFuncDecl
        | At | Hash => parseAnnotatedStmt
        | KwSync => if_ (fun s => (afterModifiers s =? 1) && next 1 LBrace s) parseStmtBlock parseExpr
        | KwStatic => if_ (next 1 KwLoop) parseStaticLoop parseStaticFor
        | LBrace => if_ (next 1 RBrace ||| braceIsStruct 0) parseExpr parseStmtBlock
        | _ => parseExpr
        end)).

Definition stmtItem : P unit :=
  before ← gets pos_;
  done ←
    if_ (at_ Semi)
      (if_ (fun s => isK (kindOf (toks_ s) (prev_ s)) Semi) (error ExtraSemicolon []) (unexpected [Tok RBrace]);;
       mret false)
      (if_ startsStmt
         (parseStmt;; if_ (no panic_) (eat' Semi;; mret true) (mret false))
         (unexpected [Tok RBrace];; mret false));
  if (done : bool) then skip
  else
    recover true false;;
    when_ (fun s => (pos_ s =? before) && negb (isK (cur s) Eof) && negb (isK (cur s) RBrace)) stepOver;;
    eat' Semi.

Definition parseStmtList : P unit :=
  m ← mark;
  while_ (no (atAny [RBrace; Eof])) stmtItem;;
  when_ (fun s => m <? length (stack_ s)) (close m NK.StmtList).

Definition bodyStmtBlock : P unit :=
  withDepth
    (m ← mark;
     eat' KwSync;;
     brace ← eat LBrace;
     if negb brace then unexpected [Tok LBrace; Tok KwSync];; close m NK.StmtBlock
     else
       if_ tooDeep (unexpected [];; close m NK.StmtBlock)
         (withScope true None parseStmtList;;
          expect' RBrace;;
          close m NK.StmtBlock)).

(** ** Programs *)

Definition parseProgram : P unit :=
  m ← mark;
  eat' Semi;;
  while_ (no (at_ Eof)) (declItem startsTopDecl Eof false);;
  pushCurrent;;
  close m NK.Program.
End decl.

(** * The parser

    [ParserImpl::run] and [ParserImpl::runExpression] of src/src/parse/syntax/parser.cpp: the
    productions tied together, the state a parse starts in, and the tree it gives. *)

Definition body {productions : Productions} (p : Prod) : P unit :=
  match p with
  | PExpr => bodyExpr
  | PLogicalOr => bodyLogicalOr
  | PPower => bodyPower
  | PNeg underMinus => bodyNeg underMinus
  | PType => bodyType
  | PStmtBlock => bodyStmtBlock
  | PDecl => bodyDecl
  end.

(** The productions, nested at most [fuel] times. *)
Fixpoint productionsFor (fuel : nat) : Productions := fun p s =>
  match fuel with
  | O => None
  | S fuel => body (productions := productionsFor fuel) p s
  end.

Definition startState (buf : TokenBuffer) : Parser :=
  let p := nextFrom (length (tokens_ buf)) (tokens_ buf) 0 in
  mkParser (mkTree buf [] [] [] None) p p [] true None false None false false 0 false.

(** The tree, its root the node on top of the stack. *)
Definition finished (s : Parser) : Tree :=
  let t := tree_ s in
  mkTree (tokenBuffer t) (nodes_ t) (children_ t) (treeErrors t)
    (match stack_ s with NodeWord id :: _ => Some id | _ => None end).

Definition runFrom (buf : TokenBuffer) (p : P unit) : option Tree :=
  match p (startState buf) with Some (_, s) => Some (finished s) | None => None end.

(** Each level of nesting takes a token or goes on to a lower one of at most six levels. *)
Definition parseFuel (buf : TokenBuffer) : nat := 7 * S (length (tokens_ buf)).

(** [Parser::parse] and [Parser::parseExpression]. *)
Definition parse (buf : TokenBuffer) : option Tree :=
  runFrom buf (parseProgram (productions := productionsFor (parseFuel buf))).

Definition runExpression {productions : Productions} : P unit :=
  call PExpr;; when_ (no panic_ &&& no (at_ Eof)) (unexpected []).

Definition parseExpression (buf : TokenBuffer) : option Tree :=
  runFrom buf (runExpression (productions := productionsFor (parseFuel buf))).

Definition parseSource (source : Text) : option Tree := buf ← tokenize source; parse buf.
