(* ===== verification/ParserLogic.v ===== *)
(** * Reasoning about productions

    [wp m s Q]: the production [m] ends from [s], in a state and with a result that meet [Q]. The
    invariant of the parser is [wf]; [moves], [above] and [progress] say what a production does to
    the position, the stack and the error state. The tactic [run] executes a production step by
    step over these facts, with the specifications in the hint database [parser]. *)

From Stdlib Require Import Ascii String.
From stdpp Require Import strings.
From S2P Require Import Prelude Tokens Cst LexLines ParserState CstRepr ParserParts.
#[local] Open Scope nat_scope.

Create HintDb parser discriminated.

(** ** Outcomes *)

Definition wp {A} (m : P A) (s : Parser) (Q : A -> Parser -> Prop) : Prop :=
  exists a s', m s = Some (a, s') /\ Q a s'.

Lemma wp_weaken {A} (m : P A) s (Q R : A -> Parser -> Prop) :
  wp m s Q -> (forall a s', Q a s' -> R a s') -> wp m s R.
Proof. intros (a & s' & E & H) HR. exists a, s'. auto. Qed.

Lemma wp_bind {A B} (m : P A) (f : A -> P B) s Q : wp m s (fun a s' => wp (f a) s' Q) -> wp (m ≫= f) s Q.
Proof. intros (a & s' & E & b & s'' & E' & H). exists b, s''. split; [|done]. unfold mbind, P_bind. by rewrite E. Qed.

Lemma wp_ret {A} (a : A) s (Q : A -> Parser -> Prop) : Q a s -> wp (mret a) s Q.
Proof. intros H. by exists a, s. Qed.

Lemma wp_gets {A} (f : Parser -> A) s (Q : A -> Parser -> Prop) : Q (f s) s -> wp (gets f) s Q.
Proof. intros H. by exists (f s), s. Qed.

Lemma wp_modify f s (Q : unit -> Parser -> Prop) : Q () (f s) -> wp (modify f) s Q.
Proof. intros H. by exists (), (f s). Qed.

Lemma wp_if {A} (c : Cond) (a b : P A) s Q :
  (c s = true -> wp a s Q) -> (c s = false -> wp b s Q) -> wp (if_ c a b) s Q.
Proof. unfold wp, if_. destruct (c s); auto. Qed.

(** ** Tokens *)

(** The tokens of a buffer: one end, and it is the last of them. *)
Definition tokensOk (ts : list Token) : Prop :=
  exists body e, ts = body ++ [e] /\ kind e = Eof /\ Forall (fun t => kind t <> Eof) body.

(** The tokens in front of [p] that are not trivia. *)
Definition significantBefore (ts : list Token) (p : nat) : list nat :=
  filter (fun i => triviaAt ts i = false) (seq 0 p).

Section tokens.
Context (ts : list Token) (Hts : tokensOk ts).

Lemma eof_last p : kindOf ts p = Eof -> p < length ts -> p = length ts - 1.
Proof.
  destruct Hts as (body & e & -> & He & Hb). unfold kindOf. intros Hk Hp. rewrite length_app in *. simpl in *.
  destruct (decide (p < length body)) as [Hl|]; [|lia]. rewrite lookup_app_l in Hk by done.
  destruct (lookup_lt_is_Some_2 body p Hl) as [t Ht]. rewrite Ht in Hk. rewrite Forall_lookup in Hb. by destruct (Hb p t Ht).
Qed.

Lemma last_eof : triviaAt ts (length ts - 1) = false /\ kindOf ts (length ts - 1) = Eof.
Proof.
  destruct Hts as (body & e & -> & He & Hb). rewrite length_app. simpl. rewrite Nat.add_sub.
  unfold triviaAt, kindOf. rewrite list_lookup_middle by done. by rewrite He.
Qed.

Lemma significant_split p j : p < j -> triviaAt ts p = false -> (forall k, p < k < j -> triviaAt ts k = true) ->
  significantBefore ts j = significantBefore ts p ++ [p].
Proof.
  intros Hj Hp Hk. unfold significantBefore. replace j with (p + S (j - S p)) by lia.
  rewrite seq_app, filter_app. simpl. rewrite filter_cons_True by done. f_equal. f_equal.
  assert (Hnone : forall l, Forall (fun k => p < k < j) l -> filter (fun i => triviaAt ts i = false) l = []).
  { induction 1 as [|k l Hkl _ IH]; [done|]. rewrite filter_cons_False; [done|]. rewrite Hk by done. done. }
  apply Hnone, Forall_forall. intros k Hin%elem_of_seq. lia.
Qed.

Lemma after_spec p : p < length ts -> kindOf ts p <> Eof ->
  p < after ts p /\ after ts p < length ts /\ triviaAt ts (after ts p) = false /\
  (triviaAt ts p = false -> significantBefore ts (after ts p) = significantBefore ts p ++ [p]).
Proof.
  intros Hp Hk. destruct last_eof as [Hl1 Hl2]. unfold after.
  destruct (nextFrom_spec (length ts - (p + 1)) ts (p + 1)) as (H1 & H2 & H3); [lia|]. simpl in *.
  set (j := nextFrom _ _ _) in *.
  assert (Hj : j < length ts).
  { destruct (decide (j < length ts)) as [|Hge]; [done|]. exfalso.
    assert (p <> length ts - 1) by congruence. specialize (H2 (length ts - 1)). rewrite Hl1 in H2. lia || (discriminate H2; lia). }
  split_and!; [lia|done|done|]. intros Hs. apply significant_split; [lia|done|]. intros k Hkk. apply H2. lia.
Qed.
End tokens.

(** ** The invariant *)

Section logic.
Context (buf : TokenBuffer).
#[local] Abbreviation ts := (tokens_ buf).

Record wf (s : Parser) : Prop := {
  wf_buf : buffer s = buf;
  wf_ok : tokensOk ts;
  wf_pos : pos_ s < length ts /\ triviaAt ts (pos_ s) = false;
  wf_prev : prev_ s < length ts /\ triviaAt ts (prev_ s) = false;
  (** The tokens of the tree under construction are those in front of the position; only the end
      of the text can be there more than once. *)
  wf_tree : exists k, (0 < k -> cur s = Eof) /\
    treeOk (nodes_ (tree_ s)) (children_ (tree_ s)) (stack_ s) (significantBefore ts (pos_ s) ++ replicate k (pos_ s));
  wf_errors : Forall (fun e => seToken e < length ts /\ triviaAt ts (seToken e) = false) (treeErrors (tree_ s));
  wf_clean : treeErrors (tree_ s) = [] -> panic_ s = false /\ Forall (fun d => nkind d <> NK.Error) (nodes_ (tree_ s));
}.

(** A token was taken, or an error is being reported, or there was nothing to take. *)
Definition progress (s s' : Parser) : Prop := cur s = Eof \/ pos_ s < pos_ s' \/ panic_ s' = true.

Record moves (s s' : Parser) : Prop := {
  mv_buf : buffer s' = buffer s;
  mv_pos : pos_ s <= pos_ s';
  mv_panic : panic_ s = true -> progress s s';
  mv_errors : treeErrors (tree_ s) <> [] -> treeErrors (tree_ s') <> [];
}.

Definition above (s s' : Parser) : Prop := exists new, stack_ s' = new ++ stack_ s.

Record step (s s' : Parser) : Prop := { st_wf : wf s'; st_moves : moves s s'; st_above : above s s' }.

(** The three kinds of outcome: any, one with progress, one that takes a token. *)
Definition goes {A} (s : Parser) (_ : A) (s' : Parser) : Prop := step s s'.
Definition does {A} (s : Parser) (_ : A) (s' : Parser) : Prop := step s s' /\ progress s s'.
Definition takes {A} (s : Parser) (_ : A) (s' : Parser) : Prop := step s s' /\ pos_ s < pos_ s'.

Lemma cur_same s s' : buffer s' = buffer s -> pos_ s' = pos_ s -> cur s' = cur s.
Proof. unfold cur, toks_. by intros -> ->. Qed.

Lemma moves_refl s : moves s s.
Proof. split; [done|lia|by right; right|done]. Qed.
Lemma above_refl s : above s s.
Proof. by exists []. Qed.

Lemma progress_left s s1 s2 : moves s s1 -> progress s1 s2 -> moves s1 s2 -> progress s s2.
Proof.
  intros [Hb Hp _ _] H12 [_ Hp2 _ _]. destruct (decide (pos_ s < pos_ s2)); [by right; left|].
  destruct H12 as [E|[?|?]]; [|lia|by right; right]. left. rewrite <- E. symmetry. apply cur_same; [done|lia].
Qed.
Lemma progress_right s s1 s2 : progress s s1 -> moves s s1 -> moves s1 s2 -> progress s s2.
Proof.
  intros [E|[Hlt|Hpan]] H01 H12; [by left|right; left; destruct H12; lia|].
  eapply progress_left; [exact H01|by apply (mv_panic _ _ H12)|exact H12].
Qed.
Lemma moves_trans s s1 s2 : moves s s1 -> moves s1 s2 -> moves s s2.
Proof.
  intros H01 H12. split; [by rewrite (mv_buf _ _ H12), (mv_buf _ _ H01)|destruct H01, H12; lia| |].
  - intros Hp. eapply progress_right; [by apply (mv_panic _ _ H01)|done|done].
  - intros He. by apply (mv_errors _ _ H12), (mv_errors _ _ H01).
Qed.
Lemma above_trans s s1 s2 : above s s1 -> above s1 s2 -> above s s2.
Proof. intros [n1 E1] [n2 E2]. exists (n2 ++ n1). by rewrite E2, E1, app_assoc. Qed.

Lemma progress_chain s a b s' : moves s a -> progress a b -> moves a b -> moves b s' -> progress s s'.
Proof.
  intros H1 H2 H3 H4. eapply progress_left; [exact H1|by eapply progress_right|by eapply moves_trans].
Qed.
Lemma progress_less s s' : pos_ s < pos_ s' -> progress s s'.
Proof. by right; left. Qed.
Lemma progress_panic s s' : panic_ s' = true -> progress s s'.
Proof. by right; right. Qed.

Lemma step_refl s : wf s -> step s s.
Proof. split; [done|apply moves_refl|apply above_refl]. Qed.
Lemma step_trans s s1 s2 : step s s1 -> step s1 s2 -> step s s2.
Proof. intros [_ M1 A1] [W M2 A2]. split; [done|by eapply moves_trans|by eapply above_trans]. Qed.

(** States that differ in the layout context only. *)
Definition same (s s' : Parser) : Prop :=
  tree_ s' = tree_ s /\ pos_ s' = pos_ s /\ prev_ s' = prev_ s /\ stack_ s' = stack_ s /\ panic_ s' = panic_ s.

Lemma same_cur s s' : same s s' -> cur s' = cur s.
Proof. intros (Et & Ep & _). apply cur_same; [unfold buffer; by rewrite Et|done]. Qed.

Lemma same_step s s' : wf s -> same s s' -> step s s'.
Proof.
  intros [H1 H2 H3 H4 H5 H6 H7] (Et & Ep & Er & Es & En).
  assert (Ec : cur s' = cur s) by (apply cur_same; [unfold buffer; by rewrite Et|done]). split.
  - split; unfold buffer in *; rewrite ?Et, ?Ep, ?Er, ?Es, ?En, ?Ec; done.
  - split; [unfold buffer; by rewrite Et|lia| |by rewrite Et]. intros Hp. right. right. by rewrite En.
  - exists []. by rewrite Es.
Qed.

Lemma wp_same f s (Q : unit -> Parser -> Prop) : wf s -> same s (f s) ->
  (forall s', step s s' -> same s s' -> Q () s') -> wp (modify f) s Q.
Proof. intros Hw Hs HQ. apply wp_modify, HQ; [by apply same_step|done]. Qed.

(** A production run in another layout context. *)
Lemma wp_within {A} (m m' : P A) (f : Parser -> Parser) (g : Parser -> Parser -> Parser) s Q : wf s ->
  m' s = match m (f s) with Some (a, s') => Some (a, g s s') | None => None end ->
  same s (f s) -> (forall s', same s' (g s s')) ->
  (forall s1, step s s1 -> same s s1 -> wp m s1 (fun a s2 => wf s2 /\ forall s3, step s2 s3 -> same s2 s3 -> Q a s3)) ->
  wp m' s Q.
Proof.
  intros Hw E Hf Hg Hm. destruct (Hm (f s)) as (a & s2 & Em & Hw2 & HQ); [by apply same_step|done|].
  exists a, (g s s2). rewrite E, Em. split; [done|]. apply HQ; [by apply same_step|done].
Qed.

Lemma wp_withScope {A} nl angle (m : P A) s Q : wf s ->
  (forall s1, step s s1 -> same s s1 -> wp m s1 (fun a s2 => wf s2 /\ forall s3, step s2 s3 -> same s2 s3 -> Q a s3)) ->
  wp (withScope nl angle m) s Q.
Proof.
  intros Hw. by apply (wp_within m _ (setLayout nl angle None)
    (fun s s' => setLayout (nl_ s) (angle_ s) (spacedGt_ s) s')).
Qed.
Lemma wp_withConstData {A} b (m : P A) s Q : wf s ->
  (forall s1, step s s1 -> same s s1 -> wp m s1 (fun a s2 => wf s2 /\ forall s3, step s2 s3 -> same s2 s3 -> Q a s3)) ->
  wp (withConstData b m) s Q.
Proof. intros Hw. by apply (wp_within m _ (setConstData b) (fun s s' => setConstData (constData_ s) s')). Qed.
Lemma wp_withTypeHead {A} (m : P A) s Q : wf s ->
  (forall s1, step s s1 -> same s s1 -> wp m s1 (fun a s2 => wf s2 /\ forall s3, step s2 s3 -> same s2 s3 -> Q a s3)) ->
  wp (withTypeHead m) s Q.
Proof. intros Hw. by apply (wp_within m _ (setTypeHead true) (fun s s' => setTypeHead (typeHead_ s) s')). Qed.
Lemma wp_withDepth {A} (m : P A) s Q : wf s ->
  (forall s1, step s s1 -> same s s1 -> wp m s1 (fun a s2 => wf s2 /\ forall s3, step s2 s3 -> same s2 s3 -> Q a s3)) ->
  wp (withDepth m) s Q.
Proof. intros Hw. by apply (wp_within m _ (fun s => setDepth (S (depth_ s)) s) (fun _ s' => setDepth (depth_ s' - 1) s')). Qed.

(** ** Primitives *)

Lemma wf_kindOf s : wf s -> pos_ s < length (toks_ s) /\ length (toks_ s) = length ts.
Proof. intros [Hb _ [Hp _] _ _ _ _]. unfold toks_. rewrite Hb. done. Qed.

Lemma cur_ts s : wf s -> cur s = kindOf ts (pos_ s).
Proof. intros W. unfold cur, toks_. by rewrite (wf_buf _ W). Qed.

(** The tree grew by the token at the position. *)
Lemma wf_tree_push s : wf s -> exists k, (0 < k -> cur s = Eof) /\
  treeOk (nodes_ (tree_ s)) (children_ (tree_ s)) (TokenWord (pos_ s) :: stack_ s)
    ((significantBefore ts (pos_ s) ++ replicate k (pos_ s)) ++ [pos_ s]).
Proof. intros W. destruct (wf_tree _ W) as (k & Hk & Ht). exists k. split; [done|]. by apply treeOk_push. Qed.

(** The state a token taken leaves: [advance] behind [pushCurrent]. *)
Definition taken (b : bool) (s : Parser) : Parser :=
  let s1 := setStack (TokenWord (pos_ s) :: stack_ s) s in
  let s2 := if b then setPanic false s1 else s1 in
  if isK (cur s) Eof then s2 else setPos (after (toks_ s) (pos_ s)) (pos_ s) s2.

Lemma taken_wf b s : wf s -> wf (taken b s) /\ (cur s <> Eof -> pos_ s < pos_ (taken b s)) /\
  buffer (taken b s) = buffer s /\ pos_ s <= pos_ (taken b s) /\ treeErrors (tree_ (taken b s)) = treeErrors (tree_ s) /\
  stack_ (taken b s) = TokenWord (pos_ s) :: stack_ s.
Proof.
  intros W. pose proof (cur_ts s W) as Ec. destruct (wf_tree_push s W) as (k & Hk & Ht). pose proof W as [H1 H2 [H3 H3'] H4 _ H6 H7].
  assert (Hclean : treeErrors (tree_ s) = [] -> (if b then false else panic_ s) = false /\
    Forall (fun d => nkind d <> NK.Error) (nodes_ (tree_ s))) by (intros E; destruct (H7 E); by destruct b).
  unfold taken, isK. case_bool_decide as Hc.
  - assert (Hw : wf (if b then setPanic false (setStack (TokenWord (pos_ s) :: stack_ s) s)
      else setStack (TokenWord (pos_ s) :: stack_ s) s)); [|by destruct b; split_and!].
    assert (Ht' : exists k', (0 < k' -> cur s = Eof) /\ treeOk (nodes_ (tree_ s)) (children_ (tree_ s))
      (TokenWord (pos_ s) :: stack_ s) (significantBefore ts (pos_ s) ++ replicate k' (pos_ s))).
    { exists (S k). split; [done|]. by rewrite replicate_S_end, app_assoc. }
    destruct b; split; try done.
  - assert (k = 0) as -> by (destruct k; [done|]; destruct (Hc (Hk ltac:(lia)))).
    rewrite Ec in Hc. pose proof (after_spec _ H2 _ H3 Hc) as (Ha1 & Ha2 & Ha3 & Ha4).
    assert (Et : toks_ s = ts) by (unfold toks_; by rewrite H1). rewrite Et.
    assert (Hw : wf (setPos (after ts (pos_ s)) (pos_ s)
      (if b then setPanic false (setStack (TokenWord (pos_ s) :: stack_ s) s)
       else setStack (TokenWord (pos_ s) :: stack_ s) s))); [|by destruct b; split_and!; simpl; try done; lia].
    assert (Ht' : exists k', (0 < k' -> kindOf ts (after ts (pos_ s)) = Eof) /\ treeOk (nodes_ (tree_ s)) (children_ (tree_ s))
      (TokenWord (pos_ s) :: stack_ s) (significantBefore ts (after ts (pos_ s)) ++ replicate k' (after ts (pos_ s)))).
    { exists 0. split; [lia|]. rewrite Ha4 by done. by rewrite app_nil_r in *. }
    assert (Eb : toks_ (setPos (after ts (pos_ s)) (pos_ s) s) = ts) by (unfold toks_; by rewrite <- H1).
    destruct b; split; try done; simpl; try (unfold cur; simpl; unfold toks_, buffer; simpl; fold (buffer s); rewrite H1); done.
Qed.

(** A token was taken; only the end of the text stays in front of the position. *)
Definition bumps (s s' : Parser) : Prop := step s s' /\ progress s s' /\ (cur s <> Eof -> pos_ s < pos_ s').

Lemma bump_taken s : bump s = Some ((), taken true s).
Proof. unfold bump, pushCurrent, advance, push, modify, gets, taken, mbind, P_bind. cbn. by destruct (isK _ _). Qed.

Lemma progress_eof s s' : (cur s <> Eof -> pos_ s < pos_ s') -> progress s s'.
Proof. intros H. destruct (decide (cur s = Eof)); [by left|right; left; auto]. Qed.

Lemma spec_bump s : wf s -> wp bump s (fun _ s' => bumps s s').
Proof.
  intros W. exists (), (taken true s). split; [apply bump_taken|]. destruct (taken_wf true s W) as (W' & Hl & Hb & Hp & He & Hs).
  split_and!; [|by apply progress_eof|done]. split; [done| |by exists [TokenWord (pos_ s)]].
  split; [done|done| |by rewrite He]. intros _. by apply progress_eof.
Qed.

(** A token stepped over without a change of the error state. *)
Lemma spec_skipToken s : wf s -> cur s <> Eof -> wp (pushCurrent;; advance) s (fun _ s' =>
  wf s' /\ buffer s' = buffer s /\ pos_ s < pos_ s' /\ above s s' /\ treeErrors (tree_ s') = treeErrors (tree_ s)).
Proof.
  intros W Hc. exists (), (taken false s). split.
  { unfold pushCurrent, advance, push, modify, gets, taken, mbind, P_bind. cbn. by destruct (isK _ _). }
  destruct (taken_wf false s W) as (W' & Hl & Hb & Hp & He & Hs). split_and!; auto. by exists [TokenWord (pos_ s)].
Qed.

(** ** Closing a node *)

(** What closing a node over the words above [sm] does, or a production that ends with that. *)
Record over (sm s s' : Parser) : Prop := { ov_step : step sm s'; ov_moves : moves s s' }.

Lemma wp_close m k sm s (Q : unit -> Parser -> Prop) : wf s -> above sm s -> m = length (stack_ sm) ->
  (k = NK.Error -> treeErrors (tree_ s) <> []) ->
  (forall s', wf s' -> pos_ s' = pos_ s -> panic_ s' = panic_ s -> cur s' = cur s -> buffer s' = buffer s ->
    treeErrors (tree_ s') = treeErrors (tree_ s) -> lineBreak s' = lineBreak s -> above sm s' ->
    (forall front, treeOk (nodes_ (tree_ s)) (children_ (tree_ s)) (stack_ s) front ->
      treeOk (nodes_ (tree_ s')) (children_ (tree_ s')) (stack_ s') front) -> Q () s') ->
  wp (close m k) s Q.
Proof.
  intros W [new Es] -> Hk HQ. unfold close. apply wp_modify. rewrite Es, length_app, Nat.add_sub.
  rewrite take_app_length, drop_app_length. pose proof W as [H1 H2 H3 H4 (n & Hn & Ht) H6 H7].
  set (ws := rev new). set (nodes := nodes_ (tree_ s)) in *. set (children := children_ (tree_ s)) in *.
  assert (El : length new = length ws) by (unfold ws; by rewrite length_rev).
  match goal with |- Q () (setStack _ (setTree (mkTree _ (_ ++ [?node]) _ _ _) _)) =>
    replace node with (closedNode children ws (spanOf nodes ws) (pos_ s) k) by (unfold closedNode; rewrite El; done) end.
  assert (Hnew : forall front, treeOk nodes children (new ++ stack_ sm) front ->
    treeOk (setParents (length nodes) ws nodes ++ [closedNode children ws (spanOf nodes ws) (pos_ s) k])
      (children ++ ws) (NodeWord (length nodes) :: stack_ sm) front) by (intros front Hf; by apply treeOk_close).
  rewrite Es in Ht.
  apply HQ; try done; [|by exists [NodeWord (length nodes)]|by rewrite Es; apply Hnew].
  split; try done; simpl.
  - exists n. split; [|by apply Hnew]. intros Hpos. by apply Hn.
  - intros E. destruct (H7 E) as [Hp Hf]. split; [done|]. apply Forall_app. split.
    + apply Forall_lookup. intros i d Hd. rewrite setParents_lookup in Hd. rewrite Forall_lookup in Hf.
      fold nodes in Hf. destruct (decide _), (nodes !! i) as [d0|] eqn:Ei; simplify_eq/=; by apply (Hf i).
    + apply Forall_singleton. intros Hke. apply Hk; [|done]. revert Hke. unfold closedNode.
      by destruct (spanOf nodes ws) as [[f l]|].
Qed.

(** The words above [sm] are one node, of kind [k]. *)
Definition closedAs (k : NodeKind) (sm s : Parser) : Prop := exists id d,
  stack_ s = NodeWord id :: stack_ sm /\ nodes_ (tree_ s) !! id = Some d /\ nkind d = k.

Lemma close_closed sm k s s' : above sm s -> close (length (stack_ sm)) k s = Some ((), s') -> closedAs k sm s'.
Proof.
  intros [new Es] E. unfold close, modify in E. injection E as <-. exists (length (nodes_ (tree_ s))).
  eexists. split_and!.
  - simpl. rewrite Es, length_app, Nat.add_sub. by rewrite drop_app_length.
  - simpl. rewrite lookup_app_r; rewrite setParents_length; [|lia]. by rewrite Nat.sub_diag.
  - by destruct (spanOf _ _) as [[f l]|].
Qed.

Lemma wp_both {A} (m : P A) s (Q R : A -> Parser -> Prop) : wp m s Q -> wp m s R -> wp m s (fun a s' => Q a s' /\ R a s').
Proof. intros (a & s1 & E1 & H1) (b & s2 & E2 & H2). rewrite E1 in E2. injection E2 as <- <-. exists a, s1. auto. Qed.

Lemma spec_close k sm s : step sm s -> k <> NK.Error ->
  wp (close (length (stack_ sm)) k) s (fun _ s' =>
    over sm s s' /\ pos_ s' = pos_ s /\ panic_ s' = panic_ s /\ cur s' = cur s /\ lineBreak s' = lineBreak s /\
    closedAs k sm s').
Proof.
  intros [W M A] Hk. assert (Hcl : wp (close (length (stack_ sm)) k) s (fun _ s' => closedAs k sm s')).
  { eexists (), _. split; [reflexivity|]. eapply close_closed; [exact A|reflexivity]. }
  apply (wp_weaken _ _ (fun _ s' => (over sm s s' /\ pos_ s' = pos_ s /\ panic_ s' = panic_ s /\ cur s' = cur s /\
    lineBreak s' = lineBreak s) /\ closedAs k sm s')); [apply wp_both; [|exact Hcl]|intros ? ?; tauto].
  eapply (wp_close _ k sm); try done. intros s' W' Hp Hn Hc Hb He Hl Ha _. split_and!; try done.
  assert (Hm : moves s s') by (split; [done|lia|intros Hpan; right; right; congruence|by rewrite He]).
  split; [|done]. split; [done|by eapply moves_trans|done].
Qed.

Lemma over_refl sm s : step sm s -> over sm s s.
Proof. split; [done|apply moves_refl]. Qed.
Lemma over_trans sm s s1 s2 : over sm s s1 -> over sm s1 s2 -> over sm s s2.
Proof. intros [_ M1] [S2 M2]. split; [done|by eapply moves_trans]. Qed.
Lemma over_step sm s s' : step sm s -> step s s' -> over sm s s'.
Proof. intros S1 S2. split; [by eapply step_trans|apply S2]. Qed.

(** ** Errors *)

Lemma panic_errors s : wf s -> panic_ s = true -> treeErrors (tree_ s) <> [].
Proof. intros W Hp E. destruct (wf_clean _ W E). congruence. Qed.

Lemma makeError_token k expected at' aux s : seToken (makeError k expected at' aux s) = at'.
Proof. unfold makeError. by repeat case_match. Qed.

(** An error was reported; nothing else changed. *)
Definition fails (s s' : Parser) : Prop :=
  step s s' /\ panic_ s' = true /\ pos_ s' = pos_ s /\ prev_ s' = prev_ s /\ stack_ s' = stack_ s.

Lemma fails_cur s s' : fails s s' -> cur s' = cur s.
Proof. intros (S & _ & Hp & _). apply cur_same; [apply S|done]. Qed.

Lemma fails_intro s s' : wf s' -> buffer s' = buffer s -> panic_ s' = true -> pos_ s' = pos_ s -> prev_ s' = prev_ s ->
  stack_ s' = stack_ s -> fails s s'.
Proof.
  intros W Hb Hp Hpos Hprev Hst. split_and!; try done. split; [done| |by exists []].
  split; [done|lia|by right; right|by intros _; apply panic_errors].
Qed.

Lemma spec_errorAt k expected at' s : wf s -> at' < length ts -> triviaAt ts at' = false ->
  wp (errorAt k expected at') s (fun _ s' => fails s s').
Proof.
  intros W Ha Ht. unfold errorAt. apply wp_modify. destruct (panic_ s) eqn:Ep; [by apply fails_intro|].
  apply fails_intro; try done. destruct W as [H1 H2 H3 H4 H5 H6 H7]. split; try done; simpl.
  - apply Forall_app. split; [done|]. apply Forall_singleton. by rewrite makeError_token.
  - intros E. by apply app_eq_nil in E as [_ ?].
Qed.

Lemma spec_errorPos k expected s : wf s -> wp (error k expected) s (fun _ s' => fails s s').
Proof. intros W. apply wp_bind, wp_gets. apply spec_errorAt; [done|apply (wf_pos _ W)..]. Qed.

Lemma spec_errorAux k expected at' aux s : wf s -> at' < length ts -> triviaAt ts at' = false ->
  wp (errorAux k expected at' aux) s (fun _ s' => fails s s').
Proof.
  intros W Ha Ht. apply wp_bind, wp_gets, wp_bind. eapply wp_weaken; [by apply spec_errorAt|].
  intros _ s1 (S1 & Hp & Hpos & Hprev & Hst). unfold when_. apply wp_if; intros _; [|by apply wp_ret].
  apply wp_modify. pose proof (mv_buf _ _ (st_moves _ _ S1)) as Hbuf. apply fails_intro; try done.
  destruct (st_wf _ _ S1) as [H1 H2 H3 H4 H5 H6 H7]. split; try done; simpl.
  - unfold setLastAux. apply Forall_lookup. intros i e He. rewrite Forall_lookup in H6.
    destruct (decide (length (treeErrors (tree_ s1)) - 1 = i)) as [E|Hne].
    + rewrite E, list_lookup_alter_eq in He. destruct (treeErrors (tree_ s1) !! i) as [e0|] eqn:E0; simplify_eq/=.
      by eapply H6.
    + rewrite list_lookup_alter_ne in He by done. by apply (H6 i).
  - intros E. apply H7. apply (f_equal length) in E. unfold setLastAux in E. rewrite length_alter in E. by apply nil_length_inv.
Qed.

(** Errors at the token in front of the position. *)
Lemma spec_errorAtPrev k expected s : wf s -> wp (errorAt k expected (prev_ s)) s (fun _ s' => fails s s').
Proof. intros W. apply spec_errorAt; [done|apply (wf_prev _ W)..]. Qed.
Lemma spec_errorAuxPrev k expected aux s : wf s -> wp (errorAux k expected (prev_ s) aux) s (fun _ s' => fails s s').
Proof. intros W. apply spec_errorAux; [done|apply (wf_prev _ W)..]. Qed.

(** ** Marking a name as a pack *)

Lemma spec_markNameAsPack m s : wf s -> wp (markNameAsPack m) s (fun _ s' => step s s' /\ pos_ s' = pos_ s /\ panic_ s' = panic_ s).
Proof.
  intros W. unfold markNameAsPack. apply wp_modify.
  assert (Hs : step s s /\ pos_ s = pos_ s /\ panic_ s = panic_ s) by (split_and!; [by apply step_refl|done..]).
  destruct (stack_ s) as [|[i|id] rest] eqn:Es; [done..|]. destruct (nodes_ (tree_ s) !! id) as [d|] eqn:Ed; [|done].
  destruct (_ && _) eqn:Ec; [|done]. apply andb_prop in Ec as [_ Ek]. apply bool_decide_eq_true in Ek. split_and!; [|done..]. split.
  - destruct W as [H1 H2 H3 H4 (k & Hk & Ht) H6 H7]. split; try done; simpl.
    + exists k. split; [done|]. eapply treeOk_flag; [exact Ht|exact Ed| |done].
      split_and!; try done. unfold emptyNode. cbn [nflags].
      rewrite Z.land_lor_distr_l. change (Z.land kPackName kEmptyNode) with 0%Z. by rewrite Z.lor_0_r.
    + intros E. destruct (H7 E) as [Hp Hf]. split; [done|]. apply Forall_insert; [done|]. simpl. by rewrite Ek.
  - split; [done|simpl; lia|by right; right|done].
  - by exists [].
Qed.

(** ** Tokens asked for *)

Lemma isK_true k k' : isK k k' = true <-> k = k'.
Proof. apply bool_decide_eq_true. Qed.

Lemma spec_eat k s : wf s -> k <> Eof -> wp (eat k) s (fun b s' =>
  (b = true /\ step s s' /\ pos_ s < pos_ s') \/ (b = false /\ s' = s)).
Proof.
  intros W Hk. apply wp_if; intros E; [|apply wp_ret; by right]. apply isK_true in E.
  apply wp_bind. eapply wp_weaken; [by apply spec_bump|]. intros [] s1 (S1 & _ & Hl). apply wp_ret. left.
  split_and!; [done..|]. apply Hl. congruence.
Qed.

Lemma spec_eat' k s : wf s -> k <> Eof -> wp (eat' k) s (fun _ s' => step s s' /\ (s' = s \/ pos_ s < pos_ s')).
Proof.
  intros W Hk. apply wp_bind. eapply wp_weaken; [by apply spec_eat|]. intros b s1 [(_ & S1 & Hl)|(_ & ->)]; apply wp_ret.
  - auto.
  - split; [by apply step_refl|by left].
Qed.

Lemma spec_expect k s : wf s -> k <> Eof -> wp (expect k) s (fun b s' =>
  (b = true /\ step s s' /\ pos_ s < pos_ s') \/ (b = false /\ fails s s')).
Proof.
  intros W Hk. apply wp_if; intros E.
  - apply isK_true in E. apply wp_bind. eapply wp_weaken; [by apply spec_bump|]. intros [] s1 (S1 & _ & Hl).
    apply wp_ret. left. split_and!; [done..|]. apply Hl. congruence.
  - apply wp_bind. eapply wp_weaken; [by apply spec_errorPos|]. intros [] s1 H. apply wp_ret. by right.
Qed.

Lemma does_bumps s (a : unit) s' : bumps s s' -> does s a s'.
Proof. by intros (H1 & H2 & _). Qed.
Lemma does_fails {A} s (a : A) s' : fails s s' -> does s a s'.
Proof. intros (H1 & H2 & _). split; [done|by apply progress_panic]. Qed.
Lemma does_takes {A} s (a : A) s' : step s s' -> pos_ s < pos_ s' -> does s a s'.
Proof. intros H1 H2. split; [done|by apply progress_less]. Qed.

Lemma spec_expect' k s : wf s -> k <> Eof -> wp (expect' k) s (does s).
Proof.
  intros W Hk. apply wp_bind. eapply wp_weaken; [by apply spec_expect|].
  intros b s1 [(_ & S1 & Hl)|(_ & H)]; apply wp_ret; [by apply does_takes|by apply does_fails].
Qed.

Lemma spec_expectListEnd k s : wf s -> wp (expectListEnd k) s (does s).
Proof.
  intros W. apply wp_if; intros E.
  - eapply wp_weaken; [by apply spec_bump|]. intros [] s1 H. by apply does_bumps.
  - eapply wp_weaken; [by apply spec_errorPos|]. intros [] s1 H. by apply does_fails.
Qed.

Lemma spec_nameError s : wf s -> wp nameError s (fun _ s' => fails s s').
Proof. intros W. apply wp_if; intros _; by apply spec_errorPos. Qed.

(** ** Loops *)

Lemma step_bound s s' : step s s' -> length (toks_ s') = length (toks_ s).
Proof. intros [_ [Hb _ _ _] _]. unfold toks_. by rewrite Hb. Qed.

Lemma wp_while c body s : wf s ->
  (forall s1, step s s1 -> c s1 = true -> wp body s1 (takes s1)) ->
  wp (while_ c body) s (fun _ s' => step s s' /\ c s' = false /\ (s' = s \/ pos_ s < pos_ s')).
Proof.
  intros W Hbody.
  assert (Hgen : forall fuel s1, step s s1 -> length (toks_ s) - pos_ s1 < fuel ->
    wp (whileFor fuel c body) s1 (fun _ s' => step s1 s' /\ c s' = false /\ (s' = s1 \/ pos_ s1 < pos_ s'))).
  { induction fuel as [|fuel IH]; [lia|]. intros s1 S1 Hf. destruct (c s1) eqn:E.
    - destruct (Hbody s1 S1 E) as ([] & s2 & E2 & S2 & Hl). destruct (IH s2) as ([] & s3 & E3 & S3 & Hc & Hs).
      + by eapply step_trans.
      + destruct (wf_kindOf _ (st_wf _ _ S2)). pose proof (step_bound _ _ S1). pose proof (step_bound _ _ S2). lia.
      + exists (), s3. split_and!; [|by eapply step_trans|done|right; destruct Hs; subst; lia].
        simpl. rewrite E. unfold mbind, P_bind. by rewrite E2.
    - exists (), s1. simpl. rewrite E. split_and!; [done|apply step_refl, S1|done|by left]. }
  apply Hgen; [by apply step_refl|]. destruct (wf_kindOf _ W). lia.
Qed.

Lemma wp_loop body s : wf s ->
  (forall s1, step s s1 -> wp body s1 (fun more s2 => step s1 s2 /\ (more = true -> pos_ s1 < pos_ s2))) ->
  wp (loop_ body) s (goes s).
Proof.
  intros W Hbody.
  assert (Hgen : forall fuel s1, step s s1 -> length (toks_ s) - pos_ s1 < fuel -> wp (loopFor fuel body) s1 (goes s1)).
  { induction fuel as [|fuel IH]; [lia|]. intros s1 S1 Hf. apply wp_bind. eapply wp_weaken; [by apply Hbody|].
    intros [|] s2 [S2 Hl]; [|by apply wp_ret]. eapply wp_weaken; [apply IH|].
    - by eapply step_trans.
    - destruct (wf_kindOf _ (st_wf _ _ S2)). pose proof (step_bound _ _ S1). pose proof (step_bound _ _ S2).
      specialize (Hl eq_refl). lia.
    - intros [] s3 S3. by eapply step_trans. }
  apply Hgen; [by apply step_refl|]. destruct (wf_kindOf _ W). lia.
Qed.

(** ** Nesting *)

(** A production reached through [call] may lead to others at the same token only down a rank. *)
Definition rank (p : Prod) : nat :=
  match p with PType | PStmtBlock => 0 | PNeg _ => 1 | PPower => 2 | PLogicalOr => 3 | PExpr => 4 | PDecl => 5 end.

(** A production of rank below [n] may start here, [lo] being where the current one started and [r] its rank. *)
Definition room (lo r n : nat) (s : Parser) : Prop := lo < pos_ s \/ (lo <= pos_ s /\ n < r).
Definition ready (lo : nat) (s : Parser) : Prop := lo <= pos_ s /\ (lo < pos_ s \/ cur s <> Eof).

Class CallsOk (productions : Productions) (lo r : nat) : Prop :=
  calls_ok p s : wf s -> room lo r (rank p) s -> wp (call p) s (does s).

Lemma ready_bump lo s s' : ready lo s -> pos_ s <= pos_ s' -> (cur s <> Eof -> pos_ s < pos_ s') -> lo < pos_ s'.
Proof. intros [Hlo [Hl|Hc]] Hp H; [lia|]. specialize (H Hc). lia. Qed.

(** The facts about a state since one that is marked. *)
Definition since (s s' : Parser) : Prop := step s s'.
Lemma since_refl s : wf s -> since s s.
Proof. apply step_refl. Qed.
Lemma since_step a s s' : since a s -> step s s' -> since a s'.
Proof. apply step_trans. Qed.
Lemma since_right a s s' : since a s -> progress a s -> step s s' -> progress a s'.
Proof. intros A P S. by eapply progress_right; [exact P|apply A|apply S]. Qed.
Lemma since_left a s s' : since a s -> progress s s' -> step s s' -> progress a s'.
Proof. intros A P S. by eapply progress_left; [apply A|exact P|apply S]. Qed.
Lemma since_over a sm s s' : since a sm -> over sm s s' -> since a s'.
Proof. intros A O. eapply step_trans; [exact A|apply O]. Qed.
Lemma since_over_progress a sm s s' : since a s -> progress a s -> over sm s s' -> progress a s'.
Proof. intros A P O. by eapply progress_right; [exact P|apply A|apply O]. Qed.
Lemma since_over_left a sm s s' : since a s -> progress s s' -> over sm s s' -> progress a s'.
Proof. intros A P O. by eapply progress_left; [apply A|exact P|apply O]. Qed.
Lemma moves_over a sm s s' : since a s -> over sm s s' -> moves a s'.
Proof. intros A O. eapply moves_trans; [apply A|apply O]. Qed.
Lemma since_pos a s : since a s -> pos_ a <= pos_ s.
Proof. intros A. apply A. Qed.
End logic.
