(* ===== verification/ParserSteps.v ===== *)
(** * Executing productions

    The tactic [run] goes through a production step by step. It keeps, for every marked state, what
    happened since ([since], [progress]); the specifications of the productions called on the way
    come from the hint database [parser]. A production that branches is joined again by what its
    branches have in common: [goes], or [does] where the tactic is called as [run true]. *)

From Stdlib Require Import Ascii String.
From stdpp Require Import strings.
From S2P Require Import Prelude Tokens Cst ParserState ParserLook CstRepr ParserParts ParserLogic.
#[local] Open Scope nat_scope.

Create HintDb parser discriminated.
#[global] Hint Constants Opaque : parser.
#[global] Hint Variables Opaque : parser.

(** ** What conditions say *)

Lemma next_0_at n s : kindOf (toks_ s) (offsetFrom n (toks_ s) (pos_ s)) = peek n s.
Proof. done. Qed.
Lemma atWord_eof w s : atWord 0 w s = true -> cur s <> Eof.
Proof.
  unfold atWord, next, peek, offsetOf. simpl. intros H E. fold (cur s) in H. rewrite E in H. discriminate H.
Qed.
Lemma genericAhead_eof s : genericAhead s = true -> cur s <> Eof.
Proof. unfold genericAhead, at_. intros [H _]%andb_prop E. rewrite E in H. discriminate H. Qed.
#[export] Hint Resolve atWord_eof genericAhead_eof : parser.

Ltac refute_eof E H :=
  lazymatch type of E with
  | (_ || _)%bool = true => apply orb_prop in E; destruct E as [E|E]; refute_eof E H
  | (_ && _)%bool = true =>
      let E2 := fresh in apply andb_prop in E; destruct E as [E E2]; first [refute_eof E H | refute_eof E2 H]
  | _ = _ =>
      first [ exfalso; refine ((_ : cur _ <> Eof) H); solve [eauto 2 with parser nocore]
            | exfalso; unfold no, at_, atAny in E; rewrite H in E; discriminate E ]
  end.

(** Splits a condition that was tested and keeps what it says. *)
Ltac condition E :=
  cbv beta in E;
  lazymatch type of E with
  | (_ && _)%bool = true => let E2 := fresh "E" in apply andb_prop in E; destruct E as [E E2]; condition E; condition E2
  | (_ || _)%bool = false => let E2 := fresh "E" in apply orb_false_elim in E; destruct E as [E E2]; condition E; condition E2
  | at_ _ _ = true => apply isK_true in E
  | isK (cur _) _ = true => apply isK_true in E
  | no ?c ?s = true => apply negb_true_iff in E; condition E
  | no ?c ?s = false => apply negb_false_iff in E; condition E
  | negb _ = true => apply negb_true_iff in E; condition E
  | negb _ = false => apply negb_false_iff in E; condition E
  | atAny _ ?s = true => assert (cur s <> Eof) by (let H := fresh in intros H; refute_eof E H)
  | atAny _ ?s = false => try assert (cur s <> Eof) by (let H := fresh in intros H; refute_eof E H)
  | context [atWord 0 _ ?s] => try assert (cur s <> Eof) by (let H := fresh in intros H; refute_eof E H)
  | context [at_ _ ?s] => try assert (cur s <> Eof) by (let H := fresh in intros H; refute_eof E H)
  | context [atAny _ ?s] => try assert (cur s <> Eof) by (let H := fresh in intros H; refute_eof E H)
  | context [cur ?s] => try assert (cur s <> Eof) by (let H := fresh in intros H; refute_eof E H)
  | genericAhead ?s = true => pose proof (genericAhead_eof s E)
  | _ => idtac
  end.

Ltac not_eof := solve [assumption | congruence].

(** ** Events *)

Ltac positions :=
  unfold room, ready in *; cbn [rank] in *; lia.

#[export] Hint Extern 1 (_ <> _) => (first [discriminate | congruence]) : parser.
#[export] Hint Extern 1 (_ < _) => positions : parser.
#[export] Hint Extern 1 (_ <= _) => positions : parser.
#[export] Hint Extern 1 (room _ _ _ _) => positions : parser.
#[export] Hint Extern 1 (ready _ _) => (split; [positions | first [left; positions | right; not_eof]]) : parser.

(** Brings the facts about the marked states up to the end of a step. *)
Ltac advance_since S :=
  lazymatch type of S with
  | step ?b ?s ?s' =>
      pose proof (st_wf _ _ _ S); pose proof (mv_pos _ _ (st_moves _ _ _ S));
      repeat match goal with
      | A : since b ?a s |- _ =>
          lazymatch goal with
          | _ : since b a s' |- _ => fail
          | _ =>
              let N := fresh "A" in pose proof (since_step b a s s' A S) as N;
              pose proof (since_pos b a s' N);
              try (lazymatch goal with
                   | P : progress a s |- _ => pose proof (since_right b a s s' A P S)
                   | P : progress s s' |- _ => pose proof (since_left b a s s' A P S)
                   end)
          end
      end;
      clear S
  | over ?b ?sm ?s ?s' =>
      pose proof (st_wf _ _ _ (ov_step _ _ _ _ S)); pose proof (mv_pos _ _ (ov_moves _ _ _ _ S));
      pose proof (ov_step _ _ _ _ S : since b sm s');
      try (lazymatch goal with
           | A : since b sm s, P : progress sm s |- _ => pose proof (since_over_progress b sm sm s s' A P S)
           | A : since b sm s, P : progress s s' |- _ => pose proof (since_over_left b sm sm s s' A P S)
           end);
      repeat match goal with
      | A : since b ?a s |- _ =>
          lazymatch goal with
          | _ : since b a s' |- _ => fail
          | _ : moves a s' |- _ => fail
          | _ =>
              first [ lazymatch goal with M : since b a sm |- _ => pose proof (since_over b a sm s s' M S) end
                    | pose proof (moves_over b a sm s s' A S) ];
              try (lazymatch goal with
                   | P : progress a s |- _ => pose proof (since_over_progress b a sm s s' A P S)
                   | P : progress s s' |- _ => pose proof (since_over_left b a sm s s' A P S)
                   end)
          end
      end;
      clear S
  end.

Ltac split_outcome H :=
  lazymatch type of H with
  | _ /\ _ => let H1 := fresh "O" in let H2 := fresh "O" in destruct H as [H1 H2]; split_outcome H1; split_outcome H2
  | _ \/ _ => destruct H as [H|H]; split_outcome H
  | fails _ _ _ => pose proof (fails_cur _ _ _ H); unfold fails in H; split_outcome H
  | bumps _ _ _ => unfold bumps in H; split_outcome H
  | does _ _ _ _ => unfold does in H; split_outcome H
  | goes _ _ _ _ => unfold goes in H
  | takes _ _ _ _ => unfold takes in H; split_outcome H
  | same _ _ => pose proof (same_cur _ _ H); unfold same in H; split_outcome H
  | ?x = ?y => try (is_var x; subst x)
  | cur ?s <> Eof -> pos_ ?s < pos_ ?s' =>
      first [ specialize (H ltac:(not_eof))
            | match goal with R : ready ?lo s, S : step _ s s' |- _ =>
                pose proof (ready_bump lo s s' R (mv_pos _ _ (st_moves _ _ _ S)) H)
              end
            | idtac ]
  | _ => idtac
  end.

Ltac after_event :=
  repeat match goal with
  | S : step _ ?s ?s', P : pos_ ?s < pos_ ?s' |- _ =>
      lazymatch goal with _ : progress s s' |- _ => fail | _ => pose proof (progress_less s s' P) end
  | S : step _ ?s ?s', P : panic_ ?s' = true |- _ =>
      lazymatch goal with _ : progress s s' |- _ => fail | _ => pose proof (progress_panic s s' P) end
  end;
  repeat match goal with
  | S : step _ _ _ |- _ => advance_since S
  | S : over _ _ _ _ |- _ => advance_since S
  end.

Ltac outcome :=
  let a := fresh "b" in let s := fresh "s" in let H := fresh "H" in
  intros a s H; cbv beta in H; split_outcome H; after_event; cbv beta.

(** Marks the current state. *)
Ltac enter buf s :=
  lazymatch goal with
  | _ : since buf s s |- _ => idtac
  | W : wf buf s |- _ => pose proof (since_refl buf s W)
  end.

(** ** Ends *)

Ltac entry :=
  let s := fresh "s" in let S := fresh "S" in let E := fresh "E" in
  intros s S E; split_outcome E; after_event.

Ltac progresses :=
  solve [ assumption | apply progress_panic; assumption | apply progress_less; lia | apply progress_panic; congruence ].

Ltac finish :=
  cbv beta; unfold does, goes, takes, bumps;
  repeat match goal with
  | |- _ /\ _ => split
  | |- step _ _ _ => assumption
  | |- since _ _ _ => assumption
  | |- moves _ _ => first [assumption | apply st_moves; assumption]
  | |- progress _ _ => progresses
  | |- wf _ _ => assumption
  | |- cur ?s <> Eof -> _ =>
      let N := fresh in intros N; repeat match goal with H : cur s <> Eof -> _ |- _ => specialize (H N) end
  | |- cur _ <> Eof => not_eof
  | |- _ < _ => lia
  | |- _ <= _ => lia
  | |- pos_ _ = pos_ _ => lia
  | |- true = true -> _ => intros _
  | |- false = true -> _ => discriminate
  | |- _ = Some true -> _ => first [discriminate | intros _]
  | |- ?b = true -> _ => is_var b; destruct b
  | |- over _ _ _ _ => split
  | |- forall s', step _ _ s' -> same _ s' -> _ => entry; cbv beta; unfold does, goes, takes
  end.

(** ** Steps *)

Ltac discriminates := first [discriminate | eassumption | (case_match; discriminate) | eauto 2 with parser nocore].

Ltac is_join Q :=
  lazymatch Q with
  | (fun a s => wp _ s _) => idtac
  | (fun a s => wp _ s (fun b s' => _)) => idtac
  end.

Ltac run both :=
  repeat step1 both; try solve [finish]
with step1 both :=
  lazymatch goal with
  | |- wp (mbind _ _) _ _ => apply wp_bind
  | |- wp (mret _) _ _ => apply wp_ret; cbv beta
  | |- wp skip _ _ => apply wp_ret; cbv beta
  | |- wp mark ?s _ => lazymatch goal with W : wf ?buf s |- _ => enter buf s end; apply wp_gets; cbv beta
  | |- wp (gets _) _ _ => apply wp_gets; cbv beta
  | |- wp (unlessPanic _) _ _ => unfold unlessPanic
  | |- wp (when_ _ _) _ _ => unfold when_
  | |- wp (moreItems _ _) _ _ => unfold moreItems
  | |- wp (match true with _ => _ end) _ _ => cbv iota
  | |- wp (match false with _ => _ end) _ _ => cbv iota
  | |- wp (match negb true with _ => _ end) _ _ => cbv [negb]
  | |- wp (match negb false with _ => _ end) _ _ => cbv [negb]
  | |- wp (if ?b then _ else _) ?s ?Q =>
      first [ is_join Q; joined both ltac:(destruct b; cbv iota) | destruct b; cbv iota ]
  | |- wp (if_ _ _ _) ?s ?Q =>
      first [ is_join Q; joined both ltac:(branch) | branch ]
  | |- wp (while_ _ _) ?s _ =>
      eapply wp_weaken; [eapply wp_while; [eassumption | loop_body; solve [run both]] | outcome]
  | |- wp (loop_ _) ?s _ =>
      eapply wp_weaken; [eapply wp_loop; [eassumption | loop_turn; solve [run both]] | outcome]
  | |- wp (withScope _ _ _) ?s ?Q => within both ltac:(eapply wp_withScope) Q
  | |- wp (withConstData _ _) ?s ?Q => within both ltac:(eapply wp_withConstData) Q
  | |- wp (withTypeHead _) ?s ?Q => within both ltac:(eapply wp_withTypeHead) Q
  | |- wp (withDepth _) ?s ?Q => within both ltac:(eapply wp_withDepth) Q
  | |- wp bump ?s _ => eapply wp_weaken; [apply spec_bump; eassumption | outcome]
  | |- wp (eat _) ?s _ => eapply wp_weaken; [apply spec_eat; [eassumption | discriminates] | outcome]
  | |- wp (eat' _) ?s _ => eapply wp_weaken; [apply spec_eat'; [eassumption | discriminates] | outcome]
  | |- wp (expect _) ?s _ => eapply wp_weaken; [apply spec_expect; [eassumption | discriminates] | outcome]
  | |- wp (expect' _) ?s _ => eapply wp_weaken; [apply spec_expect'; [eassumption | discriminates] | outcome]
  | |- wp (expectListEnd _) ?s _ => eapply wp_weaken; [apply spec_expectListEnd; eassumption | outcome]
  | |- wp nameError ?s _ => eapply wp_weaken; [apply spec_nameError; eassumption | outcome]
  | |- wp (error _ _) ?s _ => eapply wp_weaken; [apply spec_errorPos; eassumption | outcome]
  | |- wp (unexpected _) ?s _ => eapply wp_weaken; [apply spec_errorPos; eassumption | outcome]
  | |- wp (errorAt _ _ (prev_ ?s)) ?s _ => eapply wp_weaken; [apply spec_errorAtPrev; eassumption | outcome]
  | |- wp (errorAux _ _ (prev_ ?s) _) ?s _ => eapply wp_weaken; [apply spec_errorAuxPrev; eassumption | outcome]
  | |- wp (markNameAsPack _) ?s _ => eapply wp_weaken; [apply spec_markNameAsPack; eassumption | outcome]
  | |- wp (close (length (stack_ ?sm)) _) ?s _ =>
      eapply wp_weaken; [lazymatch goal with A : since _ sm s |- _ => apply (spec_close _ _ sm _ A) end; discriminates | outcome]
  | |- wp (call _) ?s _ =>
      eapply wp_weaken; [eapply calls_ok; [eassumption | eassumption | positions] | outcome]
  | |- wp (modify _) ?s _ => eapply wp_same; [eassumption | done | entry]
  | |- wp _ ?s _ => eapply wp_weaken; [solve [eauto 3 with parser nocore] | outcome]
  end
with branch := apply wp_if; let E := fresh "E" in intros E; condition E
with joined both cases :=
  lazymatch goal with
  | |- wp _ ?s _ =>
      lazymatch goal with
      | W : wf ?buf s |- _ =>
          lazymatch both with
          | true => first [ eapply (wp_weaken _ s (does buf s)); [enter buf s; cases; solve [run both] | outcome]
                          | eapply (wp_weaken _ s (goes buf s)); [enter buf s; cases; solve [run both] | outcome] ]
          | false => eapply (wp_weaken _ s (goes buf s)); [enter buf s; cases; solve [run both] | outcome]
          end
      end
  end
with within both rule Q :=
  lazymatch goal with
  | |- wp _ ?s _ =>
      lazymatch goal with
      | W : wf ?buf s |- _ =>
          tryif is_join Q then
            lazymatch both with
            | true => first [ eapply (wp_weaken _ s (does buf s)); [enter buf s; rule; [eassumption | entry; solve [run both]] | outcome]
                            | eapply (wp_weaken _ s (goes buf s)); [enter buf s; rule; [eassumption | entry; solve [run both]] | outcome] ]
            | false => eapply (wp_weaken _ s (goes buf s)); [enter buf s; rule; [eassumption | entry; solve [run both]] | outcome]
            end
          else (rule; [eassumption | entry])
      end
  end
with loop_body :=
  let s := fresh "s" in let S := fresh "S" in let E := fresh "E" in
  intros s S E; after_event; condition E; lazymatch goal with W : wf ?buf s |- _ => enter buf s end
with loop_turn :=
  let s := fresh "s" in let S := fresh "S" in
  intros s S; after_event; lazymatch goal with W : wf ?buf s |- _ => enter buf s end.

(** Starts the proof of a specification: [m] is the production. *)
Ltac begin :=
  lazymatch goal with |- wp _ ?s _ => lazymatch goal with W : wf ?buf s |- _ => enter buf s end end.

Ltac produces defs := intros; begin; defs; run false.
