(* ===== verification/ParserPartsOk.v ===== *)
(** * What the shared productions do

    Every production of ParserParts.v ends, keeps the invariant of the parser and the words below
    its own, and takes a token or reports an error ([does]); the few that may do nothing are said
    to [goes]. *)

From Stdlib Require Import Ascii String.
From stdpp Require Import strings.
From S2P Require Import Prelude Tokens Cst ParserState ParserLook CstRepr ParserParts ParserLogic ParserSteps.
#[local] Open Scope nat_scope.

Section names.
Context (buf : TokenBuffer).

Lemma openOf_eof closer : openOf closer <> Eof.
Proof. unfold openOf. by repeat case_match. Qed.
#[local] Hint Resolve openOf_eof : parser.

Lemma spec_expectName k s : wf buf s -> k <> NK.Error -> wp (expectName k) s (does buf s).
Proof. produces ltac:(unfold expectName). Qed.
#[local] Hint Resolve spec_expectName : parser.

Lemma spec_parseIdentDef s : wf buf s -> wp parseIdentDef s (does buf s).
Proof. intros. by apply spec_expectName. Qed.
#[local] Hint Resolve spec_parseIdentDef : parser.

Lemma spec_parseIdentRef k s : wf buf s -> k <> NK.Error -> wp (parseIdentRef k) s (does buf s).
Proof. produces ltac:(unfold parseIdentRef). Qed.

Lemma spec_parseIdentList s : wf buf s -> wp parseIdentList s (does buf s).
Proof. produces ltac:(unfold parseIdentList). Qed.

Lemma spec_wildcardItem wildcards s : wf buf s -> wp (wildcardItem wildcards) s (does buf s).
Proof. produces ltac:(unfold wildcardItem). Qed.
#[local] Hint Resolve spec_wildcardItem : parser.

Lemma spec_parseBracketedIdents closer k wildcards s : wf buf s -> k <> NK.Error ->
  wp (parseBracketedIdents closer k wildcards) s (does buf s).
Proof. produces ltac:(unfold parseBracketedIdents). Qed.

Lemma spec_parseModuleName s : wf buf s -> wp parseModuleName s (does buf s).
Proof. intros. begin. unfold parseModuleName. run true. Qed.

Lemma spec_packDots s : wf buf s -> wp packDots s (fun _ s' => bumps buf s s').
Proof.
  intros W. unfold packDots, when_. apply wp_bind, wp_if; intros _; [|by apply wp_ret, spec_bump].
  eapply wp_weaken; [by apply spec_errorPos|]. intros [] s1 (S1 & _ & Hp & _).
  pose proof (mv_buf _ _ (st_moves _ _ _ S1)) as Hb. eapply wp_weaken; [apply spec_bump, S1|]. intros [] s2 (S2 & _ & Hl).
  assert (Hl' : cur s <> Eof -> pos_ s < pos_ s2) by (rewrite <- (cur_same s s1 Hb Hp), <- Hp; done).
  split_and!; [by eapply step_trans|by apply progress_eof|done].
Qed.
#[local] Hint Resolve spec_packDots : parser.

Lemma spec_typeParam pack s : wf buf s -> wp (typeParam pack) s (does buf s).
Proof. produces ltac:(unfold typeParam). Qed.
#[local] Hint Resolve spec_typeParam : parser.

Lemma spec_parseTypeParams s : wf buf s -> wp parseTypeParams s (does buf s).
Proof. produces ltac:(unfold parseTypeParams). Qed.
End names.

#[export] Hint Resolve openOf_eof spec_expectName spec_parseIdentDef spec_parseIdentRef spec_parseIdentList
  spec_parseBracketedIdents spec_parseModuleName spec_packDots spec_parseTypeParams : parser.

Section params.
Context (buf : TokenBuffer) {productions : Productions} (lo r : nat) {calls : CallsOk buf productions lo r}.

(** ** Parameters *)

Lemma spec_parseKeyParamPair allowRest allowConstas angled s : wf buf s -> lo < pos_ s ->
  wp (parseKeyParamPair allowRest allowConstas angled) s (does buf s).
Proof. produces ltac:(unfold parseKeyParamPair, tupleParam, restParam, constasParam, plainParam). Qed.
#[local] Hint Resolve spec_parseKeyParamPair : parser.

Lemma spec_parsePairedParams closer allowRest allowConstas s : wf buf s -> lo < pos_ s ->
  wp (parsePairedParams closer allowRest allowConstas) s (does buf s).
Proof. produces ltac:(unfold parsePairedParams). Qed.
#[local] Hint Resolve spec_parsePairedParams : parser.

Lemma spec_parseParentParams allowRest allowConstas s : wf buf s -> lo <= pos_ s ->
  wp (parseParentParams allowRest allowConstas) s (does buf s).
Proof. produces ltac:(unfold parseParentParams). Qed.

Lemma spec_parseAngledParams allowRest allowConstas s : wf buf s -> lo <= pos_ s ->
  wp (parseAngledParams allowRest allowConstas) s (does buf s).
Proof. produces ltac:(unfold parseAngledParams). Qed.

(** ** Arguments *)

Lemma spec_parseIndexValue s : wf buf s -> lo < pos_ s -> wp parseIndexValue s (does buf s).
Proof. produces ltac:(unfold parseIndexValue). Qed.
#[local] Hint Resolve spec_parseIndexValue : parser.

Lemma spec_parseKeyValuePair s : wf buf s -> lo <= pos_ s -> wp parseKeyValuePair s (does buf s).
Proof. produces ltac:(unfold parseKeyValuePair). Qed.
#[local] Hint Resolve spec_parseKeyValuePair : parser.

Lemma spec_parsePairedValues closer s : wf buf s -> lo <= pos_ s -> wp (parsePairedValues closer) s (does buf s).
Proof. produces ltac:(unfold parsePairedValues). Qed.
#[local] Hint Resolve spec_parsePairedValues : parser.

Lemma spec_argumentValue s : wf buf s -> lo < pos_ s -> wp argumentValue s (does buf s).
Proof. produces ltac:(unfold argumentValue). Qed.
#[local] Hint Resolve spec_argumentValue : parser.

Lemma spec_parseArgumentValues closer s : wf buf s -> lo < pos_ s -> wp (parseArgumentValues closer) s (does buf s).
Proof. produces ltac:(unfold parseArgumentValues). Qed.
#[local] Hint Resolve spec_parseArgumentValues : parser.

Lemma spec_parseDataList closer s : wf buf s -> lo < pos_ s -> wp (parseDataList closer) s (does buf s).
Proof. produces ltac:(unfold parseDataList). Qed.

Lemma spec_parseArguments closer s : wf buf s -> lo < pos_ s -> wp (parseArguments closer) s (goes buf s).
Proof. produces ltac:(unfold parseArguments, positionalArguments). Qed.
#[local] Hint Resolve spec_parseArguments : parser.

Lemma spec_parseParentArgues s : wf buf s -> ready lo s -> wp parseParentArgues s (fun _ s' => bumps buf s s').
Proof. produces ltac:(unfold parseParentArgues). Qed.
#[local] Hint Resolve spec_parseParentArgues : parser.

Lemma spec_parseAngledValues s : wf buf s -> ready lo s -> wp parseAngledValues s (fun _ s' => bumps buf s s').
Proof. produces ltac:(unfold parseAngledValues). Qed.

(** ** Tags and clauses *)

Lemma spec_parseTagRef s : wf buf s -> lo <= pos_ s -> wp parseTagRef s (does buf s).
Proof. produces ltac:(unfold parseTagRef). Qed.
#[local] Hint Resolve spec_parseTagRef : parser.

Lemma spec_parseTagUse s : wf buf s -> lo <= pos_ s -> wp parseTagUse s (fun _ s' => bumps buf s s').
Proof. produces ltac:(unfold parseTagUse). Qed.

Lemma spec_parseResourceClause s : wf buf s -> wp parseResourceClause s (goes buf s).
Proof. produces ltac:(unfold parseResourceClause). Qed.

Lemma spec_parseWhenClause s : wf buf s -> ready lo s -> wp parseWhenClause s (does buf s).
Proof. produces ltac:(unfold parseWhenClause). Qed.
End params.

#[export] Hint Resolve spec_parsePairedParams spec_parseParentParams spec_parseAngledParams spec_parseIndexValue
  spec_parseKeyValuePair spec_parsePairedValues spec_parseDataList spec_parseParentArgues spec_parseAngledValues
  spec_parseTagRef spec_parseTagUse spec_parseResourceClause spec_parseWhenClause : parser.

(** * What the productions of types do

    The same as ParserPartsOk.v for the types of ParserParts.v and the heads of static loops. *)

Section types.
Context (buf : TokenBuffer) {productions : Productions} (lo r : nat) {calls : CallsOk buf productions lo r}.

Lemma spec_parseArrayDim s : wf buf s -> ready lo s -> wp parseArrayDim s (fun _ s' => bumps buf s s').
Proof. produces ltac:(unfold parseArrayDim, dimItem). Qed.
#[local] Hint Resolve spec_parseArrayDim : parser.

Lemma spec_specArgument s : wf buf s -> lo < pos_ s -> wp specArgument s (does buf s).
Proof. produces ltac:(unfold specArgument). Qed.
#[local] Hint Resolve spec_specArgument : parser.

Lemma spec_parseTypeList closer s : wf buf s -> lo < pos_ s -> wp (parseTypeList closer) s (does buf s).
Proof. produces ltac:(unfold parseTypeList). Qed.
#[local] Hint Resolve spec_parseTypeList : parser.

Lemma spec_parseTypeCasePattern s : wf buf s -> lo < pos_ s -> wp parseTypeCasePattern s (does buf s).
Proof. intros. begin. unfold parseTypeCasePattern. run true. Qed.
#[local] Hint Resolve spec_parseTypeCasePattern : parser.

Lemma spec_parseTypeArm s : wf buf s -> ready lo s -> wp parseTypeArm s (fun _ s' => bumps buf s s').
Proof. produces ltac:(unfold parseTypeArm). Qed.
#[local] Hint Resolve spec_parseTypeArm : parser.

Lemma spec_caseList item s : wf buf s ->
  (forall s1, step buf s s1 -> wf buf s1 -> cur s1 <> Eof -> wp item s1 (fun _ s' => bumps buf s1 s')) ->
  wp (caseList item) s (goes buf s).
Proof.
  intros W Hitem. begin. unfold caseList. apply wp_bind. eapply wp_weaken; [eapply wp_while; [done|]|outcome; run false].
  intros s1 S1 E. condition E. eapply wp_weaken; [apply Hitem; [done|apply S1|congruence]|]. intros [] s2 (S2 & _ & Hl).
  split; [done|]. apply Hl. congruence.
Qed.

Lemma spec_typeCases s : wf buf s -> lo < pos_ s -> wp (caseList parseTypeArm) s (goes buf s).
Proof.
  intros W Hlo. apply spec_caseList; [done|]. intros s1 S1 W1 Hc. pose proof (mv_pos _ _ (st_moves _ _ _ S1)).
  apply spec_parseTypeArm; [done|]. split; [lia|by right].
Qed.
#[local] Hint Resolve spec_typeCases : parser.

Lemma spec_parseMatchTypeType s : wf buf s -> ready lo s -> wp parseMatchTypeType s (does buf s).
Proof. produces ltac:(unfold parseMatchTypeType). Qed.
#[local] Hint Resolve spec_parseMatchTypeType : parser.

Lemma spec_keyTypePair s : wf buf s -> lo <= pos_ s -> cur s <> Eof ->
  wp keyTypePair s (fun more s' => step buf s s' /\ (more = true -> pos_ s < pos_ s')).
Proof. produces ltac:(unfold keyTypePair). Qed.
#[local] Hint Resolve spec_keyTypePair : parser.

Lemma spec_parseStructType s : wf buf s -> ready lo s -> wp parseStructType s (does buf s).
Proof. produces ltac:(unfold parseStructType). Qed.
#[local] Hint Resolve spec_parseStructType : parser.

Lemma spec_parseFuncType s : wf buf s -> lo <= pos_ s -> wp parseFuncType s (does buf s).
Proof. produces ltac:(unfold parseFuncType). Qed.
#[local] Hint Resolve spec_parseFuncType : parser.

Lemma spec_parseEnumField s : wf buf s -> lo <= pos_ s -> wp parseEnumField s (does buf s).
Proof. produces ltac:(unfold parseEnumField). Qed.
#[local] Hint Resolve spec_parseEnumField : parser.

Lemma spec_parseEnumVariant s : wf buf s -> lo <= pos_ s -> wp parseEnumVariant s (does buf s).
Proof. produces ltac:(unfold parseEnumVariant, namedItems). Qed.
#[local] Hint Resolve spec_parseEnumVariant : parser.

Lemma spec_parseEnumType s : wf buf s -> ready lo s -> wp parseEnumType s (does buf s).
Proof. produces ltac:(unfold parseEnumType, namedItems). Qed.
#[local] Hint Resolve spec_parseEnumType : parser.

Lemma spec_parenType s : wf buf s -> ready lo s -> wp parenType s (does buf s).
Proof. produces ltac:(unfold parenType, parenTypes). Qed.
#[local] Hint Resolve spec_parenType : parser.

Lemma spec_typeOfType s : wf buf s -> ready lo s -> wp typeOfType s (does buf s).
Proof. produces ltac:(unfold typeOfType). Qed.
#[local] Hint Resolve spec_typeOfType : parser.

Lemma spec_parsePrimaryType s : wf buf s -> lo <= pos_ s -> wp parsePrimaryType s (does buf s).
Proof.
  intros. begin. unfold parsePrimaryType. repeat step1 false.
  lazymatch goal with |- wp (match cur ?s1 with _ => _ end) _ _ => destruct (cur s1) eqn:? end; run false.
Qed.
#[local] Hint Resolve spec_parsePrimaryType : parser.

Lemma spec_parseSpecType s : wf buf s -> lo <= pos_ s -> wp parseSpecType s (does buf s).
Proof. produces ltac:(unfold parseSpecType). Qed.
#[local] Hint Resolve spec_parseSpecType : parser.

(** ** Dimensions and marks *)

Lemma spec_arrayDims s : wf buf s -> lo <= pos_ s -> wp arrayDims s (fun _ s' => step buf s s' /\
  (at_ LBracket s = true -> lineBreak s = false -> panic_ s = false -> pos_ s < pos_ s')).
Proof.
  intros W Hlo. apply wp_bind, wp_gets, wp_bind. eapply wp_weaken.
  - eapply wp_while; [done|]. intros s1 S1 E. condition E. pose proof (mv_pos _ _ (st_moves _ _ _ S1)).
    eapply wp_weaken; [apply spec_parseArrayDim; [apply S1|split; [lia|right; congruence]]|].
    intros [] s2 (S2 & _ & Hl). split; [done|]. apply Hl. congruence.
  - intros [] s1 (S1 & E & Hs). apply wp_ret. split; [done|]. intros H1 H2 H3. destruct Hs as [->|]; [|done].
    unfold no in E. by rewrite H1, H2, H3 in E.
Qed.

Lemma spec_arrayDims' s : wf buf s -> lo <= pos_ s -> wp arrayDims s (fun _ s' => step buf s s').
Proof. intros W Hlo. eapply wp_weaken; [by apply spec_arrayDims|]. by intros b s' [H _]. Qed.
#[local] Hint Resolve spec_arrayDims' : parser.

Lemma spec_parseArrayType s : wf buf s -> lo <= pos_ s -> wp parseArrayType s (does buf s).
Proof. produces ltac:(unfold parseArrayType). Qed.
#[local] Hint Resolve spec_parseArrayType : parser.

(** A node closed where [any] says so. *)
Lemma spec_closeIf (any : bool) k sm s : step buf sm s -> k <> NK.Error ->
  wp (if any then close (length (stack_ sm)) k else skip) s (fun _ s' =>
    over buf sm s s' /\ pos_ s' = pos_ s /\ panic_ s' = panic_ s /\ cur s' = cur s /\ lineBreak s' = lineBreak s).
Proof.
  intros S Hk. destruct any; [eapply wp_weaken; [by apply spec_close|]; intros ? ? (? & ? & ? & ? & ? & _); done|]. apply wp_ret. split_and!; [by apply over_refl|done..].
Qed.

Lemma spec_typeMarks sm fuel : forall s any stream, step buf sm s -> lo <= pos_ s ->
  length (tokens_ buf) - pos_ s < fuel ->
  wp (typeMarks fuel (length (stack_ sm)) any stream) s (fun _ s' => over buf sm s s').
Proof.
  induction fuel as [|fuel IH]; intros s any stream S Hlo Hf; [lia|].
  assert (W : wf buf s) by apply S.
  assert (Hend : wp (if any then close (length (stack_ sm)) NK.TypeExpr else skip) s (fun _ s' => over buf sm s s')).
  { eapply wp_weaken; [by apply spec_closeIf|]. by intros [] s' (O & _). }
  assert (Hmark : forall stream', cur s <> Eof ->
    wp (bump;; typeMarks fuel (length (stack_ sm)) true stream') s (fun _ s' => over buf sm s s')).
  { intros stream' Hc. apply wp_bind. eapply wp_weaken; [by apply spec_bump|]. intros [] s1 (S1 & _ & Hl).
    specialize (Hl Hc). destruct (wf_kindOf buf s1) as [Hl1 Hl2]; [apply S1|].
    eapply wp_weaken; [apply IH; [by eapply step_trans|lia|lia]|].
    intros [] s2 O. eapply over_trans; [by eapply over_step|done]. }
  change (typeMarks (Datatypes.S fuel) (length (stack_ sm)) any stream) with
    (if_ (no lineBreak &&& no panic_)
       (if_ (atAny [Question; Bang]) (bump;; typeMarks fuel (length (stack_ sm)) true stream)
          (if_ (at_ DotDot) (bump;; typeMarks fuel (length (stack_ sm)) true true)
             (if_ (fun s => stream && isK (cur s) LBracket)
                ((if any then close (length (stack_ sm)) NK.TypeExpr else skip);;
                 anyDim ← arrayDims;
                 (if (anyDim : bool) then close (length (stack_ sm)) NK.ArrayType else skip);;
                 typeMarks fuel (length (stack_ sm)) false false)
                (if any then close (length (stack_ sm)) NK.TypeExpr else skip))))
       (if any then close (length (stack_ sm)) NK.TypeExpr else skip)).
  apply wp_if; intros E1; [condition E1|done].
  apply wp_if; intros E2; [condition E2; by apply Hmark|].
  apply wp_if; intros E3; [condition E3; apply Hmark; congruence|].
  apply wp_if; intros E4; [condition E4|done].
  apply wp_bind. eapply wp_weaken; [by apply spec_closeIf|]. intros [] s1 (O1 & Hp1 & Hn1 & Hc1 & Hl1).
  apply wp_bind. eapply wp_weaken; [apply spec_arrayDims; [apply O1|lia]|]. intros anyDim s2 (S2 & Hl2).
  assert (Hp2 : pos_ s1 < pos_ s2).
  { apply Hl2; [|by rewrite Hl1|by rewrite Hn1]. unfold at_. rewrite Hc1. by apply isK_true. }
  assert (O2 : over buf sm s s2) by (eapply over_trans; [exact O1|by apply over_step, S2; apply O1]).
  apply wp_bind. eapply wp_weaken; [by apply spec_closeIf; [apply O2|]|]. intros [] s3 (O3 & Hp3 & _).
  destruct (wf_kindOf buf s3) as [Hl3 Hl4]; [apply O3|].
  eapply wp_weaken; [apply IH; [apply O3|lia|lia]|]. intros [] s4 O4.
  eapply over_trans; [exact O2|by eapply over_trans].
Qed.

Lemma spec_allTypeMarks sm s : since buf sm s -> lo <= pos_ s ->
  wp (typeMarks (S (S (length (toks_ s) - pos_ s))) (length (stack_ sm)) false false) s (fun _ s' => over buf sm s s').
Proof. intros S Hlo. apply spec_typeMarks; [done..|]. destruct (wf_kindOf buf s); [apply S|lia]. Qed.
#[local] Hint Resolve spec_allTypeMarks : parser.

Lemma spec_bodyType s : wf buf s -> lo <= pos_ s -> wp bodyType s (does buf s).
Proof.
  intros. begin. unfold bodyType. run false.
Qed.

(** ** Heads of static loops *)

Lemma spec_parseStaticForNameList s : wf buf s -> wp parseStaticForNameList s (goes buf s).
Proof. produces ltac:(unfold parseStaticForNameList, parseStaticForName). Qed.
#[local] Hint Resolve spec_parseStaticForNameList : parser.

Lemma spec_parseStaticForHeader s : wf buf s -> lo <= pos_ s -> wp parseStaticForHeader s (goes buf s).
Proof. produces ltac:(unfold parseStaticForHeader, fieldsSubject). Qed.

Lemma spec_parseStaticLoopHeader s : wf buf s -> lo <= pos_ s -> wp parseStaticLoopHeader s (goes buf s).
Proof. produces ltac:(unfold parseStaticLoopHeader, fieldsSubject). Qed.
End types.

#[export] Hint Resolve spec_parseTypeList spec_parseTypeCasePattern spec_parseStaticForHeader spec_parseStaticLoopHeader : parser.
