(* ===== verification/ParserExprOk.v ===== *)
(** * What the productions of expressions do *)

From Stdlib Require Import Ascii String.
From stdpp Require Import strings.
From S2P Require Import Prelude Tokens Cst ParserState ParserLook CstRepr ParserParts ParserExpr ParserLogic ParserSteps ParserPartsOk.
#[local] Open Scope nat_scope.

Section operands.
Context (buf : TokenBuffer) {productions : Productions} (lo r : nat) {calls : CallsOk buf productions lo r}.

Lemma spec_parseBlockExpr s : wf buf s -> lo < pos_ s -> wp parseBlockExpr s (does buf s).
Proof. produces ltac:(unfold parseBlockExpr). Qed.
#[local] Hint Resolve spec_parseBlockExpr : parser.

Lemma spec_thenBlock k s : wf buf s -> lo <= pos_ s -> k <> Eof -> wp (thenBlock k) s (goes buf s).
Proof. produces ltac:(unfold thenBlock). Qed.
#[local] Hint Resolve spec_thenBlock : parser.

Lemma spec_parseStaticFor s : wf buf s -> lo <= pos_ s -> wp parseStaticFor s (does buf s).
Proof. produces ltac:(unfold parseStaticFor). Qed.
#[local] Hint Resolve spec_parseStaticFor : parser.

Lemma spec_parseShapeComp s : wf buf s -> room lo r 0 s -> wp parseShapeComp s (does buf s).
Proof. intros. begin. unfold parseShapeComp. run true. Qed.

Lemma spec_parseLiteral s : wf buf s -> wp parseLiteral s (does buf s).
Proof. produces ltac:(unfold parseLiteral). Qed.
#[local] Hint Resolve spec_parseLiteral : parser.

Lemma spec_parseConstasData s : wf buf s -> wp parseConstasData s (does buf s).
Proof. produces ltac:(unfold parseConstasData). Qed.
#[local] Hint Resolve spec_parseConstasData : parser.

Lemma spec_parseArrayData s : wf buf s -> ready lo s -> wp parseArrayData s (does buf s).
Proof. produces ltac:(unfold parseArrayData, arrayFor). Qed.
#[local] Hint Resolve spec_parseArrayData : parser.

Lemma spec_parseStructData s : wf buf s -> ready lo s -> wp parseStructData s (fun _ s' => bumps buf s s').
Proof. produces ltac:(unfold parseStructData). Qed.
#[local] Hint Resolve spec_parseStructData : parser.

Lemma spec_parseTupleData s : wf buf s -> ready lo s -> wp parseTupleData s (does buf s).
Proof. produces ltac:(unfold parseTupleData). Qed.
#[local] Hint Resolve spec_parseTupleData : parser.

Lemma spec_parseFuncData s : wf buf s -> lo <= pos_ s -> wp parseFuncData s (does buf s).
Proof. produces ltac:(unfold parseFuncData). Qed.
#[local] Hint Resolve spec_parseFuncData : parser.

Lemma spec_parsePrimary s : wf buf s -> lo <= pos_ s -> wp parsePrimary s (does buf s).
Proof.
  intros. begin. unfold parsePrimary. repeat step1 false.
  lazymatch goal with |- wp (match cur ?s1 with _ => _ end) _ _ => destruct (cur s1) eqn:? end; run false.
Qed.
#[local] Hint Resolve spec_parsePrimary : parser.

(** ** Postfix forms *)

Lemma spec_accessMember s : wf buf s -> lo <= pos_ s -> cur s <> Eof ->
  wp accessMember s (fun more s' => step buf s s' /\ (more = true -> pos_ s < pos_ s')).
Proof. produces ltac:(unfold accessMember, bracketMember). Qed.
#[local] Hint Resolve spec_accessMember : parser.

Lemma spec_parseAccess s : wf buf s -> lo <= pos_ s -> wp parseAccess s (does buf s).
Proof. produces ltac:(unfold parseAccess). Qed.
#[local] Hint Resolve spec_parseAccess : parser.

Lemma spec_parseSlicePart s : wf buf s -> lo < pos_ s -> wp parseSlicePart s (goes buf s).
Proof. produces ltac:(unfold parseSlicePart). Qed.
#[local] Hint Resolve spec_parseSlicePart : parser.

Lemma spec_parseSliceIndices s : wf buf s -> lo < pos_ s -> wp parseSliceIndices s (goes buf s).
Proof. produces ltac:(unfold parseSliceIndices, sliceParts). Qed.
#[local] Hint Resolve spec_parseSliceIndices : parser.

Lemma spec_parseIndices s : wf buf s -> ready lo s -> wp parseIndices s (fun _ s' => bumps buf s s').
Proof. produces ltac:(unfold parseIndices). Qed.
#[local] Hint Resolve spec_parseIndices : parser.

Lemma spec_namedTypeArgument s : wf buf s -> lo < pos_ s ->
  wp namedTypeArgument s (fun more s' => step buf s s' /\ (more = true -> pos_ s < pos_ s')).
Proof. produces ltac:(unfold namedTypeArgument). Qed.
#[local] Hint Resolve spec_namedTypeArgument : parser.

Lemma spec_parseTypeArguments s : wf buf s -> ready lo s -> wp parseTypeArguments s (fun _ s' => bumps buf s s').
Proof. produces ltac:(unfold parseTypeArguments). Qed.
#[local] Hint Resolve spec_parseTypeArguments : parser.

Lemma spec_annoSuffix s : wf buf s -> lo <= pos_ s ->
  wp annoSuffix s (fun more s' => step buf s s' /\ (more = true -> pos_ s < pos_ s')).
Proof. produces ltac:(unfold annoSuffix, bracketMember). Qed.

Lemma spec_annoSuffixes fuel : forall s any, wf buf s -> lo <= pos_ s -> length (tokens_ buf) - pos_ s < fuel ->
  wp (annoSuffixes fuel any) s (goes buf s).
Proof.
  induction fuel as [|fuel IH]; intros s any W Hlo Hf; [lia|].
  change (annoSuffixes (S fuel) any) with
    (if_ panic_ (mret any) (more ← annoSuffix; if (more : bool) then annoSuffixes fuel true else mret any)).
  apply wp_if; intros _; [apply wp_ret; by apply step_refl|]. apply wp_bind.
  eapply wp_weaken; [by apply spec_annoSuffix|]. intros [|] s1 [S1 Hl]; [|by apply wp_ret].
  specialize (Hl eq_refl). destruct (wf_kindOf buf s1) as [Hl1 Hl2]; [apply S1|].
  eapply wp_weaken; [apply IH; [apply S1|lia|lia]|]. intros b s2 S2. by eapply step_trans.
Qed.

Lemma spec_allAnnoSuffixes s any : wf buf s -> lo <= pos_ s ->
  wp (annoSuffixes (S (S (length (toks_ s) - pos_ s))) any) s (goes buf s).
Proof. intros W Hlo. apply spec_annoSuffixes; [done..|]. destruct (wf_kindOf buf s); [done|lia]. Qed.
#[local] Hint Resolve spec_allAnnoSuffixes spec_parseShapeComp : parser.

Lemma spec_parseAnno s : wf buf s -> room lo r 0 s -> wp parseAnno s (does buf s).
Proof. intros. begin. unfold parseAnno. run true. Qed.
End operands.

#[export] Hint Resolve spec_parseBlockExpr spec_thenBlock spec_parseStaticFor spec_parseLiteral spec_parseAnno : parser.

(** ** Operators *)

Section operators.
Context (buf : TokenBuffer) {productions : Productions} (lo r : nat) {calls : CallsOk buf productions lo r}.

(** An operand of rank [n] or lower. *)
Definition operandOk (n : nat) (operand : P unit) : Prop :=
  forall s, wf buf s -> room lo r n s -> wp operand s (does buf s).

Lemma use_operand n operand s : operandOk n operand -> wf buf s -> room lo r n s -> wp operand s (does buf s).
Proof. auto. Qed.
Lemma use_operand_later n operand s : operandOk n operand -> wf buf s -> lo < pos_ s -> wp operand s (does buf s).
Proof. intros H W Hl. apply H; [done|by left]. Qed.
#[local] Hint Resolve use_operand use_operand_later : parser.

Lemma operand_leftAssoc n operator operand k : (forall s, operator s = true -> cur s <> Eof) -> k <> NK.Error ->
  operandOk n operand -> operandOk n (leftAssoc operator operand k).
Proof.
  intros Hop Hk Ho s W Hr. begin. unfold leftAssoc. do 7 step1 false.
  eapply wp_weaken.
  - eapply wp_while; [eassumption|]. intros s1 S1 [E1 E2]%andb_prop. pose proof (Hop _ E1). after_event. enter buf s1.
    run false.
  - outcome; run false.
Qed.

Lemma operand_closingLevel n operator operand k : operator <> Eof -> k <> NK.Error ->
  operandOk n operand -> operandOk n (closingLevel operator operand k).
Proof. intros Hop Hk Ho s W Hr. begin. unfold closingLevel. run false. Qed.

Lemma operand_weaken n operand : operandOk n operand -> operandOk (S n) operand.
Proof. intros H s W Hr. apply H; [done|]. positions. Qed.

Ltac not_end := let H := fresh in let E := fresh in intros ? E H; refute_eof E H.

Lemma operand_parseLink : operandOk 0 parseLink.
Proof. apply operand_leftAssoc; [not_end|done|]. intros s W Hr. eauto with parser nocore. Qed.
#[local] Hint Resolve operand_parseLink : parser.

Lemma operand_bodyNeg underMinus : operandOk 0 (bodyNeg underMinus).
Proof. intros s W Hr. begin. unfold bodyNeg. run false. Qed.

Lemma operand_parseUnary : operandOk 1 parseUnary.
Proof. intros s W Hr. begin. unfold parseUnary. run false. Qed.
#[local] Hint Resolve operand_parseUnary : parser.

Lemma operand_parseNullable : operandOk 1 parseNullable.
Proof. intros s W Hr. begin. unfold parseNullable. run false. Qed.
#[local] Hint Resolve operand_parseNullable : parser.

Lemma operand_bodyPower : operandOk 1 bodyPower.
Proof. intros s W Hr. begin. unfold bodyPower. run false. Qed.

Lemma operand_call n p : rank p = n -> operandOk n (call p).
Proof. intros <- s W Hr. by eapply calls_ok. Qed.

Lemma operand_parseRange : operandOk 2 parseRange.
Proof.
  apply operand_leftAssoc; [not_end|done|]. apply operand_leftAssoc; [not_end|done|].
  apply operand_leftAssoc; [not_end|done|]. by apply operand_call.
Qed.
#[local] Hint Resolve operand_parseRange : parser.

Lemma spec_comparison s : wf buf s -> wp comparison s (fun more s' =>
  step buf s s' /\ pos_ s' = pos_ s /\ (more = true -> cur s' <> Eof)).
Proof. intros. begin. unfold comparison. run false. Qed.

Lemma spec_comparisons fuel : forall s any, wf buf s -> lo <= pos_ s -> length (tokens_ buf) - pos_ s < fuel ->
  wp (comparisons fuel any) s (goes buf s).
Proof.
  induction fuel as [|fuel IH]; intros s any W Hlo Hf; [lia|].
  change (comparisons (S fuel) any) with
    (more ← comparison; if (more : bool) then bump;; parseRange;; comparisons fuel true else mret any).
  apply wp_bind. eapply wp_weaken; [by apply spec_comparison|]. intros [|] s1 (S1 & Hp & Hc); [|by apply wp_ret].
  specialize (Hc eq_refl). assert (W1 : wf buf s1) by apply S1.
  apply wp_bind. eapply wp_weaken; [by apply spec_bump|]. intros [] s2 (S2 & _ & Hl). specialize (Hl Hc).
  apply wp_bind. eapply wp_weaken; [apply operand_parseRange; [apply S2|left; lia]|]. intros [] s3 [S3 _].
  pose proof (mv_pos _ _ (st_moves _ _ _ S3)). destruct (wf_kindOf buf s3) as [Hl1 Hl2]; [apply S3|].
  eapply wp_weaken; [apply IH; [apply S3|lia|lia]|]. intros b s4 S4.
  eapply step_trans; [exact S1|eapply step_trans; [exact S2|by eapply step_trans]].
Qed.

Lemma spec_allComparisons s any : wf buf s -> lo <= pos_ s ->
  wp (comparisons (S (S (length (toks_ s) - pos_ s))) any) s (goes buf s).
Proof. intros W Hlo. apply spec_comparisons; [done..|]. destruct (wf_kindOf buf s); [done|lia]. Qed.
#[local] Hint Resolve spec_allComparisons : parser.

Lemma operand_parseRelational : operandOk 2 parseRelational.
Proof. intros s W Hr. begin. unfold parseRelational. run false. Qed.

Lemma operand_bodyLogicalOr : operandOk 2 bodyLogicalOr.
Proof.
  do 4 (apply operand_closingLevel; [done..|]). apply operand_leftAssoc; [not_end|done|]. apply operand_parseRelational.
Qed.

Lemma operand_parseAssign : operandOk 3 parseAssign.
Proof. intros s W Hr. begin. unfold parseAssign. run false. Qed.
End operators.

(** * What the productions of control expressions do *)

Section control.
Context (buf : TokenBuffer) {productions : Productions} (lo r : nat) {calls : CallsOk buf productions lo r}.

Lemma spec_parseIf s : wf buf s -> ready lo s -> wp parseIf s (does buf s).
Proof. produces ltac:(unfold parseIf). Qed.
#[local] Hint Resolve spec_parseIf : parser.

(** ** Patterns *)

Lemma spec_fieldPattern s : wf buf s -> wp fieldPattern s (goes buf s).
Proof. produces ltac:(unfold fieldPattern). Qed.
#[local] Hint Resolve spec_fieldPattern : parser.

Lemma spec_parseEnumTuplePattern s : wf buf s -> wp parseEnumTuplePattern s (goes buf s).
Proof. produces ltac:(unfold parseEnumTuplePattern). Qed.
#[local] Hint Resolve spec_parseEnumTuplePattern : parser.

Lemma spec_structPatternField s : wf buf s -> cur s <> Eof ->
  wp structPatternField s (fun more s' => step buf s s' /\ (more = true -> pos_ s < pos_ s')).
Proof. produces ltac:(unfold structPatternField). Qed.
#[local] Hint Resolve spec_structPatternField : parser.

Lemma spec_parseEnumStructPattern s : wf buf s -> wp parseEnumStructPattern s (goes buf s).
Proof. produces ltac:(unfold parseEnumStructPattern). Qed.
#[local] Hint Resolve spec_parseEnumStructPattern : parser.

Lemma spec_parsePattern fieldPosition s : wf buf s -> wp (parsePattern fieldPosition) s (goes buf s).
Proof. produces ltac:(unfold parsePattern, namePattern). Qed.
#[local] Hint Resolve spec_parsePattern : parser.

(** ** Cases *)

Lemma spec_strayWhen s : wf buf s -> lo <= pos_ s -> wp strayWhen s (goes buf s).
Proof. produces ltac:(unfold strayWhen). Qed.
#[local] Hint Resolve spec_strayWhen : parser.

Lemma spec_parseMatchCase s : wf buf s -> ready lo s -> wp parseMatchCase s (fun _ s' => bumps buf s s').
Proof. produces ltac:(unfold parseMatchCase). Qed.
#[local] Hint Resolve spec_parseMatchCase : parser.

Lemma spec_parseTypeCase s : wf buf s -> ready lo s -> wp parseTypeCase s (fun _ s' => bumps buf s s').
Proof. produces ltac:(unfold parseTypeCase). Qed.
#[local] Hint Resolve spec_parseTypeCase : parser.

(** The cases of a list, each of which starts with a token it takes. *)
Lemma spec_cases item s : (forall s1, wf buf s1 -> ready lo s1 -> wp item s1 (fun _ s' => bumps buf s1 s')) ->
  wf buf s -> lo < pos_ s -> wp (caseList item) s (goes buf s).
Proof.
  intros Hitem W Hlo. apply spec_caseList; [done|]. intros s1 S1 W1 Hc. pose proof (mv_pos _ _ (st_moves _ _ _ S1)).
  apply Hitem; [done|]. split; [lia|by right].
Qed.
#[local] Hint Resolve spec_cases : parser.

Lemma spec_parseMatchType s : wf buf s -> ready lo s -> wp parseMatchType s (does buf s).
Proof. produces ltac:(unfold parseMatchType). Qed.
#[local] Hint Resolve spec_parseMatchType : parser.

Lemma spec_parseMatch s : wf buf s -> ready lo s -> wp parseMatch s (does buf s).
Proof. produces ltac:(unfold parseMatch). Qed.
#[local] Hint Resolve spec_parseMatch : parser.

(** ** Loops *)

Lemma spec_loopState s : wf buf s -> lo <= pos_ s -> wp loopState s (fun r' s' =>
  step buf s s' /\ (r' = Some true -> pos_ s < pos_ s')).
Proof. intros. begin. unfold loopState. do 5 step1 false. branch; run false. Qed.

Lemma spec_loopStates fuel : forall s, wf buf s -> lo <= pos_ s -> length (tokens_ buf) - pos_ s < fuel ->
  wp (loopStates fuel) s (goes buf s).
Proof.
  induction fuel as [|fuel IH]; intros s W Hlo Hf; [lia|].
  change (loopStates (S fuel)) with
    (r' ← loopState; match r' with None => mret false | Some true => loopStates fuel | Some false => mret true end).
  apply wp_bind. eapply wp_weaken; [by apply spec_loopState|]. intros [[|]|] s1 [S1 Hl]; [|by apply wp_ret..].
  specialize (Hl eq_refl). destruct (wf_kindOf buf s1) as [Hl1 Hl2]; [apply S1|].
  eapply wp_weaken; [apply IH; [apply S1|lia|lia]|]. intros b s2 S2. by eapply step_trans.
Qed.

Lemma spec_readStates s : wf buf s -> lo <= pos_ s -> wp readStates s (goes buf s).
Proof.
  intros W Hlo. apply wp_bind, wp_gets. apply spec_loopStates; [done..|]. destruct (wf_kindOf buf s); [done|lia].
Qed.
#[local] Hint Resolve spec_readStates : parser.

Lemma spec_parseLoop s : wf buf s -> ready lo s -> wp parseLoop s (does buf s).
Proof. produces ltac:(unfold parseLoop, loopFor', loopWhile). Qed.
#[local] Hint Resolve spec_parseLoop : parser.

Lemma spec_parseStaticLoop s : wf buf s -> ready lo s -> wp parseStaticLoop s (does buf s).
Proof. produces ltac:(unfold parseStaticLoop). Qed.
#[local] Hint Resolve spec_parseStaticLoop : parser.

Lemma spec_parseAssign s : wf buf s -> room lo r 3 s -> wp parseAssign s (does buf s).
Proof. eapply operand_parseAssign, _. Qed.
#[local] Hint Resolve spec_parseAssign : parser.

Lemma spec_bodyExpr s : wf buf s -> room lo r 3 s -> wp bodyExpr s (does buf s).
Proof. produces ltac:(unfold bodyExpr). Qed.
End control.

#[export] Hint Resolve spec_strayWhen spec_cases spec_parseStaticLoop : parser.
