(* ===== verification/ParserDeclOk.v ===== *)
(** * What the productions of declarations do *)

From Stdlib Require Import Ascii String.
From stdpp Require Import strings.
From S2P Require Import Prelude Tokens Cst ParserState ParserLook CstRepr ParserParts ParserExpr ParserDecl ParserLogic ParserSteps ParserPartsOk ParserExprOk.
#[local] Open Scope nat_scope.

(** ** Recovery *)

Section recovery.
Context (buf : TokenBuffer).

(** A step that may leave the error state without a token taken. *)
Record leaps (s s' : Parser) : Prop := {
  lp_wf : wf buf s'; lp_buf : buffer s' = buffer s; lp_pos : pos_ s <= pos_ s'; lp_above : above s s';
  lp_errors : treeErrors (tree_ s) <> [] -> treeErrors (tree_ s') <> [] }.

Lemma leaps_trans s s1 s2 : leaps s s1 -> leaps s1 s2 -> leaps s s2.
Proof.
  intros [W1 B1 P1 A1 E1] [W2 B2 P2 A2 E2]. split; [done|congruence|lia|by eapply above_trans|auto].
Qed.
Lemma leaps_step s s' : leaps s s' -> pos_ s < pos_ s' -> step buf s s'.
Proof. intros [W B P A E] Hl. split; [done| |done]. split; [done|done|by intros _; apply progress_less|done]. Qed.

Lemma spec_recoverFrom fuel start inBlock topLevel : forall nesting s, wf buf s -> length (tokens_ buf) - pos_ s <= fuel ->
  wp (recoverFrom fuel start nesting inBlock topLevel) s (fun _ s' => leaps s s').
Proof.
  induction fuel as [|fuel IH]; intros nesting s W Hf; destruct (wf_kindOf buf s W) as [Hp1 Hp2]; [lia|].
  assert (Hrefl : leaps s s) by (split; [done|done|lia|apply above_refl|done]).
  unfold wp, recoverFrom. fold recoverFrom.
  destruct (isK (cur s) Eof) eqn:Ee; [by exists (), s|].
  destruct ((nesting =? 0) && recoverStops start inBlock topLevel s); [by exists (), s|]. cbv zeta.
  assert (Hc : cur s <> Eof) by (intros E; rewrite E in Ee; discriminate).
  match goal with |- context [recoverFrom fuel start ?n] => generalize n end. intros n.
  change (wp (pushCurrent;; advance;; recoverFrom fuel start n inBlock topLevel) s (fun _ s' => leaps s s')).
  destruct (spec_skipToken buf s W Hc) as ([] & s1 & E1 & W1 & B1 & P1 & A1 & R1).
  destruct (IH n s1 W1) as ([] & s2 & E2 & L2); [lia|].
  exists (), s2. split.
  - unfold mbind, P_bind in *. destruct (pushCurrent s) as [[[] s0]|]; [|done]. by rewrite E1.
  - eapply leaps_trans; [|exact L2]. split; [done|done|lia|done|by rewrite R1].
Qed.

Lemma spec_closeError sm s : wf buf s -> above sm s -> treeErrors (tree_ s) <> [] ->
  wp (close (length (stack_ sm)) NK.Error) s (fun _ s' => wf buf s' /\ buffer s' = buffer s /\ pos_ s' = pos_ s /\
    above sm s' /\ treeErrors (tree_ s') <> []).
Proof.
  intros W A He. eapply (wp_close buf _ _ sm); [done..|].
  intros s' W' Hp _ _ Hb Her _ Ha _. split_and!; try done. by rewrite Her.
Qed.

Lemma spec_recover inBlock topLevel s : wf buf s -> treeErrors (tree_ s) <> [] ->
  wp (recover inBlock topLevel) s (fun _ s' => leaps s s').
Proof.
  intros W He. unfold recover, when_. do 3 (apply wp_bind, wp_gets). apply wp_bind.
  eapply wp_weaken; [apply spec_recoverFrom; [done|]|].
  { unfold toks_. rewrite (wf_buf _ _ W). lia. }
  intros [] s1 [W1 B1 P1 A1 E1]. apply wp_bind.
  assert (Hend : forall s2, wf buf s2 -> buffer s2 = buffer s1 -> pos_ s2 = pos_ s1 -> above s s2 ->
    treeErrors (tree_ s2) <> [] -> wp (modify (setPanic false)) s2 (fun _ s' => leaps s s')).
  { intros s2 W2 B2 P2 A2 E2. apply wp_modify. split; [|change (buffer s2 = buffer s); congruence|simpl; lia|done|done].
    destruct W2 as [H1 H2 H3 H4 H5 H6 H7]. split; done. }
  apply wp_if; intros _; [|apply wp_ret; apply Hend; auto].
  eapply wp_weaken; [apply spec_closeError; auto|]. intros [] s2 (W2 & B2 & P2 & A2 & E2). by apply Hend.
Qed.

Lemma spec_stepOver s : wf buf s -> cur s <> Eof -> treeErrors (tree_ s) <> [] ->
  wp stepOver s (fun _ s' => leaps s s' /\ pos_ s < pos_ s').
Proof.
  intros W Hc He. unfold stepOver. apply wp_bind, wp_gets.
  destruct (spec_skipToken buf s W Hc) as ([] & s1 & E1 & W1 & B1 & P1 & A1 & R1).
  destruct (spec_closeError s s1) as ([] & s2 & E2 & W2 & B2 & P2 & A2 & R2); [done|done|congruence|].
  exists (), s2. split.
  - unfold mbind, P_bind in *. destruct (pushCurrent s) as [[[] s0]|]; [|done]. by rewrite E1.
  - split; [|lia]. split; [done|congruence|lia|done|done].
Qed.

(** Recovery behind an item that starts at [s]: it takes a token, the one in hand at least. *)
Lemma spec_recovering inBlock topLevel s s1 : step buf s s1 -> panic_ s1 = true -> cur s <> Eof ->
  (inBlock = true -> cur s <> RBrace) ->
  wp (recover inBlock topLevel;;
      when_ (fun s' => (pos_ s' =? pos_ s) && negb (isK (cur s') Eof) && negb (inBlock && isK (cur s') RBrace)) stepOver;;
      eat' Semi) s1 (takes buf s).
Proof.
  intros S1 Hpan Hc Hb. assert (W1 : wf buf s1) by apply S1. apply wp_bind.
  eapply wp_weaken; [apply spec_recover; [done|by eapply panic_errors]|]. intros [] s2 L2.
  assert (L : leaps s s2).
  { eapply leaps_trans; [|exact L2]. pose proof (mv_pos _ _ (st_moves _ _ _ S1)).
    split; [done|apply S1|done|apply S1|by intros _; eapply panic_errors]. }
  assert (E2 : treeErrors (tree_ s2) <> []) by (apply (lp_errors _ _ L2); by eapply panic_errors).
  apply wp_bind. unfold when_.
  assert (Hend : forall s3, leaps s s3 -> pos_ s < pos_ s3 -> wp (eat' Semi) s3 (takes buf s)).
  { intros s3 L3 Hl. eapply wp_weaken; [apply spec_eat'; [apply L3|done]|]. intros [] s4 [S4 H4].
    split; [|destruct H4; subst; lia]. eapply step_trans; [by apply leaps_step|done]. }
  apply wp_if; intros E.
  - condition E. eapply wp_weaken; [apply spec_stepOver; [apply L|congruence|done]|]. intros [] s3 [L3 Hl]. apply Hend.
    + by eapply leaps_trans.
    + pose proof (lp_pos _ _ L). lia.
  - apply wp_ret, Hend; [done|]. pose proof (lp_pos _ _ L).
    destruct (decide (pos_ s2 = pos_ s)) as [Ep|]; [exfalso|lia].
    assert (Ecur : cur s2 = cur s) by (apply cur_same; [apply L|done]). rewrite Ecur, Ep, Nat.eqb_refl in E.
    unfold isK in E. destruct (bool_decide_reflect (cur s = Eof)) as [|_]; [done|].
    destruct inBlock; [|done]. destruct (bool_decide_reflect (cur s = RBrace)); [by apply Hb|done].
Qed.
End recovery.

(** ** Declarations *)

Section decl.
Context (buf : TokenBuffer) {productions : Productions} (lo r : nat) {calls : CallsOk buf productions lo r}.

Lemma spec_parseFuncAnno s : wf buf s -> lo <= pos_ s -> wp parseFuncAnno s (fun _ s' => bumps buf s s').
Proof. produces ltac:(unfold parseFuncAnno). Qed.
#[local] Hint Resolve spec_parseFuncAnno : parser.

Lemma spec_parseFrontMatter s : wf buf s -> lo <= pos_ s -> wp parseFrontMatter s (goes buf s).
Proof. produces ltac:(unfold parseFrontMatter). Qed.
#[local] Hint Resolve spec_parseFrontMatter : parser.

Lemma spec_parseImportItem s : wf buf s -> wp parseImportItem s (does buf s).
Proof. produces ltac:(unfold parseImportItem). Qed.
#[local] Hint Resolve spec_parseImportItem : parser.

Lemma spec_parseBracedImports s : wf buf s -> wp parseBracedImports s (does buf s).
Proof. produces ltac:(unfold parseBracedImports). Qed.
#[local] Hint Resolve spec_parseBracedImports : parser.

Lemma spec_parseImportDecl s : wf buf s -> wp parseImportDecl s (does buf s).
Proof. produces ltac:(unfold parseImportDecl). Qed.
#[local] Hint Resolve spec_parseImportDecl : parser.

Lemma spec_parseUsingNamespaceDecl s : wf buf s -> wp parseUsingNamespaceDecl s (does buf s).
Proof. produces ltac:(unfold parseUsingNamespaceDecl). Qed.
#[local] Hint Resolve spec_parseUsingNamespaceDecl : parser.

(** An item of a list of declarations or statements: read to its end, or with an error in hand. *)
Lemma spec_item (done : P bool) inBlock topLevel s : wf buf s -> cur s <> Eof -> (inBlock = true -> cur s <> RBrace) ->
  wp done s (fun d s1 => (d = true /\ step buf s s1 /\ pos_ s < pos_ s1) \/ (d = false /\ step buf s s1 /\ panic_ s1 = true)) ->
  wp (d ← done;
      if (d : bool) then skip
      else
        recover inBlock topLevel;;
        when_ (fun s' => (pos_ s' =? pos_ s) && negb (isK (cur s') Eof) && negb (inBlock && isK (cur s') RBrace)) stepOver;;
        eat' Semi) s (takes buf s).
Proof.
  intros W Hc Hb Hd. apply wp_bind. eapply wp_weaken; [exact Hd|].
  intros d s1 [(-> & S1 & Hl)|(-> & S1 & Hp)]; [by apply wp_ret|by apply spec_recovering].
Qed.

(** What is read of an item. *)
Lemma spec_itemRead (read : P unit) s : wf buf s -> cur s <> Eof -> wp read s (does buf s) ->
  wp (read;; if_ (no panic_) (eat' Semi;; mret true) (mret false)) s (fun d s1 =>
    (d = true /\ step buf s s1 /\ pos_ s < pos_ s1) \/ (d = false /\ step buf s s1 /\ panic_ s1 = true)).
Proof.
  intros W Hc Hr. apply wp_bind. eapply wp_weaken; [exact Hr|]. intros [] s1 [S1 P1]. apply wp_if; intros E; condition E.
  - assert (Hl : pos_ s < pos_ s1) by (destruct P1 as [?|[?|?]]; congruence).
    apply wp_bind. eapply wp_weaken; [apply spec_eat'; [apply S1|done]|]. intros [] s2 [S2 H2]. apply wp_ret. left.
    split_and!; [done|by eapply step_trans|destruct H2; subst; lia].
  - apply wp_ret. by right.
Qed.

Lemma spec_itemError (read : P unit) s : wp read s (fun _ s' => fails buf s s') -> wp (read;; mret false) s (fun d s1 =>
    (d = true /\ step buf s s1 /\ pos_ s < pos_ s1) \/ (d = false /\ step buf s s1 /\ panic_ s1 = true)).
Proof.
  intros Hr. apply wp_bind. eapply wp_weaken; [exact Hr|]. intros [] s1 (S1 & Hp & _). apply wp_ret. by right.
Qed.

Lemma spec_declItem starts ends inBlock s : wf buf s -> room lo r 5 s -> cur s <> Eof ->
  (inBlock = true -> cur s <> RBrace) -> wp (declItem starts ends inBlock) s (takes buf s).
Proof.
  intros W Hr Hc Hb. unfold declItem. apply wp_bind, wp_gets. apply spec_item; [done..|].
  apply wp_if; intros _; [by apply spec_itemError, spec_errorPos|].
  apply wp_if; intros _; [|by apply spec_itemError, spec_errorPos]. apply spec_itemRead; [done..|]. by eapply calls_ok.
Qed.

Lemma spec_declItem_block s : wf buf s -> lo < pos_ s -> atAny [RBrace; Eof] s = false ->
  wp (declItem startsDecl RBrace true) s (takes buf s).
Proof.
  intros W Hl E. apply spec_declItem; [done|by left|..]; intros; intros Ec; unfold atAny in E; rewrite Ec in E; discriminate E.
Qed.
#[local] Hint Resolve spec_declItem_block : parser.

Lemma spec_parseNamespaceDecl s : wf buf s -> ready lo s -> wp parseNamespaceDecl s (does buf s).
Proof. produces ltac:(unfold parseNamespaceDecl). Qed.
#[local] Hint Resolve spec_parseNamespaceDecl : parser.

(** ** Tags and resources *)

Lemma spec_parseTagPositionName s : wf buf s -> wp parseTagPositionName s (goes buf s).
Proof. produces ltac:(unfold parseTagPositionName). Qed.
#[local] Hint Resolve spec_parseTagPositionName : parser.

Lemma spec_parseTagPositions s : wf buf s -> wp parseTagPositions s (goes buf s).
Proof. produces ltac:(unfold parseTagPositions). Qed.
#[local] Hint Resolve spec_parseTagPositions : parser.

Lemma spec_parseTagReaders s : wf buf s -> wp parseTagReaders s (goes buf s).
Proof. produces ltac:(unfold parseTagReaders). Qed.
#[local] Hint Resolve spec_parseTagReaders : parser.

Lemma spec_parseTagDecl s : wf buf s -> lo <= pos_ s -> wp parseTagDecl s (does buf s).
Proof. produces ltac:(unfold parseTagDecl). Qed.
#[local] Hint Resolve spec_parseTagDecl : parser.

Lemma spec_parseResourceDecl s : wf buf s -> wp parseResourceDecl s (does buf s).
Proof. produces ltac:(unfold parseResourceDecl). Qed.
#[local] Hint Resolve spec_parseResourceDecl : parser.

(** ** Rules and facts *)

Lemma spec_parseRuleBody s : wf buf s -> lo < pos_ s -> wp parseRuleBody s (goes buf s).
Proof. produces ltac:(unfold parseRuleBody). Qed.
#[local] Hint Resolve spec_parseRuleBody : parser.

Lemma spec_parseRuleDeclRest sm s : wf buf s -> since buf sm s -> lo <= pos_ s ->
  wp (parseRuleDeclRest (length (stack_ sm))) s (fun _ s' => over buf sm s s' /\ progress s s').
Proof. produces ltac:(unfold parseRuleDeclRest). Qed.
#[local] Hint Resolve spec_parseRuleDeclRest : parser.

Lemma spec_parseRuleDecl s : wf buf s -> lo <= pos_ s -> wp parseRuleDecl s (does buf s).
Proof. produces ltac:(unfold parseRuleDecl). Qed.
#[local] Hint Resolve spec_parseRuleDecl : parser.

Lemma spec_parseFactPattern s : wf buf s -> lo < pos_ s -> wp parseFactPattern s (goes buf s).
Proof. produces ltac:(unfold parseFactPattern). Qed.
#[local] Hint Resolve spec_parseFactPattern : parser.

Lemma spec_parseFactCase s : wf buf s -> ready lo s -> wp parseFactCase s (fun _ s' => bumps buf s s').
Proof. produces ltac:(unfold parseFactCase). Qed.
#[local] Hint Resolve spec_parseFactCase : parser.

Lemma spec_parseFactBody s : wf buf s -> lo <= pos_ s -> wp parseFactBody s (goes buf s).
Proof. produces ltac:(unfold parseFactBody). Qed.
#[local] Hint Resolve spec_parseFactBody : parser.

Lemma spec_parseFactClause s : wf buf s -> ready lo s -> wp parseFactClause s (goes buf s).
Proof. produces ltac:(unfold parseFactClause). Qed.
#[local] Hint Resolve spec_parseFactClause : parser.

Lemma spec_factClauses fuel : forall unread s, wf buf s -> lo <= pos_ s -> length unread < fuel ->
  wp (factClauses fuel unread) s (goes buf s).
Proof.
  induction fuel as [|fuel IH]; intros unread s W Hlo Hf; [lia|].
  assert (Hend : exists (a : unit) s', Some ((), s) = Some (a, s') /\ goes buf s a s') by (exists (), s; split; [done|by apply step_refl]).
  unfold wp. simpl. destruct (negb (panic_ s) && isK (cur s) Identifier) eqn:E; [|done].
  condition E. destruct (list_find _ unread) as [[i w]|] eqn:Ef; [|done].
  apply list_find_Some in Ef as (Hi & _ & _). apply lookup_lt_Some in Hi.
  change (wp (parseFactClause;; factClauses fuel (delete i unread)) s (goes buf s)). apply wp_bind.
  eapply wp_weaken; [apply spec_parseFactClause; [done|split; [done|right; congruence]]|]. intros [] s1 S1.
  pose proof (mv_pos _ _ (st_moves _ _ _ S1)).
  eapply wp_weaken; [apply IH; [apply S1|lia|rewrite length_delete by (by apply lookup_lt_is_Some_2); lia]|].
  intros [] s2 S2. by eapply step_trans.
Qed.

Lemma spec_allFactClauses s : wf buf s -> lo <= pos_ s -> wp (factClauses (S (length kClauses)) kClauses) s (goes buf s).
Proof. intros. apply spec_factClauses; [done..|lia]. Qed.
#[local] Hint Resolve spec_allFactClauses : parser.

Lemma spec_parseFactDeclRest sm s : wf buf s -> since buf sm s -> lo <= pos_ s ->
  wp (parseFactDeclRest (length (stack_ sm))) s (fun _ s' => over buf sm s s' /\ progress s s').
Proof. produces ltac:(unfold parseFactDeclRest). Qed.
#[local] Hint Resolve spec_parseFactDeclRest : parser.

Lemma spec_parseFactDecl s : wf buf s -> lo <= pos_ s -> wp parseFactDecl s (does buf s).
Proof. produces ltac:(unfold parseFactDecl). Qed.
End decl.

#[export] Hint Resolve spec_parseFrontMatter spec_parseImportDecl spec_parseUsingNamespaceDecl spec_parseNamespaceDecl
  spec_parseTagDecl spec_parseResourceDecl spec_parseRuleDeclRest spec_parseRuleDecl spec_parseFactDeclRest
  spec_parseFactDecl : parser.

(** * What the productions of functions, data, statements and programs do *)

Section stmt.
Context (buf : TokenBuffer) {productions : Productions} (lo r : nat) {calls : CallsOk buf productions lo r}.

(** ** Functions *)

Lemma spec_parseOperatorName s : wf buf s -> wp parseOperatorName s (does buf s).
Proof. produces ltac:(unfold parseOperatorName). Qed.
#[local] Hint Resolve spec_parseOperatorName : parser.

Lemma spec_parseFuncDeclRest sm s : wf buf s -> since buf sm s -> room lo r 0 s ->
  wp (parseFuncDeclRest (length (stack_ sm))) s (fun _ s' => over buf sm s s' /\ progress s s').
Proof. produces ltac:(unfold parseFuncDeclRest). Qed.
#[local] Hint Resolve spec_parseFuncDeclRest : parser.

Lemma spec_parseFuncDecl s : wf buf s -> room lo r 0 s -> wp parseFuncDecl s (does buf s).
Proof. produces ltac:(unfold parseFuncDecl). Qed.
#[local] Hint Resolve spec_parseFuncDecl : parser.

(** ** Data and types *)

Lemma spec_carrier isLet s : wf buf s -> wp (carrier isLet) s (goes buf s).
Proof. produces ltac:(unfold carrier, wildcardCarrier). Qed.
#[local] Hint Resolve spec_carrier : parser.

Lemma spec_parseDataDecl exported s : wf buf s -> ready lo s -> wp (parseDataDecl exported) s (does buf s).
Proof. produces ltac:(unfold parseDataDecl). Qed.
#[local] Hint Resolve spec_parseDataDecl : parser.

Lemma spec_typeDeclParams s : wf buf s -> wp typeDeclParams s (goes buf s).
Proof. produces ltac:(unfold typeDeclParams). Qed.
#[local] Hint Resolve spec_typeDeclParams : parser.

Lemma spec_parseTypeDeclRest sm s : wf buf s -> since buf sm s -> lo <= pos_ s ->
  wp (parseTypeDeclRest (length (stack_ sm))) s (fun _ s' => over buf sm s s' /\ progress s s').
Proof. produces ltac:(unfold parseTypeDeclRest). Qed.
#[local] Hint Resolve spec_parseTypeDeclRest : parser.

Lemma spec_parseTypeDecl s : wf buf s -> lo <= pos_ s -> wp parseTypeDecl s (does buf s).
Proof. produces ltac:(unfold parseTypeDecl). Qed.
#[local] Hint Resolve spec_parseTypeDecl : parser.

Lemma spec_parseExportDecl s : wf buf s -> ready lo s -> wp parseExportDecl s (does buf s).
Proof. produces ltac:(unfold parseExportDecl). Qed.
#[local] Hint Resolve spec_parseExportDecl : parser.

Lemma spec_parseAnnotatedStmt s : wf buf s -> room lo r 0 s -> wp parseAnnotatedStmt s (does buf s).
Proof. produces ltac:(unfold parseAnnotatedStmt). Qed.
#[local] Hint Resolve spec_parseAnnotatedStmt : parser.

Lemma spec_exportedDecl s : wf buf s -> room lo r 0 s -> cur s <> Eof -> wp exportedDecl s (does buf s).
Proof. produces ltac:(unfold exportedDecl). Qed.
#[local] Hint Resolve spec_exportedDecl : parser.

Definition otherDecl : P unit :=
  if_ (atTagDecl 0) parseTagDecl
    (if_ (atResourceDecl 0) parseResourceDecl
       (if_ (atFactDecl 0) parseFactDecl (if_ (atRuleDecl 0) parseRuleDecl parseFuncDecl))).

Lemma spec_otherDecl s : wf buf s -> room lo r 0 s -> wp otherDecl s (does buf s).
Proof. produces ltac:(unfold otherDecl). Qed.

Lemma spec_bodyDecl s : wf buf s -> room lo r 0 s -> wp bodyDecl s (does buf s).
Proof.
  intros W Hr. pose proof (spec_otherDecl s W Hr) as Hother. begin. unfold bodyDecl. apply wp_bind, wp_gets.
  destruct (cur s) eqn:?; try exact Hother; run false.
Qed.

(** ** Statements *)

Lemma spec_parseRetStmt s : wf buf s -> ready lo s -> wp parseRetStmt s (does buf s).
Proof. produces ltac:(unfold parseRetStmt). Qed.
#[local] Hint Resolve spec_parseRetStmt : parser.

Lemma spec_parseStmt s : wf buf s -> lo < pos_ s -> wp parseStmt s (does buf s).
Proof.
  intros. begin. unfold parseStmt. step1 false. step1 false; [run false|]. do 2 step1 false.
  lazymatch goal with |- wp (match cur ?s1 with _ => _ end) _ _ => destruct (cur s1) eqn:? end; run false.
Qed.
#[local] Hint Resolve spec_parseStmt : parser.

Lemma spec_stmtItem s : wf buf s -> lo < pos_ s -> atAny [RBrace; Eof] s = false -> wp stmtItem s (takes buf s).
Proof.
  intros W Hl E. assert (Hc : cur s <> Eof) by (intros Ec; unfold atAny in E; rewrite Ec in E; discriminate E).
  unfold stmtItem. apply wp_bind, wp_gets. apply (spec_item buf _ true false); [done..| |].
  { intros _ Ec. unfold atAny in E. rewrite Ec in E. discriminate E. }
  apply wp_if; intros _; [apply spec_itemError; apply wp_if; intros _; by apply spec_errorPos|].
  apply wp_if; intros _; [|by apply spec_itemError, spec_errorPos]. apply spec_itemRead; [done..|]. by apply spec_parseStmt.
Qed.
#[local] Hint Resolve spec_stmtItem : parser.

Lemma spec_parseStmtList s : wf buf s -> lo < pos_ s -> wp parseStmtList s (goes buf s).
Proof. produces ltac:(unfold parseStmtList). Qed.
#[local] Hint Resolve spec_parseStmtList : parser.

Lemma spec_bodyStmtBlock s : wf buf s -> lo <= pos_ s -> wp bodyStmtBlock s (does buf s).
Proof. produces ltac:(unfold bodyStmtBlock). Qed.
End stmt.
