(* ===== verification/ParserRun.v ===== *)
(** * Parses end

    Every production ends whatever the tokens are: the nesting of productions is bounded by the
    tokens that are left and the ranks below one of them ([productions_ok]). What a parse of a
    program and of an expression leaves follows from the specifications of the productions. *)

From Stdlib Require Import Ascii String.
From stdpp Require Import strings.
From S2P Require Import Prelude Tokens Cst LexLines ParserState ParserLook CstRepr ParserParts ParserExpr ParserDecl ParserLogic ParserSteps ParserPartsOk ParserExprOk ParserDeclOk.
#[local] Open Scope nat_scope.

Section run.
Context (buf : TokenBuffer).
#[local] Abbreviation ts := (tokens_ buf).

(** ** The knot *)

Lemma body_ok {productions : Productions} p s : wf buf s -> CallsOk buf productions (pos_ s) (rank p) ->
  wp (body p) s (does buf s).
Proof.
  intros W C. destruct p; simpl in *.
  - eapply spec_bodyExpr; [exact C|done|right; lia].
  - eapply operand_bodyLogicalOr; [exact C|done|right; lia].
  - eapply operand_bodyPower; [exact C|done|right; lia].
  - eapply operand_bodyNeg; [exact C|done|right; lia].
  - eapply spec_bodyType; [exact C|done|lia].
  - eapply spec_bodyStmtBlock; [exact C|done|lia].
  - eapply spec_bodyDecl; [exact C|done|right; lia].
Qed.

Lemma rank_bound p : rank p <= 5.
Proof. destruct p; simpl; lia. Qed.

Lemma productions_ok fuel : forall p s, wf buf s -> 7 * (length ts - pos_ s) + rank p < fuel ->
  wp (productionsFor fuel p) s (does buf s).
Proof.
  induction fuel as [|fuel IH]; intros p s W Hf; [lia|].
  change (wp (body (productions := productionsFor fuel) p) s (does buf s)). apply body_ok; [done|].
  intros p' s' W' Hr. apply IH; [done|]. pose proof (rank_bound p').
  assert (pos_ s' < length ts) by apply W'. destruct Hr as [Hr|[Hr Hk]]; lia.
Qed.

#[local] Instance all_calls : CallsOk buf (productionsFor (7 * S (length ts))) 0 6.
Proof. intros p s W _. apply productions_ok; [done|]. pose proof (rank_bound p). lia. Qed.

(** ** The start *)

Lemma start_wf : tokensOk ts -> wf buf (startState buf) /\ stack_ (startState buf) = [].
Proof.
  intros Hts. split; [|done]. unfold startState.
  destruct (nextFrom_spec (length ts) ts 0) as (_ & H2 & H3); [lia|]. set (p := nextFrom _ _ _) in *.
  destruct (last_eof ts Hts) as [Hl1 _]. destruct Hts as (body & e & E & He & Hb).
  assert (Hlen : 0 < length ts) by (rewrite E, length_app; simpl; lia).
  assert (Hp : p < length ts).
  { destruct (decide (p < length ts)) as [|Hge]; [done|]. specialize (H2 (length ts - 1) ltac:(lia)). congruence. }
  assert (Hnone : significantBefore ts p = []).
  { unfold significantBefore. apply elem_of_nil_inv. intros i [Hi Hin]%list_elem_of_filter.
    apply elem_of_seq in Hin. rewrite H2 in Hi by lia. done. }
  split; simpl; try done.
  - by exists body, e.
  - exists 0. split; [lia|]. rewrite Hnone. split; simpl.
    + by exists [].
    + constructor.
    + intros id. split; [intros ?%elem_of_nil; done|]. by intros (d & Hd & _).
    + done.
    + done.
Qed.

(** ** The end *)

(** The state in which a program is read. *)
Record programRead (s : Parser) (id n : nat) : Prop := {
  pr_buf : buffer s = buf;
  pr_stack : stack_ s = [NodeWord id];
  pr_tree : treeOk (nodes_ (tree_ s)) (children_ (tree_ s)) [NodeWord id]
    (significantBefore ts (length ts - 1) ++ replicate (S n) (length ts - 1));
  pr_root : exists d, nodes_ (tree_ s) !! id = Some d /\ nkind d = NK.Program;
  pr_errors : Forall (fun e => seToken e < length ts /\ triviaAt ts (seToken e) = false) (treeErrors (tree_ s));
  pr_clean : treeErrors (tree_ s) = [] -> Forall (fun d => nkind d <> NK.Error) (nodes_ (tree_ s));
}.

Lemma close_kind m k s : exists s', close m k s = Some ((), s') /\ stack_ s' = NodeWord (length (nodes_ (tree_ s))) :: drop (length (stack_ s) - m) (stack_ s) /\
  exists d, nodes_ (tree_ s') !! length (nodes_ (tree_ s)) = Some d /\ nkind d = k.
Proof.
  eexists. split; [reflexivity|]. split; [done|]. simpl.
  eexists. split.
  - rewrite lookup_app_r; rewrite setParents_length; [|lia]. by rewrite Nat.sub_diag.
  - by destruct (spanOf _ _) as [[f l]|].
Qed.

Lemma spec_parseProgram {productions : Productions} s : CallsOk buf productions 0 6 -> wf buf s -> stack_ s = [] ->
  wp parseProgram s (fun _ s' => exists id n, programRead s' id n).
Proof.
  intros C W Hs. unfold parseProgram. apply wp_bind, wp_gets, wp_bind.
  eapply wp_weaken; [by apply spec_eat'|]. intros [] s1 [S1 _]. apply wp_bind. eapply wp_weaken.
  - eapply wp_while; [apply S1|]. intros s2 S2 E. condition E. eapply (spec_declItem buf 0 6); [apply S2|right; lia| |done].
    intros Ec. unfold at_ in E. by rewrite Ec in E.
  - intros [] s2 (S2 & E & _). condition E. assert (W2 : wf buf s2) by apply S2.
    pose proof (cur_ts buf s2 W2) as Ec. rewrite E in Ec. pose proof (wf_ok _ _ W2) as Hts.
    assert (Hp : pos_ s2 = length ts - 1) by (apply (eof_last ts Hts); [done|apply W2]).
    apply wp_bind. destruct (wf_tree_push buf s2 W2) as (k & _ & Ht).
    eexists (), _. split; [reflexivity|]. set (s3 := setStack _ s2).
    assert (W3 : wf buf s3).
    { destruct W2 as [H1 H2 H3 H4 H5 H6 H7]. split; try done. exists (S k). split; [done|].
      by rewrite replicate_S_end, app_assoc. }
    assert (Hab : above s s3).
    { exists (TokenWord (pos_ s2) :: stack_ s2). rewrite Hs, app_nil_r. done. }
    destruct (close_kind (length (stack_ s)) NK.Program s3) as (s4 & E4 & Hst & Hd).
    destruct (wp_close buf (length (stack_ s)) NK.Program s s3 (fun _ s' => wf buf s' /\
      (forall front, treeOk (nodes_ (tree_ s3)) (children_ (tree_ s3)) (stack_ s3) front ->
        treeOk (nodes_ (tree_ s')) (children_ (tree_ s')) (stack_ s') front)))
      as ([] & s4' & E4' & W4 & Hfront); [done..|]. rewrite E4 in E4'. injection E4' as <-.
    exists (), s4. split; [done|]. exists (length (nodes_ (tree_ s2))), k.
    assert (Hst4 : stack_ s4 = [NodeWord (length (nodes_ (tree_ s2)))]).
    { rewrite Hst. f_equal. apply drop_ge. rewrite Hs. simpl. lia. }
    split; [apply W4|done| |done|apply W4|by intros Her; apply (wf_clean _ _ W4)].
    rewrite <- Hst4, <- Hp. apply Hfront. by rewrite replicate_S_end, app_assoc.
Qed.
End run.
