(* ===== verification/ParserNodes.v ===== *)
(** * Expressions are one node

    Where nothing is wrong, a production of an expression leaves exactly one node, and one of an
    expression kind, whatever the levels of operators it goes through ([yields]). *)

From Stdlib Require Import Ascii String.
From stdpp Require Import strings.
From S2P Require Import Prelude Tokens Cst ParserState ParserLook CstRepr ParserParts ParserExpr ParserDecl ParserLogic ParserSteps ParserPartsOk ParserExprOk ParserRun.
#[local] Open Scope nat_scope.

Create HintDb yields discriminated.
#[global] Hint Constants Opaque : yields.
#[global] Hint Variables Opaque : yields.

(** One node of an expression kind was put on the stack. *)
Definition oneExpr (sm s : Parser) : Prop := exists id d,
  stack_ s = NodeWord id :: stack_ sm /\ nodes_ (tree_ s) !! id = Some d /\ isExprKind (nkind d) = true.
Definition yields (sm : Parser) {A} (_ : A) (s : Parser) : Prop := treeErrors (tree_ s) = [] -> oneExpr sm s.

Lemma closed_yields {A} k sm s (a : A) : closedAs k sm s -> isExprKind k = true -> yields sm a s.
Proof. intros (id & d & H1 & H2 & <-) Hk _. by exists id, d. Qed.

Lemma fails_yields {A} buf sm s (a : A) : wf buf s -> panic_ s = true -> yields sm a s.
Proof. intros W Hp E. by destruct (panic_errors buf s W Hp). Qed.

Lemma yields_same {A B} (a : A) (b : B) s0 s1 s2 s3 : same s0 s1 -> yields s1 a s2 -> same s2 s3 -> yields s0 b s3.
Proof.
  intros (_ & _ & _ & E1 & _) H (E2 & _ & _ & E3 & _) Hc. destruct H as (id & d & H1 & H2 & H3); [congruence|].
  exists id, d. rewrite E3, E2, <- E1. done.
Qed.

Ltac yielded :=
  lazymatch goal with
  | |- yields ?sm _ ?s =>
      first [ assumption
            | lazymatch goal with C : closedAs _ sm s |- _ => exact (closed_yields _ sm s _ C eq_refl) end
            | lazymatch goal with W : wf _ s, P : panic_ s = true |- _ => exact (fails_yields _ sm s _ W P) end ]
  end.

Ltac leaf defs := intros; begin; defs; run false; yielded.
Ltac tail := eapply wp_weaken; [solve [eauto with yields nocore] | intros; assumption].

(** A call in the last place, and one whose node another production may take. *)
Ltac yield_run := repeat first [tail | step1 false]; try yielded.
Ltac operand_step :=
  eapply wp_weaken; [eapply wp_both; [solve [eauto 3 with parser nocore] | solve [eauto with yields nocore]] | outcome].

Lemma loop_stop body s (Q : unit -> Parser -> Prop) : body s = Some (false, s) -> Q () s -> wp (loop_ body) s Q.
Proof. intros E H. exists (), s. split; [|done]. unfold loop_. simpl. unfold mbind, P_bind. by rewrite E. Qed.

Lemma while_stop c body s (Q : unit -> Parser -> Prop) : c s = false -> Q () s -> wp (while_ c body) s Q.
Proof. intros E H. exists (), s. split; [|done]. unfold while_. simpl. by rewrite E. Qed.

Section nodes.
Context (buf : TokenBuffer) {productions : Productions} (lo r : nat) {calls : CallsOk buf productions lo r}.
#[local] Hint Extern 1 (CallsOk _ _ _ _) => exact calls : yields.
#[local] Hint Extern 1 (ready _ _) => (split; [positions | first [left; positions | right; not_eof]]) : yields.
#[local] Hint Extern 1 (_ <= _) => positions : yields.
#[local] Hint Extern 1 (room _ _ _ _) => positions : yields.

(** ** Operands *)

Lemma yields_parseIdentRef k s : wf buf s -> k = NK.RefData -> wp (parseIdentRef k) s (yields s).
Proof. intros W ->. begin. unfold parseIdentRef. run false; yielded. Qed.
Lemma yields_parseLiteral s : wf buf s -> wp parseLiteral s (yields s).
Proof. leaf ltac:(unfold parseLiteral). Qed.
Lemma yields_parseConstasData s : wf buf s -> wp parseConstasData s (yields s).
Proof. leaf ltac:(unfold parseConstasData). Qed.
Lemma yields_parseArrayData s : wf buf s -> ready lo s -> wp parseArrayData s (yields s).
Proof. leaf ltac:(unfold parseArrayData, arrayFor). Qed.
Lemma yields_parseStructData s : wf buf s -> ready lo s -> wp parseStructData s (yields s).
Proof. leaf ltac:(unfold parseStructData). Qed.
Lemma yields_parseTupleData s : wf buf s -> ready lo s -> wp parseTupleData s (yields s).
Proof. leaf ltac:(unfold parseTupleData). Qed.
Lemma yields_parseFuncData s : wf buf s -> lo <= pos_ s -> wp parseFuncData s (yields s).
Proof. leaf ltac:(unfold parseFuncData). Qed.
Lemma yields_parseShapeComp s : wf buf s -> room lo r 0 s -> wp parseShapeComp s (yields s).
Proof. leaf ltac:(unfold parseShapeComp). Qed.
#[local] Hint Resolve yields_parseIdentRef yields_parseLiteral yields_parseConstasData yields_parseArrayData
  yields_parseStructData yields_parseTupleData yields_parseFuncData yields_parseShapeComp : yields.
#[local] Hint Extern 1 (_ = _) => reflexivity : yields.
#[local] Hint Resolve spec_parsePrimary spec_parseShapeComp spec_parseAccess spec_accessMember spec_parseTypeArguments
  spec_parseIndices spec_parseStructData : parser.

Lemma yields_parsePrimary s : wf buf s -> lo <= pos_ s -> wp parsePrimary s (yields s).
Proof.
  intros. begin. unfold parsePrimary. repeat step1 false.
  lazymatch goal with |- wp (match cur ?s1 with _ => _ end) _ _ => destruct (cur s1) eqn:? end; yield_run.
Qed.
#[local] Hint Resolve yields_parsePrimary : yields.

(** ** Postfix forms *)

Lemma yields_parseAccess s : wf buf s -> lo <= pos_ s -> wp parseAccess s (yields s).
Proof.
  intros. begin. unfold parseAccess. do 3 step1 false. operand_step. do 3 step1 false.
  destruct (at_ Dot s0 && no panic_ s0) eqn:E.
  - run false. yielded.
  - apply loop_stop; [unfold if_; by rewrite E|]. by apply wp_ret.
Qed.
#[local] Hint Resolve yields_parseAccess : yields.

Lemma annoSuffix_none s : wf buf s -> lo <= pos_ s -> wp annoSuffix s (fun more s' => more = false -> s' = s).
Proof. intros. begin. unfold annoSuffix, bracketMember. run false. all: try done. Qed.

Lemma annoSuffixes_none fuel : forall any s b s', wf buf s -> lo <= pos_ s ->
  annoSuffixes fuel any s = Some (b, s') -> b = false -> any = false /\ s' = s.
Proof.
  induction fuel as [|fuel IH]; intros any s b s' W Hlo E Hb; [done|]. simpl in E. unfold if_ in E.
  destruct (panic_ s); [by injection E as -> ->|]. unfold mbind, P_bind in E.
  destruct (annoSuffix_none s W Hlo) as (more & s1 & E1 & H1). destruct (spec_annoSuffix buf lo r s W Hlo) as (more' & s1' & E1' & S1 & _).
  rewrite E1 in E, E1'. injection E1' as <- <-. destruct more.
  - pose proof (mv_pos _ _ (st_moves _ _ _ S1)). destruct (IH true s1 b s') as [? _]; [apply S1|lia|done|done|done].
  - rewrite H1 in E by done. by injection E as -> ->.
Qed.

Lemma yields_parseAnno s : wf buf s -> room lo r 0 s -> wp parseAnno s (yields s).
Proof.
  intros W Hr. begin. unfold parseAnno. do 5 step1 false.
  assert (Hop : wp (if shapeCompAhead s then parseShapeComp else parseAccess) s (fun a s' => does buf s a s' /\ yields s a s')).
  { destruct (shapeCompAhead s); apply wp_both; eauto 3 with parser yields nocore. }
  eapply wp_weaken; [exact Hop|]. outcome. do 3 step1 false.
  assert (Hlo : lo <= pos_ s0) by positions.
  destruct (spec_allAnnoSuffixes buf lo r s0 (shapeCompAhead s)) as (any & s1 & E1 & S1); [done..|].
  exists any, s1. split; [exact E1|]. destruct any.
  - assert (A1 : since buf s s1) by by eapply since_step. assert (W1 : wf buf s1) by apply S1. run false. yielded.
  - destruct (annoSuffixes_none _ _ _ _ _ ltac:(eassumption) Hlo E1 eq_refl) as [_ ->]. by apply wp_ret.
Qed.
End nodes.

(** ** Operators *)

(** The productions reached through [call] leave one node where they read an expression. *)
Definition callYields (p : Prod) (s : Parser) (a : unit) (s' : Parser) : Prop :=
  match p with PExpr | PLogicalOr | PPower | PNeg _ => yields s a s' | PType | PStmtBlock | PDecl => True end.

Class CallsYield (buf : TokenBuffer) (productions : Productions) (lo r : nat) : Prop :=
  calls_yield p s : wf buf s -> room lo r (rank p) s -> wp (call p) s (callYields p s).

Section operators.
Context (buf : TokenBuffer) {productions : Productions} (lo r : nat) {calls : CallsOk buf productions lo r}.
Context {nodes : CallsYield buf productions lo r}.

(** An operand of rank [n] or lower, of which one node is left. *)
Definition operandNode (n : nat) (operand : P unit) : Prop :=
  forall s, wf buf s -> room lo r n s -> wp operand s (fun a s' => does buf s a s' /\ yields s a s').

Lemma operandNode_intro n operand : operandOk buf lo r n operand ->
  (forall s, wf buf s -> room lo r n s -> wp operand s (yields s)) -> operandNode n operand.
Proof. intros H1 H2 s W Hr. apply wp_both; auto. Qed.

Lemma operandNode_ok n operand : operandNode n operand -> operandOk buf lo r n operand.
Proof. intros H s W Hr. eapply wp_weaken; [by apply H|]. by intros a s1 [? _]. Qed.

#[local] Hint Resolve use_operand_later : parser.

Lemma node_leftAssoc n operator operand k : (forall s, operator s = true -> cur s <> Eof) -> isExprKind k = true ->
  k <> NK.Error -> operandNode n operand -> operandNode n (leftAssoc operator operand k).
Proof.
  intros Hop Hk Hke Ho. pose proof (operandNode_ok _ _ Ho) as Hok.
  apply operandNode_intro; [by apply operand_leftAssoc|]. intros s W Hr. begin. unfold leftAssoc. do 3 step1 false.
  eapply wp_weaken; [by apply Ho|]. outcome. do 3 step1 false. destruct (operator s0 && no panic_ s0) eqn:E.
  - eapply wp_weaken.
    + eapply wp_while; [eassumption|]. intros s1 S1 [E1 E2]%andb_prop. pose proof (Hop _ E1). after_event. enter buf s1.
      run false.
    + outcome; run false; lazymatch goal with C : closedAs _ _ _ |- _ => by eapply closed_yields end.
  - apply while_stop; [done|]. by apply wp_ret.
Qed.

Lemma node_closingLevel n operator operand k : operator <> Eof -> isExprKind k = true -> k <> NK.Error ->
  operandNode n operand -> operandNode n (closingLevel operator operand k).
Proof.
  intros Hop Hk Hke Ho. pose proof (operandNode_ok _ _ Ho) as Hok.
  apply operandNode_intro; [by apply operand_closingLevel|]. intros s W Hr. begin. unfold closingLevel. do 3 step1 false.
  eapply wp_weaken; [by apply Ho|]. outcome. step1 false; [by apply wp_ret|].
  run false; lazymatch goal with C : closedAs _ _ _ |- _ => by eapply closed_yields end.
Qed.

Ltac not_end := let H := fresh in let E := fresh in intros ? E H; refute_eof E H.

(** An operand that the production may wrap, and the rest. *)
Ltac wrap operand :=
  eapply wp_weaken; [apply operand; assumption | outcome]; yield_run.

Lemma node_parseLink : operandNode 0 parseLink.
Proof.
  apply node_leftAssoc; [not_end|done|done|]. apply operandNode_intro.
  - intros s W Hr. eauto with parser nocore.
  - intros s W Hr. by eapply yields_parseAnno.
Qed.

Lemma node_bodyNeg underMinus : operandNode 0 (bodyNeg underMinus).
Proof.
  apply operandNode_intro; [by apply operand_bodyNeg|]. intros s W Hr. begin. unfold bodyNeg. do 2 step1 false.
  step1 false; [|step1 false; wrap node_parseLink].
  step1 false. run false. split; [done|]. intros s9 S9 Hsame.
  lazymatch goal with C : closedAs _ _ ?s1 |- _ => apply (yields_same () () s s s1 s9); [done|by eapply closed_yields|done] end.
Qed.

(** A call of one of the expression productions. *)
Definition exprProd (p : Prod) : Prop :=
  match p with PExpr | PLogicalOr | PPower | PNeg _ => True | PType | PStmtBlock | PDecl => False end.

Lemma node_call n p : rank p = n -> exprProd p -> operandNode n (call p).
Proof.
  intros <- Hp s W Hr. apply wp_both; [by eapply calls_ok|]. eapply wp_weaken; [by apply calls_yield|].
  intros a s1 H. by destruct p.
Qed.

Lemma node_parseUnary : operandNode 1 parseUnary.
Proof.
  apply operandNode_intro; [by apply operand_parseUnary|]. intros s W Hr. begin. unfold parseUnary. do 2 step1 false.
  step1 false. wrap (node_call 1 (PNeg false) eq_refl I).
Qed.

Lemma node_parseNullable : operandNode 1 parseNullable.
Proof.
  apply operandNode_intro; [by apply operand_parseNullable|]. intros s W Hr. begin. unfold parseNullable. do 3 step1 false.
  wrap node_parseUnary.
Qed.

Lemma node_bodyPower : operandNode 1 bodyPower.
Proof.
  apply operandNode_intro; [by apply operand_bodyPower|]. intros s W Hr. begin. unfold bodyPower. do 3 step1 false.
  wrap node_parseNullable.
Qed.

Lemma node_parseRange : operandNode 2 parseRange.
Proof.
  repeat (apply node_leftAssoc; [not_end|done|done|]). by apply node_call.
Qed.

(** ** Levels above the ranges *)

Lemma comparison_none s : wf buf s -> wp comparison s (fun more s' => more = false -> s' = s).
Proof. intros. begin. unfold comparison. run false. all: try done. Qed.

Lemma comparisons_none fuel : forall any s b s', wf buf s -> lo <= pos_ s ->
  comparisons fuel any s = Some (b, s') -> b = false -> any = false /\ s' = s.
Proof.
  induction fuel as [|fuel IH]; intros any s b s' W Hlo E Hb; [done|]. simpl in E. unfold mbind, P_bind in E.
  destruct (comparison_none s W) as (more & s1 & E1 & H1).
  destruct (spec_comparison buf s W) as (more' & s1' & E1' & S1 & Hp & Hc).
  rewrite E1 in E, E1'. injection E1' as <- <-. destruct more.
  - specialize (Hc eq_refl). destruct (spec_bump buf s1) as (u2 & s2 & E2 & S2 & _ & Hl); [apply S1|]. specialize (Hl Hc).
    rewrite E2 in E. destruct (operand_parseRange buf lo r s2) as (u3 & s3 & E3 & S3 & _); [apply S2|left; lia|].
    rewrite E3 in E. pose proof (mv_pos _ _ (st_moves _ _ _ S3)).
    destruct (IH true s3 b s') as [? _]; [apply S3|lia|done|done|done].
  - rewrite H1 in E by done. by injection E as -> ->.
Qed.

#[local] Hint Resolve spec_allComparisons : parser.

Lemma node_parseRelational : operandNode 2 parseRelational.
Proof.
  apply operandNode_intro; [by apply operand_parseRelational|]. intros s W Hr. begin. unfold parseRelational. do 3 step1 false.
  eapply wp_weaken; [by apply node_parseRange|]. outcome. do 3 step1 false.
  assert (Hlo : lo <= pos_ s0) by positions.
  destruct (spec_allComparisons buf lo r s0 false) as (any & s1 & E1 & S1); [done..|].
  exists any, s1. split; [exact E1|]. destruct any.
  - assert (A1 : since buf s s1) by by eapply since_step. assert (W1 : wf buf s1) by apply S1. run false. yielded.
  - destruct (comparisons_none _ _ _ _ _ ltac:(eassumption) Hlo E1 eq_refl) as [_ ->]. by apply wp_ret.
Qed.

Lemma node_bodyLogicalOr : operandNode 2 bodyLogicalOr.
Proof.
  do 4 (apply node_closingLevel; [done..|]). apply node_leftAssoc; [not_end|done|done|]. apply node_parseRelational.
Qed.

Lemma node_parseAssign : operandNode 3 parseAssign.
Proof.
  apply operandNode_intro; [by apply operand_parseAssign|]. intros s W Hr. begin. unfold parseAssign. do 3 step1 false.
  wrap (node_call 3 PLogicalOr eq_refl I).
Qed.

(** ** Control *)

#[local] Hint Resolve spec_parseMatchType spec_parseMatch spec_readStates spec_parseTypeCase spec_parseMatchCase spec_parseIf spec_parseLoop spec_parseStaticLoop spec_parseAssign : parser.
#[local] Hint Extern 1 (ready _ _) => (split; [positions | first [left; positions | right; not_eof]]) : yields.
#[local] Hint Extern 1 (room _ _ _ _) => positions : yields.

Lemma yields_parseIf s : wf buf s -> ready lo s -> wp parseIf s (yields s).
Proof. leaf ltac:(unfold parseIf). Qed.
Lemma yields_parseMatchType s : wf buf s -> ready lo s -> wp parseMatchType s (yields s).
Proof. leaf ltac:(unfold parseMatchType). Qed.
#[local] Hint Resolve yields_parseMatchType : yields.
Lemma yields_parseMatch s : wf buf s -> ready lo s -> wp parseMatch s (yields s).
Proof. intros. begin. unfold parseMatch. step1 false; yield_run. Qed.
Lemma yields_parseLoop s : wf buf s -> ready lo s -> wp parseLoop s (yields s).
Proof. leaf ltac:(unfold parseLoop, loopFor', loopWhile). Qed.
Lemma yields_parseStaticLoop s : wf buf s -> ready lo s -> wp parseStaticLoop s (yields s).
Proof. leaf ltac:(unfold parseStaticLoop). Qed.
Lemma yields_parseAssign s : wf buf s -> room lo r 3 s -> wp parseAssign s (yields s).
Proof. intros W Hr. eapply wp_weaken; [by apply node_parseAssign|]. by intros a s1 [_ ?]. Qed.
#[local] Hint Resolve yields_parseIf yields_parseMatch yields_parseLoop yields_parseStaticLoop yields_parseAssign : yields.

(** An expression inside [withDepth]: [parseExpr]. *)
Lemma withDepth_yields (m : P unit) s : wf buf s ->
  (forall s1, wf buf s1 -> pos_ s1 = pos_ s -> wp m s1 (fun a s2 => wf buf s2 /\ yields s1 a s2)) ->
  wp (withDepth m) s (yields s).
Proof.
  intros W Hm. eapply wp_withDepth; [done|]. intros s1 S1 Hs1.
  eapply wp_weaken; [apply Hm; [apply S1|apply Hs1]|]. intros a s2 [W2 Y]. split; [done|]. intros s3 _ Hs3.
  by eapply yields_same.
Qed.

Lemma yields_bodyExpr s : wf buf s -> room lo r 3 s -> wp bodyExpr s (yields s).
Proof.
  intros W Hr. apply withDepth_yields; [done|]. clear W. intros s1 W Hp.
  assert (Hr1 : room lo r 3 s1) by positions. clear Hr. begin. apply wp_both.
  - eapply (wp_weaken _ _ (goes buf s1)); [run false|]. intros a s2 S2. apply S2.
  - step1 false; [run false; yielded|]. yield_run.
Qed.
End operators.

(** ** The knot *)

Lemma body_yields buf {productions : Productions} p s : wf buf s -> CallsOk buf productions (pos_ s) (rank p) ->
  CallsYield buf productions (pos_ s) (rank p) -> wp (body p) s (callYields p s).
Proof.
  intros W C N. pose proof (body_ok buf p s W C) as Hok.
  assert (Hnode : forall n operand, operandNode buf (pos_ s) (rank p) n operand -> n < rank p -> wp operand s (yields s)).
  { intros n operand H Hn. eapply wp_weaken; [apply H; [done|right; lia]|]. by intros a s1 [_ ?]. }
  destruct p; simpl in *; try (eapply wp_weaken; [exact Hok|done]).
  - eapply yields_bodyExpr; [exact C|exact N|done|right; lia].
  - eapply Hnode; [eapply node_bodyLogicalOr; [exact C|exact N]|lia].
  - eapply Hnode; [eapply node_bodyPower; [exact C|exact N]|lia].
  - eapply Hnode; [eapply node_bodyNeg, C|lia].
Qed.

Lemma productions_yield buf fuel : forall p s, wf buf s -> 7 * (length (tokens_ buf) - pos_ s) + rank p < fuel ->
  wp (productionsFor fuel p) s (callYields p s).
Proof.
  induction fuel as [|fuel IH]; intros p s W Hf; [lia|].
  change (wp (body (productions := productionsFor fuel) p) s (callYields p s)).
  assert (Hless : forall p' s', wf buf s' -> room (pos_ s) (rank p) (rank p') s' ->
    7 * (length (tokens_ buf) - pos_ s') + rank p' < fuel).
  { intros p' s' W' Hr. pose proof (rank_bound p'). assert (pos_ s' < length (tokens_ buf)) by apply W'.
    destruct Hr as [Hr|[Hr Hk]]; lia. }
  eapply (body_yields buf); [done|..]; intros p' s' W' Hr; [apply (productions_ok buf)|apply IH]; auto.
Qed.

(** ** One expression *)

Lemma spec_runExpression buf {productions : Productions} s : CallsOk buf productions 0 6 -> CallsYield buf productions 0 6 ->
  wf buf s -> stack_ s = [] ->
  wp runExpression s (fun _ s' => wf buf s' /\ (treeErrors (tree_ s') = [] -> oneExpr s s' /\ cur s' = Eof)).
Proof.
  intros C N W Hs. begin. unfold runExpression. apply wp_bind.
  assert (Hr : room 0 6 4 s) by (right; lia).
  eapply wp_weaken; [apply (node_call buf 0 6 4 PExpr eq_refl I); [exact W|exact Hr]|].
  outcome. unfold when_. branch; [run false|].
  - split; [done|]. intros He. by destruct (panic_errors buf s1 ltac:(done) ltac:(done)).
  - apply wp_ret. split; [done|]. intros He. split; [auto|]. assert (W0 : wf buf s0) by done.
    destruct (wf_clean _ _ W0 He) as [Hp _].
    unfold no, at_ in E. rewrite Hp in E. apply negb_false_iff, isK_true in E. done.
Qed.

Lemma expression_read buf : tokensOk (tokens_ buf) -> exists s, parseExpression buf = Some (finished s) /\ wf buf s /\
  (treeErrors (tree_ s) = [] -> exists id d n, stack_ s = [NodeWord id] /\ nodes_ (tree_ s) !! id = Some d /\
    isExprKind (nkind d) = true /\ treeOk (nodes_ (tree_ s)) (children_ (tree_ s)) [NodeWord id]
      (significantBefore (tokens_ buf) (length (tokens_ buf) - 1) ++ replicate n (length (tokens_ buf) - 1))).
Proof.
  intros Hts. destruct (start_wf buf Hts) as [W Hst].
  assert (N : CallsYield buf (productionsFor (parseFuel buf)) 0 6).
  { intros p s Ws _. apply (productions_yield buf); [done|]. pose proof (rank_bound p). unfold parseFuel. lia. }
  destruct (spec_runExpression buf (productions := productionsFor (parseFuel buf)) (startState buf) (all_calls buf) N W Hst)
    as ([] & s & E & Ws & Hs).
  exists s. split; [unfold parseExpression, runFrom; by rewrite E|]. split; [done|]. intros He.
  destruct (Hs He) as [(id & d & Hid & Hd & Hk) Hc]. destruct (wf_tree _ _ Ws) as (n & _ & Ht).
  rewrite (cur_ts _ _ Ws) in Hc. rewrite (eof_last _ Hts _ Hc) in Ht by apply Ws. rewrite Hst in Hid. rewrite Hid in Ht.
  by exists id, d, n.
Qed.

(** * Facts of well-formed trees

    Reading a tree off its arrays ([syntaxOf_repr]), where the tokens of a node are among those of
    the whole ([treeOk_infix]), and the text of a node ([nodeText_leaves]). *)

Lemma syntaxOf_repr x : forall fuel t w, repr (nodes_ t) (children_ t) x w ->
  (forall id, w = NodeWord id -> id < fuel) -> syntaxOf fuel t w = Some x.
Proof.
  induction x as [i|k cs IH] using Syntax_rect'; intros fuel t w Hr Hf.
  - rewrite Hr. by destruct fuel.
  - apply repr_inner in Hr as (id & d & -> & Hd & <- & _ & _ & Hc & Hcs). specialize (Hf id eq_refl).
    destruct fuel as [|fuel]; [lia|]. simpl. rewrite Hd. simpl.
    replace (mapM (syntaxOf fuel t) (childWords (children_ t) d)) with (Some cs); [done|]. symmetry. apply mapM_Some.
    clear Hd. induction Hcs as [|x w xs ws Hx Hxs IHxs]; [constructor|]. inv IH. apply Forall_cons in Hc as [Hw Hc].
    constructor; [|by apply IHxs]. apply H1; [done|]. intros id' ->. destruct Hw. lia.
Qed.

Lemma repr_fun nodes children x y w : repr nodes children x w -> repr nodes children y w -> x = y.
Proof.
  intros Hx Hy. set (t := mkTree (mkBuffer [] [] [] [] []) nodes children [] None).
  set (fuel := match w with NodeWord id => S id | TokenWord _ => 0 end).
  assert (Hf : forall id, w = NodeWord id -> id < fuel) by (intros id ->; simpl; lia).
  pose proof (syntaxOf_repr x fuel t w Hx Hf). pose proof (syntaxOf_repr y fuel t w Hy Hf). congruence.
Qed.

(** A node of a tree whose root is [root]: its tokens are a run of the tokens of the tree. *)
Lemma treeOk_infix nodes children root front c d : treeOk nodes children [NodeWord root] front ->
  nodes !! c = Some d -> exists x before behind,
    repr nodes children x (NodeWord c) /\ front = before ++ frontier x ++ behind.
Proof.
  intros Hok. remember (length nodes - c) as n eqn:En. revert c d En.
  induction n as [n IH] using lt_wf_ind. intros c d En Hd. destruct (ok_nodes _ _ _ _ Hok c d Hd) as [x Hx].
  destruct (parent d) as [p|] eqn:Ep.
  - destruct (ok_parents _ _ _ _ Hok c d p Hd Ep) as (dp & Hdp & Hin).
    destruct (ok_nodes _ _ _ _ Hok p dp Hdp) as [y Hy]. pose proof Hy as Hy'.
    destruct y as [i|k cs]; [done|]. apply repr_inner in Hy' as (id & d' & [= <-] & Hd' & _ & _ & _ & Hc & Hcs).
    simplify_eq. rewrite Forall_forall in Hc. destruct (Hc _ Hin) as [Hlt _].
    pose proof (lookup_lt_Some _ _ _ Hdp). destruct (IH (length nodes - p)) with (c := p) (d := dp)
      as (y & before & behind & Hy2 & Hfront); [lia|done|done|].
    rewrite (repr_fun _ _ _ _ _ Hy2 Hy) in Hfront.
    apply list_elem_of_lookup_1 in Hin as [j Hj]. destruct (Forall2_lookup_r _ _ _ _ _ Hcs Hj) as (xc & Hxc & Hrc).
    exists xc, (before ++ concat (frontier <$> take j cs)), (concat (frontier <$> drop (S j) cs) ++ behind).
    split; [done|]. rewrite Hfront. simpl. rewrite <- (take_drop_middle cs j xc Hxc) at 1.
    rewrite fmap_app, concat_app, fmap_cons. simpl. by rewrite <- !app_assoc.
  - exists x, [], []. split; [done|]. rewrite app_nil_r. simpl.
    assert (Hc : NodeWord c ∈ [NodeWord root]) by (apply (ok_roots _ _ _ _ Hok); eauto).
    apply list_elem_of_singleton in Hc as [= ->]. destruct (ok_stack _ _ _ _ Hok) as (xs & Hxs & <-).
    simpl in Hxs. apply Forall2_cons_inv_r in Hxs as (y & ys & Hy & Hys & ->). apply Forall2_nil_inv_r in Hys as ->.
    by rewrite (repr_fun _ _ _ _ _ Hx Hy); simpl; rewrite app_nil_r.
Qed.

(** ** The text of a node *)

Definition leafText (buf : TokenBuffer) (i : nat) : Text :=
  match tokens_ buf !! i with Some t => text buf t | None => [] end.

Lemma concat_filter (T : nat -> Text) p l : T p = [] -> (forall i, i ∈ l -> i <= p) ->
  concat (T <$> l) = concat (T <$> filter (fun i => i < p) l).
Proof.
  intros HT. induction l as [|i l IH]; intros Hl; [done|]. rewrite filter_cons, fmap_cons. simpl.
  rewrite IH by (intros j Hj; apply Hl; by right). case_decide as Hi; [done|].
  specialize (Hl i ltac:(left)). replace i with p by lia. by rewrite HT.
Qed.

Lemma sorted_filter (R : nat -> nat -> Prop) (Q : nat -> Prop) `{forall x, Decision (Q x)} l :
  StronglySorted R l -> StronglySorted R (filter Q l).
Proof.
  induction 1 as [|x l Hl IH Hx]; [constructor|]. rewrite filter_cons. case_decide; [|done]. constructor; [done|].
  apply Forall_forall. intros y [_ Hy]%list_elem_of_filter. rewrite Forall_forall in Hx. auto.
Qed.

Lemma sorted_seq a n : StronglySorted lt (seq a n).
Proof.
  revert a. induction n as [|n IH]; intros a; simpl; [constructor|]. constructor; [done|]. apply Forall_forall.
  intros y Hy%elem_of_seq. lia.
Qed.

Lemma sorted_weaken l : StronglySorted lt l -> StronglySorted le l.
Proof. induction 1 as [|x l Hl IH Hx]; constructor; [done|]. eapply Forall_impl; [exact Hx|]. simpl. lia. Qed.

Section runs.
Context (Q : nat -> Prop) `{forall x, Decision (Q x)} (p n : nat) (Hp : Q p).
#[local] Abbreviation below := (filter (fun i => i < p)).

(** A run of the numbers below [p] that meet [Q], with [p] any number of times behind them. *)
Lemma run_elements pre run post f rest l : filter Q (seq 0 p) ++ replicate n p = pre ++ run ++ post ->
  run = f :: rest -> last run = Some l ->
  f <= l <= p /\ below run = below (filter Q (seq f (l + 1 - f))) /\ forall i, i ∈ run -> i <= p.
Proof.
  intros E Ef El. set (all := filter Q (seq 0 p) ++ replicate n p) in *.
  assert (Hall : forall i, i ∈ all -> i <= p /\ Q i).
  { intros i [[Hq Hi%elem_of_seq]%list_elem_of_filter|[-> _]%elem_of_replicate]%elem_of_app; split; (done || lia). }
  assert (Hle : StronglySorted le all).
  { apply StronglySorted_app_2; [|by apply sorted_weaken, sorted_filter, sorted_seq|].
    - intros i j [_ Hi%elem_of_seq]%list_elem_of_filter [-> _]%elem_of_replicate. lia.
    - clear. induction n as [|k IH]; simpl; constructor; [done|]. apply Forall_forall.
      intros y [-> _]%elem_of_replicate. lia. }
  assert (Hlt : StronglySorted lt (below all)).
  { unfold all. rewrite filter_app.
    assert (Hr : below (replicate n p) = []).
    { apply elem_of_nil_inv. intros i [Hi [-> _]%elem_of_replicate]%list_elem_of_filter. lia. }
    rewrite Hr, app_nil_r. by apply sorted_filter, sorted_filter, sorted_seq. }
  rewrite E in Hle, Hlt. rewrite !filter_app in Hlt.
  pose proof (StronglySorted_app_1_r _ _ _ Hle) as Hle2. pose proof (StronglySorted_app_1_l _ _ _ Hle2) as Hrun.
  pose proof (StronglySorted_app_1_r _ _ _ Hlt) as Hlt2. pose proof (StronglySorted_app_1_l _ _ _ Hlt2) as Hltrun.
  assert (Hin : forall i, i ∈ run -> i ∈ all) by (intros i Hi; rewrite E, !elem_of_app; tauto).
  assert (Hf : f ∈ run) by (rewrite Ef; left).
  assert (Hlin : l ∈ run) by (apply last_Some_elem_of; done).
  assert (Hfi : forall i, i ∈ run -> f <= i).
  { intros i Hi. rewrite Ef in Hrun, Hi. apply elem_of_cons in Hi as [->|Hi]; [done|].
    apply StronglySorted_inv in Hrun as [_ Hr]. rewrite Forall_forall in Hr. auto. }
  assert (Hil : forall i, i ∈ run -> i <= l).
  { intros i Hi. apply last_Some in El as [init ->]. apply elem_of_app in Hi as [Hi|Hi%list_elem_of_singleton]; [|lia].
    eapply (StronglySorted_app_1_elem_of le); [exact Hrun|done|left]. }
  split_and!; [by apply Hfi|by apply Hall, Hin| |by intros i Hi; apply Hall, Hin].
  apply (StronglySorted_unique_strong lt); [lia|done|by apply sorted_filter, sorted_filter, sorted_seq|].
  apply NoDup_Permutation.
  - clear - Hltrun. induction Hltrun as [|x k Hk IH Hx]; constructor; [|done]. intros Hx'.
    rewrite Forall_forall in Hx. specialize (Hx x Hx'). lia.
  - apply NoDup_filter, NoDup_filter, NoDup_seq.
  - intros i. rewrite !list_elem_of_filter, elem_of_seq. split.
    + intros [Hip Hi]. destruct (Hall i (Hin i Hi)). specialize (Hfi i Hi). specialize (Hil i Hi). split_and!; (done || lia).
    + intros (Hip & Hq & Hfl). split; [done|].
      assert (Hi : i ∈ all) by (apply elem_of_app; left; apply list_elem_of_filter; split; [done|]; apply elem_of_seq; lia).
      rewrite E, !elem_of_app in Hi. destruct Hi as [Hi|[Hi|Hi]]; [exfalso|done|exfalso].
      * assert (i <= f) by (eapply (StronglySorted_app_1_elem_of le); [exact Hle|done|rewrite elem_of_app; by left]).
        assert (i < f); [|lia]. eapply (StronglySorted_app_1_elem_of lt); [exact Hlt|by apply list_elem_of_filter|].
        apply elem_of_app. left. apply list_elem_of_filter. split; [lia|done].
      * assert (l <= i) by (eapply (StronglySorted_app_1_elem_of le); [exact Hle2|done|done]).
        assert (l < i); [|lia]. eapply (StronglySorted_app_1_elem_of lt); [exact Hlt2| |by apply list_elem_of_filter].
        apply list_elem_of_filter. split; [lia|done].
Qed.
End runs.

(** The tokens of a range that are not trivia, one by one. *)
Lemma rangeText buf f n : f + n <= length (tokens_ buf) ->
  concat ((fun tk => text buf tk) <$> filter (fun tk => isTrivia (kind tk) = false) (take n (drop f (tokens_ buf)))) =
  concat (leafText buf <$> filter (fun i => triviaAt (tokens_ buf) i = false) (seq f n)).
Proof.
  revert f. induction n as [|n IH]; intros f Hn; [done|].
  destruct (lookup_lt_is_Some_2 (tokens_ buf) f) as [t Ht]; [lia|]. rewrite (drop_S _ t) by done.
  simpl. rewrite !filter_cons.
  destruct (decide (isTrivia (kind t) = false)) as [Hk|Hk].
  - rewrite decide_True by (unfold triviaAt; by rewrite Ht). rewrite !fmap_cons. simpl. rewrite IH by lia.
    unfold leafText at 2. by rewrite Ht.
  - rewrite decide_False by (unfold triviaAt; by rewrite Ht). apply IH. lia.
Qed.

(** The text of a node is the texts of its leaves. *)
Lemma nodeText_leaves t buf id d x before behind n : tokenBuffer t = buf -> nodes_ t !! id = Some d ->
  tokensOk (tokens_ buf) -> leafText buf (length (tokens_ buf) - 1) = [] -> spanIs d (frontier x) ->
  significantBefore (tokens_ buf) (length (tokens_ buf) - 1) ++ replicate n (length (tokens_ buf) - 1) =
    before ++ frontier x ++ behind ->
  nodeText t id = concat (leafText buf <$> frontier x).
Proof.
  intros Hb Hd Hts Htext Hs Hfront. unfold nodeText. rewrite Hd, Hb. destruct (frontier x) as [|f rest] eqn:Ex.
  - unfold spanIs in Hs. by rewrite Hs.
  - destruct Hs as (-> & -> & Hl). destruct (last_eof _ Hts) as [Htr _].
    destruct (run_elements (fun i => triviaAt (tokens_ buf) i = false) _ n Htr before (f :: rest) behind f rest (lastToken d))
      as (H1 & H2 & H3); [done..|].
    assert (Hlen : 0 < length (tokens_ buf)) by (destruct Hts as (b & e & -> & _); rewrite length_app; simpl; lia).
    rewrite rangeText by lia. rewrite (concat_filter _ (length (tokens_ buf) - 1) (f :: rest)), H2 by done.
    apply concat_filter; [done|]. intros i [_ Hi%elem_of_seq]%list_elem_of_filter. lia.
Qed.
