(* ===== verification/ParserProps.v ===== *)
(** * What the parser promises

    The properties of the parser and of the tree it builds, over every source text: together with
    the lexer it is total. *)

From Stdlib Require Import Ascii String.
From stdpp Require Import strings.
From S2P Require Import Prelude Tokens LexScan Lexer LexRun LexerProps Cst ParserState ParserParts ParserDecl ParserLogic ParserRun ParserNodes CstRepr.
#[local] Open Scope nat_scope.

(** ** From a source to its tree *)

Lemma tokenizeRange_ok source b e : fits source -> b <= e <= length source ->
  exists buf, tokenizeRange source b e = Some buf /\ tokensOk (tokens_ buf) /\
    leafText buf (length (tokens_ buf) - 1) = [].
Proof.
  intros Hs Hb. destruct (tokenizeRange_lexed source b e Hs Hb) as (buf & body & E & Hl). exists buf. split; [exact E|].
  destruct (lx_tokens _ _ _ _ _ Hl) as [f Ht]. split.
  - exists body, (mkToken e e Eof f). split_and!; [done|done|]. apply Forall_forall.
    intros t Hin. by destruct (lx_spelled _ _ _ _ _ Hl t Hin).
  - unfold leafText. rewrite Ht, length_app. simpl. rewrite Nat.add_sub, list_lookup_middle by done.
    unfold text, slice. simpl. by rewrite Nat.sub_diag.
Qed.

Lemma tokenize_ok source : fits source -> exists buf, tokenize source = Some buf /\ tokensOk (tokens_ buf) /\
  leafText buf (length (tokens_ buf) - 1) = [].
Proof.
  intros Hs. destruct (tokenizeRange_ok source 0 (length source) Hs ltac:(lia)) as (buf & E & H). exists buf.
  unfold tokenizeRange in E. by rewrite Nat.min_0_l, Nat.min_id in E.
Qed.

Lemma parse_read buf : tokensOk (tokens_ buf) ->
  exists s id n, parse buf = Some (finished s) /\ programRead buf s id n.
Proof.
  intros Hts. destruct (start_wf buf Hts) as [W Hst].
  destruct (spec_parseProgram (productions := productionsFor (parseFuel buf)) buf (startState buf) (all_calls buf) W Hst)
    as ([] & s & E & id & n & Hr).
  exists s, id, n. split; [|done]. unfold parse, runFrom. by rewrite E.
Qed.

(** What a parse of a source gives. *)
Record parsed (source : Text) (buf : TokenBuffer) (t : Tree) (id n : nat) : Prop := {
  ps_tokens : tokenize source = Some buf;
  ps_ok : tokensOk (tokens_ buf);
  ps_end : leafText buf (length (tokens_ buf) - 1) = [];
  ps_parse : parseSource source = Some t;
  ps_buf : tokenBuffer t = buf;
  ps_root : root_ t = Some id;
  ps_kind : exists d, nodes_ t !! id = Some d /\ nkind d = NK.Program;
  ps_tree : treeOk (nodes_ t) (children_ t) [NodeWord id]
    (significantBefore (tokens_ buf) (length (tokens_ buf) - 1) ++ replicate (S n) (length (tokens_ buf) - 1));
  ps_errors : Forall (fun e => seToken e < length (tokens_ buf) /\ triviaAt (tokens_ buf) (seToken e) = false) (treeErrors t);
  ps_clean : treeErrors t = [] -> Forall (fun d => nkind d <> NK.Error) (nodes_ t);
}.

Lemma source_parsed source : fits source -> exists buf t id n, parsed source buf t id n.
Proof.
  intros Hs. destruct (tokenize_ok source Hs) as (buf & E & Hts & Hend).
  destruct (parse_read buf Hts) as (s & id & n & Ep & [H1 H2 H3 H4 H5 H6]). exists buf, (finished s), id, n.
  split; try done.
  - unfold parseSource. by rewrite E.
  - simpl. by rewrite H2.
Qed.

Lemma parsed_syntax source buf t id n c x : parsed source buf t id n -> repr (nodes_ t) (children_ t) x (NodeWord c) ->
  syntaxOf (length (nodes_ t)) t (NodeWord c) = Some x.
Proof.
  intros Hp Hx. apply syntaxOf_repr; [done|]. intros id' [= <-]. destruct x as [i|k cs]; [done|].
  apply repr_inner in Hx as (id2 & d & [= <-] & Hd & _). by eapply lookup_lt_Some.
Qed.

(** The leaves of a tree from left to right. *)
Definition leaves (t : Tree) : list nat := match rootSyntax t with Some x => frontier x | None => [] end.

Lemma treeOk_root front t id d : treeOk (nodes_ t) (children_ t) [NodeWord id] front -> root_ t = Some id ->
  nodes_ t !! id = Some d -> exists cs, rootSyntax t = Some (Inner (nkind d) cs) /\ frontier (Inner (nkind d) cs) = front.
Proof.
  intros Hok Hr Hd. destruct (ok_stack _ _ _ _ Hok) as (xs & Hxs & <-).
  simpl in Hxs. apply Forall2_cons_inv_r in Hxs as (x & ys & Hx & Hys & ->). apply Forall2_nil_inv_r in Hys as ->.
  assert (Hsx : syntaxOf (length (nodes_ t)) t (NodeWord id) = Some x).
  { apply syntaxOf_repr; [done|]. intros id' [= <-]. by eapply lookup_lt_Some. }
  unfold rootSyntax. rewrite Hr. simpl. rewrite Hsx. destruct x as [i|k cs]; [done|].
  apply repr_inner in Hx as (id2 & d' & [= <-] & Hd' & Hk & _). simplify_eq. exists cs. split; [done|].
  simpl. by rewrite app_nil_r.
Qed.

Lemma parsed_root source buf t id n : parsed source buf t id n -> exists cs, rootSyntax t = Some (Inner NK.Program cs) /\
  leaves t = significantBefore (tokens_ buf) (length (tokens_ buf) - 1) ++ replicate (S n) (length (tokens_ buf) - 1).
Proof.
  intros Hp. destruct (ps_kind _ _ _ _ _ Hp) as (d & Hd & Hk).
  destruct (treeOk_root _ t id d (ps_tree _ _ _ _ _ Hp) (ps_root _ _ _ _ _ Hp) Hd) as (cs & Hr & Hf).
  rewrite Hk in *. exists cs. unfold leaves. by rewrite Hr.
Qed.

Lemma parsed_of source t : fits source -> parseSource source = Some t -> exists buf id n, parsed source buf t id n.
Proof.
  intros Hs E. destruct (source_parsed source Hs) as (buf & t' & id & n & Hp).
  pose proof (ps_parse _ _ _ _ _ Hp). simplify_eq. eauto.
Qed.

(** A program with declarations, statements, operators, a type, a comment and an error. *)
Definition program : Text :=
  T "import {a, b as c} from d // one" ++ [LF] ++ T "func f::<T>(x: T[3], y: int = 2): T {" ++ [LF] ++
  T "  let z = if x > y then g(x)[1] else -y ^ 2 ?? {k: 1}" ++ [LF] ++ T "  return z )" ++ [LF] ++ T "}".
Lemma program_fits : fits program.
Proof. vm_compute. reflexivity. Qed.
Definition programTree : Tree :=
  match parseSource program with Some t => t | None => mkTree (mkBuffer [] [] [] [] []) [] [] [] None end.
Lemma program_parse : parseSource program = Some programTree.
Proof. vm_compute. reflexivity. Qed.

(** ** Properties *)

(** C23. Parsing ends on every text and loses nothing: the tree is a program, and its leaves from
    left to right are all the tokens that are not trivia, each once and in the order of the text,
    with the token of the end behind them. Only that token may be there more than once. *)
Theorem parse_lossless source : fits source -> exists buf t cs n,
  tokenize source = Some buf /\ parseSource source = Some t /\ tokenBuffer t = buf /\
  rootSyntax t = Some (Inner NK.Program cs) /\
  leaves t = filter (fun i => triviaAt (tokens_ buf) i = false) (seq 0 (length (tokens_ buf) - 1)) ++
    replicate (S n) (length (tokens_ buf) - 1).
Proof.
  intros Hs. destruct (source_parsed source Hs) as (buf & t & id & n & Hp).
  destruct (parsed_root _ _ _ _ _ Hp) as (cs & Hr & Hl). exists buf, t, cs, n.
  split_and!; [apply Hp|apply Hp|apply Hp|done|done].
Qed.

Lemma parse_lossless_witness : exists buf t cs n,
  tokenize program = Some buf /\ parseSource program = Some t /\ tokenBuffer t = buf /\
  rootSyntax t = Some (Inner NK.Program cs) /\
  leaves t = filter (fun i => triviaAt (tokens_ buf) i = false) (seq 0 (length (tokens_ buf) - 1)) ++
    replicate (S n) (length (tokens_ buf) - 1).
Proof. exact (parse_lossless program program_fits). Defined.

(** C24. The arrays of a parsed program hold one tree. Every node can be read off them; it covers
    a run of the leaves of the program, its first and last token are the ends of that run, and it is
    marked as empty exactly when the run is. Its children lie inside the array of words; those that
    are nodes were closed before it and name it as their parent. Every node but the root has a
    parent, and is a child of it. *)
Theorem tree_wellformed source t id d : fits source -> parseSource source = Some t -> nodes_ t !! id = Some d ->
  (exists cs before behind, syntaxOf (length (nodes_ t)) t (NodeWord id) = Some (Inner (nkind d) cs) /\
     leaves t = before ++ frontier (Inner (nkind d) cs) ++ behind /\ spanIs d (frontier (Inner (nkind d) cs))) /\
  firstChild d + childCount d <= length (children_ t) /\
  (forall w, w ∈ childWords (children_ t) d -> childOf (nodes_ t) id w) /\
  (parent d = None <-> root_ t = Some id) /\
  (forall p, parent d = Some p -> id < p /\ exists dp, nodes_ t !! p = Some dp /\ NodeWord id ∈ childWords (children_ t) dp).
Proof.
  intros Hs Ht Hd. destruct (parsed_of source t Hs Ht) as (buf & root & n & Hp). pose proof (ps_tree _ _ _ _ _ Hp) as Hok.
  destruct (treeOk_infix _ _ _ _ _ _ Hok Hd) as (x & before & behind & Hx & Hfront).
  destruct (parsed_root _ _ _ _ _ Hp) as (_ & _ & Hl). pose proof (parsed_syntax _ _ _ _ _ _ _ Hp Hx) as Hsx.
  destruct x as [i|k cs]; [done|]. apply repr_inner in Hx as (id' & d' & [= <-] & Hd' & Hk & Hlen & Hspan & Hc & _).
  simplify_eq. split_and!.
  - exists cs, before, behind. by rewrite Hl.
  - done.
  - by apply Forall_forall.
  - rewrite (ps_root _ _ _ _ _ Hp). pose proof (ok_roots _ _ _ _ Hok id) as Hr.
    rewrite list_elem_of_singleton in Hr. split.
    + intros Hpar. assert (E : NodeWord id = NodeWord root) by (apply Hr; eauto). by injection E as ->.
    + intros [= ->]. destruct (proj1 Hr eq_refl) as (d2 & Hd2 & Hpar). congruence.
  - intros p Hpar. destruct (ok_parents _ _ _ _ Hok id d p Hd Hpar) as (dp & Hdp & Hin). split; [|eauto].
    destruct (ok_nodes _ _ _ _ Hok p dp Hdp) as [[i|k2 cs2] Hy]; [done|].
    apply repr_inner in Hy as (p' & dp' & [= <-] & Hdp' & _ & _ & _ & Hc2 & _). simplify_eq.
    rewrite Forall_forall in Hc2. by destruct (Hc2 _ Hin).
Qed.

(** The first node of the sample. *)
Lemma tree_wellformed_witness : exists d, nodes_ programTree !! 0 = Some d /\
  firstChild d + childCount d <= length (children_ programTree) /\ root_ programTree <> Some 0.
Proof.
  eexists. split; [vm_compute; reflexivity|].
  destruct (tree_wellformed program programTree 0 _ program_fits program_parse ltac:(vm_compute; reflexivity))
    as (_ & Hlen & _ & [_ Hroot] & _).
  split; [exact Hlen|]. intros E. specialize (Hroot E). discriminate Hroot.
Defined.

(** C25. A tree without syntax errors has no error node, so what recovery steps over is always
    reported; and every syntax error is at a token of the text that is not trivia. *)
Theorem errors_reported source t : fits source -> parseSource source = Some t ->
  (treeErrors t = [] -> forall id d, nodes_ t !! id = Some d -> nkind d <> NK.Error) /\
  (forall e, e ∈ treeErrors t -> exists tk, tokens_ (tokenBuffer t) !! seToken e = Some tk /\ isTrivia (kind tk) = false).
Proof.
  intros Hs Ht. destruct (parsed_of source t Hs Ht) as (buf & root & n & Hp). split.
  - intros E id d Hd. pose proof (ps_clean _ _ _ _ _ Hp E) as Hc. rewrite Forall_lookup in Hc. by apply (Hc id).
  - intros e He. pose proof (ps_errors _ _ _ _ _ Hp) as Her. rewrite Forall_forall in Her. destruct (Her e He) as [Hl Htr].
    rewrite (ps_buf _ _ _ _ _ Hp). destruct (lookup_lt_is_Some_2 _ _ Hl) as [tk Htk]. exists tk. split; [done|].
    unfold triviaAt in Htr. by rewrite Htk in Htr.
Qed.

(** The parenthesis of the sample is an error, and there is a node for it. *)
Lemma errors_reported_witness : length (treeErrors programTree) = 1 /\
  (treeErrors programTree = [] -> forall id d, nodes_ programTree !! id = Some d -> nkind d <> NK.Error) /\
  (forall e, e ∈ treeErrors programTree ->
     exists tk, tokens_ (tokenBuffer programTree) !! seToken e = Some tk /\ isTrivia (kind tk) = false).
Proof.
  split; [vm_compute; reflexivity|]. exact (errors_reported program programTree program_fits program_parse).
Defined.

(** C26. [Node::text] of a node of a parsed program, which runs the tokens of its span together,
    gives the texts of the leaves of the node one behind the other. *)
Theorem node_text source t id d x : fits source -> parseSource source = Some t -> nodes_ t !! id = Some d ->
  syntaxOf (length (nodes_ t)) t (NodeWord id) = Some x ->
  nodeText t id = concat (leafText (tokenBuffer t) <$> frontier x).
Proof.
  intros Hs Ht Hd Hx. destruct (parsed_of source t Hs Ht) as (buf & root & n & Hp).
  destruct (treeOk_infix _ _ _ _ _ _ (ps_tree _ _ _ _ _ Hp) Hd) as (y & before & behind & Hy & Hfront).
  pose proof (parsed_syntax _ _ _ _ _ _ _ Hp Hy) as Hsy. simplify_eq. rewrite (ps_buf _ _ _ _ _ Hp).
  destruct x as [i|k cs]; [done|]. apply repr_inner in Hy as (id' & d' & [= <-] & Hd' & Hk & _ & Hspan & _). simplify_eq.
  eapply nodeText_leaves; [apply Hp|exact Hd|apply Hp|apply Hp|exact Hspan|exact Hfront].
Qed.

(** The whole sample: its text without white space and comments. *)
Definition programRoot : nat := default 0 (root_ programTree).
Lemma node_text_witness : exists d x, nodes_ programTree !! programRoot = Some d /\
  syntaxOf (length (nodes_ programTree)) programTree (NodeWord programRoot) = Some x /\
  nodeText programTree programRoot = concat (leafText (tokenBuffer programTree) <$> frontier x).
Proof.
  eexists _, _. split; [vm_compute; reflexivity|]. split; [vm_compute; reflexivity|].
  eapply (node_text program programTree programRoot _ _ program_fits program_parse); vm_compute; reflexivity.
Defined.

(** A fact in the default of a parameter, at the end of the text. *)
Definition eofTwice : Text := T "with <a: T = () => { x > fact" ++ [LF] ++ T "f(1) }".

(** The end of the text can be in the tree twice: a declaration that is expected behind the
    parameters of a [with] takes its keyword without a look at it, and takes the end of the text in
    its place. *)
Lemma eof_twice : exists t, parseSource eofTwice = Some t /\ treeErrors t <> [] /\
  length (filter (fun i => i = length (tokens_ (tokenBuffer t)) - 1) (leaves t)) = 2.
Proof. eexists. split_and!; [vm_compute; reflexivity|vm_compute; discriminate|vm_compute; reflexivity]. Qed.

(** C27. One expression: the parse of the part of a text between two places ends, and where it
    reports nothing the tree is one node of an expression kind, under which all the tokens of that
    part are that are not trivia, each once and in order. *)
Theorem expression_tree source b e : fits source -> b <= e <= length source -> exists buf t,
  tokenizeRange source b e = Some buf /\ parseExpression buf = Some t /\
  (treeErrors t = [] -> exists k cs n, rootSyntax t = Some (Inner k cs) /\ isExprKind k = true /\
    leaves t = filter (fun i => triviaAt (tokens_ buf) i = false) (seq 0 (length (tokens_ buf) - 1)) ++
      replicate n (length (tokens_ buf) - 1)).
Proof.
  intros Hs Hb. destruct (tokenizeRange_ok source b e Hs Hb) as (buf & E & Hts & _).
  destruct (expression_read buf Hts) as (s & Es & _ & Hroot). exists buf, (finished s). split_and!; [done..|].
  intros He. destruct (Hroot He) as (id & d & n & Hst & Hd & Hk & Hok).
  destruct (treeOk_root _ (finished s) id d Hok) as (cs & Hr & Hf); [simpl; by rewrite Hst|done|].
  exists (nkind d), cs, n. unfold leaves. by rewrite Hr.
Qed.

(** The third part of a text: operators of several levels, a call, a conditional. *)
Definition expressionText : Text := T "let z = a.b(x, 1)[2] ?? if -y ^ 2 > 3 then 'v' else { w: (1,) } // ok".
Definition noBuffer : TokenBuffer := mkBuffer [] [] [] [] [].
Definition expressionBuffer : TokenBuffer := default noBuffer (tokenizeRange expressionText 8 66).
Definition expressionTree : Tree := default (mkTree noBuffer [] [] [] None) (parseExpression expressionBuffer).

Lemma expression_tree_witness : treeErrors expressionTree = [] /\ exists buf t,
  tokenizeRange expressionText 8 66 = Some buf /\ parseExpression buf = Some t /\
  (treeErrors t = [] -> exists k cs n, rootSyntax t = Some (Inner k cs) /\ isExprKind k = true /\
    leaves t = filter (fun i => triviaAt (tokens_ buf) i = false) (seq 0 (length (tokens_ buf) - 1)) ++
      replicate n (length (tokens_ buf) - 1)).
Proof.
  split; [vm_compute; reflexivity|]. apply (expression_tree expressionText 8 66); [vm_compute; reflexivity|].
  replace (length expressionText) with 69 by (vm_compute; reflexivity). lia.
Defined.

(** ** Readings that differ from their description *)

Definition errorsOf (source : Text) : option (list (SyntaxErrorKind * nat)) :=
  t ← parseSource source; Some ((fun e => (seKind e, seToken e)) <$> treeErrors t).

(** A function type among the parameters of a lambda may leave a type out, among those of a
    function it may not. *)
Lemma lambda_types_untyped :
  errorsOf (T "let g = (f: (x: int, y) => int) => f(1, 2)") = Some [] /\
  errorsOf (T "func g(f: (x: int, y) => int): int { 1 }") = Some [(Missing, 11)].
Proof. split; vm_compute; reflexivity. Qed.

(** [typeof] a name is no head of a shape comprehension, a name with a dimension is. *)
Lemma typeof_no_head :
  errorsOf (T "let x = typeof a { static for n, F in fields T => 1 }") = Some [(Unexpected, 3)] /\
  errorsOf (T "let x = T[3] { static for n, F in fields T => 1 }") = Some [].
Proof. split; vm_compute; reflexivity. Qed.
