(* ===== verification/ObjHeader.v ===== *)
(** * Words of memory and the header of an object

    src/include/camel/core/mm/alloc/header.h, as the release build lays it out: a header is one
    64-bit word of bit fields. [Mem] is the memory the allocators hand out: words of eight bytes
    by address, a word outside of it cannot be read or written. *)

From Stdlib Require Import ZifyBool.
From stdpp Require Import gmap.
From S2P Require Import Prelude.
#[local] Open Scope Z_scope.

(** ** Bit fields *)

Definition bits (lo n w : Z) : Z := Z.land (Z.shiftr w lo) (Z.ones n).

Definition setBits (lo n w v : Z) : Z :=
  Z.lor (Z.land w (Z.lnot (Z.shiftl (Z.ones n) lo))) (Z.shiftl (Z.land v (Z.ones n)) lo).

Lemma testbit_bits lo n w i : 0 <= lo -> 0 <= n -> 0 <= i ->
  Z.testbit (bits lo n w) i = (i <? n) && Z.testbit w (i + lo).
Proof.
  intros. unfold bits. rewrite Z.land_spec, Z.shiftr_spec, Z.testbit_ones_nonneg by lia. apply andb_comm.
Qed.

Lemma testbit_setBits lo n w v i : 0 <= lo -> 0 <= n -> 0 <= i ->
  Z.testbit (setBits lo n w v) i = if (lo <=? i) && (i <? lo + n) then Z.testbit v (i - lo) else Z.testbit w i.
Proof.
  intros. unfold setBits. rewrite Z.lor_spec, Z.land_spec, Z.lnot_spec, !Z.shiftl_spec by lia.
  destruct (Z.leb_spec lo i); simpl.
  - rewrite Z.land_spec, !Z.testbit_ones_nonneg by lia. replace (i - lo <? n) with (i <? lo + n) by lia.
    destruct (i <? lo + n); simpl; by rewrite ?andb_false_r, ?andb_true_r, ?orb_false_r.
  - rewrite !(Z.testbit_neg_r _ (i - lo)) by lia. simpl. by rewrite andb_true_r, orb_false_r.
Qed.

Lemma bits_range lo n w : 0 <= n -> 0 <= bits lo n w < 2 ^ n.
Proof. intros. unfold bits. rewrite Z.land_ones by lia. apply Z.mod_pos_bound, Z.pow_pos_nonneg; lia. Qed.

Lemma bits_set_same lo n w v : 0 <= lo -> 0 <= n -> 0 <= v < 2 ^ n -> bits lo n (setBits lo n w v) = v.
Proof.
  intros. apply Z.bits_inj'. intros i Hi. rewrite testbit_bits, testbit_setBits by lia.
  replace (i + lo - lo) with i by lia. destruct (Z.ltb_spec i n); simpl.
  - replace (lo <=? i + lo) with true by lia. replace (i + lo <? lo + n) with true by lia. done.
  - rewrite <- (Z.mod_small v (2 ^ n)) by lia. by rewrite Z.mod_pow2_bits_high by lia.
Qed.

Lemma bits_set_other lo n lo' n' w v : 0 <= lo -> 0 <= n -> 0 <= lo' -> 0 <= n' -> lo + n <= lo' \/ lo' + n' <= lo ->
  bits lo' n' (setBits lo n w v) = bits lo' n' w.
Proof.
  intros. apply Z.bits_inj'. intros i Hi. rewrite !testbit_bits, testbit_setBits by lia.
  destruct (Z.ltb_spec i n'); simpl; [|done].
  destruct (Z.leb_spec lo (i + lo')), (Z.ltb_spec (i + lo') (lo + n)); simpl; try done; lia.
Qed.

Lemma bits_0 lo n : 0 <= lo -> bits lo n 0 = 0.
Proof. intros. unfold bits. by rewrite Z.shiftr_0_l. Qed.

Lemma bits_small n w : 0 <= w < 2 ^ n -> bits 0 n w = w.
Proof.
  intros. destruct (Z.le_gt_cases 0 n); [|rewrite Z.pow_neg_r in *; lia].
  unfold bits. rewrite Z.shiftr_0_r, Z.land_ones by lia. by apply Z.mod_small.
Qed.

Lemma bits_above lo n w : 0 <= lo -> 0 <= n -> 0 <= w < 2 ^ lo -> bits lo n w = 0.
Proof. intros. unfold bits. rewrite Z.shiftr_div_pow2, Z.div_small by lia. apply Z.land_0_l. Qed.

(** ** The fields of a header *)

Definition kHeaderBytes : Z := 8.

Definition total_ (w : Z) : Z := bits 0 48 w.
Definition age_ (w : Z) : Z := bits 48 4 w.
Definition marked_ (w : Z) : Z := bits 52 1 w.
Definition state_ (w : Z) : Z := bits 53 1 w.
Definition region_ (w : Z) : Z := bits 54 4 w.
Definition reserved_ (w : Z) : Z := bits 58 6 w.

(** [ObjectHeader(size)], as [installHeader] calls it. *)
Definition ObjectHeader (size : Z) : Z :=
  setBits 54 4 (setBits 48 4 (setBits 0 48 0 (Z.land size 0xFFFFFFFFFFFF)) 0) 0.

Definition marked (w : Z) : bool := marked_ w =? 1.
Definition forwarded (w : Z) : bool := state_ w =? 1.
Definition age (w : Z) : Z := age_ w.
Definition region (w : Z) : Z := region_ w.

Definition size (w : Z) : option Z := GUARD state_ w =? 0;; Some (total_ w).
Definition objSize (w : Z) : option Z := GUARD state_ w =? 0;; Some (total_ w - kHeaderBytes).

Definition setSize (w n : Z) : option Z :=
  GUARD n <=? 0xFFFFFFFFFFFF;;
  GUARD kHeaderBytes <=? n;;
  Some (setBits 53 1 (setBits 0 48 w (Z.land n 0xFFFFFFFFFFFF)) 0).

Definition incAge (w : Z) : Z := if age_ w <? 15 then setBits 48 4 w (age_ w + 1) else w.
Definition setAge (w a : Z) : option Z := GUARD a <=? 15;; Some (setBits 48 4 w a).
Definition resetAge (w : Z) : Z := setBits 48 4 w 0.
Definition mark (w : Z) : Z := setBits 52 1 w 1.
Definition unmark (w : Z) : Z := setBits 52 1 w 0.

Definition forward (w addr : Z) : option Z :=
  GUARD negb (addr =? 0);;
  GUARD (Z.land addr 0xFFFF000000000000 =? 0) || (Z.land addr 0xFFFF000000000000 =? 0xFFFF000000000000);;
  Some (setBits 53 1 (setBits 0 48 w (Z.land addr 0xFFFFFFFFFFFF)) 1).

Definition setRegion (w rid : Z) : option Z := GUARD rid <=? 15;; Some (setBits 54 4 w (Z.land rid 15)).

Definition forwardedAddr (w : Z) : option Z :=
  GUARD state_ w =? 1;;
  Some (if Z.land (total_ w) 0x800000000000 =? 0 then total_ w else Z.lor (total_ w) 0xFFFF000000000000).

Definition isValid (w : Z) : bool :=
  negb (1 <? state_ w) && negb ((state_ w =? 1) && (total_ w =? 0)) &&
  negb ((state_ w =? 0) && (total_ w <? kHeaderBytes)) && negb (15 <? region_ w).

#[global] Arguments size : simpl never.
#[global] Arguments objSize : simpl never.
#[global] Arguments ObjectHeader : simpl never.
#[global] Arguments forward : simpl never.
#[global] Arguments forwardedAddr : simpl never.

(** ** What the operations do to the fields *)

Ltac fields :=
  unfold total_, age_, marked_, state_, region_, reserved_ in *;
  repeat first [ rewrite bits_set_same by lia | rewrite bits_set_other by lia | rewrite bits_0 by lia ].

Lemma land_low48 n : 0 <= n < 2 ^ 48 -> Z.land n 0xFFFFFFFFFFFF = n.
Proof. intros. change 0xFFFFFFFFFFFF with (Z.ones 48). rewrite Z.land_ones by lia. by apply Z.mod_small. Qed.

Lemma ObjectHeader_fields n : 0 <= n < 2 ^ 48 ->
  total_ (ObjectHeader n) = n /\ age_ (ObjectHeader n) = 0 /\ marked_ (ObjectHeader n) = 0 /\
  state_ (ObjectHeader n) = 0 /\ region_ (ObjectHeader n) = 0.
Proof. intros. unfold ObjectHeader. rewrite land_low48 by done. fields. done. Qed.

Lemma size_ObjectHeader n : 0 <= n < 2 ^ 48 -> size (ObjectHeader n) = Some n.
Proof. intros H. unfold size. destruct (ObjectHeader_fields n H) as (-> & _ & _ & -> & _). done. Qed.

(** The other fields are as they were. *)
Lemma incAge_fields w : total_ (incAge w) = total_ w /\ state_ (incAge w) = state_ w /\
  marked_ (incAge w) = marked_ w /\ region_ (incAge w) = region_ w /\ age_ (incAge w) = Z.min 15 (age_ w + 1).
Proof.
  unfold incAge. pose proof (bits_range 48 4 w ltac:(lia)) as Hr. fold (age_ w) in Hr. simpl in Hr.
  destruct (Z.ltb_spec (age_ w) 15); [|split_and!; try done; lia].
  pose proof (bits_set_same 48 4 w (age_ w + 1) ltac:(lia) ltac:(lia) ltac:(lia)) as E.
  unfold total_, state_, marked_, region_. rewrite !bits_set_other by lia. split_and!; try done.
  unfold age_ at 1. rewrite E. lia.
Qed.

Lemma mark_fields w : marked (mark w) = true /\ total_ (mark w) = total_ w /\ state_ (mark w) = state_ w /\
  region_ (mark w) = region_ w /\ age_ (mark w) = age_ w.
Proof. unfold mark, marked. fields. done. Qed.
Lemma unmark_fields w : marked (unmark w) = false /\ total_ (unmark w) = total_ w /\ state_ (unmark w) = state_ w /\
  region_ (unmark w) = region_ w /\ age_ (unmark w) = age_ w.
Proof. unfold unmark, marked. fields. done. Qed.

(** An address of the lower half of a 48-bit address space. *)
Definition lowAddr (a : Z) : Prop := 0 < a < 2 ^ 47.

Lemma forward_low w a : lowAddr a -> exists w', forward w a = Some w' /\ forwarded w' = true /\
  forwardedAddr w' = Some a /\ age_ w' = age_ w /\ marked_ w' = marked_ w /\ region_ w' = region_ w /\ total_ w' = a.
Proof.
  intros [Ha1 Ha2]. unfold forward. rewrite guarded_true by lia.
  assert (Hhi : Z.land a 0xFFFF000000000000 = 0).
  { change 0xFFFF000000000000 with (Z.shiftl (Z.ones 16) 48). apply Z.bits_inj'. intros i Hi.
    rewrite Z.land_spec, Z.shiftl_spec, Z.bits_0 by lia. destruct (Z.lt_ge_cases i 48).
    - rewrite (Z.testbit_neg_r _ (i - 48)) by lia. apply andb_false_r.
    - rewrite <- (Z.mod_small a (2 ^ 48)) by lia. rewrite Z.mod_pow2_bits_high by lia. done. }
  rewrite Hhi. rewrite guarded_true by done. eexists. split; [done|]. rewrite land_low48 by lia.
  assert (Ht : total_ (setBits 53 1 (setBits 0 48 w a) 1) = a) by (fields; done).
  assert (Hs : state_ (setBits 53 1 (setBits 0 48 w a) 1) = 1) by (fields; done).
  split_and!; try (fields; done).
  - unfold forwarded. by rewrite Hs.
  - unfold forwardedAddr. rewrite Hs, guarded_true, Ht by done.
    replace (Z.land a 0x800000000000) with 0; [done|].
    symmetry. change 0x800000000000 with (Z.shiftl (Z.ones 1) 47). apply Z.bits_inj'. intros i Hi.
    rewrite Z.land_spec, Z.shiftl_spec, Z.bits_0 by lia. destruct (Z.lt_ge_cases i 47).
    + rewrite (Z.testbit_neg_r _ (i - 47)) by lia. apply andb_false_r.
    + rewrite <- (Z.mod_small a (2 ^ 47)) by lia. by rewrite Z.mod_pow2_bits_high by lia.
Qed.

(** ** Memory *)

Abbreviation Mem := (gmap Z Z).

Definition load (m : Mem) (a : Z) : option Z := m !! a.
Definition store (m : Mem) (a v : Z) : option Mem :=
  match m !! a with Some _ => Some (<[a := v]> m) | None => None end.

(** [alignUp] on [size_t]. *)
Definition u64 (n : Z) : Z := n mod 2 ^ 64.
Definition alignUp (n align : Z) : Z := Z.land (u64 (n + align - 1)) (u64 (Z.lnot (align - 1))).
Definition kSlot : Z := 8.

Lemma alignUp_8 n : 0 <= n < 2 ^ 64 - 7 -> alignUp n kSlot = (n + 7) / 8 * 8.
Proof.
  intros. unfold alignUp, kSlot, u64. rewrite (Z.mod_small (n + 8 - 1)) by lia.
  change (Z.lnot (8 - 1) mod 2 ^ 64) with (Z.shiftl (Z.ones 61) 3).
  replace (n + 8 - 1) with (n + 7) by lia.
  rewrite <- (Z.shiftr_div_pow2 _ 3), <- (Z.shiftl_mul_pow2 _ 3) by lia.
  apply Z.bits_inj'. intros i Hi. rewrite Z.land_spec, !Z.shiftl_spec by lia. destruct (Z.lt_ge_cases i 3).
  - rewrite !(Z.testbit_neg_r _ (i - 3)) by lia. apply andb_false_r.
  - rewrite Z.shiftr_spec by lia. replace (i - 3 + 3) with i by lia. rewrite Z.testbit_ones_nonneg by lia.
    destruct (Z.ltb_spec (i - 3) 61); [by rewrite andb_true_r|]. rewrite andb_false_r. symmetry.
    rewrite <- (Z.mod_small (n + 7) (2 ^ 64)) by lia. by rewrite Z.mod_pow2_bits_high by lia.
Qed.
