(* ===== verification/FreeList.v ===== *)
(** * The free-list allocator

    [FreeListAllocator] of src/include/camel/core/mm/alloc/free_list.h over the memory of
    ObjHeader.v: one arena, whose free blocks are linked in address order through their own first
    two words. A function takes the allocator and the memory and gives them back; [None] is a
    [GUARD] that stops the process, an exception, or an access outside of the memory. A walk over
    the list has fuel for one free block per word of the arena. The blocks that hold objects
    begin with a header, and so a null pointer is the address 0. *)

From stdpp Require Import gmap.
From S2P Require Import Prelude ObjHeader.
#[local] Open Scope Z_scope.

Record FreeListAllocator := mkFreeList {
  start_ : Z;
  end_ : Z;
  freeList_ : Z;
  allocatedSizes_ : gmap Z Z;
  sizesFromHeaders_ : bool;
}.

(** [FreeBlock]: its size and the next free block, at the address of the block. *)
Definition kFreeBlockBytes : Z := 16.
Definition blockSize (m : Mem) (b : Z) : option Z := load m b.
Definition blockNext (m : Mem) (b : Z) : option Z := load m (b + 8).
Definition setBlock (m : Mem) (b n next : Z) : option Mem := m ← store m b n; store m (b + 8) next.

(** Where a pointer to a free block is kept: [&freeList_] or [&block->next]. *)
Inductive Link := Head | NextOf (b : Z).
Definition linkAfter (prev : Z) : Link := if prev =? 0 then Head else NextOf prev.

Definition setHead (h : Z) (fa : FreeListAllocator) : FreeListAllocator :=
  mkFreeList (start_ fa) (end_ fa) h (allocatedSizes_ fa) (sizesFromHeaders_ fa).
Definition setSizes (t : gmap Z Z) (fa : FreeListAllocator) : FreeListAllocator :=
  mkFreeList (start_ fa) (end_ fa) (freeList_ fa) t (sizesFromHeaders_ fa).

Definition setLink (fa : FreeListAllocator) (m : Mem) (l : Link) (b : Z) : option (FreeListAllocator * Mem) :=
  match l with
  | Head => Some (setHead b fa, m)
  | NextOf p => m ← store m (p + 8) b; Some (fa, m)
  end.

Definition walkFuel (fa : FreeListAllocator) : nat := S (Z.to_nat ((end_ fa - start_ fa) / 8)).

(** The constructor, over a buffer of the host at [start]. *)
Definition create (capacity start : Z) (sizesFromHeaders : bool) (m : Mem) : option (FreeListAllocator * Mem) :=
  let aligned := alignUp capacity kSlot in
  m ← setBlock m start aligned 0;
  Some (mkFreeList start (start + aligned) start ∅ sizesFromHeaders, m).

(** ** Allocation *)

(** The first free block of [total] bytes or more, and where the pointer to it is kept. *)
Fixpoint findFit (fuel : nat) (m : Mem) (total : Z) (prevPtr : Link) (curr : Z) : option (option (Link * Z)) :=
  if curr =? 0 then Some None
  else
    match fuel with
    | O => None
    | S fuel =>
        n ← blockSize m curr;
        GUARD kFreeBlockBytes <=? n;;
        GUARD n mod 8 =? 0;;
        if total <=? n then Some (Some (prevPtr, curr))
        else next ← blockNext m curr; findFit fuel m total (NextOf curr) next
    end.

(** The rest of the turn that found a block: its front is handed out, or all of it. *)
Definition takeBlock (fa : FreeListAllocator) (m : Mem) (total : Z) (prevPtr : Link) (curr : Z) :
    option (Z * FreeListAllocator * Mem) :=
  next ← blockNext m curr;
  n ← blockSize m curr;
  let remaining := n - total in
  let split := kFreeBlockBytes <=? remaining in
  let allocSize := if split then total else n in
  m ← store m curr (ObjectHeader allocSize);
  '(fa, m) ← (if split
              then m ← setBlock m (curr + total) remaining next; setLink fa m prevPtr (curr + total)
              else setLink fa m prevPtr next);
  let payload := curr + kHeaderBytes in
  Some (payload,
        if sizesFromHeaders_ fa then fa else setSizes (<[payload := allocSize]> (allocatedSizes_ fa)) fa, m).

Definition alloc (fa : FreeListAllocator) (m : Mem) (size : Z) : option (Z * FreeListAllocator * Mem) :=
  let total := alignUp (u64 (kHeaderBytes + size)) kSlot in
  found ← findFit (walkFuel fa) m total Head (freeList_ fa);
  match found with
  | None => Some (0, fa, m)
  | Some (prevPtr, curr) => takeBlock fa m total prevPtr curr
  end.

(** ** Release *)

(** The free block in front of [blockData] and the one behind it, from [prev] on. *)
Fixpoint findPlace (fuel : nat) (m : Mem) (blockData prev curr : Z) : option (Z * Z) :=
  if (curr =? 0) || (blockData <=? curr) then Some (prev, curr)
  else
    match fuel with
    | O => None
    | S fuel => next ← blockNext m curr; findPlace fuel m blockData curr next
    end.

Definition insertAndCoalesce (fa : FreeListAllocator) (m : Mem) (blockData total from : Z) :
    option (Z * FreeListAllocator * Mem) :=
  GUARD kFreeBlockBytes <=? total;;
  GUARD (start_ fa <=? blockData) && (blockData + total <=? end_ fa);;
  GUARD (from =? 0) || (from <? blockData);;
  first ← (if from =? 0 then Some (freeList_ fa) else blockNext m from);
  '(prev, curr) ← findPlace (walkFuel fa) m blockData from first;
  (* Check whether we can merge with the next block. *)
  '(total, curr) ← (if negb (curr =? 0) && (blockData + total =? curr)
                    then n ← blockSize m curr; next ← blockNext m curr; Some (total + n, next)
                    else Some (total, curr));
  (* Check whether we can merge with the previous block. *)
  prevEnd ← (if prev =? 0 then Some 0 else n ← blockSize m prev; Some (prev + n));
  if negb (prev =? 0) && (prevEnd =? blockData)
  then n ← blockSize m prev; m ← setBlock m prev (n + total) curr; Some (prev, fa, m)
  else
    m ← setBlock m blockData total curr;
    '(fa, m) ← setLink fa m (linkAfter prev) blockData;
    Some (blockData, fa, m).

(** The size of a block that is released: from its header, or from the table, which forgets it. *)
Definition releasedSize (fa : FreeListAllocator) (m : Mem) (ptr : Z) : option (Z * FreeListAllocator) :=
  if sizesFromHeaders_ fa then h ← load m (ptr - kHeaderBytes); n ← size h; Some (n, fa)
  else n ← allocatedSizes_ fa !! ptr; Some (n, setSizes (delete ptr (allocatedSizes_ fa)) fa).

(** The checks on a block that is released. *)
Definition releasable (fa : FreeListAllocator) (blockData total : Z) : bool :=
  (total mod 8 =? 0) && (kHeaderBytes <=? total) &&
  ((start_ fa <=? blockData) && (blockData <? end_ fa)) && (blockData + total <=? end_ fa).

Definition free (fa : FreeListAllocator) (m : Mem) (ptr : Z) : option (FreeListAllocator * Mem) :=
  if ptr =? 0 then Some (fa, m)
  else
    '(total, fa) ← releasedSize fa m ptr;
    let blockData := ptr - kHeaderBytes in
    GUARD releasable fa blockData total;;
    '(_, fa, m) ← insertAndCoalesce fa m blockData total 0;
    Some (fa, m).

(** The first loop of [freeBulk]: addresses and sizes. *)
Fixpoint bulkBlocks (fa : FreeListAllocator) (m : Mem) (objects : list Z) : option (list (Z * Z) * FreeListAllocator) :=
  match objects with
  | [] => Some ([], fa)
  | hdr :: objects =>
      '(n, fa) ← releasedSize fa m (hdr + kHeaderBytes);
      GUARD releasable fa hdr n;;
      '(blocks, fa) ← bulkBlocks fa m objects;
      Some ((hdr, n) :: blocks, fa)
  end.

(** Neighbours in the sorted order do not overlap and are not the same block. *)
Fixpoint bulkApart (blocks : list (Z * Z)) : bool :=
  match blocks with
  | (a, n) :: ((b, _) :: _) as rest => negb (a =? b) && (a + n <=? b) && bulkApart rest
  | _ => true
  end.

Fixpoint insertBulk (fa : FreeListAllocator) (m : Mem) (resumeAt : Z) (blocks : list (Z * Z)) :
    option (FreeListAllocator * Mem) :=
  match blocks with
  | [] => Some (fa, m)
  | (a, n) :: blocks => '(resumeAt, fa, m) ← insertAndCoalesce fa m a n resumeAt; insertBulk fa m resumeAt blocks
  end.

Definition freeBulk (fa : FreeListAllocator) (m : Mem) (objects : list Z) : option (FreeListAllocator * Mem) :=
  match objects with
  | [] => Some (fa, m)
  | _ =>
      '(blocks, fa) ← bulkBlocks fa m objects;
      let blocks := sortBy (fun b => Z.to_nat b.1) blocks in
      GUARD bulkApart blocks;;
      insertBulk fa m 0 blocks
  end.

(** ** The other members *)

Definition isAllocated (fa : FreeListAllocator) (payload : Z) : option bool :=
  GUARD negb (sizesFromHeaders_ fa);; Some (bool_decide (is_Some (allocatedSizes_ fa !! payload))).

Definition reset (fa : FreeListAllocator) (m : Mem) : option (FreeListAllocator * Mem) :=
  m ← setBlock m (start_ fa) (end_ fa - start_ fa) 0;
  Some (setSizes ∅ (setHead (start_ fa) fa), m).

Fixpoint availableFrom (fuel : nat) (m : Mem) (curr : Z) (visited : gset Z) (total : Z) : option Z :=
  if curr =? 0 then Some total
  else
    match fuel with
    | O => None
    | S fuel =>
        GUARD bool_decide (curr ∉ visited);;
        n ← blockSize m curr;
        GUARD kFreeBlockBytes <=? n;;
        next ← blockNext m curr;
        availableFrom fuel m next ({[curr]} ∪ visited) (total + n)
    end.
Definition available (fa : FreeListAllocator) (m : Mem) : option Z := availableFrom (walkFuel fa) m (freeList_ fa) ∅ 0.

Definition contains (fa : FreeListAllocator) (ptr : Z) : bool := (start_ fa <=? ptr) && (ptr <? end_ fa).

(** The addresses of the headers [iterateAllocated] visits. *)
Fixpoint iterateFrom (fuel : nat) (fa : FreeListAllocator) (m : Mem) (current fb : Z) : option (list Z) :=
  if current <? end_ fa then
    match fuel with
    | O => None
    | S fuel =>
        if negb (fb =? 0) && (fb =? current) then
          n ← blockSize m fb;
          GUARD kFreeBlockBytes <=? n;;
          GUARD n mod 8 =? 0;;
          GUARD current + n <=? end_ fa;;
          next ← blockNext m fb;
          iterateFrom fuel fa m (current + n) next
        else
          GUARD (fb =? 0) || (current <? fb);;
          h ← load m current;
          n ← size h;
          GUARD kHeaderBytes <=? n;;
          GUARD n mod 8 =? 0;;
          GUARD current + n <=? end_ fa;;
          GUARD (fb =? 0) || (current + n <=? fb);;
          rest ← iterateFrom fuel fa m (current + n) fb;
          Some (current :: rest)
    end
  else GUARD (current =? end_ fa) && (fb =? 0);; Some [].
Definition iterateAllocated (fa : FreeListAllocator) (m : Mem) : option (list Z) :=
  iterateFrom (walkFuel fa) fa m (start_ fa) (freeList_ fa).

(** ** The check of the structure *)

(** Sums of addresses and sizes wrap around at 64 bits here, since the sizes are what the words of
    the arena say. *)

(** The first step of [validate]: the free list; the bytes it holds, or [None] inside for a list
    that is not in order. *)
Fixpoint validateList (fuel : nat) (fa : FreeListAllocator) (m : Mem) (curr : Z) (seen : gset Z)
    (prev : option (Z * Z)) (total : Z) : option (option Z) :=
  if curr =? 0 then Some (Some total)
  else
    match fuel with
    | O => None
    | S fuel =>
        if bool_decide (curr ∈ seen) then Some None
        else if (curr <? start_ fa) || (end_ fa <=? curr) then Some None
        else
          n ← blockSize m curr;
          if (end_ fa <? u64 (curr + n)) || (n <? kFreeBlockBytes) || negb (n mod 8 =? 0) then Some None
          else if match prev with Some (a, l) => (curr <=? a) || (curr <=? u64 (a + l)) | None => false end then Some None
          else
            next ← blockNext m curr;
            validateList fuel fa m next ({[curr]} ∪ seen) (Some (curr, n)) (u64 (total + n))
    end.

(** The second and third step: the scan of the arena, with the bytes in objects. *)
Fixpoint validateArena (fuel : nat) (fa : FreeListAllocator) (m : Mem) (scan expected allocated free : Z) : option bool :=
  if scan <? end_ fa then
    match fuel with
    | O => None
    | S fuel =>
        if negb (expected =? 0) && (expected =? scan) then
          if (expected <? start_ fa) || (end_ fa <=? expected) then Some false
          else
            n ← blockSize m expected;
            next ← blockNext m expected;
            validateArena fuel fa m (u64 (scan + n)) next allocated free
        else if negb (expected =? 0) && (expected <? scan) then Some false
        else
          h ← load m scan;
          n ← size h;
          if (n <? kHeaderBytes) || negb (n mod 8 =? 0) || (end_ fa <? u64 (scan + n)) then Some false
          else if negb (expected =? 0) && (expected <? u64 (scan + n)) then Some false
          else validateArena fuel fa m (u64 (scan + n)) expected (u64 (allocated + n)) free
    end
  else Some ((scan =? end_ fa) && (expected =? 0) && (u64 (free + allocated) =? end_ fa - start_ fa)).

(** The scan steps back where a size wraps around, and then once for each listed block at most. *)
Definition validate (fa : FreeListAllocator) (m : Mem) : option bool :=
  listed ← validateList (walkFuel fa) fa m (freeList_ fa) ∅ None 0;
  match listed with
  | None => Some false
  | Some total => validateArena (walkFuel fa * walkFuel fa) fa m (start_ fa) (freeList_ fa) 0 total
  end.
