(* ===== verification/FreeListInv.v ===== *)
(** * The arena of a free list

    What the words of an arena stand for: a sequence of blocks that fill it from end to end, free
    and used ([tiled]). The free list is the free ones among them, in order, and no two of them
    are neighbours. The functions of FreeList.v are specified by what they do to this sequence. *)

From stdpp Require Import gmap.
From S2P Require Import Prelude ObjHeader FreeList.
#[local] Open Scope Z_scope.

(** ** Sequences of blocks *)

Inductive Block := Free (n : Z) | Used (n : Z).

Definition blen (b : Block) : Z := match b with Free n | Used n => n end.
Definition len (L : list Block) : Z := foldr (fun b s => blen b + s) 0 L.
#[global] Arguments len : simpl never.

(** The blocks with their addresses. *)
Fixpoint blocksAt (a : Z) (L : list Block) : list (Z * Block) :=
  match L with [] => [] | b :: L => (a, b) :: blocksAt (a + blen b) L end.

(** The address of the last free block, or [d]. *)
Fixpoint lastFree (d a : Z) (L : list Block) : Z :=
  match L with
  | [] => d
  | Free n :: L => lastFree a (a + n) L
  | Used n :: L => lastFree d (a + n) L
  end.

Definition isFree (b : Block) : bool := match b with Free _ => true | Used _ => false end.

(** No two free blocks are neighbours. *)
Fixpoint merged (L : list Block) : Prop :=
  match L with
  | Free _ :: (Free _ :: _) => False
  | _ :: L => merged L
  | [] => True
  end.

(** Neighbouring free blocks made one. *)
Fixpoint merge (L : list Block) : list Block :=
  match L with
  | [] => []
  | Used n :: L => Used n :: merge L
  | Free n :: L => match merge L with Free k :: L => Free (n + k) :: L | L => Free n :: L end
  end.

Definition freeBytes (L : list Block) : Z := foldr (fun b s => (if isFree b then blen b else 0) + s) 0 L.
Definition usedBytes (L : list Block) : Z := foldr (fun b s => (if isFree b then 0 else blen b) + s) 0 L.

(** ** The blocks of a stretch of memory *)

(** The words from [a] on are headers and free blocks for [L]; [fb] is the first free block from
    there on, and [fb'] the first one behind [L]. *)
Fixpoint seg (m : Mem) (a fb : Z) (L : list Block) (fb' : Z) : Prop :=
  match L with
  | [] => fb = fb'
  | Free n :: L =>
      fb = a /\ kFreeBlockBytes <= n /\ n mod 8 = 0 /\ m !! a = Some n /\
      exists next, m !! (a + 8) = Some next /\ seg m (a + n) next L fb'
  | Used n :: L =>
      kHeaderBytes <= n /\ n mod 8 = 0 /\ (exists h, m !! a = Some h /\ size h = Some n) /\ seg m (a + n) fb L fb'
  end.

(** The words of an arena. *)
Definition backed (m : Mem) (s e : Z) : Prop := forall x, s <= x < e -> x mod 8 = 0 -> is_Some (m !! x).

Record tiled (fa : FreeListAllocator) (m : Mem) (L : list Block) : Prop := {
  ti_start : 0 < start_ fa /\ start_ fa mod 8 = 0;
  ti_end : start_ fa + len L = end_ fa;
  ti_small : len L < 2 ^ 48;
  ti_seg : seg m (start_ fa) (freeList_ fa) L 0;
  ti_merged : merged L;
  ti_backed : backed m (start_ fa) (end_ fa);
}.

(** The table of sizes, where it is kept, is that of the used blocks. *)
Definition tabled (fa : FreeListAllocator) (L : list Block) : Prop :=
  sizesFromHeaders_ fa = false ->
  forall p n, allocatedSizes_ fa !! p = Some n <-> (p - kHeaderBytes, Used n) ∈ blocksAt (start_ fa) L.

(** Two memories agree on the used blocks. *)
Definition keepsUsed (a : Z) (L : list Block) (m m' : Mem) : Prop :=
  forall p n x, (p, Used n) ∈ blocksAt a L -> p <= x < p + n -> m' !! x = m !! x.

(** ** Facts of sequences *)

Lemma len_app L1 L2 : len (L1 ++ L2) = len L1 + len L2.
Proof. unfold len. induction L1; simpl; lia. Qed.
Lemma len_cons b L : len (b :: L) = blen b + len L.
Proof. done. Qed.
Lemma len_nil : len [] = 0.
Proof. done. Qed.
Create Rewrite HintDb blocks.
#[export] Hint Rewrite len_app len_cons len_nil : blocks.
Ltac lens := repeat (progress (autorewrite with blocks in *; simpl blen in * )); try lia.

Lemma blocksAt_app a L1 L2 : blocksAt a (L1 ++ L2) = blocksAt a L1 ++ blocksAt (a + len L1) L2.
Proof.
  revert a. induction L1 as [|b L1 IH]; intros a; simpl; [by rewrite len_nil, Z.add_0_r|].
  rewrite IH, len_cons. do 3 f_equal. lia.
Qed.

Lemma blocksAt_split a L x b : (x, b) ∈ blocksAt a L -> exists L1 L2, L = L1 ++ b :: L2 /\ x = a + len L1.
Proof.
  revert a. induction L as [|c L IH]; simpl; intros a Hin; [by apply elem_of_nil in Hin|].
  apply elem_of_cons in Hin as [[= -> ->]|Hin].
  - exists [], L. split; [done|]. lens.
  - destruct (IH _ Hin) as (L1 & L2 & -> & ->). exists (c :: L1), L2. split; [done|]. rewrite len_cons. lia.
Qed.
Lemma blocksAt_middle a L1 b L2 : (a + len L1, b) ∈ blocksAt a (L1 ++ b :: L2).
Proof. rewrite blocksAt_app. simpl. rewrite elem_of_app, elem_of_cons. auto. Qed.

Lemma lastFree_app d a L1 L2 : lastFree d a (L1 ++ L2) = lastFree (lastFree d a L1) (a + len L1) L2.
Proof.
  revert d a. induction L1 as [|[n|n] L1 IH]; intros d a; simpl; [by rewrite len_nil, Z.add_0_r|..]; rewrite IH;
  f_equal; lens.
Qed.

Lemma merge_merged_id L : merged L -> merge L = L.
Proof.
  induction L as [|[n|n] L IH]; simpl; [done|..]; intros H.
  - destruct L as [|[k|k] L]; [done|done|]. by rewrite IH.
  - rewrite IH; [done|]. by destruct L.
Qed.
Lemma merge_merged L : merged (merge L).
Proof.
  induction L as [|[n|n] L IH]; simpl; [done| |done].
  destruct (merge L) as [|[k|k] L']; [done| |done]. by destruct L' as [|[]].
Qed.
Lemma merged_app_r L1 L2 : merged (L1 ++ L2) -> merged L2.
Proof. induction L1 as [|[] L1 IH]; simpl; [done|..]; intros H; apply IH; [destruct (L1 ++ L2) as [|[]]; done|done]. Qed.
Lemma merged_app_l L1 L2 : merged (L1 ++ L2) -> merged L1.
Proof.
  induction L1 as [|[n|n] L1 IH]; simpl; [done|..]; intros H.
  - destruct L1 as [|[k|k] L1]; [done|done|]. by apply IH.
  - destruct L1; [done|]. by apply IH.
Qed.
Lemma merged_used L1 n L2 : merged (L1 ++ Used n :: L2) <-> merged L1 /\ merged L2.
Proof.
  induction L1 as [|[k|k] L1 IH]; simpl.
  - by split; [|intros [_ ?]].
  - destruct L1 as [|[j|j] L1]; simpl in *; tauto.
  - exact IH.
Qed.

(** Making a block free joins it with its neighbours. *)
Definition joinNext (n : Z) (L2 : list Block) : list Block :=
  match L2 with Free k :: L2 => Free (n + k) :: L2 | _ => Free n :: L2 end.

(** Merging leaves alone what is in front of a block that is not merged with it. *)
Lemma merge_prefix L1 b L2 : merged (L1 ++ [b]) -> merge (L1 ++ b :: L2) = L1 ++ merge (b :: L2).
Proof.
  induction L1 as [|[k|k] L1 IH]; intros H; [done|..].
  - assert (H' : merged (L1 ++ [b])) by by simpl in H; destruct (L1 ++ [b]) as [|[]].
    change ((Free k :: L1) ++ b :: L2) with (Free k :: (L1 ++ b :: L2)).
    change (merge (Free k :: L1 ++ b :: L2)) with
      (match merge (L1 ++ b :: L2) with Free j :: L => Free (k + j) :: L | L => Free k :: L end).
    rewrite IH by done. destruct L1 as [|[j|j] L1]; [|done|done]. by destruct b.
  - simpl. f_equal. by apply IH.
Qed.

Lemma merge_free n L : merge (Free n :: L) = match merge L with Free k :: L => Free (n + k) :: L | L => Free n :: L end.
Proof. done. Qed.

Lemma merge_at L1 n L2 : merged L1 -> merged L2 ->
  merge (L1 ++ Free n :: L2) =
    match rev L1 with
    | Free k :: R => rev R ++ (match joinNext n L2 with Free j :: L => Free (k + j) :: L | L => L end)
    | _ => L1 ++ joinNext n L2
    end.
Proof.
  intros H1 H2.
  assert (Hj : merge (Free n :: L2) = joinNext n L2).
  { simpl. rewrite merge_merged_id by done. by destruct L2 as [|[]]. }
  destruct L1 as [|b L1 _] using rev_ind; [exact Hj|]. rewrite rev_app_distr, <- app_assoc.
  change (rev [b] ++ rev L1) with (b :: rev L1). change ([b] ++ Free n :: L2) with (b :: Free n :: L2).
  rewrite merge_prefix by done. rewrite rev_involutive. destruct b as [k|k].
  - f_equal. rewrite merge_free, Hj. unfold joinNext. by destruct L2 as [|[]].
  - rewrite <- app_assoc. apply (f_equal (fun L => L1 ++ Used k :: L)). exact Hj.
Qed.

Lemma merge_len L : len (merge L) = len L.
Proof.
  induction L as [|[n|n] L IH]; simpl; [done|..]; rewrite ?len_cons; simpl; [|lia].
  destruct (merge L) as [|[k|k] L']; rewrite ?len_cons in *; simpl in *; lia.
Qed.

Lemma merge_used a L p n : (p, Used n) ∈ blocksAt a (merge L) <-> (p, Used n) ∈ blocksAt a L.
Proof.
  revert a. induction L as [|[k|k] L IH]; intros a; simpl; [done|..].
  - rewrite elem_of_cons, <- IH.
    destruct (merge L) as [|[j|j] L']; simpl; rewrite !elem_of_cons, ?Z.add_assoc; naive_solver.
  - rewrite !elem_of_cons, IH. done.
Qed.

(** ** Facts of stretches *)

Lemma seg_app m a fb L1 L2 fb' :
  seg m a fb (L1 ++ L2) fb' <-> exists mid, seg m a fb L1 mid /\ seg m (a + len L1) mid L2 fb'.
Proof.
  revert a fb. induction L1 as [|[n|n] L1 IH]; intros a fb; simpl; rewrite ?len_nil, ?len_cons; simpl.
  - rewrite Z.add_0_r. split; [by exists fb|]. by intros (mid & <- & ?).
  - replace (a + (n + len L1)) with (a + n + len L1) by lia. split.
    + intros (-> & ? & ? & ? & next & ? & (mid & ? & ?)%IH). exists mid. split_and!; try done. by exists next.
    + intros (mid & (-> & ? & ? & ? & next & ? & ?) & ?). split_and!; try done. exists next. split; [done|].
      apply IH. by exists mid.
  - replace (a + (n + len L1)) with (a + n + len L1) by lia. split.
    + intros (? & ? & ? & (mid & ? & ?)%IH). exists mid. by split_and!.
    + intros (mid & (? & ? & ? & ?) & ?). split_and!; try done. apply IH. by exists mid.
Qed.

Lemma seg_len m a fb L fb' : seg m a fb L fb' -> 8 * Z.of_nat (length L) <= len L /\ len L mod 8 = 0.
Proof.
  revert a fb. induction L as [|[n|n] L IH]; intros a fb; [done|..]; rewrite len_cons; simpl blen; simpl length.
  - intros (_ & H1 & H2 & _ & next & _ & H). apply IH in H as [? ?]. unfold kFreeBlockBytes in *.
    split; [lia|]. by rewrite Z.add_mod, H2, H0.
  - intros (H1 & H2 & _ & H). apply IH in H as [? ?]. unfold kHeaderBytes in *.
    split; [lia|]. by rewrite Z.add_mod, H2, H0.
Qed.

Lemma seg_nonneg m a fb L fb' : seg m a fb L fb' -> 0 <= len L.
Proof. intros [? _]%seg_len. lia. Qed.

Lemma seg_frame m m' a fb L fb' : (forall x, a <= x < a + len L -> m' !! x = m !! x) ->
  seg m a fb L fb' -> seg m' a fb L fb'.
Proof.
  revert a fb. induction L as [|[n|n] L IH]; intros a fb Hm; [done|..]; rewrite len_cons in Hm; simpl blen in Hm; simpl.
  - intros (-> & Hn & ? & ? & next & ? & H). unfold kFreeBlockBytes in *.
    pose proof (seg_nonneg _ _ _ _ _ H). rewrite !Hm by lia. split_and!; try done. exists next. split; [done|].
    apply IH; [|done]. intros x Hx. apply Hm. lia.
  - intros (Hn & ? & ? & H). unfold kHeaderBytes in *. pose proof (seg_nonneg _ _ _ _ _ H). rewrite Hm by lia.
    split_and!; try done. apply IH; [|done]. intros x Hx. apply Hm. lia.
Qed.

(** The pointer to the first free block behind a stretch is kept in its last free block. *)
Lemma seg_last m d a fb L fb' : 0 < a -> seg m a fb L fb' ->
  (lastFree d a L = d /\ fb = fb' /\ forall t, seg m a t L t) \/
  (let p := lastFree d a L in a <= p /\ p + 16 <= a + len L /\ m !! (p + 8) = Some fb' /\
   (exists n, (p, Free n) ∈ blocksAt a L) /\ forall t, seg (<[p + 8 := t]> m) a fb L t).
Proof.
  revert d a fb. induction L as [|[n|n] L IH]; intros d a fb Ha; simpl; [by left|..]; rewrite ?len_cons; simpl.
  - intros (-> & Hn & Hd & Hm & next & Hnext & H). unfold kFreeBlockBytes in *. right. pose proof (seg_nonneg _ _ _ _ _ H).
    destruct (IH a (a + n) next ltac:(lia) H) as [(-> & -> & Ht)|(H1 & H2 & H3 & (k & Hk) & Ht)].
    + split_and!; [lia..|done| |].
      * exists n. rewrite elem_of_cons. by left.
      * intros t. split_and!; [done..| |].
        -- rewrite lookup_insert_ne by lia. done.
        -- exists t. rewrite lookup_insert_eq. split; [done|]. eapply seg_frame; [|apply Ht].
           intros x Hx. by rewrite lookup_insert_ne by lia.
    + split_and!; [lia..|done| |].
      * exists k. rewrite elem_of_cons. by right.
      * intros t. rewrite !lookup_insert_ne by lia. split_and!; try done. by exists next.
  - intros (Hn & Hd & Hm & H). unfold kHeaderBytes in *. pose proof (seg_nonneg _ _ _ _ _ H).
    destruct (IH d (a + n) fb ltac:(lia) H) as [(-> & -> & Ht)|(H1 & H2 & H3 & (k & Hk) & Ht)]; [left|right].
    + split_and!; try done.
    + split_and!; [lia..|done| |].
      * exists k. rewrite elem_of_cons. by right.
      * intros t. rewrite lookup_insert_ne by lia. split_and!; try done.
Qed.

(** The blocks and the words of an arena. *)
Lemma seg_aligned m a fb L fb' x b : a mod 8 = 0 -> seg m a fb L fb' -> (x, b) ∈ blocksAt a L ->
  x mod 8 = 0 /\ blen b mod 8 = 0 /\ 8 <= blen b /\ a <= x /\ x + blen b <= a + len L.
Proof.
  intros Ha Hs (L1 & L2 & -> & ->)%blocksAt_split. apply seg_app in Hs as (mid & Hs1 & Hs2).
  destruct (seg_len _ _ _ _ _ Hs1) as [Hl1 Hl2]. rewrite len_app, len_cons.
  assert (blen b mod 8 = 0 /\ 8 <= blen b /\ 0 <= len L2) as (? & ? & ?).
  { destruct b as [n|n]; simpl in *; unfold kFreeBlockBytes, kHeaderBytes in *.
    - destruct Hs2 as (_ & ? & ? & _ & next & _ & H). apply seg_nonneg in H. split_and!; [done|lia|done].
    - destruct Hs2 as (? & ? & _ & H). apply seg_nonneg in H. done. }
  split_and!; try done; try lia. by rewrite Z.add_mod, Ha, Hl2.
Qed.

Lemma store_Some (m : Mem) a v : is_Some (m !! a) -> store m a v = Some (<[a := v]> m).
Proof. unfold store. by intros [w ->]. Qed.

Lemma backed_insert m s e a v : backed m s e -> backed (<[a := v]> m) s e.
Proof.
  intros H x Hx H8. destruct (decide (x = a)) as [->|]; [by rewrite lookup_insert_eq; eauto|].
  rewrite lookup_insert_ne by done. by apply H.
Qed.

Lemma setBlock_Some m s e b n next : backed m s e -> s <= b -> b + 16 <= e -> b mod 8 = 0 ->
  setBlock m b n next = Some (<[b + 8 := next]> (<[b := n]> m)).
Proof.
  intros Hb H1 H2 H3. unfold setBlock. rewrite store_Some by (apply Hb; [lia|done]). simpl.
  apply store_Some. destruct (decide (b + 8 = b)); [lia|]. rewrite lookup_insert_ne by lia. apply Hb; [lia|].
  by rewrite Z.add_mod, H3.
Qed.
