(* ===== verification/FreeListOps.v ===== *)
(** * What the functions of the free list do to the blocks

    [alloc] takes the first free block that fits and gives back what it has too much; releasing a
    block makes it free and joins it with its neighbours. Both keep the arena [tiled] and leave the
    words of every used block as they are. *)

From stdpp Require Import gmap.
From S2P Require Import Prelude ObjHeader FreeList FreeListInv.
#[local] Open Scope Z_scope.

(** ** Allocation *)

(** The first free block of [total] bytes or more, with the blocks in front of it and behind it. *)
Fixpoint firstFit (total : Z) (L : list Block) : option (list Block * Z * list Block) :=
  match L with
  | [] => None
  | b :: L =>
      if isFree b && (total <=? blen b) then Some ([], blen b, L)
      else '(L1, n, L2) ← firstFit total L; Some (b :: L1, n, L2)
  end.

(** The blocks after the allocation of [total] bytes, and how far into the arena the new one is. *)
Definition allocBlocks (total : Z) (L : list Block) : option (Z * list Block) :=
  '(L1, n, L2) ← firstFit total L;
  Some (len L1, if kFreeBlockBytes <=? n - total then L1 ++ Used total :: Free (n - total) :: L2
                else L1 ++ Used n :: L2).

Lemma firstFit_split total L L1 n L2 : firstFit total L = Some (L1, n, L2) -> L = L1 ++ Free n :: L2 /\ total <= n.
Proof.
  revert L1. induction L as [|b L IH]; intros L1; [done|]. simpl. destruct (isFree b && (total <=? blen b)) eqn:E.
  - intros [= <- <- <-]. destruct b; [|done]. simpl in *. split; [done|lia].
  - destruct (firstFit total L) as [[[L1' n'] L2']|]; [|done]. simpl. intros [= <- <- <-].
    destruct (IH _ eq_refl) as [-> ?]. done.
Qed.

Lemma findFit_spec m total L : forall fuel d a fb, 0 < a -> seg m a fb L 0 -> (length L < fuel)%nat ->
  findFit fuel m total (linkAfter d) fb =
    Some (match firstFit total L with
          | Some (L1, _, _) => Some (linkAfter (lastFree d a L1), a + len L1) | None => None end).
Proof.
  induction L as [|[n|n] L IH]; intros fuel d a fb Ha Hs Hf.
  - simpl in Hs. subst fb. by destruct fuel.
  - destruct fuel as [|fuel]; [simpl in Hf; lia|]. destruct Hs as (-> & Hn & Hd & Hm & next & Hnext & Hs).
    simpl. rewrite (proj2 (Z.eqb_neq a 0)) by lia. unfold blockSize, blockNext, load. rewrite Hm. simpl.
    rewrite !guarded_true by lia. destruct (total <=? n); [simpl; by rewrite len_nil, Z.add_0_r|].
    rewrite Hnext. simpl. unfold kFreeBlockBytes in *.
    replace (NextOf a) with (linkAfter a) by (unfold linkAfter; by rewrite (proj2 (Z.eqb_neq a 0)) by lia).
    rewrite (IH fuel a (a + n)) by (simpl in Hf; lia || done).
    destruct (firstFit total L) as [[[L1 k] L2]|]; simpl; [|done]. rewrite len_cons. simpl. do 3 f_equal. lia.
  - destruct Hs as (Hn & Hd & Hm & Hs). unfold kHeaderBytes in *. simpl firstFit.
    rewrite (IH fuel d (a + n)) by (simpl in Hf; lia || done).
    destruct (firstFit total L) as [[[L1 k] L2]|]; simpl; [|done]. rewrite len_cons. simpl. do 3 f_equal. lia.
Qed.

Lemma walkFuel_enough fa m L : tiled fa m L -> (length L < walkFuel fa)%nat.
Proof.
  intros H. destruct (seg_len _ _ _ _ _ (ti_seg _ _ _ H)) as [Hl _]. unfold walkFuel.
  pose proof (ti_end _ _ _ H). assert (Z.of_nat (length L) <= (end_ fa - start_ fa) / 8) by (apply Z.div_le_lower_bound; lia).
  lia.
Qed.

(** ** Writing blocks *)

(** Memory that agrees outside of a stretch. *)
Definition outside (a e : Z) (m m' : Mem) : Prop := forall x, x < a \/ e <= x -> m' !! x = m !! x.

(** Other blocks in the place of [M]: [m1] has them, and then the pointer to the first free block
    from there on is set. *)
Lemma seg_replace fa m m1 L1 M M' L2 t u :
  0 < start_ fa -> seg m (start_ fa) (freeList_ fa) (L1 ++ M ++ L2) 0 ->
  let a1 := start_ fa + len L1 in
  outside a1 (a1 + len M) m m1 -> len M' = len M -> seg m (a1 + len M) u L2 0 ->
  seg m1 a1 t M' u ->
  exists fa' m', setLink fa m1 (linkAfter (lastFree 0 (start_ fa) L1)) t = Some (fa', m') /\
    seg m' (start_ fa) (freeList_ fa') (L1 ++ M' ++ L2) 0 /\ (fa' = fa \/ fa' = setHead t fa) /\
    (forall x, (forall n p, (p, Free n) ∈ blocksAt (start_ fa) L1 -> x <> p + 8) -> m' !! x = m1 !! x) /\
    (m' = m1 \/ exists p v, is_Some (m1 !! p) /\ m' = <[p := v]> m1) /\
    (forall x, x < start_ fa \/ a1 <= x -> m' !! x = m1 !! x).
Proof.
  intros Ha Hs a1 Hout Hlen Hu HM. apply seg_app in Hs as (mid & Hs1 & Hs2). fold a1 in Hs2.
  apply seg_app in Hs2 as (mid2 & HM0 & Hs2).
  pose proof (seg_nonneg _ _ _ _ _ Hs1). pose proof (seg_nonneg _ _ _ _ _ HM0). pose proof (seg_nonneg _ _ _ _ _ Hu).
  assert (Hs1' : seg m1 (start_ fa) (freeList_ fa) L1 mid).
  { eapply seg_frame; [|exact Hs1]. intros x Hx. apply Hout. subst a1. lia. }
  assert (Htail : forall m', (forall x, a1 <= x -> m' !! x = m1 !! x) -> seg m' a1 t (M' ++ L2) 0).
  { intros m' Hm'. apply seg_app. exists u. split.
    - eapply seg_frame; [|exact HM]. intros x Hx. apply Hm'. lia.
    - rewrite Hlen. eapply seg_frame; [|exact Hu]. intros x Hx. rewrite Hm' by lia. apply Hout. lia. }
  destruct (seg_last m1 0 _ _ _ _ Ha Hs1') as [(-> & E & Ht)|(G1 & G2 & G3 & (n & Hn) & Ht)].
  - exists (setHead t fa), m1. split_and!; [done| |by right|done|by left|done].
    apply seg_app. exists t. split; [apply Ht|]. by apply Htail.
  - set (p := lastFree 0 _ _) in *. exists fa, (<[p + 8 := t]> m1). split_and!.
    + unfold linkAfter. rewrite (proj2 (Z.eqb_neq p 0)) by lia. simpl. rewrite store_Some by eauto. done.
    + apply seg_app. exists t. split; [apply Ht|]. apply Htail. intros x Hx. subst a1.
      by rewrite lookup_insert_ne by lia.
    + by left.
    + intros x Hx. rewrite lookup_insert_ne; [done|]. intros <-. by eapply Hx.
    + right. exists (p + 8), t. split; [by eauto|done].
    + intros x Hx. by rewrite lookup_insert_ne by lia.
Qed.

Lemma blocks_disjoint m a fb L fb' p b q c : seg m a fb L fb' -> (p, b) ∈ blocksAt a L -> (q, c) ∈ blocksAt a L ->
  (p = q /\ b = c) \/ p + blen b <= q \/ q + blen c <= p.
Proof.
  revert a fb. induction L as [|d L IH]; intros a fb Hs; [by intros ?%elem_of_nil|]. simpl.
  assert (Htail : exists fb2, seg m (a + blen d) fb2 L fb' /\ 0 <= blen d).
  { destruct d as [n|n]; simpl in *; unfold kFreeBlockBytes, kHeaderBytes in *.
    - destruct Hs as (_ & ? & _ & _ & next & _ & H). exists next. split; [done|lia].
    - destruct Hs as (? & _ & _ & H). exists fb. split; [done|lia]. }
  destruct Htail as (fb2 & Ht & Hd).
  assert (Hin : forall x e, (x, e) ∈ blocksAt (a + blen d) L -> a + blen d <= x).
  { intros x e (L1 & L2 & -> & ->)%blocksAt_split. apply seg_app in Ht as (mid & Ht & _).
    apply seg_nonneg in Ht. lia. }
  rewrite !elem_of_cons. intros [[= -> ->]|H1] [[= -> ->]|H2]; [by left|right; left; by eapply Hin|..].
  - right; right. by eapply Hin.
  - by eapply IH.
Qed.

(** The words of used blocks are not those of free ones. *)
Lemma used_not_free m a fb L fb' p n x q k : seg m a fb L fb' -> a mod 8 = 0 ->
  (p, Used n) ∈ blocksAt a L -> p <= x < p + n -> (q, Free k) ∈ blocksAt a L -> x <> q /\ x <> q + 8.
Proof.
  intros Hs Ha Hp Hx Hq. assert (16 <= k).
  { apply blocksAt_split in Hq as (L1 & L2 & -> & ->). apply seg_app in Hs as (mid & _ & Hs).
    simpl in Hs. unfold kFreeBlockBytes in *. tauto. }
  destruct (blocks_disjoint _ _ _ _ _ _ _ _ _ Hs Hp Hq) as [[_ ?]|[H1|H1]]; [done|..]; simpl in H1; lia.
Qed.

Lemma backed_after m1 m' s e : backed m1 s e -> (m' = m1 \/ exists p v, is_Some (m1 !! p) /\ m' = <[p := v]> m1) ->
  backed m' s e.
Proof. intros H [->|(p & v & _ & ->)]; [done|]. by apply backed_insert. Qed.

(** Putting other blocks in the place of a free one. *)
Lemma tiled_replace fa m m1 L1 M M' L2 t u :
  tiled fa m (L1 ++ M ++ L2) -> merged (L1 ++ M' ++ L2) ->
  let a1 := start_ fa + len L1 in
  outside a1 (a1 + len M) m m1 -> backed m1 (start_ fa) (end_ fa) -> len M' = len M -> seg m (a1 + len M) u L2 0 ->
  seg m1 a1 t M' u ->
  exists fa' m', setLink fa m1 (linkAfter (lastFree 0 (start_ fa) L1)) t = Some (fa', m') /\
    tiled fa' m' (L1 ++ M' ++ L2) /\ (fa' = fa \/ fa' = setHead t fa) /\
    (forall p n x, (p, Used n) ∈ blocksAt (start_ fa) (L1 ++ M ++ L2) -> p <= x < p + n -> m' !! x = m1 !! x) /\
    (forall x, x < start_ fa \/ a1 <= x -> m' !! x = m1 !! x).
Proof.
  intros [Hst Hen Hsm Hsg Hmg Hbk] Hm' a1 Hout Hb1 Hlen Hu HM.
  destruct (seg_replace fa m m1 L1 M M' L2 t u) as (fa' & m' & E & Hs' & Hfa & Hsame & Hins & Hfar); try done; [lia|].
  exists fa', m'. split; [done|].
  assert (Hst' : start_ fa' = start_ fa /\ end_ fa' = end_ fa) by by destruct Hfa as [->| ->].
  destruct Hst' as [E1 E2]. split_and!; [|done| |done].
  - split; rewrite ?E1, ?E2; try done.
    + rewrite <- Hen, !len_app, Hlen. done.
    + rewrite !len_app, Hlen in *. done.
    + by eapply backed_after.
  - intros p n x Hp Hx. apply Hsame. intros k q Hq. eapply used_not_free; [exact Hsg|apply Hst|exact Hp|exact Hx|].
    rewrite blocksAt_app, elem_of_app. by left.
Qed.

Lemma merged_shrink L1 n total k L2 : merged (L1 ++ Free n :: L2) ->
  merged (L1 ++ [Used total; Free k] ++ L2) /\ merged (L1 ++ [Used total] ++ L2).
Proof.
  intros H. pose proof (merged_app_l _ _ H). pose proof (merged_app_r _ _ H) as H2.
  assert (merged (Free k :: L2)) by (simpl in *; by destruct L2 as [|[]]).
  assert (merged L2) by (simpl in *; by destruct L2 as [|[]]).
  simpl. by rewrite !merged_used.
Qed.

(** The table after an allocation. *)
Definition noted (fa : FreeListAllocator) (payload n : Z) : FreeListAllocator :=
  if sizesFromHeaders_ fa then fa else setSizes (<[payload := n]> (allocatedSizes_ fa)) fa.

Lemma tiled_noted fa m L payload n : tiled fa m L -> tiled (noted fa payload n) m L.
Proof. intros [? ? ? ? ? ?]. unfold noted. by destruct (sizesFromHeaders_ fa). Qed.

Lemma used_middle m a fb L1 n M L2 fb' : seg m a fb (L1 ++ Free n :: L2) fb' -> len M = n ->
  (forall p k, (p, Used k) ∈ blocksAt a (L1 ++ M ++ L2) <->
     (p, Used k) ∈ blocksAt a (L1 ++ Free n :: L2) \/ (p, Used k) ∈ blocksAt (a + len L1) M).
Proof.
  intros _ Hl p k. rewrite !blocksAt_app. simpl. rewrite !elem_of_app, !elem_of_cons, Hl. naive_solver.
Qed.

Lemma alloc_tabled fa m L1 n L2 M total :
  tabled fa (L1 ++ Free n :: L2) -> tiled fa m (L1 ++ Free n :: L2) -> len M = n ->
  (forall a p k, (p, Used k) ∈ blocksAt a M <-> p = a /\ k = total) ->
  tabled (noted fa (start_ fa + len L1 + kHeaderBytes) total) (L1 ++ M ++ L2).
Proof.
  intros Ht Hti Hl HM Hf p k. unfold noted in *. destruct (sizesFromHeaders_ fa) eqn:E; [simpl in Hf; congruence|].
  simpl. rewrite (used_middle m _ (freeList_ fa) _ _ _ _ 0) by (apply Hti || done). rewrite HM, <- (Ht E).
  destruct (decide (p = start_ fa + len L1 + kHeaderBytes)) as [->|Hne].
  - rewrite lookup_insert_eq. unfold kHeaderBytes. rewrite Z.add_simpl_r. split; [intros [= ->]; by right|].
    intros [H|[_ ->]]; [|done]. exfalso. apply (Ht E) in H. unfold kHeaderBytes in H. rewrite Z.add_simpl_r in H.
    destruct (blocks_disjoint _ _ _ _ _ _ _ _ _ (ti_seg _ _ _ Hti) H (blocksAt_middle (start_ fa) L1 (Free n) L2)) as [[_ ?]|Hd]; [done|].
    apply (seg_aligned _ _ _ _ _ _ _ (proj2 (ti_start _ _ _ Hti)) (ti_seg _ _ _ Hti)) in H.
    pose proof (seg_aligned _ _ _ _ _ _ _ (proj2 (ti_start _ _ _ Hti)) (ti_seg _ _ _ Hti) (blocksAt_middle (start_ fa) L1 (Free n) L2)).
    simpl in *. lia.
  - rewrite lookup_insert_ne by done. unfold kHeaderBytes in *. split; [by left|].
    intros [?|[? _]]; [done|]. lia.
Qed.

(** The bytes an allocation of a payload takes. *)
Definition blockBytes (size : Z) : Z := (kHeaderBytes + size + 7) / 8 * 8.

Lemma blockBytes_spec size : 0 <= size < 2 ^ 64 - 15 ->
  alignUp (u64 (kHeaderBytes + size)) kSlot = blockBytes size /\ blockBytes size mod 8 = 0 /\
  kHeaderBytes + size <= blockBytes size.
Proof.
  intros H. unfold blockBytes, kHeaderBytes, u64 in *. rewrite Z.mod_small by lia. rewrite alignUp_8 by lia.
  split_and!; [done|by rewrite Z.mod_mul|]. pose proof (Z.mul_div_le (8 + size + 7) 8).
  pose proof (Z.mod_pos_bound (8 + size + 7) 8). rewrite Z.mod_eq in * by lia. lia.
Qed.

(** What an allocation does: nothing when no block fits. *)
Record allocated (fa : FreeListAllocator) (m : Mem) (L : list Block) (fa' : FreeListAllocator) (m' : Mem) (L' : list Block) : Prop := {
  al_tiled : tiled fa' m' L';
  al_tabled : tabled fa L -> tabled fa' L';
  al_arena : start_ fa' = start_ fa /\ end_ fa' = end_ fa /\ sizesFromHeaders_ fa' = sizesFromHeaders_ fa;
  al_used : keepsUsed (start_ fa) L m m';
  al_outside : outside (start_ fa) (end_ fa) m m';
}.

Lemma take_spec fa m m1 L1 n M L2 t u total :
  tiled fa m (L1 ++ Free n :: L2) -> merged (L1 ++ M ++ L2) ->
  let a1 := start_ fa + len L1 in
  outside a1 (a1 + n) m m1 -> backed m1 (start_ fa) (end_ fa) -> len M = n -> m !! (a1 + 8) = Some u ->
  seg m1 a1 t M u -> (forall a p k, (p, Used k) ∈ blocksAt a M <-> p = a /\ k = total) ->
  exists fa' m', setLink fa m1 (linkAfter (lastFree 0 (start_ fa) L1)) t = Some (fa', m') /\
    allocated fa m (L1 ++ Free n :: L2) (noted fa' (a1 + kHeaderBytes) total) m' (L1 ++ M ++ L2).
Proof.
  intros Hti Hmg a1 Hout Hbk Hlen Hu HM Hused. pose proof Hti as [[Hst Hst8] Hen Hsm Hsg _ _].
  pose proof Hsg as (mid & Hs1 & Hs2)%seg_app. fold a1 in Hs2.
  destruct Hs2 as (-> & Hn & Hn8 & Hm & next & Hnext & Hs2). rewrite Hu in Hnext. injection Hnext as <-.
  pose proof (seg_nonneg _ _ _ _ _ Hs1). pose proof (seg_nonneg _ _ _ _ _ Hs2). unfold kFreeBlockBytes in *.
  assert (Hl : len [Free n] = n) by lens.
  destruct (tiled_replace fa m m1 L1 [Free n] M L2 t u) as (fa' & m' & E & Hti' & Hfa & Hkeep & Hfar);
    rewrite ?Hl; try done.
  exists fa', m'. split; [done|].
  assert (Hst' : start_ fa' = start_ fa /\ end_ fa' = end_ fa /\ sizesFromHeaders_ fa' = sizesFromHeaders_ fa /\
    allocatedSizes_ fa' = allocatedSizes_ fa) by by destruct Hfa as [->| ->].
  destruct Hst' as (E1 & E2 & E3 & E4). split.
  - by apply tiled_noted.
  - intros Htab. pose proof (alloc_tabled fa m L1 n L2 M total Htab Hti Hlen Hused) as Htab'.
    intros Hf p k. unfold tabled, noted in *. fold a1 in Htab'. rewrite E3 in *.
    destruct (sizesFromHeaders_ fa) eqn:Ef; simpl in *; [congruence|]. rewrite E1, E4. by apply Htab'.
  - unfold noted. destruct (sizesFromHeaders_ fa') eqn:?; simpl; split_and!; congruence.
  - intros p k x Hp Hx. rewrite (Hkeep p k x Hp Hx). apply Hout.
    destruct (blocks_disjoint _ _ _ _ _ _ _ _ _ Hsg Hp (blocksAt_middle (start_ fa) L1 (Free n) L2)) as [[_ ?]|Hd]; [done|].
    fold a1 in Hd. simpl in Hd. lia.
  - intros x Hx. lens. rewrite Hfar by lia. apply Hout. lia.
Qed.

Lemma takeBlock_spec fa m total L1 n L2 :
  tiled fa m (L1 ++ Free n :: L2) -> total mod 8 = 0 -> kHeaderBytes <= total <= n ->
  exists fa' m', takeBlock fa m total (linkAfter (lastFree 0 (start_ fa) L1)) (start_ fa + len L1) =
      Some (start_ fa + len L1 + kHeaderBytes, fa', m') /\
    allocated fa m (L1 ++ Free n :: L2) fa' m'
      (if kFreeBlockBytes <=? n - total then L1 ++ Used total :: Free (n - total) :: L2 else L1 ++ Used n :: L2).
Proof.
  intros Hti Ht8 Htn. pose proof Hti as [[Hst Hst8] Hen Hsm Hsg Hmg Hbk]. set (a1 := start_ fa + len L1) in *.
  destruct (merged_shrink L1 n total (n - total) L2 Hmg) as [Hmg1 _]. destruct (merged_shrink L1 n n 0 L2 Hmg) as [_ Hmg2].
  pose proof Hsg as (mid & Hs1 & Hs2)%seg_app. fold a1 in Hs2.
  destruct Hs2 as (-> & Hn & Hn8 & Hm & next & Hnext & Hs2). unfold kFreeBlockBytes, kHeaderBytes in *.
  destruct (seg_len _ _ _ _ _ Hs1) as [Hl1 Hl1']. pose proof (seg_nonneg _ _ _ _ _ Hs2) as Hl2.
  assert (Htot : len (L1 ++ Free n :: L2) = len L1 + n + len L2) by lens.
  assert (Ha8 : a1 mod 8 = 0) by (subst a1; by rewrite Z.add_mod, Hst8, Hl1').
  assert (Hsz : forall k, 8 <= k <= n -> size (ObjectHeader k) = Some k) by (intros; apply size_ObjectHeader; lia).
  unfold takeBlock, blockNext, blockSize, load. rewrite Hnext, Hm. simpl. rewrite store_Some by eauto. simpl.
  unfold kFreeBlockBytes. set (split := 16 <=? n - total). set (allocSize := if split then total else n).
  set (m0 := <[a1 := ObjectHeader allocSize]> m).
  assert (Hb0 : backed m0 (start_ fa) (end_ fa)) by by apply backed_insert.
  destruct (Z.leb_spec 16 (n - total)) as [Hs|Hw]; subst split allocSize; cbv iota beta in *.
  - rewrite (setBlock_Some m0 (start_ fa) (end_ fa)); [|done|lia|lia|by rewrite Z.add_mod, Ha8, Ht8].
    simpl. set (m1 := <[a1 + total + 8 := next]> (<[a1 + total := n - total]> m0)).
    destruct (take_spec fa m m1 L1 n [Used total; Free (n - total)] L2 (a1 + total) next total)
      as (fa' & m' & E & Hal); try done.
    + fold a1. intros x Hx. unfold m1, m0. by rewrite !lookup_insert_ne by lia.
    + by repeat apply backed_insert.
    + lens.
    + fold a1. simpl. unfold kHeaderBytes, kFreeBlockBytes. split_and!; try done; try lia.
      * exists (ObjectHeader total). split; [|apply Hsz; lia]. unfold m1, m0.
        rewrite !lookup_insert_ne by lia. by rewrite lookup_insert_eq.
      * by rewrite Zminus_mod, Hn8, Ht8.
      * unfold m1. rewrite lookup_insert_ne by lia. by rewrite lookup_insert_eq.
      * exists next. unfold m1. by rewrite lookup_insert_eq.
    + intros. simpl. set_solver.
    + rewrite E. simpl. eexists _, m'. split; [done|]. exact Hal.
  - destruct (take_spec fa m m0 L1 n [Used n] L2 next next n) as (fa' & m' & E & Hal); try done.
    + fold a1. intros x Hx. unfold m0. by rewrite !lookup_insert_ne by lia.
    + lens.
    + fold a1. simpl. unfold kHeaderBytes. split_and!; try done; try lia.
      exists (ObjectHeader n). split; [|apply Hsz; lia]. unfold m0. by rewrite lookup_insert_eq.
    + intros. simpl. set_solver.
    + rewrite E. simpl. eexists _, m'. split; [done|]. exact Hal.
Qed.

(** [alloc]: a null pointer when no free block fits, and otherwise the first that does. *)
Lemma alloc_spec fa m L n : tiled fa m L -> 0 <= n < 2 ^ 64 - 15 ->
  match allocBlocks (blockBytes n) L with
  | None => alloc fa m n = Some (0, fa, m)
  | Some (off, L') => exists fa' m', alloc fa m n = Some (start_ fa + off + kHeaderBytes, fa', m') /\
      allocated fa m L fa' m' L'
  end.
Proof.
  intros Hti Hn. destruct (blockBytes_spec n Hn) as (E & H8 & Hle). unfold alloc. rewrite E.
  change Head with (linkAfter 0).
  rewrite (findFit_spec m (blockBytes n) L _ 0 (start_ fa)) by (apply Hti || by eapply walkFuel_enough).
  unfold allocBlocks. destruct (firstFit (blockBytes n) L) as [[[L1 k] L2]|] eqn:Ef; [|done]. simpl.
  apply firstFit_split in Ef as [-> Hk].
  destruct (takeBlock_spec fa m (blockBytes n) L1 k L2) as (fa' & m' & Et & Hal); [done..|unfold kHeaderBytes in *; lia|].
  exists fa', m'. split; [exact Et|exact Hal].
Qed.

(** * Releasing blocks

    [insertAndCoalesce] makes a used block free and joins it with its free neighbours, whether the
    search for its place starts at the head of the list or at a free block in front of it. [free]
    and [freeBulk] follow. *)

#[local] Opaque walkFuel.

(** ** The search *)

Lemma seg_first m a fb L : 0 < a -> seg m a fb L 0 -> fb = 0 \/ a <= fb.
Proof.
  revert a. induction L as [|[n|n] L IH]; simpl; intros a Ha Hs; [by left| |].
  - right. destruct Hs as [-> _]. lia.
  - destruct Hs as (Hn & _ & _ & Hs). unfold kHeaderBytes in Hn. destruct (IH (a + n)) as [->|]; [lia|done|by left|right; lia].
Qed.

Lemma findPlace_spec m b L : forall fuel prev a fb mid, 0 < a -> seg m a fb L mid -> b = a + len L ->
  mid = 0 \/ b <= mid -> (length L < fuel)%nat ->
  findPlace fuel m b prev fb = Some (lastFree prev a L, mid).
Proof.
  induction L as [|[n|n] L IH]; intros fuel prev a fb mid Ha Hs Hb Hmid Hf; lens; rewrite ?len_cons in *.
  - simpl in Hs. subst fb. assert (E : (mid =? 0) || (b <=? mid) = true) by lia. destruct fuel; simpl; by rewrite E.
  - destruct Hs as (-> & Hn & Hd & Hm & next & Hnext & Hs). unfold kFreeBlockBytes in *.
    pose proof (seg_nonneg _ _ _ _ _ Hs). simpl in Hb. destruct fuel as [|fuel]; [simpl in Hf; lia|]. simpl.
    replace ((a =? 0) || (b <=? a)) with false by lia. unfold blockNext, load. rewrite Hnext. simpl.
    apply IH; [lia|done|lia|done|simpl in Hf; lia].
  - destruct Hs as (Hn & Hd & Hm & Hs). unfold kHeaderBytes in *. simpl in *. apply IH; [lia|done|lia|done|lia].
Qed.

(** Words of a free block. *)
Lemma seg_free_words m a fb L fb' p n : seg m a fb L fb' -> (p, Free n) ∈ blocksAt a L ->
  m !! p = Some n /\ exists next, m !! (p + 8) = Some next.
Proof.
  intros Hs (L1 & L2 & -> & ->)%blocksAt_split. apply seg_app in Hs as (mid & _ & Hs).
  destruct Hs as (_ & _ & _ & Hm & next & Hn & _). by split; [|exists next].
Qed.

(** Other blocks in the place of [M], behind the same pointer. *)
Lemma seg_same m m1 a fb L1 M M' L2 fb' u :
  seg m a fb (L1 ++ M ++ L2) fb' -> let a1 := a + len L1 in
  outside a1 (a1 + len M) m m1 -> len M' = len M -> seg m (a1 + len M) u L2 fb' ->
  (forall t v, seg m a1 t M v -> seg m1 a1 t M' u) -> seg m1 a fb (L1 ++ M' ++ L2) fb'.
Proof.
  intros (mid & Hs1 & (v & HM & Hs2)%seg_app)%seg_app a1 Hout Hlen Hu HM'.
  pose proof (seg_nonneg _ _ _ _ _ Hs1). pose proof (seg_nonneg _ _ _ _ _ HM). pose proof (seg_nonneg _ _ _ _ _ Hs2).
  apply seg_app. exists mid. split.
  - eapply seg_frame; [|exact Hs1]. intros x Hx. apply Hout. subst a1. lia.
  - apply seg_app. exists u. split; [by eapply HM'|]. fold a1. rewrite Hlen.
    eapply seg_frame; [|exact Hu]. intros x Hx. apply Hout. lia.
Qed.

(** ** Making a block free *)

Record released (fa : FreeListAllocator) (m : Mem) (b : Z) (L' : list Block) (r : Z) (fa' : FreeListAllocator) (m' : Mem) : Prop := {
  re_tiled : tiled fa' m' L';
  re_arena : start_ fa' = start_ fa /\ end_ fa' = end_ fa /\ sizesFromHeaders_ fa' = sizesFromHeaders_ fa /\
    allocatedSizes_ fa' = allocatedSizes_ fa;
  re_used : keepsUsed (start_ fa) L' m m';
  re_outside : outside (start_ fa) (end_ fa) m m';
  re_block : exists n, (r, Free n) ∈ blocksAt (start_ fa) L' /\ r <= b < r + n;
}.

(** The block behind, when it is free: its bytes and where the list goes on. *)
Definition nextBytes (L2 : list Block) : Z := match L2 with Free k :: _ => k | _ => 0 end.
Definition afterNext (L2 : list Block) : list Block := match L2 with Free k :: L2 => L2 | _ => L2 end.

Lemma joinNext_parts n L2 : joinNext n L2 = Free (n + nextBytes L2) :: afterNext L2.
Proof. destruct L2 as [|[]]; simpl; by rewrite ?Z.add_0_r. Qed.

(** The second step of [insertAndCoalesce]. *)
Lemma next_step m b n mid L2 : 0 < b -> 0 < n -> seg m (b + n) mid L2 0 -> exists u,
  (if negb (mid =? 0) && (b + n =? mid)
   then k ← blockSize m mid; next ← blockNext m mid; Some (n + k, next) else Some (n, mid)) =
    Some (n + nextBytes L2, u) /\ seg m (b + (n + nextBytes L2)) u (afterNext L2) 0 /\ nextBytes L2 mod 8 = 0 /\ 0 <= nextBytes L2.
Proof.
  intros Hb Hn Hs. destruct L2 as [|[k|k] L2]; simpl in *.
  - subst mid. exists 0. simpl. by rewrite Z.add_0_r.
  - destruct Hs as (-> & Hk & Hd & Hm & next & Hnext & Hs). exists next. unfold blockSize, blockNext, load, kFreeBlockBytes in *.
    replace (negb (b + n =? 0) && (b + n =? b + n)) with true by lia. rewrite Hm. simpl. rewrite Hnext. simpl.
    rewrite Z.add_assoc. split_and!; try done. lia.
  - exists mid. rewrite Z.add_0_r. destruct Hs as (Hk & Hd & Hm & Hs). unfold kHeaderBytes in *.
    assert (E : negb (mid =? 0) && (b + n =? mid) = false).
    { destruct (seg_first m (b + n + k) mid L2 ltac:(lia) Hs) as [->|Hle]; lia. }
    rewrite E. by split_and!.
Qed.

Lemma next_len L2 : len L2 = nextBytes L2 + len (afterNext L2).
Proof. destruct L2 as [|[]]; simpl; lens. Qed.

Definition nextPart (L2 : list Block) : list Block := match L2 with Free k :: _ => [Free k] | _ => [] end.
Lemma next_parts L2 : L2 = nextPart L2 ++ afterNext L2 /\ len (nextPart L2) = nextBytes L2.
Proof. destruct L2 as [|[]]; (split; [done|simpl; lens; done]). Qed.

(** The first step: the place of a block, with the search started at the head of the list or at
    a free block in front of it. *)
Definition resumable (fa : FreeListAllocator) (L1 : list Block) (from : Z) : Prop :=
  from = 0 \/ exists k, (from, Free k) ∈ blocksAt (start_ fa) L1.

Lemma place_spec fa m L1 n L2 from mid : tiled fa m (L1 ++ Used n :: L2) -> resumable fa L1 from ->
  seg m (start_ fa) (freeList_ fa) L1 mid -> seg m (start_ fa + len L1) mid (Used n :: L2) 0 ->
  (first ← (if from =? 0 then Some (freeList_ fa) else blockNext m from);
   findPlace (walkFuel fa) m (start_ fa + len L1) from first) = Some (lastFree 0 (start_ fa) L1, mid).
Proof.
  intros Hti Hr Hs1 Hs2. pose proof (walkFuel_enough _ _ _ Hti) as Hf. rewrite length_app in Hf. simpl in Hf.
  pose proof Hti as [[Hst _] _ _ _ _ _]. pose proof (seg_nonneg _ _ _ _ _ Hs1).
  destruct (seg_first m (start_ fa + len L1) mid (Used n :: L2) ltac:(lia) Hs2) as [Hmid|Hmid].
  all: destruct Hr as [->|[k Hin]]; [simpl; eapply findPlace_spec; (done || lia)|].
  all: apply blocksAt_split in Hin as (La & Lb & -> & ->).
  all: pose proof Hs1 as (v & Ha & Hs)%seg_app; simpl in Hs; destruct Hs as (_ & Hk & _ & _ & next & Hnext & Hs).
  all: pose proof (seg_nonneg _ _ _ _ _ Ha); unfold kFreeBlockBytes in *.
  all: replace (start_ fa + len La =? 0) with false by lia; unfold blockNext at 1; unfold load; rewrite Hnext; simpl.
  all: rewrite lastFree_app; simpl; eapply findPlace_spec; [lia|exact Hs|lens|lia|rewrite length_app in Hf; simpl in Hf; lia].
Qed.

Lemma used_after_merge L1 n L2 a p k : merged L1 -> (p, Used k) ∈ blocksAt a (L1 ++ Free n :: L2) ->
  (p, Used k) ∈ blocksAt a (L1 ++ Used n :: L2).
Proof. intros _. rewrite !blocksAt_app. simpl. rewrite !elem_of_app, !elem_of_cons. naive_solver. Qed.

(** The block in front is not free, or does not reach the new one. *)
Definition lastUsed (L1 : list Block) : bool := match rev L1 with Free _ :: _ => false | _ => true end.

Lemma prev_apart m a fb L1 mid : 0 < a -> seg m a fb L1 mid -> lastUsed L1 = true ->
  exists e, (if lastFree 0 a L1 =? 0 then Some 0 else n ← blockSize m (lastFree 0 a L1); Some (lastFree 0 a L1 + n)) = Some e /\
    negb (lastFree 0 a L1 =? 0) && (e =? a + len L1) = false.
Proof.
  intros Ha Hs Hu. destruct L1 as [|[n|n] L _] using rev_ind; [by exists 0| |].
  - unfold lastUsed in Hu. by rewrite rev_app_distr in Hu.
  - rewrite lastFree_app. simpl. apply seg_app in Hs as (mid' & Hs & Hn & _). unfold kHeaderBytes in *.
    destruct (seg_last m 0 _ _ _ _ Ha Hs) as [(-> & _)|(H1 & H2 & H3 & (k & Hk) & _)]; [by exists 0|].
    set (q := lastFree 0 a L) in *. replace (q =? 0) with false by lia.
    pose proof (seg_free_words _ _ _ _ _ _ _ Hs Hk) as [Hq _].
    apply blocksAt_split in Hk as (La & Lb & -> & Eq). pose proof Hs as (v & _ & Hs3)%seg_app. simpl in Hs3.
    destruct Hs3 as (_ & _ & _ & _ & nx & _ & Hs3). apply seg_nonneg in Hs3.
    unfold blockSize, load. rewrite Hq. simpl. eexists. split; [done|]. lens.
Qed.

Lemma merge_freed L1 n L2 : merged L1 -> merged L2 ->
  merge (L1 ++ Free n :: L2) =
    match rev L1 with
    | Free k :: R => rev R ++ Free (k + (n + nextBytes L2)) :: afterNext L2
    | _ => L1 ++ Free (n + nextBytes L2) :: afterNext L2
    end.
Proof. intros H1 H2. rewrite merge_at, joinNext_parts by done. by destruct (rev L1) as [|[]]. Qed.

(** The used blocks keep their words when only a free block and a link have been written. *)
Lemma released_keeps fa (m m1 m' : Mem) fa' L L' q k :
  tiled fa' m' L' -> start_ fa' = start_ fa -> (q, Free k) ∈ blocksAt (start_ fa) L' ->
  (forall x, x <> q -> x <> q + 8 -> m1 !! x = m !! x) ->
  (forall p n, (p, Used n) ∈ blocksAt (start_ fa) L' -> (p, Used n) ∈ blocksAt (start_ fa) L) ->
  (forall p n x, (p, Used n) ∈ blocksAt (start_ fa) L -> p <= x < p + n -> m' !! x = m1 !! x) ->
  keepsUsed (start_ fa) L' m m'.
Proof.
  intros Hti Es Hq H1 Hsub H' p n x Hp Hx. rewrite (H' p n x) by auto.
  destruct (used_not_free m' (start_ fa) (freeList_ fa') L' 0 p n x q k) as [? ?]; try done.
  - rewrite <- Es. apply Hti.
  - rewrite <- Es. apply Hti.
  - by apply H1.
Qed.

Section Insert.
Context (fa : FreeListAllocator) (m : Mem) (L1 L2 : list Block) (n u : Z).
Context (Hti : tiled fa m (L1 ++ Used n :: L2)) (Hn : kFreeBlockBytes <= n).
Let b := start_ fa + len L1.
Let total := n + nextBytes L2.
Context (Hu : seg m (b + total) u (afterNext L2) 0) (Hnb : nextBytes L2 mod 8 = 0 /\ 0 <= nextBytes L2).

Lemma insert_facts : b mod 8 = 0 /\ n mod 8 = 0 /\ 0 < start_ fa /\ 0 <= len L1 /\
  end_ fa = b + total + len (afterNext L2) /\ 0 <= len (afterNext L2).
Proof.
  pose proof Hti as [[Hst Hst8] Hen _ Hsg _ _].
  pose proof (seg_aligned _ _ _ _ _ _ _ Hst8 Hsg (blocksAt_middle _ L1 (Used n) L2)) as (H1 & H2 & H3 & H4 & H5).
  simpl in *. apply seg_nonneg in Hu. pose proof Hsg as (v & Hs1%seg_nonneg & _)%seg_app. split_and!; try done.
  subst b total. pose proof (next_len L2). lens.
Qed.

Lemma used_freed p k : (p, Used k) ∈ blocksAt (start_ fa) (merge (L1 ++ Free n :: L2)) ->
  (p, Used k) ∈ blocksAt (start_ fa) (L1 ++ Used n :: L2).
Proof. rewrite merge_used. apply used_after_merge. apply merged_app_l with (Used n :: L2), Hti. Qed.

Lemma insert_apart : lastUsed L1 = true -> exists fa' m',
  (m ← setBlock m b total u; '(fa, m) ← setLink fa m (linkAfter (lastFree 0 (start_ fa) L1)) b; Some (b, fa, m)) =
    Some (b, fa', m') /\ released fa m b (merge (L1 ++ Free n :: L2)) b fa' m'.
Proof.
  intros Hl. destruct insert_facts as (Hb8 & Hn8 & Hst & Hl1 & He & Hl2). unfold kFreeBlockBytes in *.
  pose proof Hti as [_ _ _ _ Hmg Hbk].
  assert (Hm1 : merged L1) by by eapply merged_app_l. assert (Hm2 : merged L2) by by apply merged_used in Hmg as [].
  pose proof used_freed as Hsub. pose proof (merge_merged (L1 ++ Free n :: L2)) as HmL.
  assert (E : merge (L1 ++ Free n :: L2) = L1 ++ Free total :: afterNext L2).
  { rewrite merge_freed by done. unfold lastUsed in Hl. by destruct (rev L1) as [|[]]. }
  rewrite E in *. destruct (next_parts L2) as [EL Hnl].
  rewrite (setBlock_Some m (start_ fa) (end_ fa)); [|done|subst b; lia|subst total; lia|done]. simpl.
  set (m1 := <[b + 8 := u]> (<[b := total]> m)).
  assert (Hlen : len (Used n :: nextPart L2) = total) by (subst total; lens).
  destruct (tiled_replace fa m m1 L1 (Used n :: nextPart L2) [Free total] (afterNext L2) b u)
    as (fa' & m' & E' & Hti' & Hfa & Hkeep & Hfar).
  - simpl. by rewrite <- EL.
  - done.
  - rewrite Hlen. intros x Hx. subst m1 total b. by rewrite !lookup_insert_ne by lia.
  - by do 2 apply backed_insert.
  - rewrite Hlen. lens.
  - rewrite Hlen. done.
  - simpl. fold b. subst m1. unfold kFreeBlockBytes. split_and!; try done; try (subst total; lia).
    + subst total. rewrite Z.add_mod, Hn8, (proj1 Hnb) by done. done.
    + rewrite lookup_insert_ne by lia. apply lookup_insert_eq.
    + exists u. by rewrite lookup_insert_eq.
  - rewrite E'. simpl. exists fa', m'. split; [done|].
    assert (Hst' : start_ fa' = start_ fa /\ end_ fa' = end_ fa /\ sizesFromHeaders_ fa' = sizesFromHeaders_ fa /\
      allocatedSizes_ fa' = allocatedSizes_ fa) by by destruct Hfa as [->| ->].
    assert (Hin : (b, Free total) ∈ blocksAt (start_ fa) (L1 ++ Free total :: afterNext L2)) by apply blocksAt_middle.
    simpl in Hti'. split; try done.
    + apply (released_keeps fa m m1 m' fa' (L1 ++ Used n :: L2) (L1 ++ Free total :: afterNext L2) b total); [done|apply Hst'|exact Hin| |exact Hsub|].
      * intros x H1 H2. subst m1. by rewrite !lookup_insert_ne by lia.
      * simpl in Hkeep. by rewrite <- EL in Hkeep.
    + intros x Hx. subst m1 b total. rewrite Hfar by lia. by rewrite !lookup_insert_ne by lia.
    + exists total. split; [done|]. subst total. lia.
Qed.

Lemma insert_joined L0 k : L1 = L0 ++ [Free k] -> let prev := start_ fa + len L0 in
  exists m', setBlock m prev (k + total) u = Some m' /\ released fa m b (merge (L1 ++ Free n :: L2)) prev fa m'.
Proof.
  intros EL1 prev. destruct insert_facts as (Hb8 & Hn8 & Hst & Hl1 & He & Hl2). unfold kFreeBlockBytes in *.
  pose proof Hti as [_ Hen Hsm Hsg Hmg Hbk].
  assert (Hm1 : merged L1) by by eapply merged_app_l. assert (Hm2 : merged L2) by by apply merged_used in Hmg as [].
  pose proof used_freed as Hsub. pose proof (merge_merged (L1 ++ Free n :: L2)) as HmL.
  pose proof (merge_len (L1 ++ Free n :: L2)) as HlL.
  assert (E : merge (L1 ++ Free n :: L2) = L0 ++ Free (k + total) :: afterNext L2).
  { rewrite merge_freed by done. rewrite EL1, rev_app_distr. simpl. by rewrite rev_involutive. }
  rewrite E in *. destruct (next_parts L2) as [EL Hnl].
  assert (Eb : b = prev + k) by (subst b prev; rewrite EL1; lens).
  pose proof Hsg as Hsg0. rewrite EL1, <- app_assoc in Hsg0. simpl in Hsg0. rewrite EL in Hsg0.
  assert (Hprev : prev mod 8 = 0 /\ 16 <= k /\ 0 <= len L0 /\ k mod 8 = 0).
  { pose proof Hsg0 as (v & H0 & H1)%seg_app. fold prev in H1. apply seg_len in H0 as [? H0].
    destruct H1 as (_ & Hk & Hk8 & _). pose proof (ti_start _ _ _ Hti) as [_ Hst8]. unfold kFreeBlockBytes in Hk.
    split_and!; try done; try lia. subst prev. by rewrite Z.add_mod, Hst8, H0. }
  destruct Hprev as (Hp8 & Hk & Hl0 & Hk8).
  rewrite (setBlock_Some m (start_ fa) (end_ fa)); [|done|subst prev; lia|subst total; lia|done].
  set (m' := <[prev + 8 := u]> (<[prev := k + total]> m)). exists m'. split; [done|].
  assert (Hlen : len (Free k :: Used n :: nextPart L2) = k + total) by (subst total; lens).
  assert (Hti' : tiled fa m' (L0 ++ Free (k + total) :: afterNext L2)).
  { split; try done.
    - apply Hti.
    - rewrite HlL. revert Hen. clear. lens.
    - rewrite HlL. revert Hsm. clear. lens.
    - change (Free (k + total) :: afterNext L2) with ([Free (k + total)] ++ afterNext L2).
      eapply (seg_same m m' _ _ L0 (Free k :: Used n :: nextPart L2) _ _ _ u); rewrite ?Hlen.
      + exact Hsg0.
      + fold prev. intros x Hx. subst m' total. by rewrite !lookup_insert_ne by lia.
      + lens.
      + fold prev. rewrite Z.add_assoc, <- Eb. done.
      + fold prev. intros t v (-> & _). simpl. unfold kFreeBlockBytes. subst m'. split_and!; try done.
        * subst total. lia.
        * subst total. rewrite Z.add_assoc, Z.add_mod, (Z.add_mod k n), Hk8, Hn8, (proj1 Hnb) by done. done.
        * rewrite lookup_insert_ne by lia. apply lookup_insert_eq.
        * exists u. by rewrite lookup_insert_eq.
    - by do 2 apply backed_insert. }
  assert (Hin : (prev, Free (k + total)) ∈ blocksAt (start_ fa) (L0 ++ Free (k + total) :: afterNext L2)) by apply blocksAt_middle.
  split; try done.
  - apply (released_keeps fa m m' m' fa (L1 ++ Used n :: L2) (L0 ++ Free (k + total) :: afterNext L2) prev (k + total)); try done.
    intros x H1 H2. subst m'. by rewrite !lookup_insert_ne by lia.
  - intros x Hx. subst m' total prev. by rewrite !lookup_insert_ne by lia.
  - exists (k + total). split; [done|]. subst total. lia.
Qed.
End Insert.

Lemma insertAndCoalesce_spec fa m L1 n L2 from :
  tiled fa m (L1 ++ Used n :: L2) -> kFreeBlockBytes <= n -> resumable fa L1 from ->
  let b := start_ fa + len L1 in
  exists r fa' m', insertAndCoalesce fa m b n from = Some (r, fa', m') /\
    released fa m b (merge (L1 ++ Free n :: L2)) r fa' m'.
Proof.
  intros Hti Hn Hr b. pose proof Hti as [[Hst Hst8] Hen Hsm Hsg Hmg _].
  pose proof Hsg as (mid & Hs1 & Hs2)%seg_app. pose proof Hs2 as Hs3. simpl in Hs3. destruct Hs3 as (_ & _ & _ & Hs3).
  pose proof (seg_nonneg _ _ _ _ _ Hs1). pose proof (seg_nonneg _ _ _ _ _ Hs3). unfold kFreeBlockBytes in *.
  fold b in Hs3. destruct (next_step m b n mid L2) as (u & Enext & Hu & Hnb); [lia..|done|].
  unfold insertAndCoalesce. rewrite guarded_true by (unfold kFreeBlockBytes; lia). rewrite guarded_true by (subst b; lens).
  rewrite guarded_true.
  2: { destruct Hr as [->|[k Hk]]; [done|]. destruct (seg_aligned _ _ _ _ _ _ _ Hst8 Hs1 Hk) as (_ & _ & ? & ? & ?).
       simpl in *. subst b. apply orb_true_iff. right. lia. }
  pose proof (place_spec fa m L1 n L2 from mid Hti Hr Hs1 Hs2) as Hp. fold b in Hp.
  destruct (if from =? 0 then Some (freeList_ fa) else blockNext m from) as [first|]; [|done]. simpl in Hp |- *.
  rewrite Hp. simpl. rewrite Enext. simpl.
  destruct (lastUsed L1) eqn:El.
  - destruct (prev_apart m (start_ fa) (freeList_ fa) L1 mid Hst Hs1 El) as (e & -> & E2). simpl. fold b in E2. rewrite E2.
    destruct (insert_apart fa m L1 L2 n u Hti Hn Hu Hnb El) as (fa' & m' & E & Hre). exists b, fa', m'. by split.
  - destruct L1 as [|c L0 _] using rev_ind; [done|]. unfold lastUsed in El. rewrite rev_app_distr in El. destruct c as [k|k]; [|done].
    destruct (insert_joined fa m (L0 ++ [Free k]) L2 n u Hti Hn Hu Hnb L0 k eq_refl) as (m' & E & Hre).
    pose proof Hs1 as (v & Hs0 & _ & _ & _ & Hk & _)%seg_app. apply seg_nonneg in Hs0.
    rewrite lastFree_app. simpl. replace (start_ fa + len L0 =? 0) with false by lia.
    unfold blockSize, load. rewrite Hk. simpl. replace (start_ fa + len L0 + k =? b) with true by (subst b; lens).
    simpl. rewrite E. simpl. exists (start_ fa + len L0), fa, m'. by split.
Qed.
