(* ===== verification/FreeListBulk.v ===== *)
(** * Releasing one block and many

    [free] and [freeBulk] make blocks free and join neighbours. The blocks after a bulk release do
    not depend on the order of its argument, and are those that single releases give. *)

From stdpp Require Import gmap sorting.
From stdpp Require Import gmap.
From S2P Require Import Prelude ObjHeader FreeList FreeListInv FreeListOps.
#[local] Open Scope Z_scope.
#[local] Opaque walkFuel.

(** ** The blocks after a release *)

(** The used blocks at the addresses [bs] made free. *)
Fixpoint releaseAt (bs : list Z) (a : Z) (L : list Block) : list Block :=
  match L with
  | [] => []
  | Free n :: L => Free n :: releaseAt bs (a + n) L
  | Used n :: L => (if decide (a ∈ bs) then Free n else Used n) :: releaseAt bs (a + n) L
  end.

Definition freed (bs : list Z) (a : Z) (L : list Block) : list Block := merge (releaseAt bs a L).

Lemma releaseAt_len bs a L : len (releaseAt bs a L) = len L.
Proof. revert a. induction L as [|[n|n] L IH]; intros a; simpl; [done|..]; rewrite !len_cons, IH; [done|]. by case_decide. Qed.

Lemma releaseAt_app bs a L1 L2 : releaseAt bs a (L1 ++ L2) = releaseAt bs a L1 ++ releaseAt bs (a + len L1) L2.
Proof.
  revert a. induction L1 as [|[n|n] L1 IH]; intros a; simpl; [by rewrite len_nil, Z.add_0_r|..];
    rewrite IH, len_cons; simpl; by rewrite Z.add_assoc.
Qed.

Lemma releaseAt_nil a L : releaseAt [] a L = L.
Proof. revert a. induction L as [|[n|n] L IH]; intros a; simpl; by rewrite ?IH. Qed.

Lemma releaseAt_used bs a L p n : (p, Used n) ∈ blocksAt a (releaseAt bs a L) <-> (p, Used n) ∈ blocksAt a L /\ p ∉ bs.
Proof.
  revert a. induction L as [|[k|k] L IH]; intros a; simpl.
  - rewrite elem_of_nil. tauto.
  - rewrite !elem_of_cons, IH. naive_solver.
  - rewrite !elem_of_cons. destruct (decide (a ∈ bs)); simpl; rewrite IH; naive_solver.
Qed.

Lemma freed_used bs a L p n : (p, Used n) ∈ blocksAt a (freed bs a L) <-> (p, Used n) ∈ blocksAt a L /\ p ∉ bs.
Proof. unfold freed. by rewrite merge_used, releaseAt_used. Qed.

Lemma releaseAt_two bs bs' a L : releaseAt bs a (releaseAt bs' a L) = releaseAt (bs' ++ bs) a L.
Proof.
  revert a. induction L as [|[n|n] L IH]; intros a; simpl; [done|by rewrite IH|].
  destruct (decide (a ∈ bs')), (decide (a ∈ bs' ++ bs)) as [H|H]; simpl; rewrite ?IH; [done| | |].
  - exfalso. apply H, elem_of_app. by left.
  - apply elem_of_app in H as [?|H]; [done|]. by rewrite decide_True.
  - rewrite decide_False; [done|]. intros ?. apply H, elem_of_app. by right.
Qed.

Lemma merge_cons_congr b L L' : merge L = merge L' -> merge (b :: L) = merge (b :: L').
Proof. destruct b; simpl; by intros ->. Qed.

Lemma merge_join n k L : merge (Free n :: Free k :: L) = merge (Free (n + k) :: L).
Proof. simpl. destruct (merge L) as [|[j|j] L']; try done. by rewrite Z.add_assoc. Qed.

(** Merging first makes no difference. *)
Lemma merge_releaseAt bs a L : merge (releaseAt bs a (merge L)) = merge (releaseAt bs a L).
Proof.
  revert a. induction L as [|[n|n] L IH]; intros a; [done|..].
  - assert (E : merge (releaseAt bs a (merge (Free n :: L))) = merge (Free n :: releaseAt bs (a + n) (merge L))).
    { rewrite merge_free. destruct (merge L) as [|[k|k] L']; [done| |done]. cbn [releaseAt].
      by rewrite merge_join, Z.add_assoc. }
    rewrite E. apply merge_cons_congr, IH.
  - cbn [releaseAt merge]. apply merge_cons_congr, IH.
Qed.

Lemma freed_two bs bs' a L : freed bs a (freed bs' a L) = freed (bs' ++ bs) a L.
Proof. unfold freed. by rewrite merge_releaseAt, releaseAt_two. Qed.

Lemma releaseAt_perm bs bs' a L : (forall x, x ∈ bs <-> x ∈ bs') -> releaseAt bs a L = releaseAt bs' a L.
Proof.
  intros H. revert a. induction L as [|[n|n] L IH]; intros a; simpl; [done|by rewrite IH|]. rewrite IH. f_equal.
  destruct (decide (a ∈ bs)) as [E|E], (decide (a ∈ bs')) as [E'|E']; try done; exfalso; naive_solver.
Qed.

Lemma freed_one m a fb L1 n L2 : seg m a fb (L1 ++ Used n :: L2) 0 -> merged (L1 ++ Used n :: L2) ->
  freed [a + len L1] a (L1 ++ Used n :: L2) = merge (L1 ++ Free n :: L2).
Proof.
  intros Hs Hm. unfold freed. f_equal. rewrite releaseAt_app. cbn [releaseAt].
  rewrite decide_True by by apply list_elem_of_singleton.
  assert (Hout : forall x L, (forall p k, (p, Used k) ∈ blocksAt x L -> p <> a + len L1) -> releaseAt [a + len L1] x L = L).
  { intros x L. revert x. induction L as [|[k|k] L IH]; intros x H; simpl; [done|..].
    - rewrite IH; [done|]. intros p j Hp. apply (H p j). simpl. by rewrite elem_of_cons; right.
    - rewrite IH; [|intros p j Hp; apply (H p j); simpl; rewrite elem_of_cons; by right].
      rewrite decide_False; [done|]. rewrite list_elem_of_singleton. apply (H x k). simpl. rewrite elem_of_cons. by left. }
  assert (Hd : forall p k, (p, Used k) ∈ blocksAt a L1 \/ (p, Used k) ∈ blocksAt (a + len L1 + n) L2 -> p <> a + len L1).
  { pose proof Hs as (mid & Hs1 & Hs2)%seg_app. simpl in Hs2. destruct Hs2 as (Hn & _ & _ & Hs2). unfold kHeaderBytes in Hn.
    intros p k [(La & Lb & -> & ->)%blocksAt_split|(La & Lb & -> & ->)%blocksAt_split].
    - apply seg_app in Hs1 as (v & _ & Hk & _ & _ & Hs1%seg_nonneg). unfold kHeaderBytes in Hk. lens.
    - apply seg_app in Hs2 as (v & Hs2%seg_nonneg & _). lia. }
  rewrite !Hout; [done|..]; intros; eapply Hd; eauto.
Qed.

(** ** The sizes of released blocks *)

(** The table is that of the used blocks but the ones of [bs]. *)
Definition tabledBut (bs : list Z) (fa : FreeListAllocator) (L : list Block) : Prop :=
  sizesFromHeaders_ fa = false -> forall p n, allocatedSizes_ fa !! p = Some n <->
    (p - kHeaderBytes, Used n) ∈ blocksAt (start_ fa) L /\ p - kHeaderBytes ∉ bs.

Lemma tabledBut_nil fa L : tabledBut [] fa L <-> tabled fa L.
Proof.
  unfold tabledBut, tabled. split; intros H Hf p n; rewrite (H Hf).
  - split; [tauto|]. intros ?. split; [done|]. apply not_elem_of_nil.
  - split; [|tauto]. intros ?. split; [done|]. apply not_elem_of_nil.
Qed.

Lemma tabledBut_freed bs fa L : tabledBut bs fa L -> tabled fa (freed bs (start_ fa) L).
Proof. intros H Hf p n. rewrite (H Hf), freed_used. done. Qed.

Lemma tiled_setSizes fa m L t : tiled fa m L -> tiled (setSizes t fa) m L.
Proof. by intros []. Qed.

Lemma releasedSize_spec fa m L b n seen : tiled fa m L -> tabledBut seen fa L -> (b, Used n) ∈ blocksAt (start_ fa) L -> b ∉ seen ->
  exists t, releasedSize fa m (b + kHeaderBytes) = Some (n, setSizes t fa) /\ tabledBut (b :: seen) (setSizes t fa) L /\
    releasable fa b n = true.
Proof.
  intros Hti Htab Hin Hb. pose proof Hti as [[Hst Hst8] Hen _ Hsg _ _].
  pose proof (seg_aligned _ _ _ _ _ _ _ Hst8 Hsg Hin) as (H1 & H2 & H3 & H4 & H5). simpl in *.
  assert (Hr : releasable fa b n = true) by (unfold releasable, kHeaderBytes; rewrite H2; lia).
  unfold releasedSize. destruct (sizesFromHeaders_ fa) eqn:Ef.
  - exists (allocatedSizes_ fa). unfold load, kHeaderBytes in *. rewrite Z.add_simpl_r.
    pose proof Hin as (L1 & L2 & -> & ->)%blocksAt_split. apply seg_app in Hsg as (mid & _ & _ & _ & (h & Hh & Hs) & _).
    rewrite Hh. cbn [mbind option_bind]. rewrite Hs. cbn [mbind option_bind].
    split_and!; [by destruct fa|intros Hf; cbn in Hf; congruence|done].
  - destruct (Htab Ef (b + kHeaderBytes) n) as [_ Ht]. unfold kHeaderBytes in *. rewrite Z.add_simpl_r in Ht.
    rewrite Ht by done. simpl. eexists. split_and!; [done| |done]. intros _ p k. simpl. unfold kHeaderBytes.
    destruct (decide (p = b + 8)) as [->|Hne].
    + rewrite lookup_delete_eq, Z.add_simpl_r. split; [done|]. intros [_ Hn]. destruct Hn. by left.
    + rewrite lookup_delete_ne by done. rewrite (Htab Ef). unfold kHeaderBytes. rewrite not_elem_of_cons.
      assert (p - 8 <> b) by lia. tauto.
Qed.

(** ** One block *)

(** What a release does: the blocks [bs] are free and joined with their neighbours. *)
Record freeing (fa : FreeListAllocator) (m : Mem) (bs : list Z) (L : list Block) (fa' : FreeListAllocator) (m' : Mem) : Prop := {
  fr_tiled : tiled fa' m' (freed bs (start_ fa) L);
  fr_tabled : tabled fa' (freed bs (start_ fa) L);
  fr_arena : start_ fa' = start_ fa /\ end_ fa' = end_ fa /\ sizesFromHeaders_ fa' = sizesFromHeaders_ fa;
  fr_used : keepsUsed (start_ fa) (freed bs (start_ fa) L) m m';
  fr_outside : outside (start_ fa) (end_ fa) m m';
}.

(** A used block that can become a free one. *)
Definition freeable (fa : FreeListAllocator) (L : list Block) (b : Z) : Prop :=
  exists n, (b, Used n) ∈ blocksAt (start_ fa) L /\ kFreeBlockBytes <= n.

Lemma insert_used fa m L b n from : tiled fa m L -> (b, Used n) ∈ blocksAt (start_ fa) L -> kFreeBlockBytes <= n ->
  (from = 0 \/ exists k, (from, Free k) ∈ blocksAt (start_ fa) L /\ from < b) ->
  exists r fa' m', insertAndCoalesce fa m b n from = Some (r, fa', m') /\ released fa m b (freed [b] (start_ fa) L) r fa' m'.
Proof.
  intros Hti Hin Hn Hr. apply blocksAt_split in Hin as (L1 & L2 & -> & ->).
  rewrite (freed_one m _ (freeList_ fa)) by apply Hti. apply insertAndCoalesce_spec; [done..|].
  destruct Hr as [->|(k & Hk & Hlt)]; [by left|]. right. exists k.
  rewrite blocksAt_app in Hk. apply elem_of_app in Hk as [?|Hk]; [done|]. exfalso.
  pose proof (ti_seg _ _ _ Hti) as (mid & _ & Hs)%seg_app. simpl in Hk, Hs. destruct Hs as (_ & _ & _ & Hs).
  apply elem_of_cons in Hk as [?|(La & Lb & -> & ->)%blocksAt_split]; [done|].
  apply seg_app in Hs as (v & Hs%seg_nonneg & _). unfold kFreeBlockBytes in *. lia.
Qed.

Lemma free_spec fa m L b : tiled fa m L -> tabled fa L -> freeable fa L b ->
  exists fa' m', free fa m (b + kHeaderBytes) = Some (fa', m') /\ freeing fa m [b] L fa' m'.
Proof.
  intros Hti Htab (n & Hin & Hn). pose proof (ti_start _ _ _ Hti) as [Hst Hst8].
  pose proof (seg_aligned _ _ _ _ _ _ _ Hst8 (ti_seg _ _ _ Hti) Hin) as (_ & _ & _ & Hb & _).
  destruct (releasedSize_spec fa m L b n []) as (t & E & Htab' & Hr); [done|by apply tabledBut_nil|done|apply not_elem_of_nil|].
  unfold free. replace (b + kHeaderBytes =? 0) with false by (unfold kHeaderBytes; lia).
  rewrite E. simpl. unfold kHeaderBytes. rewrite Z.add_simpl_r, guarded_true by exact Hr.
  destruct (insert_used (setSizes t fa) m L b n 0) as (r & fa' & m' & E' & Hre); [by apply tiled_setSizes|done..|by left|].
  rewrite E'. simpl. exists fa', m'. split; [done|]. destruct Hre as [Hti' Hs Hu Ho _]. simpl in *. destruct Hs as (S1 & S2 & S3 & S4).
  split; try done. pose proof (tabledBut_freed _ _ _ Htab') as H. intros Hf. rewrite S1, S4. apply H. simpl. congruence.
Qed.

(** ** Many blocks *)

Lemma bulkBlocks_spec bs : forall fa m L seen, tiled fa m L -> tabledBut seen fa L -> NoDup bs ->
  (forall b, b ∈ bs -> freeable fa L b /\ b ∉ seen) ->
  exists bl t, bulkBlocks fa m bs = Some (bl, setSizes t fa) /\ bl.*1 = bs /\ tabledBut (bs ++ seen) (setSizes t fa) L /\
    (forall b n, (b, n) ∈ bl -> (b, Used n) ∈ blocksAt (start_ fa) L /\ kFreeBlockBytes <= n).
Proof.
  induction bs as [|b bs IH]; intros fa m L seen Hti Htab Hnd Hbs; simpl.
  - exists [], (allocatedSizes_ fa). replace (setSizes (allocatedSizes_ fa) fa) with fa by by destruct fa.
    split_and!; [done..|]. by intros b n ?%elem_of_nil.
  - apply NoDup_cons in Hnd as [Hb Hnd]. destruct (Hbs b) as [(n & Hin & Hn) Hb']; [by left|].
    destruct (releasedSize_spec fa m L b n seen) as (t & E & Htab' & Hr); [done..|].
    rewrite E. simpl. rewrite guarded_true by exact Hr.
    destruct (IH (setSizes t fa) m L (b :: seen)) as (bl & t' & E' & Hbl & Htab2 & Hall).
    + by apply tiled_setSizes.
    + done.
    + done.
    + intros b2 Hb2. split; [by apply Hbs; right|]. rewrite not_elem_of_cons. split; [by intros ->|].
      by apply Hbs; right.
    + rewrite E'. simpl. exists ((b, n) :: bl), t'. split_and!; [by destruct fa|by rewrite fmap_cons, Hbl| |].
      * intros Hf p k. rewrite (Htab2 Hf). simpl. set_solver.
      * intros b2 n2 [[= -> ->]|H]%elem_of_cons; [done|]. by apply Hall.
Qed.

Lemma insertBulk_spec bl : forall fa m L r, tiled fa m L -> StronglySorted (fun x y => x.1 < y.1) bl ->
  (forall b n, (b, n) ∈ bl -> (b, Used n) ∈ blocksAt (start_ fa) L /\ kFreeBlockBytes <= n) ->
  (r = 0 \/ exists k, (r, Free k) ∈ blocksAt (start_ fa) L /\ forall b n, (b, n) ∈ bl -> r < b) ->
  exists fa' m', insertBulk fa m r bl = Some (fa', m') /\ tiled fa' m' (freed bl.*1 (start_ fa) L) /\
    (start_ fa' = start_ fa /\ end_ fa' = end_ fa /\ sizesFromHeaders_ fa' = sizesFromHeaders_ fa /\
     allocatedSizes_ fa' = allocatedSizes_ fa) /\
    keepsUsed (start_ fa) (freed bl.*1 (start_ fa) L) m m' /\ outside (start_ fa) (end_ fa) m m'.
Proof.
  induction bl as [|[b n] bl IH]; intros fa m L r Hti Hso Hbl Hr; simpl.
  - exists fa, m. unfold freed. rewrite releaseAt_nil, merge_merged_id by apply Hti. by split_and!.
  - inversion_clear Hso as [|? ? Hso' Hb]. destruct (Hbl b n) as [Hin Hn]; [by left|].
    destruct (insert_used fa m L b n r) as (r' & fa1 & m1 & E & [Hti1 (S1 & S2 & S3 & S4) Hu1 Ho1 (k & Hk & Hrb)]); [done..| |].
    { destruct Hr as [->|(k & Hk & Hlt)]; [by left|]. right. exists k. split; [done|]. eapply Hlt. by left. }
    rewrite E. simpl.
    assert (Hlt : forall b2 n2, (b2, n2) ∈ bl -> b < b2).
    { intros b2 n2 H2. rewrite Forall_forall in Hb. by apply Hb in H2. }
    destruct (IH fa1 m1 (freed [b] (start_ fa) L) r') as (fa' & m' & E' & Hti' & (T1 & T2 & T3 & T4) & Hu & Ho); [done|done| | |].
    + intros b2 n2 H2. rewrite S1, freed_used. destruct (Hbl b2 n2) as [H3 H4]; [by right|]. split; [|done].
      split; [done|]. rewrite list_elem_of_singleton. apply Hlt in H2. lia.
    + right. exists k. rewrite S1. split; [done|]. intros b2 n2 H2%Hlt. lia.
    + exists fa', m'. rewrite S1, freed_two in *. split_and!; try done; try congruence.
      * intros p j x Hp Hx. rewrite (Hu p j x Hp Hx). apply (Hu1 p j x); [|done].
        apply freed_used in Hp as [Hp Hp2]. apply freed_used. split; [done|]. simpl in Hp2. set_solver.
      * intros x Hx. rewrite Ho by congruence. by apply Ho1.
Qed.

Lemma bulkApart_ok fa m L bl : tiled fa m L -> StronglySorted (fun x y => x.1 < y.1) bl ->
  (forall b n, (b, n) ∈ bl -> (b, Used n) ∈ blocksAt (start_ fa) L) -> bulkApart bl = true.
Proof.
  intros Hti. induction bl as [|[b n] bl IH]; intros Hs Hbl; [done|]. inversion_clear Hs as [|? ? Hs' Hb].
  assert (Hbl' : forall b n, (b, n) ∈ bl -> (b, Used n) ∈ blocksAt (start_ fa) L) by (intros; apply Hbl; by right).
  specialize (IH Hs' Hbl'). destruct bl as [|[b2 n2] bl]; [done|]. cbn [bulkApart] in *. rewrite IH, andb_true_r.
  rewrite Forall_forall in Hb. specialize (Hb (b2, n2) ltac:(by left)). simpl in Hb.
  specialize (Hbl b n ltac:(by left)). specialize (Hbl' b2 n2 ltac:(by left)).
  pose proof (ti_start _ _ _ Hti) as [_ Hst8].
  pose proof (seg_aligned _ _ _ _ _ _ _ Hst8 (ti_seg _ _ _ Hti) Hbl') as (_ & _ & ? & _).
  destruct (blocks_disjoint _ _ _ _ _ _ _ _ _ (ti_seg _ _ _ Hti) Hbl Hbl') as [[? _]|[Hd|Hd]]; simpl in *; lia.
Qed.

(** [freeBulk] makes all the blocks of its argument free, whatever their order. *)
Lemma freeBulk_spec fa m L bs : tiled fa m L -> tabled fa L -> NoDup bs -> (forall b, b ∈ bs -> freeable fa L b) ->
  exists fa' m', freeBulk fa m bs = Some (fa', m') /\ freeing fa m bs L fa' m'.
Proof.
  intros Hti Htab Hnd Hbs. destruct (decide (bs = [])) as [->|E0].
  { exists fa, m. split; [done|]. assert (E : freed [] (start_ fa) L = L).
    { unfold freed. rewrite releaseAt_nil. apply merge_merged_id, Hti. }
    split; rewrite ?E; by try split_and!. }
  assert (Em : freeBulk fa m bs = '(blocks, fa) ← bulkBlocks fa m bs;
    GUARD bulkApart (sortBy (fun b => Z.to_nat b.1) blocks);; insertBulk fa m 0 (sortBy (fun b => Z.to_nat b.1) blocks))
    by by destruct bs.
  destruct (bulkBlocks_spec bs fa m L []) as (bl & t & E & Hfst & Htab' & Hall); [done|by apply tabledBut_nil|done| |].
  { intros b Hb. split; [by apply Hbs|]. apply not_elem_of_nil. }
  rewrite app_nil_r in Htab'. set (sorted := sortBy (fun b : Z * Z => Z.to_nat b.1) bl).
  assert (Hp : sorted ≡ₚ bl) by apply sortBy_perm.
  pose proof (ti_start _ _ _ Hti) as [Hst Hst8].
  assert (Hpos : forall b n, (b, n) ∈ bl -> 0 < b).
  { intros b n [Hin _]%Hall. pose proof (seg_aligned _ _ _ _ _ _ _ Hst8 (ti_seg _ _ _ Hti) Hin). simpl in *. lia. }
  assert (Hso : StronglySorted (fun x y : Z * Z => x.1 < y.1) sorted).
  { assert (Hs : StronglySorted (fun x y : Z * Z => (Z.to_nat x.1 < Z.to_nat y.1)%nat) sorted).
    { apply sortBy_sorted. change (NoDup ((Z.to_nat ∘ fst) <$> bl)). rewrite list_fmap_compose, Hfst.
      apply NoDup_fmap_2_strong; [|done]. intros x y Hx Hy.
      rewrite <- Hfst in Hx, Hy. apply list_elem_of_fmap in Hx as ([? ?] & -> & ?%Hpos).
      apply list_elem_of_fmap in Hy as ([? ?] & -> & ?%Hpos). simpl in *. lia. }
    clear -Hs. induction Hs as [|x l Hs IH Hx]; constructor; [done|]. eapply Forall_impl; [exact Hx|]. simpl. lia. }
  assert (Hall' : forall b n, (b, n) ∈ sorted -> (b, Used n) ∈ blocksAt (start_ fa) L /\ kFreeBlockBytes <= n).
  { intros b n. rewrite Hp. apply Hall. }
  destruct (insertBulk_spec sorted (setSizes t fa) m L 0) as (fa' & m' & E' & Hti' & (S1 & S2 & S3 & S4) & Hu & Ho);
    [by apply tiled_setSizes|done|done|by left|].
  assert (Ef : freed sorted.*1 (start_ fa) L = freed bs (start_ fa) L).
  { unfold freed. f_equal. apply releaseAt_perm. intros x. by rewrite Hp, Hfst. }
  simpl in *. rewrite Ef in *. exists fa', m'. split.
  - rewrite Em, E. cbn [mbind option_bind]. fold sorted.
    rewrite guarded_true; [done|]. eapply bulkApart_ok; [exact Hti|done|]. intros b n Hb. by apply Hall'.
  - split; try done. pose proof (tabledBut_freed _ _ _ Htab') as H. intros Hf. rewrite S1, S4. apply H. simpl. congruence.
Qed.

(** * Scans of a free list's arena

    [iterateAllocated] visits the used blocks, [available] counts the free bytes, and [validate]
    accepts exactly the arenas that are sequences of blocks. [create] and [reset] make one free
    block. *)

#[local] Opaque walkFuel.

(** The addresses of the used blocks. *)
Fixpoint usedAt (a : Z) (L : list Block) : list Z :=
  match L with [] => [] | Free n :: L => usedAt (a + n) L | Used n :: L => a :: usedAt (a + n) L end.

Lemma elem_of_usedAt a L p : p ∈ usedAt a L <-> exists n, (p, Used n) ∈ blocksAt a L.
Proof.
  revert a. induction L as [|[n|n] L IH]; intros a; simpl.
  - rewrite elem_of_nil. split; [done|]. intros [n Hn]. by apply elem_of_nil in Hn.
  - rewrite IH. split; intros [k Hk]; exists k; [by right|]. by apply elem_of_cons in Hk as [?|?].
  - rewrite elem_of_cons, IH. split.
    + intros [->|[k Hk]]; [exists n; by left|exists k; by right].
    + intros [k [[= -> ->]|Hk]%elem_of_cons]; [by left|right; by exists k].
Qed.

Lemma iterateFrom_spec fa m L : forall fuel a fb, 0 < a -> seg m a fb L 0 -> a + len L = end_ fa -> (length L < fuel)%nat ->
  iterateFrom fuel fa m a fb = Some (usedAt a L).
Proof.
  induction L as [|[n|n] L IH]; intros fuel a fb Ha Hs He Hf; (destruct fuel as [|fuel]; [simpl in Hf; lia|]).
  - simpl in Hs. subst fb. rewrite len_nil in He. cbn [iterateFrom usedAt].
    replace (a <? end_ fa) with false by lia.
    rewrite guarded_true by lia. done.
  - destruct Hs as (-> & Hn & H8 & Hm & next & Hnext & Hs). pose proof (seg_nonneg _ _ _ _ _ Hs). rewrite len_cons in He. simpl in He.
    unfold kFreeBlockBytes in *. cbn [iterateFrom usedAt]. replace (a <? end_ fa) with true by lia.
    replace (negb (a =? 0) && (a =? a)) with true by lia. unfold blockSize, blockNext, load. rewrite Hm, Hnext.
    cbn [mbind option_bind]. rewrite !guarded_true by (unfold kFreeBlockBytes; lia). apply IH; [lia|done|lia|simpl in Hf; lia].
  - destruct Hs as (Hn & H8 & (h & Hh & Hsz) & Hs). pose proof (seg_nonneg _ _ _ _ _ Hs). rewrite len_cons in He. simpl in He.
    unfold kHeaderBytes in *. pose proof (seg_first m (a + n) fb L ltac:(lia) Hs) as Hfb.
    cbn [iterateFrom usedAt]. replace (a <? end_ fa) with true by lia.
    replace (negb (fb =? 0) && (fb =? a)) with false by lia. rewrite guarded_true by lia. unfold load. rewrite Hh.
    cbn [mbind option_bind]. rewrite Hsz. cbn [mbind option_bind]. rewrite !guarded_true by (unfold kHeaderBytes; lia).
    rewrite (IH fuel (a + n) fb) by (lia || done || (simpl in Hf; lia)). done.
Qed.

Lemma iterateAllocated_spec fa m L : tiled fa m L -> iterateAllocated fa m = Some (usedAt (start_ fa) L).
Proof. intros H. apply iterateFrom_spec; [apply H..|by eapply walkFuel_enough]. Qed.

Lemma availableFrom_spec m L : forall fuel a fb visited total, 0 < a -> seg m a fb L 0 ->
  (forall x, x ∈ visited -> x < a) -> (length L < fuel)%nat ->
  availableFrom fuel m fb visited total = Some (total + freeBytes L).
Proof.
  induction L as [|[n|n] L IH]; intros fuel a fb visited total Ha Hs Hv Hf; lens.
  - simpl in Hs. subst fb. destruct fuel; simpl; by rewrite Z.add_0_r.
  - destruct fuel as [|fuel]; [simpl in Hf; lia|]. destruct Hs as (-> & Hn & H8 & Hm & next & Hnext & Hs).
    unfold kFreeBlockBytes in *. cbn [availableFrom]. replace (a =? 0) with false by lia.
    rewrite guarded_true by (apply bool_decide_eq_true_2; intros ?%Hv; lia).
    unfold blockSize, blockNext, load. rewrite Hm, Hnext. cbn [mbind option_bind].
    rewrite guarded_true by (unfold kFreeBlockBytes; lia).
    rewrite (IH fuel (a + n)); [simpl; f_equal; lia|lia|done| |simpl in Hf; lia].
    intros x. rewrite elem_of_union, elem_of_singleton. intros [->|?%Hv]; lia.
  - destruct Hs as (Hn & H8 & _ & Hs). unfold kHeaderBytes in *. simpl.
    rewrite (IH fuel (a + n)); [f_equal; lia|lia|done| |simpl in Hf; lia]. intros x ?%Hv. lia.
Qed.

Lemma available_spec fa m L : tiled fa m L -> available fa m = Some (freeBytes L).
Proof.
  intros H. unfold available. rewrite (availableFrom_spec m L _ (start_ fa)); [done|apply H..| |by eapply walkFuel_enough].
  intros x ?%elem_of_empty. done.
Qed.

Lemma bytes_len L : freeBytes L + usedBytes L = len L.
Proof. induction L as [|[n|n] L IH]; [done|..]; rewrite len_cons; simpl; lia. Qed.

Lemma merge_bytes L : freeBytes (merge L) = freeBytes L.
Proof. induction L as [|[n|n] L IH]; simpl; [done|..]; [|by rewrite IH]. destruct (merge L) as [|[k|k] L']; simpl in *; lia. Qed.

(** ** One free block *)

Lemma create_spec capacity start h m : 0 < start -> start mod 8 = 0 -> 16 <= capacity < 2 ^ 48 - 8 ->
  let n := (capacity + 7) / 8 * 8 in
  backed m start (start + n) ->
  exists fa m', create capacity start h m = Some (fa, m') /\ tiled fa m' [Free n] /\ tabled fa [Free n] /\
    start_ fa = start /\ end_ fa = start + n /\ sizesFromHeaders_ fa = h /\ outside start (start + n) m m'.
Proof.
  intros Hs Hs8 Hc n Hb. unfold create. rewrite alignUp_8 by lia. fold n.
  assert (Hn : capacity <= n < capacity + 8).
  { subst n. pose proof (Z.mod_pos_bound (capacity + 7) 8). rewrite Z.mod_eq in * by lia. lia. }
  assert (Hn8 : n mod 8 = 0) by by subst n; rewrite Z.mod_mul.
  rewrite (setBlock_Some m start (start + n)) by (done || lia). simpl. eexists _, _. split; [done|].
  split_and!; try done.
  - split; simpl; try done.
    + rewrite len_cons, len_nil. simpl. lia.
    + rewrite len_cons, len_nil. simpl. lia.
    + unfold kFreeBlockBytes. split_and!; try done; try lia.
      * rewrite lookup_insert_ne by lia. apply lookup_insert_eq.
      * exists 0. by rewrite lookup_insert_eq.
    + by do 2 apply backed_insert.
  - intros _ p k. simpl. rewrite lookup_empty. split; [done|]. set_solver.
  - intros x Hx. by rewrite !lookup_insert_ne by lia.
Qed.

Lemma reset_spec fa m L : tiled fa m L -> 16 <= len L ->
  exists fa' m', reset fa m = Some (fa', m') /\ tiled fa' m' [Free (len L)] /\ tabled fa' [Free (len L)] /\
    start_ fa' = start_ fa /\ end_ fa' = end_ fa /\ sizesFromHeaders_ fa' = sizesFromHeaders_ fa /\
    outside (start_ fa) (end_ fa) m m'.
Proof.
  intros [[Hst Hst8] Hen Hsm Hsg _ Hb] Hl. destruct (seg_len _ _ _ _ _ Hsg) as [_ H8].
  unfold reset. replace (end_ fa - start_ fa) with (len L) by lia.
  rewrite (setBlock_Some m (start_ fa) (end_ fa)) by (done || lia). simpl. eexists _, _. split; [done|].
  split_and!; try done.
  - split; simpl; try done; try (rewrite len_cons, len_nil; simpl; lia).
    + unfold kFreeBlockBytes. split_and!; try done.
      * rewrite lookup_insert_ne by lia. apply lookup_insert_eq.
      * exists 0. by rewrite lookup_insert_eq.
    + by do 2 apply backed_insert.
  - intros _ p k. simpl. rewrite lookup_empty. split; [done|]. set_solver.
  - intros x Hx. by rewrite !lookup_insert_ne by lia.
Qed.

(** ** The check of the structure *)

(** What is said of the last free block seen: it ends in front of [a], and a free block at [a] is
    not its neighbour. *)
Definition prevOk (prev : option (Z * Z)) (a : Z) (L : list Block) : Prop :=
  match prev with
  | Some (b, n) => (0 <= n /\ 0 <= b) /\ b + n <= a /\ (b + n = a -> match L with Free _ :: _ => False | _ => True end)
  | None => True
  end.

Lemma merged_cons_free n a L : 0 <= a -> merged (Free n :: L) -> merged L /\ prevOk (Some (a, n)) (a + n) L \/ n < 0.
Proof. intros Ha H. destruct (Z.lt_ge_cases n 0); [by right|left]. by destruct L as [|[]]; simpl in *; split_and!. Qed.

Lemma freeBytes_bounds m a fb L fb' : seg m a fb L fb' -> 0 <= freeBytes L /\ 0 <= usedBytes L.
Proof.
  revert a fb. induction L as [|[n|n] L IH]; intros a fb Hs; simpl in *; [done|..].
  - destruct Hs as (_ & Hn & _ & _ & next & _ & Hs). destruct (IH _ _ Hs). unfold kFreeBlockBytes in *. lia.
  - destruct Hs as (Hn & _ & _ & Hs). destruct (IH _ _ Hs). unfold kHeaderBytes in *. lia.
Qed.

Lemma u64_small n : 0 <= n < 2 ^ 64 -> u64 n = n.
Proof. intros. unfold u64. by apply Z.mod_small. Qed.

(** The space behind the addresses of a program. *)
Definition inUserSpace (fa : FreeListAllocator) : Prop := end_ fa <= 2 ^ 63.

Lemma validateList_spec fa m L : inUserSpace fa -> forall fuel a fb seen prev total, 0 < a -> start_ fa <= a -> seg m a fb L 0 -> a + len L = end_ fa ->
  merged L -> prevOk prev a L -> (forall x, x ∈ seen -> x < a) -> (length L < fuel)%nat -> 0 <= total -> total + freeBytes L < 2 ^ 64 ->
  validateList fuel fa m fb seen prev total = Some (Some (total + freeBytes L)).
Proof.
  unfold inUserSpace. intros Hus. induction L as [|[n|n] L IH]; intros fuel a fb seen prev total Ha Hsa Hs He Hm Hp Hv Hf Ht0 Ht.
  - simpl in Hs. subst fb. destruct fuel; simpl; by rewrite Z.add_0_r.
  - destruct fuel as [|fuel]; [simpl in Hf; lia|]. destruct Hs as (-> & Hn & H8 & Hw & next & Hnext & Hs).
    pose proof (seg_nonneg _ _ _ _ _ Hs). destruct (freeBytes_bounds _ _ _ _ _ Hs). rewrite len_cons in He. simpl in He, Ht.
    unfold kFreeBlockBytes in *. cbn [validateList]. replace (a =? 0) with false by lia.
    rewrite bool_decide_eq_false_2 by (intros ?%Hv; lia). replace ((a <? start_ fa) || (end_ fa <=? a)) with false by lia.
    unfold blockSize, blockNext, load. rewrite Hw, Hnext. cbn [mbind option_bind]. unfold kFreeBlockBytes.
    rewrite (u64_small (a + n)), (u64_small (total + n)) by lia.
    replace ((end_ fa <? a + n) || (n <? 16) || negb (n mod 8 =? 0)) with false by lia.
    assert (E : match prev with Some (b, l) => (a <=? b) || (a <=? u64 (b + l)) | None => false end = false).
    { destruct prev as [[b l]|]; [|done]. destruct Hp as (? & ? & Hp). rewrite u64_small by lia. destruct (Z.eq_dec (b + l) a); [tauto|lia]. }
    rewrite E. destruct (merged_cons_free n a L ltac:(lia) Hm) as [[Hm' Hp']|]; [|lia].
    rewrite (IH fuel (a + n)); [simpl; do 2 f_equal; lia|lia|lia|done|lia|done|done| |simpl in Hf; lia|lia|lia].
    intros x. rewrite elem_of_union, elem_of_singleton. intros [->|?%Hv]; lia.
  - destruct Hs as (Hn & H8 & _ & Hs). unfold kHeaderBytes in *. rewrite len_cons in He. simpl in He, Hm |- *.
    rewrite (IH fuel (a + n)); [done|lia|lia|done|lia|done| | |simpl in Hf; lia|lia|simpl in Ht; lia].
    + destruct prev as [[b l]|]; [|done]. destruct Hp as (? & ? & _). simpl. split_and!; lia.
    + intros x ?%Hv. lia.
Qed.

Lemma validateArena_spec fa m L : inUserSpace fa -> forall fuel a fb allocated free, 0 < a -> start_ fa <= a -> seg m a fb L 0 -> a + len L = end_ fa ->
  (length L < fuel)%nat -> 0 <= allocated -> 0 <= free -> free + (allocated + usedBytes L) < 2 ^ 64 ->
  validateArena fuel fa m a fb allocated free = Some (free + (allocated + usedBytes L) =? end_ fa - start_ fa).
Proof.
  unfold inUserSpace. intros Hus. induction L as [|[n|n] L IH]; intros fuel a fb allocated free Ha Hsa Hs He Hf Hal Hfr Ht; (destruct fuel as [|fuel]; [simpl in Hf; lia|]).
  - simpl in Hs. subst fb. rewrite len_nil in He. cbn [validateArena]. replace (a <? end_ fa) with false by lia.
    replace (a =? end_ fa) with true by lia. simpl in Ht |- *. rewrite Z.add_0_r in *. by rewrite u64_small by lia.
  - destruct Hs as (-> & Hn & H8 & Hm & next & Hnext & Hs). pose proof (seg_nonneg _ _ _ _ _ Hs). rewrite len_cons in He. simpl in He.
    unfold kFreeBlockBytes in *. cbn [validateArena]. replace (a <? end_ fa) with true by lia.
    replace (negb (a =? 0) && (a =? a)) with true by lia. replace ((a <? start_ fa) || (end_ fa <=? a)) with false by lia.
    unfold blockSize, blockNext, load. rewrite Hm, Hnext. cbn [mbind option_bind]. rewrite (u64_small (a + n)) by lia.
    rewrite (IH fuel (a + n)); [done|lia|lia|done|lia|simpl in Hf; lia|lia|lia|simpl in Ht; lia].
  - destruct Hs as (Hn & H8 & (h & Hh & Hsz) & Hs). pose proof (seg_nonneg _ _ _ _ _ Hs). destruct (freeBytes_bounds _ _ _ _ _ Hs).
    rewrite len_cons in He. simpl in He, Ht. unfold kHeaderBytes in *. pose proof (seg_first m (a + n) fb L ltac:(lia) Hs) as Hfb.
    cbn [validateArena]. replace (a <? end_ fa) with true by lia.
    replace (negb (fb =? 0) && (fb =? a)) with false by lia. replace (negb (fb =? 0) && (fb <? a)) with false by lia.
    unfold load. rewrite Hh. cbn [mbind option_bind]. rewrite Hsz. cbn [mbind option_bind]. unfold kHeaderBytes. rewrite (u64_small (a + n)), (u64_small (allocated + n)) by lia.
    replace ((n <? 8) || negb (n mod 8 =? 0) || (end_ fa <? a + n)) with false by lia.
    replace (negb (fb =? 0) && (fb <? a + n)) with false by lia.
    rewrite (IH fuel (a + n)); [simpl; do 3 f_equal; lia|lia|lia|done|lia|simpl in Hf; lia|lia|lia|lia].
Qed.

Lemma validate_accepts fa m L : inUserSpace fa -> tiled fa m L -> validate fa m = Some true.
Proof.
  intros Hus Hti. pose proof Hti as [[Hst _] Hen _ Hsg Hmg _]. pose proof (walkFuel_enough _ _ _ Hti). unfold validate.
  pose proof (bytes_len L). destruct (freeBytes_bounds _ _ _ _ _ Hsg). pose proof (ti_small _ _ _ Hti).
  rewrite (validateList_spec fa m L Hus _ (start_ fa)) by (done || lia || intros ? ?%elem_of_empty; done). cbn [mbind option_bind].
  rewrite (validateArena_spec fa m L Hus) by (done || lia || nia). f_equal. lia.
Qed.

(** The blocks on the free list. *)
Inductive listed (fa : FreeListAllocator) (m : Mem) : Z -> Prop :=
  | ls_head : freeList_ fa <> 0 -> listed fa m (freeList_ fa)
  | ls_next a b : listed fa m a -> blockNext m a = Some b -> b <> 0 -> listed fa m b.

(** No listed block claims to reach over the end of the 64-bit addresses. *)
Definition sizesFit (fa : FreeListAllocator) (m : Mem) : Prop :=
  forall a n, listed fa m a -> blockSize m a = Some n -> a + n < 2 ^ 64.

Lemma size_bound h n : size h = Some n -> 0 <= n < 2 ^ 48.
Proof.
  unfold size. intros [_ [= <-]]%guarded_Some. apply bits_range. lia.
Qed.

(** What [validate] has checked is a sequence of blocks. *)
Lemma validate_scan fa m T : inUserSpace fa -> sizesFit fa m -> forall fuel a fb fuelL seen prev total allocated free, 0 < a -> start_ fa <= a <= end_ fa ->
  validateList fuelL fa m fb seen prev total = Some (Some T) ->
  validateArena fuel fa m a fb allocated free = Some true -> prevOk prev a [] -> (fb <> 0 -> listed fa m fb) ->
  exists L, seg m a fb L 0 /\ a + len L = end_ fa /\ merged L /\ prevOk prev a L.
Proof.
  unfold inUserSpace. intros Hus Hfit.
  induction fuel as [|fuel IH]; intros a fb fuelL seen prev total allocated free Ha Hsa HL HA Hp Hli; cbn [validateArena] in HA.
  { destruct (Z.ltb_spec a (end_ fa)); [done|]. injection HA as HA. exists []. simpl. split_and!; [lia|lens|done|done]. }
  destruct (Z.ltb_spec a (end_ fa)) as [Hlt|Hge].
  2: { injection HA as HA. exists []. simpl. split_and!; [lia|lens|done|done]. }
  destruct (negb (fb =? 0) && (fb =? a)) eqn:Efb.
  - assert (fb = a) as -> by lia. replace ((a <? start_ fa) || (end_ fa <=? a)) with false in HA by lia.
    destruct fuelL as [|fuelL]; cbn [validateList] in HL; replace (a =? 0) with false in HL by lia; [done|].
    destruct (bool_decide (a ∈ seen)); [done|]. replace ((a <? start_ fa) || (end_ fa <=? a)) with false in HL by lia.
    assert (Hla : listed fa m a) by (apply Hli; lia).
    destruct (blockSize m a) as [n|] eqn:En; [|done]. cbn [mbind option_bind] in HA, HL. pose proof (Hfit a n Hla En).
    destruct (Z.lt_ge_cases n 0) as [Hneg|Hn0].
    { replace (n <? kFreeBlockBytes) with true in HL by (unfold kFreeBlockBytes; lia). by rewrite orb_true_r in HL. }
    rewrite (u64_small (a + n)) in HA, HL by lia.
    destruct ((end_ fa <? a + n) || (n <? kFreeBlockBytes) || negb (n mod 8 =? 0)) eqn:Ec; [done|].
    destruct (match prev with Some (b, l) => (a <=? b) || (a <=? u64 (b + l)) | None => false end) eqn:Ep; [done|].
    destruct (blockNext m a) as [next|] eqn:Enx; [|done]. cbn [mbind option_bind] in HA, HL. unfold kFreeBlockBytes in Ec.
    destruct (IH (a + n) next fuelL _ _ _ _ _ ltac:(lia) ltac:(lia) HL HA) as (L & Hs & He & Hm & Hp').
    { simpl. split_and!; (lia || done). }
    { intros Hnx. by eapply ls_next. }
    exists (Free n :: L). unfold kFreeBlockBytes. split_and!.
    + simpl. unfold kFreeBlockBytes. split_and!; [done|lia|lia|done|]. by exists next.
    + rewrite len_cons. simpl. lia.
    + simpl in Hp'. destruct L as [|[k|k] L]; [done| |done]. by apply Hp'.
    + destruct prev as [[b l]|]; [|done]. simpl in *. destruct Hp as (? & ? & _). rewrite u64_small in Ep by lia. split_and!; lia.
  - destruct (negb (fb =? 0) && (fb <? a)) eqn:E2; [done|]. destruct (load m a) as [h|] eqn:Eh; [|done].
    cbn [mbind option_bind] in HA. destruct (size h) as [n|] eqn:En; [|done]. cbn [mbind option_bind] in HA.
    pose proof (size_bound _ _ En). rewrite (u64_small (a + n)) in HA by lia.
    destruct ((n <? kHeaderBytes) || negb (n mod 8 =? 0) || (end_ fa <? a + n)) eqn:Ec; [done|].
    destruct (negb (fb =? 0) && (fb <? a + n)) eqn:E3; [done|]. unfold kHeaderBytes in Ec.
    destruct (IH (a + n) fb fuelL seen prev total _ _ ltac:(lia) ltac:(lia) HL HA) as (L & Hs & He & Hm & Hp').
    { destruct prev as [[b l]|]; [|done]. simpl in *. split_and!; (lia || done). }
    { done. }
    exists (Used n :: L). unfold kHeaderBytes. split_and!.
    + simpl. unfold kHeaderBytes. split_and!; [lia|lia| |done]. by exists h.
    + rewrite len_cons. simpl. lia.
    + done.
    + destruct prev as [[b l]|]; [|done]. simpl in *. split_and!; (lia || done).
Qed.

Lemma arena_validate_exact fa m : inUserSpace fa -> 0 < start_ fa -> start_ fa mod 8 = 0 -> start_ fa <= end_ fa < start_ fa + 2 ^ 48 ->
  backed m (start_ fa) (end_ fa) -> sizesFit fa m -> validate fa m = Some true <-> exists L, tiled fa m L.
Proof.
  intros Hus Hst Hst8 He Hb Hfit. split; [|intros [L HL]; by eapply validate_accepts]. unfold validate. intros H.
  destruct (validateList _ _ _ _ _ _ _) as [[T|]|] eqn:EL; [|done|done]. cbn [mbind option_bind] in H.
  destruct (validate_scan fa m T Hus Hfit _ _ _ _ _ _ _ _ _ Hst ltac:(lia) EL H I) as (L & Hs & Hl & Hm & _); [intros; by constructor|].
  exists L. split; try done. lia.
Qed.
