(* ===== verification/FreeListHistory.v ===== *)
(** * Histories of a free-list allocator

    A client creates an allocator, allocates, writes into what it got, changes the marks of
    headers, and releases, one by one or in bulk ([history]). Along every history the arena is a
    sequence of blocks whose used ones are what the client holds, every operation returns, and a
    client that has given everything back has one free block again. *)

From stdpp Require Import gmap.
From S2P Require Import Prelude ObjHeader FreeList FreeListInv FreeListOps FreeListBulk.
#[local] Open Scope Z_scope.

(** The blocks in the hands of a client: the bytes of each by its payload. *)
Definition holding (fa : FreeListAllocator) (L : list Block) (live : gmap Z Z) : Prop :=
  forall p n, live !! p = Some n <-> (p - kHeaderBytes, Used n) ∈ blocksAt (start_ fa) L.

Definition roomy (L : list Block) : Prop := forall n, Used n ∈ L -> kFreeBlockBytes <= n.

Record served (fa : FreeListAllocator) (m : Mem) (L : list Block) (live : gmap Z Z) : Prop := {
  sv_tiled : tiled fa m L;
  sv_tabled : tabled fa L;
  sv_live : holding fa L live;
  sv_roomy : roomy L;
}.

(** The end of the block with the payload [p]. *)
Definition blockEnd (p n : Z) : Z := p - kHeaderBytes + n.

Inductive history (capacity start : Z) (sizesFromHeaders : bool) (m0 : Mem) : FreeListAllocator -> Mem -> gmap Z Z -> Prop :=
  | h_create fa m : create capacity start sizesFromHeaders m0 = Some (fa, m) -> history capacity start sizesFromHeaders m0 fa m ∅
  | h_alloc fa m live n p fa' m' : history capacity start sizesFromHeaders m0 fa m live ->
      1 <= n < 2 ^ 64 - 15 -> alloc fa m n = Some (p, fa', m') ->
      history capacity start sizesFromHeaders m0 fa' m'
        (if p =? 0 then live
         else match load m' (p - kHeaderBytes) ≫= size with Some k => <[p := k]> live | None => live end)
  | h_write fa m live p n a v : history capacity start sizesFromHeaders m0 fa m live ->
      live !! p = Some n -> p <= a < blockEnd p n ->
      history capacity start sizesFromHeaders m0 fa (<[a := v]> m) live
  | h_header fa m live p n h h' : history capacity start sizesFromHeaders m0 fa m live ->
      live !! p = Some n -> load m (p - kHeaderBytes) = Some h -> size h' = size h ->
      history capacity start sizesFromHeaders m0 fa (<[p - kHeaderBytes := h']> m) live
  | h_free fa m live p fa' m' : history capacity start sizesFromHeaders m0 fa m live ->
      is_Some (live !! p) -> free fa m p = Some (fa', m') ->
      history capacity start sizesFromHeaders m0 fa' m' (delete p live)
  | h_freeBulk fa m live ps fa' m' : history capacity start sizesFromHeaders m0 fa m live ->
      NoDup ps -> (forall p, p ∈ ps -> is_Some (live !! p)) -> freeBulk fa m ((fun p => p - kHeaderBytes) <$> ps) = Some (fa', m') ->
      history capacity start sizesFromHeaders m0 fa' m' (foldr delete live ps).

(** ** The used blocks after each operation *)

Lemma elem_blocksAt a L b : b ∈ L <-> exists p, (p, b) ∈ blocksAt a L.
Proof.
  revert a. induction L as [|c L IH]; intros a; simpl.
  - split; [by intros ?%elem_of_nil|]. by intros [p ?%elem_of_nil].
  - rewrite elem_of_cons, (IH (a + blen c)). split.
    + intros [->|[p Hp]]; [exists a; by left|exists p; by right].
    + intros [p [[= -> ->]|Hp]%elem_of_cons]; [by left|right; by exists p].
Qed.

Lemma allocBlocks_used a total L off L' : allocBlocks total L = Some (off, L') ->
  exists n, total <= n /\ (forall p k, (p, Used k) ∈ blocksAt a L' <->
    (p, Used k) ∈ blocksAt a L \/ (p = a + off /\ k = n)) /\ (n = total \/ Free n ∈ L).
Proof.
  unfold allocBlocks. destruct (firstFit total L) as [[[L1 n] L2]|] eqn:E; [|done]. simpl. intros [= <- <-].
  apply firstFit_split in E as [-> Hn]. destruct (Z.leb_spec kFreeBlockBytes (n - total)).
  - exists total. split_and!; [lia| |by left]. intros p k. rewrite !blocksAt_app. simpl.
    replace (a + len L1 + total + (n - total)) with (a + len L1 + n) by lia.
    rewrite !elem_of_app, !elem_of_cons. naive_solver.
  - exists n. split_and!; [lia| |right; set_solver]. intros p k. rewrite !blocksAt_app. simpl.
    rewrite !elem_of_app, !elem_of_cons. naive_solver.
Qed.

Lemma freed_roomy bs a L : roomy L -> roomy (freed bs a L).
Proof.
  intros H n Hn. apply (elem_blocksAt a) in Hn as [p Hp]. apply freed_used in Hp as [Hp _].
  apply H, (elem_blocksAt a). by exists p.
Qed.

Lemma seg_big m a fb L fb' n : seg m a fb L fb' -> Free n ∈ L -> kFreeBlockBytes <= n.
Proof.
  intros Hs [p Hp]%(elem_blocksAt a). apply blocksAt_split in Hp as (L1 & L2 & -> & ->).
  apply seg_app in Hs as (mid & _ & Hs). simpl in Hs. tauto.
Qed.

Lemma served_freeable fa m L live p : served fa m L live -> is_Some (live !! p) -> freeable fa L (p - kHeaderBytes).
Proof.
  intros [_ _ Hl Hr] [n Hn]. apply Hl in Hn. exists n. split; [done|]. apply Hr, (elem_blocksAt (start_ fa)). by exists (p - kHeaderBytes).
Qed.

(** A word of a used block that is not its header, or a header with the same size. *)
Lemma seg_write m a fb L fb' b n x v : seg m a fb L fb' -> (b, Used n) ∈ blocksAt a L -> b <= x < b + n ->
  (x = b -> size v = Some n) -> (x <> b -> b + 8 <= x) -> seg (<[x := v]> m) a fb L fb'.
Proof.
  intros Hs (L1 & L2 & -> & ->)%blocksAt_split Hx Hh Hw. apply seg_app in Hs as (mid & Hs1 & Hn & H8 & (h & Hm & Hsz) & Hs2).
  pose proof (seg_nonneg _ _ _ _ _ Hs1). pose proof (seg_nonneg _ _ _ _ _ Hs2).
  apply seg_app. exists mid. split; [eapply seg_frame; [|exact Hs1]; intros y Hy; by rewrite lookup_insert_ne by lia|].
  split_and!; [done..| |].
  - destruct (decide (x = a + len L1)) as [->|Hne].
    + exists v. rewrite lookup_insert_eq. auto.
    + exists h. rewrite lookup_insert_ne by done. done.
  - eapply seg_frame; [|exact Hs2]. intros y Hy. by rewrite lookup_insert_ne by lia.
Qed.

Lemma tiled_write fa m L b n x v : tiled fa m L -> (b, Used n) ∈ blocksAt (start_ fa) L -> b <= x < b + n ->
  (x = b -> size v = Some n) -> (x <> b -> b + 8 <= x) -> tiled fa (<[x := v]> m) L.
Proof. intros [? ? ? ? ? ?] ? ? ? ?. split; try done; [by eapply seg_write|by apply backed_insert]. Qed.

Lemma tiled_used fa m L b n : tiled fa m L -> (b, Used n) ∈ blocksAt (start_ fa) L ->
  exists h, m !! b = Some h /\ size h = Some n /\ kHeaderBytes <= n.
Proof.
  intros Hti (L1 & L2 & -> & ->)%blocksAt_split. pose proof (ti_seg _ _ _ Hti) as (mid & _ & Hn & _ & (h & Hh & Hs) & _)%seg_app.
  by exists h.
Qed.

Lemma foldr_delete_lookup (live : gmap Z Z) ps p : foldr delete live ps !! p = if decide (p ∈ ps) then None else live !! p.
Proof.
  induction ps as [|q ps IH]; cbn [foldr].
  - by destruct (decide (p ∈ [])) as [?%elem_of_nil|].
  - destruct (decide (p = q)) as [->|Hne].
    + rewrite lookup_delete_eq. destruct (decide (q ∈ q :: ps)) as [|H]; [done|]. destruct H. by left.
    + rewrite lookup_delete_ne, IH by done. destruct (decide (p ∈ ps)), (decide (p ∈ q :: ps)) as [H|H]; try done.
      * destruct H. by right.
      * by apply elem_of_cons in H as [?|?].
Qed.

Lemma served_freed fa m L live bs fa' m' live' : served fa m L live -> freeing fa m bs L fa' m' ->
  (forall p, live' !! p = if decide (p - kHeaderBytes ∈ bs) then None else live !! p) ->
  served fa' m' (freed bs (start_ fa) L) live'.
Proof.
  intros [Hti Ht Hl Hr] [Hti' Ht' (Es & _) _ _] Hlive. split; [done..| |by apply freed_roomy].
  intros p n. rewrite Es, freed_used, Hlive, <- (Hl p n). destruct (decide _); naive_solver.
Qed.

Lemma served_alloc fa m L live n : served fa m L live -> 1 <= n < 2 ^ 64 - 15 ->
  exists p fa' m' L', alloc fa m n = Some (p, fa', m') /\
    served fa' m' L' (if p =? 0 then live
      else match load m' (p - kHeaderBytes) ≫= size with Some k => <[p := k]> live | None => live end).
Proof.
  intros [Hti Ht Hl Hr] Hn. pose proof (alloc_spec fa m L n Hti ltac:(lia)) as Ha.
  destruct (allocBlocks (blockBytes n) L) as [[off L']|] eqn:Eb; [|by exists 0, fa, m, L].
  destruct Ha as (fa' & m' & E & [Hti' Ht' (E1 & E2 & E3) Hu Ho]). specialize (Ht' Ht).
  destruct (blockBytes_spec n ltac:(lia)) as (_ & Hb8 & Hb). unfold kHeaderBytes in Hb.
  destruct (allocBlocks_used (start_ fa) _ _ _ _ Eb) as (k & Hk & Hused & Hbig).
  assert (Hk16 : kFreeBlockBytes <= k).
  { destruct Hbig as [->|Hbig]; [pose proof (Z.div_mod (blockBytes n) 8); unfold kFreeBlockBytes; lia|]. eapply seg_big; [apply Hti|done]. }
  set (p := start_ fa + off + kHeaderBytes). exists p, fa', m', L'. split; [done|].
  assert (Hin : (p - kHeaderBytes, Used k) ∈ blocksAt (start_ fa') L').
  { rewrite E1. apply Hused. right. subst p. split; [lia|done]. }
  destruct (tiled_used _ _ _ _ _ Hti' Hin) as (h & Hh & Hs & _).
  pose proof (seg_aligned _ _ _ _ _ _ _ (proj2 (ti_start _ _ _ Hti')) (ti_seg _ _ _ Hti') Hin) as (_ & _ & _ & Hp & _).
  pose proof (proj1 (ti_start _ _ _ Hti')). unfold kHeaderBytes in *. replace (p =? 0) with false by lia.
  unfold load. rewrite Hh. cbn [mbind option_bind]. rewrite Hs. split; [done..| |].
  - intros q j. rewrite E1, Hused. unfold kHeaderBytes. destruct (decide (q = p)) as [->|Hne].
    + rewrite lookup_insert_eq. split; [intros [= <-]; right; split; lia|]. intros [Hq|[_ ->]]; [|done]. f_equal.
      assert (Hq' : (p - 8, Used j) ∈ blocksAt (start_ fa') L') by (rewrite E1; apply Hused; by left).
      destruct (blocks_disjoint _ _ _ _ _ _ _ _ _ (ti_seg _ _ _ Hti') Hin Hq') as [[_ [= ->]]|Hd]; [done|].
      pose proof (seg_aligned _ _ _ _ _ _ _ (proj2 (ti_start _ _ _ Hti')) (ti_seg _ _ _ Hti') Hq'). simpl in *.
      unfold kFreeBlockBytes in *. lia.
    + rewrite lookup_insert_ne, (Hl q j) by done. unfold kHeaderBytes. split; [by left|]. intros [?|[? _]]; [done|]. subst p. lia.
  - intros j [q Hq]%(elem_blocksAt (start_ fa)). apply Hused in Hq as [Hq|[_ ->]]; [|done].
    apply Hr, (elem_blocksAt (start_ fa)). by exists q.
Qed.

(** ** Along every history *)

Section Histories.
Context (capacity start : Z) (sizesFromHeaders : bool) (m0 : Mem).
Context (Hstart : 0 < start) (Hstart8 : start mod 8 = 0) (Hcap : 16 <= capacity < 2 ^ 48 - 8).
Let bytes := (capacity + 7) / 8 * 8.
Context (Hback : backed m0 start (start + bytes)).

Lemma history_served fa m live : history capacity start sizesFromHeaders m0 fa m live ->
  exists L, served fa m L live /\ start_ fa = start /\ end_ fa = start + bytes.
Proof.
  induction 1 as [fa m E|fa m live n p fa' m' _ (L & Hs & E1 & E2) Hn E|fa m live p n a v _ (L & Hs & E1 & E2) Hp Ha
    |fa m live p n h h' _ (L & Hs & E1 & E2) Hp Hh Hsz|fa m live p fa' m' _ (L & Hs & E1 & E2) Hp E
    |fa m live ps fa' m' _ (L & Hs & E1 & E2) Hnd Hps E].
  - destruct (create_spec capacity start sizesFromHeaders m0 Hstart Hstart8 Hcap Hback) as (fa' & m' & E' & Hti & Ht & S1 & S2 & _).
    rewrite E in E'. injection E' as <- <-. exists [Free ((capacity + 7) / 8 * 8)]. split; [|done]. split; [done..| |].
    + intros p n. rewrite lookup_empty. simpl. split; [done|]. set_solver.
    + intros n ?. set_solver.
  - destruct (served_alloc _ _ _ _ _ Hs Hn) as (p' & fa1 & m1 & L' & E' & Hs'). rewrite E in E'. injection E' as <- <- <-.
    exists L'. split; [done|]. pose proof (alloc_spec fa m L n (sv_tiled _ _ _ _ Hs) ltac:(lia)) as Ha.
    destruct (allocBlocks _ _) as [[off L2]|].
    + destruct Ha as (fa1 & m1 & E' & [_ _ (T1 & T2 & _) _ _]). rewrite E in E'. injection E' as _ <- <-. split; congruence.
    + rewrite E in Ha. injection Ha as _ -> ->. done.
  - exists L. destruct Hs as [Hti Ht Hl Hr]. split; [|done]. split; try done. pose proof (proj1 (Hl p n) Hp) as Hin.
    unfold blockEnd, kHeaderBytes in *. eapply tiled_write; [done|exact Hin|lia..].
  - exists L. destruct Hs as [Hti Ht Hl Hr]. split; [|done]. split; try done. pose proof (proj1 (Hl p n) Hp) as Hin.
    destruct (tiled_used _ _ _ _ _ Hti Hin) as (h2 & Hh2 & Hs2 & Hn8). unfold load in Hh. rewrite Hh in Hh2. injection Hh2 as <-.
    unfold kHeaderBytes in *. eapply tiled_write; [done|exact Hin|lia| |lia]. intros _. congruence.
  - pose proof (served_freeable _ _ _ _ _ Hs Hp) as Hf.
    destruct (free_spec fa m L (p - kHeaderBytes) (sv_tiled _ _ _ _ Hs) (sv_tabled _ _ _ _ Hs) Hf) as (fa1 & m1 & E' & Hfr).
    unfold kHeaderBytes in E'. rewrite Z.sub_add, E in E'. injection E' as <- <-.
    exists (freed [p - kHeaderBytes] (start_ fa) L). destruct (fr_arena _ _ _ _ _ _ Hfr) as (T1 & T2 & _).
    split; [|split; congruence]. eapply served_freed; [done..|]. intros q.
    destruct (decide (p = q)) as [->|Hne]; [by rewrite lookup_delete_eq, decide_True by by apply list_elem_of_singleton|].
    rewrite lookup_delete_ne by done. destruct (decide _) as [Hq%list_elem_of_singleton|]; [unfold kHeaderBytes in *; lia|done].
  - destruct (freeBulk_spec fa m L ((fun p => p - kHeaderBytes) <$> ps) (sv_tiled _ _ _ _ Hs) (sv_tabled _ _ _ _ Hs)) as (fa1 & m1 & E' & Hfr).
    + apply NoDup_fmap_2_strong; [|done]. intros x y _ _ ?. lia.
    + intros b (p & -> & Hp)%list_elem_of_fmap. by eapply served_freeable; [|apply Hps].
    + rewrite E in E'. injection E' as <- <-.
      exists (freed ((fun p => p - kHeaderBytes) <$> ps) (start_ fa) L). destruct (fr_arena _ _ _ _ _ _ Hfr) as (T1 & T2 & _).
      split; [|split; congruence]. eapply served_freed; [done..|]. intros q. rewrite foldr_delete_lookup.
      destruct (decide (q ∈ ps)) as [Hq|Hq], (decide (q - kHeaderBytes ∈ (fun p => p - kHeaderBytes) <$> ps)) as [Hq'|Hq']; try done.
      * destruct Hq'. apply list_elem_of_fmap. by exists q.
      * apply list_elem_of_fmap in Hq' as (p & Ep & Hp). destruct Hq. by replace q with p by lia.
Qed.

(** The bytes in the hands of the client. *)
Lemma merged_free_only L : merged L -> (forall p n, ~ (p, Used n) ∈ blocksAt start L) -> L = [] \/ exists n, L = [Free n].
Proof.
  intros Hm Hu. destruct L as [|[n|n] L]; [by left| |].
  - right. exists n. f_equal. destruct L as [|[k|k] L]; [done|done|]. exfalso. apply (Hu (start + n) k). simpl. set_solver.
  - exfalso. apply (Hu start n). simpl. set_solver.
Qed.

Lemma history_end fa m : history capacity start sizesFromHeaders m0 fa m ∅ ->
  freeList_ fa = start /\ blockSize m start = Some bytes /\ blockNext m start = Some 0.
Proof.
  intros (L & [Hti Ht Hl Hr] & E1 & E2)%history_served. assert (Hb : 16 <= bytes).
  { subst bytes. pose proof (Z.mod_pos_bound (capacity + 7) 8). rewrite Z.mod_eq in * by lia. lia. }
  destruct (merged_free_only L) as [->|[n ->]].
  - apply Hti.
  - intros p n Hp. rewrite <- E1 in Hp. specialize (Hl (p + kHeaderBytes) n). rewrite lookup_empty in Hl.
    unfold kHeaderBytes in Hl. rewrite Z.add_simpl_r in Hl. by apply Hl in Hp.
  - pose proof (ti_end _ _ _ Hti) as He. rewrite len_nil in He. lia.
  - destruct Hti as [_ He _ Hs _ _]. rewrite len_cons, len_nil in He. simpl in He, Hs.
    destruct Hs as (-> & _ & _ & Hm & next & Hnext & ->). rewrite E1 in *. unfold blockSize, blockNext, load.
    assert (n = bytes) as <- by lia. done.
Qed.
End Histories.
