(* ===== verification/Growable.v ===== *)
(** * Spaces that grow by segments

    src/src/core/mm/growable.cpp and src/include/camel/core/mm/alloc/growable.h: the free-list
    space over the segments of FreeList.v, with its limit and its counters. The buffers of
    segments come from the host ([newBuffer]), which may refuse. [MemoryExhausted] is an outcome
    of an allocation; [None] is a [GUARD] of a segment or an access outside of the memory. *)

From stdpp Require Import gmap.
From S2P Require Import Prelude ObjHeader FreeList.
#[local] Open Scope Z_scope.

Record GrowableSpaceConfig := mkSpaceConfig {
  segmentBytes : Z;
  maxSegmentBytes : Z;
  limitBytes : Z;
  sizesFromHeaders : bool;
}.

Record GrowableFreeListAllocator := mkGrowable {
  config_ : GrowableSpaceConfig;
  segments_ : list FreeListAllocator;
  hint_ : nat;
  reservedBytes_ : Z;
  usedBytes_ : Z;
  peakUsedBytes_ : Z;
  allocations_ : Z;
}.

Definition kMaxSegments : nat := 1024.

(** The failure as its users see it: [limitBytes] is 0 when the host refused. *)
Record MemoryExhausted := mkExhausted {
  requestedBytes : Z;
  usedAtFailure : Z;
  limitAtFailure : Z;
}.

Inductive Outcome := Allocated (p : Z) | Exhausted (e : MemoryExhausted).

Definition newSpace (config : GrowableSpaceConfig) : GrowableFreeListAllocator := mkGrowable config [] 0 0 0 0 0.

Definition segmentCount (sp : GrowableFreeListAllocator) : nat := length (segments_ sp).

Definition setSegments (l : list FreeListAllocator) (sp : GrowableFreeListAllocator) : GrowableFreeListAllocator :=
  mkGrowable (config_ sp) l (hint_ sp) (reservedBytes_ sp) (usedBytes_ sp) (peakUsedBytes_ sp) (allocations_ sp).
Definition setHint (i : nat) (sp : GrowableFreeListAllocator) : GrowableFreeListAllocator :=
  mkGrowable (config_ sp) (segments_ sp) i (reservedBytes_ sp) (usedBytes_ sp) (peakUsedBytes_ sp) (allocations_ sp).
Definition noteAllocated (n : Z) (sp : GrowableFreeListAllocator) : GrowableFreeListAllocator :=
  let used := u64 (usedBytes_ sp + n) in
  mkGrowable (config_ sp) (segments_ sp) (hint_ sp) (reservedBytes_ sp) used
    (Z.max (peakUsedBytes_ sp) used) (u64 (allocations_ sp + 1)).
Definition noteFreed (n : Z) (sp : GrowableFreeListAllocator) : GrowableFreeListAllocator :=
  mkGrowable (config_ sp) (segments_ sp) (hint_ sp) (reservedBytes_ sp) (u64 (usedBytes_ sp - n))
    (peakUsedBytes_ sp) (allocations_ sp).
Definition noteReserved (n : Z) (sp : GrowableFreeListAllocator) : GrowableFreeListAllocator :=
  mkGrowable (config_ sp) (segments_ sp) (hint_ sp) (u64 (reservedBytes_ sp + n)) (usedBytes_ sp)
    (peakUsedBytes_ sp) (allocations_ sp).

Definition blockBytesFor (payloadBytes : Z) : Z := alignUp (u64 (kHeaderBytes + payloadBytes)) kSlot.

(** ** The size of the next segment *)

Definition nextSegmentBytes (sp : GrowableFreeListAllocator) (blockBytes : Z) (count : nat) : Z + MemoryExhausted :=
  let cfg := config_ sp in
  let reserved := reservedBytes_ sp in
  let room := if reserved <? limitBytes cfg then limitBytes cfg - reserved else 0 in
  if (room <? blockBytes) || (kMaxSegments <=? count)%nat
  then inr (mkExhausted blockBytes (usedBytes_ sp) (limitBytes cfg))
  else
    let bytes := Z.max (segmentBytes cfg) reserved in
    let bytes := Z.min bytes (Z.max (maxSegmentBytes cfg) (segmentBytes cfg)) in
    let bytes := Z.max bytes blockBytes in
    inl (Z.min bytes room).

(** ** Allocation *)

(** The segments of [order] are asked in turn, until one has room. *)
Fixpoint trySegments (segments : list FreeListAllocator) (m : Mem) (size : Z) (order : list nat) :
    option (list FreeListAllocator * Mem * option (nat * Z)) :=
  match order with
  | [] => Some (segments, m, None)
  | i :: order =>
      fa ← segments !! i;
      '(p, fa, m) ← alloc fa m size;
      let segments := <[i := fa]> segments in
      if p =? 0 then trySegments segments m size order else Some (segments, m, Some (i, p))
  end.

(** [noteAllocated(headerOf(ptr)->size())]. *)
Definition granted (sp : GrowableFreeListAllocator) (m : Mem) (p : Z) :
    option (Outcome * GrowableFreeListAllocator * Mem) :=
  h ← load m (p - kHeaderBytes); n ← ObjHeader.size h; Some (Allocated p, noteAllocated n sp, m).

Section Host.
(** The buffer of a new segment, where the host gives one. *)
Context (newBuffer : Mem -> Z -> option (Z * Mem)).

Definition allocSlow (sp : GrowableFreeListAllocator) (m : Mem) (size : Z) (seenSegments : nat) :
    option (Outcome * GrowableFreeListAllocator * Mem) :=
  let count := segmentCount sp in
  '(segments, m, found) ← trySegments (segments_ sp) m size (seq seenSegments (count - seenSegments));
  let sp := setSegments segments sp in
  match found with
  | Some (i, p) => granted (setHint i sp) m p
  | None =>
      let blockBytes := blockBytesFor size in
      match nextSegmentBytes sp blockBytes count with
      | inr e => Some (Exhausted e, sp, m)
      | inl n =>
          match newBuffer m (alignUp n kSlot) with
          | None => Some (Exhausted (mkExhausted blockBytes (usedBytes_ sp) 0), sp, m)
          | Some (buffer, m) =>
              '(segment, m) ← create n buffer (sizesFromHeaders (config_ sp)) m;
              '(p, segment, m) ← alloc segment m size;
              granted (setHint count (noteReserved n (setSegments (segments_ sp ++ [segment]) sp))) m p
          end
      end
  end.

(** The newest segment first, without the one that was asked already. *)
Definition otherSegments (count hint : nat) : list nat := filter (fun i => i <> hint) (rev (seq 0 count)).

Definition allocate (sp : GrowableFreeListAllocator) (m : Mem) (size : Z) :
    option (Outcome * GrowableFreeListAllocator * Mem) :=
  let count := segmentCount sp in
  if (count =? 0)%nat then allocSlow sp m size count
  else
    let hint := (hint_ sp `min` (count - 1))%nat in
    '(segments, m, found) ← trySegments (segments_ sp) m size [hint];
    let sp := setSegments segments sp in
    match found with
    | Some (_, p) => granted sp m p
    | None =>
        '(segments, m, found) ← trySegments (segments_ sp) m size (otherSegments count hint);
        let sp := setSegments segments sp in
        match found with
        | Some (i, p) => granted (setHint i sp) m p
        | None => allocSlow sp m size count
        end
    end.
End Host.

(** ** Release *)

(** The newest segment that contains an address. *)
Fixpoint newestWith (segments : list FreeListAllocator) (ptr : Z) (i : nat) : option nat :=
  match i with
  | O => None
  | S i => match segments !! i with
           | Some fa => if contains fa ptr then Some i else newestWith segments ptr i
           | None => None
           end
  end.
Definition segmentOf (sp : GrowableFreeListAllocator) (ptr : Z) : option nat :=
  newestWith (segments_ sp) ptr (segmentCount sp).

Definition release (sp : GrowableFreeListAllocator) (m : Mem) (ptr : Z) : option (GrowableFreeListAllocator * Mem) :=
  if ptr =? 0 then Some (sp, m)
  else
    match segmentOf sp ptr with
    | None => Some (sp, m)
    | Some i =>
        h ← load m (ptr - kHeaderBytes);
        blockBytes ← ObjHeader.size h;
        fa ← segments_ sp !! i;
        '(fa, m) ← free fa m ptr;
        Some (noteFreed blockBytes (setSegments (<[i := fa]> (segments_ sp)) sp), m)
    end.

(** The bytes of a list of headers. *)
Fixpoint headerBytes (m : Mem) (objects : list Z) : option Z :=
  match objects with
  | [] => Some 0
  | hdr :: objects => h ← load m hdr; n ← ObjHeader.size h; rest ← headerBytes m objects; Some (u64 (n + rest))
  end.

(** The release of the objects that are in segment [i] on, segment by segment. *)
Fixpoint releaseIn (segments : list FreeListAllocator) (owner : Z -> option nat) (m : Mem) (objects : list Z) (indices : list nat) :
    option (list FreeListAllocator * Mem) :=
  match indices with
  | [] => Some (segments, m)
  | i :: indices =>
      let mine := filter (fun hdr => owner hdr = Some i) objects in
      match mine with
      | [] => releaseIn segments owner m objects indices
      | _ =>
          fa ← segments !! i;
          '(fa, m) ← freeBulk fa m mine;
          releaseIn (<[i := fa]> segments) owner m objects indices
      end
  end.

Definition releaseBulk (sp : GrowableFreeListAllocator) (m : Mem) (objects : list Z) : option (GrowableFreeListAllocator * Mem) :=
  let count := segmentCount sp in
  if (count =? 1)%nat then
    bytes ← headerBytes m objects;
    fa ← segments_ sp !! 0%nat;
    '(fa, m) ← freeBulk fa m objects;
    Some (noteFreed bytes (setSegments (<[0%nat := fa]> (segments_ sp)) sp), m)
  else
    let owner := segmentOf sp in
    bytes ← headerBytes m (filter (fun hdr => is_Some (owner hdr)) objects);
    '(segments, m) ← releaseIn (segments_ sp) owner m objects (seq 0 count);
    Some (noteFreed bytes (setSegments segments sp), m).

(** ** The other members *)

Definition available (sp : GrowableFreeListAllocator) : Z :=
  if usedBytes_ sp <? reservedBytes_ sp then reservedBytes_ sp - usedBytes_ sp else 0.

Definition contains (sp : GrowableFreeListAllocator) (ptr : Z) : bool := bool_decide (is_Some (segmentOf sp ptr)).

Definition isAllocated (sp : GrowableFreeListAllocator) (payload : Z) : option bool :=
  match segmentOf sp payload with
  | None => Some false
  | Some i => fa ← segments_ sp !! i; FreeList.isAllocated fa payload
  end.

Fixpoint iterateSegments (m : Mem) (segments : list FreeListAllocator) : option (list Z) :=
  match segments with
  | [] => Some []
  | fa :: segments => l ← FreeList.iterateAllocated fa m; rest ← iterateSegments m segments; Some (l ++ rest)
  end.
Definition iterateAllocated (sp : GrowableFreeListAllocator) (m : Mem) : option (list Z) := iterateSegments m (segments_ sp).

Fixpoint validateSegments (m : Mem) (segments : list FreeListAllocator) : option bool :=
  match segments with
  | [] => Some true
  | fa :: segments => (ok ← FreeList.validate fa m; if ok : bool then validateSegments m segments else Some false)
  end.
Definition validate (sp : GrowableFreeListAllocator) (m : Mem) : option bool := validateSegments m (segments_ sp).
