(* ===== verification/GrowableOps.v ===== *)
(** * The growable space over its segments

    The segments of a space are arenas apart from each other in one memory ([segsOk]); the
    counters are those of their blocks ([spaceOk]). An allocation makes one block used in one of
    them, or in a new one, or fails; a release makes its blocks free. *)

From stdpp Require Import gmap.
From S2P Require Import Prelude ObjHeader FreeList FreeListInv FreeListOps FreeListBulk FreeListHistory Growable.
#[local] Open Scope Z_scope.

(** ** Sums *)

Section Sum.
Context {A : Type} (f : A -> Z).
Definition sumZ (l : list A) : Z := foldr (fun x s => f x + s) 0 l.

Lemma sumZ_app l k : sumZ (l ++ k) = sumZ l + sumZ k.
Proof. unfold sumZ. induction l; simpl; lia. Qed.

Lemma sumZ_insert l i x y : l !! i = Some x -> sumZ (<[i := y]> l) = sumZ l - f x + f y.
Proof. unfold sumZ. revert i. induction l as [|z l IH]; intros [|i] H; simplify_eq/=; [lia|]. rewrite (IH i H). lia. Qed.

Lemma sumZ_nonneg l : (forall x, x ∈ l -> 0 <= f x) -> 0 <= sumZ l.
Proof.
  unfold sumZ. induction l as [|x l IH]; simpl; intros H; [lia|].
  pose proof (H x ltac:(left)). assert (0 <= foldr (fun x s => f x + s) 0 l) by (apply IH; intros; apply H; by right). lia.
Qed.

Lemma sumZ_ge l x : (forall x, x ∈ l -> 0 <= f x) -> x ∈ l -> f x <= sumZ l.
Proof.
  intros H Hx. apply list_elem_of_split in Hx as (l1 & l2 & ->). rewrite sumZ_app. simpl.
  assert (0 <= sumZ l1) by (apply sumZ_nonneg; intros; apply H; set_solver).
  assert (0 <= sumZ l2) by (apply sumZ_nonneg; intros; apply H; set_solver). unfold sumZ in *. simpl. lia.
Qed.
End Sum.

Lemma freeBytes_app L1 L2 : freeBytes (L1 ++ L2) = freeBytes L1 + freeBytes L2.
Proof. unfold freeBytes. induction L1; simpl; lia. Qed.
Lemma usedBytes_app L1 L2 : usedBytes (L1 ++ L2) = usedBytes L1 + usedBytes L2.
Proof. unfold usedBytes. induction L1; simpl; lia. Qed.

(** ** Segments *)

Definition segOk (fromHeaders : bool) (m : Mem) (fa : FreeListAllocator) (L : list Block) : Prop :=
  tiled fa m L /\ tabled fa L /\ sizesFromHeaders_ fa = fromHeaders /\ start_ fa < end_ fa.

Definition apart (fa fb : FreeListAllocator) : Prop := end_ fa <= start_ fb \/ end_ fb <= start_ fa.

Record segsOk (fromHeaders : bool) (segments : list FreeListAllocator) (m : Mem) (Ls : list (list Block)) : Prop := {
  so_each : Forall2 (segOk fromHeaders m) segments Ls;
  so_apart : forall i j fa fb, i <> j -> segments !! i = Some fa -> segments !! j = Some fb -> apart fa fb;
}.

Lemma tiled_frame fa m m' L : tiled fa m L -> (forall x, start_ fa <= x < end_ fa -> m' !! x = m !! x) -> tiled fa m' L.
Proof.
  intros [? He ? Hs ? Hb] H. split; try done.
  - eapply seg_frame; [|exact Hs]. intros x Hx. apply H. lia.
  - intros x Hx H8. rewrite H by done. by apply Hb.
Qed.

Lemma segsOk_lookup h segments m Ls i fa : segsOk h segments m Ls -> segments !! i = Some fa ->
  exists L, Ls !! i = Some L /\ segOk h m fa L.
Proof. intros [H _] Hi. eapply Forall2_lookup_l in H as (L & HL & Hs); [|exact Hi]. by exists L. Qed.

(** One segment has changed, inside its arena. *)
Lemma segsOk_update h segments m Ls i fa fa' m' L' : segsOk h segments m Ls -> segments !! i = Some fa ->
  segOk h m' fa' L' -> start_ fa' = start_ fa -> end_ fa' = end_ fa -> outside (start_ fa) (end_ fa) m m' ->
  segsOk h (<[i := fa']> segments) m' (<[i := L']> Ls).
Proof.
  intros [He Ha] Hi Hok Es Ee Ho. pose proof (lookup_lt_Some _ _ _ Hi) as Hlt. split.
  - apply Forall2_same_length_lookup. split.
    { rewrite !length_insert. by eapply Forall2_length. }
    intros j fb L Hb HL. apply list_lookup_insert_Some in Hb as [(<- & -> & _)|[Hne Hb]].
    + rewrite list_lookup_insert_eq in HL by (rewrite <- (Forall2_length _ _ _ He); done). by injection HL as <-.
    + rewrite list_lookup_insert_ne in HL by done. rewrite Forall2_same_length_lookup in He. destruct He as [_ He].
      destruct (He j fb L Hb HL) as (Hti & Ht & Eh & Hlt'). split; [|done]. eapply tiled_frame; [done|]. intros x Hx. apply Ho.
      destruct (Ha i j fa fb Hne Hi Hb); lia.
  - intros j k fb fc Hne Hb Hc. apply list_lookup_insert_Some in Hb as [(<- & -> & _)|[Hj Hb]];
      apply list_lookup_insert_Some in Hc as [(<- & -> & _)|[Hk Hc]]; unfold apart; rewrite ?Es, ?Ee; try done.
    + by apply (Ha i k).
    + by apply (Ha j i).
    + by apply (Ha j k).
Qed.

(** Asking segments in an order. *)
Definition noFit (size : Z) (L : list Block) : Prop := allocBlocks (blockBytes size) L = None.

Lemma trySegments_spec h segments m Ls n order : segsOk h segments m Ls -> 0 <= n < 2 ^ 64 - 15 ->
  (forall i, i ∈ order -> (i < length segments)%nat) ->
  (trySegments segments m n order = Some (segments, m, None) /\ forall i L, i ∈ order -> Ls !! i = Some L -> noFit n L) \/
  exists i fa L off L' fa' m', i ∈ order /\ segments !! i = Some fa /\ Ls !! i = Some L /\
    allocBlocks (blockBytes n) L = Some (off, L') /\ allocated fa m L fa' m' L' /\
    trySegments segments m n order = Some (<[i := fa']> segments, m', Some (i, start_ fa + off + kHeaderBytes)).
Proof.
  intros Hok Hn. induction order as [|i order IH]; intros Hin.
  { left. split; [done|]. intros i L ?%elem_of_nil. done. }
  destruct (lookup_lt_is_Some_2 segments i) as [fa Hi]; [apply Hin; by left|].
  destruct (segsOk_lookup _ _ _ _ _ _ Hok Hi) as (L & HL & Hti & Ht & Eh & _).
  pose proof (alloc_spec fa m L n Hti Hn) as Ha. cbn [trySegments]. rewrite Hi. cbn [mbind option_bind].
  destruct (allocBlocks (blockBytes n) L) as [[off L']|] eqn:Eb.
  - right. destruct Ha as (fa' & m' & -> & Hal). cbn [mbind option_bind].
    assert (Hoff : 0 <= off).
    { unfold allocBlocks in Eb. destruct (firstFit _ L) as [[[L1 k] L2]|] eqn:Ef; [|done]. simpl in Eb. injection Eb as <- _.
      apply firstFit_split in Ef as [-> _]. pose proof (ti_seg _ _ _ Hti) as (mid & Hs & _)%seg_app. by eapply seg_nonneg. }
    pose proof (proj1 (ti_start _ _ _ Hti)). replace (start_ fa + off + kHeaderBytes =? 0) with false by (unfold kHeaderBytes; lia).
    exists i, fa, L, off, L', fa', m'. split_and!; try done. by left.
  - rewrite Ha. cbn [mbind option_bind]. rewrite list_insert_id by done. simpl.
    destruct IH as [[-> Hno]|(j & Hj)]; [intros; apply Hin; by right| |].
    + left. split; [done|]. intros j L' [->|Hj]%elem_of_cons HL'; [|by eapply Hno]. unfold noFit. congruence.
    + right. exists j. destruct Hj as (fb & L2 & off & L' & fa' & m' & Hj & Hrest). exists fb, L2, off, L', fa', m'.
      split; [by right|done].
Qed.

(** ** The space *)

Definition configOk (cfg : GrowableSpaceConfig) : Prop :=
  0 <= limitBytes cfg < 2 ^ 48 - 8 /\ limitBytes cfg mod 8 = 0 /\
  0 <= segmentBytes cfg < 2 ^ 48 /\ segmentBytes cfg mod 8 = 0 /\
  0 <= maxSegmentBytes cfg < 2 ^ 48 /\ maxSegmentBytes cfg mod 8 = 0.

Record spaceOk (sp : GrowableFreeListAllocator) (m : Mem) (Ls : list (list Block)) : Prop := {
  sp_config : configOk (config_ sp);
  sp_segs : segsOk (sizesFromHeaders (config_ sp)) (segments_ sp) m Ls;
  sp_reserved : reservedBytes_ sp = sumZ len Ls;
  sp_used : usedBytes_ sp = sumZ usedBytes Ls;
  sp_limit : reservedBytes_ sp <= limitBytes (config_ sp);
  sp_count : (segmentCount sp <= kMaxSegments)%nat;
}.

(** The used blocks of a space. *)
Definition heldIn (segments : list FreeListAllocator) (Ls : list (list Block)) (q k : Z) : Prop :=
  exists i fa L, segments !! i = Some fa /\ Ls !! i = Some L /\ (q, Used k) ∈ blocksAt (start_ fa) L.
Definition held (sp : GrowableFreeListAllocator) (Ls : list (list Block)) (q k : Z) : Prop := heldIn (segments_ sp) Ls q k.

(** What an allocation that succeeds does. *)
Record grants (sp : GrowableFreeListAllocator) (m : Mem) (Ls : list (list Block)) (size p : Z)
    (sp' : GrowableFreeListAllocator) (m' : Mem) (Ls' : list (list Block)) : Prop := {
  gr_ok : spaceOk sp' m' Ls';
  gr_config : config_ sp' = config_ sp;
  gr_null : p <> 0;
  gr_held : exists n, kHeaderBytes + size <= n /\
    forall q k, held sp' Ls' q k <-> held sp Ls q k \/ (q = p - kHeaderBytes /\ k = n);
  gr_fresh : forall q k, held sp Ls q k -> q + k <= p - kHeaderBytes \/ p + size <= q;
  gr_kept : forall q k x, held sp Ls q k -> q <= x < q + k -> m' !! x = m !! x;
}.

Lemma freeBytes_nonneg m a fb L fb' : seg m a fb L fb' -> 0 <= freeBytes L /\ 0 <= usedBytes L.
Proof.
  revert a fb. induction L as [|[n|n] L IH]; intros a fb; [done|..]; simpl; unfold kFreeBlockBytes, kHeaderBytes.
  - intros (_ & ? & _ & _ & next & _ & Hs%IH). lia.
  - intros (? & _ & _ & Hs%IH). lia.
Qed.

Lemma spaceOk_bytes h segments m Ls L : segsOk h segments m Ls -> L ∈ Ls -> 0 <= len L /\ 0 <= usedBytes L <= len L.
Proof.
  intros [He _] HL. apply list_elem_of_lookup in HL as [i HL]. eapply Forall2_lookup_r in He as (fa & _ & Hti & _); [|exact HL].
  pose proof (seg_nonneg _ _ _ _ _ (ti_seg _ _ _ Hti)). pose proof (freeBytes_nonneg _ _ _ _ _ (ti_seg _ _ _ Hti)).
  pose proof (bytes_len L). lia.
Qed.

Lemma used_le_reserved h segments m Ls : segsOk h segments m Ls -> 0 <= sumZ usedBytes Ls <= sumZ len Ls.
Proof.
  intros Hok. assert (H : forall L, L ∈ Ls -> 0 <= usedBytes L <= len L) by (intros; eapply spaceOk_bytes; eauto).
  clear Hok. induction Ls as [|L Ls IH]; [done|]. unfold sumZ in *. simpl. pose proof (H L ltac:(left)).
  assert (0 <= foldr (fun L s => usedBytes L + s) 0 Ls <= foldr (fun L s => len L + s) 0 Ls) by (apply IH; intros; apply H; by right). lia.
Qed.

Lemma allocBlocks_bytes total L off L' : allocBlocks total L = Some (off, L') ->
  len L' = len L /\ exists n, total <= n /\ usedBytes L' = usedBytes L + n /\
    (forall a p k, (p, Used k) ∈ blocksAt a L' <-> (p, Used k) ∈ blocksAt a L \/ (p = a + off /\ k = n)).
Proof.
  unfold allocBlocks. destruct (firstFit total L) as [[[L1 n] L2]|] eqn:E; [|done]. simpl. intros [= <- <-].
  apply firstFit_split in E as [-> Hn]. destruct (Z.leb_spec kFreeBlockBytes (n - total)).
  - split; [lens|]. exists total. rewrite !usedBytes_app. simpl. split_and!; [lia|lia|]. intros a p k. rewrite !blocksAt_app. simpl.
    replace (a + len L1 + total + (n - total)) with (a + len L1 + n) by lia. rewrite !elem_of_app, !elem_of_cons. naive_solver.
  - split; [lens|]. exists n. rewrite !usedBytes_app. simpl. split_and!; [lia|lia|]. intros a p k. rewrite !blocksAt_app. simpl.
    rewrite !elem_of_app, !elem_of_cons. naive_solver.
Qed.

(** The used blocks of different segments are apart. *)
Lemma held_in_arena h segments m Ls i fa L q b : segsOk h segments m Ls -> segments !! i = Some fa -> Ls !! i = Some L ->
  (q, b) ∈ blocksAt (start_ fa) L -> start_ fa <= q /\ 8 <= blen b /\ q + blen b <= end_ fa /\ 0 < start_ fa.
Proof.
  intros Hok Hi HL Hq. destruct (segsOk_lookup _ _ _ _ _ _ Hok Hi) as (L' & HL' & Hti & _). simplify_eq.
  destruct Hti as [[H0 H8] He _ Hs _ _]. pose proof (seg_aligned _ _ _ _ _ _ _ H8 Hs Hq). lia.
Qed.

Section Grant.
Context (sp : GrowableFreeListAllocator) (m : Mem) (Ls : list (list Block)) (size : Z).
Context (i : nat) (fa : FreeListAllocator) (L : list Block) (off : Z) (L' : list Block) (fa' : FreeListAllocator) (m' : Mem).
Context (Hok : segsOk (sizesFromHeaders (config_ sp)) (segments_ sp) m Ls).
Context (Hi : segments_ sp !! i = Some fa) (HL : Ls !! i = Some L).
Context (Hb : allocBlocks (blockBytes size) L = Some (off, L')) (Hal : allocated fa m L fa' m' L') (Hsize : 0 <= size < 2 ^ 64 - 15).
Let p := start_ fa + off + kHeaderBytes.
Let segments' := <[i := fa']> (segments_ sp).
Let Ls' := <[i := L']> Ls.

Lemma grant_segs : segsOk (sizesFromHeaders (config_ sp)) segments' m' Ls'.
Proof.
  destruct (segsOk_lookup _ _ _ _ _ _ Hok Hi) as (L0 & HL0 & Hti & Ht & Eh & Hlt). simplify_eq.
  destruct Hal as [Hti' Ht' (E1 & E2 & E3) _ Ho]. eapply segsOk_update; [done..| |done|done|done].
  split_and!; [done|by apply Ht'|congruence|congruence].
Qed.

Lemma grant_held : exists n, kHeaderBytes + size <= n /\ sumZ usedBytes Ls' = sumZ usedBytes Ls + n /\ sumZ len Ls' = sumZ len Ls /\
  (forall q k, heldIn segments' Ls' q k <-> heldIn (segments_ sp) Ls q k \/ (q = p - kHeaderBytes /\ k = n)).
Proof.
  destruct (allocBlocks_bytes _ _ _ _ Hb) as (El & n & Hn & Eu & Hused). destruct (blockBytes_spec size Hsize) as (_ & _ & Hbb).
  exists n. subst Ls' segments'. rewrite !(sumZ_insert _ _ _ _ _ HL), Eu, El. split_and!; [lia..|].
  pose proof (al_arena _ _ _ _ _ _ Hal) as (E1 & _). pose proof (lookup_lt_Some _ _ _ Hi). pose proof (lookup_lt_Some _ _ _ HL).
  intros q k. unfold heldIn. subst p. unfold kHeaderBytes. replace (start_ fa + off + 8 - 8) with (start_ fa + off) by lia. split.
  - intros (j & fb & Lb & Hj & HLj & Hq). destruct (decide (i = j)) as [<-|Hne].
    + rewrite list_lookup_insert_eq in Hj by done. rewrite list_lookup_insert_eq in HLj by done. simplify_eq. rewrite E1 in Hq. apply Hused in Hq as [Hq|Hq]; [|by right].
      left. by exists i, fa, L.
    + rewrite list_lookup_insert_ne in Hj by done. rewrite list_lookup_insert_ne in HLj by done. left. by exists j, fb, Lb.
  - intros [(j & fb & Lb & Hj & HLj & Hq)|Hq].
    + destruct (decide (i = j)) as [<-|Hne].
      * simplify_eq. exists i, fa', L'. rewrite !list_lookup_insert_eq by done. split_and!; [done..|]. rewrite E1. apply Hused. by left.
      * exists j, fb, Lb. by rewrite !list_lookup_insert_ne by done.
    + exists i, fa', L'. rewrite !list_lookup_insert_eq by done. split_and!; [done..|]. rewrite E1. apply Hused. by right.
Qed.

Lemma grant_kept q k x : heldIn (segments_ sp) Ls q k -> q <= x < q + k -> m' !! x = m !! x.
Proof.
  intros (j & fb & Lb & Hj & HLj & Hq) Hx. destruct (decide (i = j)) as [<-|Hne].
  - simplify_eq. by apply (al_used _ _ _ _ _ _ Hal q k).
  - apply (al_outside _ _ _ _ _ _ Hal). pose proof (held_in_arena _ _ _ _ _ _ _ _ _ Hok Hj HLj Hq) as (? & ? & ? & ?). simpl in *.
    destruct (so_apart _ _ _ _ Hok i j fa fb Hne Hi Hj); lia.
Qed.

Lemma grant_apart q k : heldIn (segments_ sp) Ls q k -> q + k <= p - kHeaderBytes \/ p + size <= q.
Proof.
  intros (j & fb & Lb & Hj & HLj & Hq). destruct (blockBytes_spec size Hsize) as (_ & _ & Hbb).
  unfold allocBlocks in Hb. destruct (firstFit (blockBytes size) L) as [[[L1 f] L2]|] eqn:Ef; [|done]. simpl in Hb.
  injection Hb as <- _. apply firstFit_split in Ef as [-> Hf].
  pose proof (blocksAt_middle (start_ fa) L1 (Free f) L2) as Hfree. subst p. unfold kHeaderBytes in *.
  pose proof (held_in_arena _ _ _ _ _ _ _ _ _ Hok Hj HLj Hq) as (? & ? & ? & ?).
  pose proof (held_in_arena _ _ _ _ _ _ _ _ _ Hok Hi HL Hfree) as (? & ? & ? & ?). simpl in *.
  destruct (decide (i = j)) as [<-|Hne].
  - simplify_eq. destruct (segsOk_lookup _ _ _ _ _ _ Hok Hi) as (L0 & HL0 & Hti & _). simplify_eq.
    pose proof (blocks_disjoint _ _ _ _ _ _ _ _ _ (ti_seg _ _ _ Hti) Hq Hfree) as [[_ ?]|Hd]; [done|]. simpl in Hd. lia.
  - destruct (so_apart _ _ _ _ Hok i j fa fb Hne Hi Hj); lia.
Qed.

Lemma grant_note sp1 : config_ sp1 = config_ sp -> segments_ sp1 = segments' -> configOk (config_ sp) ->
  reservedBytes_ sp1 = sumZ len Ls -> reservedBytes_ sp1 <= limitBytes (config_ sp) -> usedBytes_ sp1 = sumZ usedBytes Ls ->
  (length segments' <= kMaxSegments)%nat ->
  exists sp', granted sp1 m' p = Some (Allocated p, sp', m') /\ spaceOk sp' m' Ls' /\ config_ sp' = config_ sp /\
    segments_ sp' = segments'.
Proof.
  intros Ec Es Hc Er Hl Eu Hcount. destruct grant_held as (n & Hn & Eu' & El' & Hh). pose proof grant_segs as Hok'.
  assert (Hp : heldIn segments' Ls' (p - kHeaderBytes) n) by (apply Hh; by right).
  destruct Hp as (j & fb & Lb & Hj & HLj & Hq). destruct (segsOk_lookup _ _ _ _ _ _ Hok' Hj) as (L0 & HL0 & Hti & _). simplify_eq.
  destruct (tiled_used _ _ _ _ _ Hti Hq) as (h & Hh1 & Hs1 & _). unfold granted, load. rewrite Hh1. cbn [mbind option_bind].
  rewrite Hs1. cbn [mbind option_bind]. eexists. split; [done|].
  pose proof (used_le_reserved _ _ _ _ Hok') as Hu. unfold configOk in Hc. unfold kHeaderBytes in *.
  split_and!; [|done|done]. split; cbn [noteAllocated config_ segments_ reservedBytes_ usedBytes_ segmentCount]; rewrite ?Ec, ?Es; try done.
  - lia.
  - unfold u64. rewrite Eu, Eu'. apply Z.mod_small. lia.
  - unfold segmentCount. cbn. by rewrite Es.
Qed.

Lemma grant_done sp1 : config_ sp1 = config_ sp -> segments_ sp1 = segments' -> configOk (config_ sp) ->
  reservedBytes_ sp1 = sumZ len Ls -> reservedBytes_ sp1 <= limitBytes (config_ sp) -> usedBytes_ sp1 = sumZ usedBytes Ls ->
  (length segments' <= kMaxSegments)%nat ->
  exists sp', granted sp1 m' p = Some (Allocated p, sp', m') /\ grants sp m Ls size p sp' m' Ls'.
Proof.
  intros E1 E2 E3 E4 E5 E6 E7. destruct (grant_note sp1 E1 E2 E3 E4 E5 E6 E7) as (sp' & Eg & Hsp' & Ec & Es).
  exists sp'. split; [done|]. destruct grant_held as (n & Hn & _ & _ & Hh).
  split; try done.
  - assert (Hp : heldIn segments' Ls' (p - kHeaderBytes) n) by (apply Hh; by right).
    destruct Hp as (j & fb & Lb & Hj & HLj & Hq).
    pose proof (held_in_arena _ _ _ _ _ _ _ _ _ grant_segs Hj HLj Hq). unfold kHeaderBytes in *. lia.
  - exists n. split; [done|]. unfold held. rewrite Es. done.
  - intros q k Hq. by apply grant_apart.
  - intros q k x Hq Hx. by eapply grant_kept.
Qed.
End Grant.

(** ** Allocation *)

Section Host.
Context (newBuffer : Mem -> Z -> option (Z * Mem)).
Context (newBuffer_fresh : forall m n b m', newBuffer m n = Some (b, m') ->
  0 < b /\ b mod 8 = 0 /\ backed m' b (b + n) /\ (forall x, b <= x < b + n -> m !! x = None) /\ outside b (b + n) m m').

Lemma nextSegmentBytes_spec sp m Ls bb : spaceOk sp m Ls -> 0 < bb -> bb mod 8 = 0 ->
  match nextSegmentBytes sp bb (segmentCount sp) with
  | inl n => bb <= n /\ n mod 8 = 0 /\ reservedBytes_ sp + n <= limitBytes (config_ sp) /\ (segmentCount sp < kMaxSegments)%nat
  | inr e => e = mkExhausted bb (usedBytes_ sp) (limitBytes (config_ sp)) /\
      (limitBytes (config_ sp) < reservedBytes_ sp + bb \/ (segmentCount sp = kMaxSegments)%nat)
  end.
Proof.
  intros [Hc Hok Er Eu Hl Hcount] Hbb Hbb8. unfold nextSegmentBytes, configOk in *.
  assert (Hr8 : reservedBytes_ sp mod 8 = 0 /\ 0 <= reservedBytes_ sp).
  { rewrite Er. pose proof (used_le_reserved _ _ _ _ Hok). split; [|lia]. clear -Hok.
    assert (H : forall L, L ∈ Ls -> len L mod 8 = 0).
    { intros L [i HL]%list_elem_of_lookup. destruct Hok as [He _].
      eapply Forall2_lookup_r in He as (fa & _ & Hti & _); [|exact HL]. by destruct (seg_len _ _ _ _ _ (ti_seg _ _ _ Hti)). }
    clear Hok. induction Ls as [|L Ls IH]; [done|]. unfold sumZ in *. simpl. rewrite Z.add_mod by done. rewrite H by left.
    rewrite IH; [done|]. intros; apply H; by right. }
  set (room := if reservedBytes_ sp <? limitBytes (config_ sp) then _ else 0).
  assert (Hroom : room = limitBytes (config_ sp) - reservedBytes_ sp) by (subst room; destruct (Z.ltb_spec (reservedBytes_ sp) (limitBytes (config_ sp))); lia).
  rewrite Hroom. assert (Hr : (limitBytes (config_ sp) - reservedBytes_ sp) mod 8 = 0).
  { destruct Hc as (_ & H8 & _). rewrite Zminus_mod, H8. by rewrite (proj1 Hr8). }
  destruct ((limitBytes (config_ sp) - reservedBytes_ sp <? bb) || (kMaxSegments <=? segmentCount sp)%nat) eqn:E.
  - split; [done|]. apply orb_true_iff in E as [E|E]; [left; lia|right]. apply Nat.leb_le in E. lia.
  - apply orb_false_iff in E as [E1 E2]. apply Nat.leb_gt in E2. split_and!; [lia| |lia|done].
    destruct (Z.max_spec (segmentBytes (config_ sp)) (reservedBytes_ sp)) as [[_ ->]|[_ ->]];
    destruct (Z.max_spec (maxSegmentBytes (config_ sp)) (segmentBytes (config_ sp))) as [[_ ->]|[_ ->]];
    apply Z.min_case; try done; apply Z.max_case; try done; apply Z.min_case; tauto.
Qed.

(** No segment has room. *)
Definition full (Ls : list (list Block)) (size : Z) : Prop := forall L, L ∈ Ls -> noFit size L.

(** What an allocation does when there is none. *)
Record refuses (sp : GrowableFreeListAllocator) (m : Mem) (Ls : list (list Block)) (size : Z) (e : MemoryExhausted) : Prop := {
  rf_full : full Ls size;
  rf_requested : requestedBytes e = blockBytes size;
  rf_used : usedAtFailure e = usedBytes_ sp;
  rf_why : limitAtFailure e = limitBytes (config_ sp) /\
        (limitBytes (config_ sp) < reservedBytes_ sp + blockBytes size \/ segmentCount sp = kMaxSegments) \/
      limitAtFailure e = 0 /\ exists n, newBuffer m (alignUp n kSlot) = None;
}.

Lemma otherSegments_all count hint i : (i < count)%nat -> i = hint \/ i ∈ otherSegments count hint.
Proof.
  intros Hi. destruct (decide (i = hint)); [by left|right]. unfold otherSegments. apply list_elem_of_filter. split; [done|].
  apply list_elem_of_In. apply -> in_rev. apply in_seq. lia.
Qed.

Lemma spaceOk_set sp m Ls : spaceOk sp m Ls -> setSegments (segments_ sp) sp = sp.
Proof. by destruct sp. Qed.

Lemma try_grants sp m Ls size order hint : spaceOk sp m Ls -> 0 <= size < 2 ^ 64 - 15 ->
  (forall i, i ∈ order -> (i < segmentCount sp)%nat) ->
  (trySegments (segments_ sp) m size order = Some (segments_ sp, m, None) /\
     forall i L, i ∈ order -> Ls !! i = Some L -> noFit size L) \/
  exists i p segments' m' sp' Ls', trySegments (segments_ sp) m size order = Some (segments', m', Some (i, p)) /\
    granted (setHint (hint i) (setSegments segments' sp)) m' p = Some (Allocated p, sp', m') /\
    grants sp m Ls size p sp' m' Ls'.
Proof.
  intros Hsp Hs Ho. pose proof Hsp as [Hc Hok Er Eu Hl Hcount].
  destruct (trySegments_spec _ _ _ _ size order Hok Hs Ho) as [?|(i & fa & L & off & L' & fa' & m' & Hi & Hfa & HL & Hb & Hal & E)]; [by left|right].
  destruct (grant_done sp m Ls size i fa L off L' fa' m' Hok Hfa HL Hb Hal Hs (setHint (hint i) (setSegments (<[i := fa']> (segments_ sp)) sp)))
    as (sp' & Eg & Hg); try done.
  { by rewrite length_insert. }
  by exists i, (start_ fa + off + kHeaderBytes), (<[i := fa']> (segments_ sp)), m', sp', (<[i := L']> Ls).
Qed.

(** A new segment, with one free block. *)
Lemma extend_spec sp m Ls n b m1 : spaceOk sp m Ls -> 16 <= n -> n mod 8 = 0 -> reservedBytes_ sp + n <= limitBytes (config_ sp) ->
  newBuffer m n = Some (b, m1) ->
  exists fa m2, create n b (sizesFromHeaders (config_ sp)) m1 = Some (fa, m2) /\
    segsOk (sizesFromHeaders (config_ sp)) (segments_ sp ++ [fa]) m2 (Ls ++ [[Free n]]) /\
    start_ fa = b /\ end_ fa = b + n /\ outside b (b + n) m m2.
Proof.
  intros [Hc Hok Er Eu Hl _] Hn Hn8 Hr Hb. apply newBuffer_fresh in Hb as (Hb & Hb8 & Hback & Hnew & Ho).
  assert (En : (n + 7) / 8 * 8 = n) by (assert ((n + 7) mod 8 = 7) by (by rewrite Z.add_mod, Hn8); pose proof (Z.div_mod (n + 7) 8); lia).
  pose proof (used_le_reserved _ _ _ _ Hok). unfold configOk in Hc.
  destruct (create_spec n b (sizesFromHeaders (config_ sp)) m1 Hb Hb8) as (fa & m2 & E & Hti & Ht & E1 & E2 & E3 & Ho2);
    rewrite ?En in *; [lia|done|].
  exists fa, m2. assert (Hout : outside b (b + n) m m2) by (intros x Hx; rewrite Ho2 by done; by apply Ho).
  split_and!; try done. pose proof Hok as [He Ha].
  assert (Hap : forall i fb, segments_ sp !! i = Some fb -> apart fb fa).
  { intros i fb Hi. destruct (segsOk_lookup _ _ _ _ _ _ Hok Hi) as (L & _ & [[Hs0 Hs8] Hend _ Hsg _ Hbk] & _ & _ & Hlt).
    unfold apart. rewrite E1, E2. destruct (Z.le_gt_cases (end_ fb) b); [by left|right].
    destruct (Z.le_gt_cases (b + n) (start_ fb)); [done|exfalso].
    set (x := Z.max b (start_ fb)). assert (Hx8 : x mod 8 = 0) by by subst x; apply Z.max_case.
    destruct (seg_len _ _ _ _ _ Hsg) as [_ Hl8].
    destruct (Hbk x) as [v Hv]; [subst x|done|].
    - split; [lia|]. pose proof (Z.div_mod b 8). pose proof (Z.div_mod (start_ fb) 8). pose proof (Z.div_mod (len L) 8).
      lia.
    - rewrite Hnew in Hv; [done|]. subst x. lia. }
  split.
  - apply Forall2_app; [|constructor; [split_and!; try done; lia|constructor]].
    apply Forall2_same_length_lookup. rewrite Forall2_same_length_lookup in He. destruct He as [Hlen He]. split; [done|].
    intros i fb L Hi HL. destruct (He i fb L Hi HL) as (Hti2 & Ht2 & Eh & Hlt). split; [|done]. eapply tiled_frame; [done|].
    intros x Hx. apply Hout. destruct (Hap i fb Hi); lia.
  - intros i j fb fc Hne Hi Hj. apply lookup_snoc_Some in Hi as [[Hi1 Hi]|[Hi <-]]; apply lookup_snoc_Some in Hj as [[Hj1 Hj]|[Hj <-]].
    + by eapply Ha.
    + by eapply Hap.
    + destruct (Hap j fc Hj); [by right|by left].
    + lia.
Qed.

Lemma held_extend sp fa n Ls q k : length (segments_ sp) = length Ls ->
  heldIn (segments_ sp ++ [fa]) (Ls ++ [[Free n]]) q k <-> held sp Ls q k.
Proof.
  intros Hlen. split; intros (i & fb & L & Hi & HL & Hq).
  - apply lookup_snoc_Some in Hi as [[Hi1 Hi]|[Hi <-]]; apply lookup_snoc_Some in HL as [[Hj1 HL]|[Hj <-]]; try lia.
    + by exists i, fb, L.
    + simpl in Hq. set_solver.
  - exists i, fb, L. pose proof (lookup_lt_Some _ _ _ Hi). by rewrite !lookup_app_l by lia.
Qed.

Definition fits (total : Z) (n : Z) : Prop := exists L', allocBlocks total [Free n] = Some (0, L').
Lemma fresh_fits total n : total <= n -> fits total n.
Proof. intros H. unfold fits, allocBlocks. simpl. replace (total <=? n) with true by lia. simpl. by eexists. Qed.

(** The last resort. *)
Lemma allocSlow_spec sp m Ls size : spaceOk sp m Ls -> 1 <= size < 2 ^ 64 - 15 -> full Ls size ->
  exists o sp' m', allocSlow newBuffer sp m size (segmentCount sp) = Some (o, sp', m') /\
    match o with
    | Allocated p => exists Ls', grants sp m Ls size p sp' m' Ls'
    | Exhausted e => sp' = sp /\ m' = m /\ refuses sp m Ls size e
    end.
Proof.
  intros Hsp Hsize Hfull. destruct (blockBytes_spec size ltac:(lia)) as (Ebb & Hbb8 & Hbb). unfold allocSlow, blockBytesFor.
  rewrite Nat.sub_diag. cbn [seq trySegments mbind option_bind]. rewrite (spaceOk_set sp m Ls Hsp), Ebb.
  assert (H16 : 16 <= blockBytes size) by (pose proof (Z.div_mod (blockBytes size) 8); unfold kHeaderBytes in *; lia).
  pose proof (nextSegmentBytes_spec sp m Ls (blockBytes size) Hsp ltac:(lia) Hbb8) as Hnext.
  destruct (nextSegmentBytes sp (blockBytes size) (segmentCount sp)) as [n|e].
  2: { destruct Hnext as [-> Hwhy]. eexists _, sp, m. split; [done|]. cbn. split_and!; try done. split; try done. by left. }
  destruct Hnext as (Hn & Hn8 & Hr & Hcount). pose proof (sp_config _ _ _ Hsp) as Hc. pose proof Hc as Hc'. unfold configOk in Hc'.
  pose proof (used_le_reserved _ _ _ _ (sp_segs _ _ _ Hsp)) as Hu. pose proof (sp_reserved _ _ _ Hsp) as Er.
  assert (En : alignUp n kSlot = n).
  { rewrite alignUp_8 by lia. assert ((n + 7) mod 8 = 7) by (by rewrite Z.add_mod, Hn8). pose proof (Z.div_mod (n + 7) 8). lia. }
  rewrite En. destruct (newBuffer m n) as [[b m1]|] eqn:Eb.
  2: { eexists _, sp, m. split; [done|]. cbn. split_and!; try done. split; try done. right. split; [done|]. exists n. by rewrite En. }
  destruct (extend_spec sp m Ls n b m1 Hsp) as (fa & m2 & Ecr & Hok & Es & Ee & Hout); [lia|done|lia|done|].
  rewrite Ecr. cbn [mbind option_bind].
  assert (Hlen : length (segments_ sp) = length Ls) by (eapply Forall2_length, (sp_segs _ _ _ Hsp)).
  assert (Hfa : (segments_ sp ++ [fa]) !! segmentCount sp = Some fa) by by apply list_lookup_middle.
  assert (HL : (Ls ++ [[Free n]]) !! segmentCount sp = Some [Free n]) by by apply list_lookup_middle.
  destruct (fresh_fits _ _ Hn) as [L' Hb]. destruct (segsOk_lookup _ _ _ _ _ _ Hok Hfa) as (L0 & HL0 & Hti & _). simplify_eq.
  pose proof (alloc_spec fa m2 [Free n] size Hti ltac:(lia)) as Ha. rewrite Hb in Ha. destruct Ha as (fa' & m3 & -> & Hal).
  cbn [mbind option_bind].
  set (ext := setSegments (segments_ sp ++ [fa]) (noteReserved n sp)).
  destruct (grant_done ext m2 (Ls ++ [[Free n]]) size (segmentCount sp) fa [Free n] 0 L' fa' m3 Hok Hfa HL Hb Hal ltac:(lia)
    (setHint (segmentCount sp) (noteReserved n (setSegments (segments_ sp ++ [fa']) sp)))) as (sp' & Eg & [G1 G2 G3 (k & Hk & G4) G5 G6]).
  - done.
  - cbn. unfold segmentCount. by rewrite insert_app_r_alt, Nat.sub_diag by done.
  - done.
  - cbn. unfold u64. rewrite Z.mod_small by lia. rewrite sumZ_app, Er. unfold sumZ at 3. simpl. lens.
  - cbn. unfold u64. rewrite Z.mod_small by lia. lia.
  - cbn. rewrite (sp_used _ _ _ Hsp), sumZ_app. unfold sumZ. simpl. lia.
  - cbn. rewrite length_insert, length_app. simpl. unfold segmentCount in *. lia.
  - eexists _, sp', m3. split; [exact Eg|]. cbn. exists (<[segmentCount sp := L']> (Ls ++ [[Free n]])).
    assert (Hheld : forall q j, held ext (Ls ++ [[Free n]]) q j <-> held sp Ls q j) by (intros; by apply held_extend).
    split; try done.
    + exists k. split; [done|]. intros q j. by rewrite G4, Hheld.
    + intros q j Hq. apply G5. by apply Hheld.
    + intros q j x Hq Hx. rewrite (G6 q j x) by (done || by apply Hheld). apply Hout.
      destruct Hq as (i & fb & L & Hi & HLi & Hq).
      pose proof (held_in_arena _ _ _ _ _ _ _ _ _ (sp_segs _ _ _ Hsp) Hi HLi Hq) as (? & ? & ? & ?). simpl in *.
      assert (Hi' : (segments_ sp ++ [fa]) !! i = Some fb) by (rewrite lookup_app_l; [done|by eapply lookup_lt_Some]).
      assert (i <> segmentCount sp) by (apply lookup_lt_Some in Hi; unfold segmentCount; lia).
      destruct (so_apart _ _ _ _ Hok i (segmentCount sp) fb fa); [done..|lia|lia].
Qed.

(** An allocation in a space: it always returns, and fails only when no segment has room and a
    new one is refused. *)
Lemma allocate_spec sp m Ls size : spaceOk sp m Ls -> 1 <= size < 2 ^ 64 - 15 ->
  exists o sp' m', allocate newBuffer sp m size = Some (o, sp', m') /\
    match o with
    | Allocated p => exists Ls', grants sp m Ls size p sp' m' Ls'
    | Exhausted e => sp' = sp /\ m' = m /\ refuses sp m Ls size e
    end.
Proof.
  intros Hsp Hsize. unfold allocate. destruct (Nat.eqb_spec (segmentCount sp) 0) as [E0|E0].
  { apply allocSlow_spec; [done..|]. intros L HL. pose proof (Forall2_length _ _ _ (so_each _ _ _ _ (sp_segs _ _ _ Hsp))) as Hlen.
    unfold segmentCount in E0. destruct Ls; [by apply elem_of_nil in HL|]. simpl in Hlen. lia. }
  set (hint := (hint_ sp `min` (segmentCount sp - 1))%nat). assert (Hh : (hint < segmentCount sp)%nat) by (subst hint; lia).
  destruct (try_grants sp m Ls size [hint] (fun _ => hint_ sp) Hsp ltac:(lia)) as [[-> Hno1]|(i & p & segs & m' & sp' & Ls' & -> & Eg & Hg)].
  { by intros i ->%list_elem_of_singleton. }
  2: { cbn [mbind option_bind]. replace (setHint (hint_ sp) (setSegments segs sp)) with (setSegments segs sp) in Eg by done.
       eexists _, sp', m'. split; [exact Eg|]. by exists Ls'. }
  cbn [mbind option_bind]. rewrite (spaceOk_set sp m Ls Hsp).
  destruct (try_grants sp m Ls size (otherSegments (segmentCount sp) hint) (fun i => i) Hsp ltac:(lia)) as [[-> Hno2]|(i & p & segs & m' & sp' & Ls' & -> & Eg & Hg)].
  { intros i Hi. unfold otherSegments in Hi. apply list_elem_of_filter in Hi as [_ Hi]. apply list_elem_of_In in Hi.
    apply in_rev in Hi. apply in_seq in Hi. lia. }
  2: { cbn [mbind option_bind]. eexists _, sp', m'. split; [exact Eg|]. by exists Ls'. }
  cbn [mbind option_bind]. rewrite (spaceOk_set sp m Ls Hsp). apply allocSlow_spec; [done..|].
  intros L [i HL]%list_elem_of_lookup. pose proof (Forall2_length _ _ _ (so_each _ _ _ _ (sp_segs _ _ _ Hsp))) as Hlen.
  pose proof (lookup_lt_Some _ _ _ HL). destruct (otherSegments_all (segmentCount sp) hint i) as [->|Hi]; [unfold segmentCount; lia|..].
  - apply (Hno1 hint L); [by left|done].
  - by apply (Hno2 i L).
Qed.
End Host.

(** * Releases in the growable space

    One block or many, each in the segment that contains it. Whatever segments the blocks of a bulk
    release are in, the space holds the others afterwards, with their words, and its counter of
    used bytes is exact. *)

(** ** The bytes of released blocks *)

Definition positive (L : list Block) : Prop := forall b, b ∈ L -> 0 < blen b.

Lemma seg_positive m a fb L fb' : seg m a fb L fb' -> positive L.
Proof.
  intros Hs b (L1 & L2 & ->)%list_elem_of_split. apply seg_app in Hs as (mid & _ & Hs). destruct b; simpl in *;
    unfold kFreeBlockBytes, kHeaderBytes in *; lia.
Qed.

Lemma releaseAt_absent bs a L : (forall p n, (p, Used n) ∈ blocksAt a L -> p ∉ bs) -> releaseAt bs a L = L.
Proof.
  revert a. induction L as [|[n|n] L IH]; intros a H; simpl; [done|..].
  - rewrite IH; [done|]. intros p k Hp. apply (H p k). simpl. by rewrite elem_of_cons; right.
  - rewrite IH; [|intros p k Hp; apply (H p k); simpl; rewrite elem_of_cons; by right].
    rewrite decide_False; [done|]. apply (H a n). simpl. rewrite elem_of_cons. by left.
Qed.

Lemma positive_len L : positive L -> 0 <= len L.
Proof.
  induction L as [|b L IH]; intros H; [done|]. rewrite len_cons. pose proof (H b ltac:(left)).
  assert (0 <= len L) by (apply IH; intros c ?; apply H; by right). lia.
Qed.

Lemma releaseAt_one a L1 n L2 : positive (L1 ++ Used n :: L2) ->
  releaseAt [a + len L1] a (L1 ++ Used n :: L2) = L1 ++ Free n :: L2.
Proof.
  intros H. rewrite releaseAt_app. cbn [releaseAt]. rewrite decide_True by by apply list_elem_of_singleton.
  rewrite !releaseAt_absent; [done|..]; intros p k (La & Lb & -> & ->)%blocksAt_split; rewrite list_elem_of_singleton.
  - pose proof (H (Used n) ltac:(set_solver)). pose proof (positive_len La ltac:(intros b Hb; apply H; set_solver)). simpl in *. lia.
  - pose proof (H (Used k) ltac:(set_solver)). pose proof (positive_len Lb ltac:(intros b Hb; apply H; set_solver)). simpl in *. lens.
Qed.

Lemma releaseAt_positive bs a L : positive L -> positive (releaseAt bs a L).
Proof.
  revert a. induction L as [|[n|n] L IH]; intros a H; simpl; [done|..]; intros b [->|Hb]%elem_of_cons.
  - apply H. by left.
  - eapply IH; [|exact Hb]. intros c ?. apply H. by right.
  - pose proof (H (Used n) ltac:(by left)). by case_decide.
  - eapply IH; [|exact Hb]. intros c ?. apply H. by right.
Qed.

Lemma usedBytes_merge L : usedBytes (merge L) = usedBytes L.
Proof. pose proof (bytes_len L). pose proof (bytes_len (merge L)). pose proof (merge_bytes L). pose proof (merge_len L). lia. Qed.

Lemma usedBytes_releaseAt bl a : forall L, positive L -> NoDup bl.*1 -> (forall b n, (b, n) ∈ bl -> (b, Used n) ∈ blocksAt a L) ->
  usedBytes (releaseAt bl.*1 a L) = usedBytes L - sumZ snd bl.
Proof.
  induction bl as [|[b n] bl IH]; intros L Hp Hnd Hin; [simpl; rewrite releaseAt_nil; lia|].
  rewrite fmap_cons in Hnd |- *. apply NoDup_cons in Hnd as [Hb Hnd]. change ((b, n).1 :: bl.*1) with ([b] ++ bl.*1).
  rewrite <- releaseAt_two. rewrite IH; [|by apply releaseAt_positive|done|].
  - destruct (blocksAt_split a L b (Used n)) as (L1 & L2 & -> & ->); [apply Hin; by left|].
    rewrite releaseAt_one, !usedBytes_app by done. simpl. lia.
  - intros b2 n2 H2. apply releaseAt_used. split; [apply Hin; by right|]. rewrite list_elem_of_singleton. intros ->.
    apply Hb. apply list_elem_of_fmap. by exists (b, n2).
Qed.

(** ** The segment of an address *)

Lemma newestWith_spec h segments m Ls i fa x : segsOk h segments m Ls -> segments !! i = Some fa -> start_ fa <= x < end_ fa ->
  forall n, (n <= length segments)%nat -> (i < n)%nat -> newestWith segments x n = Some i.
Proof.
  intros Hok Hi Hx. induction n as [|n IH]; intros Hn Hlt; [lia|]. simpl.
  destruct (lookup_lt_is_Some_2 segments n) as [fb Hfb]; [lia|]. rewrite Hfb. unfold FreeList.contains.
  destruct (decide (i = n)) as [<-|Hne].
  - assert (fb = fa) as -> by congruence. by replace ((start_ fa <=? x) && (x <? end_ fa)) with true by lia.
  - replace ((start_ fb <=? x) && (x <? end_ fb)) with false; [apply IH; lia|].
    destruct (so_apart _ _ _ _ Hok i n fa fb Hne Hi Hfb); lia.
Qed.

Lemma segmentOf_spec sp m Ls i fa x : spaceOk sp m Ls -> segments_ sp !! i = Some fa -> start_ fa <= x < end_ fa ->
  segmentOf sp x = Some i.
Proof.
  intros Hsp Hi Hx. eapply newestWith_spec; [apply Hsp|done|done|unfold segmentCount; lia|by apply lookup_lt_Some in Hi].
Qed.

(** ** Blocks of one segment *)

(** The blocks of a segment, listed with their sizes. *)
Definition listed (fa : FreeListAllocator) (L : list Block) (bl : list (Z * Z)) : Prop :=
  NoDup bl.*1 /\ forall b n, (b, n) ∈ bl -> (b, Used n) ∈ blocksAt (start_ fa) L /\ kFreeBlockBytes <= n.

Record freesIn (h : bool) (segments : list FreeListAllocator) (m : Mem) (Ls : list (list Block)) (bl : list (Z * Z))
    (segments' : list FreeListAllocator) (m' : Mem) (Ls' : list (list Block)) : Prop := {
  fi_ok : segsOk h segments' m' Ls';
  fi_length : length segments' = length segments;
  fi_arena : forall x n, newestWith segments' x n = newestWith segments x n;
  fi_len : sumZ len Ls' = sumZ len Ls;
  fi_used : sumZ usedBytes Ls' = sumZ usedBytes Ls - sumZ snd bl;
  fi_held : forall q k, heldIn segments' Ls' q k <-> heldIn segments Ls q k /\ q ∉ bl.*1;
  fi_kept : forall q k x, heldIn segments' Ls' q k -> q <= x < q + k -> m' !! x = m !! x;
}.

Lemma newestWith_insert segments i fa fa' x n : segments !! i = Some fa -> start_ fa' = start_ fa -> end_ fa' = end_ fa ->
  newestWith (<[i := fa']> segments) x n = newestWith segments x n.
Proof.
  intros Hi Es Ee. induction n as [|n IH]; [done|]. simpl. destruct (decide (i = n)) as [<-|Hne].
  - rewrite list_lookup_insert_eq, Hi by (by eapply lookup_lt_Some). unfold FreeList.contains. by rewrite Es, Ee, IH.
  - by rewrite list_lookup_insert_ne, IH by done.
Qed.

Lemma freeing_segment h segments m Ls i fa L bl fa' m' : segsOk h segments m Ls -> segments !! i = Some fa -> Ls !! i = Some L ->
  listed fa L bl -> freeing fa m bl.*1 L fa' m' ->
  freesIn h segments m Ls bl (<[i := fa']> segments) m' (<[i := freed bl.*1 (start_ fa) L]> Ls).
Proof.
  intros Hok Hi HL [Hnd Hbl] [Hti' Ht' (E1 & E2 & E3) Hu Ho].
  destruct (segsOk_lookup _ _ _ _ _ _ Hok Hi) as (L0 & HL0 & Hti & Ht & Eh & Hlt). simplify_eq.
  pose proof (lookup_lt_Some _ _ _ Hi). pose proof (lookup_lt_Some _ _ _ HL).
  assert (Hheld : forall q k, heldIn (<[i := fa']> segments) (<[i := freed bl.*1 (start_ fa) L]> Ls) q k <->
    heldIn segments Ls q k /\ q ∉ bl.*1).
  { intros q k. split.
    - intros (j & fb & Lb & Hj & HLj & Hq). destruct (decide (i = j)) as [<-|Hne].
      + rewrite list_lookup_insert_eq in Hj by done. rewrite list_lookup_insert_eq in HLj by done. simplify_eq.
        rewrite E1 in Hq. apply freed_used in Hq as [Hq Hq2]. split; [|done]. by exists i, fa, L.
      + rewrite list_lookup_insert_ne in Hj by done. rewrite list_lookup_insert_ne in HLj by done.
        split; [by exists j, fb, Lb|]. intros ([b n] & -> & Hb)%list_elem_of_fmap. apply Hbl in Hb as [Hb _].
        pose proof (held_in_arena _ _ _ _ _ _ _ _ _ Hok Hj HLj Hq) as (? & ? & ? & ?).
        pose proof (held_in_arena _ _ _ _ _ _ _ _ _ Hok Hi HL Hb) as (? & ? & ? & ?). simpl in *.
        destruct (so_apart _ _ _ _ Hok i j fa fb Hne Hi Hj); lia.
    - intros [(j & fb & Lb & Hj & HLj & Hq) Hq2]. destruct (decide (i = j)) as [<-|Hne].
      + simplify_eq. exists i, fa', (freed bl.*1 (start_ fa) L). rewrite !list_lookup_insert_eq by done. split_and!; [done..|].
        rewrite E1. by apply freed_used.
      + exists j, fb, Lb. by rewrite !list_lookup_insert_ne by done. }
  split; try done.
  - eapply segsOk_update; [done..| |done|done|done]. split_and!; [done|done|congruence|congruence].
  - by rewrite length_insert.
  - intros x n. by apply (newestWith_insert segments i fa).
  - rewrite (sumZ_insert _ _ _ _ _ HL). unfold freed. rewrite merge_len, releaseAt_len. lia.
  - rewrite (sumZ_insert _ _ _ _ _ HL). unfold freed. rewrite usedBytes_merge, (usedBytes_releaseAt bl (start_ fa) L); [lia| |done|].
    + eapply seg_positive, Hti.
    + intros b n Hb. by apply Hbl.
  - intros q k x Hq Hx. apply Hheld in Hq as [(j & fb & Lb & Hj & HLj & Hq) Hq2]. destruct (decide (i = j)) as [<-|Hne].
    + simplify_eq. apply (Hu q k); [by apply freed_used|done].
    + pose proof (held_in_arena _ _ _ _ _ _ _ _ _ Hok Hj HLj Hq) as (? & ? & ? & ?). simpl in *. apply Ho.
      destruct (so_apart _ _ _ _ Hok i j fa fb Hne Hi Hj); lia.
Qed.

(** ** One block *)

Lemma held_size h segments m Ls q k : segsOk h segments m Ls -> heldIn segments Ls q k ->
  exists w, m !! q = Some w /\ ObjHeader.size w = Some k /\ 8 <= k.
Proof.
  intros Hok (i & fa & L & Hi & HL & Hq). destruct (segsOk_lookup _ _ _ _ _ _ Hok Hi) as (L0 & HL0 & Hti & _). simplify_eq.
  destruct (tiled_used _ _ _ _ _ Hti Hq) as (w & Hw & Hs & Hk). exists w. unfold kHeaderBytes in Hk. by split_and!.
Qed.

(** What a release does to the space. *)
Record releases (sp : GrowableFreeListAllocator) (m : Mem) (Ls : list (list Block)) (bs : list Z)
    (sp' : GrowableFreeListAllocator) (m' : Mem) (Ls' : list (list Block)) : Prop := {
  rl_ok : spaceOk sp' m' Ls';
  rl_config : config_ sp' = config_ sp;
  rl_reserved : reservedBytes_ sp' = reservedBytes_ sp;
  rl_held : forall q k, held sp' Ls' q k <-> held sp Ls q k /\ q ∉ bs;
  rl_kept : forall q k x, held sp' Ls' q k -> q <= x < q + k -> m' !! x = m !! x;
}.

Lemma freesIn_releases sp m Ls bl segments' m' Ls' n : spaceOk sp m Ls ->
  freesIn (sizesFromHeaders (config_ sp)) (segments_ sp) m Ls bl segments' m' Ls' -> n = u64 (sumZ snd bl) ->
  releases sp m Ls bl.*1 (noteFreed n (setSegments segments' sp)) m' Ls'.
Proof.
  intros [Hc Hok Er Eu Hl Hcount] [Hok' Hlen _ El Eu' Hheld Hkept] ->. pose proof (used_le_reserved _ _ _ _ Hok').
  unfold configOk in Hc. split; try done. split; cbn; try done; try lia.
  - unfold u64. rewrite Zminus_mod_idemp_r, Eu, Z.mod_small by lia. lia.
  - unfold segmentCount in *. cbn. by rewrite Hlen.
Qed.

Lemma release_spec sp m Ls p k : spaceOk sp m Ls -> held sp Ls (p - kHeaderBytes) k -> kFreeBlockBytes <= k ->
  exists sp' m' Ls', release sp m p = Some (sp', m') /\ releases sp m Ls [p - kHeaderBytes] sp' m' Ls'.
Proof.
  intros Hsp Hheld Hk. pose proof (sp_segs _ _ _ Hsp) as Hok. pose proof Hheld as (i & fa & L & Hi & HL & Hq).
  pose proof (held_in_arena _ _ _ _ _ _ _ _ _ Hok Hi HL Hq) as (? & ? & ? & ?). simpl in *.
  destruct (segsOk_lookup _ _ _ _ _ _ Hok Hi) as (L0 & HL0 & Hti & Ht & _). simplify_eq.
  destruct (tiled_used _ _ _ _ _ Hti Hq) as (w & Hw & Hs & _). unfold kFreeBlockBytes, kHeaderBytes in *.
  destruct (free_spec fa m L (p - 8) Hti Ht) as (fa' & m' & E & Hf).
  { exists k. unfold kFreeBlockBytes. by split. }
  unfold release. replace (p =? 0) with false by lia. rewrite (segmentOf_spec sp m Ls i fa p) by (done || lia).
  unfold load, kHeaderBytes. rewrite Hw. cbn [mbind option_bind]. rewrite Hs. cbn [mbind option_bind]. rewrite Hi. cbn [mbind option_bind].
  unfold kHeaderBytes in E. rewrite Z.sub_add in E. rewrite E. cbn [mbind option_bind]. eexists _, m', _. split; [done|].
  assert (Hl : listed fa L [(p - 8, k)]).
  { split; [by apply NoDup_singleton|]. intros b n [= -> ->]%list_elem_of_singleton. unfold kFreeBlockBytes. by split. }
  eapply (freesIn_releases sp m Ls [(p - 8, k)]); [done|by eapply freeing_segment|].
  simpl. unfold u64. rewrite Z.mod_small; [unfold sumZ; simpl; lia|]. pose proof (ti_small _ _ _ Hti). pose proof (ti_end _ _ _ Hti). lia.
Qed.

(** ** Many blocks *)

(** Blocks of a space with their sizes. *)
Definition listedIn (segments : list FreeListAllocator) (Ls : list (list Block)) (bl : list (Z * Z)) : Prop :=
  NoDup bl.*1 /\ forall b n, (b, n) ∈ bl -> heldIn segments Ls b n /\ kFreeBlockBytes <= n.

Lemma headerBytes_spec h segments m Ls bl : segsOk h segments m Ls -> listedIn segments Ls bl ->
  headerBytes m bl.*1 = Some (u64 (sumZ snd bl)).
Proof.
  intros Hok [_ Hbl]. induction bl as [|[b n] bl IH]; [done|].
  destruct (Hbl b n ltac:(by left)) as [Hb _]. destruct (held_size _ _ _ _ _ _ Hok Hb) as (w & Hw & Hs & _).
  rewrite fmap_cons. cbn [headerBytes fst]. unfold load. rewrite Hw. cbn [mbind option_bind]. rewrite Hs. cbn [mbind option_bind].
  rewrite IH; [|intros; apply Hbl; by right]. cbn [mbind option_bind]. f_equal. unfold u64. rewrite Zplus_mod_idemp_r. done.
Qed.

Lemma filter_all {A} (P : A -> Prop) `{forall x, Decision (P x)} (l : list A) : (forall x, x ∈ l -> P x) -> filter P l = l.
Proof.
  induction l as [|x l IH]; [done|]. intros Hl. rewrite filter_cons_True by (apply Hl; left). f_equal. apply IH.
  intros y Hy. apply Hl. by right.
Qed.

Section Owner.
Context (owner : Z -> option nat).

Definition mine (bl : list (Z * Z)) (i : nat) : list (Z * Z) := filter (fun x => owner x.1 = Some i) bl.

Lemma mine_fst bl i : filter (fun hdr => owner hdr = Some i) bl.*1 = (mine bl i).*1.
Proof.
  unfold mine. induction bl as [|[b n] bl IH]; [done|]. rewrite fmap_cons, !filter_cons. simpl.
  destruct (decide (owner b = Some i)); [|done]. rewrite fmap_cons. by f_equal.
Qed.

Lemma mine_perm indices bl : NoDup indices -> (forall x, x ∈ bl -> exists i, i ∈ indices /\ owner x.1 = Some i) ->
  mjoin (mine bl <$> indices) ≡ₚ bl.
Proof.
  revert bl. induction indices as [|i indices IH]; intros bl Hnd H.
  - destruct bl as [|x bl]; [done|]. destruct (H x ltac:(left)) as (i & Hi & _). by apply elem_of_nil in Hi.
  - apply NoDup_cons in Hnd as [Hi Hnd]. change (mine bl i ++ mjoin (mine bl <$> indices) ≡ₚ bl).
    set (rest := filter (fun x => ~ owner x.1 = Some i) bl).
    assert (E : mine bl <$> indices = mine rest <$> indices).
    { apply list_fmap_ext. intros j k Hk%list_elem_of_lookup_2. unfold mine, rest.
      rewrite list_filter_filter. apply list_filter_iff. intros x. split; [|by intros []]. intros Hx. split; [done|].
      rewrite Hx. by intros [= ->]. }
    rewrite E, IH; [apply filter_app_complement|done|].
    intros x [Hx Hin]%list_elem_of_filter. destruct (H x Hin) as (j & [->|Hj]%elem_of_cons & Ho); [done|]. by exists j.
Qed.
End Owner.

Lemma freesIn_trans h s1 m1 L1 bl1 s2 m2 L2 bl2 s3 m3 L3 : freesIn h s1 m1 L1 bl1 s2 m2 L2 -> freesIn h s2 m2 L2 bl2 s3 m3 L3 ->
  freesIn h s1 m1 L1 (bl1 ++ bl2) s3 m3 L3.
Proof.
  intros [A1 A2 A3 A4 A5 A6 A7] [B1 B2 B3 B4 B5 B6 B7]. split; try done; try congruence.
  - rewrite sumZ_app. lia.
  - intros q k. rewrite B6, A6, fmap_app, elem_of_app. tauto.
  - intros q k x Hq Hx. rewrite (B7 q k x Hq Hx). apply (A7 q k x); [|done]. by apply B6 in Hq as [].
Qed.

Lemma freesIn_perm h s m Ls bl bl' s' m' Ls' : bl ≡ₚ bl' -> freesIn h s m Ls bl s' m' Ls' -> freesIn h s m Ls bl' s' m' Ls'.
Proof.
  intros Hp [A1 A2 A3 A4 A5 A6 A7]. split; try done.
  - rewrite A5. f_equal. clear -Hp. induction Hp; unfold sumZ in *; simpl in *; lia.
  - intros q k. by rewrite A6, Hp.
Qed.

Lemma freesIn_refl h s m Ls : segsOk h s m Ls -> freesIn h s m Ls [] s m Ls.
Proof. intros H. split; try done; unfold sumZ; simpl; [lia|]. intros q k. set_solver. Qed.

Lemma releaseIn_spec h owner bl indices : forall segments m Ls, NoDup indices -> segsOk h segments m Ls -> NoDup bl.*1 ->
  (forall i, i ∈ indices -> exists fa L, segments !! i = Some fa /\ Ls !! i = Some L /\ listed fa L (mine owner bl i)) ->
  exists segments' m' Ls', releaseIn segments owner m bl.*1 indices = Some (segments', m') /\
    freesIn h segments m Ls (mjoin (mine owner bl <$> indices)) segments' m' Ls'.
Proof.
  induction indices as [|i indices IH]; intros segments m Ls Hnd Hok Hbl Hall.
  { exists segments, m, Ls. split; [done|]. by apply freesIn_refl. }
  apply NoDup_cons in Hnd as [Hi Hnd]. destruct (Hall i ltac:(by left)) as (fa & L & Hfa & HL & Hl).
  cbn [releaseIn]. rewrite mine_fst. destruct (mine owner bl i) as [|x mine0] eqn:Em.
  { destruct (IH segments m Ls Hnd Hok Hbl) as (s' & m' & Ls' & E & Hf); [intros; apply Hall; by right|].
    exists s', m', Ls'. split; [done|]. cbn [fmap list_fmap mjoin list_join]. by rewrite Em. }
  rewrite fmap_cons, <- (fmap_cons fst), <- Em in *. rewrite Hfa. cbn [mbind option_bind].
  destruct (segsOk_lookup _ _ _ _ _ _ Hok Hfa) as (L0 & HL0 & Hti & Ht & _). simplify_eq.
  destruct (freeBulk_spec fa m L (mine owner bl i).*1 Hti Ht) as (fa' & m1 & E & Hfr).
  { apply Hl. }
  { intros b ([b' n] & -> & Hb)%list_elem_of_fmap. exists n. by apply Hl. }
  rewrite E. cbn [mbind option_bind]. pose proof (freeing_segment _ _ _ _ _ _ _ _ _ _ Hok Hfa HL Hl Hfr) as Hf1.
  destruct (IH (<[i := fa']> segments) m1 (<[i := freed (mine owner bl i).*1 (start_ fa) L]> Ls) Hnd (fi_ok _ _ _ _ _ _ _ _ Hf1) Hbl)
    as (s' & m' & Ls' & E' & Hf2).
  { intros j Hj. assert (i <> j) by (by intros ->). rewrite !list_lookup_insert_ne by done. apply Hall. by right. }
  exists s', m', Ls'. split; [done|]. cbn [fmap list_fmap mjoin list_join]. by eapply freesIn_trans.
Qed.

(** A bulk release: the blocks of the list, wherever they are. *)
Lemma releaseBulk_spec sp m Ls bl : spaceOk sp m Ls -> listedIn (segments_ sp) Ls bl ->
  exists sp' m' Ls', releaseBulk sp m bl.*1 = Some (sp', m') /\ releases sp m Ls bl.*1 sp' m' Ls'.
Proof.
  intros Hsp Hbl. pose proof (sp_segs _ _ _ Hsp) as Hok. pose proof (headerBytes_spec _ _ _ _ _ Hok Hbl) as Hb.
  destruct Hbl as [Hnd Hbl].
  assert (Howner : forall b n, (b, n) ∈ bl -> exists i fa L, segmentOf sp b = Some i /\ segments_ sp !! i = Some fa /\
    Ls !! i = Some L /\ (b, Used n) ∈ blocksAt (start_ fa) L /\ kFreeBlockBytes <= n).
  { intros b n [(i & fa & L & Hi & HL & Hq) Hn]%Hbl. exists i, fa, L. split_and!; try done.
    pose proof (held_in_arena _ _ _ _ _ _ _ _ _ Hok Hi HL Hq). simpl in *. eapply segmentOf_spec; [done..|lia]. }
  assert (Hlisted : forall i fa L, segments_ sp !! i = Some fa -> Ls !! i = Some L -> listed fa L (mine (segmentOf sp) bl i)).
  { intros i fa L Hi HL. split.
    - rewrite <- mine_fst. by apply NoDup_filter.
    - intros b n [Ho Hin]%list_elem_of_filter. destruct (Howner b n Hin) as (j & fb & Lb & Ho' & Hj & HLj & Hq & Hn).
      simpl in Ho. rewrite Ho in Ho'. simplify_eq. done. }
  unfold releaseBulk. destruct (Nat.eqb_spec (segmentCount sp) 1) as [E1|E1].
  - rewrite Hb. cbn [mbind option_bind]. destruct (lookup_lt_is_Some_2 (segments_ sp) 0) as [fa Hfa]; [unfold segmentCount in *; lia|].
    rewrite Hfa. cbn [mbind option_bind]. destruct (segsOk_lookup _ _ _ _ _ _ Hok Hfa) as (L & HL & Hti & Ht & _).
    assert (Hl : listed fa L bl).
    { split; [done|]. intros b n Hin. destruct (Howner b n Hin) as (j & fb & Lb & _ & Hj & HLj & Hq & Hn).
      assert (j = 0%nat) as -> by (apply lookup_lt_Some in Hj; unfold segmentCount in *; lia). by simplify_eq. }
    destruct (freeBulk_spec fa m L bl.*1 Hti Ht) as (fa' & m1 & E & Hfr).
    { apply Hl. }
    { intros b ([b' n] & -> & Hb')%list_elem_of_fmap. exists n. by apply Hl. }
    rewrite E. cbn [mbind option_bind]. eexists _, m1, _. split; [done|].
    eapply freesIn_releases; [done|by eapply freeing_segment|done].
  - assert (Ef : filter (fun hdr => is_Some (segmentOf sp hdr)) bl.*1 = bl.*1).
    { apply filter_all. intros b ([b' n] & -> & Hin)%list_elem_of_fmap.
      destruct (Howner b' n Hin) as (i & fa & L & Ho & _). cbn [fst]. rewrite Ho. by eexists. }
    rewrite Ef, Hb. cbn [mbind option_bind].
    destruct (releaseIn_spec (sizesFromHeaders (config_ sp)) (segmentOf sp) bl (seq 0 (segmentCount sp)) (segments_ sp) m Ls)
      as (s' & m' & Ls' & E & Hf).
    + apply NoDup_seq.
    + done.
    + done.
    + intros i Hi%elem_of_seq. destruct (lookup_lt_is_Some_2 (segments_ sp) i) as [fa Hfa]; [unfold segmentCount in *; lia|].
      destruct (segsOk_lookup _ _ _ _ _ _ Hok Hfa) as (L & HL & _). exists fa, L. split_and!; [done..|]. by apply Hlisted.
    + rewrite E. cbn [mbind option_bind]. eexists _, m', Ls'. split; [done|].
      eapply freesIn_releases; [done| |done]. eapply freesIn_perm; [|exact Hf].
      apply mine_perm; [apply NoDup_seq|]. intros [b n] Hin. destruct (Howner b n Hin) as (i & fa & L & Ho & Hi & _).
      exists i. split; [|done]. apply elem_of_seq. apply lookup_lt_Some in Hi. unfold segmentCount. lia.
Qed.

(** ** Scans *)

Lemma validate_ok sp m Ls : Forall inUserSpace (segments_ sp) -> spaceOk sp m Ls -> validate sp m = Some true.
Proof.
  intros Hus Hsp. pose proof (so_each _ _ _ _ (sp_segs _ _ _ Hsp)) as He. unfold validate. clear Hsp. revert Hus He.
  generalize (segments_ sp). intros segs Hus. induction 1 as [|fa L segs Ls' (Hti & _) _ IH]; [done|].
  apply Forall_cons in Hus as [Hu Hus]. cbn [validateSegments]. rewrite (validate_accepts fa m L Hu Hti). by apply IH.
Qed.

Lemma iterateAllocated_ok sp m Ls : spaceOk sp m Ls ->
  exists l, iterateAllocated sp m = Some l /\ forall q, q ∈ l <-> exists k, held sp Ls q k.
Proof.
  intros Hsp. pose proof (so_each _ _ _ _ (sp_segs _ _ _ Hsp)) as He. unfold iterateAllocated, held. clear Hsp. revert He.
  generalize (segments_ sp). induction 1 as [|fa L segs Ls' (Hti & _) _ (l & E & IH)]; cbn [iterateSegments].
  - exists []. split; [done|]. intros q. split; [by intros ?%elem_of_nil|]. intros (k & i & fa & L & Hi & _). by rewrite lookup_nil in Hi.
  - rewrite (iterateAllocated_spec fa m L Hti). cbn [mbind option_bind]. rewrite E. cbn [mbind option_bind]. eexists. split; [done|].
    intros q. rewrite elem_of_app, elem_of_usedAt, IH. split.
    + intros [[n Hn]|(k & i & fb & Lb & Hi & HL & Hq)]; [by exists n, 0%nat, fa, L|by exists k, (S i), fb, Lb].
    + intros (k & [|i] & fb & Lb & Hi & HL & Hq); simplify_eq/=; [left; by exists k|right; by exists k, i, fb, Lb].
Qed.

Lemma available_ok sp m Ls : spaceOk sp m Ls -> available sp = sumZ freeBytes Ls.
Proof.
  intros [_ Hok Er Eu _ _]. pose proof (used_le_reserved _ _ _ _ Hok) as Hu. unfold available. rewrite Er, Eu.
  assert (E : sumZ freeBytes Ls = sumZ len Ls - sumZ usedBytes Ls).
  { clear. induction Ls as [|L Ls IH]; [done|]. unfold sumZ in *. simpl. pose proof (bytes_len L). lia. }
  rewrite E. destruct (Z.ltb_spec (sumZ usedBytes Ls) (sumZ len Ls)); lia.
Qed.
