(* ===== verification/BumpPtr.v ===== *)
(** * The bump-pointer allocator

    [BumpPointerAllocator] of src/include/camel/core/mm/alloc/bump_ptr.h over the memory of
    ObjHeader.v, one operation at a time; BumpThreads.v has the threads that run them. The space
    holds the blocks from [begin_] to [top_], each with its header ([stacked]). *)

From stdpp Require Import gmap.
From S2P Require Import Prelude ObjHeader FreeList FreeListInv FreeListOps.
#[local] Open Scope Z_scope.

Record BumpPointerAllocator := mkBump {
  start_ : Z;
  begin_ : Z;
  top_ : Z;
  end_ : Z;
}.

(** The constructor, over a buffer of the host at [start]. *)
Definition create (capacity start : Z) : BumpPointerAllocator :=
  mkBump start start start (start + alignUp capacity kSlot).

Definition totalSize (size : Z) : Z := alignUp (u64 (kHeaderBytes + size)) kSlot.

(** [alloc], when no other thread moves the top between its load and its exchange. *)
Definition alloc (ba : BumpPointerAllocator) (m : Mem) (size : Z) : option (Z * BumpPointerAllocator * Mem) :=
  let total := totalSize size in
  let newTop := top_ ba + total in
  if end_ ba <? newTop then Some (0, ba, m)
  else
    m ← store m (top_ ba) (ObjectHeader total);
    Some (top_ ba + kHeaderBytes, mkBump (start_ ba) (begin_ ba) newTop (end_ ba), m).

Definition contains (ba : BumpPointerAllocator) (ptr : Z) : bool := (start_ ba <=? ptr) && (ptr <? end_ ba).

Definition free (ba : BumpPointerAllocator) (ptr : Z) : option BumpPointerAllocator :=
  GUARD contains ba ptr;; Some (mkBump (start_ ba) (begin_ ba) (ptr - kHeaderBytes) (end_ ba)).

Definition reset (ba : BumpPointerAllocator) : BumpPointerAllocator := mkBump (start_ ba) (start_ ba) (start_ ba) (end_ ba).

(** [std::fill] over words. *)
Fixpoint fill (fuel : nat) (m : Mem) (a e v : Z) : option Mem :=
  if a <? e then match fuel with O => None | S fuel => m ← store m a v; fill fuel m (a + 8) e v end else Some m.

Definition resetPoisoned (ba : BumpPointerAllocator) (m : Mem) (poisonWord minFreeBytes : Z) :
    option (BumpPointerAllocator * Mem) :=
  m ← fill (Z.to_nat ((top_ ba - begin_ ba) / 8)) m (begin_ ba) (top_ ba) poisonWord;
  let top := if end_ ba - top_ ba <? minFreeBytes then start_ ba else top_ ba in
  Some (mkBump (start_ ba) top top (end_ ba), m).

Definition rewindIfShort (ba : BumpPointerAllocator) (neededBytes : Z) : option BumpPointerAllocator :=
  GUARD begin_ ba =? top_ ba;;
  Some (if end_ ba - top_ ba <? neededBytes then mkBump (start_ ba) (start_ ba) (start_ ba) (end_ ba) else ba).

Definition capacity (ba : BumpPointerAllocator) : Z := end_ ba - start_ ba.
Definition used (ba : BumpPointerAllocator) : Z := top_ ba - begin_ ba.
Definition containsAllocated (ba : BumpPointerAllocator) (ptr : Z) : bool := (begin_ ba <=? ptr) && (ptr <? top_ ba).
Definition available (ba : BumpPointerAllocator) : Z := if top_ ba <=? end_ ba then end_ ba - top_ ba else 0.

Fixpoint iterateFrom (fuel : nat) (m : Mem) (current topSnapshot : Z) : option (list Z) :=
  if current <? topSnapshot then
    match fuel with
    | O => None
    | S fuel =>
        h ← load m current;
        n ← ObjHeader.size h;
        GUARD kHeaderBytes <=? n;;
        GUARD n mod 8 =? 0;;
        GUARD current + n <=? topSnapshot;;
        rest ← iterateFrom fuel m (current + n) topSnapshot;
        Some (current :: rest)
    end
  else Some [].
Definition iterateAllocated (ba : BumpPointerAllocator) (m : Mem) : option (list Z) :=
  iterateFrom (Z.to_nat ((top_ ba - begin_ ba) / 8)) m (begin_ ba) (top_ ba).

(** [swap]: the two spaces trade their buffers. *)
Definition swap (a b : BumpPointerAllocator) : BumpPointerAllocator * BumpPointerAllocator := (b, a).

(** ** Stacks of blocks *)

Fixpoint stack (m : Mem) (a : Z) (sizes : list Z) : Prop :=
  match sizes with
  | [] => True
  | n :: sizes => kHeaderBytes <= n /\ n mod 8 = 0 /\ (exists h, m !! a = Some h /\ ObjHeader.size h = Some n) /\ stack m (a + n) sizes
  end.

Definition sum (sizes : list Z) : Z := foldr Z.add 0 sizes.

Record stacked (ba : BumpPointerAllocator) (m : Mem) (sizes : list Z) : Prop := {
  st_start : 0 < start_ ba /\ start_ ba mod 8 = 0;
  st_begin : start_ ba <= begin_ ba /\ begin_ ba mod 8 = 0;
  st_top : top_ ba = begin_ ba + sum sizes;
  st_end : top_ ba <= end_ ba;
  st_bound : end_ ba < 2 ^ 48;
  st_stack : stack m (begin_ ba) sizes;
  st_backed : backed m (start_ ba) (end_ ba);
}.

(** The addresses of the blocks. *)
Fixpoint headersAt (a : Z) (sizes : list Z) : list Z :=
  match sizes with [] => [] | n :: sizes => a :: headersAt (a + n) sizes end.

Lemma sum_app l k : sum (l ++ k) = sum l + sum k.
Proof. unfold sum. induction l; simpl; lia. Qed.

Lemma stack_app m a l k : stack m a (l ++ k) <-> stack m a l /\ stack m (a + sum l) k.
Proof.
  revert a. induction l as [|n l IH]; intros a; simpl; [by rewrite Z.add_0_r; tauto|].
  rewrite IH. unfold sum at 2. simpl. fold (sum l). rewrite Z.add_assoc. tauto.
Qed.

Lemma stack_sum m a sizes : stack m a sizes -> 8 * Z.of_nat (length sizes) <= sum sizes /\ sum sizes mod 8 = 0.
Proof.
  revert a. induction sizes as [|n sizes IH]; intros a; [done|]. intros (Hn & H8 & _ & Hs%IH). unfold sum, kHeaderBytes in *. simpl.
  split; [lia|]. rewrite Z.add_mod, H8 by done. by rewrite (proj2 Hs).
Qed.

Lemma stack_frame m m' a sizes : (forall x, a <= x < a + sum sizes -> m' !! x = m !! x) -> stack m a sizes -> stack m' a sizes.
Proof.
  revert a. induction sizes as [|n sizes IH]; intros a Hm; [done|]. intros (Hn & H8 & Hh & Hs). unfold kHeaderBytes in *.
  pose proof (stack_sum _ _ _ Hs). change (sum (n :: sizes)) with (n + sum sizes) in Hm. simpl. rewrite Hm by lia.
  split_and!; [done..|]. apply IH; [|done]. intros x Hx. apply Hm. lia.
Qed.

Lemma totalSize_spec size : 0 <= size < 2 ^ 64 - 15 -> totalSize size = blockBytes size /\ blockBytes size mod 8 = 0 /\
  kHeaderBytes + size <= blockBytes size.
Proof. apply blockBytes_spec. Qed.

(** ** The operations *)

Lemma bump_create_spec capacity start m : 0 < start -> start mod 8 = 0 -> 0 <= capacity -> start + capacity < 2 ^ 48 - 8 ->
  backed m start (start + (capacity + 7) / 8 * 8) -> stacked (create capacity start) m [].
Proof.
  intros Hs Hs8 Hc Hb Hback. unfold create. rewrite alignUp_8 by lia.
  pose proof (Z.mod_pos_bound (capacity + 7) 8). pose proof (Z.div_mod (capacity + 7) 8).
  split; simpl; try done; unfold sum; simpl; lia.
Qed.

(** An allocation pushes a block, or says no when it does not fit. *)
Lemma bump_alloc_spec ba m sizes size : stacked ba m sizes -> 0 <= size < 2 ^ 64 - 15 ->
  if end_ ba <? top_ ba + blockBytes size then alloc ba m size = Some (0, ba, m)
  else exists m', alloc ba m size =
      Some (top_ ba + kHeaderBytes, mkBump (start_ ba) (begin_ ba) (top_ ba + blockBytes size) (end_ ba), m') /\
    stacked (mkBump (start_ ba) (begin_ ba) (top_ ba + blockBytes size) (end_ ba)) m' (sizes ++ [blockBytes size]) /\
    (forall x, x <> top_ ba -> m' !! x = m !! x).
Proof.
  intros [Hs Hb Ht He Hbd Hst Hbk] Hsize. destruct (totalSize_spec size Hsize) as (E & H8 & Hn). unfold alloc. rewrite E.
  destruct (Z.ltb_spec (end_ ba) (top_ ba + blockBytes size)) as [|Hfit]; [done|]. unfold kHeaderBytes in *.
  destruct (stack_sum _ _ _ Hst) as [_ Hsum8].
  assert (Ht8 : top_ ba mod 8 = 0) by (rewrite Ht; by rewrite Z.add_mod, (proj2 Hb), Hsum8).
  pose proof (stack_sum _ _ _ Hst) as [Hsum _].
  rewrite store_Some by (apply Hbk; [lia|done]). simpl. eexists. split_and!; [done| |].
  - split; simpl; try done.
    + rewrite sum_app. unfold sum at 2. simpl. lia.
    + apply stack_app. split.
      * eapply stack_frame; [|exact Hst]. intros x Hx. by rewrite lookup_insert_ne by lia.
      * rewrite <- Ht. simpl. unfold kHeaderBytes. split_and!; [lia|done| |done]. eexists. rewrite lookup_insert_eq. split; [done|].
        apply size_ObjectHeader. lia.
    + by apply backed_insert.
  - intros x Hx. by rewrite lookup_insert_ne by done.
Qed.

Lemma iterate_spec ba m sizes : stacked ba m sizes -> iterateAllocated ba m = Some (headersAt (begin_ ba) sizes).
Proof.
  intros [_ _ Ht _ _ Hst _]. unfold iterateAllocated. rewrite Ht. replace (begin_ ba + sum sizes - begin_ ba) with (sum sizes) by lia.
  destruct (stack_sum _ _ _ Hst) as [Hl _]. assert (Hf : (length sizes <= Z.to_nat (sum sizes / 8))%nat).
  { assert (Z.of_nat (length sizes) <= sum sizes / 8) by (apply Z.div_le_lower_bound; lia). lia. }
  clear Ht Hl. revert Hf. generalize (Z.to_nat (sum sizes / 8)). revert Hst. generalize (begin_ ba).
  induction sizes as [|n sizes IH]; intros a Hst fuel Hf; cbn [headersAt].
  - destruct fuel; cbn [iterateFrom]; by replace (a <? a + sum []) with false by (unfold sum; simpl; lia).
  - destruct Hst as (Hn & H8 & (h & Hh & Hs) & Hst). pose proof (stack_sum _ _ _ Hst). unfold kHeaderBytes in *.
    change (sum (n :: sizes)) with (n + sum sizes). destruct fuel as [|fuel]; [simpl in Hf; lia|]. cbn [iterateFrom].
    replace (a <? a + (n + sum sizes)) with true by lia. unfold load. rewrite Hh. cbn [mbind option_bind]. rewrite Hs.
    cbn [mbind option_bind]. rewrite !guarded_true by (unfold kHeaderBytes; lia).
    rewrite Z.add_assoc, (IH (a + n)) by (done || (simpl in Hf; lia)). done.
Qed.

(** [free] takes back the last block, and with it everything allocated after its own. *)
Lemma bump_free_spec ba m l n k : stacked ba m (l ++ n :: k) -> n <> kHeaderBytes ->
  exists ba', free ba (begin_ ba + sum l + kHeaderBytes) = Some ba' /\ stacked ba' m l.
Proof.
  intros [Hs Hb Ht He Hbd Hst Hbk] Hne. apply stack_app in Hst as [Hl (Hn & H8 & _ & Hk)].
  pose proof (stack_sum _ _ _ Hl). pose proof (stack_sum _ _ _ Hk). rewrite sum_app in Ht. unfold sum at 2 in Ht. simpl in Ht. fold (sum k) in Ht.
  unfold kHeaderBytes in *. eexists. unfold free, contains. rewrite guarded_true by lia. split; [done|].
  split; simpl; try done; unfold kHeaderBytes; lia.
Qed.

Lemma bump_reset_spec ba m sizes : stacked ba m sizes -> stacked (reset ba) m [].
Proof.
  intros [Hs Hb Ht He Hbd Hst Hbk]. pose proof (stack_sum _ _ _ Hst). split; simpl; try done; unfold sum; simpl; lia.
Qed.

Lemma rewind_spec ba m n : stacked ba m [] -> exists ba', rewindIfShort ba n = Some ba' /\ stacked ba' m [] /\
  (n <= end_ ba - start_ ba -> n <= end_ ba' - top_ ba').
Proof.
  intros [Hs Hb Ht He Hbd Hst Hbk]. unfold rewindIfShort. unfold sum in Ht. simpl in Ht. rewrite guarded_true by lia.
  eexists. split; [done|]. destruct (Z.ltb_spec (end_ ba - top_ ba) n); simpl; (split; [split; simpl; try done; unfold sum; simpl; lia|lia]).
Qed.

(** [fill] writes every word. *)
Lemma fill_spec v : forall fuel m a e, 0 <= e - a -> (e - a) mod 8 = 0 -> a mod 8 = 0 -> backed m a e -> (Z.to_nat ((e - a) / 8) <= fuel)%nat ->
  exists m', fill fuel m a e v = Some m' /\ (forall x, a <= x < e -> x mod 8 = 0 -> m' !! x = Some v) /\
    outside a e m m'.
Proof.
  induction fuel as [|fuel IH]; intros m a e Hle H8 Ha Hb Hf; cbn [fill].
  - assert (e - a = 0) by (pose proof (Z.div_mod (e - a) 8); lia). replace (a <? e) with false by lia.
    exists m. split_and!; [done|lia|done].
  - destruct (Z.ltb_spec a e) as [Hlt|]; [|exists m; split_and!; [done|lia|done]].
    rewrite store_Some by (apply Hb; [lia|done]). cbn [mbind option_bind].
    assert (8 <= e - a) by (pose proof (Z.div_mod (e - a) 8); lia).
    destruct (IH (<[a := v]> m) (a + 8) e) as (m' & E & Hin & Hout); [lia| | | | |].
    + replace (e - (a + 8)) with (e - a + (-1) * 8) by lia. by rewrite Z.mod_add.
    + by rewrite Z.add_mod, Ha.
    + intros x Hx Hx8. destruct (decide (x = a)) as [->|]; [lia|]. rewrite lookup_insert_ne by done. apply Hb; [lia|done].
    + replace (e - (a + 8)) with (e - a + (-1) * 8) by lia. rewrite Z.div_add by done. lia.
    + exists m'. split_and!; [done| |].
      * intros x Hx Hx8. destruct (decide (x = a)) as [->|Hne].
        -- rewrite Hout by lia. by rewrite lookup_insert_eq.
        -- apply Hin; [|done]. pose proof (Z.div_mod x 8). pose proof (Z.div_mod a 8). lia.
      * intros x Hx. rewrite Hout by lia. by rewrite lookup_insert_ne by lia.
Qed.

Lemma resetPoisoned_spec ba m sizes v minFree : stacked ba m sizes -> exists ba' m',
  resetPoisoned ba m v minFree = Some (ba', m') /\ stacked ba' m' [] /\
  (forall x, begin_ ba <= x < top_ ba -> x mod 8 = 0 -> m' !! x = Some v) /\ outside (begin_ ba) (top_ ba) m m' /\
  (minFree <= end_ ba - start_ ba -> minFree <= end_ ba' - top_ ba').
Proof.
  intros [Hs Hb Ht He Hbd Hst Hbk]. destruct (stack_sum _ _ _ Hst) as [Hsum Hsum8]. unfold resetPoisoned.
  destruct (fill_spec v (Z.to_nat ((top_ ba - begin_ ba) / 8)) m (begin_ ba) (top_ ba)) as (m' & E & Hin & Hout).
  - lia.
  - rewrite Ht. by replace (begin_ ba + sum sizes - begin_ ba) with (sum sizes) by lia.
  - apply Hb.
  - intros x Hx. apply Hbk. lia.
  - done.
  - rewrite E. cbn [mbind option_bind]. eexists _, m'. split; [done|].
    assert (Hbk' : backed m' (start_ ba) (end_ ba)).
    { intros x Hx Hx8. destruct (decide (begin_ ba <= x < top_ ba)); [rewrite Hin by done; eauto|]. rewrite Hout by lia. by apply Hbk. }
    assert (Ht8 : top_ ba mod 8 = 0) by (rewrite Ht; by rewrite Z.add_mod, (proj2 Hb), Hsum8).
    destruct (Z.ltb_spec (end_ ba - top_ ba) minFree); simpl;
      (split_and!; [split; simpl; try done; unfold sum; simpl; lia|done|done|lia]).
Qed.
