(* ===== verification/BumpThreads.v ===== *)
(** * Threads on a bump-pointer allocator

    The protocol of src/include/camel/core/mm/alloc/bump_ptr.h, one atomic operation per step:
    allocations are shared operations (SharedOperationGuard around a load of the top and an
    exchange), and reset and the like are exclusive ones (withExclusiveAccess). The store to
    [exclusiveMode_] is a release store: under [buffered] it waits in the store buffer of its
    thread, as a processor with store buffers lets it, and without it every step is seen by all
    threads at once. *)

From stdpp Require Import gmap.
From S2P Require Import Prelude ObjHeader BumpPtr.
#[local] Open Scope Z_scope.

Abbreviation Tid := nat.

(** Where a thread is. *)
Inductive Pc :=
  | Idle
  (* beginSharedOperation *)
  | Spin (size : Z)
  | Join (size : Z)
  | Counted (size : Z)
  | BackOff (size : Z)
  (* alloc, between the guard's constructor and destructor *)
  | LoadTop (size : Z)
  | Exchange (size currentTop : Z)
  | Install (currentTop total : Z)
  | EndShared (result : Z)
  (* withExclusiveAccess *)
  | StoreMode
  | WaitQuiescence
  | Critical
  | ClearMode
  | Unlock.

Record Threads := mkThreads {
  bump : BumpPointerAllocator;
  mem : Mem;
  exclusiveMode : bool;
  buffer : list bool;
  activeOps : nat;
  mutex : option Tid;
  pcs : gmap Tid Pc;
  handed : list (Z * Z);
}.

Definition setPc (t : Tid) (pc : Pc) (s : Threads) : Threads :=
  mkThreads (bump s) (mem s) (exclusiveMode s) (buffer s) (activeOps s) (mutex s) (<[t := pc]> (pcs s)) (handed s).
Definition setOps (n : nat) (s : Threads) : Threads :=
  mkThreads (bump s) (mem s) (exclusiveMode s) (buffer s) n (mutex s) (pcs s) (handed s).
Definition setMutex (o : option Tid) (s : Threads) : Threads :=
  mkThreads (bump s) (mem s) (exclusiveMode s) (buffer s) (activeOps s) o (pcs s) (handed s).
Definition setBump (b : BumpPointerAllocator) (s : Threads) : Threads :=
  mkThreads b (mem s) (exclusiveMode s) (buffer s) (activeOps s) (mutex s) (pcs s) (handed s).

(** The store of the thread that holds the mutex: at once, or into its buffer. *)
Definition storeMode (buffered : bool) (v : bool) (s : Threads) : Threads :=
  if buffered
  then mkThreads (bump s) (mem s) (exclusiveMode s) (buffer s ++ [v]) (activeOps s) (mutex s) (pcs s) (handed s)
  else mkThreads (bump s) (mem s) v (buffer s) (activeOps s) (mutex s) (pcs s) (handed s).

(** One atomic operation of one thread. [beginSharedOperation] looks at the mode, counts itself, and
    looks again: in between an exclusive operation may have begun. *)
Inductive step (buffered : bool) : Threads -> Threads -> Prop :=
  | s_begin s t size : pcs s !! t = Some Idle -> 0 <= size < 2 ^ 48 -> step buffered s (setPc t (Spin size) s)
  | s_spin s t size : pcs s !! t = Some (Spin size) -> exclusiveMode s = true -> step buffered s s
  | s_pass s t size : pcs s !! t = Some (Spin size) -> exclusiveMode s = false -> step buffered s (setPc t (Join size) s)
  (* the mode may have changed since *)
  | s_count s t size : pcs s !! t = Some (Join size) ->
      step buffered s (setPc t (Counted size) (setOps (S (activeOps s)) s))
  | s_enter s t size : pcs s !! t = Some (Counted size) -> exclusiveMode s = false ->
      step buffered s (setPc t (LoadTop size) s)
  | s_refuse s t size : pcs s !! t = Some (Counted size) -> exclusiveMode s = true ->
      step buffered s (setPc t (BackOff size) s)
  | s_backOff s t size : pcs s !! t = Some (BackOff size) ->
      step buffered s (setPc t (Spin size) (setOps (pred (activeOps s)) s))
  | s_load s t size : pcs s !! t = Some (LoadTop size) ->
      step buffered s
        (setPc t (if end_ (bump s) <? top_ (bump s) + totalSize size then EndShared 0 else Exchange size (top_ (bump s))) s)
  | s_exchange s t size top : pcs s !! t = Some (Exchange size top) -> top_ (bump s) = top ->
      step buffered s
        (setPc t (Install top (totalSize size))
           (setBump (mkBump (start_ (bump s)) (begin_ (bump s)) (top + totalSize size) (end_ (bump s))) s))
  | s_retry s t size top : pcs s !! t = Some (Exchange size top) -> step buffered s (setPc t (LoadTop size) s)
  | s_install s t top total m : pcs s !! t = Some (Install top total) -> store (mem s) top (ObjectHeader total) = Some m ->
      step buffered s
        (setPc t (EndShared (top + kHeaderBytes))
           (mkThreads (bump s) m (exclusiveMode s) (buffer s) (activeOps s) (mutex s) (pcs s) ((top, total) :: handed s)))
  | s_end s t result : pcs s !! t = Some (EndShared result) ->
      step buffered s (setPc t Idle (setOps (pred (activeOps s)) s))
  | s_lock s t : pcs s !! t = Some Idle -> mutex s = None -> step buffered s (setPc t StoreMode (setMutex (Some t) s))
  | s_store s t : pcs s !! t = Some StoreMode -> step buffered s (setPc t WaitQuiescence (storeMode buffered true s))
  | s_wait s t : pcs s !! t = Some WaitQuiescence -> activeOps s <> 0%nat -> step buffered s s
  | s_quiet s t : pcs s !! t = Some WaitQuiescence -> activeOps s = 0%nat -> step buffered s (setPc t Critical s)
  (* the exclusive operation: reset *)
  | s_reset s t : pcs s !! t = Some Critical ->
      step buffered s
        (setPc t ClearMode
           (mkThreads (reset (bump s)) (mem s) (exclusiveMode s) (buffer s) (activeOps s) (mutex s) (pcs s) []))
  | s_clear s t : pcs s !! t = Some ClearMode -> step buffered s (setPc t Unlock (storeMode buffered false s))
  (* unlocking the mutex waits for the buffer, as the operation of a mutex does *)
  | s_unlock s t : pcs s !! t = Some Unlock -> buffer s = [] -> step buffered s (setPc t Idle (setMutex None s))
  | s_drain s v rest : buffer s = v :: rest ->
      step buffered s (mkThreads (bump s) (mem s) v rest (activeOps s) (mutex s) (pcs s) (handed s)).

Definition start (ba : BumpPointerAllocator) (m : Mem) (threads : list Tid) : Threads :=
  mkThreads ba m false [] 0 None (list_to_map ((fun t => (t, Idle)) <$> threads)) [].

Inductive reachable (buffered : bool) (s0 : Threads) : Threads -> Prop :=
  | r_start : reachable buffered s0 s0
  | r_step s s' : reachable buffered s0 s -> step buffered s s' -> reachable buffered s0 s'.

(** Inside of the guard of a shared operation, and of an exclusive one. *)
Definition inShared (pc : Pc) : bool :=
  match pc with LoadTop _ | Exchange _ _ | Install _ _ | EndShared _ => true | _ => false end.
Definition counted (pc : Pc) : bool := match pc with Counted _ | BackOff _ => true | pc => inShared pc end.
Definition owns (pc : Pc) : bool :=
  match pc with StoreMode | WaitQuiescence | Critical | ClearMode | Unlock => true | _ => false end.
Definition overlap (s : Threads) : Prop :=
  exists t u pc, pcs s !! t = Some Critical /\ pcs s !! u = Some pc /\ inShared pc = true.

(** ** Counting threads *)

Definition b2n (b : bool) : nat := if b then 1 else 0.
Definition countP (f : Pc -> bool) (m : gmap Tid Pc) : nat := base.size (filter (fun kv => f kv.2 = true) m).

Lemma countP_new f m t pc : m !! t = None -> countP f (<[t := pc]> m) = (b2n (f pc) + countP f m)%nat.
Proof.
  intros H. unfold countP, b2n. destruct (f pc) eqn:E.
  - rewrite map_filter_insert_True by done. rewrite map_size_insert_None; [done|]. by apply map_lookup_filter_None_2; left.
  - rewrite map_filter_insert_False by (simpl; congruence). by rewrite delete_id.
Qed.

Lemma countP_insert f m t pc pc' : m !! t = Some pc -> (countP f (<[t := pc']> m) + b2n (f pc) = countP f m + b2n (f pc'))%nat.
Proof.
  intros H. rewrite <- (insert_delete_id m t pc) at 2 by done. rewrite <- insert_delete_eq.
  rewrite !countP_new by apply lookup_delete_eq. lia.
Qed.

Lemma countP_in f m t pc : m !! t = Some pc -> f pc = true -> (1 <= countP f m)%nat.
Proof.
  intros H E. rewrite <- (insert_delete_id m t pc) by done. rewrite countP_new by apply lookup_delete_eq.
  unfold b2n. rewrite E. lia.
Qed.

Lemma countP_idle threads : countP counted (list_to_map ((fun t => (t, Idle)) <$> threads)) = 0%nat.
Proof.
  unfold countP. apply map_size_empty_iff, map_empty. intros t. apply map_lookup_filter_None_2. right. intros pc H.
  apply elem_of_list_to_map_2 in H. apply list_elem_of_fmap in H as (u & [= -> ->] & _). done.
Qed.

(** ** When every store is seen at once *)

Definition exclusivePc (pc : Pc) : bool := match pc with WaitQuiescence | Critical | ClearMode => true | _ => false end.
Definition alone (pc : Pc) : bool := match pc with Critical | ClearMode => true | _ => false end.

Record protocol (s : Threads) : Prop := {
  pr_buffer : buffer s = [];
  pr_owner : forall t pc, pcs s !! t = Some pc -> owns pc = true -> mutex s = Some t;
  pr_count : activeOps s = countP counted (pcs s);
  pr_mode : forall t pc, pcs s !! t = Some pc -> exclusivePc pc = true -> exclusiveMode s = true;
  pr_alone : forall t pc u pc', pcs s !! t = Some pc -> alone pc = true -> pcs s !! u = Some pc' -> inShared pc' = false;
}.

Ltac look := repeat match goal with
  | H : <[_ := _]> _ !! _ = Some _ |- _ => apply lookup_insert_Some in H as [[<- <-]|[? H]]
  end.

Lemma protocol_start ba m threads : protocol (start ba m threads).
Proof.
  assert (Hidle : forall t pc, pcs (start ba m threads) !! t = Some pc -> pc = Idle).
  { intros t pc H. apply elem_of_list_to_map_2 in H. by apply list_elem_of_fmap in H as (u & [= -> ->] & _). }
  split; try done.
  - intros t pc ->%Hidle. done.
  - symmetry. apply countP_idle.
  - intros t pc ->%Hidle. done.
  - intros t pc u pc' ->%Hidle. done.
Qed.

(** A step of a thread outside of an exclusive operation. *)
Lemma protocol_move s t pc pc' n b m h : protocol s -> pcs s !! t = Some pc -> owns pc = false -> owns pc' = false ->
  (n + b2n (counted pc) = activeOps s + b2n (counted pc'))%nat ->
  (inShared pc' = true -> inShared pc = true \/ exclusiveMode s = false) ->
  protocol (mkThreads b m (exclusiveMode s) (buffer s) n (mutex s) (<[t := pc']> (pcs s)) h).
Proof.
  intros [Hb Ho Hc Hm Ha] Ht Hw Hw' Hn Hs.
  assert (Hnot : forall q, owns q = false -> exclusivePc q = false /\ alone q = false) by by intros [].
  destruct (Hnot _ Hw') as [He' Hal']. split; cbn; try done.
  - intros u q Hu Hq. look; [congruence|]. by eapply Ho.
  - pose proof (countP_insert counted (pcs s) t pc pc' Ht). lia.
  - intros u q Hu Hq. look; [congruence|]. by eapply Hm.
  - intros u q v q' Hu Hq Hv. look; try congruence; [|by apply (Ha u q v q')].
    destruct (inShared pc') eqn:E; [|done]. destruct (Hs eq_refl) as [Hs'|Hs'].
    + pose proof (Ha _ _ _ _ Hu Hq Ht). congruence.
    + assert (exclusivePc q = true) as Hx by by destruct q. pose proof (Hm _ _ Hu Hx). congruence.
Qed.

(** A step of the thread that holds the mutex, or takes it. *)
Lemma protocol_own s t pc pc' mode mtx b h : protocol s -> pcs s !! t = Some pc ->
  (mutex s = Some t \/ mutex s = None) -> (owns pc' = true -> mtx = Some t) -> counted pc = false -> counted pc' = false ->
  (exclusivePc pc' = true -> mode = true) -> (alone pc' = true -> alone pc = true \/ activeOps s = 0%nat) ->
  protocol (mkThreads b (mem s) mode (buffer s) (activeOps s) mtx (<[t := pc']> (pcs s)) h).
Proof.
  intros [Hb Ho Hc Hm Ha] Ht Hmx Hw Hk Hk' Hmode Hal.
  assert (Hother : forall u q, u <> t -> pcs s !! u = Some q -> owns q = false).
  { intros u q Hne Hu. destruct (owns q) eqn:E; [|done]. apply (Ho u q Hu) in E. destruct Hmx; congruence. }
  assert (Hnot : forall q, owns q = false -> exclusivePc q = false /\ alone q = false) by by intros [].
  assert (Hin : inShared pc' = false) by by destruct pc'.
  split; cbn; try done.
  - intros u q Hu Hq. look; [by apply Hw|]. pose proof (Hother u q ltac:(done) Hu). congruence.
  - pose proof (countP_insert counted (pcs s) t pc pc' Ht) as H. rewrite Hk, Hk' in H. lia.
  - intros u q Hu Hq. look; [by apply Hmode|]. destruct (Hnot q) as [Hq' _]; [by eapply Hother|congruence].
  - intros u q v q' Hu Hq Hv. look; try done.
    + destruct (Hal Hq) as [Hal'|H0]; [by apply (Ha t pc v q')|]. destruct (inShared q') eqn:E; [|done].
      pose proof (countP_in counted (pcs s) v q' Hv) as Hcount. assert (counted q' = true) by by destruct q'. lia.
    + by apply (Ha u q v q').
Qed.

Lemma counted_pos s t pc : protocol s -> pcs s !! t = Some pc -> counted pc = true -> (1 <= activeOps s)%nat.
Proof. intros Hp Ht Hk. rewrite (pr_count _ Hp). by eapply countP_in. Qed.

Ltac moves s t Hp Ht :=
  eapply (protocol_move s t); [exact Hp|exact Ht|done|try done|cbn; try (pose proof (counted_pos _ _ _ Hp Ht eq_refl)); try lia|cbn; auto].
Ltac owned s t Hp Ht :=
  eapply (protocol_own s t); [exact Hp|exact Ht|auto|cbn; auto; try done|try done|done|cbn; auto; try done|cbn; auto; try done].

Lemma protocol_step s s' : protocol s -> step false s s' -> protocol s'.
Proof.
  intros Hp Hstep. pose proof (pr_buffer _ Hp) as Hb.
  assert (Hown : forall t pc, pcs s !! t = Some pc -> owns pc = true -> mutex s = Some t) by apply Hp.
  destruct Hstep as [s t n Ht|s t n Ht|s t n Ht Hx|s t n Ht|s t n Ht Hx|s t n Ht Hx|s t n Ht|s t n Ht|s t n top Ht|s t n top Ht
    |s t top n m Ht|s t r Ht|s t Ht Hx|s t Ht|s t Ht|s t Ht H0|s t Ht|s t Ht|s t Ht _|s v rest Hv]; try done;
    try (specialize (Hown t _ Ht eq_refl)).
  - moves s t Hp Ht.
  - moves s t Hp Ht.
  - moves s t Hp Ht.
  - moves s t Hp Ht.
  - moves s t Hp Ht.
  - moves s t Hp Ht.
  - moves s t Hp Ht; by destruct (_ <? _).
  - moves s t Hp Ht.
  - moves s t Hp Ht.
  - moves s t Hp Ht.
  - moves s t Hp Ht.
  - owned s t Hp Ht.
  - owned s t Hp Ht.
  - owned s t Hp Ht. intros _. by apply (pr_mode _ Hp t _ Ht).
  - owned s t Hp Ht. intros _. by apply (pr_mode _ Hp t _ Ht).
  - owned s t Hp Ht.
  - owned s t Hp Ht.
  - congruence.
Qed.

Lemma protocol_reachable ba m threads s : reachable false (start ba m threads) s -> protocol s.
Proof. induction 1; [apply protocol_start|by eapply protocol_step]. Qed.

(** No thread is in a shared operation while another is in an exclusive one. *)
Lemma no_overlap ba m threads s : reachable false (start ba m threads) s -> ~ overlap s.
Proof.
  intros Hr (t & u & pc & Ht & Hu & Hpc). pose proof (pr_alone _ (protocol_reachable _ _ _ _ Hr) t _ u pc Ht eq_refl Hu).
  congruence.
Qed.

(** With store buffers there is: the store to the mode is still in its buffer when its thread
    reads the count, and when the other one reads the mode a second time. *)
Definition aSpace : BumpPointerAllocator := mkBump 64 64 64 128.

Lemma overlap_buffered : exists s, reachable true (start aSpace ∅ [0; 1]%nat) s /\ overlap s.
Proof.
  assert (R : reachable true (start aSpace ∅ [0; 1]%nat) (start aSpace ∅ [0; 1]%nat)) by constructor.
  eapply r_step in R; [|apply (s_lock _ _ 0%nat); reflexivity].
  eapply r_step in R; [|apply (s_store _ _ 0%nat); reflexivity].
  eapply r_step in R; [|apply (s_quiet _ _ 0%nat); reflexivity].
  eapply r_step in R; [|apply (s_begin _ _ 1%nat 8); [reflexivity|lia]].
  eapply r_step in R; [|apply (s_pass _ _ 1%nat 8); reflexivity].
  eapply r_step in R; [|apply (s_count _ _ 1%nat 8); reflexivity].
  eapply r_step in R; [|apply (s_enter _ _ 1%nat 8); reflexivity].
  eexists. split; [exact R|]. exists 0%nat, 1%nat, (LoadTop 8). by split_and!.
Qed.

(** ** The blocks of allocations that interleave *)

Definition installing (pc : Pc) : option (Z * Z) := match pc with Install a n => Some (a, n) | _ => None end.
Definition pending (m : gmap Tid Pc) : list (Z * Z) := omap (fun kv => installing kv.2) (map_to_list m).
Definition opt {A} (o : option A) : list A := match o with Some x => [x] | None => [] end.

Lemma pending_new m t pc : m !! t = None -> pending (<[t := pc]> m) ≡ₚ opt (installing pc) ++ pending m.
Proof. intros H. unfold pending. rewrite map_to_list_insert by done. simpl. by destruct (installing pc). Qed.

Lemma pending_at m t pc : m !! t = Some pc -> pending m ≡ₚ opt (installing pc) ++ pending (delete t m).
Proof. intros H. rewrite <- (insert_delete_id m t pc) at 1 by done. apply pending_new, lookup_delete_eq. Qed.

Lemma pending_insert m t pc : pending (<[t := pc]> m) ≡ₚ opt (installing pc) ++ pending (delete t m).
Proof. rewrite <- insert_delete_eq. apply pending_new, lookup_delete_eq. Qed.

(** Blocks one behind the other. *)
Fixpoint blocksOf (a : Z) (sizes : list Z) : list (Z * Z) :=
  match sizes with [] => [] | n :: sizes => (a, n) :: blocksOf (a + n) sizes end.

Definition wellSized (sizes : list Z) : Prop := forall n, n ∈ sizes -> kHeaderBytes <= n < 2 ^ 48 /\ n mod 8 = 0.

Lemma blocksOf_app a l k : blocksOf a (l ++ k) = blocksOf a l ++ blocksOf (a + sum l) k.
Proof.
  revert a. induction l as [|n l IH]; intros a; simpl; [by rewrite Z.add_0_r|].
  rewrite IH. unfold sum. simpl. by rewrite Z.add_assoc.
Qed.

Lemma wellSized_sum sizes : wellSized sizes -> 0 <= sum sizes /\ sum sizes mod 8 = 0.
Proof.
  unfold sum. induction sizes as [|n sizes IH]; intros H; [done|]. destruct (H n ltac:(left)) as [Hn H8]. unfold kHeaderBytes in *.
  destruct IH as [IH1 IH2]; [intros k ?; apply H; by right|]. simpl. split; [lia|]. by rewrite Z.add_mod, H8, IH2.
Qed.

Lemma blocksOf_in a sizes b n : wellSized sizes -> (b, n) ∈ blocksOf a sizes -> a <= b /\ b + n <= a + sum sizes /\ kHeaderBytes <= n < 2 ^ 48.
Proof.
  revert a. induction sizes as [|k sizes IH]; intros a Hw; simpl; [by intros ?%elem_of_nil|].
  assert (Hw' : wellSized sizes) by (intros ? ?; apply Hw; by right). pose proof (proj1 (wellSized_sum _ Hw')).
  destruct (Hw k ltac:(left)) as [Hk _]. change (sum (k :: sizes)) with (k + sum sizes). unfold kHeaderBytes in *.
  intros [[= -> ->]|Hin]%elem_of_cons; [lia|]. destruct (IH _ Hw' Hin) as (? & ? & ?). lia.
Qed.

Lemma blocksOf_fst a sizes : wellSized sizes -> NoDup (blocksOf a sizes).*1.
Proof.
  revert a. induction sizes as [|k sizes IH]; intros a Hw; simpl; [constructor|].
  assert (Hw' : wellSized sizes) by (intros ? ?; apply Hw; by right). constructor; [|by apply IH].
  intros ([b n] & -> & Hin)%list_elem_of_fmap. apply blocksOf_in in Hin as (? & _); [|done]. destruct (Hw k ltac:(left)).
  unfold kHeaderBytes in *. simpl in *. lia.
Qed.

Record blocks (s : Threads) (sizes : list Z) : Prop := {
  bl_start : 0 < start_ (bump s) /\ start_ (bump s) mod 8 = 0;
  bl_begin : start_ (bump s) <= begin_ (bump s) /\ begin_ (bump s) mod 8 = 0;
  bl_top : top_ (bump s) = begin_ (bump s) + sum sizes;
  bl_end : top_ (bump s) <= end_ (bump s);
  bl_bound : end_ (bump s) < 2 ^ 48;
  bl_backed : FreeListInv.backed (mem s) (start_ (bump s)) (end_ (bump s));
  bl_sized : wellSized sizes;
  bl_blocks : handed s ++ pending (pcs s) ≡ₚ blocksOf (begin_ (bump s)) sizes;
  bl_headers : forall a n, (a, n) ∈ handed s -> mem s !! a = Some (ObjectHeader n);
  bl_sizes : forall t pc size, pcs s !! t = Some pc -> In pc [Spin size; Join size; Counted size; BackOff size; LoadTop size] -> 0 <= size < 2 ^ 48;
  bl_fits : forall t size top, pcs s !! t = Some (Exchange size top) -> 0 <= size < 2 ^ 48 /\ top + totalSize size <= end_ (bump s);
}.

Lemma pending_idle threads : pending (list_to_map ((fun t => (t, Idle)) <$> threads)) = [].
Proof.
  unfold pending. destruct (omap _ _) as [|x l] eqn:E; [done|]. exfalso.
  assert (Hx : x ∈ x :: l) by left. rewrite <- E in Hx. apply list_elem_of_omap in Hx as ([t pc] & Hin & Hx).
  apply elem_of_map_to_list, elem_of_list_to_map_2, list_elem_of_fmap in Hin as (u & [= -> ->] & _). done.
Qed.

Lemma blocks_start ba m threads : stacked ba m [] -> blocks (start ba m threads) [].
Proof.
  intros [Hs Hb Ht He Hbd _ Hbk].
  assert (Hidle : forall t pc, pcs (start ba m threads) !! t = Some pc -> pc = Idle).
  { intros t pc H. apply elem_of_list_to_map_2 in H. by apply list_elem_of_fmap in H as (u & [= -> ->] & _). }
  assert (E : pending (pcs (start ba m threads)) = []) by apply pending_idle.
  split; try done.
  - by intros n ?%elem_of_nil.
  - by rewrite E.
  - by intros a n ?%elem_of_nil.
  - intros t pc size ->%Hidle. simpl. naive_solver.
  - intros t size top H. apply Hidle in H. done.
Qed.

Ltac look2 := match goal with
  | H : <[_ := _]> _ !! _ = Some _ |- _ => apply lookup_insert_Some in H as [[? ?]|[? H]]; simplify_eq
  end.

(** A step that installs nothing and takes no block. *)
Lemma blocks_move s sizes t pc pc' e b n mtx : blocks s sizes -> pcs s !! t = Some pc -> installing pc = None -> installing pc' = None ->
  (forall size, In pc' [Spin size; Join size; Counted size; BackOff size; LoadTop size] -> 0 <= size < 2 ^ 48) ->
  (forall size top, pc' = Exchange size top -> 0 <= size < 2 ^ 48 /\ top + totalSize size <= end_ (bump s)) ->
  blocks (mkThreads (bump s) (mem s) e b n mtx (<[t := pc']> (pcs s)) (handed s)) sizes.
Proof.
  intros [H1 H2 H3 H4 H5 H6 H7 H8 H9 H10 H11] Ht Hi Hi' Hs Hx. split; cbn; try done.
  - rewrite pending_insert, Hi'. rewrite (pending_at _ _ _ Ht), Hi in H8. done.
  - intros u q size Hu Hq. look2; [by apply Hs|by eapply H10].
  - intros u size top Hu. look2; [by apply Hx|by eapply H11].
Qed.

Lemma blocks_exchange s sizes t size : blocks s sizes -> pcs s !! t = Some (Exchange size (top_ (bump s))) ->
  blocks (setPc t (Install (top_ (bump s)) (totalSize size))
    (setBump (mkBump (start_ (bump s)) (begin_ (bump s)) (top_ (bump s) + totalSize size) (end_ (bump s))) s)) (sizes ++ [totalSize size]).
Proof.
  intros [H1 H2 H3 H4 H5 H6 H7 H8 H9 H10 H11] Ht. destruct (H11 _ _ _ Ht) as [Hs Hfit].
  destruct (wellSized_sum _ H7) as [Hsum _]. destruct (totalSize_spec size ltac:(lia)) as (E & Ht8 & Htn). unfold kHeaderBytes in *.
  split; cbn; try done.
  - rewrite sum_app. unfold sum at 2. simpl. lia.
  - intros n [Hn|Hn%list_elem_of_singleton]%elem_of_app; [by apply H7|]. subst n. rewrite E in *. unfold kHeaderBytes. split; [lia|done].
  - rewrite pending_insert, blocksOf_app, <- H8, <- H3. rewrite (pending_at _ _ _ Ht). simpl. solve_Permutation.
  - intros u q n Hu Hq. look2; [naive_solver|by eapply H10].
  - intros u n top Hu. look2. by eapply H11.
Qed.

Lemma blocks_install s sizes t top total m : blocks s sizes -> pcs s !! t = Some (Install top total) ->
  store (mem s) top (ObjectHeader total) = Some m ->
  blocks (setPc t (EndShared (top + kHeaderBytes))
    (mkThreads (bump s) m (exclusiveMode s) (buffer s) (activeOps s) (mutex s) (pcs s) ((top, total) :: handed s))) sizes.
Proof.
  intros [H1 H2 H3 H4 H5 H6 H7 H8 H9 H10 H11] Ht Hst.
  assert (Hm : m = <[top := ObjectHeader total]> (mem s)) by (unfold store in Hst; destruct (mem s !! top); congruence).
  rewrite (pending_at _ _ _ Ht) in H8. simpl in H8. subst m. split; cbn; try done.
  - by apply FreeListInv.backed_insert.
  - rewrite pending_insert. simpl. rewrite <- H8. solve_Permutation.
  - intros a n [[= -> ->]|Ha]%elem_of_cons; [apply lookup_insert_eq|]. rewrite lookup_insert_ne; [by apply H9|]. intros ->.
    assert (Hnd : NoDup (handed s ++ (a, total) :: pending (delete t (pcs s))).*1).
    { rewrite H8. by apply blocksOf_fst. }
    rewrite fmap_app, fmap_cons in Hnd. apply NoDup_app in Hnd as (_ & Hnd & _). apply (Hnd a).
    + apply list_elem_of_fmap. by exists (a, n).
    + by left.
  - intros u q n Hu Hq. look2; [naive_solver|by eapply H10].
  - intros u n top' Hu. look2. by eapply H11.
Qed.

Lemma pending_none m : (forall t pc, m !! t = Some pc -> installing pc = None) -> pending m = [].
Proof.
  intros H. unfold pending. destruct (omap _ _) as [|x l] eqn:E; [done|]. exfalso.
  assert (Hx : x ∈ x :: l) by left. rewrite <- E in Hx. apply list_elem_of_omap in Hx as ([t pc] & Hin & Hx).
  apply elem_of_map_to_list, H in Hin. simpl in Hx. congruence.
Qed.

Lemma blocks_reset s sizes t : protocol s -> blocks s sizes -> pcs s !! t = Some Critical ->
  blocks (setPc t ClearMode (mkThreads (reset (bump s)) (mem s) (exclusiveMode s) (buffer s) (activeOps s) (mutex s) (pcs s) [])) [].
Proof.
  intros Hp [H1 H2 H3 H4 H5 H6 H7 H8 H9 H10 H11] Ht. destruct (wellSized_sum _ H7) as [Hsum _].
  assert (Hnone : forall u pc, <[t := ClearMode]> (pcs s) !! u = Some pc -> inShared pc = false).
  { intros u pc Hu. look2; [done|]. by eapply (pr_alone _ Hp t Critical u). }
  split; cbn; try done.
  - lia.
  - unfold sum. simpl. lia.
  - lia.
  - by intros n ?%elem_of_nil.
  - rewrite pending_none; [done|]. intros u pc Hu%Hnone. by destruct pc.
  - by intros a n ?%elem_of_nil.
  - intros u q n Hu Hq. look2; [naive_solver|by eapply H10].
  - intros u n top Hu. by apply Hnone in Hu.
Qed.

Lemma blocks_step s s' sizes : protocol s -> blocks s sizes -> step false s s' -> exists sizes', blocks s' sizes'.
Proof.
  intros Hp Hb Hstep. pose proof (pr_buffer _ Hp) as Hbuf. pose proof (bl_sizes _ _ Hb) as Hsz.
  destruct Hstep as [s t n Ht Hn|s t n Ht|s t n Ht Hx|s t n Ht|s t n Ht Hx|s t n Ht Hx|s t n Ht|s t n Ht|s t n top Ht Htop|s t n top Ht
    |s t top n m Ht Hst|s t r Ht|s t Ht Hx|s t Ht|s t Ht|s t Ht H0|s t Ht|s t Ht|s t Ht _|s v rest Hv];
    try congruence; try (by exists sizes);
    try (exists sizes; eapply (blocks_move s sizes t); [done|exact Ht|done|done|cbn; naive_solver|naive_solver]; fail).
  - specialize (Hsz t _ n Ht). exists sizes. eapply (blocks_move s sizes t); [done|exact Ht|done|by destruct (_ <? _)|..].
    + destruct (_ <? _); cbn; naive_solver.
    + destruct (Z.ltb_spec (end_ (bump s)) (top_ (bump s) + totalSize n)); [done|]. intros size top [= <- <-].
      split; [apply Hsz; cbn; tauto|lia].
  - subst top. eexists. by apply blocks_exchange.
  - exists sizes. destruct (bl_fits _ _ Hb _ _ _ Ht) as [Hn _]. eapply (blocks_move s sizes t); [done|exact Ht|done|done|cbn; naive_solver|done].
  - eexists. by eapply blocks_install.
  - eexists. by apply (blocks_reset s sizes).
Qed.

Lemma blocks_reachable ba m threads s : stacked ba m [] -> reachable false (start ba m threads) s -> exists sizes, blocks s sizes.
Proof.
  intros Hst Hr. induction Hr as [|s s' Hr [sizes IH] Hstep]; [exists []; by apply blocks_start|].
  eapply blocks_step; [|done|done]. by eapply protocol_reachable.
Qed.

(** When no allocation is between its exchange and its header, the space is a stack of exactly the
    blocks that were handed out. *)
Lemma blocks_stacked s sizes : blocks s sizes -> (forall t pc, pcs s !! t = Some pc -> installing pc = None) ->
  stacked (bump s) (mem s) sizes /\ handed s ≡ₚ blocksOf (begin_ (bump s)) sizes.
Proof.
  intros [H1 H2 H3 H4 H5 H6 H7 H8 H9 _ _] Hq. rewrite (pending_none _ Hq), app_nil_r in H8. split; [|done].
  split; try done. clear H3 Hq.
  assert (Hh : forall a n, (a, n) ∈ blocksOf (begin_ (bump s)) sizes -> mem s !! a = Some (ObjectHeader n)).
  { intros a n Ha. apply H9. by rewrite H8. }
  clear H8 H9. revert Hh H7. generalize (begin_ (bump s)).
  induction sizes as [|n sizes IH]; intros a Hh Hw; [done|]. destruct (Hw n ltac:(left)) as [Hn H8]. simpl. split_and!; [lia|done| |].
  - exists (ObjectHeader n). split; [apply Hh; by left|]. apply size_ObjectHeader. unfold kHeaderBytes in *. lia.
  - apply IH; [|intros ? ?; apply Hw; by right]. intros b k Hb. apply Hh. by right.
Qed.

(** What an overlap costs: a block that is taken before a reset and gets its header after it is
    handed out a second time. *)
Definition aMem : Mem := list_to_map ((fun a => (a, 0)) <$> [64; 72; 80; 88; 96; 104; 112; 120]).

(** One more step, with the state it leads to computed. *)
Ltac onward R st :=
  eapply r_step in R; [|st];
  match type of R with reachable ?b ?s0 ?s => let s' := eval vm_compute in s in change (reachable b s0 s') in R end.

Definition threeIdle : Threads := start aSpace aMem [0; 1; 2]%nat.

Lemma handed_twice : exists s, reachable true threeIdle s /\ handed s = [(64, 16); (64, 16)].
Proof.
  assert (R : reachable true threeIdle threeIdle) by constructor.
  onward R ltac:(apply (s_lock _ _ 0%nat); reflexivity).
  onward R ltac:(apply (s_store _ _ 0%nat); reflexivity).
  onward R ltac:(apply (s_quiet _ _ 0%nat); reflexivity).
  onward R ltac:(apply (s_begin _ _ 1%nat 8); [reflexivity|lia]).
  onward R ltac:(apply (s_pass _ _ 1%nat 8); reflexivity).
  onward R ltac:(apply (s_count _ _ 1%nat 8); reflexivity).
  onward R ltac:(apply (s_enter _ _ 1%nat 8); reflexivity).
  onward R ltac:(apply (s_load _ _ 1%nat 8); reflexivity).
  onward R ltac:(apply (s_exchange _ _ 1%nat 8 64); reflexivity).
  onward R ltac:(apply (s_reset _ _ 0%nat); reflexivity).
  onward R ltac:(eapply (s_install _ _ 1%nat 64 16); reflexivity).
  onward R ltac:(apply (s_begin _ _ 2%nat 8); [reflexivity|lia]).
  onward R ltac:(apply (s_pass _ _ 2%nat 8); reflexivity).
  onward R ltac:(apply (s_count _ _ 2%nat 8); reflexivity).
  onward R ltac:(apply (s_enter _ _ 2%nat 8); reflexivity).
  onward R ltac:(apply (s_load _ _ 2%nat 8); reflexivity).
  onward R ltac:(apply (s_exchange _ _ 2%nat 8 64); reflexivity).
  onward R ltac:(eapply (s_install _ _ 2%nat 64 16); reflexivity).
  eexists. split; [exact R|]. reflexivity.
Qed.
