(* ===== verification/GcState.v ===== *)
(** * The state of the collector

    src/include/camel/core/mm/gen.h: the spaces of GenerationalAllocatorWithGC, its root sources,
    the remembered set and the pacing counters, over a heap of objects. An object is its header
    word (ObjHeader.v), its class and its words; what a class traces is [slotsOf], which stands
    for the virtual [updateRefs]: the class [Layout] says what the collector relies on of the classes
    of values, [OldSpace] what it relies on of the elder space and the large objects. The model is
    that of a run with verification and poisoning off, where no layouts are recorded. *)

From stdpp Require Import gmap.
From S2P Require Import Prelude ObjHeader BumpPtr.
#[local] Open Scope Z_scope.

(** ** What the collector asks of the old spaces

    The elder space and the large-object space hand out blocks, release many of them, and list
    what they hold. [OldSpace] is what the collector relies on; GcSpaces.v has the instance of the
    growable free-list space. Blocks are named by their payloads. *)

(** An exception of the allocator: the bytes that were asked for, held and allowed. *)
Record Exhaustion := mkExhaustion { exRequested : Z; exHeld : Z; exLimit : Z }.

(** The spaces share one address space. *)
Class OldSpace (E : Type) := {
  (** The payload and the bytes of a new block, header included; [None] is [MemoryExhausted]. *)
  oalloc : E -> Z -> option (Z * Z * E);
  (** What [MemoryExhausted] says then. *)
  orefusal : E -> Z -> Exhaustion;
  ofreeBulk : E -> list Z -> option E;
  oiterate : E -> list Z;
  (** [contains] of the payload, and the test for the space that goes with the region of an
      object: [contains] of its header in the elder space, of its payload among large objects. *)
  ocontains : E -> Z -> bool;
  oowns : E -> Z -> bool;
  (** The addresses that the space will never hand out. *)
  oavoids : E -> Z -> Prop;
  ousedBytes : E -> Z;
  ook : E -> Prop;
  oalloc_ok e n p b e' : ook e -> 0 < n < 2 ^ 47 -> oalloc e n = Some (p, b, e') ->
    ook e' /\ (p ∉ oiterate e) /\ (forall q, q ∈ oiterate e' <-> q ∈ oiterate e \/ q = p) /\
    kHeaderBytes + n <= b /\ kHeaderBytes < p /\ p - kHeaderBytes + b < 2 ^ 47 /\
    (forall a, oavoids e a -> oavoids e' a);
  oiterate_contains e p : ook e -> p ∈ oiterate e ->
    ocontains e p = true /\ oowns e p = true /\ ~ oavoids e p /\ ~ oavoids e (p - kHeaderBytes) /\ lowAddr p;
  oavoids_contains e a : ook e -> oavoids e a -> ocontains e a = false;
  oiterate_nodup e : ook e -> NoDup (oiterate e);
  ofreeBulk_ok e ps : ook e -> NoDup ps -> (forall p, p ∈ ps -> p ∈ oiterate e) ->
    exists e', ofreeBulk e ps = Some e' /\ ook e' /\ (forall q, q ∈ oiterate e' <-> q ∈ oiterate e /\ q ∉ ps) /\
      (forall a, oavoids e a -> oavoids e' a);
}.

(** A space that has room for [k] more blocks of at most [n] bytes each. *)
Fixpoint serves {E} `{OldSpace E} (n : Z) (k : nat) (e : E) : Prop :=
  match k with
  | O => True
  | S k => forall i, 0 < i <= n -> exists p b e', oalloc e i = Some (p, b, e') /\ serves n k e'
  end.

Lemma serves_less {E} `{OldSpace E} n k (e : E) : serves n (S k) e -> serves n k e.
Proof.
  revert e. induction k as [|k IH]; intros e Hs; [done|]. intros i Hi. destruct (Hs i Hi) as (p & b & e' & Ha & He).
  exists p, b, e'. split; [done|]. by apply IH.
Qed.



(** ** Classes of objects *)

(** A reference that [updateRefs] hands to its callback: the word, the static type it passes, and
    whether the slot is a graph carrier (no type, and "graph", "graph-edge" or "program"). *)
Record Slot (Ty : Type) := mkSlot {
  slotIndex : nat;
  refType : option Ty;
  carrier : bool;
}.
Arguments mkSlot {Ty} slotIndex refType carrier.
Arguments slotIndex {Ty} s.
Arguments refType {Ty} s.
Arguments carrier {Ty} s.

Class Layout (Kind Ty : Type) := {
  slotsOf : Kind -> option Ty -> list (Slot Ty);
  (** [isPreciseGCType] of a type that is not null. *)
  preciseType : Ty -> bool;
  onMoved : Kind -> Z -> list Z -> list Z;
  (** The block a value holds, by its identity; 0 for none. *)
  heldBlock : Kind -> list Z -> Z;
  onMoved_length k a w : length (onMoved k a w) = length w;
  onMoved_slots k t s a w : s ∈ slotsOf k t -> onMoved k a w !! slotIndex s = w !! slotIndex s;
  slots_once k t : NoDup (slotIndex <$> slotsOf k t);
  carrier_untyped k t s : s ∈ slotsOf k t -> carrier s = true -> refType s = None;
}.

Definition isPreciseGCType {Kind Ty} `{Layout Kind Ty} (t : option Ty) : bool :=
  match t with Some t => preciseType t | None => false end.

Record Obj (Kind : Type) := mkObj { hdr : Z; kind : Kind; words : list Z }.
Arguments mkObj {Kind} hdr kind words.
Arguments hdr {Kind} o.
Arguments kind {Kind} o.
Arguments words {Kind} o.

(** ** Pacing *)

Inductive CollectionKind := None_ | Minor | Major | MinorAndMajor.
#[export] Instance CollectionKind_eq : EqDecision CollectionKind.
Proof. solve_decision. Defined.

(** AllocRegion. *)
Definition YoungGen : Z := 0.
Definition ElderGen : Z := 1.
Definition LargeObj : Z := 2.

(** The causes that are counted apart, and all others. *)
Inductive Cause := LargeBudget | ElderExhausted | ElderBlockBudget | HeapLimit | OtherCause.

(** src/include/camel/core/mm/block.h, what the collector reads and writes of a block. *)
Record BlockInfo := mkBlockInfo { bytes_ : Z; pacedBytes_ : Z; sweepGeneration_ : Z }.

(** The counters and settings of the allocator that pace collections. The two fields in between,
    [blockBytesLive] and [blocks], are the block module's. *)
Record Pacing := mkPacing {
  promotionAgeThreshold_ : Z;
  largeObjThreshold_ : Z;
  largeObjMinBudget_ : Z;
  largeObjGrowthPercent_ : Z;
  largeObjBudget_ : Z;
  largeBytesSinceSweep_ : Z;
  largeLiveBytes_ : Z;
  elderMinBudget_ : Z;
  elderBudget_ : Z;
  elderBytesSinceSweep_ : Z;
  elderLiveBytes_ : Z;
  elderBlockBudget_ : Z;
  elderBlockBytesSinceSweep_ : Z;
  elderBlockLiveBytes_ : Z;
  blockSweepGeneration_ : Z;
  minorTriggerBytes_ : Z;
  heapLimitBytes_ : Z;
  heapLimitExceeded_ : bool;
  heapLimitRequest_ : Z;
  blockBytesAtCollection_ : Z;
  blockBytesLive : Z;
  blocks : gmap Z BlockInfo;
  enableYoungGenCopying_ : bool;
  pendingSafepointCollection_ : CollectionKind;
  collectionInhibit_ : nat;
  atSafepoint_ : bool;
  slowPath : bool;
  nativeCodeDepth : nat;
  inhibitedSafepoints : Z;
}.

Definition setPromotionAgeThreshold (v : Z) (p : Pacing) : Pacing :=
  mkPacing v (largeObjThreshold_ p) (largeObjMinBudget_ p) (largeObjGrowthPercent_ p) (largeObjBudget_ p) (largeBytesSinceSweep_ p) (largeLiveBytes_ p) (elderMinBudget_ p) (elderBudget_ p) (elderBytesSinceSweep_ p) (elderLiveBytes_ p) (elderBlockBudget_ p) (elderBlockBytesSinceSweep_ p) (elderBlockLiveBytes_ p) (blockSweepGeneration_ p) (minorTriggerBytes_ p) (heapLimitBytes_ p) (heapLimitExceeded_ p) (heapLimitRequest_ p) (blockBytesAtCollection_ p) (blockBytesLive p) (blocks p) (enableYoungGenCopying_ p) (pendingSafepointCollection_ p) (collectionInhibit_ p) (atSafepoint_ p) (slowPath p) (nativeCodeDepth p) (inhibitedSafepoints p).
Definition setLargeObjThreshold (v : Z) (p : Pacing) : Pacing :=
  mkPacing (promotionAgeThreshold_ p) v (largeObjMinBudget_ p) (largeObjGrowthPercent_ p) (largeObjBudget_ p) (largeBytesSinceSweep_ p) (largeLiveBytes_ p) (elderMinBudget_ p) (elderBudget_ p) (elderBytesSinceSweep_ p) (elderLiveBytes_ p) (elderBlockBudget_ p) (elderBlockBytesSinceSweep_ p) (elderBlockLiveBytes_ p) (blockSweepGeneration_ p) (minorTriggerBytes_ p) (heapLimitBytes_ p) (heapLimitExceeded_ p) (heapLimitRequest_ p) (blockBytesAtCollection_ p) (blockBytesLive p) (blocks p) (enableYoungGenCopying_ p) (pendingSafepointCollection_ p) (collectionInhibit_ p) (atSafepoint_ p) (slowPath p) (nativeCodeDepth p) (inhibitedSafepoints p).
Definition setLargeObjMinBudget (v : Z) (p : Pacing) : Pacing :=
  mkPacing (promotionAgeThreshold_ p) (largeObjThreshold_ p) v (largeObjGrowthPercent_ p) (largeObjBudget_ p) (largeBytesSinceSweep_ p) (largeLiveBytes_ p) (elderMinBudget_ p) (elderBudget_ p) (elderBytesSinceSweep_ p) (elderLiveBytes_ p) (elderBlockBudget_ p) (elderBlockBytesSinceSweep_ p) (elderBlockLiveBytes_ p) (blockSweepGeneration_ p) (minorTriggerBytes_ p) (heapLimitBytes_ p) (heapLimitExceeded_ p) (heapLimitRequest_ p) (blockBytesAtCollection_ p) (blockBytesLive p) (blocks p) (enableYoungGenCopying_ p) (pendingSafepointCollection_ p) (collectionInhibit_ p) (atSafepoint_ p) (slowPath p) (nativeCodeDepth p) (inhibitedSafepoints p).
Definition setLargeObjGrowthPercent (v : Z) (p : Pacing) : Pacing :=
  mkPacing (promotionAgeThreshold_ p) (largeObjThreshold_ p) (largeObjMinBudget_ p) v (largeObjBudget_ p) (largeBytesSinceSweep_ p) (largeLiveBytes_ p) (elderMinBudget_ p) (elderBudget_ p) (elderBytesSinceSweep_ p) (elderLiveBytes_ p) (elderBlockBudget_ p) (elderBlockBytesSinceSweep_ p) (elderBlockLiveBytes_ p) (blockSweepGeneration_ p) (minorTriggerBytes_ p) (heapLimitBytes_ p) (heapLimitExceeded_ p) (heapLimitRequest_ p) (blockBytesAtCollection_ p) (blockBytesLive p) (blocks p) (enableYoungGenCopying_ p) (pendingSafepointCollection_ p) (collectionInhibit_ p) (atSafepoint_ p) (slowPath p) (nativeCodeDepth p) (inhibitedSafepoints p).
Definition setLargeObjBudget (v : Z) (p : Pacing) : Pacing :=
  mkPacing (promotionAgeThreshold_ p) (largeObjThreshold_ p) (largeObjMinBudget_ p) (largeObjGrowthPercent_ p) v (largeBytesSinceSweep_ p) (largeLiveBytes_ p) (elderMinBudget_ p) (elderBudget_ p) (elderBytesSinceSweep_ p) (elderLiveBytes_ p) (elderBlockBudget_ p) (elderBlockBytesSinceSweep_ p) (elderBlockLiveBytes_ p) (blockSweepGeneration_ p) (minorTriggerBytes_ p) (heapLimitBytes_ p) (heapLimitExceeded_ p) (heapLimitRequest_ p) (blockBytesAtCollection_ p) (blockBytesLive p) (blocks p) (enableYoungGenCopying_ p) (pendingSafepointCollection_ p) (collectionInhibit_ p) (atSafepoint_ p) (slowPath p) (nativeCodeDepth p) (inhibitedSafepoints p).
Definition setLargeBytesSinceSweep (v : Z) (p : Pacing) : Pacing :=
  mkPacing (promotionAgeThreshold_ p) (largeObjThreshold_ p) (largeObjMinBudget_ p) (largeObjGrowthPercent_ p) (largeObjBudget_ p) v (largeLiveBytes_ p) (elderMinBudget_ p) (elderBudget_ p) (elderBytesSinceSweep_ p) (elderLiveBytes_ p) (elderBlockBudget_ p) (elderBlockBytesSinceSweep_ p) (elderBlockLiveBytes_ p) (blockSweepGeneration_ p) (minorTriggerBytes_ p) (heapLimitBytes_ p) (heapLimitExceeded_ p) (heapLimitRequest_ p) (blockBytesAtCollection_ p) (blockBytesLive p) (blocks p) (enableYoungGenCopying_ p) (pendingSafepointCollection_ p) (collectionInhibit_ p) (atSafepoint_ p) (slowPath p) (nativeCodeDepth p) (inhibitedSafepoints p).
Definition setLargeLiveBytes (v : Z) (p : Pacing) : Pacing :=
  mkPacing (promotionAgeThreshold_ p) (largeObjThreshold_ p) (largeObjMinBudget_ p) (largeObjGrowthPercent_ p) (largeObjBudget_ p) (largeBytesSinceSweep_ p) v (elderMinBudget_ p) (elderBudget_ p) (elderBytesSinceSweep_ p) (elderLiveBytes_ p) (elderBlockBudget_ p) (elderBlockBytesSinceSweep_ p) (elderBlockLiveBytes_ p) (blockSweepGeneration_ p) (minorTriggerBytes_ p) (heapLimitBytes_ p) (heapLimitExceeded_ p) (heapLimitRequest_ p) (blockBytesAtCollection_ p) (blockBytesLive p) (blocks p) (enableYoungGenCopying_ p) (pendingSafepointCollection_ p) (collectionInhibit_ p) (atSafepoint_ p) (slowPath p) (nativeCodeDepth p) (inhibitedSafepoints p).
Definition setElderMinBudget (v : Z) (p : Pacing) : Pacing :=
  mkPacing (promotionAgeThreshold_ p) (largeObjThreshold_ p) (largeObjMinBudget_ p) (largeObjGrowthPercent_ p) (largeObjBudget_ p) (largeBytesSinceSweep_ p) (largeLiveBytes_ p) v (elderBudget_ p) (elderBytesSinceSweep_ p) (elderLiveBytes_ p) (elderBlockBudget_ p) (elderBlockBytesSinceSweep_ p) (elderBlockLiveBytes_ p) (blockSweepGeneration_ p) (minorTriggerBytes_ p) (heapLimitBytes_ p) (heapLimitExceeded_ p) (heapLimitRequest_ p) (blockBytesAtCollection_ p) (blockBytesLive p) (blocks p) (enableYoungGenCopying_ p) (pendingSafepointCollection_ p) (collectionInhibit_ p) (atSafepoint_ p) (slowPath p) (nativeCodeDepth p) (inhibitedSafepoints p).
Definition setElderBudget (v : Z) (p : Pacing) : Pacing :=
  mkPacing (promotionAgeThreshold_ p) (largeObjThreshold_ p) (largeObjMinBudget_ p) (largeObjGrowthPercent_ p) (largeObjBudget_ p) (largeBytesSinceSweep_ p) (largeLiveBytes_ p) (elderMinBudget_ p) v (elderBytesSinceSweep_ p) (elderLiveBytes_ p) (elderBlockBudget_ p) (elderBlockBytesSinceSweep_ p) (elderBlockLiveBytes_ p) (blockSweepGeneration_ p) (minorTriggerBytes_ p) (heapLimitBytes_ p) (heapLimitExceeded_ p) (heapLimitRequest_ p) (blockBytesAtCollection_ p) (blockBytesLive p) (blocks p) (enableYoungGenCopying_ p) (pendingSafepointCollection_ p) (collectionInhibit_ p) (atSafepoint_ p) (slowPath p) (nativeCodeDepth p) (inhibitedSafepoints p).
Definition setElderBytesSinceSweep (v : Z) (p : Pacing) : Pacing :=
  mkPacing (promotionAgeThreshold_ p) (largeObjThreshold_ p) (largeObjMinBudget_ p) (largeObjGrowthPercent_ p) (largeObjBudget_ p) (largeBytesSinceSweep_ p) (largeLiveBytes_ p) (elderMinBudget_ p) (elderBudget_ p) v (elderLiveBytes_ p) (elderBlockBudget_ p) (elderBlockBytesSinceSweep_ p) (elderBlockLiveBytes_ p) (blockSweepGeneration_ p) (minorTriggerBytes_ p) (heapLimitBytes_ p) (heapLimitExceeded_ p) (heapLimitRequest_ p) (blockBytesAtCollection_ p) (blockBytesLive p) (blocks p) (enableYoungGenCopying_ p) (pendingSafepointCollection_ p) (collectionInhibit_ p) (atSafepoint_ p) (slowPath p) (nativeCodeDepth p) (inhibitedSafepoints p).
Definition setElderLiveBytes (v : Z) (p : Pacing) : Pacing :=
  mkPacing (promotionAgeThreshold_ p) (largeObjThreshold_ p) (largeObjMinBudget_ p) (largeObjGrowthPercent_ p) (largeObjBudget_ p) (largeBytesSinceSweep_ p) (largeLiveBytes_ p) (elderMinBudget_ p) (elderBudget_ p) (elderBytesSinceSweep_ p) v (elderBlockBudget_ p) (elderBlockBytesSinceSweep_ p) (elderBlockLiveBytes_ p) (blockSweepGeneration_ p) (minorTriggerBytes_ p) (heapLimitBytes_ p) (heapLimitExceeded_ p) (heapLimitRequest_ p) (blockBytesAtCollection_ p) (blockBytesLive p) (blocks p) (enableYoungGenCopying_ p) (pendingSafepointCollection_ p) (collectionInhibit_ p) (atSafepoint_ p) (slowPath p) (nativeCodeDepth p) (inhibitedSafepoints p).
Definition setElderBlockBudget (v : Z) (p : Pacing) : Pacing :=
  mkPacing (promotionAgeThreshold_ p) (largeObjThreshold_ p) (largeObjMinBudget_ p) (largeObjGrowthPercent_ p) (largeObjBudget_ p) (largeBytesSinceSweep_ p) (largeLiveBytes_ p) (elderMinBudget_ p) (elderBudget_ p) (elderBytesSinceSweep_ p) (elderLiveBytes_ p) v (elderBlockBytesSinceSweep_ p) (elderBlockLiveBytes_ p) (blockSweepGeneration_ p) (minorTriggerBytes_ p) (heapLimitBytes_ p) (heapLimitExceeded_ p) (heapLimitRequest_ p) (blockBytesAtCollection_ p) (blockBytesLive p) (blocks p) (enableYoungGenCopying_ p) (pendingSafepointCollection_ p) (collectionInhibit_ p) (atSafepoint_ p) (slowPath p) (nativeCodeDepth p) (inhibitedSafepoints p).
Definition setElderBlockBytesSinceSweep (v : Z) (p : Pacing) : Pacing :=
  mkPacing (promotionAgeThreshold_ p) (largeObjThreshold_ p) (largeObjMinBudget_ p) (largeObjGrowthPercent_ p) (largeObjBudget_ p) (largeBytesSinceSweep_ p) (largeLiveBytes_ p) (elderMinBudget_ p) (elderBudget_ p) (elderBytesSinceSweep_ p) (elderLiveBytes_ p) (elderBlockBudget_ p) v (elderBlockLiveBytes_ p) (blockSweepGeneration_ p) (minorTriggerBytes_ p) (heapLimitBytes_ p) (heapLimitExceeded_ p) (heapLimitRequest_ p) (blockBytesAtCollection_ p) (blockBytesLive p) (blocks p) (enableYoungGenCopying_ p) (pendingSafepointCollection_ p) (collectionInhibit_ p) (atSafepoint_ p) (slowPath p) (nativeCodeDepth p) (inhibitedSafepoints p).
Definition setElderBlockLiveBytes (v : Z) (p : Pacing) : Pacing :=
  mkPacing (promotionAgeThreshold_ p) (largeObjThreshold_ p) (largeObjMinBudget_ p) (largeObjGrowthPercent_ p) (largeObjBudget_ p) (largeBytesSinceSweep_ p) (largeLiveBytes_ p) (elderMinBudget_ p) (elderBudget_ p) (elderBytesSinceSweep_ p) (elderLiveBytes_ p) (elderBlockBudget_ p) (elderBlockBytesSinceSweep_ p) v (blockSweepGeneration_ p) (minorTriggerBytes_ p) (heapLimitBytes_ p) (heapLimitExceeded_ p) (heapLimitRequest_ p) (blockBytesAtCollection_ p) (blockBytesLive p) (blocks p) (enableYoungGenCopying_ p) (pendingSafepointCollection_ p) (collectionInhibit_ p) (atSafepoint_ p) (slowPath p) (nativeCodeDepth p) (inhibitedSafepoints p).
Definition setBlockSweepGeneration (v : Z) (p : Pacing) : Pacing :=
  mkPacing (promotionAgeThreshold_ p) (largeObjThreshold_ p) (largeObjMinBudget_ p) (largeObjGrowthPercent_ p) (largeObjBudget_ p) (largeBytesSinceSweep_ p) (largeLiveBytes_ p) (elderMinBudget_ p) (elderBudget_ p) (elderBytesSinceSweep_ p) (elderLiveBytes_ p) (elderBlockBudget_ p) (elderBlockBytesSinceSweep_ p) (elderBlockLiveBytes_ p) v (minorTriggerBytes_ p) (heapLimitBytes_ p) (heapLimitExceeded_ p) (heapLimitRequest_ p) (blockBytesAtCollection_ p) (blockBytesLive p) (blocks p) (enableYoungGenCopying_ p) (pendingSafepointCollection_ p) (collectionInhibit_ p) (atSafepoint_ p) (slowPath p) (nativeCodeDepth p) (inhibitedSafepoints p).
Definition setMinorTriggerBytes (v : Z) (p : Pacing) : Pacing :=
  mkPacing (promotionAgeThreshold_ p) (largeObjThreshold_ p) (largeObjMinBudget_ p) (largeObjGrowthPercent_ p) (largeObjBudget_ p) (largeBytesSinceSweep_ p) (largeLiveBytes_ p) (elderMinBudget_ p) (elderBudget_ p) (elderBytesSinceSweep_ p) (elderLiveBytes_ p) (elderBlockBudget_ p) (elderBlockBytesSinceSweep_ p) (elderBlockLiveBytes_ p) (blockSweepGeneration_ p) v (heapLimitBytes_ p) (heapLimitExceeded_ p) (heapLimitRequest_ p) (blockBytesAtCollection_ p) (blockBytesLive p) (blocks p) (enableYoungGenCopying_ p) (pendingSafepointCollection_ p) (collectionInhibit_ p) (atSafepoint_ p) (slowPath p) (nativeCodeDepth p) (inhibitedSafepoints p).
Definition setHeapLimitBytes (v : Z) (p : Pacing) : Pacing :=
  mkPacing (promotionAgeThreshold_ p) (largeObjThreshold_ p) (largeObjMinBudget_ p) (largeObjGrowthPercent_ p) (largeObjBudget_ p) (largeBytesSinceSweep_ p) (largeLiveBytes_ p) (elderMinBudget_ p) (elderBudget_ p) (elderBytesSinceSweep_ p) (elderLiveBytes_ p) (elderBlockBudget_ p) (elderBlockBytesSinceSweep_ p) (elderBlockLiveBytes_ p) (blockSweepGeneration_ p) (minorTriggerBytes_ p) v (heapLimitExceeded_ p) (heapLimitRequest_ p) (blockBytesAtCollection_ p) (blockBytesLive p) (blocks p) (enableYoungGenCopying_ p) (pendingSafepointCollection_ p) (collectionInhibit_ p) (atSafepoint_ p) (slowPath p) (nativeCodeDepth p) (inhibitedSafepoints p).
Definition setHeapLimitExceeded (v : bool) (p : Pacing) : Pacing :=
  mkPacing (promotionAgeThreshold_ p) (largeObjThreshold_ p) (largeObjMinBudget_ p) (largeObjGrowthPercent_ p) (largeObjBudget_ p) (largeBytesSinceSweep_ p) (largeLiveBytes_ p) (elderMinBudget_ p) (elderBudget_ p) (elderBytesSinceSweep_ p) (elderLiveBytes_ p) (elderBlockBudget_ p) (elderBlockBytesSinceSweep_ p) (elderBlockLiveBytes_ p) (blockSweepGeneration_ p) (minorTriggerBytes_ p) (heapLimitBytes_ p) v (heapLimitRequest_ p) (blockBytesAtCollection_ p) (blockBytesLive p) (blocks p) (enableYoungGenCopying_ p) (pendingSafepointCollection_ p) (collectionInhibit_ p) (atSafepoint_ p) (slowPath p) (nativeCodeDepth p) (inhibitedSafepoints p).
Definition setHeapLimitRequest (v : Z) (p : Pacing) : Pacing :=
  mkPacing (promotionAgeThreshold_ p) (largeObjThreshold_ p) (largeObjMinBudget_ p) (largeObjGrowthPercent_ p) (largeObjBudget_ p) (largeBytesSinceSweep_ p) (largeLiveBytes_ p) (elderMinBudget_ p) (elderBudget_ p) (elderBytesSinceSweep_ p) (elderLiveBytes_ p) (elderBlockBudget_ p) (elderBlockBytesSinceSweep_ p) (elderBlockLiveBytes_ p) (blockSweepGeneration_ p) (minorTriggerBytes_ p) (heapLimitBytes_ p) (heapLimitExceeded_ p) v (blockBytesAtCollection_ p) (blockBytesLive p) (blocks p) (enableYoungGenCopying_ p) (pendingSafepointCollection_ p) (collectionInhibit_ p) (atSafepoint_ p) (slowPath p) (nativeCodeDepth p) (inhibitedSafepoints p).
Definition setBlockBytesAtCollection (v : Z) (p : Pacing) : Pacing :=
  mkPacing (promotionAgeThreshold_ p) (largeObjThreshold_ p) (largeObjMinBudget_ p) (largeObjGrowthPercent_ p) (largeObjBudget_ p) (largeBytesSinceSweep_ p) (largeLiveBytes_ p) (elderMinBudget_ p) (elderBudget_ p) (elderBytesSinceSweep_ p) (elderLiveBytes_ p) (elderBlockBudget_ p) (elderBlockBytesSinceSweep_ p) (elderBlockLiveBytes_ p) (blockSweepGeneration_ p) (minorTriggerBytes_ p) (heapLimitBytes_ p) (heapLimitExceeded_ p) (heapLimitRequest_ p) v (blockBytesLive p) (blocks p) (enableYoungGenCopying_ p) (pendingSafepointCollection_ p) (collectionInhibit_ p) (atSafepoint_ p) (slowPath p) (nativeCodeDepth p) (inhibitedSafepoints p).
Definition setBlockBytesLive (v : Z) (p : Pacing) : Pacing :=
  mkPacing (promotionAgeThreshold_ p) (largeObjThreshold_ p) (largeObjMinBudget_ p) (largeObjGrowthPercent_ p) (largeObjBudget_ p) (largeBytesSinceSweep_ p) (largeLiveBytes_ p) (elderMinBudget_ p) (elderBudget_ p) (elderBytesSinceSweep_ p) (elderLiveBytes_ p) (elderBlockBudget_ p) (elderBlockBytesSinceSweep_ p) (elderBlockLiveBytes_ p) (blockSweepGeneration_ p) (minorTriggerBytes_ p) (heapLimitBytes_ p) (heapLimitExceeded_ p) (heapLimitRequest_ p) (blockBytesAtCollection_ p) v (blocks p) (enableYoungGenCopying_ p) (pendingSafepointCollection_ p) (collectionInhibit_ p) (atSafepoint_ p) (slowPath p) (nativeCodeDepth p) (inhibitedSafepoints p).
Definition setBlocks (v : gmap Z BlockInfo) (p : Pacing) : Pacing :=
  mkPacing (promotionAgeThreshold_ p) (largeObjThreshold_ p) (largeObjMinBudget_ p) (largeObjGrowthPercent_ p) (largeObjBudget_ p) (largeBytesSinceSweep_ p) (largeLiveBytes_ p) (elderMinBudget_ p) (elderBudget_ p) (elderBytesSinceSweep_ p) (elderLiveBytes_ p) (elderBlockBudget_ p) (elderBlockBytesSinceSweep_ p) (elderBlockLiveBytes_ p) (blockSweepGeneration_ p) (minorTriggerBytes_ p) (heapLimitBytes_ p) (heapLimitExceeded_ p) (heapLimitRequest_ p) (blockBytesAtCollection_ p) (blockBytesLive p) v (enableYoungGenCopying_ p) (pendingSafepointCollection_ p) (collectionInhibit_ p) (atSafepoint_ p) (slowPath p) (nativeCodeDepth p) (inhibitedSafepoints p).
Definition setEnableYoungGenCopying (v : bool) (p : Pacing) : Pacing :=
  mkPacing (promotionAgeThreshold_ p) (largeObjThreshold_ p) (largeObjMinBudget_ p) (largeObjGrowthPercent_ p) (largeObjBudget_ p) (largeBytesSinceSweep_ p) (largeLiveBytes_ p) (elderMinBudget_ p) (elderBudget_ p) (elderBytesSinceSweep_ p) (elderLiveBytes_ p) (elderBlockBudget_ p) (elderBlockBytesSinceSweep_ p) (elderBlockLiveBytes_ p) (blockSweepGeneration_ p) (minorTriggerBytes_ p) (heapLimitBytes_ p) (heapLimitExceeded_ p) (heapLimitRequest_ p) (blockBytesAtCollection_ p) (blockBytesLive p) (blocks p) v (pendingSafepointCollection_ p) (collectionInhibit_ p) (atSafepoint_ p) (slowPath p) (nativeCodeDepth p) (inhibitedSafepoints p).
Definition setPendingSafepointCollection (v : CollectionKind) (p : Pacing) : Pacing :=
  mkPacing (promotionAgeThreshold_ p) (largeObjThreshold_ p) (largeObjMinBudget_ p) (largeObjGrowthPercent_ p) (largeObjBudget_ p) (largeBytesSinceSweep_ p) (largeLiveBytes_ p) (elderMinBudget_ p) (elderBudget_ p) (elderBytesSinceSweep_ p) (elderLiveBytes_ p) (elderBlockBudget_ p) (elderBlockBytesSinceSweep_ p) (elderBlockLiveBytes_ p) (blockSweepGeneration_ p) (minorTriggerBytes_ p) (heapLimitBytes_ p) (heapLimitExceeded_ p) (heapLimitRequest_ p) (blockBytesAtCollection_ p) (blockBytesLive p) (blocks p) (enableYoungGenCopying_ p) v (collectionInhibit_ p) (atSafepoint_ p) (slowPath p) (nativeCodeDepth p) (inhibitedSafepoints p).
Definition setCollectionInhibit (v : nat) (p : Pacing) : Pacing :=
  mkPacing (promotionAgeThreshold_ p) (largeObjThreshold_ p) (largeObjMinBudget_ p) (largeObjGrowthPercent_ p) (largeObjBudget_ p) (largeBytesSinceSweep_ p) (largeLiveBytes_ p) (elderMinBudget_ p) (elderBudget_ p) (elderBytesSinceSweep_ p) (elderLiveBytes_ p) (elderBlockBudget_ p) (elderBlockBytesSinceSweep_ p) (elderBlockLiveBytes_ p) (blockSweepGeneration_ p) (minorTriggerBytes_ p) (heapLimitBytes_ p) (heapLimitExceeded_ p) (heapLimitRequest_ p) (blockBytesAtCollection_ p) (blockBytesLive p) (blocks p) (enableYoungGenCopying_ p) (pendingSafepointCollection_ p) v (atSafepoint_ p) (slowPath p) (nativeCodeDepth p) (inhibitedSafepoints p).
Definition setAtSafepoint (v : bool) (p : Pacing) : Pacing :=
  mkPacing (promotionAgeThreshold_ p) (largeObjThreshold_ p) (largeObjMinBudget_ p) (largeObjGrowthPercent_ p) (largeObjBudget_ p) (largeBytesSinceSweep_ p) (largeLiveBytes_ p) (elderMinBudget_ p) (elderBudget_ p) (elderBytesSinceSweep_ p) (elderLiveBytes_ p) (elderBlockBudget_ p) (elderBlockBytesSinceSweep_ p) (elderBlockLiveBytes_ p) (blockSweepGeneration_ p) (minorTriggerBytes_ p) (heapLimitBytes_ p) (heapLimitExceeded_ p) (heapLimitRequest_ p) (blockBytesAtCollection_ p) (blockBytesLive p) (blocks p) (enableYoungGenCopying_ p) (pendingSafepointCollection_ p) (collectionInhibit_ p) v (slowPath p) (nativeCodeDepth p) (inhibitedSafepoints p).
Definition setSlowPath (v : bool) (p : Pacing) : Pacing :=
  mkPacing (promotionAgeThreshold_ p) (largeObjThreshold_ p) (largeObjMinBudget_ p) (largeObjGrowthPercent_ p) (largeObjBudget_ p) (largeBytesSinceSweep_ p) (largeLiveBytes_ p) (elderMinBudget_ p) (elderBudget_ p) (elderBytesSinceSweep_ p) (elderLiveBytes_ p) (elderBlockBudget_ p) (elderBlockBytesSinceSweep_ p) (elderBlockLiveBytes_ p) (blockSweepGeneration_ p) (minorTriggerBytes_ p) (heapLimitBytes_ p) (heapLimitExceeded_ p) (heapLimitRequest_ p) (blockBytesAtCollection_ p) (blockBytesLive p) (blocks p) (enableYoungGenCopying_ p) (pendingSafepointCollection_ p) (collectionInhibit_ p) (atSafepoint_ p) v (nativeCodeDepth p) (inhibitedSafepoints p).
Definition setNativeCodeDepth (v : nat) (p : Pacing) : Pacing :=
  mkPacing (promotionAgeThreshold_ p) (largeObjThreshold_ p) (largeObjMinBudget_ p) (largeObjGrowthPercent_ p) (largeObjBudget_ p) (largeBytesSinceSweep_ p) (largeLiveBytes_ p) (elderMinBudget_ p) (elderBudget_ p) (elderBytesSinceSweep_ p) (elderLiveBytes_ p) (elderBlockBudget_ p) (elderBlockBytesSinceSweep_ p) (elderBlockLiveBytes_ p) (blockSweepGeneration_ p) (minorTriggerBytes_ p) (heapLimitBytes_ p) (heapLimitExceeded_ p) (heapLimitRequest_ p) (blockBytesAtCollection_ p) (blockBytesLive p) (blocks p) (enableYoungGenCopying_ p) (pendingSafepointCollection_ p) (collectionInhibit_ p) (atSafepoint_ p) (slowPath p) v (inhibitedSafepoints p).
Definition setInhibitedSafepoints (v : Z) (p : Pacing) : Pacing :=
  mkPacing (promotionAgeThreshold_ p) (largeObjThreshold_ p) (largeObjMinBudget_ p) (largeObjGrowthPercent_ p) (largeObjBudget_ p) (largeBytesSinceSweep_ p) (largeLiveBytes_ p) (elderMinBudget_ p) (elderBudget_ p) (elderBytesSinceSweep_ p) (elderLiveBytes_ p) (elderBlockBudget_ p) (elderBlockBytesSinceSweep_ p) (elderBlockLiveBytes_ p) (blockSweepGeneration_ p) (minorTriggerBytes_ p) (heapLimitBytes_ p) (heapLimitExceeded_ p) (heapLimitRequest_ p) (blockBytesAtCollection_ p) (blockBytesLive p) (blocks p) (enableYoungGenCopying_ p) (pendingSafepointCollection_ p) (collectionInhibit_ p) (atSafepoint_ p) (slowPath p) (nativeCodeDepth p) v.

(** ** The allocator *)

Section State.
Context {Kind Ty E LO : Type}.

(** A reference of a root source: an external tracer's or a root handle's. *)
Record Cell := mkCell { cellRef : Z; cellType : option Ty; cellCarrier : bool }.

Record GC := mkGC {
  objs : gmap Z (Obj Kind);
  birth : BumpPointerAllocator;
  haven : BumpPointerAllocator;
  cache : BumpPointerAllocator;
  elder : E;
  large : LO;
  graphSpace : gset Z;
  rootSets : list Z;
  cells : list Cell;
  remembered : gmap Z (option Ty);
  fresh : gset Z;
  youngFinalizables : list Z;
  finalized : list Z;
  relocationScan : list (Z * option Ty);
  relocationScanIndex : nat;
  minorTracedGraphs : gset Z;
  minorGraphScan : list Z;
  markedSinceClear : gset Z;
  inGC : bool;
  pacing : Pacing;
}.

Definition setObjs (v : gmap Z (Obj Kind)) (st : GC) : GC :=
  mkGC v (birth st) (haven st) (cache st) (elder st) (large st) (graphSpace st) (rootSets st) (cells st) (remembered st) (fresh st) (youngFinalizables st) (finalized st) (relocationScan st) (relocationScanIndex st) (minorTracedGraphs st) (minorGraphScan st) (markedSinceClear st) (inGC st) (pacing st).
Definition setBirth (v : BumpPointerAllocator) (st : GC) : GC :=
  mkGC (objs st) v (haven st) (cache st) (elder st) (large st) (graphSpace st) (rootSets st) (cells st) (remembered st) (fresh st) (youngFinalizables st) (finalized st) (relocationScan st) (relocationScanIndex st) (minorTracedGraphs st) (minorGraphScan st) (markedSinceClear st) (inGC st) (pacing st).
Definition setHaven (v : BumpPointerAllocator) (st : GC) : GC :=
  mkGC (objs st) (birth st) v (cache st) (elder st) (large st) (graphSpace st) (rootSets st) (cells st) (remembered st) (fresh st) (youngFinalizables st) (finalized st) (relocationScan st) (relocationScanIndex st) (minorTracedGraphs st) (minorGraphScan st) (markedSinceClear st) (inGC st) (pacing st).
Definition setCache (v : BumpPointerAllocator) (st : GC) : GC :=
  mkGC (objs st) (birth st) (haven st) v (elder st) (large st) (graphSpace st) (rootSets st) (cells st) (remembered st) (fresh st) (youngFinalizables st) (finalized st) (relocationScan st) (relocationScanIndex st) (minorTracedGraphs st) (minorGraphScan st) (markedSinceClear st) (inGC st) (pacing st).
Definition setElder (v : E) (st : GC) : GC :=
  mkGC (objs st) (birth st) (haven st) (cache st) v (large st) (graphSpace st) (rootSets st) (cells st) (remembered st) (fresh st) (youngFinalizables st) (finalized st) (relocationScan st) (relocationScanIndex st) (minorTracedGraphs st) (minorGraphScan st) (markedSinceClear st) (inGC st) (pacing st).
Definition setLarge (v : LO) (st : GC) : GC :=
  mkGC (objs st) (birth st) (haven st) (cache st) (elder st) v (graphSpace st) (rootSets st) (cells st) (remembered st) (fresh st) (youngFinalizables st) (finalized st) (relocationScan st) (relocationScanIndex st) (minorTracedGraphs st) (minorGraphScan st) (markedSinceClear st) (inGC st) (pacing st).
Definition setGraphSpace (v : gset Z) (st : GC) : GC :=
  mkGC (objs st) (birth st) (haven st) (cache st) (elder st) (large st) v (rootSets st) (cells st) (remembered st) (fresh st) (youngFinalizables st) (finalized st) (relocationScan st) (relocationScanIndex st) (minorTracedGraphs st) (minorGraphScan st) (markedSinceClear st) (inGC st) (pacing st).
Definition setRootSets (v : list Z) (st : GC) : GC :=
  mkGC (objs st) (birth st) (haven st) (cache st) (elder st) (large st) (graphSpace st) v (cells st) (remembered st) (fresh st) (youngFinalizables st) (finalized st) (relocationScan st) (relocationScanIndex st) (minorTracedGraphs st) (minorGraphScan st) (markedSinceClear st) (inGC st) (pacing st).
Definition setCells (v : list Cell) (st : GC) : GC :=
  mkGC (objs st) (birth st) (haven st) (cache st) (elder st) (large st) (graphSpace st) (rootSets st) v (remembered st) (fresh st) (youngFinalizables st) (finalized st) (relocationScan st) (relocationScanIndex st) (minorTracedGraphs st) (minorGraphScan st) (markedSinceClear st) (inGC st) (pacing st).
Definition setRemembered (v : gmap Z (option Ty)) (st : GC) : GC :=
  mkGC (objs st) (birth st) (haven st) (cache st) (elder st) (large st) (graphSpace st) (rootSets st) (cells st) v (fresh st) (youngFinalizables st) (finalized st) (relocationScan st) (relocationScanIndex st) (minorTracedGraphs st) (minorGraphScan st) (markedSinceClear st) (inGC st) (pacing st).
Definition setFresh (v : gset Z) (st : GC) : GC :=
  mkGC (objs st) (birth st) (haven st) (cache st) (elder st) (large st) (graphSpace st) (rootSets st) (cells st) (remembered st) v (youngFinalizables st) (finalized st) (relocationScan st) (relocationScanIndex st) (minorTracedGraphs st) (minorGraphScan st) (markedSinceClear st) (inGC st) (pacing st).
Definition setYoungFinalizables (v : list Z) (st : GC) : GC :=
  mkGC (objs st) (birth st) (haven st) (cache st) (elder st) (large st) (graphSpace st) (rootSets st) (cells st) (remembered st) (fresh st) v (finalized st) (relocationScan st) (relocationScanIndex st) (minorTracedGraphs st) (minorGraphScan st) (markedSinceClear st) (inGC st) (pacing st).
Definition setFinalized (v : list Z) (st : GC) : GC :=
  mkGC (objs st) (birth st) (haven st) (cache st) (elder st) (large st) (graphSpace st) (rootSets st) (cells st) (remembered st) (fresh st) (youngFinalizables st) v (relocationScan st) (relocationScanIndex st) (minorTracedGraphs st) (minorGraphScan st) (markedSinceClear st) (inGC st) (pacing st).
Definition setRelocationScan (v : list (Z * option Ty)) (st : GC) : GC :=
  mkGC (objs st) (birth st) (haven st) (cache st) (elder st) (large st) (graphSpace st) (rootSets st) (cells st) (remembered st) (fresh st) (youngFinalizables st) (finalized st) v (relocationScanIndex st) (minorTracedGraphs st) (minorGraphScan st) (markedSinceClear st) (inGC st) (pacing st).
Definition setRelocationScanIndex (v : nat) (st : GC) : GC :=
  mkGC (objs st) (birth st) (haven st) (cache st) (elder st) (large st) (graphSpace st) (rootSets st) (cells st) (remembered st) (fresh st) (youngFinalizables st) (finalized st) (relocationScan st) v (minorTracedGraphs st) (minorGraphScan st) (markedSinceClear st) (inGC st) (pacing st).
Definition setMinorTracedGraphs (v : gset Z) (st : GC) : GC :=
  mkGC (objs st) (birth st) (haven st) (cache st) (elder st) (large st) (graphSpace st) (rootSets st) (cells st) (remembered st) (fresh st) (youngFinalizables st) (finalized st) (relocationScan st) (relocationScanIndex st) v (minorGraphScan st) (markedSinceClear st) (inGC st) (pacing st).
Definition setMinorGraphScan (v : list Z) (st : GC) : GC :=
  mkGC (objs st) (birth st) (haven st) (cache st) (elder st) (large st) (graphSpace st) (rootSets st) (cells st) (remembered st) (fresh st) (youngFinalizables st) (finalized st) (relocationScan st) (relocationScanIndex st) (minorTracedGraphs st) v (markedSinceClear st) (inGC st) (pacing st).
Definition setMarkedSinceClear (v : gset Z) (st : GC) : GC :=
  mkGC (objs st) (birth st) (haven st) (cache st) (elder st) (large st) (graphSpace st) (rootSets st) (cells st) (remembered st) (fresh st) (youngFinalizables st) (finalized st) (relocationScan st) (relocationScanIndex st) (minorTracedGraphs st) (minorGraphScan st) v (inGC st) (pacing st).
Definition setInGC (v : bool) (st : GC) : GC :=
  mkGC (objs st) (birth st) (haven st) (cache st) (elder st) (large st) (graphSpace st) (rootSets st) (cells st) (remembered st) (fresh st) (youngFinalizables st) (finalized st) (relocationScan st) (relocationScanIndex st) (minorTracedGraphs st) (minorGraphScan st) (markedSinceClear st) v (pacing st).
Definition setPacing (v : Pacing) (st : GC) : GC :=
  mkGC (objs st) (birth st) (haven st) (cache st) (elder st) (large st) (graphSpace st) (rootSets st) (cells st) (remembered st) (fresh st) (youngFinalizables st) (finalized st) (relocationScan st) (relocationScanIndex st) (minorTracedGraphs st) (minorGraphScan st) (markedSinceClear st) (inGC st) v.

Definition withPacing (f : Pacing -> Pacing) (st : GC) : GC := setPacing (f (pacing st)) st.
End State.
Arguments Cell Ty : clear implicits.
Arguments GC Kind Ty E LO : clear implicits.
