(* ===== verification/GcPacing.v ===== *)
(** * Allocation and pacing

    src/src/core/mm/gen.cpp: [allocUnlocked] and the paths behind it, the requests for a collection
    and the heap limit. An allocation is given the object its caller builds in the block. None of
    these functions collects: a collection is asked for, and waits for a safepoint. The stress
    settings are off and the statistics are left out; the counters of bytes do not wrap around here. *)

From stdpp Require Import gmap.
From S2P Require Import Prelude ObjHeader BumpPtr GcState.
#[local] Open Scope Z_scope.

(** ** Requests *)

Definition combineCollectionKinds (lhs rhs : CollectionKind) : CollectionKind :=
  match lhs with
  | None_ => rhs
  | _ => if decide (rhs = None_ \/ lhs = rhs) then lhs else MinorAndMajor
  end.

Definition requestCollectionAtSafepoint (k : CollectionKind) (p : Pacing) : Pacing :=
  match k with
  | None_ => p
  | _ => setSlowPath true (setPendingSafepointCollection (combineCollectionKinds (pendingSafepointCollection_ p) k) p)
  end.

Definition minorPending (p : Pacing) : bool :=
  bool_decide (pendingSafepointCollection_ p = Minor \/ pendingSafepointCollection_ p = MinorAndMajor).
Definition majorPending (p : Pacing) : bool :=
  bool_decide (pendingSafepointCollection_ p = Major \/ pendingSafepointCollection_ p = MinorAndMajor).

(** ** Blocks *)

Definition blockBytesGrowth (p : Pacing) : Z :=
  if blockBytesAtCollection_ p <? blockBytesLive p then blockBytesLive p - blockBytesAtCollection_ p else 0.

(** [Block::claimPacingBytes] and [Block::claimSweepGeneration]. *)
Definition claimPacingBytes (b : BlockInfo) : Z * BlockInfo :=
  if bytes_ b <=? pacedBytes_ b then (0, b)
  else (bytes_ b - pacedBytes_ b, mkBlockInfo (bytes_ b) (bytes_ b) (sweepGeneration_ b)).
Definition claimSweepGeneration (generation : Z) (b : BlockInfo) : bool * BlockInfo :=
  if sweepGeneration_ b =? generation then (false, b) else (true, mkBlockInfo (bytes_ b) (pacedBytes_ b) generation).

Definition noteElderBlockBytes (block : Z) (p : Pacing) : Pacing :=
  match blocks p !! block with
  | None => p
  | Some b =>
      let '(added, b) := claimPacingBytes b in
      let p := setBlocks (<[block := b]> (blocks p)) p in
      if added =? 0 then p
      else
        let p := setElderBlockBytesSinceSweep (elderBlockBytesSinceSweep_ p + added) p in
        if (elderBlockBudget_ p <=? elderBlockBytesSinceSweep_ p) && negb (majorPending p)
        then requestCollectionAtSafepoint Major p else p
  end.

Section Alloc.
Context {Kind Ty E LO : Type} `{Layout Kind Ty} `{!OldSpace E} `{!OldSpace LO}.
Implicit Types (st : GC Kind Ty E LO).

(** ** The heap limit *)

Definition oldBytesHeld st : Z :=
  ousedBytes (elder st) + largeLiveBytes_ (pacing st) + largeBytesSinceSweep_ (pacing st) + blockBytesLive (pacing st).

Definition checkHeapLimit (requestBytes : Z) st : GC Kind Ty E LO + Exhaustion :=
  let p := pacing st in
  if heapLimitBytes_ p =? 0 then inl st
  else
    let held := oldBytesHeld st in
    if held + requestBytes <=? heapLimitBytes_ p then inl st
    else if (heapLimitBytes_ p <? requestBytes) || (heapLimitBytes_ p + heapLimitBytes_ p / 2 <? held + requestBytes)
    then inr (mkExhaustion requestBytes held (heapLimitBytes_ p))
    else if heapLimitExceeded_ p then inl st
    else inl (withPacing (fun p => requestCollectionAtSafepoint Major (setHeapLimitRequest requestBytes (setHeapLimitExceeded true p))) st).

(** ** Allocation *)

(** [BumpPtr.alloc] without the header, which the object has here. *)
Definition bumpAlloc (ba : BumpPointerAllocator) (size : Z) : option (Z * BumpPointerAllocator) :=
  let total := totalSize size in
  if end_ ba <? top_ ba + total then None
  else Some (top_ ba + kHeaderBytes, mkBump (start_ ba) (begin_ ba) (top_ ba + total) (end_ ba)).

Definition place (a h : Z) (k : Kind) (ws : list Z) st : GC Kind Ty E LO := setObjs (<[a := mkObj h k ws]> (objs st)) st.

Definition allocLarge (payloadSize : Z) (k : Kind) (ws : list Z) st : (Z * GC Kind Ty E LO) + Exhaustion :=
  match checkHeapLimit payloadSize st with
  | inr e => inr e
  | inl st =>
      match oalloc (large st) payloadSize with
      | None => inr (mkExhaustion payloadSize (oldBytesHeld st) 0)
      | Some (a, total, large) =>
          let st := place a (setBits 54 4 (ObjectHeader total) LargeObj) k ws (setLarge large st) in
          let st := if enableYoungGenCopying_ (pacing st) then setFresh ({[a]} ∪ fresh st) st else st in
          let p := setLargeBytesSinceSweep (largeBytesSinceSweep_ (pacing st) + payloadSize) (pacing st) in
          let p := if largeObjBudget_ p <=? largeBytesSinceSweep_ p + blockBytesGrowth p
                   then requestCollectionAtSafepoint Major p else p in
          inl (a, setPacing p st)
      end
  end.

Definition allocElder (payloadSize : Z) (k : Kind) (ws : list Z) st : (Z * GC Kind Ty E LO) + Exhaustion :=
  match checkHeapLimit payloadSize st with
  | inr e => inr e
  | inl st =>
      match oalloc (elder st) payloadSize with
      | None => inr (orefusal (elder st) payloadSize)
      | Some (a, total, elder) =>
          let p := setElderBytesSinceSweep (elderBytesSinceSweep_ (pacing st) + payloadSize) (pacing st) in
          let st := place a (setBits 54 4 (ObjectHeader total) ElderGen) k ws (setElder elder st) in
          let st := if enableYoungGenCopying_ p then setFresh ({[a]} ∪ fresh st) st else st in
          let p := if (elderBudget_ p <=? elderBytesSinceSweep_ p + blockBytesGrowth p) && negb (majorPending p)
                   then requestCollectionAtSafepoint Major p else p in
          inl (a, setPacing p st)
      end
  end.

Definition allocUnlocked (payloadSize : Z) (k : Kind) (ws : list Z) st : (Z * GC Kind Ty E LO) + Exhaustion :=
  if largeObjThreshold_ (pacing st) <? payloadSize then allocLarge payloadSize k ws st
  else if negb (enableYoungGenCopying_ (pacing st)) then allocElder payloadSize k ws st
  else
    match bumpAlloc (birth st) payloadSize with
    | None =>
        let st := if minorPending (pacing st) then st else withPacing (requestCollectionAtSafepoint Minor) st in
        allocElder payloadSize k ws st
    | Some (a, birth) =>
        let st := place a (setBits 54 4 (ObjectHeader (totalSize payloadSize)) YoungGen) k ws (setBirth birth st) in
        let p := pacing st in
        inl (a, if negb (minorPending p) && (minorTriggerBytes_ p <=? used birth + blockBytesGrowth p)
                then setPacing (requestCollectionAtSafepoint Minor p) st else st)
    end.

Definition checkBlockBytes (bytes : Z) st : GC Kind Ty E LO + Exhaustion := checkHeapLimit bytes st.

(** ** Where an object is *)

(** [headerOf(a)] is in one of the young spaces, and says so. *)
Definition inYoungGenSpace st (a : Z) : bool :=
  match objs st !! a with
  | Some o => (region (hdr o) =? YoungGen) &&
      (contains (birth st) (a - kHeaderBytes) || contains (haven st) (a - kHeaderBytes) || contains (cache st) (a - kHeaderBytes))
  | None => false
  end.
Definition inElderGenSpace st (a : Z) : bool :=
  match objs st !! a with Some o => (region (hdr o) =? ElderGen) && oowns (elder st) a | None => false end.
Definition inLargeObjSpace st (a : Z) : bool :=
  match objs st !! a with Some o => (region (hdr o) =? LargeObj) && oowns (large st) a | None => false end.

(** The address is in one of the young spaces. *)
Definition isYoungAddress st (a : Z) : bool := contains (birth st) a || contains (haven st) a || contains (cache st) a.

(** [autoHeaderForPayload] finds a header. *)
Definition inAutoSpace st (a : Z) : bool :=
  negb (a =? 0) && (isYoungAddress st a || ocontains (elder st) a || ocontains (large st) a).

Definition youngOrFresh st (a : Z) : bool := inYoungGenSpace st a || bool_decide (a ∈ fresh st).

(** ** The write barrier *)

(** [isGCTraced] of the stored type is what the callers' slots have; [traced] says it here. *)
Definition writeBarrier (owner : Z) (ownerType : option Ty) (stored : Z) (traced : bool) st : GC Kind Ty E LO :=
  if negb (enableYoungGenCopying_ (pacing st)) || (owner =? 0) || (stored =? 0) || negb traced then st
  else if isYoungAddress st owner then st
  else if negb (isYoungAddress st stored) && bool_decide (fresh st = ∅) then st
  else if negb (inAutoSpace st stored && youngOrFresh st stored) then st
  else if negb (inAutoSpace st owner && (inElderGenSpace st owner || inLargeObjSpace st owner)) then st
  else setRemembered (<[owner := ownerType]> (remembered st)) st.

Definition noteFinalizable (a : Z) st : GC Kind Ty E LO :=
  if enableYoungGenCopying_ (pacing st) && negb (a =? 0) && inYoungGenSpace st a
  then setYoungFinalizables (youngFinalizables st ++ [a]) st else st.

Definition noteBlockHeld (owner block : Z) st : GC Kind Ty E LO :=
  if (owner =? 0) || (block =? 0) then st
  else if negb (inElderGenSpace st owner) then st
  else withPacing (noteElderBlockBytes block) st.

Definition requestMajorCollection st : GC Kind Ty E LO := withPacing (requestCollectionAtSafepoint Major) st.
Definition inhibitCollections st : GC Kind Ty E LO := withPacing (fun p => setCollectionInhibit (S (collectionInhibit_ p)) p) st.
Definition allowCollections st : GC Kind Ty E LO := withPacing (fun p => setCollectionInhibit (pred (collectionInhibit_ p)) p) st.
End Alloc.
