(* ===== verification/GcMinor.v ===== *)
(** * The minor collection

    [minorGCUnlocked] of src/src/core/mm/gen.cpp and what it calls: the young objects that the
    roots, the remembered objects and the fresh old ones reach are copied to the other survivor
    space or promoted, and the two spaces they leave are emptied. A walk over references updates
    the words of an object in place, as [updateRefs] does. [None] is an exception, a header or an
    object that is not there, or a scan that runs out of fuel. *)

From stdpp Require Import gmap.
From S2P Require Import Prelude ObjHeader BumpPtr GcState GcPacing.
#[local] Open Scope Z_scope.

Section Minor.
Context {Kind Ty E LO : Type} `{Layout Kind Ty} `{!OldSpace E} `{!OldSpace LO}.
Implicit Types (st : GC Kind Ty E LO).

(** ** References *)

(** One reference of the object [a], and all of them: the callback may change the heap, also the
    object itself. *)
Definition updateRef (relocate : GC Kind Ty E LO -> Z -> option Ty -> bool -> option (Z * GC Kind Ty E LO))
    (a : Z) (s : Slot Ty) st : option (GC Kind Ty E LO) :=
  o ← objs st !! a;
  ref ← words o !! slotIndex s;
  if ref =? 0 then Some st
  else
    '(ref', st) ← relocate st ref (refType s) (carrier s);
    if carrier s then Some st
    else
      o ← objs st !! a;
      Some (setObjs (<[a := mkObj (hdr o) (kind o) (<[slotIndex s := ref']> (words o))]> (objs st)) st).

Fixpoint updateSlots (relocate : GC Kind Ty E LO -> Z -> option Ty -> bool -> option (Z * GC Kind Ty E LO))
    (a : Z) (slots : list (Slot Ty)) st : option (GC Kind Ty E LO) :=
  match slots with
  | [] => Some st
  | s :: slots => st ← updateRef relocate a s st; updateSlots relocate a slots st
  end.

Definition updateRefs (relocate : GC Kind Ty E LO -> Z -> option Ty -> bool -> option (Z * GC Kind Ty E LO))
    (a : Z) (t : option Ty) st : option (GC Kind Ty E LO) :=
  o ← objs st !! a; updateSlots relocate a (slotsOf (kind o) t) st.

(** ** Copying *)

(** The block of a promoted object. *)
Definition promote (o : Obj Kind) (objSize : Z) st : option (Z * Z * GC Kind Ty E LO) :=
  '(a, total, elder) ← oalloc (elder st) objSize;
  let p := setElderBytesSinceSweep (elderBytesSinceSweep_ (pacing st) + objSize) (pacing st) in
  let p := if (elderBudget_ p <=? elderBytesSinceSweep_ p + blockBytesGrowth p) && negb (majorPending p)
           then requestCollectionAtSafepoint Major p else p in
  let p := noteElderBlockBytes (heldBlock (kind o) (words o)) p in
  Some (a, setBits 54 4 (setBits 48 4 (ObjectHeader total) (age (incAge (hdr o)))) ElderGen, setPacing p (setElder elder st)).

Definition forward (obj : Z) (objType : option Ty) st : option (Z * GC Kind Ty E LO) :=
  o ← objs st !! obj;
  if forwarded (hdr o) then a ← forwardedAddr (hdr o); Some (a, st)
  else
    objSize ← objSize (hdr o);
    let h := incAge (hdr o) in
    '(newObj, newHeader, st) ←
      (if promotionAgeThreshold_ (pacing st) <=? age h then promote o objSize st
       else match bumpAlloc (haven st) objSize with
            | None => promote o objSize st
            | Some (a, haven) =>
                Some (a, setBits 54 4 (setBits 48 4 (ObjectHeader (totalSize objSize)) (age h)) YoungGen, setHaven haven st)
            end);
    let st := place newObj newHeader (kind o) (onMoved (kind o) newObj (words o)) st in
    let st := setRelocationScan (relocationScan st ++ [(newObj, objType)]) st in
    h' ← ObjHeader.forward h newObj;
    Some (newObj, place obj h' (kind o) (words o) st).

Definition forwardYoungRef (ref : Z) (t : option Ty) st : option (Z * GC Kind Ty E LO) :=
  if ref =? 0 then Some (0, st)
  else if contains (haven st) (ref - kHeaderBytes) then Some (ref, st)
  else
    _ ← objs st !! ref;
    if inYoungGenSpace st ref then forward ref t st
    else if bool_decide (ref ∈ fresh st) then
      let st := if isPreciseGCType t then setFresh (fresh st ∖ {[ref]}) st else st in
      Some (ref, setRelocationScan (relocationScan st ++ [(ref, t)]) st)
    else Some (ref, st).

Definition relocateForMinor st (ref : Z) (t : option Ty) (isCarrier : bool) : option (Z * GC Kind Ty E LO) :=
  if ref =? 0 then Some (0, st)
  else if isCarrier then
    if bool_decide (ref ∈ graphSpace st) && negb (bool_decide (ref ∈ minorTracedGraphs st))
    then Some (ref, setMinorGraphScan (ref :: minorGraphScan st) (setMinorTracedGraphs ({[ref]} ∪ minorTracedGraphs st) st))
    else Some (ref, st)
  else forwardYoungRef ref t st.

(** ** The roots *)

(** The object roots: graph carriers, traced through their own references. *)
Fixpoint traceRootSets (roots done : list Z) st : option (list Z * GC Kind Ty E LO) :=
  match roots with
  | [] => Some (done, st)
  | root :: roots =>
      if root =? 0 then traceRootSets roots (done ++ [0]) st
      else
        '(root, st) ← forwardYoungRef root None st;
        st ← (if bool_decide (root ∈ minorTracedGraphs st) then Some st
              else updateRefs relocateForMinor root None (setMinorTracedGraphs ({[root]} ∪ minorTracedGraphs st) st));
        traceRootSets roots (done ++ [root]) st
  end.

(** The external tracers and the root handles. *)
Fixpoint traceCells (l done : list (Cell Ty)) st : option (list (Cell Ty) * GC Kind Ty E LO) :=
  match l with
  | [] => Some (done, st)
  | c :: l =>
      '(ref, st) ← (if cellRef c =? 0 then Some (0, st) else relocateForMinor st (cellRef c) (cellType c) (cellCarrier c));
      traceCells l (done ++ [mkCell ref (cellType c) (cellCarrier c)]) st
  end.

(** The remembered objects, in the order of their addresses; the source has the order of a hash map
    and passes over an entry whose header is not valid. *)
Fixpoint traceRemembered (l : list (Z * option Ty)) st : option (GC Kind Ty E LO) :=
  match l with
  | [] => Some st
  | (a, t) :: l => st ← updateRefs relocateForMinor a t st; traceRemembered l st
  end.

(** ** The scan *)

Fixpoint scanRelocatedObjects (fuel : nat) st : option (GC Kind Ty E LO) :=
  match relocationScan st !! relocationScanIndex st with
  | Some (a, t) =>
      match fuel with
      | O => None
      | S fuel =>
          st ← updateRefs relocateForMinor a t (setRelocationScanIndex (S (relocationScanIndex st)) st);
          scanRelocatedObjects fuel st
      end
  | None =>
      match minorGraphScan st with
      | g :: rest =>
          match fuel with
          | O => None
          | S fuel => st ← updateRefs relocateForMinor g None (setMinorGraphScan rest st); scanRelocatedObjects fuel st
          end
      | [] => Some st
      end
  end.

(** ** The remembered set afterwards *)

Definition slotTargets st (a : Z) (t : option Ty) : list Z :=
  match objs st !! a with
  | Some o => omap (fun s => ref ← words o !! slotIndex s; if ref =? 0 then None else Some ref) (slotsOf (kind o) t)
  | None => []
  end.

Definition hasYoungRefs st (a : Z) (t : option Ty) : bool :=
  existsb (fun ref => isYoungAddress st ref || bool_decide (ref ∈ fresh st)) (slotTargets st a t).

Definition rememberOldObjectIfYoungRefs (st : GC Kind Ty E LO) (e : Z * option Ty) : GC Kind Ty E LO :=
  let '(a, t) := e in
  if (a =? 0) || isYoungAddress st a then st
  else if negb (inAutoSpace st a) || negb (inElderGenSpace st a || inLargeObjSpace st a) then st
  else if hasYoungRefs st a t then setRemembered (<[a := t]> (remembered st)) st
  else st.

(** ** The end of a collection *)

Fixpoint finalizeDeadYoung (l : list Z) st : option (list Z * GC Kind Ty E LO) :=
  match l with
  | [] => Some ([], st)
  | a :: l =>
      o ← objs st !! a;
      if negb (forwarded (hdr o)) then finalizeDeadYoung l (setFinalized (finalized st ++ [a]) st)
      else
        moved ← forwardedAddr (hdr o);
        '(stillYoung, st') ← finalizeDeadYoung l st;
        Some (if inYoungGenSpace st moved then moved :: stillYoung else stillYoung, st')
  end.

(** The objects of a space that is emptied are gone. *)
Definition resetSpaces st : GC Kind Ty E LO :=
  setObjs (filter (fun kv => contains (birth st) (kv.1 - kHeaderBytes) || contains (cache st) (kv.1 - kHeaderBytes) = false) (objs st))
    (setBirth (reset (birth st)) (setCache (reset (cache st)) st)).

(** One turn of the scan per object that can be queued. *)
Definition scanFuel st : nat := base.size (objs st) + base.size (fresh st) + base.size (graphSpace st).

(** The phases of [minorGCUnlocked]. *)
Definition startMinor st : GC Kind Ty E LO :=
  setMinorGraphScan [] (setMinorTracedGraphs ∅
    (setHaven (reset (cache st)) (setCache (haven st)
      (setRelocationScan [] (setRelocationScanIndex 0%nat (setInGC true st)))))).

Definition traceRoots st : option (GC Kind Ty E LO) :=
  '(roots, st) ← traceRootSets (rootSets st) [] st;
  let st := setRootSets roots st in
  '(cs, st) ← traceCells (cells st) [] st;
  let st := setCells cs st in
  traceRemembered (map_to_list (remembered st)) st.

Definition rebuildRemembered st : GC Kind Ty E LO :=
  let st := setFresh ∅ st in
  let retained := filter (fun kv => hasYoungRefs st kv.1 kv.2 = true) (remembered st) in
  foldl rememberOldObjectIfYoungRefs (setRemembered retained st) (relocationScan st).

Definition finishMinor st : option (GC Kind Ty E LO) :=
  let st := setMinorTracedGraphs ∅ (setMinorGraphScan [] (rebuildRemembered st)) in
  '(stillYoung, st) ← finalizeDeadYoung (youngFinalizables st) st;
  Some (setInGC false (setRelocationScan [] (setRelocationScanIndex 0%nat (resetSpaces (setYoungFinalizables stillYoung st))))).

Definition minorGC st : option (GC Kind Ty E LO) :=
  if negb (enableYoungGenCopying_ (pacing st)) then Some st
  else
    GUARD negb (inGC st);;
    let fuel := scanFuel st in
    st ← traceRoots (startMinor st);
    st ← scanRelocatedObjects fuel st;
    finishMinor st.
End Minor.
