(* ===== verification/GcMinorInv.v ===== *)
(** * The invariant of a minor collection

    While a minor collection runs, a part of the heap has been copied: [F] sends the young objects
    that were copied to their copies, [D] is the set of objects whose references have all been
    updated, [X] the one that is being updated, and what is neither copied nor updated is as it was
    in the heap [H0] the collection started with ([minorInv]). [relocate_ok] says that relocating
    one reference keeps this, [updateRefs_ok] that updating an object does. Which references an
    object has is given by [Lay]: every reference that the collector follows comes with a static
    type that lays its target out as [Lay] says ([targetOk]). *)

From stdpp Require Import gmap fin_sets.
From S2P Require Import Prelude ObjHeader BumpPtr GcState GcPacing GcMinor.
#[local] Open Scope Z_scope.

Section MinorInv.
Context {Kind Ty E LO : Type} `{Layout Kind Ty} `{!OldSpace E} `{!OldSpace LO}.
Implicit Types (st : GC Kind Ty E LO) (F : gmap Z Z) (D X : gset Z) (s : Slot Ty).

(** ** Objects and their references *)

Definition headerOk (h : Z) : Prop := exists n, objSize h = Some n /\ 0 < n < 2 ^ 47.

Definition reloc F (w : Z) : Z := default w (F !! w).
Definition orig (from : Z -> bool) F (a x : Z) : Prop := F !! a = Some x \/ (from a = false /\ x = a).

(** The words of an object with the references of [slots]: a reference is as it was, or updated;
    and updated when the object is done. Everything else is as it was. *)
Definition slotsRel (from : Z -> bool) F (black : Prop) (slots : list (Slot Ty)) (ws0 ws : list Z) : Prop :=
  forall s w, s ∈ slots -> carrier s = false -> ws0 !! slotIndex s = Some w ->
    (ws !! slotIndex s = Some w /\ ~ black) \/
    (ws !! slotIndex s = Some (reloc F w) /\ (from w = true -> is_Some (F !! w))).
Definition othersSame (slots : list (Slot Ty)) (base ws : list Z) : Prop :=
  length ws = length base /\
  forall i, (forall s, s ∈ slots -> carrier s = false -> slotIndex s <> i) -> ws !! i = base !! i.

Lemma size_without (T U : gset Z) g : g ∈ T -> g ∉ U -> T ≡ {[g]} ∪ U -> base.size T = S (base.size U).
Proof.
  intros Hg HU HT. apply leibniz_equiv in HT. subst T. pose proof (size_union (C := gset Z) {[g]} U) as Hsz.
  rewrite Hsz by set_solver. pose proof (size_singleton (C := gset Z) g). lia.
Qed.

Section Fixed.
Context (H0 : gmap Z (Obj Kind)) (G0 fresh0 rooted : gset Z) (from : Z -> bool) (Lay : Z -> list (Slot Ty)) (live : Z -> Prop) (room : Z).

(** An object that a reference of type [t] leads to. *)
Definition laid (t : option Ty) (w : Z) : Prop := live w /\ exists o, H0 !! w = Some o /\ slotsOf (kind o) t = Lay w.

(** What the references of a live object are: a graph carrier leads to a graph or to what is not
    collected; the others are typed. *)
Definition targetOk s (w : Z) : Prop :=
  if carrier s then w ∈ G0 -> laid None w
  else laid (refType s) w /\ isPreciseGCType (refType s) = true /\ (w ∈ G0 -> w ∈ rooted).

(** The heap a collection starts with. *)
Record started : Prop := {
  sd_live : forall a, live a -> exists o t, H0 !! a = Some o /\ slotsOf (kind o) t = Lay a /\
    forall s, s ∈ Lay a -> exists w, words o !! slotIndex s = Some w /\ (w <> 0 -> targetOk s w);
  sd_from : forall a o, H0 !! a = Some o -> from a = true -> headerOk (hdr o) /\ region (hdr o) = YoungGen;
  sd_room : forall a o n, H0 !! a = Some o -> from a = true -> objSize (hdr o) = Some n -> n <= room;
  sd_graph : forall g, g ∈ G0 -> from g = false /\ (g ∉ fresh0) /\ is_Some (H0 !! g);
  sd_fresh : forall a, a ∈ fresh0 -> from a = false /\ is_Some (H0 !! a);
  sd_null : H0 !! 0 = None /\ from 0 = false;
}.

(** ** The invariant *)

(** A copy: in the other survivor space, or in the elder space. *)
Definition copyOk st (x : Z) (n : Obj Kind) : Prop :=
  headerOk (hdr n) /\ lowAddr x /\
  ((region (hdr n) = YoungGen /\ begin_ (haven st) <= x - kHeaderBytes /\ x < top_ (haven st)) \/
   (region (hdr n) = ElderGen /\ x ∈ oiterate (elder st))).

Definition forwardsTo (o : Obj Kind) (x : Z) : Prop := forwarded (hdr o) = true /\ forwardedAddr (hdr o) = Some x.

Record spacesInv st : Prop := {
  sp_from : forall a, from a = contains (birth st) (a - kHeaderBytes) || contains (cache st) (a - kHeaderBytes);
  sp_haven : 0 < start_ (haven st) /\ start_ (haven st) <= begin_ (haven st) /\ begin_ (haven st) <= top_ (haven st) /\
    top_ (haven st) <= end_ (haven st) /\ end_ (haven st) < 2 ^ 47;
  sp_apart : forall a, contains (haven st) (a - kHeaderBytes) = true -> from a = false /\ H0 !! a = None;
  sp_elder : ook (elder st);
  sp_avoids : forall x, is_Some (objs st !! x) -> x ∈ oiterate (elder st) \/ oavoids (elder st) x;
  sp_young : forall a, from a = true -> oavoids (elder st) (a - kHeaderBytes);
  sp_survivors : forall a, contains (haven st) a = true -> oavoids (elder st) a;
  sp_graphs : graphSpace st = G0;
}.

(** The young objects that have not been copied. *)
Definition youngLeft F : nat := base.size (filter (fun kv => from kv.1 = true /\ F !! kv.1 = None) H0).

Record heapInv st F D : Prop := {
  hi_from : forall a o0, H0 !! a = Some o0 -> from a = true -> exists o, objs st !! a = Some o /\
    kind o = kind o0 /\ words o = words o0 /\ region (hdr o) = YoungGen /\
    match F !! a with None => hdr o = hdr o0 | Some x => forwardsTo o x end;
  hi_F : forall a x, F !! a = Some x -> from a = true /\ live a /\ from x = false /\ H0 !! x = None;
  hi_inj : forall a b x, F !! a = Some x -> F !! b = Some x -> a = b;
  hi_copy : forall a x o0, F !! a = Some x -> H0 !! a = Some o0 -> exists n, objs st !! x = Some n /\ kind n = kind o0 /\
    copyOk st x n /\ slotsRel from F (x ∈ D) (Lay a) (words o0) (words n) /\
    othersSame (Lay a) (onMoved (kind o0) x (words o0)) (words n);
  hi_old : forall a o0, H0 !! a = Some o0 -> from a = false -> exists o, objs st !! a = Some o /\
    kind o = kind o0 /\ hdr o = hdr o0 /\
    (live a -> slotsRel from F (a ∈ D) (Lay a) (words o0) (words o) /\ othersSame (Lay a) (words o0) (words o));
  hi_dom : forall x, is_Some (objs st !! x) -> is_Some (H0 !! x) \/ exists a, F !! a = Some x;
  hi_room : serves room (youngLeft F) (elder st);
  hi_housed : forall p, p ∈ oiterate (elder st) -> is_Some (objs st !! p);
}.

Definition queued st (x : Z) : Prop := exists t, (x, t) ∈ drop (relocationScanIndex st) (relocationScan st).

Record queueInv st F D X : Prop := {
  qi_black : forall x, x ∈ D -> exists a o0, orig from F a x /\ live a /\ H0 !! a = Some o0 /\
    forall s w, s ∈ Lay a -> words o0 !! slotIndex s = Some w -> w <> 0 ->
      if carrier s then w ∈ G0 -> w ∈ minorTracedGraphs st else w ∈ fresh0 -> w ∉ fresh st;
  qi_copies : forall a x, F !! a = Some x -> x ∈ D \/ x ∈ X \/ queued st x;
  qi_fresh : fresh st ⊆ fresh0 /\ forall x, x ∈ fresh0 -> x ∉ fresh st -> x ∈ D \/ x ∈ X \/ queued st x;
  qi_traced : minorTracedGraphs st ⊆ G0 /\ forall g, g ∈ minorTracedGraphs st -> g ∈ D \/ g ∈ X \/ g ∈ minorGraphScan st;
  qi_queue : forall x t, (x, t) ∈ relocationScan st -> exists a o0, orig from F a x /\ live a /\ H0 !! a = Some o0 /\
    slotsOf (kind o0) t = Lay a;
  qi_graphs : forall g, g ∈ minorGraphScan st -> g ∈ G0 /\ laid None g;
  qi_index : (relocationScanIndex st <= length (relocationScan st))%nat;
  qi_listed : (forall a x, F !! a = Some x -> exists t, (x, t) ∈ relocationScan st) /\
    (forall x, x ∈ fresh0 -> x ∉ fresh st -> exists t, (x, t) ∈ relocationScan st);
}.

Definition minorInv st F D X : Prop := spacesInv st /\ heapInv st F D /\ queueInv st F D X.

(** ** What does not change *)

(** The settings of the pacing that the collector reads and never writes. *)
Definition settingsOf (p : Pacing) : bool * nat := (enableYoungGenCopying_ p, nativeCodeDepth p).

(** The parts of the state that relocation leaves alone. *)
Definition sameRest st st' : Prop :=
  settingsOf (pacing st') = settingsOf (pacing st) /\
  birth st' = birth st /\ cache st' = cache st /\ large st' = large st /\ graphSpace st' = graphSpace st /\
  rootSets st' = rootSets st /\ cells st' = cells st /\ remembered st' = remembered st /\
  youngFinalizables st' = youngFinalizables st /\ finalized st' = finalized st /\
  start_ (haven st') = start_ (haven st) /\ end_ (haven st') = end_ (haven st) /\ begin_ (haven st') = begin_ (haven st) /\
  markedSinceClear st' = markedSinceClear st /\ inGC st' = inGC st /\
  (forall a, oavoids (elder st) a -> oavoids (elder st') a) /\
  (forall p, p ∈ oiterate (elder st) -> p ∈ oiterate (elder st')).

Lemma sameRest_refl st : sameRest st st.
Proof. by split_and!. Qed.

Lemma sameRest_trans st1 st2 st3 : sameRest st1 st2 -> sameRest st2 st3 -> sameRest st1 st3.
Proof. unfold sameRest. intros. destruct_and!. split_and!; try congruence; auto. Qed.

(** How many turns the scan can still take. *)
Definition potential st F : nat :=
  (length (relocationScan st) - relocationScanIndex st) + length (minorGraphScan st) + youngLeft F +
  base.size (fresh st) + base.size (G0 ∖ minorTracedGraphs st).

(** One reference has been dealt with. *)
Definition slotDone st F s (w : Z) : Prop :=
  if carrier s then w ∈ G0 -> w ∈ minorTracedGraphs st
  else (from w = true -> is_Some (F !! w)) /\ (w ∈ fresh0 -> w ∉ fresh st).

Record progress st F st' F' : Prop := {
  pg_F : F ⊆ F';
  pg_rest : sameRest st st';
  pg_traced : minorTracedGraphs st ⊆ minorTracedGraphs st';
  pg_fresh : fresh st' ⊆ fresh st;
  pg_potential : (potential st' F' <= potential st F)%nat;
  pg_scan : exists more, relocationScan st' = relocationScan st ++ more;
}.

Lemma progress_refl st F : progress st F st F.
Proof. split; try done. exists []. by rewrite app_nil_r. Qed.

Lemma progress_trans st1 F1 st2 F2 st3 F3 : progress st1 F1 st2 F2 -> progress st2 F2 st3 F3 -> progress st1 F1 st3 F3.
Proof.
  intros [A1 A2 A3 A4 A5 (m1 & A6)] [B1 B2 B3 B4 B5 (m2 & B6)]. split.
  - by etrans.
  - by eapply sameRest_trans.
  - by etrans.
  - by etrans.
  - lia.
  - exists (m1 ++ m2). rewrite B6, A6. by rewrite app_assoc.
Qed.

Lemma slotDone_mono st F st' F' s w : progress st F st' F' -> slotDone st F s w -> slotDone st' F' s w.
Proof.
  intros Hp. unfold slotDone. destruct (carrier s); [intros Hd Hw; by apply (pg_traced _ _ _ _ Hp), Hd|].
  intros [H1 H2]. split.
  - intros Hf. destruct (H1 Hf) as [x Hx]. exists x. eapply lookup_weaken; [done|apply Hp].
  - intros Hw ?. apply H2; [done|]. by apply (pg_fresh _ _ _ _ Hp).
Qed.

Lemma orig_mono F F' a x : F ⊆ F' -> orig from F a x -> orig from F' a x.
Proof. intros HF [Hx | ?]; [left; by eapply lookup_weaken|by right]. Qed.

Lemma reloc_None F w : F !! w = None -> reloc F w = w.
Proof. unfold reloc. by intros ->. Qed.
Lemma reloc_Some F w x : F !! w = Some x -> reloc F w = x.
Proof. unfold reloc. by intros ->. Qed.

Context (Hsd : started).

Lemma live_object a : live a -> exists o t, H0 !! a = Some o /\ slotsOf (kind o) t = Lay a.
Proof. intros (o & t & Ho & Ht & _)%(sd_live Hsd). by exists o, t. Qed.

Lemma slots_distinct a : live a -> NoDup (slotIndex <$> Lay a).
Proof. intros (o & t & _ & <-)%live_object. apply slots_once. Qed.

(** ** References to what was copied or does not move *)

Lemma not_survivor st w o : spacesInv st -> H0 !! w = Some o -> contains (haven st) (w - kHeaderBytes) = false.
Proof. intros Hs Ho. destruct (contains _ _) eqn:Ec; [|done]. apply (sp_apart _ Hs) in Ec as [_ ?]. congruence. Qed.

Lemma in_haven st x : spacesInv st -> begin_ (haven st) <= x - kHeaderBytes -> x < top_ (haven st) ->
  contains (haven st) (x - kHeaderBytes) = true.
Proof. intros Hs Hb Ht. destruct (sp_haven _ Hs) as (? & ? & ? & ? & ?). unfold contains, kHeaderBytes in *. lia. Qed.

Lemma young_space st F D a o0 o : spacesInv st -> heapInv st F D -> H0 !! a = Some o0 -> from a = true ->
  objs st !! a = Some o -> region (hdr o) = YoungGen -> inYoungGenSpace st a = true.
Proof.
  intros Hs Hh Ha Hf Ho Hr. unfold inYoungGenSpace. rewrite Ho, Hr. rewrite (sp_from _ Hs a) in Hf.
  apply orb_true_iff in Hf as [-> | ->]; by rewrite ?orb_true_r.
Qed.

Lemma old_space st w : spacesInv st -> from w = false -> contains (haven st) (w - kHeaderBytes) = false -> inYoungGenSpace st w = false.
Proof.
  intros Hs Hf Hh. unfold inYoungGenSpace. destruct (objs st !! w); [|done]. rewrite (sp_from _ Hs w) in Hf.
  apply orb_false_iff in Hf as [-> ->]. rewrite Hh. by rewrite andb_false_r.
Qed.

Lemma forwardYoungRef_copied st F D w x w' t : spacesInv st -> heapInv st F D -> fresh st ⊆ fresh0 -> F !! w = Some x ->
  w' = w \/ w' = x -> forwardYoungRef w' t st = Some (x, st).
Proof.
  intros Hs Hh Hfr HF Hw'. destruct (hi_F _ _ _ Hh _ _ HF) as (Hfw & Hl & Hfx & Hx0).
  destruct (live_object _ Hl) as (o0 & _ & Ho0 & _). unfold forwardYoungRef.
  destruct (hi_copy _ _ _ Hh _ _ _ HF Ho0) as (n & Hn & _ & (_ & [Hx1 Hx2] & Hwhere) & _).
  destruct Hw' as [-> | ->].
  - destruct (Z.eqb_spec w 0) as [->|_]; [rewrite (proj2 (sd_null Hsd)) in Hfw; done|].
    rewrite (not_survivor st w o0) by done. destruct (hi_from _ _ _ Hh _ _ Ho0 Hfw) as (o & Ho & _ & _ & Hr & Hfwd).
    rewrite HF in Hfwd. destruct Hfwd as [Hfd Ha]. rewrite Ho. cbn [mbind option_bind].
    rewrite (young_space st F D w o0 o) by done. unfold forward. rewrite Ho. cbn [mbind option_bind]. rewrite Hfd, Ha. done.
  - destruct (Z.eqb_spec x 0) as [->|_]; [lia|].
    destruct (contains (haven st) (x - kHeaderBytes)) eqn:Ec; [done|].
    destruct Hwhere as [(_ & Hb & Ht)|[Hr He]]; [by rewrite (in_haven st x) in Ec|].
    rewrite Hn. cbn [mbind option_bind]. rewrite (old_space st x) by done.
    rewrite bool_decide_eq_false_2; [done|]. intros [_ [? ?]]%Hfr%(sd_fresh Hsd). congruence.
Qed.
Lemma forwardYoungRef_old st F D w t : spacesInv st -> heapInv st F D -> laid t w -> from w = false ->
  forwardYoungRef w t st = Some (w,
    if bool_decide (w ∈ fresh st) then
      setRelocationScan (relocationScan st ++ [(w, t)]) (if isPreciseGCType t then setFresh (fresh st ∖ {[w]}) st else st)
    else st).
Proof.
  intros Hs Hh (Hl & o0 & Ho0 & _) Hf. unfold forwardYoungRef.
  destruct (Z.eqb_spec w 0) as [->|_]; [rewrite (proj1 (sd_null Hsd)) in Ho0; done|].
  rewrite (not_survivor st w o0) by done. destruct (hi_old _ _ _ Hh _ _ Ho0 Hf) as (o & Ho & _). rewrite Ho. cbn [mbind option_bind].
  rewrite (old_space st w) by (done || by eapply not_survivor). by destruct (bool_decide _); destruct (isPreciseGCType t).
Qed.

(** ** The queues *)

Lemma queued_more st st' news x : relocationScan st' = relocationScan st ++ news -> relocationScanIndex st' = relocationScanIndex st ->
  (relocationScanIndex st <= length (relocationScan st))%nat -> queued st x \/ (exists t, (x, t) ∈ news) -> queued st' x.
Proof.
  unfold queued. intros -> -> Hi. rewrite drop_app_le by done. intros [[t Ht] | [t Ht]]; exists t; set_solver.
Qed.

Lemma queueInv_more st F D X st' F' news gs : queueInv st F D X -> F ⊆ F' ->
  relocationScan st' = relocationScan st ++ news -> relocationScanIndex st' = relocationScanIndex st ->
  minorGraphScan st' = gs ++ minorGraphScan st -> fresh st' ⊆ fresh st ->
  minorTracedGraphs st ⊆ minorTracedGraphs st' -> minorTracedGraphs st' ⊆ G0 ->
  (forall a x, F' !! a = Some x -> F !! a = Some x \/ exists t, (x, t) ∈ news) ->
  (forall x, x ∈ fresh st -> x ∉ fresh st' -> exists t, (x, t) ∈ news) ->
  (forall g, g ∈ minorTracedGraphs st' -> g ∈ minorTracedGraphs st \/ g ∈ gs) ->
  (forall x t, (x, t) ∈ news -> exists a o0, orig from F' a x /\ live a /\ H0 !! a = Some o0 /\ slotsOf (kind o0) t = Lay a) ->
  (forall g, g ∈ gs -> g ∈ G0 /\ laid None g) -> queueInv st' F' D X.
Proof.
  intros [Q1 Q2 [Q3 Q4] [Q5 Q6] Q7 Q8 Q9 [Q10 Q11]] HF Hsc Hi Hg Hfr Ht1 Ht2 Hc Hnf Hnt Hnq Hng.
  assert (Hmore : forall x, queued st x \/ (exists t, (x, t) ∈ news) -> queued st' x) by (intros; by eapply queued_more).
  split.
  - intros x Hx. destruct (Q1 x Hx) as (a & o0 & Ho & Hl & Ho0 & Hs). exists a, o0. split_and!; [by eapply orig_mono|done..|].
    intros s w Hin Hw Hne. specialize (Hs s w Hin Hw Hne). destruct (carrier s); set_solver.
  - intros a x Hx. destruct (Hc a x Hx) as [Hx' | Hx']; [|by auto]. destruct (Q2 _ _ Hx') as [?|[?|?]]; auto.
  - split; [set_solver|]. intros x Hx Hx'. destruct (decide (x ∈ fresh st)) as [Hin|Hin]; [by auto 7|].
    destruct (Q4 x Hx Hin) as [?|[?|?]]; auto.
  - split; [done|]. intros g Hgt. rewrite Hg, elem_of_app. destruct (Hnt g Hgt) as [Hgt' | ?]; [|by auto].
    destruct (Q6 g Hgt') as [?|[?|?]]; auto.
  - intros x t. rewrite Hsc, elem_of_app. intros [Hq | Hq]; [|by apply (Hnq x t)].
    destruct (Q7 x t Hq) as (a & o0 & Ho & ?). exists a, o0. split; [by eapply orig_mono|done].
  - intros g. rewrite Hg, elem_of_app. intros [?|?]; auto.
  - rewrite Hsc, Hi, length_app. lia.
  - rewrite Hsc. split.
    + intros a x [[t Ht]%Q10 | [t Ht]]%Hc; exists t; set_solver.
    + intros x Hx Hx'. destruct (decide (x ∈ fresh st)) as [Hin|Hin]; [destruct (Hnf x Hin Hx') as [t Ht]|destruct (Q11 x Hx Hin) as [t Ht]]; exists t; set_solver.
Qed.

(** ** Relocating what does not move *)

Definition relocates st F D X s (w w' : Z) : Prop := exists r st' F',
  relocateForMinor st w' (refType s) (carrier s) = Some (r, st') /\ minorInv st' F' D X /\ progress st F st' F' /\
  slotDone st' F' s w /\ r = (if carrier s then w' else reloc F' w) /\
  (forall x o, objs st !! x = Some o -> from x = false -> objs st' !! x = Some o).

Lemma relocate_carrier st F D X s w : minorInv st F D X -> carrier s = true -> w <> 0 -> targetOk s w -> relocates st F D X s w w.
Proof.
  intros (Hs & Hh & Hq) Hc Hw Ht. unfold relocates, relocateForMinor, slotDone, targetOk in *. rewrite Hc in *.
  replace (w =? 0) with false by lia. rewrite (sp_graphs _ Hs).
  destruct (decide (w ∈ G0)) as [Hg|Hg].
  - specialize (Ht Hg). rewrite bool_decide_eq_true_2 by done.
    destruct (decide (w ∈ minorTracedGraphs st)) as [Hm|Hm].
    + rewrite bool_decide_eq_true_2 by done. exists w, st, F. split_and!; try done; apply progress_refl.
    + rewrite bool_decide_eq_false_2 by done. cbn [negb andb].
      set (st' := setMinorGraphScan _ _). exists w, st', F. split; [done|]. unfold minorInv. split_and!; try done.
      * destruct Hs; by split.
      * destruct Hh; by split.
      * eapply (queueInv_more st F D X st' F [] [w] Hq); try done; cbn.
        -- by rewrite app_nil_r.
        -- set_solver.
        -- pose proof (qi_traced _ _ _ _ Hq). set_solver.
        -- auto.
        -- set_solver.
        -- by intros ? ? ?%elem_of_nil.
        -- intros g ->%list_elem_of_singleton. done.
      * split; try done; cbn; [set_solver| |exists []; by rewrite app_nil_r].
        unfold potential, st'. cbn. rewrite (size_without (G0 ∖ minorTracedGraphs st) (G0 ∖ ({[w]} ∪ minorTracedGraphs st)) w) by first [set_solver|intros y; destruct (decide (y = w)) as [->|]; set_solver]. lia.
      * cbn. set_solver.
  - rewrite bool_decide_eq_false_2 by done. exists w, st, F. split_and!; try done; apply progress_refl.
Qed.

Lemma relocate_copied st F D X s w x w' : minorInv st F D X -> carrier s = false -> F !! w = Some x -> w' <> 0 -> w' = w \/ w' = x ->
  relocates st F D X s w w'.
Proof.
  intros (Hs & Hh & Hq) Hc HF Hw' Hcase. exists x, st, F. unfold relocateForMinor, slotDone. rewrite Hc.
  replace (w' =? 0) with false by lia. split_and!; try done.
  - eapply forwardYoungRef_copied; try done. apply (qi_fresh _ _ _ _ Hq).
  - apply progress_refl.
  - intros Hw%(sd_fresh Hsd). destruct (hi_F _ _ _ Hh _ _ HF) as (Hf & _). destruct Hw. congruence.
  - by rewrite (reloc_Some _ _ _ HF).
Qed.

Lemma relocate_old st F D X s w : minorInv st F D X -> carrier s = false -> w <> 0 -> targetOk s w -> from w = false -> relocates st F D X s w w.
Proof.
  intros (Hs & Hh & Hq) Hc Hw Ht Hf. unfold targetOk in Ht. rewrite Hc in Ht. destruct Ht as (Hlaid & Hp & _).
  unfold relocates, relocateForMinor, slotDone. rewrite Hc. replace (w =? 0) with false by lia.
  rewrite (forwardYoungRef_old st F D) by done. rewrite Hp.
  assert (HF : F !! w = None). { destruct (F !! w) eqn:HF; [|done]. destruct (hi_F _ _ _ Hh _ _ HF) as (? & _). congruence. }
  destruct (decide (w ∈ fresh st)) as [Hfr|Hfr].
  - rewrite bool_decide_eq_true_2 by done. set (st' := setRelocationScan _ _). exists w, st', F. split; [done|].
    destruct Hlaid as (Hl & o0 & Ho0 & Hlay). unfold minorInv. split_and!; try done.
    + destruct Hs; by split.
    + destruct Hh; by split.
    + eapply (queueInv_more st F D X st' F [(w, refType s)] [] Hq); try done; cbn; try set_solver.
      * apply (qi_traced _ _ _ _ Hq).
      * intros x Hx Hx'. destruct (decide (x = w)) as [->|]; [|set_solver]. exists (refType s). by left.
      * intros x t [= -> ->]%list_elem_of_singleton. exists w, o0. split_and!; try done. by right.
    + split; try done; cbn; [set_solver| |by eexists].
      unfold potential, st'. cbn. rewrite length_app. cbn.
      rewrite (size_without (fresh st) (fresh st ∖ {[w]}) w) by first [set_solver|intros y; destruct (decide (y = w)) as [->|]; set_solver].
      pose proof (qi_index _ _ _ _ Hq). lia.
    + congruence.
    + cbn. set_solver.
    + by rewrite reloc_None.
  - rewrite bool_decide_eq_false_2 by done. exists w, st, F.
    split_and!; try done; [apply progress_refl|congruence|by rewrite reloc_None].
Qed.

(** ** Copying an object *)

Lemma newHeader_ok total a r : kHeaderBytes < total < 2 ^ 47 -> 0 <= r < 16 ->
  headerOk (setBits 54 4 (setBits 48 4 (ObjectHeader total) a) r) /\ region (setBits 54 4 (setBits 48 4 (ObjectHeader total) a) r) = r.
Proof.
  unfold kHeaderBytes. intros Ht Hr. destruct (ObjectHeader_fields total ltac:(lia)) as (Hn & _ & _ & Hs & _). split.
  - exists (total - 8). unfold objSize, kHeaderBytes. unfold total_, state_ in *. rewrite !bits_set_other by lia. rewrite Hs, Hn.
    split; [done|lia].
  - unfold region, region_. by rewrite bits_set_same by lia.
Qed.

Lemma youngLeft_insert F w x o0 : H0 !! w = Some o0 -> from w = true -> F !! w = None -> youngLeft F = S (youngLeft (<[w := x]> F)).
Proof.
  intros Ho Hf HF. unfold youngLeft.
  assert (Hins : filter (fun kv => from kv.1 = true /\ F !! kv.1 = None) H0 =
    <[w := o0]> (filter (fun kv => from kv.1 = true /\ <[w := x]> F !! kv.1 = None) H0)).
  { apply map_eq. intros i. apply option_eq. intros o. rewrite lookup_insert_Some, !map_lookup_filter_Some. cbn.
    destruct (decide (w = i)) as [->|Hne]; [rewrite lookup_insert_eq|rewrite lookup_insert_ne by done]; naive_solver. }
  rewrite Hins, map_size_insert_None; [done|]. apply map_lookup_filter_None_2. right. intros o _. cbn.
  rewrite lookup_insert_eq. by intros [_ ?].
Qed.

(** A block for a copy, before the object is in it. *)
Record roomMade st (x h : Z) st1 : Prop := {
  rm_rest : sameRest st st1;
  rm_same : objs st1 = objs st /\ fresh st1 = fresh st /\ minorTracedGraphs st1 = minorTracedGraphs st /\
    minorGraphScan st1 = minorGraphScan st /\ relocationScan st1 = relocationScan st /\ relocationScanIndex st1 = relocationScanIndex st;
  rm_spaces : spacesInv st1;
  rm_place : x ∈ oiterate (elder st1) \/ oavoids (elder st1) x;
  rm_new : from x = false /\ H0 !! x = None /\ objs st !! x = None;
  rm_copy : forall k ws, copyOk st1 x (mkObj h k ws);
  rm_top : top_ (haven st) <= top_ (haven st1);
  rm_elder : forall p, p ∈ oiterate (elder st1) -> p ∈ oiterate (elder st) \/ p = x;
}.

Lemma settings_request k p : settingsOf (requestCollectionAtSafepoint k p) = settingsOf p.
Proof. by destruct k. Qed.
Lemma settings_noteElderBlockBytes b p : settingsOf (noteElderBlockBytes b p) = settingsOf p.
Proof.
  unfold noteElderBlockBytes. destruct (blocks p !! b); [|done]. destruct (claimPacingBytes _) as [added c].
  destruct (added =? 0); [done|]. destruct (_ && _); [by rewrite settings_request|done].
Qed.

Lemma promote_room st F D k o n : spacesInv st -> heapInv st F D -> youngLeft F = S k -> 0 < n < 2 ^ 47 -> n <= room ->
  exists x h st1, promote o n st = Some (x, h, st1) /\ roomMade st x h st1 /\ serves room k (elder st1).
Proof.
  intros Hs Hh Hk Hn Hroom. pose proof (hi_room _ _ _ Hh) as Hserve. rewrite Hk in Hserve.
  destruct (Hserve n ltac:(lia)) as (x & b & e' & Ha & He'). unfold promote. rewrite Ha. cbn [mbind option_bind].
  eexists x, _, _. split; [done|]. split; [|done].
  destruct (oalloc_ok _ _ _ _ _ (sp_elder _ Hs) Hn Ha) as (Hok & Hx & Hq & Hb1 & Hb2 & Hb3 & Hav).
  assert (Hx' : x ∈ oiterate e') by (apply Hq; by right).
  destruct (oiterate_contains e' x Hok Hx') as (_ & _ & Hx1 & Hx2 & Hlow).
  assert (Hnone : objs st !! x = None).
  { apply eq_None_not_Some. intros [?|?%Hav]%(sp_avoids _ Hs); done. }
  split; cbn; try done.
  - unfold sameRest. cbn. split_and!; try done; [|intros p Hp; apply Hq; by left].
    rewrite settings_noteElderBlockBytes. by destruct (_ && _).
  - destruct Hs as [S1 S2 S3 S4 S5 S6 S7 S8]. split; cbn; try done; [|by auto..].
    intros y [Hy|Hy]%S5; [left; apply Hq; by left|right; auto].
  - by left.
  - split_and!; try done.
    + destruct (from x) eqn:Hf; [|done]. apply (sp_young _ Hs), Hav in Hf. done.
    + destruct (H0 !! x) as [o0|] eqn:Ho0; [|done]. exfalso. destruct (from x) eqn:Hf.
      * destruct (hi_from _ _ _ Hh _ _ Ho0 Hf) as (? & ? & _). congruence.
      * destruct (hi_old _ _ _ Hh _ _ Ho0 Hf) as (? & ? & _). congruence.
  - intros kd ws. destruct (newHeader_ok b (age (incAge (hdr o))) ElderGen) as [Hh1 Hh2]; [unfold kHeaderBytes, lowAddr in *; lia|unfold ElderGen; lia|].
    split; [done|]. split; [done|]. by right.
  - intros p. apply Hq.
Qed.

Lemma bump_room st F D n a hv x : spacesInv st -> heapInv st F D -> 0 < n < 2 ^ 47 -> bumpAlloc (haven st) n = Some (x, hv) ->
  roomMade st x (setBits 54 4 (setBits 48 4 (ObjectHeader (totalSize n)) a) YoungGen) (setHaven hv st).
Proof.
  intros Hs Hh Hn Ha. unfold bumpAlloc in Ha. destruct (Z.ltb_spec (end_ (haven st)) (top_ (haven st) + totalSize n)) as [|Hfit]; [done|].
  injection Ha as Hx <-. destruct (totalSize_spec n ltac:(lia)) as (Hts & _ & Hge). rewrite <- Hts in Hge. clear Hts.
  destruct (sp_haven _ Hs) as (B1 & B2 & B3 & B4 & B5).
  assert (Hx1 : contains (haven st) (x - kHeaderBytes) = true) by (unfold contains, kHeaderBytes in *; lia).
  assert (Hx2 : contains (haven st) x = true) by (unfold contains, kHeaderBytes in *; lia).
  destruct (sp_apart _ Hs _ Hx1) as [Hfx Hx0].
  assert (Hnone : objs st !! x = None).
  { apply eq_None_not_Some. intros [[? ?]|[b Hb]]%(hi_dom _ _ _ Hh); [congruence|].
    destruct (hi_F _ _ _ Hh _ _ Hb) as (_ & (o0 & _ & Ho0 & _)%live_object & _).
    destruct (hi_copy _ _ _ Hh _ _ _ Hb Ho0) as (? & _ & _ & (_ & _ & [(_ & _ & Ht)|(_ & He)]) & _).
    - unfold kHeaderBytes in *. lia.
    - by apply (oiterate_contains _ _ (sp_elder _ Hs) He), (sp_survivors _ Hs). }
  split; cbn; try done.
  - destruct Hs as [S1 S2 S3 S4 S5 S6 S7 S8]. split; cbn; try done. unfold kHeaderBytes in *. split_and!; try done; lia.
  - right. by apply (sp_survivors _ Hs).
  - intros kd ws. destruct (newHeader_ok (totalSize n) a YoungGen) as [Hh1 Hh2]; [unfold kHeaderBytes in *; lia|done|].
    split; [done|]. split; [unfold lowAddr, kHeaderBytes in *; lia|]. left. cbn. unfold kHeaderBytes in *. split; [done|lia].
  - unfold kHeaderBytes in *. lia.
  - auto.
Qed.

Lemma slotsRel_mono F F' b slots ws0 ws : F ⊆ F' -> (forall a y, F' !! a = Some y -> from a = true) ->
  slotsRel from F b slots ws0 ws -> slotsRel from F' b slots ws0 ws.
Proof.
  intros HF Hf Hr s w Hs Hc Hw. destruct (Hr s w Hs Hc Hw) as [?|[Hw' HFw]]; [by left|right].
  destruct (from w) eqn:Hfw.
  - destruct (HFw eq_refl) as [y Hy]. pose proof (lookup_weaken _ _ _ _ Hy HF) as Hy'.
    rewrite (reloc_Some _ _ _ Hy) in Hw'. by rewrite (reloc_Some _ _ _ Hy').
  - assert (HN : F' !! w = None) by by destruct (F' !! w) as [y|] eqn:Hy; [apply Hf in Hy; congruence|].
    rewrite (reloc_None F w) in Hw' by (eapply lookup_weaken_None; done). by rewrite (reloc_None _ _ HN).
Qed.

Section Copied.
Context (st st1 : GC Kind Ty E LO) (F : gmap Z Z) (D X : gset Z) (w x h h' : Z) (o0 : Obj Kind) (t : option Ty).
Context (Hs : spacesInv st) (Hh : heapInv st F D) (Hq : queueInv st F D X).
Context (Ho0 : H0 !! w = Some o0) (Hf : from w = true) (HF : F !! w = None) (Hlaid : laid t w).
Context (Hroom : roomMade st x h st1) (Hserve : serves room (youngLeft (<[w := x]> F)) (elder st1)).
Context (Hfwd : forwardsTo (mkObj h' (kind o0) (words o0)) x) (Hreg : region h' = YoungGen).

Definition copied : GC Kind Ty E LO :=
  place w h' (kind o0) (words o0)
    (setRelocationScan (relocationScan st1 ++ [(x, t)]) (place x h (kind o0) (onMoved (kind o0) x (words o0)) st1)).

Lemma copied_objs : objs copied = <[w := mkObj h' (kind o0) (words o0)]> (<[x := mkObj h (kind o0) (onMoved (kind o0) x (words o0))]> (objs st)).
Proof. unfold copied. cbn. by rewrite (proj1 (rm_same _ _ _ _ Hroom)). Qed.

Lemma copied_apart : x <> w.
Proof. intros ->. destruct (rm_new _ _ _ _ Hroom) as (_ & ? & _). congruence. Qed.

Lemma copied_other y : y <> w -> y <> x -> objs copied !! y = objs st !! y.
Proof. intros. by rewrite copied_objs, !lookup_insert_ne. Qed.

Lemma copied_F a y : <[w := x]> F !! a = Some y -> from a = true.
Proof. intros [[<- _]|[_ Ha]]%lookup_insert_Some; [done|by destruct (hi_F _ _ _ Hh _ _ Ha)]. Qed.

Lemma copied_old_copy a : F !! a <> Some x.
Proof.
  intros Ha. destruct (hi_F _ _ _ Hh _ _ Ha) as (_ & (oa & _ & Hoa & _)%live_object & _).
  destruct (hi_copy _ _ _ Hh _ _ _ Ha Hoa) as (? & Hn & _). destruct (rm_new _ _ _ _ Hroom) as (_ & _ & ?). congruence.
Qed.

Lemma copied_not_black : x ∉ D.
Proof.
  intros (a & oa & [Ha|[_ ->]] & _ & Hoa & _)%(qi_black _ _ _ _ Hq); [by apply copied_old_copy in Ha|].
  destruct (rm_new _ _ _ _ Hroom) as (_ & ? & _). congruence.
Qed.

Lemma copied_copyOk y n : copyOk st y n -> copyOk copied y n.
Proof.
  intros (Hhd & Hlow & Hw). split; [done|]. split; [done|]. destruct (rm_rest _ _ _ _ Hroom) as (_ & _ & _ & _ & _ & _ & _ & _ & _ & _ & _ & _ & Hb & _ & _ & _ & Hq').
  pose proof (rm_top _ _ _ _ Hroom). destruct Hw as [(? & ? & ?)|[? ?]]; [left|right].
  - split; [done|]. cbn. rewrite Hb. split; [done|lia].
  - split; [done|]. cbn. auto.
Qed.

Lemma copied_spaces : spacesInv copied.
Proof.
  destruct (rm_spaces _ _ _ _ Hroom) as [S1 S2 S3 S4 S5 S6 S7 S8]. split; try done. intros y Hy.
  destruct (decide (y = x)) as [->|Hx]; [exact (rm_place _ _ _ _ Hroom)|].
  apply S5. rewrite (proj1 (rm_same _ _ _ _ Hroom)). destruct (decide (y = w)) as [->|Hw]; [|by rewrite copied_other in Hy].
  destruct (hi_from _ _ _ Hh _ _ Ho0 Hf) as (o & -> & _). by eexists.
Qed.

Lemma copied_heap : heapInv copied (<[w := x]> F) D.
Proof.
  pose proof copied_apart as Hne. destruct (rm_new _ _ _ _ Hroom) as (Hfx & Hx0 & Hxn).
  assert (HFF : F ⊆ <[w := x]> F) by by apply insert_subseteq. split.
  - intros a oa Hoa Hfa. destruct (decide (a = w)) as [->|Haw].
    + rewrite copied_objs, !lookup_insert_eq. replace oa with o0 by congruence. eexists. split; [done|]. by split_and!.
    + rewrite copied_other by congruence. rewrite lookup_insert_ne by done. by apply (hi_from _ _ _ Hh).
  - intros a y [[<- <-]|[_ Ha]]%lookup_insert_Some; [|by apply (hi_F _ _ _ Hh)]. split_and!; try done. apply Hlaid.
  - intros a b y Ha Hb. apply lookup_insert_Some in Ha as [[<- <-]|[_ Ha]].
    + apply lookup_insert_Some in Hb as [[<- _]|[_ Hb]]; [done|by apply copied_old_copy in Hb].
    + apply lookup_insert_Some in Hb as [[<- <-]|[_ Hb]]; [by apply copied_old_copy in Ha|by eapply (hi_inj _ _ _ Hh)].
  - intros a y oa Ha Hoa. apply lookup_insert_Some in Ha as [[<- <-]|[Haw Ha]].
    + replace oa with o0 by congruence. rewrite copied_objs, lookup_insert_ne, lookup_insert_eq by done.
      eexists. split; [done|]. split; [done|]. split_and!; [| |done].
      * destruct (rm_copy _ _ _ _ Hroom (kind o0) (onMoved (kind o0) x (words o0))) as (? & ? & Hplace). by split_and!.
      * intros s v Hin Hc Hv. left. split; [|by apply copied_not_black].
        destruct Hlaid as (_ & o & Ho & Hlay). cbn. rewrite onMoved_slots with (t := t); [done|]. replace o0 with o by congruence. by rewrite Hlay.
    + destruct (hi_copy _ _ _ Hh _ _ _ Ha Hoa) as (n & Hn & Hk & Hc & Hr & Ho). destruct (hi_F _ _ _ Hh _ _ Ha) as (_ & _ & Hfy & _).
      exists n. rewrite copied_other by (intros ->; congruence). split_and!; try done; [by apply copied_copyOk|].
      by eapply slotsRel_mono; [|apply copied_F|].
  - intros a oa Hoa Hfa. destruct (hi_old _ _ _ Hh _ _ Hoa Hfa) as (o & Ho & Hk & Hhd & Hl). exists o.
    rewrite copied_other by congruence. split_and!; try done. intros Hla. destruct (Hl Hla). split; [|done].
    by eapply slotsRel_mono; [|apply copied_F|].
  - intros y Hy. destruct (decide (y = w)) as [->|Hyw]; [left; by eexists|].
    destruct (decide (y = x)) as [->|Hyx]; [right; exists w; by rewrite lookup_insert_eq|].
    rewrite copied_other in Hy by done. apply (hi_dom _ _ _ Hh) in Hy as [?|[a Ha]]; [by left|right].
    exists a. rewrite lookup_insert_ne; [done|]. congruence.
  - exact Hserve.
  - intros p [Hp| ->]%(rm_elder _ _ _ _ Hroom); rewrite copied_objs, !lookup_insert_is_Some'; [|by auto].
    right. right. by apply (hi_housed _ _ _ Hh).
Qed.

Lemma copied_queue : queueInv copied (<[w := x]> F) D X.
Proof.
  destruct (rm_same _ _ _ _ Hroom) as (_ & E1 & E2 & E3 & E4 & E5).
  apply (queueInv_more st F D X copied _ [(x, t)] [] Hq); cbn; rewrite ?E1, ?E2, ?E3, ?E4, ?E5; try done.
  - by apply insert_subseteq.
  - apply (qi_traced _ _ _ _ Hq).
  - intros a y [[_ <-]|[_ Ha]]%lookup_insert_Some; [right; exists t; by left|by left].
  - by left.
  - intros y t' [= -> ->]%list_elem_of_singleton. destruct Hlaid as (Hl & o & Ho & Hlay). exists w, o. split_and!; try done.
    left. by rewrite lookup_insert_eq.
  - by intros g ?%elem_of_nil.
Qed.

Lemma copied_progress : progress st F copied (<[w := x]> F).
Proof.
  destruct (rm_same _ _ _ _ Hroom) as (_ & E1 & E2 & E3 & E4 & E5). split; cbn; rewrite ?E1, ?E2, ?E3, ?E4, ?E5; try done.
  - by apply insert_subseteq.
  - exact (rm_rest _ _ _ _ Hroom).
  - unfold potential. rewrite (youngLeft_insert F w x o0) by done. unfold copied. cbn. rewrite ?E1, ?E2, ?E3, ?E4, ?E5, length_app. cbn.
    pose proof (qi_index _ _ _ _ Hq). lia.
  - by eexists.
Qed.

Lemma copied_words y o : objs st !! y = Some o -> from y = false -> objs copied !! y = Some o.
Proof.
  intros Hy Hfy. destruct (rm_new _ _ _ _ Hroom) as (_ & _ & ?). rewrite copied_other; congruence.
Qed.
End Copied.

Lemma forward_young st F D w o0 t : spacesInv st -> heapInv st F D -> H0 !! w = Some o0 -> from w = true -> F !! w = None ->
  exists x h h' st1, forward w t st = Some (x, copied st1 w x h h' o0 t) /\ roomMade st x h st1 /\
    serves room (youngLeft (<[w := x]> F)) (elder st1) /\ forwardsTo (mkObj h' (kind o0) (words o0)) x /\ region h' = YoungGen.
Proof.
  intros Hs Hh Ho0 Hf HF. destruct (hi_from _ _ _ Hh _ _ Ho0 Hf) as (o & Ho & Hk & Hw & _ & Hhd). rewrite HF in Hhd.
  destruct (sd_from Hsd _ _ Ho0 Hf) as ((n & Hn & Hrange) & Hreg). pose proof (sd_room Hsd _ _ _ Ho0 Hf Hn) as Hle.
  unfold forward. rewrite Ho. cbn [mbind option_bind]. rewrite Hhd, Hk, Hw.
  assert (Hnf : forwarded (hdr o0) = false).
  { unfold objSize in Hn. destruct (Z.eqb_spec (state_ (hdr o0)) 0) as [E0|]; [|done]. unfold forwarded. by rewrite E0. }
  rewrite Hnf, Hn. cbn [mbind option_bind].
  assert (Hplaced : exists x h st1, (if promotionAgeThreshold_ (pacing st) <=? age (incAge (hdr o0)) then promote o n st
     else match bumpAlloc (haven st) n with
          | Some (a, haven) => Some (a, setBits 54 4 (setBits 48 4 (ObjectHeader (totalSize n)) (age (incAge (hdr o0)))) YoungGen, setHaven haven st)
          | None => promote o n st end) = Some (x, h, st1) /\ roomMade st x h st1 /\ serves room (youngLeft (<[w := x]> F)) (elder st1)).
  { destruct (youngLeft F) as [|k] eqn:Ek; [by rewrite (youngLeft_insert F w 0 o0) in Ek|].
    assert (Hyl : forall x, youngLeft (<[w := x]> F) = k) by (intros x; rewrite (youngLeft_insert F w x o0) in Ek by done; lia).
    assert (Hp : exists x h st1, promote o n st = Some (x, h, st1) /\ roomMade st x h st1 /\ serves room (youngLeft (<[w := x]> F)) (elder st1)).
    { destruct (promote_room st F D k o n) as (x & h & st1 & ? & ? & ?); try done. exists x, h, st1. by rewrite Hyl. }
    destruct (_ <=? _); [done|]. destruct (bumpAlloc (haven st) n) as [[x hv]|] eqn:Eb; [|done].
    eexists _, _, _. split; [done|]. split; [by eapply bump_room|]. rewrite Hyl. apply serves_less.
    pose proof (hi_room _ _ _ Hh) as Hserve. by rewrite Ek in Hserve. }
  destruct Hplaced as (x & h & st1 & -> & Hroom & Hserve). cbn [mbind option_bind].
  destruct (rm_copy _ _ _ _ Hroom (kind o0) (words o0)) as (_ & Hlow & _).
  destruct (forward_low (incAge (hdr o0)) x Hlow) as (h' & -> & Hfd & Hfa & _ & _ & Hr & _). cbn [mbind option_bind].
  exists x, h, h', st1. split; [done|]. split_and!; try done. unfold region. rewrite Hr. destruct (incAge_fields (hdr o0)) as (_ & _ & _ & -> & _). done.
Qed.

Lemma relocate_young st F D X s w : minorInv st F D X -> carrier s = false -> w <> 0 -> targetOk s w -> from w = true -> F !! w = None ->
  relocates st F D X s w w.
Proof.
  intros (Hs & Hh & Hq) Hc Hw Ht Hf HF. unfold targetOk in Ht. rewrite Hc in Ht. destruct Ht as (Hlaid & _ & _).
  pose proof Hlaid as (Hl & o0 & Ho0 & _).
  destruct (forward_young st F D w o0 (refType s)) as (x & h & h' & st1 & Hfw & Hroom & Hserve & Hto & Hreg); try done.
  unfold relocates, relocateForMinor. rewrite Hc. replace (w =? 0) with false by lia.
  unfold forwardYoungRef. replace (w =? 0) with false by lia. rewrite (not_survivor st w o0) by done.
  destruct (hi_from _ _ _ Hh _ _ Ho0 Hf) as (o & Ho & _ & _ & Hr & _). rewrite Ho. cbn [mbind option_bind].
  rewrite (young_space st F D w o0 o) by done. rewrite Hfw. eexists x, _, (<[w := x]> F). split; [done|].
  split; [split; [|split]|split_and!].
  - by eapply copied_spaces.
  - by eapply copied_heap.
  - by eapply copied_queue.
  - by eapply copied_progress.
  - unfold slotDone. rewrite Hc. split; [intros _; rewrite lookup_insert_eq; by eexists|].
    intros Hin%(sd_fresh Hsd). destruct Hin. congruence.
  - by rewrite (reloc_Some _ w x) by apply lookup_insert_eq.
  - intros y oy Hy Hfy. by eapply copied_words.
Qed.

(** A reference as it may be found while its owner is updated: as it was, or updated already. *)
Definition current F s (w w' : Z) : Prop :=
  w' = w \/ (carrier s = false /\ w' = reloc F w /\ (from w = true -> is_Some (F !! w))).

Lemma relocate_ok st F D X s w w' : minorInv st F D X -> w <> 0 -> targetOk s w -> current F s w w' ->
  w' <> 0 /\ relocates st F D X s w w'.
Proof.
  intros Hinv Hw Ht Hcur. destruct (carrier s) eqn:Hc.
  { destruct Hcur as [->|(? & _)]; [|congruence]. split; [done|]. by apply relocate_carrier. }
  destruct (F !! w) as [x|] eqn:HF.
  - assert (Hw' : w' = w \/ w' = x) by (destruct Hcur as [?|(_ & -> & _)]; [by left|right; by apply reloc_Some]).
    assert (Hx : x <> 0).
    { destruct Hinv as (_ & Hh & _). destruct (hi_F _ _ _ Hh _ _ HF) as (_ & (o0 & _ & Ho0 & _)%live_object & _).
      destruct (hi_copy _ _ _ Hh _ _ _ HF Ho0) as (_ & _ & _ & (_ & [? _] & _) & _). lia. }
    assert (w' <> 0) by (destruct Hw' as [-> | ->]; done). split; [done|]. by eapply relocate_copied.
  - assert (w' = w) as -> by (destruct Hcur as [?|(_ & -> & _)]; [done|by apply reloc_None]). split; [done|].
    destruct (from w) eqn:Hf; [by apply relocate_young|by apply relocate_old].
Qed.

(** ** Updating an object *)

Definition owner F (a x : Z) (o0 : Obj Kind) : Prop := orig from F a x /\ live a /\ H0 !! a = Some o0.

Lemma owner_mono F F' a x o0 : F ⊆ F' -> owner F a x o0 -> owner F' a x o0.
Proof. intros HF (? & ? & ?). split_and!; try done. by eapply orig_mono. Qed.

Lemma slots_same a s s' : live a -> s ∈ Lay a -> s' ∈ Lay a -> slotIndex s = slotIndex s' -> s = s'.
Proof.
  intros Hl Hs Hs' He. pose proof (slots_distinct a Hl) as Hnd.
  apply list_elem_of_lookup in Hs as [i Hi]. apply list_elem_of_lookup in Hs' as [j Hj].
  assert (i = j) as ->; [|congruence]. eapply NoDup_lookup; [exact Hnd|..]; rewrite list_lookup_fmap.
  - by rewrite Hi.
  - rewrite Hj. cbn. by rewrite He.
Qed.

Lemma owner_word F a x o0 s : owner F a x o0 -> s ∈ Lay a -> exists w, words o0 !! slotIndex s = Some w /\ (w <> 0 -> targetOk s w).
Proof. intros (_ & (o & t & Ho & _ & Hw)%(sd_live Hsd) & Ho0) Hs. replace o0 with o by congruence. by apply Hw. Qed.

Lemma owner_not_from st F D a x o0 : heapInv st F D -> owner F a x o0 -> from x = false.
Proof. intros Hh ([Ha|[? ->]] & _); [by apply (hi_F _ _ _ Hh _ _ Ha)|done]. Qed.

Lemma owner_object st F D a x o0 : heapInv st F D -> owner F a x o0 -> exists o, objs st !! x = Some o /\ kind o = kind o0 /\
  slotsRel from F (x ∈ D) (Lay a) (words o0) (words o) /\
  (forall s, s ∈ Lay a -> carrier s = true -> words o !! slotIndex s = words o0 !! slotIndex s).
Proof.
  intros Hh (Ho & Hl & Ho0). destruct (live_object _ Hl) as (o1 & t & Ho1 & Ht). assert (o1 = o0) as -> by congruence.
  assert (Hother : forall s, s ∈ Lay a -> carrier s = true -> forall s', s' ∈ Lay a -> carrier s' = false -> slotIndex s' <> slotIndex s).
  { intros s Hs Hc s' Hs' Hc' He. rewrite (slots_same a s' s) in Hc' by done. congruence. }
  destruct Ho as [Ha|[Hf ->]].
  - destruct (hi_copy _ _ _ Hh _ _ _ Ha Ho0) as (n & Hn & Hk & _ & Hr & _ & Hsame). exists n. split_and!; try done.
    intros s Hs Hc. rewrite Hsame by by apply Hother. rewrite onMoved_slots with (t := t); [done|]. by rewrite Ht.
  - destruct (hi_old _ _ _ Hh _ _ Ho0 Hf) as (o & Hn & Hk & _ & Hrest). destruct (Hrest Hl) as [Hr [_ Hsame]].
    exists o. split_and!; try done. intros s Hs Hc. by rewrite Hsame by by apply Hother.
Qed.

(** The current word of a slot. *)
Lemma owner_current st F D a x o0 o s w : heapInv st F D -> owner F a x o0 -> objs st !! x = Some o -> s ∈ Lay a ->
  words o0 !! slotIndex s = Some w -> exists w', words o !! slotIndex s = Some w' /\ current F s w w'.
Proof.
  intros Hh Hown Ho Hs Hw. destruct (owner_object _ _ _ _ _ _ Hh Hown) as (o' & Ho' & _ & Hr & Hc). assert (o' = o) as -> by congruence.
  destruct (carrier s) eqn:Ec.
  - exists w. rewrite Hc by done. split; [done|]. by left.
  - destruct (Hr s w Hs Ec Hw) as [[Hw' _]|[Hw' HF]]; [exists w|exists (reloc F w)]; (split; [done|]); [by left|by right].
Qed.

Lemma reloc_same st F D w : heapInv st F D -> from w = false -> reloc F w = w.
Proof.
  intros Hh Hf. apply reloc_None. destruct (F !! w) eqn:HF; [|done]. destruct (hi_F _ _ _ Hh _ _ HF). congruence.
Qed.

Lemma reloc_mono st' F F' D w : heapInv st' F' D -> F ⊆ F' -> (from w = true -> is_Some (F !! w)) -> reloc F' w = reloc F w.
Proof.
  intros Hh HF Hw. destruct (from w) eqn:Hf.
  - destruct (Hw eq_refl) as [y Hy]. rewrite (reloc_Some _ _ _ Hy). apply reloc_Some. by eapply lookup_weaken.
  - rewrite (reloc_same _ _ _ _ Hh Hf). symmetry. apply reloc_None. destruct (F !! w) as [y|] eqn:Hy; [|done].
    destruct (hi_F _ _ _ Hh w y); [by eapply lookup_weaken|congruence].
Qed.

Definition setWord (x : Z) (i : nat) (v : Z) (o : Obj Kind) st : GC Kind Ty E LO :=
  setObjs (<[x := mkObj (hdr o) (kind o) (<[i := v]> (words o))]> (objs st)) st.

Lemma slotsRel_write F b a s w ws0 ws : live a -> s ∈ Lay a -> carrier s = false -> ws0 !! slotIndex s = Some w ->
  (from w = true -> is_Some (F !! w)) -> slotsRel from F b (Lay a) ws0 ws ->
  slotsRel from F b (Lay a) ws0 (<[slotIndex s := reloc F w]> ws).
Proof.
  intros Hl Hs Hc Hw HF Hr s' w' Hs' Hc' Hw'. destruct (decide (slotIndex s = slotIndex s')) as [He|Hne].
  - right. rewrite <- He in Hw' |- *. assert (w' = w) as -> by congruence. split; [|done].
    rewrite list_lookup_insert_eq; [done|]. destruct (Hr s w Hs Hc Hw) as [[Hlk _]|[Hlk _]]; by apply lookup_lt_Some in Hlk.
  - rewrite list_lookup_insert_ne by done. by apply Hr.
Qed.

Lemma othersSame_write slots base ws s v : s ∈ slots -> carrier s = false -> othersSame slots base ws ->
  othersSame slots base (<[slotIndex s := v]> ws).
Proof.
  intros Hs Hc [Hlen Hi]. split; [by rewrite length_insert|]. intros i Hni.
  rewrite list_lookup_insert_ne; [by apply Hi|by apply Hni].
Qed.

Lemma write_inv st F D X a x o0 o s w : minorInv st F D X -> owner F a x o0 -> objs st !! x = Some o -> s ∈ Lay a -> carrier s = false ->
  words o0 !! slotIndex s = Some w -> (from w = true -> is_Some (F !! w)) -> minorInv (setWord x (slotIndex s) (reloc F w) o st) F D X.
Proof.
  intros (Hs & Hh & Hq) Hown Ho Hin Hc Hw HF. pose proof (owner_not_from _ _ _ _ _ _ Hh Hown) as Hfx. destruct Hown as (Hor & Hl & Ho0).
  unfold setWord. split; [|split].
  - destruct Hs as [S1 S2 S3 S4 S5 S6 S7 S8]. split; try done. cbn. intros y [Hy|Hy]%lookup_insert_is_Some'; [|by apply S5].
    subst y. apply S5. by eexists.
  - split; cbn; try apply Hh.
    + intros b ob Hb Hfb. rewrite lookup_insert_ne by (intros ->; congruence). by apply (hi_from _ _ _ Hh).
    + intros b y ob Hb Hob. destruct (hi_copy _ _ _ Hh _ _ _ Hb Hob) as (n & Hn & Hk & Hcp & Hr & Hsame).
      destruct (decide (x = y)) as [<-|Hne]; [|exists n; by rewrite lookup_insert_ne].
      rewrite lookup_insert_eq. eexists. split; [done|]. assert (n = o) as -> by congruence. cbn.
      assert (b = a) as ->.
      { destruct Hor as [Ha|[_ ->]]; [by eapply (hi_inj _ _ _ Hh)|]. destruct (hi_F _ _ _ Hh _ _ Hb) as (_ & _ & _ & ?). congruence. }
      assert (ob = o0) as -> by congruence. split_and!; try done; [by apply slotsRel_write|by apply othersSame_write].
    + intros b ob Hob Hfb. destruct (hi_old _ _ _ Hh _ _ Hob Hfb) as (n & Hn & Hk & Hhd & Hrest).
      destruct (decide (x = b)) as [<-|Hne]; [|exists n; by rewrite lookup_insert_ne].
      rewrite lookup_insert_eq. eexists. split; [done|]. assert (n = o) as -> by congruence. cbn. split_and!; try done.
      intros Hlb. assert (x = a) as ->.
      { destruct Hor as [Ha|[_ ->]]; [|done]. destruct (hi_F _ _ _ Hh _ _ Ha) as (_ & _ & _ & ?). congruence. }
      assert (ob = o0) as -> by congruence. destruct (Hrest Hlb). split; [by apply slotsRel_write|by apply othersSame_write].
    + intros y [Hy|Hy]%lookup_insert_is_Some'; [|by apply (hi_dom _ _ _ Hh)]. subst y. apply (hi_dom _ _ _ Hh). by eexists.
    + intros p Hp. rewrite lookup_insert_is_Some'. right. by apply (hi_housed _ _ _ Hh).
  - destruct Hq. by split.
Qed.

Lemma write_progress st F x i v o : progress st F (setWord x i v o st) F.
Proof. split; try done. exists []. by rewrite app_nil_r. Qed.

(** A reference of [x] is up to date. *)
Definition slotFine st F x s (w : Z) : Prop :=
  (w <> 0 -> slotDone st F s w) /\
  (carrier s = false -> (from w = true -> is_Some (F !! w)) /\ exists o, objs st !! x = Some o /\ words o !! slotIndex s = Some (reloc F w)).

Lemma slotFine_mono st F st' F' D x s w : heapInv st' F' D -> progress st F st' F' ->
  (forall o, objs st !! x = Some o -> exists o', objs st' !! x = Some o' /\ words o' !! slotIndex s = words o !! slotIndex s) ->
  slotFine st F x s w -> slotFine st' F' x s w.
Proof.
  intros Hh Hp Ho [H1 H2]. split; [intros Hw; eapply slotDone_mono; eauto|]. intros Hc. destruct (H2 Hc) as (HF & o & Hx & Hw).
  pose proof (pg_F _ _ _ _ Hp) as HFF. split.
  - intros Hf. destruct (HF Hf) as [y Hy]. exists y. by eapply lookup_weaken.
  - destruct (Ho o Hx) as (o' & Hx' & Heq). exists o'. split; [done|]. by rewrite Heq, Hw, (reloc_mono st' F F' D w).
Qed.

Lemma updateRef_ok st F D X a x o0 s w : minorInv st F D X -> owner F a x o0 -> s ∈ Lay a -> words o0 !! slotIndex s = Some w ->
  exists st' F', updateRef relocateForMinor x s st = Some st' /\ minorInv st' F' D X /\ progress st F st' F' /\ slotFine st' F' x s w /\
    (forall i o, i <> slotIndex s -> objs st !! x = Some o -> exists o', objs st' !! x = Some o' /\ words o' !! i = words o !! i).
Proof.
  intros Hinv Hown Hin Hw. pose proof Hinv as (Hs & Hh & Hq). pose proof (owner_not_from _ _ _ _ _ _ Hh Hown) as Hfx.
  destruct (owner_object _ _ _ _ _ _ Hh Hown) as (o & Ho & _).
  destruct (owner_current _ _ _ _ _ _ _ _ _ Hh Hown Ho Hin Hw) as (w' & Hw' & Hcur).
  unfold updateRef. rewrite Ho. cbn [mbind option_bind]. rewrite Hw'. cbn [mbind option_bind].
  destruct (owner_word _ _ _ _ _ Hown Hin) as (w1 & Hw1 & Htgt). assert (w1 = w) as -> by congruence.
  destruct (decide (w = 0)) as [->|Hne].
  - assert (HF0 : reloc F 0 = 0) by (eapply reloc_same, (sd_null Hsd); done).
    assert (w' = 0) as -> by (destruct Hcur as [?|(_ & -> & _)]; done). cbn. exists st, F. split_and!; try done; [apply progress_refl| |intros i o1 _ [= <-]; by exists o].
    split; [done|]. intros _. rewrite (proj2 (sd_null Hsd)). split; [done|]. exists o. by rewrite HF0.
  - destruct (relocate_ok st F D X s w w' Hinv Hne (Htgt Hne) Hcur) as (Hne' & r & st1 & F1 & Er & Hinv1 & Hp1 & Hd1 & Hr & Hkeep).
    replace (w' =? 0) with false by lia. rewrite Er. cbn [mbind option_bind]. specialize (Hkeep x o Ho Hfx).
    destruct (carrier s) eqn:Hc.
    + exists st1, F1. split_and!; try done; [|intros i o1 _ [= <-]; by exists o]. split; [done|]. congruence.
    + rewrite Hkeep. cbn [mbind option_bind]. rewrite Hr. pose proof Hd1 as Hd. unfold slotDone in Hd1. rewrite Hc in Hd1. destruct Hd1 as [HF1 _].
      exists (setWord x (slotIndex s) (reloc F1 w) o st1), F1. split; [done|]. split_and!.
      * eapply write_inv; try done. eapply owner_mono; [apply Hp1|done].
      * eapply progress_trans; [done|apply write_progress].
      * split; [done|]. intros _. split; [done|]. eexists. cbn. rewrite lookup_insert_eq. split; [done|]. cbn.
        apply list_lookup_insert_eq. by eapply lookup_lt_Some.
      * intros i oo Hi Hoo. assert (oo = o) as -> by congruence. eexists. cbn. rewrite lookup_insert_eq. split; [done|]. cbn.
        by apply list_lookup_insert_ne.
Qed.

Lemma updateSlots_ok a x o0 l : forall dl st F D X, minorInv st F D X -> owner F a x o0 -> Lay a = dl ++ l ->
  (forall s w, s ∈ dl -> words o0 !! slotIndex s = Some w -> slotFine st F x s w) ->
  exists st' F', updateSlots relocateForMinor x l st = Some st' /\ minorInv st' F' D X /\ progress st F st' F' /\
    (forall s w, s ∈ Lay a -> words o0 !! slotIndex s = Some w -> slotFine st' F' x s w).
Proof.
  induction l as [|s l IH]; intros dl st F D X Hinv Hown Hlay Hdl.
  - exists st, F. split_and!; try done; [apply progress_refl|]. by rewrite Hlay, app_nil_r.
  - assert (Hin : s ∈ Lay a) by (rewrite Hlay; set_solver).
    destruct (owner_word _ _ _ _ _ Hown Hin) as (w & Hw & _).
    destruct (updateRef_ok st F D X a x o0 s w) as (st1 & F1 & Eu & Hinv1 & Hp1 & Hfine & Hkeep); try done.
    cbn [updateSlots]. rewrite Eu. cbn [mbind option_bind].
    destruct (IH (dl ++ [s]) st1 F1 D X) as (st2 & F2 & Eu2 & Hinv2 & Hp2 & Hall).
    + done.
    + eapply owner_mono; [apply Hp1|done].
    + by rewrite Hlay, <- app_assoc.
    + intros s' w' [Hs'|Hs'%list_elem_of_singleton]%elem_of_app Hw'; [|subst s'; by replace w' with w by congruence].
      eapply slotFine_mono; [apply Hinv1|exact Hp1| |by apply Hdl]. intros o Ho. apply Hkeep; [|done].
      destruct Hown as (_ & Hl & _). pose proof (slots_distinct a Hl) as Hnd. rewrite Hlay, fmap_app in Hnd. cbn in Hnd.
      apply NoDup_app in Hnd as (_ & Hnd & _). intros He. apply (Hnd (slotIndex s')); [apply list_elem_of_fmap; eauto|rewrite He; left].
    + exists st2, F2. split_and!; try done. by eapply progress_trans.
Qed.

(** When all references of an object are up to date, it is done. *)
Lemma blacken st F D X a x o0 : minorInv st F D ({[x]} ∪ X) -> owner F a x o0 ->
  (forall s w, s ∈ Lay a -> words o0 !! slotIndex s = Some w -> slotFine st F x s w) -> minorInv st F ({[x]} ∪ D) X.
Proof.
  intros (Hs & Hh & Hq) Hown Hfine. pose proof (owner_not_from _ _ _ _ _ _ Hh Hown) as Hfx.
  assert (Hrel : forall o, objs st !! x = Some o -> slotsRel from F (x ∈ {[x]} ∪ D) (Lay a) (words o0) (words o)).
  { intros o Ho s w Hin Hc Hw. right. destruct (Hfine s w Hin Hw) as [_ Hf]. destruct (Hf Hc) as (HF & o' & Ho' & Hw').
    assert (o' = o) as -> by congruence. done. }
  assert (Hmove : forall y ws0 ws slots, y <> x -> slotsRel from F (y ∈ D) slots ws0 ws -> slotsRel from F (y ∈ {[x]} ∪ D) slots ws0 ws).
  { intros y ws0 ws slots Hne Hr s w Hin Hc Hw. destruct (Hr s w Hin Hc Hw) as [[? ?]|?]; [left|by right]. split; [done|set_solver]. }
  split; [done|]. split; split; try apply Hh; try apply Hq.
  - intros b y ob Hb Hob. destruct (hi_copy _ _ _ Hh _ _ _ Hb Hob) as (n & Hn & Hk & Hc & Hr & Hsame). exists n. split_and!; try done.
    destruct (decide (y = x)) as [->|]; [|by apply Hmove]. assert (b = a) as ->.
    { destruct Hown as ([Ha|[_ ->]] & _ & Ho0); [by eapply (hi_inj _ _ _ Hh)|]. destruct (hi_F _ _ _ Hh _ _ Hb) as (_ & _ & _ & ?). congruence. }
    destruct Hown as (_ & _ & Ho0). assert (ob = o0) as -> by congruence. by apply Hrel.
  - intros b ob Hob Hfb. destruct (hi_old _ _ _ Hh _ _ Hob Hfb) as (n & Hn & Hk & Hhd & Hrest). exists n. split_and!; try done.
    intros Hl. destruct (Hrest Hl) as [Hr Hsame]. split; [|done]. destruct (decide (b = x)) as [->|]; [|by apply Hmove].
    destruct Hown as ([Ha|[_ ->]] & _ & Ho0); [destruct (hi_F _ _ _ Hh _ _ Ha) as (_ & _ & _ & ?); congruence|].
    assert (ob = o0) as -> by congruence. by apply Hrel.
  - intros y [->%elem_of_singleton|Hy]%elem_of_union; [|by apply (qi_black _ _ _ _ Hq)]. destruct Hown as (Hor & Hl & Ho0).
    exists a, o0. split_and!; try done. intros s w Hin Hw Hne. destruct (Hfine s w Hin Hw) as [Hd _]. specialize (Hd Hne).
    unfold slotDone in Hd. destruct (carrier s); [done|by destruct Hd].
  - intros b y Hb. destruct (qi_copies _ _ _ _ Hq _ _ Hb) as [?|[?|?]]; set_solver.
  - split; [apply Hq|]. intros y Hy Hy'. destruct (proj2 (qi_fresh _ _ _ _ Hq) y Hy Hy') as [?|[?|?]]; set_solver.
  - split; [apply Hq|]. intros g Hg. destruct (proj2 (qi_traced _ _ _ _ Hq) g Hg) as [?|[?|?]]; set_solver.
Qed.

Lemma updateRefs_ok st F D X a x o0 t : minorInv st F D ({[x]} ∪ X) -> owner F a x o0 -> slotsOf (kind o0) t = Lay a ->
  exists st' F', updateRefs relocateForMinor x t st = Some st' /\ minorInv st' F' ({[x]} ∪ D) X /\ progress st F st' F'.
Proof.
  intros Hinv Hown Hlay. destruct (owner_object st F D a x o0) as (o & Ho & Hk & _); [apply Hinv|done|].
  destruct (updateSlots_ok a x o0 (Lay a) [] st F D ({[x]} ∪ X)) as (st' & F' & Eu & Hinv' & Hp & Hall); try done; [by intros s w ?%elem_of_nil|].
  unfold updateRefs. rewrite Ho. cbn [mbind option_bind]. rewrite Hk, Hlay. exists st', F'. split_and!; try done.
  eapply blacken; [done| |done]. eapply owner_mono; [apply Hp|done].
Qed.
End Fixed.
End MinorInv.

Arguments sd_live {_ _ _ _ _ _ _ _ _ _ _} _.
Arguments sd_from {_ _ _ _ _ _ _ _ _ _ _} _.
Arguments sd_room {_ _ _ _ _ _ _ _ _ _ _} _.
Arguments sd_graph {_ _ _ _ _ _ _ _ _ _ _} _.
Arguments sd_fresh {_ _ _ _ _ _ _ _ _ _ _} _.
Arguments sd_null {_ _ _ _ _ _ _ _ _ _ _} _.
Arguments sp_from {_ _ _ _ _ _ _ _ _} _.
Arguments sp_haven {_ _ _ _ _ _ _ _ _} _.
Arguments sp_apart {_ _ _ _ _ _ _ _ _} _.
Arguments sp_elder {_ _ _ _ _ _ _ _ _} _.
Arguments sp_avoids {_ _ _ _ _ _ _ _ _} _.
Arguments sp_young {_ _ _ _ _ _ _ _ _} _.
Arguments sp_survivors {_ _ _ _ _ _ _ _ _} _.
Arguments sp_graphs {_ _ _ _ _ _ _ _ _} _.
Arguments hi_from {_ _ _ _ _ _ _ _ _ _ _ _ _ _} _.
Arguments hi_F {_ _ _ _ _ _ _ _ _ _ _ _ _ _} _.
Arguments hi_inj {_ _ _ _ _ _ _ _ _ _ _ _ _ _} _.
Arguments hi_copy {_ _ _ _ _ _ _ _ _ _ _ _ _ _} _.
Arguments hi_old {_ _ _ _ _ _ _ _ _ _ _ _ _ _} _.
Arguments hi_dom {_ _ _ _ _ _ _ _ _ _ _ _ _ _} _.
Arguments hi_room {_ _ _ _ _ _ _ _ _ _ _ _ _ _} _.
Arguments hi_housed {_ _ _ _ _ _ _ _ _ _ _ _ _ _} _.
Arguments qi_black {_ _ _ _ _ _ _ _ _ _ _ _ _ _ _} _.
Arguments qi_copies {_ _ _ _ _ _ _ _ _ _ _ _ _ _ _} _.
Arguments qi_fresh {_ _ _ _ _ _ _ _ _ _ _ _ _ _ _} _.
Arguments qi_traced {_ _ _ _ _ _ _ _ _ _ _ _ _ _ _} _.
Arguments qi_queue {_ _ _ _ _ _ _ _ _ _ _ _ _ _ _} _.
Arguments qi_graphs {_ _ _ _ _ _ _ _ _ _ _ _ _ _ _} _.
Arguments qi_index {_ _ _ _ _ _ _ _ _ _ _ _ _ _ _} _.
Arguments qi_listed {_ _ _ _ _ _ _ _ _ _ _ _ _ _ _} _.
Arguments pg_F {_ _ _ _ _ _ _ _ _ _ _ _} _.
Arguments pg_rest {_ _ _ _ _ _ _ _ _ _ _ _} _.
Arguments pg_traced {_ _ _ _ _ _ _ _ _ _ _ _} _.
Arguments pg_fresh {_ _ _ _ _ _ _ _ _ _ _ _} _.
Arguments pg_potential {_ _ _ _ _ _ _ _ _ _ _ _} _.
Arguments pg_scan {_ _ _ _ _ _ _ _ _ _ _ _} _.
