(* ===== verification/GcMinorOk.v ===== *)
(** * The minor collection

    The phases of [minorGC] keep the invariant of GcMinorInv.v, and the scan ends with nothing left
    to do. What they leave is put together in [minorGC_collects]: for a heap that is [ready], the
    collection returns, moves every object that the roots reach to one place of its own, with its
    references moved along, empties the spaces it has left, and the heap is [ready] again. *)

From stdpp Require Import gmap fin_sets.
From S2P Require Import Prelude ObjHeader BumpPtr GcState GcPacing GcMinor GcMinorInv.
#[local] Open Scope Z_scope.

Section MinorOk.
Context {Kind Ty E LO : Type} `{Layout Kind Ty} `{!OldSpace E} `{!OldSpace LO}.
Implicit Types (st : GC Kind Ty E LO) (F : gmap Z Z) (D X : gset Z) (s : Slot Ty).

(** ** The phases *)

Section Fixed.
Context (H0 : gmap Z (Obj Kind)) (G0 fresh0 rooted : gset Z) (from : Z -> bool) (Lay : Z -> list (Slot Ty)) (live : Z -> Prop) (room : Z).
Context (Hsd : started H0 G0 fresh0 rooted from Lay live room).
#[local] Abbreviation minorInv := (minorInv H0 G0 fresh0 from Lay live room).
#[local] Abbreviation progress := (progress H0 G0 from).
#[local] Abbreviation potential := (potential H0 G0 from).
#[local] Abbreviation laid := (laid H0 Lay live).
#[local] Abbreviation targetOk := (targetOk H0 G0 rooted Lay live).

Lemma minorInv_more st F D X Y : X ⊆ Y -> minorInv st F D X -> minorInv st F D Y.
Proof.
  intros HX (Hs & Hh & [Q1 Q2 [Q3 Q4] [Q5 Q6] Q7 Q8 Q9 Q10]). split; [done|]. split; [done|]. split; try done.
  - intros a x Ha. destruct (Q2 a x Ha) as [?|[?|?]]; auto.
  - split; [done|]. intros x Hx Hx'. destruct (Q4 x Hx Hx') as [?|[?|?]]; auto.
  - split; [done|]. intros g Hg. destruct (Q6 g Hg) as [?|[?|?]]; auto.
Qed.

Lemma laid_owner F t a : laid t a -> from a = false -> exists o0, owner H0 from live F a a o0 /\ slotsOf (kind o0) t = Lay a.
Proof. intros (Hl & o0 & Ho0 & Ht) Hf. exists o0. split; [|done]. split_and!; try done. by right. Qed.

(** The update of an object that does not move. *)
Lemma updateOld_ok st F D a t : minorInv st F D ∅ -> laid t a -> from a = false ->
  exists st' F', updateRefs relocateForMinor a t st = Some st' /\ minorInv st' F' ({[a]} ∪ D) ∅ /\ progress st F st' F'.
Proof.
  intros Hinv Hl Hf. destruct (laid_owner F t a Hl Hf) as (o0 & Hown & Ht).
  eapply updateRefs_ok; try done. eapply minorInv_more; [|done]. set_solver.
Qed.

(** The object roots. *)
Definition rootOk (r : Z) : Prop := r = 0 \/ (r ∈ G0 /\ laid None r).

Lemma trace_mark st F D r : minorInv st F D ∅ -> r ∈ G0 -> r ∉ minorTracedGraphs st ->
  let st' := setMinorTracedGraphs ({[r]} ∪ minorTracedGraphs st) st in minorInv st' F D {[r]} /\ progress st F st' F.
Proof.
  intros Hinv Hg Hn st'. apply (minorInv_more _ _ _ _ {[r]}) in Hinv; [|set_solver].
  destruct Hinv as (Hs & Hh & [Q1 Q2 Q3 [Q5 Q6] Q7 Q8 Q9 Q10]). split.
  - split; [destruct Hs; by split|]. split; [destruct Hh; by split|]. split; try done; cbn.
    + intros x Hx. destruct (Q1 x Hx) as (a & o0 & Ho & Hl & Ho0 & Hsl). exists a, o0. split_and!; try done.
      intros s w Hin Hw Hne. specialize (Hsl s w Hin Hw Hne). destruct (carrier s); set_solver.
    + split; [set_solver|]. intros g [->%elem_of_singleton|Hg']%elem_of_union; [set_solver|by apply Q6].
  - split; try done; cbn; [set_solver| |exists []; by rewrite app_nil_r]. unfold GcMinorInv.potential. cbn.
    rewrite (size_without (G0 ∖ minorTracedGraphs st) (G0 ∖ ({[r]} ∪ minorTracedGraphs st)) r); [lia|set_solver..|].
    intros y. destruct (decide (y = r)) as [->|]; set_solver.
Qed.

Lemma traceRootSets_ok roots : forall done st F D, minorInv st F D ∅ -> Forall rootOk roots ->
  exists st' F' D', traceRootSets roots done st = Some (done ++ roots, st') /\ minorInv st' F' D' ∅ /\ progress st F st' F' /\ D ⊆ D' /\
    (forall r, r ∈ roots -> r <> 0 -> r ∈ minorTracedGraphs st').
Proof.
  induction roots as [|r roots IH]; intros l st F D Hinv Hroots; cbn [traceRootSets].
  - exists st, F, D. rewrite app_nil_r. split_and!; try done; [apply progress_refl|]. by intros r ?%elem_of_nil.
  - apply Forall_cons in Hroots as [Hr Hroots]. destruct (Z.eqb_spec r 0) as [->|Hr0].
    + destruct (IH (l ++ [0]) st F D Hinv Hroots) as (st' & F' & D' & Er & Hinv' & Hp & HD & Hall).
      exists st', F', D'. rewrite Er, <- app_assoc. split_and!; try done. intros r' [->|?]%elem_of_cons ?; [done|by apply Hall].
    + destruct Hr as [?|[Hg Hlaid]]; [done|]. destruct (sd_graph Hsd _ Hg) as (Hf & Hfr & _).
      pose proof Hinv as (Hs & Hh & Hq).
      rewrite (forwardYoungRef_old H0 G0 fresh0 rooted from Lay live room Hsd st F D) by done.
      rewrite bool_decide_eq_false_2 by (intros ?%(proj1 (qi_fresh Hq)); done). cbn [mbind option_bind].
      destruct (decide (r ∈ minorTracedGraphs st)) as [Hin|Hin].
      * rewrite bool_decide_eq_true_2 by done. cbn [mbind option_bind].
        destruct (IH (l ++ [r]) st F D Hinv Hroots) as (st' & F' & D' & Er & Hinv' & Hp & HD & Hall).
        exists st', F', D'. rewrite Er, <- app_assoc. split_and!; try done. intros r' [->|?]%elem_of_cons ?; [|by apply Hall].
        by apply (pg_traced Hp).
      * rewrite bool_decide_eq_false_2 by done. destruct (trace_mark st F D r) as [Hinv1 Hp1]; try done.
        destruct (laid_owner F None r Hlaid Hf) as (o0 & Hown & Ht).
        destruct (updateRefs_ok H0 G0 fresh0 rooted from Lay live room Hsd
          (setMinorTracedGraphs ({[r]} ∪ minorTracedGraphs st) st) F D ∅ r r o0 None) as (st1 & F1 & Eu & Hinv2 & Hp2); try done.
        { by rewrite union_empty_r_L. }
        rewrite Eu. cbn [mbind option_bind].
        destruct (IH (l ++ [r]) st1 F1 ({[r]} ∪ D) Hinv2 Hroots) as (st' & F' & D' & Er & Hinv' & Hp & HD & Hall).
        exists st', F', D'. rewrite Er, <- app_assoc. split_and!; try done; [|set_solver|].
        -- eapply progress_trans; [exact Hp1|]. by eapply progress_trans.
        -- intros r' [->|?]%elem_of_cons ?; [|by apply Hall]. apply (pg_traced Hp), (pg_traced Hp2). cbn. set_solver.
Qed.

(** The tracers and handles. *)
Definition cellSlot (c : Cell Ty) : Slot Ty := mkSlot 0 (cellType c) (cellCarrier c).
Definition cellOk (c : Cell Ty) : Prop := cellRef c <> 0 -> targetOk (cellSlot c) (cellRef c).
Definition movedCell F (c : Cell Ty) : Cell Ty :=
  mkCell (if cellCarrier c then cellRef c else reloc F (cellRef c)) (cellType c) (cellCarrier c).

Definition cellDone st F (c : Cell Ty) : Prop := cellRef c <> 0 -> slotDone G0 fresh0 from st F (cellSlot c) (cellRef c).

Lemma movedCell_mono st F st' F' D X c : minorInv st' F' D X -> progress st F st' F' -> cellDone st F c -> movedCell F' c = movedCell F c.
Proof.
  intros (_ & Hh & _) Hp Hd. unfold movedCell. destruct (cellCarrier c) eqn:Hc; [done|]. f_equal.
  destruct (decide (cellRef c = 0)) as [->|Hne].
  - assert (HN : F' !! 0 = None).
    { destruct (F' !! 0) eqn:HF; [|done]. destruct (hi_F Hh _ _ HF) as (? & _). rewrite (proj2 (sd_null Hsd)) in *. done. }
    rewrite (reloc_None _ _ HN). symmetry. apply reloc_None. eapply lookup_weaken_None; [done|apply Hp].
  - eapply (reloc_mono H0 from Lay live room st'); [exact Hh|apply Hp|]. specialize (Hd Hne). unfold slotDone, cellSlot in Hd. cbn in Hd. rewrite Hc in Hd. apply Hd.
Qed.

Lemma traceCells_ok l : forall done st F D, minorInv st F D ∅ -> Forall cellOk l ->
  exists st' F', traceCells l done st = Some (done ++ (movedCell F' <$> l), st') /\ minorInv st' F' D ∅ /\ progress st F st' F' /\
    Forall (cellDone st' F') l.
Proof.
  induction l as [|c l IH]; intros k st F D Hinv Hcells; cbn [traceCells].
  - exists st, F. cbn. rewrite app_nil_r. split_and!; try done. apply progress_refl.
  - apply Forall_cons in Hcells as [Hc Hcells].
    assert (Hcell : exists r st1 F1, (if cellRef c =? 0 then Some (0, st) else relocateForMinor st (cellRef c) (cellType c) (cellCarrier c)) = Some (r, st1) /\
      minorInv st1 F1 D ∅ /\ progress st F st1 F1 /\ cellDone st1 F1 c /\ mkCell r (cellType c) (cellCarrier c) = movedCell F1 c).
    { destruct (Z.eqb_spec (cellRef c) 0) as [E0|Hne].
      - exists 0, st, F. split_and!; try done; [apply progress_refl|by intros ?|]. unfold movedCell. rewrite E0. f_equal. destruct (cellCarrier c); [done|].
        destruct Hinv as (_ & Hh & _). symmetry. eapply (reloc_same H0 from Lay live room st); [exact Hh|]. apply (sd_null Hsd).
      - destruct (relocate_ok H0 G0 fresh0 rooted from Lay live room Hsd st F D ∅ (cellSlot c) (cellRef c) (cellRef c))
          as (_ & r & st1 & F1 & Er & Hinv1 & Hp & Hd & Hr & _); [done|done|by apply Hc|by left|].
        exists r, st1, F1. split_and!; try done; [by intros ?|]. unfold movedCell. by rewrite Hr. }
    destruct Hcell as (r & st1 & F1 & -> & Hinv1 & Hp1 & Hd1 & Hr). cbn [mbind option_bind].
    destruct (IH (k ++ [mkCell r (cellType c) (cellCarrier c)]) st1 F1 D Hinv1 Hcells) as (st' & F' & Er & Hinv' & Hp & Hall).
    exists st', F'. rewrite Er. split_and!; [|done|by eapply progress_trans|].
    + rewrite <- app_assoc. cbn. rewrite Hr. by rewrite (movedCell_mono st1 F1 st' F' D ∅ c) by done.
    + constructor; [|done]. intros Hne. eapply slotDone_mono; [done|by apply Hd1].
Qed.

(** The remembered objects. *)
Lemma traceRemembered_ok l : forall st F D, minorInv st F D ∅ -> Forall (fun e : Z * option Ty => laid e.2 e.1 /\ from e.1 = false) l ->
  exists st' F' D', traceRemembered l st = Some st' /\ minorInv st' F' D' ∅ /\ progress st F st' F' /\ D ⊆ D' /\ forall a, a ∈ l.*1 -> a ∈ D'.
Proof.
  induction l as [|[a t] l IH]; intros st F D Hinv Hall; cbn [traceRemembered].
  - exists st, F, D. split_and!; try done; [apply progress_refl|]. by intros a ?%elem_of_nil.
  - apply Forall_cons in Hall as [[Hl Hf] Hall]. destruct (updateOld_ok st F D a t) as (st1 & F1 & Eu & Hinv1 & Hp1); try done.
    rewrite Eu. cbn [mbind option_bind]. destruct (IH st1 F1 _ Hinv1 Hall) as (st' & F' & D' & Er & Hinv' & Hp & HD & Hin).
    exists st', F', D'. split_and!; try done; [by eapply progress_trans|set_solver|].
    intros b [->|Hb]%elem_of_cons; [set_solver|by apply Hin].
Qed.

(** ** The scan *)

Lemma scan_pop st F D a t : minorInv st F D ∅ -> relocationScan st !! relocationScanIndex st = Some (a, t) ->
  let st1 := setRelocationScanIndex (S (relocationScanIndex st)) st in
  minorInv st1 F D ({[a]} ∪ ∅) /\ progress st F st1 F /\ (S (potential st1 F) <= potential st F)%nat /\
  exists b o0, owner H0 from live F b a o0 /\ slotsOf (kind o0) t = Lay b.
Proof.
  intros (Hs & Hh & [Q1 Q2 [Q3 Q4] [Q5 Q6] Q7 Q8 Q9 Q10]) Hi st1. pose proof (lookup_lt_Some _ _ _ Hi) as Hlt.
  assert (Hq : forall x, queued st x -> x = a \/ queued st1 x).
  { intros x [u Hu]. unfold queued in *. rewrite (drop_S _ _ _ Hi) in Hu. apply elem_of_cons in Hu as [[= -> ->]|Hu]; [by left|right].
    by exists u. }
  split_and!.
  - split; [destruct Hs; by split|]. split; [destruct Hh; by split|]. split; try done.
    + intros b x Hb. destruct (Q2 b x Hb) as [?|[?|[->|?]%Hq]]; set_solver.
    + split; [done|]. intros x Hx Hx'. destruct (Q4 x Hx Hx') as [?|[?|[->|?]%Hq]]; set_solver.
    + split; [done|]. intros g Hg. destruct (Q6 g Hg) as [?|[?|?]]; set_solver.
  - split; try done; [|exists []; by rewrite app_nil_r]. unfold GcMinorInv.potential. cbn. lia.
  - unfold GcMinorInv.potential. cbn. lia.
  - destruct (Q7 a t) as (b & o0 & Ho & Hl & Ho0 & Ht); [by eapply list_elem_of_lookup_2|]. by exists b, o0.
Qed.

Lemma graph_pop st F D g rest : minorInv st F D ∅ -> minorGraphScan st = g :: rest ->
  let st1 := setMinorGraphScan rest st in
  minorInv st1 F D ({[g]} ∪ ∅) /\ progress st F st1 F /\ (S (potential st1 F) <= potential st F)%nat /\ laid None g /\ from g = false.
Proof.
  intros (Hs & Hh & [Q1 Q2 [Q3 Q4] [Q5 Q6] Q7 Q8 Q9 Q10]) Hg st1. rewrite Hg in *.
  destruct (Q8 g) as [HG Hl]; [by left|]. split_and!.
  - split; [destruct Hs; by split|]. split; [destruct Hh; by split|]. split; try done; cbn.
    + intros b x Hb. destruct (Q2 b x Hb) as [?|[?|?]]; set_solver.
    + split; [done|]. intros x Hx Hx'. destruct (Q4 x Hx Hx') as [?|[?|?]]; set_solver.
    + split; [done|]. intros h Hh'. destruct (Q6 h Hh') as [?|[?|[->|?]%elem_of_cons]]; set_solver.
    + intros h Hh'. apply Q8. by right.
  - split; try done; [|exists []; by rewrite app_nil_r]. unfold GcMinorInv.potential. cbn. rewrite Hg. cbn. lia.
  - unfold GcMinorInv.potential. cbn. rewrite Hg. cbn. lia.
  - done.
  - by apply (sd_graph Hsd).
Qed.

Definition drained st : Prop := relocationScan st !! relocationScanIndex st = None /\ minorGraphScan st = [].

Lemma scan_ok fuel : forall st F D, minorInv st F D ∅ -> (potential st F <= fuel)%nat ->
  exists st' F' D', scanRelocatedObjects fuel st = Some st' /\ minorInv st' F' D' ∅ /\ progress st F st' F' /\ D ⊆ D' /\ drained st'.
Proof.
  induction fuel as [|fuel IH]; intros st F D Hinv Hfuel; cbn [scanRelocatedObjects].
  - unfold GcMinorInv.potential in Hfuel. destruct (relocationScan st !! relocationScanIndex st) as [[a t]|] eqn:Hi.
    { apply lookup_lt_Some in Hi. lia. }
    destruct (minorGraphScan st) eqn:Hg; [|cbn in Hfuel; lia]. exists st, F, D. split_and!; try done. apply progress_refl.
  - assert (Hstep : forall st1 x b o0 t, minorInv st1 F D ({[x]} ∪ ∅) -> progress st F st1 F -> (S (potential st1 F) <= potential st F)%nat ->
      owner H0 from live F b x o0 -> slotsOf (kind o0) t = Lay b -> exists st' F' D',
      (st2 ← updateRefs relocateForMinor x t st1; scanRelocatedObjects fuel st2) = Some st' /\ minorInv st' F' D' ∅ /\ progress st F st' F' /\ D ⊆ D' /\ drained st').
    { intros st1 x b o0 t Hinv1 Hp1 Hpot Hown Ht.
      destruct (updateRefs_ok H0 G0 fresh0 rooted from Lay live room Hsd st1 F D ∅ b x o0 t) as (st2 & F2 & Eu & Hinv2 & Hp2); try done.
      rewrite Eu. cbn [mbind option_bind]. pose proof (pg_potential Hp2).
      destruct (IH st2 F2 ({[x]} ∪ D) Hinv2) as (st' & F' & D' & Er & Hinv' & Hp & HD & Hdr); [lia|].
      exists st', F', D'. split_and!; try done; [|set_solver|apply Hdr..]. eapply progress_trans; [exact Hp1|]. by eapply progress_trans. }
    destruct (relocationScan st !! relocationScanIndex st) as [[a t]|] eqn:Hi.
    + destruct (scan_pop st F D a t Hinv Hi) as (Hinv1 & Hp1 & Hpot & b & o0 & Hown & Ht). by eapply Hstep.
    + destruct (minorGraphScan st) as [|g rest] eqn:Hg.
      * exists st, F, D. split_and!; try done. apply progress_refl.
      * destruct (graph_pop st F D g rest Hinv Hg) as (Hinv1 & Hp1 & Hpot & Hl & Hf).
        destruct (laid_owner F None g Hl Hf) as (o0 & Hown & Ht). by eapply Hstep.
Qed.
End Fixed.

(** ** The heap between collections *)

(** The object is in one of the spaces a minor collection empties. *)
Definition young st (a : Z) : bool := contains (birth st) (a - kHeaderBytes) || contains (haven st) (a - kHeaderBytes).

Definition rootedIn st : gset Z := list_to_set (rootSets st).

(** What the roots reach; the remembered objects count as roots. *)
Inductive reachable st (Lay : Z -> list (Slot Ty)) : Z -> Prop :=
  | rc_root r : r ∈ rootSets st -> r <> 0 -> reachable st Lay r
  | rc_cell c : c ∈ cells st -> cellRef c <> 0 -> (cellCarrier c = true -> cellRef c ∈ graphSpace st) -> reachable st Lay (cellRef c)
  | rc_remembered a : is_Some (remembered st !! a) -> reachable st Lay a
  | rc_slot a o s w : reachable st Lay a -> objs st !! a = Some o -> s ∈ Lay a -> words o !! slotIndex s = Some w -> w <> 0 ->
      (carrier s = true -> w ∈ graphSpace st) -> reachable st Lay w.

(** An old object whose references a minor collection does not look at. *)
Definition quiet st (a : Z) : Prop := young st a = false /\ (a ∉ fresh st) /\ remembered st !! a = None /\ a ∉ graphSpace st.

Definition boundsOk (b : BumpPointerAllocator) : Prop := 0 < start_ b /\ start_ b <= end_ b /\ end_ b < 2 ^ 47.

Record ready st (Lay : Z -> list (Slot Ty)) : Prop := {
  rd_idle : inGC st = false;
  rd_copying : enableYoungGenCopying_ (pacing st) = true;
  rd_live : forall a, reachable st Lay a -> exists o t, objs st !! a = Some o /\ slotsOf (kind o) t = Lay a /\
    forall s, s ∈ Lay a -> exists w, words o !! slotIndex s = Some w /\
      (w <> 0 -> targetOk (objs st) (graphSpace st) (rootedIn st) Lay (reachable st Lay) s w);
  rd_young : forall a o, objs st !! a = Some o -> young st a = true -> headerOk (hdr o) /\ region (hdr o) = YoungGen /\ isYoungAddress st a = true;
  rd_old : forall a, is_Some (objs st !! a) -> young st a = false -> isYoungAddress st a = false;
  rd_graph : forall g, g ∈ graphSpace st -> young st g = false /\ (g ∉ fresh st) /\ is_Some (objs st !! g);
  rd_fresh : forall a, a ∈ fresh st -> young st a = false /\ exists o, objs st !! a = Some o /\
    ((region (hdr o) = ElderGen /\ a ∈ oiterate (elder st)) \/ (region (hdr o) = LargeObj /\ a ∈ oiterate (large st)));
  rd_null : objs st !! 0 = None /\ young st 0 = false;
  rd_roots : Forall (rootOk (objs st) (graphSpace st) Lay (reachable st Lay)) (rootSets st);
  rd_cells : Forall (cellOk (objs st) (graphSpace st) (rootedIn st) Lay (reachable st Lay)) (cells st);
  rd_remembered : forall a t, remembered st !! a = Some t -> young st a = false /\ laid (objs st) Lay (reachable st Lay) t a;
  rd_quiet : forall a o s w, reachable st Lay a -> quiet st a -> objs st !! a = Some o -> s ∈ Lay a -> words o !! slotIndex s = Some w -> w <> 0 ->
    if carrier s then w ∈ graphSpace st -> w ∈ rootedIn st else young st w = false /\ w ∉ fresh st;
  rd_finalizable : Forall (fun a => is_Some (objs st !! a) /\ young st a = true) (youngFinalizables st);
  rd_bounds : boundsOk (birth st) /\ boundsOk (haven st) /\ boundsOk (cache st);
  rd_apart : forall x, (contains (birth st) x = true -> contains (haven st) x = false /\ contains (cache st) x = false) /\
    (contains (haven st) x = true -> contains (cache st) x = false);
  rd_empty : forall a, contains (cache st) (a - kHeaderBytes) = true -> objs st !! a = None;
  rd_elder : ook (elder st) /\ ook (large st);
  rd_avoids : forall x, is_Some (objs st !! x) -> x ∈ oiterate (elder st) \/ oavoids (elder st) x;
  rd_spaces : forall x, isYoungAddress st x = true -> oavoids (elder st) x /\ oavoids (large st) x;
  rd_housed : forall p, p ∈ oiterate (elder st) \/ p ∈ oiterate (large st) -> is_Some (objs st !! p);
}.

(** Every graph that a live object carries is itself a root. *)
Definition carriersRooted st (Lay : Z -> list (Slot Ty)) : Prop := forall a o s w, reachable st Lay a -> objs st !! a = Some o -> s ∈ Lay a ->
  carrier s = true -> words o !! slotIndex s = Some w -> w ∈ graphSpace st -> w ∈ rootedIn st.

(** The elder space has room for what may be promoted. *)
Definition youngCount st : nat := base.size (filter (fun kv => young st kv.1 = true) (objs st)).
Definition promotable st (room : Z) : Prop := serves room (youngCount st) (elder st) /\
  forall a o n, objs st !! a = Some o -> young st a = true -> objSize (hdr o) = Some n -> n <= room.

Section Run.
Context (st : GC Kind Ty E LO) (Lay : Z -> list (Slot Ty)) (room : Z) (Hrd : ready st Lay) (Hpr : promotable st room).
#[local] Abbreviation heap0 := (objs st).
#[local] Abbreviation G0 := (graphSpace st).
#[local] Abbreviation fresh0 := (fresh st).
#[local] Abbreviation from := (young st).
#[local] Abbreviation live := (reachable st Lay).
#[local] Abbreviation inv := (minorInv heap0 G0 fresh0 from Lay live room).
#[local] Abbreviation prog := (progress heap0 G0 from).

Lemma ready_started : started heap0 G0 fresh0 (rootedIn st) from Lay live room.
Proof.
  destruct Hrd. split; try done.
  - intros a o Ho Hy. by destruct (rd_young0 a o Ho Hy) as (? & ? & _).
  - apply Hpr.
  - intros a Ha. destruct (rd_fresh0 a Ha) as (? & o & Ho & _). split; [done|by eexists].
Qed.

Lemma youngLeft_count : youngLeft heap0 from ∅ = youngCount st.
Proof.
  unfold youngLeft, youngCount. f_equal. apply map_filter_ext. intros a o _. cbn. rewrite lookup_empty. tauto.
Qed.

Lemma start_inv : inv (startMinor st) ∅ ∅ ∅.
Proof.
  destruct Hrd. destruct rd_bounds0 as (Bb & Bh & Bc). split; [|split].
  - split; cbn; try done.
    + unfold boundsOk in Bc. lia.
    + intros a Ha. split; [|by apply rd_empty0].
      unfold young. change (contains (reset (cache st)) (a - kHeaderBytes)) with (contains (cache st) (a - kHeaderBytes)) in Ha.
      destruct (rd_apart0 (a - kHeaderBytes)) as [Ha1 Ha2].
      destruct (contains (birth st) (a - kHeaderBytes)); [destruct (Ha1 eq_refl); congruence|].
      destruct (contains (haven st) (a - kHeaderBytes)); [specialize (Ha2 eq_refl); congruence|done].
    + apply rd_elder0.
    + intros a Ha. apply rd_spaces0. unfold isYoungAddress. unfold young in Ha. by rewrite Ha.
    + intros a Ha. apply rd_spaces0. unfold isYoungAddress. change (contains (reset (cache st)) a) with (contains (cache st) a) in Ha.
      by rewrite Ha, orb_true_r.
  - split; cbn; try done.
    + intros a o Ho Hy. rewrite lookup_empty. exists o. destruct (rd_young0 a o Ho Hy) as (_ & ? & _). by split_and!.
    + intros a o Ho Hy. exists o. split_and!; try done. intros _. split; [|done]. intros s w Hs Hc Hw. left. split; [done|]. set_solver.
    + intros x Hx. by left.
    + rewrite youngLeft_count. apply Hpr.
    + intros p Hp. apply rd_housed0. by left.
  - split; cbn; try done.
    + by intros x t ?%elem_of_nil.
    + by intros x ?%elem_of_nil.
Qed.

Lemma start_potential : (potential heap0 G0 from (startMinor st) ∅ <= scanFuel st)%nat.
Proof.
  unfold potential, scanFuel. rewrite youngLeft_count. cbn. rewrite difference_empty_L. unfold youngCount.
  pose proof (map_size_filter (fun kv : Z * Obj Kind => from kv.1 = true) (objs st)). lia.
Qed.

(** ** The run up to the end of the scan *)

Record outcome st2 F D : Prop := {
  oc_inv : inv st2 F D ∅;
  oc_drained : drained st2;
  oc_roots : forall r, r ∈ rootSets st -> r <> 0 -> r ∈ minorTracedGraphs st2;
  oc_cells : Forall (cellDone G0 fresh0 from st2 F) (cells st);
  oc_remembered : forall a, is_Some (remembered st !! a) -> a ∈ D;
  oc_spaces : birth st2 = birth st /\ cache st2 = haven st /\ large st2 = large st /\
    start_ (haven st2) = start_ (cache st) /\ end_ (haven st2) = end_ (cache st);
  oc_avoids : forall a, oavoids (elder st) a -> oavoids (elder st2) a;
  oc_elder : forall p, p ∈ oiterate (elder st) -> p ∈ oiterate (elder st2);
  oc_rest : rootSets st2 = rootSets st /\ cells st2 = (movedCell F <$> cells st) /\ remembered st2 = remembered st /\
    youngFinalizables st2 = youngFinalizables st /\ finalized st2 = finalized st /\
    settingsOf (pacing st2) = settingsOf (pacing st) /\ markedSinceClear st2 = markedSinceClear st;
}.

Lemma inv_setCells v st1 F D X : inv st1 F D X -> inv (setCells v st1) F D X.
Proof. intros (Hs & Hh & Hq). split; [destruct Hs; by split|]. split; [destruct Hh; by split|destruct Hq; by split]. Qed.

Lemma setRootSets_same st1 : setRootSets (rootSets st1) st1 = st1.
Proof. by destruct st1. Qed.

Lemma remembered_entries : Forall (fun e : Z * option Ty => laid heap0 Lay live e.2 e.1 /\ from e.1 = false) (map_to_list (remembered st)).
Proof.
  apply Forall_forall. intros [a t] Hin%elem_of_map_to_list. by destruct (rd_remembered _ _ Hrd a t Hin).
Qed.

Lemma run_ok : exists st1 st2 F D, traceRoots (startMinor st) = Some st1 /\ scanRelocatedObjects (scanFuel st) st1 = Some st2 /\ outcome st2 F D.
Proof.
  pose proof ready_started as Hsd. pose proof start_potential as Hpot. unfold traceRoots.
  destruct (traceRootSets_ok heap0 G0 fresh0 (rootedIn st) from Lay live room Hsd (rootSets st) [] (startMinor st) ∅ ∅ start_inv (rd_roots _ _ Hrd))
    as (st1 & F1 & D1 & E1 & Hinv1 & Hp1 & HD1 & Htr).
  change (rootSets (startMinor st)) with (rootSets st). rewrite E1. cbn [mbind option_bind app].
  pose proof (pg_rest Hp1) as R1. unfold sameRest in R1. cbn in R1. destruct_and! R1.
  assert (Er : setRootSets (rootSets st) st1 = st1) by (rewrite <- (setRootSets_same st1) at 2; congruence). rewrite Er.
  assert (Hcs : cells st1 = cells st) by done. rewrite Hcs.
  destruct (traceCells_ok heap0 G0 fresh0 (rootedIn st) from Lay live room Hsd (cells st) [] st1 F1 D1 Hinv1 (rd_cells _ _ Hrd))
    as (st2 & F2 & E2 & Hinv2 & Hp2 & Hcells). rewrite E2. cbn [mbind option_bind app].
  pose proof (pg_rest Hp2) as R2. unfold sameRest in R2. destruct_and! R2.
  set (st3 := setCells (movedCell F2 <$> cells st) st2).
  assert (Hrem : remembered st3 = remembered st) by (cbn; congruence). rewrite Hrem.
  destruct (traceRemembered_ok heap0 G0 fresh0 (rootedIn st) from Lay live room Hsd (map_to_list (remembered st)) st3 F2 D1
    (inv_setCells _ _ _ _ _ Hinv2) remembered_entries) as (st4 & F4 & D4 & E4 & Hinv4 & Hp4 & HD4 & Hr4).
  destruct (scan_ok heap0 G0 fresh0 (rootedIn st) from Lay live room Hsd (scanFuel st) st4 F4 D4 Hinv4) as (st5 & F5 & D5 & E5 & Hinv5 & Hp5 & HD5 & Hdr).
  { pose proof (pg_potential Hp1). pose proof (pg_potential Hp2). pose proof (pg_potential Hp4) as Hp4'. unfold st3 in Hp4'.
    change (potential heap0 G0 from (setCells (movedCell F2 <$> cells st) st2) F2) with (potential heap0 G0 from st2 F2) in Hp4'. lia. }
  exists st4, st5, F5, D5. split; [done|]. split; [done|].
  pose proof (progress_trans _ _ _ _ _ _ _ _ _ Hp4 Hp5) as Hp. pose proof (pg_rest Hp) as R5. unfold sameRest in R5. cbn in R5. destruct_and! R5.
  assert (Hcells5 : Forall (cellDone G0 fresh0 from st5 F5) (cells st)).
  { eapply Forall_impl; [exact Hcells|]. intros c Hc Hne. eapply slotDone_mono; [exact Hp|]. exact (Hc Hne). }
  split; try done.
  - intros r Hr Hr0. apply (pg_traced Hp), (pg_traced Hp2), Htr; done.
  - intros a [t Ha]. apply HD5, Hr4. apply list_elem_of_fmap. exists (a, t). split; [done|]. by apply elem_of_map_to_list.
  - split_and!; congruence.
  - auto.
  - auto.
  - split_and!; try congruence.
    + transitivity (movedCell F2 <$> cells st); [congruence|]. apply list_fmap_ext. intros i c Hc. symmetry.
      eapply (movedCell_mono heap0 G0 fresh0 (rootedIn st) from Lay live room Hsd st3 F2); [exact Hinv5|exact Hp|].
      apply (Forall_lookup_1 _ _ _ _ Hcells Hc).
Qed.

(** ** What the roots reach has its place *)

Section Drained.
Context (st2 : GC Kind Ty E LO) (F : gmap Z Z) (D : gset Z) (Hoc : outcome st2 F D).
#[local] Abbreviation target := (targetOk heap0 G0 (rootedIn st) Lay live).

Lemma oc_heap : heapInv heap0 from Lay live room st2 F D.
Proof. apply (oc_inv _ _ _ Hoc). Qed.
Lemma oc_queue : queueInv heap0 G0 fresh0 from Lay live st2 F D ∅.
Proof. apply (oc_inv _ _ _ Hoc). Qed.
Lemma oc_space : spacesInv heap0 G0 from st2.
Proof. apply (oc_inv _ _ _ Hoc). Qed.

Lemma drained_queue x : ~ queued st2 x.
Proof.
  intros [t Ht]. destruct (oc_drained _ _ _ Hoc) as [Hi _]. rewrite drop_ge in Ht by by apply lookup_ge_None. by apply elem_of_nil in Ht.
Qed.

Lemma done_copy a x : F !! a = Some x -> x ∈ D.
Proof. intros [?|[?|?%drained_queue]]%(qi_copies oc_queue); set_solver. Qed.
Lemma done_fresh x : x ∈ fresh0 -> x ∉ fresh st2 -> x ∈ D.
Proof. intros Hx Hx'. destruct (proj2 (qi_fresh oc_queue) x Hx Hx') as [?|[?|?%drained_queue]]; set_solver. Qed.
Lemma done_traced g : g ∈ minorTracedGraphs st2 -> g ∈ D.
Proof.
  intros [?|[?|Hg]]%(proj2 (qi_traced oc_queue)); [done|set_solver|]. rewrite (proj2 (oc_drained _ _ _ Hoc)) in Hg. by apply elem_of_nil in Hg.
Qed.

Definition placed (a : Z) : Prop := (exists x, F !! a = Some x /\ x ∈ D) \/
  (from a = false /\ (a ∈ D \/ quiet st a) /\ (a ∈ fresh0 -> a ∉ fresh st2 \/ is_Some (remembered st !! a))).

Lemma graph_placed g : g ∈ minorTracedGraphs st2 -> placed g.
Proof.
  intros Hg. right. destruct (rd_graph _ _ Hrd g) as (Hf & Hfr & _); [by apply (proj1 (qi_traced oc_queue))|].
  split; [done|]. split; [left; by apply done_traced|done].
Qed.

Lemma rooted_placed g : g ∈ G0 -> g ∈ rootedIn st -> placed g.
Proof.
  intros Hg Hr. apply graph_placed, (oc_roots _ _ _ Hoc); [by apply elem_of_list_to_set in Hr|]. intros ->.
  destruct (rd_graph _ _ Hrd _ Hg) as (_ & _ & [? Ho]). destruct (rd_null _ _ Hrd). congruence.
Qed.

Lemma old_placed w : from w = false -> (w ∈ fresh0 -> w ∉ fresh st2) -> (w ∈ G0 -> w ∈ rootedIn st) -> placed w.
Proof.
  intros Hf Hfr Hg. destruct (decide (w ∈ G0)) as [HG|HG]; [by apply rooted_placed; auto|].
  right. split; [done|]. split; [|by auto]. destruct (decide (w ∈ fresh0)) as [Hw|Hw]; [left; by apply done_fresh; auto|].
  destruct (remembered st !! w) as [t|] eqn:Hr; [left; apply (oc_remembered _ _ _ Hoc); by eexists|right]. by split_and!.
Qed.

Lemma target_placed s w : slotDone G0 fresh0 from st2 F s w -> target s w -> (carrier s = true -> w ∈ G0) -> placed w.
Proof.
  unfold slotDone, targetOk. intros Hd Ht Hc. destruct (carrier s); [by apply graph_placed; auto|]. destruct Hd as [HF Hfr].
  destruct (from w) eqn:Hf.
  - left. destruct (HF eq_refl) as [x Hx]. exists x. split; [done|]. by eapply done_copy.
  - apply old_placed; [done..|]. apply Ht.
Qed.

Lemma orig_unique a b x o : orig from F a x -> orig from F b x -> heap0 !! a = Some o -> is_Some (heap0 !! b) -> a = b.
Proof.
  intros [Ha|[Hfa ->]] [Hb|[Hfb ->]] Hoa [ob Hob]; [by eapply (hi_inj oc_heap)|..|done].
  - destruct (hi_F oc_heap _ _ Ha) as (_ & _ & _ & ?). congruence.
  - destruct (hi_F oc_heap _ _ Hb) as (_ & _ & _ & ?). congruence.
Qed.

(** A reference of an object that is done. *)
Lemma black_slot a x o s w : orig from F a x -> x ∈ D -> live a -> heap0 !! a = Some o -> s ∈ Lay a -> words o !! slotIndex s = Some w -> w <> 0 ->
  slotDone G0 fresh0 from st2 F s w.
Proof.
  intros Hx HD Hl Ho Hs Hw Hne. destruct (qi_black oc_queue x HD) as (b & ob & Hb & _ & Hob & Hsl).
  assert (b = a) as -> by (eapply orig_unique; [exact Hb|exact Hx|exact Hob|by eexists]). assert (ob = o) as -> by congruence.
  specialize (Hsl s w Hs Hw Hne). unfold slotDone. destruct (carrier s) eqn:Hc; [done|]. split; [|done].
  assert (Hr : exists ws, slotsRel from F (x ∈ D) (Lay a) (words o) ws).
  { destruct Hx as [Ha|[Hfa ->]].
    - destruct (hi_copy oc_heap _ _ _ Ha Ho) as (n & _ & _ & _ & Hr & _). by eexists.
    - destruct (hi_old oc_heap _ _ Ho Hfa) as (n & _ & _ & _ & Hr). destruct (Hr Hl). by eexists. }
  destruct Hr as [ws Hr]. by destruct (Hr s w Hs Hc Hw) as [[_ ?]|[_ ?]].
Qed.

Lemma reach_placed a : live a -> placed a.
Proof.
  pose proof ready_started as Hsd.
  induction 1 as [r Hr Hr0|c Hc Hc0 Hcar|a Ha|a o s w Hl IH Ho Hs Hw Hne Hcar].
  - by apply graph_placed, (oc_roots _ _ _ Hoc).
  - pose proof (rd_cells _ _ Hrd) as Hall. rewrite Forall_forall in Hall. pose proof (oc_cells _ _ _ Hoc) as Hdone. rewrite Forall_forall in Hdone.
    apply (target_placed (cellSlot c)); [by apply Hdone|by apply Hall|done].
  - right. pose proof Ha as [t Ht]. destruct (rd_remembered _ _ Hrd a t Ht). split; [done|]. split; [left|by right]. by apply (oc_remembered _ _ _ Hoc).
  - destruct (rd_live _ _ Hrd a Hl) as (o' & t & Ho' & _ & Hslots). assert (o' = o) as -> by congruence.
    destruct (Hslots s Hs) as (w' & Hw' & Htgt). assert (w' = w) as -> by congruence. specialize (Htgt Hne).
    destruct IH as [(x & Hx & HD)|(Hfa & [HD|Hqt] & _)].
    + apply (target_placed s); [|done..]. eapply (black_slot a x); try done. by left.
    + apply (target_placed s); [|done..]. eapply (black_slot a a); try done. by right.
    + pose proof (rd_quiet _ _ Hrd a o s w Hl Hqt Ho Hs Hw Hne) as Hq. unfold targetOk in Htgt. destruct (carrier s).
      * apply rooted_placed; auto.
      * destruct Hq as [Hfw Hfr]. apply old_placed; [done..|]. apply Htgt.
Qed.

(** ** What was moved *)

Lemma copied_exactly a : is_Some (F !! a) <-> live a /\ from a = true.
Proof.
  split.
  - intros [x Hx]. by destruct (hi_F oc_heap _ _ Hx) as (? & ? & _).
  - intros [Hl Hf]. destruct (reach_placed a Hl) as [(x & Hx & _)|(? & _)]; [by eexists|congruence].
Qed.

Lemma live_orig a : live a -> orig from F a (reloc F a).
Proof.
  intros Hl. destruct (F !! a) as [x|] eqn:Ha; [left; by rewrite (reloc_Some _ _ _ Ha)|right].
  rewrite (reloc_None _ _ Ha). split; [|done]. destruct (from a) eqn:Hf; [|done].
  destruct (proj2 (copied_exactly a)) as [? ?]; [done|congruence].
Qed.

Lemma orig_reloc a x : live a -> orig from F a x -> x = reloc F a.
Proof.
  intros Hl [Ha|[Hf ->]]; [by rewrite (reloc_Some _ _ _ Ha)|]. by rewrite (reloc_same heap0 from Lay live room st2 F D) by (exact oc_heap || done).
Qed.

Lemma live_word a s : live a -> s ∈ Lay a -> exists o w, heap0 !! a = Some o /\ words o !! slotIndex s = Some w /\ (w <> 0 -> target s w).
Proof. intros (o & t & Ho & _ & Hw)%(rd_live _ _ Hrd) Hs. destruct (Hw s Hs) as (w & ? & ?). by exists o, w. Qed.

Lemma live_Some a : live a -> exists o, heap0 !! a = Some o.
Proof. intros (o & t & Ho & _)%(rd_live _ _ Hrd). by exists o. Qed.

(** The object as it is after the collection: of the same class, with its references moved. *)
Record sameObject (a : Z) (o n : Obj Kind) : Prop := {
  so_kind : kind n = kind o;
  so_slots : forall s w, s ∈ Lay a -> words o !! slotIndex s = Some w -> words n !! slotIndex s = Some (if carrier s then w else reloc F w);
  so_others : othersSame (Lay a) (if from a then onMoved (kind o) (reloc F a) (words o) else words o) (words n);
}.

Lemma reloc_0 : reloc F 0 = 0.
Proof. apply (reloc_same heap0 from Lay live room st2 F D); [exact oc_heap|apply (rd_null _ _ Hrd)]. Qed.

Lemma moved_object a o : live a -> heap0 !! a = Some o -> exists n, objs st2 !! reloc F a = Some n /\ sameObject a o n /\ from (reloc F a) = false.
Proof.
  intros Hl Ho. pose proof (live_orig a Hl) as Hor. pose proof ready_started as Hsd.
  assert (Hown : owner heap0 from live F a (reloc F a) o) by by split_and!.
  destruct (owner_object heap0 G0 fresh0 (rootedIn st) from Lay live room Hsd st2 F D a (reloc F a) o oc_heap Hown) as (n & Hn & Hk & Hr & Hc).
  exists n. split; [done|]. split; [|exact (owner_not_from heap0 from Lay live room st2 F D a (reloc F a) o oc_heap Hown)].
  split; [done| |].
  - intros s w Hs Hw. destruct (carrier s) eqn:Hcar; [by rewrite Hc|].
    destruct (Hr s w Hs Hcar Hw) as [[Hw' HD]|[Hw' _]]; [|done]. rewrite Hw'. f_equal.
    destruct (decide (w = 0)) as [->|Hne]; [by rewrite reloc_0|].
    destruct (reach_placed a Hl) as [(x & Hx & HDx)|(Hfa & [HDa|Hqt] & _)].
    + rewrite (reloc_Some _ _ _ Hx) in HD. done.
    + rewrite (reloc_same heap0 from Lay live room st2 F D) in HD by (exact oc_heap || done). done.
    + pose proof (rd_quiet _ _ Hrd a o s w Hl Hqt Ho Hs Hw Hne) as Hq. rewrite Hcar in Hq.
      symmetry. apply (reloc_same heap0 from Lay live room st2 F D); [exact oc_heap|apply Hq].
  - destruct Hor as [Ha|[Hf Ha]].
    + destruct (hi_F oc_heap _ _ Ha) as (-> & _). destruct (hi_copy oc_heap _ _ _ Ha Ho) as (n' & Hn' & _ & _ & _ & Hsame). by assert (n' = n) as -> by congruence.
    + rewrite Hf. rewrite Ha in Hn. destruct (hi_old oc_heap _ _ Ho Hf) as (n' & Hn' & _ & _ & Hrest). assert (n' = n) as -> by congruence. by destruct (Hrest Hl).
Qed.

Lemma reloc_inj a b : live a -> live b -> reloc F a = reloc F b -> a = b.
Proof.
  intros Ha Hb He. destruct (live_Some _ Ha) as [o Ho]. destruct (live_Some _ Hb) as [ob Hob].
  eapply orig_unique; [by apply live_orig| |exact Ho|by eexists]. rewrite He. by apply live_orig.
Qed.

(** ** The end of the collection *)

Definition rememberable st3 (e : Z * option Ty) : bool :=
  negb (e.1 =? 0) && negb (isYoungAddress st3 e.1) && inAutoSpace st3 e.1 && (inElderGenSpace st3 e.1 || inLargeObjSpace st3 e.1) &&
  hasYoungRefs st3 e.1 e.2.

Definition rememberAll st3 (m : gmap Z (option Ty)) (l : list (Z * option Ty)) : gmap Z (option Ty) :=
  foldl (fun m e => if rememberable st3 e then <[e.1 := e.2]> m else m) m l.

Lemma remember_fold st3 l : forall m, foldl rememberOldObjectIfYoungRefs (setRemembered m st3) l = setRemembered (rememberAll st3 m l) st3.
Proof.
  induction l as [|[a t] l IH]; intros m; [done|]. cbn [foldl rememberAll].
  assert (Hone : rememberOldObjectIfYoungRefs (setRemembered m st3) (a, t) =
    setRemembered (if rememberable st3 (a, t) then <[a := t]> m else m) st3).
  { unfold rememberOldObjectIfYoungRefs, rememberable. cbn [fst snd].
    change (isYoungAddress (setRemembered m st3) a) with (isYoungAddress st3 a). change (inAutoSpace (setRemembered m st3) a) with (inAutoSpace st3 a).
    change (inElderGenSpace (setRemembered m st3) a) with (inElderGenSpace st3 a). change (inLargeObjSpace (setRemembered m st3) a) with (inLargeObjSpace st3 a).
    change (hasYoungRefs (setRemembered m st3) a t) with (hasYoungRefs st3 a t).
    destruct (a =? 0), (isYoungAddress st3 a), (inAutoSpace st3 a), (inElderGenSpace st3 a), (inLargeObjSpace st3 a), (hasYoungRefs st3 a t); done. }
  rewrite Hone. apply IH.
Qed.

Lemma rememberAll_in st3 l : forall m a t, rememberAll st3 m l !! a = Some t -> m !! a = Some t \/ ((a, t) ∈ l /\ rememberable st3 (a, t) = true).
Proof.
  induction l as [|[b u] l IH]; intros m a t Ha; [by left|]. cbn in Ha. apply IH in Ha as [Ha|[Hin Hr]]; [|right; set_solver].
  destruct (rememberable st3 (b, u)) eqn:Hb; [|by left]. apply lookup_insert_Some in Ha as [[<- <-]|[_ ?]]; [right|by left]. split; [left|done].
Qed.

Lemma rememberAll_kept st3 l : forall m a, is_Some (m !! a) -> is_Some (rememberAll st3 m l !! a).
Proof.
  induction l as [|[b u] l IH]; intros m a Ha; [done|]. cbn. apply IH. destruct (rememberable st3 (b, u)); [|done].
  rewrite lookup_insert_is_Some'. by right.
Qed.

Lemma rememberAll_all st3 l : forall m a t, (a, t) ∈ l -> rememberable st3 (a, t) = true -> is_Some (rememberAll st3 m l !! a).
Proof.
  induction l as [|[b u] l IH]; intros m a t Hin Hr; [by apply elem_of_nil in Hin|].
  apply elem_of_cons in Hin as [[= <- <-]|Hin]; cbn; [|by eapply IH]. rewrite Hr. apply rememberAll_kept. cbn. rewrite lookup_insert_eq. by eexists.
Qed.

Definition cleared : GC Kind Ty E LO := setFresh ∅ st2.
Definition rememberedAfter : gmap Z (option Ty) :=
  rememberAll cleared (filter (fun kv => hasYoungRefs cleared kv.1 kv.2 = true) (remembered st)) (relocationScan st2).

Definition survivors st3 (l : list Z) : list Z := omap (fun a => x ← F !! a; if inYoungGenSpace st3 x then Some x else None) l.
Definition dead (l : list Z) : list Z := filter (fun a => F !! a = None) l.

Lemma finalize_ok l : forall st3, (forall a, a ∈ l -> exists o, objs st3 !! a = Some o /\
    match F !! a with None => forwarded (hdr o) = false | Some x => forwardsTo o x end) ->
  finalizeDeadYoung l st3 = Some (survivors st3 l, setFinalized (finalized st3 ++ dead l) st3).
Proof.
  induction l as [|a l IH]; intros st3 Hl; cbn [finalizeDeadYoung].
  - unfold dead. cbn. rewrite app_nil_r. by destruct st3.
  - destruct (Hl a ltac:(left)) as (o & Ho & Hfo). rewrite Ho. cbn [mbind option_bind].
    unfold survivors, dead. cbn [omap list_omap]. rewrite filter_cons. destruct (F !! a) as [x|] eqn:Ha.
    + destruct Hfo as [Hf Hx]. rewrite Hf. cbn [negb]. rewrite Hx. cbn [mbind option_bind].
      rewrite IH by (intros b Hb; apply Hl; by right). cbn [mbind option_bind].
      rewrite decide_False by done. by destruct (inYoungGenSpace st3 x).
    + rewrite Hfo. cbn [negb]. rewrite IH by (intros b Hb; apply Hl; by right). cbn [mbind option_bind].
      rewrite decide_True by done. cbn. by rewrite <- app_assoc.
Qed.

Definition final : GC Kind Ty E LO :=
  setInGC false (setRelocationScan [] (setRelocationScanIndex 0%nat (resetSpaces (setYoungFinalizables (survivors st2 (youngFinalizables st))
    (setFinalized (finalized st ++ dead (youngFinalizables st))
      (setMinorTracedGraphs ∅ (setMinorGraphScan [] (setRemembered rememberedAfter cleared)))))))).

Lemma finish_ok : finishMinor st2 = Some final.
Proof.
  destruct (oc_rest _ _ _ Hoc) as (_ & _ & Er & Ey & Ef & _).
  unfold finishMinor, rebuildRemembered. change (setFresh ∅ st2) with cleared. change (remembered cleared) with (remembered st2). rewrite Er, remember_fold.
  change (rememberAll cleared _ (relocationScan cleared)) with rememberedAfter.
  change (youngFinalizables (setMinorTracedGraphs _ _)) with (youngFinalizables st2). rewrite Ey, finalize_ok.
  - cbn [mbind option_bind]. change (finalized (setMinorTracedGraphs _ _)) with (finalized st2). by rewrite Ef.
  - intros a Ha. pose proof (rd_finalizable _ _ Hrd) as Hall. rewrite Forall_forall in Hall. destruct (Hall a Ha) as [[o0 Ho0] Hf].
    destruct (hi_from oc_heap _ _ Ho0 Hf) as (o & Ho & _ & _ & _ & Hfo). exists o. split; [done|]. destruct (F !! a); [done|]. rewrite Hfo.
    destruct (rd_young _ _ Hrd _ _ Ho0 Hf) as ((n & Hn & _) & _). unfold objSize in Hn. unfold forwarded.
    destruct (Z.eqb_spec (state_ (hdr o0)) 0) as [E0|]; [by rewrite E0|done].
Qed.
End Drained.

(** ** The heap afterwards *)

Section After.
Context (st2 : GC Kind Ty E LO) (F : gmap Z Z) (D : gset Z) (Hoc : outcome st2 F D).
#[local] Abbreviation fin := (final st2 F).
#[local] Abbreviation after_heap := (oc_heap st2 F D Hoc).
#[local] Abbreviation after_space := (oc_space st2 F D Hoc).

Lemma after_objs y n : objs fin !! y = Some n <-> objs st2 !! y = Some n /\ from y = false.
Proof.
  change (objs fin) with (filter (fun kv : Z * Obj Kind => contains (birth st2) (kv.1 - kHeaderBytes) || contains (cache st2) (kv.1 - kHeaderBytes) = false) (objs st2)).
  rewrite map_lookup_filter_Some. cbn. by rewrite <- (sp_from after_space y).
Qed.

Lemma after_spaces : birth fin = reset (birth st) /\ haven fin = haven st2 /\ cache fin = reset (haven st) /\ elder fin = elder st2 /\ large fin = large st /\
  start_ (haven st2) = start_ (cache st) /\ end_ (haven st2) = end_ (cache st).
Proof.
  destruct (oc_spaces _ _ _ Hoc) as (Eb & Ec & El & Es & Ee). split_and!; try done.
  - change (birth fin) with (reset (birth st2)). by rewrite Eb.
  - change (cache fin) with (reset (cache st2)). by rewrite Ec.
Qed.

Lemma contains_haven x : contains (haven st2) x = contains (cache st) x.
Proof. destruct after_spaces as (_ & _ & _ & _ & _ & Es & Ee). unfold contains. by rewrite Es, Ee. Qed.

Lemma after_young a : young fin a = contains (birth st) (a - kHeaderBytes) || contains (cache st) (a - kHeaderBytes).
Proof. destruct after_spaces as (Eb & Eh & _). unfold young. by rewrite Eb, Eh, contains_haven. Qed.

Lemma after_address x : isYoungAddress fin x = isYoungAddress st x.
Proof.
  destruct after_spaces as (Eb & Eh & Ec & _). unfold isYoungAddress. rewrite Eb, Eh, Ec, contains_haven.
  change (contains (reset (birth st)) x) with (contains (birth st) x). change (contains (reset (haven st)) x) with (contains (haven st) x).
  by destruct (contains (birth st) x), (contains (haven st) x), (contains (cache st) x).
Qed.

(** What was there at the start and has not moved is not young. *)
Lemma after_old y : is_Some (heap0 !! y) -> from y = false -> young fin y = false.
Proof.
  intros [o Ho] Hf. rewrite after_young. unfold young in Hf. apply orb_false_iff in Hf as [-> _].
  destruct (contains (cache st) _) eqn:Hc; [|done]. apply (rd_empty _ _ Hrd) in Hc. congruence.
Qed.

(** Everything that is left. *)
Lemma after_cases y n : objs fin !! y = Some n -> (is_Some (heap0 !! y) /\ from y = false) \/ exists a, F !! a = Some y /\ copyOk st2 y n.
Proof.
  intros [Hn Hf]%after_objs. destruct (hi_dom after_heap y) as [?|[a Ha]]; [by eexists|by left|right].
  destruct (hi_F after_heap _ _ Ha) as (_ & Hl & _). destruct (live_Some _ Hl) as [o Ho].
  destruct (hi_copy after_heap _ _ _ Ha Ho) as (n' & Hn' & _ & Hc & _). exists a. split; [done|]. by assert (n' = n) as <- by congruence.
Qed.

Lemma elder_avoids x : isYoungAddress st x = true -> oavoids (elder st2) x.
Proof. intros Hx. apply (oc_avoids _ _ _ Hoc), (rd_spaces _ _ Hrd), Hx. Qed.

Lemma young_avoids y : young fin y = true -> oavoids (elder st2) (y - kHeaderBytes).
Proof.
  rewrite after_young. intros Hy. apply elder_avoids. unfold isYoungAddress.
  apply orb_true_iff in Hy as [-> | ->]; [done|apply orb_true_r].
Qed.

(** A copy that is young, and one that is not. *)
Lemma after_copy y n : copyOk st2 y n -> if young fin y
  then headerOk (hdr n) /\ region (hdr n) = YoungGen /\ isYoungAddress fin y = true
  else region (hdr n) = ElderGen /\ y ∈ oiterate (elder st2) /\ isYoungAddress fin y = false.
Proof.
  intros (Hh & Hlow & [(Hr & Hb & Ht)|(Hr & He)]).
  - pose proof (in_haven heap0 G0 from st2 y after_space Hb Ht) as Hin. rewrite contains_haven in Hin.
    rewrite after_young, Hin, orb_true_r. split_and!; try done. rewrite after_address. unfold isYoungAddress. rewrite <- contains_haven.
    destruct (sp_haven after_space) as (B1 & B2 & B3 & B4 & B5). unfold kHeaderBytes in *.
    replace (contains (haven st2) y) with true by (unfold contains; lia). apply orb_true_r.
  - destruct (oiterate_contains _ _ (sp_elder after_space) He) as (_ & _ & Hn1 & Hn2 & _).
    destruct (young fin y) eqn:Hy; [by apply young_avoids in Hy|]. split_and!; try done.
    rewrite after_address. destruct (isYoungAddress st y) eqn:Ha; [by apply elder_avoids in Ha|done].
Qed.

Lemma after_address_old y : is_Some (objs fin !! y) -> young fin y = false -> isYoungAddress fin y = false.
Proof.
  intros [n Hn] Hy. destruct (after_cases y n Hn) as [[Ho Hf]|(a & Ha & Hc)].
  - rewrite after_address. by apply (rd_old _ _ Hrd).
  - apply after_copy in Hc. rewrite Hy in Hc. apply Hc.
Qed.

Lemma after_address_young y : is_Some (objs fin !! y) -> isYoungAddress fin y = false -> young fin y = false.
Proof.
  intros [n Hn] Hy. destruct (after_cases y n Hn) as [[Ho Hf]|(a & Ha & Hc)]; [by apply after_old|].
  apply after_copy in Hc. destruct (young fin y); [|done]. destruct Hc as (_ & _ & ?). congruence.
Qed.

(** ** What is reached afterwards *)

(** The object that was moved to [y]. *)
Definition origin (y : Z) : Z := match filter (fun kv : Z * Z => kv.2 = y) (map_to_list F) with kv :: _ => kv.1 | [] => y end.
Definition LayAfter (y : Z) : list (Slot Ty) := Lay (origin y).

Lemma origin_reloc a : live a -> origin (reloc F a) = a.
Proof.
  intros Hl. unfold origin. destruct (filter _ _) as [|[b y] l] eqn:Hfil.
  - destruct (F !! a) as [x|] eqn:Ha; [|by apply reloc_None]. exfalso. rewrite (reloc_Some _ _ _ Ha) in Hfil.
    assert (Hin : (a, x) ∈ filter (fun kv : Z * Z => kv.2 = x) (map_to_list F)) by (apply list_elem_of_filter; split; [done|by apply elem_of_map_to_list]).
    rewrite Hfil in Hin. by apply elem_of_nil in Hin.
  - assert (Hin : (b, y) ∈ filter (fun kv : Z * Z => kv.2 = reloc F a) (map_to_list F)) by (rewrite Hfil; left).
    apply list_elem_of_filter in Hin as [Hy Hb%elem_of_map_to_list]. cbn in Hy |- *. subst y.
    destruct (live_Some _ Hl) as [o Ho]. destruct (hi_F after_heap _ _ Hb) as (_ & Hlb & _). destruct (live_Some _ Hlb) as [ob Hob].
    eapply (orig_unique st2 F D Hoc b a); [by left|by apply (live_orig st2 F D Hoc)|exact Hob|by eexists].
Qed.

Lemma LayAfter_reloc a : live a -> LayAfter (reloc F a) = Lay a.
Proof. intros Hl. unfold LayAfter. by rewrite origin_reloc. Qed.

Lemma reloc_old a : from a = false -> reloc F a = a.
Proof. apply (reloc_same heap0 from Lay live room st2 F D), after_heap. Qed.

Lemma reloc_graph g : g ∈ G0 -> reloc F g = g.
Proof. intros Hg. apply reloc_old. by destruct (rd_graph _ _ Hrd g Hg). Qed.

Lemma after_object a o : live a -> heap0 !! a = Some o -> exists n, objs fin !! reloc F a = Some n /\ sameObject F a o n.
Proof.
  intros Hl Ho. destruct (moved_object st2 F D Hoc a o Hl Ho) as (n & Hn & Hs & Hf). exists n. split; [|done]. by apply after_objs.
Qed.

Lemma graphs_after : graphSpace fin = G0.
Proof. apply (sp_graphs after_space). Qed.

Lemma remembered_after y t : remembered fin !! y = Some t -> remembered st !! y = Some t \/
  ((y, t) ∈ relocationScan st2 /\ rememberable (cleared st2) (y, t) = true).
Proof.
  intros Hy. destruct (rememberAll_in st2 F D Hoc _ _ _ _ _ Hy) as [Hm|?]; [left|by right]. by apply map_lookup_filter_Some in Hm as [? _].
Qed.

Lemma during_address x : isYoungAddress (cleared st2) x = isYoungAddress fin x.
Proof.
  destruct (oc_spaces _ _ _ Hoc) as (Eb & Ec & _). rewrite after_address. unfold isYoungAddress, cleared.
  change (birth (setFresh ∅ st2)) with (birth st2). change (haven (setFresh ∅ st2)) with (haven st2). change (cache (setFresh ∅ st2)) with (cache st2).
  rewrite Eb, Ec, contains_haven. by destruct (contains (birth st) x), (contains (haven st) x), (contains (cache st) x).
Qed.

(** What is remembered is old and says so. *)
Lemma remembered_region y t : rememberable (cleared st2) (y, t) = true ->
  exists n, objs fin !! y = Some n /\ (region (hdr n) = ElderGen \/ region (hdr n) = LargeObj).
Proof.
  unfold rememberable, inElderGenSpace, inLargeObjSpace. cbn [fst snd]. change (objs (cleared st2)) with (objs st2).
  destruct (objs st2 !! y) as [n|] eqn:Hn; [|by rewrite andb_false_r]. intros Hr. exists n.
  assert (Hy : isYoungAddress fin y = false).
  { rewrite <- during_address. apply not_true_is_false. intros Hy. rewrite Hy, !andb_false_r in Hr. done. }
  assert (Hreg : region (hdr n) = ElderGen \/ region (hdr n) = LargeObj).
  { destruct (Z.eqb_spec (region (hdr n)) ElderGen); [by left|]. destruct (Z.eqb_spec (region (hdr n)) LargeObj); [by right|].
    by rewrite andb_false_r in Hr. }
  split; [|done]. apply after_objs. split; [done|]. apply not_true_is_false. intros Hf.
  assert (Hd : is_Some (objs st2 !! y)) by by eexists. destruct (hi_dom after_heap _ Hd) as [[o0 Ho0]|(a & Ha)].
  - destruct (rd_young _ _ Hrd _ _ Ho0 Hf) as (_ & _ & Hya). rewrite after_address in Hy. congruence.
  - destruct (hi_F after_heap _ _ Ha) as (_ & _ & ? & _). congruence.
Qed.

Lemma reachable_after y : reachable fin LayAfter y -> exists a, live a /\ y = reloc F a.
Proof.
  destruct (oc_rest _ _ _ Hoc) as (Er & Ec & _).
  induction 1 as [r Hr Hr0|c Hc Hc0 Hcar|a [t Ha]|a n s w Hl IH Hn Hs Hw Hne Hcar].
  - change (rootSets fin) with (rootSets st2) in Hr. rewrite Er in Hr. exists r. split; [by apply rc_root|].
    pose proof (rd_roots _ _ Hrd) as Hall. rewrite Forall_forall in Hall. destruct (Hall r Hr) as [?|[Hg _]]; [done|]. by rewrite reloc_graph.
  - change (cells fin) with (cells st2) in Hc. rewrite Ec in Hc. apply list_elem_of_fmap in Hc as (c0 & -> & Hc).
    cbn [movedCell cellRef cellCarrier] in *. rewrite graphs_after in Hcar. exists (cellRef c0). split.
    + apply rc_cell; [done|..].
      * intros E0. rewrite E0, (reloc_0 st2 F D Hoc) in Hc0. by destruct (cellCarrier c0).
      * intros Hcc. rewrite Hcc in Hcar. by apply Hcar.
    + destruct (cellCarrier c0); [|done]. symmetry. by apply reloc_graph, Hcar.
  - apply remembered_after in Ha as [Ha|[Ha _]].
    + exists a. split; [apply rc_remembered; by eexists|]. destruct (rd_remembered _ _ Hrd a t Ha). by rewrite reloc_old.
    + destruct (qi_queue (oc_queue st2 F D Hoc) a t Ha) as (b & o & Ho & Hlb & _). exists b. split; [done|]. by apply (orig_reloc st2 F D Hoc).
  - destruct IH as (b & Hlb & ->). rewrite LayAfter_reloc in Hs by done. destruct (live_word b s Hlb Hs) as (o & w0 & Ho & Hw0 & _).
    destruct (after_object b o Hlb Ho) as (n' & Hn' & Hsame). assert (n' = n) as -> by congruence.
    rewrite (so_slots _ _ _ _ Hsame s w0 Hs Hw0) in Hw. injection Hw as <-. rewrite graphs_after in Hcar. exists w0. split.
    + eapply rc_slot; [exact Hlb|exact Ho|exact Hs|exact Hw0|..].
      * intros ->. rewrite (reloc_0 st2 F D Hoc) in Hne. by destruct (carrier s).
      * intros Hc. rewrite Hc in Hcar. by apply Hcar.
    + destruct (carrier s); [|done]. symmetry. by apply reloc_graph, Hcar.
Qed.

Lemma after_graph g : g ∈ G0 -> young fin g = false /\ is_Some (objs fin !! g).
Proof.
  intros Hg. destruct (rd_graph _ _ Hrd g Hg) as (Hf & _ & [o Ho]). split; [apply after_old; [by eexists|done]|].
  destruct (hi_old after_heap _ _ Ho Hf) as (n & Hn & _). exists n. by apply after_objs.
Qed.

(** ** The references afterwards *)

#[local] Abbreviation liveAfter := (reachable fin LayAfter).
#[local] Abbreviation laidAfter := (laid (objs fin) LayAfter liveAfter).
#[local] Abbreviation targetAfter := (targetOk (objs fin) (graphSpace fin) (rootedIn fin) LayAfter liveAfter).
#[local] Abbreviation target := (targetOk heap0 G0 (rootedIn st) Lay live).

Lemma rooted_after : rootedIn fin = rootedIn st.
Proof. destruct (oc_rest _ _ _ Hoc) as (Er & _). unfold rootedIn. change (rootSets fin) with (rootSets st2). by rewrite Er. Qed.

Lemma laid_moved t a : laid heap0 Lay live t a -> liveAfter (reloc F a) -> laidAfter t (reloc F a).
Proof.
  intros (Hl & o & Ho & Ht) Ha. split; [done|]. destruct (after_object a o Hl Ho) as (n & Hn & Hs). exists n. split; [done|].
  by rewrite (so_kind _ _ _ _ Hs), LayAfter_reloc.
Qed.

Lemma target_moved s w : target s w -> ((carrier s = true -> w ∈ G0) -> liveAfter (if carrier s then w else reloc F w)) ->
  targetAfter s (if carrier s then w else reloc F w).
Proof.
  unfold targetOk. rewrite graphs_after, rooted_after. destruct (carrier s).
  - intros Ht Hl Hg. rewrite <- (reloc_graph w Hg). apply laid_moved; [by apply Ht|]. rewrite (reloc_graph w Hg). by apply Hl.
  - intros (Ht & Hp & Hg) Hl. split_and!; [apply laid_moved; [done|by apply Hl]|done|]. intros Hr.
    assert (Hsame : reloc F w = w); [|by rewrite Hsame in Hr |- *; apply Hg]. apply reloc_None. destruct (F !! w) as [x|] eqn:Hx; [|done].
    rewrite (reloc_Some _ _ _ Hx) in Hr. destruct (hi_F after_heap _ _ Hx) as (_ & _ & _ & Hn). destruct (rd_graph _ _ Hrd x Hr) as (_ & _ & [? ?]). congruence.
Qed.

(** A slot of an object that is reached afterwards, and what it was. *)
Lemma slot_after a n s w : liveAfter a -> objs fin !! a = Some n -> s ∈ LayAfter a -> words n !! slotIndex s = Some w ->
  exists b o w0, live b /\ a = reloc F b /\ heap0 !! b = Some o /\ s ∈ Lay b /\ words o !! slotIndex s = Some w0 /\
    w = (if carrier s then w0 else reloc F w0) /\ (w <> 0 -> w0 <> 0) /\ (w0 <> 0 -> target s w0) /\ kind n = kind o.
Proof.
  intros Hl Hn Hs Hw. destruct (reachable_after a Hl) as (b & Hlb & ->). rewrite LayAfter_reloc in Hs by done.
  destruct (live_word b s Hlb Hs) as (o & w0 & Ho & Hw0 & Ht). destruct (after_object b o Hlb Ho) as (n' & Hn' & Hsame).
  assert (n' = n) as -> by congruence. exists b, o, w0. rewrite (so_slots _ _ _ _ Hsame s w0 Hs Hw0) in Hw. injection Hw as <-.
  split_and!; try done; [|apply Hsame]. intros Hne ->. rewrite (reloc_0 st2 F D Hoc) in Hne. by destruct (carrier s).
Qed.

Lemma live_after a : liveAfter a -> exists n t, objs fin !! a = Some n /\ slotsOf (kind n) t = LayAfter a /\
  forall s, s ∈ LayAfter a -> exists w, words n !! slotIndex s = Some w /\ (w <> 0 -> targetAfter s w).
Proof.
  intros Hl. destruct (reachable_after a Hl) as (b & Hlb & ->). destruct (rd_live _ _ Hrd b Hlb) as (o & t & Ho & Ht & Hws).
  destruct (after_object b o Hlb Ho) as (n & Hn & Hsame). exists n, t. split; [done|]. rewrite LayAfter_reloc, (so_kind _ _ _ _ Hsame) by done.
  split; [done|]. intros s Hs. destruct (Hws s Hs) as (w & Hw & Htg). pose proof (so_slots _ _ _ _ Hsame s w Hs Hw) as Hw'. eexists. split; [exact Hw'|].
  intros Hne. apply target_moved; [apply Htg|].
  - intros ->. rewrite (reloc_0 st2 F D Hoc) in Hne. by destruct (carrier s).
  - intros Hc. eapply rc_slot; [exact Hl|exact Hn| |exact Hw'|exact Hne|]; [by rewrite LayAfter_reloc|]. rewrite graphs_after.
    intros Hcc. rewrite Hcc in *. by apply Hc.
Qed.

Lemma remembered_laid y t : remembered fin !! y = Some t -> young fin y = false /\ laidAfter t y.
Proof.
  intros Hy. assert (Hl : liveAfter y) by (apply rc_remembered; by eexists). destruct (remembered_after y t Hy) as [Hm|[Hm Hr]].
  - destruct (rd_remembered _ _ Hrd y t Hm) as [Hf Ht]. rewrite <- (reloc_old y Hf) at 2. split.
    + apply after_old; [|done]. destruct Ht as (_ & o & Ho & _). by eexists.
    + apply laid_moved; [done|]. by rewrite reloc_old.
  - destruct (qi_queue (oc_queue st2 F D Hoc) y t Hm) as (b & o & Ho & Hlb & Hob & Ht).
    pose proof (orig_reloc st2 F D Hoc _ _ Hlb Ho) as ->. destruct (after_object b o Hlb Hob) as (n & Hn & _).
    split; [|apply laid_moved; [|done]; split; [done|by exists o]]. apply after_address_young; [by eexists|].
    unfold rememberable in Hr. rewrite !andb_true_iff, !negb_true_iff in Hr. rewrite <- during_address. apply Hr.
Qed.

(** An old object that is not remembered has no young references. *)
Lemma young_refs a n t s w : objs fin !! a = Some n -> s ∈ slotsOf (kind n) t -> words n !! slotIndex s = Some w -> w <> 0 ->
  isYoungAddress fin w = true -> hasYoungRefs (cleared st2) a t = true.
Proof.
  intros [Hn _]%after_objs Hs Hw Hne Hy. unfold hasYoungRefs. apply existsb_exists. exists w. rewrite during_address, Hy. split; [|done].
  apply list_elem_of_In. unfold slotTargets. change (objs (cleared st2)) with (objs st2). rewrite Hn. apply list_elem_of_omap.
  exists s. split; [done|]. rewrite Hw. cbn [mbind option_bind]. by replace (w =? 0) with false by lia.
Qed.

Lemma listed_remembered a n t s w : (a, t) ∈ relocationScan st2 -> objs fin !! a = Some n -> young fin a = false ->
  (region (hdr n) = ElderGen /\ a ∈ oiterate (elder st2)) \/ (region (hdr n) = LargeObj /\ a ∈ oiterate (large st)) ->
  s ∈ slotsOf (kind n) t -> words n !! slotIndex s = Some w -> w <> 0 -> isYoungAddress fin w = true -> is_Some (remembered fin !! a).
Proof.
  intros Hin Hn Hy Hsp Hs Hw Hne Hyw. apply (rememberAll_all (cleared st2) _ _ a t Hin). unfold rememberable. cbn [fst snd].
  rewrite (young_refs a n t s w) by done. rewrite during_address, (after_address_old a) by (done || by eexists).
  assert (Ha0 : a <> 0).
  { intros ->. destruct (rd_null _ _ Hrd) as [HN _]. apply after_cases in Hn as [[[? ?] _]|(b & _ & _ & Hlow & _)]; [congruence|].
    destruct Hlow. lia. }
  replace (a =? 0) with false by lia. rewrite !andb_true_r. cbn [negb andb].
  apply after_objs in Hn as [Hn _]. unfold inAutoSpace, inElderGenSpace, inLargeObjSpace. replace (a =? 0) with false by lia.
  change (objs (cleared st2)) with (objs st2). change (elder (cleared st2)) with (elder st2). change (large (cleared st2)) with (large st2).
  rewrite Hn. destruct (oc_spaces _ _ _ Hoc) as (_ & _ & El & _). rewrite El. destruct Hsp as [[-> He]|[-> He]].
  - destruct (oiterate_contains _ _ (sp_elder after_space) He) as (-> & -> & _). cbn. by rewrite orb_true_r.
  - destruct (oiterate_contains _ _ (proj2 (rd_elder _ _ Hrd)) He) as (-> & -> & _). cbn. by rewrite !orb_true_r.
Qed.

Lemma quiet_after a n s w : liveAfter a -> quiet fin a -> objs fin !! a = Some n -> s ∈ LayAfter a -> carrier s = false ->
  words n !! slotIndex s = Some w -> w <> 0 -> young fin w = false.
Proof.
  intros Hl (Hya & _ & Hra & Hga) Hn Hs Hc Hw Hne. destruct (young fin w) eqn:Hyw; [exfalso|done]. rewrite graphs_after in Hga.
  destruct (slot_after a n s w Hl Hn Hs Hw) as (b & o & w0 & Hlb & Hab & Ho & Hsb & Hw0 & Hww & Hne0 & Htg & Hk). rewrite Hc in Hww.
  assert (Hadr : isYoungAddress fin w = true).
  { assert (Hlw : liveAfter w) by (eapply rc_slot; [exact Hl|exact Hn|exact Hs|exact Hw|done|congruence]).
    destruct (live_after w Hlw) as (nw & _ & Hnw & _). destruct (after_cases w nw Hnw) as [[Hh Hf]|(x & _ & Hcp)].
    - by rewrite after_old in Hyw.
    - apply after_copy in Hcp. rewrite Hyw in Hcp. apply Hcp. }
  assert (Hlisted : forall t, (a, t) ∈ relocationScan st2 -> slotsOf (kind n) t = Lay b).
  { intros t Ht. destruct (qi_queue (oc_queue st2 F D Hoc) a t Ht) as (b' & o' & Hor & Hlb' & Ho' & Hlay).
    assert (b' = b) as -> by (eapply (orig_unique st2 F D Hoc); [exact Hor|rewrite Hab; by apply (live_orig st2 F D Hoc)|exact Ho'|by eexists]). rewrite Hk. by assert (o' = o) as -> by congruence. }
  assert (Hscan : forall t, (a, t) ∈ relocationScan st2 ->
    (region (hdr n) = ElderGen /\ a ∈ oiterate (elder st2)) \/ (region (hdr n) = LargeObj /\ a ∈ oiterate (large st)) -> False).
  { intros t Ht Hsp. destruct (listed_remembered a n t s w) as [? ?]; try done; [by rewrite Hlisted|congruence]. }
  destruct (F !! b) as [x|] eqn:HFb.
  - rewrite (reloc_Some _ _ _ HFb) in Hab. subst x. destruct (proj1 (qi_listed (oc_queue st2 F D Hoc)) _ _ HFb) as [t Ht]. apply (Hscan t Ht). left.
    destruct (hi_copy after_heap _ _ _ HFb Ho) as (n' & Hn' & _ & Hcp & _). apply after_objs in Hn as [Hn _]. assert (n' = n) as -> by congruence.
    apply after_copy in Hcp. rewrite Hya in Hcp. by destruct Hcp as (? & ? & _).
  - rewrite (reloc_None _ _ HFb) in Hab. subst b. assert (Hfa : from a = false).
    { destruct (live_orig st2 F D Hoc a Hlb) as [?|[? _]]; [congruence|done]. }
    assert (Hrm : remembered st !! a = None).
    { destruct (remembered st !! a) as [t|] eqn:Hrt; [exfalso|done]. destruct (rd_remembered _ _ Hrd a t Hrt) as [_ (_ & o' & Ho' & Hlay)].
      assert (o' = o) as -> by congruence. assert (Hkept : is_Some (remembered fin !! a)); [|destruct Hkept; congruence].
      apply rememberAll_kept. exists t. apply map_lookup_filter_Some. split; [done|]. cbn. eapply young_refs; [done| |done..].
      by rewrite Hk, Hlay. }
    destruct (decide (a ∈ fresh0)) as [Hfr|Hfr].
    + destruct (decide (a ∈ fresh st2)) as [Hfr2|Hfr2].
      * destruct (reach_placed st2 F D Hoc a Hlb) as [(x & Hx & _)|(_ & _ & Hplaced)]; [congruence|].
        destruct (Hplaced Hfr) as [?|[? ?]]; [done|congruence].
      * destruct (proj2 (qi_listed (oc_queue st2 F D Hoc)) _ Hfr Hfr2) as [t Ht]. apply (Hscan t Ht).
        destruct (rd_fresh _ _ Hrd a Hfr) as (_ & o' & Ho' & Hsp). assert (o' = o) as -> by congruence.
        destruct (hi_old after_heap _ _ Ho Hfa) as (n' & Hn' & _ & Hhd & _). apply after_objs in Hn as [Hn _]. assert (n' = n) as -> by congruence.
        rewrite Hhd. destruct Hsp as [[? ?]|?]; [left|by right]. split; [done|]. by apply (oc_elder _ _ _ Hoc).
    + pose proof (rd_quiet _ _ Hrd a o s w0 Hlb ltac:(by split_and!) Ho Hsb Hw0 (Hne0 Hne)) as Hq. rewrite Hc in Hq.
      rewrite (reloc_old w0) in Hww by apply Hq. subst w0. destruct Hq as [Hfw _].
      assert (is_Some (heap0 !! w)); [|by rewrite after_old in Hyw]. specialize (Htg Hne). unfold targetOk in Htg. rewrite Hc in Htg.
      destruct Htg as [(_ & o' & Ho' & _) _]. by eexists.
Qed.

(** ** The heap is ready for the next one *)

Lemma survivors_young a : a ∈ survivors F st2 (youngFinalizables st) -> is_Some (objs fin !! a) /\ young fin a = true.
Proof.
  intros (b & _ & Hb)%list_elem_of_omap. destruct (F !! b) as [x|] eqn:Hx; [|done]. cbn [mbind option_bind] in Hb.
  destruct (inYoungGenSpace st2 x) eqn:Hy; [|done]. injection Hb as ->. destruct (hi_F after_heap _ _ Hx) as (_ & Hl & Hfx & _).
  destruct (live_Some _ Hl) as [o Ho]. destruct (hi_copy after_heap _ _ _ Hx Ho) as (n & Hn & _). split; [exists n; by apply after_objs|].
  unfold inYoungGenSpace in Hy. rewrite Hn in Hy. destruct (oc_spaces _ _ _ Hoc) as (Eb & Ec & _). rewrite Eb, Ec in Hy.
  rewrite after_young. unfold young in Hfx. apply orb_false_iff in Hfx as [Hb Hc]. rewrite Hb, Hc, orb_false_r in Hy. cbn in Hy.
  apply andb_true_iff in Hy as [_ Hy]. by rewrite Hb, <- contains_haven, Hy.
Qed.

Lemma apart_after x : (contains (birth fin) x = true -> contains (haven fin) x = false /\ contains (cache fin) x = false) /\
  (contains (haven fin) x = true -> contains (cache fin) x = false).
Proof.
  destruct after_spaces as (Eb & Eh & Ec & _). rewrite Eb, Eh, Ec, contains_haven.
  change (contains (reset (birth st)) x) with (contains (birth st) x). change (contains (reset (haven st)) x) with (contains (haven st) x).
  destruct (rd_apart _ _ Hrd x) as [Hb Hh]. destruct (contains (birth st) x), (contains (haven st) x), (contains (cache st) x);
    (split; [intros He; try (destruct (Hb He)); try done|intros He; try (specialize (Hh eq_refl)); try done]); by destruct (Hb eq_refl).
Qed.

Lemma null_after : objs fin !! 0 = None /\ young fin 0 = false.
Proof.
  destruct (rd_null _ _ Hrd) as [HN Hy]. split.
  - destruct (objs fin !! 0) as [n|] eqn:Hn; [exfalso|done]. apply after_cases in Hn as [[[? ?] _]|(b & _ & _ & Hlow & _)]; [congruence|]. destruct Hlow. lia.
  - rewrite after_young. unfold young in Hy. apply orb_false_iff in Hy as [-> _]. destruct (rd_bounds _ _ Hrd) as (_ & _ & Hc & _).
    unfold contains, kHeaderBytes. lia.
Qed.

Lemma housed_after p : p ∈ oiterate (elder fin) \/ p ∈ oiterate (large fin) -> is_Some (objs fin !! p).
Proof.
  destruct after_spaces as (_ & _ & _ & _ & El & _). rewrite El. change (elder fin) with (elder st2).
  assert (Hyoung : from p = true -> isYoungAddress st (p - kHeaderBytes) = true).
  { unfold young, isYoungAddress. intros [-> | ->]%orb_true_iff; by rewrite ?orb_true_r. }
  intros [Hp|Hp].
  - destruct (hi_housed after_heap p Hp) as [n Hn]. exists n. apply after_objs. split; [done|].
    destruct (oiterate_contains _ _ (sp_elder after_space) Hp) as (_ & _ & _ & Hno & _).
    apply not_true_is_false. by intros Hf%Hyoung%elder_avoids.
  - destruct (rd_housed _ _ Hrd p) as [o Ho]; [by right|]. destruct (oiterate_contains _ _ (proj2 (rd_elder _ _ Hrd)) Hp) as (_ & _ & _ & Hno & _).
    assert (Hf : from p = false). { apply not_true_is_false. by intros [_ ?]%Hyoung%(rd_spaces _ _ Hrd). }
    destruct (hi_old after_heap _ _ Ho Hf) as (n & Hn & _). exists n. by apply after_objs.
Qed.

Lemma ready_after : carriersRooted st Lay -> ready fin LayAfter /\ carriersRooted fin LayAfter.
Proof.
  intros Hcr. assert (Hcr' : carriersRooted fin LayAfter).
  { intros a n s w Hl Hn Hs Hc Hw Hg. rewrite graphs_after in Hg. rewrite rooted_after.
    destruct (slot_after a n s w Hl Hn Hs Hw) as (b & o & w0 & Hlb & _ & Ho & Hsb & Hw0 & -> & _). rewrite Hc in Hg |- *. by eapply Hcr. }
  split; [|done]. destruct after_spaces as (Eb & Eh & Ec & Ee & El & Es & En). destruct (rd_bounds _ _ Hrd) as (Bb & Bh & Bc).
  destruct (oc_rest _ _ _ Hoc) as (Er & Ecl & _ & _ & _ & Ep & _). split.
  - done.
  - pose proof (rd_copying _ _ Hrd) as Hc. injection Ep as Ep _. change (pacing fin) with (pacing st2). congruence.
  - exact live_after.
  - intros a n Hn Hy. destruct (after_cases a n Hn) as [[? Hf]|(b & _ & Hcp)]; [by rewrite after_old in Hy|].
    apply after_copy in Hcp. by rewrite Hy in Hcp.
  - exact after_address_old.
  - rewrite graphs_after. intros g Hg. destruct (after_graph g Hg). by split_and!.
  - intros a Ha. by apply elem_of_empty in Ha.
  - exact null_after.
  - change (rootSets fin) with (rootSets st2). rewrite Er. pose proof (rd_roots _ _ Hrd) as Hall. rewrite Forall_forall in Hall |- *.
    intros r Hr. destruct (Hall r Hr) as [?|[Hg Hlaid]]; [by left|right]. rewrite graphs_after. split; [done|]. rewrite <- (reloc_graph r Hg).
    apply laid_moved; [done|]. rewrite (reloc_graph r Hg). apply rc_root; [change (rootSets fin) with (rootSets st2); by rewrite Er|].
    intros ->. destruct (rd_graph _ _ Hrd 0 Hg) as (_ & _ & [? ?]). destruct (rd_null _ _ Hrd). congruence.
  - change (cells fin) with (cells st2). rewrite Ecl. pose proof (rd_cells _ _ Hrd) as Hall. rewrite Forall_forall in Hall |- *.
    intros c' (c & -> & Hc)%list_elem_of_fmap Hne. specialize (Hall c Hc). pose proof (target_moved (cellSlot c) (cellRef c)) as Hmv. cbn in Hmv |- *.
    unfold cellSlot in Hmv |- *. cbn in Hmv |- *.
    apply Hmv; [apply Hall; intros E0; cbn in Hne; rewrite E0, (reloc_0 st2 F D Hoc) in Hne; by destruct (cellCarrier c)|].
    intros Hg. apply (rc_cell fin LayAfter (movedCell F c)); [change (cells fin) with (cells st2); rewrite Ecl; by apply list_elem_of_fmap_2|done|].
    rewrite graphs_after. intros Hcc. cbn in Hcc |- *. rewrite Hcc in *. auto.
  - exact remembered_laid.
  - intros a n s w Hl Hq Hn Hs Hw Hne. destruct (carrier s) eqn:Hc; [by eapply Hcr'|]. split; [by eapply quiet_after|apply not_elem_of_empty].
  - apply Forall_forall. exact survivors_young.
  - rewrite Eb, Eh, Ec. split; [done|]. split; [|done]. unfold boundsOk in *. by rewrite Es, En.
  - exact apart_after.
  - intros a. rewrite Ec. change (contains (reset (haven st)) (a - kHeaderBytes)) with (contains (haven st) (a - kHeaderBytes)). intros Ha.
    destruct (objs fin !! a) as [n|] eqn:Hn; [exfalso|done]. apply after_objs in Hn as [_ Hf]. unfold young in Hf. by rewrite Ha, orb_true_r in Hf.
  - rewrite El. change (elder fin) with (elder st2). split; [apply after_space|apply (rd_elder _ _ Hrd)].
  - intros x [n [Hn _]%after_objs]. change (elder fin) with (elder st2). apply (sp_avoids after_space). by eexists.
  - intros x Hx. rewrite after_address in Hx. rewrite El. change (elder fin) with (elder st2). split; [by apply elder_avoids|by apply (rd_spaces _ _ Hrd)].
  - exact housed_after.
Qed.
End After.

Lemma minorGC_run : exists st2 F D, outcome st2 F D /\ minorGC st = Some (final st2 F).
Proof.
  destruct run_ok as (st1 & st2 & F & D & E1 & E2 & Hoc). exists st2, F, D. split; [done|].
  unfold minorGC. rewrite (rd_copying _ _ Hrd), (rd_idle _ _ Hrd). cbn [negb]. rewrite guarded_true by done. rewrite E1. cbn [mbind option_bind]. rewrite E2. cbn [mbind option_bind].
  by apply (finish_ok st2 F D).
Qed.

(** ** What a collection does *)

(** [F] says where the objects are moved; [Lay'] is the layout of the addresses afterwards. *)
Record collected (F : gmap Z Z) (Lay' : Z -> list (Slot Ty)) (st' : GC Kind Ty E LO) : Prop := {
  cl_moved : forall a, is_Some (F !! a) <-> live a /\ from a = true;
  cl_apart : forall a b, live a -> live b -> reloc F a = reloc F b -> a = b;
  cl_kept : forall a o, live a -> heap0 !! a = Some o -> exists n, objs st' !! reloc F a = Some n /\ sameObject F a o n;
  cl_layout : forall a, live a -> Lay' (reloc F a) = Lay a;
  cl_roots : rootSets st' = rootSets st /\ cells st' = (movedCell F <$> cells st);
  cl_left : forall y, is_Some (objs st' !! y) -> (is_Some (heap0 !! y) /\ from y = false) \/ exists a, F !! a = Some y;
  cl_emptied : birth st' = reset (birth st) /\ cache st' = reset (haven st) /\ forall a, from a = true -> objs st' !! a = None;
  cl_old : forall y o, heap0 !! y = Some o -> from y = false -> exists n, objs st' !! y = Some n /\ kind n = kind o /\ hdr n = hdr o;
  cl_copies : forall a x, F !! a = Some x -> young st' x = true \/ x ∈ oiterate (elder st');
  cl_spaces : large st' = large st /\ graphSpace st' = graphSpace st /\ markedSinceClear st' = markedSinceClear st /\
    ook (elder st') /\ (forall p, p ∈ oiterate (elder st) -> p ∈ oiterate (elder st')) /\ (forall x, oavoids (elder st) x -> oavoids (elder st') x);
  cl_null : objs st' !! 0 = None;
  cl_housed : forall p, p ∈ oiterate (elder st') \/ p ∈ oiterate (large st') -> is_Some (objs st' !! p);
  cl_finalized : finalized st' = finalized st ++ filter (fun a => F !! a = None) (youngFinalizables st);
  cl_regions : forall a x, F !! a = Some x -> exists n, objs st' !! x = Some n /\
    if young st' x then region (hdr n) = YoungGen else region (hdr n) = ElderGen /\ x ∈ oiterate (elder st');
  cl_remembered : forall y, is_Some (remembered st' !! y) -> is_Some (remembered st !! y) \/
    exists n, objs st' !! y = Some n /\ (region (hdr n) = ElderGen \/ region (hdr n) = LargeObj);
  cl_rest : fresh st' = ∅ /\ settingsOf (pacing st') = settingsOf (pacing st);
  cl_reachable : forall y, reachable st' Lay' y -> exists a, live a /\ y = reloc F a;
}.

Lemma outcome_collected st2 F D : outcome st2 F D -> collected F (LayAfter F) (final st2 F).
Proof.
  intros Hoc. destruct (after_spaces st2 F D Hoc) as (Eb & _ & Ec & _). destruct (oc_rest _ _ _ Hoc) as (Er & Ecl & _). split.
  - exact (copied_exactly st2 F D Hoc).
  - exact (reloc_inj st2 F D Hoc).
  - exact (after_object st2 F D Hoc).
  - exact (LayAfter_reloc st2 F D Hoc).
  - done.
  - intros y [n Hn]. destruct (after_cases st2 F D Hoc y n Hn) as [?|(a & ? & _)]; [by left|right; by exists a].
  - split; [done|]. split; [done|]. intros a Ha. destruct (objs _ !! a) as [n|] eqn:Hn; [exfalso|done].
    apply (after_objs st2 F D Hoc) in Hn as [_ Hf]. congruence.
  - intros y o Ho Hf. destruct (hi_old (oc_heap st2 F D Hoc) _ _ Ho Hf) as (n & Hn & Hk & Hh & _). exists n. split_and!; try done. by apply (after_objs st2 F D Hoc).
  - intros a x Ha. destruct (hi_F (oc_heap st2 F D Hoc) _ _ Ha) as (_ & Hl & _ & _). destruct (live_Some _ Hl) as [o Ho].
    destruct (hi_copy (oc_heap st2 F D Hoc) _ _ _ Ha Ho) as (n & _ & _ & Hc & _). apply (after_copy st2 F D Hoc) in Hc.
    destruct (young _ x); [by left|right]. apply Hc.
  - destruct (oc_rest _ _ _ Hoc) as (_ & _ & _ & _ & _ & _ & Em). destruct (after_spaces st2 F D Hoc) as (_ & _ & _ & _ & El & _).
    split_and!; try done; [apply (graphs_after st2 F D Hoc)|apply (oc_space st2 F D Hoc)|apply (oc_elder _ _ _ Hoc)|apply (oc_avoids _ _ _ Hoc)].
  - apply (null_after st2 F D Hoc).
  - exact (housed_after st2 F D Hoc).
  - done.
  - intros a x Ha. destruct (hi_F (oc_heap st2 F D Hoc) _ _ Ha) as (_ & Hl & Hf & _). destruct (live_Some _ Hl) as [o Ho].
    destruct (hi_copy (oc_heap st2 F D Hoc) _ _ _ Ha Ho) as (n & Hn & _ & Hc & _). exists n. split; [by apply (after_objs st2 F D Hoc)|].
    apply (after_copy st2 F D Hoc) in Hc. destruct (young (final st2 F) x); [apply Hc|]. by destruct Hc as (? & ? & _).
  - intros y [t Hy]. destruct (remembered_after st2 F D Hoc y t Hy) as [?|[_ Hr]]; [left; by eexists|right]. exact (remembered_region st2 F D Hoc y t Hr).
  - split; [done|]. apply (oc_rest _ _ _ Hoc).
  - exact (reachable_after st2 F D Hoc).
Qed.

Lemma minorGC_collects : exists st' F, minorGC st = Some st' /\ collected F (LayAfter F) st' /\
  (carriersRooted st Lay -> ready st' (LayAfter F) /\ carriersRooted st' (LayAfter F)).
Proof.
  destruct minorGC_run as (st2 & F & D & Hoc & Hgc). exists (final st2 F), F. split; [done|].
  split; [by eapply outcome_collected|by eapply ready_after].
Qed.
End Run.
End MinorOk.
