(* ===== verification/GcSpaces.v ===== *)
(** * The old spaces

    The elder space is the growable free-list space of Growable.v, whose buffers come from the host in
    addresses of its own: the instance [elderSpace] of the interface [OldSpace] (GcState.v). The
    instance of the large objects is in LargeObj.v. *)

From stdpp Require Import gmap.
From S2P Require Import Prelude ObjHeader GcState FreeList FreeListInv FreeListOps FreeListBulk Growable GrowableOps.
#[local] Open Scope Z_scope.

(** ** The arenas of segments *)

Definition sameArena (fa fa' : FreeListAllocator) : Prop := start_ fa' = start_ fa /\ end_ fa' = end_ fa.

(** The ways a computation can have returned. *)
Ltac cases Hc := unfold mbind, option_bind, guarded in Hc;
  repeat match type of Hc with context [match ?x with _ => _ end] => destruct x eqn:?; try discriminate Hc end.

Lemma setLink_arena fa m l b fa' m' : setLink fa m l b = Some (fa', m') -> sameArena fa fa'.
Proof. unfold setLink. intros Hl. cases Hl; simplify_eq; by split. Qed.

Lemma alloc_arena fa m n p fa' m' : FreeList.alloc fa m n = Some (p, fa', m') -> sameArena fa fa'.
Proof.
  unfold FreeList.alloc, takeBlock. intros Ha. repeat (case_match || csimp); try done;
    match goal with Hl : setLink _ _ _ _ = Some _ |- _ => apply setLink_arena in Hl; destruct Hl end; split; cbn; congruence.
Qed.

Lemma insert_arena fa m a n r x fa' m' : insertAndCoalesce fa m a n r = Some (x, fa', m') -> sameArena fa fa'.
Proof.
  unfold insertAndCoalesce. intros Ha. cases Ha; simplify_eq; first [by split|by eapply setLink_arena].
Qed.

Lemma insertBulk_arena bl : forall fa m r fa' m', insertBulk fa m r bl = Some (fa', m') -> sameArena fa fa'.
Proof.
  induction bl as [|[a n] bl IH]; intros fa m r fa' m' Hb; cbn [insertBulk] in Hb; [by simplify_eq|].
  destruct (insertAndCoalesce fa m a n r) as [[[x fb] mb]|] eqn:Ei; [|done]. cbn [mbind option_bind] in Hb.
  apply insert_arena in Ei as [? ?]. apply IH in Hb as [? ?]. split; congruence.
Qed.

Lemma releasedSize_arena fa m p n fa' : releasedSize fa m p = Some (n, fa') -> sameArena fa fa'.
Proof. unfold releasedSize. intros Hr. cases Hr; simplify_eq; by split. Qed.

Lemma bulkBlocks_arena l : forall fa m bl fa', bulkBlocks fa m l = Some (bl, fa') -> sameArena fa fa'.
Proof.
  induction l as [|hdr l IH]; intros fa m bl fa' Hb; cbn [bulkBlocks] in Hb; [by simplify_eq|].
  destruct (releasedSize fa m (hdr + kHeaderBytes)) as [[n fb]|] eqn:Er; [|done]. cbn [mbind option_bind] in Hb.
  apply guarded_Some in Hb as [_ Hb]. destruct (bulkBlocks fb m l) as [[bl1 fc]|] eqn:Eb; [|done]. cbn [mbind option_bind] in Hb. simplify_eq.
  apply releasedSize_arena in Er as [? ?]. apply IH in Eb as [? ?]. split; congruence.
Qed.

Lemma freeBulk_arena fa m l fa' m' : FreeList.freeBulk fa m l = Some (fa', m') -> sameArena fa fa'.
Proof.
  unfold FreeList.freeBulk. intros Hf. destruct l as [|hdr l]; [by simplify_eq|].
  destruct (bulkBlocks fa m (hdr :: l)) as [[bl fb]|] eqn:Eb; [|done]. cbn [mbind option_bind] in Hf. apply guarded_Some in Hf as [_ Hf].
  apply bulkBlocks_arena in Eb as [? ?]. apply insertBulk_arena in Hf as [? ?]. split; congruence.
Qed.

(** All segments are in [arena]. *)
Definition inArena (arena : Z -> bool) (segments : list FreeListAllocator) : Prop :=
  Forall (fun fa => forall x, start_ fa <= x < end_ fa -> arena x = true) segments.

Lemma inArena_update arena segments i fa fa' : inArena arena segments -> segments !! i = Some fa -> sameArena fa fa' ->
  inArena arena (<[i := fa']> segments).
Proof.
  intros Hin Hi [Es Ee]. apply Forall_insert; [done|]. rewrite Es, Ee. by apply (Forall_lookup_1 _ _ _ _ Hin Hi).
Qed.

Lemma trySegments_arena arena order : forall segments m n segments' m' r, inArena arena segments ->
  trySegments segments m n order = Some (segments', m', r) -> inArena arena segments'.
Proof.
  induction order as [|i order IH]; intros segments m n segments' m' r Hin Ht; cbn [trySegments] in Ht; [by simplify_eq|].
  destruct (segments !! i) as [fa|] eqn:Hi; [|done]. cbn [mbind option_bind] in Ht.
  destruct (FreeList.alloc fa m n) as [[[p fb] mb]|] eqn:Ea; [|done]. cbn [mbind option_bind] in Ht. apply alloc_arena in Ea.
  pose proof (inArena_update _ _ _ _ _ Hin Hi Ea) as Hin'. case_match; [by eapply IH|by simplify_eq].
Qed.

Lemma releaseIn_arena arena owner indices : forall segments m objects segments' m', inArena arena segments ->
  releaseIn segments owner m objects indices = Some (segments', m') -> inArena arena segments'.
Proof.
  induction indices as [|i indices IH]; intros segments m objects segments' m' Hin Hr; cbn [releaseIn] in Hr; [by simplify_eq|].
  destruct (filter _ objects) as [|x l]; [by eapply IH|]. destruct (segments !! i) as [fa|] eqn:Hi; [|done]. cbn [mbind option_bind] in Hr.
  destruct (FreeList.freeBulk fa m (x :: l)) as [[fb mb]|] eqn:Ef; [|done]. cbn [mbind option_bind] in Hr. apply freeBulk_arena in Ef.
  eapply IH; [|exact Hr]. by eapply inArena_update.
Qed.

Lemma releaseBulk_arena arena sp m l sp' m' : inArena arena (segments_ sp) -> Growable.releaseBulk sp m l = Some (sp', m') ->
  inArena arena (segments_ sp').
Proof.
  intros Hin Hr. unfold Growable.releaseBulk in Hr. case_match.
  - destruct (headerBytes m l) as [n|]; [|done]. cbn [mbind option_bind] in Hr. destruct (segments_ sp !! 0%nat) as [fa|] eqn:Hi; [|done].
    cbn [mbind option_bind] in Hr. destruct (FreeList.freeBulk fa m l) as [[fb mb]|] eqn:Ef; [|done]. cbn [mbind option_bind] in Hr.
    simplify_eq. cbn. apply freeBulk_arena in Ef. by eapply inArena_update.
  - destruct (headerBytes _ _) as [n|]; [|done]. cbn [mbind option_bind] in Hr. destruct (releaseIn _ _ _ _ _) as [[s mb]|] eqn:Er; [|done].
    cbn [mbind option_bind] in Hr. simplify_eq. cbn. by eapply releaseIn_arena.
Qed.

Lemma allocSlow_arena newBuffer arena sp m n k o sp' m' :
  (forall m n b m', newBuffer m n = Some (b, m') -> forall x, b <= x < b + n -> arena x = true) ->
  inArena arena (segments_ sp) -> allocSlow newBuffer sp m n k = Some (o, sp', m') -> inArena arena (segments_ sp').
Proof.
  intros Hnew Hin Ha. unfold allocSlow in Ha. destruct (trySegments _ _ _ _) as [[[s mb] found]|] eqn:Et; [|done]. cbn [mbind option_bind] in Ha.
  pose proof (trySegments_arena arena _ _ _ _ _ _ _ Hin Et) as Hs. destruct found as [[i p]|].
  { unfold granted in Ha. cases Ha. by simplify_eq. }
  destruct (nextSegmentBytes _ _ _) as [bytes|e]; [|by simplify_eq]. destruct (newBuffer mb _) as [[b mc]|] eqn:Eb; [|by simplify_eq].
  unfold create in Ha. destruct (setBlock _ _ _ _) as [md|]; [|done]. cbn [mbind option_bind] in Ha.
  destruct (FreeList.alloc _ _ _) as [[[p fa] me]|] eqn:Ea; [|done]. cbn [mbind option_bind] in Ha. apply alloc_arena in Ea as [Es Ee].
  unfold granted in Ha. cases Ha. simplify_eq. cbn. apply Forall_app. split; [done|]. constructor; [|constructor].
  rewrite Es, Ee. cbn. by eapply Hnew.
Qed.

Lemma allocate_arena newBuffer arena sp m n o sp' m' :
  (forall m n b m', newBuffer m n = Some (b, m') -> forall x, b <= x < b + n -> arena x = true) ->
  inArena arena (segments_ sp) -> allocate newBuffer sp m n = Some (o, sp', m') -> inArena arena (segments_ sp').
Proof.
  intros Hnew Hin Ha. unfold allocate in Ha. case_match; [by eapply allocSlow_arena|].
  destruct (trySegments _ _ _ [_]) as [[[s mb] found]|] eqn:Et; [|done]. cbn [mbind option_bind] in Ha.
  pose proof (trySegments_arena arena _ _ _ _ _ _ _ Hin Et) as Hs. destruct found as [[i p]|].
  { unfold granted in Ha. cases Ha. by simplify_eq. }
  destruct (trySegments _ _ _ (otherSegments _ _)) as [[[s2 mc] found]|] eqn:Et2; [|done]. cbn [mbind option_bind] in Ha.
  pose proof (trySegments_arena arena _ _ _ _ _ _ _ Hs Et2) as Hs2. destruct found as [[i p]|].
  { unfold granted in Ha. cases Ha. by simplify_eq. }
  by eapply allocSlow_arena; [..|exact Ha].
Qed.

(** ** The blocks in order *)

Lemma usedAt_from a L p : positive L -> p ∈ usedAt a L -> a <= p.
Proof.
  revert a. induction L as [|b L IH]; intros a Hp Hin; [by apply elem_of_nil in Hin|].
  assert (Hb : 0 < blen b) by (apply Hp; left). assert (HL : positive L) by (intros c Hc; apply Hp; by right).
  destruct b as [n|n]; cbn in Hin, Hb; [|apply elem_of_cons in Hin as [->|Hin]; [lia|]]; apply IH in Hin; (done || lia).
Qed.

Lemma usedAt_nodup a L : positive L -> NoDup (usedAt a L).
Proof.
  revert a. induction L as [|b L IH]; intros a Hp; [constructor|].
  assert (Hb : 0 < blen b) by (apply Hp; left). assert (HL : positive L) by (intros c Hc; apply Hp; by right).
  destruct b as [n|n]; cbn in Hb |- *; [by apply IH|]. apply NoDup_cons. split; [|by apply IH].
  intros Hin%usedAt_from; [lia|done].
Qed.

Lemma segsOk_tail h fa segs m L Ls : segsOk h (fa :: segs) m (L :: Ls) -> segsOk h segs m Ls.
Proof.
  intros [He Ha]. apply Forall2_cons in He as [_ He]. split; [done|]. intros i j fb fc Hne Hi Hj. apply (Ha (S i) (S j)); [lia|done..].
Qed.

Lemma iterate_nodup h segs : forall m Ls, segsOk h segs m Ls ->
  exists l, iterateSegments m segs = Some l /\ NoDup l /\ forall q, q ∈ l -> exists k, heldIn segs Ls q k.
Proof.
  induction segs as [|fa segs IH]; intros m Ls Hok.
  { exists []. split; [done|]. split; [constructor|]. by intros q ?%elem_of_nil. }
  pose proof (so_each _ _ _ _ Hok) as He. destruct Ls as [|L Ls]; [by apply Forall2_cons_nil_inv in He|].
  apply Forall2_cons in He as [(Hti & Ht & _) _]. destruct (IH m Ls (segsOk_tail _ _ _ _ _ _ Hok)) as (l & El & Hnd & Hl).
  cbn [iterateSegments]. rewrite (iterateAllocated_spec fa m L Hti). cbn [mbind option_bind]. rewrite El. cbn [mbind option_bind].
  assert (Hmine : forall q, q ∈ usedAt (start_ fa) L -> exists k, heldIn (fa :: segs) (L :: Ls) q k).
  { intros q [k Hk]%elem_of_usedAt. by exists k, 0%nat, fa, L. }
  assert (Hrest : forall q, q ∈ l -> exists k i fb Lb, segs !! i = Some fb /\ Ls !! i = Some Lb /\ (q, Used k) ∈ blocksAt (start_ fb) Lb).
  { intros q Hq. destruct (Hl q Hq) as (k & i & fb & Lb & ?). by exists k, i, fb, Lb. }
  eexists. split; [done|]. split.
  - apply NoDup_app. split; [apply usedAt_nodup; by eapply seg_positive, Hti|]. split; [|done].
    intros q [k Hk]%elem_of_usedAt (k' & i & fb & Lb & Hi & HL & Hk')%Hrest.
    assert (H0 : (fa :: segs) !! 0%nat = Some fa) by done. assert (HS : (fa :: segs) !! S i = Some fb) by done.
    pose proof (held_in_arena h _ m _ 0%nat fa L q _ Hok H0 eq_refl Hk) as (? & ? & ? & ?).
    pose proof (held_in_arena h _ m _ (S i) fb Lb q _ Hok HS HL Hk') as (? & ? & ? & ?). cbn [blen] in *.
    destruct (so_apart _ _ _ _ Hok 0%nat (S i) fa fb); [done..|lia|lia].
  - intros q [Hq|Hq]%elem_of_app; [by apply Hmine|]. destruct (Hrest q Hq) as (k & i & fb & Lb & ?). by exists k, (S i), fb, Lb.
Qed.

(** ** The elder space *)

(** The allocator and the memory of its segments. *)
Record ElderSpace := mkElder { space : GrowableFreeListAllocator; memory : Mem }.

Section Elder.
Context (newBuffer : Mem -> Z -> option (Z * Mem)) (arena : Z -> bool).

Definition elderRefusal (e : ElderSpace) (n : Z) : Exhaustion :=
  match allocate newBuffer (space e) (memory e) n with
  | Some (Exhausted x, _, _) => mkExhaustion (requestedBytes x) (usedAtFailure x) (limitAtFailure x)
  | _ => mkExhaustion 0 0 0
  end.

Definition elderAlloc (e : ElderSpace) (n : Z) : option (Z * Z * ElderSpace) :=
  '(o, sp, m) ← allocate newBuffer (space e) (memory e) n;
  match o with
  | Exhausted _ => None
  | Allocated p => h ← load m (p - kHeaderBytes); b ← ObjHeader.size h; Some (p, b, mkElder sp m)
  end.

Definition elderFreeBulk (e : ElderSpace) (payloads : list Z) : option ElderSpace :=
  '(sp, m) ← Growable.releaseBulk (space e) (memory e) ((fun p => p - kHeaderBytes) <$> payloads);
  Some (mkElder sp m).

Definition elderIterate (e : ElderSpace) : list Z :=
  (fun h => h + kHeaderBytes) <$> default [] (Growable.iterateAllocated (space e) (memory e)).

Definition elderOk (e : ElderSpace) : Prop := exists Ls, spaceOk (space e) (memory e) Ls /\ inArena arena (segments_ (space e)) /\
  forall q k, held (space e) Ls q k -> kFreeBlockBytes <= k.

Context (newBuffer_fresh : forall m n b m', newBuffer m n = Some (b, m') ->
  0 < b /\ b mod 8 = 0 /\ backed m' b (b + n) /\ (forall x, b <= x < b + n -> m !! x = None) /\ outside b (b + n) m m').
Context (newBuffer_arena : forall m n b m', newBuffer m n = Some (b, m') -> forall x, b <= x < b + n -> arena x = true).
(** The last page of the lower half of the addresses is never mapped. *)
Context (arena_low : forall x, arena x = true -> x < 2 ^ 47 - 4096).

Lemma elder_held e Ls q k : spaceOk (space e) (memory e) Ls -> inArena arena (segments_ (space e)) -> held (space e) Ls q k ->
  0 < q /\ q + k < 2 ^ 47 /\ (forall x, q <= x < q + k -> arena x = true /\ Growable.contains (space e) x = true).
Proof.
  intros Hsp Hin (i & fa & L & Hi & HL & Hq). pose proof (held_in_arena _ _ _ _ _ _ _ _ _ (sp_segs _ _ _ Hsp) Hi HL Hq) as (? & ? & ? & ?).
  cbn [blen] in *. assert (Hx : forall x, q <= x < q + k -> arena x = true /\ Growable.contains (space e) x = true).
  { intros x Hx. split; [apply (Forall_lookup_1 _ _ _ _ Hin Hi); lia|]. unfold Growable.contains. apply bool_decide_eq_true.
    rewrite (segmentOf_spec _ _ _ i fa x Hsp) by (done || lia). by eexists. }
  split_and!; [lia| |done]. destruct (Hx (q + k - 1)) as [?%arena_low _]; lia.
Qed.

Lemma elder_iterate e Ls : spaceOk (space e) (memory e) Ls -> NoDup (elderIterate e) /\
  forall p, p ∈ elderIterate e <-> exists k, held (space e) Ls (p - kHeaderBytes) k.
Proof.
  intros Hsp. destruct (iterateAllocated_ok _ _ _ Hsp) as (l & El & Hl). destruct (iterate_nodup _ _ _ _ (sp_segs _ _ _ Hsp)) as (l' & El' & Hnd & _).
  unfold Growable.iterateAllocated in El. rewrite El in El'. injection El' as <-. unfold elderIterate, Growable.iterateAllocated. rewrite El. cbn [default].
  split; [apply NoDup_fmap_2; [intros ???; lia|done]|]. intros p. rewrite list_elem_of_fmap. split.
  - intros (q & -> & Hq). rewrite Z.add_simpl_r. by apply Hl.
  - intros Hk. exists (p - kHeaderBytes). split; [lia|by apply Hl].
Qed.

Lemma elder_alloc_ok e n p b e' : elderOk e -> 0 < n < 2 ^ 47 -> elderAlloc e n = Some (p, b, e') ->
  elderOk e' /\ (p ∉ elderIterate e) /\ (forall q, q ∈ elderIterate e' <-> q ∈ elderIterate e \/ q = p) /\
  kHeaderBytes + n <= b /\ kHeaderBytes < p /\ p - kHeaderBytes + b < 2 ^ 47.
Proof.
  intros (Ls & Hsp & Hin & Hmin) Hn Ha. unfold elderAlloc in Ha.
  destruct (allocate_spec newBuffer newBuffer_fresh _ _ _ n Hsp ltac:(lia)) as (o & sp & m & Eal & Ho). rewrite Eal in Ha. cbn [mbind option_bind] in Ha.
  destruct o as [p'|?]; [|done]. destruct Ho as (Ls' & [G1 G2 G3 (k & Hk & G4) G5 G6]).
  assert (Hp : held sp Ls' (p' - kHeaderBytes) k) by (apply G4; by right).
  destruct (held_size _ _ _ _ _ _ (sp_segs _ _ _ G1) Hp) as (w & Hw & Hs & _). unfold load in Ha. rewrite Hw in Ha. cbn [mbind option_bind] in Ha.
  rewrite Hs in Ha. cbn [mbind option_bind] in Ha. injection Ha as -> <- <-.
  pose proof (allocate_arena newBuffer arena _ _ _ _ _ _ newBuffer_arena Hin Eal) as Hin'.
  destruct (elder_held (mkElder sp m) Ls' _ _ G1 Hin' Hp) as (Hq & Hlow & _).
  destruct (elder_iterate e Ls Hsp) as [_ Hi]. destruct (elder_iterate (mkElder sp m) Ls' G1) as [_ Hi'].
  split_and!; try lia.
  - exists Ls'. split_and!; try done. intros q j [Hq'|[-> ->]]%G4; [by eapply Hmin|]. cbn in *.
    destruct Hp as (i & fa & L & Hfa & HL & Hb). destruct (segsOk_lookup _ _ _ _ _ _ (sp_segs _ _ _ G1) Hfa) as (L0 & HL0 & Hti & _). simplify_eq.
    pose proof (seg_aligned _ _ _ _ _ _ _ (proj2 (ti_start _ _ _ Hti)) (ti_seg _ _ _ Hti) Hb) as Hal. cbn in Hal.
    unfold kHeaderBytes, kFreeBlockBytes in *. pose proof (Z.div_mod k 8). lia.
  - intros (j & Hj)%Hi. pose proof (held_size _ _ _ _ _ _ (sp_segs _ _ _ Hsp) Hj) as (_ & _ & _ & Hj8). destruct (G5 _ _ Hj); unfold kHeaderBytes in *; lia.
  - intros q. rewrite Hi', Hi. setoid_rewrite G4. split.
    + intros (j & [Hj|[Hj _]]); [left; by exists j|right; lia].
    + intros [[j Hj]| ->]; [exists j; by left|exists k; by right].
Qed.

Lemma elder_freeBulk_ok e ps : elderOk e -> NoDup ps -> (forall p, p ∈ ps -> p ∈ elderIterate e) ->
  exists e', elderFreeBulk e ps = Some e' /\ elderOk e' /\ forall q, q ∈ elderIterate e' <-> q ∈ elderIterate e /\ q ∉ ps.
Proof.
  intros (Ls & Hsp & Hin & Hmin) Hnd Hps. destruct (elder_iterate e Ls Hsp) as [_ Hi].
  assert (Hbl : exists bl, bl.*1 = (fun p => p - kHeaderBytes) <$> ps /\ forall b n, (b, n) ∈ bl -> held (space e) Ls b n).
  { clear Hnd. induction ps as [|p ps IH]; [by exists []; split; [done|]; intros ? ? ?%elem_of_nil|].
    destruct IH as (bl & Ebl & Hbl); [intros; apply Hps; by right|]. destruct (proj1 (Hi p) (Hps p ltac:(left))) as [k Hk].
    exists ((p - kHeaderBytes, k) :: bl). split; [cbn; by rewrite Ebl|]. intros b n [[= -> ->]|?]%elem_of_cons; auto. }
  destruct Hbl as (bl & Ebl & Hbl).
  destruct (releaseBulk_spec (space e) (memory e) Ls bl Hsp) as (sp & m & Ls' & Er & [R1 R2 R3 R4 R5]).
  { split; [rewrite Ebl; apply NoDup_fmap_2; [intros ???; lia|done]|]. intros b n Hb. split; [by apply Hbl|]. by eapply Hmin, Hbl. }
  rewrite Ebl in Er, R4. exists (mkElder sp m). unfold elderFreeBulk. rewrite Er. split; [done|].
  destruct (elder_iterate (mkElder sp m) Ls' R1) as [_ Hi']. split.
  - exists Ls'. split_and!; [done|by eapply releaseBulk_arena|]. intros q k Hq. eapply Hmin. by apply R4 in Hq as [? _].
  - intros q. rewrite Hi', Hi. setoid_rewrite R4. setoid_rewrite list_elem_of_fmap. split.
    + intros (k & Hk & Hno). split; [by exists k|]. intros Hq. apply Hno. by exists q.
    + intros [[k Hk] Hq]. exists k. split; [done|]. intros (p & Ep & Hp). by replace q with p in * by lia.
Qed.

Program Instance elderSpace : OldSpace ElderSpace := {
  oalloc := elderAlloc;
  orefusal := elderRefusal;
  ofreeBulk := elderFreeBulk;
  oiterate := elderIterate;
  ocontains e a := Growable.contains (space e) a;
  oowns e a := Growable.contains (space e) (a - kHeaderBytes);
  oavoids _ a := arena a = false;
  ousedBytes e := usedBytes_ (space e);
  ook := elderOk;
}.
Next Obligation. intros e n p b e' Hok Hn Ha. destruct (elder_alloc_ok _ _ _ _ _ Hok Hn Ha) as (? & ? & ? & ? & ? & ?). by split_and!. Qed.
Next Obligation.
  intros e p (Ls & Hsp & Hin & Hmin) Hp. destruct (elder_iterate e Ls Hsp) as [_ Hi]. apply Hi in Hp as [k Hk].
  pose proof (Hmin _ _ Hk). destruct (elder_held e Ls _ _ Hsp Hin Hk) as (Hq & Hlow & Hx). unfold kFreeBlockBytes, kHeaderBytes in *.
  destruct (Hx p) as [Hp1 Hp2]; [lia|]. destruct (Hx (p - 8)) as [Hq1 Hq2]; [lia|]. unfold lowAddr. split_and!; try done; try congruence; lia.
Qed.
Next Obligation.
  intros e a (Ls & Hsp & Hin & _) Ha. unfold Growable.contains. apply bool_decide_eq_false. intros [i Hi].
  unfold segmentOf in Hi. revert Hi. generalize (segmentCount (space e)). intros n. induction n as [|n IH]; cbn; [done|].
  destruct (segments_ (space e) !! n) as [fa|] eqn:Hn; [|done]. destruct (FreeList.contains fa a) eqn:Hc; [|done]. intros _.
  unfold FreeList.contains in Hc. pose proof (Forall_lookup_1 _ _ _ _ Hin Hn a) as Hax. cbn in Hax. rewrite Hax in Ha by lia. done.
Qed.
Next Obligation. intros e (Ls & Hsp & _). by apply (elder_iterate e Ls Hsp). Qed.
Next Obligation.
  intros e ps Hok Hnd Hps. destruct (elder_freeBulk_ok e ps Hok Hnd Hps) as (e' & ? & ? & ?). exists e'. by split_and!.
Qed.
End Elder.
