(* ===== verification/LargeObj.v ===== *)
(** * Large objects

    src/include/camel/core/mm/alloc/large_obj.h: one block of the host per object, and a cache of
    the blocks that were freed, by size class. An allocated block is named by its header, and comes
    with the size that its header has. The host is a parameter: [operator new] may refuse, which is
    [None] here, and what it gives is apart from what is out. The order of [iterateAllocated], that
    of a hash set, is the order of the addresses here. *)

From stdpp Require Import gmap.
From S2P Require Import Prelude ObjHeader GcState.
#[local] Open Scope Z_scope.

Definition kMaxCachedBytes : Z := Z.shiftl 256 20.

Definition bit_floor (n : Z) : Z := if n =? 0 then 0 else 2 ^ Z.log2 n.

Definition sizeClass (bytes : Z) : Z :=
  let octave := bit_floor bytes in
  let step := if 4 <=? octave then octave / 4 else 1 in
  (bytes + step - 1) / step * step.

Section LargeObj.
Context {Host : Type} (osNew : Host -> Z -> option (Z * Host)) (osDelete : Host -> Z -> Host).

Record LargeObjectAllocator := mkLarge {
  allocated_ : gmap Z Z;
  cachedBlocks_ : gmap Z (list Z);
  cachedBytes_ : Z;
  host : Host;
}.

Definition acquireBlock (capacity : Z) (la : LargeObjectAllocator) : option (Z * LargeObjectAllocator) :=
  match rev (default [] (cachedBlocks_ la !! capacity)) with
  | block :: rest =>
      Some (block, mkLarge (allocated_ la) (<[capacity := rev rest]> (cachedBlocks_ la)) (cachedBytes_ la - capacity) (host la))
  | [] =>
      '(block, h) ← osNew (host la) capacity;
      Some (block, mkLarge (allocated_ la) (cachedBlocks_ la) (cachedBytes_ la) h)
  end.

(** The payload and the size of the header. *)
Definition alloc (la : LargeObjectAllocator) (size : Z) : option (Z * Z * LargeObjectAllocator) :=
  let total_size := alignUp (u64 (kHeaderBytes + size)) kSlot in
  '(raw, la) ← acquireBlock (sizeClass total_size) la;
  Some (raw + kHeaderBytes, total_size,
        mkLarge (<[raw := total_size]> (allocated_ la)) (cachedBlocks_ la) (cachedBytes_ la) (host la)).

(** The cache has the blocks of a class in the order in which they were freed. *)
Definition recycleBlock (hdr size : Z) (la : LargeObjectAllocator) : LargeObjectAllocator :=
  let capacity := sizeClass size in
  if cachedBytes_ la + capacity <=? kMaxCachedBytes
  then mkLarge (allocated_ la) (<[capacity := default [] (cachedBlocks_ la !! capacity) ++ [hdr]]> (cachedBlocks_ la))
         (cachedBytes_ la + capacity) (host la)
  else mkLarge (allocated_ la) (cachedBlocks_ la) (cachedBytes_ la) (osDelete (host la) hdr).

Definition freeHeader (hdr : Z) (la : LargeObjectAllocator) : LargeObjectAllocator :=
  match allocated_ la !! hdr with
  | Some size => recycleBlock hdr size (mkLarge (delete hdr (allocated_ la)) (cachedBlocks_ la) (cachedBytes_ la) (host la))
  | None => la
  end.

Definition free (la : LargeObjectAllocator) (ptr : Z) : LargeObjectAllocator :=
  if ptr =? 0 then la else freeHeader (ptr - kHeaderBytes) la.

Definition freeBulk (la : LargeObjectAllocator) (objects : list Z) : LargeObjectAllocator :=
  foldl (fun la hdr => freeHeader hdr la) la objects.

Definition contains (la : LargeObjectAllocator) (ptr : Z) : bool :=
  negb (ptr =? 0) && bool_decide (is_Some (allocated_ la !! (ptr - kHeaderBytes))).

Definition iterateAllocated (la : LargeObjectAllocator) : option (list Z) :=
  if forallb (fun '(_, size) => (kHeaderBytes <=? size) && (size mod 8 =? 0)) (map_to_list (allocated_ la))
  then Some (map_to_list (allocated_ la)).*1 else None.

Definition reset (la : LargeObjectAllocator) : LargeObjectAllocator :=
  let h := foldl osDelete (host la) (map_to_list (allocated_ la)).*1 in
  mkLarge ∅ ∅ 0 (foldl osDelete h (mjoin (map_to_list (cachedBlocks_ la)).*2)).
End LargeObj.
Arguments LargeObjectAllocator Host : clear implicits.

(** ** Size classes *)

Lemma bit_floor_spec n : 0 < n -> bit_floor n <= n < 2 * bit_floor n /\ 0 < bit_floor n.
Proof.
  intros Hn. unfold bit_floor. replace (n =? 0) with false by lia. pose proof (Z.log2_spec n Hn) as Hs.
  rewrite Z.pow_succ_r in Hs by apply Z.log2_nonneg. pose proof (Z.pow_pos_nonneg 2 (Z.log2 n)). pose proof (Z.log2_nonneg n). lia.
Qed.

(** A class has room for the request, and wastes less than a quarter of it. *)
Lemma sizeClass_bounds n : 0 < n -> n <= sizeClass n /\ (4 <= n -> 4 * (sizeClass n - n) < n).
Proof.
  intros Hn. destruct (bit_floor_spec n Hn) as [[Hlo Hhi] Hpos]. unfold sizeClass.
  set (step := if 4 <=? bit_floor n then bit_floor n / 4 else 1).
  assert (Hstep : 0 < step /\ (4 <= n -> 4 * step <= bit_floor n)).
  { subst step. destruct (Z.leb_spec 4 (bit_floor n)).
    - pose proof (Z.div_str_pos (bit_floor n) 4). pose proof (Z.mul_div_le (bit_floor n) 4). lia.
    - split; [lia|]. intros H4. exfalso. unfold bit_floor in *. replace (n =? 0) with false in * by lia.
      pose proof (Z.log2_le_mono 4 n H4) as H2. change (Z.log2 4) with 2 in H2. pose proof (Z.pow_le_mono_r 2 2 (Z.log2 n)). lia. }
  pose proof (Z.div_mod (n + step - 1) step ltac:(lia)). pose proof (Z.mod_pos_bound (n + step - 1) step ltac:(lia)).
  split; [lia|]. intros. lia.
Qed.

(** ** The cache *)

Definition cachedSum (m : gmap Z (list Z)) : Z := map_fold (fun c (l : list Z) n => c * Z.of_nat (length l) + n) 0 m.

Lemma cachedSum_delete m c l : m !! c = Some l -> cachedSum m = c * Z.of_nat (length l) + cachedSum (delete c m).
Proof. intros Hc. unfold cachedSum. rewrite (map_fold_delete_L (fun c (l : list Z) n => c * Z.of_nat (length l) + n) 0 c l m); [done| |done]. intros. lia. Qed.

Lemma cachedSum_insert m c l : cachedSum (<[c := l]> m) = cachedSum m - c * Z.of_nat (length (default [] (m !! c))) + c * Z.of_nat (length l).
Proof.
  rewrite (cachedSum_delete (<[c := l]> m) c l) by by rewrite lookup_insert_eq. rewrite delete_insert_eq.
  destruct (m !! c) as [k|] eqn:Hc; cbn [default].
  - rewrite (cachedSum_delete m c k Hc). unfold id. lia.
  - rewrite delete_id by done. cbn. lia.
Qed.

Lemma cachedSum_nonneg m : (forall c l, m !! c = Some l -> l <> [] -> 0 <= c) -> 0 <= cachedSum m.
Proof.
  unfold cachedSum. apply (map_fold_weak_ind (fun n m => (forall c l, m !! c = Some l -> l <> [] -> 0 <= c) -> 0 <= n)); [done|].
  intros c l m' n Hc IH Hall. assert (0 <= n).
  { apply IH. intros d k Hd. apply Hall. rewrite lookup_insert_ne; [done|congruence]. }
  destruct l as [|x l]; [cbn; lia|]. pose proof (Hall c (x :: l) ltac:(by rewrite lookup_insert_eq) ltac:(done)). lia.
Qed.

(** ** The invariant *)

Section Ok.
Context {Host : Type} (osNew : Host -> Z -> option (Z * Host)) (osDelete : Host -> Z -> Host).
(** The blocks that are out, with their capacities. *)
Context (out : Host -> gmap Z Z) (arena : Z -> bool).

Definition blocksApart (h : Host) : Prop := forall b c b' c', out h !! b = Some c -> out h !! b' = Some c' ->
  b = b' \/ b + c <= b' \/ b' + c' <= b.
Definition blocksIn (h : Host) : Prop := forall b c, out h !! b = Some c -> 0 < b /\ forall x, b <= x < b + c -> arena x = true.

Context (osNew_ok : forall h n b h', 0 < n -> osNew h n = Some (b, h') ->
  out h' = <[b := n]> (out h) /\ out h !! b = None /\ 0 < b /\ (forall x, b <= x < b + n -> arena x = true) /\
  forall b' c', out h !! b' = Some c' -> b + n <= b' \/ b' + c' <= b).
Context (osDelete_ok : forall h b, out (osDelete h b) = delete b (out h)).
Implicit Types (la : LargeObjectAllocator Host).

(** What is out is an object or in the cache. *)
Record largeOk la : Prop := {
  lo_apart : blocksApart (host la) /\ blocksIn (host la);
  lo_object b n : allocated_ la !! b = Some n -> out (host la) !! b = Some (sizeClass n) /\ 2 * kHeaderBytes <= n /\ n mod 8 = 0;
  lo_cached c l b : cachedBlocks_ la !! c = Some l -> b ∈ l -> out (host la) !! b = Some c /\ allocated_ la !! b = None;
  lo_once c l : cachedBlocks_ la !! c = Some l -> NoDup l /\ (l <> [] -> 0 < c);
  lo_out b c : out (host la) !! b = Some c -> is_Some (allocated_ la !! b) \/ exists l, cachedBlocks_ la !! c = Some l /\ b ∈ l;
  lo_bytes : cachedBytes_ la = cachedSum (cachedBlocks_ la) /\ cachedBytes_ la <= kMaxCachedBytes;
}.

Lemma acquireBlock_ok la c b la' : largeOk la -> 0 < c -> acquireBlock osNew c la = Some (b, la') ->
  allocated_ la' = allocated_ la /\ allocated_ la !! b = None /\ out (host la') !! b = Some c /\
  (forall n, sizeClass n = c -> 2 * kHeaderBytes <= n -> n mod 8 = 0 ->
    largeOk (mkLarge (<[b := n]> (allocated_ la')) (cachedBlocks_ la') (cachedBytes_ la') (host la'))).
Proof.
  intros [[H1 H1'] H2 H3 H4 H5 [H6 H7]] Hc Ha. unfold acquireBlock in Ha.
  destruct (rev (default [] (cachedBlocks_ la !! c))) as [|x rest] eqn:Er.
  - destruct (osNew (host la) c) as [[b' h]|] eqn:En; [|done]. injection Ha as -> <-. cbn.
    destruct (osNew_ok _ _ _ _ Hc En) as (Eo & Hb & Hpos & Hin & Hap).
    assert (HN : allocated_ la !! b = None). { destruct (allocated_ la !! b) as [n|] eqn:E; [|done]. apply H2 in E as [? _]. congruence. }
    split_and!; [done..|by rewrite Eo, lookup_insert_eq|]. intros n <- Hn H8. split; cbn; rewrite ?Eo.
    + unfold blocksApart, blocksIn in *. rewrite Eo. split.
      * intros b1 c1 b2 c2 [[<- <-]|[Hn1 E1]]%lookup_insert_Some [[<- <-]|[Hn2 E2]]%lookup_insert_Some; [by left|right..|by eapply H1].
        -- by apply Hap.
        -- by apply or_comm, Hap.
      * intros b1 c1 [[<- <-]|[Hn1 E1]]%lookup_insert_Some; [done|by apply H1'].
    + intros b1 n1 [[<- <-]|[Hne E1]]%lookup_insert_Some; [by rewrite lookup_insert_eq|rewrite lookup_insert_ne by done; by apply H2].
    + intros c1 l b1 Hl Hb1. destruct (H3 _ _ _ Hl Hb1) as [Ho Hal]. assert (b <> b1) by congruence. by rewrite !lookup_insert_ne.
    + done.
    + intros b1 c1 [[<- <-]|[Hne E1]]%lookup_insert_Some; [left; rewrite lookup_insert_eq; by eexists|rewrite lookup_insert_ne by done; by apply H5].
    + done.
  - injection Ha as -> <-. cbn. destruct (cachedBlocks_ la !! c) as [l|] eqn:El; [|done]. cbn in Er. unfold id in Er.
    assert (El' : l = rev rest ++ [b]) by (rewrite <- (rev_involutive l), Er; done). destruct (H4 _ _ El) as [Hnd _].
    destruct (H3 c l b El) as [Ho HN]; [rewrite El'; set_solver|]. split_and!; [done..|]. intros n <- Hn H8. split; cbn.
    + done.
    + intros b1 n1 [[<- <-]|[Hne E1]]%lookup_insert_Some; [done|by apply H2].
    + intros c1 l1 b1 [[<- <-]|[Hne E1]]%lookup_insert_Some Hb1.
      * destruct (H3 _ _ b1 El) as [Ho1 HN1]; [rewrite El'; set_solver|]. split; [done|]. rewrite lookup_insert_ne; [done|]. intros <-.
        rewrite El' in Hnd. apply NoDup_app in Hnd as (_ & Hno & _). by apply (Hno b Hb1); left.
      * destruct (H3 _ _ b1 E1 Hb1) as [Ho1 HN1]. split; [done|]. rewrite lookup_insert_ne; [done|]. congruence.
    + intros c1 l1 [[<- <-]|[Hne E1]]%lookup_insert_Some; [|by eapply H4]. rewrite El' in Hnd. apply NoDup_app in Hnd as (? & _).
      split; [done|]. intros _. done.
    + intros b1 c1 Hb1. destruct (decide (b1 = b)) as [->|Hne]; [left; rewrite lookup_insert_eq; by eexists|].
      rewrite lookup_insert_ne by done. destruct (H5 _ _ Hb1) as [?|(l1 & El1 & Hin)]; [by left|right].
      destruct (decide (c1 = sizeClass n)) as [->|Hc1]; [|exists l1; by rewrite lookup_insert_ne].
      exists (rev rest). rewrite lookup_insert_eq. split; [done|]. assert (l1 = l) as -> by congruence. rewrite El' in Hin. set_solver.
    + rewrite cachedSum_insert, El. cbn [default]. unfold id. rewrite El', length_app. cbn [length]. lia.
Qed.

Lemma sizeClass_ge n : 2 * kHeaderBytes <= n -> n <= sizeClass n /\ 0 < sizeClass n.
Proof. intros Hn. unfold kHeaderBytes in Hn. destruct (sizeClass_bounds n); lia. Qed.

Lemma freeHeader_ok la b n : largeOk la -> allocated_ la !! b = Some n ->
  largeOk (freeHeader osDelete b la) /\ allocated_ (freeHeader osDelete b la) = delete b (allocated_ la).
Proof.
  intros [[H1 H1'] H2 H3 H4 H5 [H6 H7]] Hb. unfold freeHeader. rewrite Hb. destruct (H2 _ _ Hb) as (Ho & Hn & H8).
  destruct (sizeClass_ge n Hn) as [Hge Hpos]. unfold recycleBlock. cbn [cachedBytes_ allocated_ cachedBlocks_ host]. set (c := sizeClass n) in *.
  destruct (Z.leb_spec (cachedBytes_ la + c) kMaxCachedBytes); (split; [|done]); split; cbn.
  - done.
  - intros b1 n1 [Hne E1]%lookup_delete_Some. by apply H2.
  - intros c1 l b1 [[<- <-]|[Hne E1]]%lookup_insert_Some Hb1.
    + apply elem_of_app in Hb1 as [Hb1| ->%list_elem_of_singleton]; [|by rewrite lookup_delete_eq].
      destruct (cachedBlocks_ la !! c) as [l|] eqn:El; [|by apply elem_of_nil in Hb1].
      destruct (H3 _ _ _ El Hb1). split; [done|]. by apply lookup_delete_None; right.
    + destruct (H3 _ _ _ E1 Hb1). split; [done|]. by apply lookup_delete_None; right.
  - intros c1 l [[<- <-]|[Hne E1]]%lookup_insert_Some; [|by eapply H4]. split; [|done].
    destruct (cachedBlocks_ la !! c) as [l|] eqn:El; cbn; [|apply NoDup_singleton]. unfold id. apply NoDup_app.
    split; [apply (H4 _ _ El)|]. split; [|apply NoDup_singleton]. intros x Hx ->%list_elem_of_singleton.
    destruct (H3 _ _ _ El Hx). congruence.
  - intros b1 c1 Hb1. destruct (H5 _ _ Hb1) as [[n1 Hn1]|(l & El & Hin)].
    + destruct (decide (b1 = b)) as [->|Hne]; [right|left; rewrite lookup_delete_ne by done; by eexists].
      assert (c1 = c) as -> by congruence. eexists. rewrite lookup_insert_eq. split; [done|]. set_solver.
    + right. destruct (decide (c1 = c)) as [->|Hc]; [|exists l; by rewrite lookup_insert_ne].
      eexists. rewrite lookup_insert_eq. split; [done|]. rewrite El. cbn. unfold id. set_solver.
  - rewrite cachedSum_insert. rewrite length_app. cbn [length]. lia.
  - unfold blocksApart, blocksIn in *. rewrite osDelete_ok. split.
    + intros b1 c1 b2 c2 [_ E1]%lookup_delete_Some [_ E2]%lookup_delete_Some. by eapply H1.
    + intros b1 c1 [_ E1]%lookup_delete_Some. by apply H1'.
  - intros b1 n1 [Hne E1]%lookup_delete_Some. rewrite osDelete_ok, lookup_delete_ne by done. by apply H2.
  - intros c1 l b1 El Hb1. destruct (H3 _ _ _ El Hb1) as [Ho1 HN]. rewrite osDelete_ok. assert (b <> b1) by congruence.
    by rewrite !lookup_delete_ne.
  - done.
  - intros b1 c1. rewrite osDelete_ok. intros [Hne Hb1]%lookup_delete_Some. destruct (H5 _ _ Hb1) as [?|?]; [left|by right].
    by rewrite lookup_delete_ne.
  - done.
Qed.

Lemma freeBulk_ok bs : forall la, largeOk la -> NoDup bs -> (forall b, b ∈ bs -> is_Some (allocated_ la !! b)) ->
  largeOk (freeBulk osDelete la bs) /\ forall b n, allocated_ (freeBulk osDelete la bs) !! b = Some n <-> allocated_ la !! b = Some n /\ b ∉ bs.
Proof.
  induction bs as [|x bs IH]; intros la Hok Hnd Hbs.
  - split; [done|]. intros b n. cbn. set_solver.
  - apply NoDup_cons in Hnd as [Hx Hnd]. destruct (Hbs x ltac:(left)) as [k Hk]. destruct (freeHeader_ok la x k Hok Hk) as [Hok' Ea].
    destruct (IH (freeHeader osDelete x la) Hok' Hnd) as [Hok2 Hall].
    + intros b Hb. rewrite Ea, lookup_delete_ne by congruence. apply Hbs. by right.
    + split; [done|]. intros b n. change (freeBulk osDelete la (x :: bs)) with (freeBulk osDelete (freeHeader osDelete x la) bs).
      rewrite Hall, Ea, lookup_delete_Some, not_elem_of_cons. naive_solver.
Qed.

(** The last page of the lower half of the addresses is never mapped. *)
Context (arena_low : forall x, arena x = true -> x < 2 ^ 47 - 4096).

(** An allocation: a new block, apart from those of the other objects, of the size of its header. *)
Lemma alloc_ok la size p n la' : largeOk la -> 0 < size < 2 ^ 47 -> alloc osNew la size = Some (p, n, la') ->
  largeOk la' /\ allocated_ la' = <[p - kHeaderBytes := n]> (allocated_ la) /\ allocated_ la !! (p - kHeaderBytes) = None /\
  n = (size + 15) / 8 * 8 /\ kHeaderBytes < p /\ p - kHeaderBytes + n < 2 ^ 47.
Proof.
  intros Hok Hsize Ha. unfold alloc in Ha. unfold kHeaderBytes, u64 in *. rewrite Z.mod_small in Ha by lia.
  rewrite alignUp_8 in Ha by lia. replace (8 + size + 7) with (size + 15) in Ha by lia. set (total := (size + 15) / 8 * 8) in *.
  assert (Ht : size + 8 <= total /\ 16 <= total /\ total mod 8 = 0).
  { subst total. rewrite Z_mod_mult. pose proof (Z.div_mod (size + 15) 8 ltac:(lia)). pose proof (Z.mod_pos_bound (size + 15) 8 ltac:(lia)).
    split_and!; lia. }
  destruct (acquireBlock osNew (sizeClass total) la) as [[b la1]|] eqn:Eq; [|done]. cbn [mbind option_bind] in Ha. injection Ha as <- <- <-.
  destruct (sizeClass_ge total ltac:(unfold kHeaderBytes; lia)) as [Hge Hpos].
  destruct (acquireBlock_ok la _ b la1 Hok Hpos Eq) as (Ea & HN & Ho & Hok'). rewrite Z.add_simpl_r.
  specialize (Hok' total eq_refl ltac:(unfold kHeaderBytes; lia) (proj2 (proj2 Ht))). cbn [allocated_]. rewrite Ea in *.
  destruct (proj2 (lo_apart _ Hok') b (sizeClass total) Ho) as [Hb Hin]. unfold kHeaderBytes.
  pose proof (arena_low _ (Hin (b + sizeClass total - 1) ltac:(lia))). split_and!; try done; lia.
Qed.

Definition largeIterate la : list Z := (fun h => h + kHeaderBytes) <$> default [] (iterateAllocated la).

Lemma largeIterate_spec la : largeOk la -> NoDup (largeIterate la) /\ forall p, p ∈ largeIterate la <-> is_Some (allocated_ la !! (p - kHeaderBytes)).
Proof.
  intros Hok. unfold largeIterate, iterateAllocated.
  assert (Hall : forallb (fun '(_, size) => (kHeaderBytes <=? size) && (size mod 8 =? 0)) (map_to_list (allocated_ la)) = true).
  { apply forallb_forall. intros [b n] Hb%list_elem_of_In%elem_of_map_to_list. destruct (lo_object _ Hok _ _ Hb) as (_ & Hn & H8).
    unfold kHeaderBytes in *. lia. }
  rewrite Hall. cbn. unfold id. split; [apply NoDup_fmap_2; [intros ???; lia|apply NoDup_fst_map_to_list]|]. intros p. rewrite list_elem_of_fmap. split.
  - intros (b & -> & ([b' n] & -> & Hb%elem_of_map_to_list)%list_elem_of_fmap). cbn [fst]. rewrite Z.add_simpl_r. by eexists.
  - intros [n Hn]. exists (p - kHeaderBytes). split; [lia|]. apply list_elem_of_fmap. exists (p - kHeaderBytes, n). split; [done|].
    by apply elem_of_map_to_list.
Qed.

Lemma large_object la p n : largeOk la -> allocated_ la !! (p - kHeaderBytes) = Some n ->
  arena p = true /\ arena (p - kHeaderBytes) = true /\ lowAddr p /\ contains la p = true.
Proof.
  intros Hok Hn. destruct (lo_object _ Hok _ _ Hn) as (Ho & H16 & _). destruct (sizeClass_ge n H16) as [Hge _].
  destruct (proj2 (lo_apart _ Hok) _ _ Ho) as [Hb Hin]. unfold kHeaderBytes in *. pose proof (Hin p ltac:(lia)) as Hp. pose proof (arena_low _ Hp).
  unfold contains, lowAddr. replace (p =? 0) with false by lia. unfold kHeaderBytes. rewrite bool_decide_eq_true_2 by by eexists. split_and!; try done; try lia.
  apply Hin. lia.
Qed.

(** ** Histories *)

(** A client allocates and frees; [live] are its payloads with the sizes it asked for. *)
Inductive largeHistory : LargeObjectAllocator Host -> gmap Z Z -> Prop :=
  | lh_start h : out h = ∅ -> largeHistory (mkLarge ∅ ∅ 0 h) ∅
  | lh_alloc la live size p n la' : largeHistory la live -> 0 < size < 2 ^ 47 -> alloc osNew la size = Some (p, n, la') ->
      largeHistory la' (<[p := size]> live)
  | lh_free la live p : largeHistory la live -> is_Some (live !! p) -> largeHistory (free osDelete la p) (delete p live).

(** The blocks of a client are those of the allocator. *)
Definition agrees la (live : gmap Z Z) : Prop := forall p, match live !! p, allocated_ la !! (p - kHeaderBytes) with
  | Some size, Some n => 0 < size /\ n = (size + 15) / 8 * 8
  | None, None => True
  | _, _ => False
  end.

Lemma start_largeOk h : out h = ∅ -> largeOk (mkLarge ∅ ∅ 0 h).
Proof.
  intros Ho. assert (Hn : forall b c, out h !! b = Some c -> False) by (intros b c; rewrite Ho, lookup_empty; done).
  split; cbn; try done.
  - split; [intros b c b' c' Hb|intros b c Hb]; by apply Hn in Hb.
  - intros b c Hb. by apply Hn in Hb.
Qed.

Lemma history_ok la live : largeHistory la live -> largeOk la /\ agrees la live.
Proof.
  induction 1 as [h Ho|la live size p n la' _ [Hok Hag] Hsize Ha|la live p _ [Hok Hag] [size Hp]].
  - split; [by apply start_largeOk|done].
  - destruct (alloc_ok la size p n la' Hok Hsize Ha) as (Hok' & Ea & HN & Hn & _). split; [done|]. intros q. rewrite Ea.
    destruct (decide (q = p)) as [->|Hne]; [rewrite !lookup_insert_eq; split; [lia|done]|].
    rewrite !lookup_insert_ne by lia. apply Hag.
  - pose proof (Hag p) as Hag'. rewrite Hp in Hag'. destruct (allocated_ la !! (p - kHeaderBytes)) as [n|] eqn:Hn; [|done].
    destruct (large_object la p n Hok Hn) as (_ & _ & [Hpos _] & _). unfold free. replace (p =? 0) with false by lia.
    destruct (freeHeader_ok la _ n Hok Hn) as [Hok' Ea]. split; [done|]. intros q. rewrite Ea.
    destruct (decide (q = p)) as [->|Hne]; [by rewrite !lookup_delete_eq|]. rewrite !lookup_delete_ne by lia. apply Hag.
Qed.

Lemma cached_bounds la : largeOk la -> 0 <= cachedBytes_ la <= kMaxCachedBytes.
Proof.
  intros Hok. destruct (lo_bytes _ Hok) as [-> Hmax]. split; [|done]. apply cachedSum_nonneg. intros c l Hc Hl.
  destruct (lo_once _ Hok _ _ Hc) as [_ Hpos]. specialize (Hpos Hl). lia.
Qed.

(** The blocks of two objects. *)
Lemma objects_apart la b n b' n' : largeOk la -> allocated_ la !! b = Some n -> allocated_ la !! b' = Some n' -> b <> b' ->
  b + sizeClass n <= b' \/ b' + sizeClass n' <= b.
Proof.
  intros Hok Hb Hb' Hne. destruct (lo_object _ Hok _ _ Hb) as (Ho & _). destruct (lo_object _ Hok _ _ Hb') as (Ho' & _).
  destruct (proj1 (lo_apart _ Hok) _ _ _ _ Ho Ho') as [?|?]; [done|lia].
Qed.

(** The bytes of the objects; the collector does not ask for them. *)
Definition largeBytes la : Z := map_fold (fun _ n s => n + s) 0 (allocated_ la).

Program Instance largeSpace : OldSpace (LargeObjectAllocator Host) := {
  oalloc := alloc osNew;
  orefusal _ n := mkExhaustion n 0 0;
  ofreeBulk la ps := Some (freeBulk osDelete la ((fun p => p - kHeaderBytes) <$> ps));
  oiterate := largeIterate;
  ocontains := contains;
  oowns := contains;
  oavoids _ a := arena a = false;
  ousedBytes := largeBytes;
  ook := largeOk;
}.
Next Obligation.
  intros la n p b la' Hok Hn Ha. destruct (alloc_ok la n p b la' Hok Hn Ha) as (Hok' & Ea & HN & Hb & Hp & Hlow).
  destruct (largeIterate_spec la Hok) as [_ Hi]. destruct (largeIterate_spec la' Hok') as [_ Hi']. split_and!; try done.
  - rewrite Hi, HN. by intros [? ?].
  - intros q. rewrite Hi', Hi, Ea, lookup_insert_is_Some'. split; [intros [?|?]; [right; lia|by left]|intros [?| ->]; [by right|by left]].
  - pose proof (Z.div_mod (n + 15) 8 ltac:(lia)). pose proof (Z.mod_pos_bound (n + 15) 8 ltac:(lia)). unfold kHeaderBytes. lia.
Qed.
Next Obligation.
  intros la p Hok Hp. apply (largeIterate_spec la Hok) in Hp as [n Hn]. destruct (large_object la p n Hok Hn) as (H1 & H2 & H3 & H4).
  split_and!; congruence.
Qed.
Next Obligation.
  intros la a Hok Ha. destruct (contains la a) eqn:Hc; [|done]. unfold contains in Hc. apply andb_true_iff in Hc as [_ [n Hn]%bool_decide_eq_true].
  destruct (large_object la a n Hok Hn). congruence.
Qed.
Next Obligation. intros la Hok. by apply largeIterate_spec. Qed.
Next Obligation.
  intros la ps Hok Hnd Hps. destruct (largeIterate_spec la Hok) as [_ Hi].
  destruct (freeBulk_ok ((fun p => p - kHeaderBytes) <$> ps) la Hok) as [Hok' Hall].
  - apply NoDup_fmap_2; [intros ???; lia|done].
  - intros b (p & -> & Hp)%list_elem_of_fmap. by apply Hi, Hps.
  - eexists. split; [done|]. split; [done|]. split; [|done]. intros q. rewrite (proj2 (largeIterate_spec _ Hok')), Hi. unfold is_Some.
    setoid_rewrite Hall. setoid_rewrite list_elem_of_fmap. split.
    + intros (n & Hn & Hno). split; [by eexists|]. intros Hq. apply Hno. by exists q.
    + intros [[n Hn] Hq]. exists n. split; [done|]. intros (p & Ep & Hp). by replace q with p in * by lia.
Qed.
End Ok.
