(* ===== verification/GcMajor.v ===== *)
(** * The major collection and safepoints

    src/src/core/mm/gen.cpp: [majorGCUnlocked] with its mark and sweep phases, and [safepoint],
    [minorGC] and [majorGC], which are the only places where a collection starts; and the sweep of
    the graphs, src/src/runtime/program.cpp. [None] is an exception inside of a collection, which
    stops the process, one of the logic errors of a safepoint, or a loop that runs out of fuel. The
    verification, poisoning and stress settings are off; statistics are left out but for the
    safepoints that were inhibited. *)

From stdpp Require Import gmap.
From S2P Require Import Prelude ObjHeader BumpPtr GcState GcPacing GcMinor.
#[local] Open Scope Z_scope.

(** ** The owners of graphs *)

(** What a [GCGraphManager] owns, and the graphs that no program has bound yet. *)
Record GCGraphManager := mkManager { graphs_ : gset Z; programs_ : gset Z; unbound_ : gset Z }.

Section Major.
Context {Kind Ty E LO : Type} `{Layout Kind Ty} `{!OldSpace E} `{!OldSpace LO}.
Implicit Types (st : GC Kind Ty E LO).

(** ** Marks *)

Definition withHeader (f : Z -> Z) (o : Obj Kind) : Obj Kind := mkObj (f (hdr o)) (kind o) (words o).
Definition isMarked st (a : Z) : bool := match objs st !! a with Some o => marked (hdr o) | None => false end.

(** The object is in one of the bump spaces, and the walk over the space visits it. *)
Definition inBumpSpaces st (a : Z) : bool :=
  contains (birth st) (a - kHeaderBytes) || contains (haven st) (a - kHeaderBytes) || contains (cache st) (a - kHeaderBytes).

(** The objects that [clearMarks] unmarks: those of the spaces, the graphs of the ledger that are
    still allocated, and the roots outside of the spaces. *)
Definition unmarks st (a : Z) : bool :=
  inBumpSpaces st a || bool_decide (a ∈ oiterate (elder st)) || bool_decide (a ∈ oiterate (large st)) ||
  (bool_decide (a ∈ markedSinceClear st) && bool_decide (a ∈ graphSpace st)) ||
  (bool_decide (a ∈ rootSets st) && negb (a =? 0) &&
   negb (inYoungGenSpace st a) && negb (inElderGenSpace st a) && negb (inLargeObjSpace st a)).

Definition clearMarks st : GC Kind Ty E LO :=
  setMarkedSinceClear ∅ (setObjs (map_imap (fun a o => Some (if unmarks st a then withHeader unmark o else o)) (objs st)) st).

(** The loop over the mark stack, which has its top first. *)
Fixpoint markLoop (fuel : nat) (markStack : list (Z * option Ty)) st : option (GC Kind Ty E LO) :=
  match markStack with
  | [] => Some st
  | (current, t) :: markStack =>
      match fuel with
      | O => None
      | S fuel =>
          if current =? 0 then markLoop fuel markStack st
          else
            o ← objs st !! current;
            if marked (hdr o) then markLoop fuel markStack st
            else
              let st := setObjs (<[current := withHeader mark o]> (objs st)) st in
              let st := setMarkedSinceClear ({[current]} ∪ markedSinceClear st) st in
              refs ← mapM (fun s => ref ← words o !! slotIndex s; Some (ref, refType s)) (slotsOf (kind o) t);
              markLoop fuel (rev (filter (fun e : Z * option Ty => e.1 <> 0) refs) ++ markStack) st
      end
  end.

(** Every object is visited once, and pushes at most one entry for each of its words. *)
Definition markFuel st : nat := S (map_fold (fun _ o n => length (words o) + n)%nat 0%nat (objs st)).

Definition markObject (obj : Z) (t : option Ty) st : option (GC Kind Ty E LO) :=
  if obj =? 0 then Some st else markLoop (markFuel st) [(obj, t)] st.

Fixpoint markRoots (roots : list Z) st : option (GC Kind Ty E LO) :=
  match roots with
  | [] => Some st
  | root :: roots => st ← markObject root None st; markRoots roots st
  end.

Fixpoint markCells (l : list (Cell Ty)) st : option (GC Kind Ty E LO) :=
  match l with
  | [] => Some st
  | c :: l => st ← markObject (cellRef c) (cellType c) st; markCells l st
  end.

Definition markPhase st : option (GC Kind Ty E LO) :=
  let st := clearMarks st in
  st ← markRoots (rootSets st) st;
  markCells (cells st) st.

(** ** The sweep of the graphs *)

(** [freeDead]: the graphs and programs are given back to the graph space. *)
Definition freeDead (dead : gset Z) st : GC Kind Ty E LO :=
  setGraphSpace (graphSpace st ∖ dead) (setObjs (filter (fun kv => kv.1 ∉ dead) (objs st)) st).

Definition sweepMarked (m : GCGraphManager) st : GCGraphManager * GC Kind Ty E LO :=
  let deadPrograms := filter (fun program => isMarked st program = false) (programs_ m) in
  let deadGraphs := filter (fun graph => (graph ∉ unbound_ m) /\ isMarked st graph = false) (graphs_ m) in
  (mkManager (graphs_ m ∖ deadGraphs) (programs_ m ∖ deadPrograms) (unbound_ m), freeDead (deadGraphs ∪ deadPrograms) st).

Fixpoint sweepGraphs (managers : list GCGraphManager) st : list GCGraphManager * GC Kind Ty E LO :=
  match managers with
  | [] => ([], st)
  | m :: managers =>
      let '(m, st) := sweepMarked m st in
      let '(managers, st) := sweepGraphs managers st in (m :: managers, st)
  end.

(** ** The sweeps of the old spaces *)

(** The unmarked objects of a space, in the order of the walk. *)
Fixpoint unreachableIn st (l : list Z) : option (list Z) :=
  match l with
  | [] => Some []
  | a :: l =>
      o ← objs st !! a;
      rest ← unreachableIn st l;
      Some (if marked (hdr o) then rest else a :: rest)
  end.

(** The bytes of the blocks that the marked objects hold, each block counted once. *)
Fixpoint heldBlocks (generation : Z) st (l : list Z) (bs : gmap Z BlockInfo) : Z * gmap Z BlockInfo :=
  match l with
  | [] => (0, bs)
  | a :: l =>
      match objs st !! a with
      | Some o =>
          if marked (hdr o) then
            let block := heldBlock (kind o) (words o) in
            match bs !! block with
            | Some b =>
                let '(claimed, b) := claimSweepGeneration generation b in
                let '(bytes, bs) := heldBlocks generation st l (<[block := b]> bs) in
                (if claimed then u64 (bytes_ b + bytes) else bytes, bs)
            | None => heldBlocks generation st l bs
            end
          else heldBlocks generation st l bs
      | None => heldBlocks generation st l bs
      end
  end.

(** [live * percent / 100] on [size_t]. *)
Definition growthOf (live percent : Z) : Z := u64 (u64 (live / 100 * percent) + u64 (live mod 100 * percent) / 100).

(** [finalizeObjects], and the entries of the remembered set that go with the objects. *)
Definition finalizeObjects (unreachable : list Z) st : GC Kind Ty E LO :=
  setRemembered (filter (fun kv => kv.1 ∉ unreachable) (remembered st)) (setFinalized (finalized st ++ unreachable) st).

(** The objects of blocks that were released. *)
Definition dropObjects (l : list Z) st : GC Kind Ty E LO := setObjs (filter (fun kv => kv.1 ∉ l) (objs st)) st.

Definition sweepOldGen st : option (GC Kind Ty E LO) :=
  let generation := blockSweepGeneration_ (pacing st) in
  let p := setBlockSweepGeneration (u64 (generation + 1)) (pacing st) in
  unreachable ← unreachableIn st (oiterate (elder st));
  let '(liveBlockBytes, bs) := heldBlocks generation st (oiterate (elder st)) (blocks p) in
  let st := setPacing (setBlocks bs p) st in
  let st := finalizeObjects unreachable st in
  elder ← ofreeBulk (elder st) unreachable;
  let st := dropObjects unreachable (setElder elder st) in
  let p := setElderBytesSinceSweep 0 (setElderLiveBytes (ousedBytes elder) (pacing st)) in
  let p := setElderBudget (Z.max (elderMinBudget_ p) (growthOf (elderLiveBytes_ p) (largeObjGrowthPercent_ p))) p in
  let p := setElderBlockBytesSinceSweep 0 (setElderBlockLiveBytes liveBlockBytes p) in
  let p := setElderBlockBudget (Z.max (largeObjMinBudget_ p) (growthOf liveBlockBytes (largeObjGrowthPercent_ p))) p in
  Some (setPacing p st).

(** The bytes of the large objects that are left. *)
Fixpoint objectBytes st (l : list Z) : option Z :=
  match l with
  | [] => Some 0
  | a :: l => o ← objs st !! a; n ← ObjHeader.size (hdr o); rest ← objectBytes st l; Some (u64 (n + rest))
  end.

Definition sweepLargeObjects st : option (GC Kind Ty E LO) :=
  unreachable ← unreachableIn st (oiterate (large st));
  let st := finalizeObjects unreachable st in
  large ← ofreeBulk (large st) unreachable;
  let st := dropObjects unreachable (setLarge large st) in
  liveBytes ← objectBytes st (oiterate large);
  let p := setLargeBytesSinceSweep 0 (setLargeLiveBytes liveBytes (pacing st)) in
  Some (setPacing (setLargeObjBudget (Z.max (largeObjMinBudget_ p) (growthOf liveBytes (largeObjGrowthPercent_ p))) p) st).

(** ** Collections *)

(** [majorGCUnlocked] behind its minor collection. *)
Definition markSweep (managers : list GCGraphManager) st : option (list GCGraphManager * GC Kind Ty E LO) :=
  st ← markPhase st;
  let '(managers, st) := sweepGraphs managers st in
  st ← sweepOldGen st;
  st ← sweepLargeObjects st;
  Some (managers, st).

Definition majorGC (managers : list GCGraphManager) st : option (list GCGraphManager * GC Kind Ty E LO) :=
  st ← (if enableYoungGenCopying_ (pacing st) then minorGC st else Some st);
  markSweep managers st.

Definition collectGraphSpace (managers : list GCGraphManager) st : option (list GCGraphManager * GC Kind Ty E LO) :=
  st ← markPhase st; Some (sweepGraphs managers st).

(** What a safepoint leaves: the owners of graphs and the heap, and the exception it throws, if the
    program does not fit into the heap. *)
Definition Collected : Type := list GCGraphManager * GC Kind Ty E LO * option Exhaustion.

(** The heap limit after a collection. *)
Definition afterCollection (k : CollectionKind) st : GC Kind Ty E LO * option Exhaustion :=
  let limit := heapLimitBytes_ (pacing st) in
  if limit =? 0 then (st, None)
  else if decide (k = Minor) then
    (if (limit <? oldBytesHeld st) && negb (heapLimitExceeded_ (pacing st))
     then withPacing (fun p => requestCollectionAtSafepoint Major
            (setHeapLimitRequest (oldBytesHeld st - limit) (setHeapLimitExceeded true p))) st
     else st, None)
  else
    let st := withPacing (setHeapLimitExceeded false) st in
    (st, if limit <? oldBytesHeld st then Some (mkExhaustion (heapLimitRequest_ (pacing st)) (oldBytesHeld st) limit) else None).

Definition collectAtSafepoint (k : CollectionKind) (managers : list GCGraphManager) st : option Collected :=
  match k with
  | None_ => Some (managers, st, None)
  | _ =>
      GUARD atSafepoint_ (pacing st);;
      '(managers, st) ← (match k with
                         | Minor => st ← minorGC st; Some (managers, st)
                         | Major => majorGC managers st
                         | _ => st ← minorGC st; majorGC managers st
                         end);
      let '(st, e) := afterCollection k st in Some (managers, st, e)
  end.

(** [publishSafepointSlowPathUnlocked]. *)
Definition publishSafepointSlowPath (p : Pacing) : Pacing :=
  setSlowPath (bool_decide (pendingSafepointCollection_ p <> None_)) p.

Section Safepoint.
(** The releases that the finalizers put off, which run when the collection is over. *)
Context (runDeferredReleases : GC Kind Ty E LO -> GC Kind Ty E LO).

(** The window in which the allocator is locked; the request it found comes first. An exception
    leaves the rest of it out. *)
Definition collectPending (managers : list GCGraphManager) st : option (CollectionKind * Collected) :=
  let p := pacing st in
  let requested := pendingSafepointCollection_ p in
  let previous := atSafepoint_ p in
  '(managers, st, e) ← collectAtSafepoint requested managers
                          (setPacing (setPendingSafepointCollection None_ (setAtSafepoint true p)) st);
  let st := withPacing (setAtSafepoint previous) st in
  Some (requested, (managers, match e with None => withPacing publishSafepointSlowPath st | Some _ => st end, e)).

(** [noteBlockBytesAfterDeferredReleases]. *)
Definition noteBlockBytes st : GC Kind Ty E LO := withPacing (fun p => setBlockBytesAtCollection (blockBytesLive p) p) st.

Definition safepoint (managers : list GCGraphManager) st : option Collected :=
  GUARD (nativeCodeDepth (pacing st) =? 0)%nat;;
  if negb (collectionInhibit_ (pacing st) =? 0)%nat
  then Some (managers, withPacing (fun p => setInhibitedSafepoints (inhibitedSafepoints p + 1) p) st, None)
  else
    '(requested, (managers, st, e)) ← collectPending managers st;
    match e with
    | Some _ => Some (managers, st, e)
    | None =>
        let st := runDeferredReleases st in
        Some (managers, if decide (requested = None_) then st else noteBlockBytes st, None)
    end.

(** [minorGC] and [majorGC] of the allocator, by their kinds. *)
Definition collectNow (k : CollectionKind) (managers : list GCGraphManager) st : option Collected :=
  '(_, (managers, st, e)) ← collectPending managers (withPacing (requestCollectionAtSafepoint k) st);
  Some (managers, match e with None => noteBlockBytes (runDeferredReleases st) | Some _ => st end, e).
End Safepoint.
End Major.
Arguments Collected Kind Ty E LO : clear implicits.
