(* ===== verification/GcMajorOk.v ===== *)
(** * The major collection

    [markPhase] marks what the roots reach, over all references, and nothing else; the sweeps then
    give back exactly the rest of the elder space and of the large objects, and the graphs that
    are bound and unmarked ([markSweep_ok]). With the minor collection in front this is
    [majorGC_collects]. A collection that was asked for is run by the first safepoint that is not
    inhibited ([safepoint_collects]). *)

From stdpp Require Import gmap fin_sets.
From S2P Require Import Prelude ObjHeader BumpPtr GcState GcPacing GcMinor GcMinorInv GcMinorOk GcMajor.
#[local] Open Scope Z_scope.

(** ** Sums over a heap *)

Section Sums.
Context {A : Type} (f : A -> nat).
Definition sumMap (m : gmap Z A) : nat := map_fold (fun _ o n => f o + n)%nat 0%nat m.

Lemma sumMap_delete m a o : m !! a = Some o -> sumMap m = (f o + sumMap (delete a m))%nat.
Proof. intros Ha. unfold sumMap. rewrite (map_fold_delete_L (fun _ o n => f o + n)%nat 0%nat a o m); [done| |done]. intros. lia. Qed.

Lemma sumMap_update m a o o' : m !! a = Some o -> (sumMap (<[a := o']> m) + f o = sumMap m + f o')%nat.
Proof.
  intros Ha. rewrite (sumMap_delete (<[a := o']> m) a o') by by rewrite lookup_insert_eq. rewrite delete_insert_eq, (sumMap_delete m a o Ha). lia.
Qed.
End Sums.

Lemma sumMap_le {A} (f g : A -> nat) m : (forall o, f o <= g o)%nat -> (sumMap f m <= sumMap g m)%nat.
Proof.
  intros Hle. induction m as [|a o m Ha IH] using map_ind; [done|].
  rewrite (sumMap_delete f (<[a := o]> m) a o), (sumMap_delete g (<[a := o]> m) a o) by by rewrite lookup_insert_eq.
  rewrite delete_insert_id by done. specialize (Hle o). lia.
Qed.

Lemma nodup_bounded (l : list nat) n : NoDup l -> (forall i, i ∈ l -> (i < n)%nat) -> (length l <= n)%nat.
Proof.
  intros Hnd Hlt. rewrite <- (length_seq n 0). apply submseteq_length, NoDup_submseteq; [done|].
  intros i Hi. apply elem_of_seq. specialize (Hlt i Hi). lia.
Qed.

Section MajorOk.
Context {Kind Ty E LO : Type} `{Layout Kind Ty} `{!OldSpace E} `{!OldSpace LO}.
Implicit Types (st : GC Kind Ty E LO) (M : gset Z) (s : Slot Ty).

(** ** What the mark phase reaches *)

Inductive traced st (Lay : Z -> list (Slot Ty)) : Z -> Prop :=
  | tr_root r : r ∈ rootSets st -> r <> 0 -> traced st Lay r
  | tr_cell c : c ∈ cells st -> cellRef c <> 0 -> traced st Lay (cellRef c)
  | tr_slot a o s w : traced st Lay a -> objs st !! a = Some o -> s ∈ Lay a -> words o !! slotIndex s = Some w -> w <> 0 -> traced st Lay w.

Definition laidOut (heap : gmap Z (Obj Kind)) (Lay : Z -> list (Slot Ty)) (t : option Ty) (w : Z) : Prop :=
  exists o, heap !! w = Some o /\ slotsOf (kind o) t = Lay w.

(** Every reference comes with a type that lays its target out as [Lay] says. *)
Record markable st (Lay : Z -> list (Slot Ty)) : Prop := {
  mk_live a : traced st Lay a -> exists o t, objs st !! a = Some o /\ slotsOf (kind o) t = Lay a /\
    forall s, s ∈ Lay a -> exists w, words o !! slotIndex s = Some w /\ (w <> 0 -> laidOut (objs st) Lay (refType s) w);
  mk_roots r : r ∈ rootSets st -> r <> 0 -> laidOut (objs st) Lay None r;
  mk_cells c : c ∈ cells st -> cellRef c <> 0 -> laidOut (objs st) Lay (cellType c) (cellRef c);
}.

(** ** The mark stack *)

Section Marking.
Context (st : GC Kind Ty E LO) (Lay : Z -> list (Slot Ty)) (Hmk : markable st Lay).
Context (Hclear : forall a o, objs st !! a = Some o -> marked (hdr o) = false).
#[local] Abbreviation live := (traced st Lay).

(** The heap with the objects of [M] marked. *)
Definition markAll M : gmap Z (Obj Kind) := map_imap (fun a o => Some (if bool_decide (a ∈ M) then withHeader mark o else o)) (objs st).
Definition marking M : GC Kind Ty E LO := setMarkedSinceClear (M ∪ markedSinceClear st) (setObjs (markAll M) st).

Lemma markAll_lookup M a : markAll M !! a = (fun o => if bool_decide (a ∈ M) then withHeader mark o else o) <$> objs st !! a.
Proof. unfold markAll. rewrite map_lookup_imap. by destruct (objs st !! a). Qed.

Lemma marking_none : marking ∅ = st.
Proof.
  unfold marking. assert (E0 : markAll ∅ = objs st).
  { apply map_eq. intros a. rewrite markAll_lookup. rewrite bool_decide_eq_false_2 by set_solver. by destruct (objs st !! a). }
  rewrite E0, union_empty_l_L. by destruct st.
Qed.

Lemma marking_step M a o : objs st !! a = Some o -> a ∉ M ->
  setMarkedSinceClear ({[a]} ∪ markedSinceClear (marking M)) (setObjs (<[a := withHeader mark o]> (objs (marking M))) (marking M)) = marking ({[a]} ∪ M).
Proof.
  intros Ho Ha. unfold marking, setMarkedSinceClear, setObjs. cbn. rewrite (assoc_L (∪)). f_equal.
  apply map_eq. intros b. destruct (decide (b = a)) as [->|Hne].
  - rewrite lookup_insert_eq, markAll_lookup, Ho. cbn. by rewrite bool_decide_eq_true_2 by set_solver.
  - rewrite lookup_insert_ne, !markAll_lookup by done. destruct (objs st !! b); [|done]. cbn.
    destruct (decide (b ∈ M)); [rewrite !bool_decide_eq_true_2 by set_solver|rewrite !bool_decide_eq_false_2 by set_solver]; done.
Qed.

(** The words of the objects that are not marked yet. *)
Definition weight st' : nat := sumMap (fun o : Obj Kind => if marked (hdr o) then 0%nat else length (words o)) (objs st').

Lemma weight_fuel st' : (S (weight st') <= markFuel st')%nat.
Proof. unfold weight, markFuel. apply le_n_S. apply (sumMap_le _ (fun o => length (words o))). intros o. destruct (marked (hdr o)); lia. Qed.

Lemma weight_step M a o : objs st !! a = Some o -> a ∉ M -> (weight (marking ({[a]} ∪ M)) + length (words o) = weight (marking M))%nat.
Proof.
  intros Ho Ha. rewrite <- (marking_step M a o Ho Ha). unfold weight. cbn [objs setMarkedSinceClear setObjs].
  assert (Hm : objs (marking M) !! a = Some o) by (cbn; rewrite markAll_lookup, Ho; cbn; by rewrite bool_decide_eq_false_2).
  pose proof (sumMap_update (fun o : Obj Kind => if marked (hdr o) then 0%nat else length (words o)) _ a o (withHeader mark o) Hm) as Hu.
  cbn in Hu |- *. rewrite (Hclear a o Ho), (proj1 (mark_fields _)) in Hu. lia.
Qed.

(** The marked objects lead to marked ones, and to what is on the stack. *)
Definition closedBut M (stack : list (Z * option Ty)) : Prop := forall a o s w, a ∈ M -> objs st !! a = Some o -> s ∈ Lay a ->
  words o !! slotIndex s = Some w -> w <> 0 -> w ∈ M \/ w ∈ stack.*1.
Definition stackOk (stack : list (Z * option Ty)) : Prop := forall a t, (a, t) ∈ stack -> a <> 0 /\ live a /\ laidOut (objs st) Lay t a.

(** The references of an object are pushed. *)
Definition refsOf (o : Obj Kind) (l : list (Slot Ty)) : option (list (Z * option Ty)) :=
  mapM (fun s => ref ← words o !! slotIndex s; Some (ref, refType s)) l.

Lemma refs_some a o l : live a -> objs st !! a = Some o -> l ⊆ Lay a -> exists refs, refsOf o l = Some refs /\ length refs = length l /\
  (forall w u, (w, u) ∈ refs -> w <> 0 -> live w /\ laidOut (objs st) Lay u w) /\ (forall s w, s ∈ l -> words o !! slotIndex s = Some w -> w ∈ refs.*1).
Proof.
  intros Hl Ho. destruct (mk_live _ _ Hmk a Hl) as (o' & _ & Ho' & _ & Hws). assert (o' = o) as -> by congruence.
  induction l as [|s l IH]; intros Hsub.
  - exists []. split_and!; try done; [by intros ? ? ?%elem_of_nil|by intros ? ? ?%elem_of_nil].
  - destruct IH as (refs & Er & El & Hr1 & Hr2); [set_solver|]. assert (Hin : s ∈ Lay a) by set_solver. destruct (Hws s Hin) as (w & Hw & Hlaid).
    exists ((w, refType s) :: refs). split.
    { change (refsOf o (s :: l)) with (y ← (ref ← words o !! slotIndex s; Some (ref, refType s)); k ← refsOf o l; mret (y :: k)).
      rewrite Hw. cbn [mbind option_bind]. by rewrite Er. } split; [cbn; by rewrite El|]. split.
    + intros v u [[= -> ->]|Hv]%elem_of_cons Hv0; [|by apply Hr1]. split; [|by apply Hlaid]. by eapply tr_slot.
    + intros s' v [->|Hs']%elem_of_cons Hv; cbn; [assert (v = w) as -> by congruence; left|right; by eapply Hr2].
Qed.

Lemma slots_words a o t : live a -> objs st !! a = Some o -> slotsOf (kind o) t = Lay a -> (length (Lay a) <= length (words o))%nat.
Proof.
  intros Hl Ho Ht. destruct (mk_live _ _ Hmk a Hl) as (o' & _ & Ho' & _ & Hws). assert (o' = o) as -> by congruence.
  rewrite <- (length_fmap slotIndex). apply nodup_bounded; [rewrite <- Ht; apply slots_once|]. intros i (s & -> & Hs)%list_elem_of_fmap.
  destruct (Hws s Hs) as (w & Hw & _). by eapply lookup_lt_Some.
Qed.

Lemma markLoop_ok fuel : forall stack M, stackOk stack -> (forall a, a ∈ M -> live a) -> closedBut M stack ->
  (length stack + weight (marking M) <= fuel)%nat ->
  exists M', markLoop fuel stack (marking M) = Some (marking M') /\ M ⊆ M' /\ (forall a, a ∈ stack.*1 -> a ∈ M') /\
    (forall a, a ∈ M' -> live a) /\ closedBut M' [].
Proof.
  induction fuel as [|fuel IH]; intros stack M Hst HM Hcl Hfuel; destruct stack as [|[a t] stack]; cbn [markLoop].
  1, 3: exists M; split_and!; try done; by intros a ?%elem_of_nil.
  { cbn in Hfuel. lia. }
  destruct (Hst a t ltac:(left)) as (Ha0 & Hla & o & Ho & Ht). replace (a =? 0) with false by lia.
  assert (Hst' : stackOk stack) by (intros b u Hb; apply Hst; by right).
  cbn [objs marking setMarkedSinceClear setObjs]. rewrite markAll_lookup, Ho. cbn [fmap option_fmap option_map mbind option_bind].
  destruct (decide (a ∈ M)) as [Hin|Hin].
  - rewrite bool_decide_eq_true_2 by done. cbn [hdr withHeader]. rewrite (proj1 (mark_fields _)).
    destruct (IH stack M Hst' HM) as (M' & Erun & HMM & Hs' & Hl' & Hc'); [|cbn in Hfuel; lia|].
    + intros b ob s w Hb Hob Hs Hw Hw0. destruct (Hcl b ob s w Hb Hob Hs Hw Hw0) as [?|[->|?]%elem_of_cons]; auto.
    + exists M'. split_and!; try done. intros b [->|Hb]%elem_of_cons; auto.
  - rewrite bool_decide_eq_false_2 by done. rewrite (Hclear a o Ho). change (setObjs _ (marking M)) with (setObjs (<[a := withHeader mark o]> (objs (marking M))) (marking M)).
    change (markedSinceClear (setObjs _ (marking M))) with (markedSinceClear (marking M)). rewrite (marking_step M a o Ho Hin).
    destruct (refs_some a o (Lay a) Hla Ho ltac:(done)) as (refs & Er & El & Hr1 & Hr2). rewrite Ht. fold (refsOf o (Lay a)). rewrite Er. cbn [mbind option_bind].
    pose proof (slots_words a o t Hla Ho Ht) as Hlen. pose proof (weight_step M a o Ho Hin) as Hwt.
    set (pushed := rev (filter (fun e : Z * option Ty => e.1 <> 0) refs)).
    assert (Hpush : forall w u, (w, u) ∈ pushed <-> (w, u) ∈ refs /\ w <> 0).
    { intros w u. unfold pushed. rewrite list_elem_of_In, <- in_rev, <- list_elem_of_In, list_elem_of_filter. cbn. tauto. }
    destruct (IH (pushed ++ stack) ({[a]} ∪ M)) as (M' & Erun & HMM & Hs' & Hl' & Hc').
    + intros b u [[Hb Hb0]%Hpush|Hb]%elem_of_app; [|by apply Hst']. split; [done|by apply Hr1].
    + intros b [->%elem_of_singleton|Hb]%elem_of_union; auto.
    + intros b ob s w [->%elem_of_singleton|Hb]%elem_of_union Hob Hs Hw Hw0.
      * right. rewrite fmap_app, elem_of_app. left. assert (ob = o) as -> by congruence.
        pose proof (Hr2 s w Hs Hw) as ([w' u] & -> & Hin')%list_elem_of_fmap. apply list_elem_of_fmap. exists (w', u). split; [done|]. by apply Hpush.
      * destruct (Hcl b ob s w Hb Hob Hs Hw Hw0) as [?|[->|?]%elem_of_cons]; [left; set_solver|left; set_solver|right]. rewrite fmap_app. set_solver.
    + rewrite length_app. unfold pushed. rewrite length_rev. pose proof (length_filter (fun e : Z * option Ty => e.1 <> 0) refs). cbn in Hfuel. lia.
    + exists M'. split_and!; try done; [set_solver|]. intros b [->|Hb]%elem_of_cons; [set_solver|]. apply Hs'. rewrite fmap_app. set_solver.
Qed.

Definition markedUp M : Prop := (forall a, a ∈ M -> live a) /\ closedBut M [].

Lemma markObject_ok a t M : markedUp M -> (a <> 0 -> live a /\ laidOut (objs st) Lay t a) ->
  exists M', markObject a t (marking M) = Some (marking M') /\ M ⊆ M' /\ (a <> 0 -> a ∈ M') /\ markedUp M'.
Proof.
  intros [HM Hcl] Ha. unfold markObject. destruct (Z.eqb_spec a 0) as [->|Hne]; [by exists M|]. destruct (Ha Hne) as [Hl Hlaid].
  destruct (markLoop_ok (markFuel (marking M)) [(a, t)] M) as (M' & Erun & HMM & Hs & Hl' & Hc'); try done.
  - intros b u [= -> ->]%list_elem_of_singleton. done.
  - intros b o s w Hb Ho Hs Hw Hw0. destruct (Hcl b o s w Hb Ho Hs Hw Hw0) as [?|?%elem_of_nil]; [by left|done].
  - pose proof (weight_fuel (marking M)). cbn [length]. lia.
  - exists M'. split_and!; try done. intros _. apply Hs. left.
Qed.

Lemma markRoots_ok roots : forall M, roots ⊆ rootSets st -> markedUp M ->
  exists M', markRoots roots (marking M) = Some (marking M') /\ M ⊆ M' /\ (forall r, r ∈ roots -> r <> 0 -> r ∈ M') /\ markedUp M'.
Proof.
  induction roots as [|r roots IH]; intros M Hsub HM; cbn [markRoots].
  - exists M. split_and!; try done. by intros r ?%elem_of_nil.
  - destruct (markObject_ok r None M HM) as (M1 & -> & H1 & Hr & HM1).
    { intros Hr. split; [apply tr_root|apply (mk_roots _ _ Hmk)]; (done || set_solver). }
    cbn [mbind option_bind]. destruct (IH M1) as (M2 & -> & H2 & Hr2 & HM2); [set_solver|done|].
    exists M2. split_and!; try done; [set_solver|]. intros x [->|Hx]%elem_of_cons Hx0; [|by apply Hr2]. apply H2. auto.
Qed.

Lemma markCells_ok l : forall M, l ⊆ cells st -> markedUp M ->
  exists M', markCells l (marking M) = Some (marking M') /\ M ⊆ M' /\ (forall c, c ∈ l -> cellRef c <> 0 -> cellRef c ∈ M') /\ markedUp M'.
Proof.
  induction l as [|c l IH]; intros M Hsub HM; cbn [markCells].
  - exists M. split_and!; try done. by intros r ?%elem_of_nil.
  - destruct (markObject_ok (cellRef c) (cellType c) M HM) as (M1 & -> & H1 & Hr & HM1).
    { intros Hr. split; [apply tr_cell|apply (mk_cells _ _ Hmk)]; (done || set_solver). }
    cbn [mbind option_bind]. destruct (IH M1) as (M2 & -> & H2 & Hr2 & HM2); [set_solver|done|].
    exists M2. split_and!; try done; [set_solver|]. intros x [->|Hx]%elem_of_cons Hx0; [|by apply Hr2]. apply H2. auto.
Qed.

(** Marked is what the roots reach. *)
Lemma marks_ok : exists M, (st1 ← markRoots (rootSets st) st; markCells (cells st1) st1) = Some (marking M) /\ forall a, a ∈ M <-> live a.
Proof.
  destruct (markRoots_ok (rootSets st) ∅) as (M1 & E1 & _ & Hr1 & HM1).
  { done. }
  { split; intros a; [by intros ?%elem_of_empty|by intros ? ? ? ?%elem_of_empty]. }
  rewrite marking_none in E1. rewrite E1. cbn [mbind option_bind]. change (cells (marking M1)) with (cells st).
  destruct (markCells_ok (cells st) M1) as (M & -> & HMM & Hc & [HM Hcl]); [done..|].
  exists M. split; [done|]. intros a. split; [apply HM|]. induction 1 as [r Hr Hr0|c Hc' Hc0|a o s w _ IH Ho Hs Hw Hw0].
  - by apply HMM, Hr1.
  - by apply Hc.
  - destruct (Hcl a o s w IH Ho Hs Hw Hw0) as [?|?%elem_of_nil]; done.
Qed.
End Marking.

(** ** The mark phase *)

(** Nothing but marks differs. *)
Definition onlyMarks (x y : option (Obj Kind)) : Prop :=
  match x, y with
  | Some o, Some o' => kind o' = kind o /\ words o' = words o /\ ObjHeader.size (hdr o') = ObjHeader.size (hdr o) /\ region (hdr o') = region (hdr o)
  | None, None => True
  | _, _ => False
  end.

Lemma onlyMarks_trans x y z : onlyMarks x y -> onlyMarks y z -> onlyMarks x z.
Proof.
  destruct x, y, z; cbn; try done. intros (-> & -> & -> & ->) (-> & -> & -> & ->). done.
Qed.

Lemma onlyMarks_mark o : onlyMarks (Some o) (Some (withHeader mark o)).
Proof. unfold onlyMarks, ObjHeader.size, region. cbn. by destruct (mark_fields (hdr o)) as (_ & -> & -> & -> & _). Qed.
Lemma onlyMarks_unmark o : onlyMarks (Some o) (Some (withHeader unmark o)).
Proof. unfold onlyMarks, ObjHeader.size, region. cbn. by destruct (unmark_fields (hdr o)) as (_ & -> & -> & -> & _). Qed.

Lemma traced_marks st st' Lay a : rootSets st' = rootSets st -> cells st' = cells st -> (forall b, onlyMarks (objs st !! b) (objs st' !! b)) ->
  traced st Lay a -> traced st' Lay a.
Proof.
  intros Er Ec Ho. induction 1 as [r Hr Hr0|c Hc Hc0|a o s w _ IH Hao Hs Hw Hw0].
  - apply tr_root; [by rewrite Er|done].
  - apply tr_cell; [by rewrite Ec|done].
  - specialize (Ho a). rewrite Hao in Ho. destruct (objs st' !! a) as [o'|] eqn:Ho'; [|done]. destruct Ho as (_ & Ew & _).
    eapply tr_slot; [exact IH|exact Ho'|exact Hs|by rewrite Ew|done].
Qed.

Lemma onlyMarks_sym x y : onlyMarks x y -> onlyMarks y x.
Proof. destruct x, y; cbn; naive_solver. Qed.

Lemma laidOut_marks (h h' : gmap Z (Obj Kind)) Lay t a : (forall b, onlyMarks (h !! b) (h' !! b)) -> laidOut h Lay t a -> laidOut h' Lay t a.
Proof.
  intros Ho (o & Hao & Ht). specialize (Ho a). rewrite Hao in Ho. destruct (h' !! a) as [o'|] eqn:Ho'; [|done]. destruct Ho as (Ek & _).
  exists o'. by rewrite Ek.
Qed.

Lemma markable_marks st st' Lay : rootSets st' = rootSets st -> cells st' = cells st -> (forall b, onlyMarks (objs st !! b) (objs st' !! b)) ->
  markable st Lay -> markable st' Lay.
Proof.
  intros Er Ec Ho [M1 M2 M3]. split.
  - intros a Ha. apply (traced_marks st' st) in Ha; [|done..|intros b; by apply onlyMarks_sym].
    destruct (M1 a Ha) as (o & t & Hao & Ht & Hws). pose proof (Ho a) as Hb. rewrite Hao in Hb. destruct (objs st' !! a) as [o'|]; [|done].
    destruct Hb as (Ek & Ew & _). exists o', t. rewrite Ek, Ew. split_and!; [done..|]. intros s Hs. destruct (Hws s Hs) as (w & Hw & Hlaid).
    exists w. split; [done|]. intros Hw0. by eapply laidOut_marks, Hlaid.
  - rewrite Er. intros r Hr Hr0. eapply laidOut_marks; [done|by apply M2].
  - rewrite Ec. intros c Hc Hc0. eapply laidOut_marks; [done|by apply M3].
Qed.

(** Every mark is one that [clearMarks] clears. *)
Definition marksKnown st : Prop := forall a, isMarked st a = true -> unmarks st a = true.

Lemma clearMarks_lookup st a : objs (clearMarks st) !! a = (fun o => if unmarks st a then withHeader unmark o else o) <$> objs st !! a.
Proof. unfold clearMarks. cbn. rewrite map_lookup_imap. by destruct (objs st !! a). Qed.

Lemma clearMarks_clear st : marksKnown st -> forall a o, objs (clearMarks st) !! a = Some o -> marked (hdr o) = false.
Proof.
  intros Hmk a o. rewrite clearMarks_lookup. destruct (objs st !! a) as [o0|] eqn:Ho; [|done]. cbn. specialize (Hmk a). unfold isMarked in Hmk. rewrite Ho in Hmk.
  destruct (unmarks st a); intros [= <-]; cbn; [apply unmark_fields|]. destruct (marked (hdr o0)); [by specialize (Hmk eq_refl)|done].
Qed.

Lemma clearMarks_marks st a : onlyMarks (objs st !! a) (objs (clearMarks st) !! a).
Proof.
  rewrite clearMarks_lookup. destruct (objs st !! a) as [o|]; cbn [fmap option_fmap option_map]; [|done].
  destruct (unmarks st a); [apply onlyMarks_unmark|done].
Qed.

(** The mark phase returns, changes nothing but marks, and marks exactly what the roots reach. *)
Lemma markPhase_ok st Lay : markable st Lay -> marksKnown st -> exists heap ledger,
  let st' := setMarkedSinceClear ledger (setObjs heap st) in
  markPhase st = Some st' /\ (forall a, onlyMarks (objs st !! a) (heap !! a)) /\ (forall a, isMarked st' a = true <-> traced st Lay a) /\
  (forall a, a ∈ ledger <-> traced st Lay a).
Proof.
  intros Hmk Hkn. pose proof (clearMarks_clear st Hkn) as Hclear. pose proof (clearMarks_marks st) as Hom.
  assert (Hmk' : markable (clearMarks st) Lay) by (by apply (markable_marks st)).
  destruct (marks_ok (clearMarks st) Lay Hmk' Hclear) as (M & Erun & HM).
  assert (HM' : forall a, a ∈ M <-> traced st Lay a).
  { intros a. rewrite HM. split; eapply traced_marks; try done. intros b. by apply onlyMarks_sym. }
  exists (markAll (clearMarks st) M), M. unfold markPhase. cbn zeta.
  rewrite Erun. split_and!.
  - unfold marking. f_equal. unfold clearMarks, setMarkedSinceClear, setObjs. cbn. by rewrite union_empty_r_L.
  - intros a. eapply onlyMarks_trans; [apply Hom|]. rewrite markAll_lookup. destruct (objs (clearMarks st) !! a); cbn [fmap option_fmap option_map]; [|done].
    destruct (bool_decide (a ∈ M)); [apply onlyMarks_mark|done].
  - intros a. rewrite <- HM'. unfold isMarked. cbn. rewrite markAll_lookup. destruct (objs (clearMarks st) !! a) as [o|] eqn:Ho; cbn [fmap option_fmap option_map].
    + destruct (decide (a ∈ M)) as [Hin|Hin].
      * rewrite bool_decide_eq_true_2 by done. cbn. by rewrite (proj1 (mark_fields _)).
      * rewrite bool_decide_eq_false_2 by done. cbn. rewrite (Hclear a o Ho). split; done.
    + split; [done|]. intros Hin%HM. destruct (mk_live _ _ Hmk' a Hin) as (o & _ & Ho' & _). congruence.
  - exact HM'.
Qed.

(** ** The sweep of the graphs *)

Definition dead (managers : list GCGraphManager) st (g : Z) : Prop := isMarked st g = false /\
  exists m, m ∈ managers /\ ((g ∈ graphs_ m /\ g ∉ unbound_ m) \/ g ∈ programs_ m).

(** What is left of an owner. *)
Definition keptBy st (m : GCGraphManager) : GCGraphManager :=
  mkManager (filter (fun g => g ∈ unbound_ m \/ isMarked st g = true) (graphs_ m)) (filter (fun g => isMarked st g = true) (programs_ m)) (unbound_ m).

Lemma freeDead_trans D1 D2 st : freeDead D2 (freeDead D1 st) = freeDead (D1 ∪ D2) st.
Proof.
  unfold freeDead. cbn. rewrite difference_difference_l_L. unfold setGraphSpace, setObjs. cbn. f_equal.
  apply map_eq. intros a. apply option_eq. intros o. rewrite !map_lookup_filter_Some. cbn. set_solver.
Qed.

Lemma freeDead_none st : freeDead ∅ st = st.
Proof.
  unfold freeDead. rewrite difference_empty_L. rewrite map_filter_id; [by destruct st|]. intros a o _. cbn. set_solver.
Qed.

Lemma isMarked_freeDead D st a : (forall g, g ∈ D -> isMarked st g = false) -> isMarked (freeDead D st) a = isMarked st a.
Proof.
  intros HD. destruct (decide (a ∈ D)) as [Hin|Hin].
  - rewrite (HD a Hin). unfold isMarked, freeDead. cbn. rewrite map_lookup_filter_None_2; [done|]. right. intros o _. cbn. set_solver.
  - unfold isMarked, freeDead. cbn. destruct (objs st !! a) as [o|] eqn:Ho.
    + by rewrite (map_lookup_filter_Some_2 _ (objs st) a o).
    + by rewrite map_lookup_filter_None_2 by by left.
Qed.

Lemma sweepMarked_ok m st : exists D, sweepMarked m st = (keptBy st m, freeDead D st) /\ forall g, g ∈ D <-> dead [m] st g.
Proof.
  unfold sweepMarked, dead, keptBy. eexists. split.
  - f_equal. f_equal; apply set_eq; intros g; rewrite elem_of_difference, !elem_of_filter; destruct (isMarked st g), (decide (g ∈ unbound_ m)); naive_solver.
  - intros g. rewrite elem_of_union, !elem_of_filter. setoid_rewrite list_elem_of_singleton. naive_solver.
Qed.

Lemma keptBy_freeDead D st m : (forall g, g ∈ D -> isMarked st g = false) -> keptBy (freeDead D st) m = keptBy st m.
Proof.
  intros HD. unfold keptBy. f_equal; apply set_eq; intros g; rewrite !elem_of_filter; by rewrite isMarked_freeDead.
Qed.

Lemma sweepGraphs_ok managers : forall st, exists D, sweepGraphs managers st = (keptBy st <$> managers, freeDead D st) /\
  forall g, g ∈ D <-> dead managers st g.
Proof.
  induction managers as [|m managers IH]; intros st; cbn [sweepGraphs].
  - exists ∅. rewrite freeDead_none. split; [done|]. intros g. split; [by intros ?%elem_of_empty|]. by intros (_ & m & ?%elem_of_nil & _).
  - destruct (sweepMarked_ok m st) as (D1 & -> & HD1). destruct (IH (freeDead D1 st)) as (D2 & -> & HD2).
    assert (Hun : forall g, g ∈ D1 -> isMarked st g = false) by (by intros g [? _]%HD1).
    exists (D1 ∪ D2). rewrite freeDead_trans. split.
    + f_equal. cbn. f_equal. apply list_fmap_ext. intros. by apply keptBy_freeDead.
    + intros g. rewrite elem_of_union, HD1, HD2. unfold dead. rewrite isMarked_freeDead by done.
      setoid_rewrite elem_of_cons. setoid_rewrite elem_of_nil. naive_solver.
Qed.

(** ** The sweeps of the old spaces *)

(** What a sweep of the blocks [l] frees. *)
Definition garbage st (l : list Z) : list Z := filter (fun a => isMarked st a = false) l.

Lemma unreachableIn_ok st l : (forall a, a ∈ l -> is_Some (objs st !! a)) -> unreachableIn st l = Some (garbage st l).
Proof.
  unfold garbage. induction l as [|a l IH]; intros Hl; [done|]. destruct (Hl a ltac:(left)) as [o Ho]. cbn [unreachableIn]. rewrite Ho. cbn [mbind option_bind].
  rewrite IH by (intros b Hb; apply Hl; by right). cbn [mbind option_bind]. rewrite filter_cons.
  assert (Em : isMarked st a = marked (hdr o)) by (unfold isMarked; by rewrite Ho). rewrite Em. by destruct (marked (hdr o)).
Qed.

Lemma elem_of_garbage st l a : a ∈ garbage st l <-> isMarked st a = false /\ a ∈ l.
Proof. unfold garbage. by rewrite list_elem_of_filter. Qed.

Lemma dropObjects_lookup l st a o : objs (dropObjects l st) !! a = Some o <-> objs st !! a = Some o /\ a ∉ l.
Proof. unfold dropObjects. cbn. by rewrite map_lookup_filter_Some. Qed.

(** The budget is the percentage of what is alive: the split neither overflows nor rounds. *)
Lemma growthOf_exact live percent : 0 <= live < 2 ^ 48 -> 0 <= percent < 2 ^ 15 -> growthOf live percent = live * percent / 100.
Proof.
  intros Hl Hp. unfold growthOf, u64. pose proof (Z.div_mod live 100 ltac:(lia)) as Hdm. pose proof (Z.mod_pos_bound live 100 ltac:(lia)).
  set (q := live / 100) in *. set (r := live mod 100) in *. assert (0 <= q < 2 ^ 48) by (subst q; split; [apply Z.div_pos; lia|apply Z.div_lt_upper_bound; lia]).
  assert (0 <= q * percent < 2 ^ 63) by nia. assert (0 <= r * percent < 2 ^ 22) by nia.
  rewrite !(Z.mod_small _ (2 ^ 64)); [|lia..|].
  - replace (live * percent) with (r * percent + q * percent * 100) by nia. rewrite Z.div_add by lia. lia.
  - rewrite !(Z.mod_small _ (2 ^ 64)) by lia. pose proof (Z.div_pos (r * percent) 100). pose proof (Z.div_le_upper_bound (r * percent) 100 (2 ^ 22)). lia.
Qed.

(** What a sweep of an old space leaves alone. *)
Definition sameFrame st st' : Prop :=
  birth st' = birth st /\ haven st' = haven st /\ cache st' = cache st /\ inGC st' = inGC st /\ fresh st' = fresh st /\
  youngFinalizables st' = youngFinalizables st /\ markedSinceClear st' = markedSinceClear st /\ settingsOf (pacing st') = settingsOf (pacing st).

Record sweptElder st st' : Prop := {
  se_ok : ook (elder st');
  se_blocks : forall p, p ∈ oiterate (elder st') <-> p ∈ oiterate (elder st) /\ isMarked st p = true;
  se_objs : forall a o, objs st' !! a = Some o <-> objs st !! a = Some o /\ a ∉ garbage st (oiterate (elder st));
  se_finalized : finalized st' = finalized st ++ garbage st (oiterate (elder st));
  se_remembered : forall a t, remembered st' !! a = Some t <-> remembered st !! a = Some t /\ a ∉ garbage st (oiterate (elder st));
  se_rest : large st' = large st /\ rootSets st' = rootSets st /\ cells st' = cells st /\ graphSpace st' = graphSpace st /\ fresh st' = fresh st;
  se_pacing : enableYoungGenCopying_ (pacing st') = enableYoungGenCopying_ (pacing st) /\
    elderBytesSinceSweep_ (pacing st') = 0 /\ elderLiveBytes_ (pacing st') = ousedBytes (elder st') /\ elderBlockBytesSinceSweep_ (pacing st') = 0 /\
    elderBudget_ (pacing st') = Z.max (elderMinBudget_ (pacing st)) (growthOf (ousedBytes (elder st')) (largeObjGrowthPercent_ (pacing st))) /\
    largeObjMinBudget_ (pacing st') = largeObjMinBudget_ (pacing st) /\ largeObjGrowthPercent_ (pacing st') = largeObjGrowthPercent_ (pacing st);
  se_frame : sameFrame st st';
  se_avoids a : oavoids (elder st) a -> oavoids (elder st') a;
}.

Lemma sweepOldGen_ok st : ook (elder st) -> (forall p, p ∈ oiterate (elder st) -> is_Some (objs st !! p)) ->
  exists st', sweepOldGen st = Some st' /\ sweptElder st st'.
Proof.
  intros Hok Hall. unfold sweepOldGen. rewrite unreachableIn_ok by done. cbn [mbind option_bind].
  destruct (heldBlocks _ _ _ _) as [bytes bs]. set (bad := garbage st (oiterate (elder st))).
  destruct (ofreeBulk_ok (elder st) bad Hok) as (e & Ef & Hok' & He & Hav).
  { apply NoDup_filter, (oiterate_nodup _ Hok). }
  { intros p [_ Hp]%elem_of_garbage. done. }
  change (elder (finalizeObjects bad _)) with (elder st). rewrite Ef. cbn [mbind option_bind]. eexists. split; [done|]. split; cbn; try done.
  - intros p. rewrite He. unfold bad. rewrite elem_of_garbage. destruct (isMarked st p); naive_solver.
  - intros a o. by rewrite map_lookup_filter_Some.
  - intros a t. by rewrite map_lookup_filter_Some.
Qed.

Record sweptLarge st st' : Prop := {
  sl_ok : ook (large st');
  sl_blocks : forall p, p ∈ oiterate (large st') <-> p ∈ oiterate (large st) /\ isMarked st p = true;
  sl_objs : forall a o, objs st' !! a = Some o <-> objs st !! a = Some o /\ a ∉ garbage st (oiterate (large st));
  sl_finalized : finalized st' = finalized st ++ garbage st (oiterate (large st));
  sl_remembered : forall a t, remembered st' !! a = Some t <-> remembered st !! a = Some t /\ a ∉ garbage st (oiterate (large st));
  sl_rest : elder st' = elder st /\ rootSets st' = rootSets st /\ cells st' = cells st /\ graphSpace st' = graphSpace st /\ fresh st' = fresh st;
  sl_pacing : enableYoungGenCopying_ (pacing st') = enableYoungGenCopying_ (pacing st) /\
    largeBytesSinceSweep_ (pacing st') = 0 /\ largeObjBudget_ (pacing st') = Z.max (largeObjMinBudget_ (pacing st)) (growthOf (largeLiveBytes_ (pacing st')) (largeObjGrowthPercent_ (pacing st))) /\
    elderBytesSinceSweep_ (pacing st') = elderBytesSinceSweep_ (pacing st) /\ elderBudget_ (pacing st') = elderBudget_ (pacing st);
  sl_frame : sameFrame st st';
  sl_avoids a : oavoids (large st) a -> oavoids (large st') a;
}.

Lemma objectBytes_some st l : (forall p, p ∈ l -> exists o n, objs st !! p = Some o /\ ObjHeader.size (hdr o) = Some n) -> is_Some (objectBytes st l).
Proof.
  induction l as [|a l IH]; intros Hl; [by eexists|]. destruct (Hl a ltac:(left)) as (o & n & Ho & Hn). cbn [objectBytes]. rewrite Ho. cbn [mbind option_bind].
  rewrite Hn. cbn [mbind option_bind]. destruct IH as [k ->]; [intros; apply Hl; by right|]. by eexists.
Qed.

Lemma sweepLarge_ok st : ook (large st) -> (forall p, p ∈ oiterate (large st) -> exists o n, objs st !! p = Some o /\ ObjHeader.size (hdr o) = Some n) ->
  exists st', sweepLargeObjects st = Some st' /\ sweptLarge st st'.
Proof.
  intros Hok Hall. unfold sweepLargeObjects. rewrite unreachableIn_ok by (intros p Hp; destruct (Hall p Hp) as (o & _ & Ho & _); by eexists). cbn [mbind option_bind].
  set (bad := garbage st (oiterate (large st))).
  destruct (ofreeBulk_ok (large st) bad Hok) as (e & Ef & Hok' & He & Hav).
  { apply NoDup_filter, (oiterate_nodup _ Hok). }
  { intros p [_ Hp]%elem_of_garbage. done. }
  change (large (finalizeObjects bad _)) with (large st). rewrite Ef. cbn [mbind option_bind].
  set (st1 := dropObjects bad _). destruct (objectBytes_some st1 (oiterate e)) as [bytes Hb].
  { intros p [Hp Hno]%He. destruct (Hall p Hp) as (o & n & Ho & Hn). exists o, n. split; [|done]. unfold st1. by apply dropObjects_lookup. }
  rewrite Hb. cbn [mbind option_bind]. eexists. split; [done|]. split; cbn; try done.
  - intros p. rewrite He. unfold bad. rewrite elem_of_garbage. destruct (isMarked st p); naive_solver.
  - intros a o. by rewrite map_lookup_filter_Some.
  - intros a t. by rewrite map_lookup_filter_Some.
Qed.

(** ** Mark and sweep *)

(** The old spaces are apart from each other and from the graphs, and hold objects with headers. *)
Record separate st : Prop := {
  sep_ok : ook (elder st) /\ ook (large st);
  sep_elder p : p ∈ oiterate (elder st) -> is_Some (objs st !! p) /\ p ∉ oiterate (large st);
  sep_large p : p ∈ oiterate (large st) -> exists o n, objs st !! p = Some o /\ ObjHeader.size (hdr o) = Some n;
  sep_graphs g : g ∈ graphSpace st -> (g ∉ oiterate (elder st)) /\ g ∉ oiterate (large st);
}.

(** What mark and sweep leaves alone: the young objects, and all others but for their marks. *)
Record sweptRest st st' : Prop := {
  sr_bumps : birth st' = birth st /\ haven st' = haven st /\ cache st' = cache st;
  sr_lists : inGC st' = inGC st /\ fresh st' = fresh st /\ youngFinalizables st' = youngFinalizables st;
  sr_settings : settingsOf (pacing st') = settingsOf (pacing st);
  sr_others a : a ∉ oiterate (elder st) -> a ∉ oiterate (large st) -> a ∉ graphSpace st -> onlyMarks (objs st !! a) (objs st' !! a);
  sr_same a o' : objs st' !! a = Some o' -> exists o, objs st !! a = Some o /\ onlyMarks (Some o) (Some o');
  sr_graphs g : (g ∈ graphSpace st' -> g ∈ graphSpace st) /\ (is_Some (objs st !! g) -> g ∈ graphSpace st -> g ∈ graphSpace st' <-> is_Some (objs st' !! g));
  sr_avoids a : (oavoids (elder st) a -> oavoids (elder st') a) /\ (oavoids (large st) a -> oavoids (large st') a);
  sr_ledger a : isMarked st' a = true -> a ∈ markedSinceClear st';
}.

(** The owners own graphs. *)
Definition owned (managers : list GCGraphManager) st : Prop := forall m, m ∈ managers -> graphs_ m ∪ programs_ m ⊆ graphSpace st.

(** What mark and sweep leaves, of a heap in which [reached] is what the roots reach. *)
Record reclaimed st (reached : Z -> Prop) (managers : list GCGraphManager) st' (managers' : list GCGraphManager) : Prop := {
  rk_kept a o : reached a -> objs st !! a = Some o -> onlyMarks (Some o) (objs st' !! a);
  rk_elder p : p ∈ oiterate (elder st') <-> p ∈ oiterate (elder st) /\ reached p;
  rk_large p : p ∈ oiterate (large st') <-> p ∈ oiterate (large st) /\ reached p;
  rk_gone a : is_Some (objs st' !! a) -> is_Some (objs st !! a) /\ (a ∈ oiterate (elder st) \/ a ∈ oiterate (large st) -> reached a);
  rk_graphs : Forall2 (fun m m' => unbound_ m' = unbound_ m /\
    (forall g, g ∈ graphs_ m' <-> g ∈ graphs_ m /\ (g ∈ unbound_ m \/ reached g)) /\ (forall g, g ∈ programs_ m' <-> g ∈ programs_ m /\ reached g)) managers managers';
  rk_finalized : exists l, finalized st' = finalized st ++ l /\ NoDup l /\
    forall p, p ∈ l <-> (p ∈ oiterate (elder st) \/ p ∈ oiterate (large st)) /\ ~ reached p;
  rk_remembered a t : remembered st' !! a = Some t <->
    remembered st !! a = Some t /\ (a ∈ oiterate (elder st) \/ a ∈ oiterate (large st) -> reached a);
  rk_roots : rootSets st' = rootSets st /\ cells st' = cells st;
  rk_ok : ook (elder st') /\ ook (large st');
  rk_budgets : elderBytesSinceSweep_ (pacing st') = 0 /\ largeBytesSinceSweep_ (pacing st') = 0 /\
    elderBudget_ (pacing st') = Z.max (elderMinBudget_ (pacing st)) (growthOf (ousedBytes (elder st')) (largeObjGrowthPercent_ (pacing st))) /\
    largeObjBudget_ (pacing st') = Z.max (largeObjMinBudget_ (pacing st)) (growthOf (largeLiveBytes_ (pacing st')) (largeObjGrowthPercent_ (pacing st)));
}.

Lemma freeDead_marked D st a : (forall g, g ∈ D -> isMarked st g = false) ->
  forall o, objs (freeDead D st) !! a = Some o <-> objs st !! a = Some o /\ a ∉ D.
Proof. intros HD o. unfold freeDead. cbn. by rewrite map_lookup_filter_Some. Qed.

Lemma isMarked_same st st' (l : list Z) : (forall a o, objs st' !! a = Some o <-> objs st !! a = Some o /\ a ∉ l) ->
  (forall a, a ∈ l -> isMarked st a = false) -> forall a, isMarked st' a = isMarked st a.
Proof.
  intros Ho Hl a. unfold isMarked in *. destruct (objs st' !! a) as [o|] eqn:Ho'; [by apply Ho in Ho' as [-> _]|].
  destruct (objs st !! a) as [o|] eqn:Ho0; [|done]. destruct (decide (a ∈ l)) as [Hin|Hin]; [specialize (Hl a Hin); rewrite Ho0 in Hl; done|].
  assert (objs st' !! a = Some o); [by apply Ho|congruence].
Qed.

Lemma markSweep_ok st Lay managers : markable st Lay -> marksKnown st -> separate st -> owned managers st ->
  exists managers' st', markSweep managers st = Some (managers', st') /\ reclaimed st (traced st Lay) managers st' managers' /\
    sweptRest st st' /\ (forall a, isMarked st' a = true -> traced st Lay a) /\
    forall g, g ∈ graphSpace st -> g ∈ graphSpace st' \/ (~ traced st Lay g /\
      exists m, m ∈ managers /\ ((g ∈ graphs_ m /\ g ∉ unbound_ m) \/ g ∈ programs_ m)).
Proof.
  intros Hmk Hkn [[Hoke Hokl] He Hl Hg] Hown. destruct (markPhase_ok st Lay Hmk Hkn) as (heap & ledger & Em & Hom & Hmark & Hled).
  unfold markSweep. rewrite Em. cbn [mbind option_bind]. set (st1 := setMarkedSinceClear ledger (setObjs heap st)) in *.
  destruct (sweepGraphs_ok managers st1) as (D & -> & HD). set (st2 := freeDead D st1).
  assert (HDm : forall g, g ∈ D -> isMarked st1 g = false) by (by intros g [? _]%HD).
  assert (HDg : forall g, g ∈ D -> g ∈ graphSpace st).
  { intros g (_ & m & Hm & Hin)%HD. pose proof (Hown m Hm). set_solver. }
  assert (Hm2 : forall a, isMarked st2 a = isMarked st1 a) by (intros a; by apply isMarked_freeDead).
  assert (Hunm : forall a, isMarked st1 a = false <-> ~ traced st Lay a).
  { intros a. rewrite <- Hmark. destruct (isMarked st1 a); naive_solver. }
  assert (Hstay : forall a o, objs st !! a = Some o -> a ∉ D -> exists o', objs st2 !! a = Some o' /\ onlyMarks (Some o) (Some o')).
  { intros a o Ho Ha. pose proof (Hom a) as Hm. rewrite Ho in Hm. destruct (heap !! a) as [o'|] eqn:Ho'; [|done]. exists o'. split; [|done].
    by apply freeDead_marked. }
  destruct (sweepOldGen_ok st2) as (st3 & E3 & [S1 S2 S3 S4 S5 S6 S7 S8 S9]).
  { done. }
  { intros p Hp. destruct (He p Hp) as [[o Ho] _]. destruct (Hstay p o Ho) as (o' & ? & _); [|by eexists]. intros Hin%HDg%Hg. by destruct Hin. }
  change (elder st2) with (elder st) in S2, S3, S4, S5.
  assert (Hm3 : forall a, isMarked st3 a = isMarked st1 a).
  { intros a. rewrite (isMarked_same st2 st3 _ S3); [done|]. by intros b [? _]%elem_of_garbage. }
  destruct S6 as (El & Er & Ec & Egs & Efr). change (large st2) with (large st) in El.
  destruct (sweepLarge_ok st3) as (st4 & E4 & [T1 T2 T3 T4 T5 T6 T7 T8 T9]).
  { by rewrite El. }
  { rewrite El. intros p Hp. destruct (Hl p Hp) as (o & n & Ho & Hn). destruct (Hstay p o Ho) as (o' & Ho' & Hmm).
    - intros Hin%HDg%Hg. by destruct Hin.
    - exists o', n. split; [|by destruct Hmm as (_ & _ & -> & _)]. apply S3. split; [done|]. intros [_ Hpe]%elem_of_garbage. by destruct (He p Hpe). }
  rewrite El in T2, T3, T4, T5. rewrite E3. cbn [mbind option_bind]. rewrite E4. cbn [mbind option_bind]. eexists _, st4. split; [done|].
  destruct T6 as (Ee & Er' & Ec' & T6').
  assert (Hall : forall a o, objs st4 !! a = Some o <-> objs st1 !! a = Some o /\ (a ∉ D) /\
    (a ∈ oiterate (elder st) \/ a ∈ oiterate (large st) -> traced st Lay a)).
  { intros a o. assert (H2 : objs st2 !! a = Some o <-> objs st1 !! a = Some o /\ a ∉ D) by by apply freeDead_marked.
    rewrite T3, S3, H2, !elem_of_garbage, Hm3, Hm2, Hunm.
    destruct (isMarked st1 a) eqn:Eb; [apply Hmark in Eb; naive_solver|apply Hunm in Eb; naive_solver]. }
  assert (Hm4 : forall a, isMarked st4 a = isMarked st1 a).
  { intros a. rewrite (isMarked_same st3 st4 _ T3); [done|]. by intros b [? _]%elem_of_garbage. }
  assert (Egr : graphSpace st4 = graphSpace st ∖ D) by (destruct T6' as (-> & _); by rewrite Egs).
  split; [|split; [|split; [intros a; rewrite Hm4; apply Hmark|]]].
  3: { rewrite Egr. intros g Hgs. destruct (decide (g ∈ D)) as [Hin|Hin]; [right|left; set_solver].
    apply HD in Hin as [Hf Hex]. split; [by apply Hunm|done]. }
  2: { destruct S8 as (? & ? & ? & ? & ? & ? & E7 & E8), T8 as (? & ? & ? & ? & ? & ? & E7' & E8'). split.
    - split_and!; etransitivity; done.
    - split_and!; etransitivity; done.
    - by etransitivity.
    - intros a Hae Hal Hag. pose proof (Hom a) as Hm. replace (objs st4 !! a) with (heap !! a); [done|]. apply option_eq. intros o.
      rewrite Hall. split; [|by intros (? & _)]. intros Ho. split_and!; [done|by intros ?%HDg|by intros [?|?]].
    - intros a o' (Ho & _)%Hall. pose proof (Hom a) as Hm. change (heap !! a = Some o') in Ho. rewrite Ho in Hm.
      destruct (objs st !! a) as [o|]; [by exists o|done].
    - rewrite Egr. intros g. split; [set_solver|]. intros [o Ho] Hgs. rewrite elem_of_difference. split.
      + intros [_ Hgd]. pose proof (Hom g) as Hm. rewrite Ho in Hm. destruct (heap !! g) as [o'|] eqn:Ho'; [|done]. exists o'. apply Hall.
        split_and!; [done..|]. destruct (Hg g Hgs). by intros [?|?].
      + intros [o' (_ & ? & _)%Hall]. done.
    - intros a. rewrite Ee. split; [apply S9|]. intros Ha. apply T9. by rewrite El.
    - intros a. rewrite Hm4, E7', E7. intros Ha%Hmark. by apply Hled. }
  split.
  - intros a o Ha Ho. pose proof (Hom a) as Hm. rewrite Ho in Hm. destruct (heap !! a) as [o'|] eqn:Ho'; [|done].
    assert (Hn : objs st4 !! a = Some o'); [|by rewrite Hn]. apply Hall. split; [done|]. split; [|done].
    intros Hin%HDm. by apply Hunm in Hin.
  - intros p. rewrite Ee, S2, Hm2, Hmark. done.
  - intros p. rewrite T2, Hm3, Hmark. done.
  - intros a [o (Ho & Ha & Hr)%Hall]. split; [|done]. pose proof (Hom a) as Hm. change (heap !! a = Some o) in Ho. rewrite Ho in Hm.
    destruct (objs st !! a); [by eexists|done].
  - apply Forall2_fmap_r, Forall2_same_length_lookup. split; [done|]. intros i m m' Hi Hi'. assert (m' = m) as -> by congruence. cbn.
    split; [done|]. setoid_rewrite elem_of_filter. setoid_rewrite Hmark. naive_solver.
  - exists (garbage st2 (oiterate (elder st)) ++ garbage st3 (oiterate (large st))). rewrite T4, S4, <- app_assoc. split; [done|]. split.
    + apply NoDup_app. split; [apply NoDup_filter, (oiterate_nodup _ Hoke)|]. split; [|apply NoDup_filter, (oiterate_nodup _ Hokl)].
      intros p [_ Hp]%elem_of_garbage [_ Hq]%elem_of_garbage. by destruct (He p Hp).
    + intros p. rewrite elem_of_app, !elem_of_garbage, Hm3, Hm2, Hunm. naive_solver.
  - intros a t. rewrite T5, S5, !elem_of_garbage, Hm3, Hm2.
    destruct (isMarked st1 a) eqn:Eb; [apply Hmark in Eb; naive_solver|apply Hunm in Eb; naive_solver].
  - rewrite Er', Ec', Er, Ec. done.
  - rewrite Ee. done.
  - destruct S7 as (_ & P1 & _ & _ & P2 & P3 & P4), T7 as (_ & Q1 & Q2 & Q3 & Q4). rewrite Q3, Q4, Q2, P2, P3, P4, Ee. done.
Qed.

(** ** With the minor collection in front *)

(** Graph carriers are untyped and lead to graphs. *)
Record carriersBound st (Lay : Z -> list (Slot Ty)) : Prop := {
  cb_slots a o s w : traced st Lay a -> objs st !! a = Some o -> s ∈ Lay a -> carrier s = true ->
    refType s = None /\ (words o !! slotIndex s = Some w -> w <> 0 -> w ∈ graphSpace st);
  cb_cells c : c ∈ cells st -> cellCarrier c = true -> cellType c = None /\ (cellRef c <> 0 -> cellRef c ∈ graphSpace st);
}.

(** The marks of earlier collections are in the spaces or in the ledger. *)
Definition ledgered st : Prop := forall a, isMarked st a = true -> inBumpSpaces st a = true \/ a ∈ oiterate (elder st) \/ a ∈ oiterate (large st) \/
  (a ∈ markedSinceClear st /\ a ∈ graphSpace st).

Lemma ledgered_known st : ledgered st -> marksKnown st.
Proof.
  intros Hl a Ha. unfold unmarks. destruct (Hl a Ha) as [->|[Hin|[Hin|[H1 H2]]]]; [done|..].
  - rewrite (bool_decide_eq_true_2 (a ∈ oiterate (elder st))) by done. by rewrite orb_true_r.
  - rewrite (bool_decide_eq_true_2 (a ∈ oiterate (large st))) by done. by rewrite !orb_true_r.
  - rewrite (bool_decide_eq_true_2 (a ∈ markedSinceClear st)), (bool_decide_eq_true_2 (a ∈ graphSpace st)) by done. by rewrite !orb_true_r.
Qed.

Section Moved.
Context (st : GC Kind Ty E LO) (Lay : Z -> list (Slot Ty)) (Hrd : ready st Lay) (Hcb : carriersBound st Lay).
Context (F : gmap Z Z) (Lay' : Z -> list (Slot Ty)) (st1 : GC Kind Ty E LO) (Hcl : collected st Lay F Lay' st1).
#[local] Abbreviation live := (reachable st Lay).

Lemma traced_reachable a : traced st Lay a -> live a.
Proof.
  induction 1 as [r Hr Hr0|c Hc Hc0|a o s w Ha IH Ho Hs Hw Hw0].
  - by apply rc_root.
  - apply rc_cell; [done..|]. intros Hcc. by apply (cb_cells _ _ Hcb).
  - eapply rc_slot; [exact IH|done..|]. intros Hcc. by eapply (cb_slots _ _ Hcb).
Qed.

Lemma moved_graph g : g ∈ graphSpace st -> reloc F g = g.
Proof.
  intros Hg. apply reloc_None. destruct (F !! g) eqn:HF; [|done]. destruct (proj1 (cl_moved _ _ _ _ _ Hcl g)) as [_ Hy]; [by eexists|].
  destruct (rd_graph _ _ Hrd g Hg). congruence.
Qed.

Lemma moved_null : reloc F 0 = 0.
Proof.
  apply reloc_None. destruct (F !! 0) eqn:HF; [|done]. destruct (proj1 (cl_moved _ _ _ _ _ Hcl 0)) as [_ Hy]; [by eexists|].
  destruct (rd_null _ _ Hrd). congruence.
Qed.

Lemma moved_old a : young st a = false -> reloc F a = a.
Proof.
  intros Hy. apply reloc_None. destruct (F !! a) eqn:HF; [|done]. destruct (proj1 (cl_moved _ _ _ _ _ Hcl a)) as [_ ?]; [by eexists|]. congruence.
Qed.

(** A slot of a traced object, before and after. *)
Lemma moved_slot a n s w : traced st Lay a -> objs st1 !! reloc F a = Some n -> s ∈ Lay a -> words n !! slotIndex s = Some w ->
  exists o w0, objs st !! a = Some o /\ words o !! slotIndex s = Some w0 /\ w = reloc F w0 /\
    (w0 <> 0 -> targetOk (objs st) (graphSpace st) (rootedIn st) Lay live s w0) /\ (w0 <> 0 -> carrier s = true -> w0 ∈ graphSpace st).
Proof.
  intros Ht Hn Hs Hw. destruct (rd_live _ _ Hrd a (traced_reachable a Ht)) as (o & t & Ho & _ & Hws). destruct (Hws s Hs) as (w0 & Hw0 & Htg).
  destruct (cl_kept _ _ _ _ _ Hcl a o (traced_reachable a Ht) Ho) as (n' & Hn' & Hso). assert (n' = n) as -> by congruence.
  rewrite (so_slots _ _ _ _ _ _ Hso s w0 Hs Hw0) in Hw. injection Hw as <-. exists o, w0.
  assert (Hg : w0 <> 0 -> carrier s = true -> w0 ∈ graphSpace st) by (intros; by eapply (cb_slots _ _ Hcb)).
  split_and!; try done. destruct (decide (w0 = 0)) as [->|Hne]; [rewrite moved_null; by destruct (carrier s)|].
  destruct (carrier s); [|done]. rewrite moved_graph by auto. done.
Qed.

Lemma moved_cell c : c ∈ cells st -> cellRef (movedCell F c) = reloc F (cellRef c).
Proof.
  intros Hc. cbn. destruct (cellCarrier c) eqn:Hcc; [|done]. destruct (decide (cellRef c = 0)) as [->|Hne]; [by rewrite moved_null|].
  symmetry. apply moved_graph. by apply (cb_cells _ _ Hcb).
Qed.

Lemma moved_nonzero w : reloc F w <> 0 -> w <> 0.
Proof. intros Hw ->. by rewrite moved_null in Hw. Qed.

Lemma root_graph r : r ∈ rootSets st -> r <> 0 -> r ∈ graphSpace st /\ laid (objs st) Lay live None r.
Proof. intros Hr Hr0. pose proof (rd_roots _ _ Hrd) as Hall. rewrite Forall_forall in Hall. by destruct (Hall r Hr). Qed.

Lemma traced_from y : traced st1 Lay' y -> exists a, traced st Lay a /\ y = reloc F a.
Proof.
  destruct (cl_roots _ _ _ _ _ Hcl) as [Er Ec]. induction 1 as [r Hr Hr0|c Hc Hc0|a n s w _ IH Hn Hs Hw Hw0].
  - rewrite Er in Hr. exists r. split; [by apply tr_root|]. symmetry. by apply moved_graph, root_graph.
  - rewrite Ec in Hc. apply list_elem_of_fmap in Hc as (c0 & -> & Hc). rewrite moved_cell in Hc0 |- * by done.
    exists (cellRef c0). split; [|done]. apply tr_cell; [done|]. by apply moved_nonzero.
  - destruct IH as (b & Hb & ->). rewrite (cl_layout _ _ _ _ _ Hcl) in Hs by by apply traced_reachable.
    destruct (moved_slot b n s w Hb Hn Hs Hw) as (o & w0 & Ho & Hw' & -> & _). exists w0. split; [|done].
    eapply tr_slot; [exact Hb|exact Ho|exact Hs|exact Hw'|by apply moved_nonzero].
Qed.

Lemma moved_apart0 w : live w -> w <> 0 -> reloc F w <> 0.
Proof.
  intros Hl Hw He. destruct (rd_live _ _ Hrd w Hl) as (o & _ & Ho & _). destruct (cl_kept _ _ _ _ _ Hcl w o Hl Ho) as (n & Hn & _).
  rewrite He, (cl_null _ _ _ _ _ Hcl) in Hn. done.
Qed.

Lemma traced_to a : traced st Lay a -> traced st1 Lay' (reloc F a).
Proof.
  destruct (cl_roots _ _ _ _ _ Hcl) as [Er Ec]. induction 1 as [r Hr Hr0|c Hc Hc0|a o s w Ht IH Ho Hs Hw Hw0].
  - rewrite moved_graph by by apply root_graph. apply tr_root; [by rewrite Er|done].
  - rewrite <- moved_cell by done. apply tr_cell; [rewrite Ec; by apply list_elem_of_fmap_2|]. rewrite moved_cell by done.
    apply moved_apart0; [|done]. by apply traced_reachable, tr_cell.
  - assert (Hl : live w) by by eapply traced_reachable, tr_slot.
    destruct (cl_kept _ _ _ _ _ Hcl a o (traced_reachable a Ht) Ho) as (n & Hn & Hso).
    eapply tr_slot; [exact IH|exact Hn|rewrite (cl_layout _ _ _ _ _ Hcl); [exact Hs|by apply traced_reachable]| |by apply moved_apart0].
    rewrite (so_slots _ _ _ _ _ _ Hso s w Hs Hw). destruct (carrier s) eqn:Hc; [|done]. rewrite moved_graph; [done|]. by eapply (cb_slots _ _ Hcb).
Qed.

Lemma laidOut_moved t w : laid (objs st) Lay live t w -> laidOut (objs st1) Lay' t (reloc F w).
Proof.
  intros (Hl & o & Ho & Ht). destruct (cl_kept _ _ _ _ _ Hcl w o Hl Ho) as (n & Hn & Hso). exists n. split; [done|].
  by rewrite (so_kind _ _ _ _ _ _ Hso), (cl_layout _ _ _ _ _ Hcl).
Qed.

Lemma target_laid s w : (carrier s = true -> refType s = None /\ w ∈ graphSpace st) ->
  targetOk (objs st) (graphSpace st) (rootedIn st) Lay live s w -> laid (objs st) Lay live (refType s) w.
Proof. unfold targetOk. intros Hc. destruct (carrier s); [|by intros []]. destruct (Hc eq_refl) as [-> Hg]. auto. Qed.

Lemma markable_moved : markable st1 Lay'.
Proof.
  destruct (cl_roots _ _ _ _ _ Hcl) as [Er Ec]. split.
  - intros y (a & Ha & ->)%traced_from. pose proof (traced_reachable a Ha) as Hl. destruct (rd_live _ _ Hrd a Hl) as (o & t & Ho & Ht & Hws).
    destruct (cl_kept _ _ _ _ _ Hcl a o Hl Ho) as (n & Hn & Hso). exists n, t.
    rewrite (so_kind _ _ _ _ _ _ Hso), (cl_layout _ _ _ _ _ Hcl) by done. split_and!; [done..|]. intros s Hs. destruct (Hws s Hs) as (w & Hw & Htg).
    exists (reloc F w). assert (Hg : carrier s = true -> refType s = None /\ (w <> 0 -> w ∈ graphSpace st)).
    { intros Hc. destruct (cb_slots _ _ Hcb a o s w Ha Ho Hs Hc). auto. }
    split.
    + rewrite (so_slots _ _ _ _ _ _ Hso s w Hs Hw). destruct (carrier s); [|done]. destruct (decide (w = 0)) as [->|Hne]; [by rewrite moved_null|].
      rewrite moved_graph; [done|]. by apply Hg.
    + intros Hne%moved_nonzero. apply laidOut_moved, target_laid; [|by apply Htg]. intros Hc. destruct (Hg Hc). auto.
  - rewrite Er. intros r Hr Hr0. destruct (root_graph r Hr Hr0) as [Hg Hlaid]. rewrite <- (moved_graph r Hg). by apply laidOut_moved.
  - rewrite Ec. intros c' (c & -> & Hc)%list_elem_of_fmap. rewrite moved_cell by done. intros Hne%moved_nonzero. cbn.
    apply laidOut_moved. pose proof (rd_cells _ _ Hrd) as Hall. rewrite Forall_forall in Hall. apply (target_laid (cellSlot c)); [|by apply Hall].
    cbn. intros Hcc. destruct (cb_cells _ _ Hcb c Hc Hcc). auto.
Qed.

(** ** The spaces afterwards *)

Lemma young_header a : young st a = true -> isYoungAddress st (a - kHeaderBytes) = true.
Proof. unfold young, isYoungAddress. intros [-> | ->]%orb_true_iff; by rewrite ?orb_true_r. Qed.

Lemma old_not_young p : p ∈ oiterate (elder st) \/ p ∈ oiterate (large st) -> young st p = false.
Proof.
  intros Hp. apply not_true_is_false. intros [He Hl]%young_header%(rd_spaces _ _ Hrd). destruct (rd_elder _ _ Hrd) as [Oe Ol].
  destruct Hp as [Hp|Hp]; [by destruct (oiterate_contains _ _ Oe Hp) as (_ & _ & _ & ? & _)|by destruct (oiterate_contains _ _ Ol Hp) as (_ & _ & _ & ? & _)].
Qed.

(** The elder space takes no address that something else has. *)
Lemma elder_apart p : is_Some (objs st !! p) -> p ∉ oiterate (elder st) -> p ∉ oiterate (elder st1).
Proof.
  intros Hp Hno Hin. destruct (cl_spaces _ _ _ _ _ Hcl) as (_ & _ & _ & Ok1 & _ & Hav).
  destruct (rd_avoids _ _ Hrd p Hp) as [?|?%Hav]; [done|]. by destruct (oiterate_contains _ _ Ok1 Hin) as (_ & _ & ? & _).
Qed.

Lemma separate_moved : separate st -> separate st1.
Proof.
  intros [[Oe Ol] S2 S3 S4]. destruct (cl_spaces _ _ _ _ _ Hcl) as (El & Eg & _ & Ok1 & _ & _). split; rewrite ?El, ?Eg.
  - done.
  - intros p Hp. split; [apply (cl_housed _ _ _ _ _ Hcl); by left|]. intros Hl. destruct (S3 p Hl) as (o & _ & Ho & _).
    revert Hp. apply elder_apart; [by eexists|]. intros Hpe. by destruct (S2 p Hpe).
  - intros p Hp. destruct (S3 p Hp) as (o & n & Ho & Hn). destruct (cl_old _ _ _ _ _ Hcl p o Ho) as (o' & Ho' & _ & Eh); [apply old_not_young; by right|].
    exists o', n. by rewrite Eh.
  - intros g Hg. destruct (S4 g Hg) as [He Hl]. split; [|done]. apply elder_apart; [|done]. by destruct (rd_graph _ _ Hrd g Hg) as (_ & _ & ?).
Qed.

Lemma ledgered_moved : ledgered st -> ledgered st1.
Proof.
  intros Hk y Hy. destruct (cl_spaces _ _ _ _ _ Hcl) as (El & Eg & Em & Ok1 & Hel & _). rewrite El, Eg, Em.
  unfold isMarked in Hy. destruct (objs st1 !! y) as [n|] eqn:Hn; [|done].
  destruct (cl_left _ _ _ _ _ Hcl y) as [[[o Ho] Hf]|(a & Ha)]; [by eexists|..].
  - destruct (cl_old _ _ _ _ _ Hcl y o Ho Hf) as (n' & Hn' & _ & Eh). assert (n' = n) as -> by congruence.
    destruct (Hk y) as [Hb|[?|[?|?]]]; [unfold isMarked; by rewrite Ho, <- Eh| |auto..].
    exfalso. unfold inBumpSpaces in Hb. unfold young in Hf. rewrite Hf in Hb. cbn in Hb. rewrite (rd_empty _ _ Hrd y Hb) in Ho. done.
  - destruct (cl_copies _ _ _ _ _ Hcl _ _ Ha) as [Hyoung|?]; [left|by auto]. unfold young in Hyoung. unfold inBumpSpaces. by rewrite Hyoung.
Qed.
End Moved.

(** A major collection: what the roots reach is moved as by the minor collection it starts with,
    and the rest of the old spaces and of the graphs is given back. *)
Lemma majorGC_collects st Lay room managers : ready st Lay -> promotable st room -> carriersBound st Lay -> separate st -> ledgered st -> owned managers st ->
  exists F st1 managers' st', minorGC st = Some st1 /\ collected st Lay F (LayAfter Lay F) st1 /\ majorGC managers st = Some (managers', st') /\
    reclaimed st1 (fun y => exists a, traced st Lay a /\ y = reloc F a) managers st' managers' /\
    (forall a o, traced st Lay a -> objs st !! a = Some o -> exists n, objs st' !! reloc F a = Some n /\ sameObject st Lay F a o n).
Proof.
  intros Hrd Hpr Hcb Hsep Hled Hown. destruct (minorGC_collects st Lay room Hrd Hpr) as (st1 & F & Eg & Hcl & _).
  destruct (markSweep_ok st1 (LayAfter Lay F) managers) as (managers' & st' & Es & Hrec & _ & _ & _).
  { by eapply markable_moved. }
  { by eapply ledgered_known, ledgered_moved. }
  { by eapply separate_moved. }
  { intros m Hm. destruct (cl_spaces _ _ _ _ _ Hcl) as (_ & -> & _). by apply Hown. }
  assert (Hreach : forall y, traced st1 (LayAfter Lay F) y <-> exists a, traced st Lay a /\ y = reloc F a).
  { intros y. split; [by eapply traced_from|]. intros (a & Ha & ->). by eapply traced_to. }
  exists F, st1, managers', st'. split_and!; try done.
  - unfold majorGC. rewrite (rd_copying _ _ Hrd), Eg. done.
  - destruct Hrec as [R1 R2 R3 R4 R5 R6 R7 R8 R9 R10]. split; try done.
    + intros a o Ha. by apply R1, Hreach.
    + intros p. by rewrite R2, Hreach.
    + intros p. by rewrite R3, Hreach.
    + intros a Ha. destruct (R4 a Ha). split; [done|]. rewrite <- Hreach. done.
    + eapply Forall2_impl; [exact R5|]. cbn. setoid_rewrite Hreach. done.
    + setoid_rewrite Hreach in R6. done.
    + intros a t. by rewrite R7, Hreach.
  - intros a o Ha Ho. destruct (cl_kept _ _ _ _ _ Hcl a o (traced_reachable st Lay Hcb a Ha) Ho) as (n & Hn & [K1 K2 K3]).
    pose proof (rk_kept _ _ _ _ _ Hrec (reloc F a) n) as Hk. rewrite Hreach in Hk. specialize (Hk ltac:(by exists a) Hn).
    destruct (objs st' !! reloc F a) as [n'|]; [|done]. destruct Hk as (Ek & Ew & _). exists n'. split; [done|]. split; [by rewrite Ek|by rewrite Ew|by rewrite Ew].
Qed.

(** ** Only the pacing differs *)

#[local] Instance laid_proper heap Lay : Proper (pointwise_relation Z iff ==> eq ==> eq ==> iff) (laid heap Lay).
Proof. intros live live' Hl t _ <- a _ <-. unfold laid. by rewrite (Hl a). Qed.

#[local] Instance targetOk_proper heap G rooted Lay : Proper (pointwise_relation Z iff ==> eq ==> eq ==> iff) (targetOk heap G rooted Lay).
Proof. intros live live' Hl s _ <- a _ <-. unfold targetOk. destruct (carrier s); by rewrite Hl. Qed.

Section Pacing.
Context (st : GC Kind Ty E LO) (Lay : Z -> list (Slot Ty)) (p : Pacing).
#[local] Abbreviation st' := (setPacing p st).

Lemma reachable_pacing : pointwise_relation Z iff (reachable st' Lay) (reachable st Lay).
Proof.
  intros a. split; (induction 1 as [r Hr Hr0|c Hc Hc0 Hcar|b Hb|b o s w _ IH Ho Hs Hw Hne Hcar];
    [by apply rc_root|by apply rc_cell|by apply rc_remembered|by eapply rc_slot]).
Qed.

Lemma traced_pacing a : traced st' Lay a <-> traced st Lay a.
Proof.
  split; (induction 1 as [r Hr Hr0|c Hc Hc0|b o s w _ IH Ho Hs Hw Hne]; [by apply tr_root|by apply tr_cell|by eapply tr_slot]).
Qed.

Lemma ready_pacing : enableYoungGenCopying_ p = enableYoungGenCopying_ (pacing st) -> ready st Lay -> ready st' Lay.
Proof.
  intros Hp [R1 R2 R3 R4 R5 R6 R7 R8 R9 R10 R11 R12 R13 R14 R15 R16 R17 R18 R19 R20]. pose proof reachable_pacing as Hr.
  split; cbn; try done.
  - by rewrite Hp.
  - intros a Ha%Hr. destruct (R3 a Ha) as (o & t & Ho & Ht & Hws). exists o, t. split_and!; [done..|]. intros s Hs.
    destruct (Hws s Hs) as (w & Hw & Htg). exists w. split; [done|]. intros Hne. rewrite Hr. by apply Htg.
  - eapply Forall_impl; [exact R9|]. intros r [?|[? ?]]; [by left|right]. split; [done|]. by rewrite Hr.
  - eapply Forall_impl; [exact R10|]. intros c Hc Hne. rewrite Hr. by apply Hc.
  - intros a t Ha. rewrite Hr. by apply R11.
  - intros a o s w Ha%Hr. by apply R12.
Qed.

Lemma carriersBound_pacing : carriersBound st Lay -> carriersBound st' Lay.
Proof. intros [C1 C2]. split; [|done]. intros a o s w Ha%traced_pacing. by apply C1. Qed.
End Pacing.

(** ** Safepoints *)

Section Safepoint.
Context (runDeferredReleases : GC Kind Ty E LO -> GC Kind Ty E LO).

(** [n] safepoints in front of the ends of [n] scopes that inhibit collections. *)
Fixpoint waits (n : nat) (managers : list GCGraphManager) st : option (list GCGraphManager * GC Kind Ty E LO) :=
  match n with
  | O => Some (managers, st)
  | S n => '(managers, st, _) ← safepoint runDeferredReleases managers st; waits n managers (allowCollections st)
  end.

(** As long as collections are inhibited a request waits, and nothing moves. *)
Lemma waits_ok n : forall managers st, nativeCodeDepth (pacing st) = 0%nat -> collectionInhibit_ (pacing st) = n ->
  exists p, waits n managers st = Some (managers, setPacing p st) /\ nativeCodeDepth p = 0%nat /\ collectionInhibit_ p = 0%nat /\
    pendingSafepointCollection_ p = pendingSafepointCollection_ (pacing st) /\ enableYoungGenCopying_ p = enableYoungGenCopying_ (pacing st) /\
    heapLimitBytes_ p = heapLimitBytes_ (pacing st).
Proof.
  induction n as [|n IH]; intros managers st Hn Hi; cbn [waits].
  - exists (pacing st). split_and!; try done. by destruct st.
  - unfold safepoint. rewrite Hn. rewrite guarded_true by done. rewrite Hi. cbn [Nat.eqb negb mbind option_bind].
    destruct (IH managers (allowCollections (withPacing (fun p => setInhibitedSafepoints (inhibitedSafepoints p + 1) p) st))) as (p & Ew & Hp).
    + done.
    + cbn. by rewrite Hi.
    + exists p. rewrite Ew. split; [done|]. exact Hp.
Qed.

Lemma afterCollection_pacing k st : exists p, (afterCollection k st).1 = setPacing p st /\ ((afterCollection k st).2 <> None -> heapLimitBytes_ p <> 0 /\ heapLimitBytes_ p < oldBytesHeld (setPacing p st)) /\
  settingsOf p = settingsOf (pacing st) /\
  elderBytesSinceSweep_ p = elderBytesSinceSweep_ (pacing st) /\ largeBytesSinceSweep_ p = largeBytesSinceSweep_ (pacing st) /\
  elderBudget_ p = elderBudget_ (pacing st) /\ largeObjBudget_ p = largeObjBudget_ (pacing st) /\ largeLiveBytes_ p = largeLiveBytes_ (pacing st).
Proof.
  unfold afterCollection. destruct (Z.eqb_spec (heapLimitBytes_ (pacing st)) 0) as [E0|E0].
  { exists (pacing st). split_and!; try done. by destruct st. }
  destruct (decide (k = Minor)).
  - destruct (_ && _); [by eexists; split_and!|]. exists (pacing st). split_and!; try done. by destruct st.
  - eexists. split_and!; [done| |done..]. cbn [snd]. destruct (Z.ltb_spec (heapLimitBytes_ (pacing st)) (oldBytesHeld (withPacing (setHeapLimitExceeded false) st))); done.
Qed.

Lemma reclaimed_pacing st reached managers st' managers' p : reclaimed st reached managers st' managers' ->
  elderBytesSinceSweep_ p = elderBytesSinceSweep_ (pacing st') -> largeBytesSinceSweep_ p = largeBytesSinceSweep_ (pacing st') ->
  elderBudget_ p = elderBudget_ (pacing st') -> largeObjBudget_ p = largeObjBudget_ (pacing st') -> largeLiveBytes_ p = largeLiveBytes_ (pacing st') ->
  reclaimed st reached managers (setPacing p st') managers'.
Proof.
  intros [R1 R2 R3 R4 R5 R6 R7 R8 R9 R10] H1 H2 H3 H4 H5. split; try done. cbn. by rewrite H1, H2, H3, H4, H5.
Qed.

(** A major collection that is pending is run by the first safepoint that is not inhibited. *)
Lemma safepoint_collects st Lay room managers : pendingSafepointCollection_ (pacing st) = Major -> nativeCodeDepth (pacing st) = 0%nat ->
  ready st Lay -> promotable st room -> carriersBound st Lay -> separate st -> ledgered st -> owned managers st ->
  exists st1 F stm managers' st' e, waits (collectionInhibit_ (pacing st)) managers st = Some (managers, st1) /\
    (exists p, st1 = setPacing p st /\ pendingSafepointCollection_ p = Major) /\
    safepoint runDeferredReleases managers st1 =
      Some (managers', (match e with None => noteBlockBytes (runDeferredReleases st') | Some _ => st' end), e) /\
    (exists q, collected (setPacing q st) Lay F (LayAfter Lay F) stm) /\
    reclaimed stm (fun y => exists a, traced st Lay a /\ y = reloc F a) managers st' managers' /\
    (e <> None -> heapLimitBytes_ (pacing st') <> 0 /\ heapLimitBytes_ (pacing st') < oldBytesHeld st') /\
    (e = None -> slowPath (pacing st') = bool_decide (pendingSafepointCollection_ (pacing st') <> None_)).
Proof.
  intros Hpend Hnat Hrd Hpr Hcb Hsep Hled Hown.
  destruct (waits_ok (collectionInhibit_ (pacing st)) managers st Hnat eq_refl) as (p & Ew & Hn & Hi & Hp & Hen & _).
  set (st1 := setPacing p st) in *. rewrite Hpend in Hp. set (q := setPendingSafepointCollection None_ (setAtSafepoint true p)).
  destruct (majorGC_collects (setPacing q st) Lay room managers) as (F & stm & managers' & st2 & Eg & Hcl & Em & Hrec & _).
  { by apply ready_pacing. }
  { destruct Hpr as [Hs Hr]. by split. }
  { by apply carriersBound_pacing. }
  { by destruct Hsep. }
  { done. }
  { done. }
  destruct (afterCollection_pacing Major st2) as (p2 & Ea & Hex & Hsame). destruct (afterCollection Major st2) as [st3 e] eqn:Eac. cbn in Ea, Hex. subst st3.
  set (out := setPacing (setAtSafepoint (atSafepoint_ p) p2) st2).
  assert (Hout : reclaimed stm (fun y => exists a, traced st Lay a /\ y = reloc F a) managers out managers').
  { apply reclaimed_pacing; try apply Hsame. destruct Hrec as [Q1 Q2 Q3 Q4 Q5 Q6 Q7 Q8 Q9 Q10]. assert (Ht : forall y,
      (exists a, traced (setPacing q st) Lay a /\ y = reloc F a) <-> (exists a, traced st Lay a /\ y = reloc F a)) by (intros y; by setoid_rewrite traced_pacing).
    split; try done.
    - intros a o Ha. by apply Q1, Ht.
    - intros a. by rewrite Q2, Ht.
    - intros a. by rewrite Q3, Ht.
    - intros a Ha. destruct (Q4 a Ha). split; [done|]. by rewrite <- Ht.
    - eapply Forall2_impl; [exact Q5|]. cbn. setoid_rewrite Ht. done.
    - setoid_rewrite Ht in Q6. done.
    - intros a t. by rewrite Q7, Ht. }
  exists st1, F, stm, managers', (match e with None => withPacing publishSafepointSlowPath out | Some _ => out end), e.
  split_and!.
  - exact Ew.
  - by exists p.
  - unfold safepoint. change (pacing st1) with p. rewrite Hn, Hi. rewrite guarded_true by done. cbn [Nat.eqb negb].
    unfold collectPending. change (pacing st1) with p. rewrite Hp. unfold collectAtSafepoint. change (setPacing _ st1) with (setPacing q st).
    rewrite guarded_true by done. rewrite Em. cbn [mbind option_bind]. rewrite Eac. cbn [mbind option_bind].
    change (withPacing (setAtSafepoint (atSafepoint_ p)) (setPacing p2 st2)) with out. by destruct e.
  - by exists q.
  - destruct e; [done|]. apply reclaimed_pacing; (done || apply Hout).
  - destruct e; [|done]. intros He. exact (Hex He).
  - by intros ->.
Qed.
End Safepoint.
End MajorOk.
