(* ===== verification/GcSound.v ===== *)
(** * The heap of a running program

    What a heap is between two steps of a program ([sound]): ready for a collection, with every
    object where its header says, and its marks known. [ready_closed] is the way to show that a
    heap is ready without a walk over what is reached: a set of objects that the roots are in and
    that references do not leave. Collections and their sweeps keep a heap sound. *)

From stdpp Require Import gmap fin_sets.
From S2P Require Import Prelude ObjHeader BumpPtr GcState GcPacing GcMinor GcMinorInv GcMinorOk GcMajor GcMajorOk.
#[local] Open Scope Z_scope.

Section Sound.
Context {Kind Ty E LO : Type} `{Layout Kind Ty} `{!OldSpace E} `{!OldSpace LO}.
Implicit Types (st : GC Kind Ty E LO) (s : Slot Ty) (P : Z -> Prop) (Lay : Z -> list (Slot Ty)).

(** ** Heaps that are ready *)

(** What a heap is apart from what its roots reach. *)
Record fixed st : Prop := {
  fx_idle : inGC st = false /\ enableYoungGenCopying_ (pacing st) = true;
  fx_young a o : objs st !! a = Some o -> young st a = true -> headerOk (hdr o) /\ region (hdr o) = YoungGen /\ isYoungAddress st a = true;
  fx_old a : is_Some (objs st !! a) -> young st a = false -> isYoungAddress st a = false;
  fx_graph g : g ∈ graphSpace st -> young st g = false /\ (g ∉ fresh st) /\ is_Some (objs st !! g);
  fx_fresh a : a ∈ fresh st -> young st a = false /\ exists o, objs st !! a = Some o /\
    ((region (hdr o) = ElderGen /\ a ∈ oiterate (elder st)) \/ (region (hdr o) = LargeObj /\ a ∈ oiterate (large st)));
  fx_null : objs st !! 0 = None /\ young st 0 = false;
  fx_finalizable : Forall (fun a => is_Some (objs st !! a) /\ young st a = true) (youngFinalizables st);
  fx_bounds : boundsOk (birth st) /\ boundsOk (haven st) /\ boundsOk (cache st);
  fx_apart x : (contains (birth st) x = true -> contains (haven st) x = false /\ contains (cache st) x = false) /\
    (contains (haven st) x = true -> contains (cache st) x = false);
  fx_empty a : contains (cache st) (a - kHeaderBytes) = true -> objs st !! a = None;
  fx_elder : ook (elder st) /\ ook (large st);
  fx_avoids x : is_Some (objs st !! x) -> x ∈ oiterate (elder st) \/ oavoids (elder st) x;
  fx_spaces x : isYoungAddress st x = true -> oavoids (elder st) x /\ oavoids (large st) x;
  fx_housed p : p ∈ oiterate (elder st) \/ p ∈ oiterate (large st) -> is_Some (objs st !! p);
}.

(** The roots are in [P], and no reference leaves it. *)
Record closedUnder st Lay P : Prop := {
  cu_root r : r ∈ rootSets st -> r <> 0 -> P r;
  cu_cell c : c ∈ cells st -> cellRef c <> 0 -> (cellCarrier c = true -> cellRef c ∈ graphSpace st) -> P (cellRef c);
  cu_remembered a : is_Some (remembered st !! a) -> P a;
  cu_slot a o s w : P a -> objs st !! a = Some o -> s ∈ Lay a -> words o !! slotIndex s = Some w -> w <> 0 ->
    (carrier s = true -> w ∈ graphSpace st) -> P w;
}.

Lemma closed_reachable st Lay P a : closedUnder st Lay P -> reachable st Lay a -> P a.
Proof. intros [C1 C2 C3 C4]. induction 1; eauto. Qed.

(** The target of a reference is laid out as [Lay] says. *)
Definition targetLaid st Lay s (w : Z) : Prop :=
  if carrier s then w ∈ graphSpace st -> laidOut (objs st) Lay None w
  else laidOut (objs st) Lay (refType s) w /\ isPreciseGCType (refType s) = true /\ (w ∈ graphSpace st -> w ∈ rootedIn st).

Record shaped st Lay P : Prop := {
  sh_live a : P a -> exists o t, objs st !! a = Some o /\ slotsOf (kind o) t = Lay a /\
    forall s, s ∈ Lay a -> exists w, words o !! slotIndex s = Some w /\ (w <> 0 -> targetLaid st Lay s w);
  sh_roots r : r ∈ rootSets st -> r <> 0 -> r ∈ graphSpace st /\ laidOut (objs st) Lay None r;
  sh_cells c : c ∈ cells st -> cellRef c <> 0 -> targetLaid st Lay (cellSlot c) (cellRef c);
  sh_remembered a t : remembered st !! a = Some t -> young st a = false /\ laidOut (objs st) Lay t a;
  sh_quiet a o s w : P a -> quiet st a -> objs st !! a = Some o -> s ∈ Lay a -> words o !! slotIndex s = Some w -> w <> 0 ->
    if carrier s then w ∈ graphSpace st -> w ∈ rootedIn st else young st w = false /\ w ∉ fresh st;
}.

Lemma targetLaid_ok st Lay s w : targetLaid st Lay s w -> ((carrier s = true -> w ∈ graphSpace st) -> reachable st Lay w) ->
  targetOk (objs st) (graphSpace st) (rootedIn st) Lay (reachable st Lay) s w.
Proof.
  unfold targetLaid, targetOk, laid, laidOut. destruct (carrier s); [intros Ht Hl Hg; split; auto|]. intros (Ht & Hp & Hg) Hl. split_and!; [by apply Hl|done..].
Qed.

Lemma targetOk_laid st Lay s w : targetOk (objs st) (graphSpace st) (rootedIn st) Lay (reachable st Lay) s w -> targetLaid st Lay s w.
Proof. unfold targetLaid, targetOk, laid, laidOut. destruct (carrier s); naive_solver. Qed.

Lemma ready_closed st Lay P : fixed st -> closedUnder st Lay P -> shaped st Lay P -> ready st Lay.
Proof.
  intros [[X1 X2] X3 X4 X5 X6 X7 X8 X9 X10 X11 X12 X13 X14 X15] Hcu [S1 S2 S3 S4 S5]. pose proof (closed_reachable st Lay P) as Hr. split; try done.
  - intros a Ha. destruct (S1 a (Hr a Hcu Ha)) as (o & t & Ho & Ht & Hws). exists o, t. split_and!; [done..|]. intros s Hs.
    destruct (Hws s Hs) as (w & Hw & Htg). exists w. split; [done|]. intros Hne. apply targetLaid_ok; [by apply Htg|].
    intros Hc. by eapply rc_slot.
  - apply Forall_forall. intros r Hin. destruct (decide (r = 0)) as [?|Hne]; [by left|right]. destruct (S2 r Hin Hne) as [? ?].
    split; [done|]. split; [|done]. by apply rc_root.
  - apply Forall_forall. intros c Hin Hne. apply targetLaid_ok; [by apply S3|]. intros Hc. by apply rc_cell.
  - intros a t Ha. destruct (S4 a t Ha) as [? ?]. split; [done|]. split; [|done]. apply rc_remembered. by eexists.
  - intros a o s w Ha%(Hr _ Hcu). by apply S5.
Qed.

Lemma ready_fixed st Lay : ready st Lay -> fixed st.
Proof. intros []. by split. Qed.

Lemma ready_under st Lay : ready st Lay -> closedUnder st Lay (reachable st Lay).
Proof. intros _. split; [by apply rc_root|by apply rc_cell|by apply rc_remembered|]. intros. by eapply rc_slot. Qed.

Lemma ready_shaped st Lay : ready st Lay -> shaped st Lay (reachable st Lay).
Proof.
  intros Hrd. split.
  - intros a Ha. destruct (rd_live _ _ Hrd a Ha) as (o & t & Ho & Ht & Hws). exists o, t. split_and!; [done..|]. intros s Hs.
    destruct (Hws s Hs) as (w & Hw & Htg). exists w. split; [done|]. intros Hne. by apply targetOk_laid, Htg.
  - intros r Hr Hr0. pose proof (rd_roots _ _ Hrd) as Hall. rewrite Forall_forall in Hall. destruct (Hall r Hr) as [?|[? [_ ?]]]; done.
  - intros c Hc Hne. pose proof (rd_cells _ _ Hrd) as Hall. rewrite Forall_forall in Hall. apply targetOk_laid. by apply Hall.
  - intros a t Ha. destruct (rd_remembered _ _ Hrd a t Ha) as [? [_ ?]]. done.
  - exact (rd_quiet _ _ Hrd).
Qed.

(** ** Sound heaps *)

(** The graphs that the objects of [P] carry are there, and are roots. *)
Definition tied st Lay P : Prop :=
  (forall a o s w, P a -> objs st !! a = Some o -> s ∈ Lay a -> carrier s = true -> words o !! slotIndex s = Some w -> w <> 0 ->
    w ∈ graphSpace st /\ w ∈ rootedIn st) /\
  (forall c, c ∈ cells st -> cellCarrier c = true -> cellType c = None /\ (cellRef c <> 0 -> cellRef c ∈ graphSpace st)).

(** Every graph has one owner, or owners that agree. *)
Definition agreed (managers : list GCGraphManager) : Prop := forall m m' g, m ∈ managers -> m' ∈ managers -> g ∈ graphs_ m ->
  (g ∉ programs_ m') /\ (g ∈ graphs_ m' -> g ∈ unbound_ m <-> g ∈ unbound_ m').

(** Every object is in a space of the collector or a graph, and where its header says; the marks of
    earlier collections are known. *)
Record housed (managers : list GCGraphManager) st : Prop := {
  ho_separate : separate st;
  ho_ledgered : ledgered st;
  ho_owned : owned managers st /\ agreed managers;
  ho_places a : is_Some (objs st !! a) -> young st a = true \/ a ∈ oiterate (elder st) \/ a ∈ oiterate (large st) \/ a ∈ graphSpace st;
  ho_large x : is_Some (objs st !! x) -> x ∈ oiterate (large st) \/ oavoids (large st) x;
  ho_regions a o : objs st !! a = Some o ->
    (region (hdr o) = ElderGen <-> a ∈ oiterate (elder st)) /\ (region (hdr o) = LargeObj <-> a ∈ oiterate (large st));
  ho_remembered a : is_Some (remembered st !! a) -> a ∈ oiterate (elder st) \/ a ∈ oiterate (large st);
  ho_birth : begin_ (birth st) <= top_ (birth st) <= end_ (birth st) /\ start_ (birth st) <= begin_ (birth st) /\
    forall a, is_Some (objs st !! a) -> contains (birth st) (a - kHeaderBytes) = true -> a - kHeaderBytes < top_ (birth st);
  ho_native : nativeCodeDepth (pacing st) = 0%nat;
}.

Record sound managers st Lay : Prop := {
  sn_ready : ready st Lay;
  sn_tied : tied st Lay (reachable st Lay);
  sn_housed : housed managers st;
}.

Lemma sound_closed managers st Lay P : fixed st -> closedUnder st Lay P -> shaped st Lay P -> tied st Lay P -> housed managers st -> sound managers st Lay.
Proof.
  intros Hf Hcu Hsh [T1 T2] Hh. split; [by eapply ready_closed| |done]. split; [|done]. intros a o s w Ha%(closed_reachable _ _ _ _ Hcu). by apply T1.
Qed.

Lemma sound_rooted managers st Lay : sound managers st Lay -> carriersRooted st Lay.
Proof.
  intros [Hrd [Ht _] _] a o s w Ha Ho Hs Hc Hw Hg. destruct (decide (w = 0)) as [->|Hne]; [|by eapply Ht].
  destruct (rd_graph _ _ Hrd 0 Hg) as (_ & _ & [? ?]). destruct (rd_null _ _ Hrd). congruence.
Qed.

Lemma sound_traced managers st Lay a : sound managers st Lay -> traced st Lay a -> reachable st Lay a.
Proof.
  intros [_ [T1 T2] _]. induction 1 as [r Hr Hr0|c Hc Hc0|a o s w Ha IH Ho Hs Hw Hw0].
  - by apply rc_root.
  - apply rc_cell; [done..|]. intros Hcc. by apply (T2 c).
  - eapply rc_slot; [exact IH|done..|]. intros Hcc. by eapply T1.
Qed.

Lemma sound_slots managers st Lay a s : sound managers st Lay -> reachable st Lay a -> s ∈ Lay a -> carrier s = true -> refType s = None.
Proof.
  intros Hs Ha. destruct (rd_live _ _ (sn_ready _ _ _ Hs) a Ha) as (o & t & _ & <- & _). apply carrier_untyped.
Qed.

Lemma sound_bound managers st Lay : sound managers st Lay -> carriersBound st Lay.
Proof.
  intros Hsn. destruct (sn_tied _ _ _ Hsn) as [T1 T2]. split; [|done]. intros a o s w Ha%(sound_traced _ _ _ _ Hsn) Ho Hs Hc.
  split; [by eapply sound_slots|]. intros Hw Hne. by eapply T1.
Qed.

(** What the roots reach can be marked. *)
Lemma sound_markable managers st Lay : sound managers st Lay -> markable st Lay.
Proof.
  intros Hsn. pose proof (ready_shaped _ _ (sn_ready _ _ _ Hsn)) as Hsh. destruct (sn_tied _ _ _ Hsn) as [T1 T2]. split.
  - intros a Ha%(sound_traced _ _ _ _ Hsn). destruct (sh_live _ _ _ Hsh a Ha) as (o & t & Ho & Ht & Hws). exists o, t. split_and!; [done..|].
    intros s Hs. destruct (Hws s Hs) as (w & Hw & Htg). exists w. split; [done|]. intros Hne. specialize (Htg Hne). unfold targetLaid in Htg.
    destruct (carrier s) eqn:Hc; [|apply Htg]. rewrite (sound_slots _ _ _ _ _ Hsn Ha Hs Hc). apply Htg. by eapply T1.
  - intros r Hr Hr0. by apply (sh_roots _ _ _ Hsh).
  - intros c Hc Hc0. pose proof (sh_cells _ _ _ Hsh c Hc Hc0) as Htg. unfold targetLaid, cellSlot in Htg. cbn in Htg.
    destruct (cellCarrier c) eqn:Hcc; [|apply Htg]. destruct (T2 c Hc Hcc) as [-> Hg]. apply Htg, Hg, Hc0.
Qed.

(** ** The minor collection *)

Section Apart.
(** The old spaces never meet. *)
Context (Hapart : forall (e : E) (l : LO), ook e -> ook l ->
  (forall p, p ∈ oiterate e -> oavoids l p) /\ (forall p, p ∈ oiterate l -> oavoids e p)).

Section Minor.
Context (managers : list GCGraphManager) (st : GC Kind Ty E LO) (Lay : Z -> list (Slot Ty)) (Hsn : sound managers st Lay).
Context (F : gmap Z Z) (Lay' : Z -> list (Slot Ty)) (st' : GC Kind Ty E LO) (Hcl : collected st Lay F Lay' st') (Hrd' : ready st' Lay').
#[local] Abbreviation Hrd := (sn_ready _ _ _ Hsn).
#[local] Abbreviation Hho := (sn_housed _ _ _ Hsn).

Lemma rooted_same : rootedIn st' = rootedIn st.
Proof. unfold rootedIn. by destruct (cl_roots _ _ _ _ _ Hcl) as [-> _]. Qed.

Lemma tied_minor : tied st' Lay' (reachable st' Lay').
Proof.
  destruct (sn_tied _ _ _ Hsn) as [T1 T2]. destruct (cl_spaces _ _ _ _ _ Hcl) as (_ & Eg & _). split.
  - intros y n s w Hy Hn Hs Hc Hw Hne. destruct (cl_reachable _ _ _ _ _ Hcl y Hy) as (a & Ha & ->).
    rewrite (cl_layout _ _ _ _ _ Hcl a Ha) in Hs. destruct (rd_live _ _ Hrd a Ha) as (o & t & Ho & _ & Hws). destruct (Hws s Hs) as (w0 & Hw0 & _).
    destruct (cl_kept _ _ _ _ _ Hcl a o Ha Ho) as (n' & Hn' & Hso). assert (n' = n) as -> by congruence.
    pose proof (so_slots _ _ _ _ _ _ Hso s w0 Hs Hw0) as Hw'. rewrite Hc in Hw'. assert (w = w0) as -> by congruence.
    rewrite Eg, rooted_same. by eapply T1.
  - destruct (cl_roots _ _ _ _ _ Hcl) as [_ ->]. rewrite Eg. intros c' (c & -> & Hc)%list_elem_of_fmap Hcc. cbn in Hcc |- *. rewrite Hcc. by apply T2.
Qed.

(** An object afterwards is an old one that stayed, or a copy. *)
Lemma minor_object y n : objs st' !! y = Some n ->
  (exists o, objs st !! y = Some o /\ young st y = false /\ hdr n = hdr o) \/
  (young st' y = true /\ region (hdr n) = YoungGen) \/ (young st' y = false /\ region (hdr n) = ElderGen /\ y ∈ oiterate (elder st')).
Proof.
  intros Hn. destruct (cl_left _ _ _ _ _ Hcl y) as [[[o Ho] Hf]|(a & Ha)]; [by eexists|left|right].
  - destruct (cl_old _ _ _ _ _ Hcl y o Ho Hf) as (n' & Hn' & _ & Eh). exists o. split_and!; [done..|]. congruence.
  - destruct (cl_regions _ _ _ _ _ Hcl a y Ha) as (n' & Hn' & Hr). assert (n' = n) as -> by congruence.
    destruct (young st' y); [left|right]; done.
Qed.

Lemma regions_minor y n : objs st' !! y = Some n ->
  (region (hdr n) = ElderGen <-> y ∈ oiterate (elder st')) /\ (region (hdr n) = LargeObj <-> y ∈ oiterate (large st')).
Proof.
  destruct (cl_spaces _ _ _ _ _ Hcl) as (El & _ & _ & _ & Hel & _). intros Hn.
  destruct (minor_object y n Hn) as [(o & Ho & Hf & Eh)|[[Hy Hr]|(Hy & Hr & Hin)]].
  - destruct (ho_regions _ _ Hho y o Ho) as [H1 H2]. rewrite El, Eh. split; [|done]. rewrite H1. split; [apply Hel|].
    intros Hin. destruct (decide (y ∈ oiterate (elder st))) as [?|Hno]; [done|]. exfalso. revert Hin.
    eapply elder_apart; [exact Hrd|exact Hcl|by eexists|done].
  - rewrite Hr. split; (split; [done|]); intros Hin; exfalso.
    + assert (young st' y = false); [|congruence]. eapply (old_not_young st' Lay'); [exact Hrd'|by left].
    + assert (young st' y = false); [|congruence]. eapply (old_not_young st' Lay'); [exact Hrd'|by right].
  - rewrite Hr. split; [done|]. split; [done|]. intros Hl. exfalso.
    assert (Hs : separate st') by (eapply (separate_moved st Lay); [exact Hrd|exact Hcl|apply Hho]). by destruct (sep_elder _ Hs y Hin).
Qed.

Lemma housed_minor : housed managers st'.
Proof.
  destruct (cl_spaces _ _ _ _ _ Hcl) as (El & Eg & _ & Ok & Hel & _). destruct (cl_emptied _ _ _ _ _ Hcl) as (Eb & _ & Hgone). split.
  - eapply (separate_moved st Lay); [exact Hrd|exact Hcl|apply Hho].
  - eapply (ledgered_moved st Lay); [exact Hrd|exact Hcl|apply Hho].
  - destruct (ho_owned _ _ Hho) as [Ho Ha]. split; [|done]. intros m Hm. rewrite Eg. by apply Ho.
  - intros a [n Hn]. rewrite El, Eg. destruct (minor_object a n Hn) as [(o & Ho & Hf & _)|[[? _]|(_ & _ & ?)]]; [|by left|by right; left].
    destruct (ho_places _ _ Hho a) as [?|[?|?]]; [by eexists|congruence| |by auto]. right; left. by apply Hel.
  - intros x [n Hn]. rewrite El. destruct (minor_object x n Hn) as [(o & Ho & Hf & _)|[[Hy _]|(_ & _ & Hin)]].
    + apply (ho_large _ _ Hho). by eexists.
    + right. destruct (rd_young _ _ Hrd' x n Hn Hy) as (_ & _ & Ha). rewrite <- El. by apply (rd_spaces _ _ Hrd').
    + right. apply (Hapart (elder st') (large st)); [done|apply (rd_elder _ _ Hrd)|done].
  - exact regions_minor.
  - intros a Ha. destruct (cl_remembered _ _ _ _ _ Hcl a Ha) as [Hr|(n & Hn & Hr)].
    + destruct (ho_remembered _ _ Hho a Hr) as [?|?]; [left; by apply Hel|right; by rewrite El].
    + destruct (regions_minor a n Hn) as [H1 H2]. destruct Hr as [?|?]; [left; by apply H1|right; by apply H2].
  - rewrite Eb. destruct (proj1 (rd_bounds _ _ Hrd)) as (B1 & B2 & B3). cbn. split; [lia|]. split; [lia|]. intros a [n Hn] Hc. exfalso.
    assert (Hy : young st a = true); [|rewrite (Hgone a Hy) in Hn; done]. unfold young. unfold contains in Hc |- *. cbn in Hc. by rewrite Hc.
  - destruct (cl_rest _ _ _ _ _ Hcl) as [_ Es]. injection Es as _ ->. apply Hho.
Qed.
End Minor.

(** A minor collection keeps a heap sound. *)
Lemma minor_sound managers st Lay room : sound managers st Lay -> promotable st room ->
  exists st' F, minorGC st = Some st' /\ collected st Lay F (LayAfter Lay F) st' /\ sound managers st' (LayAfter Lay F).
Proof.
  intros Hsn Hpr. destruct (minorGC_collects st Lay room (sn_ready _ _ _ Hsn) Hpr) as (st' & F & Eg & Hcl & Hrd).
  destruct Hrd as [Hrd _]; [by eapply sound_rooted|]. exists st', F. split_and!; [done..|]. split; [done|by eapply tied_minor|by eapply housed_minor].
Qed.

(** ** Mark and sweep *)

Section Sweep.
Context (managers managers' : list GCGraphManager) (st st' : GC Kind Ty E LO) (Lay : Z -> list (Slot Ty)) (Hsn : sound managers st Lay) (Hfresh : fresh st = ∅).
Context (Hrec : reclaimed st (traced st Lay) managers st' managers') (Hrest : sweptRest st st').
Context (Hmarks : forall a, isMarked st' a = true -> traced st Lay a).
Context (Hgr : forall g, g ∈ graphSpace st -> g ∈ graphSpace st' \/ (~ traced st Lay g /\
  exists m, m ∈ managers /\ ((g ∈ graphs_ m /\ g ∉ unbound_ m) \/ g ∈ programs_ m))).
#[local] Abbreviation Hrd := (sn_ready _ _ _ Hsn).
#[local] Abbreviation Hho := (sn_housed _ _ _ Hsn).
#[local] Abbreviation Hsh := (ready_shaped _ _ Hrd).

Lemma swept_young a : young st' a = young st a.
Proof. unfold young. by destruct (sr_bumps _ _ Hrest) as (-> & -> & _). Qed.

Lemma swept_address a : isYoungAddress st' a = isYoungAddress st a.
Proof. unfold isYoungAddress. by destruct (sr_bumps _ _ Hrest) as (-> & -> & ->). Qed.

Lemma swept_rooted : rootedIn st' = rootedIn st.
Proof. unfold rootedIn. by destruct (rk_roots _ _ _ _ _ Hrec) as [-> _]. Qed.

Lemma swept_kept a o : traced st Lay a -> objs st !! a = Some o -> exists n, objs st' !! a = Some n /\ kind n = kind o /\ words n = words o.
Proof.
  intros Ha Ho. pose proof (rk_kept _ _ _ _ _ Hrec a o Ha Ho) as Hk. destruct (objs st' !! a) as [n|]; [|done]. exists n. by destruct Hk as (? & ? & _).
Qed.

Lemma swept_from a n : objs st' !! a = Some n -> exists o, objs st !! a = Some o /\ kind n = kind o /\ words n = words o /\
  ObjHeader.size (hdr n) = ObjHeader.size (hdr o) /\ region (hdr n) = region (hdr o).
Proof. intros Hn. destruct (sr_same _ _ Hrest a n Hn) as (o & Ho & Hm). by exists o. Qed.

Lemma swept_live a : traced st Lay a -> is_Some (objs st !! a).
Proof. intros Ha%(sound_traced _ _ _ _ Hsn). destruct (rd_live _ _ Hrd a Ha) as (o & _ & Ho & _). by eexists. Qed.

Lemma swept_graph g : g ∈ graphSpace st -> traced st Lay g -> g ∈ graphSpace st'.
Proof. intros Hg Ht. by destruct (Hgr g Hg) as [?|[? _]]. Qed.

(** What the old spaces still hold was reached. *)
Lemma swept_reached a : is_Some (objs st' !! a) -> (a ∈ oiterate (elder st) -> a ∈ oiterate (elder st')) /\ (a ∈ oiterate (large st) -> a ∈ oiterate (large st')).
Proof.
  intros Ha. destruct (rk_gone _ _ _ _ _ Hrec a Ha) as [_ Hr]. rewrite (rk_elder _ _ _ _ _ Hrec), (rk_large _ _ _ _ _ Hrec). auto.
Qed.

Lemma swept_laid t a : traced st Lay a -> laidOut (objs st) Lay t a -> laidOut (objs st') Lay t a.
Proof. intros Ha (o & Ho & Ht). destruct (swept_kept a o Ha Ho) as (n & Hn & Hk & _). exists n. by rewrite Hk. Qed.

Lemma swept_headerOk h h' : ObjHeader.size h' = ObjHeader.size h -> headerOk h -> headerOk h'.
Proof.
  unfold headerOk, objSize, ObjHeader.size. destruct (Z.eqb_spec (state_ h) 0), (Z.eqb_spec (state_ h') 0); cbn; try done; intros [= Es] (n0 & ? & ?); (done || by exists n0; split; [congruence|]).
Qed.

Lemma swept_target s w : (carrier s = true -> w ∈ graphSpace st) -> traced st Lay w -> targetLaid st Lay s w -> targetLaid st' Lay s w.
Proof.
  unfold targetLaid. rewrite swept_rooted. intros Hc Hw. destruct (carrier s).
  - intros Ht _. by apply swept_laid, Ht, Hc.
  - intros (Ht & Hp & Hg). split_and!; [by apply swept_laid|done|]. intros Hin. by apply Hg, (sr_graphs _ _ Hrest).
Qed.

Lemma swept_word a o s w : traced st Lay a -> objs st !! a = Some o -> s ∈ Lay a -> words o !! slotIndex s = Some w -> w <> 0 ->
  traced st Lay w /\ (carrier s = true -> w ∈ graphSpace st).
Proof.
  intros Ha Ho Hs Hw Hne. split; [by eapply tr_slot|]. intros Hc. destruct (sn_tied _ _ _ Hsn) as [T1 _].
  eapply T1; [by eapply sound_traced|done..].
Qed.

Lemma swept_fixed : fixed st'.
Proof.
  destruct (ready_fixed _ _ Hrd) as [[X1 X2] X3 X4 X5 X6 X7 X8 X9 X10 X11 X12 X13 X14 X15].
  destruct (sr_lists _ _ Hrest) as (L1 & L2 & L3). destruct (sr_bumps _ _ Hrest) as (B1 & B2 & B3).
  assert (Hold : forall a, is_Some (objs st' !! a) -> is_Some (objs st !! a)) by (intros a [n (o & Ho & _)%swept_from]; by eexists).
  split; rewrite ?L1, ?L2, ?L3, ?B1, ?B2, ?B3; try done.
  - split; [done|]. pose proof (sr_settings _ _ Hrest) as Es. injection Es as -> _. done.
  - intros a n Hn Hy. rewrite swept_young in Hy. rewrite swept_address. destruct (swept_from a n Hn) as (o & Ho & _ & _ & Es & ->).
    destruct (X3 a o Ho Hy) as (Hh & ? & ?). split_and!; try done. by eapply swept_headerOk.
  - intros a Ha. rewrite swept_young, swept_address. by apply X4, Hold.
  - intros g Hg. pose proof (proj1 (sr_graphs _ _ Hrest g) Hg) as Hg0. destruct (X5 g Hg0) as (? & ? & ?). rewrite swept_young.
    split_and!; [done..|]. by apply (sr_graphs _ _ Hrest).
  - rewrite Hfresh. intros a Ha. by apply elem_of_empty in Ha.
  - destruct X7 as [X7 X7']. rewrite swept_young. split; [|done]. destruct (objs st' !! 0) eqn:E0; [|done]. destruct (Hold 0) as [? ?]; [by eexists|congruence].
  - eapply Forall_impl; [exact X8|]. intros a [[o Ho] Hy]. rewrite swept_young. split; [|done].
    assert (Hm : onlyMarks (objs st !! a) (objs st' !! a)).
    { apply (sr_others _ _ Hrest); [intros Hin|intros Hin|intros Hin].
      - assert (young st a = false); [|congruence]. eapply (old_not_young st Lay); [exact Hrd|by left].
      - assert (young st a = false); [|congruence]. eapply (old_not_young st Lay); [exact Hrd|by right].
      - destruct (X5 a Hin). congruence. }
    rewrite Ho in Hm. by destruct (objs st' !! a).
  - intros a Ha. destruct (objs st' !! a) eqn:Hn; [|done]. destruct (Hold a) as [? Ho]; [by eexists|]. by rewrite (X11 a Ha) in Ho.
  - exact (rk_ok _ _ _ _ _ Hrec).
  - intros x Hx. destruct (X13 x (Hold x Hx)) as [?|?]; [left; by apply swept_reached|right; by apply (sr_avoids _ _ Hrest)].
  - intros x. rewrite swept_address. intros [? ?]%X14. split; by apply (sr_avoids _ _ Hrest).
  - intros p. rewrite (rk_elder _ _ _ _ _ Hrec), (rk_large _ _ _ _ _ Hrec). intros Hp.
    assert (Hr : traced st Lay p) by (by destruct Hp as [[_ ?]|[_ ?]]). destruct (swept_live p Hr) as [o Ho].
    destruct (swept_kept p o Hr Ho) as (n & ? & _). by eexists.
Qed.

Lemma swept_closed : closedUnder st' Lay (traced st Lay).
Proof.
  destruct (rk_roots _ _ _ _ _ Hrec) as [Er Ec]. split; rewrite ?Er, ?Ec.
  - by apply tr_root.
  - intros c Hc Hc0 _. by apply tr_cell.
  - intros a [t Ha]. apply (rk_remembered _ _ _ _ _ Hrec) in Ha as [Ha Hr]. apply Hr, (ho_remembered _ _ Hho). by eexists.
  - intros a n s w Ha Hn Hs Hw Hne _. destruct (swept_from a n Hn) as (o & Ho & _ & Ew & _). rewrite Ew in Hw. by eapply tr_slot.
Qed.

Lemma swept_shaped : shaped st' Lay (traced st Lay).
Proof.
  destruct (rk_roots _ _ _ _ _ Hrec) as [Er Ec]. destruct (sn_tied _ _ _ Hsn) as [_ T2]. split; rewrite ?Er, ?Ec.
  - intros a Ha. destruct (sh_live _ _ _ Hsh a (sound_traced _ _ _ _ Hsn Ha)) as (o & t & Ho & Ht & Hws).
    destruct (swept_kept a o Ha Ho) as (n & Hn & Ek & Ew). exists n, t. rewrite Ek, Ew. split_and!; [done..|]. intros s Hs.
    destruct (Hws s Hs) as (w & Hw & Htg). exists w. split; [done|]. intros Hne. destruct (swept_word a o s w Ha Ho Hs Hw Hne). by apply swept_target; auto.
  - intros r Hr Hr0. destruct (sh_roots _ _ _ Hsh r Hr Hr0). assert (traced st Lay r) by by apply tr_root. split; [by apply swept_graph|by apply swept_laid].
  - intros c Hc Hc0. apply swept_target; [intros Hcc; by apply (T2 c)|by apply tr_cell|by apply (sh_cells _ _ _ Hsh)].
  - intros a t [Ha Hr]%(rk_remembered _ _ _ _ _ Hrec). rewrite swept_young. destruct (sh_remembered _ _ _ Hsh a t Ha). split; [done|].
    apply swept_laid; [|done]. apply Hr, (ho_remembered _ _ Hho). by eexists.
  - intros a n s w Ha (Hy & Hf & Hm & Hg) Hn Hs Hw Hne. destruct (swept_from a n Hn) as (o & Ho & _ & Ew & _). rewrite Ew in Hw.
    rewrite swept_young in Hy. destruct (sr_lists _ _ Hrest) as (_ & Ef & _). rewrite Ef in Hf |- *. rewrite swept_young, swept_rooted.
    assert (Hq : quiet st a).
    { split_and!; [done..| |intros Hin; by apply Hg, swept_graph]. destruct (remembered st !! a) as [t|] eqn:Ht; [|done].
      assert (remembered st' !! a = Some t); [|congruence]. by apply (rk_remembered _ _ _ _ _ Hrec). }
    pose proof (sh_quiet _ _ _ Hsh a o s w (sound_traced _ _ _ _ Hsn Ha) Hq Ho Hs Hw Hne) as Hqw.
    destruct (carrier s); [|done]. intros Hin. by apply Hqw, (sr_graphs _ _ Hrest).
Qed.

Lemma swept_tied : tied st' Lay (traced st Lay).
Proof.
  destruct (rk_roots _ _ _ _ _ Hrec) as [_ Ec]. destruct (sn_tied _ _ _ Hsn) as [T1 T2]. split; rewrite ?Ec.
  - intros a n s w Ha Hn Hs Hc Hw Hne. destruct (swept_from a n Hn) as (o & Ho & _ & Ew & _). rewrite Ew in Hw. rewrite swept_rooted.
    destruct (T1 a o s w) as [Hg Hr]; [by eapply sound_traced|done..|]. split; [|done]. apply swept_graph; [done|]. by eapply tr_slot.
  - intros c Hc Hcc. destruct (T2 c Hc Hcc) as [Ht Hg]. split; [done|]. intros Hne. apply swept_graph; [by apply Hg|by apply tr_cell].
Qed.

Lemma swept_owned : owned managers' st' /\ agreed managers'.
Proof.
  destruct (ho_owned _ _ Hho) as [Ho Ha]. pose proof (rk_graphs _ _ _ _ _ Hrec) as Hall. rewrite Forall2_same_length_lookup in Hall. destruct Hall as [Hlen Hall].
  assert (Hfrom : forall m', m' ∈ managers' -> exists m, m ∈ managers /\ unbound_ m' = unbound_ m /\
    (forall g, g ∈ graphs_ m' <-> g ∈ graphs_ m /\ (g ∈ unbound_ m \/ traced st Lay g)) /\ (forall g, g ∈ programs_ m' <-> g ∈ programs_ m /\ traced st Lay g)).
  { intros m' [i Hi]%list_elem_of_lookup. destruct (lookup_lt_is_Some_2 managers i) as [m Hm]; [rewrite Hlen; by eapply lookup_lt_Some|].
    exists m. split; [by eapply list_elem_of_lookup_2|]. by eapply Hall. }
  split.
  - intros m' (m & Hm & _ & Hg & Hp)%Hfrom g [Hin|Hin]%elem_of_union.
    + apply Hg in Hin as [Hin Hr]. assert (Hgs : g ∈ graphSpace st) by (apply (Ho m Hm); set_solver).
      destruct (Hgr g Hgs) as [?|(Hno & m2 & Hm2 & Hdead)]; [done|]. exfalso. destruct Hr as [Hr|?]; [|done].
      destruct (Ha m m2 g Hm Hm2 Hin) as [Hnp Hu]. destruct Hdead as [[Hg2 Hnu]|?]; [|done]. by apply Hnu, Hu.
    + apply Hp in Hin as [Hin Hr]. apply swept_graph; [|done]. apply (Ho m Hm). set_solver.
  - intros m m' g (m0 & Hm0 & Hu & Hg & _)%Hfrom (m0' & Hm0' & Hu' & Hg' & Hp')%Hfrom [Hin _]%Hg. rewrite Hu, Hu'.
    destruct (Ha m0 m0' g Hm0 Hm0' Hin) as [Hnp Hub]. split; [by intros [? _]%Hp'|]. intros [? _]%Hg'. by apply Hub.
Qed.

Lemma swept_housed : housed managers' st'.
Proof.
  pose proof (rk_elder _ _ _ _ _ Hrec) as He. pose proof (rk_large _ _ _ _ _ Hrec) as Hl. destruct (ho_separate _ _ Hho) as [_ S2 S3 S4].
  assert (Hold : forall a, is_Some (objs st' !! a) -> is_Some (objs st !! a)) by (intros a [n (o & Ho & _)%swept_from]; by eexists).
  assert (Hplace : forall a, is_Some (objs st' !! a) -> young st a = true \/ a ∈ oiterate (elder st') \/ a ∈ oiterate (large st') \/ a ∈ graphSpace st').
  { intros a Ha. destruct (ho_places _ _ Hho a (Hold a Ha)) as [?|[?|[?|?]]]; [by left|right; left; by apply swept_reached|do 2 right; left; by apply swept_reached|].
    do 3 right. apply (sr_graphs _ _ Hrest); auto. }
  split.
  - split; [apply (rk_ok _ _ _ _ _ Hrec)|..].
    + intros p Hp. split; [by apply (fx_housed _ swept_fixed); left|]. rewrite Hl. apply He in Hp as [Hp _]. intros [? _]. by destruct (S2 p Hp).
    + intros p Hp. destruct (fx_housed _ swept_fixed p) as [n Hn]; [by right|]. destruct (swept_from p n Hn) as (o & Ho & _ & _ & Es & _).
      apply Hl in Hp as [Hp _]. destruct (S3 p Hp) as (o' & k & Ho' & Hk). exists n, k. split; [done|]. congruence.
    + intros g Hg. apply (proj1 (sr_graphs _ _ Hrest g)) in Hg. destruct (S4 g Hg). rewrite He, Hl. split; by intros [? _].
  - intros a Ha. assert (Ho : is_Some (objs st' !! a)) by (unfold isMarked in Ha; destruct (objs st' !! a); [by eexists|done]).
    destruct (Hplace a Ho) as [Hy|[?|[?|?]]]; [left|by auto..|].
    + unfold inBumpSpaces. destruct (sr_bumps _ _ Hrest) as (-> & -> & _). unfold young in Hy. by rewrite Hy.
    + do 3 right. split; [by apply (sr_ledger _ _ Hrest)|done].
  - exact swept_owned.
  - intros a Ha. rewrite swept_young. by apply Hplace.
  - intros x Hx. destruct (ho_large _ _ Hho x (Hold x Hx)) as [?|?]; [left; by apply swept_reached|right; by apply (sr_avoids _ _ Hrest)].
  - intros a n Hn. destruct (swept_from a n Hn) as (o & Ho & _ & _ & _ & ->). destruct (ho_regions _ _ Hho a o Ho) as [-> ->].
    assert (Hs : is_Some (objs st' !! a)) by by eexists. destruct (swept_reached a Hs) as [R1 R2]. split; (split; [done|]); rewrite ?He, ?Hl; by intros [? _].
  - intros a [t Ha]. apply (rk_remembered _ _ _ _ _ Hrec) in Ha as [Ha Hr]. rewrite He, Hl.
    assert (Hin : is_Some (remembered st !! a)) by by eexists. pose proof (ho_remembered _ _ Hho a Hin) as Hh. specialize (Hr Hh). naive_solver.
  - destruct (sr_bumps _ _ Hrest) as (-> & _). destruct (ho_birth _ _ Hho) as (? & ? & Hb). split_and!; [lia..|]. intros a Ha. by apply Hb, Hold.
  - pose proof (sr_settings _ _ Hrest) as Es. injection Es as _ ->. apply Hho.
Qed.

Lemma swept_sound : sound managers' st' Lay.
Proof. eapply sound_closed; [exact swept_fixed|exact swept_closed|exact swept_shaped|exact swept_tied|exact swept_housed]. Qed.
End Sweep.

(** Mark and sweep keep a heap sound in which no object is fresh. *)
Lemma markSweep_sound managers st Lay : sound managers st Lay -> fresh st = ∅ -> exists managers' st', markSweep managers st = Some (managers', st') /\
  reclaimed st (traced st Lay) managers st' managers' /\ sound managers' st' Lay /\ graphSpace st' ⊆ graphSpace st.
Proof.
  intros Hsn Hf. pose proof (sn_housed _ _ _ Hsn) as Hho.
  destruct (markSweep_ok st Lay managers) as (managers' & st' & Es & Hrec & Hrest & Hm & Hg);
    [by eapply sound_markable|by apply ledgered_known, Hho|apply Hho|apply Hho|]. exists managers', st'. split_and!; [done..|by eapply swept_sound|].
    intros g. apply (sr_graphs _ _ Hrest).
Qed.

(** ** What a program keeps over a collection *)

(** What the roots reach is carried over: [R] says where the objects are, each at a place of its own,
    of the same class and with its references following. *)
Record carried st Lay (R : Z -> Z) st' Lay' : Prop := {
  ca_traced a : traced st Lay a -> traced st' Lay' (R a);
  ca_apart a b : traced st Lay a -> traced st Lay b -> R a = R b -> a = b;
  ca_kept a o : traced st Lay a -> objs st !! a = Some o -> exists n, objs st' !! R a = Some n /\ kind n = kind o /\
    forall s w, s ∈ Lay a -> carrier s = false -> words o !! slotIndex s = Some w -> words n !! slotIndex s = Some (R w);
  ca_layout a : traced st Lay a -> Lay' (R a) = Lay a;
  ca_cells : cells st' = (fun c => mkCell (if cellCarrier c then cellRef c else R (cellRef c)) (cellType c) (cellCarrier c)) <$> cells st;
  ca_null : R 0 = 0 /\ forall a, traced st Lay a -> R a <> 0;
  ca_graphs a : traced st Lay a -> R a ∈ graphSpace st' -> a ∈ graphSpace st;
}.

Lemma sound_null managers st Lay : sound managers st Lay -> ~ traced st Lay 0.
Proof.
  intros Hsn Ht%(sound_traced _ _ _ _ Hsn). destruct (rd_live _ _ (sn_ready _ _ _ Hsn) 0 Ht) as (o & _ & Ho & _).
  destruct (rd_null _ _ (sn_ready _ _ _ Hsn)). congruence.
Qed.

(** Nothing moves. *)
Lemma carried_same managers st st' Lay : sound managers st Lay -> rootSets st' = rootSets st -> cells st' = cells st ->
  graphSpace st' ⊆ graphSpace st -> (forall a o, traced st Lay a -> objs st !! a = Some o -> exists n, objs st' !! a = Some n /\ kind n = kind o /\ words n = words o) ->
  carried st Lay id st' Lay.
Proof.
  intros Hsn Er Ec Eg Hk. split; try done.
  - induction 1 as [r Hr Hr0|c Hc Hc0|a o s w Ha IH Ho Hs Hw Hw0]; [apply tr_root; [by rewrite Er|done]|apply tr_cell; [by rewrite Ec|done]|].
    destruct (Hk a o Ha Ho) as (n & Hn & _ & Ew). eapply tr_slot; [exact IH|exact Hn|exact Hs|by rewrite Ew|done].
  - intros a o Ha Ho. destruct (Hk a o Ha Ho) as (n & Hn & Ek & Ew). exists n. split_and!; [done..|]. intros s w _ _. by rewrite Ew.
  - rewrite Ec. transitivity (id <$> cells st); [by rewrite list_fmap_id|]. apply list_fmap_ext. intros i [r t k] _. cbn. by destruct k.
  - split; [done|]. intros a Ha He. eapply sound_null; [exact Hsn|]. change (id a) with a in He. by rewrite He in Ha.
  - intros a _. apply Eg.
Qed.

Lemma carried_trans st1 Lay1 R st2 Lay2 R' st3 Lay3 : carried st1 Lay1 R st2 Lay2 -> carried st2 Lay2 R' st3 Lay3 -> carried st1 Lay1 (R' ∘ R) st3 Lay3.
Proof.
  intros [A1 A2 A3 A4 A5 [A6 A7] A8] [B1 B2 B3 B4 B5 [B6 B7] B8]. split; cbn.
  - auto.
  - intros a b Ha Hb He. by apply A2, B2; auto.
  - intros a o Ha Ho. destruct (A3 a o Ha Ho) as (n & Hn & Ek & Ew). destruct (B3 _ n (A1 a Ha) Hn) as (n' & Hn' & Ek' & Ew'). exists n'.
    split_and!; [done|congruence|]. intros s w Hs Hc Hw. apply Ew'; [by rewrite A4|done|by apply Ew].
  - intros a Ha. rewrite B4 by auto. by apply A4.
  - rewrite B5, A5, <- list_fmap_compose. apply list_fmap_ext. intros i [r t k] _. cbn. by destruct k.
  - split; [by rewrite A6|]. auto.
  - auto.
Qed.

Lemma carried_minor managers st Lay F Lay' st' : sound managers st Lay -> collected st Lay F Lay' st' -> ready st' Lay' -> carried st Lay (reloc F) st' Lay'.
Proof.
  intros Hsn Hcl Hrd'. pose proof (sn_ready _ _ _ Hsn) as Hrd. pose proof (sound_bound _ _ _ Hsn) as Hcb.
  pose proof (fun a => sound_traced managers st Lay a Hsn) as Hlive. split.
  - intros a Ha. by eapply traced_to.
  - intros a b Ha Hb. apply (cl_apart _ _ _ _ _ Hcl); auto.
  - intros a o Ha Ho. destruct (cl_kept _ _ _ _ _ Hcl a o (Hlive a Ha) Ho) as (n & Hn & [K1 K2 _]). exists n. split_and!; [done..|].
    intros s w Hs Hc Hw. specialize (K2 s w Hs Hw). by rewrite Hc in K2.
  - intros a Ha. apply (cl_layout _ _ _ _ _ Hcl). auto.
  - by destruct (cl_roots _ _ _ _ _ Hcl).
  - split; [exact (moved_null st Lay Hrd F Lay' st' Hcl)|]. intros a Ha. apply (moved_apart0 st Lay Hrd F Lay' st' Hcl); [by apply Hlive|].
    intros ->. by eapply sound_null.
  - intros a Ha Hg. destruct (cl_spaces _ _ _ _ _ Hcl) as (_ & Eg & _). unfold reloc in Hg. destruct (F !! a) as [x|] eqn:HF; cbn in Hg; [exfalso|by rewrite <- Eg].
    destruct (cl_regions _ _ _ _ _ Hcl a x HF) as (n & _ & Hr). destruct (rd_graph _ _ Hrd' x Hg) as (Hy & _). rewrite Hy in Hr.
    destruct (sep_graphs _ (separate_moved st Lay Hrd F Lay' st' Hcl (ho_separate _ _ (sn_housed _ _ _ Hsn))) x Hg) as [Hno _]. by apply Hno, Hr.
Qed.

Lemma carried_sweep managers managers' st st' Lay : sound managers st Lay -> graphSpace st' ⊆ graphSpace st -> reclaimed st (traced st Lay) managers st' managers' -> carried st Lay id st' Lay.
Proof.
  intros Hsn Eg Hrec. destruct (rk_roots _ _ _ _ _ Hrec). eapply carried_same; [done..|]. intros a o Ha Ho.
  pose proof (rk_kept _ _ _ _ _ Hrec a o Ha Ho) as Hk. destruct (objs st' !! a) as [n|]; [|done]. exists n. by destruct Hk as (? & ? & _).
Qed.

(** ** Collections at safepoints *)

Lemma sound_pacing managers st Lay p : settingsOf p = settingsOf (pacing st) -> sound managers st Lay -> sound managers (setPacing p st) Lay.
Proof.
  intros Es [Hrd [T1 T2] [[S1 S2 S3 S4] H2 [H3 H3'] H4 H5 H6 H7 H8 H9]]. injection Es as Ec En. split.
  - by apply ready_pacing.
  - split; [|done]. intros a o s w Ha%reachable_pacing. by apply T1.
  - split; try done. cbn. congruence.
Qed.

Lemma carried_pacing managers st Lay p : sound managers st Lay -> carried st Lay id (setPacing p st) Lay.
Proof. intros Hsn. eapply carried_same; [done..|]. intros a o _ Ho. by exists o. Qed.

Lemma majorGC_sound managers st Lay room : sound managers st Lay -> promotable st room -> exists managers' st' R Lay',
  majorGC managers st = Some (managers', st') /\ sound managers' st' Lay' /\ carried st Lay R st' Lay'.
Proof.
  intros Hsn Hpr. destruct (minor_sound managers st Lay room Hsn Hpr) as (st1 & F & Eg & Hcl & Hsn1).
  destruct (markSweep_sound managers st1 (LayAfter Lay F) Hsn1) as (managers' & st' & Es & Hrec & Hsn' & Hgs); [by destruct (cl_rest _ _ _ _ _ Hcl)|].
  exists managers', st', (id ∘ reloc F), (LayAfter Lay F). split_and!; [|done|].
  - unfold majorGC. rewrite (rd_copying _ _ (sn_ready _ _ _ Hsn)), Eg. done.
  - eapply carried_trans; [eapply carried_minor; [done..|apply Hsn1]|by eapply carried_sweep].
Qed.

(** There is room for the promotions of the next collection, and of one more behind it. *)
Definition roomy st : Prop := (exists room, promotable st room) /\ forall st', minorGC st = Some st' -> exists room, promotable st' room.

Lemma collect_sound k managers st Lay : sound managers st Lay -> atSafepoint_ (pacing st) = true -> roomy st -> exists managers' st' e R Lay',
  collectAtSafepoint k managers st = Some (managers', st', e) /\ sound managers' st' Lay' /\ carried st Lay R st' Lay'.
Proof.
  intros Hsn Hat [[room Hpr] Hpr2].
  assert (Hrun : k <> None_ -> exists managers' st' R Lay', (match k with
      | Minor => st ← minorGC st; Some (managers, st)
      | Major => majorGC managers st
      | _ => st ← minorGC st; majorGC managers st end) = Some (managers', st') /\ sound managers' st' Lay' /\ carried st Lay R st' Lay').
  { destruct (minor_sound managers st Lay room Hsn Hpr) as (st1 & F & Eg & Hcl & Hsn1). pose proof (carried_minor _ _ _ _ _ _ Hsn Hcl (sn_ready _ _ _ Hsn1)) as Hca.
    destruct (majorGC_sound managers st Lay room Hsn Hpr) as (m2 & st2 & R2 & Lay2 & E2 & Hsn2 & Hca2).
    destruct (Hpr2 _ Eg) as [room2 Hpr3]. destruct (majorGC_sound managers st1 _ room2 Hsn1 Hpr3) as (m3 & st3 & R3 & Lay3 & E3 & Hsn3 & Hca3).
    destruct k; [done| | |]; intros _; rewrite ?Eg; cbn [mbind option_bind].
    - by exists managers, st1, (reloc F), (LayAfter Lay F).
    - by exists m2, st2, R2, Lay2.
    - exists m3, st3, (R3 ∘ reloc F), Lay3. split_and!; [done..|]. by eapply carried_trans. }
  destruct (decide (k = None_)) as [->|Hk].
  { exists managers, st, None, id, Lay. split_and!; [done..|]. eapply carried_same; [done..|]. intros a o _ Ho. by exists o. }
  destruct (Hrun Hk) as (m' & st1 & R & Lay' & E1 & Hsn1 & Hca). destruct (afterCollection_pacing k st1) as (p & Ea & _ & Ep & _).
  destruct (afterCollection k st1) as [st2 e] eqn:Eac. cbn in Ea. subst st2.
  exists m', (setPacing p st1), e, (id ∘ R), Lay'. split_and!.
  - unfold collectAtSafepoint. rewrite Hat, guarded_true by done. destruct k; [done|..]; rewrite E1; cbn [mbind option_bind]; by rewrite Eac.
  - by apply sound_pacing.
  - eapply carried_trans; [done|]. by eapply carried_pacing.
Qed.

(** The state in which a safepoint collects. *)
Definition atSafepoint st : GC Kind Ty E LO := setPacing (setPendingSafepointCollection None_ (setAtSafepoint true (pacing st))) st.

(** A safepoint keeps a heap sound, and what the roots reach. What the deferred releases of the
    finalized objects do to the pacing is [releases]. *)
Lemma safepoint_sound releases managers st Lay : (forall l p, settingsOf (releases l p) = settingsOf p) -> sound managers st Lay -> roomy (atSafepoint st) ->
  exists managers' st' e R Lay', safepoint (fun st => withPacing (releases (finalized st)) st) managers st = Some (managers', st', e) /\
    sound managers' st' Lay' /\ carried st Lay R st' Lay'.
Proof.
  intros Hrel Hsn Hroom. unfold safepoint. rewrite (ho_native _ _ (sn_housed _ _ _ Hsn)), guarded_true by done.
  destruct (collectionInhibit_ (pacing st) =? 0)%nat; cbn [negb].
  2: { eexists managers, _, None, id, Lay. split; [done|]. split; [by apply sound_pacing|by eapply carried_pacing]. }
  destruct (collect_sound (pendingSafepointCollection_ (pacing st)) managers (atSafepoint st) Lay) as (m' & st1 & e & R & Lay' & Ec & Hsn1 & Hca);
    [by apply sound_pacing|done|done|].
  assert (Hca' : forall p, carried st Lay R (setPacing p st1) Lay').
  { intros p. eapply (carried_trans _ _ id _ _ R); [by apply (carried_pacing _ _ _ (pacing (atSafepoint st)) Hsn)|].
    eapply (carried_trans _ _ R _ _ id); [exact Hca|]. by eapply carried_pacing. }
  unfold collectPending. change (setPacing _ st) with (atSafepoint st). rewrite Ec. cbn [mbind option_bind].
  destruct e as [e|]; [|destruct (decide (pendingSafepointCollection_ (pacing st) = None_))]; eexists m', _, _, R, Lay'; (split; [done|]); split;
    try apply Hca'; unfold noteBlockBytes, withPacing, setPacing; cbn.
  all: apply (sound_pacing m' st1); [|done].
  - done.
  - by rewrite Hrel.
  - transitivity (settingsOf (releases (finalized st1) (publishSafepointSlowPath (setAtSafepoint (atSafepoint_ (pacing st)) (pacing st1))))); [done|].
    by rewrite Hrel.
Qed.
End Apart.
End Sound.
