(* ===== verification/GcProgram.v ===== *)
(** * Programs on the heap of the collector

    What a program does with the heap, through its handles ([Cmd]): it allocates, reads and writes
    references behind the write barrier, drops handles, and comes to safepoints, where the
    collector may move and free what it finds. [Spec] is the same program on a heap of names in
    which nothing moves and nothing is freed. A program cannot tell them apart
    ([program_simulates]). *)

From stdpp Require Import gmap fin_sets.
From S2P Require Import Prelude ObjHeader FreeList FreeListOps BumpPtr GcState GcPacing GcMinor GcMinorInv GcMinorOk GcMajor GcMajorOk GcSound.
#[local] Open Scope Z_scope.

Section Program.
Context {Kind Ty E LO : Type} `{Layout Kind Ty} `{!OldSpace E} `{!OldSpace LO}.
Implicit Types (st : GC Kind Ty E LO) (s : Slot Ty) (Lay : Z -> list (Slot Ty)).

(** ** Commands *)

(** A handle is named by its place among the cells of the root handles. [New] builds an object of
    [data], with the references [refs] to the objects of handles in place. *)
Inductive Cmd :=
  | New (size : Z) (k : Kind) (t : Ty) (data : list Z) (refs : list (nat * nat))
  | Load (owner i : nat)
  | Store (owner i value : nat)
  | Forget (h : nat)
  | Finalizable (h : nat)
  | HoldBlock (h : nat) (block : Z)
  | RequestMajor
  | Inhibit
  | Allow
  | Safepoint.

Inductive Result :=
  | Done (managers : list GCGraphManager) (st : GC Kind Ty E LO)
  | Thrown (e : Exhaustion).

(** The reference slot of a word. *)
Definition findSlot (k : Kind) (t : option Ty) (i : nat) : option (Slot Ty) :=
  head (filter (fun s => slotIndex s = i /\ carrier s = false) (slotsOf k t)).

Fixpoint fill (cs : list (Cell Ty)) (refs : list (nat * nat)) (ws : list Z) : option (list Z) :=
  match refs with
  | [] => Some ws
  | (i, h) :: refs => c ← cs !! h; fill cs refs (<[i := cellRef c]> ws)
  end.

Definition addCell (c : Cell Ty) st : GC Kind Ty E LO := setCells (cells st ++ [c]) st.

(** What the releases that finalizers put off do to the pacing. *)
Context (releases : list Z -> Pacing -> Pacing).

Definition exec (c : Cmd) (managers : list GCGraphManager) st : option Result :=
  match c with
  | New size k t data refs =>
      ws ← fill (cells st) refs data;
      Some (match allocUnlocked size k ws st with
            | inl (a, st) => Done managers (addCell (mkCell a (Some t) false) st)
            | inr e => Thrown e
            end)
  | Load owner i =>
      c ← cells st !! owner; o ← objs st !! cellRef c; s ← findSlot (kind o) (cellType c) i; w ← words o !! i;
      Some (Done managers (addCell (mkCell w (refType s) false) st))
  | Store owner i value =>
      c ← cells st !! owner; o ← objs st !! cellRef c; s ← findSlot (kind o) (cellType c) i; v ← cells st !! value;
      let st := setObjs (<[cellRef c := mkObj (hdr o) (kind o) (<[i := cellRef v]> (words o))]> (objs st)) st in
      Some (Done managers (writeBarrier (cellRef c) (cellType c) (cellRef v) true st))
  | Forget h => c ← cells st !! h; Some (Done managers (setCells (<[h := mkCell 0 (cellType c) (cellCarrier c)]> (cells st)) st))
  | Finalizable h => c ← cells st !! h; Some (Done managers (noteFinalizable (cellRef c) st))
  | HoldBlock h block => c ← cells st !! h; Some (Done managers (noteBlockHeld (cellRef c) block st))
  | RequestMajor => Some (Done managers (requestMajorCollection st))
  | Inhibit => Some (Done managers (inhibitCollections st))
  | Allow => Some (Done managers (allowCollections st))
  | Safepoint =>
      '(managers, st, e) ← safepoint (fun st => withPacing (releases (finalized st)) st) managers st;
      Some (match e with None => Done managers st | Some e => Thrown e end)
  end.

Fixpoint run (cmds : list Cmd) (managers : list GCGraphManager) st : option Result :=
  match cmds with
  | [] => Some (Done managers st)
  | c :: cmds => r ← exec c managers st; match r with Done managers st => run cmds managers st | Thrown e => Some (Thrown e) end
  end.

(** Wherever a run comes to a safepoint, the elder space has room for what may be promoted. *)
Fixpoint supplied (cmds : list Cmd) (managers : list GCGraphManager) st : Prop :=
  match cmds with
  | [] => True
  | c :: cmds => (c = Safepoint -> roomy (atSafepoint st)) /\
      forall managers' st', exec c managers st = Some (Done managers' st') -> supplied cmds managers' st'
  end.

(** Memory is refused only where there is none: an old space gives no block, or what is asked for
    exceeds the heap limit, or what is left after a collection does. *)
Definition lacking (n : Z) st : Prop := (heapLimitBytes_ (pacing st) <> 0 /\ heapLimitBytes_ (pacing st) < oldBytesHeld st + n) \/
  oalloc (elder st) n = None \/ oalloc (large st) n = None.

Definition refusedAt (c : Cmd) (managers : list GCGraphManager) st : Prop :=
  match c with
  | New size _ _ _ _ => lacking size st
  | Safepoint => exists managers' st' e, safepoint (fun st => withPacing (releases (finalized st)) st) managers st = Some (managers', st', Some e) /\
      heapLimitBytes_ (pacing st') <> 0 /\ heapLimitBytes_ (pacing st') < oldBytesHeld st'
  | _ => False
  end.

(** A run comes to such a place. *)
Fixpoint refused (cmds : list Cmd) (managers : list GCGraphManager) st : Prop :=
  match cmds with
  | [] => False
  | c :: cmds => refusedAt c managers st \/ exists managers' st', exec c managers st = Some (Done managers' st') /\ refused cmds managers' st'
  end.

(** ** The heap without a collector *)

Record Node := mkNode { nodeKind : Kind; nodeType : Ty; nodeRefs : gmap nat nat }.

(** The objects by their names, the names and types of the handles, the next name, and the scopes
    that inhibit collections. *)
Record Spec := mkSpec { nodes : gmap nat Node; handles : list (option nat * option Ty); next : nat; scopes : nat }.

(** The slot of word [i]; and a name whose object a reference of type [t] may lead to. *)
Definition slotAt (k : Kind) (t : option Ty) (i : nat) s : Prop := s ∈ slotsOf k t /\ slotIndex s = i /\ carrier s = false.
Definition fits (sp : Spec) (t : option Ty) (n : nat) : Prop := isPreciseGCType t = true /\
  exists node, nodes sp !! n = Some node /\ slotsOf (nodeKind node) t = slotsOf (nodeKind node) (Some (nodeType node)).

Definition setRef (i : nat) (x : option nat) (refs : gmap nat nat) : gmap nat nat := partial_alter (fun _ => x) i refs.

Fixpoint fillRefs (hs : list (option nat * option Ty)) (refs : list (nat * nat)) (m : gmap nat nat) : option (gmap nat nat) :=
  match refs with
  | [] => Some m
  | (i, h) :: refs => x ← hs !! h; fillRefs hs refs (setRef i x.1 m)
  end.

Inductive specStep (sp : Spec) : Cmd -> Spec -> Prop :=
  | sp_new size k t data refs m :
      0 < size < 2 ^ 47 -> 8 * Z.of_nat (length data) <= size -> isPreciseGCType (Some t) = true ->
      (forall s, s ∈ slotsOf k (Some t) -> data !! slotIndex s = Some 0) ->
      (forall i h, (i, h) ∈ refs -> exists s, slotAt k (Some t) i s /\ forall n u, handles sp !! h = Some (Some n, u) -> fits sp (refType s) n) ->
      fillRefs (handles sp) refs ∅ = Some m ->
      specStep sp (New size k t data refs) (mkSpec (<[next sp := mkNode k t m]> (nodes sp)) (handles sp ++ [(Some (next sp), Some t)]) (S (next sp)) (scopes sp))
  | sp_load owner i n t node s :
      handles sp !! owner = Some (Some n, t) -> nodes sp !! n = Some node -> slotAt (nodeKind node) t i s ->
      specStep sp (Load owner i) (mkSpec (nodes sp) (handles sp ++ [(nodeRefs node !! i, refType s)]) (next sp) (scopes sp))
  | sp_store owner i value n t node s x u :
      handles sp !! owner = Some (Some n, t) -> nodes sp !! n = Some node -> slotAt (nodeKind node) t i s ->
      handles sp !! value = Some (x, u) -> (forall m, x = Some m -> fits sp (refType s) m) ->
      specStep sp (Store owner i value)
        (mkSpec (<[n := mkNode (nodeKind node) (nodeType node) (setRef i x (nodeRefs node))]> (nodes sp)) (handles sp) (next sp) (scopes sp))
  | sp_forget h x t : handles sp !! h = Some (x, t) -> specStep sp (Forget h) (mkSpec (nodes sp) (<[h := (None, t)]> (handles sp)) (next sp) (scopes sp))
  | sp_finalizable h n t : handles sp !! h = Some (Some n, t) -> specStep sp (Finalizable h) sp
  | sp_hold h block x t : handles sp !! h = Some (x, t) -> specStep sp (HoldBlock h block) sp
  | sp_request : specStep sp RequestMajor sp
  | sp_inhibit : specStep sp Inhibit (mkSpec (nodes sp) (handles sp) (next sp) (S (scopes sp)))
  | sp_allow n : scopes sp = S n -> specStep sp Allow (mkSpec (nodes sp) (handles sp) (next sp) n)
  | sp_safepoint : specStep sp Safepoint sp.

Inductive specRun : Spec -> list Cmd -> Spec -> Prop :=
  | sr_done sp : specRun sp [] sp
  | sr_step sp c sp' cmds sp'' : specStep sp c sp' -> specRun sp' cmds sp'' -> specRun sp (c :: cmds) sp''.

(** ** Typed heaps of names *)

Lemma refSlot_unique k t s s' : s ∈ slotsOf k t -> s' ∈ slotsOf k t -> slotIndex s = slotIndex s' -> s = s'.
Proof.
  intros [a Ha]%list_elem_of_lookup [b Hb]%list_elem_of_lookup He. assert (a = b) as ->; [|congruence].
  eapply (NoDup_lookup _ _ _ (slotIndex s) (slots_once k t)); rewrite list_lookup_fmap; [by rewrite Ha|by rewrite Hb, He].
Qed.

Lemma findSlot_at k t i s : slotAt k t i s -> findSlot k t i = Some s.
Proof.
  intros (Hs & Hi & Hc). unfold findSlot. destruct (filter _ _) as [|s' l] eqn:Hf.
  - exfalso. assert (Hin : s ∈ filter (fun s => slotIndex s = i /\ carrier s = false) (slotsOf k t)) by by apply list_elem_of_filter.
    rewrite Hf in Hin. by apply elem_of_nil in Hin.
  - assert (Hin : s' ∈ filter (fun s => slotIndex s = i /\ carrier s = false) (slotsOf k t)) by (rewrite Hf; left).
    apply list_elem_of_filter in Hin as [[Hi' _] Hs']. cbn. f_equal. apply (refSlot_unique k t); [done..|congruence].
Qed.

Record typed (sp : Spec) : Prop := {
  ty_nodes n node i m : nodes sp !! n = Some node -> nodeRefs node !! i = Some m ->
    exists s, slotAt (nodeKind node) (Some (nodeType node)) i s /\ fits sp (refType s) m;
  ty_handles h n t : handles sp !! h = Some (Some n, t) -> fits sp t n;
  ty_next n : is_Some (nodes sp !! n) -> (n < next sp)%nat;
}.

(** Objects stay of their kinds and types. *)
Definition extends (sp sp' : Spec) : Prop := forall n node, nodes sp !! n = Some node ->
  exists node', nodes sp' !! n = Some node' /\ nodeKind node' = nodeKind node /\ nodeType node' = nodeType node.

Lemma fits_extends sp sp' t n : extends sp sp' -> fits sp t n -> fits sp' t n.
Proof.
  intros He [Hp (node & Hn & Hs)]. split; [done|]. destruct (He n node Hn) as (node' & Hn' & Ek & Et). exists node'. by rewrite Ek, Et.
Qed.

Lemma lookup_setRef i x refs j : setRef i x refs !! j = if decide (i = j) then x else refs !! j.
Proof. unfold setRef. case_decide as Hij; [subst; apply lookup_partial_alter_eq|by apply lookup_partial_alter_ne]. Qed.

Lemma fillRefs_lookup hs refs : forall m m' i x, fillRefs hs refs m = Some m' -> m' !! i = Some x ->
  m !! i = Some x \/ exists h u, (i, h) ∈ refs /\ hs !! h = Some (Some x, u).
Proof.
  induction refs as [|[j h] refs IH]; intros m m' i x Hf Hx; cbn in Hf; [by simplify_eq; left|].
  destruct (hs !! h) as [[y u]|] eqn:Hh; [|done]. cbn in Hf. destruct (IH _ _ _ _ Hf Hx) as [Hm|(h' & u' & Hin & Hh')].
  - rewrite lookup_setRef in Hm. case_decide as Hij; [subst; right; exists h, u; split; [left|done]|by left].
  - right. exists h', u'. split; [by right|done].
Qed.

Lemma specStep_extends sp c sp' : typed sp -> specStep sp c sp' -> extends sp sp'.
Proof.
  intros Hty Hs n node Hn. destruct Hs; try (by exists node); cbn.
  - exists node. rewrite lookup_insert_ne; [done|]. intros <-. pose proof (ty_next _ Hty (next sp)) as Hlt. rewrite Hn in Hlt. specialize (Hlt ltac:(by eexists)). lia.
  - destruct (decide (n0 = n)) as [->|Hne]; [|exists node; by rewrite lookup_insert_ne]. rewrite lookup_insert_eq.
    eexists. split; [done|]. cbn. assert (node0 = node) as -> by congruence. done.
Qed.

(** A reference slot by the type of a handle is one by the type of its object. *)
Lemma slotAt_type sp n t node i s : fits sp t n -> nodes sp !! n = Some node -> slotAt (nodeKind node) t i s ->
  slotAt (nodeKind node) (Some (nodeType node)) i s.
Proof. intros (_ & node' & Hn' & He) Hn. assert (node' = node) as -> by congruence. unfold slotAt. by rewrite He. Qed.

Lemma slotAt_unique k t i s s' : slotAt k t i s -> slotAt k t i s' -> s = s'.
Proof. intros (Hs & Hi & _) (Hs' & Hi' & _). apply (refSlot_unique k t); [done..|congruence]. Qed.

Lemma specStep_typed sp c sp' : typed sp -> specStep sp c sp' -> typed sp'.
Proof.
  intros Hty Hs. pose proof (fits_extends sp sp') as Hfit. specialize (fun t n => Hfit t n (specStep_extends sp c sp' Hty Hs)).
  destruct Hs as [size k t data refs m Hsz Hlen Hp Hd Hr Hm|owner i n t node s Ho Hn Hsl|owner i value n t node s x u Ho Hn Hsl Hv Hx|h x t Hh| | | | | |]; try done;
    try (split; by apply Hty).
  - split; cbn.
    + intros n node i x [[<- <-]|[_ Hn]]%lookup_insert_Some Hx.
      * cbn in Hx |- *. destruct (fillRefs_lookup _ _ _ _ _ _ Hm Hx) as [?|(h & u & Hin & Hh)]; [done|].
        destruct (Hr i h Hin) as (s & Hsl & Hf). exists s. split; [done|]. by eapply Hfit, Hf.
      * destruct (ty_nodes _ Hty n node i x Hn Hx) as (s & ? & ?). exists s. auto.
    + intros h n u Hh. apply lookup_app_Some in Hh as [Hh|[_ Hh]]; [by eapply Hfit, ty_handles|].
      apply list_lookup_singleton_Some in Hh as [_ [= <- <-]]. split; [done|]. exists (mkNode k t m). split; [cbn; by rewrite lookup_insert_eq|done].
    + intros n [node [[<- _]|[_ Hn]]%lookup_insert_Some]; [lia|]. pose proof (ty_next _ Hty n ltac:(by eexists)). lia.
  - split; cbn; [apply Hty| |apply Hty]. intros h m u Hh. apply lookup_app_Some in Hh as [Hh|[_ Hh]]; [by eapply Hfit, ty_handles|].
    apply list_lookup_singleton_Some in Hh as [_ [= Hx <-]]. destruct (ty_nodes _ Hty n node i m Hn Hx) as (s' & Hsl' & Hf).
    pose proof (slotAt_type sp n t node i s (ty_handles _ Hty _ _ _ Ho) Hn Hsl) as Hsl2. by rewrite (slotAt_unique _ _ _ _ _ Hsl2 Hsl').
  - split; cbn.
    + intros n' node' j y [[<- <-]|[_ Hn']]%lookup_insert_Some Hy.
      * cbn in Hy |- *. rewrite lookup_setRef in Hy. case_decide as Hij.
        -- subst j. exists s. split; [by eapply slotAt_type, Hsl; [eapply ty_handles|]|]. apply Hfit. by apply Hx.
        -- destruct (ty_nodes _ Hty n node j y Hn Hy) as (s' & ? & ?). exists s'. auto.
      * destruct (ty_nodes _ Hty n' node' j y Hn' Hy) as (s' & ? & ?). exists s'. auto.
    + intros h m w Hh. by eapply Hfit, ty_handles.
    + intros m [node' [[<- _]|[_ Hm]]%lookup_insert_Some]; apply (ty_next _ Hty); by eexists.
  - split; cbn; [apply Hty| |apply Hty]. intros h' n u Hh'. apply list_lookup_insert_Some in Hh' as [(_ & [=] & _)|[_ Hh']]. by eapply Hfit, ty_handles.
Qed.

(** ** A new object *)

(** Where an allocation puts an object with the header [h]. *)
Record placedIn st (a h : Z) (k : Kind) (ws : list Z) st1 : Prop := {
  pl_objs : objs st1 = <[a := mkObj h k ws]> (objs st);
  pl_new : objs st !! a = None /\ a <> 0;
  pl_birth : start_ (birth st1) = start_ (birth st) /\ end_ (birth st1) = end_ (birth st) /\ begin_ (birth st1) = begin_ (birth st) /\
    top_ (birth st) <= top_ (birth st1) <= end_ (birth st) /\ (contains (birth st) (a - kHeaderBytes) = true -> a - kHeaderBytes < top_ (birth st1));
  pl_bumps : haven st1 = haven st /\ cache st1 = cache st;
  pl_rest : inGC st1 = inGC st /\ settingsOf (pacing st1) = settingsOf (pacing st) /\ graphSpace st1 = graphSpace st /\
    youngFinalizables st1 = youngFinalizables st /\ rootSets st1 = rootSets st /\ cells st1 = cells st /\ remembered st1 = remembered st /\
    markedSinceClear st1 = markedSinceClear st;
  pl_header : headerOk h /\ marked h = false /\ is_Some (ObjHeader.size h);
  pl_young : if young st a then region h = YoungGen /\ isYoungAddress st a = true
             else isYoungAddress st a = false /\ (region h = ElderGen \/ region h = LargeObj);
  pl_cache : contains (cache st) (a - kHeaderBytes) = false;
  pl_ok : ook (elder st1) /\ ook (large st1);
  pl_avoids x : (oavoids (elder st) x -> oavoids (elder st1) x) /\ (oavoids (large st) x -> oavoids (large st1) x);
  pl_elder p : p ∈ oiterate (elder st1) <-> p ∈ oiterate (elder st) \/ (p = a /\ region h = ElderGen);
  pl_large p : p ∈ oiterate (large st1) <-> p ∈ oiterate (large st) \/ (p = a /\ region h = LargeObj);
  pl_apart : (a ∈ oiterate (elder st1) \/ oavoids (elder st1) a) /\ (a ∈ oiterate (large st1) \/ oavoids (large st1) a);
  pl_fresh b : b ∈ fresh st1 <-> b ∈ fresh st \/ (b = a /\ region h <> YoungGen);
}.

Section Placed.
Context (managers : list GCGraphManager) (st st1 : GC Kind Ty E LO) (a h : Z) (k : Kind) (ws : list Z).
Context (Hpl : placedIn st a h k ws st1) (Hfx : fixed st) (Hho : housed managers st).

Lemma placed_contains x : contains (birth st1) x = contains (birth st) x.
Proof. unfold contains. by destruct (pl_birth _ _ _ _ _ _ Hpl) as (-> & -> & _). Qed.

Lemma placed_young x : young st1 x = young st x.
Proof. unfold young. rewrite placed_contains. by destruct (pl_bumps _ _ _ _ _ _ Hpl) as [-> _]. Qed.

Lemma placed_address x : isYoungAddress st1 x = isYoungAddress st x.
Proof. unfold isYoungAddress. rewrite placed_contains. by destruct (pl_bumps _ _ _ _ _ _ Hpl) as [-> ->]. Qed.

Lemma placed_cases x o : objs st1 !! x = Some o -> (x = a /\ o = mkObj h k ws) \/ (x <> a /\ objs st !! x = Some o).
Proof. rewrite (pl_objs _ _ _ _ _ _ Hpl). intros [[-> <-]|[? ?]]%lookup_insert_Some; [by left|by right]. Qed.

Lemma placed_old x o : objs st !! x = Some o -> x <> a /\ objs st1 !! x = Some o.
Proof.
  intros Hx. assert (x <> a) by (intros ->; destruct (pl_new _ _ _ _ _ _ Hpl); congruence). split; [done|].
  rewrite (pl_objs _ _ _ _ _ _ Hpl). by rewrite lookup_insert_ne.
Qed.

Lemma placed_self : objs st1 !! a = Some (mkObj h k ws).
Proof. rewrite (pl_objs _ _ _ _ _ _ Hpl). apply lookup_insert_eq. Qed.

Lemma placed_fixed : fixed st1.
Proof.
  destruct Hfx as [[X1 X2] X3 X4 X5 X6 X7 X8 X9 X10 X11 X12 X13 X14 X15]. destruct (pl_rest _ _ _ _ _ _ Hpl) as (E1 & E2 & E3 & E4 & E5 & E6 & E7 & E8).
  destruct (pl_bumps _ _ _ _ _ _ Hpl) as [Eh Ec]. destruct (pl_new _ _ _ _ _ _ Hpl) as [Hn0 Hne]. pose proof (pl_young _ _ _ _ _ _ Hpl) as Hy.
  assert (Hkeep : forall x, is_Some (objs st !! x) -> is_Some (objs st1 !! x)) by (intros x [o [_ Ho]%placed_old]; by eexists).
  split; rewrite ?E1, ?E3, ?E4, ?Eh, ?Ec.
  - split; [done|]. injection E2 as -> _. done.
  - intros x o Ho. rewrite placed_young, placed_address. destruct (placed_cases x o Ho) as [[-> ->]|[_ Ho']]; [|by apply X3].
    intros Hya. rewrite Hya in Hy. split_and!; [apply (pl_header _ _ _ _ _ _ Hpl)|apply Hy..].
  - intros x [o Ho]. rewrite placed_young, placed_address. destruct (placed_cases x o Ho) as [[-> ->]|[_ Ho']]; [|apply X4; by eexists].
    intros Hya. rewrite Hya in Hy. apply Hy.
  - intros g Hg. rewrite placed_young. destruct (X5 g Hg) as (G1 & G2 & G3). split_and!; [done| |by apply Hkeep].
    rewrite (pl_fresh _ _ _ _ _ _ Hpl). intros [?|[-> _]]; [done|]. rewrite Hn0 in G3. by destruct G3.
  - intros b [Hb|[-> Hr]]%(pl_fresh _ _ _ _ _ _ Hpl); rewrite placed_young.
    + destruct (X6 b Hb) as (? & o & Ho & Hp). split; [done|]. exists o. split; [by apply placed_old|].
      rewrite (pl_elder _ _ _ _ _ _ Hpl), (pl_large _ _ _ _ _ _ Hpl). naive_solver.
    + destruct (young st a); [by destruct Hy|]. split; [done|]. eexists. split; [apply placed_self|]. cbn.
      rewrite (pl_elder _ _ _ _ _ _ Hpl), (pl_large _ _ _ _ _ _ Hpl). naive_solver.
  - rewrite placed_young. destruct X7 as [X7 X7']. split; [|done]. rewrite (pl_objs _ _ _ _ _ _ Hpl). by rewrite lookup_insert_ne.
  - eapply Forall_impl; [exact X8|]. intros b [Hb Hyb]. rewrite placed_young. auto.
  - destruct X9 as (B1 & B2 & B3). split; [|done]. unfold boundsOk in *. destruct (pl_birth _ _ _ _ _ _ Hpl) as (-> & -> & _). done.
  - intros x. rewrite placed_contains. apply X10.
  - intros b Hb. rewrite (pl_objs _ _ _ _ _ _ Hpl), lookup_insert_ne; [by apply X11|]. intros <-. by rewrite (pl_cache _ _ _ _ _ _ Hpl) in Hb.
  - apply (pl_ok _ _ _ _ _ _ Hpl).
  - intros x [o Ho]. destruct (placed_cases x o Ho) as [[-> _]|[_ Ho']]; [apply (pl_apart _ _ _ _ _ _ Hpl)|].
    destruct (X13 x) as [?|?]; [by eexists|left; apply (pl_elder _ _ _ _ _ _ Hpl); by left|right; by apply (pl_avoids _ _ _ _ _ _ Hpl)].
  - intros x. rewrite placed_address. intros [? ?]%X14. split; by apply (pl_avoids _ _ _ _ _ _ Hpl).
  - intros p. rewrite (pl_elder _ _ _ _ _ _ Hpl), (pl_large _ _ _ _ _ _ Hpl). intros [[Hp|[-> _]]|[Hp|[-> _]]]; try (rewrite placed_self; by eexists).
    + apply Hkeep, X15. by left.
    + apply Hkeep, X15. by right.
Qed.

Lemma placed_housed : housed managers st1.
Proof.
  destruct (pl_rest _ _ _ _ _ _ Hpl) as (E1 & E2 & E3 & E4 & E5 & E6 & E7 & E8). destruct (pl_new _ _ _ _ _ _ Hpl) as [Hn0 Hne].
  pose proof (pl_elder _ _ _ _ _ _ Hpl) as He. pose proof (pl_large _ _ _ _ _ _ Hpl) as Hl. pose proof (pl_young _ _ _ _ _ _ Hpl) as Hy.
  assert (Hno : forall p, p ∈ oiterate (elder st) \/ p ∈ oiterate (large st) -> p <> a).
  { intros p Hp ->. destruct (fx_housed _ Hfx a Hp). congruence. }
  assert (Hea : a ∉ oiterate (elder st)) by (intros Ha; by apply (Hno a); [left|]).
  assert (Hla : a ∉ oiterate (large st)) by (intros Ha; by apply (Hno a); [right|]).
  destruct (ho_separate _ _ Hho) as [_ S2 S3 S4]. split.
  - split; [apply (pl_ok _ _ _ _ _ _ Hpl)|..].
    + intros p Hp. split; [apply (fx_housed _ placed_fixed); by left|]. rewrite Hl. apply He in Hp as [Hp|[-> Hr]].
      * destruct (S2 p Hp) as [_ Hnl]. pose proof (Hno p (or_introl Hp)). naive_solver.
      * rewrite Hr. intros [?|[_ ?]]; done.
    + intros p [Hp|[-> _]]%Hl; [|destruct (proj2 (proj2 (pl_header _ _ _ _ _ _ Hpl))) as [n Hn]; exists (mkObj h k ws), n; split; [apply placed_self|done]].
      destruct (S3 p Hp) as (o & n & Ho & Hn). exists o, n. split; [by apply placed_old|done].
    + rewrite E3. intros g Hg. destruct (S4 g Hg). destruct (fx_graph _ Hfx g Hg) as (_ & _ & [o Ho]). assert (g <> a) by congruence. rewrite He, Hl. naive_solver.
  - intros x Hx. unfold isMarked in Hx. destruct (objs st1 !! x) as [o|] eqn:Ho; [|done]. destruct (placed_cases x o Ho) as [[-> ->]|[_ Ho']].
    { cbn in Hx. by rewrite (proj1 (proj2 (pl_header _ _ _ _ _ _ Hpl))) in Hx. }
    rewrite He, Hl, E3, E8. destruct (ho_ledgered _ _ Hho x) as [Hb|[?|[?|?]]]; [unfold isMarked; by rewrite Ho'|left|by auto..].
    unfold inBumpSpaces in *. rewrite placed_contains. by destruct (pl_bumps _ _ _ _ _ _ Hpl) as [-> ->].
  - destruct (ho_owned _ _ Hho) as [Ho Ha]. split; [|done]. intros m Hm. rewrite E3. by apply Ho.
  - intros x [o Ho]. rewrite placed_young, He, Hl, E3. destruct (placed_cases x o Ho) as [[-> ->]|[_ Ho']].
    + destruct (young st a); [by left|]. naive_solver.
    + destruct (ho_places _ _ Hho x) as [?|[?|[?|?]]]; [by eexists|by auto..].
  - intros x [o Ho]. destruct (placed_cases x o Ho) as [[-> ->]|[_ Ho']]; [apply (pl_apart _ _ _ _ _ _ Hpl)|].
    destruct (ho_large _ _ Hho x) as [?|?]; [by eexists|left; apply Hl; by left|right; by apply (pl_avoids _ _ _ _ _ _ Hpl)].
  - intros x o Ho. rewrite He, Hl. destruct (placed_cases x o Ho) as [[-> ->]|[Hxa Ho']]; [cbn; naive_solver|].
    destruct (ho_regions _ _ Hho x o Ho') as [-> ->]. naive_solver.
  - intros x. rewrite E7, He, Hl. intros Hx. destruct (ho_remembered _ _ Hho x Hx); auto.
  - destruct (pl_birth _ _ _ _ _ _ Hpl) as (-> & -> & -> & Ht & Hc). destruct (ho_birth _ _ Hho) as (B1 & B2 & B3). split_and!; [lia..|].
    intros x [o Ho]. rewrite placed_contains. destruct (placed_cases x o Ho) as [[-> _]|[_ Ho']]; [done|].
    intros Hx. specialize (B3 x ltac:(by eexists) Hx). lia.
  - injection E2 as _ ->. apply Hho.
Qed.
End Placed.

(** The new object is built of what the roots reach, and a handle holds it. *)
Definition layoutWith (a : Z) (l : list (Slot Ty)) Lay : Z -> list (Slot Ty) := fun x => if decide (x = a) then l else Lay x.

Lemma new_sound managers st st1 a h k t ws Lay : sound managers st Lay -> placedIn st a h k ws st1 -> isPreciseGCType (Some t) = true ->
  (forall s, s ∈ slotsOf k (Some t) -> exists w, words (mkObj h k ws) !! slotIndex s = Some w /\
    (w <> 0 -> carrier s = false /\ reachable st Lay w /\ targetLaid st Lay s w /\ w ∉ graphSpace st)) ->
  sound managers (addCell (mkCell a (Some t) false) st1) (layoutWith a (slotsOf k (Some t)) Lay).
Proof.
  intros Hsn Hpl Hp Hws. set (Lay' := layoutWith a _ Lay). pose proof (ready_fixed _ _ (sn_ready _ _ _ Hsn)) as Hfx. pose proof (sn_housed _ _ _ Hsn) as Hho.
  destruct (pl_rest _ _ _ _ _ _ Hpl) as (E1 & E2 & E3 & E4 & E5 & E6 & E7 & E8). destruct (pl_new _ _ _ _ _ _ Hpl) as [Hn0 Hne].
  pose proof (ready_shaped _ _ (sn_ready _ _ _ Hsn)) as Hsh. destruct (sn_tied _ _ _ Hsn) as [T1 T2].
  assert (HLa : Lay' a = slotsOf k (Some t)) by (unfold Lay', layoutWith; by rewrite decide_True).
  assert (HLx : forall x, x <> a -> Lay' x = Lay x) by (intros x Hx; unfold Lay', layoutWith; by rewrite decide_False).
  assert (Hra : forall x, reachable st Lay x -> x <> a).
  { intros x Hx ->. destruct (rd_live _ _ (sn_ready _ _ _ Hsn) a Hx) as (? & _ & ? & _). congruence. }
  assert (Hlaid : forall u x, laidOut (objs st) Lay u x -> laidOut (objs st1) Lay' u x).
  { intros u x (o & Ho & Hu). destruct (placed_old _ _ _ _ _ _ Hpl x o Ho). exists o. split; [done|]. by rewrite HLx. }
  assert (Hrooted : rootedIn st1 = rootedIn st) by (unfold rootedIn; by rewrite E5).
  assert (Htg : forall s w, targetLaid st Lay s w -> targetLaid (addCell (mkCell a (Some t) false) st1) Lay' s w).
  { intros s w. unfold targetLaid. change (graphSpace (addCell _ st1)) with (graphSpace st1). change (rootedIn (addCell _ st1)) with (rootedIn st1).
    change (objs (addCell _ st1)) with (objs st1). rewrite E3, Hrooted. destruct (carrier s); [auto|]. intros (? & ? & ?). split_and!; auto. }
  eapply (sound_closed _ _ _ (fun x => reachable st Lay x \/ x = a)).
  - destruct (placed_fixed _ _ _ _ _ _ Hpl Hfx). by split.
  - split; cbn; rewrite ?E5, ?E6, ?E7, ?E3.
    + intros r Hr Hr0. left. by apply rc_root.
    + intros c [Hc| ->%list_elem_of_singleton]%elem_of_app Hc0 Hcc; [left; by apply rc_cell|by right].
    + intros b Hb. left. by apply rc_remembered.
    + intros b o s w [Hb| ->] Ho Hs Hw Hw0 Hc.
      * destruct (placed_cases _ _ _ _ _ _ Hpl b o Ho) as [[-> _]|[Hba Ho']]; [by apply Hra in Hb|]. rewrite HLx in Hs by done. left. by eapply rc_slot.
      * rewrite HLa in Hs. destruct (Hws s Hs) as (w' & Hw' & Hr). rewrite (placed_self _ _ _ _ _ _ Hpl) in Ho. injection Ho as <-.
        assert (w' = w) as -> by congruence. left. by apply Hr.
  - split; cbn; rewrite ?E5, ?E6, ?E7, ?E3.
    + intros b [Hb| ->].
      * destruct (sh_live _ _ _ Hsh b Hb) as (o & u & Ho & Hu & Hsl). exists o, u. split; [by apply (placed_old _ _ _ _ _ _ Hpl)|]. rewrite HLx by by apply Hra.
        split; [done|]. intros s Hs. destruct (Hsl s Hs) as (w & Hw & Htw). exists w. split; [done|]. auto.
      * eexists _, (Some t). split; [apply (placed_self _ _ _ _ _ _ Hpl)|]. rewrite HLa. split; [done|]. intros s Hs.
        destruct (Hws s Hs) as (w & Hw & Hr). exists w. split; [done|]. intros Hw0. apply Htg. by apply Hr.
    + intros r Hr Hr0. destruct (sh_roots _ _ _ Hsh r Hr Hr0). auto.
    + intros c [Hc| ->%list_elem_of_singleton]%elem_of_app Hc0; [by apply Htg, (sh_cells _ _ _ Hsh)|]. cbn.
      unfold targetLaid. cbn. change (graphSpace (addCell _ st1)) with (graphSpace st1). change (objs (addCell _ st1)) with (objs st1). rewrite E3. split_and!; [|done|].
      * eexists. split; [apply (placed_self _ _ _ _ _ _ Hpl)|]. by rewrite HLa.
      * intros Hg. destruct (fx_graph _ Hfx a Hg) as (_ & _ & [? ?]). congruence.
    + intros b u Hb. change (young (addCell _ st1) b) with (young st1 b). rewrite (placed_young _ _ _ _ _ _ Hpl). destruct (sh_remembered _ _ _ Hsh b u Hb). auto.
    + intros b o s w Hb (Q1 & Q2 & Q3 & Q4) Ho Hs Hw Hw0. change (young (addCell _ st1) b) with (young st1 b) in Q1. change (fresh (addCell _ st1)) with (fresh st1) in *.
      change (remembered (addCell _ st1)) with (remembered st1) in Q3. change (graphSpace (addCell _ st1)) with (graphSpace st1) in *. rewrite E7 in Q3. rewrite E3 in Q4.
      rewrite (placed_young _ _ _ _ _ _ Hpl) in Q1. change (young (addCell _ st1) w) with (young st1 w). rewrite (placed_young _ _ _ _ _ _ Hpl).
      fold (rootedIn st).
      destruct (placed_cases _ _ _ _ _ _ Hpl b o Ho) as [[-> ->]|[Hba Ho']].
      { exfalso. pose proof (pl_young _ _ _ _ _ _ Hpl) as Hy. rewrite Q1 in Hy. apply Q2, (pl_fresh _ _ _ _ _ _ Hpl). right. split; [done|]. destruct Hy as [_ [-> | ->]]; done. }
      destruct Hb as [Hb|?]; [|done]. rewrite HLx in Hs by done.
      assert (Hq : quiet st b) by (split_and!; [done| |done..]; intros Hf; apply Q2, (pl_fresh _ _ _ _ _ _ Hpl); by left).
      pose proof (sh_quiet _ _ _ Hsh b o s w Hb Hq Ho' Hs Hw Hw0) as Hqw. destruct (carrier s) eqn:Hc; [done|]. destruct Hqw as [? Hnf]. split; [done|].
      rewrite (pl_fresh _ _ _ _ _ _ Hpl). intros [?|[-> _]]; [done|]. apply (Hra a); [|done]. eapply rc_slot; [exact Hb|exact Ho'|exact Hs|done..|congruence].
  - split; cbn; rewrite ?E6, ?E3.
    + intros b o s w Hb Ho Hs Hc Hw Hw0. unfold rootedIn. cbn. rewrite ?E5.
      destruct (placed_cases _ _ _ _ _ _ Hpl b o Ho) as [[-> ->]|[Hba Ho']].
      * rewrite HLa in Hs. destruct (Hws s Hs) as (w' & Hw' & Hr). cbn in Hw, Hw'. assert (w' = w) as -> by congruence. destruct (Hr Hw0). congruence.
      * destruct Hb as [Hb|?]; [|done]. rewrite HLx in Hs by done. by eapply T1.
    + intros c [Hc| ->%list_elem_of_singleton]%elem_of_app; [by apply T2|done].
  - destruct (placed_housed managers _ _ _ _ _ _ Hpl Hfx Hho) as [[S1 S2 S3 S4] H2 H3 H4 H5 H6 H7 H8 H9]. by split.
Qed.

(** ** Where an allocation puts an object *)

Lemma typedHeader total r : kHeaderBytes < total < 2 ^ 47 -> 0 <= r < 16 ->
  headerOk (setBits 54 4 (ObjectHeader total) r) /\ marked (setBits 54 4 (ObjectHeader total) r) = false /\
  is_Some (ObjHeader.size (setBits 54 4 (ObjectHeader total) r)) /\ region (setBits 54 4 (ObjectHeader total) r) = r.
Proof.
  unfold kHeaderBytes. intros Ht Hr. destruct (ObjectHeader_fields total ltac:(lia)) as (Hn & _ & Hm & Hs & _).
  assert (Hsz : ObjHeader.size (setBits 54 4 (ObjectHeader total) r) = Some total).
  { unfold ObjHeader.size. unfold total_, state_ in *. rewrite !bits_set_other by lia. by rewrite Hs, Hn. }
  split_and!; [|unfold marked, marked_ in *; rewrite bits_set_other by lia; by rewrite Hm|by eexists|unfold region, region_; by rewrite bits_set_same by lia].
  exists (total - 8). unfold objSize, kHeaderBytes. unfold total_, state_ in *. rewrite !bits_set_other by lia. rewrite Hs, Hn. split; [done|lia].
Qed.

Lemma checkHeapLimit_same n st st1 : checkHeapLimit n st = inl st1 -> exists p, st1 = setPacing p st /\ settingsOf p = settingsOf (pacing st).
Proof.
  unfold checkHeapLimit. destruct st. intros Hc. repeat case_match; simplify_eq; eexists; (split; [done|]); cbn; by rewrite ?settings_request.
Qed.

(** A block of an old space is where no object was, nor a young space is. *)
Lemma oldBlock {X} `{!OldSpace X} st (x x' : X) n a total : ook x -> 0 < n < 2 ^ 47 -> oalloc x n = Some (a, total, x') ->
  (forall y, isYoungAddress st y = true -> oavoids x y) -> (forall y, is_Some (objs st !! y) -> y ∈ oiterate x \/ oavoids x y) ->
  objs st !! a = None /\ a <> 0 /\ kHeaderBytes < total < 2 ^ 47 /\ isYoungAddress st a = false /\ isYoungAddress st (a - kHeaderBytes) = false /\
  a ∈ oiterate x' /\ ook x'.
Proof.
  intros Hok Hn Ha Hyoung Hobjs. destruct (oalloc_ok _ _ _ _ _ Hok Hn Ha) as (Hok' & Hnew & Hit & Ht1 & Ht2 & Ht3 & Hav).
  assert (Hin : a ∈ oiterate x') by (apply Hit; by right). destruct (oiterate_contains _ _ Hok' Hin) as (_ & _ & Hna & Hnh & _).
  unfold kHeaderBytes in *. split_and!; try done; try lia.
  - apply eq_None_not_Some. intros [?|Ho]%Hobjs; [done|]. by apply Hna, Hav.
  - apply not_true_is_false. intros Hy. by apply Hna, Hav, Hyoung.
  - apply not_true_is_false. intros Hy. by apply Hnh, Hav, Hyoung.
Qed.

Section Apart.
Context (Hapart : forall (e : E) (l : LO), ook e -> ook l ->
  (forall p, p ∈ oiterate e -> oavoids l p) /\ (forall p, p ∈ oiterate l -> oavoids e p)).

Lemma notYoung st a : isYoungAddress st a = false -> contains (birth st) a = false /\ contains (haven st) a = false /\ contains (cache st) a = false.
Proof. unfold isYoungAddress. intros [[? ?]%orb_false_iff ?]%orb_false_iff. done. Qed.

Lemma allocElder_placed managers st n k ws a st1 : fixed st -> housed managers st -> 0 < n < 2 ^ 47 -> allocElder n k ws st = inl (a, st1) ->
  exists h, placedIn st a h k ws st1.
Proof.
  intros Hfx Hho Hn Ha. unfold allocElder in Ha. destruct (checkHeapLimit n st) as [st0|] eqn:Ec; [|done].
  apply checkHeapLimit_same in Ec as (p & -> & Ep). cbn [elder setPacing] in Ha. destruct (oalloc (elder st) n) as [[[a' total] e']|] eqn:Eo; [|done].
  assert (Hcopy : enableYoungGenCopying_ p = true) by (injection Ep as -> _; apply Hfx). cbn in Ha. rewrite Hcopy in Ha. injection Ha as -> <-.
  destruct (fx_elder _ Hfx) as [Oe Ol]. destruct (oalloc_ok _ _ _ _ _ Oe Hn Eo) as (Oe' & Hnew & Hit & _ & _ & _ & Hav).
  destruct (oldBlock st _ _ _ _ _ Oe Hn Eo) as (Hnone & Hne & Ht & Hya & Hyh & Hin & _); [intros y Hy; by apply (fx_spaces _ Hfx)|apply (fx_avoids _ Hfx)|].
  destruct (notYoung _ _ Hyh) as (Hb & Hh & Hc). destruct (typedHeader total ElderGen Ht ltac:(done)) as (H1 & H2 & H3 & H4).
  exists (setBits 54 4 (ObjectHeader total) ElderGen). split; cbn; rewrite ?H4; try done.
  - split_and!; try done; try lia; apply (ho_birth _ _ Hho).
  - split_and!; try done. destruct (_ && _); rewrite ?settings_request; done.
  - unfold young. rewrite Hb, Hh. cbn. auto.
  - split; auto.
  - intros q. rewrite Hit. naive_solver.
  - intros q. split; [by left|by intros [?|[_ ?]]].
  - split; [by left|]. right. by apply (Hapart e').
  - intros b. rewrite elem_of_union, elem_of_singleton. assert (ElderGen <> YoungGen) by done. naive_solver.
Qed.

Lemma allocLarge_placed managers st n k ws a st1 : fixed st -> housed managers st -> 0 < n < 2 ^ 47 -> allocLarge n k ws st = inl (a, st1) ->
  exists h, placedIn st a h k ws st1.
Proof.
  intros Hfx Hho Hn Ha. unfold allocLarge in Ha. destruct (checkHeapLimit n st) as [st0|] eqn:Ec; [|done].
  apply checkHeapLimit_same in Ec as (p & -> & Ep). cbn [large setPacing] in Ha. destruct (oalloc (large st) n) as [[[a' total] l']|] eqn:Eo; [|done].
  assert (Hcopy : enableYoungGenCopying_ p = true) by (injection Ep as -> _; apply Hfx). cbn in Ha. rewrite Hcopy in Ha. injection Ha as -> <-.
  destruct (fx_elder _ Hfx) as [Oe Ol]. destruct (oalloc_ok _ _ _ _ _ Ol Hn Eo) as (Ol' & Hnew & Hit & _ & _ & _ & Hav).
  destruct (oldBlock st _ _ _ _ _ Ol Hn Eo) as (Hnone & Hne & Ht & Hya & Hyh & Hin & _); [intros y Hy; by apply (fx_spaces _ Hfx)|apply (ho_large _ _ Hho)|].
  destruct (notYoung _ _ Hyh) as (Hb & Hh & Hc). destruct (typedHeader total LargeObj Ht ltac:(done)) as (H1 & H2 & H3 & H4).
  exists (setBits 54 4 (ObjectHeader total) LargeObj). split; cbn; rewrite ?H4; try done.
  - split_and!; try done; try lia; apply (ho_birth _ _ Hho).
  - split_and!; try done. destruct (_ <=? _); rewrite ?settings_request; done.
  - unfold young. rewrite Hb, Hh. cbn. auto.
  - split; auto.
  - intros q. split; [by left|by intros [?|[_ ?]]].
  - intros q. rewrite Hit. naive_solver.
  - split; [|by left]. right. by apply (Hapart (elder st) l').
  - intros b. rewrite elem_of_union, elem_of_singleton. assert (LargeObj <> YoungGen) by done. naive_solver.
Qed.

Lemma allocYoung_placed managers st n k ws a b st1 : fixed st -> housed managers st -> 0 < n < 2 ^ 47 -> bumpAlloc (birth st) n = Some (a, b) ->
  (exists p, settingsOf p = settingsOf (pacing st) /\
    st1 = setPacing p (place a (setBits 54 4 (ObjectHeader (totalSize n)) YoungGen) k ws (setBirth b st))) ->
  exists h, placedIn st a h k ws st1.
Proof.
  intros Hfx Hho Hn Ha (p & Ep & ->). unfold bumpAlloc in Ha. destruct (Z.ltb_spec (end_ (birth st)) (top_ (birth st) + totalSize n)) as [|Hfit]; [done|].
  injection Ha as <- <-. destruct (totalSize_spec n ltac:(lia)) as (Hts & _ & Hge). rewrite <- Hts in Hge. clear Hts.
  destruct (ho_birth _ _ Hho) as (B1 & B2 & B3). destruct (fx_bounds _ Hfx) as (B4 & _). unfold boundsOk in B4.
  set (a := top_ (birth st) + kHeaderBytes) in *. assert (Eh : a - kHeaderBytes = top_ (birth st)) by (unfold a; lia).
  assert (Ht : kHeaderBytes < totalSize n < 2 ^ 47) by (unfold kHeaderBytes in *; lia).
  assert (Hx1 : contains (birth st) (a - kHeaderBytes) = true) by (unfold contains, kHeaderBytes in *; lia).
  assert (Hx2 : contains (birth st) a = true) by (unfold contains, a, kHeaderBytes in *; lia).
  assert (Hya : isYoungAddress st a = true) by (unfold isYoungAddress; by rewrite Hx2).
  assert (Hyy : young st a = true) by (unfold young; by rewrite Hx1).
  destruct (typedHeader (totalSize n) YoungGen Ht ltac:(done)) as (H1 & H2 & H3 & H4). destruct (fx_spaces _ Hfx a Hya) as [Ae Al].
  exists (setBits 54 4 (ObjectHeader (totalSize n)) YoungGen). split; cbn; rewrite ?H4, ?Hyy; try done.
  - split; [|unfold a, kHeaderBytes in *; lia]. apply eq_None_not_Some. intros Ho. specialize (B3 a Ho Hx1). lia.
  - unfold kHeaderBytes in *. split_and!; try done; lia.
  - by apply (proj1 (fx_apart _ Hfx _)).
  - apply Hfx.
  - intros q. split; [by left|by intros [?|[_ ?]]].
  - intros q. split; [by left|by intros [?|[_ ?]]].
  - split; by right.
  - intros q. split; [by left|by intros [?|[_ ?]]].
Qed.

Lemma placedIn_pacing st p a h k ws st1 : settingsOf p = settingsOf (pacing st) -> placedIn (setPacing p st) a h k ws st1 -> placedIn st a h k ws st1.
Proof. intros Ep [P1 P2 P3 P4 P5 P6 P7 P8 P9 P10 P11 P12 P13 P14]. split; try done. cbn in P5. by rewrite <- Ep. Qed.

Lemma allocUnlocked_placed managers st n k ws a st1 : fixed st -> housed managers st -> 0 < n < 2 ^ 47 -> allocUnlocked n k ws st = inl (a, st1) ->
  exists h, placedIn st a h k ws st1.
Proof.
  intros Hfx Hho Hn Ha. unfold allocUnlocked in Ha. destruct (_ <? n); [by eapply allocLarge_placed|].
  rewrite (proj2 (fx_idle _ Hfx)) in Ha. cbn [negb] in Ha. destruct (bumpAlloc (birth st) n) as [[x b]|] eqn:Eb.
  - injection Ha as -> <-. eapply allocYoung_placed; [done..|]. destruct (_ && _); (eexists; split; [|by destruct st]; done).
  - destruct (minorPending _); [by eapply allocElder_placed|]. set (p := requestCollectionAtSafepoint Minor (pacing st)).
    assert (Ep : settingsOf p = settingsOf (pacing st)) by apply settings_request.
    destruct (allocElder_placed managers (setPacing p st) n k ws a st1) as [h Hh]; [| |done..|exists h; by eapply placedIn_pacing].
    + destruct Hfx as [X1 X2 X3 X4 X5 X6 X7 X8 X9 X10 X11 X12 X13 X14]. by split.
    + destruct Hho as [[S1 S2 S3 S4] H2 [H3 H3'] H4 H5 H6 H7 H8 H9]. by split.
Qed.
End Apart.

(** ** Steps that keep a heap sound *)

(** Handles may be dropped, and may be added for what is reached. *)
Lemma sound_cells managers st Lay cs : sound managers st Lay ->
  (forall c, c ∈ cs -> cellCarrier c = false /\ (cellRef c <> 0 -> reachable st Lay (cellRef c) /\ targetLaid st Lay (cellSlot c) (cellRef c))) ->
  sound managers (setCells cs st) Lay.
Proof.
  intros Hsn Hcs. pose proof (sn_ready _ _ _ Hsn) as Hrd. pose proof (sn_housed _ _ _ Hsn) as [[S1 S2 S3 S4] H2 H3 H4 H5 H6 H7 H8 H9].
  destruct (sn_tied _ _ _ Hsn) as [T1 T2]. destruct (ready_fixed _ _ Hrd). destruct (ready_under _ _ Hrd) as [C1 C2 C3 C4]. destruct (ready_shaped _ _ Hrd) as [D1 D2 D3 D4 D5].
  eapply (sound_closed _ _ _ (reachable st Lay)); try by split.
  - split; [exact C1| |exact C3|exact C4]. intros c Hc Hc0 _. by apply Hcs.
  - split; [exact D1|exact D2| |exact D4|exact D5]. intros c Hc Hc0. by apply Hcs.
  - split; [exact T1|]. intros c Hc Hcc. destruct (Hcs c Hc). congruence.
Qed.

(** The handles of a sound heap, none of which carries a graph, are as [sound_cells] wants them. *)
Lemma sound_handle managers st Lay c : sound managers st Lay -> c ∈ cells st -> cellCarrier c = false -> cellRef c <> 0 ->
  reachable st Lay (cellRef c) /\ targetLaid st Lay (cellSlot c) (cellRef c).
Proof.
  intros Hsn Hc Hcc Hc0. split; [apply rc_cell; [done..|congruence]|]. by apply (sh_cells _ _ _ (ready_shaped _ _ (sn_ready _ _ _ Hsn))).
Qed.

Lemma sound_finalizable managers st Lay a : sound managers st Lay -> sound managers (noteFinalizable a st) Lay.
Proof.
  intros Hsn. unfold noteFinalizable. destruct (_ && inYoungGenSpace st a) eqn:Hn; [|done]. apply andb_true_iff in Hn as [_ Hn].
  pose proof (sn_ready _ _ _ Hsn) as Hrd. pose proof (sn_housed _ _ _ Hsn) as [[S1 S2 S3 S4] H2 H3 H4 H5 H6 H7 H8 H9].
  pose proof (ready_fixed _ _ Hrd) as Hfx. destruct (sn_tied _ _ _ Hsn) as [T1 T2].
  destruct (ready_under _ _ Hrd) as [C1 C2 C3 C4]. destruct (ready_shaped _ _ Hrd) as [D1 D2 D3 D4 D5].
  eapply (sound_closed _ _ _ (reachable st Lay)); try by split. destruct Hfx as [X1 X2 X3 X4 X5 X6 X7 X8 X9 X10 X11 X12 X13 X14]. split; try done.
  apply Forall_app. split; [done|]. constructor; [|constructor]. unfold inYoungGenSpace in Hn. destruct (objs st !! a) as [o|] eqn:Ho; [|done].
  split; [by eexists|]. apply andb_true_iff in Hn as [_ Hn]. destruct (contains (cache st) (a - kHeaderBytes)) eqn:Hc; [by rewrite (X10 a Hc) in Ho|].
  change (young st a = true). unfold young. by rewrite orb_false_r in Hn.
Qed.

Lemma sound_blockHeld managers st Lay a b : sound managers st Lay -> sound managers (noteBlockHeld a b st) Lay.
Proof.
  intros Hsn. unfold noteBlockHeld. destruct (_ || _); [done|]. destruct (negb _); [done|]. apply sound_pacing; [|done]. apply settings_noteElderBlockBytes.
Qed.

(** The write barrier remembers the owner, or did not have to. *)
Lemma writeBarrier_cases managers st a t w : fixed st -> housed managers st -> is_Some (objs st !! a) -> a ∉ graphSpace st -> is_Some (objs st !! w) ->
  (writeBarrier a t w true st = setRemembered (<[a := t]> (remembered st)) st /\ young st a = false /\ (a ∈ oiterate (elder st) \/ a ∈ oiterate (large st))) \/
  (writeBarrier a t w true st = st /\ (young st a = true \/ (young st w = false /\ w ∉ fresh st))).
Proof.
  intros Hfx Hho [o Ho] Hg [v Hv]. destruct (fx_null _ Hfx) as [Hnull _]. assert (a <> 0) by congruence. assert (w <> 0) by congruence.
  assert (Hyoung : forall x o, objs st !! x = Some o -> young st x = true -> isYoungAddress st x = true /\ inYoungGenSpace st x = true).
  { intros x u Hx Hy. destruct (fx_young _ Hfx x u Hx Hy) as (_ & Hr & Ha). split; [done|]. unfold inYoungGenSpace. rewrite Hx, Hr.
    unfold young in Hy. rewrite Hy. done. }
  assert (Hin : forall x, x ∈ oiterate (elder st) \/ x ∈ oiterate (large st) -> x <> 0 -> inAutoSpace st x = true).
  { intros x [Hx|Hx] Hx0; unfold inAutoSpace; rewrite (proj2 (Z.eqb_neq x 0)) by done; apply oiterate_contains in Hx as (-> & _); try apply Hfx; cbn;
      by rewrite ?orb_true_r. }
  unfold writeBarrier. rewrite (proj2 (fx_idle _ Hfx)), !(proj2 (Z.eqb_neq _ 0)) by done. cbn [negb orb].
  destruct (isYoungAddress st a) eqn:Hya.
  { right. split; [done|left]. destruct (young st a) eqn:Hy; [done|]. rewrite (fx_old _ Hfx a) in Hya by done. done. }
  assert (Hy : young st a = false) by (apply not_true_is_false; intros Hy; destruct (Hyoung _ _ Ho Hy); congruence).
  destruct (negb (isYoungAddress st w) && bool_decide (fresh st = ∅)) eqn:Hq.
  { right. split; [done|right]. apply andb_true_iff in Hq as [Hq1%negb_true_iff Hq2%bool_decide_eq_true]. split; [|rewrite Hq2; set_solver].
    apply not_true_is_false. intros Hyw. destruct (Hyoung _ _ Hv Hyw). congruence. }
  destruct (negb (inAutoSpace st w && youngOrFresh st w)) eqn:Hs.
  { right. split; [done|right]. apply negb_true_iff in Hs. split.
    - apply not_true_is_false. intros Hyw. destruct (Hyoung _ _ Hv Hyw) as [Haw Hiw]. unfold inAutoSpace, youngOrFresh in Hs.
      by rewrite Haw, Hiw, (proj2 (Z.eqb_neq w 0)) in Hs.
    - intros Hf. destruct (fx_fresh _ Hfx w Hf) as (_ & u & _ & Hu). rewrite Hin in Hs by (naive_solver). unfold youngOrFresh in Hs.
      rewrite (bool_decide_eq_true_2 _ Hf), orb_true_r in Hs. done. }
  assert (Hpl : a ∈ oiterate (elder st) \/ a ∈ oiterate (large st)).
  { destruct (ho_places _ _ Hho a) as [?|[?|[?|?]]]; [by eexists|congruence|by left|by right|done]. }
  left. rewrite Hin by done. cbn [andb]. split; [|done]. destruct (ho_regions _ _ Hho a o Ho) as [Re Rl].
  assert (inElderGenSpace st a || inLargeObjSpace st a = true) as ->; [|done]. unfold inElderGenSpace, inLargeObjSpace. rewrite Ho.
  destruct (fx_elder _ Hfx) as [Oe Ol]. destruct Hpl as [Hp|Hp].
  - rewrite (proj2 Re Hp). destruct (oiterate_contains _ _ Oe Hp) as (_ & -> & _). done.
  - rewrite (proj2 Rl Hp). destruct (oiterate_contains _ _ Ol Hp) as (_ & -> & _). by rewrite orb_true_r.
Qed.

(** A reference of an object is overwritten. *)
Section Stored.
Context (managers : list GCGraphManager) (st : GC Kind Ty E LO) (Lay : Z -> list (Slot Ty)) (Hsn : sound managers st Lay).
Context (a : Z) (o : Obj Kind) (Ho : objs st !! a = Some o) (i : nat) (w : Z).
#[local] Abbreviation written := (setObjs (<[a := mkObj (hdr o) (kind o) (<[i := w]> (words o))]> (objs st)) st).

Lemma written_back x n : objs written !! x = Some n -> exists u, objs st !! x = Some u /\ hdr n = hdr u /\ kind n = kind u /\
  (x <> a -> n = u) /\ (x = a -> words n = <[i := w]> (words u)).
Proof.
  cbn. intros [[<- <-]|[? Hx]]%lookup_insert_Some; [exists o|exists n]; split_and!; done.
Qed.

Lemma written_on x u : objs st !! x = Some u -> exists n, objs written !! x = Some n /\ hdr n = hdr u /\ kind n = kind u /\
  (x <> a -> n = u) /\ (x = a -> words n = <[i := w]> (words u)).
Proof.
  intros Hx. cbn. destruct (decide (x = a)) as [->|Hne]; [|exists u; by rewrite lookup_insert_ne]. rewrite lookup_insert_eq. eexists. split; [done|].
  assert (u = o) as -> by congruence. done.
Qed.

Lemma written_is x : is_Some (objs written !! x) <-> is_Some (objs st !! x).
Proof. split; intros [n Hn]; [apply written_back in Hn as (u & ? & _)|apply written_on in Hn as (u & ? & _)]; by eexists. Qed.

Lemma written_none x : objs st !! x = None <-> objs written !! x = None.
Proof. rewrite !eq_None_not_Some. by rewrite written_is. Qed.

Lemma written_fixed : fixed written.
Proof.
  pose proof (ready_fixed _ _ (sn_ready _ _ _ Hsn)) as [X1 X2 X3 X4 X5 X6 X7 X8 X9 X10 X11 X12 X13 X14]. split; try done.
  - intros x n Hn. destruct (written_back x n Hn) as (u & Hu & -> & _). by apply X2.
  - intros x Hx%written_is. by apply X3.
  - intros g Hg. destruct (X4 g Hg) as (? & ? & ?). rewrite written_is. done.
  - intros b Hb. destruct (X5 b Hb) as (Hy & u & Hu & Hp). split; [done|]. destruct (written_on b u Hu) as (n & Hn & Eh & _). exists n. by rewrite Eh.
  - destruct X6. split; [by apply written_none|done].
  - eapply Forall_impl; [exact X7|]. intros b [Hb Hy]. by rewrite written_is.
  - intros b Hb. by apply written_none, X10.
  - intros x Hx%written_is. by apply X12.
  - intros p Hp. by apply written_is, X14.
Qed.

Lemma written_housed : housed managers written.
Proof.
  pose proof (sn_housed _ _ _ Hsn) as [[S1 S2 S3 S4] H2 H3 H4 H5 H6 H7 H8 H9]. split; try done.
  - split; try done.
    + intros p Hp. rewrite written_is. by apply S2.
    + intros p Hp. destruct (S3 p Hp) as (u & n & Hu & Hs). destruct (written_on p u Hu) as (v & Hv & Eh & _). exists v, n. by rewrite Eh.
  - intros x Hx. apply H2. unfold isMarked in *. destruct (objs written !! x) as [n|] eqn:Hn; [|done].
    destruct (written_back x n Hn) as (u & -> & <- & _). done.
  - intros x Hx%written_is. by apply H4.
  - intros x Hx%written_is. by apply H5.
  - intros x n Hn. destruct (written_back x n Hn) as (u & Hu & -> & _). by apply H6.
  - destruct H8 as (B1 & B2 & B3). split; [exact B1|split; [exact B2|]]. intros x Hx%written_is. by apply B3.
Qed.

Context (t : option Ty) (s : Slot Ty) (Ha : reachable st Lay a) (Hg : a ∉ graphSpace st) (Ht : slotsOf (kind o) t = Lay a).
Context (Hs : s ∈ Lay a) (Hi : slotIndex s = i) (Hc : carrier s = false) (Hw : w <> 0 -> reachable st Lay w /\ targetLaid st Lay s w).

Lemma slot_here s' : s' ∈ Lay a -> slotIndex s' = i -> s' = s.
Proof. rewrite <- Ht in *. intros Hs' Hi'. eapply refSlot_unique; [done..|congruence]. Qed.

(** The word of a slot afterwards: the one written, or as before. *)
Lemma written_word x n s' v : objs written !! x = Some n -> s' ∈ Lay x -> words n !! slotIndex s' = Some v ->
  (x = a /\ s' = s /\ v = w) \/ (exists u, objs st !! x = Some u /\ words u !! slotIndex s' = Some v).
Proof.
  intros Hn Hs' Hv. destruct (written_back x n Hn) as (u & Hu & _ & _ & Hne & He). destruct (decide (x = a)) as [->|Hx].
  - rewrite He in Hv by done. apply list_lookup_insert_Some in Hv as [(Es & <- & _)|[_ Hv]]; [left|right; by exists u].
    split_and!; [done| |done]. apply slot_here; [done|congruence].
  - right. exists u. rewrite (Hne Hx) in Hv. done.
Qed.

Lemma written_laid u x : laidOut (objs st) Lay u x -> laidOut (objs written) Lay u x.
Proof. intros (v & Hv & Hu). destruct (written_on x v Hv) as (n & Hn & _ & Ek & _). exists n. by rewrite Ek. Qed.

Lemma written_target s' x : targetLaid st Lay s' x -> targetLaid written Lay s' x.
Proof.
  unfold targetLaid. pose proof (fun u => written_laid u x) as Hl. destruct (carrier s'); [intros H1 H2; by apply Hl, H1|]. intros (H1 & H2 & H3). split; [by apply Hl|done].
Qed.

Lemma store_sound : sound managers (writeBarrier a t w true written) Lay.
Proof.
  pose proof written_fixed as Hfx. pose proof written_housed as Hho. pose proof (sn_ready _ _ _ Hsn) as Hrd.
  destruct (ready_shaped _ _ Hrd) as [D1 D2 D3 D4 D5]. destruct (ready_under _ _ Hrd) as [C1 C2 C3 C4]. destruct (sn_tied _ _ _ Hsn) as [T1 T2].
  assert (Hslots : forall x n s' v, reachable st Lay x -> objs written !! x = Some n -> s' ∈ Lay x -> words n !! slotIndex s' = Some v -> v <> 0 ->
    (carrier s' = true -> v ∈ graphSpace st) -> reachable st Lay v).
  { intros x n s' v Hx Hn Hs' Hv Hv0 Hcv. destruct (written_word x n s' v Hn Hs' Hv) as [(-> & -> & ->)|(u & Hu & Hvu)]; [by apply Hw|by eapply C4]. }
  assert (Hlive : forall x, reachable st Lay x -> exists n u, objs written !! x = Some n /\ slotsOf (kind n) u = Lay x /\
    forall s', s' ∈ Lay x -> exists v, words n !! slotIndex s' = Some v /\ (v <> 0 -> targetLaid written Lay s' v)).
  { intros x Hx. destruct (D1 x Hx) as (u & tx & Hu & Htx & Hws). destruct (written_on x u Hu) as (n & Hn & _ & Ek & Hne & He). exists n, tx.
    rewrite Ek. split_and!; [done..|]. intros s' Hs'. destruct (Hws s' Hs') as (v & Hv & Htv).
    assert (exists v', words n !! slotIndex s' = Some v') as [v' Hv'].
    { destruct (decide (x = a)) as [->|Hxa]; [|exists v; by rewrite Hne]. rewrite He by done. apply lookup_lt_is_Some. rewrite length_insert. by eapply lookup_lt_Some. }
    exists v'. split; [done|]. intros Hv0. apply written_target. destruct (written_word x n s' v' Hn Hs' Hv') as [(-> & -> & ->)|(u' & Hu' & Hvu)]; [by apply Hw|].
    assert (u' = u) as -> by congruence. assert (v' = v) as -> by congruence. auto. }
  assert (Htied : tied written Lay (reachable st Lay)).
  { split; [|done]. intros x n s' v Hx Hn Hs' Hcs Hv Hv0. destruct (written_word x n s' v Hn Hs' Hv) as [(-> & -> & ->)|(u & Hu & Hvu)]; [congruence|by eapply T1]. }
  assert (Hquiet : forall x n s' v, reachable st Lay x -> quiet st x -> objs written !! x = Some n -> s' ∈ Lay x -> words n !! slotIndex s' = Some v -> v <> 0 ->
    (x = a -> young st w = false /\ w ∉ fresh st) ->
    if carrier s' then v ∈ graphSpace st -> v ∈ rootedIn st else young st v = false /\ v ∉ fresh st).
  { intros x n s' v Hx Hq Hn Hs' Hv Hv0 Hok. destruct (written_word x n s' v Hn Hs' Hv) as [(-> & -> & ->)|(u & Hu & Hvu)]; [rewrite Hc; by apply Hok|by eapply D5]. }
  assert (Hstay : (w <> 0 -> young st a = true \/ (young st w = false /\ w ∉ fresh st)) -> sound managers written Lay).
  { intros Hok. eapply (sound_closed _ _ _ (reachable st Lay)); [done|by split| |done..]. split; [done| | | |].
    - intros r Hr Hr0. destruct (D2 r Hr Hr0). split; [done|by apply written_laid].
    - intros c Hcc Hc0. by apply written_target, D3.
    - intros b tb Hb. destruct (D4 b tb Hb). split; [done|by apply written_laid].
    - intros x n s' v Hx Hq Hn Hs' Hv Hv0. eapply (Hquiet x n s' v Hx Hq Hn Hs' Hv Hv0). intros ->.
      destruct (decide (w = 0)) as [->|Hw0]; [|destruct (Hok Hw0) as [Hy|?]; [|done]; destruct Hq as [Hq _]; change (young st a = false) in Hq; congruence].
      split; [apply (rd_null _ _ Hrd)|]. intros Hf. destruct (rd_fresh _ _ Hrd 0 Hf) as (_ & u & Hu & _). destruct (rd_null _ _ Hrd). congruence. }
  destruct (decide (w = 0)) as [Hw0|Hw0].
  { assert (writeBarrier a t w true written = written) as ->; [|by apply Hstay]. unfold writeBarrier. rewrite (proj2 (Z.eqb_eq w 0)) by done.
    by rewrite orb_true_r. }
  destruct (writeBarrier_cases managers written a t w) as [(-> & Hy & Hpl)|(-> & Hok)]; [done|done|apply written_is; by eexists|done| | |by apply Hstay].
  { apply written_is. destruct (D1 w) as (u & _ & Hu & _); [by apply Hw|by eexists]. }
  eapply (sound_closed _ _ _ (reachable st Lay)).
  - destruct Hfx. by split.
  - split; [done|done| |done]. intros b [tb Hb]. cbn in Hb. apply lookup_insert_Some in Hb as [[<- _]|[_ Hb]]; [done|]. apply C3. by eexists.
  - split; [done| | | |].
    + intros r Hr Hr0. destruct (D2 r Hr Hr0). split; [done|by apply written_laid].
    + intros c Hcc Hc0. by apply written_target, D3.
    + intros b tb Hb. cbn in Hb. apply lookup_insert_Some in Hb as [[<- <-]|[_ Hb]].
      * split; [done|]. apply written_laid. by exists o.
      * destruct (D4 b tb Hb). split; [done|by apply written_laid].
    + intros x n s' v Hx (Q1 & Q2 & Q3 & Q4) Hn Hs' Hv Hv0. cbn in Q3. apply lookup_insert_None in Q3 as [Q3 Hxa].
      by apply (Hquiet x n s' v Hx (conj Q1 (conj Q2 (conj Q3 Q4))) Hn Hs' Hv Hv0).
  - done.
  - destruct Hho as [[S1 S2 S3 S4] H2 H3 H4 H5 H6 H7 H8 H9]. split; try done. intros b [tb Hb]. cbn in Hb. apply lookup_insert_Some in Hb as [[<- _]|[_ Hb]]; [done|]. apply H7. by eexists.
Qed.
End Stored.

(** ** The simulation *)

(** What the handles reach. *)
Inductive held (sp : Spec) : nat -> Prop :=
  | hd_handle h n t : handles sp !! h = Some (Some n, t) -> held sp n
  | hd_ref m node i n : held sp m -> nodes sp !! m = Some node -> nodeRefs node !! i = Some n -> held sp n.

(** The address of a name. *)
Definition addr (R : nat -> Z) (x : option nat) : Z := match x with Some n => R n | None => 0 end.

Record sim (sp : Spec) (managers : list GCGraphManager) st Lay (R : nat -> Z) : Prop := {
  sm_sound : sound managers st Lay;
  sm_typed : typed sp;
  sm_handles : Forall2 (fun c h => c = mkCell (addr R h.1) h.2 false) (cells st) (handles sp);
  sm_nodes n node : held sp n -> nodes sp !! n = Some node -> exists o, objs st !! R n = Some o /\ kind o = nodeKind node /\
    slotsOf (nodeKind node) (Some (nodeType node)) = Lay (R n) /\
    forall s, s ∈ Lay (R n) -> carrier s = false -> words o !! slotIndex s = Some (addr R (nodeRefs node !! slotIndex s));
  sm_apart n m : held sp n -> held sp m -> R n = R m -> n = m;
  sm_place n : held sp n -> R n <> 0 /\ R n ∉ graphSpace st;
}.

Lemma held_node sp n : typed sp -> held sp n -> exists node, nodes sp !! n = Some node.
Proof.
  intros Hty [h m t Hh|m node i n' Hm Hn Hx].
  - destruct (ty_handles _ Hty h m t Hh) as (_ & node & ? & _). by exists node.
  - destruct (ty_nodes _ Hty m node i n' Hn Hx) as (s & _ & _ & node' & ? & _). by exists node'.
Qed.

Section Sim.
Context (sp : Spec) (managers : list GCGraphManager) (st : GC Kind Ty E LO) (Lay : Z -> list (Slot Ty)) (R : nat -> Z).
Context (Hsim : sim sp managers st Lay R).

Lemma sim_handle h x t : handles sp !! h = Some (x, t) -> cells st !! h = Some (mkCell (addr R x) t false).
Proof. intros Hh. destruct (Forall2_lookup_r _ _ _ _ _ (sm_handles _ _ _ _ _ Hsim) Hh) as (c & Hc & ->). done. Qed.

Lemma sim_cell h n t : handles sp !! h = Some (Some n, t) -> mkCell (R n) t false ∈ cells st.
Proof. intros Hh. eapply list_elem_of_lookup_2. by apply (sim_handle h (Some n) t). Qed.

Lemma sim_node n node : held sp n -> nodes sp !! n = Some node -> exists o, objs st !! R n = Some o /\ kind o = nodeKind node /\
  slotsOf (nodeKind node) (Some (nodeType node)) = Lay (R n) /\
  forall s, s ∈ Lay (R n) -> carrier s = false -> words o !! slotIndex s = Some (addr R (nodeRefs node !! slotIndex s)).
Proof. apply (sm_nodes _ _ _ _ _ Hsim). Qed.

Lemma sim_reachable n : held sp n -> reachable st Lay (R n) /\ traced st Lay (R n).
Proof.
  induction 1 as [h n t Hh|m node i n Hm [IH1 IH2] Hn Hx].
  - assert (Hn : held sp n) by by eapply hd_handle. destruct (sm_place _ _ _ _ _ Hsim n Hn) as [Hn0 _]. apply sim_cell in Hh.
    split; [by apply (rc_cell st Lay _ Hh)|by apply (tr_cell st Lay _ Hh)].
  - assert (Hn' : held sp n) by by eapply hd_ref. destruct (sm_place _ _ _ _ _ Hsim n Hn') as [Hn0 _].
    destruct (ty_nodes _ (sm_typed _ _ _ _ _ Hsim) m node i n Hn Hx) as (s & (Hs & Hi & Hc) & _).
    destruct (sim_node m node Hm Hn) as (o & Ho & _ & El & Hw). rewrite El in Hs. specialize (Hw s Hs Hc). rewrite Hi, Hx in Hw.
    rewrite <- Hi in Hw. split; [eapply rc_slot|eapply tr_slot]; try done. congruence.
Qed.

(** A reference to what a handle reaches may be stored. *)
Lemma sim_target n t s : held sp n -> fits sp t n -> refType s = t -> carrier s = false ->
  reachable st Lay (R n) /\ targetLaid st Lay s (R n) /\ R n ∉ graphSpace st.
Proof.
  intros Hn (Hp & node & Hnode & He) <- Hc. destruct (sm_place _ _ _ _ _ Hsim n Hn) as [_ Hg]. split; [by apply sim_reachable|]. split; [|done].
  unfold targetLaid. rewrite Hc. split_and!; [|done..]. destruct (sim_node n node Hn Hnode) as (o & Ho & Ek & El & _). exists o. split; [done|].
  by rewrite Ek, He.
Qed.

Lemma sim_cellOk c : c ∈ cells st -> cellCarrier c = false /\ (cellRef c <> 0 -> reachable st Lay (cellRef c) /\ targetLaid st Lay (cellSlot c) (cellRef c)).
Proof.
  intros Hc. assert (Hcc : cellCarrier c = false).
  { apply list_elem_of_lookup in Hc as [h Hh]. destruct (Forall2_lookup_l _ _ _ _ _ (sm_handles _ _ _ _ _ Hsim) Hh) as (x & _ & ->). done. }
  split; [done|]. intros Hc0. eapply sound_handle; [apply Hsim|done..].
Qed.

(** The pacing, finalizers and marks do not matter. *)
Lemma sim_same st' : sound managers st' Lay -> objs st' = objs st -> cells st' = cells st -> graphSpace st' = graphSpace st -> sim sp managers st' Lay R.
Proof. intros Hsn Eo Ec Eg. destruct Hsim. split; try done; by rewrite ?Eo, ?Ec, ?Eg. Qed.

(** The program of names is the same whatever its scopes. *)
Lemma sim_scopes n : sim (mkSpec (nodes sp) (handles sp) (next sp) n) managers st Lay R.
Proof.
  assert (Hh : forall x, held (mkSpec (nodes sp) (handles sp) (next sp) n) x -> held sp x) by (induction 1; [by eapply hd_handle|by eapply hd_ref]).
  destruct Hsim as [S1 [S2 S3 S4] S5 S6 S7 S8]. split; auto. by split.
Qed.
End Sim.

(** A collection moves what the names stand for. *)
Lemma sim_carried sp managers st Lay R managers' st' Lay' f : sim sp managers st Lay R -> sound managers' st' Lay' -> carried st Lay f st' Lay' ->
  sim sp managers' st' Lay' (f ∘ R).
Proof.
  intros Hsim Hsn' Hca. destruct (ca_null _ _ _ _ _ Hca) as [Hf0 Hfn]. assert (Haddr : forall x, f (addr R x) = addr (f ∘ R) x) by by intros [n|].
  pose proof (fun n Hn => proj2 (sim_reachable _ _ _ _ _ Hsim n Hn)) as Htr. split; try done; try apply Hsim.
  - rewrite (ca_cells _ _ _ _ _ Hca). apply Forall2_fmap_l. eapply Forall2_impl; [apply Hsim|]. intros c h ->. cbn. by rewrite Haddr.
  - intros n node Hn Hnode. destruct (sim_node _ _ _ _ _ Hsim n node Hn Hnode) as (o & Ho & Ek & El & Hw).
    destruct (ca_kept _ _ _ _ _ Hca (R n) o (Htr n Hn) Ho) as (o' & Ho' & Ek' & Hw'). exists o'. cbn. rewrite (ca_layout _ _ _ _ _ Hca) by by apply Htr.
    split_and!; [done|congruence|done|]. intros s Hs Hc. rewrite <- Haddr. apply Hw'; auto.
  - intros n m Hn Hm He. apply (sm_apart _ _ _ _ _ Hsim); [done..|]. eapply (ca_apart _ _ _ _ _ Hca); auto.
  - intros n Hn. split; [by apply Hfn, Htr|]. intros Hg. apply (ca_graphs _ _ _ _ _ Hca) in Hg; [|by apply Htr].
    by apply (sm_place _ _ _ _ _ Hsim n Hn).
Qed.

(** ** Steps *)

Definition simulated (sp : Spec) (why : Prop) (r : Result) : Prop :=
  match r with Done managers st => exists Lay R, sim sp managers st Lay R | Thrown _ => why end.

Lemma fill_refs R cs hs refs : Forall2 (fun c h => c = mkCell (addr R h.1) h.2 false) cs hs -> forall m m' ws, fillRefs hs refs m = Some m' ->
  exists ws', fill cs refs ws = Some ws' /\ forall j, ws !! j = Some (addr R (m !! j)) -> ws' !! j = Some (addr R (m' !! j)).
Proof.
  intros Hcs. induction refs as [|[i h] refs IH]; intros m m' ws Hm; cbn [fillRefs fill] in *; [exists ws; by simplify_eq|].
  destruct (hs !! h) as [[x t]|] eqn:Hh; [|done]. cbn [mbind option_bind] in Hm. destruct (Forall2_lookup_r _ _ _ _ _ Hcs Hh) as (c & -> & ->).
  cbn [mbind option_bind]. destruct (IH _ _ (<[i := addr R x]> ws) Hm) as (ws' & Ew & Hws'). exists ws'. split; [done|]. intros j Hj.
  apply Hws'. rewrite lookup_setRef. cbn. case_decide as Hij; [subst; apply list_lookup_insert_eq; by eapply lookup_lt_Some|by rewrite list_lookup_insert_ne].
Qed.

Lemma addr_update R n a x : (forall m, x = Some m -> m <> n) -> addr (fun m => if decide (m = n) then a else R m) x = addr R x.
Proof. destruct x as [m|]; [|done]. intros Hm. cbn. rewrite decide_False by by apply Hm. done. Qed.

Section Steps.
Context (sp : Spec) (managers : list GCGraphManager) (st : GC Kind Ty E LO) (Lay : Z -> list (Slot Ty)) (R : nat -> Z).
Context (Hsim : sim sp managers st Lay R) (why : Prop).

(** The objects that the handles reach after an allocation. *)
Lemma held_new k t refs m sp' : fillRefs (handles sp) refs ∅ = Some m ->
  sp' = mkSpec (<[next sp := mkNode k t m]> (nodes sp)) (handles sp ++ [(Some (next sp), Some t)]) (S (next sp)) (scopes sp) ->
  forall n, held sp' n -> n = next sp \/ held sp n.
Proof.
  intros Hm ->. induction 1 as [h n u Hh|x node i n Hx IH Hn Hi]; cbn in *.
  - apply lookup_app_Some in Hh as [Hh|[_ Hh]]; [right; by eapply hd_handle|]. apply list_lookup_singleton_Some in Hh as [_ [= <- _]]. by left.
  - right. apply lookup_insert_Some in Hn as [[<- <-]|[Hne Hn]].
    + cbn in Hi. destruct (fillRefs_lookup _ _ _ _ _ _ Hm Hi) as [?|(h & u & _ & Hh)]; [done|]. by eapply hd_handle.
    + destruct IH as [->|IH]; [done|]. by eapply hd_ref.
Qed.

Lemma step_new k t data refs m a h ws st1 :
  let sp' := mkSpec (<[next sp := mkNode k t m]> (nodes sp)) (handles sp ++ [(Some (next sp), Some t)]) (S (next sp)) (scopes sp) in
  typed sp' -> isPreciseGCType (Some t) = true -> (forall s, s ∈ slotsOf k (Some t) -> data !! slotIndex s = Some 0) ->
  (forall i h, (i, h) ∈ refs -> exists s, slotAt k (Some t) i s /\ forall n u, handles sp !! h = Some (Some n, u) -> fits sp (refType s) n) ->
  fillRefs (handles sp) refs ∅ = Some m -> fill (cells st) refs data = Some ws -> placedIn st a h k ws st1 ->
  simulated sp' why (Done managers (addCell (mkCell a (Some t) false) st1)).
Proof.
  intros sp' Hty' Hp Hdata Hrefs Hm Hfill Hpl. pose proof (sm_typed _ _ _ _ _ Hsim) as Hty. pose proof (sm_sound _ _ _ _ _ Hsim) as Hsn.
  destruct (fill_refs R _ _ refs (sm_handles _ _ _ _ _ Hsim) _ _ data Hm) as (ws' & Ew & Hws). assert (ws' = ws) as -> by congruence. clear Ew.
  assert (Hword : forall s, s ∈ slotsOf k (Some t) -> ws !! slotIndex s = Some (addr R (m !! slotIndex s))) by (intros s Hs; by apply Hws, Hdata).
  set (R' := fun n => if decide (n = next sp) then a else R n).
  assert (Hold : forall n, held sp n -> n <> next sp).
  { intros n Hn ->. destruct (held_node _ _ Hty Hn) as [node Hnode]. pose proof (ty_next _ Hty (next sp) ltac:(by eexists)). lia. }
  assert (HR : forall n, held sp n -> R' n = R n) by (intros n Hn; unfold R'; rewrite decide_False; auto).
  assert (HRn : R' (next sp) = a) by (unfold R'; by rewrite decide_True).
  assert (Haddr : forall x, (forall n, x = Some n -> held sp n) -> addr R' x = addr R x) by (intros x Hx; apply addr_update; eauto).
  assert (Hmheld : forall i n, m !! i = Some n -> held sp n).
  { intros i n Hi. destruct (fillRefs_lookup _ _ _ _ _ _ Hm Hi) as [?|(h' & u & _ & Hh)]; [done|]. by eapply hd_handle. }
  assert (Hne : forall n, held sp n -> R n <> a).
  { intros n Hn He. destruct (held_node _ _ Hty Hn) as [node Hnode]. destruct (sim_node _ _ _ _ _ Hsim n node Hn Hnode) as (o & Ho & _).
    destruct (pl_new _ _ _ _ _ _ Hpl) as [Hno _]. congruence. }
  assert (Hg : graphSpace st1 = graphSpace st) by apply (pl_rest _ _ _ _ _ _ Hpl).
  exists (layoutWith a (slotsOf k (Some t)) Lay), R'. split.
  - apply (new_sound managers st st1 a h k t ws Lay Hsn Hpl Hp). intros s Hs. exists (addr R (m !! slotIndex s)). split; [by apply Hword|]. intros Hw0.
    destruct (m !! slotIndex s) as [n|] eqn:Hi; [|done]. cbn in *. destruct (fillRefs_lookup _ _ _ _ _ _ Hm Hi) as [?|(h' & u & Hin & Hh)]; [done|].
    destruct (Hrefs _ _ Hin) as (s' & (Hs' & Hi' & Hc') & Hfits). rewrite (refSlot_unique k (Some t) s s') by (done || congruence).
    split; [done|]. eapply sim_target; [done|by eapply Hmheld|by eapply Hfits|done..].
  - done.
  - cbn. apply Forall2_app; [|constructor; [by cbn; rewrite HRn|constructor]].
    destruct (pl_rest _ _ _ _ _ _ Hpl) as (_ & _ & _ & _ & _ & -> & _). pose proof (sm_handles _ _ _ _ _ Hsim) as Hall.
    apply Forall2_same_length_lookup. split; [by eapply Forall2_length|]. intros i c [x u] Hc Hx.
    destruct (Forall2_lookup_l _ _ _ _ _ Hall Hc) as ([x' u'] & Hx' & ->). assert ((x', u') = (x, u)) as [= -> ->] by congruence. cbn.
    rewrite Haddr; [done|]. intros n ->. by eapply hd_handle.
  - intros n node Hn Hnode. destruct (held_new k t refs m sp' Hm eq_refl n Hn) as [->|Hn'].
    + cbn in Hnode. rewrite lookup_insert_eq in Hnode. injection Hnode as <-. rewrite HRn. exists (mkObj h k ws). cbn. unfold layoutWith. rewrite decide_True by done.
      split; [apply (placed_self _ _ _ _ _ _ Hpl)|]. split_and!; [done..|]. intros s Hs Hc. rewrite Haddr by (intros n; apply Hmheld). by apply Hword.
    + cbn in Hnode. rewrite lookup_insert_ne in Hnode by by apply not_eq_sym, Hold. destruct (sim_node _ _ _ _ _ Hsim n node Hn' Hnode) as (o & Ho & Ek & El & Hw).
      rewrite HR by done. exists o. cbn. unfold layoutWith. rewrite decide_False by by apply Hne. split; [by apply (placed_old _ _ _ _ _ _ Hpl)|]. split_and!; [done..|].
      intros s Hs Hc. rewrite Haddr; [by apply Hw|]. intros x Hx. by eapply hd_ref.
  - intros n n' [->|Hn]%(held_new k t refs m sp' Hm eq_refl) [->|Hn']%(held_new k t refs m sp' Hm eq_refl); rewrite ?HRn, ?HR by done; [done| | |].
    + intros He. by destruct (Hne n').
    + intros He. by destruct (Hne n).
    + by apply (sm_apart _ _ _ _ _ Hsim).
  - intros n [->|Hn]%(held_new k t refs m sp' Hm eq_refl); cbn; rewrite Hg.
    + rewrite HRn. destruct (pl_new _ _ _ _ _ _ Hpl) as [Hno ?]. split; [done|]. intros Hga.
      destruct (rd_graph _ _ (sn_ready _ _ _ Hsn) a Hga) as (_ & _ & [? ?]). congruence.
    + rewrite HR by done. by apply (sm_place _ _ _ _ _ Hsim).
Qed.

(** Only the handles change. *)
Lemma step_handles cs hs : typed (mkSpec (nodes sp) hs (next sp) (scopes sp)) -> Forall2 (fun c h => c = mkCell (addr R h.1) h.2 false) cs hs ->
  (forall h n t, hs !! h = Some (Some n, t) -> held sp n) ->
  (forall c, c ∈ cs -> cellCarrier c = false /\ (cellRef c <> 0 -> reachable st Lay (cellRef c) /\ targetLaid st Lay (cellSlot c) (cellRef c))) ->
  simulated (mkSpec (nodes sp) hs (next sp) (scopes sp)) why (Done managers (setCells cs st)).
Proof.
  intros Hty Hall Hhs Hcs. assert (Hh : forall n, held (mkSpec (nodes sp) hs (next sp) (scopes sp)) n -> held sp n) by (induction 1; [by eapply Hhs|by eapply hd_ref]).
  exists Lay, R. destruct Hsim as [S1 S2 S3 S4 S5 S6]. split; try done; auto. by apply sound_cells.
Qed.

Lemma step_load owner n t node i s o : handles sp !! owner = Some (Some n, t) -> nodes sp !! n = Some node -> slotAt (nodeKind node) t i s ->
  typed (mkSpec (nodes sp) (handles sp ++ [(nodeRefs node !! i, refType s)]) (next sp) (scopes sp)) -> objs st !! R n = Some o ->
  exists w, words o !! i = Some w /\
    simulated (mkSpec (nodes sp) (handles sp ++ [(nodeRefs node !! i, refType s)]) (next sp) (scopes sp)) why (Done managers (addCell (mkCell w (refType s) false) st)).
Proof.
  intros Hh Hnode Hsl Hty' Ho. pose proof (sm_typed _ _ _ _ _ Hsim) as Hty. assert (Hn : held sp n) by by eapply hd_handle.
  destruct (slotAt_type sp n t node i s (ty_handles _ Hty _ _ _ Hh) Hnode Hsl) as (Hs & Hi & Hc).
  destruct (sim_node _ _ _ _ _ Hsim n node Hn Hnode) as (o' & Ho' & _ & El & Hw). assert (o' = o) as -> by congruence. rewrite El in Hs.
  specialize (Hw s Hs Hc). rewrite Hi in Hw. exists (addr R (nodeRefs node !! i)). split; [done|].
  assert (Href : forall m, nodeRefs node !! i = Some m -> held sp m) by (intros m Hm; by eapply hd_ref).
  apply step_handles; [done|apply Forall2_app; [apply Hsim|by constructor]| |].
  - intros h m u Hm. apply lookup_app_Some in Hm as [Hm|[_ Hm]]; [by eapply hd_handle|]. apply list_lookup_singleton_Some in Hm as [_ [= Hm _]]. auto.
  - intros c [Hcell| ->%list_elem_of_singleton]%elem_of_app; [by eapply sim_cellOk|]. split; [done|]. cbn. intros Hw0.
    destruct (nodeRefs node !! i) as [m|] eqn:Hm; [|done]. destruct (ty_nodes _ Hty n node i m Hnode Hm) as (s' & Hs' & Hfits).
    assert (Ess : s' = s). { eapply slotAt_unique; [exact Hs'|]. split; [by rewrite El|done]. } subst s'.
    destruct (sim_target _ _ _ _ _ Hsim m (refType s) (cellSlot (mkCell (R m) (refType s) false))) as (? & ? & _); auto.
Qed.

Lemma step_forget h x t : handles sp !! h = Some (x, t) -> typed (mkSpec (nodes sp) (<[h := (None, t)]> (handles sp)) (next sp) (scopes sp)) ->
  simulated (mkSpec (nodes sp) (<[h := (None, t)]> (handles sp)) (next sp) (scopes sp)) why (Done managers (setCells (<[h := mkCell 0 t false]> (cells st)) st)).
Proof.
  intros Hh Hty. apply step_handles; [done|apply Forall2_insert; [apply Hsim|done]| |].
  - intros h' n u Hn. apply list_lookup_insert_Some in Hn as [(_ & [=] & _)|[_ Hn]]. by eapply hd_handle.
  - intros c Hc. apply list_elem_of_lookup in Hc as [j Hj]. apply list_lookup_insert_Some in Hj as [(_ & <- & _)|[_ Hj]]; [done|].
    eapply sim_cellOk; [done|]. by eapply list_elem_of_lookup_2.
Qed.

Lemma step_store owner value n t node i s x u o :
  let sp' := mkSpec (<[n := mkNode (nodeKind node) (nodeType node) (setRef i x (nodeRefs node))]> (nodes sp)) (handles sp) (next sp) (scopes sp) in
  handles sp !! owner = Some (Some n, t) -> nodes sp !! n = Some node -> slotAt (nodeKind node) t i s ->
  handles sp !! value = Some (x, u) -> (forall m, x = Some m -> fits sp (refType s) m) -> typed sp' -> objs st !! R n = Some o ->
  simulated sp' why (Done managers (writeBarrier (R n) t (addr R x) true (setObjs (<[R n := mkObj (hdr o) (kind o) (<[i := addr R x]> (words o))]> (objs st)) st))).
Proof.
  intros sp' Hh Hnode Hsl Hv Hx Hty' Ho. pose proof (sm_typed _ _ _ _ _ Hsim) as Hty. assert (Hn : held sp n) by by eapply hd_handle.
  pose proof (ty_handles _ Hty _ _ _ Hh) as Hfits. destruct (slotAt_type sp n t node i s Hfits Hnode Hsl) as (Hs & Hi & Hc).
  destruct (sim_node _ _ _ _ _ Hsim n node Hn Hnode) as (o' & Ho' & Ek & El & Hw). assert (o' = o) as -> by congruence. rewrite El in Hs.
  destruct (sm_place _ _ _ _ _ Hsim n Hn) as [Hn0 Hng]. destruct Hfits as (_ & node' & Hnode' & Et). assert (node' = node) as -> by congruence.
  assert (Hxh : forall m, x = Some m -> held sp m) by (intros m ->; by eapply hd_handle).
  set (st1 := setObjs _ _). assert (Hsame : objs (writeBarrier (R n) t (addr R x) true st1) = objs st1 /\ cells (writeBarrier (R n) t (addr R x) true st1) = cells st /\
    graphSpace (writeBarrier (R n) t (addr R x) true st1) = graphSpace st).
  { unfold writeBarrier. repeat case_match; done. }
  destruct Hsame as (Eo & Ecs & Eg).
  assert (Hheld : forall m, held sp' m -> held sp m).
  { induction 1 as [h m v Hm|m node' j m' Hm IH Hm' Hj]; cbn in *; [by eapply hd_handle|]. apply lookup_insert_Some in Hm' as [[<- <-]|[_ Hm']]; [|by eapply hd_ref].
    cbn in Hj. rewrite lookup_setRef in Hj. case_decide; [auto|by eapply hd_ref]. }
  exists Lay, R. split.
  - eapply (store_sound _ _ _ (sm_sound _ _ _ _ _ Hsim) (R n) o Ho i (addr R x) t s); try done.
    + by apply (sim_reachable _ _ _ _ _ Hsim).
    + rewrite Ek. by rewrite Et, El.
    + destruct x as [m|]; [|done]. intros _. destruct (sim_target _ _ _ _ _ Hsim m (refType s) s) as (? & ? & _); auto.
  - done.
  - rewrite Ecs. apply Hsim.
  - intros m node' Hm Hnode2. rewrite Eo. cbn in Hnode2 |- *. apply lookup_insert_Some in Hnode2 as [[<- <-]|[Hne Hnode2]].
    + rewrite lookup_insert_eq. eexists. split; [done|]. cbn. split_and!; [done..|]. intros s' Hs' Hc'. rewrite lookup_setRef. case_decide as Hij.
      * subst i. rewrite Hij. apply list_lookup_insert_eq. eapply lookup_lt_Some. by apply Hw.
      * rewrite list_lookup_insert_ne by done. by apply Hw.
    + rewrite lookup_insert_ne by (intros He; apply Hne; eapply (sm_apart _ _ _ _ _ Hsim); auto). apply (sim_node _ _ _ _ _ Hsim); auto.
  - intros m m' Hm Hm'. apply (sm_apart _ _ _ _ _ Hsim); auto.
  - intros m Hm. rewrite Eg. apply (sm_place _ _ _ _ _ Hsim); auto.
Qed.
End Steps.

(** ** Refusals *)

Lemma checkHeapLimit_refused n st e : checkHeapLimit n st = inr e -> heapLimitBytes_ (pacing st) <> 0 /\ heapLimitBytes_ (pacing st) < oldBytesHeld st + n.
Proof.
  unfold checkHeapLimit. destruct (Z.eqb_spec (heapLimitBytes_ (pacing st)) 0) as [|Hl]; [done|].
  destruct (Z.leb_spec (oldBytesHeld st + n) (heapLimitBytes_ (pacing st))); [done|]. done.
Qed.

Lemma allocElder_refused n k ws st e : allocElder n k ws st = inr e -> lacking n st.
Proof.
  unfold allocElder. destruct (checkHeapLimit n st) as [st0|] eqn:Ec; [|intros _; left; by eapply checkHeapLimit_refused].
  apply checkHeapLimit_same in Ec as (p & -> & _). cbn [elder setPacing]. destruct (oalloc (elder st) n) as [[[a total] e']|] eqn:Eo; [done|].
  intros _. right; by left.
Qed.

Lemma allocUnlocked_refused n k ws st e : allocUnlocked n k ws st = inr e -> lacking n st.
Proof.
  unfold allocUnlocked. destruct (_ <? n).
  - unfold allocLarge. destruct (checkHeapLimit n st) as [st0|] eqn:Ec; [|intros _; left; by eapply checkHeapLimit_refused].
    apply checkHeapLimit_same in Ec as (p & -> & _). cbn [large setPacing]. destruct (oalloc (large st) n) as [[[a total] l']|] eqn:Eo; [done|].
    intros _. right; by right.
  - destruct (negb _); [apply allocElder_refused|]. destruct (bumpAlloc (birth st) n) as [[a b]|]; [done|].
    destruct (minorPending _); [apply allocElder_refused|]. intros Hl%allocElder_refused. exact Hl.
Qed.

Lemma safepoint_refused run managers st managers' st' e : safepoint run managers st = Some (managers', st', Some e) ->
  heapLimitBytes_ (pacing st') <> 0 /\ heapLimitBytes_ (pacing st') < oldBytesHeld st'.
Proof.
  unfold safepoint. intros [_ Hs]%guarded_Some. destruct (negb _); [done|].
  destruct (collectPending managers st) as [[r [[m st1] [x|]]]|] eqn:Ec; cbn in Hs; [|done|done]. injection Hs as -> -> ->.
  unfold collectPending in Ec. destruct (collectAtSafepoint _ _ _) as [[[m2 st2] x2]|] eqn:Ek; [|done]. cbn [mbind option_bind] in Ec.
  injection Ec as <- -> <- ->. unfold collectAtSafepoint in Ek. destruct (pendingSafepointCollection_ (pacing st)) eqn:Ep; [done|..];
    apply guarded_Some in Ek as [_ Ek];
    match type of Ek with context [mbind _ ?x] => destruct x as [[m3 st3]|]; [|done] end; cbn [mbind option_bind] in Ek;
    match type of Ek with context [afterCollection ?k ?s] => destruct (afterCollection_pacing k s) as (p & Ea & Hl & _); destruct (afterCollection k s) as [st4 e4] end;
    cbn in Ea, Hl; subst st4; injection Ek as <- <- ->; by apply Hl.
Qed.

Section Simulation.
Context (Hapart : forall (e : E) (l : LO), ook e -> ook l ->
  (forall p, p ∈ oiterate e -> oavoids l p) /\ (forall p, p ∈ oiterate l -> oavoids e p)).
Context (Hreleases : forall l p, settingsOf (releases l p) = settingsOf p).

Lemma exec_simulates sp c sp' managers st Lay R : sim sp managers st Lay R -> specStep sp c sp' -> (c = Safepoint -> roomy (atSafepoint st)) ->
  exists r, exec c managers st = Some r /\ simulated sp' (refusedAt c managers st) r.
Proof.
  intros Hsim Hs Hroom. pose proof (sm_typed _ _ _ _ _ Hsim) as Hty. pose proof (specStep_typed sp c sp' Hty Hs) as Hty'.
  pose proof (sm_sound _ _ _ _ _ Hsim) as Hsn.
  destruct Hs as [size k t data refs m Hsz Hlen Hp Hd Hr Hm|owner i n t node s Ho Hn Hsl|owner i value n t node s x u Ho Hn Hsl Hv Hx|h x t Hh|h n t Hh|h b x t Hh| | |n Hsc|];
    cbn [exec].
  - destruct (fill_refs R _ _ refs (sm_handles _ _ _ _ _ Hsim) _ _ data Hm) as (ws & Ew & _). rewrite Ew. cbn [mbind option_bind].
    destruct (allocUnlocked size k ws st) as [[a st1]|e] eqn:Ea; (eexists; split; [done|]); [|by eapply allocUnlocked_refused].
    destruct (allocUnlocked_placed Hapart managers st size k ws a st1) as [h Hpl]; [by eapply ready_fixed, Hsn|apply Hsn|done..|].
    by eapply step_new.
  - rewrite (sim_handle _ _ _ _ _ Hsim _ _ _ Ho). cbn. assert (Hheld : held sp n) by by eapply hd_handle.
    destruct (sim_node _ _ _ _ _ Hsim n node Hheld Hn) as (o & Eo & Ek & _). rewrite Eo. cbn. rewrite Ek, (findSlot_at _ _ _ _ Hsl). cbn.
    destruct (step_load sp managers st Lay R Hsim (refusedAt (Load owner i) managers st) owner n t node i s o) as (w & -> & ?); [done..|]. cbn. by eexists.
  - rewrite (sim_handle _ _ _ _ _ Hsim _ _ _ Ho). cbn. assert (Hheld : held sp n) by by eapply hd_handle.
    destruct (sim_node _ _ _ _ _ Hsim n node Hheld Hn) as (o & Eo & Ek & _). rewrite Eo. cbn.
    assert (findSlot (kind o) t i = Some s) as -> by (rewrite Ek; by apply findSlot_at). cbn. rewrite (sim_handle _ _ _ _ _ Hsim _ _ _ Hv). cbn. eexists. split; [done|]. by eapply step_store.
  - rewrite (sim_handle _ _ _ _ _ Hsim _ _ _ Hh). cbn. eexists. split; [done|]. by eapply step_forget.
  - rewrite (sim_handle _ _ _ _ _ Hsim _ _ _ Hh). cbn. eexists. split; [done|]. exists Lay, R. eapply sim_same; [done|by apply sound_finalizable|..];
      unfold noteFinalizable; by destruct (_ && _).
  - rewrite (sim_handle _ _ _ _ _ Hsim _ _ _ Hh). cbn. eexists. split; [done|]. exists Lay, R. eapply sim_same; [done|by apply sound_blockHeld|..];
      unfold noteBlockHeld; repeat case_match; done.
  - eexists. split; [done|]. exists Lay, R. eapply sim_same; [done|by apply sound_pacing|done..].
  - eexists. split; [done|]. exists Lay, R. eapply sim_same; [by apply sim_scopes|by apply sound_pacing|done..].
  - eexists. split; [done|]. exists Lay, R. eapply sim_same; [by apply sim_scopes|by apply sound_pacing|done..].
  - destruct (safepoint_sound Hapart releases managers st Lay Hreleases Hsn (Hroom eq_refl)) as (managers' & st' & e & f & Lay' & Es & Hsn' & Hca).
    rewrite Es. cbn. eexists. split; [done|]. destruct e as [e|]; [exists managers', st', e; split; [done|]; by eapply safepoint_refused|]. exists Lay', (f ∘ R). by eapply sim_carried.
Qed.

(** A program on the heap of the collector is the program on the heap of names: it gets stuck
    nowhere, and where no memory is refused, its handles stand for the objects of the same names. *)
Lemma run_simulates cmds : forall sp sp' managers st Lay R, sim sp managers st Lay R -> specRun sp cmds sp' -> supplied cmds managers st ->
  exists r, run cmds managers st = Some r /\ simulated sp' (refused cmds managers st) r.
Proof.
  induction cmds as [|c cmds IH]; intros sp sp' managers st Lay R Hsim Hrun Hsup; inversion Hrun as [|? ? sp1 ? ? Hstep Hrest]; subst; cbn [run].
  - eexists. split; [done|]. by exists Lay, R.
  - cbn in Hsup. destruct Hsup as [Hroom Hsup]. destruct (exec_simulates sp c sp1 managers st Lay R) as (r & Er & Hr); [done..|]. rewrite Er. cbn [mbind option_bind].
    destruct r as [managers' st'|e]; [|eexists; split; [done|]; by left].
    destruct Hr as (Lay' & R' & Hsim'). destruct (IH sp1 sp' managers' st' Lay' R') as (r & Err & Hr); [done..|by apply Hsup|].
    exists r. split; [done|]. destruct r; [done|]. right. by exists managers', st'.
Qed.
End Simulation.
End Program.
