(* ===== verification/MemoryProps.v ===== *)
(** * Properties of memory management

    What the allocators promise: the free-list allocator of one arena, the space that grows by
    arenas, and the bump-pointer allocator under the protocol of its threads. *)

From stdpp Require Import gmap.
From S2P Require Import Prelude Growable GrowableOps BumpPtr BumpThreads ObjHeader FreeList FreeListInv FreeListOps FreeListBulk FreeListHistory.
#[local] Open Scope Z_scope.

(** ** Concrete memories *)

Fixpoint wordsAt (a : Z) (ws : list Z) (m : Mem) : Mem :=
  match ws with [] => m | w :: ws => <[a := w]> (wordsAt (a + 8) ws m) end.

Lemma backed_words a ws m : a mod 8 = 0 -> backed (wordsAt a ws m) a (a + 8 * Z.of_nat (length ws)).
Proof.
  revert a. induction ws as [|w ws IH]; intros a Ha x Hx Hx8; cbn [wordsAt length] in *; [lia|].
  destruct (decide (x = a)) as [->|Hne]; [rewrite lookup_insert_eq; by eexists|].
  rewrite lookup_insert_ne by done. apply IH; [|pose proof (Z.div_mod x 8); pose proof (Z.div_mod a 8); lia|done].
  rewrite Z.add_mod, Ha by done. done.
Qed.

Lemma words_outside a ws m : outside a (a + 8 * Z.of_nat (length ws)) m (wordsAt a ws m).
Proof.
  revert a. induction ws as [|w ws IH]; intros a x Hx; cbn [wordsAt length] in *; [done|].
  rewrite lookup_insert_ne by lia. apply IH. lia.
Qed.

(** An arena of fourteen words with two free blocks, at 80 and at 120. *)
Definition smallArena : FreeListAllocator := mkFreeList 64 176 80 ∅ true.
Definition smallWords : Mem :=
  wordsAt 64 [ObjectHeader 16; 0; 16; 120; ObjectHeader 24; 0; 0; 40; 0; 0; 0; 0; ObjectHeader 16; 0] ∅.
Definition smallBlocks : list Block := [Used 16; Free 16; Used 24; Free 40; Used 16].

Ltac solve_seg := repeat (split || eexists || (vm_compute; congruence)).

Lemma small_tiled : tiled smallArena smallWords smallBlocks.
Proof.
  split; try done.
  - split; [done|]. split; [done|]. split; [by eexists|]. split_and!; try done. eexists. split; [reflexivity|].
    split; [done|]. split; [done|]. split; [by eexists|]. split_and!; try done. eexists. split; [reflexivity|].
    split; [done|]. split; [done|]. split; [by eexists|]. done.
  - by apply (backed_words 64).
Qed.

Lemma small_tabled : tabled smallArena smallBlocks.
Proof. done. Qed.

(** ** One arena *)

(** [FreeListAllocator::alloc] is first fit: it takes the first free block that is large enough
    for header and payload, rounded up to words, splits it when 16 bytes or more are left, returns
    the payload, and writes nowhere else: other blocks, and everything outside of the arena, stay
    as they were. When no free block is large enough it returns null and changes nothing. *)
Theorem alloc_first_fit fa m L n : tiled fa m L -> 0 <= n < 2 ^ 64 - 15 ->
  match allocBlocks (blockBytes n) L with
  | None => alloc fa m n = Some (0, fa, m)
  | Some (off, L') => exists fa' m', alloc fa m n = Some (start_ fa + off + kHeaderBytes, fa', m') /\
      allocated fa m L fa' m' L'
  end.
Proof. apply alloc_spec. Qed.

Lemma alloc_first_fit_witness : allocBlocks (blockBytes 20) smallBlocks = Some (56, [Used 16; Free 16; Used 24; Used 40; Used 16]) /\
  exists fa m, alloc smallArena smallWords 20 = Some (128, fa, m) /\
    allocated smallArena smallWords smallBlocks fa m [Used 16; Free 16; Used 24; Used 40; Used 16].
Proof. split; [reflexivity|]. exact (alloc_first_fit smallArena smallWords smallBlocks 20 small_tiled ltac:(lia)). Defined.

(** C28. [freeBulk] of any set of used blocks, given in any order, returns, and leaves the arena as
    the same sequence of blocks with those made free and neighbouring free blocks made one; the
    words of the blocks that stay in use, and everything outside of the arena, do not change. *)
Theorem freeBulk_coalesces fa m L bs : tiled fa m L -> tabled fa L -> NoDup bs -> (forall b, b ∈ bs -> freeable fa L b) ->
  exists fa' m', freeBulk fa m bs = Some (fa', m') /\ freeing fa m bs L fa' m'.
Proof. apply freeBulk_spec. Qed.

Lemma freeBulk_coalesces_witness : freed [160; 96] 64 smallBlocks = [Used 16; Free 96] /\
  exists fa m, freeBulk smallArena smallWords [160; 96] = Some (fa, m) /\ freeing smallArena smallWords [160; 96] smallBlocks fa m.
Proof.
  split; [vm_compute; reflexivity|]. apply (freeBulk_coalesces smallArena smallWords smallBlocks [160; 96] small_tiled small_tabled).
  - repeat constructor; rewrite ?list_elem_of_singleton; [done|apply not_elem_of_nil].
  - intros b Hb. assert (b = 160 \/ b = 96) as [-> | ->] by set_solver.
    + exists 16. split; [vm_compute; set_solver|done].
    + exists 24. split; [vm_compute; set_solver|done].
Defined.

(** C29. [validate] of an arena whose words can all be read says yes if and only if the arena is a
    sequence of blocks: used ones with their sizes in their headers, free ones of 16 bytes or more
    linked in address order, no two free blocks neighbours. The words of a block on the free list are
    not to claim a size that reaches over the end of the 64-bit addresses: the sums of [validate]
    wrap around there. *)
Theorem validate_iff_tiled fa m : end_ fa <= 2 ^ 63 -> 0 < start_ fa -> start_ fa mod 8 = 0 -> start_ fa <= end_ fa < start_ fa + 2 ^ 48 ->
  backed m (start_ fa) (end_ fa) -> (forall a n, listed fa m a -> blockSize m a = Some n -> a + n < 2 ^ 64) ->
  validate fa m = Some true <-> exists L, tiled fa m L.
Proof. apply arena_validate_exact. Qed.

Lemma validate_iff_tiled_witness : exists L, tiled smallArena smallWords L.
Proof.
  apply (validate_iff_tiled smallArena smallWords); [done..|by apply (backed_words 64)| |reflexivity].
  intros a n Hl. assert (Ha : a = 80 \/ a = 120).
  { induction Hl as [|a b _ IH Hb Hne]; [by left|]. destruct IH as [-> | ->]; vm_compute in Hb; simplify_eq; by right. }
  destruct Ha as [-> | ->]; intros Hn; vm_compute in Hn; by simplify_eq.
Defined.

(** Without that [validate] says yes to what is no sequence of blocks: the size of the free block at
    80 leads the scan back to 72, where the word inside of the first block passes for the header of one
    that reaches the end. *)
Definition wrappedArena : FreeListAllocator := mkFreeList 64 112 80 ∅ true.
Definition wrappedWords : Mem := wordsAt 64 [ObjectHeader 16; ObjectHeader 40; 2 ^ 64 - 8; 0; 0; 0] ∅.

Example validate_wraps : validate wrappedArena wrappedWords = Some true /\ ~ exists L, tiled wrappedArena wrappedWords L.
Proof.
  split; [by vm_compute|]. intros (L & [_ He Hsm Hs _ _]). pose proof (seg_nonneg _ _ _ _ _ Hs). cbn [start_ end_ freeList_ wrappedArena] in *.
  destruct L as [|[n|n] L]; cbn [seg] in Hs; [done|destruct Hs; lia|]. destruct Hs as (Hn & _ & (h & Hh & Hsz) & Hs). vm_compute in Hh. injection Hh as <-.
  vm_compute in Hsz. injection Hsz as <-. rewrite len_cons in He. pose proof (seg_nonneg _ _ _ _ _ Hs). cbn [blen] in *.
  destruct L as [|[n|n] L]; cbn [seg] in Hs; [lia| |].
  - destruct Hs as (_ & _ & _ & Hw & next & _ & Hs). vm_compute in Hw. injection Hw as <-. pose proof (seg_nonneg _ _ _ _ _ Hs).
    rewrite len_cons in He. cbn [blen] in He. lia.
  - destruct Hs as (_ & _ & (h & Hh & Hsz) & _). vm_compute in Hh. injection Hh as <-. by vm_compute in Hsz.
Qed.

(** C30. Along every history of a client that allocates, writes into its blocks and into the marks of
    their headers, and releases them singly or in bulk: the blocks in its hands lie apart from each
    other inside of the arena, [validate] says yes, every further allocation and every release of
    blocks it holds returns, and when it holds nothing the arena is one free block again. The arena is
    at an address of a program. *)
Theorem histories_served capacity start fromHeaders m0 fa m live :
  0 < start <= 2 ^ 62 -> start mod 8 = 0 -> 16 <= capacity < 2 ^ 48 - 8 -> backed m0 start (start + (capacity + 7) / 8 * 8) ->
  history capacity start fromHeaders m0 fa m live ->
  validate fa m = Some true /\
  (forall p n, live !! p = Some n -> start <= p - 8 /\ p - 8 + n <= start + (capacity + 7) / 8 * 8) /\
  (forall p n q k, live !! p = Some n -> live !! q = Some k -> p <> q -> p - 8 + n <= q - 8 \/ q - 8 + k <= p - 8) /\
  (forall n, 1 <= n < 2 ^ 64 - 15 -> exists p fa' m', alloc fa m n = Some (p, fa', m')) /\
  (forall p, is_Some (live !! p) -> exists fa' m', free fa m p = Some (fa', m')) /\
  (forall ps, NoDup ps -> (forall p, p ∈ ps -> is_Some (live !! p)) ->
    exists fa' m', freeBulk fa m ((fun p => p - kHeaderBytes) <$> ps) = Some (fa', m')) /\
  (live = ∅ -> freeList_ fa = start /\ blockSize m start = Some ((capacity + 7) / 8 * 8) /\ blockNext m start = Some 0).
Proof.
  intros [Hs Hs62] H8 Hc Hb Hh.
  destruct (history_served _ _ _ _ Hs H8 Hc Hb _ _ _ Hh) as (L & Hsv & Es & Ee). destruct Hsv as [Hti Ht Hl Hr] eqn:E. clear E.
  pose proof (ti_seg _ _ _ Hti) as Hseg. pose proof (ti_end _ _ _ Hti) as He. split_and!.
  - eapply validate_accepts, Hti. unfold inUserSpace. pose proof (ti_small _ _ _ Hti). lia.
  - intros p n Hp%Hl. pose proof (seg_aligned _ _ _ _ _ _ _ (proj2 (ti_start _ _ _ Hti)) Hseg Hp). unfold kHeaderBytes in *. simpl in *. lia.
  - intros p n q k Hp%Hl Hq%Hl Hne. unfold kHeaderBytes in *. destruct (blocks_disjoint _ _ _ _ _ _ _ _ _ Hseg Hp Hq) as [[? _]|]; [lia|done].
  - intros n Hn. destruct (served_alloc _ _ _ _ n Hsv Hn) as (p & fa' & m' & _ & E & _). by exists p, fa', m'.
  - intros p Hp. destruct (free_spec fa m L (p - kHeaderBytes) Hti Ht) as (fa' & m' & E & _); [by eapply served_freeable|].
    exists fa', m'. by rewrite Z.sub_add in E.
  - intros ps Hnd Hps. destruct (freeBulk_spec fa m L ((fun p => p - kHeaderBytes) <$> ps) Hti Ht) as (fa' & m' & E & _).
    + apply NoDup_fmap_2_strong; [|done]. intros x y _ _ ?. lia.
    + intros b (p & -> & Hp)%list_elem_of_fmap. by eapply served_freeable; [|apply Hps].
    + by exists fa', m'.
  - intros ->. by apply (history_end capacity start fromHeaders m0).
Qed.

Lemma histories_served_witness : exists fa m, history 64 64 true (wordsAt 64 (replicate 8 0) ∅) fa m {[72 := 32]} /\
  exists fa' m', free fa m 72 = Some (fa', m').
Proof.
  assert (Hb : backed (wordsAt 64 (replicate 8 0) ∅) 64 (64 + (64 + 7) / 8 * 8)) by by apply (backed_words 64 (replicate 8 0)).
  eassert (Hh : history 64 64 true (wordsAt 64 (replicate 8 0) ∅) _ _ ∅) by (apply h_create; reflexivity).
  eapply (h_alloc _ _ _ _ _ _ _ 24) in Hh; [|lia|vm_compute; reflexivity]. eexists _, _. split; [exact Hh|].
  destruct (histories_served 64 64 true _ _ _ _ ltac:(lia) eq_refl ltac:(lia) Hb Hh) as (_ & _ & _ & _ & Hf & _).
  apply Hf. by eexists.
Defined.

(** ** The space of many arenas *)

(** A host that has one buffer, of 64 bytes at 1024. *)
Definition oneBuffer (m : Mem) (n : Z) : option (Z * Mem) :=
  if (n =? 64) && forallb (fun x => bool_decide (m !! x = None)) (seqZ 1024 64)
  then Some (1024, wordsAt 1024 (replicate 8 0) m) else None.

Lemma oneBuffer_fresh m n b m' : oneBuffer m n = Some (b, m') ->
  0 < b /\ b mod 8 = 0 /\ backed m' b (b + n) /\ (forall x, b <= x < b + n -> m !! x = None) /\ outside b (b + n) m m'.
Proof.
  unfold oneBuffer. destruct (Z.eqb_spec n 64) as [->|]; [|done]. destruct (forallb _ _) eqn:E; [|done]. intros [= <- <-].
  split_and!; [lia|done|by apply (backed_words 1024 (replicate 8 0))| |by apply (words_outside 1024 (replicate 8 0))].
  intros x Hx. rewrite forallb_forall in E. eapply bool_decide_eq_true_1, E, list_elem_of_In, elem_of_seqZ. lia.
Qed.

(** Spaces without a segment, and with the small arena. *)
Definition smallConfig : GrowableSpaceConfig := mkSpaceConfig 64 128 256 true.
Lemma newSpace_ok : spaceOk (newSpace smallConfig) ∅ [].
Proof. split; try done. unfold segmentCount. simpl. lia. Qed.

Definition smallSpace : GrowableFreeListAllocator := mkGrowable smallConfig [smallArena] 0 112 56 56 3.
Lemma smallSpace_ok : spaceOk smallSpace smallWords [smallBlocks].
Proof.
  split; try done; [|unfold segmentCount, kMaxSegments; simpl; lia]. split.
  - constructor; [|constructor]. split_and!; [exact small_tiled|exact small_tabled|done..].
  - intros [|i] [|j] fa fb Hne Hi Hj; simplify_eq/=.
Qed.

(** C31. [GrowableFreeListAllocator::allocate] always returns. A block it hands out lies in one of the
    segments or in a new one, is large enough and meets no block that is in use; the words of those
    do not change, and the counters, the limit and the bound on segments are kept. It throws
    [MemoryExhausted] only when no segment has room, with the numbers of the moment, and then because
    the limit or the number of segments is reached or the host refused a buffer. *)
Theorem allocate_grants_or_refuses newBuffer sp m Ls size :
  (forall m n b m', newBuffer m n = Some (b, m') -> 0 < b /\ b mod 8 = 0 /\ backed m' b (b + n) /\
    (forall x, b <= x < b + n -> m !! x = None) /\ outside b (b + n) m m') ->
  spaceOk sp m Ls -> 1 <= size < 2 ^ 64 - 15 ->
  exists o sp' m', allocate newBuffer sp m size = Some (o, sp', m') /\
    match o with
    | Allocated p => exists Ls', grants sp m Ls size p sp' m' Ls'
    | Exhausted e => sp' = sp /\ m' = m /\ refuses newBuffer sp m Ls size e
    end.
Proof. intros. by apply allocate_spec. Qed.

Lemma allocate_grants_or_refuses_witness : exists o sp m, allocate oneBuffer (newSpace smallConfig) ∅ 24 = Some (o, sp, m) /\ o = Allocated 1032 /\
  exists Ls, grants (newSpace smallConfig) ∅ [] 24 1032 sp m Ls.
Proof.
  destruct (allocate_grants_or_refuses oneBuffer (newSpace smallConfig) ∅ [] 24 oneBuffer_fresh newSpace_ok ltac:(lia)) as (o & sp & m & E & Ho).
  exists o, sp, m. assert (o = Allocated 1032) as -> by by vm_compute in E; injection E as <- _ _. by split_and!.
Defined.

(** C32. [releaseBulk] of blocks in use, in any order and of any segments, returns; exactly they are
    not in use any more, the words of the others do not change, and the space stays as it should be:
    its counters say what its segments hold, and [validate] says yes, with segments at addresses of a
    program. *)
Theorem releaseBulk_frees sp m Ls bl : spaceOk sp m Ls -> listedIn (segments_ sp) Ls bl ->
  exists sp' m' Ls', releaseBulk sp m bl.*1 = Some (sp', m') /\ releases sp m Ls bl.*1 sp' m' Ls' /\
    (Forall inUserSpace (segments_ sp') -> Growable.validate sp' m' = Some true) /\ Growable.available sp' = sumZ freeBytes Ls'.
Proof.
  intros Hs Hl. destruct (releaseBulk_spec _ _ _ _ Hs Hl) as (sp' & m' & Ls' & E & Hr).
  exists sp', m', Ls'. split_and!; [done..|intros Hus; by eapply (validate_ok _ _ _ Hus), rl_ok|eapply available_ok, rl_ok, Hr].
Qed.

Lemma releaseBulk_frees_witness : exists sp m Ls, releaseBulk smallSpace smallWords [160; 96] = Some (sp, m) /\
  releases smallSpace smallWords [smallBlocks] [160; 96] sp m Ls.
Proof.
  destruct (releaseBulk_frees smallSpace smallWords [smallBlocks] [(160, 16); (96, 24)] smallSpace_ok) as (sp & m & Ls & E & Hr & _).
  - split; [repeat constructor; rewrite ?list_elem_of_singleton; [done|apply not_elem_of_nil]|].
    intros b n Hb. assert ((b = 160 /\ n = 16) \/ (b = 96 /\ n = 24)) as [[-> ->] | [-> ->]] by set_solver.
    + split; [|done]. exists 0%nat, smallArena, smallBlocks. split_and!; [done..|]. vm_compute. set_solver.
    + split; [|done]. exists 0%nat, smallArena, smallBlocks. split_and!; [done..|]. vm_compute. set_solver.
  - by exists sp, m, Ls.
Defined.

(** ** Threads on a bump-pointer allocator *)

(** C33. When every store is seen by all threads at once, no allocation is ever in progress while a
    reset is, and, whatever the interleaving of the atomic steps, the blocks handed out since the
    last reset lie one behind the other from the first free address on; when no allocation is
    between its exchange and its header, the space is a stack of exactly those blocks. *)
Theorem exclusive_operations_alone ba m threads s : stacked ba m [] -> reachable false (start ba m threads) s ->
  ~ overlap s /\
  exists sizes, blocks s sizes /\
    ((forall t pc, pcs s !! t = Some pc -> installing pc = None) ->
      stacked (bump s) (mem s) sizes /\ handed s ≡ₚ blocksOf (begin_ (bump s)) sizes).
Proof.
  intros Hst Hr. split; [by eapply no_overlap|]. destruct (blocks_reachable _ _ _ _ Hst Hr) as [sizes Hb].
  exists sizes. split; [done|]. by apply blocks_stacked.
Qed.

Lemma aSpace_stacked : stacked aSpace aMem [].
Proof. split; try done. apply (backed_words 64 (replicate 8 0)). done. Qed.

Lemma exclusive_operations_alone_witness : exists s, reachable false (start aSpace aMem [0; 1]%nat) s /\ handed s = [(64, 16)] /\ ~ overlap s.
Proof.
  set (s0 := start aSpace aMem [0; 1]%nat). assert (R : reachable false s0 s0) by constructor.
  onward R ltac:(apply (s_begin _ _ 1%nat 8); [reflexivity|lia]).
  onward R ltac:(apply (s_pass _ _ 1%nat 8); reflexivity).
  onward R ltac:(apply (s_count _ _ 1%nat 8); reflexivity).
  onward R ltac:(apply (s_enter _ _ 1%nat 8); reflexivity).
  onward R ltac:(apply (s_load _ _ 1%nat 8); reflexivity).
  onward R ltac:(apply (s_exchange _ _ 1%nat 8 64); reflexivity).
  onward R ltac:(eapply (s_install _ _ 1%nat 64 16); reflexivity).
  eexists. split; [exact R|]. split; [reflexivity|].
  apply (exclusive_operations_alone aSpace aMem [0; 1]%nat _ aSpace_stacked R).
Defined.

(** C34. With store buffers, which the release store to [exclusiveMode_] and the acquire load of
    [activeOps_] allow, a reset and an allocation can overlap, and one block is handed out twice. *)
Theorem buffered_mode_hands_twice : exists s, reachable true threeIdle s /\ handed s = [(64, 16); (64, 16)].
Proof. exact handed_twice. Qed.
