(* ===== verification/GcProps.v ===== *)
(** * Properties of the collector

    Programs on the collected heap, the minor collection, the mark and sweep behind it, the
    safepoints that start them and the large objects, over the interfaces of GcState.v; the examples run them on a small heap whose old
    spaces are those of GcSpaces.v and LargeObj.v. *)

From stdpp Require Import gmap.
From S2P Require Import Prelude ObjHeader FreeList Growable GrowableOps GcSpaces LargeObj BumpPtr GcState GcPacing GcMinor GcMinorInv GcMinorOk GcMajor GcMajorOk GcSound GcProgram MemoryProps.
#[local] Open Scope Z_scope.

(** ** A small heap *)

Module Example.

(** Objects of one word, which is a reference; all types are precise. *)
#[export, refine] Instance oneWord : Layout unit unit := {
  slotsOf _ _ := [mkSlot 0 (Some tt) false];
  preciseType _ := true;
  onMoved _ _ w := w;
  heldBlock _ _ := 0;
}.
Proof.
  - done.
  - done.
  - intros. apply NoDup_singleton.
  - by intros ? ? s ->%list_elem_of_singleton.
Defined.

(** The elder space is the small arena, which may take the one buffer; the host of the large
    objects has one block. *)
Definition elderArena (x : Z) : bool := ((64 <=? x) && (x <? 176)) || ((1024 <=? x) && (x <? 1088)).
Definition largeArena (x : Z) : bool := (4096 <=? x) && (x <? 4160).

Lemma oneBuffer_arena m n b m' : oneBuffer m n = Some (b, m') -> forall x, b <= x < b + n -> elderArena x = true.
Proof.
  unfold oneBuffer. destruct (Z.eqb_spec n 64) as [->|]; [|done]. destruct (forallb _ _); [|done]. intros [= <- <-] x Hx.
  unfold elderArena. lia.
Qed.
Lemma elderArena_low x : elderArena x = true -> x < 2 ^ 47 - 4096.
Proof. unfold elderArena. lia. Qed.
#[export] Instance exElder : OldSpace ElderSpace := elderSpace oneBuffer elderArena oneBuffer_fresh oneBuffer_arena elderArena_low.

Definition oneBlock (h : gmap Z Z) (n : Z) : option (Z * gmap Z Z) :=
  if bool_decide (h = ∅) && (n <=? 64) then Some (4096, <[4096 := n]> h) else None.
Definition giveBack (h : gmap Z Z) (b : Z) : gmap Z Z := delete b h.

Lemma oneBlock_ok h n b h' : 0 < n -> oneBlock h n = Some (b, h') ->
  h' = <[b := n]> h /\ h !! b = None /\ 0 < b /\ (forall x, b <= x < b + n -> largeArena x = true) /\
  forall b' c', h !! b' = Some c' -> b + n <= b' \/ b' + c' <= b.
Proof.
  unfold oneBlock. intros Hn. destruct (bool_decide (h = ∅)) eqn:E; [apply bool_decide_eq_true in E as ->|done].
  destruct (Z.leb_spec n 64); [|done]. intros [= <- <-]. split_and!; try done. intros x Hx. unfold largeArena. lia.
Qed.
Lemma largeArena_low x : largeArena x = true -> x < 2 ^ 47 - 4096.
Proof. unfold largeArena. lia. Qed.
#[export] Instance exLarge : OldSpace (LargeObjectAllocator (gmap Z Z)) :=
  largeSpace oneBlock giveBack id largeArena oneBlock_ok (fun h b => eq_refl) largeArena_low.

Definition elderStart : ElderSpace := mkElder smallSpace smallWords.
Definition largeStart : LargeObjectAllocator (gmap Z Z) := mkLarge ∅ ∅ 0 ∅.

Lemma elderStart_ok : ook elderStart.
Proof.
  exists [smallBlocks]. split; [exact smallSpace_ok|]. split.
  - constructor; [|constructor]. intros x Hx. cbn in Hx. unfold elderArena. lia.
  - intros q k ([|i] & fa & L & Hi & HL & Hq); simplify_eq/=. unfold kFreeBlockBytes. set_solver by lia.
Qed.

(** A graph at 5000 with a young object at 2056, which refers to the elder object at 72; a dead
    young object at 2072 that has a finalizer; an elder object at 168 that nothing refers to, and
    that is remembered for the young object at 2088; and an elder object at 104 that is garbage. *)
Definition youngHeader (years : Z) : Z := setBits 48 4 (ObjectHeader 16) years.
Definition oldHeader (bytes : Z) : Z := setBits 54 4 (ObjectHeader bytes) ElderGen.

Definition heapStart : gmap Z (Obj unit) :=
  <[5000 := mkObj (ObjectHeader 16) tt [2056]]> (<[2056 := mkObj (youngHeader 1) tt [72]]> (<[2072 := mkObj (youngHeader 0) tt [0]]>
  (<[2088 := mkObj (youngHeader 0) tt [0]]> (<[72 := mkObj (oldHeader 16) tt [0]]> (<[104 := mkObj (oldHeader 24) tt [0]]>
  (<[168 := mkObj (oldHeader 16) tt [2088]]> ∅)))))).

Definition pacingStart : Pacing :=
  mkPacing 2 1024 4096 100 4096 0 0 4096 4096 0 0 4096 0 0 1 4096 0 false 0 0 0 ∅ true Major 2 false true 0 0.

Definition gcStart : GC unit unit ElderSpace (LargeObjectAllocator (gmap Z Z)) :=
  mkGC heapStart (mkBump 2048 2048 2096 2112) (mkBump 2112 2112 2112 2176) (mkBump 2176 2176 2176 2240) elderStart largeStart
    {[5000]} [5000] [] {[168 := Some tt]} ∅ [2072] [] [] 0 ∅ [] ∅ false pacingStart.

Definition layoutStart (a : Z) : list (Slot unit) := [mkSlot 0 (Some tt) false].
Definition owners : list GCGraphManager := [mkManager {[5000]} ∅ ∅].

Lemma heapStart_cases a o : heapStart !! a = Some o ->
  (a = 5000 /\ o = mkObj (ObjectHeader 16) tt [2056]) \/ (a = 2056 /\ o = mkObj (youngHeader 1) tt [72]) \/
  (a = 2072 /\ o = mkObj (youngHeader 0) tt [0]) \/ (a = 2088 /\ o = mkObj (youngHeader 0) tt [0]) \/
  (a = 72 /\ o = mkObj (oldHeader 16) tt [0]) \/ (a = 104 /\ o = mkObj (oldHeader 24) tt [0]) \/ (a = 168 /\ o = mkObj (oldHeader 16) tt [2088]).
Proof.
  unfold heapStart. intros Ho. repeat (apply lookup_insert_Some in Ho as [[<- <-]|[_ Ho]]; [by auto 8|]). by apply lookup_empty_Some in Ho.
Qed.

Ltac each Ho := apply heapStart_cases in Ho as [[-> ->]|[[-> ->]|[[-> ->]|[[-> ->]|[[-> ->]|[[-> ->]|[-> ->]]]]]]].

Lemma remembered_one a t : remembered gcStart !! a = Some t -> a = 168 /\ t = Some tt.
Proof.
  change (remembered gcStart) with ({[168 := Some tt]} : gmap Z (option unit)). intros Ha. apply lookup_singleton_Some in Ha as [<- <-]. done.
Qed.

Lemma graph_one g : g ∈ graphSpace gcStart <-> g = 5000.
Proof. change (graphSpace gcStart) with ({[5000]} : gset Z). by rewrite elem_of_singleton. Qed.

Lemma reach_cases a : reachable gcStart layoutStart a -> a = 5000 \/ a = 2056 \/ a = 72 \/ a = 168 \/ a = 2088.
Proof.
  induction 1 as [r Hr _|c Hc|b [t Hb]|b o s w _ IH Ho Hs Hw Hne _].
  - apply list_elem_of_singleton in Hr. auto.
  - by apply elem_of_nil in Hc.
  - apply remembered_one in Hb as [-> _]. auto.
  - apply list_elem_of_singleton in Hs as ->. cbn in Hw.
    each Ho; cbn in Hw; simplify_eq; auto 8.
Qed.

Lemma reach_72 : reachable gcStart layoutStart 5000 /\ reachable gcStart layoutStart 2056 /\ reachable gcStart layoutStart 72 /\
  reachable gcStart layoutStart 168 /\ reachable gcStart layoutStart 2088.
Proof.
  assert (H1 : reachable gcStart layoutStart 5000) by (apply rc_root; [by left|done]).
  assert (H2 : reachable gcStart layoutStart 2056) by (eapply rc_slot; [exact H1|reflexivity|by left|reflexivity|done|done]).
  assert (H4 : reachable gcStart layoutStart 168) by (apply rc_remembered; by eexists).
  split_and!; try done; [eapply (rc_slot _ _ 2056)|eapply (rc_slot _ _ 168)]; (done || by left || reflexivity).
Qed.

Lemma inElder_cases p : p ∈ oiterate elderStart <-> p = 72 \/ p = 104 \/ p = 168.
Proof. change (oiterate elderStart) with [72; 104; 168]. set_solver. Qed.

Lemma laid_all t a : reachable gcStart layoutStart a -> laid heapStart layoutStart (reachable gcStart layoutStart) t a.
Proof.
  intros Ha. split; [done|]. destruct (reach_cases a Ha) as [->|[->|[->|[->| ->]]]]; (eexists; split; [reflexivity|done]).
Qed.

Lemma start_ready : ready gcStart layoutStart.
Proof.
  pose proof reach_72 as (H1 & H2 & H3 & H4 & H5). split; try done.
  - intros a Ha. destruct (laid_all (Some tt) a Ha) as (_ & o & Ho & _). exists o, (Some tt). split_and!; [done..|].
    intros s ->%list_elem_of_singleton.
    assert (Hw : exists w, words o !! 0%nat = Some w /\ (w = 0 \/ reachable gcStart layoutStart w /\ w <> 5000)).
    { each Ho; (eexists; split; [reflexivity|]); (by left) || (by right). }
    destruct Hw as (w & Hw & Hcase). exists w. split; [done|]. intros Hne. destruct Hcase as [?|[Hl Hg]]; [done|].
    split_and!; [by apply laid_all|done|]. intros ->%graph_one. done.
  - intros a o Ho Hy. each Ho; try (by vm_compute in Hy); (split; [eexists; split; [vm_compute; reflexivity|lia]|done]).
  - intros a [o Ho] Hy. each Ho; first [done|by vm_compute in Hy].
  - intros g ->%graph_one. split_and!; [done..|by eexists].
  - constructor; [|constructor]. right. split; [by apply graph_one|by apply laid_all].
  - intros a t [-> ->]%remembered_one. split; [done|]. by apply laid_all.
  - intros a o s w Ha (_ & _ & Hr & Hg) Ho ->%list_elem_of_singleton Hw Hne. cbn in Hw |- *.
    each Ho; cbn in Hw; simplify_eq; try (by vm_compute in Hr); try (exfalso; by apply Hg, graph_one); done.
  - constructor; [|constructor]. split; [by eexists|done].
  - intros x. unfold BumpPtr.contains. cbn. lia.
  - intros a Ha. destruct (heapStart !! a) as [o|] eqn:Ho; [exfalso|done]. each Ho; by vm_compute in Ha.
  - split; [exact elderStart_ok|]. split; cbn; try done.
  - intros x [o Ho]. each Ho; first [by right|left; by vm_compute; set_solver].
  - intros x Hx. unfold isYoungAddress, BumpPtr.contains in Hx. cbn in Hx. cbn. unfold elderArena, largeArena. lia.
  - intros p [[->|[->| ->]]%inElder_cases|Hp]; [by eexists..|]. by apply elem_of_nil in Hp.
Qed.

(** Room for promotions, by trying all sizes. *)
Fixpoint servesAll (n k : nat) (e : ElderSpace) : bool :=
  match k with
  | O => true
  | S k => forallb (fun i => match oalloc e (Z.of_nat i) with Some (_, _, e) => servesAll n k e | None => false end) (seq 1 n)
  end.

Lemma servesAll_ok n k : forall e, servesAll n k e = true -> serves (Z.of_nat n) k e.
Proof.
  induction k as [|k IH]; intros e Hs; [done|]. intros i Hi. cbn [servesAll] in Hs. rewrite forallb_forall in Hs.
  specialize (Hs (Z.to_nat i) ltac:(apply in_seq; lia)). rewrite Z2Nat.id in Hs by lia.
  destruct (oalloc e i) as [[[p b] e']|]; [|done]. exists p, b, e'. split; [done|]. by apply IH.
Qed.

Lemma start_promotable : promotable gcStart 8.
Proof.
  split; [apply (servesAll_ok 8); vm_compute; reflexivity|]. intros a o n Ho Hy Hn.
  each Ho; try (by vm_compute in Hy); vm_compute in Hn; by simplify_eq.
Qed.

Lemma start_rooted : carriersRooted gcStart layoutStart.
Proof. intros a o s w _ _ ->%list_elem_of_singleton. done. Qed.

Lemma gcstart_bound : carriersBound gcStart layoutStart.
Proof. split; [intros a o s w _ _ ->%list_elem_of_singleton; done|]. intros c Hc. by apply elem_of_nil in Hc. Qed.

Lemma start_separate : separate gcStart.
Proof.
  split.
  - apply (rd_elder _ _ start_ready).
  - intros p Hp. split; [apply (rd_housed _ _ start_ready); by left|]. intros Hl. by apply elem_of_nil in Hl.
  - intros p Hp. by apply elem_of_nil in Hp.
  - intros g ->%graph_one. split; [|by intros ?%elem_of_nil]. intros Hp%inElder_cases. lia.
Qed.

Lemma start_unmarked a : isMarked gcStart a = false.
Proof.
  unfold isMarked. change (objs gcStart) with heapStart. destruct (heapStart !! a) as [o|] eqn:Ho; [|done]. by each Ho.
Qed.

Lemma start_owned : owned owners gcStart.
Proof. intros m ->%list_elem_of_singleton g Hg. apply graph_one. cbn in Hg. set_solver. Qed.

Lemma start_markable : markable gcStart layoutStart.
Proof.
  split.
  - intros a Ha%(traced_reachable _ _ gcstart_bound). destruct (laid_all None a Ha) as (_ & o & Ho & _). exists o, None. split_and!; [done..|].
    intros s ->%list_elem_of_singleton. each Ho; (eexists; split; [reflexivity|]); intros Hne; first [done|by eexists].
  - intros r ->%list_elem_of_singleton _. by eexists.
  - intros c Hc. by apply elem_of_nil in Hc.
Qed.

Lemma start_housed : housed owners gcStart.
Proof.
  split.
  - exact start_separate.
  - intros a. by rewrite start_unmarked.
  - split; [exact start_owned|]. intros m m' g ->%list_elem_of_singleton ->%list_elem_of_singleton _. split; [|done]. cbn. set_solver.
  - intros a [o Ho]. each Ho; first [by left|right; left; apply inElder_cases; lia|by right; right; right; apply graph_one].
  - intros x [o Ho]. right. each Ho; done.
  - intros a o Ho. change (oiterate (large gcStart)) with ([] : list Z). change (oiterate (elder gcStart)) with (oiterate elderStart). rewrite inElder_cases.
    each Ho; (split; (split; [intros Hr|intros Hin]);
      [first [lia|by vm_compute in Hr]|first [exfalso; lia|by vm_compute]|by vm_compute in Hr|by apply elem_of_nil in Hin]).
  - intros a [t [-> _]%remembered_one]. left. apply inElder_cases. lia.
  - split; [done|]. split; [done|]. intros a [o Ho] Hc. each Ho; first [by vm_compute in Hc|done].
  - done.
Qed.

Lemma start_sound : sound owners gcStart layoutStart.
Proof.
  split; [exact start_ready| |exact start_housed]. split; [intros a o s w _ _ ->%list_elem_of_singleton; done|]. intros c Hc. by apply elem_of_nil in Hc.
Qed.

(** No handle is there at the start. *)
Definition noNames : Spec (Kind := unit) (Ty := unit) := mkSpec ∅ [] 0 2.

Lemma start_sim : sim noNames owners gcStart layoutStart (fun _ => 0).
Proof.
  assert (Hno : forall n, ~ held noNames n) by (intros n; induction 1; done).
  split; try (by intros n ? Hn%Hno); try (by intros n Hn%Hno).
  - exact start_sound.
  - split; [done|by intros|by intros n [? ?]].
  - constructor.
Qed.

Lemma arenas_apart (e : ElderSpace) (l : LargeObjectAllocator (gmap Z Z)) : ook e -> ook l ->
  (forall p, p ∈ oiterate e -> oavoids l p) /\ (forall p, p ∈ oiterate l -> oavoids e p).
Proof.
  intros He Hl. split; intros p Hp; [destruct (oiterate_contains _ _ He Hp) as (_ & _ & Hno & _)|destruct (oiterate_contains _ _ Hl Hp) as (_ & _ & Hno & _)];
    cbn in Hno |- *; unfold elderArena, largeArena in *; lia.
Qed.

(** Room at the safepoints of a run, by trying it. *)
Definition promotableAll (room : nat) (st : GC unit unit ElderSpace (LargeObjectAllocator (gmap Z Z))) : bool :=
  servesAll room (youngCount st) (elder st) &&
  forallb (fun '(a, o) => negb (young st a) || match objSize (hdr o) with Some n => n <=? Z.of_nat room | None => true end) (map_to_list (objs st)).

Fixpoint suppliedAll releases (room : nat) (cmds : list (Cmd (Kind := unit) (Ty := unit))) managers st : bool :=
  match cmds with
  | [] => true
  | c :: cmds =>
      match c with
      | Safepoint => promotableAll room (atSafepoint st) && match minorGC (atSafepoint st) with Some st => promotableAll room st | None => true end
      | _ => true
      end && match exec releases c managers st with Some (Done managers st) => suppliedAll releases room cmds managers st | _ => true end
  end.

Lemma promotableAll_ok room st : promotableAll room st = true -> promotable st (Z.of_nat room).
Proof.
  intros [Hs Hall]%andb_true_iff. split; [by apply servesAll_ok|]. intros a o n Ho%elem_of_map_to_list%list_elem_of_In Hy Hn.
  rewrite forallb_forall in Hall. specialize (Hall (a, o) Ho). cbn in Hall. rewrite Hy, Hn in Hall. cbn in Hall. lia.
Qed.

Lemma suppliedAll_ok releases room cmds : forall managers st, suppliedAll releases room cmds managers st = true -> supplied releases cmds managers st.
Proof.
  induction cmds as [|c cmds IH]; intros managers st Hs; [done|]. cbn [suppliedAll supplied] in *. apply andb_true_iff in Hs as [Hc Hs]. split.
  - intros ->. apply andb_true_iff in Hc as [H1 H2]. split; [exists (Z.of_nat room); by apply promotableAll_ok|].
    intros st' Hg. rewrite Hg in H2. exists (Z.of_nat room). by apply promotableAll_ok.
  - intros managers' st' He. rewrite He in Hs. by apply IH.
Qed.
End Example.
Import Example.

(** ** Collections *)

Section Collector.
Context {Kind Ty E LO : Type} `{Layout Kind Ty} `{!OldSpace E} `{!OldSpace LO}.
Implicit Types (st : GC Kind Ty E LO).

(** C35. A program that reaches the heap through handles, and writes references behind the write
    barrier, cannot tell that a collector moves and frees objects: run on the heap of the collector
    it gets stuck nowhere, and at its end every handle stands for the object that it names on the heap
    of names, where nothing moves. The objects that the handles reach are there with their classes and
    references, different names stand for different objects, and the heap is sound again. It stops
    early only where memory is refused, and then an old space has no block, or what is asked for or
    what a collection left exceeds the heap limit. The elder space has room for the promotions of
    the collections on the way, the two old spaces never meet, and the releases that finalizers put
    off change counters only. *)
Theorem program_refines releases cmds sp sp' managers st Lay R :
  (forall (e : E) (l : LO), ook e -> ook l -> (forall p, p ∈ oiterate e -> oavoids l p) /\ (forall p, p ∈ oiterate l -> oavoids e p)) ->
  (forall l p, settingsOf (releases l p) = settingsOf p) ->
  sim sp managers st Lay R -> specRun sp cmds sp' -> supplied releases cmds managers st ->
  exists r, run releases cmds managers st = Some r /\
    match r with
    | Done managers' st' => exists Lay' R', sim sp' managers' st' Lay' R'
    | Thrown _ => refused releases cmds managers st
    end.
Proof. intros Hapart Hrel. apply (run_simulates releases Hapart Hrel). Qed.

(** C36. A minor collection of a heap that is [ready], with room in the elder space for what may be
    promoted, returns. The young objects that the roots and the remembered objects reach are moved,
    each to a place of its own and no others; every object that is reached is there afterwards with
    its class, its words and its references moved along; the two spaces that were left are empty,
    exactly the finalizers of the dead young objects ran, and the heap is ready for the next. *)
Theorem minorGC_keeps st Lay room : ready st Lay -> promotable st room ->
  exists st' F, minorGC st = Some st' /\ collected st Lay F (LayAfter Lay F) st' /\
    (carriersRooted st Lay -> ready st' (LayAfter Lay F) /\ carriersRooted st' (LayAfter Lay F)).
Proof. apply minorGC_collects. Qed.

(** C37. The mark phase marks an object if and only if the roots reach it, over the references of all
    objects, whatever marks earlier collections have left; and [collectGraphSpace] then frees
    exactly the graphs and programs that have an owner, are not marked and, for graphs, are bound. *)
Theorem collectGraphSpace_exact st Lay managers : markable st Lay -> marksKnown st ->
  exists managers' st', collectGraphSpace managers st = Some (managers', st') /\
    (forall a, traced st Lay a -> isMarked st' a = true) /\ (forall a, isMarked st' a = true -> traced st Lay a) /\
    forall a, match objs st' !! a with
              | Some o => onlyMarks (objs st !! a) (Some o) /\
                  forall m, m ∈ managers -> (a ∈ graphs_ m /\ a ∉ unbound_ m) \/ a ∈ programs_ m -> traced st Lay a
              | None => objs st !! a = None \/ (~ traced st Lay a /\
                  exists m, m ∈ managers /\ ((a ∈ graphs_ m /\ a ∉ unbound_ m) \/ a ∈ programs_ m))
              end.
Proof.
  intros Hmk Hkn. destruct (markPhase_ok st Lay Hmk Hkn) as (heap & ledger & Em & Hom & Hmark & _).
  unfold collectGraphSpace. rewrite Em. cbn [mbind option_bind]. set (st1 := setMarkedSinceClear ledger (setObjs heap st)) in *.
  destruct (sweepGraphs_ok managers st1) as (D & -> & HD). eexists _, _. split; [done|].
  assert (HDm : forall g, g ∈ D -> isMarked st1 g = false) by (by intros g [? _]%HD).
  setoid_rewrite (fun a => isMarked_freeDead D st1 a HDm). split; [intros a; apply Hmark|]. split; [intros a; apply Hmark|].
  intros a. pose proof (Hom a) as Ha. destruct (objs (freeDead D st1) !! a) as [o|] eqn:Ho.
  - apply freeDead_marked in Ho as [Ho Hno]; [|done]. change (heap !! a = Some o) in Ho. rewrite Ho in Ha. split; [done|].
    intros m Hm Hin. apply Hmark. apply not_false_is_true. intros Hf. apply Hno, HD. split; [done|]. by exists m.
  - destruct (decide (a ∈ D)) as [Hin|Hin].
    + right. apply HD in Hin as [Hf Hex]. split; [|done]. intros Ht%Hmark. congruence.
    + left. destruct (heap !! a) as [o|] eqn:Hh; [|by destruct (objs st !! a)].
      assert (Hs : objs (freeDead D st1) !! a = Some o) by by apply freeDead_marked. congruence.
Qed.

(** C38. A major collection moves what the roots reach as the minor collection in front does, and then
    gives back exactly the rest: a block of the elder space or of the large objects stays if and only
    if the roots reach its object, the finalizers of the others run once each, no remembered entry
    is left for them, the unreached graphs are freed, and the next budgets follow from what is left. *)
Theorem majorGC_reclaims st Lay room managers :
  ready st Lay -> promotable st room -> carriersBound st Lay -> separate st -> ledgered st -> owned managers st ->
  exists F st1 managers' st', minorGC st = Some st1 /\ collected st Lay F (LayAfter Lay F) st1 /\
    majorGC managers st = Some (managers', st') /\
    reclaimed st1 (fun y => exists a, traced st Lay a /\ y = reloc F a) managers st' managers' /\
    (forall a o, traced st Lay a -> objs st !! a = Some o -> exists n, objs st' !! reloc F a = Some n /\ sameObject st Lay F a o n).
Proof. apply majorGC_collects. Qed.

(** C39. A request is served. A major collection that is pending stays so while collections are
    inhibited, and at the safepoints in between nothing moves; the first safepoint behind the last
    scope runs it. An exception is thrown only when what is left exceeds the heap limit; otherwise
    the flag of the slow path says whether a request is pending again. *)
Theorem request_served runDeferredReleases st Lay room managers :
  pendingSafepointCollection_ (pacing st) = Major -> nativeCodeDepth (pacing st) = 0%nat ->
  ready st Lay -> promotable st room -> carriersBound st Lay -> separate st -> ledgered st -> owned managers st ->
  exists st1 F stm managers' st' e, waits runDeferredReleases (collectionInhibit_ (pacing st)) managers st = Some (managers, st1) /\
    (exists p, st1 = setPacing p st /\ pendingSafepointCollection_ p = Major) /\
    safepoint runDeferredReleases managers st1 =
      Some (managers', (match e with None => noteBlockBytes (runDeferredReleases st') | Some _ => st' end), e) /\
    (exists q, collected (setPacing q st) Lay F (LayAfter Lay F) stm) /\
    reclaimed stm (fun y => exists a, traced st Lay a /\ y = reloc F a) managers st' managers' /\
    (e <> None -> heapLimitBytes_ (pacing st') <> 0 /\ heapLimitBytes_ (pacing st') < oldBytesHeld st') /\
    (e = None -> slowPath (pacing st') = bool_decide (pendingSafepointCollection_ (pacing st') <> None_)).
Proof. apply safepoint_collects. Qed.
End Collector.

(** An object that two collections have promoted refers to a young one, which only the write barrier
    tells the next collection; the young one is got back through the old one. *)
Lemma program_refines_witness : exists managers st Lay R sp,
  run (fun _ p => p) [Allow; Allow; Safepoint; New 8 tt tt [0] []; RequestMajor; Safepoint; RequestMajor; Safepoint;
    New 8 tt tt [0] [(0%nat, 0%nat)]; Store 0 0 1; Forget 1; RequestMajor; Safepoint; Load 0 0] owners gcStart = Some (Done managers st) /\
  sim sp managers st Lay R /\ handles sp = [(Some 0%nat, Some tt); (None, Some tt); (Some 1%nat, Some tt)].
Proof.
  set (cmds := _ :: _).
  assert (Hs : exists sp, specRun noNames cmds sp /\ handles sp = [(Some 0%nat, Some tt); (None, Some tt); (Some 1%nat, Some tt)]).
  { eexists. split.
    - do 2 (eapply sr_step; [by eapply sp_allow|]). eapply sr_step; [apply sp_safepoint|].
      eapply sr_step; [eapply sp_new; [lia|cbn; lia|done|by intros s ->%list_elem_of_singleton|by intros ? ? ?%elem_of_nil|reflexivity]|].
      do 2 (eapply sr_step; [apply sp_request|]; eapply sr_step; [apply sp_safepoint|]).
      eapply sr_step; [eapply sp_new; [lia|cbn; lia|done|by intros s ->%list_elem_of_singleton| |reflexivity]|].
      { intros i h [= -> ->]%list_elem_of_singleton. eexists. split; [by split; [left|]|]. intros n u [= <- <-]. split; [done|]. by eexists. }
      eapply sr_step; [eapply sp_store; [reflexivity|reflexivity|by split; [left|]|reflexivity|]|].
      { intros m [= <-]. split; [done|]. by eexists. }
      eapply sr_step; [by eapply sp_forget|]. eapply sr_step; [apply sp_request|]. eapply sr_step; [apply sp_safepoint|].
      eapply sr_step; [eapply sp_load; [reflexivity|reflexivity|by split; [left|]]|]. apply sr_done.
    - reflexivity. }
  destruct Hs as (sp & Hrun & Hh).
  destruct (program_refines (fun _ p => p) cmds noNames sp owners gcStart layoutStart (fun _ => 0) arenas_apart (fun _ _ => eq_refl) start_sim Hrun) as (r & Er & Hr).
  - apply (suppliedAll_ok _ 8). vm_compute. reflexivity.
  - destruct r as [managers st|e]; [destruct Hr as (Lay & R & Hsim); subst cmds; exists managers, st, Lay, R, sp; exact (conj Er (conj Hsim Hh))|exfalso].
    apply (f_equal (fun r => match r with Some (Thrown _) => true | _ => false end)) in Er. by vm_compute in Er.
Defined.

Lemma minorGC_keeps_witness : exists st', minorGC Example.gcStart = Some st' /\ finalized st' = [2072] /\
  exists F, collected Example.gcStart Example.layoutStart F (LayAfter Example.layoutStart F) st'.
Proof.
  destruct (minorGC_keeps Example.gcStart Example.layoutStart 8 Example.start_ready Example.start_promotable) as (st' & F & Eg & Hcl & _).
  exists st'. split; [exact Eg|]. split; [|by exists F]. assert (Ef : finalized <$> minorGC gcStart = Some [2072]) by (vm_compute; reflexivity). rewrite Eg in Ef. by injection Ef.
Defined.

Lemma collectGraphSpace_exact_witness : exists managers st', collectGraphSpace owners gcStart = Some (managers, st') /\
  (forall a, traced gcStart layoutStart a -> isMarked st' a = true).
Proof.
  destruct (collectGraphSpace_exact gcStart layoutStart owners start_markable) as (managers & st' & Ec & Ht & _).
  - intros a. by rewrite start_unmarked.
  - by exists managers, st'.
Defined.

Lemma majorGC_reclaims_witness : exists managers st', majorGC owners gcStart = Some (managers, st') /\
  exists F st1, reclaimed st1 (fun y => exists a, traced gcStart layoutStart a /\ y = reloc F a) owners st' managers.
Proof.
  destruct (majorGC_reclaims gcStart layoutStart 8 owners start_ready start_promotable
    gcstart_bound start_separate) as (F & st1 & managers & st' & _ & _ & Em & Hr & _).
  - intros a. rewrite start_unmarked. done.
  - exact start_owned.
  - exists managers, st'. split; [exact Em|]. by exists F, st1.
Defined.

Lemma request_served_witness : exists st1 managers st' e, waits id 2 owners gcStart = Some (owners, st1) /\
  safepoint id owners st1 = Some (managers, st', e) /\ e = None.
Proof.
  destruct (request_served id gcStart layoutStart 8 owners eq_refl eq_refl start_ready start_promotable
    gcstart_bound start_separate) as (st1 & F & stm & managers & st' & e & Ew & _ & Es & _ & _ & Hex & _).
  - intros a. rewrite start_unmarked. done.
  - exact start_owned.
  - eexists st1, managers, _, e. split; [exact Ew|]. split; [exact Es|].
    apply (f_equal (fmap snd)) in Es. vm_compute in Ew. injection Ew as <-. vm_compute in Es. by injection Es.
Defined.

(** ** Large objects *)

(** C40. Along every history of allocations and frees of large objects each live object has a block
    of its own, below 2^47, with room for header and payload and less than a quarter of waste; blocks
    of different objects do not meet; [iterateAllocated] lists exactly the headers of the live objects;
    the cache holds at most 256 MB, and every block that the host has given is an object's or in it. *)
Theorem large_histories {Host} (osNew : Host -> Z -> option (Z * Host)) (osDelete : Host -> Z -> Host) (out : Host -> gmap Z Z) (arena : Z -> bool) :
  (forall h n b h', 0 < n -> osNew h n = Some (b, h') -> out h' = <[b := n]> (out h) /\ out h !! b = None /\ 0 < b /\
    (forall x, b <= x < b + n -> arena x = true) /\ forall b' c', out h !! b' = Some c' -> b + n <= b' \/ b' + c' <= b) ->
  (forall h b, out (osDelete h b) = delete b (out h)) -> (forall x, arena x = true -> x < 2 ^ 47 - 4096) ->
  forall la live, largeHistory osNew osDelete out la live ->
    (forall p size, live !! p = Some size -> LargeObj.contains la p = true /\ lowAddr p /\
      exists n, LargeObj.allocated_ la !! (p - kHeaderBytes) = Some n /\ out (LargeObj.host la) !! (p - kHeaderBytes) = Some (sizeClass n) /\
        kHeaderBytes + size <= n <= sizeClass n /\ 4 * (sizeClass n - n) < n) /\
    (forall p q size size' n n', live !! p = Some size -> live !! q = Some size' -> p <> q ->
      LargeObj.allocated_ la !! (p - kHeaderBytes) = Some n -> LargeObj.allocated_ la !! (q - kHeaderBytes) = Some n' ->
      p + sizeClass n <= q \/ q + sizeClass n' <= p) /\
    (exists l, LargeObj.iterateAllocated la = Some l /\ NoDup l /\ forall b, b ∈ l <-> is_Some (live !! (b + kHeaderBytes))) /\
    0 <= cachedBytes_ la <= kMaxCachedBytes /\
    (forall b c, out (LargeObj.host la) !! b = Some c -> is_Some (live !! (b + kHeaderBytes)) \/ exists l, cachedBlocks_ la !! c = Some l /\ b ∈ l).
Proof.
  intros Hnew Hdel Hlow la live Hh. destruct (history_ok osNew osDelete out arena Hnew Hdel Hlow la live Hh) as [Hok Hag].
  assert (Hlive : forall b, is_Some (LargeObj.allocated_ la !! b) <-> is_Some (live !! (b + kHeaderBytes))).
  { intros b. specialize (Hag (b + kHeaderBytes)). rewrite Z.add_simpl_r in Hag.
    destruct (LargeObj.allocated_ la !! b), (live !! (b + kHeaderBytes)); (done || split; intros [? ?]; done). }
  split_and!.
  - intros p size Hp. specialize (Hag p). rewrite Hp in Hag. destruct (LargeObj.allocated_ la !! (p - kHeaderBytes)) as [n|] eqn:Hn; [|done].
    destruct (large_object out arena Hlow la p n Hok Hn) as (_ & _ & Hl & Hc). split_and!; [done..|]. destruct Hag as [Hs Hag]. exists n.
    destruct (lo_object _ _ _ Hok _ _ Hn) as (Ho & H16 & _). destruct (sizeClass_bounds n) as [Hge Hwaste]; [unfold kHeaderBytes in *; lia|].
    pose proof (Z.div_mod (size + 15) 8 ltac:(lia)). pose proof (Z.mod_pos_bound (size + 15) 8 ltac:(lia)). unfold kHeaderBytes in *.
    split_and!; [done|done|lia|done|apply Hwaste; lia].
  - intros p q size size' n n' _ _ Hne Hn Hn'. destruct (objects_apart out arena la _ n _ n' Hok Hn Hn'); lia.
  - destruct (largeIterate_spec out arena la Hok) as [Hnd Hi]. unfold largeIterate in *. destruct (LargeObj.iterateAllocated la) as [l|] eqn:El.
    + exists l. split; [done|]. cbn in *. unfold id in *. split; [by eapply NoDup_fmap_1|]. intros b. rewrite <- Hlive. rewrite <- (Z.add_simpl_r b kHeaderBytes) at 2.
      rewrite <- Hi, list_elem_of_fmap. split; [intros; by exists b|]. intros (b' & ? & ?). by replace b with b' by lia.
    + exfalso. unfold LargeObj.iterateAllocated in El. destruct (forallb _ _) eqn:Ef; [done|].
      assert (forallb (fun '(_, size) => (kHeaderBytes <=? size) && (size mod 8 =? 0)) (map_to_list (LargeObj.allocated_ la)) = true); [|congruence].
      apply forallb_forall. intros [b n] Hb%list_elem_of_In%elem_of_map_to_list. destruct (lo_object _ _ _ Hok _ _ Hb) as (_ & Hn & H8). unfold kHeaderBytes in *. lia.
  - by eapply cached_bounds.
  - by eapply cached_bounds.
  - intros b c Hb. rewrite <- Hlive. by eapply lo_out.
Qed.

Lemma large_histories_witness : exists la live, largeHistory oneBlock giveBack id la live /\ live !! 4104 = Some 22 /\
  cachedBytes_ la = 0 /\ LargeObj.contains la 4104 = true.
Proof.
  assert (H0 : largeHistory oneBlock giveBack id (mkLarge ∅ ∅ 0 ∅) ∅) by by constructor.
  eapply (lh_alloc _ _ _ _ _ 20) in H0; [|lia|vm_compute; reflexivity].
  eapply (lh_free _ _ _ _ _ 4104) in H0; [|by eexists].
  eapply (lh_alloc _ _ _ _ _ 22) in H0; [|lia|vm_compute; reflexivity].
  eexists _, _. split; [exact H0|]. split; [reflexivity|]. split; [vm_compute; reflexivity|].
  destruct (large_histories oneBlock giveBack id largeArena oneBlock_ok (fun h b => eq_refl) largeArena_low _ _ H0) as (Hlive & _).
  by apply (Hlive 4104 22).
Defined.

(** ** Three cases that the collector misses *)

Module Missed.

(** The heap limit is checked before the deferred releases have run. The dead object at 104 holds a
    block of 1000 bytes; its finalizer only queues the release. *)
Definition pacingLimit : Pacing := setHeapLimitBytes 500 (setBlockBytesLive 1000 (setCollectionInhibit 0 pacingStart)).
Definition releaseQueued (st : GC unit unit ElderSpace (LargeObjectAllocator (gmap Z Z))) :
    GC unit unit ElderSpace (LargeObjectAllocator (gmap Z Z)) :=
  if bool_decide (104 ∈ finalized st) then withPacing (fun p => setBlockBytesLive (blockBytesLive p - 1000) p) st else st.

(** The elder space has taken its budget since the last sweep. *)
Definition pacingBudget : Pacing := setElderBudget 64 (setElderBytesSinceSweep 64 (setCollectionInhibit 0 pacingStart)).

(** Functions, whose one reference is the carrier of their graph, and objects of one word. *)
#[export, refine] Instance functionLayout : Layout bool unit := {
  slotsOf function _ := if function then [mkSlot 0 None true] else [mkSlot 0 (Some tt) false];
  preciseType _ := true;
  onMoved _ _ w := w;
  heldBlock _ _ := 0;
}.
Proof.
  - done.
  - done.
  - intros [] ?; apply NoDup_singleton.
  - by intros [] ? s ->%list_elem_of_singleton.
Defined.

(** A root handle holds the function at 2056. Its graph at 5000, which no root set has, refers to a
    constant at 2072 that is younger than the function. *)
Definition functionHeap : gmap Z (Obj bool) :=
  <[5000 := mkObj (ObjectHeader 16) false [2072]]> (<[2056 := mkObj (youngHeader 1) true [5000]]>
  (<[2072 := mkObj (youngHeader 0) false [0]]> ∅)).
Definition functionStart : GC bool unit ElderSpace (LargeObjectAllocator (gmap Z Z)) :=
  mkGC functionHeap (mkBump 2048 2048 2080 2112) (mkBump 2112 2112 2112 2176) (mkBump 2176 2176 2176 2240) elderStart largeStart
    {[5000]} [] [mkCell 2056 (Some tt) false] ∅ ∅ [] [] [] 0 ∅ [] ∅ false pacingStart.
End Missed.
Import Missed.

(** The major collection finds the block's owner dead and throws, and without the queued release
    the heap would be within the limit. *)
Example limit_counts_garbage : exists managers st' e,
  safepoint releaseQueued owners (setPacing pacingLimit gcStart) = Some (managers, st', Some e) /\
  104 ∈ finalized st' /\ exLimit e < exHeld e /\ oldBytesHeld (releaseQueued st') <= heapLimitBytes_ (pacing st').
Proof.
  destruct (safepoint releaseQueued owners (setPacing pacingLimit gcStart)) as [[[managers st'] [e|]]|] eqn:E;
    [|apply (f_equal (fmap snd)) in E; vm_compute in E; done|apply (f_equal (fmap snd)) in E; vm_compute in E; done].
  exists managers, st', e. split; [done|]. vm_compute in E. injection E as <- <- <-. vm_compute. split_and!; [right; by left|done|done].
Qed.

(** The first collection promotes the function and copies the constant; the second loses it. *)
Example graph_constant_lost : exists st1 st2 c,
  minorGC functionStart = Some st1 /\ words <$> objs st1 !! 5000 = Some [c] /\ is_Some (objs st1 !! c) /\
  minorGC st1 = Some st2 /\ cellRef <$> cells st2 = cellRef <$> cells st1 /\ words <$> objs st2 !! 5000 = Some [c] /\ objs st2 !! c = None.
Proof.
  destruct (minorGC functionStart) as [st1|] eqn:E1; [|by vm_compute in E1].
  destruct (minorGC st1) as [st2|] eqn:E2; [|vm_compute in E1; injection E1 as <-; by vm_compute in E2].
  exists st1, st2. vm_compute in E1. injection E1 as <-. vm_compute in E2. injection E2 as <-.
  eexists. split; [done|]. split; [vm_compute; reflexivity|]. split; [by eexists|]. split; [done|]. by vm_compute.
Qed.

(** The minor pass of the major collection that the elder budget asked for promotes an object, and
    so asks for the same once more; the sweep starts the count anew and leaves the request. *)
Example major_asks_again : exists managers st',
  safepoint id owners (setPacing pacingBudget gcStart) = Some (managers, st', None) /\
  pendingSafepointCollection_ (pacing st') = Major /\ elderBytesSinceSweep_ (pacing st') = 0 /\
  elderBytesSinceSweep_ (pacing st') + blockBytesGrowth (pacing st') < elderBudget_ (pacing st').
Proof.
  destruct (safepoint id owners (setPacing pacingBudget gcStart)) as [[[managers st'] [e|]]|] eqn:E;
    [apply (f_equal (fmap snd)) in E; vm_compute in E; done| |apply (f_equal (fmap snd)) in E; vm_compute in E; done].
  exists managers, st'. split; [done|]. vm_compute in E. injection E as <- <-. by vm_compute.
Qed.
